(* ===== verification/_CoqProject ===== *)
-Q . S2P
Prelude.v
Doubles.v
Types.v
Timestamps.v
Config.v
Json.v
YamlParser.v
ConfigLoader.v
CacheKey.v
QueryCache.v
SqlAnalyze.v
SqlAuditor.v
Connection.v
Context.v
Interceptor.v
Observer.v
WriteBuffer.v
Breaker.v
ConnectionPool.v
DataSource.v
Transaction.v
Statements.v
Executor.v
PgTypes.v
PgValues.v
PgConninfo.v
Prepared.v
Postgres.v
Native.v
Books.v
NativeCache.v
MysqlValues.v
Mysql.v
MysqlBooks.v
MysqlFetch.v
OracleTypes.v
RateLimiter.v
Topology.v
Scripts.v
Routines.v
Exporters.v
Reporter.v
Heartbeat.v
Client.v
Converters.v
Mapping.v
Entities.v
Utf8.v
