(* ===== verification/Prelude.v ===== *)
(** * SQLConduit: a verification library

    A model of SQLConduit, a C++ middleware between applications and relational
    databases (paths below are under [src/]), and the theorems about it. This file
    is the prelude: strings, characters, machine integers, the state monad with
    its Hoare-style lemmas, and the tactics and hints the other files share.

    ** The program and the files

    A [Client] owns a [DatabaseManager], which publishes data sources. A leaf data
    source has a connection pool, a circuit breaker, a rate limiter and an auditor; a
    group routes reads and writes to leaves. A statement passes the auditor, the
    limiter, the interceptors and the cache, borrows a connection and runs on a
    driver; observability records it.

    Data and text:
    - [Doubles], [Types], [Timestamps]: [common/types.h] and [types.cpp];
    - [PgTypes], [OracleTypes]: [common/pg_types.cpp], [common/oracle_types.cpp];
    - [SqlAnalyze]: [common/sql_analyze.cpp], the scanners of SQL text;
    - [Context]: [common/context.cpp];
    - [Config], [Json], [YamlParser], [ConfigLoader]: [config/].
    Statements:
    - [SqlAuditor], [RateLimiter], [Interceptor], [CacheKey], [QueryCache], [Observer]:
      the files of those names under [core/] and [common/];
    - [Connection]: [core/idatabase_connection.cpp], what drivers inherit;
    - [Prepared]: the cache of prepared statements the drivers share; [PgValues],
      [PgConninfo], [Postgres]: [driver/postgres_driver.cpp];
    - [Native]: calls of a client library written in C, with handles; [Books]: the
      assertions on them; [NativeCache]: prepared statements over such a library;
      [MysqlValues], [Mysql], [MysqlBooks], [MysqlFetch]: [driver/mysql_driver.cpp];
    - [Utf8]: the conversion to wide characters of [driver/odbc_driver.cpp];
    - [Breaker], [DataSource], [Transaction], [Statements], [Topology]:
      [core/database_manager.cpp], in that order from the parts to the whole.
    Threads:
    - [ConnectionPool], [WriteBuffer], [Executor], [Heartbeat], [Reporter]: the
      classes with a mutex and threads of their own.
    Surface:
    - [Client]: [client.cpp]; [Scripts], [Routines]: [util.h]; [Converters], [Mapping],
      [Entities]: [mapping.h]; [Exporters]: [exporters/prometheus.cpp].
    Each file's opening comment names the functions it models and its state.

    ** How the code is modelled

    A [std::string] is a list of bytes; an integer is a [Z] with its width's
    wrap-around written where it can matter; a [double] is an IEEE number. A stateful
    operation is a state transformer [ST S A]; where a class releases its mutex
    in the middle of an operation, one definition is one critical section, and a step
    relation or a list of events interleaves them (pools, executor, write buffer,
    reporter, heartbeat, client). Exceptions the code catches are values. Objects
    shared by pointers are numbers in a store where aliasing matters ([Topology]).

    What is not in the repository is a parameter: the client libraries of the
    vendors, nlohmann::json ([JsonOps] and [JsonLaws] in [Json]), the clock, the random
    generator, [strtod], [snprintf], [mktime] and [localtime_r], the printing of doubles by
    a stream, the file system, and the callbacks of the user. The interfaces between
    components are classes: [Driver] in [Connection] for drivers, [Pqxx] in [Postgres]
    for libpqxx, [Library], [Handles] and [LawfulLibrary] in [Native] for client
    libraries in C, [Manager] in [Client], which [Topology] implements, [Arith] in
    [Doubles] for the limiters, [ValueConverter], [LawfulConverter], [RowMapper] and
    [EntityOps] for the types of a mapped object.

    ** What the theorems show

    - A pool counts and accounts for each of its connections under every
      interleaving ([pool_books], [pool_connections_accounted]) and agrees with
      a sequential specification of borrowing ([borrow_alone_correct]).
    - A write that is not idempotent reaches the database at most once, with drivers
      whose errors never mean that nothing was sent ([non_idempotent_write_once]);
      reads go where the routing rule says ([readTarget_spec]); a write empties the
      caches of its group, outside shadow requests ([write_empties_group_caches]).
    - Transactions end the way their callback says, if it leaves them to the library,
      and give connections back clean ([transaction_outcome],
      [connection_returned_clean], [tx_depth_restored]).
    - A topology is well formed after any operations and failed ones publish nothing
      ([topology_wf], [failed_operation_publishes_nothing]); the client keeps it well
      formed under its own threads, publishes nothing once it is shut down but for a
      dynamic operation that comes late ([client_topology]), and keeps every promise
      ([no_future_lost]).
    - The executor implements a FIFO queue ([executor_refines_fifo]) and drains at
      shutdown; the heartbeat's and the reporter's [stop] return.
    - Text: parameters the driver's literal protects stay literals, masking blanks
      exactly the literal regions, quoting and array, descriptor and RETURNING texts
      read back, the YAML parser inverts a printer and is total,
      configuration files are checked, scripts without compound blocks split at their own
      boundaries ([split_script_roundtrip]).
    - The PostgreSQL driver makes a unit of work of every statement
      ([statements_are_units_of_work]), keeps its books of transactions and prepared
      names with the server's ([session_books]), and reads back the values it sends
      that fit the column ([values_read_back]) and its connection string
      ([conninfo_reads_back]); a prepared statement is found by its
      own text and types only and the oldest is dropped ([prepared_key_injective],
      [prepared_cache_refines_lru]).
    - The MySQL driver gives back every handle of the client library, uses none that
      it gave back as long as cursors are not fetched from after their connection is
      closed, knows whether the server is in a transaction, and runs every
      statement of a caller so that it can be cancelled ([my_session_books]); its
      results stay within the limit of rows ([my_rows_bounded]), and rows fetched
      into buffers that hold them read as the same texts do ([prepared_rows_read_as_text]).
    - Mapped objects: what is stored reads back ([entity_roundtrip]), statements and
      parameters agree ([sql_matches_params]), streams deliver the rows before the
      first that cannot be mapped ([queryEachAs_delivers]), integers convert exactly
      or not at all ([integer_conversion_exact]).
    - Rates, counters, caches and tables stay within their bounds.
    Theorems on single states that exhibit a defect are recorded as findings.

    ** Fuel

    A loop whose recursion is not structural takes fuel, and the definition that
    calls it supplies enough: the length of the text for the scanners of
    [SqlAnalyze], [Connection], [Scripts], [Routines], [PgTypes], [OracleTypes] and [Exporters],
    since every round consumes a character; three units a line for the YAML parser
    ([parseYaml_total]); the size of the table for the eviction loops of
    [QueryCache] and [Observer], since each round removes an entry; the number of
    attempts for the retry loops of [DataSource], which is their bound in the code. A
    stream of [Postgres] takes its number of chunks as fuel, which no bound of the code
    gives: [stream_loop_ends] states when it is enough. So do the loops over the
    results and rows of a client library ([Mysql]); an operation whose fuel ends is
    [Running], and the invariants hold of it too.

    ** What is not modelled

    The bundled JSON library (third-party code); the bodies of the Oracle and
    ODBC drivers, but for [Utf8]; the forwarding overloads that only add default arguments; log lines; the
    emission of events by [DataSource] and [Session], whose recording is [Observer]'s; the
    unspecified order of unordered maps, taken as one fixed order. *)
From stdpp Require Import base gmap sets list strings.
From Stdlib Require Import Ascii ZArith Lia.
From Stdlib Require DecimalN DecimalNat DecimalString.

(** ** Strings

    A [std::string] is the list of its bytes. *)
Abbreviation str := (list ascii).

(** Literals of the source: [lit "abc"]. *)
Definition lit (s : string) : str := String.list_ascii_of_string s.
Arguments lit !s /.

Definition code (c : ascii) : N := N_of_ascii c.

(** [operator==] on strings and [s.empty()]. *)
Definition str_eqb (a b : str) : bool := bool_decide (a = b).
Definition is_nil {A} (l : list A) : bool := match l with [] => true | _ => false end.

(** ** <cctype> in the "C" locale *)
Definition in_range (lo hi n : N) : bool := (lo <=? n)%N && (n <=? hi)%N.
Definition isspace (c : ascii) : bool := in_range 9 13 (code c) || (code c =? 32)%N.
Definition isdigit (c : ascii) : bool := in_range 48 57 (code c).
Definition isupper (c : ascii) : bool := in_range 65 90 (code c).
Definition islower (c : ascii) : bool := in_range 97 122 (code c).
Definition isalpha (c : ascii) : bool := isupper c || islower c.
Definition isalnum (c : ascii) : bool := isalpha c || isdigit c.
Definition isxdigit (c : ascii) : bool :=
  isdigit c || in_range 65 70 (code c) || in_range 97 102 (code c).
Definition toupper (c : ascii) : ascii :=
  if islower c then ascii_of_N (code c - 32) else c.
Definition tolower (c : ascii) : ascii :=
  if isupper c then ascii_of_N (code c + 32) else c.
(** The lambda [isIdent] of the scanners. *)
Definition is_ident (c : ascii) : bool := isalnum c || Ascii.eqb c "_".

(** [std::string::find(needle)]: the offset of the first occurrence. *)
Fixpoint prefixb (p s : str) : bool :=
  match p, s with
  | [], _ => true
  | a :: p', b :: s' => Ascii.eqb a b && prefixb p' s'
  | _ :: _, [] => false
  end.

Fixpoint str_find (p s : str) : option nat :=
  if prefixb p s then Some 0
  else match s with
       | [] => None
       | _ :: s' => S <$> str_find p s'
       end.

(** [s.find(p) != npos] *)
Definition str_contains (p s : str) : bool :=
  match str_find p s with Some _ => true | None => false end.

(** The longest prefix satisfying a test, and what follows it. *)
Fixpoint skip_while (f : ascii -> bool) (s : str) : str :=
  match s with
  | c :: s' => if f c then skip_while f s' else s
  | [] => []
  end.

Fixpoint take_while (f : ascii -> bool) (s : str) : str :=
  match s with
  | c :: s' => if f c then c :: take_while f s' else []
  | [] => []
  end.

(** ** Machine integers *)
Definition two64 : Z := (2 ^ 64)%Z.
Definition u64 (z : Z) : Z := (z mod two64)%Z.
(** An [int] whose overflow wraps around. *)
Definition i32 (z : Z) : Z := ((z + 2 ^ 31) mod 2 ^ 32 - 2 ^ 31)%Z.

(** FNV-1a over bytes, as the fingerprint functions write it. *)
Definition fnv_offset : Z := 1469598103934665603.
Definition fnv_prime : Z := 1099511628211.
Definition fnv_step (h : Z) (c : ascii) : Z :=
  u64 (Z.lxor h (Z.of_N (code c)) * fnv_prime).
Definition fnv1a (s : str) : Z := fold_left fnv_step s fnv_offset.

(** ** [std::to_string] *)
Fixpoint uint_str (u : Decimal.uint) : str :=
  match u with
  | Decimal.Nil => []
  | Decimal.D0 u => "0"%char :: uint_str u
  | Decimal.D1 u => "1"%char :: uint_str u
  | Decimal.D2 u => "2"%char :: uint_str u
  | Decimal.D3 u => "3"%char :: uint_str u
  | Decimal.D4 u => "4"%char :: uint_str u
  | Decimal.D5 u => "5"%char :: uint_str u
  | Decimal.D6 u => "6"%char :: uint_str u
  | Decimal.D7 u => "7"%char :: uint_str u
  | Decimal.D8 u => "8"%char :: uint_str u
  | Decimal.D9 u => "9"%char :: uint_str u
  end.

Definition dec_N (n : N) : str := uint_str (N.to_uint n).
Definition dec_nat (n : nat) : str := dec_N (N.of_nat n).
Definition dec_Z (z : Z) : str :=
  if (z <? 0)%Z then "-"%char :: dec_N (Z.abs_N z) else dec_N (Z.to_N z).

(** ** Automation

    [split_if] cases on the innermost test or scrutinee of the goal;
    [split_ifs] repeats it and closes what congruence and [lia] close. *)
Ltac split_if :=
  match goal with
  | |- context [match ?x with _ => _ end] =>
      lazymatch x with context [match _ with _ => _ end] => fail | _ => destruct x eqn:? end
  | |- context [if ?x then _ else _] =>
      lazymatch x with context [if _ then _ else _] => fail | _ => destruct x eqn:? end
  end.
Ltac split_ifs := repeat (split_if; simpl in *; try congruence; try lia).

Ltac split_if_in H :=
  match type of H with
  | context [match ?x with _ => _ end] =>
      lazymatch x with context [match _ with _ => _ end] => fail | _ => destruct x eqn:? end
  end.

(** Boolean tests of the source as propositions. *)
Ltac bool_prop :=
  repeat match goal with
  | H : (_ && _) = true |- _ => apply andb_true_iff in H; destruct H
  | H : (_ || _) = false |- _ => apply orb_false_iff in H; destruct H
  | H : negb _ = true |- _ => apply negb_true_iff in H
  | H : negb _ = false |- _ => apply negb_false_iff in H
  | H : (_ <? _)%Z = true |- _ => apply Z.ltb_lt in H
  | H : (_ <? _)%Z = false |- _ => apply Z.ltb_ge in H
  | H : (_ <=? _)%Z = true |- _ => apply Z.leb_le in H
  | H : (_ <=? _)%Z = false |- _ => apply Z.leb_gt in H
  | H : (_ =? _)%Z = true |- _ => apply Z.eqb_eq in H
  | H : (_ =? _)%Z = false |- _ => apply Z.eqb_neq in H
  | H : (_ <? _)%nat = true |- _ => apply Nat.ltb_lt in H
  | H : (_ <? _)%nat = false |- _ => apply Nat.ltb_ge in H
  | H : (_ <=? _)%nat = true |- _ => apply Nat.leb_le in H
  | H : (_ <=? _)%nat = false |- _ => apply Nat.leb_gt in H
  | H : (_ =? _)%nat = true |- _ => apply Nat.eqb_eq in H
  | H : (_ =? _)%nat = false |- _ => apply Nat.eqb_neq in H
  | H : (_ <=? _)%N = true |- _ => apply N.leb_le in H
  | H : (_ <=? _)%N = false |- _ => apply N.leb_gt in H
  | H : Ascii.eqb _ _ = true |- _ => apply Ascii.eqb_eq in H
  | H : Ascii.eqb _ _ = false |- _ => apply Ascii.eqb_neq in H
  | H : bool_decide _ = true |- _ => apply bool_decide_eq_true in H
  | H : bool_decide _ = false |- _ => apply bool_decide_eq_false in H
  end.

(** Decide a closed statement about one character by its 256 cases. *)
Ltac all_chars c := destruct c as [[] [] [] [] [] [] [] []]; vm_compute; try done.

(** ** Lemmas on strings *)
Lemma str_eqb_eq a b : str_eqb a b = true <-> a = b.
Proof. unfold str_eqb. by rewrite bool_decide_eq_true. Qed.

Lemma str_eqb_refl a : str_eqb a a = true.
Proof. by apply str_eqb_eq. Qed.

Lemma prefixb_spec p s : prefixb p s = true <-> exists t, s = p ++ t.
Proof.
  revert s. induction p as [|a p IH]; intros s; simpl.
  - split; [by exists s | done].
  - destruct s as [|b s]; [split; [done | by intros []] |].
    rewrite andb_true_iff, Ascii.eqb_eq, IH. split.
    + intros [-> [t ->]]. by exists t.
    + intros [t [= -> ->]]. eauto.
Qed.

Lemma prefixb_app p t : prefixb p (p ++ t) = true.
Proof. apply prefixb_spec. eauto. Qed.

Lemma str_find_Some p s k :
  str_find p s = Some k -> prefixb p (drop k s) = true /\ k + length p <= length s.
Proof.
  revert k. induction s as [|c s IH]; intros k; cbn [str_find].
  - destruct (prefixb p []) eqn:E; [|done]. intros [= <-]. split; [done|].
    apply prefixb_spec in E as [t E]. destruct p; [simpl; lia | done].
  - destruct (prefixb p (c :: s)) eqn:E.
    + intros [= <-]. split; [done|]. apply prefixb_spec in E as [t ->].
      rewrite length_app. lia.
    + destruct (str_find p s) as [j|]; [|done]. intros [= <-].
      destruct (IH j eq_refl). simpl. split; [done | lia].
Qed.

Lemma skip_while_suffix f s : exists p, s = p ++ skip_while f s /\ Forall (fun c => f c = true) p.
Proof.
  induction s as [|c s (p & E & F)]; simpl; [by exists []|].
  destruct (f c) eqn:Ec.
  - exists (c :: p). rewrite E at 1. eauto.
  - exists []. eauto.
Qed.

Lemma skip_while_length f s : length (skip_while f s) <= length s.
Proof. induction s as [|c s IH]; simpl; [lia|]. destruct (f c); simpl; lia. Qed.

Lemma take_skip_while f s : take_while f s ++ skip_while f s = s.
Proof. induction s as [|c s IH]; simpl; [done|]. destruct (f c); simpl; congruence. Qed.

Lemma take_while_all f s : Forall (fun c => f c = true) (take_while f s).
Proof. induction s as [|c s IH]; simpl; [done|]. destruct (f c) eqn:?; by constructor. Qed.

Lemma skip_while_app_all f p s :
  Forall (fun c => f c = true) p -> skip_while f (p ++ s) = skip_while f s.
Proof. induction 1 as [|c p Hc _ IH]; simpl; [done|]. by rewrite Hc. Qed.

Lemma skip_while_head f s c t : skip_while f s = c :: t -> f c = false.
Proof.
  induction s as [|d s IH]; simpl; [done|]. destruct (f d) eqn:E; [done|].
  by intros [= -> _].
Qed.

Lemma u64_range z : (0 <= u64 z < two64)%Z.
Proof. apply Z.mod_pos_bound. done. Qed.

Lemma fnv1a_range s : (0 <= fnv1a s < two64)%Z.
Proof.
  unfold fnv1a. assert (H : (0 <= fnv_offset < two64)%Z) by done.
  revert H. generalize fnv_offset. induction s as [|c s IH]; intros h H; simpl; [done|].
  apply IH, u64_range.
Qed.

(** *** Decimal printing *)
Lemma uint_str_inj u v : uint_str u = uint_str v -> u = v.
Proof. revert v. induction u; destruct v; simpl; intros [=]; f_equal; auto. Qed.

Lemma uint_str_digits u : Forall (fun c => isdigit c = true) (uint_str u).
Proof. induction u; simpl; constructor; done. Qed.

Lemma dec_N_inj n m : dec_N n = dec_N m -> n = m.
Proof.
  intros H%uint_str_inj. rewrite <- (DecimalN.Unsigned.of_to n), H.
  apply DecimalN.Unsigned.of_to.
Qed.

Lemma dec_N_digits n : Forall (fun c => isdigit c = true) (dec_N n).
Proof. apply uint_str_digits. Qed.

Lemma dec_N_nonnil n : dec_N n <> [].
Proof.
  unfold dec_N. intros H.
  assert (N.to_uint n = Decimal.Nil) as E by (by apply uint_str_inj).
  destruct n as [|p]; [done|]. simpl in E.
  assert (N.of_uint (N.to_uint (N.pos p)) = N.pos p) as F by apply DecimalN.Unsigned.of_to.
  simpl in F. by rewrite E in F.
Qed.

Lemma dec_nat_inj n m : dec_nat n = dec_nat m -> n = m.
Proof. intros ?%dec_N_inj. lia. Qed.

(** Two digit runs followed by a non-digit (or the end) split at the same place. *)
Definition no_digit_head (s : str) : Prop :=
  match s with c :: _ => isdigit c = false | [] => True end.

Lemma digits_app_inj a b x y :
  Forall (fun c => isdigit c = true) a -> Forall (fun c => isdigit c = true) b ->
  no_digit_head x -> no_digit_head y -> a ++ x = b ++ y -> a = b /\ x = y.
Proof.
  intros Ha. revert b. induction Ha as [|c a Hc Ha IH]; intros b Hb Hx Hy E.
  - destruct Hb as [|d b Hd Hb]; [done|]. simpl in E. subst x. simpl in Hx. congruence.
  - destruct Hb as [|d b Hd Hb].
    + simpl in E. subst y. simpl in Hy. congruence.
    + simpl in E. injection E as -> E. destruct (IH b Hb Hx Hy E) as [-> ->]. done.
Qed.

Lemma dec_N_app_inj n m x y :
  no_digit_head x -> no_digit_head y -> dec_N n ++ x = dec_N m ++ y -> n = m /\ x = y.
Proof.
  intros Hx Hy E.
  destruct (digits_app_inj _ _ _ _ (dec_N_digits n) (dec_N_digits m) Hx Hy E).
  split; [by apply dec_N_inj | done].
Qed.

Lemma dec_nat_app_inj n m x y :
  no_digit_head x -> no_digit_head y -> dec_nat n ++ x = dec_nat m ++ y -> n = m /\ x = y.
Proof. intros Hx Hy [? ?]%dec_N_app_inj; [|done..]. split; [lia | done]. Qed.

Lemma dec_N_no_minus n x y : dec_N n ++ x = "-"%char :: y -> False.
Proof.
  pose proof (dec_N_digits n) as F. pose proof (dec_N_nonnil n).
  destruct (dec_N n) as [|c s]; [done|]. intros [= -> _]. inversion F; by subst.
Qed.

Lemma dec_Z_app_inj a b x y :
  no_digit_head x -> no_digit_head y -> dec_Z a ++ x = dec_Z b ++ y -> a = b /\ x = y.
Proof.
  intros Hx Hy. unfold dec_Z. destruct (Z.ltb_spec a 0), (Z.ltb_spec b 0); simpl; intros E.
  - injection E as E. apply dec_N_app_inj in E as [E ->]; [|done..]. split; [lia | done].
  - by symmetry in E; apply dec_N_no_minus in E.
  - by apply dec_N_no_minus in E.
  - apply dec_N_app_inj in E as [E ->]; [|done..]. split; [lia | done].
Qed.

(** ** A state monad

    Operations on a shared or thread-local state [S]: [ST S A] runs from a state
    and leaves a result and the new state. *)
Definition ST (S A : Type) : Type := S -> A * S.
Definition ret {S A} (a : A) : ST S A := fun s => (a, s).
Definition bind {S A B} (m : ST S A) (k : A -> ST S B) : ST S B :=
  fun s => let '(a, s1) := m s in k a s1.
Definition modify {S} (f : S -> S) : ST S unit := fun s => (tt, f s).
Definition reads {S A} (f : S -> A) : ST S A := fun s => (f s, s).

Declare Scope st_scope.
Delimit Scope st_scope with st.
Notation "x <-- m ; k" := (bind m (fun x => k))
  (at level 100, m at next level, right associativity) : st_scope.
Notation "m ;; k" := (bind m (fun _ => k))
  (at level 100, right associativity) : st_scope.

(** [m] leaves [f] of the state as it was. *)
Definition preserves {S A B} (f : S -> B) (m : ST S A) : Prop := forall s, f (m s).2 = f s.

Lemma preserves_ret {S A B} (f : S -> B) (a : A) : preserves f (ret a).
Proof. done. Qed.
Lemma preserves_bind {S A B C} (f : S -> C) (m : ST S A) (k : A -> ST S B) :
  preserves f m -> (forall a, preserves f (k a)) -> preserves f (bind m k).
Proof. intros Hm Hk s. unfold bind. specialize (Hm s). destruct (m s) as [a s1]. by rewrite Hk. Qed.
Lemma preserves_reads {S A B} (f : S -> B) (g : S -> A) : preserves f (reads g).
Proof. done. Qed.

(** [for (auto &x : l) body(x)] *)
Fixpoint for_each {S A} (l : list A) (body : A -> ST S unit) : ST S unit :=
  match l with
  | [] => ret tt
  | x :: l' => bind (body x) (fun _ => for_each l' body)
  end.

Lemma preserves_for_each {S A B} (f : S -> B) (l : list A) (body : A -> ST S unit) :
  (forall x, preserves f (body x)) -> preserves f (for_each l body).
Proof. intros H. induction l; [done|]. by apply preserves_bind. Qed.

(** [m] takes states of [P] to states of [P]. *)
Definition keeps {S A} (P : S -> Prop) (m : ST S A) : Prop := forall s, P s -> P (m s).2.

Lemma keeps_ret {S A} (P : S -> Prop) (a : A) : keeps P (ret a).
Proof. by intros s. Qed.
Lemma keeps_bind {S A B} (P : S -> Prop) (m : ST S A) (k : A -> ST S B) :
  keeps P m -> (forall a, keeps P (k a)) -> keeps P (bind m k).
Proof. intros Hm Hk s H. unfold bind. specialize (Hm s H). destruct (m s) as [a s1]. by apply Hk. Qed.
Lemma keeps_reads {S A} (P : S -> Prop) (g : S -> A) : keeps P (reads g).
Proof. by intros s. Qed.
Lemma keeps_modify {S} (P : S -> Prop) (f : S -> S) : (forall s, P s -> P (f s)) -> keeps P (modify f).
Proof. done. Qed.
Lemma keeps_for_each {S A} (P : S -> Prop) (l : list A) (body : A -> ST S unit) :
  (forall x, keeps P (body x)) -> keeps P (for_each l body).
Proof. intros H. induction l; [apply keeps_ret|]. by apply keeps_bind. Qed.
Lemma preserves_keeps {S A B} (f : S -> B) (P : B -> Prop) (m : ST S A) :
  preserves f m -> keeps (fun s => P (f s)) m.
Proof. intros H s. by rewrite H. Qed.

(** From a state of [P], [m] answers and leaves a state as [Q] says. *)
Definition hoare {S A} (P : S -> Prop) (m : ST S A) (Q : A -> S -> Prop) : Prop :=
  forall s, P s -> Q (m s).1 (m s).2.

Lemma hoare_ret {S A} (P : S -> Prop) (Q : A -> S -> Prop) (a : A) :
  (forall s, P s -> Q a s) -> hoare P (ret a) Q.
Proof. done. Qed.
Lemma hoare_bind {S A B} (P : S -> Prop) Q R (m : ST S A) (k : A -> ST S B) :
  hoare P m Q -> (forall a, hoare (Q a) (k a) R) -> hoare P (bind m k) R.
Proof.
  intros Hm Hk s H. unfold bind. specialize (Hm s H). destruct (m s) as [a s1]. by apply Hk.
Qed.
Lemma hoare_keeps {S A} (P : S -> Prop) (m : ST S A) : keeps P m -> hoare P m (fun _ => P).
Proof. intros H s Hs. by apply H. Qed.
Lemma hoare_conseq {S A} (P P' : S -> Prop) (Q Q' : A -> S -> Prop) (m : ST S A) :
  hoare P m Q -> (forall s, P' s -> P s) -> (forall a s, Q a s -> Q' a s) -> hoare P' m Q'.
Proof. intros H HP HQ s Hs. apply HQ, H, HP, Hs. Qed.
Lemma hoare_false {S A} (P : S -> Prop) (Q : A -> S -> Prop) (m : ST S A) :
  (forall s, ~ P s) -> hoare P m Q.
Proof. intros H s Hs. by destruct (H s). Qed.

Create HintDb state_db.
#[export] Hint Resolve preserves_ret preserves_bind preserves_reads preserves_for_each : state_db.
#[export] Hint Resolve keeps_ret keeps_bind keeps_reads keeps_for_each : state_db.
