(* ===== verification/Doubles.v ===== *)
(** * Double-precision numbers

    A [double] is a [spec_float] of 53 bits and maximal exponent 1024; the
    operations are the IEEE ones, rounded to nearest even.  [Arith] names the
    operations a computation uses, so that what does not depend on rounding is
    proved once for every instance, and what holds up to rounding for the exact
    rationals. *)
From stdpp Require Import base.
From Stdlib Require Import ZArith QArith.
From Stdlib Require Import Floats.SpecFloat.

Abbreviation double := spec_float.
Definition f64 (z : Z) : double := binary_normalize 53 1024 z 0 false.
Definition fadd : double -> double -> double := SFadd 53 1024.
Definition fsub : double -> double -> double := SFsub 53 1024.
Definition fmul : double -> double -> double := SFmul 53 1024.
Definition fdiv : double -> double -> double := SFdiv 53 1024.
Definition isnan (v : double) : bool := match v with S754_nan => true | _ => false end.
Definition isinf (v : double) : bool := match v with S754_infinity _ => true | _ => false end.

Class Arith (R : Type) := {
  num_of_Z : Z -> R;
  num_add : R -> R -> R;
  num_sub : R -> R -> R;
  num_mul : R -> R -> R;
  num_div : R -> R -> R;
  num_ltb : R -> R -> bool;
  num_leb : R -> R -> bool }.

#[export] Instance double_arith : Arith double := {
  num_of_Z := f64; num_add := fadd; num_sub := fsub; num_mul := fmul; num_div := fdiv;
  num_ltb := SFltb; num_leb := SFleb }.

#[export] Instance rational_arith : Arith Q := {
  num_of_Z := inject_Z; num_add := Qplus; num_sub := Qminus; num_mul := Qmult; num_div := Qdiv;
  num_ltb := fun a b => negb (Qle_bool b a); num_leb := Qle_bool }.

(** ** The 64-bit pattern of a double *)
Open Scope Z_scope.
Definition double_of_bits (bits : Z) : double :=
  let sign := Z.testbit bits 63 in
  let e := Z.land (Z.shiftr bits 52) 2047 in
  let m := Z.land bits (2 ^ 52 - 1) in
  if e =? 2047 then (if m =? 0 then S754_infinity sign else S754_nan)
  else if e =? 0 then
    match m with Z.pos p => S754_finite sign p (-1074) | _ => S754_zero sign end
  else match m + 2 ^ 52 with Z.pos p => S754_finite sign p (e - 1075) | _ => S754_nan end.

Definition sign_bit (sign : bool) : Z := if sign then 2 ^ 63 else 0.
Definition bits_of_double (v : double) : Z :=
  match v with
  | S754_nan => 2047 * 2 ^ 52 + 2 ^ 51
  | S754_infinity sign => sign_bit sign + 2047 * 2 ^ 52
  | S754_zero sign => sign_bit sign
  | S754_finite sign m e =>
      if Z.pos m <? 2 ^ 52 then sign_bit sign + Z.pos m
      else sign_bit sign + (e + 1075) * 2 ^ 52 + (Z.pos m - 2 ^ 52)
  end.
Close Scope Z_scope.
