(* ===== verification/Types.v ===== *)
(** * Values, rows, statuses

    Models [include/sqlconduit/common/types.h] and the parts of
    [src/common/types.cpp] that do not depend on the time zone: error codes,
    [Status] and the SQLSTATE classification, the [Value] variant, rows and
    result sets, literal escaping and identifier quoting. *)
From stdpp Require Import base gmap list strings.
From Stdlib Require Import Ascii ZArith Lia.
From S2P Require Import Prelude.

(** ** Error codes *)
Inductive ErrorCode :=
  | Ok | ConfigError | ConnectionFailed | QueryError | QueryTimeout | Cancelled
  | ConstraintViolation | Deadlock | PingFailed | TxError | PoolExhausted | PoolClosed
  | CircuitOpen | NotConnected | DriverDisabled | UnknownDriver | NotSupported | RateLimited
  | SqlBlocked | Buffered | CursorClosed | CursorLimit | CursorError | Unknown | Overloaded
  | MappingError | IoError | NotInitialized | AlreadyInitialized | ClientClosed.

#[export] Instance ErrorCode_eq_dec : EqDecision ErrorCode.
Proof. solve_decision. Defined.

Definition errorCodeToString (c : ErrorCode) : string :=
  match c with
  | Ok => "Ok"
  | ConfigError => "ConfigError"
  | ConnectionFailed => "ConnectionFailed"
  | QueryError => "QueryError"
  | QueryTimeout => "QueryTimeout"
  | Cancelled => "Cancelled"
  | ConstraintViolation => "ConstraintViolation"
  | Deadlock => "Deadlock"
  | PingFailed => "PingFailed"
  | TxError => "TxError"
  | PoolExhausted => "PoolExhausted"
  | PoolClosed => "PoolClosed"
  | CircuitOpen => "CircuitOpen"
  | NotConnected => "NotConnected"
  | DriverDisabled => "DriverDisabled"
  | UnknownDriver => "UnknownDriver"
  | NotSupported => "NotSupported"
  | RateLimited => "RateLimited"
  | SqlBlocked => "SqlBlocked"
  | Buffered => "Buffered"
  | CursorClosed => "CursorClosed"
  | CursorLimit => "CursorLimit"
  | CursorError => "CursorError"
  | Unknown => "Unknown"
  | Overloaded => "Overloaded"
  | MappingError => "MappingError"
  | IoError => "IoError"
  | NotInitialized => "NotInitialized"
  | AlreadyInitialized => "AlreadyInitialized"
  | ClientClosed => "ClientClosed"
  end.

(** The operation types of [observer.h]. *)
Inductive OperationType :=
  | OpQuery | OpExecute | OpBegin | OpCommit | OpRollback | OpCancel | OpStream | OpBatch
  | OpSavepoint | OpSelect | OpRoutine.

#[export] Instance OperationType_eq_dec : EqDecision OperationType.
Proof. solve_decision. Defined.

(** ** Status *)
Record Status := mkStatus {
  st_code : ErrorCode;
  st_message : str;
  st_sqlState : str;
  st_nativeCode : Z;
  st_retryable : bool;
  st_connectionBroken : bool;
}.

#[export] Instance Status_eq_dec : EqDecision Status.
Proof. solve_decision. Defined.

Definition code_eqb (a b : ErrorCode) : bool := bool_decide (a = b).

Definition st_ok (s : Status) : bool := code_eqb (st_code s) Ok.

Definition StatusOK : Status := mkStatus Ok [] [] 0 false false.

Definition status_error (c : ErrorCode) (msg : str) : Status :=
  mkStatus c msg [] 0 false false.

Definition set_retryable (b : bool) (s : Status) : Status :=
  mkStatus (st_code s) (st_message s) (st_sqlState s) (st_nativeCode s) b
    (st_connectionBroken s).

Definition set_broken (b : bool) (s : Status) : Status :=
  mkStatus (st_code s) (st_message s) (st_sqlState s) (st_nativeCode s) (st_retryable s) b.

Definition set_code (c : ErrorCode) (s : Status) : Status :=
  mkStatus c (st_message s) (st_sqlState s) (st_nativeCode s) (st_retryable s)
    (st_connectionBroken s).

(** [Status::databaseError]: the classification of a SQLSTATE. *)
Definition databaseError (fallback : ErrorCode) (msg state : str) (vendorCode : Z) : Status :=
  let status := mkStatus fallback msg state vendorCode false false in
  let sqlClass := if 2 <=? length state then take 2 state else [] in
  if str_eqb state (lit "HYT00") || str_eqb state (lit "HYT01") then
    set_retryable true (set_code QueryTimeout status)
  else if str_eqb state (lit "57014") then
    if str_contains (lit "timeout") msg
    then set_retryable true (set_code QueryTimeout status)
    else set_code Cancelled status
  else if str_eqb state (lit "HY008") then set_code Cancelled status
  else if str_eqb state (lit "40001") || str_eqb state (lit "40P01") ||
          str_eqb sqlClass (lit "40") then
    set_retryable true (set_code Deadlock status)
  else if str_eqb sqlClass (lit "23") then set_code ConstraintViolation status
  else if str_eqb sqlClass (lit "08") then
    let status := set_retryable true (set_broken true status) in
    if code_eqb fallback QueryError || code_eqb fallback TxError
    then set_code ConnectionFailed status
    else status
  else status.

(** ** Values

    The alternatives of [ValueBase] in their order. A [double] is its 64-bit
    pattern, a [Timestamp] its count of clock ticks, a [Blob] its bytes. *)
#[warnings="-register-all"]
Inductive Value :=
  | VNull
  | VBool (b : bool)
  | VInt64 (z : Z)
  | VUInt64 (z : Z)
  | VDouble (bits : Z)
  | VDecimal (s : str)
  | VString (s : str)
  | VDate (s : str)
  | VTime (s : str)
  | VTimestamp (ticks : Z)
  | VUuid (s : str)
  | VJson (s : str)
  | VBlob (b : str)
  | VIntervalYearMonth (s : str)
  | VIntervalDaySecond (s : str)
  | VArray (items : list Value)
  | VComposite (fields : list (str * Value))
  | VTypedArray (typeName : str) (items : list Value)
  | VTypedComposite (typeName : str) (fields : list (str * Value)).

(** The induction principle with hypotheses for the nested values. *)
Section ValueInduction.
Variable P : Value -> Prop.
Definition leaf (v : Value) : bool :=
    match v with
    | VArray _ | VComposite _ | VTypedArray _ _ | VTypedComposite _ _ => false
    | _ => true
    end.
Hypothesis Hleaf : forall v, leaf v = true -> P v.
Hypothesis Harr : forall l, Forall P l -> P (VArray l).
Hypothesis Hcomp : forall l, Forall (fun f => P (snd f)) l -> P (VComposite l).
Hypothesis Htarr : forall n l, Forall P l -> P (VTypedArray n l).
Hypothesis Htcomp : forall n l, Forall (fun f => P (snd f)) l -> P (VTypedComposite n l).

Fixpoint Value_nested_ind (v : Value) : P v :=
    let items := fix go (l : list Value) : Forall P l :=
      match l with
      | [] => Forall_nil_2 _
      | x :: l' => Forall_cons_2 _ _ _ (Value_nested_ind x) (go l')
      end in
    let flds := fix go (l : list (str * Value)) : Forall (fun f => P (snd f)) l :=
      match l with
      | [] => Forall_nil_2 _
      | (k, x) :: l' => Forall_cons_2 (fun f => P (snd f)) (k, x) _ (Value_nested_ind x) (go l')
      end in
    match v with
    | VArray l => Harr l (items l)
    | VComposite l => Hcomp l (flds l)
    | VTypedArray n l => Htarr n l (items l)
    | VTypedComposite n l => Htcomp n l (flds l)
    | v => Hleaf v eq_refl
    end.
End ValueInduction.

(** [Composite::find] and [TypedComposite::find]: the first field of that name. *)
Fixpoint field_find (name : str) (fields : list (str * Value)) : option Value :=
  match fields with
  | [] => None
  | (k, v) :: fs => if str_eqb k name then Some v else field_find name fs
  end.

(** ** Rows and result sets *)

(** [std::less<std::string>]: lexicographic on unsigned bytes. *)
Fixpoint str_ltb (a b : str) : bool :=
  match a, b with
  | _, [] => false
  | [], _ :: _ => true
  | x :: a', y :: b' => if (code x <? code y)%N then true
                        else if (code y <? code x)%N then false else str_ltb a' b'
  end.

(** A [std::map<std::string, Value>] as its entries in key order. *)
Abbreviation Row := (list (str * Value)).

Fixpoint row_set (col : str) (v : Value) (r : Row) : Row :=
  match r with
  | [] => [(col, v)]
  | (k, w) :: r' => if str_eqb k col then (k, v) :: r'
                    else if str_ltb col k then (col, v) :: r
                    else (k, w) :: row_set col v r'
  end.

(** [Row::at] answers a null value for a missing column. *)
Definition row_at (col : str) (r : Row) : Value := default VNull (field_find col r).
Definition row_has (col : str) (r : Row) : bool :=
  match field_find col r with Some _ => true | None => false end.

Record ResultSet := mkResultSet {
  rs_fields : list str;
  rs_rows : list Row;
  rs_transformed : bool;
}.

Definition rs_empty : ResultSet := mkResultSet [] [] false.
Definition rs_rowCount (r : ResultSet) : nat := length (rs_rows r).
Definition rs_addRow (row : Row) (r : ResultSet) : ResultSet :=
  mkResultSet (rs_fields r) (rs_rows r ++ [row]) (rs_transformed r).

Abbreviation Params := (list Value).

(** ** [GeneratedKeys::lastInsertId] *)
Definition int64_max : Z := 9223372036854775807.
Definition int64_min : Z := -9223372036854775808.

(** [std::stoll]: leading white space, an optional sign, decimal digits; it
    throws without a digit or out of range. *)
Definition digit_val (c : ascii) : Z := Z.of_N (code c) - 48.
Definition digits_val (s : str) : Z := fold_left (fun a c => a * 10 + digit_val c)%Z s 0%Z.

Definition stoll (s : str) : option Z :=
  let s := skip_while isspace s in
  let (neg, s) := match s with
                  | "-"%char :: s' => (true, s')
                  | "+"%char :: s' => (false, s')
                  | _ => (false, s)
                  end in
  let ds := take_while isdigit s in
  if is_nil ds then None
  else let v := if neg : bool then (- digits_val ds)%Z else digits_val ds in
       if (int64_min <=? v)%Z && (v <=? int64_max)%Z then Some v else None.

Lemma digits_acc u : forall p,
  Z.pos (Pos.of_uint_acc u p) = fold_left (fun a c => a * 10 + digit_val c)%Z (uint_str u) (Z.pos p).
Proof.
  induction u; intros p; try done; cbn [Pos.of_uint_acc uint_str fold_left]; rewrite IHu; f_equal;
    rewrite ?Pos2Z.inj_add, ?Pos2Z.inj_mul; unfold digit_val; simpl; lia.
Qed.

Lemma digits_val_uint u : digits_val (uint_str u) = Z.of_N (N.of_uint u).
Proof.
  unfold digits_val, N.of_uint. induction u; [done|exact IHu|..];
    cbn [Pos.of_uint uint_str fold_left Z.of_N]; by rewrite digits_acc.
Qed.

Lemma digits_val_dec n : digits_val (dec_N n) = Z.of_N n.
Proof. unfold dec_N. by rewrite digits_val_uint, DecimalN.Unsigned.of_to. Qed.

(** [std::strtoll] and [std::strtoull], base 10, when the whole text is converted
    without a range error.  [strtoull] negates after a minus sign. *)
Definition strto_parts (text : str) : option (bool * Z) :=
  let s := skip_while isspace text in
  let (neg, s) := match s with
                  | c :: s' => if Ascii.eqb c "-" then (true, s')
                               else if Ascii.eqb c "+" then (false, s') else (false, s)
                  | [] => (false, s)
                  end in
  if is_nil s || negb (forallb isdigit s) then None else Some (neg, digits_val s).
Definition strtoll_all (text : str) : option Z :=
  match strto_parts text with
  | Some (neg, v) =>
      let v := if neg : bool then (- v)%Z else v in
      if (int64_min <=? v)%Z && (v <=? int64_max)%Z then Some v else None
  | None => None
  end.
Definition strtoull_all (text : str) : option Z :=
  match strto_parts text with
  | Some (neg, v) =>
      if (two64 <=? v)%Z then None else Some (if neg : bool then u64 (- v) else v)
  | None => None
  end.

Definition lastInsertId (rows : ResultSet) : Z :=
  match rs_rows rows with
  | [] => 0%Z
  | firstRow :: _ =>
      let column := match rs_fields rows with
                    | f :: _ => Some f
                    | [] => match firstRow with
                            | (k, _) :: _ => Some k
                            | [] => None
                            end
                    end in
      match column with
      | None => 0%Z
      | Some col =>
          match row_at col firstRow with
          | VInt64 i => i
          | VUInt64 i => if (i <=? int64_max)%Z then i else 0%Z
          | VString s => default 0%Z (stoll s)
          | _ => 0%Z
          end
      end
  end.

(** [BatchResult::totalAffected]: a signed 64-bit sum. *)
Definition totalAffected (affected : list Z) : Z := fold_left Z.add affected 0%Z.

(** ** Rendering values *)
Definition hex_upper (n : N) : ascii :=
  default "0"%char (lit "0123456789ABCDEF" !! N.to_nat n).

Definition byte_hex (c : ascii) : str :=
  [hex_upper (N.land (N.shiftr (code c) 4) 15); hex_upper (N.land (code c) 15)].

Definition appendHex (b : str) : str := concat (map byte_hex b).

(** The join loop [for i: if (i) s += sep; s += item]. *)
Fixpoint join (sep : str) (l : list str) : str :=
  match l with
  | [] => []
  | [x] => x
  | x :: l' => x ++ sep ++ join sep l'
  end.

Definition squote : ascii := "039"%char.
Definition dquote : ascii := "034"%char.

(** A quoted text with every quote doubled. *)
Definition double_char (q : ascii) (s : str) : str :=
  concat (map (fun c => if Ascii.eqb c q then [q; q] else [c]) s).
Definition quoteText (s : str) : str := squote :: double_char squote s ++ [squote].

Definition quoteIdentifier (ident : str) : str :=
  dquote :: double_char dquote ident ++ [dquote].

Definition comma_sep : str := lit ", ".

(** [std::isfinite] on a binary64 pattern. *)
Definition isfinite (bits : Z) : bool :=
  negb (Z.land (Z.shiftr bits 52) 2047 =? 2047)%Z.

Section Rendering.
  (** [std::ostringstream << std::setprecision(17) << d], and the local-time
      rendering of a timestamp, which reads the process time zone. *)
Variable print_double17 : Z -> str.
Variable timestampToStringMs : Z -> str.

Definition bool_str (b : bool) (t f : string) : str := if b then lit t else lit f.

Fixpoint valueToString (v : Value) : str :=
    match v with
    | VNull => lit "NULL"
    | VBool b => bool_str b "true" "false"
    | VInt64 z | VUInt64 z => dec_Z z
    | VDouble bits => print_double17 bits
    | VDecimal s | VString s | VDate s | VTime s | VUuid s | VJson s
    | VIntervalYearMonth s | VIntervalDaySecond s => s
    | VTimestamp t => timestampToStringMs t
    | VBlob b =>
        let show := Nat.min (length b) 16 in
        lit "blob[" ++ dec_nat (length b) ++ lit "]:" ++ appendHex (take show b)
          ++ (if show <? length b then lit "..." else [])
    | VArray items => lit "[" ++ join comma_sep (map valueToString items) ++ lit "]"
    | VComposite fields =>
        lit "(" ++ join comma_sep
          (map (fun '(k, x) => k ++ lit "=" ++ valueToString x) fields) ++ lit ")"
    | VTypedArray n items =>
        n ++ lit "[" ++ join comma_sep (map valueToString items) ++ lit "]"
    | VTypedComposite n fields =>
        n ++ lit "(" ++ join comma_sep
          (map (fun '(k, x) => k ++ lit "=" ++ valueToString x) fields) ++ lit ")"
    end.

Fixpoint escapeLiteralGeneric (v : Value) : str :=
    match v with
    | VNull => lit "NULL"
    | VBool b => bool_str b "TRUE" "FALSE"
    | VInt64 z | VUInt64 z => dec_Z z
    | VDouble bits => if isfinite bits then print_double17 bits else lit "NULL"
    | VTimestamp t => squote :: timestampToStringMs t ++ [squote]
    | VDecimal s | VDate s | VTime s | VUuid s | VJson s
    | VIntervalYearMonth s | VIntervalDaySecond s => quoteText s
    | VBlob b => "X"%char :: squote :: appendHex b ++ [squote]
    | VArray items =>
        lit "ARRAY[" ++ join comma_sep (map escapeLiteralGeneric items) ++ lit "]"
    | VComposite fields =>
        lit "ROW(" ++ join comma_sep (map (fun '(_, x) => escapeLiteralGeneric x) fields)
          ++ lit ")"
    | VTypedArray n items =>
        n ++ lit "(" ++ join comma_sep (map escapeLiteralGeneric items) ++ lit ")"
    | VTypedComposite n fields =>
        n ++ lit "(" ++ join comma_sep (map (fun '(_, x) => escapeLiteralGeneric x) fields)
          ++ lit ")"
    | VString s => quoteText s
    end.
End Rendering.

(** [paramTypeSignature]: one character per parameter. *)
Definition type_char (v : Value) : ascii :=
  match v with
  | VNull => "n"
  | VBool _ => "b"
  | VInt64 _ => "i"
  | VUInt64 _ => "u"
  | VDouble _ => "d"
  | VDecimal _ => "m"
  | VString _ => "s"
  | VDate _ => "a"
  | VTime _ => "o"
  | VTimestamp _ => "t"
  | VUuid _ => "g"
  | VJson _ => "j"
  | VIntervalYearMonth _ => "y"
  | VIntervalDaySecond _ => "v"
  | VArray _ => "A"
  | VComposite _ => "C"
  | VTypedArray _ _ => "Y"
  | VTypedComposite _ _ => "O"
  | VBlob _ => "x"
  end%char.
Definition paramTypeSignature (params : Params) : str := map type_char params.

(** ** Printed integers read back *)
Section PrintedIntegers.
Local Open Scope Z_scope.

Lemma digits_no_space s : Forall (fun c => isdigit c = true) s -> skip_while isspace s = s.
Proof.
  intros H. destruct s as [|c s]; [done|]. inversion H as [|? ? Hc _]; subst. simpl.
  assert (isspace c = false) as -> by (revert Hc; clear; all_chars c). done.
Qed.

Lemma digit_not_sign c : isdigit c = true -> Ascii.eqb c "-" = false /\ Ascii.eqb c "+" = false.
Proof. all_chars c. Qed.

Lemma forallb_digits s : Forall (fun c => isdigit c = true) s -> forallb isdigit s = true.
Proof. intros H. apply forallb_forall. intros c Hc. rewrite Forall_forall in H. by apply H, list_elem_of_In. Qed.

Lemma strto_parts_dec z : strto_parts (dec_Z z) = Some (z <? 0, Z.abs z).
Proof.
  unfold strto_parts, dec_Z. destruct (z <? 0) eqn:E; bool_prop.
  - cbn [skip_while]. change (isspace "-") with false. cbv iota.
    change (Ascii.eqb "-" "-") with true. cbv iota.
    pose proof (dec_N_digits (Z.abs_N z)) as Hd. pose proof (dec_N_nonnil (Z.abs_N z)).
    rewrite (forallb_digits _ Hd), digits_val_dec, N2Z.inj_abs_N.
    by destruct (dec_N (Z.abs_N z)).
  - pose proof (dec_N_digits (Z.to_N z)) as Hd. pose proof (dec_N_nonnil (Z.to_N z)) as Hn.
    rewrite (digits_no_space _ Hd). destruct (dec_N (Z.to_N z)) as [|c r] eqn:Hr; [done|].
    inversion Hd as [|? ? Hc _]; subst. destruct (digit_not_sign c Hc) as [-> ->].
    rewrite (forallb_digits _ Hd), <- Hr, digits_val_dec, Z2N.id by done.
    by rewrite Hr, Z.abs_eq by done.
Qed.

Lemma dec_Z_nonnil z : dec_Z z <> [].
Proof. unfold dec_Z. destruct (z <? 0); [done|apply dec_N_nonnil]. Qed.

Lemma strtoll_all_dec z : int64_min <= z <= int64_max -> strtoll_all (dec_Z z) = Some z.
Proof.
  intros [H1 H2]. unfold strtoll_all. rewrite strto_parts_dec.
  assert ((if z <? 0 then - Z.abs z else Z.abs z) = z) as -> by (destruct (z <? 0) eqn:E; bool_prop; lia).
  apply Z.leb_le in H1, H2. by rewrite H1, H2.
Qed.
End PrintedIntegers.

(** An error of the database is never a success. *)
Lemma databaseError_not_ok fallback msg state vendor :
  fallback <> Ok -> st_ok (databaseError fallback msg state vendor) = false.
Proof.
  intros H. unfold databaseError. repeat case_match; unfold st_ok, code_eqb; cbn;
    apply bool_decide_eq_false_2; done.
Qed.

(** ** Theorems *)

(** A reader of SQL quoted text: after the opening quote, a doubled quote
    stands for one, a single quote ends the text; what follows is returned. *)
Fixpoint read_quoted (q : ascii) (s : str) : option (str * str) :=
  match s with
  | [] => None
  | c :: s' =>
      if Ascii.eqb c q then
        match s' with
        | d :: s'' => if Ascii.eqb d q
                      then '(t, r) ← read_quoted q s''; Some (q :: t, r)
                      else Some ([], s')
        | [] => Some ([], [])
        end
      else '(t, r) ← read_quoted q s'; Some (c :: t, r)
  end.

Lemma double_char_cons q c s :
  double_char q (c :: s) = (if Ascii.eqb c q then [q; q] else [c]) ++ double_char q s.
Proof. done. Qed.

Lemma read_quoted_double q s rest :
  (forall c r, rest = c :: r -> c <> q) ->
  read_quoted q (double_char q s ++ q :: rest) = Some (s, rest).
Proof.
  intros Hr. induction s as [|c s IH].
  - simpl. rewrite Ascii.eqb_refl. destruct rest as [|d r]; [done|].
    destruct (Ascii.eqb_spec d q) as [->|]; [by destruct (Hr q r) | done].
  - rewrite double_char_cons. destruct (Ascii.eqb_spec c q) as [->|Hc]; simpl.
    + by rewrite Ascii.eqb_refl, IH.
    + apply Ascii.eqb_neq in Hc. by rewrite Hc, IH.
Qed.

(** The alternatives of [Value] that the source quotes as text. *)
Definition text_of (v : Value) : option str :=
  match v with
  | VString s | VDecimal s | VDate s | VTime s | VUuid s | VJson s
  | VIntervalYearMonth s | VIntervalDaySecond s => Some s
  | _ => None
  end.

Lemma quoteText_app s rest :
  quoteText s ++ rest = squote :: double_char squote s ++ squote :: rest.
Proof. unfold quoteText. cbn [app]. by rewrite <- app_assoc. Qed.

Section RenderingFacts.
Context (print_double17 timestampToStringMs : Z -> str).
Let esc := escapeLiteralGeneric print_double17 timestampToStringMs.

  (** a text value rendered by [escapeLiteralGeneric] and followed by any
      SQL that does not begin with a quote is read back, by the doubled-quote
      rule of SQL literals, as exactly that text and that remainder: no content
      of the value escapes its literal. *)
Theorem escapeLiteral_reads_back v s rest
    (Hv : text_of v = Some s) (Hrest : forall c r, rest = c :: r -> c <> squote) :
    exists body, esc v ++ rest = squote :: body /\ read_quoted squote body = Some (s, rest).
Proof.
    exists (double_char squote s ++ squote :: rest). split.
    - assert (esc v = quoteText s) as ->.
      { destruct v; try discriminate Hv; injection Hv as ->; reflexivity. }
      apply quoteText_app.
    - by apply read_quoted_double.
  Qed.
End RenderingFacts.

Lemma escapeLiteral_reads_back_witness :
  exists body,
    escapeLiteralGeneric (fun _ => []) (fun _ => []) (VString (lit "x' OR '1'='1")) ++ lit ", 2"
      = squote :: body
    /\ read_quoted squote body = Some (lit "x' OR '1'='1", lit ", 2").
Proof.
  apply escapeLiteral_reads_back; [reflexivity | intros c r [= <- _]; discriminate].
Defined.

(** [quoteIdentifier] is injective and its output is read back as the
    identifier, whatever follows that is not a double quote. *)
Theorem quoteIdentifier_reads_back ident rest
  (Hrest : forall c r, rest = c :: r -> c <> dquote) :
  exists body, quoteIdentifier ident ++ rest = dquote :: body
    /\ read_quoted dquote body = Some (ident, rest).
Proof.
  exists (double_char dquote ident ++ dquote :: rest). split.
  - unfold quoteIdentifier; cbn [app]. by rewrite <- app_assoc.
  - by apply read_quoted_double.
Qed.

Lemma quoteIdentifier_reads_back_witness :
  exists body, quoteIdentifier (lit "a b") ++ lit ".c" = dquote :: body
    /\ read_quoted dquote body = Some (lit "a b", lit ".c").
Proof. apply quoteIdentifier_reads_back. intros c r [= <- _]; discriminate. Defined.

(** *** SQLSTATE classification *)

(** What the classification promises, by SQLSTATE. *)
Definition sql_class (state : str) : str := if 2 <=? length state then take 2 state else [].

Definition is_timeout_state (msg state : str) : bool :=
  str_eqb state (lit "HYT00") || str_eqb state (lit "HYT01")
  || (str_eqb state (lit "57014") && str_contains (lit "timeout") msg).

(** With the SQLSTATE (or its class) known, the classification computes. *)
Ltac sqlstate E := apply str_eqb_eq in E; subst || rewrite E; vm_compute; split_and!; done.

(** a database error is marked retryable exactly for the time-out states,
    the serialization class 40 and the connection class 08; it is marked
    broken exactly for class 08; a broken connection is always retryable. *)
Theorem databaseError_flags fallback msg state vendor :
  let s := databaseError fallback msg state vendor in
  st_retryable s = is_timeout_state msg state
                   || str_eqb (sql_class state) (lit "40")
                   || str_eqb (sql_class state) (lit "08")
  /\ st_connectionBroken s = str_eqb (sql_class state) (lit "08")
  /\ (st_connectionBroken s = true -> st_retryable s = true).
Proof.
  unfold databaseError, is_timeout_state; fold (sql_class state).
  destruct (str_eqb state (lit "HYT00")) eqn:E1; [sqlstate E1|].
  destruct (str_eqb state (lit "HYT01")) eqn:E2; [sqlstate E2|].
  destruct (str_eqb state (lit "57014")) eqn:E3.
  { destruct (str_contains _ _); sqlstate E3. }
  destruct (str_eqb state (lit "HY008")) eqn:E4; [sqlstate E4|].
  destruct (str_eqb state (lit "40001")) eqn:E5; [sqlstate E5|].
  destruct (str_eqb state (lit "40P01")) eqn:E6; [sqlstate E6|].
  destruct (str_eqb (sql_class state) (lit "40")) eqn:E7; [sqlstate E7|].
  destruct (str_eqb (sql_class state) (lit "23")) eqn:E8; [sqlstate E8|].
  destruct (str_eqb (sql_class state) (lit "08")) eqn:E9; [|done].
  destruct (code_eqb fallback QueryError || _); split_and!; done.
Qed.

Lemma errorCodeToString_inj a b : errorCodeToString a = errorCodeToString b -> a = b.
Proof. by destruct a, b. Qed.

(** *** Rows *)
Lemma str_ltb_irrefl a : str_ltb a a = false.
Proof. induction a as [|x a IH]; simpl; [done|]. by rewrite N.ltb_irrefl. Qed.

Lemma code_inj a b : code a = code b -> a = b.
Proof. intros H. apply (f_equal ascii_of_N) in H. unfold code in H. by rewrite !ascii_N_embedding in H. Qed.
