(* ===== verification/Timestamps.v ===== *)
(** * Timestamps

    The calendar and the text forms of [src/common/types.cpp]: [formatTimestamp]
    with its three callers and [tryParseTimestamp].  A [Timestamp] is the signed
    64-bit count of nanoseconds of [std::chrono::system_clock]; arithmetic on it
    wraps.  [gmtime_r] is the calendar of the C library; [localtime_r] and
    [mktime], which read the process time zone, are parameters. *)
From stdpp Require Import base list strings.
From Stdlib Require Import Ascii ZArith Lia.
From S2P Require Import Prelude Types.

Open Scope Z_scope.

(** ** Time points *)
Definition ns_per_s : Z := 1000000000.
Definition i64 (z : Z) : Z := (z + 2 ^ 63) mod 2 ^ 64 - 2 ^ 63.
Definition is_i64 (z : Z) : Prop := - 2 ^ 63 <= z < 2 ^ 63.

Record tm := mkTm { tm_year : Z; tm_mon : Z; tm_mday : Z; tm_hour : Z; tm_min : Z; tm_sec : Z }.

(** ** The proleptic Gregorian calendar *)
Definition leap (year : Z) : bool :=
  (year mod 4 =? 0) && (negb (year mod 100 =? 0) || (year mod 400 =? 0)).
Definition monthDays (mo : Z) : Z :=
  default 0 ([31; 28; 31; 30; 31; 30; 31; 31; 30; 31; 30; 31] !! Z.to_nat (mo - 1)).
Definition month_length (y mo : Z) : Z := monthDays mo + (if (mo =? 2) && leap y then 1 else 0).

(** Days since 1970-01-01, as [tryParseTimestamp] counts them. *)
Definition civil_days (y mo d : Z) : Z :=
  let civilYear := y - (if mo <=? 2 then 1 else 0) in
  let era := Z.quot (if 0 <=? civilYear then civilYear else civilYear - 399) 400 in
  let yoe := civilYear - era * 400 in
  let shiftedMonth := if 2 <? mo then mo - 3 else mo + 9 in
  let doy := (153 * shiftedMonth + 2) / 5 + d - 1 in
  let doe := yoe * 365 + yoe / 4 - yoe / 100 + doy in
  era * 146097 + doe - 719468.

(** The date of a day: what [gmtime_r] computes. *)
Definition civil_of_days (z : Z) : Z * Z * Z :=
  let z := z + 719468 in
  let era := z / 146097 in
  let doe := z mod 146097 in
  let yoe := (doe - doe / 1460 + doe / 36524 - doe / 146096) / 365 in
  let doy := doe - (365 * yoe + yoe / 4 - yoe / 100) in
  let mp := (5 * doy + 2) / 153 in
  let d := doy - (153 * mp + 2) / 5 + 1 in
  let mo := if mp <? 10 then mp + 3 else mp - 9 in
  (yoe + era * 400 + (if mo <=? 2 then 1 else 0), mo, d).

Definition gmtime (secs : Z) : tm :=
  let '(y, mo, d) := civil_of_days (secs / 86400) in
  let sod := secs mod 86400 in
  mkTm (y - 1900) (mo - 1) d (sod / 3600) (sod / 60 mod 60) (sod mod 60).

(** ** Printing *)

(** [std::setw(w) << std::setfill('0')], and [%m] and the like of [strftime]. *)
Definition pad (w : nat) (z : Z) : str := repeat "0"%char (w - length (dec_Z z)) ++ dec_Z z.

Definition strftime (t : tm) : str :=
  dec_Z (tm_year t + 1900) ++ lit "-" ++ pad 2 (tm_mon t + 1) ++ lit "-" ++ pad 2 (tm_mday t) ++
  lit " " ++ pad 2 (tm_hour t) ++ lit ":" ++ pad 2 (tm_min t) ++ lit ":" ++ pad 2 (tm_sec t).

(** ** Reading *)

(** [readInt(i, width, val)] on the text from [i] on. *)
Fixpoint read_int (width : nat) (val : Z) (s : str) : option (Z * str) :=
  match width with
  | O => Some (val, s)
  | S w =>
      match s with
      | c :: r => if isdigit c then read_int w (val * 10 + digit_val c) r else None
      | [] => None
      end
  end.

(** [if (i >= s.size() || s[i] != c) return false; ++i;] *)
Definition expect (c : ascii) (s : str) : option str :=
  match s with d :: r => if Ascii.eqb d c then Some r else None | [] => None end.

(** The digits of a fraction, the first nine of which count. *)
Fixpoint frac_digits (v : Z) (digits : nat) (s : str) : Z * nat * str :=
  match s with
  | c :: r =>
      if isdigit c then
        if (digits <? 9)%nat then frac_digits (v * 10 + digit_val c) (S digits) r
        else frac_digits v digits r
      else (v, digits, s)
  | [] => (v, digits, [])
  end.

Definition read_fraction (s : str) : Z * str :=
  match s with
  | c :: r =>
      if Ascii.eqb c "." then
        let '(v, digits, r) := frac_digits 0 0 r in (v * 10 ^ (9 - Z.of_nat digits), r)
      else (0, s)
  | [] => (0, [])
  end.

Section Zone.
  (** [localtime_r] and [mktime] ([None] is -1). *)
Variable localtime : Z -> tm.
Variable mktime : tm -> option Z.

Definition toTm (t : Z) (utc : bool) : tm * Z :=
  let secs := t / ns_per_s in
  let fracNs := t - secs * ns_per_s in
  (if utc then gmtime secs else localtime secs, fracNs).

Definition formatTimestamp (t : Z) (withMillis utc : bool) : str :=
  let '(tm, fracNs) := toTm t utc in
  strftime tm ++
  (if withMillis then lit "." ++ pad 3 (Z.rem (Z.quot fracNs 1000000) 1000) else []).

Definition timestampToString (t : Z) : str := formatTimestamp t false false.
Definition timestampToStringMs (t : Z) : str := formatTimestamp t true false.
Definition timestampToUtcStringMs (t : Z) : str := formatTimestamp t true true ++ lit "+00".

(** The time of day, if there is one. *)
Definition read_time (s : str) : option (Z * Z * Z * str) :=
  match s with
  | c :: r =>
      if Ascii.eqb c " " || Ascii.eqb c "T" then
        h ← read_int 2 0 r;
        r ← expect ":" h.2;
        mi ← read_int 2 0 r;
        r ← expect ":" mi.2;
        se ← read_int 2 0 r;
        Some (h.1, mi.1, se.1, se.2)
      else Some (0, 0, 0, s)
  | [] => Some (0, 0, 0, [])
  end.

(** The zone: [Some seconds] when it is explicit. *)
Definition read_zone (s : str) : option (option Z * str) :=
  match s with
  | [] => Some (None, [])
  | c :: r =>
      if Ascii.eqb c "Z" || Ascii.eqb c "z" then Some (Some 0, r)
      else if Ascii.eqb c "+" || Ascii.eqb c "-" then
        let sign := if Ascii.eqb c "+" then 1 else -1 in
        oh ← read_int 2 0 r;
        let r := match oh.2 with d :: r' => if Ascii.eqb d ":" then r' else oh.2 | [] => [] end in
        om ← (if is_nil r then Some (0, r) else read_int 2 0 r);
        if (23 <? oh.1) || (59 <? om.1) then None
        else Some (Some (sign * (oh.1 * 3600 + om.1 * 60)), om.2)
      else Some (None, s)
  end.

Definition tryParseTimestamp (s : str) : option Z :=
  y ← read_int 4 0 s;
  r ← expect "-" y.2;
  mo ← read_int 2 0 r;
  r ← expect "-" mo.2;
  d ← read_int 2 0 r;
  time ← read_time d.2;
  let '(h, mi, se, r) := time in
  let '(fracNs, r) := read_fraction r in
  zone ← read_zone r;
  let '(y, mo, d) := (y.1, mo.1, d.1) in
  if negb (is_nil zone.2) then None
  else if (mo <? 1) || (12 <? mo) || (d <? 1) || (month_length y mo <? d) || (h <? 0) || (23 <? h) ||
          (mi <? 0) || (59 <? mi) || (se <? 0) || (59 <? se) || (y <? 1900) then None
  else match zone.1 with
       | Some offsetSeconds =>
           let seconds := civil_days y mo d * 86400 + h * 3600 + mi * 60 + se - offsetSeconds in
           Some (i64 (seconds * ns_per_s + fracNs))
       | None =>
           tt ← mktime (mkTm (y - 1900) (mo - 1) d h mi se);
           Some (i64 (tt * ns_per_s + fracNs))
       end.
End Zone.

(** ** The calendar *)
Ltac zdiv := Z.to_euclidean_division_equations; lia.

Lemma quot_floor400 a : Z.quot (if 0 <=? a then a else a - 399) 400 = a / 400.
Proof. destruct (0 <=? a) eqn:E; bool_prop; zdiv. Qed.

Definition cal_yoe (doe : Z) : Z := (doe - doe / 1460 + doe / 36524 - doe / 146096) / 365.
Definition cal_doy (doe : Z) : Z := doe - (365 * cal_yoe doe + cal_yoe doe / 4 - cal_yoe doe / 100).

Lemma cal_yoe_bounds doe : 0 <= doe < 146097 -> 0 <= cal_yoe doe < 400.
Proof. intros H. unfold cal_yoe. zdiv. Qed.
Lemma cal_doy_bounds doe : 0 <= doe < 146097 -> 0 <= cal_doy doe <= 365.
Proof. intros H. unfold cal_doy, cal_yoe. zdiv. Qed.

(** The last day of a 366-day year falls in a leap year. *)
Lemma cal_leap doe :
  0 <= doe < 146097 -> cal_doy doe = 365 ->
  (cal_yoe doe + 1) mod 4 = 0 /\ ((cal_yoe doe + 1) mod 100 <> 0 \/ cal_yoe doe = 399).
Proof. intros H. unfold cal_doy, cal_yoe. intros H2. zdiv. Qed.

Lemma civil_of_days_spec z :
  exists era doe mp, z + 719468 = era * 146097 + doe /\ 0 <= doe < 146097 /\ 0 <= mp <= 11 /\
    mp = (5 * cal_doy doe + 2) / 153 /\
    civil_of_days z =
      (cal_yoe doe + era * 400 + (if (if mp <? 10 then mp + 3 else mp - 9) <=? 2 then 1 else 0),
       if mp <? 10 then mp + 3 else mp - 9, cal_doy doe - (153 * mp + 2) / 5 + 1).
Proof.
  exists ((z + 719468) / 146097), ((z + 719468) mod 146097), ((5 * cal_doy ((z + 719468) mod 146097) + 2) / 153).
  assert (0 <= (z + 719468) mod 146097 < 146097) as Hd by (apply Z.mod_pos_bound; lia).
  pose proof (cal_doy_bounds _ Hd). split_and!; try done; try lia; zdiv.
Qed.

Lemma civil_days_of_parts era doe mp :
  0 <= doe < 146097 -> 0 <= mp <= 11 -> mp = (5 * cal_doy doe + 2) / 153 ->
  let mo := if mp <? 10 then mp + 3 else mp - 9 in
  civil_days (cal_yoe doe + era * 400 + (if mo <=? 2 then 1 else 0)) mo
    (cal_doy doe - (153 * mp + 2) / 5 + 1) = era * 146097 + doe - 719468.
Proof.
  intros Hd Hmp Heq mo. unfold civil_days. rewrite quot_floor400.
  pose proof (cal_yoe_bounds _ Hd).
  replace (cal_yoe doe + era * 400 + (if mo <=? 2 then 1 else 0) - (if mo <=? 2 then 1 else 0))
    with (cal_yoe doe + era * 400) by lia.
  rewrite Z.div_add, (Z.div_small (cal_yoe doe)) by lia. rewrite Z.add_0_l.
  replace (cal_yoe doe + era * 400 - era * 400) with (cal_yoe doe) by lia.
  assert ((if 2 <? mo then mo - 3 else mo + 9) = mp) as ->.
  { unfold mo. destruct (mp <? 10) eqn:E; bool_prop.
    - rewrite (proj2 (Z.ltb_lt 2 (mp + 3))) by lia. lia.
    - rewrite (proj2 (Z.ltb_ge 2 (mp - 9))) by lia. lia. }
  unfold cal_doy. lia.
Qed.

Lemma civil_days_of_days z : let '(y, mo, d) := civil_of_days z in civil_days y mo d = z.
Proof.
  destruct (civil_of_days_spec z) as (era & doe & mp & Hz & Hd & Hmp & Heq & ->).
  rewrite civil_days_of_parts by done. lia.
Qed.

Lemma civil_of_days_valid z :
  let '(y, mo, d) := civil_of_days z in 1 <= mo <= 12 /\ 1 <= d <= month_length y mo.
Proof.
  destruct (civil_of_days_spec z) as (era & doe & mp & Hz & Hd & Hmp & Heq & ->).
  pose proof (cal_doy_bounds _ Hd) as Hdoy. pose proof (cal_leap _ Hd) as Hleap.
  pose proof (cal_yoe_bounds _ Hd) as Hyoe.
  revert Hdoy Hleap Heq Hyoe. generalize (cal_doy doe) as doy, (cal_yoe doe) as yoe. intros doy yoe Hdoy Hleap Heq Hyoe.
  assert (mp = 0 \/ mp = 1 \/ mp = 2 \/ mp = 3 \/ mp = 4 \/ mp = 5 \/ mp = 6 \/ mp = 7 \/ mp = 8 \/ mp = 9 \/
          mp = 10 \/ mp = 11) as Hcase by lia.
  repeat (destruct Hcase as [->|Hcase]);
    try (unfold month_length, monthDays; simpl; zdiv).
  rewrite Hcase in *. unfold month_length, monthDays. simpl. unfold leap.
  assert (doy = 365 \/ doy <= 364) as [->|Hlt] by lia.
  - destruct (Hleap eq_refl) as [H4 H100].
    assert ((yoe + era * 400 + 1) mod 4 = 0) as -> by zdiv. simpl.
    destruct H100 as [Hn| ->].
    + assert ((yoe + era * 400 + 1) mod 100 <> 0) as Hc.
      { replace (yoe + era * 400 + 1) with (yoe + 1 + 4 * era * 100) by lia. by rewrite Z.mod_add. }
      rewrite (proj2 (Z.eqb_neq _ _) Hc). simpl. zdiv.
    + replace (399 + era * 400 + 1) with ((era + 1) * 400) by lia.
      rewrite Z.mod_mul by done. rewrite orb_true_r. zdiv.
  - case_match; zdiv.
Qed.

(** The day after, by the lengths of the months. *)
Definition next_day (y mo d : Z) : Z * Z * Z :=
  if d <? month_length y mo then (y, mo, d + 1)
  else if mo <? 12 then (y, mo + 1, 1) else (y + 1, 1, 1).

Lemma civil_days_days y mo d k : civil_days y mo (d + k) = civil_days y mo d + k.
Proof. unfold civil_days. lia. Qed.

Lemma civil_days_eq y mo :
  1 <= mo <= 12 ->
  civil_days y mo 0 =
  let c := y - (if mo <=? 2 then 1 else 0) in
  c * 365 + c / 4 - c / 100 + c / 400 +
  (153 * (if 2 <? mo then mo - 3 else mo + 9) + 2) / 5 - 1 - 719468.
Proof.
  intros Hm. unfold civil_days. rewrite quot_floor400. cbv zeta.
  generalize (y - (if mo <=? 2 then 1 else 0)) as c. intros c. zdiv.
Qed.

Lemma leap_count y :
  y / 4 - y / 100 + y / 400 = (y - 1) / 4 - (y - 1) / 100 + (y - 1) / 400 + (if leap y then 1 else 0).
Proof.
  unfold leap. destruct (y mod 4 =? 0) eqn:E4, (y mod 100 =? 0) eqn:E100, (y mod 400 =? 0) eqn:E400;
    simpl; bool_prop; zdiv.
Qed.

(** the day number of a date is right for every year: 1970-01-01 is day 0, and
    the day after a date, by the lengths of the months and the leap-year rule, has
    the next number. *)
Theorem civil_days_counts (y mo d : Z) :
  1 <= mo <= 12 -> 1 <= d <= month_length y mo ->
  civil_days 1970 1 1 = 0 /\
  (let '(y', mo', d') := next_day y mo d in civil_days y' mo' d') = civil_days y mo d + 1.
Proof.
  intros Hm Hd. split; [done|]. unfold next_day. destruct (d <? month_length y mo) eqn:E; bool_prop.
  { apply civil_days_days. }
  assert (d = month_length y mo) as -> by lia. clear Hd E.
  rewrite <- (Z.add_0_l (month_length y mo)), civil_days_days.
  assert (mo = 1 \/ mo = 2 \/ mo = 3 \/ mo = 4 \/ mo = 5 \/ mo = 6 \/ mo = 7 \/ mo = 8 \/ mo = 9 \/
          mo = 10 \/ mo = 11 \/ mo = 12) as Hcase by lia. clear Hm.
  assert (forall y mo, civil_days y mo 1 = civil_days y mo 0 + 1) as H1
    by (intros; apply (civil_days_days _ _ 0 1)).
  pose proof (leap_count y) as Hl.
  repeat (destruct Hcase as [->|Hcase]); try subst mo; cbn [Z.ltb Z.compare Pos.compare Pos.compare_cont];
    rewrite H1, !civil_days_eq by lia; unfold month_length, monthDays; simpl;
    try (destruct (leap y); zdiv).
Qed.

(** ** Reading what is printed *)
Definition field_ok (w : nat) (s : str) (z : Z) : bool :=
  (length s =? w)%nat && forallb isdigit s && (digits_val s =? z).

Lemma read_int_digits s : forall w v r,
  length s = w -> forallb isdigit s = true ->
  read_int w v (s ++ r) = Some (fold_left (fun a c => a * 10 + digit_val c) s v, r).
Proof.
  induction s as [|c s IH]; intros w v r <- Hs; [done|]. simpl in *.
  apply andb_true_iff in Hs as [-> Hs]. by apply IH.
Qed.

Lemma read_int_field w s z r : field_ok w s z = true -> read_int w 0 (s ++ r) = Some (z, r).
Proof.
  unfold field_ok. intros H. bool_prop. rewrite (read_int_digits s w) by done. unfold digits_val in *. congruence.
Qed.

Fixpoint all_fields (n : nat) (z : Z) (w : nat) (print : Z -> str) : bool :=
  match n with O => true | S n => field_ok w (print z) z && all_fields n (z + 1) w print end.

Lemma all_fields_in n : forall lo w print z,
  all_fields n lo w print = true -> lo <= z < lo + Z.of_nat n -> field_ok w (print z) z = true.
Proof.
  induction n as [|n IH]; intros lo w print z Hall Hz; [lia|]. simpl in Hall. bool_prop.
  destruct (decide (z = lo)) as [->|Hne]; [done|]. apply (IH (lo + 1)); [done|lia].
Qed.

Lemma pad2_field z : 0 <= z < 100 -> field_ok 2 (pad 2 z) z = true.
Proof. apply (all_fields_in 100 0). by vm_compute. Qed.
Lemma pad3_field z : 0 <= z < 1000 -> field_ok 3 (pad 3 z) z = true.
Proof. apply (all_fields_in 1000 0). by vm_compute. Qed.
Lemma year_field z : 1900 <= z < 2300 -> field_ok 4 (dec_Z z) z = true.
Proof. apply (all_fields_in 400 1900). by vm_compute. Qed.

Lemma frac_digits_field s : forall v n r,
  forallb isdigit s = true -> (n + length s <= 9)%nat ->
  match r with c :: _ => isdigit c = false | [] => True end ->
  frac_digits v n (s ++ r) = (fold_left (fun a c => a * 10 + digit_val c) s v, (n + length s)%nat, r).
Proof.
  induction s as [|c s IH]; intros v n r Hs Hn Hr.
  - simpl. rewrite Nat.add_0_r. destruct r; [done|]. simpl. by rewrite Hr.
  - simpl in *. apply andb_true_iff in Hs as [-> Hs].
    rewrite (proj2 (Nat.ltb_lt n 9)) by lia. rewrite IH by (done || lia). do 2 f_equal. lia.
Qed.

Lemma read_fraction_field s z r :
  field_ok 3 s z = true -> match r with c :: _ => isdigit c = false | [] => True end ->
  read_fraction ("."%char :: s ++ r) = (z * 1000000, r).
Proof.
  unfold field_ok. intros H Hr. bool_prop. unfold read_fraction. cbn [app].
  change (Ascii.eqb "." ".") with true. cbv iota.
  rewrite frac_digits_field by (done || lia). unfold digits_val in *. rewrite H0, H. done.
Qed.

(** The instant of a time point in whole milliseconds. *)
Definition to_millis (t : Z) : Z := t - t mod 1000000.

Lemma i64_id z : is_i64 z -> i64 z = z.
Proof. unfold is_i64, i64. intros H. rewrite Z.mod_small; lia. Qed.

Lemma civil_year_bounds y mo d :
  1 <= mo <= 12 -> 1 <= d <= 31 -> -25567 <= civil_days y mo d <= 106751 -> 1900 <= y < 2300.
Proof.
  intros Hm Hd. rewrite <- (Z.add_0_l d), civil_days_days, civil_days_eq by done. cbv zeta.
  destruct (mo <=? 2) eqn:E; bool_prop.
  - rewrite (proj2 (Z.ltb_ge 2 mo)) by lia. zdiv.
  - rewrite (proj2 (Z.ltb_lt 2 mo)) by lia. zdiv.
Qed.

Lemma month_length_31 y mo : month_length y mo <= 31.
Proof.
  unfold month_length, monthDays. destruct (mo =? 2) eqn:E; simpl; bool_prop.
  - subst. simpl. destruct (leap y); lia.
  - assert (forall n, default 0 ([31; 28; 31; 30; 31; 30; 31; 31; 30; 31; 30; 31] !! n) <= 31) as Hn
      by (intros n; do 12 (destruct n as [|n]; [simpl; lia|]); simpl; lia).
    specialize (Hn (Z.to_nat (mo - 1))). lia.
Qed.

Lemma time_of_day secs :
  secs / 86400 * 86400 + secs mod 86400 / 3600 * 3600 + secs mod 86400 / 60 mod 60 * 60 +
  secs mod 86400 mod 60 = secs.
Proof. zdiv. Qed.

(** The fields of a printed instant from 1900 on. *)
Lemma utc_fields localtime t :
  civil_days 1900 1 1 * 86400 * ns_per_s <= t -> is_i64 t ->
  exists y mo d h mi se ms,
    timestampToUtcStringMs localtime t =
      (dec_Z y ++ lit "-" ++ pad 2 mo ++ lit "-" ++ pad 2 d ++ lit " " ++ pad 2 h ++ lit ":" ++
       pad 2 mi ++ lit ":" ++ pad 2 se) ++ (lit "." ++ pad 3 ms) ++ lit "+00" /\
    1900 <= y < 2300 /\ 1 <= mo <= 12 /\ 1 <= d <= month_length y mo /\ 0 <= h < 24 /\ 0 <= mi < 60 /\
    0 <= se < 60 /\ 0 <= ms < 1000 /\
    (civil_days y mo d * 86400 + h * 3600 + mi * 60 + se) * ns_per_s + ms * 1000000 = to_millis t.
Proof.
  intros Hlo Ht. unfold timestampToUtcStringMs, formatTimestamp, toTm.
  unfold is_i64 in Ht. change (civil_days 1900 1 1) with (-25567) in Hlo. unfold ns_per_s in *.
  set (secs := t / 1000000000). set (frac := t - secs * 1000000000).
  assert (0 <= frac < 1000000000) as Hfrac by (unfold frac, secs; zdiv).
  unfold gmtime. pose proof (civil_days_of_days (secs / 86400)) as Hdays.
  pose proof (civil_of_days_valid (secs / 86400)) as Hvalid.
  destruct (civil_of_days (secs / 86400)) as [[y mo] d] eqn:Hciv.
  exists y, mo, d, (secs mod 86400 / 3600), (secs mod 86400 / 60 mod 60), (secs mod 86400 mod 60),
    (frac / 1000000).
  split.
  { unfold strftime. cbn [tm_year tm_mon tm_mday tm_hour tm_min tm_sec].
    rewrite !Z.sub_add. rewrite Z.quot_div_nonneg by lia.
    rewrite Z.rem_small by (split; [apply Z.div_pos; lia|apply Z.div_lt_upper_bound; lia]).
    by rewrite <- !app_assoc. }
  destruct Hvalid as [Hmo Hd]. pose proof (month_length_31 y mo).
  split_and!; try done; try lia; try zdiv.
  - apply (civil_year_bounds y mo d); [done|lia|]. unfold secs in Hdays. zdiv.
  - apply (civil_year_bounds y mo d); [done|lia|]. unfold secs in Hdays. zdiv.
  - rewrite Hdays, time_of_day. unfold to_millis, frac, secs. zdiv.
Qed.

#[local] Arguments read_int : simpl never.
#[local] Arguments pad : simpl never.
#[local] Arguments dec_Z : simpl never.
#[local] Arguments read_fraction : simpl never.
#[local] Arguments month_length : simpl never.
#[local] Arguments civil_days : simpl never.

Lemma utc_reads_back (localtime : Z -> tm) (mktime : tm -> option Z) (t : Z) :
  civil_days 1900 1 1 * 86400 * ns_per_s <= t -> is_i64 t ->
  tryParseTimestamp mktime (timestampToUtcStringMs localtime t) = Some (to_millis t).
Proof.
  intros Hlo Ht.
  destruct (utc_fields localtime t Hlo Ht) as
    (y & mo & d & h & mi & se & ms & -> & Hy & Hmo & Hd & Hh & Hmi & Hse & Hms & Heq).
  pose proof (month_length_31 y mo).
  unfold tryParseTimestamp. rewrite <- !app_assoc.
  rewrite (read_int_field 4 (dec_Z y) y) by (apply year_field; lia). cbn.
  rewrite (read_int_field 2 (pad 2 mo) mo) by (apply pad2_field; lia). cbn.
  rewrite (read_int_field 2 (pad 2 d) d) by (apply pad2_field; lia). cbn.
  rewrite (read_int_field 2 (pad 2 h) h) by (apply pad2_field; lia). cbn.
  rewrite (read_int_field 2 (pad 2 mi) mi) by (apply pad2_field; lia). cbn.
  rewrite (read_int_field 2 (pad 2 se) se) by (apply pad2_field; lia). cbn.
  rewrite (read_fraction_field (pad 3 ms) ms) by (done || (apply pad3_field; lia)). cbn.
  change (read_int 2 0 ["0"%char; "0"%char]) with (Some (0, [] : str)). cbn.
  assert ((mo <? 1) || (12 <? mo) || (d <? 1) || (month_length y mo <? d) || (h <? 0) || (23 <? h) ||
          (mi <? 0) || (59 <? mi) || (se <? 0) || (59 <? se) || (y <? 1900) = false) as ->.
  { repeat (apply orb_false_iff; split); apply Z.ltb_ge; lia. }
  rewrite Z.sub_0_r, Heq. f_equal. apply i64_id. unfold is_i64, to_millis, ns_per_s in *.
  change (civil_days 1900 1 1) with (-25567) in Hlo. zdiv.
Qed.

(** A broken-down local time whose fields are in their ranges, from 1900 on. *)
Definition tm_ok (b : tm) : Prop :=
  0 <= tm_year b < 400 /\ 0 <= tm_mon b < 12
  /\ 1 <= tm_mday b <= month_length (tm_year b + 1900) (tm_mon b + 1)
  /\ 0 <= tm_hour b < 24 /\ 0 <= tm_min b < 60 /\ 0 <= tm_sec b < 60.

(** A text in local time reads back where [mktime] inverts [localtime_r]. *)
Lemma local_reads_back (localtime : Z -> tm) (mktime : tm -> option Z) (t : Z) :
  civil_days 1900 1 1 * 86400 * ns_per_s <= t -> is_i64 t ->
  tm_ok (localtime (t / ns_per_s)) -> mktime (localtime (t / ns_per_s)) = Some (t / ns_per_s) ->
  tryParseTimestamp mktime (timestampToStringMs localtime t) = Some (to_millis t).
Proof.
  intros Hlo Ht. unfold timestampToStringMs, formatTimestamp, toTm, strftime.
  destruct (localtime (t / ns_per_s)) as [y mo d h mi se].
  unfold tm_ok. cbn [tm_year tm_mon tm_mday tm_hour tm_min tm_sec].
  intros (Hy & Hmo & Hd & Hh & Hmi & Hse) Hmk.
  set (frac := t - t / ns_per_s * ns_per_s).
  assert (0 <= frac < 1000000000) as Hfrac by (unfold frac, ns_per_s; zdiv).
  rewrite Z.quot_div_nonneg by lia.
  rewrite Z.rem_small by (split; [apply Z.div_pos; lia|apply Z.div_lt_upper_bound; lia]).
  pose proof (month_length_31 (y + 1900) (mo + 1)).
  unfold tryParseTimestamp. rewrite <- !app_assoc.
  rewrite (read_int_field 4 (dec_Z (y + 1900)) (y + 1900)) by (apply year_field; lia). cbn.
  rewrite (read_int_field 2 (pad 2 (mo + 1)) (mo + 1)) by (apply pad2_field; lia). cbn.
  rewrite (read_int_field 2 (pad 2 d) d) by (apply pad2_field; lia). cbn.
  rewrite (read_int_field 2 (pad 2 h) h) by (apply pad2_field; lia). cbn.
  rewrite (read_int_field 2 (pad 2 mi) mi) by (apply pad2_field; lia). cbn.
  rewrite (read_int_field 2 (pad 2 se) se) by (apply pad2_field; lia). cbn.
  assert (0 <= frac / 1000000 < 1000) as Hms by zdiv.
  replace (pad 3 (frac / 1000000)) with (pad 3 (frac / 1000000) ++ []) by apply app_nil_r.
  rewrite (read_fraction_field (pad 3 (frac / 1000000)) (frac / 1000000)) by (done || (apply pad3_field; lia)).
  cbn.
  assert ((mo + 1 <? 1) || (12 <? mo + 1) || (d <? 1) || (month_length (y + 1900) (mo + 1) <? d) || (h <? 0)
          || (23 <? h) || (mi <? 0) || (59 <? mi) || (se <? 0) || (59 <? se) || (y + 1900 <? 1900) = false) as ->.
  { repeat (apply orb_false_iff; split); apply Z.ltb_ge; lia. }
  rewrite !Z.add_simpl_r, Hmk. cbn. f_equal.
  assert (t / ns_per_s * ns_per_s + frac / 1000000 * 1000000 = to_millis t) as ->
    by (unfold to_millis, frac, ns_per_s; zdiv).
  apply i64_id. unfold is_i64, to_millis, ns_per_s in *.
  change (civil_days 1900 1 1) with (-25567) in Hlo. zdiv.
Qed.

(** C37: reading back a printed instant gives the instant in whole milliseconds,
    for every instant from 1900 on that a time point can hold. *)
Theorem tryParse_utc (localtime : Z -> tm) (mktime : tm -> option Z) (t : Z) :
  civil_days 1900 1 1 * 86400 * ns_per_s <= t -> is_i64 t ->
  tryParseTimestamp mktime (timestampToUtcStringMs localtime t) = Some (to_millis t).
Proof. apply utc_reads_back. Qed.

(** a date after 2262 is accepted with a wrong instant: the count of
    nanoseconds wraps, and [9999-12-31 23:59:59Z] is read as an instant of 1816,
    a year the reader refuses in the text itself. *)
Theorem far_dates_wrap (mktime : tm -> option Z) (localtime : Z -> tm) :
  exists t, tryParseTimestamp mktime (lit "9999-12-31 23:59:59Z") = Some t /\
    timestampToUtcStringMs localtime t = lit "1816-03-30 05:56:07.066+00" /\
    tryParseTimestamp mktime (lit "1816-03-30 05:56:07.066+00") = None.
Proof. eexists. split; [reflexivity|]. split; vm_compute; reflexivity. Qed.

(** ** Witnesses *)
Definition no_zone (t : tm) : option Z := None.
Definition no_local (secs : Z) : tm := mkTm 0 0 0 0 0 0.

Lemma civil_days_counts_witness : civil_days 2024 3 1 = civil_days 2024 2 29 + 1.
Proof. apply (civil_days_counts 2024 2 29); vm_compute; intuition discriminate. Defined.

Lemma tryParse_utc_witness :
  tryParseTimestamp no_zone (timestampToUtcStringMs no_local 1709210096789123456) =
  Some 1709210096789000000 /\
  timestampToUtcStringMs no_local 1709210096789123456 = lit "2024-02-29 12:34:56.789+00".
Proof.
  split; [|by vm_compute].
  apply (tryParse_utc no_local no_zone 1709210096789123456); [by vm_compute|by split; vm_compute].
Defined.
