(* ===== verification/Config.v ===== *)
(** * Configuration records

    The structures of [include/sqlconduit/config/datasource_config.h] with their
    default member initialisers.  Integers of type [int] are [Z]. *)
From stdpp Require Import base list sets strings.
From Stdlib Require Import Ascii ZArith Lia.
From S2P Require Import Prelude Doubles.

Record RetryConfig := mkRetryConfig {
  rt_max_attempts : Z;
  rt_initial_backoff_ms : Z;
  rt_max_backoff_ms : Z;
  rt_retry_writes : bool;
}.

Record CircuitBreakerConfig := mkCircuitBreakerConfig {
  cb_failure_threshold : Z;
  cb_open_interval_ms : Z;
}.

Record RateLimitConfig := mkRateLimitConfig {
  rl_enabled : bool;
  rl_global_qps : Z;
  rl_per_fingerprint_qps : Z;
  rl_burst : Z;
  rl_fingerprint_mode : str;
}.

Record SqlAuditConfig := mkSqlAuditConfig {
  au_enabled : bool;
  au_action : str;
  au_block_no_where_dml : bool;
  au_require_limit_select : bool;
  au_enforce_read_only : bool;
  au_log_blocked : bool;
  au_blacklist_fingerprints : list Z;
  au_whitelist_fingerprints : list Z;
}.

Record QueryCacheConfig := mkQueryCacheConfig {
  qc_enabled : bool;
  qc_ttl_ms : Z;
  qc_max_entries : Z;
  qc_max_memory_bytes : Z;
  qc_cache_on_replica_only : bool;
}.

Definition default_query_cache : QueryCacheConfig := mkQueryCacheConfig false 60000 1000 0 false.
Definition default_retry : RetryConfig := mkRetryConfig 1 50 1000 false.
Definition default_circuitBreaker : CircuitBreakerConfig := mkCircuitBreakerConfig 0 30000.

Record OracleConfig := mkOracleConfig {
  or_service_name : str;
  or_sid : str;
  or_wallet_location : str;
  or_server_cert_dn : str;
  or_charset_id : Z;
  or_lob_max_bytes : Z;
  or_blob_bind : str;
}.

Record DataSourceConfig := mkDataSourceConfig {
  dc_name : str;
  dc_type : str;
  dc_host : str;
  dc_port : Z;
  dc_user : str;
  dc_password : str;
  dc_password_env : str;
  dc_database : str;
  dc_dsn : str;
  dc_connection_timeout_ms : Z;
  dc_socket_timeout_ms : Z;
  dc_query_timeout_ms : Z;
  dc_max_result_rows : Z;
  dc_tls_enabled : bool;
  dc_tls_verify_peer : bool;
  dc_tls_ca : str;
  dc_tls_cert : str;
  dc_tls_key : str;
  dc_oracle : OracleConfig;
  dc_extra : list (str * str);
}.

Record PoolConfig := mkPoolConfig {
  po_enabled : bool;
  po_min : Z;
  po_max : Z;
  po_borrow_timeout_ms : Z;
  po_idle_timeout_ms : Z;
  po_max_lifetime_ms : Z;
  po_leak_detection_threshold_ms : Z;
  po_validation_interval_ms : Z;
}.

Record SqlLogConfig := mkSqlLogConfig {
  sl_enabled : bool;
  sl_mode : str;
  sl_level : str;
  sl_log_success : bool;
  sl_log_errors : bool;
  sl_slow_only : bool;
  sl_sample_rate : double;
  sl_max_sql_length : Z;
  sl_max_param_length : Z;
  sl_include_string_values : bool;
  sl_include_blob_values : bool;
}.

Record SlowSqlConfig := mkSlowSqlConfig {
  ss_enabled : bool;
  ss_threshold_ms : Z;
  ss_aggregate_capacity : Z;
  ss_recent_capacity : Z;
  ss_retain_rendered_sql : bool;
  ss_max_sql_length : Z;
  ss_histogram_buckets_ms : list Z;
}.

Record StatsReportConfig := mkStatsReportConfig {
  sr_enabled : bool;
  sr_interval_ms : Z;
  sr_file : str;
  sr_format : str;
  sr_include_pool : bool;
  sr_include_slow_sql : bool;
  sr_slow_sql_limit : Z;
}.

Record WriteBufferConfig := mkWriteBufferConfig {
  wc_enabled : bool;
  wc_acknowledge_data_loss_and_duplicates : bool;
  wc_max_queue : Z;
  wc_ttl_ms : Z;
  wc_flush_interval_ms : Z;
}.

Record FailoverConfig := mkFailoverConfig {
  fo_primaries : list str;
  fo_acknowledge_external_fencing : bool;
  fo_require_healthy : bool;
  fo_write_buffer : WriteBufferConfig;
}.

Record ObservabilityConfig := mkObservabilityConfig {
  ob_sql_log : SqlLogConfig;
  ob_slow_sql : SlowSqlConfig;
  ob_pool_metrics : bool;
  ob_stats_report : StatsReportConfig;
}.

Record CursorConfig := mkCursorConfig {
  cu_enabled : bool;
  cu_default_batch_size : Z;
  cu_max_open_cursors : Z;
  cu_allow_scrollable : bool;
}.

Record PreparedCacheConfig := mkPreparedCacheConfig {
  pp_enabled : bool;
  pp_max_per_connection : Z;
}.

Record ReplicaConfig := mkReplicaConfig { rp_name : str; rp_weight : Z }.

Record AsyncConfig := mkAsyncConfig {
  ac_enabled : bool;
  ac_threads : Z;
  ac_queue_size : Z;
  ac_statement_timeout_ms : Z;
}.

Record DataSourceGroupConfig := mkGroupConfig {
  gc_name : str;
  gc_primary : str;
  gc_replicas : list ReplicaConfig;
  gc_read_after_write_ms : Z;
  gc_fallback_to_primary : bool;
  gc_read_only : bool;
  gc_failover : FailoverConfig;
  gc_shadow : str;
}.

Record GlobalConfig := mkGlobalConfig {
  gl_default_datasource : str;
  gl_heartbeat_interval_ms : Z;
  gl_pool : PoolConfig;
  gl_retry : RetryConfig;
  gl_circuit_breaker : CircuitBreakerConfig;
  gl_observability : ObservabilityConfig;
  gl_rate_limit : RateLimitConfig;
  gl_sql_audit : SqlAuditConfig;
  gl_query_cache : QueryCacheConfig;
  gl_cursor : CursorConfig;
  gl_prepared_cache : PreparedCacheConfig;
  gl_async : AsyncConfig;
  gl_interceptors : bool;
  gl_datasources : list DataSourceConfig;
  gl_groups : list DataSourceGroupConfig;
}.

(** The default member initialisers. *)
Definition default_oracle : OracleConfig := mkOracleConfig [] [] [] [] 873 4194304 (lit "auto").
Definition default_datasource : DataSourceConfig :=
  mkDataSourceConfig [] [] [] 0 [] [] [] [] [] 5000 0 0 0 false true [] [] [] default_oracle [].
Definition default_pool : PoolConfig := mkPoolConfig true 1 8 30000 600000 1800000 30000 500.
Definition default_sql_log : SqlLogConfig :=
  mkSqlLogConfig false (lit "template") (lit "debug") true true false (f64 1) 8192 256 false false.
Definition default_slow_sql : SlowSqlConfig :=
  mkSlowSqlConfig false 500 1000 200 false 4096 [10; 50; 100; 200; 500; 1000; 3000; 10000]%Z.
Definition default_stats_report : StatsReportConfig :=
  mkStatsReportConfig false 60000 [] (lit "text") true true 10.
Definition default_rate_limit : RateLimitConfig := mkRateLimitConfig false 0 0 0 (lit "off").
Definition default_sql_audit : SqlAuditConfig :=
  mkSqlAuditConfig false (lit "warn") false false false true [] [].
Definition default_write_buffer : WriteBufferConfig := mkWriteBufferConfig false false 1000 30000 1000.
Definition default_failover : FailoverConfig := mkFailoverConfig [] false false default_write_buffer.
Definition default_observability : ObservabilityConfig :=
  mkObservabilityConfig default_sql_log default_slow_sql true default_stats_report.
Definition default_cursor : CursorConfig := mkCursorConfig true 256 0 false.
Definition default_prepared_cache : PreparedCacheConfig := mkPreparedCacheConfig true 0.
Definition default_async : AsyncConfig := mkAsyncConfig true 0 4096 0.
Definition default_group : DataSourceGroupConfig := mkGroupConfig [] [] [] 0 true false default_failover [].
Definition default_global : GlobalConfig :=
  mkGlobalConfig [] 5000 default_pool default_retry default_circuitBreaker default_observability
    default_rate_limit default_sql_audit default_query_cache default_cursor default_prepared_cache
    default_async false [] [].

(** ** [src/config/datasource_config.cpp] *)
Fixpoint extra_find (k : str) (l : list (str * str)) : option str :=
  match l with
  | [] => None
  | (k', v) :: l' => if str_eqb k' k then Some v else extra_find k l'
  end.

Definition describe (c : DataSourceConfig) : str :=
  dc_name c ++ lit "[" ++ dc_type c ++ lit "]" ++
  (if negb (is_nil (dc_dsn c)) then lit " dsn=" ++ dc_dsn c
   else lit " " ++ dc_host c ++ lit ":" ++ dec_Z (dc_port c) ++ lit "/" ++ dc_database c) ++
  lit " user=" ++ dc_user c.

Definition stars : str := lit "***".

(** [replaceAll] from [pos] on; every turn removes a non-empty secret from the
    text that is left, so the length of the text is enough fuel. *)
Fixpoint replace_from (fuel : nat) (secret text : str) : str :=
  match fuel with
  | O => text
  | S fuel =>
      match str_find secret text with
      | Some k => take k text ++ stars ++ replace_from fuel secret (drop (k + length secret) text)
      | None => text
      end
  end.
Definition replaceAll (secret text : str) : str :=
  if is_nil secret then text else replace_from (S (length text)) secret text.

Definition redact (c : DataSourceConfig) (text : str) : str :=
  let text := replaceAll (dc_password c) text in
  match extra_find (lit "connection_string") (dc_extra c) with
  | Some connectionString => replaceAll connectionString text
  | None => text
  end.

Definition occurs (p s : str) : Prop := exists a b, s = a ++ p ++ b.

Lemma str_find_None p s : str_find p s = None -> ~ occurs p s.
Proof.
  induction s as [|c s IH]; simpl.
  - destruct p; [done|]. intros _ (u & v & Hab). by destruct u.
  - destruct (prefixb p (c :: s)) eqn:Hp; [done|]. destruct (str_find p s) eqn:Hf; [done|].
    intros _ (a & b & Hab). destruct a as [|d a].
    + simpl in Hab. rewrite Hab, prefixb_app in Hp. done.
    + injection Hab as -> Hab. apply IH; [done|]. by exists a, b.
Qed.

(** The leftmost occurrence leaves none before it. *)
Lemma str_find_first p s k : p <> [] -> str_find p s = Some k -> ~ occurs p (take k s).
Proof.
  revert k. induction s as [|c s IH]; intros k Hp; simpl.
  - destruct p; done.
  - destruct (prefixb p (c :: s)) eqn:Hpre.
    + intros [= <-] (u & v & Hab). destruct p; [done|]. by destruct u.
    + destruct (str_find p s) as [j|] eqn:Hf; [|done]. intros [= <-] (a & b & Hab). simpl in Hab.
      destruct a as [|d a]; simpl in Hab.
      * assert (prefixb p (c :: take j s ++ drop j s) = true) as Hx
          by (rewrite app_comm_cons, Hab, <- app_assoc; apply prefixb_app).
        rewrite take_drop in Hx. congruence.
      * injection Hab as -> Hab. apply (IH j Hp eq_refl). by exists a, b.
Qed.

Definition star_free (p : str) : Prop := "*"%char ∉ p.

Lemma occurs_split p s1 s2 :
  star_free p -> occurs p (s1 ++ "*"%char :: s2) -> occurs p s1 \/ occurs p s2.
Proof.
  intros Hs (a & b & Hab). apply app_eq_inv in Hab as [(u & -> & Hu)|(u & -> & Hu)].
  - apply app_eq_inv in Hu as [(w & Hw & Hb)|(w & -> & _)].
    + destruct w as [|c w]; [left; exists a, []; by rewrite Hw, !app_nil_r|].
      injection Hb as <- _. exfalso. apply Hs. rewrite Hw. set_solver.
    + left. by exists a, w.
  - destruct u as [|c u]; simpl in Hu.
    + destruct p as [|c p]; [left; exists s1, []; by rewrite !app_nil_r|].
      injection Hu as <- _. exfalso. apply Hs. set_solver.
    + injection Hu as <- ->. right. by exists u, b.
Qed.

Lemma occurs_app_l p s t : occurs p s -> occurs p (s ++ t).
Proof. intros (a & b & ->). exists a, (b ++ t). by rewrite <- !app_assoc. Qed.
Lemma occurs_app_r p s t : occurs p t -> occurs p (s ++ t).
Proof. intros (a & b & ->). exists (s ++ a), b. by rewrite <- !app_assoc. Qed.
Lemma occurs_take p k s : occurs p (take k s) -> occurs p s.
Proof. intros H. rewrite <- (take_drop k s). by apply occurs_app_l. Qed.
Lemma occurs_drop p k s : occurs p (drop k s) -> occurs p s.
Proof. intros H. rewrite <- (take_drop k s). by apply occurs_app_r. Qed.
Lemma occurs_nil p : occurs p [] -> p = [].
Proof. intros (a & b & Hab). destruct a, p; done. Qed.

Lemma occurs_stars p s t : star_free p -> p <> [] -> occurs p (s ++ stars ++ t) -> occurs p s \/ occurs p t.
Proof.
  intros Hs Hp Ho. apply occurs_split in Ho as [Ho|Ho]; [by left| |done].
  apply (occurs_split p []) in Ho as [Ho|Ho]; [by apply occurs_nil in Ho| |done].
  apply (occurs_split p []) in Ho as [Ho|Ho]; [by apply occurs_nil in Ho|by right|done].
Qed.

Lemma replace_from_hides fuel p text :
  star_free p -> p <> [] -> length text < fuel -> ~ occurs p (replace_from fuel p text).
Proof.
  intros Hs Hp. revert text. induction fuel as [|fuel IH]; intros text Hf; [lia|]. simpl.
  destruct (str_find p text) as [k|] eqn:Hk; [|by apply str_find_None].
  intros [Ho|Ho]%occurs_stars; try done.
  - by eapply str_find_first.
  - revert Ho. apply IH. apply str_find_Some in Hk as [_ Hk]. rewrite length_drop.
    destruct p; [done|]. simpl in *. lia.
Qed.

(** Replacing another secret brings none back. *)
Lemma replace_from_keeps fuel p q text :
  star_free p -> p <> [] -> ~ occurs p text -> ~ occurs p (replace_from fuel q text).
Proof.
  intros Hs Hp. revert text. induction fuel as [|fuel IH]; intros text Hn; simpl; [done|].
  destruct (str_find q text) as [k|]; [|done].
  intros [Ho|Ho]%occurs_stars; try done; [by apply occurs_take in Ho|].
  revert Ho. apply IH. by intros Ho%occurs_drop.
Qed.

Lemma replaceAll_hides p text : star_free p -> p <> [] -> ~ occurs p (replaceAll p text).
Proof.
  intros Hs Hp. unfold replaceAll. destruct p; [done|]. apply replace_from_hides; [done..|lia].
Qed.

Lemma replaceAll_keeps p q text :
  star_free p -> p <> [] -> ~ occurs p text -> ~ occurs p (replaceAll q text).
Proof. intros Hs Hp Hn. unfold replaceAll. destruct (is_nil q); [done|]. by apply replace_from_keeps. Qed.

Lemma replaceAll_absent q text : ~ occurs q text -> replaceAll q text = text.
Proof.
  intros Hn. unfold replaceAll. destruct (is_nil q); [done|]. simpl.
  destruct (str_find q text) as [k|] eqn:Hk; [|done]. exfalso. apply Hn.
  apply str_find_Some in Hk as [Hk _]. apply prefixb_spec in Hk as [t Ht].
  exists (take k text), t. by rewrite <- Ht, take_drop.
Qed.

(** the redacted text holds neither the password nor the connection string,
    whatever the text, unless the secret itself has a [*]. *)
Theorem redact_hides (c : DataSourceConfig) (text secret : str) :
  secret = dc_password c \/ extra_find (lit "connection_string") (dc_extra c) = Some secret ->
  secret <> [] -> star_free secret -> ~ occurs secret (redact c text).
Proof.
  intros Hsec Hne Hs. unfold redact. destruct Hsec as [->| ->]; [|by apply replaceAll_hides].
  pose proof (replaceAll_hides (dc_password c) text Hs Hne) as Hn.
  destruct (extra_find _ _); [by apply replaceAll_keeps|done].
Qed.

(** a connection string that contains the password is never replaced as a
    whole: the password is replaced first, after which the connection string does
    not occur in the text any more. *)
Theorem connection_string_with_password_not_redacted (c : DataSourceConfig) (text cs : str) :
  extra_find (lit "connection_string") (dc_extra c) = Some cs ->
  dc_password c <> [] -> star_free (dc_password c) -> occurs (dc_password c) cs ->
  redact c text = replaceAll (dc_password c) text.
Proof.
  intros Hcs Hne Hs (a & b & Hab). unfold redact. rewrite Hcs. apply replaceAll_absent.
  intros (u & v & Ho). apply (replaceAll_hides (dc_password c) text Hs Hne).
  exists (u ++ a), (b ++ v). rewrite Ho, Hab, <- !app_assoc. done.
Qed.

Definition sample_source : DataSourceConfig :=
  mkDataSourceConfig (lit "d") (lit "odbc") [] 0 [] (lit "pw") [] [] [] 0 0 0 0 false true [] [] []
    default_oracle [(lit "connection_string", lit "HOST=h;PWD=pw")].

Lemma redact_hides_witness : ~ occurs (lit "pw") (redact sample_source (lit "login with pw failed")).
Proof.
  apply (redact_hides sample_source (lit "login with pw failed") (lit "pw")); [by left|done|].
  unfold star_free. vm_compute. set_solver.
Defined.

Lemma connection_string_with_password_not_redacted_witness :
  redact sample_source (lit "cannot open HOST=h;PWD=pw") = lit "cannot open HOST=h;PWD=***".
Proof.
  transitivity (replaceAll (dc_password sample_source) (lit "cannot open HOST=h;PWD=pw")).
  - apply (connection_string_with_password_not_redacted sample_source _ (lit "HOST=h;PWD=pw"));
      [reflexivity|done| |by exists (lit "HOST=h;PWD="), []].
    unfold star_free. vm_compute. set_solver.
  - reflexivity.
Defined.
