(* ===== verification/Json.v ===== *)
(** * The JSON library, as an interface

    [config_loader.cpp] and [yaml_parser.cpp] build and read documents of
    [nlohmann::json], a third-party library.  Nothing of it is defined here:
    [JsonOps] lists the operations the two files call, [JsonLaws] the part of
    their documented behaviour the theorems use.  [JVal] is one small instance,
    used to run the definitions on concrete inputs. *)
From stdpp Require Import base list strings.
From Stdlib Require Import Ascii ZArith.
From S2P Require Import Prelude Doubles Types.

(** The types [get<T>()] and [value(key, T)] are called at. *)
Inductive jty := TBool | TInt | TInt64 | TDouble | TString | TInts | TUInt64s.
Definition jty_sem (t : jty) : Type :=
  match t with
  | TBool => bool
  | TInt | TInt64 => Z
  | TDouble => double
  | TString => str
  | TInts | TUInt64s => list Z
  end.

(** [inl what] is a [json::exception] with its [what()]. *)
Class JsonOps (json : Type) := {
  j_null : json;
  j_bool : bool -> json;
  j_string : str -> json;
  j_array : json;                          (* json::array() *)
  j_push : json -> json -> json;           (* push_back *)
  j_object : json;                         (* json::object() *)
  j_contains : str -> json -> bool;
  j_set : str -> json -> json -> json;     (* object[key] = value *)
  j_at : str -> json -> json;              (* object[key] of a present key *)
  j_is_string : json -> bool;
  j_is_number : json -> bool;
  j_is_object : json -> bool;
  j_is_array : json -> bool;
  j_elements : json -> list json;          (* range-for over an array *)
  j_members : json -> list (str * json);   (* iterators over an object *)
  j_parse : str -> str + json;             (* json::parse *)
  j_get : forall t, json -> str + jty_sem t;
  j_value : forall t, str -> jty_sem t -> json -> str + jty_sem t;
}.

Class JsonLaws (json : Type) `{JsonOps json} := {
  contains_object k : j_contains k j_object = false;
  contains_set k k' v o : j_is_object o = true ->
    j_contains k (j_set k' v o) = bool_decide (k = k') || j_contains k o;
  is_object_object : j_is_object j_object = true;
  is_object_set k v o : j_is_object o = true -> j_is_object (j_set k v o) = true;
  is_string_string s : j_is_string (j_string s) = true;
  get_string s : j_get TString (j_string s) = inr s;
  parse_empty_array : j_parse (lit "[]") = inr j_array;
  parse_empty_object : j_parse (lit "{}") = inr j_object;
  at_set k v o : j_is_object o = true -> j_at k (j_set k v o) = v;
  at_set_ne k k' v o : j_is_object o = true -> k <> k' -> j_at k (j_set k' v o) = j_at k o;
  value_present t k d o : j_contains k o = true -> j_value t k d o = j_get t (j_at k o);
  value_absent t k d o : j_is_object o = true -> j_contains k o = false -> j_value t k d o = inr d;
  contains_is_object k o : j_contains k o = true -> j_is_object o = true;
}.

(** ** A small instance *)
Inductive JVal :=
  | JNull
  | JBool (b : bool)
  | JNum (z : Z)
  | JStr (s : str)
  | JArr (l : list JVal)
  | JObj (l : list (str * JVal)).

Definition jval_members (v : JVal) : list (str * JVal) :=
  match v with JObj l => l | _ => [] end.

Fixpoint member (k : str) (l : list (str * JVal)) : option JVal :=
  match l with
  | [] => None
  | (k', v) :: l' => if str_eqb k' k then Some v else member k l'
  end.

(** Keys are kept in the order of [std::less<std::string>]. *)
Fixpoint member_set (k : str) (v : JVal) (l : list (str * JVal)) : list (str * JVal) :=
  match l with
  | [] => [(k, v)]
  | (k', v') :: l' =>
      if str_eqb k' k then (k, v) :: l'
      else if str_ltb k k' then (k, v) :: l
      else (k', v') :: member_set k v l'
  end.

(** Documents whose strings have no escape and whose numbers are integers:
    enough to run examples.  The result is the value and the text after it. *)
Definition eat (c : ascii) (s : str) : option str :=
  match skip_while isspace s with
  | d :: r => if Ascii.eqb c d then Some r else None
  | [] => None
  end.

Definition jval_string (s : str) : option (str * str) :=
  let plain c := negb (Ascii.eqb c dquote || Ascii.eqb c "\") in
  match eat dquote s with
  | Some r => match eat dquote (skip_while plain r) with
              | Some r' => Some (take_while plain r, r')
              | None => None
              end
  | None => None
  end.

Definition jval_word (s : str) : option (JVal * str) :=
  let w := take_while isalnum s in
  let r := skip_while isalnum s in
  if str_eqb w (lit "null") then Some (JNull, r)
  else if str_eqb w (lit "true") then Some (JBool true, r)
  else if str_eqb w (lit "false") then Some (JBool false, r)
  else if negb (is_nil w) && forallb isdigit w then Some (JNum (digits_val w), r)
  else None.

Fixpoint jval_read (fuel : nat) (s : str) : option (JVal * str) :=
  match fuel with
  | O => None
  | S fuel =>
      match eat "[" s, eat "{" s, jval_string s with
      | Some r, _, _ =>
          match eat "]" r with Some r' => Some (JArr [], r') | None => jval_items fuel [] r end
      | _, Some r, _ =>
          match eat "}" r with Some r' => Some (JObj [], r') | None => jval_entries fuel [] r end
      | _, _, Some (t, r) => Some (JStr t, r)
      | _, _, _ => jval_word (skip_while isspace s)
      end
  end

with jval_items (fuel : nat) (acc : list JVal) (s : str) : option (JVal * str) :=
  match fuel with
  | O => None
  | S fuel =>
      match jval_read fuel s with
      | None => None
      | Some (v, r) =>
          match eat "," r, eat "]" r with
          | Some r', _ => jval_items fuel (acc ++ [v]) r'
          | _, Some r' => Some (JArr (acc ++ [v]), r')
          | _, _ => None
          end
      end
  end

with jval_entries (fuel : nat) (acc : list (str * JVal)) (s : str) : option (JVal * str) :=
  match fuel with
  | O => None
  | S fuel =>
      match jval_string s with
      | None => None
      | Some (k, r) =>
          match eat ":" r with
          | None => None
          | Some r =>
              match jval_read fuel r with
              | None => None
              | Some (v, r) =>
                  match eat "," r, eat "}" r with
                  | Some r', _ => jval_entries fuel (member_set k v acc) r'
                  | _, Some r' => Some (JObj (member_set k v acc), r')
                  | _, _ => None
                  end
              end
          end
      end
  end.

Definition jval_parse (s : str) : str + JVal :=
  match jval_read (2 * length s + 2) s with
  | Some (v, r) => if is_nil (skip_while isspace r) then inr v else inl (lit "syntax error")
  | None => inl (lit "syntax error")
  end.

Definition jval_type_error : str := lit "type must be another".

Fixpoint all_nums (l : list JVal) : str + list Z :=
  match l with
  | [] => inr []
  | JNum z :: l' => match all_nums l' with inr r => inr (z :: r) | inl e => inl e end
  | _ => inl jval_type_error
  end.

Definition jval_get (t : jty) (v : JVal) : str + jty_sem t :=
  match t, v with
  | TBool, JBool b => inr b
  | TInt, JNum z => inr z
  | TInt64, JNum z => inr z
  | TDouble, JNum z => inr (f64 z)
  | TString, JStr s => inr s
  | TInts, JArr l => all_nums l
  | TUInt64s, JArr l => all_nums l
  | _, _ => inl jval_type_error
  end.

#[export] Instance jval_ops : JsonOps JVal := {
  j_null := JNull;
  j_bool := JBool;
  j_string := JStr;
  j_array := JArr [];
  j_push := fun v a => match a with JArr l => JArr (l ++ [v]) | _ => JArr [v] end;
  j_object := JObj [];
  j_contains := fun k o => bool_decide (is_Some (member k (jval_members o)));
  j_set := fun k v o => JObj (member_set k v (jval_members o));
  j_at := fun k o => default JNull (member k (jval_members o));
  j_is_string := fun v => match v with JStr _ => true | _ => false end;
  j_is_number := fun v => match v with JNum _ => true | _ => false end;
  j_is_object := fun v => match v with JObj _ => true | _ => false end;
  j_is_array := fun v => match v with JArr _ => true | _ => false end;
  j_elements := fun v => match v with JArr l => l | _ => [] end;
  j_members := jval_members;
  j_parse := jval_parse;
  j_get := jval_get;
  j_value := fun t k d o =>
    match o with
    | JObj l => match member k l with Some v => jval_get t v | None => inr d end
    | _ => inl jval_type_error
    end;
}.

Lemma member_set_same k v l : member k (member_set k v l) = Some v.
Proof.
  induction l as [|[k' v'] l IH]; simpl; [by rewrite str_eqb_refl|].
  destruct (str_eqb k' k) eqn:E; simpl; [by rewrite str_eqb_refl|].
  destruct (str_ltb k k'); simpl; [by rewrite str_eqb_refl|by rewrite E].
Qed.

Lemma member_set_other k k' v l : k <> k' -> member k (member_set k' v l) = member k l.
Proof.
  intros Hne. assert (str_eqb k' k = false) as Hk by (apply bool_decide_eq_false; congruence).
  induction l as [|[k2 v2] l IH]; simpl; [by rewrite Hk|].
  destruct (str_eqb k2 k') eqn:E; simpl.
  - apply str_eqb_eq in E as ->. by rewrite Hk.
  - destruct (str_ltb k' k2); simpl; rewrite ?Hk; [done|]. by rewrite IH.
Qed.

#[export] Instance jval_laws : JsonLaws JVal.
Proof.
  split; try done.
  - intros k k' v o _. simpl. destruct (decide (k = k')) as [->|Hne].
    + rewrite member_set_same. by rewrite !bool_decide_true by eauto.
    + rewrite member_set_other by done. by rewrite (bool_decide_false (k = k')) by done.
  - intros k v o _. simpl. by rewrite member_set_same.
  - intros k k' v o _ Hne. simpl. by rewrite member_set_other.
  - intros t k d o. destruct o; simpl; intros H; try discriminate; apply bool_decide_eq_true in H as [w Hw].
    by rewrite Hw.
  - intros t k d o. destruct o; simpl; intros H Hn; try done.
    apply bool_decide_eq_false in Hn. destruct (member k l); [exfalso; eauto|done].
  - intros k o. destruct o; simpl; intros H; done.
Qed.
