(* ===== verification/YamlParser.v ===== *)
(** * The YAML subset parser

    [src/config/yaml_parser.cpp]: the tokenizer that turns a text into indented
    lines, the scanners that find comments and mapping colons outside quotes,
    the recursive-descent parser over the lines, and [parseYaml].

    JSON values are those of the interface [JsonOps].  The loops and calls of
    the parser recurse on fuel; [parseYaml] supplies three units a line and
    [parseYaml_total] shows that it never runs out.  The round trip is against a
    block-style printer, [render], of which [parseYaml] is a left inverse. *)
From stdpp Require Import base list strings.
From Stdlib Require Import Ascii ZArith Lia.
From S2P Require Import Prelude Types Json.

(** ** Results

    [Bad error] is [return false] with the message in [error]; [Threw] an
    exception that leaves the parser; [NoFuel] is the model's own. *)
Inductive yres (A : Type) :=
  | Done (a : A)
  | Bad (error : str)
  | Threw (what : str)
  | NoFuel.
Arguments Done {A} a.
Arguments Bad {A} error.
Arguments Threw {A} what.
Arguments NoFuel {A}.

Definition ybind {A B} (m : yres A) (k : A -> yres B) : yres B :=
  match m with
  | Done a => k a
  | Bad e => Bad e
  | Threw w => Threw w
  | NoFuel => NoFuel
  end.
Declare Scope yaml_scope.
Delimit Scope yaml_scope with yaml.
Notation "x <~ m ; k" := (ybind m (fun x => k))
  (at level 100, m at next level, right associativity) : yaml_scope.
Notation "' p <~ m ; k" := (ybind m (fun p => k))
  (at level 100, p strict pattern, m at next level, right associativity) : yaml_scope.
Open Scope yaml_scope.

Record Line := mkLine { l_number : nat; l_indent : nat; l_text : str }.

(** ** Characters and scanners *)
Definition trim (value : str) : str :=
  reverse (skip_while isspace (reverse (skip_while isspace value))).

Definition lower (value : str) : str := map tolower value.

Definition is_sq (c : ascii) : bool := Ascii.eqb c squote.
Definition is_dq (c : ascii) : bool := Ascii.eqb c dquote.
Definition is_bs (c : ascii) : bool := Ascii.eqb c "\".
Definition is_open (c : ascii) : bool := Ascii.eqb c "[" || Ascii.eqb c "{".
Definition is_close (c : ascii) : bool := Ascii.eqb c "]" || Ascii.eqb c "}".

(** The offset of the [#] that starts a comment; [prev] is [value[i - 1]]. *)
Fixpoint comment_at (rest : str) (prev : option ascii) (single doubleQuoted escaped : bool)
    (i : nat) : option nat :=
  match rest with
  | [] => None
  | c :: rest' =>
      if doubleQuoted && escaped then comment_at rest' (Some c) single doubleQuoted false (S i)
      else if doubleQuoted && is_bs c then comment_at rest' (Some c) single doubleQuoted true (S i)
      else if negb doubleQuoted && is_sq c then
        match rest' with
        | c2 :: rest2 =>
            if single && is_sq c2 then comment_at rest2 (Some c2) single doubleQuoted escaped (S (S i))
            else comment_at rest' (Some c) (negb single) doubleQuoted escaped (S i)
        | [] => comment_at rest' (Some c) (negb single) doubleQuoted escaped (S i)
        end
      else if negb single && is_dq c then
        comment_at rest' (Some c) single (negb doubleQuoted) escaped (S i)
      else if negb single && negb doubleQuoted && Ascii.eqb c "#" &&
              match prev with None => true | Some p => isspace p end
      then Some i
      else comment_at rest' (Some c) single doubleQuoted escaped (S i)
  end.

Definition withoutComment (value : str) : str :=
  match comment_at value None false false false 0 with
  | Some i => take i value
  | None => value
  end.

Fixpoint colon_at (rest : str) (single doubleQuoted escaped : bool) (flowDepth : Z) (i : nat)
    : option nat :=
  match rest with
  | [] => None
  | c :: rest' =>
      if doubleQuoted && escaped then colon_at rest' single doubleQuoted false flowDepth (S i)
      else if doubleQuoted && is_bs c then colon_at rest' single doubleQuoted true flowDepth (S i)
      else if negb doubleQuoted && is_sq c then
        match rest' with
        | c2 :: rest2 =>
            if single && is_sq c2 then colon_at rest2 single doubleQuoted escaped flowDepth (S (S i))
            else colon_at rest' (negb single) doubleQuoted escaped flowDepth (S i)
        | [] => colon_at rest' (negb single) doubleQuoted escaped flowDepth (S i)
        end
      else if negb single && is_dq c then
        colon_at rest' single (negb doubleQuoted) escaped flowDepth (S i)
      else if single || doubleQuoted then colon_at rest' single doubleQuoted escaped flowDepth (S i)
      else if is_open c then colon_at rest' single doubleQuoted escaped (flowDepth + 1) (S i)
      else if is_close c then colon_at rest' single doubleQuoted escaped (flowDepth - 1) (S i)
      else if Ascii.eqb c ":" && (flowDepth =? 0)%Z &&
              match rest' with [] => true | d :: _ => isspace d end
      then Some i
      else colon_at rest' single doubleQuoted escaped flowDepth (S i)
  end.

Definition mappingColon (value : str) : option nat := colon_at value false false false 0 0.

Definition sequenceLine (value : str) : bool :=
  match value with
  | c :: r => Ascii.eqb c "-" && match r with [] => true | d :: _ => isspace d end
  | [] => false
  end.

(** ** The tokenizer *)

(** [std::getline] until it fails. *)
Fixpoint getlines (cur input : str) : list str :=
  match input with
  | [] => if is_nil cur then [] else [reverse cur]
  | c :: input' =>
      if Ascii.eqb c "010" then reverse cur :: getlines [] input' else getlines (c :: cur) input'
  end.

Definition chop_cr (raw : str) : str :=
  match last raw with
  | Some c => if Ascii.eqb c "013" then removelast raw else raw
  | None => raw
  end.

Definition indent_of (raw : str) : nat := length (take_while (fun c => Ascii.eqb c " ") raw).

Fixpoint tokenize_loop (raws : list str) (number : nat) (lines : list Line) : yres (list Line) :=
  match raws with
  | [] => Done lines
  | raw :: raws' =>
      let number := S number in
      let raw := chop_cr raw in
      let indent := indent_of raw in
      if match raw !! indent with Some c => Ascii.eqb c "009" | None => false end
      then Bad (lit "line " ++ dec_nat number ++ lit ": tabs are not allowed for YAML indentation")
      else
        let content := trim (withoutComment (drop indent raw)) in
        if is_nil content || str_eqb content (lit "---") || str_eqb content (lit "...")
        then tokenize_loop raws' number lines
        else tokenize_loop raws' number (lines ++ [mkLine number indent content])
  end.

Definition tokenize (text : str) : yres (list Line) := tokenize_loop (getlines [] text) 0 [].

(** ** The parser *)
Definition fail {A} (line : Line) (message : string) : yres A :=
  Bad (lit "line " ++ dec_nat (l_number line) ++ lit ": " ++ lit message).

(** [parseScalar], single quotes: [rest] is the text from [i] on. *)
Fixpoint decode_single (rest : str) : str :=
  match rest with
  | c :: ((c2 :: t) as r) =>
      if is_sq c && negb (is_nil t) && is_sq c2 then squote :: decode_single t
      else c :: decode_single r
  | _ => []
  end.

Section Parser.
Context {json : Type} `{JsonOps json}.

(** The loop of [parseFlowSequence] over [body] and the final [','].
    [body.substr(start, i - start)] is what [start] and [i] delimit. *)
Fixpoint flow_loop (scalar : str -> yres json) (line : Line) (body rest : str) (i start : nat)
    (single doubleQuoted escaped : bool) (depth : Z) (out : json) : yres json :=
  match rest with
  | [] => Done out
  | c :: rest' =>
      let go := flow_loop scalar line body rest' (S i) in
      if doubleQuoted && escaped then go start single doubleQuoted false depth out
      else if doubleQuoted && is_bs c then go start single doubleQuoted true depth out
      else if negb doubleQuoted && is_sq c then go start (negb single) doubleQuoted escaped depth out
      else if negb single && is_dq c then go start single (negb doubleQuoted) escaped depth out
      else if single || doubleQuoted then go start single doubleQuoted escaped depth out
      else if is_open c then go start single doubleQuoted escaped (depth + 1)%Z out
      else if is_close c then go start single doubleQuoted escaped (depth - 1)%Z out
      else if Ascii.eqb c "," && (depth =? 0)%Z then
        let part := trim (take (i - start) (drop start body)) in
        if is_nil part then fail line "empty value in flow sequence"
        else element <~ scalar part; go (S i) single doubleQuoted escaped depth (j_push element out)
      else go start single doubleQuoted escaped depth out
  end.

Definition parseFlowSequence (scalar : str -> yres json) (line : Line) (value : str) : yres json :=
  let body := trim (take (length value - 2) (drop 1 value)) in
  if is_nil body then Done j_array
  else flow_loop scalar line body (body ++ [","%char]) 0 0 false false false 0 j_array.

Definition first_is (q : ascii) (value : str) : bool :=
  match value with c :: _ => Ascii.eqb c q | [] => false end.
Definition last_is (q : ascii) (value : str) : bool :=
  match last value with Some c => Ascii.eqb c q | None => false end.

Fixpoint parseScalar_fuel (fuel : nat) (line : Line) (raw : str) : yres json :=
  match fuel with
  | O => NoFuel
  | S fuel =>
      let value := trim raw in
      if is_nil value then fail line "scalar value is empty"
      else if first_is squote value then
        if (length value <? 2) || negb (last_is squote value)
        then fail line "unterminated single-quoted string"
        else Done (j_string (decode_single (drop 1 value)))
      else if first_is dquote value then
        match j_parse value with
        | inl what => Bad (lit "line " ++ dec_nat (l_number line) ++ lit ": " ++
                           lit "invalid double-quoted string: " ++ what)
        | inr out => if j_is_string out then Done out else fail line "quoted scalar must be a string"
        end
      else if first_is "[" value && last_is "]" value then
        match j_parse value with
        | inr out => Done out
        | inl _ => parseFlowSequence (parseScalar_fuel fuel line) line value
        end
      else if first_is "{" value && last_is "}" value then
        match j_parse value with
        | inr out => Done out
        | inl what => Bad (lit "line " ++ dec_nat (l_number line) ++ lit ": " ++
                           lit "invalid flow mapping: " ++ what)
        end
      else
        let normalized := lower value in
        if str_eqb normalized (lit "true") then Done (j_bool true)
        else if str_eqb normalized (lit "false") then Done (j_bool false)
        else if str_eqb normalized (lit "null") || str_eqb value (lit "~") then Done j_null
        else match j_parse value with
             | inr number => if j_is_number number then Done number else Done (j_string value)
             | inl _ => Done (j_string value)
             end
  end.

(** The nesting of flow sequences is bounded by the length of the text. *)
Definition parseScalar (line : Line) (raw : str) : yres json :=
  parseScalar_fuel (S (length raw)) line raw.

Definition parseKey (line : Line) (raw : str) : yres str :=
  let value := trim raw in
  if is_nil value then fail line "mapping key is empty"
  else if first_is squote value || first_is dquote value then
    parsed <~ parseScalar line value;
    if negb (j_is_string parsed) then fail line "mapping key must be a string"
    else match j_get TString parsed with inr key => Done key | inl what => Threw what end
  else Done value.

(** What follows a key: [rawValue] on its line, or a node on the lines below,
    indented more than [indent]; else null.  [node] is [parseNode]. *)
Definition value_or_node (node : nat -> nat -> yres (json * nat)) (lines : list Line) (line : Line)
    (rawValue : str) (index indent : nat) : yres (json * nat) :=
  if is_nil rawValue then
    match lines !! index with
    | Some next =>
        if indent <? l_indent next then node index (l_indent next) else Done (j_null, index)
    | None => Done (j_null, index)
    end
  else value <~ parseScalar line rawValue; Done (value, index).

(** The value of a sequence item; [entries] is the loop over the further
    entries of a mapping that starts on the line of the dash. *)
Definition item_value (node : nat -> nat -> yres (json * nat))
    (entries : nat -> nat -> json -> yres (json * nat)) (lines : list Line) (line : Line)
    (item : str) (index indent : nat) : yres (json * nat) :=
  if is_nil item then
    match lines !! index with
    | None => fail line "sequence item has no value"
    | Some next =>
        if l_indent next <=? indent then fail line "sequence item has no value"
        else node index (l_indent next)
    end
  else match mappingColon item with
  | None =>
      value <~ parseScalar line item;
      match lines !! index with
      | Some next =>
          if indent <? l_indent next
          then fail next "scalar sequence item cannot have nested content"
          else Done (value, index)
      | None => Done (value, index)
      end
  | Some colon =>
      key <~ parseKey line (take colon item);
      ' (first, index) <~
        value_or_node node lines line (trim (drop (S colon) item)) index (indent + 2);
      entries index indent (j_set key first j_object)
  end.

(** The member functions of [Parser]; [index] is passed and returned, the line
    at [index] is handed to [parseMappingEntry] by its callers, which have
    tested that it exists.  [parseMapping], [parseSequence] and [itemEntries] are
    the loops of [parseMapping], [parseSequence] and the loop over the further
    entries of a sequence item. *)
Fixpoint parseNode (lines : list Line) (fuel index indent : nat) : yres (json * nat) :=
  match fuel with
  | O => NoFuel
  | S fuel =>
      match lines !! index with
      | None => Bad (lit "unexpected end of YAML document")
      | Some line =>
          if negb (l_indent line =? indent) then fail line "unexpected indentation"
          else if sequenceLine (l_text line) then parseSequence lines fuel index indent j_array
          else parseMapping lines fuel index indent j_object
      end
  end

with parseMappingEntry (lines : list Line) (fuel index : nat) (line : Line) (indent : nat)
    (object : json) : yres (json * nat) :=
  match fuel with
  | O => NoFuel
  | S fuel =>
      if negb (l_indent line =? indent) || sequenceLine (l_text line)
      then fail line "expected a mapping entry"
      else match mappingColon (l_text line) with
      | None => fail line "expected ':' after mapping key"
      | Some colon =>
          key <~ parseKey line (take colon (l_text line));
          if j_contains key object
          then Bad (lit "line " ++ dec_nat (l_number line) ++ lit ": " ++
                    lit "duplicate mapping key '" ++ key ++ lit "'")
          else
            ' (value, index) <~
              value_or_node (parseNode lines fuel) lines line
                (trim (drop (S colon) (l_text line))) (S index) indent;
            Done (j_set key value object, index)
      end
  end

with parseMapping (lines : list Line) (fuel index indent : nat) (out : json) : yres (json * nat) :=
  match fuel with
  | O => NoFuel
  | S fuel =>
      match lines !! index with
      | None => Done (out, index)
      | Some line =>
          if l_indent line <? indent then Done (out, index)
          else if indent <? l_indent line then fail line "unexpected indentation"
          else if sequenceLine (l_text line) then Done (out, index)
          else ' (out, index) <~ parseMappingEntry lines fuel index line indent out;
               parseMapping lines fuel index indent out
      end
  end

with parseSequence (lines : list Line) (fuel index indent : nat) (out : json) : yres (json * nat) :=
  match fuel with
  | O => NoFuel
  | S fuel =>
      match lines !! index with
      | None => Done (out, index)
      | Some line =>
          if negb ((l_indent line =? indent) && sequenceLine (l_text line)) then Done (out, index)
          else
            ' (value, index) <~
              item_value (parseNode lines fuel) (itemEntries lines fuel) lines line
                (trim (drop 1 (l_text line))) (S index) indent;
            parseSequence lines fuel index indent (j_push value out)
      end
  end

with itemEntries (lines : list Line) (fuel index indent : nat) (value : json) : yres (json * nat) :=
  match fuel with
  | O => NoFuel
  | S fuel =>
      match lines !! index with
      | None => Done (value, index)
      | Some line =>
          if negb (indent <? l_indent line) then Done (value, index)
          else if negb (l_indent line =? indent + 2) then fail line "unexpected indentation"
          else ' (value, index) <~ parseMappingEntry lines fuel index line (indent + 2) value;
               itemEntries lines fuel index indent value
      end
  end.

Definition parse (lines : list Line) : yres json :=
  match lines with
  | [] => Bad (lit "YAML document is empty")
  | front :: _ =>
      ' (out, index) <~ parseNode lines (3 * length lines + 3) 0 (l_indent front);
      match lines !! index with
      | Some line => fail line "unexpected indentation"
      | None => Done out
      end
  end.

Definition parseYaml (text : str) : yres json := lines <~ tokenize text; parse lines.


(** ** Termination *)
Lemma skip_while_le f s : length (skip_while f s) <= length s.
Proof. apply skip_while_length. Qed.

Lemma trim_length value : length (trim value) <= length value.
Proof.
  unfold trim. rewrite length_reverse. etrans; [apply skip_while_le|]. rewrite length_reverse.
  apply skip_while_le.
Qed.

Lemma ybind_fuel {A B} (m : yres A) (k : A -> yres B) :
  m <> NoFuel -> (forall a, k a <> NoFuel) -> ybind m k <> NoFuel.
Proof. destruct m; simpl; intros; auto. Qed.

Lemma flow_loop_fuel scalar line body rest i start single dq esc depth out :
  (forall part, length part <= length body -> scalar part <> NoFuel) ->
  flow_loop scalar line body rest i start single dq esc depth out <> NoFuel.
Proof.
  intros Hs. revert i start single dq esc depth out.
  induction rest as [|c rest IH]; intros; simpl; [done|].
  repeat case_match; try apply IH; try done.
  apply ybind_fuel; [|intros; apply IH].
  apply Hs. etrans; [apply trim_length|]. rewrite length_take, length_drop. lia.
Qed.

Lemma parseScalar_fuel_enough fuel line raw :
  length raw < fuel -> parseScalar_fuel fuel line raw <> NoFuel.
Proof.
  revert raw. induction fuel as [|fuel IH]; intros raw Hf; [lia|]. simpl.
  pose proof (trim_length raw) as Ht.
  repeat case_match; try done.
  unfold parseFlowSequence. case_match; [done|].
  apply flow_loop_fuel. intros part Hp. apply IH.
  pose proof (trim_length (take (length (trim raw) - 2) (drop 1 (trim raw)))) as Hb.
  rewrite length_take, length_drop in Hb. destruct (trim raw); simpl in *; [done|lia].
Qed.

Lemma parseScalar_total line raw : parseScalar line raw <> NoFuel.
Proof. apply parseScalar_fuel_enough. lia. Qed.

Lemma parseKey_total line raw : parseKey line raw <> NoFuel.
Proof.
  unfold parseKey. repeat case_match; try done.
  apply ybind_fuel; [apply parseScalar_total|]. intros a. by repeat case_match.
Qed.

(** The call ends, and a result has moved on to index [k] at least. *)
Definition advances (k : nat) (m : yres (json * nat)) : Prop :=
  match m with NoFuel => False | Done (_, j) => k <= j | _ => True end.

Lemma advances_bind k k' (m : yres (json * nat)) f :
  advances k m -> (forall v j, k <= j -> advances k' (f (v, j))) -> advances k' (ybind m f).
Proof. destruct m as [[v j]| | |]; simpl; auto. Qed.

Lemma advances_total {A} k (m : yres A) f :
  m <> NoFuel -> (forall a, advances k (f a)) -> advances k (ybind m f).
Proof. destruct m; simpl; auto. Qed.

Lemma advances_mono k k' m : k <= k' -> advances k' m -> advances k m.
Proof. destruct m as [[v j]| | |]; simpl; auto; lia. Qed.

Lemma value_or_node_advances node lines line raw i ind :
  (forall ind', i < length lines -> advances i (node i ind')) ->
  advances i (value_or_node node lines line raw i ind).
Proof.
  intros Hn. unfold value_or_node. case_match.
  - destruct (lines !! i) eqn:Hi; [|simpl; lia]. apply lookup_lt_Some in Hi.
    case_match; [by apply Hn|simpl; lia].
  - apply advances_total; [apply parseScalar_total|simpl; lia].
Qed.

Lemma item_value_advances node entries lines line item i ind :
  (forall ind', i < length lines -> advances i (node i ind')) ->
  (forall j o, i <= j -> advances j (entries j ind o)) ->
  advances i (item_value node entries lines line item i ind).
Proof.
  intros Hn He. unfold item_value. case_match; [|case_match].
  - destruct (lines !! i) eqn:Hi; [|done]. apply lookup_lt_Some in Hi.
    case_match; [done|by apply Hn].
  - apply advances_total; [apply parseKey_total|]. intros key.
    apply advances_bind with i; [by apply value_or_node_advances|].
    intros v j Hj. apply advances_mono with j; [lia|]. by apply He.
  - apply advances_total; [apply parseScalar_total|]. intros v.
    destruct (lines !! i); [|simpl; lia]. case_match; [done|simpl; lia].
Qed.

Lemma parser_advances lines fuel :
  let n := length lines in
  (forall i ind, 3 * (n - i) + 3 <= fuel -> advances i (parseNode lines fuel i ind)) /\
  (forall i line ind o, i < n -> 3 * (n - i) + 1 <= fuel ->
     advances (S i) (parseMappingEntry lines fuel i line ind o)) /\
  (forall i ind o, 3 * (n - i) + 2 <= fuel -> advances i (parseMapping lines fuel i ind o)) /\
  (forall i ind o, 3 * (n - i) + 2 <= fuel -> advances i (parseSequence lines fuel i ind o)) /\
  (forall i ind o, 3 * (n - i) + 2 <= fuel -> advances i (itemEntries lines fuel i ind o)).
Proof.
  intros n. induction fuel as [|fuel (IHn & IHe & IHm & IHs & IHi)].
  { repeat split; intros; lia. }
  repeat split.
  - intros i ind Hf. simpl. destruct (lines !! i) eqn:Hi; [|done].
    repeat case_match; try done; [apply IHs|apply IHm]; lia.
  - intros i line ind o Hi Hf. simpl. case_match; [done|]. case_match; [|done].
    apply advances_total; [apply parseKey_total|]. intros key. case_match; [done|].
    apply advances_bind with (S i); [|by simpl].
    apply value_or_node_advances. intros ind' _. apply IHn. lia.
  - intros i ind o Hf. simpl. destruct (lines !! i) eqn:Hi; [|simpl; lia].
    apply lookup_lt_Some in Hi. fold n in Hi.
    repeat case_match; try (simpl; lia); try done.
    apply advances_bind with (S i); [apply IHe; lia|]. intros v j Hj.
    apply advances_mono with j; [lia|]. apply IHm. lia.
  - intros i ind o Hf. simpl. destruct (lines !! i) as [line|] eqn:Hi; [|simpl; lia].
    apply lookup_lt_Some in Hi. fold n in Hi. case_match; [simpl; lia|].
    apply advances_bind with (S i).
    + apply item_value_advances; intros; [apply IHn|apply IHi]; lia.
    + intros v j Hj. apply advances_mono with j; [lia|]. apply IHs. lia.
  - intros i ind o Hf. simpl. destruct (lines !! i) eqn:Hi; [|simpl; lia].
    apply lookup_lt_Some in Hi. fold n in Hi.
    repeat case_match; try (simpl; lia); try done.
    apply advances_bind with (S i); [apply IHe; lia|]. intros v j Hj.
    apply advances_mono with j; [lia|]. apply IHi. lia.
Qed.

Lemma tokenize_loop_total raws number lines : tokenize_loop raws number lines <> NoFuel.
Proof.
  revert number lines. induction raws as [|raw raws IH]; intros; simpl; [done|].
  repeat case_match; try apply IH; done.
Qed.

(** C23: the parser ends on every text, well formed or not: [parseYaml] never
    runs out of the fuel it is given, whatever the nesting of blocks and of flow
    sequences. *)
Theorem parseYaml_total (text : str) : parseYaml text <> NoFuel.
Proof.
  apply ybind_fuel; [apply tokenize_loop_total|]. intros lines.
  unfold parse. destruct lines as [|front lines]; [done|].
  destruct (parser_advances (front :: lines) (3 * length (front :: lines) + 3)) as [Hn _].
  specialize (Hn 0 (l_indent front) ltac:(lia)).
  destruct (parseNode _ _ _ _) as [[v j]| | |]; simpl in *; try done. by case_match.
Qed.

(** ** Round trip: a printer in block style *)
Inductive doc :=
  | DNull
  | DBool (b : bool)
  | DStr (s : str)
  | DSeq (l : list doc)
  | DMap (l : list (str * doc)).

Section DocInd.
Variable P : doc -> Prop.
Hypothesis Pnull : P DNull.
Hypothesis Pbool : forall b, P (DBool b).
Hypothesis Pstr : forall s, P (DStr s).
Hypothesis Pseq : forall l, Forall P l -> P (DSeq l).
Hypothesis Pmap : forall l, Forall (fun kx => P kx.2) l -> P (DMap l).
Fixpoint doc_nested_ind (d : doc) : P d :=
  match d with
  | DNull => Pnull
  | DBool b => Pbool b
  | DStr s => Pstr s
  | DSeq l => Pseq l ((fix go l : Forall P l :=
      match l with [] => Forall_nil_2 _ | x :: r => Forall_cons_2 _ _ _ (doc_nested_ind x) (go r) end) l)
  | DMap l => Pmap l ((fix go l : Forall (fun kx => P kx.2) l :=
      match l with
      | [] => Forall_nil_2 _
      | kx :: r => Forall_cons_2 (fun kx => P kx.2) kx r (doc_nested_ind kx.2) (go r)
      end) l)
  end.
End DocInd.

(** What is written on the line of its key or dash. *)
Definition scalar_text (d : doc) : option str :=
  match d with
  | DNull => Some (lit "null")
  | DBool b => Some (bool_str b "true" "false")
  | DStr s => Some (quoteText s)
  | DSeq [] => Some (lit "[]")
  | DMap [] => Some (lit "{}")
  | _ => None
  end.

(** A printed line: its indentation and its text. *)
Abbreviation pline := (nat * str)%type.

(** The text after the colon of an entry, and the lines under it. *)
Definition after_colon (x : doc) : str :=
  match scalar_text x with Some s => " "%char :: s | None => [] end.
Definition nested (blk : list pline) (x : doc) : list pline :=
  match scalar_text x with Some _ => [] | None => blk end.
Definition entry_lines (blk : list pline) (k : str) (x : doc) (ind : nat) : list pline :=
  (ind, quoteText k ++ ":"%char :: after_colon x) :: nested blk x.

(** A mapping under a dash starts on the line of the dash. *)
Definition dash (ind : nat) (blk : list pline) : list pline :=
  match blk with
  | [] => []
  | (_, t) :: r => (ind, lit "- " ++ t) :: r
  end.

Definition item_lines (blk : list pline) (x : doc) (ind : nat) : list pline :=
  match scalar_text x with
  | Some s => [(ind, lit "- " ++ s)]
  | None => match x with
            | DMap _ => dash ind blk
            | _ => (ind, lit "-") :: blk
            end
  end.

Fixpoint block (d : doc) (ind : nat) : list pline :=
  match d with
  | DSeq l => concat (map (fun x => item_lines (block x (ind + 2)) x ind) l)
  | DMap l => concat (map (fun kx => match kx with (k, x) => entry_lines (block x (ind + 2)) k x ind end) l)
  | _ => []
  end.

Definition line_text (p : pline) : str := repeat " "%char p.1 ++ p.2 ++ ["010"%char].
Definition render (d : doc) : str := concat (map line_text (block d 0)).

(** The value the document denotes. *)
Fixpoint to_json (d : doc) : json :=
  match d with
  | DNull => j_null
  | DBool b => j_bool b
  | DStr s => j_string s
  | DSeq l => fold_left (fun a v => j_push v a) (map to_json l) j_array
  | DMap l => fold_left (fun o kv => j_set kv.1 kv.2 o)
                (map (fun kx => match kx with (k, x) => (k, to_json x) end) l) j_object
  end.

(** Strings and keys without a line feed, and no key twice in a mapping. *)
Definition one_line (s : str) : bool := forallb (fun c => negb (Ascii.eqb c "010")) s.
Fixpoint printable (d : doc) : bool :=
  match d with
  | DStr s => one_line s
  | DSeq l => forallb printable l
  | DMap l => forallb (fun kx => match kx with (k, x) => one_line k && printable x end) l &&
              bool_decide (NoDup (map fst l))
  | _ => true
  end.

(** The document is a block: a mapping or a sequence, not empty. *)
Definition is_block (d : doc) : bool :=
  match d with DSeq (_ :: _) | DMap (_ :: _) => true | _ => false end.

(** *** Texts *)
Context `{!JsonLaws json}.

Definition no_edge_space (s : str) : Prop :=
  match s with c :: _ => isspace c = false | [] => False end /\
  match last s with Some c => isspace c = false | None => False end.

Lemma skip_while_false f c s : f c = false -> skip_while f (c :: s) = c :: s.
Proof. simpl. by intros ->. Qed.

Lemma trim_id s : no_edge_space s -> trim s = s.
Proof.
  intros [Hf Hl]. unfold trim. destruct s as [|c s]; [done|].
  rewrite skip_while_false by done.
  destruct (last (c :: s)) as [d|] eqn:Hd; [|done].
  apply last_Some in Hd as [s' Hs']. rewrite Hs', reverse_snoc.
  rewrite (skip_while_false isspace d (reverse s')) by done.
  by rewrite reverse_cons, reverse_involutive.
Qed.

Lemma trim_space s : trim (" "%char :: s) = trim s.
Proof. reflexivity. Qed.

Lemma quoteText_cons s : quoteText s = squote :: double_char squote s ++ [squote].
Proof. reflexivity. Qed.

Lemma last_snoc' {A} (l : list A) x y : last (y :: l ++ [x]) = Some x.
Proof. change (y :: l ++ [x]) with ((y :: l) ++ [x]). apply last_snoc. Qed.

Lemma quote_edges s : no_edge_space (quoteText s).
Proof. split; [done|]. rewrite quoteText_cons, last_snoc'. done. Qed.

Lemma edges_app (c : ascii) s t :
  isspace c = false -> no_edge_space t -> no_edge_space (c :: s ++ t).
Proof.
  intros Hc [_ Ht]. split; [done|]. change (c :: s ++ t) with ((c :: s) ++ t).
  destruct (last t) eqn:E; [|done]. apply last_Some in E as [t' ->].
  by rewrite app_assoc, last_snoc.
Qed.

Lemma scalar_edges d s : scalar_text d = Some s -> no_edge_space s.
Proof.
  destruct d as [|[]|?|[]|[]]; simpl; intros [= <-]; try (split; reflexivity). apply quote_edges.
Qed.


Lemma decode_pair t : t <> [] -> decode_single (squote :: squote :: t) = squote :: decode_single t.
Proof. by destruct t. Qed.

Lemma decode_other c r :
  r <> [] -> Ascii.eqb c squote = false -> decode_single (c :: r) = c :: decode_single r.
Proof. intros Hr Hc. destruct r; [done|]. simpl. unfold is_sq. by rewrite Hc. Qed.

Lemma snoc_nonnil {A} (l : list A) x : l ++ [x] <> [].
Proof. by destruct l. Qed.

Lemma decode_double s : decode_single (double_char squote s ++ [squote]) = s.
Proof.
  induction s as [|c s IH]; [reflexivity|]. rewrite double_char_cons.
  destruct (Ascii.eqb c squote) eqn:E; cbn [app].
  - apply Ascii.eqb_eq in E as ->. by rewrite decode_pair, IH by apply snoc_nonnil.
  - by rewrite decode_other, IH by (done || apply snoc_nonnil).
Qed.

Lemma parseScalar_quote line s : parseScalar line (quoteText s) = Done (j_string s).
Proof.
  unfold parseScalar. cbn [parseScalar_fuel].
  rewrite trim_id by apply quote_edges. rewrite quoteText_cons.
  cbn [is_nil first_is]. rewrite Ascii.eqb_refl.
  assert (length (squote :: double_char squote s ++ [squote]) <? 2 = false) as ->.
  { apply Nat.ltb_ge. simpl. rewrite length_app. simpl. lia. }
  unfold last_is. rewrite last_snoc', Ascii.eqb_refl. simpl. by rewrite drop_0, decode_double.
Qed.

Lemma parseKey_quote line k : parseKey line (quoteText k) = Done k.
Proof.
  unfold parseKey. rewrite trim_id by apply quote_edges. rewrite parseScalar_quote.
  rewrite quoteText_cons. cbn [is_nil first_is]. rewrite Ascii.eqb_refl. simpl.
  by rewrite is_string_string, get_string.
Qed.

Lemma parseScalar_text line d s :
  scalar_text d = Some s -> parseScalar line s = Done (to_json d).
Proof.
  destruct d as [|[]|?|[]|[]]; simpl; intros [= <-]; try reflexivity.
  - apply parseScalar_quote.
  - unfold parseScalar. simpl. by rewrite (parse_empty_array (json := json)).
  - unfold parseScalar. simpl. by rewrite (parse_empty_object (json := json)).
Qed.

(** The scanners step over a quoted text. *)
Lemma colon_at_quoted s rest depth i :
  hd_error rest <> Some squote ->
  colon_at (double_char squote s ++ squote :: rest) true false false depth i =
  colon_at rest false false false depth (i + length (double_char squote s) + 1).
Proof.
  intros Hr. revert i. induction s as [|c s IH]; intros i.
  - simpl. rewrite Nat.add_0_r. destruct rest as [|c2 r]; simpl; [done|].
    assert (is_sq c2 = false) as -> by (apply Ascii.eqb_neq; intros ->; done).
    by rewrite Nat.add_1_r.
  - rewrite double_char_cons. destruct (Ascii.eqb c squote) eqn:E.
    + simpl. rewrite IH. f_equal. lia.
    + simpl. unfold is_sq. rewrite E. simpl. rewrite ?andb_false_r. rewrite IH. f_equal. lia.
Qed.

Lemma comment_at_quoted s rest prev i :
  hd_error rest <> Some squote ->
  comment_at (double_char squote s ++ squote :: rest) prev true false false i =
  comment_at rest (Some squote) false false false (i + length (double_char squote s) + 1).
Proof.
  intros Hr. revert i prev. induction s as [|c s IH]; intros i prev.
  - simpl. rewrite Nat.add_0_r. destruct rest as [|c2 r]; simpl; [done|].
    assert (is_sq c2 = false) as -> by (apply Ascii.eqb_neq; intros ->; done).
    by rewrite Nat.add_1_r.
  - rewrite double_char_cons. destruct (Ascii.eqb c squote) eqn:E.
    + simpl. rewrite IH. f_equal. lia.
    + simpl. unfold is_sq. rewrite E. simpl. rewrite ?andb_false_r. rewrite IH. f_equal. lia.
Qed.

Lemma quote_app s rest : quoteText s ++ rest = squote :: double_char squote s ++ squote :: rest.
Proof. rewrite quoteText_cons. simpl. by rewrite <- app_assoc. Qed.

Lemma quote_length s : length (quoteText s) = S (length (double_char squote s) + 1).
Proof. rewrite quoteText_cons. simpl. by rewrite length_app. Qed.

Lemma mappingColon_entry k rest :
  match rest with [] => True | c :: _ => isspace c = true end ->
  mappingColon (quoteText k ++ ":"%char :: rest) = Some (length (quoteText k)).
Proof.
  intros Hr. rewrite quote_length. unfold mappingColon. rewrite quote_app. simpl.
  destruct (double_char squote k ++ squote :: ":"%char :: rest) eqn:Hl; [by destruct (double_char squote k)|].
  rewrite <- Hl, colon_at_quoted by done. simpl.
  destruct rest as [|c r]; [done|]. by rewrite Hr.
Qed.

Lemma mappingColon_scalar d s : scalar_text d = Some s -> mappingColon s = None.
Proof.
  destruct d as [|[]|?|[]|[]]; simpl; intros [= <-]; try reflexivity.
  unfold mappingColon. rewrite <- (app_nil_r (quoteText _)), quote_app. simpl.
  destruct (double_char squote s0 ++ [squote]) eqn:Hl; [by destruct (double_char squote s0)|].
  by rewrite <- Hl, colon_at_quoted.
Qed.

(** *** Blocks of lines *)
Definition shape (l : Line) : pline := (l_indent l, l_text l).

(** The lines that follow are indented less than [b]. *)
Definition stops (b : nat) (tl : list pline) : Prop :=
  match tl with [] => True | (ind, _) :: _ => ind < b end.

Section Lines.
Variable lines : list Line.
Abbreviation n := (length lines).
Abbreviation rest_from i := (drop i (map shape lines)).

Lemma rest_cons i ind t ls :
  rest_from i = (ind, t) :: ls ->
  exists line, lines !! i = Some line /\ l_indent line = ind /\ l_text line = t /\
    rest_from (S i) = ls /\ i < n.
Proof.
  intros Hd. assert (map shape lines !! i = Some (ind, t)) as Hi.
  { rewrite <- (Nat.add_0_r i), <- lookup_drop, Hd. done. }
  pose proof Hi as Hlt. apply lookup_lt_Some in Hlt. rewrite length_map in Hlt.
  change (map shape lines) with (shape <$> lines) in Hi.
  rewrite list_lookup_fmap in Hi. destruct (lines !! i) as [line|]; [|done].
  injection Hi as <- <-. exists line. repeat split; try done.
  replace (S i) with (i + 1) by lia. by rewrite <- drop_drop, Hd.
Qed.

Lemma rest_nil i : rest_from i = [] -> lines !! i = None.
Proof.
  intros Hd. apply lookup_ge_None. apply (f_equal length) in Hd.
  rewrite length_drop, length_map in Hd. simpl in Hd. lia.
Qed.

Lemma rest_app i a tl : rest_from i = a ++ tl -> rest_from (i + length a) = tl.
Proof. intros Hd. rewrite <- drop_drop, Hd. apply drop_app_length. Qed.

Lemma stops_mono b b' tl : b <= b' -> stops b tl -> stops b' tl.
Proof. destruct tl as [|[]]; simpl; auto; lia. Qed.

Lemma entry_lines_length blk k x e : 1 <= length (entry_lines blk k x e).
Proof. simpl. lia. Qed.

(** What the loops and the end of an item see of the next line. *)
Lemma next_stops i b tl :
  rest_from i = tl -> stops b tl -> match lines !! i with Some l => l_indent l < b | None => True end.
Proof.
  intros Hd Hs. destruct tl as [|[ind t] tl]; [by rewrite (rest_nil _ Hd)|].
  destruct (rest_cons _ _ _ _ Hd) as (line & -> & <- & _). done.
Qed.

Definition map_block (l : list (str * doc)) (ind : nat) : list pline :=
  concat (map (fun kx => match kx with (k, x) => entry_lines (block x (ind + 2)) k x ind end) l).
Definition seq_block (l : list doc) (ind : nat) : list pline :=
  concat (map (fun x => item_lines (block x (ind + 2)) x ind) l).
Abbreviation members l := (map (fun kx => match kx with (key, x) => (key, to_json x) end) l).
Abbreviation set_all l o := (fold_left (fun obj kv => j_set kv.1 kv.2 obj) (members l) o).

Lemma map_block_stops b l ind tl : ind < b -> stops b tl -> stops b (map_block l ind ++ tl).
Proof. destruct l as [|[k x] l]; done. Qed.

Lemma nested_block x : scalar_text x = None -> is_block x = true.
Proof. by destruct x as [| | |[]|[]]. Qed.

Lemma item_first x ind :
  exists t r, item_lines (block x (ind + 2)) x ind = (ind, t) :: r /\ sequenceLine t = true.
Proof.
  unfold item_lines. destruct (scalar_text x) eqn:Hx; [by eauto|].
  apply nested_block in Hx. destruct x as [| | |[|y m]|[|[k y] m]]; try done; simpl; by eauto.
Qed.

Lemma block_first d ind :
  is_block d = true -> exists t r, block d ind = (ind, t) :: r /\
    sequenceLine t = match d with DSeq _ => true | _ => false end.
Proof.
  destruct d as [| | |[|x l]|[|[k x] l]]; try done; intros _; simpl; [|by eauto].
  destruct (item_first x ind) as (t & r & -> & Ht). simpl. by eauto.
Qed.

(** The document [d], printed at [ind], is read back from any place. *)
Definition node_ok (d : doc) : Prop :=
  forall i ind tl fuel,
    is_block d = true -> rest_from i = block d ind ++ tl -> stops ind tl ->
    3 * (n - i) + 3 <= fuel ->
    parseNode lines fuel i ind = Done (to_json d, i + length (block d ind)).

Lemma value_part line x e i tl fuel :
  node_ok x -> rest_from i = nested (block x (e + 2)) x ++ tl -> stops (S e) tl ->
  3 * (n - i) + 3 <= fuel ->
  value_or_node (parseNode lines fuel) lines line (trim (after_colon x)) i e =
  Done (to_json x, i + length (nested (block x (e + 2)) x)).
Proof.
  intros Hok Hd Hs Hf. unfold value_or_node, after_colon, nested in *.
  destruct (scalar_text x) as [s|] eqn:Hx.
  - rewrite trim_space, trim_id by (by eapply scalar_edges).
    pose proof (scalar_edges _ _ Hx) as [He _]. destruct s as [|c s]; [done|]. cbn [is_nil].
    rewrite (parseScalar_text line x) by done. simpl. by rewrite Nat.add_0_r.
  - apply nested_block in Hx. simpl.
    destruct (block_first x (e + 2) Hx) as (t & r & Hb & _). pose proof Hd as Hd'.
    rewrite Hb in Hd'. destruct (rest_cons _ _ _ _ Hd') as (next & -> & Hi & _).
    rewrite Hi. replace (e <? e + 2) with true by (symmetry; apply Nat.ltb_lt; lia).
    apply Hok with tl; try done. apply stops_mono with (S e); [lia|done].
Qed.

Lemma entry_ok line k x e i tl fuel o :
  node_ok x -> rest_from i = entry_lines (block x (e + 2)) k x e ++ tl -> stops (S e) tl ->
  lines !! i = Some line -> j_contains k o = false -> 3 * (n - i) + 1 <= fuel ->
  parseMappingEntry lines fuel i line e o =
  Done (j_set k (to_json x) o, i + length (entry_lines (block x (e + 2)) k x e)).
Proof.
  intros Hok Hd Hs Hl Hc Hf. destruct (rest_cons _ _ _ _ Hd) as (line' & Hl' & Hi & Ht & Hd' & Hlt).
  rewrite Hl in Hl'. injection Hl' as <-.
  destruct fuel as [|fuel]; [lia|]. cbn [parseMappingEntry]. rewrite Hi, Nat.eqb_refl, Ht.
  change (sequenceLine (quoteText k ++ _)) with false. cbn [negb orb].
  rewrite mappingColon_entry by (unfold after_colon; by destruct (scalar_text x)).
  rewrite take_app_length, parseKey_quote. cbn [ybind]. rewrite Hc.
  rewrite <- (Nat.add_1_r (length (quoteText k))), <- drop_drop, drop_app_length.
  cbn [drop]. rewrite ?drop_0.
  rewrite (value_part line x e (S i) tl fuel) by (done || lia). simpl.
  do 2 f_equal. lia.
Qed.

Lemma contains_set_all k l o :
  j_is_object o = true -> j_contains k o = false -> k ∉ map fst l -> j_contains k (set_all l o) = false.
Proof.
  revert o. induction l as [|[k' x] l IH]; intros o Ho Hc Hn; [done|]. simpl in *.
  apply not_elem_of_cons in Hn as [Hk Hn].
  apply IH; [by apply is_object_set| |done].
  rewrite contains_set by done. by rewrite bool_decide_false, Hc.
Qed.

(** One turn of the two loops over entries, and the rest of them. *)
Definition entries_ok (l : list (str * doc)) (o : json) : Prop :=
  Forall (fun kx => node_ok kx.2) l /\ NoDup (map fst l) /\ j_is_object o = true /\
  forall k, k ∈ map fst l -> j_contains k o = false.

Lemma entries_step k x l o :
  entries_ok ((k, x) :: l) o ->
  node_ok x /\ j_contains k o = false /\ entries_ok l (j_set k (to_json x) o).
Proof.
  intros (Hok & Hnd & Ho & Hc). inversion Hok; subst. inversion Hnd; subst.
  repeat split; try done.
  - apply Hc. left.
  - by apply is_object_set.
  - intros k' Hk'. rewrite contains_set by done. rewrite bool_decide_false by congruence.
    apply Hc. by right.
Qed.

Lemma mapping_ok l : forall o i e tl fuel,
  entries_ok l o -> rest_from i = map_block l e ++ tl -> stops e tl -> 3 * (n - i) + 2 <= fuel ->
  parseMapping lines fuel i e o = Done (set_all l o, i + length (map_block l e)).
Proof.
  induction l as [|[k x] l IH]; intros o i e tl fuel Hok Hd Hs Hf; (destruct fuel as [|fuel]; [lia|]).
  - simpl. pose proof (next_stops _ _ _ Hd Hs) as Hn. rewrite Nat.add_0_r.
    destruct (lines !! i); [|done]. apply Nat.ltb_lt in Hn. by rewrite Hn.
  - pose proof (entry_lines_length (block x (e + 2)) k x e) as Hlen.
    apply entries_step in Hok as (Hx & Hc & Hok). cbn [map_block map concat] in Hd.
    rewrite <- app_assoc in Hd. pose proof Hd as Hd'. apply rest_app in Hd'.
    destruct (rest_cons _ _ _ _ Hd) as (line & Hl & Hi & Ht & _ & Hlt).
    simpl. rewrite Hl, Hi, Ht, Nat.ltb_irrefl. simpl.
    rewrite (entry_ok line k x e i (map_block l e ++ tl)) by
      (done || lia || (apply map_block_stops; [lia|]; by (apply stops_mono with e; [lia|]))).
    simpl. rewrite (IH _ _ e tl) by (done || lia). do 2 f_equal. unfold map_block. simpl. rewrite length_app. lia.
Qed.

Lemma itemEntries_ok l : forall o i ind tl fuel,
  entries_ok l o -> rest_from i = map_block l (ind + 2) ++ tl -> stops (S ind) tl ->
  3 * (n - i) + 2 <= fuel ->
  itemEntries lines fuel i ind o = Done (set_all l o, i + length (map_block l (ind + 2))).
Proof.
  induction l as [|[k x] l IH]; intros o i e tl fuel Hok Hd Hs Hf; (destruct fuel as [|fuel]; [lia|]).
  - simpl. pose proof (next_stops _ _ _ Hd Hs) as Hn. rewrite Nat.add_0_r.
    destruct (lines !! i); [|done]. by rewrite (proj2 (Nat.ltb_ge _ _)) by lia.
  - pose proof (entry_lines_length (block x (e + 2 + 2)) k x (e + 2)) as Hlen.
    apply entries_step in Hok as (Hx & Hc & Hok). cbn [map_block map concat] in Hd.
    rewrite <- app_assoc in Hd. pose proof Hd as Hd'. apply rest_app in Hd'.
    destruct (rest_cons _ _ _ _ Hd) as (line & Hl & Hi & Ht & _ & Hlt).
    simpl. rewrite Hl, Hi, Nat.eqb_refl, (proj2 (Nat.ltb_lt _ _)) by lia. simpl.
    rewrite (entry_ok line k x (e + 2) i (map_block l (e + 2) ++ tl)) by
      (done || lia || (apply map_block_stops; [lia|]; by (apply stops_mono with (S e); [lia|]))).
    simpl. rewrite (IH _ _ e tl) by (done || lia). do 2 f_equal. unfold map_block. simpl. rewrite length_app. lia.
Qed.

Lemma seq_block_stops b l ind tl : ind < b -> stops b tl -> stops b (seq_block l ind ++ tl).
Proof.
  intros Hb Hs. destruct l as [|x l]; [done|]. unfold seq_block. simpl.
  by destruct (item_first x ind) as (t & r & -> & _).
Qed.

Lemma item_length x ind : 1 <= length (item_lines (block x (ind + 2)) x ind).
Proof. destruct (item_first x ind) as (t & r & -> & _). simpl. lia. Qed.

Lemma trim_dash t : no_edge_space t -> trim (drop 1 (lit "- " ++ t)) = t.
Proof. intros Ht. change (trim t = t). by apply trim_id. Qed.

Lemma entry_edges k x : no_edge_space (quoteText k ++ ":"%char :: after_colon x).
Proof.
  split; [done|]. unfold after_colon. destruct (scalar_text x) as [s|] eqn:Hx.
  - destruct (scalar_edges _ _ Hx) as [_ Hl]. destruct (last s) eqn:E; [|done].
    apply last_Some in E as [s' ->]. rewrite !app_comm_cons, app_assoc, last_snoc. done.
  - by rewrite last_snoc.
Qed.

Lemma entry_nonnil k x : is_nil (quoteText k ++ ":"%char :: after_colon x) = false.
Proof. done. Qed.

(** A mapping under a dash: its first entry, then the others. *)
Lemma item_map_ok line k x l i ind tl fuel :
  entries_ok ((k, x) :: l) j_object ->
  rest_from i = dash ind (map_block ((k, x) :: l) (ind + 2)) ++ tl -> stops (S ind) tl ->
  lines !! i = Some line -> 3 * (n - i) + 1 <= fuel ->
  item_value (parseNode lines fuel) (itemEntries lines fuel) lines line
    (trim (drop 1 (l_text line))) (S i) ind =
  Done (set_all ((k, x) :: l) j_object, i + length (dash ind (map_block ((k, x) :: l) (ind + 2)))).
Proof.
  intros Hok Hd Hs Hl Hf. apply entries_step in Hok as (Hx & Hc & Hok).
  assert (dash ind (map_block ((k, x) :: l) (ind + 2)) =
    (ind, lit "- " ++ quoteText k ++ ":"%char :: after_colon x) ::
    nested (block x (ind + 2 + 2)) x ++ map_block l (ind + 2)) as Hdash by done.
  rewrite Hdash in *. destruct (rest_cons _ _ _ _ Hd) as (line' & Hl' & _ & Ht & Hd' & Hlt).
  rewrite Hl in Hl'. injection Hl' as <-. rewrite Ht, trim_dash by apply entry_edges.
  unfold item_value. rewrite entry_nonnil, mappingColon_entry
    by (unfold after_colon; by destruct (scalar_text x)).
  rewrite take_app_length, parseKey_quote. cbn [ybind].
  rewrite <- (Nat.add_1_r (length (quoteText k))), <- drop_drop, drop_app_length.
  cbn [drop].
  assert (rest_from (S i) = nested (block x (ind + 2 + 2)) x ++ map_block l (ind + 2) ++ tl) as Hd2
    by (rewrite app_assoc; exact Hd').
  rewrite (value_part line x (ind + 2) (S i) (map_block l (ind + 2) ++ tl)); try done; try lia.
  2: { apply map_block_stops; [lia|]. by apply (stops_mono (S ind)); [lia|]. }
  cbn [ybind]. apply rest_app in Hd2.
  rewrite (itemEntries_ok l _ _ _ tl) by (done || lia).
  do 2 f_equal. simpl. rewrite length_app. lia.
Qed.

Lemma item_ok line x i ind tl fuel :
  node_ok x -> (forall l, x = DMap l -> entries_ok l j_object) ->
  rest_from i = item_lines (block x (ind + 2)) x ind ++ tl -> stops (S ind) tl ->
  lines !! i = Some line -> 3 * (n - i) + 1 <= fuel ->
  item_value (parseNode lines fuel) (itemEntries lines fuel) lines line
    (trim (drop 1 (l_text line))) (S i) ind =
  Done (to_json x, i + length (item_lines (block x (ind + 2)) x ind)).
Proof.
  intros Hx Hm Hd Hs Hl Hf. unfold item_lines in *. destruct (scalar_text x) as [s|] eqn:Hsx.
  - destruct (rest_cons _ _ _ _ Hd) as (line' & Hl' & _ & Ht & Hd' & Hlt).
    rewrite Hl in Hl'. injection Hl' as <-. pose proof (scalar_edges _ _ Hsx) as He.
    rewrite Ht, trim_dash by done. unfold item_value.
    replace (is_nil s) with false by (destruct He; by destruct s).
    rewrite (mappingColon_scalar x), (parseScalar_text line x) by done. cbn [ybind].
    pose proof (next_stops _ _ _ Hd' Hs) as Hn.
    destruct (lines !! S i) as [next|]; [rewrite (proj2 (Nat.ltb_ge _ _)) by lia|];
      do 2 f_equal; simpl; lia.
  - apply nested_block in Hsx. pose proof Hsx as Hb.
    destruct x as [| | |[|y l]|[|[k y] l]]; try done.
    + destruct (block_first _ (ind + 2) Hsx) as (t & r & Hbl & _).
      destruct (rest_cons _ _ _ _ Hd) as (line' & Hl' & _ & Ht & Hd' & Hlt).
      rewrite Hl in Hl'. injection Hl' as <-. rewrite Ht. cbn [trim drop]. unfold item_value. simpl is_nil.
      pose proof Hd' as Hd2. rewrite Hbl in Hd2. destruct (rest_cons _ _ _ _ Hd2) as (next & -> & Hi & _).
      cbn iota. rewrite Hi, (proj2 (Nat.leb_gt _ _)) by lia.
      rewrite (Hx (S i) (ind + 2) tl) by (done || lia || (apply (stops_mono (S ind)); [lia|done])).
      do 2 f_equal. rewrite Hbl. simpl. lia.
    + apply (item_map_ok line k y l i ind tl); try done. by apply Hm.
Qed.

Lemma sequence_ok l : forall a i ind tl fuel,
  Forall node_ok l -> (forall m, DMap m ∈ l -> entries_ok m j_object) ->
  rest_from i = seq_block l ind ++ tl -> stops ind tl -> 3 * (n - i) + 2 <= fuel ->
  parseSequence lines fuel i ind a =
  Done (fold_left (fun a v => j_push v a) (map to_json l) a, i + length (seq_block l ind)).
Proof.
  induction l as [|x l IH]; intros a i ind tl fuel Hok Hm Hd Hs Hf; (destruct fuel as [|fuel]; [lia|]).
  - simpl. pose proof (next_stops _ _ _ Hd Hs) as Hn. rewrite Nat.add_0_r.
    destruct (lines !! i); [|done]. by rewrite (proj2 (Nat.eqb_neq _ _)) by lia.
  - inversion Hok as [|? ? Hx Hok']; subst. unfold seq_block in Hd. cbn [map concat] in Hd.
    rewrite <- app_assoc in Hd. pose proof (item_length x ind) as Hlen.
    destruct (item_first x ind) as (t & r & Hit & Hdash). pose proof Hd as Hd1. rewrite Hit in Hd1.
    destruct (rest_cons _ _ _ _ Hd1) as (line & Hl & Hi & Ht & _ & Hlt).
    pose proof Hd as Hd2. apply rest_app in Hd2.
    cbn [parseSequence]. rewrite Hl, Hi, Nat.eqb_refl, Ht, Hdash, <- Ht. cbn [andb negb].
    rewrite (item_ok line x i ind (seq_block l ind ++ tl)); try done; try lia.
    + cbn [ybind]. rewrite (IH _ _ ind tl); try done; try lia.
      * do 2 f_equal. unfold seq_block. simpl. rewrite length_app. lia.
      * intros m Hin. apply Hm. by right.
    + intros m ->. apply Hm. left.
    + apply seq_block_stops; [lia|]. by apply (stops_mono ind); [lia|].
Qed.

Lemma printable_entries l :
  Forall (fun kx => printable kx.2 = true -> node_ok kx.2) l -> printable (DMap l) = true ->
  entries_ok l j_object.
Proof.
  intros IH Hp. simpl in Hp. apply andb_true_iff in Hp as [Hp Hnd]. apply bool_decide_eq_true in Hnd.
  repeat split; try done.
  - apply Forall_forall. intros [k x] Hx. rewrite Forall_forall in IH. apply (IH _ Hx).
    rewrite forallb_forall in Hp. apply list_elem_of_In, Hp in Hx. by bool_prop.
  - apply is_object_object.
  - intros k _. apply contains_object.
Qed.

Lemma node_all d :
  printable d = true -> node_ok d /\ (forall m, d = DMap m -> entries_ok m j_object).
Proof.
  induction d as [| | |l IH|l IH] using doc_nested_ind; intros Hp; try (by split).
  - split; [|done]. intros i ind tl fuel Hb Hd Hs Hf.
    destruct (block_first _ ind Hb) as (t & r & Hbl & Hseq). pose proof Hd as Hd1. rewrite Hbl in Hd1.
    destruct (rest_cons _ _ _ _ Hd1) as (line & Hl & Hi & Ht & _ & Hlt).
    destruct fuel as [|fuel]; [lia|]. cbn [parseNode]. rewrite Hl, Hi, Nat.eqb_refl, Ht, Hseq. cbn [negb].
    assert (forall x, x ∈ l -> node_ok x /\ (forall m, x = DMap m -> entries_ok m j_object)) as Hall.
    { intros x Hx. rewrite Forall_forall in IH. apply IH; [done|].
      simpl in Hp. rewrite forallb_forall in Hp. by apply Hp, list_elem_of_In. }
    apply (sequence_ok l j_array i ind tl); try done; try lia.
    + apply Forall_forall. intros x Hx. by apply Hall.
    + intros m Hm. by apply (Hall _ Hm).
  - assert (entries_ok l j_object) as Hok.
    { apply printable_entries; [|done]. eapply Forall_impl; [exact IH|]. naive_solver. }
    split; [|by intros ? [= <-]]. intros i ind tl fuel Hb Hd Hs Hf.
    destruct (block_first _ ind Hb) as (t & r & Hbl & Hseq). pose proof Hd as Hd1. rewrite Hbl in Hd1.
    destruct (rest_cons _ _ _ _ Hd1) as (line & Hl & Hi & Ht & _ & Hlt).
    destruct fuel as [|fuel]; [lia|]. cbn [parseNode]. rewrite Hl, Hi, Nat.eqb_refl, Ht, Hseq. cbn [negb].
    apply (mapping_ok l j_object i ind tl); try done; lia.
Qed.
End Lines.

(** The parser reads the lines of a block back. *)
Lemma parse_block lines d :
  printable d = true -> is_block d = true -> map shape lines = block d 0 -> parse lines = Done (to_json d).
Proof.
  intros Hp Hb Hl. destruct (block_first d 0 Hb) as (t & r & Hbl & _).
  destruct lines as [|front ls]; [by rewrite Hbl in Hl|]. unfold parse.
  assert (l_indent front = 0) as -> by (rewrite Hbl in Hl; by injection Hl).
  destruct (node_all (front :: ls) d Hp) as [Hok _].
  assert (drop 0 (map shape (front :: ls)) = block d 0 ++ []) as Hd by (rewrite app_nil_r; exact Hl).
  rewrite (Hok 0 0 [] _ Hb Hd) by (done || lia).
  cbn [ybind]. rewrite <- Hl, length_map, (lookup_ge_None_2 (front :: ls)) by lia. done.
Qed.

(** *** Printed text and its lines *)
Definition no_comment (t : str) : Prop :=
  forall prev i, comment_at t prev false false false i = None.

Definition good_text (t : str) : Prop :=
  no_edge_space t /\ no_comment t /\ t <> lit "---" /\ t <> lit "..." /\ one_line t = true.

Lemma no_comment_quoted s rest :
  hd_error rest <> Some squote -> no_comment rest -> no_comment (quoteText s ++ rest).
Proof.
  intros Hr Hn prev i. rewrite quote_app. simpl.
  destruct (double_char squote s ++ squote :: rest) eqn:Hl; [by destruct (double_char squote s)|].
  rewrite <- Hl, comment_at_quoted by done. apply Hn.
Qed.

Lemma no_comment_scalar d s : scalar_text d = Some s -> no_comment s.
Proof.
  destruct d as [|[]|?|[]|[]]; simpl; intros [= <-]; try (intros [] i; reflexivity).
  rewrite <- (app_nil_r (quoteText _)). by apply no_comment_quoted.
Qed.

Lemma one_line_app s t : one_line (s ++ t) = one_line s && one_line t.
Proof. apply forallb_app. Qed.

Lemma one_line_double s : one_line (double_char squote s) = one_line s.
Proof.
  induction s as [|c s IH]; [done|]. rewrite double_char_cons, one_line_app, IH.
  destruct (Ascii.eqb c squote) eqn:E; simpl; [|by rewrite andb_true_r].
  by apply Ascii.eqb_eq in E as ->.
Qed.

Lemma one_line_quote s : one_line (quoteText s) = one_line s.
Proof.
  rewrite quoteText_cons. change (one_line (squote :: ?t)) with (one_line t).
  rewrite one_line_app, one_line_double. apply andb_true_r.
Qed.

Lemma one_line_scalar d s : printable d = true -> scalar_text d = Some s -> one_line s = true.
Proof. destruct d as [|[]|?|[]|[]]; simpl; intros Hp [= <-]; try done. by rewrite one_line_quote. Qed.

Lemma quote_not_dots s rest : quoteText s ++ rest <> lit "---" /\ quoteText s ++ rest <> lit "...".
Proof. split; done. Qed.

Lemma good_entry k x :
  one_line k = true -> printable x = true -> good_text (quoteText k ++ ":"%char :: after_colon x).
Proof.
  intros Hk Hx. split_and!; [apply entry_edges| |apply quote_not_dots..|].
  - apply no_comment_quoted; [done|]. intros prev i. unfold after_colon.
    destruct (scalar_text x) as [s|] eqn:Hs; [|done]. simpl. by apply (no_comment_scalar x).
  - rewrite one_line_app, one_line_quote, Hk. unfold after_colon.
    destruct (scalar_text x) as [s|] eqn:Hs; [|done]. simpl. by apply (one_line_scalar x).
Qed.

Lemma good_scalar x s : printable x = true -> scalar_text x = Some s -> good_text (lit "- " ++ s).
Proof.
  intros Hp Hs. split_and!; try done.
  - apply (edges_app "-" [" "%char]); [done|]. by eapply scalar_edges.
  - intros prev i. simpl. by eapply no_comment_scalar.
  - simpl. by apply (one_line_scalar x).
Qed.

Lemma good_dash t : good_text t -> good_text (lit "- " ++ t).
Proof.
  intros (He & Hn & _ & _ & Ho). split_and!; try done.
  - by apply (edges_app "-" [" "%char]).
  - intros prev i. simpl. apply Hn.
Qed.

Lemma block_good d : forall ind, printable d = true -> Forall (fun p => good_text p.2) (block d ind).
Proof.
  induction d as [| | |l IH|l IH] using doc_nested_ind; intros ind Hp; try constructor; simpl in Hp.
  - simpl. induction IH as [|x l Hx _ IHl]; [constructor|]. simpl in *. bool_prop.
    apply Forall_app. split; [|by apply IHl]. unfold item_lines.
    destruct (scalar_text x) as [s|] eqn:Hs; [constructor; [by eapply good_scalar|constructor]|].
    specialize (Hx (ind + 2) H0). destruct x; try (constructor; [by repeat split|done]).
    destruct (block (DMap l0) (ind + 2)) as [|[i t] r]; [constructor|]. inversion Hx; subst.
    constructor; [by apply good_dash|done].
  - apply andb_true_iff in Hp as [Hp _]. simpl.
    induction IH as [|[k x] l Hx _ IHl]; [constructor|]. simpl in *. bool_prop.
    apply Forall_cons. split; [by apply good_entry|].
    apply Forall_app. split; [|by apply IHl].
    unfold nested. destruct (scalar_text x); [constructor|by apply Hx].
Qed.

Lemma getlines_line s rest cur :
  one_line s = true ->
  getlines cur (s ++ "010"%char :: rest) = (reverse cur ++ s) :: getlines [] rest.
Proof.
  revert cur. induction s as [|c s IH]; intros cur Hs; simpl in *.
  - by rewrite app_nil_r.
  - apply andb_true_iff in Hs as [Hc Hs]. apply negb_true_iff in Hc. rewrite Hc, IH by done.
    by rewrite reverse_cons, <- app_assoc.
Qed.

Lemma one_line_spaces m : one_line (repeat " "%char m) = true.
Proof. induction m; simpl; auto. Qed.

Lemma getlines_render ps :
  Forall (fun p => good_text p.2) ps ->
  getlines [] (concat (map line_text ps)) = map (fun p => repeat " "%char p.1 ++ p.2) ps.
Proof.
  induction 1 as [|[m t] ps Ht _ IH]; [done|]. destruct Ht as (_ & _ & _ & _ & Ho). simpl in *.
  unfold line_text at 1. simpl. rewrite <- !app_assoc. simpl. rewrite app_assoc, getlines_line.
  - by rewrite IH.
  - by rewrite one_line_app, one_line_spaces, Ho.
Qed.

Lemma indent_spaces m t :
  no_edge_space t -> indent_of (repeat " "%char m ++ t) = m.
Proof.
  intros [Hf _]. unfold indent_of. induction m as [|m IH]; simpl; [|by rewrite IH].
  destruct t as [|c t]; [done|]. simpl. destruct (Ascii.eqb c " ") eqn:E; [|done].
  apply Ascii.eqb_eq in E as ->. done.
Qed.

Lemma chop_cr_good m t : no_edge_space t -> chop_cr (repeat " "%char m ++ t) = repeat " "%char m ++ t.
Proof.
  intros [_ Hl]. destruct (last t) as [c|] eqn:E; [|done]. apply last_Some in E as [t' ->].
  unfold chop_cr. rewrite app_assoc, last_snoc. destruct (Ascii.eqb c "013") eqn:Ec; [|done].
  apply Ascii.eqb_eq in Ec as ->. done.
Qed.

Lemma tokenize_good ps : forall number lines,
  Forall (fun p => good_text p.2) ps ->
  exists ls, tokenize_loop (map (fun p => repeat " "%char p.1 ++ p.2) ps) number lines = Done (lines ++ ls) /\
    map shape ls = ps.
Proof.
  induction ps as [|[m t] ps IH]; intros number lines Hg.
  - exists []. by rewrite app_nil_r.
  - inversion Hg as [|? ? Ht Hg']; subst. destruct Ht as (He & Hn & H1 & H2 & _). simpl in *.
    rewrite chop_cr_good, indent_spaces by done.
    assert (length (repeat " "%char m) = m) as Hm by apply repeat_length.
    rewrite lookup_app_r, Hm, Nat.sub_diag by lia.
    assert (drop m (repeat " "%char m ++ t) = t) as -> by (rewrite <- Hm at 1; apply drop_app_length).
    assert (withoutComment t = t) as -> by (unfold withoutComment; by rewrite Hn).
    rewrite trim_id by done.
    destruct He as [Hf Hl]. destruct t as [|c t]; [done|]. simpl.
    destruct (Ascii.eqb c "009") eqn:Ec; [by apply Ascii.eqb_eq in Ec as ->|].
    assert (forall u, c :: t <> u -> str_eqb (c :: t) u = false) as Hne
      by (intros u Hu; by apply bool_decide_eq_false).
    rewrite !Hne by done. simpl.
    destruct (IH (S number) (lines ++ [mkLine (S number) m (c :: t)]) Hg') as (ls & -> & Hls).
    exists (mkLine (S number) m (c :: t) :: ls). rewrite <- app_assoc. simpl. by rewrite Hls.
Qed.

(** C22: reading back what is printed in block style gives the value that was
    printed: nested mappings and sequences, mappings that start on the line of
    a dash, empty containers, null and the booleans, and strings and keys of any
    bytes but the line feed ([#], quotes, colons, tabs and outer spaces
    included), a key not repeated in one mapping. *)
Theorem parseYaml_render (d : doc) :
  is_block d = true -> printable d = true -> parseYaml (render d) = Done (to_json d).
Proof.
  intros Hb Hp. unfold parseYaml, tokenize, render.
  pose proof (block_good d 0 Hp) as Hg. rewrite getlines_render by done.
  destruct (tokenize_good (block d 0) 0 [] Hg) as (ls & -> & Hls). by apply parse_block.
Qed.

(** a flow list whose element holds an apostrophe is read without an error
    as a shorter list: the quote hides the commas after it, and the closing
    bracket is no delimiter, so the rest is dropped. *)
Theorem flow_apostrophe_drops_rest (line : Line) (w1 w2 : str) :
  j_parse (lit "[alice, o'brien, bob]") = inl w1 -> j_parse (lit "alice") = inl w2 ->
  parseScalar line (lit "[alice, o'brien, bob]") = Done (j_push (j_string (lit "alice")) j_array).
Proof.
  intros H1 H2. unfold parseScalar. cbn [parseScalar_fuel].
  change (trim (lit "[alice, o'brien, bob]")) with (lit "[alice, o'brien, bob]"). rewrite H1.
  vm_compute in H2. vm_compute. by rewrite H2.
Qed.

End Parser.

(** Text without quotes or a comment sign leaves the scanner where it was. *)
Definition plain_text (t : str) : bool :=
  forallb (fun c => negb (is_sq c || is_dq c || is_bs c || Ascii.eqb c "#")) t.

Lemma comment_at_plain t rest : forall prev i,
  plain_text t = true ->
  comment_at (t ++ rest) prev false false false i =
  comment_at rest (match last t with Some c => Some c | None => prev end) false false false (i + length t).
Proof.
  induction t as [|c t IH]; intros prev i Hp; [by simpl; rewrite Nat.add_0_r|].
  rewrite last_cons. simpl in *.
  apply andb_true_iff in Hp as [Hc Hp]. apply negb_true_iff in Hc. bool_prop.
  repeat match goal with E : _ c = false |- _ => rewrite E end.
  assert (Ascii.eqb c "#" = false) as -> by (by apply Ascii.eqb_neq). simpl.
  rewrite IH by done. rewrite Nat.add_succ_r. f_equal.
  by destruct (last t).
Qed.

Lemma comment_at_single_open t : forall prev i,
  forallb (fun c => negb (is_sq c)) t = true -> comment_at t prev true false false i = None.
Proof.
  induction t as [|c t IH]; intros prev i Hp; simpl in *; [done|].
  apply andb_true_iff in Hp as [Hc Hp]. apply negb_true_iff in Hc. rewrite Hc. simpl. by apply IH.
Qed.

(** an apostrophe inside a plain value hides the comment at the end of the
    line: [name: o'brien # admin] keeps the comment as part of the value. *)
Theorem apostrophe_hides_comment (before after : str) :
  plain_text before = true -> forallb (fun c => negb (is_sq c)) after = true ->
  withoutComment (before ++ squote :: after) = before ++ squote :: after.
Proof.
  intros Hb Ha. unfold withoutComment. rewrite comment_at_plain by done. simpl.
  destruct after as [|c after]; [done|]. by rewrite comment_at_single_open.
Qed.

(** ** Witnesses *)
Definition sample_doc : doc :=
  DMap [(lit "pool", DMap [(lit "enabled", DBool true); (lit "note", DStr (lit "it's # 1: x"))]);
        (lit "datasources", DSeq [DMap [(lit "name", DStr (lit "main")); (lit "extra", DMap [(lit "k", DNull)])];
                                  DSeq [DStr []]; DMap []])].

Lemma parseYaml_render_witness :
  is_block sample_doc = true /\ printable sample_doc = true /\
  parseYaml (render sample_doc) = Done (to_json (json := JVal) sample_doc).
Proof.
  split; [reflexivity|]. split; [reflexivity|].
  apply (parseYaml_render (json := JVal) sample_doc); reflexivity.
Defined.

Lemma flow_apostrophe_drops_rest_witness :
  parseScalar (json := JVal) (mkLine 1 0 []) (lit "[alice, o'brien, bob]") = Done (JArr [JStr (lit "alice")]).
Proof.
  exact (flow_apostrophe_drops_rest (json := JVal) (mkLine 1 0 []) (lit "syntax error")
           (lit "syntax error") eq_refl eq_refl).
Defined.

Lemma apostrophe_hides_comment_witness :
  withoutComment (lit "name: o'brien # admin") = lit "name: o'brien # admin".
Proof. apply (apostrophe_hides_comment (lit "name: o") (lit "brien # admin")); reflexivity. Defined.
