(* ===== verification/ConfigLoader.v ===== *)
(** * The configuration loader

    [ConfigLoader::loadFromFile] of [src/config/config_loader.cpp]: choice of the
    format, byte-order mark, then one function per section of the document, in
    the order of the code, writing into the [GlobalConfig] the caller passed.

    The state of the monad [L] is that [out] parameter.  A [json::exception]
    ([JsonError]) ends in the [catch] clause, which resets [out]; a [return false]
    ([Rejected]) leaves in [out] what was read before.  The file system and the
    environment are parameters; the warning printed for a group whose replicas
    may serve stale reads has no effect on the result and is left out. *)
From stdpp Require Import base list strings.
From Stdlib Require Import Ascii ZArith Lia SpecFloat.
From S2P Require Import Prelude Doubles Types Config Json YamlParser.

(** ** Assignments to members of [out] *)
Definition set_default_datasource (v : str) (g : GlobalConfig) : GlobalConfig :=
  mkGlobalConfig v (gl_heartbeat_interval_ms g) (gl_pool g) (gl_retry g) (gl_circuit_breaker g)
    (gl_observability g) (gl_rate_limit g) (gl_sql_audit g) (gl_query_cache g) (gl_cursor g)
    (gl_prepared_cache g) (gl_async g) (gl_interceptors g) (gl_datasources g) (gl_groups g).
Definition set_heartbeat (v : Z) (g : GlobalConfig) : GlobalConfig :=
  mkGlobalConfig (gl_default_datasource g) v (gl_pool g) (gl_retry g) (gl_circuit_breaker g)
    (gl_observability g) (gl_rate_limit g) (gl_sql_audit g) (gl_query_cache g) (gl_cursor g)
    (gl_prepared_cache g) (gl_async g) (gl_interceptors g) (gl_datasources g) (gl_groups g).
Definition set_pool (v : PoolConfig) (g : GlobalConfig) : GlobalConfig :=
  mkGlobalConfig (gl_default_datasource g) (gl_heartbeat_interval_ms g) v (gl_retry g)
    (gl_circuit_breaker g) (gl_observability g) (gl_rate_limit g) (gl_sql_audit g)
    (gl_query_cache g) (gl_cursor g) (gl_prepared_cache g) (gl_async g) (gl_interceptors g)
    (gl_datasources g) (gl_groups g).
Definition set_retry (v : RetryConfig) (g : GlobalConfig) : GlobalConfig :=
  mkGlobalConfig (gl_default_datasource g) (gl_heartbeat_interval_ms g) (gl_pool g) v
    (gl_circuit_breaker g) (gl_observability g) (gl_rate_limit g) (gl_sql_audit g)
    (gl_query_cache g) (gl_cursor g) (gl_prepared_cache g) (gl_async g) (gl_interceptors g)
    (gl_datasources g) (gl_groups g).
Definition set_circuit_breaker (v : CircuitBreakerConfig) (g : GlobalConfig) : GlobalConfig :=
  mkGlobalConfig (gl_default_datasource g) (gl_heartbeat_interval_ms g) (gl_pool g) (gl_retry g)
    v (gl_observability g) (gl_rate_limit g) (gl_sql_audit g) (gl_query_cache g) (gl_cursor g)
    (gl_prepared_cache g) (gl_async g) (gl_interceptors g) (gl_datasources g) (gl_groups g).
Definition set_observability (v : ObservabilityConfig) (g : GlobalConfig) : GlobalConfig :=
  mkGlobalConfig (gl_default_datasource g) (gl_heartbeat_interval_ms g) (gl_pool g) (gl_retry g)
    (gl_circuit_breaker g) v (gl_rate_limit g) (gl_sql_audit g) (gl_query_cache g) (gl_cursor g)
    (gl_prepared_cache g) (gl_async g) (gl_interceptors g) (gl_datasources g) (gl_groups g).
Definition set_rate_limit (v : RateLimitConfig) (g : GlobalConfig) : GlobalConfig :=
  mkGlobalConfig (gl_default_datasource g) (gl_heartbeat_interval_ms g) (gl_pool g) (gl_retry g)
    (gl_circuit_breaker g) (gl_observability g) v (gl_sql_audit g) (gl_query_cache g) (gl_cursor g)
    (gl_prepared_cache g) (gl_async g) (gl_interceptors g) (gl_datasources g) (gl_groups g).
Definition set_sql_audit (v : SqlAuditConfig) (g : GlobalConfig) : GlobalConfig :=
  mkGlobalConfig (gl_default_datasource g) (gl_heartbeat_interval_ms g) (gl_pool g) (gl_retry g)
    (gl_circuit_breaker g) (gl_observability g) (gl_rate_limit g) v (gl_query_cache g) (gl_cursor g)
    (gl_prepared_cache g) (gl_async g) (gl_interceptors g) (gl_datasources g) (gl_groups g).
Definition set_query_cache (v : QueryCacheConfig) (g : GlobalConfig) : GlobalConfig :=
  mkGlobalConfig (gl_default_datasource g) (gl_heartbeat_interval_ms g) (gl_pool g) (gl_retry g)
    (gl_circuit_breaker g) (gl_observability g) (gl_rate_limit g) (gl_sql_audit g) v (gl_cursor g)
    (gl_prepared_cache g) (gl_async g) (gl_interceptors g) (gl_datasources g) (gl_groups g).
Definition set_cursor (v : CursorConfig) (g : GlobalConfig) : GlobalConfig :=
  mkGlobalConfig (gl_default_datasource g) (gl_heartbeat_interval_ms g) (gl_pool g) (gl_retry g)
    (gl_circuit_breaker g) (gl_observability g) (gl_rate_limit g) (gl_sql_audit g)
    (gl_query_cache g) v (gl_prepared_cache g) (gl_async g) (gl_interceptors g)
    (gl_datasources g) (gl_groups g).
Definition set_prepared_cache (v : PreparedCacheConfig) (g : GlobalConfig) : GlobalConfig :=
  mkGlobalConfig (gl_default_datasource g) (gl_heartbeat_interval_ms g) (gl_pool g) (gl_retry g)
    (gl_circuit_breaker g) (gl_observability g) (gl_rate_limit g) (gl_sql_audit g)
    (gl_query_cache g) (gl_cursor g) v (gl_async g) (gl_interceptors g) (gl_datasources g)
    (gl_groups g).
Definition set_async (v : AsyncConfig) (g : GlobalConfig) : GlobalConfig :=
  mkGlobalConfig (gl_default_datasource g) (gl_heartbeat_interval_ms g) (gl_pool g) (gl_retry g)
    (gl_circuit_breaker g) (gl_observability g) (gl_rate_limit g) (gl_sql_audit g)
    (gl_query_cache g) (gl_cursor g) (gl_prepared_cache g) v (gl_interceptors g)
    (gl_datasources g) (gl_groups g).
Definition set_interceptors (v : bool) (g : GlobalConfig) : GlobalConfig :=
  mkGlobalConfig (gl_default_datasource g) (gl_heartbeat_interval_ms g) (gl_pool g) (gl_retry g)
    (gl_circuit_breaker g) (gl_observability g) (gl_rate_limit g) (gl_sql_audit g)
    (gl_query_cache g) (gl_cursor g) (gl_prepared_cache g) (gl_async g) v (gl_datasources g)
    (gl_groups g).
Definition push_datasource (v : DataSourceConfig) (g : GlobalConfig) : GlobalConfig :=
  mkGlobalConfig (gl_default_datasource g) (gl_heartbeat_interval_ms g) (gl_pool g) (gl_retry g)
    (gl_circuit_breaker g) (gl_observability g) (gl_rate_limit g) (gl_sql_audit g)
    (gl_query_cache g) (gl_cursor g) (gl_prepared_cache g) (gl_async g) (gl_interceptors g)
    (gl_datasources g ++ [v]) (gl_groups g).
Definition push_group (v : DataSourceGroupConfig) (g : GlobalConfig) : GlobalConfig :=
  mkGlobalConfig (gl_default_datasource g) (gl_heartbeat_interval_ms g) (gl_pool g) (gl_retry g)
    (gl_circuit_breaker g) (gl_observability g) (gl_rate_limit g) (gl_sql_audit g)
    (gl_query_cache g) (gl_cursor g) (gl_prepared_cache g) (gl_async g) (gl_interceptors g)
    (gl_datasources g) (gl_groups g ++ [v]).

Definition set_sql_log (v : SqlLogConfig) (g : GlobalConfig) : GlobalConfig :=
  let o := gl_observability g in
  set_observability (mkObservabilityConfig v (ob_slow_sql o) (ob_pool_metrics o) (ob_stats_report o)) g.
Definition set_slow_sql (v : SlowSqlConfig) (g : GlobalConfig) : GlobalConfig :=
  let o := gl_observability g in
  set_observability (mkObservabilityConfig (ob_sql_log o) v (ob_pool_metrics o) (ob_stats_report o)) g.
Definition set_pool_metrics (v : bool) (g : GlobalConfig) : GlobalConfig :=
  let o := gl_observability g in
  set_observability (mkObservabilityConfig (ob_sql_log o) (ob_slow_sql o) v (ob_stats_report o)) g.
Definition set_stats_report (v : StatsReportConfig) (g : GlobalConfig) : GlobalConfig :=
  let o := gl_observability g in
  set_observability (mkObservabilityConfig (ob_sql_log o) (ob_slow_sql o) (ob_pool_metrics o) v) g.

(** ** The loading monad *)
Inductive lerr :=
  | Rejected (msg : str)      (* error = msg; return false *)
  | JsonError (what : str).   (* a json::exception *)

Definition L (A : Type) : Type := ST GlobalConfig (lerr + A).
Definition lret {A} (a : A) : L A := fun g => (inr a, g).
Definition lbind {A B} (m : L A) (k : A -> L B) : L B :=
  fun g => match m g with
           | (inr a, g') => k a g'
           | (inl e, g') => (inl e, g')
           end.
Definition lmodify (f : GlobalConfig -> GlobalConfig) : L unit := fun g => (inr tt, f g).
Definition lreads {A} (f : GlobalConfig -> A) : L A := fun g => (inr (f g), g).
Definition reject {A} (msg : str) : L A := fun g => (inl (Rejected msg), g).
Definition throw {A} (what : str) : L A := fun g => (inl (JsonError what), g).
Definition reject_if (b : bool) (msg : str) : L unit := if b then reject msg else lret tt.

Declare Scope load_scope.
Delimit Scope load_scope with load.
Notation "x <== m ; k" := (lbind m (fun x => k))
  (at level 100, m at next level, right associativity) : load_scope.
Notation "m >>> k" := (lbind m (fun _ => k)) (at level 100, right associativity) : load_scope.
Open Scope load_scope.

Fixpoint lfor {A} (l : list A) (body : A -> L unit) : L unit :=
  match l with
  | [] => lret tt
  | x :: l' => body x >>> lfor l' body
  end.

Fixpoint lcollect {A B} (l : list A) (body : A -> L B) : L (list B) :=
  match l with
  | [] => lret []
  | x :: l' => b <== body x; bs <== lcollect l' body; lret (b :: bs)
  end.

(** ** Format selection *)
Definition ends_with (suffix s : str) : bool :=
  (length suffix <=? length s) && str_eqb (drop (length s - length suffix) s) suffix.
Definition hasYamlExtension (path : str) : bool :=
  let l := lower path in ends_with (lit ".yaml") l || ends_with (lit ".yml") l.
Definition hasJsonExtension (path : str) : bool := ends_with (lit ".json") (lower path).
Definition looksLikeYaml (content : str) : bool :=
  match skip_while isspace content with
  | c :: _ => negb (Ascii.eqb c "{") && negb (Ascii.eqb c "[")
  | [] => false
  end.

Definition parseInt64 (text : str) : option Z := if is_nil text then None else strtoll_all text.

Definition strip_bom (content : str) : str :=
  match content with
  | a :: b :: c :: r =>
      if Ascii.eqb a "239" && Ascii.eqb b "187" && Ascii.eqb c "191" then r else content
  | _ => content
  end.

(** ** Sections *)
Section Loader.
Context {json : Type} `{JsonOps json}.
Variable getenv : str -> option str.

Definition value (t : jty) (key : string) (d : jty_sem t) (j : json) : L (jty_sem t) :=
  match j_value t (lit key) d j with
  | inr v => lret v
  | inl what => throw what
  end.
Definition get (t : jty) (j : json) : L (jty_sem t) :=
  match j_get t j with
  | inr v => lret v
  | inl what => throw what
  end.
Definition has (key : string) (j : json) : bool := j_contains (lit key) j.
Definition at_ (key : string) (j : json) : json := j_at (lit key) j.

(** [if (j.contains(key)) { if (!j[key].is_object()) { error = msg; return false; } body(j[key]) }] *)
Definition section_of (key : string) (msg : str) (body : json -> L unit) (j : json) : L unit :=
  if has key j then
    reject_if (negb (j_is_object (at_ key j))) msg >>> body (at_ key j)
  else lret tt.

Definition load_pool (j : json) : L unit :=
  (if has "pool" j && j_is_object (at_ "pool" j) then
     let p := at_ "pool" j in
     d <== lreads gl_pool;
     enabled <== value TBool "enabled" (po_enabled d) p;
     min <== value TInt "min" (po_min d) p;
     max <== value TInt "max" (po_max d) p;
     borrow <== value TInt "borrow_timeout_ms" (po_borrow_timeout_ms d) p;
     idle <== value TInt "idle_timeout_ms" (po_idle_timeout_ms d) p;
     lifetime <== value TInt "max_lifetime_ms" (po_max_lifetime_ms d) p;
     leak <== value TInt "leak_detection_threshold_ms" (po_leak_detection_threshold_ms d) p;
     validation <== value TInt "validation_interval_ms" (po_validation_interval_ms d) p;
     lmodify (set_pool (mkPoolConfig enabled min max borrow idle lifetime leak validation))
   else lret tt) >>>
  p <== lreads gl_pool;
  let min := if (po_min p <? 0)%Z then 0%Z else po_min p in
  let max := if (po_max p <? 1)%Z then 1%Z else po_max p in
  let min := if (max <? min)%Z then max else min in
  let floor0 (z : Z) := if (z <? 0)%Z then 0%Z else z in
  lmodify (set_pool (mkPoolConfig (po_enabled p) min max (floor0 (po_borrow_timeout_ms p))
    (floor0 (po_idle_timeout_ms p)) (floor0 (po_max_lifetime_ms p))
    (floor0 (po_leak_detection_threshold_ms p)) (floor0 (po_validation_interval_ms p)))).

Definition load_retry : json -> L unit :=
  section_of "retry" (lit "retry must be an object") (fun retry =>
    d <== lreads gl_retry;
    attempts <== value TInt "max_attempts" (rt_max_attempts d) retry;
    initial <== value TInt "initial_backoff_ms" (rt_initial_backoff_ms d) retry;
    max <== value TInt "max_backoff_ms" (rt_max_backoff_ms d) retry;
    writes <== value TBool "retry_writes" (rt_retry_writes d) retry;
    lmodify (set_retry (mkRetryConfig attempts initial max writes)) >>>
    reject_if ((attempts <? 1)%Z || (initial <? 0)%Z || (max <? initial)%Z)
      (lit "invalid retry configuration")).

Definition load_circuit_breaker : json -> L unit :=
  section_of "circuit_breaker" (lit "circuit_breaker must be an object") (fun breaker =>
    d <== lreads gl_circuit_breaker;
    threshold <== value TInt "failure_threshold" (cb_failure_threshold d) breaker;
    interval <== value TInt "open_interval_ms" (cb_open_interval_ms d) breaker;
    lmodify (set_circuit_breaker (mkCircuitBreakerConfig threshold interval)) >>>
    reject_if ((threshold <? 0)%Z || (interval <? 1)%Z) (lit "invalid circuit_breaker configuration")).

Definition str_in (s : str) (l : list string) : bool := existsb (fun x => str_eqb s (lit x)) l.

Definition load_sql_log : json -> L unit :=
  section_of "sql_log" (lit "observability.sql_log must be an object") (fun j =>
    d <== lreads (fun g => ob_sql_log (gl_observability g));
    enabled <== value TBool "enabled" (sl_enabled d) j;
    mode <== value TString "mode" (sl_mode d) j;
    level <== value TString "level" (sl_level d) j;
    success <== value TBool "log_success" (sl_log_success d) j;
    errors <== value TBool "log_errors" (sl_log_errors d) j;
    slow <== value TBool "slow_only" (sl_slow_only d) j;
    rate <== value TDouble "sample_rate" (sl_sample_rate d) j;
    max_sql <== value TInt "max_sql_length" (sl_max_sql_length d) j;
    max_param <== value TInt "max_param_length" (sl_max_param_length d) j;
    strings <== value TBool "include_string_values" (sl_include_string_values d) j;
    blobs <== value TBool "include_blob_values" (sl_include_blob_values d) j;
    lmodify (set_sql_log (mkSqlLogConfig enabled mode level success errors slow rate max_sql max_param
                            strings blobs)) >>>
    reject_if (negb (str_in mode ["template"; "full"]%string) ||
               negb (str_in level ["debug"; "info"; "warn"; "error"]%string) ||
               SFltb rate (f64 0) || SFltb (f64 1) rate ||
               (max_sql <? 64)%Z || (max_param <? 1)%Z)
      (lit "invalid observability.sql_log configuration")).

(** [bucket <= 0 || bucket <= previous] on some bucket. *)
Fixpoint buckets_bad (previous : Z) (buckets : list Z) : bool :=
  match buckets with
  | [] => false
  | b :: r => (b <=? 0)%Z || (b <=? previous)%Z || buckets_bad b r
  end.

Definition load_slow_sql : json -> L unit :=
  section_of "slow_sql" (lit "observability.slow_sql must be an object") (fun j =>
    d <== lreads (fun g => ob_slow_sql (gl_observability g));
    enabled <== value TBool "enabled" (ss_enabled d) j;
    threshold <== value TInt "threshold_ms" (ss_threshold_ms d) j;
    aggregate <== value TInt "aggregate_capacity" (ss_aggregate_capacity d) j;
    recent <== value TInt "recent_capacity" (ss_recent_capacity d) j;
    retain <== value TBool "retain_rendered_sql" (ss_retain_rendered_sql d) j;
    max_sql <== value TInt "max_sql_length" (ss_max_sql_length d) j;
    buckets <== (if has "histogram_buckets_ms" j then get TInts (at_ "histogram_buckets_ms" j)
                 else lret (ss_histogram_buckets_ms d));
    lmodify (set_slow_sql (mkSlowSqlConfig enabled threshold aggregate recent retain max_sql buckets)) >>>
    reject_if ((threshold <? 0)%Z || (aggregate <? 1)%Z || (recent <? 0)%Z || (max_sql <? 64)%Z ||
               is_nil buckets)
      (lit "invalid observability.slow_sql configuration") >>>
    reject_if (buckets_bad (-1) buckets)
      (lit "slow_sql histogram buckets must be positive and increasing")).

Definition load_pool_metrics : json -> L unit :=
  section_of "pool_metrics" (lit "observability.pool_metrics must be an object") (fun j =>
    d <== lreads (fun g => ob_pool_metrics (gl_observability g));
    enabled <== value TBool "enabled" d j;
    lmodify (set_pool_metrics enabled)).

Definition load_stats_report : json -> L unit :=
  section_of "stats_report" (lit "observability.stats_report must be an object") (fun j =>
    d <== lreads (fun g => ob_stats_report (gl_observability g));
    enabled <== value TBool "enabled" (sr_enabled d) j;
    interval <== value TInt "interval_ms" (sr_interval_ms d) j;
    file <== value TString "file" (sr_file d) j;
    format <== value TString "format" (sr_format d) j;
    pool <== value TBool "include_pool" (sr_include_pool d) j;
    slow <== value TBool "include_slow_sql" (sr_include_slow_sql d) j;
    limit <== value TInt "slow_sql_limit" (sr_slow_sql_limit d) j;
    let interval := if (interval <? 1000)%Z then 1000%Z else interval in
    lmodify (set_stats_report (mkStatsReportConfig enabled interval file format pool slow limit)) >>>
    reject_if (negb (str_in format ["text"; "json"]%string))
      (lit "observability.stats_report.format must be 'text' or 'json'") >>>
    reject_if (limit <? 0)%Z (lit "invalid observability.stats_report configuration")).

Definition load_observability : json -> L unit :=
  section_of "observability" (lit "observability must be an object") (fun o =>
    load_sql_log o >>> load_slow_sql o >>> load_pool_metrics o >>> load_stats_report o).

Definition load_rate_limit : json -> L unit :=
  section_of "rate_limit" (lit "rate_limit must be an object") (fun rl =>
    d <== lreads gl_rate_limit;
    enabled <== value TBool "enabled" (rl_enabled d) rl;
    global <== value TInt "global_qps" (rl_global_qps d) rl;
    per <== value TInt "per_fingerprint_qps" (rl_per_fingerprint_qps d) rl;
    burst <== value TInt "burst" (rl_burst d) rl;
    mode <== value TString "fingerprint_mode" (rl_fingerprint_mode d) rl;
    lmodify (set_rate_limit (mkRateLimitConfig enabled global per burst mode)) >>>
    reject_if ((global <? 0)%Z || (per <? 0)%Z || (burst <? 0)%Z)
      (lit "invalid rate_limit configuration") >>>
    reject_if (negb (str_in mode ["off"; "template"; "full"]%string))
      (lit "rate_limit.fingerprint_mode must be off/template/full")).

Definition load_sql_audit : json -> L unit :=
  section_of "sql_audit" (lit "sql_audit must be an object") (fun audit =>
    d <== lreads gl_sql_audit;
    enabled <== value TBool "enabled" (au_enabled d) audit;
    action <== value TString "action" (au_action d) audit;
    no_where <== value TBool "block_no_where_dml" (au_block_no_where_dml d) audit;
    limit <== value TBool "require_limit_select" (au_require_limit_select d) audit;
    read_only <== value TBool "enforce_read_only" (au_enforce_read_only d) audit;
    log <== value TBool "log_blocked" (au_log_blocked d) audit;
    black <== (if has "blacklist_fingerprints" audit
               then get TUInt64s (at_ "blacklist_fingerprints" audit)
               else lret (au_blacklist_fingerprints d));
    white <== (if has "whitelist_fingerprints" audit
               then get TUInt64s (at_ "whitelist_fingerprints" audit)
               else lret (au_whitelist_fingerprints d));
    lmodify (set_sql_audit (mkSqlAuditConfig enabled action no_where limit read_only log black white)) >>>
    reject_if (negb (str_in action ["block"; "warn"]%string)) (lit "sql_audit.action must be block/warn")).

Definition load_query_cache : json -> L unit :=
  section_of "query_cache" (lit "query_cache must be an object") (fun qc =>
    d <== lreads gl_query_cache;
    enabled <== value TBool "enabled" (qc_enabled d) qc;
    ttl <== value TInt "ttl_ms" (qc_ttl_ms d) qc;
    entries <== value TInt "max_entries" (qc_max_entries d) qc;
    memory <== value TInt "max_memory_bytes" (qc_max_memory_bytes d) qc;
    replica <== value TBool "cache_on_replica_only" (qc_cache_on_replica_only d) qc;
    lmodify (set_query_cache (mkQueryCacheConfig enabled ttl entries memory replica)) >>>
    reject_if ((ttl <? 0)%Z || (entries <? 0)%Z || (memory <? 0)%Z)
      (lit "invalid query_cache configuration")).

Definition load_cursor : json -> L unit :=
  section_of "cursor" (lit "cursor must be an object") (fun cur =>
    d <== lreads gl_cursor;
    enabled <== value TBool "enabled" (cu_enabled d) cur;
    batch <== value TInt "default_batch_size" (cu_default_batch_size d) cur;
    open <== value TInt "max_open_cursors" (cu_max_open_cursors d) cur;
    scroll <== value TBool "allow_scrollable" (cu_allow_scrollable d) cur;
    lmodify (set_cursor (mkCursorConfig enabled batch open scroll)) >>>
    reject_if ((batch <? 0)%Z || (open <? 0)%Z) (lit "invalid cursor configuration")).

Definition load_prepared_cache : json -> L unit :=
  section_of "prepared_cache" (lit "prepared_cache must be an object") (fun pc =>
    d <== lreads gl_prepared_cache;
    enabled <== value TBool "enabled" (pp_enabled d) pc;
    max <== value TInt "max_per_connection" (pp_max_per_connection d) pc;
    lmodify (set_prepared_cache (mkPreparedCacheConfig enabled max)) >>>
    reject_if (max <? 0)%Z
      (lit "invalid prepared_cache configuration: max_per_connection must be >= 0")).

Definition load_interceptors : json -> L unit :=
  section_of "interceptors" (lit "interceptors must be an object") (fun ic =>
    d <== lreads gl_interceptors;
    enabled <== value TBool "enabled" d ic;
    lmodify (set_interceptors enabled) >>>
    lfor (map fst (j_members ic)) (fun key =>
      reject_if (negb (str_eqb key (lit "enabled"))) (lit "unknown interceptors field: " ++ key))).

Definition load_async : json -> L unit :=
  section_of "async" (lit "async must be an object") (fun as_ =>
    d <== lreads gl_async;
    enabled <== value TBool "enabled" (ac_enabled d) as_;
    threads <== value TInt "threads" (ac_threads d) as_;
    queue <== value TInt "queue_size" (ac_queue_size d) as_;
    timeout <== value TInt "statement_timeout_ms" (ac_statement_timeout_ms d) as_;
    lmodify (set_async (mkAsyncConfig enabled threads queue timeout)) >>>
    reject_if ((threads <? 0)%Z || (queue <? 1)%Z || (timeout <? 0)%Z)
      (lit "invalid async configuration")).

(** *** Data sources *)

(** [std::map<std::string, std::string>::operator[]]. *)
Fixpoint extra_set (k v : str) (l : list (str * str)) : list (str * str) :=
  match l with
  | [] => [(k, v)]
  | (k', v') :: l' =>
      if str_eqb k' k then (k, v) :: l'
      else if str_ltb k k' then (k, v) :: l
      else (k', v') :: extra_set k v l'
  end.
Definition msg3 (a : string) (b : str) (c : string) : str := lit a ++ b ++ lit c.

Record Tls := mkTls { t_enabled : bool; t_verify : bool; t_ca : str; t_cert : str; t_key : str }.

Definition load_tls (name : str) (d : json) : L Tls :=
  if has "tls" d then
    reject_if (negb (j_is_object (at_ "tls" d))) (msg3 "datasource '" name "' tls must be an object") >>>
    let tls := at_ "tls" d in
    enabled <== value TBool "enabled" true tls;
    verify <== value TBool "verify_peer" true tls;
    ca <== value TString "ca" [] tls;
    cert <== value TString "cert" [] tls;
    key <== value TString "key" [] tls;
    lret (mkTls enabled verify ca cert key)
  else
    let c := default_datasource in
    lret (mkTls (dc_tls_enabled c) (dc_tls_verify_peer c) (dc_tls_ca c) (dc_tls_cert c) (dc_tls_key c)).

Fixpoint load_extra (members : list (str * json)) (extra : list (str * str)) : L (list (str * str)) :=
  match members with
  | [] => lret extra
  | (k, v) :: r => s <== get TString v; load_extra r (extra_set k s extra)
  end.

Definition load_extra_of (d : json) : L (list (str * str)) :=
  if has "extra" d && j_is_object (at_ "extra" d)
  then load_extra (j_members (at_ "extra" d)) [] else lret [].

(** A secret named in [password_env] replaces the password. *)
Definition load_password (name password password_env : str) : L str :=
  if is_nil password_env then lret password
  else match getenv password_env with
       | None => reject (lit "datasource '" ++ name ++ lit "' references missing password_env '"
                         ++ password_env ++ lit "'")
       | Some secret => lret secret
       end.

(** The part of an entry every type has. *)
Definition load_base (d : json) : L DataSourceConfig :=
  name <== value TString "name" [] d;
  type <== value TString "type" [] d;
  host <== value TString "host" [] d;
  port <== value TInt "port" 0%Z d;
  user <== value TString "user" [] d;
  password <== value TString "password" [] d;
  password_env <== value TString "password_env" [] d;
  database <== value TString "database" [] d;
  dsn <== value TString "dsn" [] d;
  conn_timeout <== value TInt "connection_timeout_ms" 5000%Z d;
  socket_timeout <== value TInt "socket_timeout_ms" 0%Z d;
  query_timeout <== value TInt "query_timeout_ms" 0%Z d;
  max_rows <== value TInt "max_result_rows" 0%Z d;
  reject_if ((conn_timeout <? 0)%Z || (socket_timeout <? 0)%Z || (query_timeout <? 0)%Z ||
             (max_rows <? 0)%Z)
    (msg3 "datasource '" name "' timeout and max_result_rows values must be >= 0") >>>
  password <== load_password name password password_env;
  tls <== load_tls name d;
  extra <== load_extra_of d;
  reject_if (is_nil name) (lit "datasource missing 'name'") >>>
  reject_if (is_nil type) (msg3 "datasource '" name "' missing 'type'") >>>
  lret (mkDataSourceConfig name type host port user password password_env database dsn conn_timeout
          socket_timeout query_timeout max_rows (t_enabled tls) (t_verify tls) (t_ca tls) (t_cert tls)
          (t_key tls) default_oracle extra).

Definition oracle_fields : list string :=
  ["service_name"; "sid"; "wallet_location"; "server_cert_dn"; "charset_id"; "lob_max_bytes"; "blob_bind"]%string.

(** The [oracle] block; [present key] is the flag [hasService], [hasSid], ... *)
Definition load_oracle_block (name : str) (d : json) : L (OracleConfig * (string -> bool)) :=
  let c := default_oracle in
  if has "oracle" d then
    reject_if (negb (j_is_object (at_ "oracle" d)))
      (msg3 "datasource '" name "' oracle must be an object") >>>
    let oracle := at_ "oracle" d in
    service <== value TString "service_name" [] oracle;
    sid <== value TString "sid" [] oracle;
    wallet <== value TString "wallet_location" [] oracle;
    server_dn <== value TString "server_cert_dn" [] oracle;
    charset <== value TInt "charset_id" (or_charset_id c) oracle;
    lob <== value TInt64 "lob_max_bytes" (or_lob_max_bytes c) oracle;
    blob <== value TString "blob_bind" (or_blob_bind c) oracle;
    lfor (map fst (j_members oracle)) (fun key =>
      reject_if (negb (str_in key oracle_fields))
        (lit "unknown oracle field in datasource '" ++ name ++ lit "': " ++ key)) >>>
    lret (mkOracleConfig service sid wallet server_dn charset lob blob, fun key => has key oracle)
  else lret (c, fun _ => false).

(** An integer written as a string. *)
Definition legacy_int (v : option str) (d : Z) (bad : Z -> bool) (msg : str) : L Z :=
  match v with
  | None => lret d
  | Some text =>
      match parseInt64 text with
      | Some parsed => if bad parsed then reject msg else lret parsed
      | None => reject msg
      end
  end.

(** The same fields in [extra], for a field the block does not have. *)
Definition load_oracle_legacy (name : str) (extra : list (str * str)) (present : string -> bool)
    (o : OracleConfig) : L OracleConfig :=
  let legacy key := if present key then None else extra_find (lit key) extra in
  let service := default (or_service_name o) (legacy "service_name"%string) in
  let sid := default (or_sid o) (legacy "sid"%string) in
  let wallet := default (or_wallet_location o) (legacy "wallet_location"%string) in
  let server_dn := default (or_server_cert_dn o) (legacy "server_cert_dn"%string) in
  charset <== legacy_int (legacy "charset_id"%string) (or_charset_id o)
                (fun z => (z <? 1)%Z || (65535 <? z)%Z)
                (msg3 "datasource '" name "' extra.charset_id must be in range 1..65535");
  lob <== legacy_int (legacy "lob_max_bytes"%string) (or_lob_max_bytes o) (fun z => (z <? 1)%Z)
            (msg3 "datasource '" name "' extra.lob_max_bytes must be > 0");
  let blob := default (or_blob_bind o) (legacy "blob_bind"%string) in
  lret (mkOracleConfig service sid wallet server_dn charset lob blob).

Definition set_oracle (o : OracleConfig) (c : DataSourceConfig) : DataSourceConfig :=
  mkDataSourceConfig (dc_name c) (dc_type c) (dc_host c) (dc_port c) (dc_user c) (dc_password c)
    (dc_password_env c) (dc_database c) (dc_dsn c) (dc_connection_timeout_ms c)
    (dc_socket_timeout_ms c) (dc_query_timeout_ms c) (dc_max_result_rows c) (dc_tls_enabled c)
    (dc_tls_verify_peer c) (dc_tls_ca c) (dc_tls_cert c) (dc_tls_key c) o (dc_extra c).

(** The consistency checks of an Oracle data source, in order. *)
Definition check_oracle (c : DataSourceConfig) : L DataSourceConfig :=
  let o := dc_oracle c in
  let bad tail := msg3 "datasource '" (dc_name c) tail in
  reject_if ((or_charset_id o <? 1)%Z || (65535 <? or_charset_id o)%Z || (or_lob_max_bytes o <? 1)%Z ||
             negb (str_in (or_blob_bind o) ["auto"; "raw"; "lob"]%string))
    (bad "' has invalid oracle configuration"%string) >>>
  reject_if (negb (is_nil (or_service_name o)) && negb (is_nil (or_sid o)))
    (bad "' oracle.service_name and oracle.sid are mutually exclusive"%string) >>>
  reject_if (negb (is_nil (or_sid o)) && negb (is_nil (dc_database c)))
    (bad "' cannot combine database (service-name alias) with oracle.sid"%string) >>>
  let rawConnect := bool_decide (is_Some (extra_find (lit "connection_string") (dc_extra c))) in
  reject_if (negb rawConnect && is_nil (dc_dsn c) && is_nil (or_service_name o) &&
             is_nil (or_sid o) && is_nil (dc_database c))
    (bad "' requires oracle.service_name, oracle.sid, database, dsn, or extra.connection_string"%string) >>>
  reject_if ((rawConnect || negb (is_nil (dc_dsn c))) && dc_tls_enabled c)
    (bad "' uses dsn/extra.connection_string; encode TCPS and certificate verification in that value or Oracle Net configuration instead of using tls"%string) >>>
  let o := if negb (is_nil (dc_tls_ca c)) && is_nil (or_wallet_location o)
           then mkOracleConfig (or_service_name o) (or_sid o) (dc_tls_ca c) (or_server_cert_dn o)
                  (or_charset_id o) (or_lob_max_bytes o) (or_blob_bind o)
           else o in
  reject_if (negb (dc_tls_enabled c) &&
             (negb (is_nil (or_wallet_location o)) || negb (is_nil (or_server_cert_dn o))))
    (bad "' oracle.wallet_location/server_cert_dn require tls.enabled"%string) >>>
  reject_if (negb (is_nil (or_server_cert_dn o)) && negb (dc_tls_verify_peer c))
    (bad "' oracle.server_cert_dn requires tls.verify_peer=true"%string) >>>
  reject_if (dc_tls_enabled c && (negb (is_nil (dc_tls_cert c)) || negb (is_nil (dc_tls_key c))))
    (bad "' Oracle TLS does not consume tls.cert/tls.key directly; configure oracle.wallet_location"%string) >>>
  lret (set_oracle o c).

Definition load_datasource (d : json) : L unit :=
  reject_if (negb (j_is_object d)) (lit "datasource entry must be object") >>>
  cfg <== load_base d;
  let is_oracle := str_eqb (dc_type cfg) (lit "oracle") in
  reject_if (has "oracle" d && negb is_oracle)
    (msg3 "datasource '" (dc_name cfg) "' has an oracle block but type is not 'oracle'") >>>
  cfg <== (if is_oracle then
             block <== load_oracle_block (dc_name cfg) d;
             o <== load_oracle_legacy (dc_name cfg) (dc_extra cfg) block.2 block.1;
             check_oracle (set_oracle o cfg)
           else
             reject_if (dc_tls_verify_peer cfg && dc_tls_enabled cfg && is_nil (dc_tls_ca cfg))
               (msg3 "datasource '" (dc_name cfg) "' enables TLS peer verification but tls.ca is empty") >>>
             lret cfg);
  lmodify (push_datasource cfg).

(** *** Groups *)
Definition load_replica (group : str) (r : json) : L ReplicaConfig :=
  replica <== (if j_is_string r then name <== get TString r; lret (mkReplicaConfig name 1)
               else if j_is_object r then
                 name <== value TString "name" [] r;
                 weight <== value TInt "weight" 1%Z r;
                 lret (mkReplicaConfig name weight)
               else reject (msg3 "invalid replica in group '" group "'"));
  reject_if (is_nil (rp_name replica) || (rp_weight replica <? 1)%Z || (100 <? rp_weight replica)%Z)
    (msg3 "invalid replica in group '" group "'") >>>
  lret replica.

Definition load_write_buffer (group : str) (fo : json) : L WriteBufferConfig :=
  if has "write_buffer" fo then
    reject_if (negb (j_is_object (at_ "write_buffer" fo)))
      (msg3 "group '" group "' failover.write_buffer must be an object") >>>
    let wb := at_ "write_buffer" fo in
    enabled <== value TBool "enabled" false wb;
    ack <== value TBool "acknowledge_data_loss_and_duplicates" false wb;
    queue <== value TInt "max_queue" 1000%Z wb;
    ttl <== value TInt "ttl_ms" 30000%Z wb;
    flush <== value TInt "flush_interval_ms" 1000%Z wb;
    reject_if ((queue <? 1)%Z || (ttl <? 0)%Z || (flush <? 1)%Z)
      (msg3 "invalid group '" group "' failover.write_buffer") >>>
    lret (mkWriteBufferConfig enabled ack queue ttl flush)
  else lret default_write_buffer.

Definition load_failover (group : str) (g : json) : L FailoverConfig :=
  if has "failover" g then
    reject_if (negb (j_is_object (at_ "failover" g)))
      (msg3 "group '" group "' failover must be an object") >>>
    let fo := at_ "failover" g in
    primaries <== (if has "primaries" fo then
        reject_if (negb (j_is_array (at_ "primaries" fo)))
          (msg3 "group '" group "' failover.primaries must be an array") >>>
        lcollect (j_elements (at_ "primaries" fo)) (fun p =>
          let bad := msg3 "group '" group "' failover.primaries must be non-empty strings" in
          reject_if (negb (j_is_string p)) bad >>>
          s <== get TString p;
          reject_if (is_nil s) bad >>> lret s)
      else lret []);
    healthy <== value TBool "require_healthy" false fo;
    fencing <== value TBool "acknowledge_external_fencing" false fo;
    buffer <== load_write_buffer group fo;
    reject_if (negb (is_nil primaries) && negb fencing)
      (msg3 "group '" group "' configures automatic write failover without failover.acknowledge_external_fencing=true; sqlconduit does not perform leader election or fencing") >>>
    reject_if (wc_enabled buffer && negb (wc_acknowledge_data_loss_and_duplicates buffer))
      (msg3 "group '" group "' enables the volatile write buffer without failover.write_buffer.acknowledge_data_loss_and_duplicates=true") >>>
    lret (mkFailoverConfig primaries fencing healthy buffer)
  else lret default_failover.

Definition load_group (g : json) : L unit :=
  reject_if (negb (j_is_object g)) (lit "group entry must be object") >>>
  name <== value TString "name" [] g;
  primary <== value TString "primary" [] g;
  raw <== value TInt "read_after_write_ms" 0%Z g;
  fallback <== value TBool "fallback_to_primary" true g;
  reject_if (is_nil name || is_nil primary || (raw <? 0)%Z) (lit "invalid datasource group") >>>
  replicas <== (if has "replicas" g then
      reject_if (negb (j_is_array (at_ "replicas" g)))
        (msg3 "group '" name "' replicas must be an array") >>>
      lcollect (j_elements (at_ "replicas" g)) (load_replica name)
    else lret []);
  read_only <== value TBool "read_only" false g;
  failover <== load_failover name g;
  shadow <== (if has "shadow" g then
      reject_if (negb (j_is_string (at_ "shadow" g))) (msg3 "group '" name "' shadow must be a string") >>>
      get TString (at_ "shadow" g)
    else lret []);
  lmodify (push_group (mkGroupConfig name primary replicas raw fallback read_only failover shadow)).

(** *** The whole document *)
Definition load_datasources (j : json) : L unit :=
  reject_if (negb (has "datasources" j) || negb (j_is_array (at_ "datasources" j)))
    (lit "missing 'datasources' array") >>>
  lfor (j_elements (at_ "datasources" j)) load_datasource.

Definition load_groups (j : json) : L unit :=
  if has "groups" j then
    reject_if (negb (j_is_array (at_ "groups" j))) (lit "groups must be an array") >>>
    lfor (j_elements (at_ "groups" j)) load_group
  else lret tt.

Definition load_root (j : json) : L unit :=
  name <== value TString "default_datasource" [] j;
  lmodify (set_default_datasource name) >>>
  heartbeat <== value TInt "heartbeat_interval_ms" 5000%Z j;
  lmodify (set_heartbeat heartbeat) >>>
  load_pool j >>> load_retry j >>> load_circuit_breaker j >>> load_observability j >>>
  load_rate_limit j >>> load_sql_audit j >>> load_query_cache j >>> load_cursor j >>>
  load_prepared_cache j >>> load_interceptors j >>> load_async j >>>
  load_datasources j >>> load_groups j >>>
  out <== lreads id;
  if is_nil (gl_default_datasource out) then
    match gl_datasources out with
    | front :: _ => lmodify (set_default_datasource (dc_name front))
    | [] => lret tt
    end
  else lret tt.

(** [None] is a file that cannot be opened.  The result is the return value
    ([None] is [true], [Some error] is [false]) and [out].  [parseYaml] never
    gives [NoFuel] ([parseYaml_total]); [Threw] would leave this function too. *)
Definition loadFromFile (path : str) (file : option str) : option str * GlobalConfig :=
  let out := default_global in
  match file with
  | None => (Some (lit "cannot open config file: " ++ path), out)
  | Some bytes =>
      let content := strip_bom bytes in
      let document : str + json :=
        if hasYamlExtension path || (negb (hasJsonExtension path) && looksLikeYaml content)
        then match parseYaml content with
             | Done j => inr j
             | Bad parseError => inl (lit "yaml parse error: " ++ parseError)
             | Threw what => inl what
             | NoFuel => inl []
             end
        else match j_parse content with
             | inr j => inr j
             | inl what => inl (lit "json parse error: " ++ what)
             end in
      match document with
      | inl error => (Some error, out)
      | inr j =>
          match load_root j out with
          | (inr _, out) => (None, out)
          | (inl (Rejected msg), out) => (Some msg, out)
          | (inl (JsonError what), _) => (Some (lit "config validation error: " ++ what), default_global)
          end
      end
  end.

(** ** What an accepted configuration satisfies *)
Definition valid_pool (p : PoolConfig) : Prop :=
  (0 <= po_min p <= po_max p)%Z /\ (1 <= po_max p)%Z /\ (0 <= po_borrow_timeout_ms p)%Z /\
  (0 <= po_idle_timeout_ms p)%Z /\ (0 <= po_max_lifetime_ms p)%Z /\
  (0 <= po_leak_detection_threshold_ms p)%Z /\ (0 <= po_validation_interval_ms p)%Z.

Definition valid_retry (r : RetryConfig) : Prop :=
  (1 <= rt_max_attempts r)%Z /\ (0 <= rt_initial_backoff_ms r <= rt_max_backoff_ms r)%Z.

Definition valid_breaker (b : CircuitBreakerConfig) : Prop :=
  (0 <= cb_failure_threshold b)%Z /\ (1 <= cb_open_interval_ms b)%Z.

Definition valid_sql_log (l : SqlLogConfig) : Prop :=
  str_in (sl_mode l) ["template"; "full"]%string = true /\
  str_in (sl_level l) ["debug"; "info"; "warn"; "error"]%string = true /\
  SFltb (sl_sample_rate l) (f64 0) = false /\ SFltb (f64 1) (sl_sample_rate l) = false /\
  (64 <= sl_max_sql_length l)%Z /\ (1 <= sl_max_param_length l)%Z.

(** Positive and strictly increasing. *)
Fixpoint increasing_from (lo : Z) (l : list Z) : Prop :=
  match l with [] => True | b :: r => (lo < b)%Z /\ increasing_from b r end.

Definition valid_slow_sql (s : SlowSqlConfig) : Prop :=
  (0 <= ss_threshold_ms s)%Z /\ (1 <= ss_aggregate_capacity s)%Z /\ (0 <= ss_recent_capacity s)%Z /\
  (64 <= ss_max_sql_length s)%Z /\ ss_histogram_buckets_ms s <> [] /\
  increasing_from 0 (ss_histogram_buckets_ms s).

Definition valid_stats_report (r : StatsReportConfig) : Prop :=
  (1000 <= sr_interval_ms r)%Z /\ str_in (sr_format r) ["text"; "json"]%string = true /\
  (0 <= sr_slow_sql_limit r)%Z.

Definition valid_observability (o : ObservabilityConfig) : Prop :=
  valid_sql_log (ob_sql_log o) /\ valid_slow_sql (ob_slow_sql o) /\ valid_stats_report (ob_stats_report o).

Definition valid_rate_limit (r : RateLimitConfig) : Prop :=
  (0 <= rl_global_qps r)%Z /\ (0 <= rl_per_fingerprint_qps r)%Z /\ (0 <= rl_burst r)%Z /\
  str_in (rl_fingerprint_mode r) ["off"; "template"; "full"]%string = true.

Definition valid_query_cache (q : QueryCacheConfig) : Prop :=
  (0 <= qc_ttl_ms q)%Z /\ (0 <= qc_max_entries q)%Z /\ (0 <= qc_max_memory_bytes q)%Z.

Definition valid_async (a : AsyncConfig) : Prop :=
  (0 <= ac_threads a)%Z /\ (1 <= ac_queue_size a)%Z /\ (0 <= ac_statement_timeout_ms a)%Z.

(** An Oracle data source: one way to name the database, wallet and server
    certificate only with TLS, no TLS next to a raw connect string. *)
Definition valid_oracle (c : DataSourceConfig) : Prop :=
  let o := dc_oracle c in
  (1 <= or_charset_id o <= 65535)%Z /\ (1 <= or_lob_max_bytes o)%Z /\
  str_in (or_blob_bind o) ["auto"; "raw"; "lob"]%string = true /\
  (or_service_name o = [] \/ or_sid o = []) /\ (or_sid o = [] \/ dc_database c = []) /\
  (is_Some (extra_find (lit "connection_string") (dc_extra c)) \/ dc_dsn c <> [] \/
   or_service_name o <> [] \/ or_sid o <> [] \/ dc_database c <> []) /\
  (dc_tls_enabled c = true -> extra_find (lit "connection_string") (dc_extra c) = None /\ dc_dsn c = []) /\
  (dc_tls_enabled c = false -> or_wallet_location o = [] /\ or_server_cert_dn o = []) /\
  (or_server_cert_dn o <> [] -> dc_tls_verify_peer c = true) /\
  (dc_tls_enabled c = true -> dc_tls_cert c = [] /\ dc_tls_key c = []).

(** A secret named by [password_env] is the password; verified TLS has a CA. *)
Definition valid_datasource (c : DataSourceConfig) : Prop :=
  dc_name c <> [] /\ dc_type c <> [] /\ (0 <= dc_connection_timeout_ms c)%Z /\
  (0 <= dc_socket_timeout_ms c)%Z /\ (0 <= dc_query_timeout_ms c)%Z /\ (0 <= dc_max_result_rows c)%Z /\
  (dc_password_env c <> [] -> getenv (dc_password_env c) = Some (dc_password c)) /\
  (if str_eqb (dc_type c) (lit "oracle") then valid_oracle c
   else dc_tls_enabled c = true -> dc_tls_verify_peer c = true -> dc_tls_ca c <> []).

(** Automatic failover and the volatile buffer only when acknowledged. *)
Definition valid_failover (f : FailoverConfig) : Prop :=
  (fo_primaries f <> [] -> fo_acknowledge_external_fencing f = true) /\
  Forall (fun p => p <> []) (fo_primaries f) /\
  (wc_enabled (fo_write_buffer f) = true ->
   wc_acknowledge_data_loss_and_duplicates (fo_write_buffer f) = true) /\
  (1 <= wc_max_queue (fo_write_buffer f))%Z /\ (0 <= wc_ttl_ms (fo_write_buffer f))%Z /\
  (1 <= wc_flush_interval_ms (fo_write_buffer f))%Z.

Definition valid_group (g : DataSourceGroupConfig) : Prop :=
  gc_name g <> [] /\ gc_primary g <> [] /\ (0 <= gc_read_after_write_ms g)%Z /\
  Forall (fun r => rp_name r <> [] /\ (1 <= rp_weight r <= 100)%Z) (gc_replicas g) /\
  valid_failover (gc_failover g).

Definition valid_global (g : GlobalConfig) : Prop :=
  valid_pool (gl_pool g) /\ valid_retry (gl_retry g) /\ valid_breaker (gl_circuit_breaker g) /\
  valid_observability (gl_observability g) /\ valid_rate_limit (gl_rate_limit g) /\
  str_in (au_action (gl_sql_audit g)) ["block"; "warn"]%string = true /\
  valid_query_cache (gl_query_cache g) /\
  (0 <= cu_default_batch_size (gl_cursor g))%Z /\ (0 <= cu_max_open_cursors (gl_cursor g))%Z /\
  (0 <= pp_max_per_connection (gl_prepared_cache g))%Z /\ valid_async (gl_async g) /\
  Forall valid_datasource (gl_datasources g) /\ Forall valid_group (gl_groups g).

(** ** Weakest preconditions of the loading monad *)
Definition lwp {A} (m : L A) (Q : A -> GlobalConfig -> Prop) (g : GlobalConfig) : Prop :=
  match m g with (inr a, g') => Q a g' | (inl _, _) => True end.

Lemma lwp_ret {A} (a : A) Q g : Q a g -> lwp (lret a) Q g.
Proof. done. Qed.
Lemma lwp_bind {A B} (m : L A) (k : A -> L B) Q g :
  lwp m (fun a => lwp (k a) Q) g -> lwp (lbind m k) Q g.
Proof. unfold lwp, lbind. by destruct (m g) as [[e|a] g']. Qed.
Lemma lwp_mono {A} (m : L A) (Q R : A -> GlobalConfig -> Prop) g :
  lwp m Q g -> (forall a g', Q a g' -> R a g') -> lwp m R g.
Proof. unfold lwp. destruct (m g) as [[e|a] g']; auto. Qed.
Lemma lwp_modify f (Q : unit -> GlobalConfig -> Prop) g : Q tt (f g) -> lwp (lmodify f) Q g.
Proof. done. Qed.
Lemma lwp_reads {A} (f : GlobalConfig -> A) Q g : Q (f g) g -> lwp (lreads f) Q g.
Proof. done. Qed.
Lemma lwp_reject {A} msg (Q : A -> GlobalConfig -> Prop) g : lwp (reject msg) Q g.
Proof. done. Qed.
Lemma lwp_reject_if b msg (Q : unit -> GlobalConfig -> Prop) g :
  (b = false -> Q tt g) -> lwp (reject_if b msg) Q g.
Proof. destruct b; [done|]. intros HQ. by apply HQ. Qed.
Lemma lwp_value t key d j Q g : (forall v, Q v g) -> lwp (value t key d j) Q g.
Proof. unfold value. intros HQ. destruct (j_value _ _ _ _); [done|apply HQ]. Qed.
Lemma lwp_get t j Q g : (forall v, Q v g) -> lwp (get t j) Q g.
Proof. unfold get. intros HQ. destruct (j_get _ _); [done|apply HQ]. Qed.
Lemma lwp_if {A} (b : bool) (m1 m2 : L A) Q g :
  (b = true -> lwp m1 Q g) -> (b = false -> lwp m2 Q g) -> lwp (if b then m1 else m2) Q g.
Proof. destruct b; auto. Qed.
Lemma lwp_section key msg body j Q g :
  Q tt g -> (forall o, lwp (body o) Q g) -> lwp (section_of key msg body j) Q g.
Proof.
  intros H1 H2. unfold section_of. apply lwp_if; [|done]. intros _.
  by apply lwp_bind, lwp_reject_if.
Qed.
Lemma lwp_for {A} (I : GlobalConfig -> Prop) (l : list A) body g :
  I g -> (forall x g, I g -> lwp (body x) (fun _ => I) g) -> lwp (lfor l body) (fun _ => I) g.
Proof.
  intros Hg Hb. revert g Hg. induction l as [|x l IH]; intros g Hg; [done|].
  apply lwp_bind. eapply lwp_mono; [by apply Hb|]. intros ? g' Hg'. by apply IH.
Qed.
Lemma lwp_collect {A B} (P : B -> Prop) (I : GlobalConfig -> Prop) (l : list A) body g :
  I g -> (forall x g, I g -> lwp (body x) (fun b g => P b /\ I g) g) ->
  lwp (lcollect l body) (fun bs g => Forall P bs /\ I g) g.
Proof.
  intros Hg Hb. revert g Hg. induction l as [|x l IH]; intros g Hg; [by split|].
  apply lwp_bind. eapply lwp_mono; [by apply Hb|]. intros b g' [Hp Hg'].
  apply lwp_bind. eapply lwp_mono; [by apply IH|]. intros bs g2 [Hps Hg2].
  apply lwp_ret. split; [by constructor|done].
Qed.

(** One step of a section: binds, reads, defaults, checks, assignments. *)
Ltac lstep :=
  match goal with
  | |- lwp (lbind _ _) _ _ => apply lwp_bind
  | |- lwp (value _ _ _ _) _ _ => apply lwp_value; intros ?
  | |- lwp (get _ _) _ _ => apply lwp_get; intros ?
  | |- lwp (lreads _) _ _ => apply lwp_reads
  | |- lwp (lmodify _) _ _ => apply lwp_modify
  | |- lwp (reject_if _ _) _ _ => apply lwp_reject_if; intros ?
  | |- lwp (reject _) _ _ => apply lwp_reject
  | |- lwp (lret _) _ _ => apply lwp_ret
  | |- lwp (section_of _ _ _ _) _ _ => apply lwp_section; [|intros ?]
  | |- lwp (if _ then _ else _) _ _ => apply lwp_if; intros ?
  end; cbv beta zeta.
Ltac lsteps := repeat lstep.

(** From a valid [out], the goals on the member that was assigned. *)
Ltac valid_set V :=
  destruct V as (Vpool & Vretry & Vbreaker & (Vlog & Vslow & Vreport) & Vrate & Vaudit & Vcache &
    Vbatch & Vopen & Vprep & Vasync & Vds & Vgroups);
  bool_prop; split_and!; try done;
  try match goal with |- valid_observability _ => split; [|split]; try done end;
  try (repeat split; try done; simpl; lia).

Lemma buckets_increasing p l : (0 <= p)%Z -> buckets_bad p l = false -> increasing_from p l.
Proof.
  revert p. induction l as [|b l IH]; intros p Hp; simpl; [done|]. intros Hb. bool_prop.
  split; [lia|]. apply IH; [lia|done].
Qed.

Lemma buckets_increasing_start l : buckets_bad (-1) l = false -> increasing_from 0 l.
Proof.
  destruct l as [|b l]; simpl; [done|]. intros Hb. bool_prop.
  split; [lia|]. apply buckets_increasing; [lia|done].
Qed.

Lemma is_nil_false {A} (l : list A) : is_nil l = false -> l <> [].
Proof. by destruct l. Qed.
Lemma is_nil_true {A} (l : list A) : is_nil l = true -> l = [].
Proof. by destruct l. Qed.

Abbreviation keeps_valid m := (forall g, valid_global g -> lwp m (fun _ => valid_global) g).

Lemma default_valid : valid_global default_global.
Proof. repeat split; simpl; try done; try lia. Qed.

Lemma load_pool_valid j : keeps_valid (load_pool j).
Proof.
  intros g V. unfold load_pool. apply lwp_bind.
  eapply (lwp_mono _ (fun _ g' => forall p, valid_pool p -> valid_global (set_pool p g'))).
  { lsteps; intros p Hp; valid_set V. }
  intros ? g' Hv. lsteps. apply Hv. unfold valid_pool. simpl.
  repeat case_match; bool_prop; lia.
Qed.

Lemma load_retry_valid j : keeps_valid (load_retry j).
Proof. intros g V. unfold load_retry. lsteps; [done|]. valid_set V. Qed.

Lemma load_circuit_breaker_valid j : keeps_valid (load_circuit_breaker j).
Proof. intros g V. unfold load_circuit_breaker. lsteps; [done|]. valid_set V. Qed.

Lemma load_sql_log_valid j : keeps_valid (load_sql_log j).
Proof. intros g V. unfold load_sql_log. lsteps; [done|]. valid_set V. Qed.

Lemma load_slow_sql_valid j : keeps_valid (load_slow_sql j).
Proof.
  intros g V. unfold load_slow_sql. lsteps; try done; valid_set V; repeat split; try done; simpl; try lia;
    (by apply is_nil_false) || (by apply buckets_increasing_start).
Qed.

Lemma load_pool_metrics_valid j : keeps_valid (load_pool_metrics j).
Proof. intros g V. unfold load_pool_metrics. lsteps; [done|]. valid_set V. Qed.

Lemma load_stats_report_valid j : keeps_valid (load_stats_report j).
Proof.
  intros g V. unfold load_stats_report. lsteps; [done|]. valid_set V.
  repeat split; try done; simpl; try lia. case_match; bool_prop; lia.
Qed.

(** Sections one after the other. *)
Lemma keeps_valid_then (m k : L unit) : keeps_valid m -> keeps_valid k -> keeps_valid (m >>> k).
Proof.
  intros Hm Hk g V. apply lwp_bind. eapply lwp_mono; [by apply Hm|]. intros ? g' V'. by apply Hk.
Qed.

Lemma load_observability_valid j : keeps_valid (load_observability j).
Proof.
  intros g V. unfold load_observability. apply lwp_section; [done|]. intros o. revert g V.
  repeat apply keeps_valid_then;
    [apply load_sql_log_valid|apply load_slow_sql_valid|apply load_pool_metrics_valid|
     apply load_stats_report_valid].
Qed.

Lemma load_rate_limit_valid j : keeps_valid (load_rate_limit j).
Proof. intros g V. unfold load_rate_limit. lsteps; [done|]. valid_set V. Qed.

Lemma load_sql_audit_valid j : keeps_valid (load_sql_audit j).
Proof. intros g V. unfold load_sql_audit. lsteps; try done; valid_set V. Qed.

Lemma load_query_cache_valid j : keeps_valid (load_query_cache j).
Proof. intros g V. unfold load_query_cache. lsteps; [done|]. valid_set V. Qed.

Lemma load_cursor_valid j : keeps_valid (load_cursor j).
Proof. intros g V. unfold load_cursor. lsteps; [done|]. valid_set V. Qed.

Lemma load_prepared_cache_valid j : keeps_valid (load_prepared_cache j).
Proof. intros g V. unfold load_prepared_cache. lsteps; [done|]. valid_set V. Qed.

Lemma load_interceptors_valid j : keeps_valid (load_interceptors j).
Proof.
  intros g V. unfold load_interceptors. lsteps; [done|].
  apply lwp_for; [valid_set V|]. intros key g' V'. by lsteps.
Qed.

Lemma load_async_valid j : keeps_valid (load_async j).
Proof. intros g V. unfold load_async. lsteps; [done|]. valid_set V. Qed.

(** Reading without assigning to [out]. *)
Lemma load_extra_pure ms extra Q g :
  (forall e, Q e g) -> lwp (load_extra ms extra) Q g.
Proof.
  intros HQ. revert extra. induction ms as [|[k v] ms IH]; intros extra; cbn [load_extra]; [apply HQ|].
  lsteps. apply IH.
Qed.

Lemma load_tls_pure name d Q g : (forall t, Q t g) -> lwp (load_tls name d) Q g.
Proof. intros HQ. unfold load_tls. lsteps; apply HQ. Qed.

Definition base_ok (c : DataSourceConfig) : Prop :=
  dc_name c <> [] /\ dc_type c <> [] /\ (0 <= dc_connection_timeout_ms c)%Z /\
  (0 <= dc_socket_timeout_ms c)%Z /\ (0 <= dc_query_timeout_ms c)%Z /\ (0 <= dc_max_result_rows c)%Z /\
  (dc_password_env c <> [] -> getenv (dc_password_env c) = Some (dc_password c)).

Lemma load_password_ok name p env Q g :
  (forall p, (env <> [] -> getenv env = Some p) -> Q p g) -> lwp (load_password name p env) Q g.
Proof.
  intros HQ. unfold load_password. lsteps; [apply HQ; by destruct env|].
  case_match; [by apply HQ|done].
Qed.

Lemma load_extra_of_pure d Q g : (forall e, Q e g) -> lwp (load_extra_of d) Q g.
Proof. intros HQ. unfold load_extra_of. lsteps; [by apply load_extra_pure|apply HQ]. Qed.

Lemma load_base_ok d Q g :
  (forall c, base_ok c -> Q c g) -> lwp (load_base d) Q g.
Proof.
  intros HQ. unfold load_base. lsteps. apply load_password_ok. intros p Hp. lsteps.
  apply load_tls_pure. intros tls. lsteps. apply load_extra_of_pure. intros e. lsteps.
  apply HQ. bool_prop. repeat split; simpl; try lia; try done; by apply is_nil_false.
Qed.

Lemma load_oracle_block_pure name d Q g :
  (forall b, Q b g) -> lwp (load_oracle_block name d) Q g.
Proof.
  intros HQ. unfold load_oracle_block. lsteps; [|apply HQ].
  eapply lwp_mono; [apply (lwp_for (fun g' => g' = g)); [done|]|].
  - intros key g' ->. by lsteps.
  - intros ? g' ->. lsteps. apply HQ.
Qed.

Lemma legacy_int_pure v d bad msg Q g : (forall z, Q z g) -> lwp (legacy_int v d bad msg) Q g.
Proof. intros HQ. unfold legacy_int. repeat case_match; done || apply HQ. Qed.

Lemma load_oracle_legacy_pure name extra present o Q g :
  (forall o, Q o g) -> lwp (load_oracle_legacy name extra present o) Q g.
Proof.
  intros HQ. unfold load_oracle_legacy. lsteps. apply legacy_int_pure. intros ?. lsteps.
  apply legacy_int_pure. intros ?. lsteps. apply HQ.
Qed.

Lemma base_ok_set_oracle o c : base_ok c -> base_ok (set_oracle o c).
Proof. done. Qed.

Lemma check_oracle_ok c Q g :
  (forall o, valid_oracle (set_oracle o c) -> Q (set_oracle o c) g) -> lwp (check_oracle c) Q g.
Proof.
  intros HQ. unfold check_oracle. lsteps. apply HQ. clear HQ.
  set (o' := if _ && _ then _ else _) in *.
  assert (or_service_name o' = or_service_name (dc_oracle c) /\ or_sid o' = or_sid (dc_oracle c) /\
    or_charset_id o' = or_charset_id (dc_oracle c) /\ or_lob_max_bytes o' = or_lob_max_bytes (dc_oracle c) /\
    or_blob_bind o' = or_blob_bind (dc_oracle c)) as (E1 & E2 & E3 & E4 & E5)
    by (unfold o'; by case_match).
  clearbody o'. rewrite <- ?E1, <- ?E2, <- ?E3, <- ?E4, <- ?E5 in *.
  set (raw := extra_find _ _) in *.
  destruct c as [c1 c2 c3 c4 c5 c6 c7 db dsn c10 c11 c12 c13 tls verify ca cert key c19 extra].
  destruct o' as [service sid wallet dn charset lob blob].
  cbn [dc_oracle dc_database dc_dsn dc_tls_enabled dc_tls_verify_peer dc_tls_cert dc_tls_key dc_extra
       or_service_name or_sid or_wallet_location or_server_cert_dn or_charset_id or_lob_max_bytes
       or_blob_bind] in *.
  unfold valid_oracle, set_oracle; cbn [dc_oracle dc_database dc_dsn dc_tls_enabled dc_tls_verify_peer
    dc_tls_cert dc_tls_key dc_extra or_service_name or_sid or_wallet_location or_server_cert_dn
    or_charset_id or_lob_max_bytes or_blob_bind]. fold raw.
  split_and!.
  - bool_prop. lia.
  - bool_prop. lia.
  - bool_prop. lia.
  - by bool_prop.
  - destruct service, sid; auto; discriminate.
  - destruct sid, db; auto; discriminate.
  - destruct raw; [eauto|]. destruct dsn; [|by right; left]. destruct service; [|by right; right; left].
    destruct sid; [|by do 3 right; left]. destruct db; [done|by do 4 right].
  - intros ->. destruct raw, dsn; done.
  - intros ->. destruct wallet, dn; done.
  - destruct dn, verify; done.
  - intros ->. destruct cert, key; done.
Qed.

Lemma load_datasource_valid d : keeps_valid (load_datasource d).
Proof.
  intros g V. unfold load_datasource. lsteps. apply load_base_ok. intros c Hc. lsteps.
  - apply load_oracle_block_pure. intros b. lsteps. apply load_oracle_legacy_pure. intros o1.
    apply check_oracle_ok. intros o Ho. lsteps. valid_set V.
    apply Forall_app. split; [done|]. constructor; [|done].
    destruct Hc as (?&?&?&?&?&?&?). repeat (split; [done|]).
    match goal with E : str_eqb (dc_type c) _ = true |- _ =>
      change (dc_type (set_oracle o (set_oracle o1 c))) with (dc_type c); rewrite E end. done.
  - valid_set V. apply Forall_app. split; [done|]. constructor; [|done].
    destruct Hc as (?&?&?&?&?&?&?). repeat (split; [done|]).
    match goal with E : str_eqb (dc_type c) _ = false |- _ => rewrite E end.
    intros Ht Hv. apply is_nil_false. by rewrite Ht, Hv in *.
Qed.

Definition valid_replica (r : ReplicaConfig) : Prop := rp_name r <> [] /\ (1 <= rp_weight r <= 100)%Z.

Lemma load_replica_ok name r g :
  lwp (load_replica name r) (fun b g' => valid_replica b /\ g' = g) g.
Proof.
  unfold load_replica. lsteps; bool_prop; repeat split; simpl in *; try lia; by apply is_nil_false.
Qed.

Lemma load_write_buffer_ok name fo Q g :
  (forall w, (1 <= wc_max_queue w)%Z -> (0 <= wc_ttl_ms w)%Z -> (1 <= wc_flush_interval_ms w)%Z -> Q w g) ->
  lwp (load_write_buffer name fo) Q g.
Proof.
  intros HQ. unfold load_write_buffer. lsteps; apply HQ; bool_prop; simpl; lia.
Qed.

Lemma load_primaries_ok name l g :
  lwp (lcollect l (fun p =>
         let bad := msg3 "group '" name "' failover.primaries must be non-empty strings" in
         reject_if (negb (j_is_string p)) bad >>>
         s <== get TString p; reject_if (is_nil s) bad >>> lret s))
      (fun ps g' => Forall (fun p : str => p <> []) ps /\ g' = g) g.
Proof.
  apply (lwp_collect (fun p : str => p <> []) (fun g' => g' = g)); [done|].
  intros p g' ->. cbv beta zeta. lsteps. split; [by apply is_nil_false|done].
Qed.

Lemma load_failover_ok name gj Q g :
  (forall f, valid_failover f -> Q f g) -> lwp (load_failover name gj) Q g.
Proof.
  intros HQ. unfold load_failover.
  apply lwp_if; intros _; [|apply HQ; by repeat split].
  lstep. lstep. lstep. apply (lwp_mono _ (fun ps g' => Forall (fun p : str => p <> []) ps /\ g' = g)).
  { lsteps; [apply load_primaries_ok|done]. }
  intros ps ? [Hps ->]. lsteps. apply load_write_buffer_ok. intros w ? ? ?. lsteps. apply HQ.
  repeat split; simpl; try done.
  - intros Hne. destruct ps; [done|]. by destruct v0.
  - intros Hw. match goal with E : wc_enabled w && _ = false |- _ => rewrite Hw in E end.
    by destruct (wc_acknowledge_data_loss_and_duplicates w).
Qed.

Lemma load_group_valid gj : keeps_valid (load_group gj).
Proof.
  intros g V. unfold load_group. lsteps.
  - apply (lwp_mono _ (fun rs g' => Forall valid_replica rs /\ g' = g)).
    { apply (lwp_collect valid_replica (fun g' => g' = g)); [done|].
      intros r g' ->. apply load_replica_ok. }
    intros rs ? [Hrs ->]. lsteps. apply load_failover_ok. intros f Hf. lsteps; valid_set V;
      (apply Forall_app; split; [done|]; constructor; [|done]);
      repeat split; simpl; try done; try lia; (by apply is_nil_false) || (by apply Hf).
  - apply load_failover_ok. intros f Hf. lsteps; valid_set V;
      (apply Forall_app; split; [done|]; constructor; [|done]);
      repeat split; simpl; try done; try lia; (by apply is_nil_false) || (by apply Hf).
Qed.

Lemma load_datasources_valid j : keeps_valid (load_datasources j).
Proof.
  intros g V. unfold load_datasources. lsteps. apply lwp_for; [done|].
  intros d g' V'. by apply load_datasource_valid.
Qed.

Lemma load_groups_valid j : keeps_valid (load_groups j).
Proof.
  intros g V. unfold load_groups. lsteps; [|done]. apply lwp_for; [done|].
  intros d g' V'. by apply load_group_valid.
Qed.

(** The default data source is named when there is a data source. *)
Definition default_named (g : GlobalConfig) : Prop :=
  gl_datasources g = [] \/ gl_default_datasource g <> [].

Lemma load_root_valid j g :
  valid_global g -> lwp (load_root j) (fun _ g' => valid_global g' /\ default_named g') g.
Proof.
  intros V. unfold load_root. lstep. lstep. lstep. lstep. lstep. lstep. lstep. lstep.
  match goal with |- lwp _ _ ?g0 => assert (valid_global g0) as V0 by exact V; revert V0; generalize g0 end.
  clear g V. intros g V.
  repeat (lstep; eapply lwp_mono;
    [first [by apply load_pool_valid | by apply load_retry_valid | by apply load_circuit_breaker_valid
           |by apply load_observability_valid | by apply load_rate_limit_valid | by apply load_sql_audit_valid
           |by apply load_query_cache_valid | by apply load_cursor_valid | by apply load_prepared_cache_valid
           |by apply load_interceptors_valid | by apply load_async_valid | by apply load_datasources_valid
           |by apply load_groups_valid]
    |clear V; clear g; intros ? g V; cbv beta in V]).
  lstep. lstep. unfold id. lsteps.
  - destruct (gl_datasources g) as [|front r] eqn:Hd.
    + lsteps. split; [done|by left].
    + lsteps. split; [exact V|]. right. simpl. destruct V as (_&_&_&_&_&_&_&_&_&_&_&Vds&_).
      rewrite Hd in Vds. inversion Vds as [|? ? (Hn&_) _]. done.
  - split; [done|]. right. by apply is_nil_false.
Qed.

(** C15: a configuration file that is accepted gives a configuration within its
    bounds, whatever the document: the pool sizes ordered, no negative timeout,
    the histogram buckets positive and increasing, every data source named and
    typed, an Oracle data source consistent, TLS verification with a CA, the
    password taken from the environment where it names a variable, every replica
    weight in 1..100, automatic failover and the volatile buffer acknowledged,
    and a default data source named if there is one. *)
Theorem loadFromFile_valid (path : str) (file : option str) (out : GlobalConfig) :
  loadFromFile path file = (None, out) -> valid_global out /\ default_named out.
Proof.
  unfold loadFromFile. destruct file as [bytes|]; [|done].
  match goal with |- context [match ?d with inl _ => _ | inr _ => _ end] => destruct d as [e|j] end; [done|].
  pose proof (load_root_valid j default_global default_valid) as Hv. unfold lwp in Hv.
  destruct (load_root j default_global) as [[[msg|what]|u] g]; try done. by intros [= <-].
Qed.

Lemma ends_with_app suffix s : ends_with suffix s = true -> exists t, s = t ++ suffix.
Proof.
  unfold ends_with. intros Hs. bool_prop. apply str_eqb_eq in H1.
  exists (take (length s - length suffix) s). by rewrite <- H1 at 2; rewrite take_drop.
Qed.

Lemma json_not_yaml path : hasJsonExtension path = true -> hasYamlExtension path = false.
Proof.
  intros (t & Ht)%ends_with_app. unfold hasYamlExtension. rewrite Ht.
  destruct (_ || _) eqn:E; [|done]. exfalso.
  apply orb_true_iff in E as [(u & Hu)%ends_with_app|(u & Hu)%ends_with_app];
    apply (f_equal last) in Hu; revert Hu.
  - change (lit ".json") with (lit ".jso" ++ ["n"%char]). change (lit ".yaml") with (lit ".yam" ++ ["l"%char]).
    by rewrite !app_assoc, !last_snoc.
  - change (lit ".json") with (lit ".jso" ++ ["n"%char]). change (lit ".yml") with (lit ".ym" ++ ["l"%char]).
    by rewrite !app_assoc, !last_snoc.
Qed.

Lemma strip_bom_head c r : Ascii.eqb c "239" = false -> strip_bom (c :: r) = c :: r.
Proof. intros Hc. simpl. rewrite Hc. by destruct r as [|? []]. Qed.

Lemma render_no_bom d : is_block d = true -> strip_bom (render d) = render d.
Proof.
  intros Hb. unfold render. destruct d as [| | |[|x l]|[|[k x] l]]; try done; simpl.
  - unfold item_lines. destruct (scalar_text x) eqn:Hx; [by apply strip_bom_head|].
    destruct x as [| | |l'|[|[k y] m]]; try done; by apply strip_bom_head.
  - by apply strip_bom_head.
Qed.

(** a YAML file and a JSON file with the same content are loaded alike: same
    result, same configuration, same error message; the YAML file is the block
    style print of the document, the JSON text any text the JSON library reads
    as it. *)
Theorem yaml_json_same `{!JsonLaws json} (yaml_path json_path text : str) (d : doc) :
  hasYamlExtension yaml_path = true -> hasJsonExtension json_path = true ->
  is_block d = true -> printable d = true ->
  strip_bom text = text -> j_parse text = inr (to_json d) ->
  loadFromFile yaml_path (Some (render d)) = loadFromFile json_path (Some text).
Proof.
  intros Hy Hj Hb Hp Ht Hparse. unfold loadFromFile.
  rewrite (json_not_yaml _ Hj), Hy, Hj, render_no_bom, Ht, Hparse by done. cbn [orb negb andb].
  by rewrite parseYaml_render.
Qed.

End Loader.

(** two fields are not checked.  A heartbeat interval of any value, zero and
    negative ones included, is accepted, and a [pool] entry that is not an object
    is ignored where every other section would be refused. *)
Theorem unchecked_fields (getenv : str -> option str) (interval : Z) (pool : JVal) :
  j_is_object pool = false ->
  load_root getenv (JObj [(lit "datasources", JArr []); (lit "heartbeat_interval_ms", JNum interval);
                          (lit "pool", pool)]) default_global =
  (inr tt, set_heartbeat interval default_global).
Proof. intros Hp. destruct pool; try done. Qed.

(** ** Witnesses *)
Definition sample_json : JVal :=
  JObj [(lit "datasources", JArr [JObj [(lit "name", JStr (lit "main")); (lit "password_env", JStr (lit "PW"));
                                        (lit "type", JStr (lit "mysql"))]]);
        (lit "groups", JArr [JObj [(lit "name", JStr (lit "g")); (lit "primary", JStr (lit "main"))]]);
        (lit "pool", JObj [(lit "max", JNum 0); (lit "min", JNum 7)])].
Definition sample_yaml : doc :=
  DMap [(lit "datasources", DSeq [DMap [(lit "name", DStr (lit "main")); (lit "password_env", DStr (lit "PW"));
                                        (lit "type", DStr (lit "mysql"))]]);
        (lit "groups", DSeq [DMap [(lit "name", DStr (lit "g")); (lit "primary", DStr (lit "main"))]])].
Definition sample_env (name : str) : option str := if str_eqb name (lit "PW") then Some (lit "secret") else None.

Lemma loadFromFile_valid_witness :
  let out := (loadFromFile (json := JVal) sample_env (lit "a.yaml") (Some (render sample_yaml))).2 in
  valid_global sample_env out /\ map dc_password (gl_datasources out) = [lit "secret"].
Proof.
  split; [|by vm_compute].
  apply (loadFromFile_valid (json := JVal) sample_env (lit "a.yaml") (Some (render sample_yaml))).
  by vm_compute.
Defined.

Definition sample_text : str :=
  lit "{'datasources': [{'name': 'main', 'password_env': 'PW', 'type': 'mysql'}], 'groups': [{'name': 'g', 'primary': 'main'}]}".
(** The text with its quotes doubled quotes, as JSON has them. *)
Definition sample_json_text : str := map (fun c => if Ascii.eqb c squote then dquote else c) sample_text.

Lemma yaml_json_same_witness :
  loadFromFile (json := JVal) sample_env (lit "a.YML") (Some (render sample_yaml)) =
  loadFromFile (json := JVal) sample_env (lit "a.json") (Some sample_json_text) /\
  (loadFromFile (json := JVal) sample_env (lit "a.json") (Some sample_json_text)).1 = None.
Proof.
  split; [|by vm_compute].
  apply (yaml_json_same (json := JVal) sample_env (lit "a.YML") (lit "a.json") sample_json_text sample_yaml);
    vm_compute; reflexivity.
Defined.

Lemma unchecked_fields_witness :
  load_root sample_env (JObj [(lit "datasources", JArr []); (lit "heartbeat_interval_ms", JNum (-5));
                              (lit "pool", JNum 3)]) default_global =
  (inr tt, set_heartbeat (-5) default_global).
Proof. apply (unchecked_fields sample_env (-5) (JNum 3)). reflexivity. Defined.
