(* ===== verification/CacheKey.v ===== *)
(** * Query-cache keys

    Models [cacheKey] and [appendValueKey] of [src/core/database_manager.cpp]:
    the text under which a result is cached. The theorems say when two
    statements can share a key. *)
From stdpp Require Import base list strings.
From Stdlib Require Import Ascii ZArith Lia.
From S2P Require Import Prelude Types.

Definition record_sep : ascii := "030".
Definition unit_sep : ascii := "031".

(** [to_string(s.size()) ++ ":" ++ s] *)
Definition sized (s : str) : str := dec_nat (length s) ++ ":"%char :: s.

(** What [appendValueKey] appends for a value. *)
Fixpoint valueKey (v : Value) : str :=
  match v with
  | VNull => lit "n"
  | VBool b => "b"%char :: if b then lit "1" else lit "0"
  | VInt64 z => "i"%char :: dec_Z z
  | VUInt64 z => "u"%char :: dec_Z z
  | VDouble bits => "d"%char :: dec_Z bits
  | VTimestamp t => "t"%char :: dec_Z t
  | VString s => "s"%char :: sized s
  | VDecimal s => "m"%char :: sized s
  | VDate s => "a"%char :: sized s
  | VTime s => "o"%char :: sized s
  | VUuid s => "g"%char :: sized s
  | VIntervalYearMonth s => "y"%char :: sized s
  | VIntervalDaySecond s => "v"%char :: sized s
  | VJson s => "j"%char :: sized s
  | VBlob b => "x"%char :: sized b
  | VArray items =>
      "A"%char :: dec_nat (length items)
        ++ concat (map (fun item => unit_sep :: valueKey item) items)
  | VComposite fields =>
      "C"%char :: dec_nat (length fields)
        ++ concat (map (fun '(k, x) => unit_sep :: sized k ++ valueKey x) fields)
  | VTypedArray n items =>
      "Y"%char :: n ++ dec_nat (length items) ++ concat (map valueKey items)
  | VTypedComposite n fields =>
      "O"%char :: n ++ dec_nat (length fields)
        ++ concat (map (fun '(k, x) => k ++ valueKey x) fields)
  end.

Definition cacheKey (sql : str) (params : Params) : str :=
  sql ++ record_sep :: dec_nat (length params)
    ++ concat (map (fun p => unit_sep :: valueKey p) params).

(** ** Injectivity on values without database-named types *)
Fixpoint untyped (v : Value) : bool :=
  match v with
  | VArray items => forallb untyped items
  | VComposite fields => forallb (fun '(_, x) => untyped x) fields
  | VTypedArray _ _ | VTypedComposite _ _ => false
  | _ => true
  end.

Lemma sized_app_inj a b x y : sized a ++ x = sized b ++ y -> a = b /\ x = y.
Proof.
  unfold sized. rewrite <- !app_assoc. intros E.
  apply dec_nat_app_inj in E as [El E]; [|done..].
  cbn [app] in E. injection E as E. by apply app_inj_1 in E.
Qed.

(** A list of entries, each opened by a unit separator and decodable. *)
Lemma entries_inj {A} (f : A -> str) (P : A -> bool) (l k : list A) x y :
  Forall (fun a => forall b x y, P a = true -> P b = true ->
            no_digit_head x -> no_digit_head y -> f a ++ x = f b ++ y -> a = b /\ x = y) l ->
  forallb P l = true -> forallb P k = true -> length l = length k ->
  no_digit_head x -> no_digit_head y ->
  concat (map (fun a => unit_sep :: f a) l) ++ x = concat (map (fun a => unit_sep :: f a) k) ++ y ->
  l = k /\ x = y.
Proof.
  intros HF. revert k. induction HF as [|a l Ha HF IH]; intros [|b k] Hl Hk Hlen Hx Hy E; try done.
  simpl in Hl, Hk, Hlen. bool_prop. simpl in E. injection E as E.
  rewrite <- !app_assoc in E. apply Ha in E as [-> E]; try done.
  - apply IH in E as [-> ->]; try done. lia.
  - destruct l; [done|]. done.
  - destruct k; [done|]. done.
Qed.

Lemma entries_head {A} (f : A -> str) (l : list A) x :
  no_digit_head x -> no_digit_head (concat (map (fun a => unit_sep :: f a) l) ++ x).
Proof. by destruct l. Qed.

Lemma concat_field_map (fields : list (str * Value)) :
  concat (map (fun '(k, x) => unit_sep :: sized k ++ valueKey x) fields) =
  concat (map (fun f => unit_sep :: (sized f.1 ++ valueKey f.2)) fields).
Proof. f_equal. apply map_ext. by intros []. Qed.

Lemma forallb_field (fields : list (str * Value)) :
  forallb (fun '(_, x) => untyped x) fields = forallb (fun f => untyped f.2) fields.
Proof. induction fields as [|[] l IH]; simpl; congruence. Qed.

Lemma bool_key_inj (b c : bool) (x y : str) :
  (if b then lit "1" else lit "0") ++ x = (if c then lit "1" else lit "0") ++ y -> b = c /\ x = y.
Proof. destruct b, c; intros [=]; by subst. Qed.

(** Solve a scalar case: the tags agree or the keys differ at once. *)
Ltac scalar_key :=
  match goal with
  | E : _ = _ |- _ =>
      cbn [valueKey app lit String.list_ascii_of_string] in E;
      first [ discriminate E | injection E as E ]
  end;
  first [ match goal with E : _ |- _ => apply sized_app_inj in E as [-> ->]; done end
        | match goal with E : _ |- _ => apply dec_Z_app_inj in E as [-> ->]; done end
        | match goal with E : _ |- _ => apply bool_key_inj in E as [-> ->]; done end
        | by subst ].

Lemma valueKey_app_inj v : forall w x y,
  untyped v = true -> untyped w = true -> no_digit_head x -> no_digit_head y ->
  valueKey v ++ x = valueKey w ++ y -> v = w /\ x = y.
Proof.
  induction v as [v Hv|l IH|l IH|n l _|n l _] using Value_nested_ind;
    intros w x y Uv Uw Hx Hy E; try discriminate Uv.
  - destruct v; try discriminate Hv; destruct w; try discriminate Uw; scalar_key.
  - destruct w as [| | | | | | | | | | | | | | |k| | |]; try discriminate Uw;
      cbn in E; try discriminate E. injection E as E. rewrite <- !app_assoc in E.
    apply dec_nat_app_inj in E as [El E]; [|by apply entries_head..].
    apply (entries_inj valueKey untyped) in E as [-> ->]; try done.
  - destruct w as [| | | | | | | | | | | | | | | |k| |]; try discriminate Uw;
      cbn in E; try discriminate E. injection E as E. rewrite <- !app_assoc in E.
    rewrite !concat_field_map in E. simpl in Uv, Uw. rewrite forallb_field in Uv, Uw.
    apply dec_nat_app_inj in E as [El E]; [|by apply entries_head..].
    apply (entries_inj (fun f => sized f.1 ++ valueKey f.2) (fun f => untyped f.2)) in E
      as [-> ->]; try done.
    eapply Forall_impl; [exact IH|]. intros [k1 v1] Hf [k2 v2] x' y' U1 U2 Hx' Hy' E'.
    simpl in *. rewrite <- !app_assoc in E'. apply sized_app_inj in E' as [-> E'].
    apply Hf in E' as [-> ->]; done.
Qed.

Lemma split_at_sep (a b x y : str) :
  ~ In record_sep a -> ~ In record_sep b ->
  a ++ record_sep :: x = b ++ record_sep :: y -> a = b /\ x = y.
Proof.
  revert b. induction a as [|c a IH]; intros [|d b] Ha Hb E; cbn [app] in E.
  - by injection E.
  - injection E as E _. destruct Hb. left. by symmetry.
  - injection E as E _. destruct Ha. by left.
  - injection E as -> E. apply IH in E as [-> ->]; [done|..]; intros H; [apply Ha | apply Hb]; by right.
Qed.

(** on statements without the record-separator byte and parameters without
    database-named types, a cache key determines the statement and all its
    parameters: two different queries never share a cached result. *)
Theorem cacheKey_injective sql1 sql2 params1 params2
  (H1 : ~ In record_sep sql1) (H2 : ~ In record_sep sql2)
  (U1 : forallb untyped params1 = true) (U2 : forallb untyped params2 = true)
  (E : cacheKey sql1 params1 = cacheKey sql2 params2) :
  sql1 = sql2 /\ params1 = params2.
Proof.
  unfold cacheKey in E. apply split_at_sep in E as [-> E]; [|done..].
  rewrite <- (app_nil_r (concat _)), <- (app_nil_r (concat (map _ params2))) in E.
  apply dec_nat_app_inj in E as [El E]; [|by apply entries_head..].
  apply (entries_inj valueKey untyped) in E as [-> _]; try done.
  apply Forall_forall. intros v _. apply valueKey_app_inj.
Qed.

Lemma cacheKey_injective_witness :
  lit "SELECT ?" = lit "SELECT ?"
  /\ [VString (lit "a"); VArray [VInt64 1; VNull]] = [VString (lit "a"); VArray [VInt64 1; VNull]].
Proof.
  apply cacheKey_injective;
    [vm_compute; intuition discriminate.. | reflexivity | reflexivity | reflexivity].
Defined.

(** the keys of database-named composites are not separated: two
    different parameters (fields [a, nb] and [an, b], all null) give the same
    cache key, so the cached result of one query is served for the other. *)
Theorem cacheKey_typed_collision sql :
  let p1 := VTypedComposite (lit "T") [(lit "a", VNull); (lit "nb", VNull)] in
  let p2 := VTypedComposite (lit "T") [(lit "an", VNull); (lit "b", VNull)] in
  p1 <> p2 /\ cacheKey sql [p1] = cacheKey sql [p2].
Proof. split; [discriminate | reflexivity]. Qed.
