(* ===== verification/QueryCache.v ===== *)
(** * Query cache

    Models [include/sqlconduit/core/query_cache.h] and
    [src/core/query_cache.cpp]: a map from composite keys to results with an
    expiry, an LRU list and a byte budget. Each operation is one critical
    section of the mutex, a state transformer; the clock is an argument, in
    nanoseconds. The list iterator kept in an entry is the entry's key, which
    the invariant shows to occur once in the list. The byte counter is an [N]:
    it sums sizes of live objects of one address space, so the [size_t] of the
    source does not wrap. *)
From stdpp Require Import base gmap list strings.
From Stdlib Require Import Ascii ZArith NArith Lia.
From S2P Require Import Prelude Types Config.

Record Entry := mkEntry {
  e_rs : ResultSet;
  e_expire : Z;
  e_bytes : N;
}.

Record QueryCacheState := mkCache {
  qs_cfg : QueryCacheConfig;
  qs_store : gmap str Entry;
  qs_lru : list str;
  qs_totalBytes : N;
  qs_enabled : bool;
  qs_replicaOnly : bool;
  qs_hits : Z;
  qs_misses : Z;
  qs_evictions : Z;
  qs_invalidations : Z;
}.

Definition cache_init : QueryCacheState :=
  mkCache default_query_cache ∅ [] 0 false false 0 0 0 0.

Definition compositeKey (dataSource key : str) : str := dataSource ++ "000"%char :: key.

Definition ns_of_ms (ms : Z) : Z := (ms * 1000000)%Z.

(** State updates, one per group of fields that the source writes together. *)
Definition with_store (store : gmap str Entry) (lru : list str) (total : N) (c : QueryCacheState)
  : QueryCacheState :=
  mkCache (qs_cfg c) store lru total (qs_enabled c) (qs_replicaOnly c)
    (qs_hits c) (qs_misses c) (qs_evictions c) (qs_invalidations c).
Definition add_counts (h m e i : Z) (c : QueryCacheState) : QueryCacheState :=
  mkCache (qs_cfg c) (qs_store c) (qs_lru c) (qs_totalBytes c) (qs_enabled c) (qs_replicaOnly c)
    (u64 (qs_hits c + h)) (u64 (qs_misses c + m)) (u64 (qs_evictions c + e))
    (u64 (qs_invalidations c + i)).

(** [totalBytes_ -= (bytes <= totalBytes_ ? bytes : totalBytes_)] *)
Definition sub_bytes (total bytes : N) : N := total - (if bytes <=? total then bytes else total)%N.

(** [lru_.erase(node)] and [lru_.splice(lru_.begin(), lru_, node)]. *)
Definition lru_erase (k : str) (lru : list str) : list str := filter (fun x => x <> k) lru.
Definition lru_touch (k : str) (lru : list str) : list str := k :: lru_erase k lru.

Definition eraseLocked (k : str) (c : QueryCacheState) : QueryCacheState :=
  match qs_store c !! k with
  | Some e => with_store (delete k (qs_store c)) (lru_erase k (qs_lru c))
                (sub_bytes (qs_totalBytes c) (e_bytes e)) c
  | None => c
  end.

(** A limit of the configuration: none when it is not positive. *)
Definition limit (n : Z) : N := if (0 <? n)%Z then Z.to_N n else 0.
Definition maxEntries (c : QueryCacheState) : N := limit (qc_max_entries (qs_cfg c)).
Definition maxBytes (c : QueryCacheState) : N := limit (qc_max_memory_bytes (qs_cfg c)).
Definition store_size (c : QueryCacheState) : N := N.of_nat (size (qs_store c)).

Definition over_limit (incoming : N) (reserveSlot : bool) (c : QueryCacheState) : bool :=
  let tooMany := (0 <? maxEntries c)%N &&
    (if reserveSlot then (maxEntries c <=? store_size c)%N else (maxEntries c <? store_size c)%N) in
  let tooBig := (0 <? maxBytes c)%N && (maxBytes c <? qs_totalBytes c + incoming)%N in
  tooMany || tooBig.

(** [evictLocked]; each iteration shortens the LRU list, whose length is the fuel. *)
Fixpoint evict_loop (fuel : nat) (incoming : N) (reserveSlot : bool) (c : QueryCacheState)
  : QueryCacheState :=
  match fuel, last (qs_lru c) with
  | S fuel, Some old =>
      if negb (over_limit incoming reserveSlot c) then c
      else match qs_store c !! old with
           | None => evict_loop fuel incoming reserveSlot
                       (with_store (qs_store c) (removelast (qs_lru c)) (qs_totalBytes c) c)
           | Some _ => evict_loop fuel incoming reserveSlot
                         (add_counts 0 0 1 0 (eraseLocked old c))
           end
  | _, _ => c
  end.

Definition evictLocked (incoming : N) (reserveSlot : bool) (c : QueryCacheState)
  : QueryCacheState := evict_loop (length (qs_lru c)) incoming reserveSlot c.

Definition cache_configure (cfg : QueryCacheConfig) (c : QueryCacheState) : QueryCacheState :=
  mkCache cfg ∅ [] 0 (qc_enabled cfg && (0 <? qc_ttl_ms cfg)%Z) (qc_cache_on_replica_only cfg)
    (qs_hits c) (qs_misses c) (qs_evictions c) (qs_invalidations c).

(** [get]: the result copied into [out], when there is one. *)
Definition cache_get (now : Z) (dataSource key : str) (c : QueryCacheState)
  : option ResultSet * QueryCacheState :=
  if negb (qs_enabled c) then (None, c)
  else if negb (qc_enabled (qs_cfg c)) then (None, c)
  else
    let ck := compositeKey dataSource key in
    match qs_store c !! ck with
    | None => (None, add_counts 0 1 0 0 c)
    | Some e =>
        if (e_expire e <=? now)%Z then (None, add_counts 0 1 0 0 (eraseLocked ck c))
        else (Some (e_rs e),
              add_counts 1 0 0 0
                (with_store (qs_store c) (lru_touch ck (qs_lru c)) (qs_totalBytes c) c))
    end.

Section Sizes.
  (** [sizeof(std::string)] and [sizeof(common::Value)] of the ABI. *)
Variable sizeof_string sizeof_Value : N.

Definition len (s : str) : N := N.of_nat (length s).

Definition valueBytes (v : Value) : N :=
    match v with
    | VString s | VDecimal s | VDate s | VTime s | VUuid s | VJson s | VBlob s => len s
    | _ => sizeof_Value
    end.

Definition sumN (l : list N) : N := foldr N.add 0%N l.

Definition approxBytes (rs : ResultSet) : N :=
    sumN (map (fun f => len f + sizeof_string)%N (rs_fields rs))
    + sumN (map (fun row => sumN (map (fun '(col, v) => len col + sizeof_string + valueBytes v)%N row))
              (rs_rows rs)).

Definition cache_put (now : Z) (dataSource key : str) (rs : ResultSet) (c : QueryCacheState)
    : QueryCacheState :=
    let cfg := qs_cfg c in
    if negb (qs_enabled c) then c
    else
      let bytes := approxBytes rs in
      if negb (qc_enabled cfg) then c
      else if (qc_ttl_ms cfg <=? 0)%Z then c
      else if (0 <? qc_max_memory_bytes cfg)%Z && (Z.to_N (qc_max_memory_bytes cfg) <? bytes)%N
      then c
      else
        let ck := compositeKey dataSource key in
        let e := mkEntry rs (now + ns_of_ms (qc_ttl_ms cfg)) bytes in
        match qs_store c !! ck with
        | Some old =>
            evictLocked 0 false
              (with_store (<[ck := e]> (qs_store c)) (lru_touch ck (qs_lru c))
                 (sub_bytes (qs_totalBytes c) (e_bytes old) + bytes)%N c)
        | None =>
            let c := evictLocked bytes true c in
            with_store (<[ck := e]> (qs_store c)) (ck :: qs_lru c) (qs_totalBytes c + bytes)%N c
        end.
End Sizes.

(** [invalidate]: the loop over the map erases the entries whose key has the
    data source's prefix; the order of the map does not matter. *)
Definition invalidate_entry (prefix : str) (ke : str * Entry) (acc : QueryCacheState * Z)
  : QueryCacheState * Z :=
  let '(c, removed) := acc in
  if prefixb prefix (fst ke) then (eraseLocked (fst ke) c, (removed + 1)%Z) else acc.

Definition cache_invalidate (dataSource : str) (c : QueryCacheState) : QueryCacheState :=
  if negb (qs_enabled c) then c
  else if bool_decide (qs_store c = ∅) then c
  else
    let prefix := compositeKey dataSource [] in
    let '(c', removed) :=
      foldr (invalidate_entry prefix) (c, 0%Z) (map_to_list (qs_store c)) in
    if (0 <? removed)%Z then add_counts 0 0 0 removed c' else c'.

Record QueryCacheStats := mkCacheStats {
  cs_entries : N; cs_approxBytes : N;
  cs_hits : Z; cs_misses : Z; cs_evictions : Z; cs_invalidations : Z;
}.

Definition cache_stats (c : QueryCacheState) : QueryCacheStats :=
  mkCacheStats (store_size c) (qs_totalBytes c)
    (qs_hits c) (qs_misses c) (qs_evictions c) (qs_invalidations c).

(** ** Theorems *)

(** *** Byte sums *)
Definition bytes_sum (m : gmap str Entry) : N := map_fold (fun _ e acc => e_bytes e + acc)%N 0%N m.

Lemma bytes_sum_insert k e m :
  m !! k = None -> bytes_sum (<[k := e]> m) = (e_bytes e + bytes_sum m)%N.
Proof.
  intros H. unfold bytes_sum. rewrite map_fold_insert_L; [done | intros; lia | done].
Qed.

Lemma bytes_sum_delete k e m :
  m !! k = Some e -> bytes_sum m = (e_bytes e + bytes_sum (delete k m))%N.
Proof.
  intros H. rewrite <- (insert_delete_id m k e) at 1 by done.
  apply bytes_sum_insert. apply lookup_delete_eq.
Qed.

(** *** The structural invariant *)
Record wf (c : QueryCacheState) : Prop := mkWf {
  wf_nodup : NoDup (qs_lru c);
  wf_mem : forall k, k ∈ qs_lru c <-> is_Some (qs_store c !! k);
  wf_total : qs_totalBytes c = bytes_sum (qs_store c);
}.

Lemma wf_add_counts h m e i c : wf c -> wf (add_counts h m e i c).
Proof. by intros [? ? ?]. Qed.

Lemma elem_lru_erase x k lru : x ∈ lru_erase k lru <-> x ∈ lru /\ x <> k.
Proof. unfold lru_erase. rewrite list_elem_of_filter. tauto. Qed.

Lemma NoDup_lru_erase k lru : NoDup lru -> NoDup (lru_erase k lru).
Proof. apply NoDup_filter. Qed.

Lemma lru_erase_notin k lru : k ∉ lru -> lru_erase k lru = lru.
Proof.
  unfold lru_erase. induction lru as [|x l IH]; [done|]. intros [H1 H2]%not_elem_of_cons.
  rewrite filter_cons_True by congruence. by rewrite IH.
Qed.

Lemma lru_erase_last k l : NoDup (l ++ [k]) -> lru_erase k (l ++ [k]) = l.
Proof.
  intros H. unfold lru_erase. rewrite filter_app. fold (lru_erase k l).
  rewrite lru_erase_notin, filter_cons_False, filter_nil, app_nil_r; [done|tauto|].
  apply NoDup_app in H as (_ & H & _). intros Hk. apply (H k Hk). by left.
Qed.

Lemma sub_bytes_sum k e m : m !! k = Some e ->
  sub_bytes (bytes_sum m) (e_bytes e) = bytes_sum (delete k m).
Proof.
  intros H. rewrite (bytes_sum_delete k e m H). unfold sub_bytes.
  case_match; bool_prop; lia.
Qed.

Lemma wf_erase k c : wf c -> wf (eraseLocked k c).
Proof.
  intros [Hn Hm Ht]. unfold eraseLocked. destruct (qs_store c !! k) as [e|] eqn:E; [|done].
  split; simpl.
  - by apply NoDup_lru_erase.
  - intros x. rewrite elem_lru_erase, Hm. destruct (decide (x = k)) as [->|Hx].
    + rewrite lookup_delete_eq. split; [tauto | by intros []].
    + rewrite lookup_delete_ne by done. tauto.
  - rewrite Ht. by apply sub_bytes_sum.
Qed.

Lemma wf_touch k c : wf c -> is_Some (qs_store c !! k) ->
  wf (with_store (qs_store c) (lru_touch k (qs_lru c)) (qs_totalBytes c) c).
Proof.
  intros [Hn Hm Ht] Hk. split; simpl; [|intros x|done].
  - constructor; [rewrite elem_lru_erase; tauto | by apply NoDup_lru_erase].
  - unfold lru_touch. rewrite elem_of_cons, elem_lru_erase, Hm.
    destruct (decide (x = k)) as [->|]; tauto.
Qed.

Lemma wf_empty_lru c : wf c -> qs_lru c = [] -> qs_store c = ∅ /\ qs_totalBytes c = 0%N.
Proof.
  intros [_ Hm Ht] E. assert (qs_store c = ∅) as Es.
  { apply map_empty. intros k. destruct (qs_store c !! k) eqn:Ek; [|done].
    assert (k ∈ qs_lru c) as H by (by apply Hm). rewrite E in H. by apply not_elem_of_nil in H. }
  by rewrite Ht, Es.
Qed.

(** *** Eviction *)

(** What an eviction leaves alone. *)
Definition same_config (c c' : QueryCacheState) : Prop :=
  qs_cfg c' = qs_cfg c /\ qs_enabled c' = qs_enabled c /\ qs_replicaOnly c' = qs_replicaOnly c.

(** The result of evicting from the tail: a prefix of the LRU list survives,
    with its entries, and the limits hold unless nothing survives. *)
Record evicted (incoming : N) (reserveSlot : bool) (c c' : QueryCacheState) : Prop := mkEvicted {
  ev_wf : wf c';
  ev_config : same_config c c';
  ev_prefix : exists gone, qs_lru c = qs_lru c' ++ gone;
  ev_store : forall k, k ∈ qs_lru c' -> qs_store c' !! k = qs_store c !! k;
  ev_limits : qs_lru c' = [] \/ over_limit incoming reserveSlot c' = false;
}.

Lemma evict_refl incoming r c :
  wf c -> qs_lru c = [] \/ over_limit incoming r c = false -> evicted incoming r c c.
Proof. intros Hw Ho. split; try done. exists []. by rewrite app_nil_r. Qed.

Lemma evict_loop_spec incoming r fuel c :
  wf c -> length (qs_lru c) <= fuel -> evicted incoming r c (evict_loop fuel incoming r c).
Proof.
  revert c. induction fuel as [|fuel IH]; intros c Hw Hf; simpl.
  { apply evict_refl; [done|]. left. destruct (qs_lru c); [done|simpl in Hf; lia]. }
  destruct (last (qs_lru c)) as [old|] eqn:El.
  2:{ apply evict_refl; [done|]. left. by apply last_None in El. }
  destruct (over_limit incoming r c) eqn:Eo; simpl; [|apply evict_refl; tauto].
  apply last_Some in El as [l El].
  assert (is_Some (qs_store c !! old)) as [e Ee].
  { apply (wf_mem c Hw). rewrite El. apply elem_of_app. right. by left. }
  rewrite Ee. set (c1 := add_counts 0 0 1 0 (eraseLocked old c)).
  assert (Hw1 : wf c1) by (by apply wf_add_counts, wf_erase).
  assert (E1 : qs_lru c1 = l /\ qs_store c1 = delete old (qs_store c) /\ same_config c c1).
  { unfold c1, eraseLocked. rewrite Ee. simpl. rewrite El.
    rewrite lru_erase_last; [done|]. rewrite <- El. by apply wf_nodup. }
  destruct E1 as (El1 & Es1 & Ec1).
  destruct (IH c1 Hw1) as [? [Ha [Hb Hd]] [gone Hg] Hs Hl].
  { rewrite El1. rewrite El, length_app in Hf. simpl in Hf. lia. }
  destruct Ec1 as (? & ? & ?). split; try done.
  - split_and!; congruence.
  - exists (gone ++ [old]). by rewrite El, app_assoc, <- Hg, El1.
  - intros k Hk. rewrite (Hs k Hk), Es1. apply lookup_delete_ne. intros <-.
    pose proof (wf_nodup c Hw) as Hn. rewrite El in Hn.
    apply NoDup_app in Hn as (_ & Hn & _). apply (Hn old); [|by left].
    rewrite <- El1, Hg. apply elem_of_app. by left.
Qed.

Lemma evictLocked_spec incoming r c : wf c -> evicted incoming r c (evictLocked incoming r c).
Proof. intros H. by apply evict_loop_spec. Qed.

(** *** Configured limits *)
Definition within_limits (c : QueryCacheState) : Prop :=
  (maxEntries c <> 0%N -> (store_size c <= maxEntries c)%N) /\
  (maxBytes c <> 0%N -> (qs_totalBytes c <= maxBytes c)%N).

Lemma over_limit_false incoming r c :
  over_limit incoming r c = false <->
  (maxEntries c <> 0%N ->
     (store_size c + (if r then 1 else 0) <= maxEntries c)%N) /\
  (maxBytes c <> 0%N -> (qs_totalBytes c + incoming <= maxBytes c)%N).
Proof.
  unfold over_limit. rewrite orb_false_iff, !andb_false_iff.
  destruct r; rewrite !N.ltb_ge, ?N.leb_gt; lia.
Qed.

(** *** The operations *)
Lemma erase_within k c : wf c -> within_limits c -> within_limits (eraseLocked k c).
Proof.
  intros Hw [H1 H2]. unfold eraseLocked. destruct (qs_store c !! k) as [e|] eqn:E; [|done].
  unfold within_limits, store_size, maxEntries, maxBytes in *. simpl. split; intros H.
  - specialize (H1 H). rewrite map_size_delete, E. lia.
  - specialize (H2 H). unfold sub_bytes. case_match; lia.
Qed.

Lemma erase_config k c : same_config c (eraseLocked k c).
Proof. unfold eraseLocked. by case_match. Qed.

(** Adding an entry whose key is not stored. *)
Lemma wf_insert_fresh k e c : wf c -> qs_store c !! k = None ->
  wf (with_store (<[k := e]> (qs_store c)) (k :: qs_lru c) (qs_totalBytes c + e_bytes e)%N c).
Proof.
  intros [Hn Hm Ht] E.
  assert (k ∉ qs_lru c) by (rewrite Hm, E; by intros []).
  split; simpl.
  - by constructor.
  - intros x. rewrite elem_of_cons, Hm. destruct (decide (x = k)) as [->|Hx].
    + rewrite lookup_insert_eq. split; [eauto | tauto].
    + rewrite lookup_insert_ne by done. tauto.
  - rewrite bytes_sum_insert by done. lia.
Qed.

(** Replacing the entry of a stored key. *)
Lemma wf_replace k e old c : wf c -> qs_store c !! k = Some old ->
  wf (with_store (<[k := e]> (qs_store c)) (lru_touch k (qs_lru c))
        (sub_bytes (qs_totalBytes c) (e_bytes old) + e_bytes e)%N c).
Proof.
  intros Hw E. pose proof (wf_touch k c Hw (mk_is_Some _ _ E)) as [Hn Hm _].
  simpl in Hn, Hm. split; simpl; [done|..].
  - intros x. rewrite Hm. destruct (decide (x = k)) as [->|Hx].
    + rewrite lookup_insert_eq, E. split; eauto.
    + by rewrite lookup_insert_ne by done.
  - rewrite (wf_total c Hw), (sub_bytes_sum k old) by done.
    rewrite <- (insert_delete_eq (qs_store c)), bytes_sum_insert by apply lookup_delete_eq. lia.
Qed.

(** The head of the LRU list survives an eviction that makes no room for a new
    entry: only the tail goes, and one fitting entry is within every limit. *)
Lemma single_within ck e c :
  wf c -> qs_lru c = [ck] -> qs_store c !! ck = Some e ->
  (maxBytes c <> 0%N -> (e_bytes e <= maxBytes c)%N) -> over_limit 0 false c = false.
Proof.
  intros Hw El Ee Hfit. assert (qs_store c = {[ck := e]}) as Es.
  { apply map_eq. intros k. destruct (decide (k = ck)) as [->|Hk].
    - by rewrite lookup_singleton_eq.
    - rewrite lookup_singleton_ne by done. destruct (qs_store c !! k) eqn:Ek; [|done].
      assert (k ∈ qs_lru c) as Hin by (by apply (wf_mem c Hw); rewrite Ek).
      rewrite El in Hin. by apply list_elem_of_singleton in Hin. }
  apply over_limit_false. unfold store_size. rewrite (wf_total c Hw), Es.
  unfold bytes_sum. rewrite map_size_singleton, map_fold_singleton. split; [lia|].
  intros H. specialize (Hfit H). lia.
Qed.

Lemma evict_keeps_head ck e fuel c rest :
  wf c -> qs_lru c = ck :: rest -> qs_store c !! ck = Some e ->
  (maxBytes c <> 0%N -> (e_bytes e <= maxBytes c)%N) ->
  exists rest', qs_lru (evict_loop fuel 0 false c) = ck :: rest'.
Proof.
  revert c rest. induction fuel as [|fuel IH]; intros c rest Hw El Ee Hfit; [eauto|]. simpl.
  destruct (last (qs_lru c)) as [old|] eqn:Elast; [|eauto].
  destruct (over_limit 0 false c) eqn:Eo; simpl; [|eauto].
  apply last_Some in Elast as [l Elast]. pose proof (wf_nodup c Hw) as Hn.
  rewrite Elast in El, Hn. destruct l as [|x l]; injection El as -> El.
  { by rewrite (single_within ck e) in Eo. }
  simpl in Hn. apply NoDup_cons in Hn as [Hck Hn].
  assert (old <> ck) by (intros ->; apply Hck, elem_of_app; right; by left).
  assert (is_Some (qs_store c !! old)) as [eo Eeo].
  { apply (wf_mem c Hw). rewrite Elast. apply elem_of_app. right. by left. }
  pose proof (wf_add_counts 0 0 1 0 _ (wf_erase old c Hw)) as Hw'.
  rewrite Eeo. unfold eraseLocked in *. rewrite Eeo in *.
  apply (IH _ l); simpl; [done | | by rewrite lookup_delete_ne | exact Hfit].
  rewrite Elast. apply (lru_erase_last old (ck :: l)). rewrite <- Elast.
  by apply wf_nodup.
Qed.

Section CacheOps.
Context (sizeof_string sizeof_Value : N).
Let put := cache_put sizeof_string sizeof_Value.
Let bytes_of := approxBytes sizeof_string sizeof_Value.

  (** A result fits when it is not larger than the byte budget. *)
Definition fits (rs : ResultSet) (c : QueryCacheState) : Prop :=
    maxBytes c <> 0%N -> (bytes_of rs <= maxBytes c)%N.

Lemma limit_pos n : (0 < n)%Z -> limit n = Z.to_N n.
Proof. intros H. unfold limit. by apply Z.ltb_lt in H as ->. Qed.

Lemma too_big_spec n (b : N) :
    (0 <? n)%Z && (Z.to_N n <? b)%N = false <-> (limit n <> 0%N -> (b <= limit n)%N).
Proof.
    unfold limit. destruct (Z.ltb_spec 0 n); simpl; [|tauto]. rewrite N.ltb_ge. lia.
  Qed.

  (** The two branches of a put that stores: replace a key, or evict and add. *)
Inductive put_case (now : Z) (ck : str) (rs : ResultSet) (c c' : QueryCacheState) : Prop :=
    | put_replace old mid
        (Hold : qs_store c !! ck = Some old)
        (Hmid : mid = with_store (<[ck := mkEntry rs (now + ns_of_ms (qc_ttl_ms (qs_cfg c)))
                                     (bytes_of rs)]> (qs_store c))
                  (lru_touch ck (qs_lru c))
                  (sub_bytes (qs_totalBytes c) (e_bytes old) + bytes_of rs)%N c)
        (Hev : evicted 0 false mid c')
        (Hhead : exists rest, qs_lru c' = ck :: rest)
    | put_fresh mid
        (Hnone : qs_store c !! ck = None)
        (Hev : evicted (bytes_of rs) true c mid)
        (Hadd : c' = with_store (<[ck := mkEntry rs (now + ns_of_ms (qc_ttl_ms (qs_cfg c)))
                                      (bytes_of rs)]> (qs_store mid))
                  (ck :: qs_lru mid) (qs_totalBytes mid + bytes_of rs)%N mid).

Lemma cache_put_cases now ds key rs c :
    wf c ->
    (put now ds key rs c = c /\
      (qs_enabled c && qc_enabled (qs_cfg c) && (0 <? qc_ttl_ms (qs_cfg c))%Z = false
       \/ ~ fits rs c))
    \/ (fits rs c /\ put_case now (compositeKey ds key) rs c (put now ds key rs c)).
Proof.
    intros Hw. unfold put, cache_put.
    destruct (qs_enabled c); simpl; [|left; tauto].
    destruct (qc_enabled (qs_cfg c)); simpl; [|left; tauto].
    rewrite Z.leb_antisym. destruct (0 <? qc_ttl_ms (qs_cfg c))%Z; simpl; [|left; tauto].
    pose proof (too_big_spec (qc_max_memory_bytes (qs_cfg c)) (bytes_of rs)) as Hb.
    fold bytes_of. destruct ((0 <? _)%Z && _) eqn:Eb.
    { left. split; [done|]. right. intros H. by apply (proj2 Hb) in H. }
    right. assert (Hfit : fits rs c) by exact (proj1 Hb eq_refl).
    split; [done|].
    destruct (qs_store c !! compositeKey ds key) as [old|] eqn:E.
    - pose proof (wf_replace _ (mkEntry rs (now + ns_of_ms (qc_ttl_ms (qs_cfg c)))
        (bytes_of rs)) _ _ Hw E) as Hw'.
      eapply put_replace; [exact E | reflexivity | by apply evictLocked_spec |].
      eapply evict_keeps_head; [exact Hw' | reflexivity | apply lookup_insert_eq | exact Hfit].
    - eapply put_fresh; [exact E | | reflexivity]. by apply evictLocked_spec.
  Qed.


  (** A put keeps the structure and the limits. *)
Lemma cache_put_inv now ds key rs c :
    wf c -> within_limits c ->
    wf (put now ds key rs c) /\ within_limits (put now ds key rs c).
Proof.
    intros Hw Hl. destruct (cache_put_cases now ds key rs c Hw) as [[-> _]|[Hfit H]]; [done|].
    destruct H as [old mid Hold -> [Hw' [Hc [_ _]] _ _ Hlim] _|mid Hnone [Hw' [Hc _] _ Hs Hlim] ->].
    - split; [done|]. destruct Hlim as [Hlim|Hlim].
      + destruct (wf_empty_lru _ Hw' Hlim) as [Es Et].
        unfold within_limits, store_size. rewrite Es, Et, map_size_empty. lia.
      + apply over_limit_false in Hlim as [H1 H2]. split; intros H; [specialize (H1 H) | specialize (H2 H)]; lia.
    - assert (qs_store mid !! compositeKey ds key = None) as Ek.
      { destruct (qs_store mid !! compositeKey ds key) eqn:E; [|done].
        assert (compositeKey ds key ∈ qs_lru mid) as Hin by (by apply (wf_mem mid Hw'); rewrite E).
        rewrite <- (Hs _ Hin), E in Hnone. done. }
      split; [by apply (wf_insert_fresh _ (mkEntry rs _ (bytes_of rs)))|].
      unfold fits, within_limits, store_size, maxEntries, maxBytes in *. simpl.
      rewrite map_size_insert_None by done. rewrite <- Hc in Hfit.
      destruct Hlim as [Hlim|Hlim].
      + destruct (wf_empty_lru _ Hw' Hlim) as [Es Et]. rewrite Es, Et, map_size_empty.
        split; [lia|]. intros H. specialize (Hfit H). lia.
      + apply over_limit_false in Hlim as [H1 H2].
        unfold store_size, maxEntries, maxBytes in *.
        split; intros H; [specialize (H1 H) | specialize (H2 H)]; lia.
  Qed.

  (** A put that stores makes its entry the head of the list. *)
Lemma put_case_lookup now ck rs c c' :
    put_case now ck rs c c' ->
    qs_store c' !! ck = Some (mkEntry rs (now + ns_of_ms (qc_ttl_ms (qs_cfg c))) (bytes_of rs))
    /\ same_config c c' /\ (forall k, k <> ck ->
         qs_store c' !! k = qs_store c !! k \/ qs_store c' !! k = None).
Proof.
    intros [old mid Hold Hmid [Hw' Hc _ Hs _] [rest Hr]|mid Hnone [Hw' Hc _ Hs _] ->].
    - assert (forall k, qs_store c' !! k = qs_store mid !! k \/ qs_store c' !! k = None) as Hk.
      { intros k. destruct (qs_store c' !! k) eqn:E; [left | by right].
        rewrite <- Hs; [done|]. apply (wf_mem c' Hw'). by rewrite E. }
      split_and!.
      + rewrite Hs by (rewrite Hr; by left). rewrite Hmid. apply lookup_insert_eq.
      + by rewrite Hmid in Hc.
      + intros k Hne. specialize (Hk k). rewrite Hmid in Hk. simpl in Hk.
        by rewrite lookup_insert_ne in Hk.
    - split_and!; [apply lookup_insert_eq | done |].
      intros k Hne. simpl. rewrite lookup_insert_ne by done.
      destruct (qs_store mid !! k) eqn:E; [left | by right].
      rewrite <- Hs; [done|]. apply (wf_mem mid Hw'). by rewrite E.
  Qed.

  (** read your writes: on an enabled cache a result that fits the budget
      is returned by every look-up before its time to live ends, whatever had
      to be evicted for it; from then on the look-up misses. *)
Theorem cache_put_then_get now now' ds key rs c
    (Hwf : wf c) (Hen : qs_enabled c = true) (Hcfg : qc_enabled (qs_cfg c) = true)
    (Httl : (0 < qc_ttl_ms (qs_cfg c))%Z) (Hfit : fits rs c) :
    fst (cache_get now' ds key (put now ds key rs c)) =
    if (now' <? now + ns_of_ms (qc_ttl_ms (qs_cfg c)))%Z then Some rs else None.
Proof.
    assert (put_case now (compositeKey ds key) rs c (put now ds key rs c)) as H.
    { destruct (cache_put_cases now ds key rs c Hwf) as [[_ H]|[_ H]]; [|done].
      rewrite Hen, Hcfg in H. apply Z.ltb_lt in Httl. rewrite Httl in H. by destruct H. }
    apply put_case_lookup in H as (Hl & (Hc1 & Hc2 & _) & _).
    unfold cache_get. rewrite Hc2, Hen, Hc1, Hcfg. simpl. rewrite Hl. simpl.
    rewrite Z.leb_antisym. by destruct (now' <? _)%Z.
  Qed.
End CacheOps.

Definition put_get_config : QueryCacheConfig := mkQueryCacheConfig true 10 2 200 false.
Definition small_rs : ResultSet := mkResultSet [lit "id"] [[(lit "id", VInt64 7)]] false.

Lemma wf_init cfg c : wf (cache_configure cfg c) /\ within_limits (cache_configure cfg c).
Proof.
  split.
  - split; simpl; [constructor | | done]. intros k. rewrite lookup_empty.
    split; [by intros ?%not_elem_of_nil | by intros []].
  - unfold within_limits, store_size. simpl. rewrite map_size_empty. lia.
Qed.

Lemma cache_put_then_get_witness :
  fst (cache_get 5 (lit "main") (lit "k")
         (cache_put 32 64 0 (lit "main") (lit "k") small_rs
            (cache_configure put_get_config cache_init)))
  = Some small_rs.
Proof.
  rewrite (cache_put_then_get 32 64 0 5);
    [reflexivity | apply wf_init | reflexivity | reflexivity | reflexivity |].
  vm_compute. intros _ [=].
Defined.

Lemma cache_get_inv now ds key c :
  wf c -> within_limits c ->
  wf (snd (cache_get now ds key c)) /\ within_limits (snd (cache_get now ds key c)).
Proof.
  intros Hw Hl. unfold cache_get.
  destruct (qs_enabled c); simpl; [|done]. destruct (qc_enabled _); simpl; [|done].
  destruct (qs_store c !! compositeKey ds key) as [e|] eqn:E; simpl.
  - destruct (e_expire e <=? now)%Z; simpl.
    + split; [by apply wf_add_counts, wf_erase | by apply erase_within].
    + split; [apply wf_add_counts, wf_touch; [done | by rewrite E] | done].
  - split; [by apply wf_add_counts | done].
Qed.

(** *** Invalidation *)
Lemma erase_lookup k c x : wf c ->
  qs_store (eraseLocked k c) !! x = if decide (x = k) then None else qs_store c !! x.
Proof.
  intros Hw. unfold eraseLocked. destruct (qs_store c !! k) eqn:E; simpl.
  - case_decide; subst; [apply lookup_delete_eq | by apply lookup_delete_ne].
  - case_decide; by subst.
Qed.

Lemma invalidate_fold prefix (l : list (str * Entry)) c : wf c -> within_limits c ->
  let r := foldr (invalidate_entry prefix) (c, 0%Z) l in
  wf (fst r) /\ within_limits (fst r) /\ same_config c (fst r) /\
  forall k, qs_store (fst r) !! k =
    if decide (k ∈ l.*1 /\ prefixb prefix k = true) then None else qs_store c !! k.
Proof.
  intros Hw Hl. induction l as [|[k e] l IH]; cbn [foldr fst].
  { split_and!; [done..|]. intros k.
    by rewrite decide_False by (by intros [?%not_elem_of_nil _]). }
  destruct (foldr (invalidate_entry prefix) (c, 0%Z) l) as [c' n]. cbn [fst] in IH.
  destruct IH as (IH1 & IH2 & IH3 & IH4). unfold invalidate_entry. cbn [fst].
  destruct (prefixb prefix k) eqn:Ep; cbn [fst].
  - split_and!; [by apply wf_erase | by apply erase_within | |].
    + destruct IH3 as (? & ? & ?), (erase_config k c') as (? & ? & ?). split_and!; congruence.
    + intros x. rewrite erase_lookup, IH4 by done. destruct (decide (x = k)) as [->|Hne].
      * rewrite decide_True; [done|]. split; [by left | done].
      * apply decide_ext. rewrite fmap_cons, elem_of_cons. tauto.
  - split_and!; [done..|]. intros x. rewrite IH4. apply decide_ext. rewrite fmap_cons, elem_of_cons.
    split; [tauto|]. intros [[->|?] Hp]; [|done]. simpl in Hp. congruence.
Qed.

Lemma cache_invalidate_spec ds c : wf c -> within_limits c ->
  wf (cache_invalidate ds c) /\ within_limits (cache_invalidate ds c)
  /\ same_config c (cache_invalidate ds c)
  /\ (qs_enabled c = true -> forall k, qs_store (cache_invalidate ds c) !! k =
        if prefixb (compositeKey ds []) k then None else qs_store c !! k).
Proof.
  intros Hw Hl. unfold cache_invalidate.
  destruct (qs_enabled c); simpl; [|done]. case_bool_decide as He.
  { split_and!; [done..|]. intros _ k. rewrite He, lookup_empty. by case_match. }
  destruct (invalidate_fold (compositeKey ds []) (map_to_list (qs_store c)) c Hw Hl)
    as (H1 & H2 & H3 & H4).
  destruct (foldr _ _ _) as [c' n]. simpl in *.
  assert (Hk : forall k, qs_store c' !! k =
            if prefixb (compositeKey ds []) k then None else qs_store c !! k).
  { intros k. rewrite H4. destruct (prefixb _ k) eqn:Ep.
    - case_decide as Hd; [done|]. destruct (qs_store c !! k) as [e|] eqn:E; [|done].
      destruct Hd. split; [|done]. apply list_elem_of_fmap. exists (k, e).
      by rewrite elem_of_map_to_list.
    - rewrite decide_False; [done|]. intros [_ ?]; congruence. }
  destruct (0 <? n)%Z; simpl; split_and!; auto using wf_add_counts.
Qed.

Definition nul_free (s : str) : bool := forallb (fun c => negb (Ascii.eqb c "000")) s.

Lemma compositeKey_prefix ds ds' key :
  nul_free ds = true -> nul_free ds' = true ->
  prefixb (compositeKey ds []) (compositeKey ds' key) = bool_decide (ds = ds').
Proof.
  unfold compositeKey. revert ds'. induction ds as [|c ds IH]; intros [|d ds'] H H';
    unfold nul_free in *; cbn [app prefixb forallb] in *.
  - done.
  - apply andb_true_iff in H' as [Hd _]. bool_prop.
    by rewrite (proj2 (Ascii.eqb_neq _ d)).
  - apply andb_true_iff in H as [Hc _]. bool_prop.
    by rewrite (proj2 (Ascii.eqb_neq c _)).
  - apply andb_true_iff in H as [_ H], H' as [_ H']. rewrite IH by done.
    destruct (Ascii.eqb_spec c d) as [->|Hne]; simpl.
    + apply bool_decide_ext. split; [by intros -> | by intros [=]].
    + symmetry. apply bool_decide_eq_false. congruence.
Qed.

(** invalidating a data source removes exactly its entries: every look-up
    under it misses afterwards, and the entries of any other data source are
    untouched. *)
Theorem cache_invalidate_exact ds ds' key now c
  (Hwf : wf c) (Hl : within_limits c) (Hen : qs_enabled c = true)
  (Hds : nul_free ds = true) (Hds' : nul_free ds' = true) :
  fst (cache_get now ds' key (cache_invalidate ds c)) =
  if bool_decide (ds = ds') then None else fst (cache_get now ds' key c).
Proof.
  destruct (cache_invalidate_spec ds c Hwf Hl) as (_ & _ & (Hc1 & Hc2 & _) & Hk).
  unfold cache_get. rewrite Hc2, Hc1, Hk, compositeKey_prefix, Hen by done. simpl.
  destruct (qc_enabled _); simpl; [|by case_bool_decide].
  case_bool_decide; [done|]. destruct (qs_store c !! _); [|done]. by destruct (_ <=? _)%Z.
Qed.

Lemma cache_invalidate_exact_witness :
  let c := cache_configure put_get_config cache_init in
  fst (cache_get 0 (lit "b") (lit "k") (cache_invalidate (lit "a") c)) =
  if bool_decide (lit "a" = lit "b") then None else fst (cache_get 0 (lit "b") (lit "k") c).
Proof.
  apply cache_invalidate_exact; [apply wf_init | apply wf_init | reflexivity..].
Defined.

(** *** Any sequence of operations *)
Inductive cache_op :=
  | CConfigure (cfg : QueryCacheConfig)
  | CGet (now : Z) (ds key : str)
  | CPut (now : Z) (ds key : str) (rs : ResultSet)
  | CInvalidate (ds : str).

Definition cache_step (sizeof_string sizeof_Value : N) (c : QueryCacheState) (op : cache_op)
  : QueryCacheState :=
  match op with
  | CConfigure cfg => cache_configure cfg c
  | CGet now ds key => snd (cache_get now ds key c)
  | CPut now ds key rs => cache_put sizeof_string sizeof_Value now ds key rs c
  | CInvalidate ds => cache_invalidate ds c
  end.

Definition cache_run (sizeof_string sizeof_Value : N) (ops : list cache_op) : QueryCacheState :=
  fold_left (cache_step sizeof_string sizeof_Value) ops cache_init.

(** C40: after any sequence of configurations, look-ups, puts and invalidations
    the LRU list enumerates the stored keys without repetition, the byte counter
    is the sum of the entries' sizes, and the entry and byte limits hold. *)
Theorem cache_invariant sizeof_string sizeof_Value ops :
  let c := cache_run sizeof_string sizeof_Value ops in
  NoDup (qs_lru c) /\ (forall k, k ∈ qs_lru c <-> is_Some (qs_store c !! k))
  /\ qs_totalBytes c = bytes_sum (qs_store c)
  /\ (maxEntries c <> 0%N -> (store_size c <= maxEntries c)%N)
  /\ (maxBytes c <> 0%N -> (qs_totalBytes c <= maxBytes c)%N).
Proof.
  assert (forall c, wf c -> within_limits c ->
    wf (fold_left (cache_step sizeof_string sizeof_Value) ops c)
    /\ within_limits (fold_left (cache_step sizeof_string sizeof_Value) ops c)) as H.
  { induction ops as [|op ops IH]; intros c Hw Hl; simpl; [done|].
    assert (wf (cache_step sizeof_string sizeof_Value c op)
            /\ within_limits (cache_step sizeof_string sizeof_Value c op)) as [? ?].
    { destruct op as [cfg|now ds key|now ds key rs|ds]; simpl.
      - apply wf_init.
      - by apply cache_get_inv.
      - by apply cache_put_inv.
      - destruct (cache_invalidate_spec ds c) as (? & ? & _); done. }
    by apply IH. }
  destruct (H cache_init) as [[? ? ?] [? ?]]; [|apply (wf_init default_query_cache cache_init)|done].
  destruct (wf_init default_query_cache cache_init) as [[? ? ?] _]. done.
Qed.
