(* ===== verification/SqlAnalyze.v ===== *)
(** * SQL analysis

    Models [src/common/sql_analyze.cpp]: structural templates and their
    fingerprints, literal masking, statement classification, and the clause
    and multi-statement detectors.

    The scanners of the source run an index [i] over the text. Here the index
    is the suffix [s] that starts at [i], together with the character [prev]
    before it (the source's [sql[i - 1]]); one iteration of a scanner's loop is
    a [_step] function, the loop a fuelled iteration of it, with the length of
    the text as fuel. *)
From stdpp Require Import base gmap list strings.
From Stdlib Require Import Ascii ZArith Lia.
From S2P Require Import Prelude.
Open Scope nat_scope.

Inductive StatementKind :=
  | KUnknown | KSelect | KInsert | KUpdate | KDelete | KDdl | KOther.

#[export] Instance StatementKind_eq_dec : EqDecision StatementKind.
Proof. solve_decision. Defined.

Definition backslash : ascii := "\".
Definition newline : ascii := "010".
Definition ch (c d : ascii) : bool := Ascii.eqb c d.
Definition head_is (d : ascii) (s : str) : bool :=
  match s with c :: _ => ch c d | [] => false end.
Definition head_sat (f : ascii -> bool) (s : str) : bool :=
  match s with c :: _ => f c | [] => false end.

(** What was read when the scanner moved from [s] to its suffix [rest], and
    the character before [rest]. *)
Definition consumed (s rest : str) : str := take (length s - length rest) s.
Definition before (prev : option ascii) (s rest : str) : option ascii :=
  match last (consumed s rest) with Some c => Some c | None => prev end.
Definition blanks (n : nat) : str := replicate n " "%char.

(** ** Scanning sub-regions *)

(** From after an opening quote [q] to after the closing one: a backslash
    escapes the next character, a doubled quote continues the text. *)
Fixpoint skip_quoted (q : ascii) (s : str) : str :=
  match s with
  | [] => []
  | c :: s1 =>
      if ch c backslash then
        match s1 with _ :: s2 => skip_quoted q s2 | [] => [] end
      else if ch c q then
        match s1 with
        | d :: s2 => if ch d q then skip_quoted q s2 else s1
        | [] => []
        end
      else skip_quoted q s1
  end.

(** From after [/*] to after the closing marker, or to the end. *)
Definition skip_comment (s : str) : str :=
  match str_find (lit "*/") s with
  | Some k => drop (k + 2) s
  | None => []
  end.

Definition skip_line (s : str) : str := skip_while (fun c => negb (ch c newline)) s.

(** A dollar-quoted region [$tag$ body $tag$] whose first [$] was read: the
    delimiter, the body and the rest. *)
Definition dollar_region (s : str) : option (str * str * str) :=
  let tag := take_while is_ident s in
  match skip_while is_ident s with
  | d :: body =>
      if ch d "$" && (is_nil tag || negb (head_sat isdigit tag)) then
        let delimiter := "$"%char :: tag ++ ["$"%char] in
        match str_find delimiter body with
        | Some k => Some (delimiter, take k body, drop (k + length delimiter) body)
        | None => None
        end
      else None
  | [] => None
  end.

(** A numeric literal, after its sign. *)
Definition digit_or_us (c : ascii) : bool := isdigit c || ch c "_".

Definition skip_exponent (s : str) : str :=
  match s with
  | e :: s1 =>
      if ch e "e" || ch e "E" then
        let s2 := match s1 with
                  | sg :: s2 => if ch sg "+" || ch sg "-" then s2 else s1
                  | [] => s1
                  end in
        if is_nil (take_while digit_or_us s2) then s else skip_while digit_or_us s2
      else s
  | [] => s
  end.

Definition skip_decimal (s : str) : str :=
  let s := skip_while digit_or_us s in
  let s := match s with
           | d :: s1 => if ch d "." then skip_while digit_or_us s1 else s
           | [] => s
           end in
  skip_exponent s.

Definition skip_number (s : str) : str :=
  match s with
  | a :: b :: s2 =>
      if ch a "0" && (ch b "x" || ch b "X") then
        skip_while (fun c => isxdigit c || ch c "_") s2
      else if ch a "0" && (ch b "b" || ch b "B") then
        skip_while (fun c => ch c "0" || ch c "1" || ch c "_") s2
      else skip_decimal s
  | _ => skip_decimal s
  end.

(** Does a number start at [c :: s1], signed or not? *)
Definition signed_number (c : ascii) (s1 : str) : bool :=
  (ch c "+" || ch c "-") &&
  match s1 with
  | d :: s2 => isdigit d || (ch d "." && head_sat isdigit s2)
  | [] => false
  end.
Definition plain_number (c : ascii) (s1 : str) : bool :=
  isdigit c || (ch c "." && head_sat isdigit s1).
Definition boundary (prev : option ascii) : bool :=
  match prev with Some p => negb (is_ident p) | None => true end.

(** ** Structural templates *)

(** [flushSpace] *)
Definition flushSpace (out : str) (pending : bool) : str :=
  if pending && negb (is_nil out) && negb (bool_decide (last out = Some " "%char))
  then out ++ [" "%char] else out.

Definition nonempty (s : str) : bool := negb (is_nil s).

(** One iteration of [buildStructural] at [c :: s1]: what is left to read,
    the output and the pending-space flag. *)
Definition structural_step (prev : option ascii) (c : ascii) (s1 out : str) (pending : bool)
  : str * str * bool :=
  let s := c :: s1 in
  if isspace c then (s1, out, nonempty out)
  else if ch c "-" && head_is "-" s1 then (skip_line s, out, nonempty out)
  else if ch c "/" && head_is "*" s1 then
    let s2 := drop 1 s1 in
    let rest := skip_comment s2 in
    if head_is "!" s2 || head_is "+" s2
    then (rest, flushSpace out pending ++ consumed s rest, false)
    else (rest, out, nonempty out)
  else
    match (if ch c "$" then dollar_region s1 else None) with
    | Some (delimiter, body, rest) =>
        (rest, flushSpace out pending ++ delimiter ++ lit "<body_hash:"
                 ++ dec_Z (fnv1a body) ++ lit ">" ++ delimiter, false)
    | None =>
        if ch c "'" then (skip_quoted c s1, flushSpace out pending ++ lit "?", false)
        else if ch c "034" || ch c "`" then
          let rest := skip_quoted c s1 in
          (rest, flushSpace out pending ++ [c] ++ consumed s1 rest, false)
        else if boundary prev && (plain_number c s1 || signed_number c s1) then
          (skip_number (if signed_number c s1 then s1 else s),
           flushSpace out pending ++ lit "?", false)
        else (s1, flushSpace out pending ++ [c], false)
    end.

Fixpoint structural_loop (fuel : nat) (prev : option ascii) (s out : str) (pending : bool) : str :=
  match fuel, s with
  | S fuel, c :: s1 =>
      let '(rest, out, pending) := structural_step prev c s1 out pending in
      structural_loop fuel (before prev s rest) rest out pending
  | _, _ => out
  end.

Definition buildStructural (sql : str) : str := structural_loop (length sql) None sql [] false.
Definition structuralTemplate (sql : str) : str := buildStructural sql.
Definition fingerprintTemplate (sql : str) : Z := fnv1a (buildStructural sql).

(** ** Masking literals, comments and quoted identifiers *)

(** One iteration of [maskLiteralRegions]: what is written over the text that
    was read, and the rest. *)
Definition mask_step (c : ascii) (s1 : str) : str * str :=
  let s := c :: s1 in
  let blank rest := (blanks (length s - length rest), rest) in
  if ch c "-" && head_is "-" s1 then blank (skip_line s)
  else if ch c "/" && head_is "*" s1 then blank (skip_comment (drop 1 s1))
  else if ch c "'" || ch c "034" || ch c "`" then blank (skip_quoted c s1)
  else
    match (if ch c "$" then dollar_region s1 else None) with
    | Some (_, _, rest) => blank rest
    | None => ([c], s1)
    end.

Fixpoint mask_loop (fuel : nat) (s : str) : str :=
  match fuel, s with
  | S fuel, c :: s1 => let '(written, rest) := mask_step c s1 in written ++ mask_loop fuel rest
  | _, _ => []
  end.

Definition maskLiteralRegions (sql : str) : str := mask_loop (length sql) sql.

(** ** Keywords *)
Fixpoint prefix_ci (kw s : str) : bool :=
  match kw, s with
  | [], _ => true
  | k :: kw', c :: s' => ch (toupper c) (toupper k) && prefix_ci kw' s'
  | _ :: _, [] => false
  end.

(** [matchWordAt]: the keyword, not inside a longer identifier. *)
Definition matchWordAt (prev : option ascii) (s kw : str) : bool :=
  prefix_ci kw s && boundary prev && negb (head_sat is_ident (drop (length kw) s)).

(** The loop of [containsTopLevelKeyword], [depth] the open parentheses. *)
Fixpoint top_keyword_loop (kw : str) (depth : nat) (prev : option ascii) (s : str) : bool :=
  match s with
  | [] => false
  | c :: s1 =>
      if length s <? length kw then false
      else if ch c "(" then top_keyword_loop kw (S depth) (Some c) s1
      else if ch c ")" then top_keyword_loop kw (pred depth) (Some c) s1
      else if negb (depth =? 0) then top_keyword_loop kw depth (Some c) s1
      else if matchWordAt prev s kw then true
      else top_keyword_loop kw depth (Some c) s1
  end.

Definition containsTopLevelKeyword (masked kw : str) : bool :=
  top_keyword_loop kw 0 None masked.

Definition nextNonSpace (s : str) : str := skip_while isspace s.

(** [eatWord]: the text after the keyword, when it is there. *)
Definition eatWord (prev : option ascii) (s kw : str) : option str :=
  if matchWordAt prev s kw then Some (drop (length kw) s) else None.

Fixpoint eatAny (prev : option ascii) (s : str) (kws : list str) : option str :=
  match kws with
  | [] => None
  | kw :: kws' => match eatWord prev s kw with Some r => Some r | None => eatAny prev s kws' end
  end.

Definition eatBlockTerminator (prev : option ascii) (s : str) : option str :=
  eatAny prev s (map lit ["CASE"; "IF"; "LOOP"; "WHILE"; "REPEAT"; "TRY"; "CATCH"]%string).

(** ** Routine bodies: [maskCompoundBody] *)

(** The first [BEGIN] word: the character before it and the suffix at it. *)
Fixpoint find_begin (prev : option ascii) (s : str) : option (option ascii * str) :=
  match s with
  | [] => None
  | c :: s1 =>
      match eatWord prev s (lit "BEGIN") with
      | Some _ => Some (prev, s)
      | None => find_begin (Some c) s1
      end
  end.

(** One iteration of the block loop at a non-empty suffix: go on at a suffix
    with a depth, or the end of the body. *)
Inductive block_next :=
  | BGo (rest : str) (depth : Z)
  | BEnd (rest : str).

Definition block_step (prev : option ascii) (s : str) (depth : Z) : block_next :=
  match eatWord prev s (lit "BEGIN") with
  | Some next => BGo next (depth + 1)
  | None =>
      match eatWord prev s (lit "END") with
      | Some next =>
          let depth := (depth - 1)%Z in
          let afterSpace := nextNonSpace next in
          let i := match eatBlockTerminator (before prev s afterSpace) afterSpace with
                   | Some afterKw => afterKw
                   | None => next
                   end in
          if (depth <=? 0)%Z then BEnd i else BGo i depth
      | None =>
          match eatAny prev s (map lit ["CASE"; "LOOP"; "WHILE"; "REPEAT"]%string) with
          | Some next => BGo next (depth + 1)
          | None =>
              match eatWord prev s (lit "IF") with
              | Some next =>
                  let afterSpace := nextNonSpace next in
                  let opened := match afterSpace with
                                | c :: _ => negb (ch c "(")
                                | [] => false
                                end in
                  BGo next (if opened then depth + 1 else depth)%Z
              | None => BGo (drop 1 s) depth
              end
          end
      end
  end.

Fixpoint block_loop (fuel : nat) (prev : option ascii) (s : str) (depth : Z) : option str :=
  match fuel, s with
  | S fuel, _ :: _ =>
      match block_step prev s depth with
      | BGo rest depth => block_loop fuel (before prev s rest) rest depth
      | BEnd rest => Some rest
      end
  | _, _ => None
  end.

(** The text with its outermost block blanked, and whether there was one. *)
Definition maskCompoundBody (s : str) : bool * str :=
  match find_begin None s with
  | None => (false, s)
  | Some (prev, at_begin) =>
      match block_loop (length at_begin) prev at_begin 0 with
      | None => (false, s)
      | Some at_end =>
          if length at_begin <=? length at_end then (false, s)
          else (true, take (length s - length at_begin) s
                      ++ blanks (length at_begin - length at_end) ++ at_end)
      end
  end.

(** ** Verbs and classification *)
Definition verb_end (c : ascii) : bool := isspace c || ch c "(" || ch c ";" || ch c "{".

Definition upperFirstVerb (masked : str) : str :=
  map toupper (take_while (fun c => negb (verb_end c)) (skip_while isspace masked)).

Definition is_write_verb (t : str) : bool :=
  str_eqb t (lit "INSERT") || str_eqb t (lit "UPDATE") || str_eqb t (lit "DELETE")
  || str_eqb t (lit "MERGE") || str_eqb t (lit "REPLACE").

(** The token loop of [upperMainVerb] after a leading [WITH]. *)
Fixpoint main_verb_loop (fuel : nat) (s : str) (depth : nat) (nestedWrite first : str) : str :=
  match fuel, s with
  | S fuel, c :: s1 =>
      if ch c "(" then main_verb_loop fuel s1 (S depth) nestedWrite first
      else if ch c ")" then main_verb_loop fuel s1 (pred depth) nestedWrite first
      else if isalpha c || ch c "_" then
        let token := map toupper (take_while is_ident s) in
        let write := is_write_verb token in
        let nestedWrite := if (0 <? depth) && write && is_nil nestedWrite
                           then token else nestedWrite in
        if (depth =? 0) && (str_eqb token (lit "SELECT") || write)
        then if nonempty nestedWrite then nestedWrite else token
        else main_verb_loop fuel (skip_while is_ident s) depth nestedWrite first
      else main_verb_loop fuel s1 depth nestedWrite first
  | _, _ => first
  end.

Definition upperMainVerb (masked : str) : str :=
  let first := upperFirstVerb masked in
  if negb (str_eqb first (lit "WITH")) then first
  else main_verb_loop (length masked) masked 0 [] first.

Definition one_of (verb : str) (l : list string) : bool :=
  existsb (fun w => str_eqb verb (lit w)) l.

Definition classifyStatement (sql : str) : StatementKind :=
  let verb := upperMainVerb (maskLiteralRegions sql) in
  if one_of verb ["SELECT"; "SHOW"; "EXPLAIN"; "DESC"; "DESCRIBE"] then KSelect
  else if one_of verb ["INSERT"; "REPLACE"] then KInsert
  else if one_of verb ["UPDATE"] then KUpdate
  else if one_of verb ["DELETE"; "TRUNCATE"] then KDelete
  else if one_of verb ["CREATE"; "ALTER"; "DROP"; "RENAME"; "GRANT"; "REVOKE"; "COMMENT"]
       then KDdl
  else KOther.

Definition isWrite (kind : StatementKind) : bool :=
  match kind with
  | KInsert | KUpdate | KDelete | KDdl | KOther => true
  | KUnknown | KSelect => false
  end.

(** ** Clauses and statement counts *)
Definition hasWhereClause (sql : str) : bool :=
  containsTopLevelKeyword (maskLiteralRegions sql) (lit "WHERE").
Definition hasLimitClause (sql : str) : bool :=
  containsTopLevelKeyword (maskLiteralRegions sql) (lit "LIMIT").

(** What the word loop of [hasRowLimitClause] accepts at the start of a word. *)
Definition row_limit_at (s : str) : bool :=
  let word := map toupper (take_while is_ident s) in
  let q := skip_while isspace (skip_while is_ident s) in
  if str_eqb word (lit "FETCH") then
    let next := map toupper (take_while isalpha q) in
    str_eqb next (lit "FIRST") || str_eqb next (lit "NEXT")
  else if str_eqb word (lit "ROWNUM") then head_is "<" q || head_is "=" q
  else false.

Fixpoint row_limit_loop (depth : nat) (prev : option ascii) (s : str) : bool :=
  match s with
  | [] => false
  | c :: s1 =>
      if ch c "(" then row_limit_loop (S depth) (Some c) s1
      else if ch c ")" then row_limit_loop (pred depth) (Some c) s1
      else if negb (depth =? 0) then row_limit_loop depth (Some c) s1
      else if negb (isalpha c) then row_limit_loop depth (Some c) s1
      else if negb (boundary prev) then row_limit_loop depth (Some c) s1
      else if row_limit_at s then true
      else row_limit_loop depth (Some c) s1
  end.

Definition hasRowLimitClause (sql : str) : bool :=
  if hasLimitClause sql then true
  else row_limit_loop 0 None (maskLiteralRegions sql).

Definition isRoutineDdl (sql : str) : bool :=
  let masked := maskLiteralRegions sql in
  let verb := upperMainVerb masked in
  if negb (str_eqb verb (lit "CREATE")) && negb (str_eqb verb (lit "ALTER")) then false
  else containsTopLevelKeyword masked (lit "PROCEDURE")
       || containsTopLevelKeyword masked (lit "FUNCTION").

(** The loop of [hasMultipleStatements]. *)
Fixpoint multi_loop (depth : nat) (ended : bool) (s : str) : bool :=
  match s with
  | [] => false
  | c :: s1 =>
      if ch c "(" then multi_loop (S depth) ended s1
      else if ch c ")" then multi_loop (pred depth) ended s1
      else if negb (depth =? 0) then multi_loop depth ended s1
      else if ch c ";" then multi_loop depth true s1
      else if ended && negb (isspace c) then true
      else multi_loop depth ended s1
  end.

Definition hasMultipleStatements (sql : str) (allowRoutineBody : bool) : bool :=
  let masked := maskLiteralRegions sql in
  let masked := if allowRoutineBody && isRoutineDdl sql
                then snd (maskCompoundBody masked) else masked in
  multi_loop 0 false masked.

(** ** Theorems *)

(** *** The sub-scanners return suffixes *)
Lemma suffix_cons_of {A} (x : A) l k : suffix l k -> suffix l (x :: k).
Proof. intros [p ->]. by exists (x :: p). Qed.

Lemma suffix_skip_while f s : suffix (skip_while f s) s.
Proof. destruct (skip_while_suffix f s) as (p & E & _). by exists p. Qed.

Lemma suffix_drop_of {A} n (s : list A) : suffix (drop n s) s.
Proof. exists (take n s). by rewrite take_drop. Qed.

Lemma skip_quoted_cons q c s1 :
  skip_quoted q (c :: s1) =
    if ch c backslash then skip_quoted q (drop 1 s1)
    else if ch c q then if head_is q s1 then skip_quoted q (drop 1 s1) else s1
    else skip_quoted q s1.
Proof. by destruct s1. Qed.

Lemma skip_quoted_suffix q s : suffix (skip_quoted q s) s.
Proof.
  induction s as [s IH] using (induction_ltof1 _ (@length ascii)). unfold ltof in IH.
  destruct s as [|c s1]; [done|]. rewrite skip_quoted_cons. apply suffix_cons_of.
  assert (suffix (skip_quoted q (drop 1 s1)) s1).
  { etrans; [apply IH | apply suffix_drop_of]. rewrite length_drop. simpl. lia. }
  assert (suffix (skip_quoted q s1) s1) by (apply IH; simpl; lia).
  repeat case_match; done.
Qed.

Lemma skip_comment_suffix s : suffix (skip_comment s) s.
Proof. unfold skip_comment. case_match; [apply suffix_drop_of | apply suffix_nil]. Qed.

Lemma dollar_region_suffix s d b r : dollar_region s = Some (d, b, r) -> suffix r s.
Proof.
  unfold dollar_region. pose proof (suffix_skip_while is_ident s) as H.
  destruct (skip_while is_ident s) as [|c body]; [done|].
  destruct (_ && _); [|done]. destruct (str_find _ body); [|done]. intros [= <- <- <-].
  etrans; [apply suffix_drop_of |]. etrans; [|exact H]. apply suffix_cons_of. done.
Qed.

Lemma skip_exponent_suffix s : suffix (skip_exponent s) s.
Proof.
  unfold skip_exponent. destruct s as [|e s1]; [done|]. destruct (_ || _); [|done].
  destruct (is_nil _); [done|]. apply suffix_cons_of.
  etrans; [apply suffix_skip_while |]. destruct s1 as [|sg s2]; [done|].
  destruct (_ || _); [by apply suffix_cons_of | done].
Qed.

Lemma skip_decimal_suffix s : suffix (skip_decimal s) s.
Proof.
  unfold skip_decimal. etrans; [apply skip_exponent_suffix |].
  etrans; [| apply (suffix_skip_while digit_or_us)].
  destruct (skip_while digit_or_us s) as [|d s1]; [done|]. destruct (ch d "."); [|done].
  apply suffix_cons_of, suffix_skip_while.
Qed.

Lemma skip_number_suffix s : suffix (skip_number s) s.
Proof.
  unfold skip_number.
  destruct s as [|a [|b s2]]; [apply skip_decimal_suffix..|].
  destruct (_ && _); [do 2 apply suffix_cons_of; apply suffix_skip_while |].
  destruct (_ && _); [do 2 apply suffix_cons_of; apply suffix_skip_while |].
  apply skip_decimal_suffix.
Qed.

Create HintDb scan.
#[export] Hint Resolve suffix_cons_of suffix_skip_while suffix_drop_of skip_quoted_suffix
  skip_comment_suffix dollar_region_suffix skip_number_suffix suffix_nil : scan.
#[export] Hint Extern 1 (suffix ?x ?x) => reflexivity : scan.

Lemma suffix_le {A} (l k : list A) : suffix l k -> length l <= length k.
Proof. apply suffix_length. Qed.

Lemma consumed_app s rest : suffix rest s -> consumed s rest ++ rest = s.
Proof.
  intros [p ->]. unfold consumed. rewrite length_app.
  replace (length p + length rest - length rest) with (length p) by lia.
  by rewrite take_app_length.
Qed.

Lemma consumed_length s rest : suffix rest s -> length (consumed s rest) = length s - length rest.
Proof. intros H. unfold consumed. rewrite length_take. lia. Qed.

(** *** Masking *)
Lemma skip_line_cons c s : ch c newline = false -> skip_line (c :: s) = skip_line s.
Proof. intros H. unfold skip_line. simpl. by rewrite H. Qed.

Lemma ch_eq c d : ch c d = true -> c = d.
Proof. apply Ascii.eqb_eq. Qed.

(** One masking iteration: either one ordinary character is kept or a
    non-empty region is blanked. *)
Definition is_quote (c : ascii) : bool := ch c "'" || ch c "034" || ch c "`".

Lemma mask_step_spec c s1 written rest :
  mask_step c s1 = (written, rest) ->
  suffix rest s1 /\ length written = S (length s1) - length rest /\
  ((written = [c] /\ rest = s1 /\ is_quote c = false)
   \/ Forall (fun x => x = " "%char) written).
Proof.
  unfold mask_step, is_quote.
  assert (Hb : forall r, suffix r s1 -> (blanks (S (length s1) - length r), r) = (written, rest) ->
    suffix rest s1 /\ length written = S (length s1) - length rest /\
    ((written = [c] /\ rest = s1 /\ (ch c "'" || ch c "034" || ch c "`") = false)
     \/ Forall (fun x => x = " "%char) written)).
  { intros r Hr [= <- <-]. unfold blanks. split_and!; [done | by rewrite length_replicate |].
    right. apply Forall_replicate. done. }
  cbn [length]. destruct (ch c "-" && head_is "-" s1) eqn:E1.
  { apply Hb. apply andb_true_iff in E1 as [->%ch_eq _].
    rewrite skip_line_cons by done. apply suffix_skip_while. }
  destruct (ch c "/" && head_is "*" s1) eqn:E2.
  { apply Hb. etrans; [apply skip_comment_suffix | apply suffix_drop_of]. }
  destruct (ch c "'" || ch c "034" || ch c "`") eqn:E3.
  { apply Hb. apply skip_quoted_suffix. }
  destruct (if ch c "$" then dollar_region s1 else None) as [[[d b] r]|] eqn:E4.
  { destruct (ch c "$"); [|done]. apply Hb. eauto with scan. }
  intros [= <- <-]. split_and!; [done | simpl; lia | by left].
Qed.

(** Induction over the iterations of the masking loop. *)
Lemma mask_loop_ind (P : str -> str -> Prop) :
  P [] [] ->
  (forall c s1 written rest, mask_step c s1 = (written, rest) ->
     P rest (mask_loop (length rest) rest) ->
     P (c :: s1) (written ++ mask_loop (length rest) rest)) ->
  forall sql, P sql (maskLiteralRegions sql).
Proof.
  intros H0 HS sql. unfold maskLiteralRegions.
  assert (Hfuel : forall n s, length s <= n -> mask_loop n s = mask_loop (length s) s /\
                                                P s (mask_loop (length s) s)).
  { induction n as [n IH] using lt_wf_ind. intros s Hn. destruct s as [|c s1].
    - by destruct n.
    - destruct n as [|n]; [simpl in Hn; lia|]. cbn [mask_loop length].
      destruct (mask_step c s1) as [w r] eqn:E.
      pose proof (mask_step_spec _ _ _ _ E) as (Hs & _ & _). apply suffix_le in Hs.
      simpl in Hn.
      destruct (IH n ltac:(lia) r ltac:(lia)) as [E1 HP].
      destruct (IH (length s1) ltac:(lia) r ltac:(lia)) as [E2 _].
      rewrite E1, E2. split; [done | by apply HS]. }
  by apply (Hfuel (length sql) sql).
Qed.

Lemma maskLiteralRegions_length sql : length (maskLiteralRegions sql) = length sql.
Proof.
  apply (mask_loop_ind (fun s m => length m = length s)); [done|].
  intros c s1 w r E IH. apply mask_step_spec in E as (Hs%suffix_le & Hw & _).
  rewrite length_app, IH, Hw. simpl. lia.
Qed.

(** *** What is masked

    The regions of a statement by their grammar: a comment to the end of its line; a
    comment to its first closing marker; a quoted text, whose quote is escaped by a
    backslash or doubled; a text between two equal dollar delimiters. A comment in
    slashes or a quoted text that is never closed goes to the end. *)
Inductive quoted_text (q : ascii) : str -> Prop :=
  | qt_nil : quoted_text q []
  | qt_escape d s : quoted_text q s -> quoted_text q (backslash :: d :: s)
  | qt_double s : quoted_text q s -> quoted_text q (q :: q :: s)
  | qt_char c s : ch c backslash = false -> ch c q = false -> quoted_text q s -> quoted_text q (c :: s).
Definition dollar_delimiter (tag : str) : str := "$"%char :: tag ++ ["$"%char].
Inductive literal_region : str -> str -> Prop :=
  | lr_line body rest : forallb (fun c => negb (ch c newline)) body = true ->
      rest = [] \/ head_is newline rest = true -> literal_region (lit "--" ++ body) rest
  | lr_block body rest : str_find (lit "*/") (body ++ lit "*/" ++ rest) = Some (length body) ->
      literal_region (lit "/*" ++ body ++ lit "*/") rest
  | lr_block_open body : str_find (lit "*/") body = None -> literal_region (lit "/*" ++ body) []
  | lr_quoted q body rest : is_quote q = true -> quoted_text q body -> head_is q rest = false ->
      literal_region (q :: body ++ [q]) rest
  | lr_quoted_open q body tail : is_quote q = true -> quoted_text q body -> tail = [] \/ tail = [backslash] ->
      literal_region (q :: body ++ tail) []
  | lr_dollar tag body rest : forallb is_ident tag = true -> head_sat isdigit tag = false ->
      str_find (dollar_delimiter tag) (body ++ dollar_delimiter tag ++ rest) = Some (length body) ->
      literal_region (dollar_delimiter tag ++ body ++ dollar_delimiter tag) rest.
(** Regions are blanked, from left to right; what starts none stands as it is. *)
Inductive masked : str -> str -> Prop :=
  | mk_nil : masked [] []
  | mk_region r rest m : literal_region r rest -> masked rest m -> masked (r ++ rest) (blanks (length r) ++ m)
  | mk_char c s m : (forall r rest, c :: s = r ++ rest -> ~ literal_region r rest) ->
      masked s m -> masked (c :: s) (c :: m).

Lemma quote_not_backslash q : is_quote q = true -> ch backslash q = false.
Proof. by all_chars q. Qed.
Lemma skip_quoted_closed q body rest : is_quote q = true -> quoted_text q body -> head_is q rest = false ->
  skip_quoted q (body ++ q :: rest) = rest.
Proof.
  intros Hq Hb Hr. assert (ch q backslash = false) as Hqb by (by all_chars q).
  assert (ch q q = true) as Hqq by apply Ascii.eqb_refl.
  induction Hb as [|d s _ IH|s _ IH|c s H1 H2 _ IH]; cbn [app skip_quoted].
  - rewrite Hqb, Hqq. destruct rest as [|d rest]; [done|]. cbn [head_is] in Hr. by rewrite Hr.
  - replace (ch backslash backslash) with true by done. exact IH.
  - rewrite Hqb, Hqq. exact IH.
  - rewrite H1, H2. exact IH.
Qed.
Lemma skip_quoted_open q body tail : is_quote q = true -> quoted_text q body -> tail = [] \/ tail = [backslash] ->
  skip_quoted q (body ++ tail) = [].
Proof.
  intros Hq Hb Ht. assert (ch q backslash = false) as Hqb by (by all_chars q).
  assert (ch q q = true) as Hqq by apply Ascii.eqb_refl.
  induction Hb as [|d s _ IH|s _ IH|c s H1 H2 _ IH]; cbn [app skip_quoted].
  - by destruct Ht as [->| ->].
  - replace (ch backslash backslash) with true by done. exact IH.
  - rewrite Hqb, Hqq. exact IH.
  - rewrite H1, H2. exact IH.
Qed.
Lemma skip_quoted_reads q s : is_quote q = true ->
  exists body, quoted_text q body /\
    ((s = body ++ q :: skip_quoted q s /\ head_is q (skip_quoted q s) = false)
     \/ exists tail, s = body ++ tail /\ (tail = [] \/ tail = [backslash]) /\ skip_quoted q s = []).
Proof.
  intros Hq. assert (ch q q = true) as Hqq by apply Ascii.eqb_refl.
  induction s as [s IH] using (induction_ltof1 _ (@length ascii)). unfold ltof in IH.
  destruct s as [|c s1].
  { exists []. split; [constructor|]. right. exists []. auto. }
  cbn [skip_quoted]. destruct (ch c backslash) eqn:E1.
  - apply ch_eq in E1 as ->. destruct s1 as [|d s2].
    { exists []. split; [constructor|]. right. exists [backslash]. auto. }
    destruct (IH s2 ltac:(simpl; lia)) as (body & Hb & H). exists (backslash :: d :: body).
    split; [by constructor|]. destruct H as [[H1 H2]|(tail & H1 & H2 & H3)]; [left|right].
    + split; [|done]. cbn [app]. by rewrite <- H1.
    + exists tail. split; [|done]. cbn [app]. by rewrite <- H1.
  - destruct (ch c q) eqn:E2.
    + apply ch_eq in E2 as ->. destruct s1 as [|d s2].
      { exists []. split; [constructor|]. left. done. }
      destruct (ch d q) eqn:E3; [|exists []; split; [constructor | by left]].
      apply ch_eq in E3 as ->. destruct (IH s2 ltac:(simpl; lia)) as (body & Hb & H). exists (q :: q :: body).
      split; [by constructor|]. destruct H as [[H1 H2]|(tail & H1 & H2 & H3)]; [left|right].
      * split; [|done]. cbn [app]. by rewrite <- H1.
      * exists tail. split; [|done]. cbn [app]. by rewrite <- H1.
    + destruct (IH s1 ltac:(simpl; lia)) as (body & Hb & H). exists (c :: body).
      split; [by constructor|]. destruct H as [[H1 H2]|(tail & H1 & H2 & H3)]; [left|right].
      * split; [|done]. cbn [app]. by rewrite <- H1.
      * exists tail. split; [|done]. cbn [app]. by rewrite <- H1.
Qed.

(** Where the region that starts at [c :: s1] ends. *)
Definition region_end (c : ascii) (s1 : str) : option str :=
  if ch c "-" && head_is "-" s1 then Some (skip_line (c :: s1))
  else if ch c "/" && head_is "*" s1 then Some (skip_comment (drop 1 s1))
  else if is_quote c then Some (skip_quoted c s1)
  else if ch c "$" then snd <$> dollar_region s1 else None.
Lemma mask_step_end c s1 : mask_step c s1 =
  match region_end c s1 with
  | Some rest => (blanks (S (length s1) - length rest), rest)
  | None => ([c], s1)
  end.
Proof.
  unfold mask_step, region_end, is_quote. repeat (destruct (_ && _); [done|]). destruct (_ || _); [done|].
  destruct (ch c "$"); [|done]. by destruct (dollar_region s1) as [[[d b] r]|].
Qed.

Lemma str_find_cut p s k : str_find p s = Some k -> s = take k s ++ p ++ drop (k + length p) s.
Proof.
  intros H. apply str_find_Some in H as [H _]. apply prefixb_spec in H as [t H].
  rewrite <- (take_drop k s) at 1. f_equal. rewrite H. f_equal.
  rewrite <- drop_drop, H. by rewrite drop_app_length.
Qed.
Lemma find_length p s k : str_find p s = Some k -> length (take k s) = k.
Proof. intros H. apply str_find_Some in H as [_ H]. rewrite length_take. lia. Qed.
Lemma ident_span tag s : forallb is_ident tag = true -> head_sat is_ident s = false ->
  take_while is_ident (tag ++ s) = tag /\ skip_while is_ident (tag ++ s) = s.
Proof.
  intros Ht Hs. induction tag as [|c tag IH]; cbn in *.
  - destruct s as [|c s]; [done|]. cbn in *. by rewrite Hs.
  - apply andb_true_iff in Ht as [H1 H2]. rewrite H1. destruct (IH H2) as [-> ->]. done.
Qed.

Lemma comment_end_sound s : exists r, s = r ++ skip_comment s /\ literal_region (lit "/*" ++ r) (skip_comment s).
Proof.
  unfold skip_comment. destruct (str_find (lit "*/") s) as [k|] eqn:E.
  - exists (take k s ++ lit "*/"). pose proof (str_find_cut _ _ _ E) as Hs. change (length (lit "*/")) with 2 in Hs.
    split; [by rewrite <- app_assoc|]. constructor. rewrite <- Hs, (find_length _ _ _ E). done.
  - exists s. rewrite app_nil_r. split; [done|]. by constructor.
Qed.
Lemma dollar_end_sound s d b rest : dollar_region s = Some (d, b, rest) ->
  exists r, "$"%char :: s = r ++ rest /\ literal_region r rest.
Proof.
  unfold dollar_region. intros H. pose proof (take_skip_while is_ident s) as Hs.
  pose proof (take_while_all is_ident s) as Ht. set (tag := take_while is_ident s) in *.
  destruct (skip_while is_ident s) as [|c body]; [done|].
  destruct (ch c "$" && (is_nil tag || negb (head_sat isdigit tag))) eqn:E; [|done]. bool_prop.
  assert (c = "$"%char) as -> by (by apply ch_eq).
  change ("$"%char :: tag ++ ["$"%char]) with (dollar_delimiter tag) in H.
  destruct (str_find (dollar_delimiter tag) body) as [k|] eqn:Ef; [|done]. injection H as <- <- <-.
  pose proof (str_find_cut _ _ _ Ef) as Hb.
  change (S (length (tag ++ ["$"%char]))) with (length (dollar_delimiter tag)).
  exists (dollar_delimiter tag ++ take k body ++ dollar_delimiter tag). split.
  - rewrite <- (app_assoc (dollar_delimiter tag)), <- (app_assoc (take k body)), <- Hb, <- Hs.
    unfold dollar_delimiter. cbn. by rewrite <- app_assoc.
  - constructor.
    + apply forallb_forall. intros x Hx. rewrite Forall_forall in Ht. by apply Ht, list_elem_of_In.
    + by destruct tag; cbn in *; [|destruct (isdigit _)].
    + by rewrite <- Hb, (find_length _ _ _ Ef).
Qed.
Lemma region_end_sound c s1 rest : region_end c s1 = Some rest ->
  exists r, c :: s1 = r ++ rest /\ literal_region r rest.
Proof.
  unfold region_end. destruct (ch c "-" && head_is "-" s1) eqn:E1.
  { apply andb_true_iff in E1 as [->%ch_eq H2]. destruct s1 as [|d s2]; [done|]. apply ch_eq in H2 as ->.
    intros [= <-]. rewrite !skip_line_cons by done.
    destruct (skip_while_suffix (fun c => negb (ch c newline)) s2) as (p & E & Hp). exists (lit "--" ++ p). split.
    - cbn. unfold skip_line. by rewrite <- E.
    - constructor; [apply forallb_forall; intros x Hx; rewrite Forall_forall in Hp; by apply Hp, list_elem_of_In|].
      unfold skip_line. destruct (skip_while _ s2) as [|d s3] eqn:Es; [by left|right].
      apply skip_while_head in Es. by apply negb_false_iff in Es. }
  destruct (ch c "/" && head_is "*" s1) eqn:E2.
  { apply andb_true_iff in E2 as [->%ch_eq H2]. destruct s1 as [|d s2]; [done|]. apply ch_eq in H2 as ->.
    intros [= <-]. destruct (comment_end_sound s2) as (r & Hr & Hl). exists (lit "/*" ++ r).
    split; [|exact Hl]. rewrite <- app_assoc. change (drop 0 s2) with s2. by rewrite <- Hr. }
  destruct (is_quote c) eqn:E3.
  { intros [= <-]. destruct (skip_quoted_reads c s1 E3) as (body & Hb & [[H1 H2]|(tail & H1 & H2 & H3)]).
    - exists (c :: body ++ [c]). split; [cbn; rewrite <- app_assoc; cbn; by rewrite <- H1 | by constructor].
    - exists (c :: body ++ tail). rewrite H3, app_nil_r. split; [by rewrite <- H1 | by constructor]. }
  destruct (ch c "$") eqn:E4; [|done]. apply ch_eq in E4 as ->.
  destruct (dollar_region s1) as [[[d b] r]|] eqn:Ed; [|done]. intros [= <-]. by eapply dollar_end_sound.
Qed.
Lemma region_end_comment s : region_end "/" ("*"%char :: s) = Some (skip_comment s).
Proof. done. Qed.
Lemma region_end_dollar s : region_end "$" s = snd <$> dollar_region s.
Proof. done. Qed.
Lemma region_end_complete r rest c s1 : literal_region r rest -> c :: s1 = r ++ rest -> region_end c s1 = Some rest.
Proof.
  intros [body rest' Hb Hr|body rest' Hb|body Hb|q body rest' Hq Hb Hr|q body tail Hq Hb Ht|tag body rest' Ht Hd Hb] E.
  - injection E as -> ->. unfold region_end. cbn. unfold skip_line. cbn. f_equal.
    rewrite skip_while_app_all by (apply Forall_forall; intros x Hx; rewrite forallb_forall in Hb; by apply Hb, list_elem_of_In).
    destruct Hr as [->|Hr]; [done|]. destruct rest' as [|d rest']; [done|]. cbn in *. by rewrite Hr.
  - rewrite <- !app_assoc in E. assert (c = "/"%char /\ s1 = "*"%char :: body ++ lit "*/" ++ rest') as [-> ->] by (by injection E).
    rewrite region_end_comment. unfold skip_comment. rewrite Hb. f_equal. by rewrite <- drop_drop, drop_app_length.
  - rewrite app_nil_r in E. injection E as -> ->. rewrite region_end_comment. unfold skip_comment. by rewrite Hb.
  - rewrite <- app_comm_cons, <- app_assoc in E. injection E as -> ->. cbn [app].
    assert (region_end q (body ++ q :: rest') = Some (skip_quoted q (body ++ q :: rest'))) as ->
      by (unfold region_end; rewrite Hq; revert Hq; by all_chars q).
    by rewrite skip_quoted_closed.
  - rewrite app_nil_r in E. injection E as -> ->.
    assert (region_end q (body ++ tail) = Some (skip_quoted q (body ++ tail))) as ->
      by (unfold region_end; rewrite Hq; revert Hq; by all_chars q).
    by rewrite skip_quoted_open.
  - assert (c = "$"%char /\ s1 = tag ++ "$"%char :: body ++ dollar_delimiter tag ++ rest') as [-> ->].
    { rewrite <- !app_assoc in E. unfold dollar_delimiter at 1 in E. rewrite <- app_comm_cons, <- app_assoc in E.
      by injection E. }
    rewrite region_end_dollar. unfold dollar_region.
    destruct (ident_span tag ("$"%char :: body ++ dollar_delimiter tag ++ rest') Ht eq_refl) as [-> ->].
    rewrite Hd, orb_true_r. change ("$"%char :: tag ++ ["$"%char]) with (dollar_delimiter tag).
    change (ch "$" "$") with true. cbn [andb]. rewrite Hb. cbn [fmap option_fmap option_map snd]. f_equal.
    by rewrite <- drop_drop, !drop_app_length.
Qed.

(** C30: masking blanks exactly the literal regions of a statement: comments to the end
    of the line, comments in slashes to their first closing marker, texts in any of the
    three quotes with escaped and doubled quotes inside, and dollar-quoted texts between
    equal delimiters; every other character stands, all at their positions. *)
Theorem maskLiteralRegions_spec sql m : maskLiteralRegions sql = m <-> masked sql m.
Proof.
  assert (masked sql (maskLiteralRegions sql)) as Hsound.
  { apply (mask_loop_ind masked); [constructor|]. intros c s1 w rest E IH. rewrite mask_step_end in E.
    destruct (region_end c s1) as [rest'|] eqn:Er; injection E as <- <-.
    - apply region_end_sound in Er as (r & Es & Hr). rewrite Es.
      replace (S (length s1) - length rest') with (length r); [by constructor|].
      apply (f_equal length) in Es. rewrite length_app in Es. simpl in Es. lia.
    - constructor; [|done]. intros r rest Es Hr. by rewrite (region_end_complete _ _ _ _ Hr Es) in Er. }
  split; [by intros <-|]. intros H.
  assert (forall m', masked sql m' -> m = m') as Hdet; [|symmetry; by apply Hdet].
  clear Hsound. induction H as [|r rest m Hr _ IH|c s m Hn _ IH]; intros m' H'.
  - inversion H' as [|r rest ? Hr _ E|]; [done|]. subst. destruct r; [|done]. by inversion Hr.
  - assert (exists c s1, c :: s1 = r ++ rest) as (c & s1 & Es).
    { destruct r as [|c r]; [by inversion Hr | by exists c, (r ++ rest)]. }
    pose proof (region_end_complete _ _ _ _ Hr Es) as E1.
    rewrite <- Es in H'. inversion H' as [|r' rest' m2 Hr' Hm E2 E3|c' s' m2 Hn Hm]; subst.
    + pose proof (region_end_complete _ _ _ _ Hr' (eq_sym E2)) as E3. rewrite E1 in E3. injection E3 as <-.
      rewrite (IH _ Hm). f_equal. rewrite Es in E2. apply app_inv_tail in E2 as ->. done.
    + exfalso. by apply (Hn r rest).
  - inversion H' as [|r rest m2 Hr Hm E|c' s' m2 _ Hm]; subst.
    + exfalso. by apply (Hn r rest).
    + by rewrite (IH _ Hm).
Qed.

(** *** Parenthesis depth and the detectors *)

(** The depth counter of the detector loops after reading [s]. *)
Definition depth_step (d : nat) (c : ascii) : nat :=
  if ch c "(" then S d else if ch c ")" then pred d else d.
Definition paren_depth (d : nat) (s : str) : nat := fold_left depth_step s d.

Definition last_or (prev : option ascii) (s : str) : option ascii :=
  match last s with Some c => Some c | None => prev end.

Lemma last_or_cons prev c s : last_or prev (c :: s) = last_or (Some c) s.
Proof. unfold last_or. destruct s as [|d s]; [done|]. rewrite last_cons_cons. by destruct (last_is_Some (d :: s)) as [_ [x ->]]. Qed.

Lemma prefix_ci_length kw s : prefix_ci kw s = true -> length kw <= length s.
Proof.
  revert s. induction kw as [|k kw IH]; intros [|c s]; simpl; try done; try lia.
  intros [_ H]%andb_true_iff. apply IH in H. lia.
Qed.

Lemma prefix_ci_head_alpha k kw c s :
  isalpha k = true -> prefix_ci (k :: kw) (c :: s) = true -> ch c "(" = false /\ ch c ")" = false.
Proof.
  intros Hk [H%ch_eq _]%andb_true_iff.
  assert (Ha : isalpha (toupper k) = true) by (revert Hk; all_chars k).
  rewrite <- H in Ha. revert Ha. all_chars c.
Qed.

(** [A <-> A \/ _] where the right disjunct is contradictory. *)
Ltac or_drop := split; [by left | by intros [?|[? ?]]].

Section TopLevelKeyword.
Context (k : ascii) (kw' : str) (Hk : isalpha k = true).
Let kw := k :: kw'.

Lemma top_keyword_loop_spec d prev s :
    top_keyword_loop kw d prev s = true <->
    exists p t, s = p ++ t /\ paren_depth d p = 0 /\ matchWordAt (last_or prev p) t kw = true.
Proof.
    revert d prev. induction s as [|c s IH]; intros d prev.
    { split; [done|]. intros (p & t & E & _ & H). destruct p, t; try done. }
    assert (Hsplit : forall d', depth_step d c = d' ->
      ((exists p t, s = p ++ t /\ paren_depth d' p = 0 /\ matchWordAt (last_or (Some c) p) t kw = true)
       \/ (d = 0 /\ matchWordAt prev (c :: s) kw = true) <->
       exists p t, c :: s = p ++ t /\ paren_depth d p = 0 /\ matchWordAt (last_or prev p) t kw = true)).
    { intros d' Hd. split.
      - intros [(p & t & -> & H1 & H2)|[-> H]].
        + exists (c :: p), t. rewrite last_or_cons. simpl. rewrite Hd. done.
        + by exists [], (c :: s).
      - intros ([|c' p] & t & E & H1 & H2).
        + right. simpl in *. subst. done.
        + left. injection E as -> ->. rewrite last_or_cons in H2. simpl in H1.
          rewrite Hd in H1. eauto 10. }
    assert (Hm : matchWordAt prev (c :: s) kw = true -> ch c "(" = false /\ ch c ")" = false).
    { unfold matchWordAt. intros [[H _]%andb_true_iff _]%andb_true_iff.
      by apply (prefix_ci_head_alpha k kw' c s). }
    cbn [top_keyword_loop].
    destruct (length (c :: s) <? length kw) eqn:El.
    { split; [done|]. intros (p & t & E & _ & H). bool_prop.
      unfold matchWordAt in H. bool_prop.
      apply (f_equal length) in E. rewrite length_app in E.
      match goal with H : prefix_ci _ _ = true |- _ => apply prefix_ci_length in H end. lia. }
    unfold depth_step in Hsplit.
    destruct (ch c "(") eqn:E1; [|destruct (ch c ")") eqn:E2].
    - rewrite IH, <- (Hsplit _ eq_refl). split; [by left|]. intros [?|[_ ?]]; [done|].
      by destruct (Hm).
    - rewrite IH, <- (Hsplit _ eq_refl). split; [by left|]. intros [?|[_ ?]]; [done|].
      by destruct (Hm).
    - destruct d as [|d]; simpl.
      + destruct (matchWordAt prev (c :: s) kw) eqn:E3.
        * rewrite <- (Hsplit _ eq_refl). split; [|done]. by right.
        * rewrite IH, <- (Hsplit _ eq_refl). split; [by left|]. by intros [?|[_ ?]].
      + rewrite IH, <- (Hsplit _ eq_refl). split; [by left|]. by intros [?|[? _]].
  Qed.
End TopLevelKeyword.

(** [containsTopLevelKeyword] answers true exactly when the text holds the
    keyword as a whole word (case folded) at parenthesis depth 0. *)
Theorem containsTopLevelKeyword_spec masked k kw (Hk : isalpha k = true) :
  containsTopLevelKeyword masked (k :: kw) = true <->
  exists left right, masked = left ++ right /\ paren_depth 0 left = 0
    /\ matchWordAt (last left) right (k :: kw) = true.
Proof.
  unfold containsTopLevelKeyword. rewrite top_keyword_loop_spec by done.
  unfold last_or. split; intros (p & t & ? & ? & H); exists p, t; split_and!; try done.
  - by destruct (last p).
  - by destruct (last p).
Qed.

Lemma containsTopLevelKeyword_spec_witness :
  containsTopLevelKeyword (lit "DELETE FROM t WHERE a = 1") (lit "WHERE") = true <->
  exists left right, lit "DELETE FROM t WHERE a = 1" = left ++ right /\ paren_depth 0 left = 0
    /\ matchWordAt (last left) right (lit "WHERE") = true.
Proof. apply containsTopLevelKeyword_spec. reflexivity. Defined.

(** A character that starts a further statement: not white space, not a
    separator, not a parenthesis. *)
Definition starts_statement (c : ascii) : bool :=
  negb (isspace c) && negb (ch c ";") && negb (ch c "(") && negb (ch c ")").

Lemma multi_loop_ended d s :
  multi_loop d true s = true <->
  exists p x t, s = p ++ x :: t /\ paren_depth d p = 0 /\ starts_statement x = true.
Proof.
  revert d. induction s as [|c s IH]; intros d; cbn [multi_loop].
  { split; [done|]. by intros ([] & x & t & E & _). }
  assert (Hsplit : forall d', depth_step d c = d' ->
    ((exists p x t, s = p ++ x :: t /\ paren_depth d' p = 0 /\ starts_statement x = true)
     \/ (d = 0 /\ starts_statement c = true) <->
     exists p x t, c :: s = p ++ x :: t /\ paren_depth d p = 0 /\ starts_statement x = true)).
  { intros d' Hd. split.
    - intros [(p & x & t & -> & H1 & H2)|[-> H]].
      + exists (c :: p), x, t. simpl. by rewrite Hd.
      + by exists [], c, s.
    - intros ([|c' p] & x & t & E & H1 & H2); injection E as -> ->.
      + by right.
      + left. simpl in H1. rewrite Hd in H1. eauto 10. }
  unfold depth_step in Hsplit. unfold starts_statement in Hsplit at 2.
  destruct (ch c "(") eqn:E1; [|destruct (ch c ")") eqn:E2].
  - rewrite IH, <- (Hsplit _ eq_refl), ?andb_false_r. or_drop.
  - rewrite IH, <- (Hsplit _ eq_refl), ?andb_false_r. or_drop.
  - destruct d as [|d]; simpl.
    + destruct (ch c ";"); [|destruct (isspace c); simpl].
      * rewrite IH, <- (Hsplit _ eq_refl), ?andb_false_r. or_drop.
      * rewrite IH, <- (Hsplit _ eq_refl). or_drop.
      * rewrite <- (Hsplit _ eq_refl). split; [by right | done].
    + rewrite IH, <- (Hsplit _ eq_refl). or_drop.
Qed.

Lemma multi_loop_fresh d s :
  multi_loop d false s = true <->
  exists p b x t, s = p ++ ";"%char :: b ++ x :: t /\ paren_depth d p = 0
    /\ paren_depth 0 b = 0 /\ starts_statement x = true.
Proof.
  revert d. induction s as [|c s IH]; intros d; cbn [multi_loop].
  { split; [done|]. by intros ([] & b & x & t & E & _). }
  assert (Hstep : forall d', depth_step d c = d' -> ch c ";" = false \/ d <> 0 ->
    ((exists p b x t, s = p ++ ";"%char :: b ++ x :: t /\ paren_depth d' p = 0
        /\ paren_depth 0 b = 0 /\ starts_statement x = true) <->
     exists p b x t, c :: s = p ++ ";"%char :: b ++ x :: t /\ paren_depth d p = 0
        /\ paren_depth 0 b = 0 /\ starts_statement x = true)).
  { intros d' Hd Hc. split.
    - intros (p & b & x & t & -> & H1 & H2). exists (c :: p), b, x, t. simpl. by rewrite Hd.
    - intros ([|c' p] & b & x & t & E & H1 & H2); injection E as -> ->.
      + by destruct Hc.
      + simpl in H1. rewrite Hd in H1. eauto 10. }
  unfold depth_step in Hstep.
  destruct (ch c "(") eqn:E1.
  { rewrite IH. apply Hstep; [done|]. apply ch_eq in E1 as ->. by left. }
  destruct (ch c ")") eqn:E2.
  { rewrite IH. apply Hstep; [done|]. apply ch_eq in E2 as ->. by left. }
  destruct d as [|d]; simpl; [|rewrite IH; apply Hstep; [done | by right]].
  destruct (ch c ";") eqn:E3; [|rewrite IH; apply Hstep; [done | by left]].
  apply ch_eq in E3 as ->. rewrite multi_loop_ended. split.
  - intros (b & x & t & -> & H1 & H2). by exists [], b, x, t.
  - intros ([|c' p] & b & x & t & E & H1 & H2 & H3).
    { injection E as ->. eauto 10. }
    injection E as <- ->.
    exists (p ++ ";"%char :: b), x, t. rewrite <- app_assoc. split_and!; [done | | done].
    unfold paren_depth in *. change (fold_left depth_step p 0 = 0) in H1.
    by rewrite fold_left_app, H1.
Qed.

(** [hasMultipleStatements] answers true exactly when the masked text has
    a separator at depth 0 followed, later and again at depth 0, by a character
    that starts another statement. *)
Theorem hasMultipleStatements_spec sql :
  hasMultipleStatements sql false = true <->
  exists first between x rest,
    maskLiteralRegions sql = first ++ ";"%char :: between ++ x :: rest
    /\ paren_depth 0 first = 0 /\ paren_depth 0 between = 0 /\ starts_statement x = true.
Proof. unfold hasMultipleStatements. simpl. apply multi_loop_fresh. Qed.

(** the block masker does not count [IF (] as opening a block but counts
    its [END IF] as closing one, so a routine whose body holds a parenthesised
    [IF] is reported as several statements, while the same routine without the
    parentheses is not. *)
Theorem routine_if_paren_reported :
  hasMultipleStatements
    (lit "CREATE PROCEDURE p() BEGIN IF (a) THEN SET b=1; END IF; SET c=1; END") true = true
  /\ hasMultipleStatements
    (lit "CREATE PROCEDURE p() BEGIN IF a THEN SET b=1; END IF; SET c=1; END") true = false.
Proof. split; vm_compute; reflexivity. Qed.

(** *** Structural templates *)
Lemma skip_exponent_no_exp s : head_sat (fun c => ch c "e" || ch c "E") s = false ->
  skip_exponent s = s.
Proof. destruct s as [|c s]; [done|]. simpl. intros H. unfold skip_exponent. by rewrite H. Qed.

Lemma skip_while_cons f c s : skip_while f (c :: s) = if f c then skip_while f s else c :: s.
Proof. done. Qed.

Lemma skip_decimal_progress c s : plain_number c s = true -> suffix (skip_decimal (c :: s)) s.
Proof.
  intros H. unfold skip_decimal. rewrite skip_while_cons.
  etrans; [apply skip_exponent_suffix |].
  destruct (digit_or_us c) eqn:E.
  - etrans; [| apply (suffix_skip_while digit_or_us)].
    destruct (skip_while digit_or_us s) as [|d s1]; [done|]. destruct (ch d "."); [|done].
    apply suffix_cons_of, suffix_skip_while.
  - unfold plain_number in H. unfold digit_or_us in E.
    destruct (isdigit c); [done|]. simpl in H. apply andb_true_iff in H as [H _].
    rewrite H. apply suffix_skip_while.
Qed.

Lemma skip_number_progress c s : plain_number c s = true -> suffix (skip_number (c :: s)) s.
Proof.
  intros H. unfold skip_number. destruct s as [|b s2]; [by apply skip_decimal_progress|].
  destruct (_ && _); [apply suffix_cons_of, suffix_skip_while |].
  destruct (_ && _); [apply suffix_cons_of, suffix_skip_while |].
  by apply skip_decimal_progress.
Qed.

(** Every iteration reads at least one character. *)
Lemma structural_step_progress prev c s1 out pending rest out' pending' :
  structural_step prev c s1 out pending = (rest, out', pending') -> suffix rest s1.
Proof.
  unfold structural_step.
  destruct (isspace c); [by intros [= <- _ _]|].
  destruct (ch c "-" && _) eqn:E1.
  { intros [= <- _ _]. apply andb_true_iff in E1 as [->%ch_eq _].
    rewrite skip_line_cons by done. apply suffix_skip_while. }
  destruct (ch c "/" && _).
  { destruct (_ || _); intros [= <- _ _];
      (etrans; [apply skip_comment_suffix | apply suffix_drop_of]). }
  destruct (if ch c "$" then dollar_region s1 else None) as [[[d b] r]|] eqn:E2.
  { intros [= <- _ _]. destruct (ch c "$"); [|done]. eauto with scan. }
  destruct (ch c "'"); [intros [= <- _ _]; apply skip_quoted_suffix |].
  destruct (_ || _); [intros [= <- _ _]; apply skip_quoted_suffix |].
  destruct (boundary prev && _) eqn:E3; [|by intros [= <- _ _]].
  intros [= <- _ _]. destruct (signed_number c s1) eqn:E4; [apply skip_number_suffix |].
  bool_prop. rewrite orb_false_r in *. by apply skip_number_progress.
Qed.

Lemma structural_loop_enough fuel prev s out pending :
  length s <= fuel ->
  structural_loop fuel prev s out pending = structural_loop (length s) prev s out pending.
Proof.
  revert prev s out pending. induction fuel as [fuel IH] using lt_wf_ind.
  intros prev s out pending Hfuel. destruct s as [|c s1]; [by destruct fuel|].
  destruct fuel as [|fuel]; simpl in Hfuel; [lia|]. cbn [structural_loop length].
  destruct (structural_step prev c s1 out pending) as [[rest out'] p'] eqn:E.
  apply structural_step_progress, suffix_le in E.
  rewrite (IH fuel) by lia. symmetry. apply IH; lia.
Qed.

(** The unfolding of the loop at a non-empty suffix. *)
Lemma structural_loop_cons prev c s1 out pending rest out' p' :
  structural_step prev c s1 out pending = (rest, out', p') ->
  structural_loop (length (c :: s1)) prev (c :: s1) out pending =
  structural_loop (length rest) (before prev (c :: s1) rest) rest out' p'.
Proof.
  intros E. cbn [structural_loop length]. rewrite E.
  apply structural_step_progress, suffix_le in E. by apply structural_loop_enough.
Qed.

(** the template scanner terminates within its fuel: every fuel of at
    least the length of the statement computes its template, so no part of
    the statement is left unread. *)
Theorem structuralTemplate_total fuel sql (Hfuel : length sql <= fuel) :
  structural_loop fuel None sql [] false = structuralTemplate sql.
Proof. by apply structural_loop_enough. Qed.

Lemma structuralTemplate_total_witness :
  structural_loop 99 None (lit "a = 'x'") [] false = structuralTemplate (lit "a = 'x'").
Proof. apply structuralTemplate_total. vm_compute. lia. Defined.

(** Characters the scanner copies (or folds into a space) one at a time: no
    quote, comment, dollar or number can start at them. *)
Definition number_char (c : ascii) : bool := isdigit c || ch c "." || ch c "+".
Definition plain_at (prev : option ascii) (c : ascii) : bool :=
  negb (is_quote c) && negb (ch c "-") && negb (ch c "/") && negb (ch c "$")
  && (negb (number_char c) || negb (boundary prev)).
Fixpoint plain_prefix (prev : option ascii) (s : str) : bool :=
  match s with
  | [] => true
  | c :: s1 => plain_at prev c && plain_prefix (Some c) s1
  end.

Lemma before_cons prev c s1 : before prev (c :: s1) s1 = Some c.
Proof.
  unfold before, consumed. cbn [length].
  by replace (S (length s1) - length s1) with 1 by lia.
Qed.

(** Rewrite with the known outcomes of tests on [c]. *)
Ltac use_tests c :=
  repeat match goal with
  | H : ch c ?d = _ |- context [ch c ?d] => rewrite H
  | H : isdigit c = _ |- context [isdigit c] => rewrite H
  end.

(** One step on a plain character does not look at what follows it. *)
Lemma structural_step_plain prev c out pending :
  plain_at prev c = true ->
  exists out' p', forall s1, structural_step prev c s1 out pending = (s1, out', p').
Proof.
  unfold plain_at, is_quote, number_char. intros H. bool_prop.
  unfold structural_step.
  destruct (isspace c); [eauto|].
  use_tests c. simpl.
  exists (flushSpace out pending ++ [c]), false. intros s1.
  destruct (boundary prev) eqn:Eb; [|done]. simpl in *.
  rewrite orb_false_r in *. unfold plain_number, signed_number. bool_prop.
  use_tests c. done.
Qed.

Lemma structural_loop_plain p prev out pending :
  plain_prefix prev p = true ->
  exists out' p', forall t,
    structural_loop (length (p ++ t)) prev (p ++ t) out pending =
    structural_loop (length t) (last_or prev p) t out' p'.
Proof.
  revert prev out pending. induction p as [|c p IH]; intros prev out pending H.
  - exists out, pending. intros t. done.
  - apply andb_true_iff in H as [Hc Hp].
    destruct (structural_step_plain prev c out pending Hc) as (o1 & p1 & E1).
    destruct (IH (Some c) o1 p1 Hp) as (o2 & p2 & E2).
    exists o2, p2. intros t. rewrite last_or_cons, <- E2. cbn [app].
    by rewrite (structural_loop_cons _ _ _ _ _ _ _ _ (E1 (p ++ t))), before_cons.
Qed.

(** The text of a literal without quotes or backslashes. *)
Definition literal_char (c : ascii) : bool := negb (ch c "'") && negb (ch c backslash).

Lemma skip_quoted_literal x t :
  forallb literal_char x = true -> head_is "'" t = false ->
  skip_quoted "'" (x ++ "'"%char :: t) = t.
Proof.
  intros Hx Ht. induction x as [|c x IH].
  - cbn [app]. rewrite skip_quoted_cons. by rewrite Ht.
  - apply andb_true_iff in Hx as [Hc Hx]. unfold literal_char in Hc. bool_prop.
    cbn [app]. rewrite skip_quoted_cons.
    use_tests c. by apply IH.
Qed.

Lemma structural_loop_literal prev x t out pending :
  forallb literal_char x = true -> head_is "'" t = false ->
  structural_loop (length ("'"%char :: x ++ "'"%char :: t)) prev ("'"%char :: x ++ "'"%char :: t)
    out pending =
  structural_loop (length t) (Some "'"%char) t (flushSpace out pending ++ lit "?") false.
Proof.
  intros Hx Ht. erewrite structural_loop_cons; [|reflexivity].
  rewrite (skip_quoted_literal x t) by done. f_equal.
  unfold before, consumed.
  replace ("'"%char :: x ++ "'"%char :: t) with (("'"%char :: x ++ ["'"%char]) ++ t)
    by (cbn [app]; by rewrite <- app_assoc).
  rewrite length_app, Nat.add_sub, take_app_length, app_comm_cons, last_snoc. done.
Qed.

(** statements that differ only in the text of a string literal have the
    same structural template, hence the same fingerprint: the audit lists, the
    rate limiter and the slow-SQL statistics see them as one statement. *)
Theorem template_literal_independent pre x y post
  (Hpre : plain_prefix None pre = true)
  (Hx : forallb literal_char x = true) (Hy : forallb literal_char y = true)
  (Hpost : head_is "'" post = false) :
  let stmt text := pre ++ "'"%char :: text ++ "'"%char :: post in
  structuralTemplate (stmt x) = structuralTemplate (stmt y)
  /\ fingerprintTemplate (stmt x) = fingerprintTemplate (stmt y).
Proof.
  intros stmt. assert (structuralTemplate (stmt x) = structuralTemplate (stmt y)) as E.
  { unfold structuralTemplate, buildStructural, stmt.
    destruct (structural_loop_plain pre None [] false Hpre) as (o & p & H).
    by rewrite !H, !structural_loop_literal. }
  split; [done | exact (f_equal fnv1a E)].
Qed.

Lemma template_literal_independent_witness :
  let stmt text := lit "SELECT t1.c FROM t1 WHERE a = " ++ "'"%char :: text ++ "'"%char
                     :: lit " AND b = 5" in
  structuralTemplate (stmt (lit "bob")) = structuralTemplate (stmt (lit "x; -- y"))
  /\ fingerprintTemplate (stmt (lit "bob")) = fingerprintTemplate (stmt (lit "x; -- y")).
Proof. apply template_literal_independent; reflexivity. Defined.
