(* ===== verification/SqlAuditor.v ===== *)
(** * SQL auditing

    Models [src/core/sql_auditor.cpp]: the policy built from the
    configuration, the verdicts and the counters. The policy pointer and the
    three counters are the state; a check is a state transformer. Logging is
    left out. *)
From stdpp Require Import base gmap sets list strings.
From Stdlib Require Import Ascii ZArith Lia.
From S2P Require Import Prelude Types Config SqlAnalyze.

Record Policy := mkPolicy {
  pl_block : bool;
  pl_log_blocked : bool;
  pl_block_no_where_dml : bool;
  pl_require_limit_select : bool;
  pl_enforce_read_only : bool;
  pl_blacklist : gset Z;
  pl_whitelist : gset Z;
  pl_needsFingerprint : bool;
  pl_needsKind : bool;
}.

Record SqlAuditStats := mkAuditStats { as_checked : Z; as_warned : Z; as_blocked : Z }.

Record SqlAuditorState := mkAuditor {
  sa_enabled : bool;
  sa_policy : option Policy;
  sa_stats : SqlAuditStats;
}.

Definition auditor_init : SqlAuditorState := mkAuditor false None (mkAuditStats 0 0 0).

Definition set_empty (s : gset Z) : bool := bool_decide (s = ∅).

Definition make_policy (cfg : SqlAuditConfig) : Policy :=
  let blacklist := list_to_set (au_blacklist_fingerprints cfg) : gset Z in
  let whitelist := list_to_set (au_whitelist_fingerprints cfg) : gset Z in
  mkPolicy (str_eqb (au_action cfg) (lit "block")) (au_log_blocked cfg)
    (au_block_no_where_dml cfg) (au_require_limit_select cfg) (au_enforce_read_only cfg)
    blacklist whitelist
    (negb (set_empty blacklist) || negb (set_empty whitelist))
    (au_enforce_read_only cfg || au_block_no_where_dml cfg || au_require_limit_select cfg).

Definition auditor_configure (cfg : SqlAuditConfig) (st : SqlAuditorState) : SqlAuditorState :=
  mkAuditor (au_enabled cfg) (Some (make_policy cfg)) (sa_stats st).

(** [fetch_add(1)] on a 64-bit counter. *)
Definition bump (n : Z) : Z := u64 (n + 1).

Definition bump_checked (s : SqlAuditStats) : SqlAuditStats :=
  mkAuditStats (bump (as_checked s)) (as_warned s) (as_blocked s).

Definition verdict (block : bool) (reason : string) (s : SqlAuditStats) : Status * SqlAuditStats :=
  if block
  then (status_error SqlBlocked (lit reason),
        mkAuditStats (as_checked s) (as_warned s) (bump (as_blocked s)))
  else (StatusOK, mkAuditStats (as_checked s) (bump (as_warned s)) (as_blocked s)).

Definition mem (fp : Z) (s : gset Z) : bool := bool_decide (fp ∈ s).

(** The checks of [SqlAuditorState::check] against a loaded policy, in order:
    the verdict they give, or none. *)
Definition policy_check (p : Policy) (sql : str) (type : OperationType) (readOnly : bool)
  : option (bool * string) :=
  if hasMultipleStatements sql true then
    Some (pl_block p, "multiple SQL statements are not allowed")
  else
    let fp := fingerprintTemplate sql in
    if pl_needsFingerprint p && negb (set_empty (pl_whitelist p)) && negb (mem fp (pl_whitelist p))
    then Some (true, "SQL not in audit whitelist")
    else if pl_needsFingerprint p && mem fp (pl_blacklist p)
    then Some (true, "SQL in audit blacklist")
    else if negb (pl_needsKind p) then None
    else
      let kind := classifyStatement sql in
      if pl_enforce_read_only p && readOnly && isWrite kind
      then Some (pl_block p, "write on read-only datasource")
      else if pl_block_no_where_dml p && bool_decide (kind = KUpdate \/ kind = KDelete)
              && negb (hasWhereClause sql)
      then Some (pl_block p, "UPDATE/DELETE without WHERE clause")
      else
        let isCursor := bool_decide (type = OpSelect) in
        if pl_require_limit_select p && negb isCursor && bool_decide (kind = KSelect)
           && negb (hasRowLimitClause sql)
        then Some (pl_block p, "SELECT without LIMIT clause")
        else None.

Definition check (sql : str) (type : OperationType) (readOnly : bool) (st : SqlAuditorState)
  : Status * SqlAuditorState :=
  if negb (sa_enabled st) then (StatusOK, st)
  else match sa_policy st with
       | None => (StatusOK, st)
       | Some p =>
           let stats := bump_checked (sa_stats st) in
           match policy_check p sql type readOnly with
           | Some (block, reason) =>
               let '(status, stats) := verdict block reason stats in
               (status, mkAuditor (sa_enabled st) (sa_policy st) stats)
           | None => (StatusOK, mkAuditor (sa_enabled st) (sa_policy st) stats)
           end
       end.

(** ** Theorems *)

(** Everything a check can do to the counters. *)
Definition check_effect (st : SqlAuditorState) (r : Status * SqlAuditorState) : Prop :=
  let s := sa_stats st in
  let s' := sa_stats (snd r) in
  sa_enabled (snd r) = sa_enabled st /\ sa_policy (snd r) = sa_policy st /\
  ((st_ok (fst r) = true /\ s' = s)
   \/ (as_checked s' = bump (as_checked s) /\
       ((st_ok (fst r) = true /\ as_blocked s' = as_blocked s
         /\ (as_warned s' = as_warned s \/ as_warned s' = bump (as_warned s)))
        \/ (st_code (fst r) = SqlBlocked /\ as_blocked s' = bump (as_blocked s)
            /\ as_warned s' = as_warned s)))).

(** a check leaves the policy alone and either counts nothing, or counts
    the statement once as checked and at most once as warned or blocked;
    a statement is refused, with [SqlBlocked], exactly when the blocked counter
    moves. *)
Theorem check_counts sql type readOnly st : check_effect st (check sql type readOnly st).
Proof.
  unfold check_effect, check.
  destruct (sa_enabled st) eqn:Ee; simpl; [|split; [done|split; [done|by left]]].
  destruct (sa_policy st) as [p|] eqn:Ep; simpl; [|split; [done|split; [done|by left]]].
  destruct (policy_check p sql type readOnly) as [[[] reason]|]; simpl;
    (split; [done|]; split; [done|]; right; split; [done|]); [right|left|left]; eauto 10.
Qed.

(** A configuration that blocks. *)
Definition blocking (cfg : SqlAuditConfig) : bool := str_eqb (au_action cfg) (lit "block").

Lemma check_configured cfg st sql type ro :
  au_enabled cfg = true ->
  fst (check sql type ro (auditor_configure cfg st)) =
  match policy_check (make_policy cfg) sql type ro with
  | Some (true, reason) => status_error SqlBlocked (lit reason)
  | _ => StatusOK
  end.
Proof.
  intros E. unfold check, auditor_configure. simpl. rewrite E. simpl.
  by destruct (policy_check _ _ _ _) as [[[] ?]|].
Qed.

(** What a blocking policy that gives no blocking verdict has established. *)
Lemma policy_check_allowed p sql type ro :
  pl_block p = true ->
  match policy_check p sql type ro with Some (true, _) => False | _ => True end ->
  hasMultipleStatements sql true = false /\ (pl_needsKind p = true ->
   pl_enforce_read_only p && ro && isWrite (classifyStatement sql) = false /\ pl_block_no_where_dml p
     && bool_decide (classifyStatement sql = KUpdate \/ classifyStatement sql = KDelete)
     && negb (hasWhereClause sql) = false).
Proof.
  intros Hb. unfold policy_check. rewrite Hb.
  destruct (hasMultipleStatements sql true); [done|].
  repeat (split_if; try done); intros _; (split; [done|]); intros Hk; try done;
    rewrite Hk in *; done.
Qed.

Lemma check_allowed cfg st sql type ro :
  au_enabled cfg = true -> blocking cfg = true ->
  st_ok (fst (check sql type ro (auditor_configure cfg st))) = true ->
  match policy_check (make_policy cfg) sql type ro with Some (true, _) => False | _ => True end.
Proof.
  intros He _. rewrite check_configured by done.
  destruct (policy_check _ _ _ _) as [[[] reason]|]; done.
Qed.

(** with action "block" and read-only enforcement, a single statement that
    is allowed through on a read-only data source is a read: its kind is
    [Select]. *)
Theorem read_only_enforced cfg st sql type
  (Hen : au_enabled cfg = true) (Hblock : blocking cfg = true)
  (Hro : au_enforce_read_only cfg = true)
  (Hok : st_ok (fst (check sql type true (auditor_configure cfg st))) = true) :
  hasMultipleStatements sql true = false /\ isWrite (classifyStatement sql) = false.
Proof.
  apply check_allowed, policy_check_allowed in Hok as [H1 H2]; [|done..]. split; [done|].
  destruct H2 as [H2 _]; [simpl; by rewrite Hro|]. simpl in H2. by rewrite Hro in H2.
Qed.

Definition blocking_config : SqlAuditConfig :=
  mkSqlAuditConfig true (lit "block") true false true true [] [].

Lemma read_only_enforced_witness :
  hasMultipleStatements (lit "SELECT 1") true = false
  /\ isWrite (classifyStatement (lit "SELECT 1")) = false.
Proof.
  apply (read_only_enforced blocking_config auditor_init _ OpQuery);
    vm_compute; reflexivity.
Defined.

(** with action "block" and the DML rule on, an UPDATE or DELETE that is
    allowed through has a top-level WHERE clause. *)
Theorem no_where_dml_blocked cfg st sql type ro
  (Hen : au_enabled cfg = true) (Hblock : blocking cfg = true)
  (Hdml : au_block_no_where_dml cfg = true)
  (Hkind : classifyStatement sql = KUpdate \/ classifyStatement sql = KDelete)
  (Hok : st_ok (fst (check sql type ro (auditor_configure cfg st))) = true) :
  hasWhereClause sql = true.
Proof.
  apply check_allowed, policy_check_allowed in Hok as [_ H2]; [|done..].
  destruct H2 as [_ H2]; [simpl; by rewrite Hdml, orb_true_r|]. simpl in H2.
  rewrite Hdml, bool_decide_eq_true_2 in H2 by done. by destruct (hasWhereClause sql).
Qed.

Lemma no_where_dml_blocked_witness :
  hasWhereClause (lit "DELETE FROM t WHERE id = 3") = true.
Proof.
  apply (no_where_dml_blocked blocking_config auditor_init _ OpExecute false);
    [vm_compute; reflexivity.. | right; vm_compute; reflexivity | vm_compute; reflexivity].
Defined.

(** in allow-list mode a single statement whose fingerprint is not listed
    is refused whatever the action. *)
Theorem whitelist_blocks_unlisted cfg st sql type ro
  (Hen : au_enabled cfg = true)
  (Hlist : au_whitelist_fingerprints cfg <> [])
  (Hfp : ~ In (fingerprintTemplate sql) (au_whitelist_fingerprints cfg))
  (Hone : hasMultipleStatements sql true = false) :
  st_code (fst (check sql type ro (auditor_configure cfg st))) = SqlBlocked.
Proof.
  rewrite check_configured by done. unfold policy_check. rewrite Hone. simpl.
  assert (set_empty (list_to_set (au_whitelist_fingerprints cfg)) = false) as E.
  { apply bool_decide_eq_false. destruct (au_whitelist_fingerprints cfg); set_solver. }
  assert (mem (fingerprintTemplate sql) (list_to_set (au_whitelist_fingerprints cfg)) = false) as F.
  { apply bool_decide_eq_false. rewrite elem_of_list_to_set, list_elem_of_In. done. }
  by rewrite E, F, orb_true_r.
Qed.

Definition whitelist_config : SqlAuditConfig :=
  mkSqlAuditConfig true (lit "warn") false false false true []
    [fingerprintTemplate (lit "SELECT 1")].

Lemma whitelist_blocks_unlisted_witness :
  st_code (fst (check (lit "DROP TABLE t") OpExecute false
                  (auditor_configure whitelist_config auditor_init))) = SqlBlocked.
Proof.
  apply whitelist_blocks_unlisted;
    [reflexivity | discriminate | vm_compute; intuition discriminate | vm_compute; reflexivity].
Defined.

(** with action "warn", the multiple-statement check returns before the
    allow-list is consulted, so text that is not listed passes when a further
    statement is appended to it. *)
Theorem whitelist_bypassed_by_second_statement :
  st_ok (fst (check (lit "DROP TABLE t; SELECT 1") OpExecute false
                (auditor_configure whitelist_config auditor_init))) = true
  /\ st_ok (fst (check (lit "DROP TABLE t") OpExecute false
                (auditor_configure whitelist_config auditor_init))) = false.
Proof. split; vm_compute; reflexivity. Qed.
