(* ===== verification/Connection.v ===== *)
(** * The connection interface (src/core/idatabase_connection.cpp)

    What every driver inherits: the placeholder scanner and the literal
    interpolation built on it, the statement text of the logs, batches in a
    transaction of their own, per-row delivery, and streamed parameters read
    into memory. The pure virtual operations of a driver are the fields of
    [Driver]; [escapeLiteral] is a parameter, with the generic rendering of
    Types.v and the one of the MySQL driver as its instances. *)
From stdpp Require Import base list strings.
From Stdlib Require Import Ascii ZArith Lia.
From S2P Require Import Prelude Types SqlAnalyze.

(** ** The scanner [replacePlaceholders]

    After an opening quote: what is copied up to the closing one, and the rest.
    A backslash takes the next character with it, a doubled quote continues. *)
Fixpoint copy_quoted (q : ascii) (s : str) : str * str :=
  match s with
  | [] => ([], [])
  | c :: s1 =>
      if ch c backslash then
        match s1 with
        | d :: s2 => let '(o, r) := copy_quoted q s2 in (c :: d :: o, r)
        | [] => ([c], [])
        end
      else if ch c q then
        match s1 with
        | d :: s2 =>
            if ch d q then let '(o, r) := copy_quoted q s2 in (c :: d :: o, r) else ([c], s1)
        | [] => ([c], [])
        end
      else let '(o, r) := copy_quoted q s1 in (c :: o, r)
  end.

(** A line comment, with the newline that ends it. *)
Fixpoint copy_line (s : str) : str * str :=
  match s with
  | [] => ([], [])
  | c :: s1 => if ch c newline then ([c], s1) else let '(o, r) := copy_line s1 in (c :: o, r)
  end.

(** A block comment whose opening slash was copied: [s] starts at the star. *)
Fixpoint copy_block (s : str) : str * str :=
  match s with
  | [] => ([], [])
  | c :: s1 =>
      match s1 with
      | d :: s2 =>
          if ch c "*" && ch d "/" then ([c; d], s2)
          else let '(o, r) := copy_block s1 in (c :: o, r)
      | [] => ([c], [])
      end
  end.

(** The branches of the loop that copy a region of the text unchanged: what is
    copied, first character [c] included, and the rest. *)
Definition region (c : ascii) (s : str) : option (str * str) :=
  match (if ch c "$" then dollar_region s else None) with
  | Some (delimiter, body, rest) => Some (delimiter ++ body ++ delimiter, rest)
  | None =>
      if is_quote c then let '(o, r) := copy_quoted c s in Some (c :: o, r)
      else if ch c "-" && head_is "-" s then
        let '(o, r) := copy_line s in Some (c :: o, r)
      else if ch c "/" && head_is "*" s then
        let '(o, r) := copy_block s in Some (c :: o, r)
      else None
  end.

(** The loop: the output and [found]. *)
Fixpoint replace_loop (fuel : nat) (visitor : nat -> str) (s : str) (found : nat) : str * nat :=
  match fuel, s with
  | S fuel', c :: s1 =>
      match region c s1 with
      | Some (copied, rest) =>
          let '(out, n) := replace_loop fuel' visitor rest found in (copied ++ out, n)
      | None =>
          if ch c "?" then
            let '(out, n) := replace_loop fuel' visitor s1 (S found) in (visitor found ++ out, n)
          else
            let '(out, n) := replace_loop fuel' visitor s1 found in (c :: out, n)
      end
  | _, _ => ([], found)
  end.

Definition replacePlaceholders (visitor : nat -> str) (sql : str) : str * nat :=
  replace_loop (length sql) visitor sql 0.

(** ** Literal interpolation and the statement text of the logs *)
Record SqlRenderOptions := mkRenderOptions {
  includeStringValues : bool;
  includeBlobValues : bool;
  maxParamLength : nat;
  maxSqlLength : nat;
}.
Definition default_render_options : SqlRenderOptions := mkRenderOptions false false 256 (Z.to_nat 8192).

Section Interpolation.
(** The virtual [escapeLiteral]. *)
Context (escapeLiteral : Value -> str).

Definition buildSql_visitor (params : Params) (i : nat) : str :=
  match params !! i with
  | Some v => escapeLiteral v
  | None => lit "?"
  end.

Definition param_mismatch (supplied used : nat) : Status :=
  status_error QueryError
    (lit "parameter mismatch: supplied " ++ dec_nat supplied
     ++ lit " parameter(s) but SQL has " ++ dec_nat used ++ lit " '?' placeholder(s)").

Definition buildSql (sql : str) (params : Params) : Status * str :=
  let '(out, used) := replacePlaceholders (buildSql_visitor params) sql in
  if negb (used =? length params) then (param_mismatch (length params) used, out)
  else (StatusOK, out).

(** The lambda [renderTypedText], and the branch of a plain string. *)
Definition limit_text (options : SqlRenderOptions) (text : str) : str :=
  if maxParamLength options <? length text
  then take (maxParamLength options) text ++ lit "...[truncated]" else text.

Definition renderTypedText (options : SqlRenderOptions) (text : str) (type : string) : str :=
  if negb (includeStringValues options) then lit "'<redacted:" ++ lit type ++ lit ">'"
  else escapeLiteral (VString (limit_text options text)).

Definition render_param (options : SqlRenderOptions) (v : Value) : str :=
  match v with
  | VString text =>
      if negb (includeStringValues options) then lit "'<redacted>'"
      else escapeLiteral (VString (limit_text options text))
  | VDecimal x => renderTypedText options x "decimal"
  | VDate x => renderTypedText options x "date"
  | VTime x => renderTypedText options x "time"
  | VUuid x => renderTypedText options x "uuid"
  | VJson x => renderTypedText options x "json"
  | VBlob blob =>
      if negb (includeBlobValues options) then
        lit "'<blob:" ++ dec_nat (length blob) ++ lit " bytes>'"
      else if maxParamLength options <? length blob then
        escapeLiteral (VBlob (take (maxParamLength options) blob))
        ++ lit "/* truncated, original_bytes=" ++ dec_nat (length blob) ++ lit " */"
      else escapeLiteral (VBlob blob)
  | v => escapeLiteral v
  end.

Definition render_visitor (options : SqlRenderOptions) (params : Params) (i : nat) : str :=
  match params !! i with
  | Some v => render_param options v
  | None => lit "?"
  end.

Definition placeholder_mismatch (found supplied : nat) : Status :=
  status_error QueryError
    (lit "SQL placeholder count (" ++ dec_nat found
     ++ lit ") does not match params count (" ++ dec_nat supplied ++ lit ")").

Definition renderSqlForLogging (sql : str) (params : Params) (options : SqlRenderOptions)
    : Status * str :=
  let '(out, found) := replacePlaceholders (render_visitor options params) sql in
  if negb (found =? length params) then (placeholder_mismatch found (length params), [])
  else if maxSqlLength options <? length out then
    (StatusOK, take (maxSqlLength options) out
               ++ lit "...[truncated, original_length=" ++ dec_nat (length out) ++ lit "]")
  else (StatusOK, out).
End Interpolation.

(** [MySQLConnection::escapeLiteral] on an open connection: only plain strings
    go through the client library's [mysql_real_escape_string]. *)
Definition mysql_escapeLiteral (real_escape : str -> str) (generic : Value -> str)
    (v : Value) : str :=
  match v with
  | VString s => squote :: real_escape s ++ [squote]
  | v => generic v
  end.

(** ** The operations a driver inherits

    [S] is the state of the connection, the server behind it included. *)
Record GeneratedKeys := mkKeys { key_rows : ResultSet }.
Definition keys_empty : GeneratedKeys := mkKeys rs_empty.
Record BatchResult := mkBatch { batch_affected : list Z; batch_keys : list GeneratedKeys }.
Definition batch_empty : BatchResult := mkBatch [] [].
Definition batch_push (affected : Z) (keys : GeneratedKeys) (b : BatchResult) : BatchResult :=
  mkBatch (batch_affected b ++ [affected]) (batch_keys b ++ [keys]).

Definition not_supported (msg : string) : Status := status_error NotSupported (lit msg).

(** The virtual operations the defaults below call. *)
Class Driver (S : Type) := {
  drv_query : str -> ST S (Status * ResultSet);
  drv_execute : str -> ST S (Status * Z);
  drv_begin : ST S Status;
  drv_commit : ST S Status;
  drv_rollback : ST S Status;
  drv_inTransaction : S -> bool;
  drv_escapeLiteral : Value -> str;
  drv_allowsLiteralInterpolation : bool;
}.

Section Defaults.
Context {S : Type} `{!Driver S}.
Local Open Scope st_scope.

Definition cancel : Status := not_supported "driver does not support query cancellation".

(** [begin(options)] of a driver without transaction options. *)
Definition begin_with (default_isolation readOnly : bool) : ST S Status :=
  if negb default_isolation || readOnly
  then ret (not_supported "driver does not support transaction options")
  else drv_begin.

Definition openCursor_default : Status := not_supported "driver does not support cursors".
Definition call_default : Status := not_supported "driver does not support callable parameters".
Definition savepoint_default : Status := not_supported "driver does not support savepoints".
Definition prepare_default : Status :=
  not_supported "driver does not support prepared statements".

(** [query] and [execute] with parameters: interpolation, if the driver allows it. *)
Definition query_params (sql : str) (params : Params) (out : ResultSet)
    : ST S (Status * ResultSet) :=
  if negb drv_allowsLiteralInterpolation
  then ret (not_supported "driver does not implement native parameter binding", out)
  else
    let '(st, built) := buildSql drv_escapeLiteral sql params in
    if negb (st_ok st) then ret (st, out) else drv_query built.

Definition execute_params (sql : str) (params : Params) (affected : Z) : ST S (Status * Z) :=
  if negb drv_allowsLiteralInterpolation
  then ret (not_supported "driver does not implement native parameter binding", 0%Z)
  else
    let '(st, built) := buildSql drv_escapeLiteral sql params in
    if negb (st_ok st) then ret (st, affected) else drv_execute built.

(** [execute] with generated keys: none. *)
Definition execute_params_keys (sql : str) (params : Params) (affected : Z)
    : ST S (Status * Z * GeneratedKeys) :=
  r <-- execute_params sql params affected; ret (r, keys_empty).

Definition execute_keys (sql : str) : ST S (Status * Z * GeneratedKeys) :=
  r <-- drv_execute sql; ret (r, keys_empty).

(** The loop over the rows: the rows handed out are counted, the one the
    callback refuses included. An empty [std::function] accepts every row. *)
Fixpoint deliver {C} (callback : option (Row -> ST C bool)) (rows : list Row) (n : Z)
    : ST C Z :=
  match rows with
  | [] => ret n
  | row :: rest =>
      match callback with
      | Some f => go <-- f row;
                  if negb go then ret (u64 (n + 1)) else deliver callback rest (u64 (n + 1))
      | None => deliver callback rest (u64 (n + 1))
      end
  end.

Definition run_query (sql : str) (params : Params) : ST S (Status * ResultSet) :=
  if is_nil params then drv_query sql else query_params sql params rs_empty.

Definition queryEach {C} (sql : str) (params : Params) (callback : option (Row -> ST C bool))
    : ST (S * C) (Status * Z) :=
  fun s =>
    let '((st, result), c) := run_query sql params s.1 in
    if negb (st_ok st) then ((st, 0%Z), (c, s.2))
    else let '(n, u) := deliver callback (rs_rows result) 0 s.2 in ((StatusOK, n), (c, u)).

Definition queryAll (sql : str) (params : Params) : ST S (Status * list ResultSet) :=
  r <-- run_query sql params;
  let '(st, rs) := r in
  if negb (st_ok st) then ret (st, [])
  else if negb (is_nil (rs_fields rs)) || (0 <? rs_rowCount rs)
       then ret (StatusOK, [rs]) else ret (StatusOK, []).
End Defaults.

(** ** Batches

    [execute] is the virtual operation with generated keys, which the drivers
    override. *)
Section Batch.
Context {S : Type} `{!Driver S}.
Context (execute : str -> Params -> ST S (Status * Z * GeneratedKeys)).
Local Open Scope st_scope.

Fixpoint batch_loop (sql : str) (batch : list Params) (status : Status) (out : BatchResult)
    : ST S (Status * BatchResult) :=
  match batch with
  | [] => ret (status, out)
  | params :: rest =>
      r <-- execute sql params;
      let '(st, affected, keys) := r in
      if negb (st_ok st) then ret (st, out)
      else batch_loop sql rest st (batch_push affected keys out)
  end.

Definition finish_batch (ownTx : bool) (status : Status) (out : BatchResult)
    : ST S (Status * BatchResult) :=
  if negb ownTx then ret (status, out)
  else if negb (st_ok status) then drv_rollback ;; ret (status, batch_empty)
  else
    st <-- drv_commit;
    if negb (st_ok st) then ret (st, batch_empty) else ret (status, out).

Definition executeBatch (sql : str) (batch : list Params) : ST S (Status * BatchResult) :=
  if is_nil batch then ret (StatusOK, batch_empty)
  else
    inTx <-- reads drv_inTransaction;
    let ownTx := negb inTx in
    st <-- (if ownTx then drv_begin else ret StatusOK);
    if negb (st_ok st) then ret (st, batch_empty)
    else
      r <-- batch_loop sql batch StatusOK batch_empty;
      finish_batch ownTx r.1 r.2.
End Batch.

(** ** Streamed parameters

    [X] is the state the readers share; a reader asked for [n] bytes returns
    the bytes it wrote into the buffer. *)
Record StreamSource (X : Type) := mkStream {
  src_read : option (nat -> ST X str);
  src_totalSize : option Z;
  src_isBinary : bool;
}.
Arguments mkStream {X}.
Arguments src_read {X}.
Arguments src_totalSize {X}.
Arguments src_isBinary {X}.

Inductive StreamParam (X : Type) :=
  | SValue (v : Value)
  | SStream (s : StreamSource X).
Arguments SValue {X}.
Arguments SStream {X}.

Section Streams.
Context {X : Type}.
Local Open Scope st_scope.

Definition source_read (src : StreamSource X) (n : nat) : ST X str :=
  match src_read src with
  | Some read => if n =? 0 then ret [] else read n
  | None => ret []
  end.

Definition chunk_size : nat := Z.to_nat 8192.

(** The [while] loop; [None] when it is still reading after [fuel] chunks. *)
Fixpoint drain (fuel : nat) (src : StreamSource X) (blob : str) : ST X (option str) :=
  match fuel with
  | O => ret None
  | S fuel' =>
      chunk <-- source_read src chunk_size;
      if is_nil chunk then ret (Some blob) else drain fuel' src (blob ++ chunk)
  end.

Fixpoint streamParamsToParams (fuel : nat) (params : list (StreamParam X))
    : ST X (option Params) :=
  match params with
  | [] => ret (Some [])
  | p :: rest =>
      v <-- match p with
            | SStream src => b <-- drain fuel src []; ret (VBlob <$> b)
            | SValue v => ret (Some v)
            end;
      match v with
      | None => ret None
      | Some v => vs <-- streamParamsToParams fuel rest; ret (cons v <$> vs)
      end
  end.
End Streams.

(** The overloads that take streams: everything is read before the first
    statement is sent; [None] when the fuel of a stream ran out. *)
Section StreamedStatements.
Context {S X : Type} `{!Driver S}.
Context (execute : str -> Params -> ST S (Status * Z * GeneratedKeys)).

Definition query_stream (fuel : nat) (sql : str) (params : list (StreamParam X))
    : ST (S * X) (option (Status * ResultSet)) :=
  fun '(s, x) =>
    let '(plain, x1) := streamParamsToParams fuel params x in
    match plain with
    | None => (None, (s, x1))
    | Some plain => let '(r, s1) := query_params sql plain rs_empty s in (Some r, (s1, x1))
    end.

Definition execute_stream (fuel : nat) (sql : str) (params : list (StreamParam X))
    : ST (S * X) (option (Status * Z * GeneratedKeys)) :=
  fun '(s, x) =>
    let '(plain, x1) := streamParamsToParams fuel params x in
    match plain with
    | None => (None, (s, x1))
    | Some plain => let '(r, s1) := execute sql plain s in (Some r, (s1, x1))
    end.

Fixpoint stream_groups (fuel : nat) (batch : list (list (StreamParam X)))
    : ST X (option (list Params)) :=
  match batch with
  | [] => ret (Some [])
  | group :: rest =>
      fun x =>
        let '(params, x1) := streamParamsToParams fuel group x in
        match params with
        | None => (None, x1)
        | Some params =>
            let '(ps, x2) := stream_groups fuel rest x1 in (cons params <$> ps, x2)
        end
  end.

Definition executeBatch_stream (fuel : nat) (sql : str) (batch : list (list (StreamParam X)))
    : ST (S * X) (option (Status * BatchResult)) :=
  fun '(s, x) =>
    let '(plain, x1) := stream_groups fuel batch x in
    match plain with
    | None => (None, (s, x1))
    | Some plain => let '(r, s1) := executeBatch execute sql plain s in (Some r, (s1, x1))
    end.
End StreamedStatements.

(** ** The scanner as a tokenizer

    A text is a sequence of plain characters, regions copied unchanged and
    placeholders. *)
Inductive token :=
  | TChar (c : ascii)
  | TRegion (s : str)
  | THole.

Fixpoint tokens_loop (fuel : nat) (s : str) : list token :=
  match fuel, s with
  | S fuel', c :: s1 =>
      match region c s1 with
      | Some (o, rest) => TRegion o :: tokens_loop fuel' rest
      | None => (if ch c "?" then THole else TChar c) :: tokens_loop fuel' s1
      end
  | _, _ => []
  end.
Definition tokens (s : str) : list token := tokens_loop (length s) s.

(** The text of tokens whose [i]-th placeholder is [visitor i], from [k]. *)
Fixpoint render (visitor : nat -> str) (k : nat) (l : list token) : str :=
  match l with
  | [] => []
  | TChar c :: l' => c :: render visitor k l'
  | TRegion o :: l' => o ++ render visitor k l'
  | THole :: l' => visitor k ++ render visitor (S k) l'
  end.
Definition is_hole (t : token) : bool := match t with THole => true | _ => false end.
Definition holes (l : list token) : nat := length (List.filter is_hole l).
Definition flatten (l : list token) : str := render (fun _ => lit "?") 0 l.

Lemma copy_quoted_app q s o r : copy_quoted q s = (o, r) -> s = o ++ r.
Proof.
  revert o r. induction s as [s IH] using (induction_ltof1 _ (@length ascii)).
  unfold ltof in IH. intros o r. destruct s as [|c s1]; [by intros [= <- <-]|].
  cbn [copy_quoted]. destruct (ch c backslash); [|destruct (ch c q)].
  - destruct s1 as [|d s2]; [by intros [= <- <-]|].
    destruct (copy_quoted q s2) as [o' r'] eqn:E. intros [= <- <-].
    apply IH in E as ->; [done | simpl; lia].
  - destruct s1 as [|d s2]; [by intros [= <- <-]|].
    destruct (ch d q); [|by intros [= <- <-]].
    destruct (copy_quoted q s2) as [o' r'] eqn:E. intros [= <- <-].
    apply IH in E as ->; [done | simpl; lia].
  - destruct (copy_quoted q s1) as [o' r'] eqn:E. intros [= <- <-].
    apply IH in E as ->; [done | simpl; lia].
Qed.

Lemma copy_line_app s o r : copy_line s = (o, r) -> s = o ++ r.
Proof.
  revert o r. induction s as [|c s IH]; simpl; intros o r; [by intros [= <- <-]|].
  destruct (ch c newline); [by intros [= <- <-]|].
  destruct (copy_line s) as [o' r']. intros [= <- <-]. simpl. by rewrite (IH o' r').
Qed.

Lemma copy_block_app s o r : copy_block s = (o, r) -> s = o ++ r.
Proof.
  revert o r. induction s as [|c s IH]; intros o r; [by intros [= <- <-]|].
  cbn [copy_block]. destruct s as [|d s]; [by intros [= <- <-]|].
  destruct (_ && _); [by intros [= <- <-]|].
  destruct (copy_block (d :: s)) as [o' r']. intros [= <- <-]. simpl. by rewrite (IH o' r').
Qed.

Lemma dollar_region_app s d b r : dollar_region s = Some (d, b, r) ->
  "$"%char :: s = d ++ b ++ d ++ r.
Proof.
  unfold dollar_region. pose proof (take_skip_while is_ident s) as Hs.
  destruct (skip_while is_ident s) as [|c body]; [done|].
  destruct (ch c "$") eqn:Hc; [|done]. apply ch_eq in Hc as ->. cbn [andb].
  destruct (is_nil _ || negb _); [|done].
  set (delim := "$"%char :: take_while is_ident s ++ ["$"%char]) in *.
  destruct (str_find delim body) as [k|] eqn:Hk; [|done]. intros [= <- <- <-].
  apply str_find_Some in Hk as [Hp _]. apply prefixb_spec in Hp as [t Ht].
  change (S _) with (length delim). rewrite <- drop_drop, Ht, drop_app_length.
  rewrite <- Ht, take_drop. unfold delim. cbn [app]. rewrite <- app_assoc. cbn [app].
  by rewrite Hs.
Qed.

Lemma region_app c s o r : region c s = Some (o, r) -> c :: s = o ++ r.
Proof.
  unfold region. destruct (if ch c "$" then dollar_region s else None) as [[[d b] r']|] eqn:E.
  - destruct (ch c "$") eqn:Hc; [|done]. apply ch_eq in Hc as ->. intros [= <- <-].
    apply dollar_region_app in E. by rewrite E, <- !app_assoc.
  - clear E. destruct (is_quote c); [|destruct (ch c "-" && _); [|destruct (_ && _); [|done]]].
    + destruct (copy_quoted c s) as [o' r'] eqn:E. intros [= <- <-].
      by apply copy_quoted_app in E as ->.
    + destruct (copy_line s) as [o' r'] eqn:E. intros [= <- <-].
      by apply copy_line_app in E as ->.
    + destruct (copy_block s) as [o' r'] eqn:E. intros [= <- <-].
      by apply copy_block_app in E as ->.
Qed.

Lemma dollar_region_delim s d b r : dollar_region s = Some (d, b, r) -> d <> [].
Proof.
  unfold dollar_region. destruct (skip_while is_ident s) as [|c body]; [done|].
  destruct (_ && _); [|done]. destruct (str_find _ body); [|done]. by intros [= <- <- <-].
Qed.

(** A region takes its first character and leaves less text than it found. *)
Lemma region_first c s o r : region c s = Some (o, r) ->
  exists o', o = c :: o' /\ s = o' ++ r.
Proof.
  intros H. assert (o <> []) as Ho.
  { revert H. unfold region.
    destruct (if ch c "$" then dollar_region s else None) as [[[d b] r']|] eqn:E.
    - destruct (ch c "$"); [|done]. apply dollar_region_delim in E.
      intros [= <- <-]. destruct d; done.
    - destruct (copy_quoted c s), (copy_line s), (copy_block s).
      destruct (is_quote c); [|destruct (ch c "-" && _); [|destruct (_ && _); [|done]]];
        by intros [= <- <-]. }
  apply region_app in H. destruct o as [|x o']; [done|]. injection H as -> ->. eauto.
Qed.

Lemma region_shorter c s o r : region c s = Some (o, r) -> length r <= length s.
Proof. intros H. apply region_first in H as (o' & -> & ->). rewrite length_app. lia. Qed.

(** More fuel than the length of the text changes nothing. *)
Lemma tokens_fuel fuel s : length s <= fuel -> tokens_loop fuel s = tokens s.
Proof.
  unfold tokens. revert s. induction fuel as [fuel IH] using lt_wf_ind. intros s Hs.
  destruct s as [|c s1]; [by destruct fuel|]. destruct fuel as [|fuel]; [simpl in Hs; lia|].
  simpl in Hs. cbn [tokens_loop length].
  destruct (region c s1) as [[o r]|] eqn:E.
  - apply region_shorter in E. rewrite (IH fuel) by lia. f_equal. symmetry.
    destruct (decide (length s1 < S fuel)); [|lia]. apply IH; lia.
  - rewrite (IH fuel) by lia. done.
Qed.

Lemma tokens_cons c s1 :
  tokens (c :: s1) = match region c s1 with
                     | Some (o, r) => TRegion o :: tokens r
                     | None => (if ch c "?" then THole else TChar c) :: tokens s1
                     end.
Proof.
  unfold tokens at 1. cbn [tokens_loop length].
  destruct (region c s1) as [[o r]|] eqn:E; [|done].
  apply region_shorter in E. by rewrite tokens_fuel.
Qed.

(** Induction along the tokens of a text. *)
Lemma tokens_ind (P : str -> Prop) :
  P [] ->
  (forall c s1 o r, region c s1 = Some (o, r) -> P r -> P (c :: s1)) ->
  (forall c s1, region c s1 = None -> P s1 -> P (c :: s1)) ->
  forall s, P s.
Proof.
  intros Hnil Hreg Hchar s. induction s as [s IH] using (induction_ltof1 _ (@length ascii)).
  unfold ltof in IH. destruct s as [|c s1]; [done|].
  destruct (region c s1) as [[o r]|] eqn:E.
  - apply (Hreg c s1 o r E), IH. apply region_shorter in E. simpl. lia.
  - apply Hchar; [done|]. apply IH. simpl. lia.
Qed.

Lemma flatten_from k sql : render (fun _ => lit "?") k (tokens sql) = sql.
Proof.
  revert k. induction sql as [|c s1 o r E IH|c s1 E IH] using tokens_ind; intros k; [done| |].
  - rewrite tokens_cons, E. cbn [render]. rewrite IH. symmetry. by apply region_app.
  - rewrite tokens_cons, E. destruct (ch c "?") eqn:Hc.
    + apply ch_eq in Hc as ->. cbn [render lit String.list_ascii_of_string app]. by rewrite IH.
    + cbn [render]. by rewrite IH.
Qed.

Lemma replace_loop_tokens visitor fuel s k : length s <= fuel ->
  replace_loop fuel visitor s k = (render visitor k (tokens s), k + holes (tokens s)).
Proof.
  intros Hf. revert fuel k Hf.
  induction s as [|c s1 o r E IH|c s1 E IH] using tokens_ind; intros fuel k Hf.
  - destruct fuel; simpl; by rewrite Nat.add_0_r.
  - destruct fuel as [|fuel]; [simpl in Hf; lia|]. rewrite tokens_cons, E.
    cbn [replace_loop render]. rewrite E, IH; [done|].
    apply region_shorter in E. simpl in Hf. lia.
  - destruct fuel as [|fuel]; [simpl in Hf; lia|]. rewrite tokens_cons, E.
    cbn [replace_loop]. simpl in Hf. rewrite E. destruct (ch c "?"); rewrite IH by lia.
    + cbn [render]. unfold holes. cbn. f_equal. lia.
    + done.
Qed.


Lemma replace_render visitor sql :
  replacePlaceholders visitor sql = (render visitor 0 (tokens sql), holes (tokens sql)).
Proof. unfold replacePlaceholders. by rewrite replace_loop_tokens. Qed.

(** ** Interpolation *)

(** interpolation succeeds exactly when the statement has as many
    placeholders as there are parameters; the text is then the statement with
    the [i]-th placeholder replaced by the literal of the [i]-th parameter, and
    otherwise the error states both numbers. The logs check the same count and
    leave no text behind on an error. *)
Theorem buildSql_spec escape sql params options :
  buildSql escape sql params =
    (if holes (tokens sql) =? length params then StatusOK
     else param_mismatch (length params) (holes (tokens sql)),
     render (buildSql_visitor escape params) 0 (tokens sql))
  /\ (holes (tokens sql) <> length params ->
      renderSqlForLogging escape sql params options =
        (placeholder_mismatch (holes (tokens sql)) (length params), [])).
Proof.
  unfold buildSql, renderSqlForLogging. rewrite !replace_render. split.
  - by destruct (_ =? _).
  - intros H. by rewrite (proj2 (Nat.eqb_neq _ _) H).
Qed.

Lemma buildSql_spec_witness :
  let sql := lit "SELECT '?' -- ?" in
  buildSql (fun _ => []) sql [VNull] =
    (if holes (tokens sql) =? 1 then StatusOK else param_mismatch 1 (holes (tokens sql)),
     render (buildSql_visitor (fun _ => []) [VNull]) 0 (tokens sql))
  /\ (holes (tokens sql) <> 1 /\
      renderSqlForLogging (fun _ => []) sql [VNull] default_render_options =
        (placeholder_mismatch (holes (tokens sql)) 1, [])).
Proof.
  assert (holes (tokens (lit "SELECT '?' -- ?")) <> 1) as H by (vm_compute; lia).
  destruct (buildSql_spec (fun _ => []) (lit "SELECT '?' -- ?") [VNull] default_render_options)
    as [A B]. split; [exact A | split; [exact H | exact (B H)]].
Defined.

Lemma render_ext v w k l : (forall i, v i = w i) -> render v k l = render w k l.
Proof.
  intros H. revert k. induction l as [|[c|o|] l IH]; intros k; simpl; [done| | |].
  - by rewrite IH.
  - by rewrite IH.
  - by rewrite H, IH.
Qed.

(** Two parameters the logs may not tell apart: the same kind of text, two
    blobs of one length, or the same value. *)
Definition log_alike (v w : Value) : bool :=
  match v, w with
  | VString _, VString _ | VDecimal _, VDecimal _ | VDate _, VDate _ | VTime _, VTime _
  | VUuid _, VUuid _ | VJson _, VJson _ => true
  | VBlob a, VBlob b => length a =? length b
  | _, _ => false
  end.
Definition alike (v w : Value) : Prop := v = w \/ log_alike v w = true.

Lemma render_param_alike escape options v w :
  includeStringValues options = false -> includeBlobValues options = false ->
  alike v w -> render_param escape options v = render_param escape options w.
Proof.
  intros Hs Hb [->|H]; [done|].
  destruct v, w; try discriminate H; unfold render_param, renderTypedText;
    rewrite ?Hs, ?Hb; try done.
  simpl in H. apply Nat.eqb_eq in H. by rewrite H.
Qed.

Lemma render_visitor_alike escape options ps qs :
  includeStringValues options = false -> includeBlobValues options = false ->
  Forall2 alike ps qs ->
  forall i, render_visitor escape options ps i = render_visitor escape options qs i.
Proof.
  intros Hs Hb H i. unfold render_visitor. destruct (qs !! i) as [w|] eqn:Eq.
  - destruct (Forall2_lookup_r _ _ _ _ _ H Eq) as (v & -> & Hv).
    by apply render_param_alike.
  - apply lookup_ge_None in Eq. rewrite <- (Forall2_length _ _ _ H) in Eq.
    by rewrite (proj2 (lookup_ge_None _ _) Eq).
Qed.

(** with string and blob values switched off (the default), the statement
    text that reaches the logs is the same for parameters that differ only in
    the content of strings, decimals, dates, times, uuids, JSON texts or blobs
    of one length: no character of such a value can be recovered from the log,
    whatever the driver's literal syntax. *)
Theorem logged_text_hides_values escape sql ps qs options
  (Hs : includeStringValues options = false) (Hb : includeBlobValues options = false)
  (H : Forall2 alike ps qs) :
  renderSqlForLogging escape sql ps options = renderSqlForLogging escape sql qs options.
Proof.
  unfold renderSqlForLogging. rewrite !replace_render, (Forall2_length _ _ _ H).
  by rewrite (render_ext _ _ _ _ (render_visitor_alike escape options ps qs Hs Hb H)).
Qed.

Lemma logged_text_hides_values_witness :
  renderSqlForLogging (fun _ => []) (lit "UPDATE t SET pw = ? WHERE id = ?")
    [VString (lit "secret"); VInt64 7] default_render_options
  = renderSqlForLogging (fun _ => []) (lit "UPDATE t SET pw = ? WHERE id = ?")
    [VString (lit "x"); VInt64 7] default_render_options.
Proof.
  apply logged_text_hides_values; [reflexivity | reflexivity |].
  constructor; [right; reflexivity | constructor; [by left | constructor]].
Defined.

(** the redaction stops at the elements of arrays and composites: a string
    inside one is written to the log with the default options, which redact the
    same string bound directly. *)
Theorem array_elements_reach_the_log d t :
  let escape := escapeLiteralGeneric d t in
  renderSqlForLogging escape (lit "SELECT ?") [VArray [VString (lit "secret")]]
    default_render_options = (StatusOK, lit "SELECT ARRAY['secret']")
  /\ renderSqlForLogging escape (lit "SELECT ?") [VString (lit "secret")]
    default_render_options = (StatusOK, lit "SELECT '<redacted>'").
Proof. split; vm_compute; reflexivity. Qed.

(** ** Parameters stay inside their literals

    The tokens of a statement whose placeholders became literals. *)
Fixpoint fill (ls : list str) (l : list token) : list token :=
  match l with
  | [] => []
  | THole :: l' => match ls with
                   | x :: ls' => TRegion x :: fill ls' l'
                   | [] => THole :: fill [] l'
                   end
  | t :: l' => t :: fill ls l'
  end.

(** A literal that the scanner leaves exactly where it ends. *)
Definition quoted_literal (x : str) : Prop :=
  exists body, x = squote :: body ++ [squote] /\
    forall r, head_is squote r = false ->
      copy_quoted squote (body ++ squote :: r) = (body ++ [squote], r).

(** What a driver's [escapeLiteral] promises: the values it can be trusted with
    become such literals. *)
Class LiteralEscaper (escape : Value -> str) (safe : Value -> bool) : Prop := {
  escape_quoted v : safe v = true -> quoted_literal (escape v);
}.

(** Two pieces of quoted text, or a placeholder and one, that touch: the
    doubled quote between them would join them. *)
Definition quote_like (t : token) : bool :=
  match t with
  | THole => true
  | TRegion o => head_is squote o
  | TChar _ => false
  end.
Fixpoint isolated (l : list token) : bool :=
  match l with
  | a :: l' => match l' with
               | b :: _ => negb (quote_like a && quote_like b)
               | [] => true
               end && isolated l'
  | [] => true
  end.
Definition no_dollar (s : str) : bool := forallb (fun c => negb (ch c "$")) s.

Lemma copy_quoted_stable q s o r r' :
  copy_quoted q s = (o, r) -> (r = [] -> r' = []) -> head_is q r' = false ->
  copy_quoted q (o ++ r') = (o, r').
Proof.
  intros E Hr Hq. revert o E. induction s as [s IH] using (induction_ltof1 _ (@length ascii)).
  unfold ltof in IH. intros o. destruct s as [|c s1].
  { intros [= <- <-]. by rewrite Hr. }
  cbn [copy_quoted]. destruct (ch c backslash) eqn:Hb; [|destruct (ch c q) eqn:Hc].
  - destruct s1 as [|d s2].
    { intros [= <- <-]. rewrite Hr by done. cbn. by rewrite Hb. }
    destruct (copy_quoted q s2) as [o' r0] eqn:E. intros [= <- <-].
    cbn [app copy_quoted]. rewrite Hb, (IH s2); [done | simpl; lia | done].
  - assert (copy_quoted q (c :: r') = ([c], r')) as Hstop.
    { cbn [copy_quoted]. rewrite Hb, Hc. destruct r' as [|d r2]; [done|].
      simpl in Hq. by rewrite Hq. }
    destruct s1 as [|d s2]; [by intros [= <- <-]|].
    destruct (ch d q) eqn:Hd; [|by intros [= <- <-]].
    destruct (copy_quoted q s2) as [o' r0] eqn:E. intros [= <- <-].
    cbn [app copy_quoted]. rewrite Hb, Hc, Hd, (IH s2); [done | simpl; lia | done].
  - destruct (copy_quoted q s1) as [o' r0] eqn:E. intros [= <- <-].
    cbn [app copy_quoted]. rewrite Hb, Hc, (IH s1); [done | simpl; lia | done].
Qed.

Lemma copy_quoted_stop q s o r : copy_quoted q s = (o, r) -> head_is q r = false.
Proof.
  revert o. induction s as [s IH] using (induction_ltof1 _ (@length ascii)).
  unfold ltof in IH. intros o. destruct s as [|c s1]; [by intros [= <- <-]|].
  cbn [copy_quoted]. destruct (ch c backslash); [|destruct (ch c q)].
  - destruct s1 as [|d s2]; [by intros [= <- <-]|].
    destruct (copy_quoted q s2) eqn:E. intros [= <- <-]. eapply IH; [|done]. simpl; lia.
  - destruct s1 as [|d s2]; [by intros [= <- <-]|].
    destruct (ch d q) eqn:Hd; [|by intros [= <- <-]].
    destruct (copy_quoted q s2) eqn:E. intros [= <- <-]. eapply IH; [|done]. simpl; lia.
  - destruct (copy_quoted q s1) eqn:E. intros [= <- <-]. eapply IH; [|done]. simpl; lia.
Qed.

Lemma copy_line_stable s o r r' :
  copy_line s = (o, r) -> (r = [] -> r' = []) -> copy_line (o ++ r') = (o, r').
Proof.
  intros E Hr. revert o E. induction s as [|c s IH]; simpl; intros o.
  - intros [= <- <-]. by rewrite Hr.
  - destruct (ch c newline) eqn:Hc.
    + intros [= <- <-]. simpl. by rewrite Hc.
    + destruct (copy_line s) as [o' r0]. intros [= <- <-]. simpl. rewrite Hc. by rewrite IH.
Qed.

Lemma copy_block_first d s o r : copy_block (d :: s) = (o, r) -> exists o', o = d :: o'.
Proof.
  cbn [copy_block]. destruct s as [|e s]; [intros [= <- <-]; eauto|].
  destruct (_ && _); [intros [= <- <-]; eauto|].
  destruct (copy_block (e :: s)). intros [= <- <-]. eauto.
Qed.

Lemma copy_block_stable s o r r' :
  copy_block s = (o, r) -> (r = [] -> r' = []) -> copy_block (o ++ r') = (o, r').
Proof.
  intros E Hr. revert o E. induction s as [|c s IH]; intros o.
  - intros [= <- <-]. by rewrite Hr.
  - cbn [copy_block]. destruct s as [|d s].
    { intros [= <- <-]. by rewrite Hr. }
    destruct (_ && _) eqn:Hc.
    + intros [= <- <-]. cbn [app copy_block]. by rewrite Hc.
    + destruct (copy_block (d :: s)) as [o' r0] eqn:E. intros [= <- <-].
      destruct (copy_block_first _ _ _ _ E) as [o2 ->]. specialize (IH _ eq_refl).
      cbn [app] in *. cbn [copy_block]. cbn [copy_block] in IH. by rewrite Hc, IH.
Qed.

(** A region does not depend on what follows it, as long as its quote is not
    doubled and an unfinished region stays unfinished. *)
Lemma region_stable c s o' r r' :
  region c s = Some (c :: o', r) -> ch c "$" = false -> (r = [] -> r' = []) ->
  (is_quote c = true -> head_is c r' = false) -> region c (o' ++ r') = Some (c :: o', r').
Proof.
  intros E Hd Hr Hq. pose proof (region_app _ _ _ _ E) as Hs. injection Hs as ->.
  revert E. unfold region. rewrite Hd. destruct (is_quote c).
  - destruct (copy_quoted c _) as [o2 r2] eqn:E. intros [= -> ->].
    by rewrite (copy_quoted_stable _ _ _ _ r' E Hr (Hq eq_refl)).
  - destruct (ch c "-" && head_is "-" (o' ++ r)) eqn:Hm.
    + destruct (copy_line _) as [o2 r2] eqn:E. intros [= -> ->].
      rewrite (copy_line_stable _ _ _ r' E Hr).
      destruct o' as [|x o2]; [|cbn [app head_is] in *; by rewrite Hm].
      exfalso. apply copy_line_app in E as E'. simpl in *. apply andb_true_iff in Hm as [_ Hm].
      destruct r as [|x r]; [done|]. simpl in *. destruct (ch x newline); [done|].
      by destruct (copy_line r).
    + destruct (ch c "/" && head_is "*" (o' ++ r)) eqn:Hb; [|done].
      destruct (copy_block _) as [o2 r2] eqn:E. intros [= -> ->].
      rewrite (copy_block_stable _ _ _ r' E Hr).
      destruct o' as [|x o2].
      * exfalso. apply andb_true_iff in Hb as [_ Hb]. destruct r as [|x r]; [done|].
        by apply copy_block_first in E as [? ?].
      * cbn [app head_is] in *. by rewrite Hm, Hb.
Qed.

Lemma region_literal x r : quoted_literal x -> head_is squote r = false ->
  exists x', x = squote :: x' /\ region squote (x' ++ r) = Some (x, r).
Proof.
  intros (body & -> & H) Hr. exists (body ++ [squote]). split; [done|].
  unfold region. replace (ch squote "$") with false by reflexivity.
  replace (is_quote squote) with true by reflexivity.
  rewrite <- app_assoc. cbn [app]. by rewrite H.
Qed.

Lemma holes_cons t l : holes (t :: l) = (if is_hole t then 1 else 0) + holes l.
Proof. unfold holes. simpl. by destruct (is_hole t). Qed.

Lemma holes_char c l : holes ((if ch c "?" then THole else TChar c) :: l)
  = (if ch c "?" then 1 else 0) + holes l.
Proof. rewrite holes_cons. by destruct (ch c "?"). Qed.

Lemma region_none c s : region c s = None ->
  is_quote c = false /\ (ch c "-" && head_is "-" s) = false
  /\ (ch c "/" && head_is "*" s) = false.
Proof.
  unfold region. destruct (if ch c "$" then _ else _) as [[[? ?] ?]|]; [done|].
  destruct (copy_quoted c s), (copy_line s), (copy_block s).
  by destruct (is_quote c), (ch c "-" && head_is "-" s), (ch c "/" && head_is "*" s).
Qed.

Lemma region_none_intro c s : ch c "$" = false -> is_quote c = false ->
  (ch c "-" && head_is "-" s) = false -> (ch c "/" && head_is "*" s) = false ->
  region c s = None.
Proof. intros H1 H2 H3 H4. unfold region. by rewrite H1, H2, H3, H4. Qed.

(** The character the filled text starts with. *)
Lemma head_fill q ls s :
  Forall quoted_literal ls -> length ls = holes (tokens s) ->
  head_is q (flatten (fill ls (tokens s))) =
    match tokens s with THole :: _ => ch squote q | _ => head_is q s end.
Proof.
  intros Hls Hn. destruct s as [|c s1]; [done|]. rewrite tokens_cons in *.
  destruct (region c s1) as [[o r]|] eqn:E.
  - apply region_first in E as (o' & -> & ->). done.
  - destruct (ch c "?"); [|done]. rewrite holes_cons in Hn. destruct ls as [|x ls]; [done|].
    inversion Hls as [|? ? (body & -> & _) _]; subst. done.
Qed.

Lemma fill_nil ls s : tokens s = [] -> flatten (fill ls (tokens s)) = [].
Proof. by intros ->. Qed.

Lemma render_region_char (v w : nat -> str) k j l : holes l = 0 -> render v k l = render w j l.
Proof.
  revert k j. induction l as [|[c|o|] l IH]; intros k j H; simpl;
    [done | rewrite holes_cons in H ..]; [| |done].
  - by rewrite (IH k j).
  - by rewrite (IH k j).
Qed.

Lemma holes_fill ls l : length ls = holes l -> holes (fill ls l) = 0.
Proof.
  revert ls. induction l as [|t l IH]; intros ls; simpl; [done|].
  rewrite holes_cons. destruct t; simpl; intros H.
  - rewrite holes_cons. simpl. by apply IH.
  - rewrite holes_cons. simpl. by apply IH.
  - destruct ls as [|x ls]; [done|]. rewrite holes_cons. simpl. apply IH. simpl in H. lia.
Qed.

(** What a plain character or a region is followed by, in an isolated text. *)
Lemma isolated_tail t s : isolated (t :: tokens s) = true -> quote_like t = true ->
  head_is squote s = false /\ match tokens s with THole :: _ => False | _ => True end.
Proof.
  intros H Ht. simpl in H. rewrite Ht in H. destruct s as [|c s1]; [done|].
  rewrite tokens_cons in *. destruct (region c s1) as [[o r]|] eqn:E.
  - apply region_first in E as (o' & -> & _). simpl in *. split; [|done].
    by destruct (ch c squote).
  - destruct (ch c "?") eqn:Hc; [done|]. split; [|done]. simpl.
    apply region_none in E as [E _]. unfold is_quote in E. bool_prop.
    change squote with ("'"%char). by destruct (ch c "'").
Qed.

Lemma isolated_cons t l : isolated (t :: l) = true -> isolated l = true.
Proof. simpl. intros H. by apply andb_true_iff in H as [_ H]. Qed.

Lemma no_dollar_app a b : no_dollar (a ++ b) = no_dollar a && no_dollar b.
Proof. apply forallb_app. Qed.

Lemma flatten_region o l : flatten (TRegion o :: l) = o ++ flatten l.
Proof. done. Qed.
Lemma flatten_char c l : flatten (TChar c :: l) = c :: flatten l.
Proof. done. Qed.

(** Filling commutes with scanning. *)
Lemma tokens_fill s ls :
  Forall quoted_literal ls -> length ls = holes (tokens s) ->
  no_dollar s = true -> isolated (tokens s) = true ->
  tokens (flatten (fill ls (tokens s))) = fill ls (tokens s).
Proof.
  revert ls. induction s as [|c s1 o r E IH|c s1 E IH] using tokens_ind; intros ls Hls Hn Hd Hi;
    [done| |]; rewrite tokens_cons, E in *.
  - destruct (region_first _ _ _ _ E) as (o' & -> & ->). simpl in Hd.
    rewrite no_dollar_app in Hd. bool_prop. rewrite holes_cons in Hn. cbn [is_hole] in Hn.
    cbn [fill]. rewrite flatten_region. cbn [app]. rewrite tokens_cons, (region_stable c (o' ++ r) o' r); try done.
    + by rewrite IH by eauto using isolated_cons.
    + by intros ->.
    + intros Hq. rewrite head_fill by done.
      assert (head_is c r = false) as Hr.
      { revert E. unfold region. rewrite H, Hq.
        destruct (copy_quoted c _) as [o2 r2] eqn:E. intros [= -> ->].
        by eapply copy_quoted_stop. }
      destruct (tokens r) as [|[|o|] l] eqn:Et; try done.
      destruct (ch squote c) eqn:Hc; [|done]. apply ch_eq in Hc as <-. exfalso.
      destruct (isolated_tail (TRegion (squote :: o')) r) as [_ H']; [|done|].
      * by rewrite Et.
      * by rewrite Et in H'.
  - simpl in Hd. apply andb_true_iff in Hd as [Hd Hd1]. bool_prop.
    rewrite holes_char in Hn. destruct (ch c "?") eqn:Hc.
    + destruct ls as [|x ls]; [done|]. inversion Hls as [|? ? Hx Hls']; subst.
      injection Hn as Hn. cbn [fill]. rewrite flatten_region.
      destruct (isolated_tail THole s1 Hi eq_refl) as [Hh Ht].
      destruct (region_literal x (flatten (fill ls (tokens s1))) Hx) as (x' & -> & Hx').
      { rewrite head_fill by done. by destruct (tokens s1) as [|[] ?]. }
      cbn [app]. rewrite tokens_cons, Hx', IH by eauto using isolated_cons. done.
    + cbn [fill]. rewrite flatten_char.
      destruct (region_none _ _ E) as (Hq & Hm & Hb).
      rewrite tokens_cons, region_none_intro; try done.
      * rewrite Hc. by rewrite IH by eauto using isolated_cons.
      * rewrite head_fill by done. destruct (tokens s1) as [|[] ?]; try done.
        by rewrite andb_false_r.
      * rewrite head_fill by done. destruct (tokens s1) as [|[] ?]; try done.
        by rewrite andb_false_r.
Qed.

Lemma render_fill v k ls l : length ls = holes l -> (forall i, i < length ls -> ls !! i = Some (v (k + i))) ->
  render v k l = flatten (fill ls l).
Proof.
  unfold flatten. revert k ls. induction l as [|t l IH]; intros k ls Hn Hv; [done|].
  rewrite holes_cons in Hn. destruct t; simpl in *.
  - by rewrite (IH k ls).
  - by rewrite (IH k ls).
  - destruct ls as [|x ls]; [done|]. pose proof (Hv 0 ltac:(simpl; lia)) as H0.
    simpl in H0. rewrite Nat.add_0_r in H0. injection H0 as ->. cbn [render]. f_equal.
    apply IH; [simpl in Hn; lia|]. intros i Hi. rewrite Nat.add_succ_comm. apply (Hv (S i)).
    simpl. lia.
Qed.


(** *** The generic literals *)
Definition no_backslash (s : str) : bool := forallb (fun c => negb (ch c backslash)) s.
Definition plain_text (v : Value) : bool :=
  match text_of v with Some s => no_backslash s | None => false end.

Lemma copy_quoted_double q s r :
  ch q backslash = false -> no_backslash s = true -> head_is q r = false ->
  copy_quoted q (double_char q s ++ q :: r) = (double_char q s ++ [q], r).
Proof.
  intros Hq Hs Hr. assert (ch q q = true) as Hqq by apply Ascii.eqb_refl.
  induction s as [|c s IH].
  - cbn. rewrite Hq, Hqq. destruct r as [|d r]; [done|]. simpl in Hr. by rewrite Hr.
  - simpl in Hs. bool_prop. rewrite double_char_cons.
    destruct (Ascii.eqb c q) eqn:Hc; cbn [app copy_quoted].
    + by rewrite Hq, Hqq, IH.
    + change (Ascii.eqb c q) with (ch c q) in Hc. by rewrite H, Hc, IH.
Qed.

Lemma quoteText_literal s : no_backslash s = true -> quoted_literal (quoteText s).
Proof.
  intros Hs. exists (double_char squote s). split; [done|]. intros r Hr.
  by apply (copy_quoted_double squote).
Qed.

Lemma generic_text_literal d t v : plain_text v = true ->
  quoted_literal (escapeLiteralGeneric d t v).
Proof. destruct v; try done; intros H; by apply quoteText_literal. Qed.

#[export] Instance generic_escaper d t : LiteralEscaper (escapeLiteralGeneric d t) plain_text.
Proof. split. apply generic_text_literal. Qed.


(** *** The MySQL driver

    What [mysql_real_escape_string] documents: it works byte by byte, and a
    quote or a backslash never comes out alone. *)
Class RealEscape (real_escape : str -> str) : Prop := {
  real_escape_nil : real_escape [] = [];
  real_escape_cons c s :
    (exists d, real_escape (c :: s) = backslash :: d :: real_escape s)
    \/ (real_escape (c :: s) = c :: real_escape s /\ c <> squote /\ c <> backslash);
}.

Definition mysql_safe (v : Value) : bool :=
  match v with VString _ => true | v => plain_text v end.

Lemma copy_quoted_real `{!RealEscape real} s r : head_is squote r = false ->
  copy_quoted squote (real s ++ squote :: r) = (real s ++ [squote], r).
Proof.
  intros Hr. induction s as [|c s IH].
  - rewrite real_escape_nil. cbn. destruct r as [|d r]; [done|]. simpl in Hr. by rewrite Hr.
  - destruct (real_escape_cons c s) as [[d ->]|(-> & H1 & H2)]; cbn [app copy_quoted].
    + replace (ch backslash backslash) with true by reflexivity. by rewrite IH.
    + rewrite (proj2 (Ascii.eqb_neq c backslash) H2 : ch c backslash = false).
      rewrite (proj2 (Ascii.eqb_neq c squote) H1 : ch c squote = false). by rewrite IH.
Qed.

#[export] Instance mysql_escaper `{!RealEscape real} d t :
  LiteralEscaper (mysql_escapeLiteral real (escapeLiteralGeneric d t)) mysql_safe.
Proof.
  split. intros v Hv. destruct v; try by apply generic_text_literal.
  exists (real s). split; [done|]. intros r Hr. by apply copy_quoted_real.
Qed.

(** the literals of the MySQL driver protect strings only. A JSON (or
    decimal, date, time, uuid) parameter is written with its backslashes as
    they are, so that the text below ends its own literal after two characters
    and the rest of the parameter becomes part of the statement, here a
    condition that always holds and a comment that hides what follows. *)
Theorem mysql_json_leaves_its_literal real d t :
  let escape := mysql_escapeLiteral real (escapeLiteralGeneric d t) in
  let sql := lit "SELECT id FROM t WHERE j = ? AND owner = 7" in
  let chars s := map TChar (lit s) in
  exists built,
    buildSql escape sql [VJson (lit "\' OR 1=1 -- ")] = (StatusOK, built)
    /\ tokens built = chars "SELECT id FROM t WHERE j = " ++ [TRegion (lit "'\''")]
         ++ chars " OR 1=1 " ++ [TRegion (lit "-- ' AND owner = 7")].
Proof. intros escape sql chars. eexists. split; [vm_compute; reflexivity | reflexivity]. Qed.

(** numbers are written without quotes or parentheses: a negative number
    after a minus sign makes the two dashes of a comment, and the rest of the
    line is no longer part of the statement. *)
Theorem negative_number_opens_comment d t :
  let escape := escapeLiteralGeneric d t in
  let chars s := map TChar (lit s) in
  exists built,
    buildSql escape (lit "UPDATE t SET n = n -? WHERE id = 3") [VInt64 (-1)]
      = (StatusOK, built)
    /\ tokens built = chars "UPDATE t SET n = n " ++ [TRegion (lit "--1 WHERE id = 3")].
Proof. intros escape chars. eexists. split; [vm_compute; reflexivity | reflexivity]. Qed.

(** the scanner takes the star that opens a block comment for the one that
    closes it: after "/*/" it is out of the comment, counts a question mark the
    server ignores, and disagrees with the scanner of the SQL analysis. *)
Theorem block_comment_closed_by_its_opening :
  let sql := lit "SELECT 1 /*/ why? */" in
  holes (tokens sql) = 1
  /\ maskLiteralRegions sql = lit "SELECT 1 " ++ replicate 11 " "%char.
Proof. split; reflexivity. Qed.

(** ** Batches are all or nothing

    What a transactional server promises, seen through the virtual operations:
    [committed] is what survives, [working] what the open transaction sees. A
    commit that reports an error may still have happened. *)
Class Transactional {S : Type} (D : Type) `{!Driver S}
    (execute : str -> Params -> ST S (Status * Z * GeneratedKeys)) := {
  committed : S -> D;
  working : S -> D;
  effect : str -> Params -> D -> D;
  tx_begin s : drv_inTransaction s = false ->
    committed (drv_begin s).2 = committed s
    /\ (st_ok (drv_begin s).1 = true ->
        drv_inTransaction (drv_begin s).2 = true /\ working (drv_begin s).2 = committed s);
  tx_execute sql p s : drv_inTransaction s = true ->
    committed (execute sql p s).2 = committed s
    /\ (st_ok (execute sql p s).1.1.1 = true ->
        drv_inTransaction (execute sql p s).2 = true
        /\ working (execute sql p s).2 = effect sql p (working s));
  tx_commit s : drv_inTransaction s = true ->
    (st_ok (drv_commit s).1 = true -> committed (drv_commit s).2 = working s)
    /\ (committed (drv_commit s).2 = committed s \/ committed (drv_commit s).2 = working s);
  tx_rollback s : committed (drv_rollback s).2 = committed s;
}.

Section BatchFacts.
Context {S D : Type} `{!Driver S}
        (execute : str -> Params -> ST S (Status * Z * GeneratedKeys))
        `{!Transactional D execute}.

Abbreviation run sql batch s := (executeBatch execute sql batch s).
Definition effects (sql : str) (batch : list Params) (d : D) : D :=
  fold_left (fun d p => effect sql p d) batch d.

Lemma batch_loop_spec sql batch status out s :
  drv_inTransaction s = true -> st_ok status = true ->
  let '((st, out'), s') := batch_loop execute sql batch status out s in
  committed s' = committed s
  /\ length (batch_affected out') <= length (batch_affected out) + length batch
  /\ (st_ok st = true ->
      drv_inTransaction s' = true /\ working s' = effects sql batch (working s)
      /\ length (batch_affected out') = length (batch_affected out) + length batch).
Proof.
  revert status out s. induction batch as [|p batch IH]; intros status out s Hin Hst;
    cbn [batch_loop].
  - cbn. rewrite Nat.add_0_r. done.
  - destruct (tx_execute sql p s Hin) as [Hc Hok]. cbn. unfold bind.
    destruct (execute sql p s) as [[[st affected] keys] s1]. cbn in *.
    destruct (st_ok st) eqn:Est; cbn.
    + destruct (Hok eq_refl) as [Hin1 Hw]. specialize (IH st (batch_push affected keys out) s1 Hin1 Est).
      destruct (batch_loop _ _ _ _ _ s1) as [[st' out'] s']. cbn in IH.
      rewrite length_app in IH. cbn in IH. destruct IH as (IH1 & IH2 & IH3).
      split; [congruence | split; [lia|]]. intros E. destruct (IH3 E) as (H1 & H2 & H3).
      rewrite <- Hw. split; [done | split; [exact H2 | lia]].
    + split; [done | split; [lia|]]. congruence.
Qed.


(** inside a transaction of the caller a batch neither commits nor rolls
    back: what survives is untouched whatever happens, and after an error the
    result lists the statements that ran before it. *)
Theorem batch_inside_transaction sql batch s (Hin : drv_inTransaction s = true) :
  let '((st, out), s') := run sql batch s in
  committed s' = committed s
  /\ length (batch_affected out) <= length batch
  /\ (st_ok st = true -> working s' = effects sql batch (working s)
                         /\ length (batch_affected out) = length batch).
Proof.
  unfold executeBatch. destruct batch as [|p batch]; [done|]. cbn [is_nil].
  set (l := p :: batch). clearbody l. unfold reads, bind. cbn. rewrite Hin. cbn.
  pose proof (batch_loop_spec sql l StatusOK batch_empty s Hin eq_refl) as HL.
  change (st_ok StatusOK) with true. cbn [negb].
  destruct (batch_loop _ _ _ _ _ s) as [[st1 out1] s1]. revert HL. cbn.
  intros (Hc & Hle & H). split; [done | split; [done|]]. intros E.
  by destruct (H E) as (_ & ? & ?).
Qed.
End BatchFacts.

(** A server of one list of statements, in which an empty statement fails. *)
Module ListServer.
Record Server := mkServer { durable : list (str * Params); open_tx : option (list (str * Params)) }.
Definition srv_status (sql : str) : Status :=
  if is_nil sql then status_error QueryError [] else StatusOK.
Definition srv_execute (sql : str) (p : Params) : ST Server (Status * Z * GeneratedKeys) :=
  fun s =>
    match open_tx s with
    | Some w => ((srv_status sql, 1%Z, keys_empty),
                 if is_nil sql then s else mkServer (durable s) (Some (w ++ [(sql, p)])))
    | None => ((srv_status sql, 1%Z, keys_empty), s)
    end.
#[export] Instance srv_driver : Driver Server := {
  drv_query sql := ret (StatusOK, rs_empty);
  drv_execute sql := ret (StatusOK, 1%Z);
  drv_begin s := (StatusOK, mkServer (durable s) (Some (durable s)));
  drv_commit s := (StatusOK, mkServer (default (durable s) (open_tx s)) None);
  drv_rollback s := (StatusOK, mkServer (durable s) None);
  drv_inTransaction s := bool_decide (is_Some (open_tx s));
  drv_escapeLiteral v := [];
  drv_allowsLiteralInterpolation := false;
}.
#[export] Instance srv_transactional : Transactional (list (str * Params)) srv_execute.
Proof.
  refine {| committed := durable; working s := default (durable s) (open_tx s);
            effect sql p d := d ++ [(sql, p)] |}.
  - done.
  - intros sql p [d [w|]]; [|done]. intros _. unfold srv_execute, srv_status. cbn.
    by destruct (is_nil sql).
  - intros [d [w|]]; [|done]. cbn. auto.
  - done.
Defined.
End ListServer.

Section BatchWitnesses.
Import ListServer.


Lemma batch_inside_transaction_witness :
  let '((st, out), s') :=
    executeBatch srv_execute [] [[VInt64 1]; [VInt64 2]] (mkServer [] (Some [])) in
  durable s' = [] /\ length (batch_affected out) <= 2
  /\ (st_ok st = true ->
      default (durable s') (open_tx s') = effects srv_execute [] [[VInt64 1]; [VInt64 2]] []
      /\ length (batch_affected out) = 2).
Proof.
  exact (batch_inside_transaction srv_execute [] [[VInt64 1]; [VInt64 2]]
           (mkServer [] (Some [])) eq_refl).
Defined.
End BatchWitnesses.

(** ** Rows one by one, and streams *)

(** The rows up to the first one the callback refuses. *)
Fixpoint accepted {C} (f : Row -> ST C bool) (rows : list Row) (c : C) : nat :=
  match rows with
  | [] => 0
  | row :: rest => let '(go, c') := f row c in if go then S (accepted f rest c') else 1
  end.

Lemma deliver_count {C} (f : Row -> ST C bool) rows n c :
  (0 <= n)%Z -> (n + Z.of_nat (length rows) < two64)%Z ->
  (deliver (Some f) rows n c).1 = (n + Z.of_nat (accepted f rows c))%Z.
Proof.
  revert n c. induction rows as [|row rows IH]; intros n c Hn Hlen; [cbn; lia|].
  cbn [deliver accepted]. unfold bind. destruct (f row c) as [go c'].
  simpl length in Hlen. assert (u64 (n + 1) = n + 1)%Z as -> by (apply Z.mod_small; lia).
  destruct go; cbn [negb].
  - rewrite IH by lia. lia.
  - cbn. lia.
Qed.

(** per-row delivery over a stored result: the row count reported is the
    number of calls of the callback, the refused row included; nothing is
    delivered after it, and a query that failed delivers nothing. *)
Theorem queryEach_counts {T C} `{!Driver T} sql params (f : Row -> ST C bool) (s : T) (c : C)
  (Hlen : (Z.of_nat (length (rs_rows (run_query sql params s).1.2)) < two64)%Z) :
  let '((st, rs), s') := run_query sql params s in
  let '((st', n), (s2, _)) := queryEach sql params (Some f) (s, c) in
  s2 = s' /\ if st_ok st then st' = StatusOK /\ n = Z.of_nat (accepted f (rs_rows rs) c)
             else st' = st /\ n = 0%Z.
Proof.
  unfold queryEach. cbn [fst snd].
  destruct (run_query sql params s) as [[st rs] s']. cbn [fst snd] in Hlen.
  destruct (st_ok st) eqn:E; cbn [negb]; [|done].
  pose proof (deliver_count f (rs_rows rs) 0 c ltac:(lia) Hlen) as H.
  by destruct (deliver _ _ _ c) as [n u].
Qed.

Lemma queryEach_counts_witness :
  let '((st, rs), s') := @run_query _ ListServer.srv_driver (lit "SELECT") []
                           (ListServer.mkServer [] None) in
  let '((st', n), (s2, _)) :=
    @queryEach _ ListServer.srv_driver _ (lit "SELECT") [] (Some (fun _ => ret true)) (ListServer.mkServer [] None, tt) in
  s2 = s' /\ if st_ok st
             then st' = StatusOK
                  /\ n = Z.of_nat (accepted (fun _ => ret true) (rs_rows rs) tt)
             else st' = st /\ n = 0%Z.
Proof.
  exact (@queryEach_counts _ _ ListServer.srv_driver (lit "SELECT") [] (fun _ => ret true)
           (ListServer.mkServer [] None) tt eq_refl).
Defined.

(** A reader that hands out [remaining] piece by piece, of at most the size
    asked for, and nothing only at the end. *)
Class Reader {X} (src : StreamSource X) := {
  remaining : X -> str;
  reader_next x n : (n <> 0)%nat ->
    let '(chunk, x') := source_read src n x in
    remaining x = chunk ++ remaining x' /\ (chunk = [] -> remaining x = []);
}.

Lemma drain_all {X} (src : StreamSource X) `{!Reader src} fuel x blob :
  length (remaining x) < fuel ->
  exists x', drain fuel src blob x = (Some (blob ++ remaining x), x') /\ remaining x' = [].
Proof.
  revert x blob. induction fuel as [|fuel IH]; intros x blob Hf; [lia|].
  cbn [drain]. unfold bind. pose proof (reader_next x chunk_size ltac:(vm_compute; lia)) as H.
  destruct (source_read src chunk_size x) as [chunk x']. destruct H as [E Hnil].
  destruct chunk as [|c chunk].
  - exists x'. cbn. rewrite Hnil by done. rewrite app_nil_r. split; [done|].
    rewrite Hnil in E by done. by destruct (remaining x').
  - cbn [is_nil]. destruct (IH x' (blob ++ c :: chunk)) as (x2 & -> & H2).
    { rewrite E in Hf. rewrite length_app in Hf. simpl in Hf. lia. }
    exists x2. by rewrite E, <- app_assoc.
Qed.

(** a streamed parameter is read to its end, whatever the size of the
    pieces: the loop stops once the reader is empty, the parameter is then one
    blob of all its bytes in order, and the values beside it are passed on
    unchanged. A source declared as text ([isBinary] false) becomes a blob like
    any other. *)
Theorem stream_becomes_blob {X} (src : StreamSource X) `{!Reader src} v x fuel
  (Hfuel : length (remaining x) < fuel) :
  exists x', streamParamsToParams fuel [SStream src; SValue v] x
               = (Some [VBlob (remaining x); v], x') /\ remaining x' = [].
Proof.
  cbn [streamParamsToParams]. unfold bind.
  destruct (drain_all src fuel x [] Hfuel) as (x' & -> & H). exists x'. by cbn.
Qed.

(** An [std::istream] over a buffer. *)
Definition buffer_source (isBinary : bool) : StreamSource str :=
  mkStream (Some (fun n s => (take n s, drop n s))) None isBinary.
#[export] Instance buffer_reader b : Reader (buffer_source b).
Proof.
  refine {| remaining s := s |}. intros s n Hn. unfold source_read, buffer_source. cbn.
  destruct n; [done|]. cbn [Nat.eqb]. rewrite take_drop. split; [done|]. by destruct s.
Defined.

Lemma stream_becomes_blob_witness :
  exists x', streamParamsToParams 6 [SStream (buffer_source false); SValue VNull] (lit "hello")
               = (Some [VBlob (lit "hello"); VNull], x') /\ x' = [].
Proof.
  assert (length (remaining (src := buffer_source false) (lit "hello")) < 6) as H
    by (cbn; lia).
  exact (stream_becomes_blob (buffer_source false) VNull (lit "hello") 6 H).
Defined.
