(* ===== verification/Context.v ===== *)
(** * Request context (src/common/context.cpp)

    The thread-local stack of [SqlContext] frames with the bounded [ContextScope]
    guard, the W3C [traceparent] header and the span counter. *)
From stdpp Require Import base list strings.
From Stdlib Require Import Ascii ZArith Lia.
From S2P Require Import Prelude.

(** ** Data *)
Inductive Idempotency := Unspecified | Idempotent | NonIdempotent.

Record SqlContext := mkContext {
  cx_traceId : str;
  cx_spanId : str;
  cx_tenantId : str;
  cx_targetDataSource : str;
  cx_shadow : bool;
  cx_wroteInThisRequest : bool;
  cx_idempotency : Idempotency }.

Definition defaultInstance : SqlContext := mkContext [] [] [] [] false false Unspecified.

Definition context_empty (c : SqlContext) : bool :=
  is_nil (cx_traceId c) && is_nil (cx_spanId c) && is_nil (cx_tenantId c) &&
  is_nil (cx_targetDataSource c) && negb (cx_shadow c) && negb (cx_wroteInThisRequest c) &&
  match cx_idempotency c with Unspecified => true | _ => false end.

(** ** The stack: the top frame ([back()]) is the head of the list. *)
Abbreviation Stack := (list SqlContext).
Definition kMaxDepth : nat := 64.

Definition current (s : Stack) : SqlContext :=
  match s with c :: _ => c | [] => defaultInstance end.
Definition depth (s : Stack) : nat := length s.

(** The constructor and the destructor of [ContextScope]; the boolean is
    [entered_]. *)
Definition scope_enter (ctx : SqlContext) (s : Stack) : Stack * bool :=
  if length s <? kMaxDepth then (ctx :: s, true) else (s, false).
Definition scope_exit (entered : bool) (s : Stack) : Stack := if entered then tail s else s.

(** A block guarded by a [ContextScope]. *)
Definition with_scope {A} (ctx : SqlContext) (body : Stack -> A * Stack) (s : Stack) : A * Stack :=
  let '(s1, entered) := scope_enter ctx s in
  let '(a, s2) := body s1 in
  (a, scope_exit entered s2).

Definition set_wrote (c : SqlContext) : SqlContext :=
  mkContext (cx_traceId c) (cx_spanId c) (cx_tenantId c) (cx_targetDataSource c) (cx_shadow c)
    true (cx_idempotency c).

(** [pinRequestWrite]: marks the frame below the top one, the top one if it is
    alone. *)
Definition pinRequestWrite (s : Stack) : Stack :=
  match s with
  | [] => []
  | top :: below :: rest => top :: set_wrote below :: rest
  | [top] => [set_wrote top]
  end.

(** ** Hexadecimal *)
Definition isHex (c : ascii) : bool :=
  isdigit c || in_range 97 102 (code c) || in_range 65 70 (code c).

(** [copyHex(s, pos, len, out)] *)
Definition copyHex (s : str) (pos n : nat) : option str :=
  if length s <? pos + n then None
  else let t := take n (drop pos s) in if forallb isHex t then Some t else None.

Definition hex_digit (n : Z) : ascii :=
  if (n <? 10)%Z then ascii_of_N (Z.to_N (48 + n)) else ascii_of_N (Z.to_N (87 + n)).

(** The filling loop of [nextSpanId], from the last of [n] characters. *)
Fixpoint hex_fill (n : nat) (seq : Z) (acc : str) : str :=
  match n with
  | O => acc
  | S n' => hex_fill n' (Z.shiftr seq 4) (hex_digit (Z.land seq 15) :: acc)
  end.

(** [nextSpanId], with the value of the process-wide counter before and after. *)
Definition nextSpanId (ctx : SqlContext) (globalSeq : Z) : str * Z :=
  if is_nil (cx_traceId ctx) && is_nil (cx_spanId ctx) then ([], globalSeq)
  else let seq := u64 (globalSeq + 1) in (hex_fill 16 seq [], seq).

(** ** traceparent *)
Definition char_at (s : str) (i : nat) : ascii := nth i s "000"%char.
Definition all_zero (s : str) : bool := forallb (fun c => Ascii.eqb c "0") s.

Definition parseTraceparent (header : str) : option SqlContext :=
  if negb (length header =? 55) then None
  else if negb (Ascii.eqb (char_at header 0) "0") || negb (Ascii.eqb (char_at header 1) "0") then None
  else if negb (Ascii.eqb (char_at header 2) "-") || negb (Ascii.eqb (char_at header 35) "-")
          || negb (Ascii.eqb (char_at header 52) "-") then None
  else
    traceId ← copyHex header 3 32;
    spanId ← copyHex header 36 16;
    flags ← copyHex header 53 2;
    if all_zero traceId then None
    else if all_zero spanId then None
    else Some (mkContext traceId spanId [] [] false false Unspecified).

Definition formatTraceparent (ctx : SqlContext) : str :=
  if negb (length (cx_traceId ctx) =? 32) || negb (length (cx_spanId ctx) =? 16) then []
  else if negb (forallb isHex (cx_traceId ctx)) || negb (forallb isHex (cx_spanId ctx)) then []
  else if all_zero (cx_traceId ctx) || all_zero (cx_spanId ctx) then []
  else lit "00-" ++ cx_traceId ctx ++ lit "-" ++ cx_spanId ctx ++ lit "-01".

(** ** Lemmas *)
Lemma scope_balanced ctx s : let '(s1, e) := scope_enter ctx s in scope_exit e s1 = s.
Proof. unfold scope_enter. by destruct (length s <? kMaxDepth). Qed.

Lemma copyHex_mid p t q : forallb isHex t = true ->
  copyHex (p ++ t ++ q) (length p) (length t) = Some t.
Proof.
  intros H. unfold copyHex. rewrite drop_app_length, take_app_length, H, !length_app.
  case_match; [bool_prop; lia | done].
Qed.

Lemma copyHex_at h p t q pos n :
  h = p ++ t ++ q -> forallb isHex t = true -> pos = length p -> n = length t ->
  copyHex h pos n = Some t.
Proof. intros -> H -> ->. by apply copyHex_mid. Qed.

Lemma hex_fill_app n seq acc : hex_fill n seq acc = hex_fill n seq [] ++ acc.
Proof.
  revert seq acc. induction n as [|n IH]; intros seq acc; simpl; [done|].
  rewrite IH, (IH _ [_]), <- app_assoc. done.
Qed.

Lemma hex_fill_length n seq acc : length (hex_fill n seq acc) = n + length acc.
Proof. revert seq acc. induction n as [|n IH]; intros; simpl; [done|]. rewrite IH. simpl. lia. Qed.

Lemma hex_digit_inj a b :
  (0 <= a < 16)%Z -> (0 <= b < 16)%Z -> hex_digit a = hex_digit b -> a = b.
Proof.
  intros Ha Hb. assert (In a (map Z.of_nat (seq 0 16)) /\ In b (map Z.of_nat (seq 0 16))) as [Ia Ib].
  { split; apply in_map_iff; [exists (Z.to_nat a)|exists (Z.to_nat b)]; rewrite in_seq; lia. }
  simpl in Ia, Ib.
  repeat (destruct Ia as [<-|Ia]; [repeat (destruct Ib as [<-|Ib]; [vm_compute; congruence|]); done|]).
  done.
Qed.

Lemma land_15 z : Z.land z 15 = (z mod 16)%Z.
Proof. exact (Z.land_ones z 4 ltac:(lia)). Qed.

Lemma hex_fill_inj n a b :
  (0 <= a < 16 ^ Z.of_nat n)%Z -> (0 <= b < 16 ^ Z.of_nat n)%Z ->
  hex_fill n a [] = hex_fill n b [] -> a = b.
Proof.
  revert a b. induction n as [|n IH]; intros a b Ha Hb; simpl hex_fill; [simpl in *; lia|].
  rewrite (hex_fill_app n _ [_]), (hex_fill_app n (Z.shiftr b 4) [_]). intros E.
  apply app_inj_2 in E as [E1 E2]; [|done]. injection E2 as E2.
  rewrite !land_15 in E2. apply hex_digit_inj in E2; [|apply Z.mod_pos_bound; lia..].
  rewrite Nat2Z.inj_succ, Z.pow_succ_r in Ha, Hb by lia.
  apply IH in E1; rewrite !Z.shiftr_div_pow2 in * by lia; change (2 ^ 4)%Z with 16%Z in *;
    try (split; [apply Z.div_pos; lia | apply Z.div_lt_upper_bound; lia]).
  rewrite (Z.div_mod a 16), (Z.div_mod b 16) by lia. congruence.
Qed.

(** ** Properties *)

(** a scope leaves the stack of its caller as it found it, at any depth:
    beyond [kMaxDepth] frames it pushes nothing and pops nothing. *)
Theorem with_scope_balanced {A} ctx (body : Stack -> A * Stack) s :
  (forall s', (body s').2 = s') -> (with_scope ctx body s).2 = s /\
  (body (scope_enter ctx s).1).1 = (with_scope ctx body s).1 /\
  (depth s < kMaxDepth -> current (scope_enter ctx s).1 = ctx).
Proof.
  intros H. unfold with_scope, depth, scope_enter.
  destruct (length s <? kMaxDepth) eqn:E; cbn [fst]; specialize (H (ctx :: s)) as H1; specialize (H s) as H2.
  - destruct (body (ctx :: s)) as [a s2]. simpl in *. by subst.
  - destruct (body s) as [a s2]. simpl in *. bool_prop. split_and!; [done..|lia].
Qed.

Lemma with_scope_balanced_witness :
  (with_scope (set_wrote defaultInstance) (fun s => (cx_wroteInThisRequest (current s), s)) []).2 = [].
Proof.
  apply (with_scope_balanced (set_wrote defaultInstance)
           (fun s => (cx_wroteInThisRequest (current s), s)) []). done.
Defined.

Definition trace_ok (ctx : SqlContext) : Prop :=
  length (cx_traceId ctx) = 32 /\ length (cx_spanId ctx) = 16 /\
  forallb isHex (cx_traceId ctx) = true /\ forallb isHex (cx_spanId ctx) = true /\
  all_zero (cx_traceId ctx) = false /\ all_zero (cx_spanId ctx) = false.

Lemma format_ok ctx : trace_ok ctx ->
  formatTraceparent ctx = lit "00-" ++ cx_traceId ctx ++ lit "-" ++ cx_spanId ctx ++ lit "-01".
Proof.
  intros (H1 & H2 & H3 & H4 & H5 & H6). unfold formatTraceparent. by rewrite H1, H2, H3, H4, H5, H6.
Qed.

Lemma format_not_ok ctx : formatTraceparent ctx <> [] -> trace_ok ctx.
Proof.
  unfold formatTraceparent, trace_ok. intros H.
  repeat (case_match; [done|]). bool_prop. done.
Qed.

(** a header is written exactly for the contexts the standard allows, and
    reading it back gives the same trace and span identifiers. *)
Theorem traceparent_roundtrip ctx :
  (formatTraceparent ctx <> [] <-> trace_ok ctx) /\
  (trace_ok ctx ->
   parseTraceparent (formatTraceparent ctx) =
     Some (mkContext (cx_traceId ctx) (cx_spanId ctx) [] [] false false Unspecified)).
Proof.
  split; [split; [apply format_not_ok|]|]; intros H; rewrite (format_ok ctx H); [done|].
  destruct H as (H1 & H2 & H3 & H4 & H5 & H6).
  destruct ctx as [t sp x1 x2 x3 x4 x5]. cbn [cx_traceId cx_spanId] in *.
  unfold parseTraceparent.
  assert (L : length (lit "00-" ++ t ++ lit "-" ++ sp ++ lit "-01") = 55).
  { rewrite !length_app, H1, H2. done. }
  rewrite L. cbn [Nat.eqb negb].
  assert (C35 : char_at (lit "00-" ++ t ++ lit "-" ++ sp ++ lit "-01") 35 = "-"%char).
  { unfold char_at. rewrite !app_nth2 by (simpl; lia). simpl length. rewrite H1.
    done. }
  assert (C52 : char_at (lit "00-" ++ t ++ lit "-" ++ sp ++ lit "-01") 52 = "-"%char).
  { unfold char_at. rewrite !app_nth2; rewrite ?H1, ?H2; simpl; try lia. done. }
  rewrite C35, C52.
  change (char_at (lit "00-" ++ ?x) 0) with "0"%char. change (char_at (lit "00-" ++ ?x) 1) with "0"%char.
  change (char_at (lit "00-" ++ ?x) 2) with "-"%char. cbn [Ascii.eqb Bool.eqb negb orb andb].
  rewrite (copyHex_at _ (lit "00-") t (lit "-" ++ sp ++ lit "-01") 3 32); [|done|done|reflexivity|symmetry; exact H1].
  rewrite (copyHex_at _ (lit "00-" ++ t ++ lit "-") sp (lit "-01") 36 16);
    [|by rewrite <- !app_assoc|done|by rewrite !length_app, H1|symmetry; exact H2].
  rewrite (copyHex_at _ (lit "00-" ++ t ++ lit "-" ++ sp ++ lit "-") (lit "01") [] 53 2);
    [|by rewrite <- !app_assoc|reflexivity|by rewrite !length_app, H1, H2|reflexivity].
  simpl. by rewrite H5, H6.
Qed.

Definition demo_trace : SqlContext :=
  mkContext (lit "4bf92f3577b34da6a3ce929d0e0e4736") (lit "00f067aa0ba902b7") [] [] false false Unspecified.

Lemma traceparent_roundtrip_witness :
  parseTraceparent (formatTraceparent demo_trace) = Some demo_trace.
Proof. apply (traceparent_roundtrip demo_trace). by vm_compute. Defined.

(** span identifiers are 16 characters, and the ones drawn from two states
    of the process-wide counter are equal only if the counter is the same
    modulo 2^64. *)
Theorem span_ids_unique ctx a b :
  (cx_traceId ctx <> [] \/ cx_spanId ctx <> []) ->
  length (nextSpanId ctx a).1 = 16 /\
  ((nextSpanId ctx a).1 = (nextSpanId ctx b).1 -> u64 (a + 1) = u64 (b + 1)).
Proof.
  intros H. unfold nextSpanId.
  assert ((is_nil (cx_traceId ctx) && is_nil (cx_spanId ctx)) = false) as ->.
  { destruct (cx_traceId ctx), (cx_spanId ctx), H; done. }
  cbn [fst]. split; [by rewrite hex_fill_length|]. intros E. cbn [fst] in E.
  apply (hex_fill_inj 16) in E; [done|apply u64_range..].
Qed.

Lemma span_ids_unique_witness :
  length (nextSpanId demo_trace 41).1 = 16 /\ (nextSpanId demo_trace 41).1 = lit "000000000000002a".
Proof.
  split; [|by vm_compute]. apply (span_ids_unique demo_trace 41 41); by left.
Defined.
