(* ===== verification/Interceptor.v ===== *)
(** * SQL interceptors (src/core/interceptor.cpp)

    The registry's callbacks around an execution and the two thread-local
    stacks that keep SQL issued by a callback, or by a nested session, from
    triggering callbacks again.  The callbacks are user code: each is an
    arbitrary transformer of the thread and of the rest [R] of the program
    state, which includes the registry itself. *)
From stdpp Require Import base list strings.
From Stdlib Require Import Ascii ZArith Lia.
From S2P Require Import Prelude Types Context.

(** The [thread_local] variables of this file and of [context.cpp]; a registry
    is named by its address. *)
Record Thread := mkThread {
  th_execution : list nat;
  th_callback : list nat;
  th_context : Stack }.

(** [std::count(stack.begin(), stack.end(), &registry)] *)
Definition count_of (registry : nat) (stack : list nat) : nat :=
  length (List.filter (Nat.eqb registry) stack).

Definition push_execution (r : nat) (t : Thread) : Thread :=
  mkThread (r :: th_execution t) (th_callback t) (th_context t).
Definition pop_execution (t : Thread) : Thread :=
  mkThread (tail (th_execution t)) (th_callback t) (th_context t).
Definition push_callback (r : nat) (t : Thread) : Thread :=
  mkThread (th_execution t) (r :: th_callback t) (th_context t).
Definition pop_callback (t : Thread) : Thread :=
  mkThread (th_execution t) (tail (th_callback t)) (th_context t).
Definition set_context (s : Stack) (t : Thread) : Thread :=
  mkThread (th_execution t) (th_callback t) s.

(** The part of [ExecutionView] that the registry writes. *)
Record View := mkView {
  v_ctx : SqlContext;
  v_status : Status;
  v_result : option ResultSet;
  v_affected : Z }.

Definition set_v_status (st : Status) (v : View) : View :=
  mkView (v_ctx v) st (v_result v) (v_affected v).

Section Registry.
Context {R : Type}.
Local Open Scope st_scope.

Abbreviation M := (ST (Thread * R)).

(** [ISqlInterceptor]; [None] and an unchanged argument are a callback that
    throws before it returns. *)
Record ISqlInterceptor := mkInterceptor {
  onRoute : SqlContext -> M SqlContext;
  beforeExecution : View -> M (option Status);
  afterExecution : View -> M unit;
  onRow : View -> Row -> M Row;
  onCompletion : View -> M unit }.

(** The registry: its address, the atomic flag and the list under the mutex. *)
Context (self : nat) (enabled : R -> bool) (snapshot : R -> list ISqlInterceptor).

(** [add] (a null pointer is ignored) and [clear]. *)
Definition registry_add (i : option ISqlInterceptor) (l : list ISqlInterceptor)
  : list ISqlInterceptor := match i with Some i => l ++ [i] | None => l end.
Definition registry_clear (l : list ISqlInterceptor) : list ISqlInterceptor := [].

Definition upd_thread (f : Thread -> Thread) : M unit := modify (fun s => (f s.1, s.2)).

(** A [CallbackGuard] around a loop. *)
Definition with_callback_guard {A} (m : M A) : M A :=
  upd_thread (push_callback self) ;;
  a <-- m;
  upd_thread pop_callback ;;
  ret a.

Definition active_now (max_execution : nat) : M bool :=
  reads (fun s => enabled s.2 && (count_of self (th_execution s.1) <=? max_execution)
                  && (count_of self (th_callback s.1) =? 0)).

Fixpoint route_loop (l : list ISqlInterceptor) (ctx : SqlContext) : M SqlContext :=
  match l with
  | [] => ret ctx
  | i :: l' => c <-- onRoute i ctx; route_loop l' c
  end.

Definition runOnRoute (ctx : SqlContext) : M SqlContext :=
  ok <-- active_now 0;
  if ok then with_callback_guard (l <-- reads (fun s => snapshot s.2); route_loop l ctx)
  else ret ctx.

Fixpoint before_loop (l : list ISqlInterceptor) (view : View) (status : Status) : M Status :=
  match l with
  | [] => ret status
  | i :: l' =>
      r <-- beforeExecution i view;
      let status := default status r in
      if st_ok status then before_loop l' view status else ret status
  end.

Definition runBeforeExecution (view : View) : M Status :=
  ok <-- active_now 1;
  if ok then with_callback_guard (l <-- reads (fun s => snapshot s.2); before_loop l view StatusOK)
  else ret StatusOK.

Definition runAfterExecution (view : View) : M unit :=
  ok <-- active_now 1;
  if ok then with_callback_guard (l <-- reads (fun s => snapshot s.2);
                                  for_each l (fun i => afterExecution i view))
  else ret tt.

Fixpoint row_loop (l : list ISqlInterceptor) (view : View) (row : Row) : M Row :=
  match l with
  | [] => ret row
  | i :: l' => r <-- onRow i view row; row_loop l' view r
  end.

Definition runOnRow (view : View) (row : Row) : M Row :=
  ok <-- active_now 1;
  if ok then with_callback_guard (l <-- reads (fun s => snapshot s.2); row_loop l view row)
  else ret row.

(** The constructor and the destructor of [InterceptorGuard]. *)
Definition guard_enter : M bool :=
  active <-- active_now 0;
  (if active then upd_thread (push_execution self) else ret tt) ;;
  ret active.

Definition guard_exit (active : bool) (view : View) : M unit :=
  if active then
    with_callback_guard (l <-- reads (fun s => snapshot s.2);
                         for_each l (fun i => onCompletion i view)) ;;
    upd_thread pop_execution
  else ret tt.

(** [const common::ContextScope scope(ctx)] around a call. *)
Definition in_scope {A} (ctx : SqlContext) (m : M A) : M A :=
  entered <-- (fun s => let '(st, e) := scope_enter ctx (th_context s.1) in
                        (e, (set_context st s.1, s.2)));
  a <-- m;
  upd_thread (fun t => set_context (scope_exit entered (th_context t)) t) ;;
  ret a.

(** [runWithInterceptors] of database_manager.cpp: [fn] returns its status and
    what it stored in [*result] and [*affected]. *)
Definition runWithInterceptors (view : View)
    (fn : M (Status * option ResultSet * option Z)) : M Status :=
  active <-- guard_enter;
  if negb active then (r <-- fn; ret r.1.1)
  else
    st <-- runBeforeExecution view;
    if negb (st_ok st) then
      guard_exit active (mkView (v_ctx view) st None (v_affected view)) ;;
      ret st
    else
      r <-- in_scope (v_ctx view)
              (r <-- fn;
               let '(st, result, affected) := r in
               let view := mkView (v_ctx view) st (if st_ok st then result else None)
                             (if st_ok st then default (v_affected view) affected
                              else v_affected view) in
               runAfterExecution view ;;
               ret (st, view));
      guard_exit active r.2 ;;
      ret r.1.

(** ** Balance of the thread-local stacks *)

Definition quiet {A} (m : M A) : Prop := preserves fst m.

Lemma quiet_reads {A} (f : Thread * R -> A) : quiet (reads f).
Proof. done. Qed.

Lemma quiet_guard {A} (m : M A) : quiet m -> quiet (with_callback_guard m).
Proof.
  intros H [t r]. unfold with_callback_guard, upd_thread, modify, bind, ret. simpl.
  specialize (H (push_callback self t, r)). destruct (m _) as [a [t' r']]. simpl in *. subst.
  by destruct t.
Qed.

Lemma quiet_in_scope {A} ctx (m : M A) : quiet m -> quiet (in_scope ctx m).
Proof.
  intros H [t r]. unfold in_scope, upd_thread, modify, bind, ret. simpl.
  pose proof (scope_balanced ctx (th_context t)) as B.
  destruct (scope_enter ctx (th_context t)) as [st e].
  specialize (H (set_context st t, r)). destruct (m _) as [a [t' r']]. simpl in *. subst t'.
  destruct t. simpl in *. by rewrite B.
Qed.

(** What the library asks of user callbacks: they leave the stacks of the
    thread as they found them. *)
Record well_behaved (i : ISqlInterceptor) : Prop := {
  wb_route c : quiet (onRoute i c);
  wb_before v : quiet (beforeExecution i v);
  wb_after v : quiet (afterExecution i v);
  wb_row v r : quiet (onRow i v r);
  wb_completion v : quiet (onCompletion i v) }.

Definition registry_well_behaved : Prop := forall r, Forall well_behaved (snapshot r).

Lemma quiet_bind_snapshot {A} (k : list ISqlInterceptor -> M A) :
  registry_well_behaved -> (forall l, Forall well_behaved l -> quiet (k l)) ->
  quiet (l <-- reads (fun s => snapshot s.2); k l).
Proof. intros H Hk s. unfold bind, reads. apply Hk, H. Qed.

Lemma quiet_for_each l (body : ISqlInterceptor -> M unit) :
  Forall well_behaved l -> (forall i, well_behaved i -> quiet (body i)) -> quiet (for_each l body).
Proof.
  intros Hl Hb. induction Hl; simpl; [by apply preserves_ret|].
  apply preserves_bind; [by apply Hb | done].
Qed.

Lemma quiet_before_loop l view st : Forall well_behaved l -> quiet (before_loop l view st).
Proof.
  intros Hl. revert st. induction Hl as [|i l Hi Hl IH]; intros st; simpl; [by apply preserves_ret|].
  apply preserves_bind; [by apply wb_before|]. intros a.
  destruct (st_ok (default st a)); [apply IH | by apply preserves_ret].
Qed.

Lemma quiet_before view : registry_well_behaved -> quiet (runBeforeExecution view).
Proof.
  intros H. apply preserves_bind; [done|]. intros []; [|done].
  apply quiet_guard, quiet_bind_snapshot; [done|]. intros l. by apply quiet_before_loop.
Qed.

Lemma quiet_after view : registry_well_behaved -> quiet (runAfterExecution view).
Proof.
  intros H. apply preserves_bind; [done|]. intros []; [|done].
  apply quiet_guard, quiet_bind_snapshot; [done|]. intros l Hl.
  apply quiet_for_each; [done|]. intros i Hi. by apply wb_after.
Qed.

Lemma quiet_completions view :
  registry_well_behaved ->
  quiet (with_callback_guard (l <-- reads (fun s => snapshot s.2);
                              for_each l (fun i => onCompletion i view))).
Proof.
  intros H. apply quiet_guard, quiet_bind_snapshot; [done|]. intros l Hl.
  apply quiet_for_each; [done|]. intros i Hi. by apply wb_completion.
Qed.

(** The guard pops what it pushed. *)
Lemma guard_exit_pops v t r :
  registry_well_behaved -> (guard_exit true v (push_execution self t, r)).2.1 = t.
Proof.
  intros H. unfold guard_exit, upd_thread, modify, bind at 1.
  pose proof (quiet_completions v H (push_execution self t, r)) as Q.
  destruct (with_callback_guard _ _) as [u [t' r']]. simpl in *. subst. by destruct t.
Qed.

(** The part of an execution between the guard's constructor and its
    destructor: what it returns and the view the destructor reports. *)
Definition guarded_body (view : View) (fn : M (Status * option ResultSet * option Z))
  : M (Status * View) :=
  st <-- runBeforeExecution view;
  if negb (st_ok st) then ret (st, mkView (v_ctx view) st None (v_affected view))
  else
    in_scope (v_ctx view)
      (r <-- fn;
       let '(st, result, affected) := r in
       let view := mkView (v_ctx view) st (if st_ok st then result else None)
                     (if st_ok st then default (v_affected view) affected
                      else v_affected view) in
       runAfterExecution view ;;
       ret (st, view)).

Lemma quiet_guarded_body view fn :
  registry_well_behaved -> quiet fn -> quiet (guarded_body view fn).
Proof.
  intros H Hf. apply preserves_bind; [by apply quiet_before|]. intros st.
  destruct (negb (st_ok st)); [by apply preserves_ret|].
  apply quiet_in_scope, preserves_bind; [done|]. intros [[st' res] aff].
  apply preserves_bind; [by apply quiet_after|]. intros _. by apply preserves_ret.
Qed.

Ltac destruct_guard :=
  match goal with |- context [guard_exit true ?v ?s] => by destruct (guard_exit true v s) end.

Lemma run_eq view fn s :
  runWithInterceptors view fn s =
  let '(active, s1) := guard_enter s in
  if negb active then let '(r, s2) := fn s1 in (r.1.1, s2)
  else let '(r, s2) := guarded_body view fn s1 in
       let '(_, s3) := guard_exit true r.2 s2 in (r.1, s3).
Proof.
  unfold runWithInterceptors, guarded_body, bind. destruct (guard_enter s) as [[] s1]; cbn [negb].
  - destruct (runBeforeExecution view s1) as [st s2]. destruct (negb (st_ok st)).
    + unfold ret. cbn [fst snd]. destruct_guard.
    + destruct (in_scope _ _ s2) as [r s3]. destruct_guard.
  - unfold ret. by destruct (fn s1).
Qed.

(** *** Invariants

    A property of the state that does not look at the thread is kept by an
    execution when every callback and the statement keep it. *)
Record keeping (P : Thread * R -> Prop) (i : ISqlInterceptor) : Prop := {
  kp_route c : keeps P (onRoute i c);
  kp_before v : keeps P (beforeExecution i v);
  kp_after v : keeps P (afterExecution i v);
  kp_row v r : keeps P (onRow i v r);
  kp_completion v : keeps P (onCompletion i v) }.

Definition thread_blind (P : Thread * R -> Prop) : Prop := forall t t' r, P (t, r) -> P (t', r).

Section Invariant.
Context (P : Thread * R -> Prop) (blind : thread_blind P)
        (callbacks : forall r, Forall (keeping P) (snapshot r)).

Lemma keeps_upd_thread f : keeps P (upd_thread f).
Proof using blind. intros [t r] H. by apply (blind t). Qed.

Lemma keeps_guarded {A} (k : list ISqlInterceptor -> M A) :
  (forall l, Forall (keeping P) l -> keeps P (k l)) ->
  keeps P (with_callback_guard (l <-- reads (fun s => snapshot s.2); k l)).
Proof using blind callbacks.
  intros Hk. apply keeps_bind; [apply keeps_upd_thread|]. intros _. apply keeps_bind.
  - intros s H. by apply Hk.
  - intros a. apply keeps_bind; [apply keeps_upd_thread | intros _; apply keeps_ret].
Qed.

Lemma keeps_for_each_in l (body : ISqlInterceptor -> M unit) :
  Forall (keeping P) l -> (forall i, keeping P i -> keeps P (body i)) -> keeps P (for_each l body).
Proof using.
  intros Hl Hb. induction Hl; [apply keeps_ret|]. apply keeps_bind; [by apply Hb | done].
Qed.

Lemma keeps_route ctx : keeps P (runOnRoute ctx).
Proof using blind callbacks.
  apply keeps_bind; [apply keeps_reads|]. intros []; [|apply keeps_ret]. apply keeps_guarded.
  intros l Hl. revert ctx. induction Hl as [|i l Hi Hl IH]; intros ctx; [apply keeps_ret|].
  apply keeps_bind; [apply Hi | apply IH].
Qed.

Lemma keeps_before view : keeps P (runBeforeExecution view).
Proof using blind callbacks.
  apply keeps_bind; [apply keeps_reads|]. intros []; [|apply keeps_ret]. apply keeps_guarded.
  intros l Hl. generalize StatusOK. induction Hl as [|i l Hi Hl IH]; intros st; [apply keeps_ret|].
  apply keeps_bind; [apply Hi|]. intros a. cbn. destruct (st_ok _); [apply IH | apply keeps_ret].
Qed.

Lemma keeps_after view : keeps P (runAfterExecution view).
Proof using blind callbacks.
  apply keeps_bind; [apply keeps_reads|]. intros []; [|apply keeps_ret]. apply keeps_guarded.
  intros l Hl. apply keeps_for_each_in; [done|]. intros i Hi. apply Hi.
Qed.

Lemma keeps_row view row : keeps P (runOnRow view row).
Proof using blind callbacks.
  apply keeps_bind; [apply keeps_reads|]. intros []; [|apply keeps_ret]. apply keeps_guarded.
  intros l Hl. revert row. induction Hl as [|i l Hi Hl IH]; intros row; [apply keeps_ret|].
  apply keeps_bind; [apply Hi | apply IH].
Qed.

Lemma keeps_guard_exit active view : keeps P (guard_exit active view).
Proof using blind callbacks.
  destruct active; [|apply keeps_ret]. apply keeps_bind; [|intros _; apply keeps_upd_thread].
  apply keeps_guarded. intros l Hl. apply keeps_for_each_in; [done|]. intros i Hi. apply Hi.
Qed.

Lemma keeps_in_scope {A} ctx (m : M A) : keeps P m -> keeps P (in_scope ctx m).
Proof using blind.
  intros Hm. apply keeps_bind.
  - intros [t r] H. cbn [fst snd]. destruct (scope_enter ctx (th_context t)) as [st e]. by apply (blind t).
  - intros e. apply keeps_bind; [done|]. intros a.
    apply keeps_bind; [apply keeps_upd_thread | intros _; apply keeps_ret].
Qed.

Lemma keeps_run view fn : keeps P fn -> keeps P (runWithInterceptors view fn).
Proof using blind callbacks.
  intros Hf. apply keeps_bind.
  { apply keeps_bind; [apply keeps_reads|]. intros a.
    apply keeps_bind; [|intros _; apply keeps_ret]. destruct a; [apply keeps_upd_thread | apply keeps_ret]. }
  intros [] ; cbn [negb]; [|apply keeps_bind; [done | intros; apply keeps_ret]].
  apply keeps_bind; [apply keeps_before|]. intros st. destruct (negb (st_ok st)).
  - apply keeps_bind; [apply keeps_guard_exit | intros _; apply keeps_ret].
  - apply keeps_bind.
    + apply keeps_in_scope, keeps_bind; [done|]. intros [[st' res] aff].
      apply keeps_bind; [apply keeps_after | intros _; apply keeps_ret].
    + intros r. apply keeps_bind; [apply keeps_guard_exit | intros _; apply keeps_ret].
Qed.
End Invariant.

Definition idle_thread (s : Thread * R) : Prop :=
  count_of self (th_execution s.1) = 0 /\ count_of self (th_callback s.1) = 0.

Lemma guard_enter_cases s :
  (enabled s.2 = true /\ idle_thread s /\ guard_enter s = (true, (push_execution self s.1, s.2))) \/
  ((enabled s.2 = false \/ ~ idle_thread s) /\ guard_enter s = (false, s)).
Proof.
  unfold guard_enter, active_now, idle_thread, bind, reads.
  destruct (enabled s.2) eqn:E; [|by right; split; [left|destruct s]].
  destruct (count_of self (th_execution s.1)) eqn:E1; cbn [Nat.leb andb].
  - destruct (count_of self (th_callback s.1)) eqn:E2; cbn [Nat.eqb].
    + left. by destruct s.
    + right. split; [right; intros [? ?]; congruence | by destruct s].
  - right. split; [right; intros [? ?]; congruence | by destruct s].
Qed.

(** an execution leaves the execution, callback and context stacks of the
    thread exactly as it found them, whether it is vetoed, nested, or runs. *)
Theorem run_with_interceptors_balanced view fn :
  registry_well_behaved -> quiet fn -> quiet (runWithInterceptors view fn).
Proof.
  intros H Hf s. rewrite run_eq. destruct (guard_enter_cases s) as [(_ & _ & ->)|[_ ->]]; cbn [negb].
  - pose proof (quiet_guarded_body view fn H Hf (push_execution self s.1, s.2)) as Q.
    destruct (guarded_body _ _ _) as [r [t2 r2]]. cbn [fst snd] in Q. subst t2.
    pose proof (guard_exit_pops r.2 s.1 r2 H) as P. destruct (guard_exit true r.2 _). exact P.
  - specialize (Hf s). by destruct (fn s).
Qed.

(** SQL issued while a callback of the registry is running, or from within
    an execution it already reports, runs without any callback. *)
Theorem nested_execution_is_silent view fn ctx s :
  ~ idle_thread s ->
  runWithInterceptors view fn s = (let '(r, s2) := fn s in (r.1.1, s2)) /\
  runOnRoute ctx s = (ctx, s).
Proof.
  intros H. split.
  - rewrite run_eq. by destruct (guard_enter_cases s) as [(_ & ? & _)|[_ ->]].
  - destruct (guard_enter_cases s) as [(_ & ? & _)|[_ E]]; [done|].
    unfold guard_enter, bind in E. unfold runOnRoute, bind.
    destruct (active_now 0 s) as [[] s1] eqn:Ea; [done|]. by injection E as ->.
Qed.

(** a rejection by [beforeExecution] keeps the statement from running: the
    outcome is the rejection whatever the statement would have done, and the
    completion callbacks still see it. *)
Theorem rejection_skips_the_statement view fn s st s1 :
  enabled s.2 = true -> idle_thread s ->
  runBeforeExecution view (push_execution self s.1, s.2) = (st, s1) -> st_ok st = false ->
  runWithInterceptors view fn s =
    (st, (guard_exit true (mkView (v_ctx view) st None (v_affected view)) s1).2).
Proof.
  intros He Hi Hb Hs. rewrite run_eq. destruct (guard_enter_cases s) as [(_ & _ & ->)|[[|] _]];
    [|congruence|done]. cbn [negb].
  unfold guarded_body, bind. rewrite Hb, Hs. cbn [negb ret fst snd].
  destruct_guard.
Qed.

(** The verdict of callbacks that only answer: [None] throws. *)
Fixpoint verdict_of (answers : list (option Status)) (status : Status) : Status :=
  match answers with
  | [] => status
  | a :: l => let s := default status a in if st_ok s then verdict_of l s else s
  end.

Lemma before_loop_answers (ans : ISqlInterceptor -> option Status) l view st s :
  (forall i s, i ∈ l -> beforeExecution i view s = (ans i, s)) ->
  before_loop l view st s = (verdict_of (map ans l) st, s).
Proof.
  revert st. induction l as [|i l IH]; intros st H; [done|].
  cbn [before_loop map verdict_of]. unfold bind at 1. rewrite H by by left.
  destruct (st_ok (default st (ans i))); [|done]. apply IH. intros j s' Hj. apply H. by right.
Qed.

(** The first answer that is an error decides; a callback that throws does not
    reject. *)
Lemma verdict_ok answers st :
  st_ok st = true ->
  (st_ok (verdict_of answers st) = false <->
   exists k e, answers !! k = Some (Some e) /\ st_ok e = false).
Proof.
  revert st. induction answers as [|a l IH]; intros st Hs; simpl; [split; [congruence|naive_solver]|].
  destruct (st_ok (default st a)) eqn:E.
  - rewrite IH by done. split.
    + intros (k & e & H1 & H2). by exists (S k), e.
    + intros ([|k] & e & H1 & H2); simpl in H1; [|by exists k, e].
      simplify_eq. simpl in E. congruence.
  - split; [|done]. intros _. exists 0, (default st a). destruct a as [e|]; simpl in *; [done|congruence].
Qed.

(** the statement is rejected exactly when some [beforeExecution] answers
    with an error; one that throws does not reject. *)
Theorem before_execution_rejects (ans : ISqlInterceptor -> option Status) view s :
  enabled s.2 = true -> count_of self (th_execution s.1) <= 1 ->
  count_of self (th_callback s.1) = 0 ->
  (forall i s', i ∈ snapshot s.2 -> beforeExecution i view s' = (ans i, s')) ->
  st_ok (runBeforeExecution view s).1 = false <->
  exists i e, i ∈ snapshot s.2 /\ ans i = Some e /\ st_ok e = false.
Proof.
  intros He Hx Hc Ha. unfold runBeforeExecution, active_now, bind, reads. rewrite He, Hc.
  assert ((count_of self (th_execution s.1) <=? 1) = true) as -> by by apply Nat.leb_le.
  cbn [andb Nat.eqb]. unfold with_callback_guard, upd_thread, modify, bind. cbn [fst snd].
  rewrite (before_loop_answers ans) by done. cbn [ret fst].
  rewrite verdict_ok by done. split.
  - intros (k & e & Hk & He'). rewrite list_lookup_fmap in Hk.
    destruct (snapshot s.2 !! k) as [i|] eqn:Ei; [|done]. injection Hk as Hk.
    exists i, e. split_and!; [by eapply list_elem_of_lookup_2 | done..].
  - intros (i & e & Hi & Hae & He'). apply list_elem_of_lookup_1 in Hi as [k Hk].
    exists k, e. by rewrite list_lookup_fmap, Hk, <- Hae.
Qed.
End Registry.

Arguments mkInterceptor {R}.

(** ** A concrete registry

    One interceptor rejects, one counts its completions in [R := nat]. *)
Definition rejected : Status := status_error SqlBlocked (lit "no").
Definition rejecting : @ISqlInterceptor nat :=
  mkInterceptor ret (fun _ => ret (Some rejected)) (fun _ => ret tt) (fun _ r => ret r)
    (fun _ => modify (fun s => (s.1, S s.2))).
Definition no_thread : Thread := mkThread [] [] [].
Definition demo_view : View := mkView defaultInstance StatusOK None 0.
Definition demo_fn : ST (Thread * nat) (Status * option ResultSet * option Z) :=
  ret (StatusOK, None, Some 3%Z).

Lemma demo_well_behaved : registry_well_behaved (fun _ => [rejecting]).
Proof. intros r. by repeat constructor. Qed.

Lemma run_with_interceptors_balanced_witness :
  (runWithInterceptors 1 (fun _ => true) (fun _ => [rejecting]) demo_view demo_fn (no_thread, 0)).2.1
  = no_thread.
Proof.
  apply (run_with_interceptors_balanced 1 (fun _ => true) (fun _ => [rejecting]) demo_view demo_fn);
    [apply demo_well_behaved | done].
Defined.

Lemma nested_execution_is_silent_witness :
  runWithInterceptors 1 (fun _ => true) (fun _ => [rejecting]) demo_view demo_fn
    (mkThread [1] [] [], 0) = (StatusOK, (mkThread [1] [] [], 0)).
Proof.
  apply (nested_execution_is_silent 1 (fun _ => true) (fun _ => [rejecting]) demo_view demo_fn
           defaultInstance (mkThread [1] [] [], 0)).
  by intros [? _].
Defined.

Lemma rejection_skips_the_statement_witness :
  runWithInterceptors 1 (fun _ => true) (fun _ => [rejecting]) demo_view demo_fn (no_thread, 0)
  = (rejected, (no_thread, 1)).
Proof.
  rewrite (rejection_skips_the_statement 1 (fun _ => true) (fun _ => [rejecting]) demo_view demo_fn
             (no_thread, 0) rejected (mkThread [1] [] [], 0)); reflexivity || by split.
Defined.

Lemma before_execution_rejects_witness :
  st_ok (runBeforeExecution 1 (fun _ => true) (fun _ => [rejecting]) demo_view (no_thread, 0)).1 = false.
Proof.
  apply (before_execution_rejects 1 (fun _ => true) (fun _ => [rejecting])
           (fun _ => Some rejected) demo_view (no_thread, 0)); [done|vm_compute; lia|done| |].
  - intros i s' Hi. apply list_elem_of_singleton in Hi as ->. done.
  - exists rejecting, rejected. by split; [left|].
Defined.
