(* ===== verification/Observer.v ===== *)
(** * Observability (src/common/observer.cpp)

    The events of statements, the slow-statement table with its least-recently
    used eviction, the list of recent slow statements, the statement log, the
    thread-local snapshots of the configuration and the pool metrics. The
    callbacks a user registers are identified by numbers and their calls are
    outputs of the model; what they do, and the exceptions they throw (which are
    caught), do not reach the state modelled here. *)
From stdpp Require Import base gmap list strings sorting.
From Stdlib Require Import Ascii ZArith Lia.
From S2P Require Import Prelude Doubles Types Config Context SqlAnalyze Connection.

Open Scope Z_scope.
#[local] Set Warnings "-clear-no-such-hyp".

(** ** Data *)
Record OperationEvent := mkEvent {
  ev_dataSource : str;
  ev_type : OperationType;
  ev_duration : Z;
  ev_status : Status;
  ev_rowCount : Z;
  ev_sqlTemplate : str;
  ev_renderedSql : str;
  ev_sqlFingerprint : Z;
  ev_traceId : str;
  ev_spanId : str;
  ev_slow : bool;
  ev_shadow : bool;
  ev_transformed : bool;
}.

Record SlowSqlStats := mkSlowStats {
  sw_fingerprint : Z;
  sw_dataSource : str;
  sw_type : OperationType;
  sw_sqlTemplate : str;
  sw_count : Z;
  sw_errorCount : Z;
  sw_timeoutCount : Z;
  sw_totalDuration : Z;
  sw_minDuration : Z;
  sw_maxDuration : Z;
  sw_firstSeen : Z;
  sw_lastSeen : Z;
  sw_histogramBucketsMs : list Z;
  sw_histogram : list Z;
}.
Definition slow_stats_default : SlowSqlStats :=
  mkSlowStats 0 [] OpQuery [] 0 0 0 0 0 0 0 0 [] [].

Record SlowSqlRecord := mkSlowRecord {
  re_timestamp : Z;
  re_dataSource : str;
  re_type : OperationType;
  re_sqlTemplate : str;
  re_renderedSql : str;
  re_fingerprint : Z;
  re_duration : Z;
  re_errorCode : ErrorCode;
  re_sqlState : str;
  re_traceId : str;
  re_spanId : str;
}.

(** What [statsMutex] guards: the table, the recent statements (oldest first),
    the recency list (latest first) and the keys that have a position in it. *)
Record SlowStore := mkStore {
  st_slowStats : gmap Z SlowSqlStats;
  st_recentSlow : list SlowSqlRecord;
  st_lru : list Z;
  st_lruPos : gset Z;
}.
Definition store_empty : SlowStore := mkStore ∅ [] [] ∅.

Inductive LogLevel := LvDebug | LvInfo | LvWarn | LvError.

Definition parseLevel (level : str) : LogLevel :=
  if str_eqb level (lit "info") then LvInfo
  else if str_eqb level (lit "warn") then LvWarn
  else if str_eqb level (lit "error") then LvError
  else LvDebug.

Definition level_rank (l : LogLevel) : Z :=
  match l with LvDebug => 0 | LvInfo => 1 | LvWarn => 2 | LvError => 3 end.

(** [Logger::log]: whether a message of [level] is written. *)
Definition logger_writes (minLevel level : LogLevel) : bool :=
  negb (level_rank level <? level_rank minLevel).

Definition operationName (t : OperationType) : string :=
  match t with
  | OpQuery => "query"
  | OpExecute => "execute"
  | OpStream => "stream"
  | OpBatch => "batch"
  | OpSelect => "select"
  | OpRoutine => "routine"
  | _ => "operation"
  end.

(** The values of the enumeration, as [fingerprint] hashes them. *)
Definition operation_byte (t : OperationType) : ascii :=
  ascii_of_N match t with
  | OpQuery => 0 | OpExecute => 1 | OpBegin => 2 | OpCommit => 3 | OpRollback => 4
  | OpCancel => 5 | OpStream => 6 | OpBatch => 7 | OpSavepoint => 8 | OpSelect => 9
  | OpRoutine => 10
  end%N.

(** ** Texts *)

(** [structuralSql], which repeats [buildStructural] of sql_analyze.cpp. *)
Definition structuralSql (sql : str) : str := structural_loop (length sql) None sql [] false.

Definition fingerprint (dataSource : str) (type : OperationType) (sql : str) : Z :=
  fold_left fnv_step (dataSource ++ "000"%char :: operation_byte type :: sql) fnv_offset.

(** The loop of [truncate]: whether the first [n] characters end inside a
    literal. *)
Fixpoint ends_in_literal (text : str) (n : nat) (escaped inLiteral : bool) : bool :=
  match n, text with
  | S n1, c :: t =>
      if escaped then ends_in_literal t n1 false inLiteral
      else if ch c backslash then ends_in_literal t n1 true inLiteral
      else if ch c squote then
        match n1, t with
        | S n2, d :: t2 => if ch d squote then ends_in_literal t2 n2 false inLiteral
                           else ends_in_literal t n1 false (negb inLiteral)
        | _, _ => ends_in_literal t n1 false (negb inLiteral)
        end
      else ends_in_literal t n1 false inLiteral
  | _, _ => inLiteral
  end.

Definition truncate (text : str) (limit : Z) : str :=
  if Z.of_nat (length text) <=? limit then text
  else
    let n := Z.to_nat limit in
    let head := take n text in
    (if ends_in_literal text n false false then head ++ [squote] else head)
    ++ lit "...[truncated, original_length=" ++ dec_nat (length text) ++ lit "]".

(** [static_cast<std::size_t>] of an [int]. *)
Definition as_size (z : Z) : Z := u64 z.

(** ** The recency list *)
Definition touchLru (fp : Z) (s : SlowStore) : SlowStore :=
  if decide (fp ∈ st_lruPos s)
  then mkStore (st_slowStats s) (st_recentSlow s)
         (fp :: filter (fun x => x <> fp) (st_lru s)) (st_lruPos s)
  else mkStore (st_slowStats s) (st_recentSlow s) (fp :: st_lru s) ({[fp]} ∪ st_lruPos s).

Definition evictLru (s : SlowStore) : SlowStore :=
  match last (st_lru s) with
  | None => s
  | Some fp => mkStore (delete fp (st_slowStats s)) (st_recentSlow s)
                 (take (length (st_lru s) - 1) (st_lru s)) (st_lruPos s ∖ {[fp]})
  end.

(** ** A slow statement *)
Fixpoint bucket_of (duration : Z) (buckets : list Z) : nat :=
  match buckets with
  | b :: rest => if b * 1000 <? duration then S (bucket_of duration rest) else O
  | [] => O
  end.

Definition incr_bucket (h : list Z) (i : nat) : list Z := alter (fun n => u64 (n + 1)) i h.

Definition new_stats (cfg : SlowSqlConfig) (ev : OperationEvent) (structure : str) (now : Z)
    (s : SlowSqlStats) : SlowSqlStats :=
  mkSlowStats (ev_sqlFingerprint ev) (ev_dataSource ev) (ev_type ev)
    (truncate structure (as_size (ss_max_sql_length cfg)))
    (sw_count s) (sw_errorCount s) (sw_timeoutCount s) (sw_totalDuration s)
    (ev_duration ev) (sw_maxDuration s) now (sw_lastSeen s)
    (ss_histogram_buckets_ms cfg) (replicate (S (length (ss_histogram_buckets_ms cfg))) 0).

Definition bump_stats (ev : OperationEvent) (now : Z) (s : SlowSqlStats) : SlowSqlStats :=
  mkSlowStats (sw_fingerprint s) (sw_dataSource s) (sw_type s) (sw_sqlTemplate s)
    (u64 (sw_count s + 1))
    (if negb (st_ok (ev_status ev)) then u64 (sw_errorCount s + 1) else sw_errorCount s)
    (if code_eqb (st_code (ev_status ev)) QueryTimeout
     then u64 (sw_timeoutCount s + 1) else sw_timeoutCount s)
    (sw_totalDuration s + ev_duration ev)
    (Z.min (sw_minDuration s) (ev_duration ev)) (Z.max (sw_maxDuration s) (ev_duration ev))
    (sw_firstSeen s) now (sw_histogramBucketsMs s)
    (incr_bucket (sw_histogram s) (bucket_of (ev_duration ev) (sw_histogramBucketsMs s))).

Definition slow_record (cfg : SlowSqlConfig) (ev : OperationEvent) (template : str) (now : Z)
    : SlowSqlRecord :=
  mkSlowRecord now (ev_dataSource ev) (ev_type ev) template
    (if ss_retain_rendered_sql cfg
     then truncate (ev_renderedSql ev) (as_size (ss_max_sql_length cfg)) else [])
    (ev_sqlFingerprint ev) (ev_duration ev) (st_code (ev_status ev))
    (st_sqlState (ev_status ev)) (ev_traceId ev) (ev_spanId ev).

Definition push_recent (cfg : SlowSqlConfig) (r : SlowSqlRecord) (s : SlowStore) : SlowStore :=
  let kept := if as_size (ss_recent_capacity cfg) <=? Z.of_nat (length (st_recentSlow s))
              then tail (st_recentSlow s) else st_recentSlow s in
  mkStore (st_slowStats s) (kept ++ [r]) (st_lru s) (st_lruPos s).

Definition record_slow (cfg : SlowSqlConfig) (ev : OperationEvent) (structure : str) (now : Z)
    (s : SlowStore) : SlowStore :=
  let aggKey := ev_sqlFingerprint ev in
  let isNew := negb (bool_decide (is_Some (st_slowStats s !! aggKey))) in
  let s1 := if isNew && (as_size (ss_aggregate_capacity cfg) <=? Z.of_nat (size (st_slowStats s)))
            then evictLru s else s in
  let s2 := touchLru aggKey s1 in
  let found := default slow_stats_default (st_slowStats s2 !! aggKey) in
  let stats := bump_stats ev now (if isNew then new_stats cfg ev structure now found else found) in
  let s3 := mkStore (<[aggKey := stats]> (st_slowStats s2)) (st_recentSlow s2) (st_lru s2)
              (st_lruPos s2) in
  if 0 <? ss_recent_capacity cfg
  then push_recent cfg (slow_record cfg ev (sw_sqlTemplate stats) now) s3 else s3.

Definition clearSlowSqlStats (s : SlowStore) : SlowStore := store_empty.

(** [slowSqlStats]: [std::sort] with the comparison of averages is a parameter;
    [recentSlowSql] walks the records from the latest. *)
Definition slowSqlStats (sort : list SlowSqlStats -> list SlowSqlStats) (limit : nat)
    (dataSource : str) (s : SlowStore) : list SlowSqlStats :=
  take limit (sort (List.filter
    (fun x => is_nil dataSource || str_eqb (sw_dataSource x) dataSource)
    (map snd (map_to_list (st_slowStats s))))).

Fixpoint recent_loop (limit : nat) (dataSource : str) (rev_records : list SlowSqlRecord)
    (result : list SlowSqlRecord) : list SlowSqlRecord :=
  match rev_records with
  | [] => result
  | r :: rest =>
      if negb (is_nil dataSource) && negb (str_eqb (re_dataSource r) dataSource)
      then recent_loop limit dataSource rest result
      else
        let result := result ++ [r] in
        if (limit <=? length result)%nat then result
        else recent_loop limit dataSource rest result
  end.

Definition recentSlowSql (limit : nat) (dataSource : str) (s : SlowStore)
    : list SlowSqlRecord :=
  if (limit =? 0)%nat then []
  else recent_loop limit dataSource (rev (st_recentSlow s)) [].

(** ** The configuration *)
Definition normalize (config : ObservabilityConfig) : ObservabilityConfig :=
  let s := ob_slow_sql config in
  mkObservabilityConfig (ob_sql_log config)
    (mkSlowSqlConfig (ss_enabled s) (ss_threshold_ms s)
       (if ss_aggregate_capacity s <? 1 then 1 else ss_aggregate_capacity s)
       (if ss_recent_capacity s <? 0 then 0 else ss_recent_capacity s)
       (ss_retain_rendered_sql s) (ss_max_sql_length s) (ss_histogram_buckets_ms s))
    (ob_pool_metrics config) (ob_stats_report config).

Fixpoint evict_while (fuel : nat) (capacity : Z) (s : SlowStore) : SlowStore :=
  match fuel with
  | S f => if capacity <? Z.of_nat (size (st_slowStats s))
           then evict_while f capacity (evictLru s) else s
  | O => s
  end.

(** The part of [configure] under [statsMutex]. *)
Definition configure_store (config : ObservabilityConfig) (s : SlowStore) : SlowStore :=
  let slow := ob_slow_sql (normalize config) in
  let buckets := ss_histogram_buckets_ms slow in
  let changed := existsb (fun x => negb (bool_decide (sw_histogramBucketsMs x.2 = buckets)))
                   (map_to_list (st_slowStats s)) in
  let s1 := if changed then mkStore ∅ (st_recentSlow s) [] ∅ else s in
  let s2 := evict_while (size (st_slowStats s1)) (as_size (ss_aggregate_capacity slow)) s1 in
  let over := (length (st_recentSlow s2) - Z.to_nat (as_size (ss_recent_capacity slow)))%nat in
  mkStore (st_slowStats s2) (drop over (st_recentSlow s2)) (st_lru s2) (st_lruPos s2).

(** What [stateMutex] guards, and the version the thread-local snapshots are
    checked against. [P] is a sample of the pools; a collector that throws
    returns [None]. *)
Section Settings.
Context {P : Type}.

Record Settings := mkSettings {
  se_config : ObservabilityConfig;
  se_observer : option nat;
  se_poolObserver : option nat;
  se_poolCollector : option (option (list P));
  se_poolCollectorOwner : nat;
}.
(** The initial settings; owner 0 is the null pointer. *)
Definition settings_init : Settings := mkSettings default_observability None None None 0.

Definition set_observer (o : option nat) (s : Settings) : Settings :=
  mkSettings (se_config s) o (se_poolObserver s) (se_poolCollector s) (se_poolCollectorOwner s).
Definition set_poolObserver (o : option nat) (s : Settings) : Settings :=
  mkSettings (se_config s) (se_observer s) o (se_poolCollector s) (se_poolCollectorOwner s).
Definition set_poolCollector (c : option (option (list P))) (owner : nat) (s : Settings)
    : Settings :=
  mkSettings (se_config s) (se_observer s) (se_poolObserver s) c
    (match c with Some _ => owner | None => 0%nat end).
Definition set_config (c : ObservabilityConfig) (s : Settings) : Settings :=
  mkSettings (normalize c) (se_observer s) (se_poolObserver s) (se_poolCollector s)
    (se_poolCollectorOwner s).

(** [clearPoolMetricsCollector]: the settings and whether they changed. *)
Definition clear_poolCollector (owner : nat) (s : Settings) : Settings * bool :=
  if (se_poolCollectorOwner s =? owner)%nat
  then (mkSettings (se_config s) (se_observer s) (se_poolObserver s) None 0, true)
  else (s, false).

(** [samplePoolMetrics]: the pools of the event, and the observer that gets it. *)
Definition samplePoolMetrics (s : Settings) : list P * option nat :=
  (match se_poolCollector s with Some (Some pools) => pools | _ => [] end, se_poolObserver s).

(** [currentSnapshot]: the shared settings with their version, the number of
    setters between their two critical steps, and the copy of one thread. *)
Record Shared := mkShared {
  sh_settings : Settings;
  sh_version : Z;
  sh_pending : nat;
  sh_copy : option (Z * Settings);
}.

(** A setter under [stateMutex], then its increment of the version. *)
Definition setter_write (f : Settings -> Settings) (s : Shared) : Shared :=
  mkShared (f (sh_settings s)) (sh_version s) (S (sh_pending s)) (sh_copy s).
Definition setter_publish (s : Shared) : Shared :=
  mkShared (sh_settings s) (sh_version s + 1) (sh_pending s - 1) (sh_copy s).

Definition currentSnapshot (s : Shared) : Settings * Shared :=
  match sh_copy s with
  | Some (v, copy) =>
      if v =? sh_version s then (copy, s)
      else (sh_settings s, mkShared (sh_settings s) (sh_version s) (sh_pending s)
                             (Some (sh_version s, sh_settings s)))
  | None => (sh_settings s, mkShared (sh_settings s) (sh_version s) (sh_pending s)
                              (Some (sh_version s, sh_settings s)))
  end.

Inductive shared_step : Shared -> Shared -> Prop :=
  | step_write f s : shared_step s (setter_write f s)
  | step_publish s : (0 < sh_pending s)%nat -> shared_step s (setter_publish s)
  | step_read s : shared_step s (currentSnapshot s).2.
End Settings.
Arguments Settings : clear implicits.
Arguments Shared : clear implicits.

(** ** [emitSql]

    What leaves the function: lines for the logger, events for observers. *)
Inductive Output :=
  | LogLine (level : LogLevel) (text : str)
  | Observed (observer : nat) (event : OperationEvent).

(** The counters of the process and of the thread, and the slow statements. *)
Record EmitState := mkEmit {
  em_spanSeq : Z;
  em_sampleSeq : Z;
  em_store : SlowStore;
}.

(** The caller's trace, span, shadow and transformed marks. *)
Definition annotate (ctx : SqlContext) (result : option ResultSet) (ev : OperationEvent)
    (spanSeq : Z) : OperationEvent * Z :=
  let traceId := if is_nil (cx_traceId ctx) then ev_traceId ev else cx_traceId ctx in
  let '(spanId, seq) :=
    if negb (is_nil (cx_spanId ctx)) then (cx_spanId ctx, spanSeq)
    else if negb (is_nil traceId) then nextSpanId ctx spanSeq
    else (ev_spanId ev, spanSeq) in
  (mkEvent (ev_dataSource ev) (ev_type ev) (ev_duration ev) (ev_status ev) (ev_rowCount ev)
     (ev_sqlTemplate ev) (ev_renderedSql ev) (ev_sqlFingerprint ev) traceId spanId (ev_slow ev)
     (if cx_shadow ctx then true else ev_shadow ev)
     (match result with
      | Some r => if rs_transformed r then true else ev_transformed ev
      | None => ev_transformed ev
      end), seq).

Definition durationMs (ev : OperationEvent) : Z := Z.quot (ev_duration ev) 1000.

Definition log_eligible (cfg : ObservabilityConfig) (ev : OperationEvent) : bool :=
  let log := ob_sql_log cfg in
  sl_enabled log
  && (negb (sl_slow_only log) || (ss_threshold_ms (ob_slow_sql cfg) <=? durationMs ev))
  && ((st_ok (ev_status ev) && sl_log_success log)
      || (negb (st_ok (ev_status ev)) && sl_log_errors log)).

Definition sampled (log : SqlLogConfig) (fp sequence : Z) : bool :=
  negb (sl_enabled log)
  || num_leb (f64 1) (sl_sample_rate log)
  || (num_ltb (f64 0) (sl_sample_rate log)
      && num_ltb (fdiv (f64 (Z.lxor fp sequence mod 1000000)) (f64 1000000))
           (sl_sample_rate log)).

Definition render_options (cfg : ObservabilityConfig) : SqlRenderOptions :=
  let log := ob_sql_log cfg in
  mkRenderOptions (sl_include_string_values log) (sl_include_blob_values log)
    (Z.to_nat (as_size (sl_max_param_length log)))
    (Z.to_nat (as_size (Z.max (sl_max_sql_length log) (ss_max_sql_length (ob_slow_sql cfg))))).

Definition is_full (log : SqlLogConfig) : bool := str_eqb (sl_mode log) (lit "full").

(** The event with its fingerprint, slow mark, template and rendered text. *)
Definition with_texts (fp : Z) (slow : bool) (template rendered : str) (ev : OperationEvent)
    : OperationEvent :=
  mkEvent (ev_dataSource ev) (ev_type ev) (ev_duration ev) (ev_status ev) (ev_rowCount ev)
    template rendered fp (ev_traceId ev) (ev_spanId ev) slow (ev_shadow ev) (ev_transformed ev).

Definition log_text (cfg : ObservabilityConfig) (ev : OperationEvent) : str :=
  let displaySql := if is_full (ob_sql_log cfg) && negb (is_nil (ev_renderedSql ev))
                    then ev_renderedSql ev else ev_sqlTemplate ev in
  lit "sql datasource=" ++ ev_dataSource ev ++ lit " operation=" ++ lit (operationName (ev_type ev))
  ++ lit " duration_ms=" ++ dec_Z (durationMs ev) ++ lit " rows=" ++ dec_Z (ev_rowCount ev)
  ++ lit " status=" ++ lit (errorCodeToString (st_code (ev_status ev)))
  ++ lit " fingerprint=" ++ dec_Z (ev_sqlFingerprint ev)
  ++ (if is_nil (ev_traceId ev) then [] else lit " trace=" ++ ev_traceId ev)
  ++ (if is_nil (ev_spanId ev) then [] else lit " span=" ++ ev_spanId ev)
  ++ lit " statement=" ++ displaySql.

Abbreviation SqlRenderer := (SqlRenderOptions -> Status * str).

Definition rendered_text (cfg : ObservabilityConfig) (renderer : option SqlRenderer)
    (wanted : bool) (old : str) : str :=
  match renderer with
  | Some f => if wanted
              then let '(st, text) := f (render_options cfg) in if st_ok st then text else old
              else old
  | None => old
  end.

Definition emitSql (cfg : ObservabilityConfig) (observer : option nat) (ctx : SqlContext)
    (now : Z) (event : OperationEvent) (sql : str) (renderer : option SqlRenderer)
    (result : option ResultSet) (s : EmitState) : list Output * EmitState :=
  let log := ob_sql_log cfg in
  let slowCfg := ob_slow_sql cfg in
  let '(ev, spanSeq) := annotate ctx result event (em_spanSeq s) in
  if bool_decide (observer = None) && negb (ss_enabled slowCfg) && negb (sl_enabled log)
  then ([], mkEmit spanSeq (em_sampleSeq s) (em_store s))
  else
    let either := ss_enabled slowCfg || sl_enabled log in
    let structure := if either then structuralSql sql else [] in
    let fp := if either then fingerprint (ev_dataSource ev) (ev_type ev) structure
              else ev_sqlFingerprint ev in
    let slow := ss_enabled slowCfg && (ss_threshold_ms slowCfg <=? durationMs ev) in
    let eligible := log_eligible cfg ev in
    let sequence := if sl_enabled log then u64 (em_sampleSeq s + 1) else 0 in
    let sampleSeq := if sl_enabled log then sequence else em_sampleSeq s in
    let picked := eligible && sampled log fp sequence in
    let template :=
      if slow || picked
      then truncate sql (as_size (if slow then ss_max_sql_length slowCfg
                                  else sl_max_sql_length log))
      else ev_sqlTemplate ev in
    let rendered :=
      rendered_text cfg renderer
        ((picked && is_full log) || (slow && ss_retain_rendered_sql slowCfg)) (ev_renderedSql ev) in
    let ev := with_texts fp slow template rendered ev in
    let store := if slow then record_slow slowCfg ev structure now (em_store s) else em_store s in
    ((if picked then [LogLine (parseLevel (sl_level log)) (log_text cfg ev)] else [])
       ++ match observer with Some o => [Observed o ev] | None => [] end,
     mkEmit spanSeq sampleSeq store).

(** [emit]: an event that is no statement. *)
Definition emit (observer : option nat) (event : OperationEvent) : list Output :=
  match observer with Some o => [Observed o event] | None => [] end.

(** ** The slow-statement table *)
Record stats_ok (key : Z) (s : SlowSqlStats) : Prop := {
  ok_key : sw_fingerprint s = key;
  ok_buckets : length (sw_histogram s) = S (length (sw_histogramBucketsMs s));
  ok_sum : u64 (foldr Z.add 0 (sw_histogram s)) = sw_count s;
  ok_range : sw_minDuration s <= sw_maxDuration s;
}.

(** [C] and [R] bound the capacities configured so far. *)
Record store_ok (C R : Z) (s : SlowStore) : Prop := {
  ok_nodup : NoDup (st_lru s);
  ok_dom k : k ∈ st_lru s <-> is_Some (st_slowStats s !! k);
  ok_pos : st_lruPos s = list_to_set (st_lru s);
  ok_size : Z.of_nat (length (st_lru s)) <= C;
  ok_recent : Z.of_nat (length (st_recentSlow s)) <= R;
  ok_stats : map_Forall stats_ok (st_slowStats s);
}.

Lemma store_ok_empty C R : 0 <= C -> 0 <= R -> store_ok C R store_empty.
Proof.
  intros HC HR. split; cbn; [apply NoDup_nil_2 | | done.. | apply map_Forall_empty].
  intros k. rewrite lookup_empty. split; [by intros ?%elem_of_nil | by intros [? ?]].
Qed.

Lemma store_size C R s : store_ok C R s -> size (st_slowStats s) = length (st_lru s).
Proof.
  intros H. rewrite <- size_dom. rewrite <- (size_list_to_set (C := gset Z) (st_lru s)) by apply H.
  f_equal. apply set_eq. intros k. rewrite elem_of_dom, elem_of_list_to_set. symmetry. apply H.
Qed.

Lemma pos_iff C R s k : store_ok C R s -> k ∈ st_lruPos s <-> k ∈ st_lru s.
Proof. intros H. rewrite (ok_pos _ _ _ H). by rewrite elem_of_list_to_set. Qed.

Lemma evictLru_eq s l x : st_lru s = l ++ [x] ->
  evictLru s = mkStore (delete x (st_slowStats s)) (st_recentSlow s) l (st_lruPos s ∖ {[x]}).
Proof.
  intros E. unfold evictLru. rewrite E, last_snoc, length_app. cbn [length].
  by rewrite Nat.add_sub, take_app_length.
Qed.

Lemma evictLru_ok C R s : store_ok C R s -> store_ok C R (evictLru s).
Proof.
  intros H. destruct (st_lru s) as [|x0 l0] eqn:E0 using rev_ind.
  { unfold evictLru. by rewrite E0. }
  rewrite (evictLru_eq _ _ _ E0). destruct H as [H1 H2 H3 H4 H5 H6]. rewrite E0 in *.
  apply NoDup_app in H1 as (H1 & H1' & _). split; cbn; try done.
  - intros k. rewrite lookup_delete_is_Some, <- H2, elem_of_app, list_elem_of_singleton.
    split; [|naive_solver]. intros Hk. split; [|by left]. intros ->. apply (H1' _ Hk).
    by apply list_elem_of_singleton.
  - rewrite H3, list_to_set_app_L. cbn. apply set_eq. intros k.
    rewrite elem_of_difference, elem_of_union, elem_of_list_to_set, elem_of_union, !elem_of_singleton.
    split; [set_solver|]. intros Hk. split; [by left|]. intros ->. apply (H1' _ Hk).
    by apply list_elem_of_singleton.
  - rewrite length_app in H4. lia.
  - by apply map_Forall_delete.
Qed.

Lemma evictLru_length C R s : store_ok C R s ->
  length (st_lru (evictLru s)) = (length (st_lru s) - 1)%nat.
Proof.
  intros H. destruct (st_lru s) as [|x0 l0] eqn:E0 using rev_ind.
  { unfold evictLru. rewrite E0. cbn. by rewrite E0. }
  rewrite (evictLru_eq _ _ _ E0), length_app. cbn. lia.
Qed.

(** Recording in the table itself: the key moves to the front of the recency
    list, a new key taking the place of the least recently used one. *)
Lemma touch_insert_ok C R s fp stats :
  store_ok C R s -> Z.of_nat (length (st_lru s)) < C \/ fp ∈ st_lru s -> stats_ok fp stats ->
  store_ok C R (mkStore (<[fp := stats]> (st_slowStats s)) (st_recentSlow s)
                  (st_lru (touchLru fp s)) (st_lruPos (touchLru fp s))).
Proof.
  intros H Hroom Hst. pose proof (pos_iff _ _ _ fp H) as Hp.
  destruct H as [H1 H2 H3 H4 H5 H6]. unfold touchLru.
  destruct (decide (fp ∈ st_lruPos s)) as [Hin|Hout]; split; cbn; try done;
    try by apply map_Forall_insert_2.
  - constructor; [|by apply NoDup_filter]. rewrite list_elem_of_filter. naive_solver.
  - intros k. rewrite elem_of_cons, list_elem_of_filter, lookup_insert_is_Some', <- H2.
    destruct (decide (k = fp)); naive_solver.
  - rewrite H3. apply set_eq. intros k.
    rewrite elem_of_union, elem_of_singleton, !elem_of_list_to_set, list_elem_of_filter.
    destruct (decide (k = fp)); naive_solver.
  - destruct Hroom as [Hroom|Hroom].
    + pose proof (length_filter (fun x => x <> fp) (st_lru s)). lia.
    + pose proof (length_filter_lt (fun x => x <> fp) (st_lru s) fp Hroom). naive_solver lia.
  - constructor; [|done]. naive_solver.
  - intros k. rewrite elem_of_cons, lookup_insert_is_Some', <- H2. naive_solver.
  - by rewrite H3.
  - destruct Hroom; [lia | naive_solver].
Qed.

Lemma bucket_of_le d bs : (bucket_of d bs <= length bs)%nat.
Proof. induction bs as [|b bs IH]; cbn; [lia|]. case_match; lia. Qed.

Lemma u64_add_l a b : u64 (u64 a + b) = u64 (a + b).
Proof. apply Zplus_mod_idemp_l. Qed.
Lemma u64_add_r a b : u64 (a + u64 b) = u64 (a + b).
Proof. apply Zplus_mod_idemp_r. Qed.

Lemma incr_bucket_sum h i : (i < length h)%nat ->
  u64 (foldr Z.add 0 (incr_bucket h i)) = u64 (foldr Z.add 0 h + 1).
Proof.
  revert i. induction h as [|n h IH]; intros i Hi; [simpl in Hi; lia|].
  unfold incr_bucket in *. destruct i as [|i]; cbn.
  - rewrite u64_add_l. f_equal. lia.
  - simpl in Hi. rewrite <- u64_add_r, IH, u64_add_r by lia. f_equal. lia.
Qed.

Lemma sum_zeros n : foldr Z.add 0 (replicate n 0) = 0.
Proof. induction n; cbn; lia. Qed.

Lemma bump_stats_ok key ev now s : stats_ok key s \/
    (sw_fingerprint s = key /\ sw_count s = 0 /\ sw_histogram s =
       replicate (S (length (sw_histogramBucketsMs s))) 0 /\ sw_minDuration s = ev_duration ev) ->
  stats_ok key (bump_stats ev now s).
Proof.
  intros H.
  assert (sw_fingerprint s = key
          /\ length (sw_histogram s) = S (length (sw_histogramBucketsMs s))
          /\ u64 (foldr Z.add 0 (sw_histogram s)) = sw_count s) as (H1 & H2 & H3).
  { destruct H as [[H1 H2 H3 _]|(H1 & H2 & H3 & _)]; [done|].
    rewrite H3, length_replicate, sum_zeros, H2. done. }
  split; cbn; [done | | | lia].
  - unfold incr_bucket. by rewrite length_alter.
  - rewrite incr_bucket_sum by (rewrite H2; pose proof (bucket_of_le (ev_duration ev)
      (sw_histogramBucketsMs s)); lia).
    by rewrite <- H3, u64_add_l.
Qed.

(** The capacities of a configuration that [configure] let through. *)
Definition bounded (C R : Z) (cfg : SlowSqlConfig) : Prop :=
  1 <= ss_aggregate_capacity cfg <= C /\ 0 <= ss_recent_capacity cfg <= R /\ C < two64 /\ R < two64.

Lemma as_size_id z : 0 <= z < two64 -> as_size z = z.
Proof. intros H. by apply Z.mod_small. Qed.

Lemma push_recent_ok C R cfg r s : bounded C R cfg -> 0 < ss_recent_capacity cfg ->
  store_ok C R s -> store_ok C R (push_recent cfg r s).
Proof.
  intros (_ & HR & _ & HR') Hpos [H1 H2 H3 H4 H5 H6]. unfold push_recent.
  split; cbn; try done. rewrite as_size_id by lia. rewrite length_app. cbn [length].
  case_match eqn:E; bool_prop; [|lia].
  destruct (st_recentSlow s); cbn in *; lia.
Qed.

Lemma touchLru_stats fp s : st_slowStats (touchLru fp s) = st_slowStats s
  /\ st_recentSlow (touchLru fp s) = st_recentSlow s.
Proof. unfold touchLru. by case_decide. Qed.

Lemma record_slow_ok C R cfg ev structure now s :
  bounded C R cfg -> store_ok C R s -> store_ok C R (record_slow cfg ev structure now s).
Proof.
  intros Hb H. unfold record_slow. set (fp := ev_sqlFingerprint ev).
  set (isNew := negb _).
  set (s1 := if isNew && _ then evictLru s else s).
  destruct (touchLru_stats fp s1) as [-> ->].
  set (stats := bump_stats ev now _).
  assert (store_ok C R s1 /\ (Z.of_nat (length (st_lru s1)) < C \/ fp ∈ st_lru s1)
          /\ stats_ok fp stats) as (Hs1 & Hroom & Hst).
  { unfold stats, s1, isNew, fp. case_bool_decide as Hin; cbn [negb andb].
    - destruct Hin as [x Hx]. split; [done | split].
      + right. apply H. by rewrite Hx.
      + rewrite Hx. apply bump_stats_ok. left. by apply (ok_stats _ _ _ H).
    - split; [|split].
      + case_match; [by apply evictLru_ok | done].
      + left. rewrite (store_size _ _ _ H). destruct Hb as (Hb & _ & HC & _).
        rewrite as_size_id by lia. case_match eqn:E; bool_prop.
        * rewrite (evictLru_length _ _ _ H). pose proof (ok_size _ _ _ H). lia.
        * pose proof (ok_size _ _ _ H). lia.
      + apply bump_stats_ok. right. cbn.
        match goal with |- context [st_slowStats ?x !! ?k] =>
          assert (st_slowStats x !! k = None) as -> end; [|done].
        apply eq_None_not_Some. intros Hx. apply Hin.
        case_match; [|done]. revert Hx. unfold evictLru. case_match; [|done]. cbn.
        by intros [_ ?]%lookup_delete_is_Some. }
  pose proof (touch_insert_ok C R s1 fp stats Hs1 Hroom Hst) as H3.
  case_match eqn:E; [|done]. bool_prop. by apply push_recent_ok.
Qed.

Lemma evict_while_ok C R fuel cap s : store_ok C R s -> 0 <= cap ->
  (length (st_lru s) <= fuel)%nat ->
  store_ok C R (evict_while fuel cap s)
  /\ Z.of_nat (size (st_slowStats (evict_while fuel cap s))) <= Z.max 0 cap
  /\ st_recentSlow (evict_while fuel cap s) = st_recentSlow s.
Proof.
  revert s. induction fuel as [|fuel IH]; intros s H Hc Hf; cbn [evict_while].
  - rewrite (store_size _ _ _ H). split; [done | split; [lia | done]].
  - case_match eqn:E; bool_prop.
    + destruct (IH (evictLru s)) as (A & B & D); [by apply evictLru_ok | done | |].
      { rewrite (evictLru_length _ _ _ H). lia. }
      split; [done | split; [done|]]. rewrite D. unfold evictLru. by case_match.
    + split; [done | split; [lia | done]].
Qed.

(** A configuration whose capacities stay within the bounds. *)
Definition within (C R : Z) (config : ObservabilityConfig) : Prop :=
  ss_aggregate_capacity (ob_slow_sql config) <= C
  /\ ss_recent_capacity (ob_slow_sql config) <= R /\ 1 <= C < two64 /\ 0 <= R < two64.

Lemma normalize_bounded C R config : within C R config ->
  bounded C R (ob_slow_sql (normalize config)).
Proof. intros (H1 & H2 & H3 & H4). unfold bounded. cbn. repeat case_match; bool_prop; lia. Qed.

(** [configure] leaves the table within the new capacities. *)
Lemma configure_store_ok C R config s : within C R config -> store_ok C R s ->
  let slow := ob_slow_sql (normalize config) in
  store_ok C R (configure_store config s)
  /\ Z.of_nat (size (st_slowStats (configure_store config s))) <= ss_aggregate_capacity slow
  /\ Z.of_nat (length (st_recentSlow (configure_store config s))) <= ss_recent_capacity slow.
Proof.
  intros Hw H slow. destruct (normalize_bounded _ _ _ Hw) as (HA & HR & HC & HR').
  fold slow in HA, HR. unfold configure_store. fold slow. clearbody slow.
  set (s1 := if existsb _ _ then _ else s).
  assert (store_ok C R s1) as H1.
  { unfold s1. case_match; [|done]. destruct H as [_ _ _ _ H5 _].
    destruct (store_ok_empty C R) as [E1 E2 E3 E4 E5 E6]; [lia | lia |].
    split; done. }
  rewrite (store_size _ _ _ H1), !as_size_id by lia.
  destruct (evict_while_ok C R (length (st_lru s1)) (ss_aggregate_capacity slow) s1 H1)
    as (H2 & Hsz & _); [lia | done |].
  set (s2 := evict_while _ _ s1) in *. cbn. rewrite length_drop.
  destruct H2 as [F1 F2 F3 F4 F5 F6]. split; [split; cbn; try done | split; [lia|lia]].
  rewrite length_drop. lia.
Qed.

(** Any sequence of statements, reconfigurations and clears. A statement runs
    with a configuration that was in force at some time, not necessarily the
    present one: its snapshot was taken before the table was locked. *)
Inductive store_step (C R : Z) : SlowStore -> SlowStore -> Prop :=
  | step_emit config observer ctx now ev sql renderer result spans samples s :
      within C R config ->
      store_step C R s
        (em_store (emitSql (normalize config) observer ctx now ev sql renderer result
                     (mkEmit spans samples s)).2)
  | step_configure config s : within C R config -> store_step C R s (configure_store config s)
  | step_clear s : store_step C R s (clearSlowSqlStats s).

Lemma emitSql_store config observer ctx now ev sql renderer result s :
  let s' := (emitSql config observer ctx now ev sql renderer result s).2 in
  em_store s' = em_store s
  \/ exists ev' structure,
       em_store s' = record_slow (ob_slow_sql config) ev' structure now (em_store s).
Proof.
  unfold emitSql. destruct (annotate ctx result ev (em_spanSeq s)) as [ev1 seq].
  case_match; [by left|]. cbn [snd em_store]. case_match; [right; eauto | by left].
Qed.

Lemma store_step_ok C R s s' : 1 <= C -> 0 <= R -> store_step C R s s' -> store_ok C R s ->
  store_ok C R s'.
Proof.
  intros HC HR [config observer ctx now ev sql renderer result spans samples s0 Hw
               |config s0 Hw|s0] H.
  - destruct (emitSql_store (normalize config) observer ctx now ev sql renderer result
                (mkEmit spans samples s0)) as [->|(ev' & st & ->)]; [done|].
    apply record_slow_ok; [by apply normalize_bounded | done].
  - by apply configure_store_ok.
  - apply store_ok_empty; lia.
Qed.

(** the slow-statement table after any sequence of statements,
    reconfigurations and clears, by any number of threads: the recency list has
    every key of the table once and nothing else, its index agrees with it,
    the table and the list of recent statements never exceed the largest
    capacity configured, and every entry is filed under its own fingerprint,
    has one histogram cell per bucket and one for the rest, counts in its
    histogram exactly as many statements as in its total (modulo 2^64), and has
    a minimum no greater than its maximum. *)
Theorem slow_table_invariant C R s (HC : 1 <= C) (HR : 0 <= R)
  (H : rtc (store_step C R) store_empty s) : store_ok C R s.
Proof.
  remember store_empty as s0 eqn:E0. assert (store_ok C R s0) as H0
    by (subst; apply store_ok_empty; lia).
  clear E0. induction H as [|s1 s2 s3 H12 _ IH]; [done|].
  apply IH. by eapply store_step_ok.
Qed.

Lemma slow_table_invariant_witness :
  store_ok 1000 200 (configure_store default_observability store_empty).
Proof.
  apply (slow_table_invariant 1000 200); [lia | lia |].
  apply rtc_once. apply step_configure. unfold within. cbn. unfold two64. lia.
Defined.

(** *** Which statements the table keeps

    The specification: of all the fingerprints recorded so far, each at its
    latest occurrence, the most recent ones that fit. *)
Definition recency (history : list Z) : list Z :=
  fold_left (fun r fp => fp :: filter (fun x => x <> fp) r) history [].

Lemma recency_snoc h fp : recency (h ++ [fp]) = fp :: filter (fun x => x <> fp) (recency h).
Proof. unfold recency. by rewrite fold_left_app. Qed.

Lemma filter_ne_id (fp : Z) (l : list Z) : fp ∉ l -> filter (fun x => x <> fp) l = l.
Proof.
  induction l as [|x l IH]; intros H; [done|]. apply not_elem_of_cons in H as [H1 H2].
  rewrite filter_cons_True by done. by rewrite IH.
Qed.

Lemma recency_nodup h : NoDup (recency h).
Proof.
  induction h as [|fp h IH] using rev_ind; [apply NoDup_nil_2|]. rewrite recency_snoc.
  constructor; [|by apply NoDup_filter]. rewrite list_elem_of_filter. naive_solver.
Qed.

(** Moving a key to the front commutes with keeping the first [c] keys. *)
Lemma take_front_in (fp : Z) c (l : list Z) : NoDup l -> fp ∈ take c l ->
  filter (fun x => x <> fp) (take c l) = take (c - 1) (filter (fun x => x <> fp) l).
Proof.
  revert c. induction l as [|x l IH]; intros c Hn Hin.
  { rewrite take_nil in Hin. by apply elem_of_nil in Hin. }
  destruct c as [|c]; [by apply elem_of_nil in Hin|]. cbn [take] in *.
  apply NoDup_cons in Hn as [Hx Hn]. destruct (decide (x = fp)) as [->|Hne].
  - rewrite !filter_cons_False by naive_solver. rewrite !filter_ne_id; [|done|].
    + by rewrite Nat.sub_succ, Nat.sub_0_r.
    + intros H. apply Hx. apply elem_of_take in H as (i & Hi & _). by apply list_elem_of_lookup_2 in Hi.
  - apply elem_of_cons in Hin as [?|Hin]; [congruence|].
    rewrite !filter_cons_True by done. rewrite IH by done.
    destruct c as [|c]; [by apply elem_of_nil in Hin|]. cbn. by rewrite Nat.sub_0_r.
Qed.

Lemma take_front_out (fp : Z) k c (l : list Z) : fp ∉ take c l -> (k <= c)%nat ->
  take k (filter (fun x => x <> fp) l) = take k l.
Proof.
  revert k c. induction l as [|x l IH]; intros k c Hout Hk; [done|].
  destruct k as [|k]; [done|]. destruct c as [|c]; [lia|]. cbn [take] in Hout.
  apply not_elem_of_cons in Hout as [H1 H2]. rewrite filter_cons_True by done.
  cbn. by rewrite (IH k c) by (done || lia).
Qed.

Lemma front_take (fp : Z) c (l : list Z) : (1 <= c)%nat -> NoDup l ->
  fp :: filter (fun x => x <> fp) (if decide (fp ∈ take c l) then take c l else take (c - 1) l)
  = take c (fp :: filter (fun x => x <> fp) l).
Proof.
  intros Hc Hn. destruct c as [|c]; [lia|]. rewrite Nat.sub_succ, Nat.sub_0_r.
  rewrite firstn_cons. f_equal. case_decide as Hin.
  - rewrite take_front_in by done. by rewrite Nat.sub_succ, Nat.sub_0_r.
  - rewrite (take_front_out fp c (S c)) by (done || lia). apply filter_ne_id.
    intros H. apply Hin. apply list_elem_of_lookup in H as [i Hi].
    apply lookup_take_Some in Hi as [Hi Hlt]. apply list_elem_of_lookup. exists i.
    apply lookup_take_Some. split; [done | lia].
Qed.

(** The events of slow statements recorded one after the other. *)
Definition record_all (cfg : SlowSqlConfig) (events : list (OperationEvent * str * Z)) : SlowStore :=
  fold_left (fun s '(ev, structure, now) => record_slow cfg ev structure now s) events store_empty.

Definition key_of (e : OperationEvent * str * Z) : Z := ev_sqlFingerprint e.1.1.

Lemma touchLru_lru C R fp s : store_ok C R s ->
  st_lru (touchLru fp s) = fp :: filter (fun x => x <> fp) (st_lru s).
Proof.
  intros H. pose proof (pos_iff _ _ _ fp H) as Hp. unfold touchLru. case_decide as Hin; [done|].
  cbn. rewrite filter_ne_id; [done|]. by rewrite <- Hp.
Qed.

Lemma record_slow_lru C R cfg ev structure now s : bounded C R cfg -> store_ok C R s ->
  let fp := ev_sqlFingerprint ev in
  st_lru (record_slow cfg ev structure now s) =
    fp :: filter (fun x => x <> fp)
      (if decide (fp ∈ st_lru s) then st_lru s
       else if ss_aggregate_capacity cfg <=? Z.of_nat (length (st_lru s))
            then st_lru (evictLru s) else st_lru s).
Proof.
  intros Hb H fp. unfold record_slow. fold fp.
  assert (bool_decide (is_Some (st_slowStats s !! fp)) = bool_decide (fp ∈ st_lru s)) as ->
    by (apply bool_decide_ext; symmetry; apply H).
  rewrite (store_size _ _ _ H), as_size_id by (destruct Hb as (? & ? & ? & ?); lia).
  set (s1 := if _ && _ then evictLru s else s).
  assert (store_ok C R s1) as Hs1 by (unfold s1; case_match; [by apply evictLru_ok | done]).
  transitivity (st_lru (touchLru fp s1)); [by case_match|].
  rewrite (touchLru_lru _ _ _ _ Hs1). f_equal. f_equal. unfold s1.
  case_decide as Hin; [by rewrite bool_decide_eq_true_2 | rewrite bool_decide_eq_false_2 by done].
  cbn [negb andb]. by case_match.
Qed.

Lemma evict_take C R s c : store_ok C R s -> length (st_lru s) = c ->
  st_lru (evictLru s) = take (c - 1) (st_lru s).
Proof.
  intros H Hc. destruct (st_lru s) as [|x0 l0] eqn:E0 using rev_ind.
  { unfold evictLru. rewrite E0. cbn. by rewrite E0, take_nil. }
  rewrite (evictLru_eq _ _ _ E0). cbn. rewrite <- Hc, length_app. cbn [length].
  by rewrite Nat.add_sub, take_app_length.
Qed.

Lemma record_all_ok C R cfg events : bounded C R cfg -> store_ok C R (record_all cfg events).
Proof.
  intros Hb. unfold record_all. induction events as [|[[ev st] now] events IH] using rev_ind.
  - apply store_ok_empty; destruct Hb as (? & ? & ? & ?); lia.
  - rewrite fold_left_app. by apply record_slow_ok.
Qed.

Lemma record_all_lru C R cfg events : bounded C R cfg ->
  st_lru (record_all cfg events) =
    take (Z.to_nat (ss_aggregate_capacity cfg)) (recency (map key_of events)).
Proof.
  intros Hb. pose proof Hb as ((Hc & _) & _).
  induction events as [|[[ev st] now] events IH] using rev_ind.
  - unfold record_all, recency. cbn [fold_left map]. by rewrite take_nil.
  - pose proof (record_all_ok C R cfg events Hb) as Hok. unfold record_all in *.
    rewrite fold_left_app, map_app. cbn [fold_left map]. rewrite recency_snoc.
    rewrite (record_slow_lru _ _ _ _ _ _ _ Hb Hok). change (key_of _) with (ev_sqlFingerprint ev).
    rewrite <- front_take by (lia || apply recency_nodup). f_equal. f_equal. rewrite IH.
    set (r := recency (map key_of events)). set (c := Z.to_nat (ss_aggregate_capacity cfg)).
    case_decide; [done|]. case_match eqn:E; bool_prop.
    + rewrite (evict_take _ _ _ c Hok); rewrite IH; fold r c.
      * rewrite take_take. f_equal. lia.
      * rewrite length_take in *. lia.
    + rewrite length_take in E. rewrite (take_ge r c) by lia. by rewrite take_ge by lia.
Qed.

(** the table is a least-recently-used cache of its capacity: after any
    sequence of slow statements under one configuration it holds exactly the
    most recently seen distinct fingerprints that fit, and the recency list has
    them from the latest to the oldest. *)
Theorem slow_table_keeps_most_recent C R cfg events (Hb : bounded C R cfg) :
  let kept := take (Z.to_nat (ss_aggregate_capacity cfg)) (recency (map key_of events)) in
  st_lru (record_all cfg events) = kept
  /\ forall k, is_Some (st_slowStats (record_all cfg events) !! k) <-> k ∈ kept.
Proof.
  intros kept. pose proof (record_all_ok C R cfg events Hb) as Hok.
  pose proof (record_all_lru C R cfg events Hb) as Hl. fold kept in Hl.
  split; [done|]. intros k. rewrite <- Hl. symmetry. apply Hok.
Qed.

Definition demo_event (fp : Z) : OperationEvent * str * Z :=
  (mkEvent (lit "main") OpQuery 700000 StatusOK 0 [] [] fp [] [] false false false, lit "SELECT ?", 0).

Lemma slow_table_keeps_most_recent_witness :
  let cfg := mkSlowSqlConfig true 500 2 0 false 4096 [10; 50] in
  let events := map demo_event [1; 2; 1; 3] in
  let kept := take 2 (recency (map key_of events)) in
  st_lru (record_all cfg events) = kept
  /\ forall k, is_Some (st_slowStats (record_all cfg events) !! k) <-> k ∈ kept.
Proof.
  apply (slow_table_keeps_most_recent 2 0 (mkSlowSqlConfig true 500 2 0 false 4096 [10; 50])).
  unfold bounded, two64. cbn. lia.
Defined.

(** *** Reading the tables *)
Definition of_source (dataSource : str) (r : SlowSqlRecord) : bool :=
  is_nil dataSource || str_eqb (re_dataSource r) dataSource.

Lemma recent_loop_spec limit ds rs acc : (length acc < limit)%nat ->
  recent_loop limit ds rs acc =
    acc ++ take (limit - length acc) (List.filter (of_source ds) rs).
Proof.
  revert acc. induction rs as [|r rs IH]; intros acc Hl; cbn [recent_loop List.filter].
  { by rewrite take_nil, app_nil_r. }
  unfold of_source at 1. rewrite <- negb_orb. destruct (_ || _) eqn:E; cbn [negb].
  - rewrite length_app. cbn [length]. case_match eqn:El; bool_prop.
    + replace (limit - length acc)%nat with 1%nat by lia. done.
    + rewrite IH by (rewrite length_app; cbn [length]; lia).
      rewrite length_app, <- app_assoc. cbn [length app].
      replace (limit - length acc)%nat with (S (limit - (length acc + 1))) by lia. done.
  - by apply IH.
Qed.

(** the recent slow statements are read latest first: of the records kept,
    those of the data source asked for (all of them for the empty name), at most
    [limit]. The statistics are at most [limit] of the table's entries of that
    source, in the order [std::sort] gives them. *)
Theorem slow_reads_spec sort limit ds s (Hsort : forall l, sort l ≡ₚ l) :
  recentSlowSql limit ds s = take limit (List.filter (of_source ds) (rev (st_recentSlow s)))
  /\ (length (slowSqlStats sort limit ds s) <= limit)%nat
  /\ forall x, x ∈ slowSqlStats sort limit ds s ->
       (exists k, st_slowStats s !! k = Some x) /\ (ds = [] \/ sw_dataSource x = ds).
Proof.
  split; [|split].
  - unfold recentSlowSql. destruct limit as [|limit]; [done|]. cbn [Nat.eqb].
    rewrite recent_loop_spec by (cbn; lia). cbn [app length]. by rewrite Nat.sub_0_r.
  - unfold slowSqlStats. rewrite length_take. lia.
  - intros x Hx. unfold slowSqlStats in Hx. apply elem_of_take in Hx as (i & Hi & _).
    apply list_elem_of_lookup_2 in Hi. rewrite Hsort in Hi.
    apply list_elem_of_In, filter_In in Hi as [Hin Hf].
    apply in_map_iff in Hin as ([k y] & <- & Hin). cbn in *. split.
    + exists k. apply list_elem_of_In in Hin. by apply elem_of_map_to_list in Hin.
    + destruct ds; [by left | right]. cbn in Hf. by apply str_eqb_eq in Hf.
Qed.

Lemma slow_reads_spec_witness :
  let s := record_all (mkSlowSqlConfig true 500 2 4 false 4096 [10]) (map demo_event [1; 2; 1]) in
  recentSlowSql 2 [] s = take 2 (List.filter (of_source []) (rev (st_recentSlow s)))
  /\ (length (slowSqlStats id 2 [] s) <= 2)%nat
  /\ forall x, x ∈ slowSqlStats id 2 [] s ->
       (exists k, st_slowStats s !! k = Some x) /\ (([] : str) = [] \/ sw_dataSource x = []).
Proof. apply (slow_reads_spec id 2 []). intros l. reflexivity. Defined.

(** ** What a statement emits *)

(** the line of the statement log and the event of the observer depend on
    the parameters of the statement only through the redacted rendering: with
    string and blob values switched off, two executions of one statement whose
    parameters differ only in the content of texts or blobs log the same line,
    hand the same event to the observer and leave the same slow-statement
    table, whatever the other settings. *)
Theorem emitted_text_hides_values cfg observer ctx now ev sql result s escape ps qs
  (Hs : sl_include_string_values (ob_sql_log cfg) = false)
  (Hb : sl_include_blob_values (ob_sql_log cfg) = false)
  (H : Forall2 alike ps qs) :
  emitSql cfg observer ctx now ev sql (Some (renderSqlForLogging escape sql ps)) result s
  = emitSql cfg observer ctx now ev sql (Some (renderSqlForLogging escape sql qs)) result s.
Proof.
  assert (renderSqlForLogging escape sql ps (render_options cfg)
          = renderSqlForLogging escape sql qs (render_options cfg)) as E.
  { unfold renderSqlForLogging. rewrite !replace_render, (Forall2_length _ _ _ H).
    by rewrite (render_ext _ _ _ _ (render_visitor_alike escape (render_options cfg) ps qs Hs Hb H)). }
  unfold emitSql. destruct (annotate ctx result ev (em_spanSeq s)) as [ev1 seq].
  case_match; [done|]. unfold rendered_text. by rewrite E.
Qed.

Lemma emitted_text_hides_values_witness :
  let sql := lit "UPDATE t SET pw = ? WHERE id = 1" in
  let run ps := emitSql default_observability (Some 1%nat) defaultInstance 0
                  (demo_event 0).1.1 sql (Some (renderSqlForLogging (fun _ => []) sql ps)) None
                  (mkEmit 0 0 store_empty) in
  run [VString (lit "secret")] = run [VString (lit "x")].
Proof.
  apply emitted_text_hides_values; [reflexivity | reflexivity |].
  constructor; [right; reflexivity | constructor].
Defined.

(** a statement is logged exactly when the log is on, it is slow enough for
    a log of slow statements only, its outcome is one the log wants and the
    sample takes it; the observer gets exactly one event; the slow-statement
    table changes only for a statement that reached the threshold with the table
    on; and a sample rate of one or more takes every statement. *)
Theorem emitSql_outputs cfg observer ctx now ev sql renderer result s
  (Hon : observer <> None \/ ss_enabled (ob_slow_sql cfg) = true
         \/ sl_enabled (ob_sql_log cfg) = true) :
  let r := emitSql cfg observer ctx now ev sql renderer result s in
  let slow := ss_enabled (ob_slow_sql cfg) && (ss_threshold_ms (ob_slow_sql cfg) <=? durationMs ev) in
  (exists line event,
     r.1 = line ++ match observer with Some o => [Observed o event] | None => [] end
     /\ ev_slow event = slow
     /\ (line = [] \/ line = [LogLine (parseLevel (sl_level (ob_sql_log cfg))) (log_text cfg event)])
     /\ (line <> [] -> log_eligible cfg ev = true)
     /\ (log_eligible cfg ev = true -> num_leb (f64 1) (sl_sample_rate (ob_sql_log cfg)) = true ->
         line <> []))
  /\ (slow = false -> em_store r.2 = em_store s).
Proof.
  intros r slow. unfold r, emitSql.
  destruct (annotate ctx result ev (em_spanSeq s)) as [ev1 seq] eqn:Ea.
  assert (ev_duration ev1 = ev_duration ev /\ ev_status ev1 = ev_status ev) as [Hd Hst].
  { revert Ea. unfold annotate. destruct (if negb _ then _ else _). by intros [= <- <-]. }
  assert (log_eligible cfg ev1 = log_eligible cfg ev) as He
    by (unfold log_eligible, durationMs; by rewrite Hd, Hst).
  assert (durationMs ev1 = durationMs ev) as Hms by (unfold durationMs; by rewrite Hd).
  rewrite He, Hms. fold slow.
  assert (bool_decide (observer = None) && negb (ss_enabled (ob_slow_sql cfg))
          && negb (sl_enabled (ob_sql_log cfg)) = false) as ->.
  { case_bool_decide; destruct (ss_enabled _), (sl_enabled _); naive_solver. }
  cbv zeta. cbn [fst snd em_store]. split.
  - eexists _, _. split; [reflexivity|]. split; [done|].
    destruct (log_eligible cfg ev); cbn [andb]; [|split; [by left | naive_solver]].
    split; [case_match; auto | split; [done|]].
    intros _ Hr. unfold sampled. rewrite Hr, orb_true_r. done.
  - by intros ->.
Qed.

Lemma emitSql_outputs_witness :
  let cfg := default_observability in
  let ev := (demo_event 0).1.1 in
  let r := emitSql cfg (Some 1%nat) defaultInstance 0 ev (lit "SELECT 1") None None
             (mkEmit 0 0 store_empty) in
  let slow := ss_enabled (ob_slow_sql cfg) && (ss_threshold_ms (ob_slow_sql cfg) <=? durationMs ev) in
  (exists line event,
     r.1 = line ++ [Observed 1 event] /\ ev_slow event = slow
     /\ (line = [] \/ line = [LogLine (parseLevel (sl_level (ob_sql_log cfg))) (log_text cfg event)])
     /\ (line <> [] -> log_eligible cfg ev = true)
     /\ (log_eligible cfg ev = true -> num_leb (f64 1) (sl_sample_rate (ob_sql_log cfg)) = true ->
         line <> []))
  /\ (slow = false -> em_store r.2 = store_empty).
Proof.
  apply (emitSql_outputs default_observability (Some 1%nat)). left. discriminate.
Defined.

(** ** The settings as the threads see them *)
Section SettingsFacts.
Context {P : Type}.

Definition copy_ok (s : Shared P) : Prop :=
  match sh_copy s with
  | Some (v, copy) => v <= sh_version s
      /\ (v = sh_version s -> copy = sh_settings s \/ (0 < sh_pending s)%nat)
  | None => True
  end.

Lemma shared_step_ok (s s' : Shared P) : shared_step s s' -> copy_ok s -> copy_ok s'.
Proof.
  unfold copy_ok. intros [f s0|s0 Hp|s0] H; cbn.
  - destruct (sh_copy s0) as [[v c]|]; [|done]. destruct H as [H1 H2]. split; [done|].
    right. lia.
  - destruct (sh_copy s0) as [[v c]|]; [|done]. destruct H as [H1 H2]. split; lia.
  - unfold currentSnapshot. destruct (sh_copy s0) as [[v c]|] eqn:E; cbn; [|auto with lia].
    destruct (v =? sh_version s0); cbn; [by rewrite E | auto with lia].
Qed.

(** a thread never works with outdated settings once they are in force: in
    every interleaving of setters (which write under the lock and publish the
    version after it) and readers, a reader that finds no setter between its
    two steps gets the settings last written, from its own copy or from the
    shared ones. *)
Theorem snapshot_fresh (settings : Settings P) s
  (H : rtc shared_step (mkShared settings 1 0 None) s) (Hidle : sh_pending s = 0%nat) :
  (currentSnapshot s).1 = sh_settings s.
Proof.
  assert (copy_ok s) as Hs.
  { remember (mkShared settings 1 0 None) as s0 eqn:E0. assert (copy_ok s0) as H0 by by subst.
    clear E0. induction H as [|s1 s2 s3 H12 _ IH]; [done|].
    by eapply IH, shared_step_ok. }
  unfold copy_ok in Hs. unfold currentSnapshot.
  destruct (sh_copy s) as [[v c]|]; [|done]. case_match eqn:E; bool_prop; [|done].
  destruct Hs as [_ Hs]. destruct (Hs E) as [->|?]; [done | lia].
Qed.

(** a collector of pool metrics is removed only by the owner that
    registered it; another owner's request leaves the settings as they are. *)
Theorem collector_removed_by_owner c owner owner' (s : Settings P)
  (Hne : owner <> owner') :
  clear_poolCollector owner' (set_poolCollector (Some c) owner s)
    = (set_poolCollector (Some c) owner s, false)
  /\ samplePoolMetrics (clear_poolCollector owner (set_poolCollector (Some c) owner s)).1
    = ([], se_poolObserver s).
Proof.
  unfold clear_poolCollector. cbn. rewrite Nat.eqb_refl.
  by rewrite (proj2 (Nat.eqb_neq _ _) Hne).
Qed.
End SettingsFacts.

Lemma snapshot_fresh_witness :
  let s := setter_publish (setter_write (set_observer (Some 3%nat))
             (mkShared (settings_init (P := nat)) 1 0 None)) in
  (currentSnapshot s).1 = sh_settings s.
Proof.
  apply (snapshot_fresh settings_init); [|reflexivity].
  eapply rtc_l; [apply step_write|]. apply rtc_once, step_publish. cbn. lia.
Defined.

Lemma collector_removed_by_owner_witness :
  let s := set_poolCollector (Some (Some [5%nat])) 1 settings_init in
  clear_poolCollector 2 s = (s, false)
  /\ samplePoolMetrics (clear_poolCollector 1 s).1 = ([], None).
Proof. apply (collector_removed_by_owner (P := nat)). discriminate. Defined.

(** a statement that took its snapshot before the capacity was lowered puts
    its entry into the table under the old capacity, and nothing brings the
    table back: each later new statement replaces one entry, so that the table
    stays above the capacity in force. *)
Theorem stale_snapshot_exceeds_capacity :
  let slow capacity := mkSlowSqlConfig true 500 capacity 0 false 4096 [10] in
  let config capacity := mkObservabilityConfig default_sql_log (slow capacity) true
                           default_stats_report in
  let record capacity k s :=
    record_slow (slow capacity) (demo_event k).1.1 (lit "SELECT ?") 0 s in
  let lowered := configure_store (config 1) (record 1000 1 store_empty) in
  size (st_slowStats lowered) = 1%nat
  /\ size (st_slowStats (record 1000 2 lowered)) = 2%nat
  /\ size (st_slowStats (record 1 4 (record 1 3 (record 1000 2 lowered)))) = 2%nat.
Proof. repeat split; vm_compute; reflexivity. Qed.

(** ** Truncation *)
(** a truncated text is a prefix of the original of at most [limit]
    characters, a closing quote when the cut is inside a literal, and a note of
    the original length; a text within the limit is kept as it is. *)
Theorem truncate_bounded text limit (Hl : 0 <= limit) :
  (Z.of_nat (length text) <= limit -> truncate text limit = text)
  /\ (limit < Z.of_nat (length text) ->
      exists quote,
        truncate text limit = take (Z.to_nat limit) text ++ quote
           ++ lit "...[truncated, original_length=" ++ dec_nat (length text) ++ lit "]"
        /\ (length quote <= 1)%nat
        /\ Z.of_nat (length (take (Z.to_nat limit) text)) = limit).
Proof.
  unfold truncate. split; intros H.
  - by rewrite (proj2 (Z.leb_le _ _) H).
  - rewrite (proj2 (Z.leb_gt _ _) H). cbv zeta.
    exists (if ends_in_literal text (Z.to_nat limit) false false then [squote] else []).
    split; [|split].
    + case_match; [by rewrite <- app_assoc | done].
    + case_match; cbn; lia.
    + rewrite length_take. lia.
Qed.

Lemma truncate_bounded_witness :
  exists quote,
    truncate (lit "SELECT 'abcdef'") 10 = take 10 (lit "SELECT 'abcdef'") ++ quote
      ++ lit "...[truncated, original_length=" ++ dec_nat 15 ++ lit "]"
    /\ (length quote <= 1)%nat /\ Z.of_nat (length (take 10 (lit "SELECT 'abcdef'"))) = 10.
Proof. apply (truncate_bounded (lit "SELECT 'abcdef'") 10); [lia | reflexivity]. Defined.
