(* ===== verification/WriteBuffer.v ===== *)
(** * The write buffer (src/core/write_buffer.cpp)

    The bounded queue of postponed writes and its flushing thread.  A task is
    whatever the caller postponed; running it is a parameter.  The flushing
    thread takes the whole queue, runs the batch without the mutex (writes may
    be enqueued meanwhile) and puts the retryable failures back in front. *)
From stdpp Require Import base list.
From Stdlib Require Import ZArith Lia Permutation.
From S2P Require Import Prelude Types.

Open Scope Z_scope.

Record WriteBufferConfig := mkBufferConfig {
  wb_enabled : bool;
  wb_max_queue : Z;
  wb_ttl_ms : Z;
  wb_flush_interval_ms : Z }.

(** The constructor's clamps. *)
Definition make_buffer_config (c : WriteBufferConfig) : WriteBufferConfig :=
  mkBufferConfig (wb_enabled c)
    (if wb_max_queue c <? 1 then 1 else wb_max_queue c)
    (wb_ttl_ms c)
    (if wb_flush_interval_ms c <? 10 then 10 else wb_flush_interval_ms c).

Section Buffer.
Context {Task : Type}.

(** A task and the time it was enqueued (ns). *)
Definition Item : Type := Task * Z.

Record Buffer := mkBuffer {
  b_cfg : WriteBufferConfig;
  b_q : list Item;
  b_stop : bool;
  b_running : bool }.

Definition set_q (q : list Item) (b : Buffer) : Buffer :=
  mkBuffer (b_cfg b) q (b_stop b) (b_running b).
Definition set_flags (stop running : bool) (b : Buffer) : Buffer :=
  mkBuffer (b_cfg b) (b_q b) stop running.

Definition new_buffer (c : WriteBufferConfig) : Buffer :=
  mkBuffer (make_buffer_config c) [] false false.

Definition qsize (b : Buffer) : Z := Z.of_nat (length (b_q b)).
Definition pending (b : Buffer) : Z := qsize b.

(** [enqueue]; an empty [std::function] is [None]. *)
Definition enqueue (now : Z) (task : option Task) (b : Buffer) : bool * Buffer :=
  match task with
  | None => (false, b)
  | Some task =>
      if negb (wb_enabled (b_cfg b)) then (false, b)
      else if b_stop b || negb (b_running b) then (false, b)
      else if wb_max_queue (b_cfg b) <=? qsize b then (false, b)
      else (true, set_q (b_q b ++ [(task, now)]) b)
  end.

(** [start]: the worker thread is started when the result says so. *)
Definition start (b : Buffer) : bool * Buffer :=
  if negb (wb_enabled (b_cfg b)) then (false, b)
  else if b_running b then (false, b)
  else (true, set_flags false true b).

(** [stop] before and after it joins the worker. *)
Definition stop_begin (b : Buffer) : bool * Buffer :=
  if negb (b_running b) then (false, b) else (true, set_flags true (b_running b) b).
Definition stop_joined (b : Buffer) : Buffer := set_flags (b_stop b) false b.

(** *** One pass of [run] *)

(** Under the mutex: whether this is the final pass, and the batch. *)
Definition take_batch (b : Buffer) : bool * list Item * Buffer := (b_stop b, b_q b, set_q [] b).

(** What became of an item. *)
Inductive Fate := Expired | Flushed | Retried | Failed.

Definition item_expired (b : Buffer) (now : Z) (item : Item) : bool :=
  (0 <? wb_ttl_ms (b_cfg b)) && (wb_ttl_ms (b_cfg b) * 1000000 <? now - snd item).

Definition item_fate (b : Buffer) (finalPass : bool) (now : Z) (item : Item) (st : Status) : Fate :=
  if item_expired b now item then Expired
  else if st_ok st then Flushed
  else if negb finalPass && (st_retryable st || st_connectionBroken st) then Retried
  else Failed.

(** The loop over the batch, without the mutex.  [S] is the state the tasks act
    on, [clock] reads the time. *)
Section Process.
Context {S : Type} (run_task : Task -> ST S Status) (clock : ST S Z).
Local Open Scope st_scope.

Fixpoint process (b : Buffer) (finalPass : bool) (batch : list Item) : ST S (list (Item * Fate)) :=
  match batch with
  | [] => ret []
  | item :: rest =>
      now <-- (if 0 <? wb_ttl_ms (b_cfg b) then clock else ret 0);
      if item_expired b now item then
        l <-- process b finalPass rest; ret ((item, Expired) :: l)
      else
        st <-- run_task (fst item);
        l <-- process b finalPass rest; ret ((item, item_fate b finalPass now item st) :: l)
  end.
End Process.

Definition is_retried (p : Item * Fate) : bool := match snd p with Retried => true | _ => false end.
Definition retried (l : list (Item * Fate)) : list Item := map fst (List.filter is_retried l).

(** Under the mutex: the retries, then what was enqueued meanwhile, as far as
    they fit; the number dropped. *)
Fixpoint requeue_loop (max : Z) (items : list Item) (q : list Item) : list Item * Z :=
  match items with
  | [] => (q, 0)
  | i :: rest =>
      if max <=? Z.of_nat (length q) then
        let '(q', d) := requeue_loop max rest q in (q', d + 1)
      else requeue_loop max rest (q ++ [i])
  end.

Definition requeue (retry : list Item) (b : Buffer) : Buffer * Z :=
  if is_nil retry then (b, 0)
  else
    let '(q, dropped) := requeue_loop (wb_max_queue (b_cfg b)) (retry ++ b_q b) [] in
    (set_q q b, dropped).

(** The end of a pass: the final one abandons the queue and ends the thread. *)
Definition end_pass (finalPass : bool) (b : Buffer) : Buffer * Z :=
  if finalPass then (set_q [] b, qsize b) else (b, 0).

(** A whole pass during which [arrivals] were enqueued between the two critical
    sections. *)
Definition pass {S : Type} (run_task : Task -> ST S Status) (clock : ST S Z)
    (arrivals : list (Z * option Task)) (b : Buffer) : ST S (Buffer * list (Item * Fate)) :=
  fun s =>
    let '(finalPass, batch, b1) := take_batch b in
    let '(fates, s1) := process run_task clock b1 finalPass batch s in
    let b2 := fold_left (fun b '(now, t) => snd (enqueue now t b)) arrivals b1 in
    let '(b3, _) := requeue (retried fates) b2 in
    ((fst (end_pass finalPass b3), fates), s1).

(** ** Lemmas *)
Definition bounded (b : Buffer) : Prop := qsize b <= wb_max_queue (b_cfg b).

Lemma enqueue_cfg now t b : b_cfg (enqueue now t b).2 = b_cfg b.
Proof. unfold enqueue. destruct t; [|done]. repeat case_match; done. Qed.

Lemma enqueue_bounded now t b : bounded b -> bounded (enqueue now t b).2.
Proof.
  unfold enqueue, bounded, qsize. intros H. destruct t; [|done].
  destruct (negb _); [done|]. destruct (_ || _); [done|].
  destruct (_ <=? _) eqn:E; [done|]. bool_prop. simpl. rewrite length_app. simpl. lia.
Qed.

Lemma enqueue_all_bounded arrivals b :
  bounded b -> bounded (fold_left (fun b '(now, t) => snd (enqueue now t b)) arrivals b).
Proof.
  revert b. induction arrivals as [|[now t] l IH]; intros b H; simpl; [done|].
  by apply IH, enqueue_bounded.
Qed.

Lemma requeue_loop_spec max items q :
  Z.of_nat (length q) <= max ->
  exists k, requeue_loop max items q = (q ++ take k items, Z.of_nat (length items - k)) /\
    (k <= length items)%nat /\ Z.of_nat (length q + k) <= max /\
    ((k < length items)%nat -> Z.of_nat (length q + k) = max).
Proof.
  revert q. induction items as [|i items IH]; intros q Hq; simpl.
  - exists 0%nat. rewrite app_nil_r. simpl. split_and!; [done|lia|lia|lia].
  - destruct (max <=? Z.of_nat (length q)) eqn:E; bool_prop.
    + destruct (IH q Hq) as (k & -> & H1 & H2 & H3).
      assert (k = 0%nat \/ items = []) as [E0|E0] by (destruct k; [by left|]; destruct items; simpl in *; [by right|lia]); subst.
      * exists 0%nat. simpl. rewrite Nat.sub_0_r. split_and!; try lia. f_equal. lia.
      * exists 0%nat. rewrite take_nil. simpl. split_and!; try lia. by destruct k.
    + destruct (IH (q ++ [i])) as (k & -> & H1 & H2 & H3); [rewrite length_app; simpl; lia|].
      rewrite length_app in *. simpl in *.
      exists (S k). rewrite <- app_assoc. simpl. split_and!; try done; lia.
Qed.

Lemma requeue_spec retry b :
  bounded b ->
  exists k, requeue retry b =
      (set_q (take k (retry ++ b_q b)) b, Z.of_nat (length (retry ++ b_q b) - k)) /\
    Z.of_nat k <= Z.max 0 (wb_max_queue (b_cfg b)) /\
    ((k < length (retry ++ b_q b))%nat -> Z.of_nat k = wb_max_queue (b_cfg b)) /\
    (k <= length (retry ++ b_q b))%nat.
Proof.
  unfold requeue, bounded, qsize. intros Hb. destruct retry as [|r retry]; cbn [is_nil].
  - exists (length (b_q b)). rewrite app_nil_l, take_ge by done.
    rewrite Nat.sub_diag. destruct b. split_and!; simpl in *; try done; lia.
  - destruct (requeue_loop_spec (wb_max_queue (b_cfg b)) ((r :: retry) ++ b_q b) []) as (k & E & H1 & H2 & H3).
    { simpl. lia. }
    rewrite E. exists k. simpl app in *. split_and!; try done; simpl in *; try lia.
Qed.

Section PassLemmas.
Context {S : Type} (run_task : Task -> ST S Status) (clock : ST S Z).

Lemma process_items b f batch s : map fst (process run_task clock b f batch s).1 = batch.
Proof.
  revert s. induction batch as [|item rest IH]; intros s; [done|].
  cbn [process]. unfold bind. destruct (if 0 <? wb_ttl_ms (b_cfg b) then _ else _) as [now s1].
  destruct (item_expired b now item).
  - specialize (IH s1). destruct (process _ _ _ _ rest s1) as [l s2]. simpl in *. by f_equal.
  - destruct (run_task (fst item) s1) as [st s2]. specialize (IH s2).
    destruct (process _ _ _ _ rest s2) as [l s3]. simpl in *. by f_equal.
Qed.

(** On the final pass nothing is kept for later. *)
Lemma process_final b batch s : retried (process run_task clock b true batch s).1 = [].
Proof.
  revert s. induction batch as [|item rest IH]; intros s; [done|].
  cbn [process]. unfold bind. destruct (if 0 <? wb_ttl_ms (b_cfg b) then _ else _) as [now s1].
  destruct (item_expired b now item) eqn:E.
  - specialize (IH s1). by destruct (process _ _ _ _ rest s1) as [l s2].
  - destruct (run_task (fst item) s1) as [st s2]. specialize (IH s2).
    destruct (process _ _ _ _ rest s2) as [l s3]. unfold item_fate. rewrite E. simpl in *.
    by destruct (st_ok st).
Qed.
End PassLemmas.

Lemma set_q_cfg q b : b_cfg (set_q q b) = b_cfg b.
Proof. done. Qed.

Lemma enqueue_all_cfg arrivals b :
  b_cfg (fold_left (fun b '(now, t) => snd (enqueue now t b)) arrivals b) = b_cfg b.
Proof.
  revert b. induction arrivals as [|[now t] l IH]; intros b; simpl; [done|].
  by rewrite IH, enqueue_cfg.
Qed.

(** The buffer as other threads fill it. *)
Definition arrive (arrivals : list (Z * option Task)) (b : Buffer) : Buffer :=
  fold_left (fun b '(now, t) => snd (enqueue now t b)) arrivals b.

(** a pass gives every write it took exactly one fate, in queue order; the
    retryable failures go back in front of what arrived meanwhile, cut only
    where the queue is full; the final pass leaves nothing behind. *)
Theorem pass_accounts {S : Type} (run_task : Task -> ST S Status) (clock : ST S Z) arrivals b s :
  0 <= wb_max_queue (b_cfg b) ->
  let r := (pass run_task clock arrivals b s).1 in
  map fst r.2 = b_q b /\
  b_cfg r.1 = b_cfg b /\
  (b_stop b = true -> b_q r.1 = [] /\ retried r.2 = []) /\
  (b_stop b = false -> exists k,
     b_q r.1 = take k (retried r.2 ++ b_q (arrive arrivals (set_q [] b))) /\
     Z.of_nat k <= wb_max_queue (b_cfg b) /\
     ((k < length (retried r.2 ++ b_q (arrive arrivals (set_q [] b))))%nat ->
      Z.of_nat k = wb_max_queue (b_cfg b))).
Proof.
  intros Hm. unfold pass, take_batch.
  pose proof (process_items run_task clock (set_q [] b) (b_stop b) (b_q b) s) as Hi.
  pose proof (process_final run_task clock (set_q [] b) (b_q b) s) as Hf.
  destruct (process _ _ _ _ _ s) as [fates s1] eqn:Ep. fold (arrive arrivals (set_q [] b)).
  assert (Hb : bounded (arrive arrivals (set_q [] b))).
  { apply enqueue_all_bounded. unfold bounded, qsize. simpl. lia. }
  destruct (requeue_spec (retried fates) _ Hb) as (k & E & H1 & H2 & H3). rewrite E.
  pose proof (enqueue_all_cfg arrivals (set_q [] b)) as Hc. fold (arrive arrivals (set_q [] b)) in Hc.
  rewrite Hc in H1, H2. simpl in H1, H2. cbn [fst snd].
  split_and!; [done| | |].
  - destruct (b_stop b); simpl; by rewrite Hc.
  - intros Hs. rewrite Hs in *. rewrite Ep in Hf. done.
  - intros Hs. rewrite Hs. exists k. simpl. split_and!; [done|lia|done].
Qed.

(** The operations of the buffer as events of any number of threads. *)
Inductive BufferEvent :=
  | BEnqueue (now : Z) (task : option Task)
  | BStart | BStop | BJoined
  | BTake
  | BRequeue (retry : list Item)
  | BEnd (finalPass : bool).

Definition buffer_step (b : Buffer) (e : BufferEvent) : Buffer :=
  match e with
  | BEnqueue now t => (enqueue now t b).2
  | BStart => (start b).2
  | BStop => (stop_begin b).2
  | BJoined => stop_joined b
  | BTake => (take_batch b).2
  | BRequeue l => (requeue l b).1
  | BEnd f => (end_pass f b).1
  end.

Lemma buffer_step_bounded b e :
  0 <= wb_max_queue (b_cfg b) -> bounded b ->
  bounded (buffer_step b e) /\ b_cfg (buffer_step b e) = b_cfg b.
Proof.
  intros Hm Hb. destruct e as [now t| | | | |l|f]; simpl.
  - split; [by apply enqueue_bounded | apply enqueue_cfg].
  - unfold start. repeat case_match; done.
  - unfold stop_begin. repeat case_match; done.
  - done.
  - split; [|done]. unfold bounded, qsize. simpl. lia.
  - destruct (requeue_spec l b Hb) as (k & E & H1 & _). rewrite E. split; [|done].
    unfold bounded, qsize. simpl. rewrite length_take. lia.
  - unfold end_pass. destruct f; [|done]. split; [|done]. unfold bounded, qsize. simpl. lia.
Qed.

(** the queue never holds more than [max_queue] writes, whatever is
    enqueued, retried or flushed in whatever order. *)
Theorem buffer_bounded c es :
  let b := fold_left buffer_step es (new_buffer c) in
  qsize b <= wb_max_queue (b_cfg b) /\ 1 <= wb_max_queue (b_cfg b).
Proof.
  assert (K : forall es b, 1 <= wb_max_queue (b_cfg b) -> bounded b ->
    let b' := fold_left buffer_step es b in bounded b' /\ 1 <= wb_max_queue (b_cfg b')).
  { intros l. induction l as [|e l IH]; intros b Hm Hb; [done|].
    destruct (buffer_step_bounded b e) as [H1 H2]; [lia|done|].
    apply IH; [by rewrite H2 | done]. }
  apply (K es (new_buffer c)); [|unfold bounded, qsize]; simpl; case_match; bool_prop; lia.
Qed.
End Buffer.

Arguments Buffer : clear implicits.
Arguments BufferEvent : clear implicits.

(** Two writes, the first fails for good, the second for now; a third arrives
    during the pass. *)
Lemma pass_accounts_witness :
  let b := mkBuffer (mkBufferConfig true 2 0 1000) [(1%nat, 0); (2%nat, 0)] false true in
  let task n : ST unit Status :=
    ret (set_retryable (Nat.eqb n 2) (status_error QueryError [])) in
  b_q (pass task (ret 0) [(5, Some 3%nat)] b tt).1.1 = [(2%nat, 0); (3%nat, 5)] /\
  map fst (pass task (ret 0) [(5, Some 3%nat)] b tt).1.2 = [(1%nat, 0); (2%nat, 0)].
Proof.
  split; [reflexivity|].
  apply (pass_accounts (fun n : nat => ret (set_retryable (Nat.eqb n 2) (status_error QueryError [])))
           (ret 0) [(5, Some 3%nat)]
           (mkBuffer (mkBufferConfig true 2 0 1000) [(1%nat, 0); (2%nat, 0)] false true) tt).
  done.
Defined.
