(* ===== verification/Breaker.v ===== *)
(** * Circuit breaker and back-off (DataSource in src/core/database_manager.cpp)

    The three atomics of the circuit breaker, each function of the source one
    transition, and the retry delay.  Attempts of different threads are
    interleaved as sequences of [Begin] and [Finish] events. *)
From stdpp Require Import base list strings.
From Stdlib Require Import Ascii ZArith Lia.
From S2P Require Import Prelude Types Config.

Open Scope Z_scope.

(** [circuitOpenUntil_] is a time point in ns; 0 is [time_point{}]. *)
Record Breaker := mkBreaker {
  br_consecutiveFailures : Z;
  br_halfOpenInFlight : bool;
  br_openUntil : Z }.

Definition closed_breaker : Breaker := mkBreaker 0 false 0.

Definition circuitOpenStatus (name : str) (what : string) : Status :=
  status_error CircuitOpen (lit "datasource '" ++ name ++ lit "' circuit is " ++ lit what).

Section Breaker.
Context (cfg : CircuitBreakerConfig) (name : str).

Definition disabled : bool := cb_failure_threshold cfg <=? 0.

Definition isCircuitOpen (now : Z) (b : Breaker) : bool :=
  if disabled then false else now <? br_openUntil b.

(** [beforeAttempt]: may the attempt start, and the flag it takes. *)
Definition beforeAttempt (now : Z) (b : Breaker) : Status * Breaker :=
  if disabled then (StatusOK, b)
  else if now <? br_openUntil b then (circuitOpenStatus name "open", b)
  else if negb (br_openUntil b =? 0) then
    if br_halfOpenInFlight b then (circuitOpenStatus name "half-open", b)
    else (StatusOK, mkBreaker (br_consecutiveFailures b) true (br_openUntil b))
  else (StatusOK, b).

Definition afterAttempt (now : Z) (status : Status) (b : Breaker) : Breaker :=
  if disabled then b
  else if st_ok status then closed_breaker
  else if negb (st_retryable status) && negb (st_connectionBroken status) then
    mkBreaker 0 false 0
  else
    let n := br_consecutiveFailures b + 1 in
    mkBreaker n false
      (if cb_failure_threshold cfg <=? n then now + cb_open_interval_ms cfg * 1000000
       else br_openUntil b).

(** *** Sequences of attempts *)
Inductive Attempt :=
  | Begin (now : Z)
  | Finish (now : Z) (status : Status).

Definition breaker_step (b : Breaker) (a : Attempt) : Breaker :=
  match a with
  | Begin now => (beforeAttempt now b).2
  | Finish now st => afterAttempt now st b
  end.

Definition admitted (now : Z) (b : Breaker) : bool := st_ok (beforeAttempt now b).1.

(** A failure that counts against the data source. *)
Definition counts (st : Status) : bool :=
  negb (st_ok st) && (st_retryable st || st_connectionBroken st).

(** Sequential attempts that all fail: each begins, then finishes. *)
Definition failing (fs : list (Z * Z * Status)) : list Attempt :=
  flat_map (fun '(t0, t1, st) => [Begin t0; Finish t1 st]) fs.

(** ** Lemmas *)
Lemma counts_after now st b :
  disabled = false -> counts st = true ->
  afterAttempt now st b =
    mkBreaker (br_consecutiveFailures b + 1) false
      (if cb_failure_threshold cfg <=? br_consecutiveFailures b + 1
       then now + cb_open_interval_ms cfg * 1000000 else br_openUntil b).
Proof.
  unfold afterAttempt, counts. intros -> H. apply andb_true_iff in H as [H1 H2].
  apply negb_true_iff in H1. rewrite H1.
  by destruct (st_retryable st), (st_connectionBroken st).
Qed.

Lemma begin_closed now b : br_openUntil b = 0 -> 0 <= now -> beforeAttempt now b = (StatusOK, b).
Proof.
  unfold beforeAttempt. intros -> H. destruct disabled; [done|].
  assert ((now <? 0) = false) as -> by (apply Z.ltb_ge; lia). done.
Qed.

Lemma failing_run fs b :
  disabled = false -> br_openUntil b = 0 ->
  Forall (fun '(t0, _, st) => 0 <= t0 /\ counts st = true) fs ->
  br_consecutiveFailures b + Z.of_nat (length fs) < cb_failure_threshold cfg ->
  fold_left breaker_step (failing fs) b =
    mkBreaker (br_consecutiveFailures b + Z.of_nat (length fs))
      (match fs with [] => br_halfOpenInFlight b | _ => false end) 0.
Proof.
  intros Hd. revert b. induction fs as [|[[t0 t1] st] fs IH]; intros b Ho Hf Hn.
  - simpl. rewrite Z.add_0_r. destruct b; simpl in *; by subst.
  - apply Forall_cons in Hf as [[H0 Hc] Hf']. cbn [failing flat_map app fold_left breaker_step].
    simpl length in Hn. rewrite Nat2Z.inj_succ in Hn.
    rewrite begin_closed by (done || lia). cbn [snd]. rewrite (counts_after _ _ _ Hd Hc).
    assert ((cb_failure_threshold cfg <=? br_consecutiveFailures b + 1) = false) as ->
      by (apply Z.leb_gt; lia).
    fold (failing fs). rewrite IH; cbn [br_openUntil br_consecutiveFailures]; try done; try lia.
    simpl length. rewrite Nat2Z.inj_succ. f_equal; [lia|]. by destruct fs.
Qed.

(** ** Properties *)

(** from a closed circuit, exactly the [failure_threshold]-th consecutive
    failure of the counted kinds opens it: before that every attempt is
    admitted, after it none is until [open_interval_ms] has passed. *)
Theorem opens_at_threshold fs t0 t1 st :
  disabled = false ->
  Forall (fun '(t0, _, st) => 0 <= t0 /\ counts st = true) fs ->
  0 <= t0 -> counts st = true -> Z.of_nat (length fs) + 1 = cb_failure_threshold cfg ->
  let before := fold_left breaker_step (failing fs) closed_breaker in
  let after := fold_left breaker_step (failing (fs ++ [(t0, t1, st)])) closed_breaker in
  (forall now, 0 <= now -> admitted now before = true) /\
  (forall now, now < t1 + cb_open_interval_ms cfg * 1000000 -> admitted now after = false) /\
  (forall now, 0 < t1 + cb_open_interval_ms cfg * 1000000 <= now -> admitted now after = true).
Proof.
  intros Hd Hf Ht Hc Hn. pose proof (failing_run fs closed_breaker Hd eq_refl Hf) as R.
  simpl in R. rewrite R by lia. cbn zeta.
  assert (E : fold_left breaker_step (failing (fs ++ [(t0, t1, st)])) closed_breaker =
              mkBreaker (cb_failure_threshold cfg) false (t1 + cb_open_interval_ms cfg * 1000000)).
  { unfold failing. rewrite flat_map_app, fold_left_app. fold (failing fs). rewrite R by lia.
    cbn [flat_map app fold_left breaker_step]. rewrite begin_closed by (done || lia).
    cbn [snd]. rewrite (counts_after _ _ _ Hd Hc). cbn [br_consecutiveFailures].
    destruct (cb_failure_threshold cfg <=? _) eqn:E'; bool_prop; [f_equal; lia | lia]. }
  rewrite E. unfold admitted, beforeAttempt. rewrite Hd. cbn [br_openUntil br_halfOpenInFlight].
  split_and!.
  - intros now H. assert ((now <? 0) = false) as -> by (apply Z.ltb_ge; lia). done.
  - intros now H. by assert ((now <? t1 + cb_open_interval_ms cfg * 1000000) = true) as ->
      by (apply Z.ltb_lt; lia).
  - intros now H. assert ((now <? t1 + cb_open_interval_ms cfg * 1000000) = false) as ->
      by (apply Z.ltb_ge; lia).
    by assert ((t1 + cb_open_interval_ms cfg * 1000000 =? 0) = false) as ->
      by (apply Z.eqb_neq; lia).
Qed.

Lemma begins_denied ts b :
  disabled = false -> br_openUntil b <> 0 -> br_halfOpenInFlight b = true ->
  fold_left breaker_step (map Begin ts) b = b /\
  Forall (fun t => admitted t b = false) ts.
Proof.
  intros Hd Ho Hh. assert (K : forall t, admitted t b = false /\ breaker_step b (Begin t) = b).
  { intros t. unfold admitted, breaker_step, beforeAttempt. rewrite Hd, Hh.
    destruct (t <? br_openUntil b); [done|].
    assert ((br_openUntil b =? 0) = false) as -> by by apply Z.eqb_neq. done. }
  induction ts as [|t ts IH]; [done|]. destruct (K t) as [K1 K2], IH as [IH1 IH2].
  cbn [map fold_left]. rewrite K2. split; [done|by constructor].
Qed.

(** when the open interval is over, one attempt is let through as a probe;
    until an attempt finishes every other one is turned away, at any time. A
    successful probe, or one that fails for a reason of the statement's own,
    closes the circuit; a counted failure of the data source opens it again. *)
Theorem half_open_single_probe now b ts :
  disabled = false -> 0 < br_openUntil b <= now -> br_halfOpenInFlight b = false ->
  cb_failure_threshold cfg <= br_consecutiveFailures b + 1 ->
  let probing := breaker_step b (Begin now) in
  admitted now b = true /\
  fold_left breaker_step (map Begin ts) probing = probing /\
  Forall (fun t => admitted t probing = false) ts /\
  (forall t st, counts st = false -> breaker_step probing (Finish t st) = closed_breaker) /\
  (forall t st, counts st = true ->
     br_openUntil (breaker_step probing (Finish t st)) = t + cb_open_interval_ms cfg * 1000000 /\
     br_halfOpenInFlight (breaker_step probing (Finish t st)) = false).
Proof.
  intros Hd Ho Hh Hn. set (p := mkBreaker (br_consecutiveFailures b) true (br_openUntil b)).
  assert (P : beforeAttempt now b = (StatusOK, p)).
  { unfold beforeAttempt. rewrite Hd, Hh.
    assert ((now <? br_openUntil b) = false) as -> by (apply Z.ltb_ge; lia).
    by assert ((br_openUntil b =? 0) = false) as -> by (apply Z.eqb_neq; lia). }
  unfold admitted at 1. change (breaker_step b (Begin now)) with (beforeAttempt now b).2.
  rewrite P. cbn [fst snd].
  destruct (begins_denied ts p Hd) as [D1 D2]; [simpl; lia|done|].
  split_and!; [done|exact D1|exact D2| |].
  - intros t st Hc. unfold breaker_step, afterAttempt, counts in *. rewrite Hd.
    destruct (st_ok st); [done|]. simpl in Hc. apply orb_false_iff in Hc as [-> ->]. done.
  - intros t st Hc. unfold breaker_step. rewrite (counts_after _ _ _ Hd Hc). simpl.
    by assert ((cb_failure_threshold cfg <=? br_consecutiveFailures b + 1) = true) as ->
      by by apply Z.leb_le.
Qed.
End Breaker.

(** *** Back-off *)
Section Backoff.
Context (retry : RetryConfig).

(** The doubling loop: [i] counts from 1, the fuel is the number of rounds left. *)
Fixpoint backoff_loop (n : nat) (delay : Z) : Z :=
  match n with
  | O => delay
  | S n' =>
      if delay <? rt_max_backoff_ms retry
      then backoff_loop n' (Z.min (delay * 2) (rt_max_backoff_ms retry))
      else delay
  end.

(** The jitter is drawn uniformly from [0, range). *)
Definition jitter_range (delay : Z) : Z := Z.max 1 (Z.quot delay 4 + 1).

Definition base_delay (attempt : Z) : Z :=
  backoff_loop (Z.to_nat (attempt - 1)) (rt_initial_backoff_ms retry).

Definition retryDelay (jitter : Z) (attempt : Z) : Z :=
  if rt_initial_backoff_ms retry <=? 0 then 0
  else Z.min (rt_max_backoff_ms retry) (base_delay attempt + jitter).

(** Doubling, written directly. *)
Lemma backoff_loop_closed n d :
  0 < d -> d <= rt_max_backoff_ms retry ->
  backoff_loop n d = Z.min (d * 2 ^ Z.of_nat n) (rt_max_backoff_ms retry).
Proof.
  revert d. induction n as [|n IH]; intros d Hd Hm; [simpl; lia|].
  rewrite Nat2Z.inj_succ, Z.pow_succ_r by lia. cbn [backoff_loop].
  pose proof (Z.pow_pos_nonneg 2 (Z.of_nat n) ltac:(lia) ltac:(lia)) as Hp.
  destruct (d <? rt_max_backoff_ms retry) eqn:E; bool_prop; [|nia].
  destruct (Z.le_gt_cases (d * 2) (rt_max_backoff_ms retry)).
  - rewrite Z.min_l by done. rewrite IH by lia. f_equal. lia.
  - rewrite Z.min_r by lia. rewrite IH by lia. rewrite !Z.min_r by nia. done.
Qed.

(** the delay before a retry is the initial back-off doubled once per
    earlier attempt, plus at most a quarter of it, and never above the maximum. *)
Theorem retryDelay_bounds jitter attempt :
  0 < rt_initial_backoff_ms retry <= rt_max_backoff_ms retry -> 1 <= attempt ->
  let d := Z.min (rt_initial_backoff_ms retry * 2 ^ (attempt - 1)) (rt_max_backoff_ms retry) in
  0 <= jitter < jitter_range d ->
  base_delay attempt = d /\
  d <= retryDelay jitter attempt <= rt_max_backoff_ms retry /\
  retryDelay jitter attempt <= d + Z.quot d 4.
Proof.
  intros Hi Ha d Hj. assert (B : base_delay attempt = d).
  { unfold base_delay. rewrite backoff_loop_closed by lia. by rewrite Z2Nat.id by lia. }
  split; [done|]. unfold retryDelay. rewrite B.
  assert ((rt_initial_backoff_ms retry <=? 0) = false) as -> by (apply Z.leb_gt; lia).
  assert (0 < d) by (unfold d; pose proof (Z.pow_pos_nonneg 2 (attempt - 1)); nia).
  assert (d <= rt_max_backoff_ms retry) by (unfold d; lia).
  unfold jitter_range in Hj. pose proof (Z.quot_pos d 4). lia.
Qed.
End Backoff.

(** ** Instances *)
Definition demo_breaker_cfg : CircuitBreakerConfig := mkCircuitBreakerConfig 2 1000.
Definition lost : Status := set_broken true (status_error ConnectionFailed []).

Lemma opens_at_threshold_witness :
  admitted demo_breaker_cfg (lit "ds") 5000
    (fold_left (breaker_step demo_breaker_cfg (lit "ds")) (failing [(1, 2, lost); (3, 4, lost)])
       closed_breaker) = false.
Proof.
  apply (opens_at_threshold demo_breaker_cfg (lit "ds") [(1, 2, lost)] 3 4 lost);
    [done | by repeat constructor | done | done | done | simpl; lia].
Defined.

Lemma half_open_single_probe_witness :
  let b := mkBreaker 2 false 100 in
  admitted demo_breaker_cfg (lit "ds") 200 b = true /\
  admitted demo_breaker_cfg (lit "ds") 10 (breaker_step demo_breaker_cfg (lit "ds") b (Begin 200)) = false.
Proof.
  destruct (half_open_single_probe demo_breaker_cfg (lit "ds") 200 (mkBreaker 2 false 100) [10])
    as (H1 & _ & H2 & _); [done|simpl; lia|done|simpl; lia|].
  split; [exact H1|]. by apply Forall_cons in H2 as [H2 _].
Defined.

Lemma retryDelay_bounds_witness :
  let r := mkRetryConfig 5 100 1000 false in
  base_delay r 3 = 400 /\ 400 <= retryDelay r 50 3 <= 1000 /\ retryDelay r 50 3 <= 500.
Proof.
  apply (retryDelay_bounds (mkRetryConfig 5 100 1000 false) 50 3); [simpl; lia | lia |].
  by vm_compute.
Defined.

(** an attempt admitted before the circuit opened that ends during the
    probe releases the probe's flag: a second attempt is then let through while
    the probe is still running. *)
Theorem late_failure_admits_second_probe :
  let step := breaker_step demo_breaker_cfg (lit "ds") in
  let opened := fold_left step [Begin 1; Begin 1; Begin 1; Finish 2 lost; Finish 3 lost] closed_breaker in
  let probing := step opened (Begin 2000000000) in
  let after := step probing (Finish 2000000001 (status_error QueryError [])) in
  admitted demo_breaker_cfg (lit "ds") 2000000000 opened = true /\
  admitted demo_breaker_cfg (lit "ds") 2000000000 probing = false /\
  admitted demo_breaker_cfg (lit "ds") 2000000002 after = true.
Proof. by vm_compute. Qed.
