(* ===== verification/ConnectionPool.v ===== *)
(** * The connection pool (src/core/connection_pool.cpp)

    The shared [State] of a pool with every critical section as one function.
    An operation that releases the mutex (to ping, to create a connection, to
    wait on the condition variable, to post work) leaves a [Flight], which is
    resumed later with what happened outside the lock; the flights, the live
    handles and the closed connections make the [World] the events act on, so
    every interleaving of critical sections is a list of events.

    The invariants count the slots of the pool, account for every connection
    ever opened, and bound the number of completions of an asynchronous
    borrow. *)
From stdpp Require Import base gmap list strings.
From Stdlib Require Import Ascii ZArith Lia Permutation.
From S2P Require Import Prelude Types.

Open Scope Z_scope.

(** A time point or duration of the steady clock, in nanoseconds. *)
Abbreviation time := Z.
Definition ms (k : Z) : time := k * 1000000.
(** [duration_cast<milliseconds>] and [duration_cast<microseconds>] *)
Definition to_ms (d : time) : Z := Z.quot d 1000000.
Definition to_us (d : time) : Z := Z.quot d 1000.

(** A connection object, named by the order of creation. *)
Abbreviation conn := nat.
(** The completion callback of an asynchronous borrow. *)
Abbreviation callback := nat.

(** ** Data *)
Record PoolConfig := {
  pc_name : str;
  pc_minConn : Z;
  pc_maxConn : Z;
  pc_borrowTimeout : time;
  pc_idleTimeout : time;
  pc_maxLifetime : time;
  pc_leakDetectionThreshold : time;
  pc_validationInterval : time;
  pc_metricsEnabled : bool;
  pc_pooled : bool }.

(** The clamping of the constructor's arguments (in milliseconds). *)
Definition make_pool_config (name : str) (minConn maxConn borrowTimeout idleTimeout
    maxLifetime leakDetectionThreshold validationInterval : Z)
    (metricsEnabled pooled : bool) : PoolConfig :=
  let minC := Z.max minConn 0 in
  let maxC := Z.max maxConn 1 in
  {| pc_name := name;
     pc_minConn := if maxC <? minC then maxC else minC;
     pc_maxConn := maxC;
     pc_borrowTimeout := ms borrowTimeout;
     pc_idleTimeout := Z.max (ms idleTimeout) 0;
     pc_maxLifetime := Z.max (ms maxLifetime) 0;
     pc_leakDetectionThreshold := Z.max (ms leakDetectionThreshold) 0;
     pc_validationInterval := Z.max (ms validationInterval) 0;
     pc_metricsEnabled := metricsEnabled;
     pc_pooled := pooled |}.

Record IdleConnection := {
  ic_conn : conn;
  ic_createdAt : time;
  ic_returnedAt : time;
  ic_lastValidated : time }.

Record Handle := {
  h_conn : conn;
  h_createdAt : time;
  h_borrowedAt : time;
  h_reusable : bool }.

Record AsyncWaiter := {
  aw_enqueuedAt : time;
  aw_deadline : time;
  aw_complete : callback }.

(** The [uint64_t] counters of the state. *)
Inductive Counter :=
  | connectionsCreated | connectionsClosed | borrowTimeouts | validationFailures
  | leakWarnings | borrowRequests | borrowSuccesses | connectionCreateFailures
  | invalidatedConnections | idleEvictions | lifetimeEvictions.

#[export] Instance Counter_eq_dec : EqDecision Counter.
Proof. solve_decision. Defined.

Record State := {
  idle : list IdleConnection;
  total : Z;
  borrowed : Z;
  waiting : Z;
  closed : bool;
  asyncWaiters : list AsyncWaiter;
  maxBorrowed : Z;
  maxWaiting : Z;
  totalBorrowWait : Z;
  maxBorrowWait : Z;
  counters : Counter -> Z }.

Definition initial_state : State :=
  {| idle := []; total := 0; borrowed := 0; waiting := 0; closed := false;
     asyncWaiters := []; maxBorrowed := 0; maxWaiting := 0; totalBorrowWait := 0;
     maxBorrowWait := 0; counters := fun _ => 0 |}.

(** *** Assignments to the fields *)
Definition set_idle (l : list IdleConnection) (s : State) : State :=
  {| idle := l; total := total s; borrowed := borrowed s; waiting := waiting s;
     closed := closed s; asyncWaiters := asyncWaiters s; maxBorrowed := maxBorrowed s;
     maxWaiting := maxWaiting s; totalBorrowWait := totalBorrowWait s;
     maxBorrowWait := maxBorrowWait s; counters := counters s |}.
Definition set_total (n : Z) (s : State) : State :=
  {| idle := idle s; total := n; borrowed := borrowed s; waiting := waiting s;
     closed := closed s; asyncWaiters := asyncWaiters s; maxBorrowed := maxBorrowed s;
     maxWaiting := maxWaiting s; totalBorrowWait := totalBorrowWait s;
     maxBorrowWait := maxBorrowWait s; counters := counters s |}.
Definition set_borrowed (n : Z) (s : State) : State :=
  {| idle := idle s; total := total s; borrowed := n; waiting := waiting s;
     closed := closed s; asyncWaiters := asyncWaiters s; maxBorrowed := maxBorrowed s;
     maxWaiting := maxWaiting s; totalBorrowWait := totalBorrowWait s;
     maxBorrowWait := maxBorrowWait s; counters := counters s |}.
Definition set_waiting (n : Z) (s : State) : State :=
  {| idle := idle s; total := total s; borrowed := borrowed s; waiting := n;
     closed := closed s; asyncWaiters := asyncWaiters s; maxBorrowed := maxBorrowed s;
     maxWaiting := maxWaiting s; totalBorrowWait := totalBorrowWait s;
     maxBorrowWait := maxBorrowWait s; counters := counters s |}.
Definition set_closed (s : State) : State :=
  {| idle := idle s; total := total s; borrowed := borrowed s; waiting := waiting s;
     closed := true; asyncWaiters := asyncWaiters s; maxBorrowed := maxBorrowed s;
     maxWaiting := maxWaiting s; totalBorrowWait := totalBorrowWait s;
     maxBorrowWait := maxBorrowWait s; counters := counters s |}.
Definition set_asyncWaiters (l : list AsyncWaiter) (s : State) : State :=
  {| idle := idle s; total := total s; borrowed := borrowed s; waiting := waiting s;
     closed := closed s; asyncWaiters := l; maxBorrowed := maxBorrowed s;
     maxWaiting := maxWaiting s; totalBorrowWait := totalBorrowWait s;
     maxBorrowWait := maxBorrowWait s; counters := counters s |}.
Definition set_maxBorrowed (n : Z) (s : State) : State :=
  {| idle := idle s; total := total s; borrowed := borrowed s; waiting := waiting s;
     closed := closed s; asyncWaiters := asyncWaiters s; maxBorrowed := n;
     maxWaiting := maxWaiting s; totalBorrowWait := totalBorrowWait s;
     maxBorrowWait := maxBorrowWait s; counters := counters s |}.
Definition set_maxWaiting (n : Z) (s : State) : State :=
  {| idle := idle s; total := total s; borrowed := borrowed s; waiting := waiting s;
     closed := closed s; asyncWaiters := asyncWaiters s; maxBorrowed := maxBorrowed s;
     maxWaiting := n; totalBorrowWait := totalBorrowWait s;
     maxBorrowWait := maxBorrowWait s; counters := counters s |}.
Definition set_borrowWait (t m : Z) (s : State) : State :=
  {| idle := idle s; total := total s; borrowed := borrowed s; waiting := waiting s;
     closed := closed s; asyncWaiters := asyncWaiters s; maxBorrowed := maxBorrowed s;
     maxWaiting := maxWaiting s; totalBorrowWait := t;
     maxBorrowWait := m; counters := counters s |}.
(** [counter += n], with the wrap-around of [uint64_t] *)
Definition add_count (c : Counter) (n : Z) (s : State) : State :=
  {| idle := idle s; total := total s; borrowed := borrowed s; waiting := waiting s;
     closed := closed s; asyncWaiters := asyncWaiters s; maxBorrowed := maxBorrowed s;
     maxWaiting := maxWaiting s; totalBorrowWait := totalBorrowWait s;
     maxBorrowWait := maxBorrowWait s;
     counters := fun c' => if decide (c = c') then u64 (counters s c' + n) else counters s c' |}.
Definition bump (c : Counter) (s : State) : State := add_count c 1 s.
Definition bump_if (b : bool) (c : Counter) (s : State) : State := if b then bump c s else s.

(** [if (total < 0) total = 0] after [--total], and [if (total > 0) --total] *)
Definition drop_total_clamped (s : State) : State :=
  set_total (if total s - 1 <? 0 then 0 else total s - 1) s.
Definition drop_total_guarded (s : State) : State :=
  if 0 <? total s then set_total (total s - 1) s else s.

(** ** Effects and unfinished operations *)
Inductive Effect :=
  | Close (c : conn)
  (** the callback of an asynchronous borrow runs *)
  | Deliver (w : callback) (h : option Handle) (st : Status)
  (** a synchronous borrow returns *)
  | Result (h : option Handle) (code : ErrorCode) (error : str)
  | NotifyOne
  | NotifyAll.

(** Where an operation stands while it does not hold the mutex. *)
Inductive Flight :=
  (** [borrow]: pinging a popped connection, creating one (with or without a
      reserved slot), or waiting on the condition variable *)
  | FlValidate (timeout started : time) (item : IdleConnection)
  | FlCreate (timeout started : time)
  | FlCreateUnpooled (started : time)
  | FlWait (timeout started : time)
  (** [borrowAsync]: about to be entered (again), past [expireWaiters], in the
      posted ping task, between its two critical sections, and in the task of
      [postCreateTask] *)
  | FlAsyncStart (effective : time) (w : callback)
  | FlAsyncEnter (effective : time) (w : callback)
  | FlAsyncPing (effective : time) (w : callback) (item : IdleConnection)
  | FlAsyncDead (effective : time) (w : callback) (item : IdleConnection)
  | FlAsyncCreate (w : callback) (slotReserved : bool)
  (** [healthCheck]: before the snapshot, before popping with [n] items to go,
      pinging an item, before computing [need], creating the missing ones, before
      the last section *)
  | FlHealthSnapshot
  | FlHealthPop (n : nat)
  | FlHealthCheck (n : nat) (item : IdleConnection) (retireForIdle : bool)
  | FlHealthNeed
  | FlHealthRefill (need : nat) (fresh : list IdleConnection)
  | FlHealthCommit (need : nat) (fresh : list IdleConnection)
  (** [shutdown]: closing a drained connection, or waiting for the borrowed ones *)
  | FlShutdownClose (grace : time) (waiters : list AsyncWaiter)
  | FlShutdownWait (waiters : list AsyncWaiter).

(** What a critical section leaves: the state, the effects in order, the
    operation's continuation, and whether a connection was opened for it. *)
Record Res := mkRes {
  r_state : State;
  r_eff : list Effect;
  r_next : list Flight;
  r_made : bool }.

(** What happens outside the lock: the clock when the unlocked part starts and
    when the mutex is held again, the result of [ping], the result of
    [createConnection] ([None] is success) and whether [wait_until] timed out. *)
Record Outside := {
  o_now : time;
  o_after : time;
  o_ping : bool;
  o_create : option (ErrorCode * str);
  o_timedout : bool }.

Definition is_expired (cfg : PoolConfig) (now createdAt : time) : bool :=
  (0 <? pc_maxLifetime cfg) && (pc_maxLifetime cfg <=? now - createdAt).

Definition needs_ping (cfg : PoolConfig) (now : time) (item : IdleConnection) : bool :=
  (pc_validationInterval cfg <=? 0) || (pc_validationInterval cfg <=? now - ic_lastValidated item).

Definition set_lastValidated (now : time) (item : IdleConnection) : IdleConnection :=
  {| ic_conn := ic_conn item; ic_createdAt := ic_createdAt item;
     ic_returnedAt := ic_returnedAt item; ic_lastValidated := now |}.

(** [IdleConnection{conn, createdAt, returnedAt}]: the last field is
    value-initialised, the epoch. *)
Definition mkIdle (c : conn) (createdAt returnedAt : time) : IdleConnection :=
  {| ic_conn := c; ic_createdAt := createdAt; ic_returnedAt := returnedAt;
     ic_lastValidated := 0 |}.

Definition mkHandle (c : conn) (createdAt borrowedAt : time) : Handle :=
  {| h_conn := c; h_createdAt := createdAt; h_borrowedAt := borrowedAt; h_reusable := true |}.

Definition poolExhaustedMessage (poolName : str) (maxConn total borrowed : Z) (waited : time) : str :=
  lit "pool '" ++ poolName ++ lit "' exhausted: waited " ++ dec_Z (to_ms waited)
  ++ lit "ms (max=" ++ dec_Z maxConn ++ lit ", total=" ++ dec_Z total
  ++ lit ", borrowed=" ++ dec_Z borrowed ++ lit ")".

Definition poolClosedMessage (cfg : PoolConfig) : str :=
  lit "pool '" ++ pc_name cfg ++ lit "' is closed".
Definition datasourceClosedMessage (cfg : PoolConfig) : str :=
  lit "datasource '" ++ pc_name cfg ++ lit "' is closed".

(** *** The waiter queue *)
Fixpoint expire_loop (cfg : PoolConfig) (now : time) (ws : list AsyncWaiter) (s : State)
    : list AsyncWaiter * State * list (AsyncWaiter * Status) :=
  match ws with
  | [] => ([], s, [])
  | w :: ws' =>
      if aw_deadline w <=? now then
        let s1 := bump_if (pc_metricsEnabled cfg) borrowTimeouts s in
        let msg := poolExhaustedMessage (pc_name cfg) (pc_maxConn cfg) (total s) (borrowed s)
                     (now - aw_enqueuedAt w) in
        let '(keep, s2, expired) := expire_loop cfg now ws' s1 in
        (keep, s2, (w, status_error PoolExhausted msg) :: expired)
      else
        let '(keep, s1, expired) := expire_loop cfg now ws' s in (w :: keep, s1, expired)
  end.

Definition expire_locked (cfg : PoolConfig) (now : time) (s : State)
    : State * list (AsyncWaiter * Status) :=
  let '(keep, s1, expired) := expire_loop cfg now (asyncWaiters s) s in
  (set_asyncWaiters keep s1, expired).

Definition deliver_failed (ws : list (AsyncWaiter * Status)) : list Effect :=
  map (fun p => Deliver (aw_complete p.1) None p.2) ws.

Definition expireWaiters (cfg : PoolConfig) (now : time) (s : State) : State * list Effect :=
  let '(s1, expired) := expire_locked cfg now s in (s1, deliver_failed expired).

(** [++borrowed] with the metrics of an asynchronous hand-over *)
Definition lend_async (cfg : PoolConfig) (s : State) : State :=
  let s := set_borrowed (borrowed s + 1) s in
  if pc_metricsEnabled cfg then
    let s := bump borrowSuccesses s in set_maxBorrowed (Z.max (maxBorrowed s) (borrowed s)) s
  else s.

(** *** [State::returnConn], run by the destructor of a handle *)
Definition returnConn (cfg : PoolConfig) (now : time) (h : Handle) (s : State) : Res :=
  let c := h_conn h in
  let leaked := (0 <? pc_leakDetectionThreshold cfg) &&
                (pc_leakDetectionThreshold cfg <=? now - h_borrowedAt h) in
  let s := bump_if leaked leakWarnings s in
  let s := if 0 <? borrowed s then set_borrowed (borrowed s - 1) s else s in
  let expired := is_expired cfg now (h_createdAt h) in
  if closed s || expired || negb (h_reusable h) || negb (pc_pooled cfg) then
    let s := bump connectionsClosed s in
    let s := if negb (h_reusable h) then bump invalidatedConnections s
             else bump_if expired lifetimeEvictions s in
    mkRes (drop_total_guarded s) [Close c; NotifyOne] [] false
  else
    let '(s, expiredWaiters) := expire_locked cfg now s in
    match asyncWaiters s with
    | w :: rest =>
        let s := lend_async cfg (set_asyncWaiters rest s) in
        mkRes s [Deliver (aw_complete w) (Some (mkHandle c (h_createdAt h) now)) StatusOK] [] false
    | [] =>
        mkRes (set_idle (idle s ++ [mkIdle c (h_createdAt h) now]) s)
              (deliver_failed expiredWaiters ++ [NotifyOne]) [] false
    end.

(** *** [borrow] *)
Definition effective_timeout (cfg : PoolConfig) (timeout : time) : time :=
  let t := if timeout <? 0 then pc_borrowTimeout cfg else timeout in
  if t <? 0 then 0 else t.

Definition recordWait (cfg : PoolConfig) (started now : time) (s : State) : State :=
  if pc_metricsEnabled cfg then
    let waited := to_us (now - started) in
    set_borrowWait (totalBorrowWait s + waited) (Z.max (maxBorrowWait s) waited) s
  else s.

Definition recordSuccess (cfg : PoolConfig) (started now : time) (s : State) : State :=
  let s := recordWait cfg started now s in
  if pc_metricsEnabled cfg then
    let s := bump borrowSuccesses s in set_maxBorrowed (Z.max (maxBorrowed s) (borrowed s)) s
  else s.

(** The head of the [for (;;)] loop, with the mutex held. *)
Definition borrow_loop (cfg : PoolConfig) (timeout started now : time) (s : State) : Res :=
  if closed s then
    mkRes (recordWait cfg started now s) [Result None PoolClosed (poolClosedMessage cfg)] [] false
  else
    match idle s with
    | item :: rest => mkRes (set_idle rest s) [] [FlValidate timeout started item] false
    | [] =>
        if total s <? pc_maxConn cfg then
          mkRes (set_total (total s + 1) s) [] [FlCreate timeout started] false
        else if timeout =? 0 then
          let msg := poolExhaustedMessage (pc_name cfg) (pc_maxConn cfg) (total s) (borrowed s)
                       timeout in
          let s := bump_if (pc_metricsEnabled cfg) borrowTimeouts s in
          mkRes (recordWait cfg started now s) [Result None PoolExhausted msg] [] false
        else
          let s := set_waiting (waiting s + 1) s in
          let s := if pc_metricsEnabled cfg
                   then set_maxWaiting (Z.max (maxWaiting s) (waiting s)) s else s in
          mkRes s [] [FlWait timeout started] false
    end.

Definition borrow (cfg : PoolConfig) (timeout now : time) (s : State) : Res :=
  let timeout := effective_timeout cfg timeout in
  let s := bump_if (pc_metricsEnabled cfg) borrowRequests s in
  if negb (pc_pooled cfg) then
    if closed s then
      mkRes (recordWait cfg now now s)
            [Result None PoolClosed (datasourceClosedMessage cfg)] [] false
    else mkRes s [] [FlCreateUnpooled now] false
  else borrow_loop cfg timeout now now s.

(** After the connection of a direct (unpooled) borrow was opened. *)
Definition borrow_created_unpooled (cfg : PoolConfig) (started : time) (fresh : conn)
    (o : Outside) (s : State) : Res :=
  let now := o_after o in
  match o_create o with
  | Some (code, error) =>
      mkRes (recordWait cfg started now (bump connectionCreateFailures s))
            [Result None code error] [] false
  | None =>
      if closed s then
        mkRes (recordWait cfg started now s)
              [Close fresh; Result None PoolClosed (datasourceClosedMessage cfg)] [] true
      else
        let s := set_total (total s + 1) s in
        let s := set_borrowed (borrowed s + 1) s in
        let s := recordSuccess cfg started now (bump connectionsCreated s) in
        mkRes s [Result (Some (mkHandle fresh now now)) Ok []] [] true
  end.

(** After the popped connection was checked. *)
Definition borrow_validated (cfg : PoolConfig) (timeout started : time) (item : IdleConnection)
    (o : Outside) (s : State) : Res :=
  let expired := is_expired cfg (o_now o) (ic_createdAt item) in
  let alive := negb expired && (negb (needs_ping cfg (o_now o) item) || o_ping o) in
  let item := if alive then set_lastValidated (o_now o) item else item in
  if alive then
    if closed s then
      mkRes (recordWait cfg started (o_after o) s)
            [Close (ic_conn item); Result None PoolClosed (poolClosedMessage cfg)] [] false
    else
      let s := set_borrowed (borrowed s + 1) s in
      mkRes (recordSuccess cfg started (o_after o) s)
            [Result (Some (mkHandle (ic_conn item) (ic_createdAt item) (o_after o))) Ok []] [] false
  else
    let s := set_total (total s - 1) s in
    let s := bump connectionsClosed s in
    let s := if expired then bump lifetimeEvictions s else bump validationFailures s in
    let s := if total s <? 0 then set_total 0 s else s in
    let r := borrow_loop cfg timeout started (o_after o) s in
    mkRes (r_state r) (Close (ic_conn item) :: NotifyOne :: r_eff r) (r_next r) false.

(** After the connection for the reserved slot was opened. *)
Definition borrow_created (cfg : PoolConfig) (started : time) (fresh : conn)
    (o : Outside) (s : State) : Res :=
  let now := o_after o in
  match o_create o with
  | None =>
      if closed s then
        mkRes (recordWait cfg started now (set_total (total s - 1) s))
              [Close fresh; Result None PoolClosed (poolClosedMessage cfg)] [] true
      else
        let s := set_borrowed (borrowed s + 1) s in
        let s := recordSuccess cfg started now (bump connectionsCreated s) in
        mkRes s [Result (Some (mkHandle fresh now now)) Ok []] [] true
  | Some (code, error) =>
      let s := set_total (total s - 1) s in
      let s := bump connectionCreateFailures s in
      let s := if total s <? 0 then set_total 0 s else s in
      mkRes (recordWait cfg started now s) [NotifyOne; Result None code error] [] false
  end.

(** After [wait_until]; a wake-up may be spurious. *)
Definition borrow_woken (cfg : PoolConfig) (timeout started : time) (o : Outside) (s : State) : Res :=
  let s := set_waiting (waiting s - 1) s in
  if o_timedout o then
    let msg := poolExhaustedMessage (pc_name cfg) (pc_maxConn cfg) (total s) (borrowed s) timeout in
    let s := bump_if (pc_metricsEnabled cfg) borrowTimeouts s in
    mkRes (recordWait cfg started (o_after o) s) [Result None PoolExhausted msg] [] false
  else borrow_loop cfg timeout started (o_after o) s.

(** *** [borrowAsync] and its tasks *)
Definition borrowAsync_start (cfg : PoolConfig) (usable : bool) (timeout : time) (w : callback)
    (now : time) (s : State) : Res :=
  if negb usable then mkRes s [] [] false
  else
    let effective := effective_timeout cfg timeout in
    let '(s, eff) := expireWaiters cfg now s in
    mkRes s eff [FlAsyncEnter effective w] false.

Definition borrowAsync_enter (cfg : PoolConfig) (effective : time) (w : callback) (now : time)
    (s : State) : Res :=
  let s := bump_if (pc_metricsEnabled cfg) borrowRequests s in
  if closed s then
    mkRes s [Deliver w None (status_error PoolClosed (poolClosedMessage cfg))] [] false
  else if negb (pc_pooled cfg) then mkRes s [] [FlAsyncCreate w false] false
  else
    match idle s with
    | item :: rest =>
        let s := set_idle rest s in
        if is_expired cfg now (ic_createdAt item) then
          let s := set_total (total s - 1) s in
          let s := bump lifetimeEvictions (bump connectionsClosed s) in
          let s := if total s <? 0 then set_total 0 s else s in
          mkRes s [Close (ic_conn item)] [FlAsyncStart effective w] false
        else if negb (needs_ping cfg now item) then
          mkRes (lend_async cfg s)
                [Deliver w (Some (mkHandle (ic_conn item) (ic_createdAt item) now)) StatusOK] [] false
        else mkRes s [] [FlAsyncPing effective w item] false
    | [] =>
        if total s <? pc_maxConn cfg then
          mkRes (set_total (total s + 1) s) [] [FlAsyncCreate w true] false
        else if effective =? 0 then
          let msg := poolExhaustedMessage (pc_name cfg) (pc_maxConn cfg) (total s) (borrowed s) 0 in
          mkRes (bump_if (pc_metricsEnabled cfg) borrowTimeouts s)
                [Deliver w None (status_error PoolExhausted msg)] [] false
        else
          mkRes (set_asyncWaiters
                   (asyncWaiters s ++ [{| aw_enqueuedAt := now; aw_deadline := now + effective;
                                          aw_complete := w |}]) s) [] [] false
    end.

(** The posted ping task: its first critical section ... *)
Definition async_pinged (cfg : PoolConfig) (effective : time) (w : callback) (item : IdleConnection)
    (o : Outside) (s : State) : Res :=
  if closed s then
    mkRes s [Close (ic_conn item); Deliver w None (status_error PoolClosed (lit "pool is closed"))]
          [] false
  else if o_ping o then
    mkRes (lend_async cfg s)
          [Deliver w (Some (mkHandle (ic_conn item) (ic_createdAt item) (o_now o))) StatusOK] [] false
  else mkRes s [] [FlAsyncDead effective w item] false.

(** ... and its second one, which drops a dead connection and starts over. *)
Definition async_dead (effective : time) (w : callback) (item : IdleConnection) (s : State) : Res :=
  let s := set_total (total s - 1) s in
  let s := bump validationFailures (bump connectionsClosed s) in
  let s := if total s <? 0 then set_total 0 s else s in
  mkRes s [Close (ic_conn item)] [FlAsyncStart effective w] false.

(** The task of [postCreateTask]. *)
Definition postCreateTask (cfg : PoolConfig) (w : callback) (slotReserved : bool) (fresh : conn)
    (o : Outside) (s : State) : Res :=
  if closed s then
    let s := if slotReserved then drop_total_guarded s else s in
    let status := status_error PoolClosed (poolClosedMessage cfg) in
    match o_create o with
    | None => mkRes s [Close fresh; Deliver w None status] [] true
    | Some _ => mkRes s [Deliver w None status] [] false
    end
  else
    match o_create o with
    | Some (code, err) =>
        let s := if slotReserved then set_total (total s - 1) s else s in
        let s := bump connectionCreateFailures s in
        let s := if slotReserved && (total s <? 0) then set_total 0 s else s in
        let status := status_error code err in
        let status := if code_eqb code ConnectionFailed
                      then set_broken true (set_retryable true status) else status in
        mkRes s [Deliver w None status] [] false
    | None =>
        let s := if negb slotReserved then set_total (total s + 1) s else s in
        let s := set_borrowed (borrowed s + 1) s in
        let s := bump connectionsCreated s in
        let s := if pc_metricsEnabled cfg then
                   let s := bump borrowSuccesses s in
                   set_maxBorrowed (Z.max (maxBorrowed s) (borrowed s)) s
                 else s in
        mkRes s [Deliver w (Some (mkHandle fresh (o_after o) (o_after o))) StatusOK] [] true
    end.

(** *** [healthCheck] *)
Definition healthCheck (cfg : PoolConfig) (now : time) (s : State) : Res :=
  if negb (pc_pooled cfg) then mkRes s [] [] false
  else
    let '(s, eff) := expireWaiters cfg now s in mkRes s eff [FlHealthSnapshot] false.

Definition health_snapshot (s : State) : Res :=
  mkRes s [] [FlHealthPop (length (idle s))] false.

Definition health_pop (cfg : PoolConfig) (n : nat) (now : time) (s : State) : Res :=
  match n with
  | O => mkRes s [] [FlHealthNeed] false
  | S n' =>
      match idle s with
      | item :: rest =>
          if closed s then mkRes s [] [FlHealthNeed] false
          else
            let retireForIdle := (0 <? pc_idleTimeout cfg) &&
                                 (pc_idleTimeout cfg <=? now - ic_returnedAt item) &&
                                 (pc_minConn cfg <? total s) in
            mkRes (set_idle rest s) [] [FlHealthCheck n' item retireForIdle] false
      | [] => mkRes s [] [FlHealthNeed] false
      end
  end.

Definition health_checked (cfg : PoolConfig) (n : nat) (item : IdleConnection)
    (retireForIdle : bool) (o : Outside) (s : State) : Res :=
  let expired := is_expired cfg (o_now o) (ic_createdAt item) in
  let alive := negb retireForIdle && negb expired && o_ping o in
  if alive && negb (closed s) then
    mkRes (set_idle (idle s ++ [item]) s) [] [FlHealthPop n] false
  else
    let s := set_total (total s - 1) s in
    let s := bump connectionsClosed s in
    let s := if retireForIdle then bump idleEvictions s
             else if expired then bump lifetimeEvictions s else bump validationFailures s in
    let s := if total s <? 0 then set_total 0 s else s in
    mkRes s [Close (ic_conn item)] [FlHealthPop n] false.

Definition health_need (cfg : PoolConfig) (s : State) : Res :=
  if closed s then mkRes s [] [] false
  else
    let want := pc_minConn cfg - total s in
    let room := pc_maxConn cfg - total s in
    let need := Z.min (Z.max want 0) (Z.max room 0) in
    mkRes (set_total (total s + need) s) [] [FlHealthRefill (Z.to_nat need) []] false.

(** The last critical section: the reserved slots that stayed empty are given
    back and the fresh connections become idle. *)
Definition health_commit (need : nat) (fresh : list IdleConnection) (s : State) : Res :=
  let s := set_total (total s - (Z.of_nat need - Z.of_nat (length fresh))) s in
  let s := add_count connectionsCreated (Z.of_nat (length fresh)) s in
  let s := if total s <? 0 then set_total 0 s else s in
  let note := if is_nil fresh then [] else [NotifyAll] in
  if closed s then mkRes s (map (fun i => Close (ic_conn i)) fresh ++ note) [] false
  else mkRes (set_idle (idle s ++ fresh) s) note [] false.

(** One round of the creating loop: a failure takes the mutex for its counter and
    ends the loop; with nothing left to create the last section follows. *)
Definition health_refill (need : nat) (fresh : list IdleConnection) (c : conn)
    (o : Outside) (s : State) : Res :=
  if (length fresh <? need)%nat then
    match o_create o with
    | None => mkRes s [] [FlHealthRefill need (fresh ++ [mkIdle c (o_after o) (o_after o)])] true
    | Some _ => mkRes (bump connectionCreateFailures s) [] [FlHealthCommit need fresh] false
    end
  else health_commit need fresh s.

(** *** [shutdown] *)
Definition shutdown_finish (cfg : PoolConfig) (waiters : list AsyncWaiter) (s : State) : Res :=
  mkRes (set_total (borrowed s) s)
        (map (fun w => Deliver (aw_complete w) None (status_error PoolClosed (poolClosedMessage cfg)))
             waiters) [] false.

Definition shutdown_wait (cfg : PoolConfig) (waiters : list AsyncWaiter) (s : State) : Res :=
  if 0 <? borrowed s then mkRes s [] [FlShutdownWait waiters] false
  else shutdown_finish cfg waiters s.

Definition shutdown_drain (cfg : PoolConfig) (grace : time) (waiters : list AsyncWaiter)
    (s : State) : Res :=
  match idle s with
  | item :: rest =>
      mkRes (set_idle rest s) [Close (ic_conn item)] [FlShutdownClose grace waiters] false
  | [] =>
      if 0 <? grace then shutdown_wait cfg waiters s else shutdown_finish cfg waiters s
  end.

Definition shutdown (cfg : PoolConfig) (grace : time) (s : State) : Res :=
  let waiters := asyncWaiters s in
  let s := set_asyncWaiters [] (set_closed s) in
  let r := shutdown_drain cfg grace waiters s in
  mkRes (r_state r) (NotifyAll :: r_eff r) (r_next r) (r_made r).

Definition shutdown_closed_one (cfg : PoolConfig) (grace : time) (waiters : list AsyncWaiter)
    (s : State) : Res :=
  shutdown_drain cfg grace waiters (bump connectionsClosed s).

Definition shutdown_woken (cfg : PoolConfig) (waiters : list AsyncWaiter) (o : Outside)
    (s : State) : Res :=
  if o_timedout o then shutdown_finish cfg waiters s else shutdown_wait cfg waiters s.

(** ** The world: every interleaving of the critical sections *)
Definition resume (cfg : PoolConfig) (f : Flight) (fresh : conn) (o : Outside) (s : State) : Res :=
  match f with
  | FlValidate timeout started item => borrow_validated cfg timeout started item o s
  | FlCreate _ started => borrow_created cfg started fresh o s
  | FlCreateUnpooled started => borrow_created_unpooled cfg started fresh o s
  | FlWait timeout started => borrow_woken cfg timeout started o s
  | FlAsyncStart effective w => borrowAsync_start cfg true effective w (o_now o) s
  | FlAsyncEnter effective w => borrowAsync_enter cfg effective w (o_now o) s
  | FlAsyncPing effective w item => async_pinged cfg effective w item o s
  | FlAsyncDead effective w item => async_dead effective w item s
  | FlAsyncCreate w slotReserved => postCreateTask cfg w slotReserved fresh o s
  | FlHealthSnapshot => health_snapshot s
  | FlHealthPop n => health_pop cfg n (o_now o) s
  | FlHealthCheck n item retire => health_checked cfg n item retire o s
  | FlHealthNeed => health_need cfg s
  | FlHealthRefill need items => health_refill need items fresh o s
  | FlHealthCommit need items => health_commit need items s
  | FlShutdownClose grace waiters => shutdown_closed_one cfg grace waiters s
  | FlShutdownWait waiters => shutdown_woken cfg waiters o s
  end.

Inductive Event :=
  | EvBorrow (timeout now : time)
  | EvBorrowAsync (usable : bool) (timeout : time) (w : callback) (now : time)
  | EvReturn (i : nat) (now : time)
  | EvInvalidate (i : nat)
  | EvHealthCheck (now : time)
  | EvShutdown (grace : time)
  | EvResume (i : nat) (o : Outside).

Record World := {
  w_pool : State;
  w_flights : list Flight;
  w_handles : list Handle;
  w_closed : list conn;
  w_next : conn;
  w_log : list Effect }.

Definition closes (es : list Effect) : list conn :=
  omap (fun e => match e with Close c => Some c | _ => None end) es.
Definition gives (es : list Effect) : list Handle :=
  omap (fun e => match e with Deliver _ h _ => h | Result h _ _ => h | _ => None end) es.

Definition commit (w : World) (fl : list Flight) (hs : list Handle) (r : Res) : World :=
  {| w_pool := r_state r;
     w_flights := r_next r ++ fl;
     w_handles := gives (r_eff r) ++ hs;
     w_closed := closes (r_eff r) ++ w_closed w;
     w_next := if r_made r then S (w_next w) else w_next w;
     w_log := w_log w ++ r_eff r |}.

Definition invalidate (h : Handle) : Handle :=
  {| h_conn := h_conn h; h_createdAt := h_createdAt h; h_borrowedAt := h_borrowedAt h;
     h_reusable := false |}.

(** One event; [None] when the flight or handle it names does not exist. *)
Definition step (cfg : PoolConfig) (w : World) (e : Event) : option World :=
  let s := w_pool w in
  let fl := w_flights w in
  let hs := w_handles w in
  match e with
  | EvBorrow timeout now => Some (commit w fl hs (borrow cfg timeout now s))
  | EvBorrowAsync usable timeout cb now =>
      Some (commit w fl hs (borrowAsync_start cfg usable timeout cb now s))
  | EvReturn i now =>
      h ← hs !! i; Some (commit w fl (delete i hs) (returnConn cfg now h s))
  | EvInvalidate i =>
      h ← hs !! i;
      Some {| w_pool := s; w_flights := fl; w_handles := <[i := invalidate h]> hs;
              w_closed := w_closed w; w_next := w_next w; w_log := w_log w |}
  | EvHealthCheck now => Some (commit w fl hs (healthCheck cfg now s))
  | EvShutdown grace => Some (commit w fl hs (shutdown cfg grace s))
  | EvResume i o =>
      f ← fl !! i; Some (commit w (delete i fl) hs (resume cfg f (w_next w) o s))
  end.

Fixpoint run (cfg : PoolConfig) (w : World) (es : list Event) : option World :=
  match es with
  | [] => Some w
  | e :: es' => w' ← step cfg w e; run cfg w' es'
  end.

(** The warm-up of the constructor: [outs] are the clock readings and results
    of its [createConnection] calls. *)
Fixpoint warmup (cfg : PoolConfig) (n : nat) (outs : list (time * option (ErrorCode * str)))
    (w : World) : World :=
  match n, outs with
  | S n', (now, None) :: outs' =>
      let s := w_pool w in
      if pc_maxConn cfg <=? total s then
        commit w (w_flights w) (w_handles w) (mkRes s [Close (w_next w)] [] true)
      else
        let s := set_idle (idle s ++ [mkIdle (w_next w) now now]) s in
        let s := bump connectionsCreated (set_total (total s + 1) s) in
        warmup cfg n' outs' (commit w (w_flights w) (w_handles w) (mkRes s [] [] true))
  | S n', (_, Some _) :: _ =>
      commit w (w_flights w) (w_handles w)
             (mkRes (bump connectionCreateFailures (w_pool w)) [] [] false)
  | _, _ => w
  end.

Definition empty_world : World :=
  {| w_pool := initial_state; w_flights := []; w_handles := []; w_closed := []; w_next := 0%nat;
     w_log := [] |}.

Definition construct (cfg : PoolConfig) (outs : list (time * option (ErrorCode * str))) : World :=
  if pc_pooled cfg then warmup cfg (Z.to_nat (pc_minConn cfg)) outs empty_world else empty_world.

Inductive reachable (cfg : PoolConfig) : World -> Prop :=
  | reach_construct outs : reachable cfg (construct cfg outs)
  | reach_step w e w' : reachable cfg w -> step cfg w e = Some w' -> reachable cfg w'.

(** *** Observers *)
Definition idleCount (s : State) : Z := u64 (Z.of_nat (length (idle s))).
(** [static_cast<size_t>(int)] *)
Definition totalCount (s : State) : Z := u64 (total s).
Definition borrowedCount (s : State) : Z := u64 (borrowed s).

Record Stats := {
  ps_minConnections : Z; ps_maxConnections : Z; ps_idle : Z; ps_total : Z; ps_borrowed : Z;
  ps_waiting : Z; ps_asyncWaiting : Z; ps_maxBorrowed : Z; ps_maxWaiting : Z;
  ps_totalBorrowWait : Z; ps_maxBorrowWait : Z; ps_counter : Counter -> Z }.

Definition stats (cfg : PoolConfig) (s : State) : Stats :=
  let on z := if pc_metricsEnabled cfg then z else 0 in
  {| ps_minConnections := Z.max 0 (pc_minConn cfg);
     ps_maxConnections := Z.max 0 (pc_maxConn cfg);
     ps_idle := Z.of_nat (length (idle s));
     ps_total := Z.max 0 (total s);
     ps_borrowed := Z.max 0 (borrowed s);
     ps_waiting := Z.max 0 (waiting s);
     ps_asyncWaiting := Z.of_nat (length (asyncWaiters s));
     ps_maxBorrowed := on (Z.max 0 (maxBorrowed s));
     ps_maxWaiting := on (Z.max 0 (maxWaiting s));
     ps_totalBorrowWait := on (totalBorrowWait s);
     ps_maxBorrowWait := on (maxBorrowWait s);
     ps_counter := fun c => on (counters s c) |}.

(** ** Slots and connections held by unfinished operations *)
Definition slots (f : Flight) : Z :=
  match f with
  | FlValidate _ _ _ | FlCreate _ _ | FlAsyncPing _ _ _ | FlAsyncDead _ _ _
  | FlAsyncCreate _ true | FlHealthCheck _ _ _ => 1
  | FlHealthRefill need _ | FlHealthCommit need _ => Z.of_nat need
  | _ => 0
  end.

Definition fl_conns (f : Flight) : list conn :=
  match f with
  | FlValidate _ _ item | FlAsyncPing _ _ item | FlAsyncDead _ _ item
  | FlHealthCheck _ item _ => [ic_conn item]
  | FlHealthRefill _ fresh | FlHealthCommit _ fresh => map ic_conn fresh
  | _ => []
  end.

Definition sum_slots (fl : list Flight) : Z := foldr (fun f n => slots f + n) 0 fl.

(** Flights that skip the reservation exist in unpooled mode only, those of
    [shutdown] only once the pool is closed. *)
Definition fl_ok (cfg : PoolConfig) (cl : bool) (f : Flight) : Prop :=
  match f with
  | FlCreateUnpooled _ | FlAsyncCreate _ false => pc_pooled cfg = false
  | FlShutdownClose _ _ | FlShutdownWait _ => cl = true
  | FlHealthRefill need fresh | FlHealthCommit need fresh => (length fresh <= need)%nat
  | _ => True
  end.

(** The books of a pool with [k] slots in flight and [b] handles out. *)
Definition acct (cfg : PoolConfig) (s : State) (k b : Z) : Prop :=
  borrowed s = b /\
  (closed s = false ->
   total s = Z.of_nat (length (idle s)) + b + k /\
   (pc_pooled cfg = true -> total s <= pc_maxConn cfg)).

Definition occ (c : conn) (l : list conn) : nat := count_occ Nat.eq_dec l c.

Lemma occ_app c l k : occ c (l ++ k) = (occ c l + occ c k)%nat.
Proof. apply count_occ_app. Qed.
Lemma occ_nil c : occ c [] = 0%nat.
Proof. done. Qed.
Lemma occ_cons c d l : occ c (d :: l) = ((if Nat.eq_dec d c then 1 else 0) + occ c l)%nat.
Proof. unfold occ. simpl. by destruct (Nat.eq_dec d c). Qed.
Create Rewrite HintDb books.
#[export] Hint Rewrite occ_app occ_nil occ_cons map_app length_app : books.

(** An operation that starts with [k0] slots, the connections [cs0] and [b0]
    handles keeps the books whatever the rest of the world holds. *)
Record op_ok (cfg : PoolConfig) (s : State) (k0 : Z) (b0 : Z) (cs0 : list conn)
    (fresh : conn) (r : Res) : Prop := {
  ok_acct k b : 0 <= k -> 0 <= b -> acct cfg s (k + k0) (b + b0) ->
    acct cfg (r_state r) (k + sum_slots (r_next r)) (b + Z.of_nat (length (gives (r_eff r))));
  ok_next : Forall (fl_ok cfg (closed (r_state r))) (r_next r);
  ok_closed : closed s = true -> closed (r_state r) = true;
  ok_conns c :
    (occ c (map ic_conn (idle (r_state r))) + occ c (concat (map fl_conns (r_next r))) +
     occ c (map h_conn (gives (r_eff r))) + occ c (closes (r_eff r)) =
     occ c (map ic_conn (idle s)) + occ c cs0 + occ c (if r_made r then [fresh] else []))%nat }.

Ltac pool_cbn :=
  cbn [idle total borrowed waiting closed asyncWaiters maxBorrowed maxWaiting totalBorrowWait
       maxBorrowWait counters set_idle set_total set_borrowed set_waiting set_closed
       set_asyncWaiters set_maxBorrowed set_maxWaiting set_borrowWait add_count bump bump_if
       drop_total_clamped drop_total_guarded r_state r_eff r_next r_made ic_conn ic_createdAt
       ic_returnedAt ic_lastValidated h_conn h_createdAt h_borrowedAt h_reusable mkIdle mkHandle
       set_lastValidated sum_slots foldr slots fl_conns fl_ok map concat app gives closes omap
       list_omap length recordWait recordSuccess lend_async invalidate negb andb orb fst snd] in *.

Lemma gives_failed ws : gives (deliver_failed ws) = [].
Proof. induction ws; simpl; auto. Qed.
Lemma closes_failed ws : closes (deliver_failed ws) = [].
Proof. induction ws; simpl; auto. Qed.
Lemma gives_app a b : gives (a ++ b) = gives a ++ gives b.
Proof. apply omap_app. Qed.
Lemma closes_app a b : closes (a ++ b) = closes a ++ closes b.
Proof. apply omap_app. Qed.
Ltac eff_simpl :=
  cbn [r_state r_eff r_next r_made];
  rewrite ?gives_app, ?closes_app, ?gives_failed, ?closes_failed.

Ltac pool_cases :=
  pool_cbn; repeat (
    match goal with
    | |- context [if ?b then _ else _] =>
        lazymatch b with context [match _ with _ => _ end] => fail | decide _ => fail | _ => destruct b eqn:? end
    | |- context [match ?x with _ => _ end] =>
        lazymatch x with context [match _ with _ => _ end] => fail | _ => destruct x eqn:? end
    end; pool_cbn).
Ltac op_start :=
  repeat match goal with s : State |- _ => destruct s end;
  unfold recordSuccess, recordWait, lend_async, bump_if, drop_total_guarded;
  repeat match goal with |- context [pc_metricsEnabled ?c] => destruct (pc_metricsEnabled c) end;
  repeat match goal with |- context [pc_pooled ?c] => destruct (pc_pooled c) eqn:? end;
  pool_cases.
Ltac op_acct :=
  let Hc := fresh in intros Hc; try discriminate Hc; bool_prop; simplify_eq;
  match goal with
  | E2 : _ = false -> _ /\ _ |- _ =>
      let E3 := fresh in let E4 := fresh in destruct (E2 eq_refl) as [E3 E4]; clear E2;
      (split; [| let Hp := fresh in intros Hp; specialize (E4 Hp)]);
      pool_cbn; autorewrite with books in *; pool_cbn; try congruence; lia
  end.
Ltac op_books :=
  split;
  [ intros k b Hk Hb [E1 E2]; unfold acct; eff_simpl; pool_cbn; (split; [autorewrite with books; bool_prop; lia|op_acct])
  | pool_cbn; once (repeat constructor); pool_cbn; bool_prop; try done; try congruence; try lia
  | pool_cbn;  try done; try congruence
  | let c := fresh "x" in intros c; eff_simpl; pool_cbn; autorewrite with books; pool_cbn; autorewrite with books; try lia ].
Lemma borrow_loop_ok cfg timeout started now s fresh :
  op_ok cfg s 0 0 [] fresh (borrow_loop cfg timeout started now s).
Proof. unfold borrow_loop. op_start. all: op_books.
 Qed.
Lemma borrow_ok cfg timeout now s fresh :
  op_ok cfg s 0 0 [] fresh (borrow cfg timeout now s).
Proof. unfold borrow, borrow_loop. op_start. all: op_books. Qed.

Lemma borrow_created_ok cfg started fresh o s :
  op_ok cfg s 1 0 [] fresh (borrow_created cfg started fresh o s).
Proof. unfold borrow_created. op_start. all: op_books. Qed.
Lemma borrow_created_unpooled_ok cfg started fresh o s : pc_pooled cfg = false ->
  op_ok cfg s 0 0 [] fresh (borrow_created_unpooled cfg started fresh o s).
Proof. intros Hp0. unfold borrow_created_unpooled. op_start. all: op_books. Qed.
Lemma borrow_validated_ok cfg t started item o s fresh : 
  op_ok cfg s 1 0 [ic_conn item] fresh (borrow_validated cfg t started item o s).
Proof. unfold borrow_validated, borrow_loop. op_start.  all: op_books. Qed.

Lemma expire_loop_frame cfg now ws s keep s' ex :
  expire_loop cfg now ws s = (keep, s', ex) ->
  idle s' = idle s /\ total s' = total s /\ borrowed s' = borrowed s /\ closed s' = closed s /\
  asyncWaiters s' = asyncWaiters s.
Proof.
  revert s keep s' ex. induction ws as [|w ws IH]; intros s keep s' ex; simpl.
  - by intros [= <- <- <-].
  - case_match.
    + destruct (expire_loop cfg now ws _) as [[k1 s1] e1] eqn:E. intros [= <- <- <-].
      apply IH in E. destruct (pc_metricsEnabled cfg); simpl in E; done.
    + destruct (expire_loop cfg now ws _) as [[k1 s1] e1] eqn:E. intros [= <- <- <-].
      by apply IH in E.
Qed.

Lemma expire_locked_frame cfg now s s' ex :
  expire_locked cfg now s = (s', ex) ->
  idle s' = idle s /\ total s' = total s /\ borrowed s' = borrowed s /\ closed s' = closed s.
Proof.
  unfold expire_locked. destruct (expire_loop cfg now (asyncWaiters s) s) as [[k1 s1] e1] eqn:E.
  intros [= <- <-]. apply expire_loop_frame in E. simpl. tauto.
Qed.

Lemma returnConn_ok cfg now h s fresh :
  op_ok cfg s 0 1 [h_conn h] fresh (returnConn cfg now h s).
Proof.
  unfold returnConn. destruct (expire_locked cfg now _) as [s' ex] eqn:Ex.
  apply expire_locked_frame in Ex as (E1 & E2 & E3 & E4).
  destruct s, s'; pool_cbn. destruct h. pool_cbn. 
  op_start; pool_cbn; subst; pool_cases; op_books.
Qed.

Lemma borrowAsync_start_ok cfg u t w now s fresh :
  op_ok cfg s 0 0 [] fresh (borrowAsync_start cfg u t w now s).
Proof.
  unfold borrowAsync_start, expireWaiters. destruct (expire_locked cfg now _) as [s' ex] eqn:Ex.
  apply expire_locked_frame in Ex as (E1 & E2 & E3 & E4).
  destruct s, s'; pool_cbn; subst. op_start; op_books.
Qed.

Lemma healthCheck_ok cfg now s fresh :
  op_ok cfg s 0 0 [] fresh (healthCheck cfg now s).
Proof.
  unfold healthCheck, expireWaiters. destruct (expire_locked cfg now _) as [s' ex] eqn:Ex.
  apply expire_locked_frame in Ex as (E1 & E2 & E3 & E4).
  destruct s, s'; pool_cbn; subst. op_start; op_books.
Qed.

Lemma borrowAsync_enter_ok cfg eff w now s fresh :
  op_ok cfg s 0 0 [] fresh (borrowAsync_enter cfg eff w now s).
Proof. unfold borrowAsync_enter. op_start; op_books. Qed.

Lemma async_pinged_ok cfg eff w item o s fresh :
  op_ok cfg s 1 0 [ic_conn item] fresh (async_pinged cfg eff w item o s).
Proof. unfold async_pinged. op_start; op_books. Qed.

Lemma async_dead_ok cfg eff w item s fresh :
  op_ok cfg s 1 0 [ic_conn item] fresh (async_dead eff w item s).
Proof. unfold async_dead. op_start; op_books. Qed.

Lemma postCreateTask_ok cfg w slot fresh o s :
  (slot = false -> pc_pooled cfg = false) ->
  op_ok cfg s (if slot then 1 else 0) 0 [] fresh (postCreateTask cfg w slot fresh o s).
Proof. intros Hs. unfold postCreateTask. destruct slot; [clear Hs|specialize (Hs eq_refl)]; op_start; op_books. Qed.

Lemma health_pop_ok cfg n now s fresh :
  op_ok cfg s 0 0 [] fresh (health_pop cfg n now s).
Proof. unfold health_pop. op_start; op_books. Qed.

Lemma health_checked_ok cfg n item r o s fresh :
  op_ok cfg s 1 0 [ic_conn item] fresh (health_checked cfg n item r o s).
Proof. unfold health_checked. op_start; op_books. Qed.

Lemma health_need_ok cfg s fresh :
  op_ok cfg s 0 0 [] fresh (health_need cfg s).
Proof. unfold health_need. op_start; op_books. Qed.

Lemma gives_close_map items : gives (map (fun i => Close (ic_conn i)) items) = [].
Proof. induction items; simpl; auto. Qed.
Lemma closes_close_map items :
  closes (map (fun i => Close (ic_conn i)) items) = map ic_conn items.
Proof. induction items; simpl; f_equal; auto. Qed.
Lemma gives_deliver_none st (ws : list AsyncWaiter) :
  gives (map (fun w => Deliver (aw_complete w) None st) ws) = [].
Proof. induction ws; simpl; auto. Qed.
Lemma closes_deliver_none st (ws : list AsyncWaiter) :
  closes (map (fun w => Deliver (aw_complete w) None st) ws) = [].
Proof. induction ws; simpl; auto. Qed.

Ltac eff_simpl ::=
  cbn [r_state r_eff r_next r_made];
  rewrite ?gives_app, ?closes_app, ?gives_failed, ?closes_failed, ?gives_close_map,
    ?closes_close_map, ?gives_deliver_none, ?closes_deliver_none.

Lemma health_commit_ok cfg need fresh s c :
  (length fresh <= need)%nat ->
  op_ok cfg s (Z.of_nat need) 0 (map ic_conn fresh) c (health_commit need fresh s).
Proof. intros Hl. unfold health_commit. op_start; op_books. Qed.

(** Counting something first changes none of the books. *)
Lemma op_ok_bump cfg ct s k0 b0 cs0 c r :
  op_ok cfg (bump ct s) k0 b0 cs0 c r -> op_ok cfg s k0 b0 cs0 c r.
Proof. intros [A N C O]. by split. Qed.

Lemma health_refill_ok cfg need fresh c o s :
  (length fresh <= need)%nat ->
  op_ok cfg s (Z.of_nat need) 0 (map ic_conn fresh) c (health_refill need fresh c o s).
Proof.
  intros Hl. unfold health_refill.
  destruct (_ <? _)%nat eqn:E; [destruct (o_create o)|]; try by apply health_commit_ok.
  - bool_prop. op_start; op_books.
  - bool_prop. op_start; op_books. autorewrite with books. simpl. lia.
Qed.

Lemma health_snapshot_ok cfg s c : op_ok cfg s 0 0 [] c (health_snapshot s).
Proof. unfold health_snapshot. op_start; op_books. Qed.

Lemma shutdown_drain_ok cfg grace ws s c :
  closed s = true -> op_ok cfg s 0 0 [] c (shutdown_drain cfg grace ws s).
Proof.
  intros Hc. unfold shutdown_drain, shutdown_wait, shutdown_finish. destruct s; pool_cbn; subst.
  op_start; op_books.
Qed.

Lemma shutdown_ok cfg grace s c : op_ok cfg s 0 0 [] c (shutdown cfg grace s).
Proof.
  destruct (shutdown_drain_ok cfg grace (asyncWaiters s) (set_asyncWaiters [] (set_closed s)) c eq_refl)
    as [A N C O].
  split; [|exact N|intros _; by apply C|exact O].
  intros k b Hk Hb [E _]. by apply (A k b Hk Hb).
Qed.

Lemma shutdown_woken_ok cfg ws o s c :
  closed s = true -> op_ok cfg s 0 0 [] c (shutdown_woken cfg ws o s).
Proof.
  intros Hc. unfold shutdown_woken, shutdown_wait, shutdown_finish. destruct s; pool_cbn; subst.
  op_start; op_books.
Qed.

Lemma borrow_woken_ok cfg t started o s fresh :
  op_ok cfg s 0 0 [] fresh (borrow_woken cfg t started o s).
Proof. unfold borrow_woken, borrow_loop. op_start; op_books. Qed.

Lemma resume_ok cfg f fresh o s :
  fl_ok cfg (closed s) f ->
  op_ok cfg s (slots f) 0 (fl_conns f) fresh (resume cfg f fresh o s).
Proof.
  intros Hf. destruct f; simpl; simpl in Hf.
  - apply borrow_validated_ok.
  - apply borrow_created_ok.
  - by apply borrow_created_unpooled_ok.
  - apply borrow_woken_ok.
  - apply borrowAsync_start_ok.
  - apply borrowAsync_enter_ok.
  - apply async_pinged_ok.
  - apply async_dead_ok.
  - destruct slotReserved; [by apply (postCreateTask_ok cfg w true) | by apply (postCreateTask_ok cfg w false)].
  - apply health_snapshot_ok.
  - apply health_pop_ok.
  - apply health_checked_ok.
  - apply health_need_ok.
  - by apply health_refill_ok.
  - by apply health_commit_ok.
  - by apply (op_ok_bump _ connectionsClosed), shutdown_drain_ok.
  - by apply shutdown_woken_ok.
Qed.

(** ** The invariant of the world *)
Record world_ok (cfg : PoolConfig) (w : World) : Prop := {
  wk_acct : acct cfg (w_pool w) (sum_slots (w_flights w)) (Z.of_nat (length (w_handles w)));
  wk_flights : Forall (fl_ok cfg (closed (w_pool w))) (w_flights w);
  wk_conns c :
    (occ c (map ic_conn (idle (w_pool w))) + occ c (concat (map fl_conns (w_flights w))) +
     occ c (map h_conn (w_handles w)) + occ c (w_closed w) =
     occ c (seq 0 (w_next w)))%nat }.

Lemma fl_ok_mono cfg (a b : bool) f : (a = true -> b = true) -> fl_ok cfg a f -> fl_ok cfg b f.
Proof. destruct f; simpl; auto. Qed.

Lemma slots_nonneg f : 0 <= slots f.
Proof. destruct f; simpl; try case_match; lia. Qed.
Lemma sum_slots_nonneg fl : 0 <= sum_slots fl.
Proof. induction fl as [|f fl IH]; simpl; [lia|]. pose proof (slots_nonneg f). lia. Qed.
Lemma sum_slots_app a b : sum_slots (a ++ b) = sum_slots a + sum_slots b.
Proof. induction a; simpl; [done|]. lia. Qed.
Lemma sum_slots_perm a b : a ≡ₚ b -> sum_slots a = sum_slots b.
Proof. induction 1; simpl; lia. Qed.
#[export] Instance occ_Permutation_Proper c : Proper ((≡ₚ) ==> eq) (occ c).
Proof. intros a b H. exact (proj1 (Permutation_count_occ Nat.eq_dec a b) H c). Qed.

(** Committing an operation that took [f0] and [h0] out of the world. *)
Lemma commit_ok cfg w fl hs f0 h0 k0 b0 cs0 r :
  world_ok cfg w ->
  w_flights w ≡ₚ f0 ++ fl -> w_handles w ≡ₚ h0 ++ hs ->
  k0 = sum_slots f0 -> b0 = Z.of_nat (length h0) ->
  cs0 ≡ₚ concat (map fl_conns f0) ++ map h_conn h0 ->
  op_ok cfg (w_pool w) k0 b0 cs0 (w_next w) r ->
  world_ok cfg (commit w fl hs r).
Proof.
  intros [Ha Hf Hc] Pf Ph -> -> Pc [Oa On Oc Occ]. split; simpl.
  - rewrite sum_slots_app, length_app, Nat2Z.inj_add, Z.add_comm.
    rewrite (Z.add_comm (Z.of_nat (length (gives _)))).
    apply Oa; [apply sum_slots_nonneg | lia |].
    rewrite (sum_slots_perm _ _ Pf), sum_slots_app, Ph, length_app in Ha.
    rewrite Nat2Z.inj_add in Ha.
    by rewrite (Z.add_comm (sum_slots fl)), (Z.add_comm (Z.of_nat (length hs))).
  - apply Forall_app; split; [done|].
    rewrite Pf in Hf. apply Forall_app in Hf as [_ Hf].
    eapply Forall_impl; [exact Hf|]. intros f. by apply fl_ok_mono.
  - intros c. specialize (Hc c). specialize (Occ c).
    rewrite Pc in Occ.
    assert (Q1 : concat (map fl_conns (w_flights w)) ≡ₚ
                 concat (map fl_conns f0) ++ concat (map fl_conns fl)).
    { rewrite <- concat_app, <- map_app. by rewrite Pf. }
    rewrite Q1, Ph in Hc.
    rewrite ?map_app, ?concat_app, ?occ_app in *.
    destruct (r_made r); [|rewrite occ_nil in Occ; lia].
    rewrite seq_S, occ_app, Nat.add_0_l. lia.
Qed.

Lemma acct_invalidate cfg w i h :
  world_ok cfg w -> w_handles w !! i = Some h ->
  world_ok cfg {| w_pool := w_pool w; w_flights := w_flights w;
                  w_handles := <[i := invalidate h]> (w_handles w);
                  w_closed := w_closed w; w_next := w_next w; w_log := w_log w |}.
Proof.
  intros [Ha Hf Hc] Hi. split; simpl; [by rewrite length_insert | done |].
  intros c. rewrite <- Hc. f_equal. f_equal.
  rewrite (list_fmap_insert h_conn). simpl. f_equal. apply list_insert_id.
  by rewrite list_lookup_fmap, Hi.
Qed.

Lemma step_ok cfg w e w' : world_ok cfg w -> step cfg w e = Some w' -> world_ok cfg w'.
Proof.
  intros Hw. destruct e; simpl.
  - intros [= <-]. eapply (commit_ok _ _ _ _ [] []); [done..|]. apply borrow_ok.
  - intros [= <-]. eapply (commit_ok _ _ _ _ [] []); [done..|]. apply borrowAsync_start_ok.
  - destruct (w_handles w !! i) as [h|] eqn:E; [|done]. intros [= <-].
    apply delete_Permutation in E.
    eapply (commit_ok _ _ _ _ [] [h]); [done|done|exact E|done|done|done|]. apply returnConn_ok.
  - destruct (w_handles w !! i) as [h|] eqn:E; [|done]. intros [= <-]. by apply acct_invalidate.
  - intros [= <-]. eapply (commit_ok _ _ _ _ [] []); [done..|]. apply healthCheck_ok.
  - intros [= <-]. eapply (commit_ok _ _ _ _ [] []); [done..|]. apply shutdown_ok.
  - destruct (w_flights w !! i) as [f|] eqn:E; [|done]. intros [= <-].
    assert (Hf : fl_ok cfg (closed (w_pool w)) f).
    { pose proof (wk_flights _ _ Hw) as F. rewrite Forall_lookup in F. eauto. }
    apply delete_Permutation in E.
    eapply (commit_ok _ _ _ _ [f] []); [done|exact E|done|simpl; symmetry; apply Z.add_0_r|done| |].
    + simpl. by rewrite !app_nil_r.
    + by apply resume_ok.
Qed.

Ltac leaf_books := op_start; op_books.

Lemma empty_world_ok cfg : 0 <= pc_maxConn cfg -> world_ok cfg empty_world.
Proof. intros H. split; [split; [done|]; intros _; split; [done|]; intros _; exact H | constructor | done]. Qed.

Lemma warmup_ok cfg n outs w :
  world_ok cfg w -> world_ok cfg (warmup cfg n outs w).
Proof.
  revert outs w. induction n as [|n IH]; intros outs w Hw; [done|].
  destruct outs as [|[now [e|]] outs]; simpl; [done| |].
  - eapply (commit_ok _ _ _ _ [] []); [done..|]. destruct (w_pool w). leaf_books.
  - case_match eqn:E.
    + eapply (commit_ok _ _ _ _ [] []); [done..|]. destruct (w_pool w). leaf_books.
    + apply IH. eapply (commit_ok _ _ _ _ [] []); [done..|].
      destruct (w_pool w). simpl in E. leaf_books.
Qed.

Lemma construct_ok cfg outs : 0 <= pc_maxConn cfg -> world_ok cfg (construct cfg outs).
Proof.
  intros H. unfold construct. case_match; [apply warmup_ok|]; by apply empty_world_ok.
Qed.

Lemma reachable_ok cfg w : 0 <= pc_maxConn cfg -> reachable cfg w -> world_ok cfg w.
Proof. intros H. induction 1; [by apply construct_ok | by eapply step_ok]. Qed.

Lemma make_pool_config_bounds name a b bt it ml lk vi m p :
  0 <= pc_minConn (make_pool_config name a b bt it ml lk vi m p) <= pc_maxConn (make_pool_config name a b bt it ml lk vi m p)
  /\ 1 <= pc_maxConn (make_pool_config name a b bt it ml lk vi m p).
Proof. simpl. case_match; bool_prop; lia. Qed.

(** ** Properties *)

(** C1: however borrows, returns, health checks and failures interleave, an
    open pool's [total] is the number of idle, borrowed and in-flight
    connections and slots, [borrowed] the number of live handles, and a pooled
    data source never holds more than [maxConn_] of them. *)
Theorem pool_books cfg w :
  0 <= pc_maxConn cfg -> reachable cfg w ->
  borrowed (w_pool w) = Z.of_nat (length (w_handles w)) /\
  (closed (w_pool w) = false ->
   total (w_pool w) = Z.of_nat (length (idle (w_pool w))) + borrowed (w_pool w)
                      + sum_slots (w_flights w) /\
   (pc_pooled cfg = true ->
    Z.of_nat (length (idle (w_pool w) )) + Z.of_nat (length (w_handles w)) <= pc_maxConn cfg /\
    total (w_pool w) <= pc_maxConn cfg)).
Proof.
  intros H Hr. destruct (reachable_ok cfg w H Hr) as [[E1 E2] _ _]. split; [done|].
  intros Hc. destruct (E2 Hc) as [E3 E4]. rewrite E1. split; [done|].
  intros Hp. specialize (E4 Hp). pose proof (sum_slots_nonneg (w_flights w)). lia.
Qed.

(** C8: every connection the pool ever opened is in exactly one place: idle, in
    the hands of one unfinished operation, in one live handle, or closed once. *)
Theorem pool_connections_accounted cfg w :
  0 <= pc_maxConn cfg -> reachable cfg w ->
  map ic_conn (idle (w_pool w)) ++ concat (map fl_conns (w_flights w)) ++
  map h_conn (w_handles w) ++ w_closed w ≡ₚ seq 0 (w_next w).
Proof.
  intros H Hr. destruct (reachable_ok cfg w H Hr) as [_ _ Hc].
  apply (Permutation_count_occ Nat.eq_dec). intros c. specialize (Hc c).
  unfold occ in Hc. rewrite !count_occ_app. rewrite <- Hc. apply Nat.add_assoc || lia.
Qed.

(** *** After [shutdown] *)

(** A closed pool with no queued waiters hands out nothing, queues nobody and
    takes nothing back into the idle queue. *)
Definition shut_ok (s : State) (r : Res) : Prop :=
  closed s = true -> asyncWaiters s = [] ->
  gives (r_eff r) = [] /\ asyncWaiters (r_state r) = [] /\
  (length (idle (r_state r)) <= length (idle s))%nat.

Ltac op_shut :=
  let H1 := fresh in let H2 := fresh in intros H1 H2; eff_simpl; pool_cbn; subst; try discriminate;
  autorewrite with books; pool_cbn; split_and!; try done; try lia.

Lemma expire_locked_nil cfg now s :
  asyncWaiters s = [] -> expire_locked cfg now s = (set_asyncWaiters [] s, []).
Proof. intros H. unfold expire_locked. rewrite H. done. Qed.

Lemma closed_start cfg u t w now s : shut_ok s (borrowAsync_start cfg u t w now s).
Proof.
  intros Hc Hw. unfold borrowAsync_start, expireWaiters. rewrite (expire_locked_nil _ _ _ Hw).
  destruct u; simpl; auto.
Qed.

Lemma closed_health cfg now s : shut_ok s (healthCheck cfg now s).
Proof.
  intros Hc Hw. unfold healthCheck, expireWaiters. rewrite (expire_locked_nil _ _ _ Hw).
  destruct (pc_pooled cfg); simpl; auto.
Qed.

Ltac shut :=
  let H1 := fresh "Hc" in let H2 := fresh "Hw" in intros H1 H2;
  repeat match goal with s : State |- _ => destruct s end; pool_cbn; subst;
  op_start; rewrite ?andb_false_r in *; eff_simpl; try discriminate; pool_cbn; autorewrite with books; auto.

Lemma closed_return cfg now h s : shut_ok s (returnConn cfg now h s).
Proof.
  intros Hc Hw. unfold returnConn. destruct (expire_locked _ _ _) as [s' ex]. revert Hc Hw.
  destruct h. shut.
Qed.

Lemma closed_borrow cfg timeout now s : shut_ok s (borrow cfg timeout now s).
Proof. unfold borrow, borrow_loop. shut. Qed.

Lemma closed_drain cfg grace ws s : shut_ok s (shutdown_drain cfg grace ws s).
Proof. unfold shutdown_drain, shutdown_wait, shutdown_finish. shut. Qed.

Lemma closed_resume cfg f fresh o s : shut_ok s (resume cfg f fresh o s).
Proof.
  destruct f; simpl.
  - unfold borrow_validated, borrow_loop. shut.
  - unfold borrow_created. shut.
  - unfold borrow_created_unpooled. shut.
  - unfold borrow_woken, borrow_loop. shut.
  - apply closed_start.
  - unfold borrowAsync_enter. shut.
  - unfold async_pinged. shut.
  - unfold async_dead. shut.
  - unfold postCreateTask. shut.
  - unfold health_snapshot. shut.
  - unfold health_pop. shut.
  - unfold health_checked. shut.
  - unfold health_need. shut.
  - unfold health_refill, health_commit. shut.
  - unfold health_commit. shut.
  - exact (closed_drain cfg grace waiters (bump connectionsClosed s)).
  - unfold shutdown_woken, shutdown_wait, shutdown_finish. shut.
Qed.

(** The waiters of a closed pool were taken out of the queue by [shutdown]. *)
Definition closed_quiet (s : State) : Prop := closed s = true -> asyncWaiters s = [].


Ltac same_closed :=
  repeat match goal with s : State |- _ => destruct s end; pool_cbn; op_start; reflexivity.

Lemma expireWaiters_closed cfg now s : closed (expireWaiters cfg now s).1 = closed s.
Proof.
  unfold expireWaiters. destruct (expire_locked cfg now s) as [s' ex] eqn:E.
  apply expire_locked_frame in E. simpl. tauto.
Qed.

Lemma start_closed cfg u t w now s : closed (r_state (borrowAsync_start cfg u t w now s)) = closed s.
Proof.
  unfold borrowAsync_start. destruct u; [|done]. simpl.
  pose proof (expireWaiters_closed cfg now s). by destruct (expireWaiters cfg now s).
Qed.

Lemma health_closed cfg now s : closed (r_state (healthCheck cfg now s)) = closed s.
Proof.
  unfold healthCheck. case_match; [done|].
  pose proof (expireWaiters_closed cfg now s). by destruct (expireWaiters cfg now s).
Qed.

Lemma return_closed cfg now h s : closed (r_state (returnConn cfg now h s)) = closed s.
Proof.
  unfold returnConn. destruct (expire_locked cfg now _) as [s' ex] eqn:E.
  apply expire_locked_frame in E as (_ & _ & _ & E).
  destruct s, s', h; pool_cbn; subst. op_start; reflexivity.
Qed.

Lemma borrow_closed cfg timeout now s : closed (r_state (borrow cfg timeout now s)) = closed s.
Proof. unfold borrow, borrow_loop. same_closed. Qed.

Lemma drain_closed cfg grace ws s : closed (r_state (shutdown_drain cfg grace ws s)) = closed s.
Proof. unfold shutdown_drain, shutdown_wait, shutdown_finish. same_closed. Qed.

Lemma resume_closed cfg f fresh o s : closed (r_state (resume cfg f fresh o s)) = closed s.
Proof.
  destruct f; simpl.
  - unfold borrow_validated, borrow_loop. same_closed.
  - unfold borrow_created. same_closed.
  - unfold borrow_created_unpooled. same_closed.
  - unfold borrow_woken, borrow_loop. same_closed.
  - apply start_closed.
  - unfold borrowAsync_enter. same_closed.
  - unfold async_pinged. same_closed.
  - unfold async_dead. same_closed.
  - unfold postCreateTask. same_closed.
  - unfold health_snapshot. same_closed.
  - unfold health_pop. same_closed.
  - unfold health_checked. same_closed.
  - unfold health_need. same_closed.
  - unfold health_refill, health_commit. same_closed.
  - unfold health_commit. same_closed.
  - apply (drain_closed cfg grace waiters (bump connectionsClosed s)).
  - unfold shutdown_woken, shutdown_wait, shutdown_finish. same_closed.
Qed.

Lemma shutdown_quiet cfg grace s :
  closed (r_state (shutdown cfg grace s)) = true /\
  asyncWaiters (r_state (shutdown cfg grace s)) = [] /\
  gives (r_eff (shutdown cfg grace s)) = [] /\
  (length (idle (r_state (shutdown cfg grace s))) <= length (idle s))%nat.
Proof.
  destruct (closed_drain cfg grace (asyncWaiters s) (set_asyncWaiters [] (set_closed s))) as (?&?&?);
    [done..|].
  split_and!; try done. unfold shutdown. cbn [r_state]. by rewrite drain_closed.
Qed.

(** What an event may do to a closed pool: live handles and idle connections
    only get fewer, and nobody is queued. *)
Definition winds_down (w w' : World) : Prop :=
  closed (w_pool w') = true /\
  asyncWaiters (w_pool w') = [] /\
  map h_conn (w_handles w') `sublist_of` map h_conn (w_handles w) /\
  (length (idle (w_pool w')) <= length (idle (w_pool w)))%nat.

Lemma map_sublist {A B} (f : A -> B) l k : l `sublist_of` k -> map f l `sublist_of` map f k.
Proof. induction 1; simpl; by constructor. Qed.

Lemma commit_quiet w fl hs r :
  closed_quiet (w_pool w) -> shut_ok (w_pool w) r -> closed (r_state r) = closed (w_pool w) ->
  hs `sublist_of` w_handles w ->
  closed_quiet (w_pool (commit w fl hs r)) /\
  (closed (w_pool w) = true -> winds_down w (commit w fl hs r)).
Proof.
  intros Hq Hs Hc Hh. split.
  - intros Hc'. simpl in Hc'. rewrite Hc in Hc'. by apply (Hs Hc' (Hq Hc')).
  - intros Hc'. destruct (Hs Hc' (Hq Hc')) as (Hg & Ha & Hi). split_and!; simpl; try done; try congruence.
    rewrite Hg. by apply (map_sublist h_conn).
Qed.

Lemma step_quiet cfg w e w' :
  closed_quiet (w_pool w) -> step cfg w e = Some w' ->
  closed_quiet (w_pool w') /\ (closed (w_pool w) = true -> winds_down w w').
Proof.
  intros Hq. destruct e; simpl; intros Hstep.
  - simplify_eq. apply commit_quiet; [done | apply closed_borrow | apply borrow_closed | done].
  - simplify_eq. apply commit_quiet; [done | apply closed_start | apply start_closed | done].
  - destruct (w_handles w !! i) as [h|] eqn:E; simplify_eq/=.
    apply commit_quiet; [done | apply closed_return | apply return_closed | apply sublist_delete].
  - destruct (w_handles w !! i) as [h|] eqn:E; simplify_eq/=. split; [done|].
    intros Hc. split_and!; simpl; auto.
    rewrite (list_fmap_insert h_conn). simpl.
    rewrite list_insert_id; [done | by rewrite list_lookup_fmap, E].
  - simplify_eq. apply commit_quiet; [done | apply closed_health | apply health_closed | done].
  - simplify_eq. destruct (shutdown_quiet cfg grace (w_pool w)) as (Hc & Ha & Hg & Hi).
    split; [intros _; exact Ha|]. intros Hc'. split_and!; try done. cbn [w_handles commit]. by rewrite Hg.
  - destruct (w_flights w !! i) as [f|] eqn:E; simplify_eq/=.
    apply commit_quiet; [done | apply closed_resume | apply resume_closed | done].
Qed.

Lemma warmup_open cfg n outs w :
  closed (w_pool w) = false -> closed (w_pool (warmup cfg n outs w)) = false.
Proof.
  revert outs w. induction n as [|n IH]; intros outs w Hw; [done|].
  destruct outs as [|[now [e|]] outs]; simpl; [done|done|]. case_match; [done|]. by apply IH.
Qed.

Lemma reachable_quiet cfg w : reachable cfg w -> closed_quiet (w_pool w).
Proof.
  induction 1 as [outs|w e w' _ IH Hs].
  - intros Hc. unfold construct in Hc. case_match; [|done].
    rewrite warmup_open in Hc; done.
  - by apply (step_quiet cfg w e w' IH Hs).
Qed.

(** once [shutdown] has started, no event hands out another connection,
    queues a waiter or refills the idle queue: the live handles are only given
    back. *)
Theorem closed_pool_winds_down cfg w e w' :
  reachable cfg w -> closed (w_pool w) = true -> step cfg w e = Some w' -> winds_down w w'.
Proof. intros Hr Hc Hs. by apply (step_quiet cfg w e w' (reachable_quiet cfg w Hr) Hs). Qed.

(** *** The validation interval *)

(** Nothing in the pool stores the time of the last successful ping: the field
    of an idle connection is always the epoch. *)
Definition epoch (i : IdleConnection) : Prop := ic_lastValidated i = 0.
Definition fl_epoch (f : Flight) : Prop :=
  match f with
  | FlHealthCheck _ item _ => epoch item
  | FlHealthRefill _ fresh | FlHealthCommit _ fresh => Forall epoch fresh
  | _ => True
  end.
Definition epoch_ok (s : State) (r : Res) : Prop :=
  Forall epoch (idle s) -> Forall epoch (idle (r_state r)) /\ Forall fl_epoch (r_next r).

Ltac epochs :=
  let H := fresh in intros H;
  repeat match goal with s : State |- _ => destruct s end; pool_cbn; op_start; pool_cbn;
  repeat match goal with H : Forall _ (_ :: _) |- _ => apply Forall_cons in H as [? ?] end;
  rewrite ?Forall_app; repeat split; repeat constructor; simpl; rewrite ?Forall_app;
  repeat split; repeat constructor; auto.

Lemma epoch_return cfg now h s : epoch_ok s (returnConn cfg now h s).
Proof.
  unfold returnConn. destruct (expire_locked cfg now _) as [s' ex] eqn:E.
  apply expire_locked_frame in E as (E & _ & _ & _).
  destruct s, s', h; pool_cbn; subst. epochs.
Qed.

Lemma epoch_start cfg u t w now s : epoch_ok s (borrowAsync_start cfg u t w now s).
Proof.
  unfold borrowAsync_start, expireWaiters. destruct (expire_locked cfg now s) as [s' ex] eqn:E.
  apply expire_locked_frame in E as (E & _ & _ & _).
  destruct s, s'; pool_cbn; subst. epochs.
Qed.

Lemma epoch_health cfg now s : epoch_ok s (healthCheck cfg now s).
Proof.
  unfold healthCheck, expireWaiters. destruct (expire_locked cfg now s) as [s' ex] eqn:E.
  apply expire_locked_frame in E as (E & _ & _ & _).
  destruct s, s'; pool_cbn; subst. epochs.
Qed.

Lemma epoch_borrow cfg timeout now s : epoch_ok s (borrow cfg timeout now s).
Proof. unfold borrow, borrow_loop. epochs. Qed.

Lemma epoch_drain cfg grace ws s : epoch_ok s (shutdown_drain cfg grace ws s).
Proof. unfold shutdown_drain, shutdown_wait, shutdown_finish. epochs. Qed.

Lemma epoch_resume cfg f fresh o s : fl_epoch f -> epoch_ok s (resume cfg f fresh o s).
Proof.
  intros Hf. destruct f; simpl in *.
  - unfold borrow_validated, borrow_loop. epochs.
  - unfold borrow_created. epochs.
  - unfold borrow_created_unpooled. epochs.
  - unfold borrow_woken, borrow_loop. epochs.
  - apply epoch_start.
  - unfold borrowAsync_enter. epochs.
  - unfold async_pinged. epochs.
  - unfold async_dead. epochs.
  - unfold postCreateTask. epochs.
  - unfold health_snapshot. epochs.
  - unfold health_pop. epochs.
  - unfold health_checked. epochs.
  - unfold health_need. epochs.
  - unfold health_refill, health_commit. epochs.
  - unfold health_commit. epochs.
  - exact (epoch_drain cfg grace waiters (bump connectionsClosed s)).
  - unfold shutdown_woken, shutdown_wait, shutdown_finish. epochs.
Qed.

Definition epochs_ok (w : World) : Prop :=
  Forall epoch (idle (w_pool w)) /\ Forall fl_epoch (w_flights w).

Lemma commit_epochs w fl hs r :
  epochs_ok w -> Forall fl_epoch fl -> epoch_ok (w_pool w) r -> epochs_ok (commit w fl hs r).
Proof. intros [Hi _] Hf Hr. destruct (Hr Hi). split; simpl; [done|]. by apply Forall_app. Qed.

Lemma warmup_epochs cfg n outs w : epochs_ok w -> epochs_ok (warmup cfg n outs w).
Proof.
  revert outs w. induction n as [|n IH]; intros outs w Hw; [done|].
  destruct outs as [|[now [e|]] outs]; simpl; [done|done|].
  case_match; [done|]. apply IH. destruct Hw as [Hi Hf]. split; simpl; [|done].
  apply Forall_app. split; [done|]. by repeat constructor.
Qed.

Lemma reachable_epochs cfg w : reachable cfg w -> epochs_ok w.
Proof.
  induction 1 as [outs|w e w' _ IH Hs].
  - unfold construct. case_match; [apply warmup_epochs|]; by split.
  - pose proof IH as [Hi Hf].
    destruct e; simpl in Hs.
    + simplify_eq. apply commit_epochs; [done..|]. apply epoch_borrow.
    + simplify_eq. apply commit_epochs; [done..|]. apply epoch_start.
    + destruct (w_handles w !! i); simplify_eq/=. apply commit_epochs; [done..|]. apply epoch_return.
    + destruct (w_handles w !! i); simplify_eq/=. done.
    + simplify_eq. apply commit_epochs; [done..|]. apply epoch_health.
    + simplify_eq. apply commit_epochs; [done..|]. intros H.
      by apply (epoch_drain cfg grace (asyncWaiters (w_pool w)) (set_asyncWaiters [] (set_closed (w_pool w)))).
    + destruct (w_flights w !! i) as [f|] eqn:E; simplify_eq/=.
      apply commit_epochs; [done | by apply Forall_delete |]. apply epoch_resume.
      rewrite Forall_lookup in Hf. eauto.
Qed.

(** no idle connection of a reachable pool carries a validation time, so
    a borrow pings it whatever the validation interval is, as soon as the
    steady clock itself exceeds the interval. *)
Theorem validation_interval_never_spares_a_ping cfg w item now :
  reachable cfg w -> item ∈ idle (w_pool w) -> pc_validationInterval cfg <= now ->
  needs_ping cfg now item = true.
Proof.
  intros Hr Hi Hn. destruct (reachable_epochs cfg w Hr) as [He _].
  rewrite Forall_forall in He. pose proof (He _ Hi) as E. unfold needs_ping.
  rewrite E, Z.sub_0_r. apply orb_true_iff. right. by apply Z.leb_le.
Qed.

(** *** Asynchronous borrows *)

(** The waiters an expiry pass takes out are exactly those past their deadline;
    each is told [PoolExhausted] and the others keep their order. *)
Lemma expire_loop_spec cfg now ws s :
  (expire_loop cfg now ws s).1.1 = List.filter (fun w => now <? aw_deadline w) ws /\
  map (fun p => aw_complete p.1) (expire_loop cfg now ws s).2 =
    map aw_complete (List.filter (fun w => aw_deadline w <=? now) ws) /\
  Forall (fun p => st_code p.2 = PoolExhausted) (expire_loop cfg now ws s).2.
Proof.
  revert s. induction ws as [|w ws IH]; intros s; simpl; [done|].
  rewrite (Z.ltb_antisym (aw_deadline w) now).
  destruct (aw_deadline w <=? now); simpl.
  - specialize (IH (bump_if (pc_metricsEnabled cfg) borrowTimeouts s)).
    destruct (expire_loop _ _ _ _) as [[k1 s1] e1]. simpl in *. destruct IH as (-> & -> & ?).
    by repeat constructor.
  - specialize (IH s). destruct (expire_loop _ _ _ _) as [[k1 s1] e1]. simpl in *.
    destruct IH as (-> & -> & ?). done.
Qed.

(** [expireWaiters] completes exactly the queued borrows whose deadline has
    passed, in their order, with [PoolExhausted]; the rest stay queued. *)
Theorem expireWaiters_exact cfg now s :
  asyncWaiters (expireWaiters cfg now s).1 =
    List.filter (fun w => now <? aw_deadline w) (asyncWaiters s) /\
  exists sts, (expireWaiters cfg now s).2 =
    zip_with (fun w st => Deliver (aw_complete w) None st)
             (List.filter (fun w => aw_deadline w <=? now) (asyncWaiters s)) sts /\
    length sts = length (List.filter (fun w => aw_deadline w <=? now) (asyncWaiters s)) /\
    Forall (fun st => st_code st = PoolExhausted) sts.
Proof.
  unfold expireWaiters, expire_locked.
  destruct (expire_loop_spec cfg now (asyncWaiters s) s) as (H1 & H2 & H3).
  destruct (expire_loop cfg now (asyncWaiters s) s) as [[k1 s1] ex]. simpl in *.
  split; [done|]. exists (map snd ex).
  assert (L : length ex = length (List.filter (fun w => aw_deadline w <=? now) (asyncWaiters s))).
  { rewrite <- (length_map aw_complete), <- H2. by rewrite length_map. }
  split_and!; [|by rewrite length_map|by apply Forall_map].
  revert H2. clear. generalize (List.filter (fun w => aw_deadline w <=? now) (asyncWaiters s)).
  induction ex as [|[w st] ex IH]; intros [|w' l]; simpl; intros [=]; [done|]. f_equal; [congruence|].
  by apply IH.
Qed.

(** *** Every callback runs at most once *)
Definition fl_cbs (f : Flight) : list callback :=
  match f with
  | FlAsyncStart _ w | FlAsyncEnter _ w | FlAsyncPing _ w _ | FlAsyncDead _ w _
  | FlAsyncCreate w _ => [w]
  | FlShutdownClose _ ws | FlShutdownWait ws => map aw_complete ws
  | _ => []
  end.

Definition delivered (es : list Effect) : list callback :=
  omap (fun e => match e with Deliver w _ _ => Some w | _ => None end) es.

Definition started (es : list Event) : list callback :=
  omap (fun e => match e with EvBorrowAsync true _ w _ => Some w | _ => None end) es.

(** An operation entrusted with the callbacks [cs0] neither duplicates nor
    invents one. *)
Definition cb_ok (s : State) (cs0 : list callback) (r : Res) : Prop :=
  forall c,
    (occ c (map aw_complete (asyncWaiters (r_state r))) + occ c (concat (map fl_cbs (r_next r))) +
     occ c (delivered (r_eff r)) <=
     occ c (map aw_complete (asyncWaiters s)) + occ c cs0)%nat.

Lemma delivered_app a b : delivered (a ++ b) = delivered a ++ delivered b.
Proof. apply omap_app. Qed.
Lemma delivered_failed ws : delivered (deliver_failed ws) = map (fun p => aw_complete p.1) ws.
Proof. induction ws; simpl; f_equal; auto. Qed.
Lemma delivered_none st (ws : list AsyncWaiter) :
  delivered (map (fun w => Deliver (aw_complete w) None st) ws) = map aw_complete ws.
Proof. induction ws; simpl; f_equal; auto. Qed.
Lemma delivered_close items : delivered (map (fun i => Close (ic_conn i)) items) = [].
Proof. induction items; simpl; auto. Qed.

Lemma expire_locked_occ cfg now s s' ex c :
  expire_locked cfg now s = (s', ex) ->
  (occ c (map aw_complete (asyncWaiters s')) + occ c (map (fun p => aw_complete p.1) ex) =
   occ c (map aw_complete (asyncWaiters s)))%nat.
Proof.
  unfold expire_locked. destruct (expire_loop_spec cfg now (asyncWaiters s) s) as (H1 & H2 & _).
  destruct (expire_loop cfg now (asyncWaiters s) s) as [[k1 s1] e1]. simpl in H1, H2.
  intros [= <- <-]. simpl. rewrite H2, H1. clear.
  induction (asyncWaiters s) as [|w ws IH]; cbn [List.filter map]; [done|].
  rewrite (Z.ltb_antisym (aw_deadline w) now). destruct (aw_deadline w <=? now); cbn [negb map];
    rewrite !(occ_cons _ (aw_complete w)); lia.
Qed.

Ltac cb_simpl :=
  pool_cbn; rewrite ?delivered_app, ?delivered_failed, ?delivered_none, ?delivered_close;
  pool_cbn; cbn [fl_cbs delivered omap list_omap aw_complete]; rewrite ?app_nil_r;
  autorewrite with books; pool_cbn; autorewrite with books; cbn [aw_complete].
Ltac cbs :=
  let c := fresh "x" in intros c;
  repeat match goal with s : State |- _ => destruct s end; pool_cbn; op_start; cb_simpl; try lia.

Lemma cb_start cfg t w now s : cb_ok s [w] (borrowAsync_start cfg true t w now s).
Proof.
  intros c. unfold borrowAsync_start, expireWaiters. destruct (expire_locked cfg now s) as [s' ex] eqn:E.
  apply (expire_locked_occ _ _ _ _ _ c) in E. cb_simpl. lia.
Qed.

Lemma cb_health cfg now s : cb_ok s [] (healthCheck cfg now s).
Proof.
  intros c. unfold healthCheck, expireWaiters. destruct (expire_locked cfg now s) as [s' ex] eqn:E.
  apply (expire_locked_occ _ _ _ _ _ c) in E. case_match; cb_simpl; lia.
Qed.

Lemma cb_return cfg now h s : cb_ok s [] (returnConn cfg now h s).
Proof.
  intros c. unfold returnConn. destruct (expire_locked cfg now _) as [s' ex] eqn:E.
  apply (expire_locked_occ _ _ _ _ _ c) in E.
  destruct s, s', h; pool_cbn; subst. op_start; cb_simpl; subst; pool_cbn; autorewrite with books in *; try lia.
Qed.

Lemma cb_borrow cfg timeout now s : cb_ok s [] (borrow cfg timeout now s).
Proof. unfold borrow, borrow_loop. cbs. Qed.

Lemma cb_drain cfg grace ws s : cb_ok s (map aw_complete ws) (shutdown_drain cfg grace ws s).
Proof. unfold shutdown_drain, shutdown_wait, shutdown_finish. cbs. Qed.

Lemma cb_shutdown cfg grace s : cb_ok s [] (shutdown cfg grace s).
Proof.
  intros c. pose proof (cb_drain cfg grace (asyncWaiters s) (set_asyncWaiters [] (set_closed s)) c) as H.
  cbn [asyncWaiters set_asyncWaiters map] in H. rewrite occ_nil in H. rewrite occ_nil, Nat.add_0_r.
  exact H.
Qed.

Lemma cb_resume cfg f fresh o s : cb_ok s (fl_cbs f) (resume cfg f fresh o s).
Proof.
  destruct f; simpl.
  - unfold borrow_validated, borrow_loop. cbs.
  - unfold borrow_created. cbs.
  - unfold borrow_created_unpooled. cbs.
  - unfold borrow_woken, borrow_loop. cbs.
  - apply cb_start.
  - unfold borrowAsync_enter. cbs.
  - unfold async_pinged. cbs.
  - unfold async_dead. cbs.
  - unfold postCreateTask. cbs.
  - unfold health_snapshot. cbs.
  - unfold health_pop. cbs.
  - unfold health_checked. cbs.
  - unfold health_need. cbs.
  - unfold health_refill, health_commit. cbs.
  - unfold health_commit. cbs.
  - exact (cb_drain cfg grace waiters (bump connectionsClosed s)).
  - unfold shutdown_woken, shutdown_wait, shutdown_finish. cbs.
Qed.

Lemma step_cbs cfg w e w' c :
  step cfg w e = Some w' ->
  (occ c (map aw_complete (asyncWaiters (w_pool w'))) + occ c (concat (map fl_cbs (w_flights w'))) +
   occ c (delivered (w_log w')) <=
   occ c (map aw_complete (asyncWaiters (w_pool w))) + occ c (concat (map fl_cbs (w_flights w))) +
   occ c (delivered (w_log w)) + occ c (started [e]))%nat.
Proof.
  assert (K : forall f0 fl r, w_flights w ≡ₚ f0 ++ fl -> 
     cb_ok (w_pool w) (concat (map fl_cbs f0) ++ started [e]) r ->
     (occ c (map aw_complete (asyncWaiters (r_state r))) +
      occ c (concat (map fl_cbs (r_next r ++ fl))) + occ c (delivered (w_log w ++ r_eff r)) <=
      occ c (map aw_complete (asyncWaiters (w_pool w))) + occ c (concat (map fl_cbs (w_flights w))) +
      occ c (delivered (w_log w)) + occ c (started [e]))%nat).
  { intros f0 fl r P H. specialize (H c). 
    assert (Q : concat (map fl_cbs (w_flights w)) ≡ₚ concat (map fl_cbs f0) ++ concat (map fl_cbs fl)).
    { rewrite <- concat_app, <- map_app. by rewrite P. }
    rewrite Q, map_app, concat_app, delivered_app. rewrite !occ_app. rewrite occ_app in H. lia. }
  destruct e; simpl; intros Hs.
  - simplify_eq. apply (K []); [done|]. apply cb_borrow.
  - simplify_eq. apply (K []); [done|]. destruct usable; [apply cb_start|].
    intros x. simpl. lia.
  - destruct (w_handles w !! i) as [h|]; simplify_eq/=.
    apply (K []); [done|]. apply cb_return.
  - destruct (w_handles w !! i); simplify_eq/=. lia.
  - simplify_eq. apply (K []); [done|]. apply cb_health.
  - simplify_eq. apply (K []); [done|]. apply cb_shutdown.
  - destruct (w_flights w !! i) as [f|] eqn:E; simplify_eq/=. apply delete_Permutation in E.
    apply (K [f]); [done|]. simpl. rewrite !app_nil_r. apply cb_resume.
Qed.

Lemma run_cbs cfg w es w' c :
  run cfg w es = Some w' ->
  (occ c (map aw_complete (asyncWaiters (w_pool w'))) + occ c (concat (map fl_cbs (w_flights w'))) +
   occ c (delivered (w_log w')) <=
   occ c (map aw_complete (asyncWaiters (w_pool w))) + occ c (concat (map fl_cbs (w_flights w))) +
   occ c (delivered (w_log w)) + occ c (started es))%nat.
Proof.
  revert w. induction es as [|e es IH]; intros w; cbn [run]; [intros [= <-]; lia|].
  destruct (step cfg w e) as [w1|] eqn:E; cbn [mbind option_bind]; [|done]. intros H.
  apply IH in H. apply (step_cbs _ _ _ _ c) in E.
  assert (started (e :: es) = started [e] ++ started es) as -> by apply (omap_app _ [e] es).
  rewrite occ_app. lia.
Qed.

Lemma construct_quiet cfg outs :
  asyncWaiters (w_pool (construct cfg outs)) = [] /\ w_flights (construct cfg outs) = [] /\
  delivered (w_log (construct cfg outs)) = [].
Proof.
  unfold construct. case_match; [|done].
  assert (K : forall n w, asyncWaiters (w_pool w) = [] -> w_flights w = [] -> delivered (w_log w) = [] ->
    asyncWaiters (w_pool (warmup cfg n outs w)) = [] /\ w_flights (warmup cfg n outs w) = [] /\
    delivered (w_log (warmup cfg n outs w)) = []); [|by apply K].
  intros n. revert outs. induction n as [|n IH]; intros outs w; [done|].
  intros Ha Hf Hd.
  destruct outs as [|[now [x|]] outs]; simpl; [done|by rewrite app_nil_r|].
  case_match; simpl.
  - rewrite delivered_app, Hd. done.
  - apply IH; simpl; [done|done|by rewrite app_nil_r].
Qed.

(** whatever happens to the pool, the callback of an asynchronous borrow
    runs at most as often as [borrowAsync] was called with it, and one still
    queued or in a task has not used up its call. *)
Theorem callbacks_run_at_most_once cfg outs es w c :
  run cfg (construct cfg outs) es = Some w ->
  (occ c (map aw_complete (asyncWaiters (w_pool w))) + occ c (concat (map fl_cbs (w_flights w))) +
   occ c (delivered (w_log w)) <= occ c (started es))%nat.
Proof.
  intros H. apply (run_cbs _ _ _ _ c) in H.
  destruct (construct_quiet cfg outs) as (Ha & Hf & Hd). rewrite Ha, Hf, Hd in H.
  simpl in H. lia.
Qed.

(** *** A borrow with nobody else around

    [borrow_alone] resumes the flights of one synchronous borrow until it
    returns: [ping] and [create] are the outcomes of the calls it makes. *)
Definition outside (ping : conn -> bool) (create : option (ErrorCode * str)) (now : time)
    (f : Flight) : Outside :=
  {| o_now := now; o_after := now;
     o_ping := match f with FlValidate _ _ item => ping (ic_conn item) | _ => false end;
     o_create := create; o_timedout := true |}.

Fixpoint borrow_drive (cfg : PoolConfig) (ping : conn -> bool) (create : option (ErrorCode * str))
    (now : time) (fresh : conn) (fuel : nat) (r : Res) : option Res :=
  match r_next r with
  | [] => Some r
  | f :: _ =>
      match fuel with
      | O => None
      | S fuel' => borrow_drive cfg ping create now fresh fuel'
                     (resume cfg f fresh (outside ping create now f) (r_state r))
      end
  end.

Definition borrow_alone cfg ping create now fresh fuel timeout s :=
  borrow_drive cfg ping create now fresh fuel (borrow cfg timeout now s).

(** The idle connections a borrow accepts. *)
Definition usable_item (cfg : PoolConfig) (ping : conn -> bool) (now : time) (i : IdleConnection) : bool :=
  negb (is_expired cfg now (ic_createdAt i)) && (negb (needs_ping cfg now i) || ping (ic_conn i)).

Definition result_of (r : Res) : list Effect :=
  List.filter (fun e => match e with Result _ _ _ => true | _ => false end) (r_eff r).

(** The contract of a borrow from the queue [l] of a pool that holds [n]
    connections: the first usable idle connection, else a new one if there is
    room (dropping a dead connection makes room), else the exhaustion error. *)
Inductive Answer := Lend (i : IdleConnection) | Open | Exhausted.
Fixpoint borrow_spec (cfg : PoolConfig) (ping : conn -> bool) (now : time)
    (l : list IdleConnection) (n : Z) : Answer :=
  match l with
  | i :: l' => if usable_item cfg ping now i then Lend i else borrow_spec cfg ping now l' (n - 1)
  | [] => if n <? pc_maxConn cfg then Open else Exhausted
  end.

Definition answers (cfg : PoolConfig) (create : option (ErrorCode * str)) (now : time) (fresh : conn)
    (a : Answer) (r : Res) : Prop :=
  match a with
  | Lend i => result_of r = [Result (Some (mkHandle (ic_conn i) (ic_createdAt i) now)) Ok []]
  | Open => match create with
            | None => result_of r = [Result (Some (mkHandle fresh now now)) Ok []]
            | Some (code, err) => result_of r = [Result None code err]
            end
  | Exhausted => exists msg, result_of r = [Result None PoolExhausted msg]
  end.

Lemma drive_prefix cfg ping create now fresh c k a st eff nx m m' :
  (exists r, borrow_drive cfg ping create now fresh k (mkRes st eff nx m) = Some r /\
             answers cfg create now fresh a r) ->
  exists r, borrow_drive cfg ping create now fresh k (mkRes st (Close c :: NotifyOne :: eff) nx m') = Some r /\
             answers cfg create now fresh a r.
Proof.
  intros (r & H1 & H2). destruct k, nx; simpl in *; simplify_eq; eauto.
Qed.

Lemma drive_loop cfg ping create now fresh started timeout l : forall s k,
  closed s = false -> idle s = l -> Z.of_nat (length l) <= total s -> (length l + 2 <= k)%nat ->
  exists r, borrow_drive cfg ping create now fresh k (borrow_loop cfg timeout started now s) = Some r /\
    answers cfg create now fresh (borrow_spec cfg ping now l (total s)) r.
Proof.
  induction l as [|i l IH]; intros s k Hc Hi Ht Hk.
  - unfold borrow_loop. rewrite Hc, Hi. simpl.
    destruct (total s <? pc_maxConn cfg) eqn:Et.
    + destruct k as [|k]; [simpl in Hk; lia|]. simpl. unfold borrow_created. simpl. rewrite Hc.
      destruct create as [[code err]|], k; simpl; eauto.
    + destruct (timeout =? 0).
      * destruct k; simpl; unfold result_of; simpl; eauto.
      * destruct k as [|k]; [simpl in Hk; lia|]. simpl. unfold borrow_woken. simpl.
        destruct k; simpl; unfold result_of; simpl; eauto.
  - unfold borrow_loop at 1. rewrite Hc, Hi. destruct k as [|k]; [simpl in Hk; lia|].
    simpl. unfold borrow_validated. cbn [o_now o_after o_ping outside].
    fold (usable_item cfg ping now i). destruct (usable_item cfg ping now i) eqn:Eu.
    + simpl. rewrite Hc. destruct k; simpl; eexists; split; try reflexivity.
    + set (s1 := set_idle l s). set (s2 := if is_expired _ _ _ then _ else _).
      assert (E : closed s2 = false /\ idle s2 = l /\ total s2 = total s - 1).
      { unfold s2. by destruct (is_expired _ _ _). }
      destruct E as (E1 & E2 & E3). simpl in Ht.
      assert ((total s2 <? 0) = false) as -> by (apply Z.ltb_ge; lia).
      rewrite <- E3. destruct (IH s2 k E1 E2) as (r & Hr & Ha); [lia|simpl in Hk; lia|].
      destruct (borrow_loop cfg timeout started now s2) as [st eff nx m] eqn:El.
      apply drive_prefix with m. eauto.
Qed.

(** C25: a borrow that nobody interferes with returns, after finitely many
    critical sections, the first usable idle connection in queue order; failing
    that a new connection, or the driver's error, when dropping the dead ones
    leaves room; and [PoolExhausted] only otherwise. *)
Theorem borrow_alone_correct cfg ping create now fresh timeout s :
  pc_pooled cfg = true -> closed s = false -> Z.of_nat (length (idle s)) <= total s ->
  exists r, borrow_alone cfg ping create now fresh (length (idle s) + 2) timeout s = Some r /\
    answers cfg create now fresh (borrow_spec cfg ping now (idle s) (total s)) r.
Proof.
  intros Hp Hc Ht. unfold borrow_alone, borrow. rewrite Hp. cbn [negb].
  assert (E : forall b c x, closed (bump_if b c x) = closed x /\ idle (bump_if b c x) = idle x /\
                            total (bump_if b c x) = total x) by (by intros []).
  destruct (E (pc_metricsEnabled cfg) borrowRequests s) as (E1 & E2 & E3).
  rewrite <- E2, <- E3. apply drive_loop; [congruence|done|congruence|lia].
Qed.

Lemma borrow_alone_correct_witness :
  let cfg := make_pool_config (lit "p") 1 2 0 0 0 0 0 true true in
  let s := set_total 2 (set_idle [mkIdle 0 5 5; mkIdle 1 6 6] initial_state) in
  (pc_pooled cfg = true /\ closed s = false /\ Z.of_nat (length (idle s)) <= total s) /\
  exists r, borrow_alone cfg (fun c => Nat.eqb c 1) None 9 2 4 0 s = Some r /\
    result_of r = [Result (Some (mkHandle 1 6 9)) Ok []].
Proof.
  split; [by vm_compute|].
  by apply (borrow_alone_correct (make_pool_config (lit "p") 1 2 0 0 0 0 0 true true)
              (fun c => Nat.eqb c 1) None 9 2%nat 0
              (set_total 2 (set_idle [mkIdle 0 5 5; mkIdle 1 6 6] initial_state))).
Defined.

(** *** What the code does not do *)

(** when a returned connection is handed to a waiter, the waiters the same
    call found expired have left the queue and are never completed: their
    callbacks do not run. *)
Theorem handoff_forgets_expired_waiters cfg now h s w rest :
  closed s = false -> pc_pooled cfg = true -> h_reusable h = true ->
  is_expired cfg now (h_createdAt h) = false ->
  List.filter (fun w => now <? aw_deadline w) (asyncWaiters s) = w :: rest ->
  asyncWaiters (r_state (returnConn cfg now h s)) = rest /\
  r_next (returnConn cfg now h s) = [] /\
  delivered (r_eff (returnConn cfg now h s)) = [aw_complete w].
Proof.
  intros Hc Hp Hr He Hf. unfold returnConn. rewrite Hp, Hr, He.
  set (s1 := if 0 <? borrowed _ then _ else _).
  assert (E : closed s1 = false /\ asyncWaiters s1 = asyncWaiters s).
  { unfold s1. destruct s. unfold bump_if. repeat case_match; done. }
  destruct E as [E1 E2]. rewrite E1. cbn [negb orb].
  unfold expire_locked. destruct (expire_loop_spec cfg now (asyncWaiters s1) s1) as (H1 & _).
  destruct (expire_loop cfg now (asyncWaiters s1) s1) as [[k1 s2] ex]. simpl in H1.
  rewrite E2, Hf in H1. subst. simpl. unfold lend_async. by case_match.
Qed.

Lemma handoff_forgets_expired_waiters_witness :
  let cfg := make_pool_config (lit "p") 0 1 1000 0 0 0 0 true true in
  let old := {| aw_enqueuedAt := 0; aw_deadline := 5; aw_complete := 1 |} in
  let new := {| aw_enqueuedAt := 0; aw_deadline := 50; aw_complete := 2 |} in
  let s := set_asyncWaiters [old; new] (set_total 1 (set_borrowed 1 initial_state)) in
  let r := returnConn cfg 10 (mkHandle 0 0 0) s in
  asyncWaiters (r_state r) = [] /\ r_next r = [] /\ delivered (r_eff r) = [2%nat].
Proof.
  apply (handoff_forgets_expired_waiters (make_pool_config (lit "p") 0 1 1000 0 0 0 0 true true) 10
           (mkHandle 0 0 0) _ {| aw_enqueuedAt := 0; aw_deadline := 50; aw_complete := 2 |} []);
    reflexivity.
Defined.

Definition demo_cfg : PoolConfig := make_pool_config (lit "p") 0 1 1000 0 0 0 0 true true.
Definition quick (create : option (ErrorCode * str)) : Outside :=
  {| o_now := 1; o_after := 1; o_ping := true; o_create := create; o_timedout := false |}.

(** a borrow that is creating its connection while the pool is shut down
    takes its slot off a [total] that [shutdown] has already reset: [total]
    becomes negative and [totalCount()] 2^64 - 1. *)
Theorem shutdown_during_create_underflows :
  (fun w => (total (w_pool w), totalCount (w_pool w), w_flights w, w_handles w)) <$>
    run demo_cfg (construct demo_cfg [])
        [EvBorrow 0 0; EvShutdown 0; EvResume 0 (quick None)]
  = Some (-1, 2 ^ 64 - 1, [], []).
Proof. by vm_compute. Qed.

(** when the only connection comes back broken, a queued asynchronous borrow
    is not served although the pool has room: nothing is in flight, and it stays
    queued until some later call expires it. *)
Theorem broken_return_strands_async_waiter :
  (fun w => (map aw_complete (asyncWaiters (w_pool w)), w_flights w, w_handles w,
             idle (w_pool w), total (w_pool w), closed (w_pool w), delivered (w_log w))) <$>
    run demo_cfg (construct demo_cfg [])
        [EvBorrow 0 0; EvResume 0 (quick None);
         EvBorrowAsync true (ms 10000) 7 2; EvResume 0 (quick None);
         EvInvalidate 0; EvReturn 0 3]
  = Some ([7%nat], [], [], [], 0, false, []).
Proof. by vm_compute. Qed.

(** *** A concrete run, at which the theorems above are instantiated *)
Lemma run_reachable cfg w es w' : reachable cfg w -> run cfg w es = Some w' -> reachable cfg w'.
Proof.
  revert w. induction es as [|e es IH]; intros w Hr; cbn [run]; [by intros [= <-]|].
  destruct (step cfg w e) as [w1|] eqn:E; cbn [mbind option_bind]; [|done].
  apply IH. by eapply reach_step.
Qed.

Definition demo_events : list Event :=
  [EvBorrow 0 0; EvResume 0 (quick None); EvBorrowAsync true 50 7 2; EvResume 0 (quick None)].
Definition world_after (es : list Event) : World :=
  default empty_world (run demo_cfg (construct demo_cfg []) es).
Definition runs (es : list Event) : bool :=
  match run demo_cfg (construct demo_cfg []) es with Some _ => true | None => false end.

Lemma world_after_eq es :
  runs es = true -> run demo_cfg (construct demo_cfg []) es = Some (world_after es).
Proof. unfold runs, world_after. by destruct (run _ _ es). Qed.

Lemma world_after_reachable es : runs es = true -> reachable demo_cfg (world_after es).
Proof. intros H. eapply run_reachable; [apply reach_construct | by apply world_after_eq]. Qed.

Lemma pool_books_witness :
  (0 <= pc_maxConn demo_cfg /\ reachable demo_cfg (world_after demo_events)) /\
  borrowed (w_pool (world_after demo_events)) = Z.of_nat (length (w_handles (world_after demo_events))).
Proof.
  assert (R : reachable demo_cfg (world_after demo_events)) by by apply world_after_reachable.
  split; [by split|]. by apply (pool_books demo_cfg).
Defined.

Lemma pool_connections_accounted_witness :
  map ic_conn (idle (w_pool (world_after demo_events))) ++
  concat (map fl_conns (w_flights (world_after demo_events))) ++
  map h_conn (w_handles (world_after demo_events)) ++ w_closed (world_after demo_events) ≡ₚ [0%nat].
Proof.
  apply (pool_connections_accounted demo_cfg (world_after demo_events));
    [done | by apply world_after_reachable].
Defined.

Lemma run_snoc cfg w es e : run cfg w (es ++ [e]) = run cfg w es ≫= fun w' => step cfg w' e.
Proof.
  revert w. induction es as [|x es IH]; intros w; cbn [run app mbind option_bind].
  - by destruct (step cfg w e).
  - destruct (step cfg w x); cbn [mbind option_bind]; auto.
Qed.

Lemma world_after_step es e :
  runs (es ++ [e]) = true -> step demo_cfg (world_after es) e = Some (world_after (es ++ [e])).
Proof.
  intros H. rewrite <- (world_after_eq _ H), run_snoc.
  unfold runs in H. rewrite run_snoc in H. unfold world_after. by destruct (run _ _ es).
Qed.

Lemma closed_pool_winds_down_witness :
  winds_down (world_after (demo_events ++ [EvShutdown 0]))
             (world_after ((demo_events ++ [EvShutdown 0]) ++ [EvReturn 0 9])).
Proof.
  apply (closed_pool_winds_down demo_cfg _ (EvReturn 0 9));
    [by apply world_after_reachable | by vm_compute | by apply world_after_step].
Defined.

Lemma validation_interval_never_spares_a_ping_witness :
  let item := mkIdle 0 1 9 in
  item ∈ idle (w_pool (world_after [EvBorrow 0 0; EvResume 0 (quick None); EvReturn 0 9])) /\
  needs_ping demo_cfg 10 item = true.
Proof.
  assert (E : idle (w_pool (world_after [EvBorrow 0 0; EvResume 0 (quick None); EvReturn 0 9]))
              = [mkIdle 0 1 9]) by by vm_compute.
  assert (I : mkIdle 0 1 9 ∈
    idle (w_pool (world_after [EvBorrow 0 0; EvResume 0 (quick None); EvReturn 0 9])))
    by (rewrite E; by left).
  split; [exact I|].
  apply (validation_interval_never_spares_a_ping demo_cfg
           (world_after [EvBorrow 0 0; EvResume 0 (quick None); EvReturn 0 9]));
    [by apply world_after_reachable | exact I | done].
Defined.

Lemma callbacks_run_at_most_once_witness :
  (occ 7 (map aw_complete (asyncWaiters (w_pool (world_after demo_events)))) +
   occ 7 (concat (map fl_cbs (w_flights (world_after demo_events)))) +
   occ 7 (delivered (w_log (world_after demo_events))) <= 1)%nat.
Proof.
  apply (callbacks_run_at_most_once demo_cfg [] demo_events). by apply world_after_eq.
Defined.
