(* ===== verification/DataSource.v ===== *)
(** * Data sources (DataSource in src/core/database_manager.cpp)

    Reads and writes of a leaf data source (retry loop, circuit breaker, result
    cache) and of a group (replica routing, read-your-writes, failover, write
    buffer), on the state the source threads through them.  Drivers, the pool's
    [borrow], the clock, the random generator and a user's rate limiter act on
    an abstract environment [E]. *)
From stdpp Require Import base gmap list strings.
From Stdlib Require Import Ascii ZArith Lia.
From S2P Require Import Prelude Types Config CacheKey QueryCache SqlAnalyze SqlAuditor.
From S2P Require Import Context Interceptor WriteBuffer Breaker.

Open Scope Z_scope.

(** ** Data *)

(** The configuration of a leaf: a data source with its own pool. *)
Record Leaf := mkLeaf {
  lf_name : str;
  lf_retry : RetryConfig;
  lf_circuitBreaker : CircuitBreakerConfig;
  lf_readReplica : bool;
  lf_readOnly : bool;
  lf_cursorLimit : Z }.

(** A group: its leaves, each possibly repeated by weight. *)
Record Group := mkGroup {
  gp_name : str;
  gp_primary : Leaf;
  gp_replicas : list Leaf;
  gp_readAfterWrite : Z;
  gp_fallbackToPrimary : bool;
  gp_readOnly : bool;
  gp_failoverPrimaries : list Leaf;
  gp_requireHealthy : bool;
  gp_shadow : option Leaf;
  gp_writeBuffer : bool }.

(** The SQL text and, for the overloads that take them, the parameters. *)
Record Statement := mkStatement { sm_sql : str; sm_params : option (list Value) }.

(** A connection lent by a pool. *)
Abbreviation connection := nat.

(** What [pool_.lock()] and [ConnectionPool::borrow] give. *)
Inductive Borrowed :=
  | PoolGone
  | BorrowFailed (code : ErrorCode) (err : str)
  | Lent (c : connection).

(** What the outside world sees of a data source. *)
Inductive Trace :=
  | Sent (leaf : str) (c : connection) (s : Statement)
  | Invalidated (c : connection)
  | Released (c : connection)
  | Slept (ms : Z)
  | Opened (c : connection).

(** A write waiting in the buffer of a group. *)
Record BufferedWrite := mkBufferedWrite { bw_primary : Leaf; bw_statement : Statement }.

(** What the code calls outside this file: the steady clock, the random
    generator, the pool of a leaf by name, the driver's calls on a connection,
    the rate limiter of a source (whether it wants the fingerprint, and its
    [acquire]) and the sizes the ABI gives two types. *)
Class Environment (E : Type) := {
  clock_now : E -> Z * E;
  sleep_for : Z -> E -> E;
  random_jitter : Z -> E -> Z * E;
  pool_borrow : str -> E -> Borrowed * E;
  pool_expired : str -> E -> bool;
  driver_query : connection -> Statement -> E -> (Status * ResultSet) * E;
  driver_execute : connection -> Statement -> E -> (Status * Z) * E;
  preparedUsable : connection -> E -> bool;
  driver_prepare : connection -> Statement -> E -> Status * E;
  driver_executePreparedQuery : connection -> Statement -> E -> (Status * ResultSet) * E;
  driver_executePreparedExec : connection -> Statement -> E -> (Status * Z) * E;
  driver_openCursor : connection -> Statement -> E -> (Status * bool) * E;
  limiter : str -> option (bool * (Z -> E -> bool * E));
  sizeof_string : N;
  sizeof_Value : N }.

Section Sources.
Context {E : Type} `{!Environment E}.

(** The shared state: the breakers by leaf, the services of the runtime, the
    last write and the buffer by group, the open cursors by leaf, the thread-local
    round-robin counter. *)
Record Ds := mkDs {
  ds_breakers : gmap str Breaker;
  ds_cache : QueryCacheState;
  ds_auditor : SqlAuditorState;
  ds_lastWriteNs : gmap str Z;
  ds_buffers : gmap str (Buffer BufferedWrite);
  ds_cursors : gmap str Z;
  ds_round : Z;
  ds_trace : list Trace;
  ds_env : E }.

Abbreviation W := (Thread * Ds)%type.
Abbreviation M := (ST W).

(** The runtime's registry of interceptors. *)
Context (registry : nat) (interceptors_enabled : Ds -> bool)
        (interceptors : Ds -> list (@ISqlInterceptor Ds)).

(** ** Access to the state *)
Definition upd_ds (f : Ds -> Ds) : M unit := modify (fun s => (s.1, f s.2)).
Definition get_ds {A} (f : Ds -> A) : M A := reads (fun s => f s.2).
Definition env {A} (f : E -> A * E) : M A :=
  fun s => let '(a, e) := f (ds_env s.2) in
           (a, (s.1, mkDs (ds_breakers s.2) (ds_cache s.2) (ds_auditor s.2) (ds_lastWriteNs s.2)
                       (ds_buffers s.2) (ds_cursors s.2) (ds_round s.2) (ds_trace s.2) e)).
Definition set_breaker (n : str) (b : Breaker) (d : Ds) : Ds :=
  mkDs (<[n := b]> (ds_breakers d)) (ds_cache d) (ds_auditor d) (ds_lastWriteNs d) (ds_buffers d)
    (ds_cursors d) (ds_round d) (ds_trace d) (ds_env d).
Definition set_cache (c : QueryCacheState) (d : Ds) : Ds :=
  mkDs (ds_breakers d) c (ds_auditor d) (ds_lastWriteNs d) (ds_buffers d) (ds_cursors d) (ds_round d) (ds_trace d)
    (ds_env d).
Definition set_auditor (a : SqlAuditorState) (d : Ds) : Ds :=
  mkDs (ds_breakers d) (ds_cache d) a (ds_lastWriteNs d) (ds_buffers d) (ds_cursors d) (ds_round d) (ds_trace d)
    (ds_env d).
Definition set_lastWrite (n : str) (t : Z) (d : Ds) : Ds :=
  mkDs (ds_breakers d) (ds_cache d) (ds_auditor d) (<[n := t]> (ds_lastWriteNs d)) (ds_buffers d)
    (ds_cursors d) (ds_round d) (ds_trace d) (ds_env d).
Definition set_buffer (n : str) (b : Buffer BufferedWrite) (d : Ds) : Ds :=
  mkDs (ds_breakers d) (ds_cache d) (ds_auditor d) (ds_lastWriteNs d) (<[n := b]> (ds_buffers d))
    (ds_cursors d) (ds_round d) (ds_trace d) (ds_env d).
Definition set_cursors (n : str) (k : Z) (d : Ds) : Ds :=
  mkDs (ds_breakers d) (ds_cache d) (ds_auditor d) (ds_lastWriteNs d) (ds_buffers d)
    (<[n := k]> (ds_cursors d)) (ds_round d) (ds_trace d) (ds_env d).
Definition set_round (r : Z) (d : Ds) : Ds :=
  mkDs (ds_breakers d) (ds_cache d) (ds_auditor d) (ds_lastWriteNs d) (ds_buffers d) (ds_cursors d) r (ds_trace d)
    (ds_env d).
Definition log (t : Trace) (d : Ds) : Ds :=
  mkDs (ds_breakers d) (ds_cache d) (ds_auditor d) (ds_lastWriteNs d) (ds_buffers d) (ds_cursors d) (ds_round d)
    (ds_trace d ++ [t]) (ds_env d).

Local Open Scope st_scope.

Definition clock : M Z := env clock_now.
Definition trace (t : Trace) : M unit := upd_ds (log t).
Definition context : M SqlContext := reads (fun s => current (th_context s.1)).
Definition breaker_of (n : str) (d : Ds) : Breaker := default closed_breaker (ds_breakers d !! n).

(** ** Circuit breaker and borrowing *)
Definition before_attempt (lf : Leaf) : M Status :=
  now <-- (if disabled (lf_circuitBreaker lf) then ret 0 else clock);
  b <-- get_ds (breaker_of (lf_name lf));
  let '(st, b') := beforeAttempt (lf_circuitBreaker lf) (lf_name lf) now b in
  upd_ds (set_breaker (lf_name lf) b') ;;
  ret st.

Definition after_attempt (lf : Leaf) (st : Status) : M unit :=
  now <-- (if disabled (lf_circuitBreaker lf) then ret 0 else clock);
  upd_ds (fun d => set_breaker (lf_name lf)
                     (afterAttempt (lf_circuitBreaker lf) now st (breaker_of (lf_name lf) d)) d).

Definition circuit_open (lf : Leaf) : M bool :=
  now <-- (if disabled (lf_circuitBreaker lf) then ret 0 else clock);
  get_ds (fun d => isCircuitOpen (lf_circuitBreaker lf) now (breaker_of (lf_name lf) d)).

Definition shutDownStatus (name : str) : Status :=
  status_error PoolClosed (lit "datasource '" ++ name ++ lit "' has been shut down").

Definition borrowSession (lf : Leaf) : M (Status * option connection) :=
  r <-- env (pool_borrow (lf_name lf));
  match r with
  | PoolGone => ret (shutDownStatus (lf_name lf), None)
  | BorrowFailed code err =>
      let st := status_error code err in
      ret (if code_eqb code ConnectionFailed then set_broken true (set_retryable true st) else st,
           None)
  | Lent c => ret (StatusOK, Some c)
  end.

Definition sleep (lf : Leaf) (attempt : Z) : M unit :=
  jitter <-- env (random_jitter (jitter_range (base_delay (lf_retry lf) attempt)));
  let d := retryDelay (lf_retry lf) jitter attempt in
  env (fun e => (tt, sleep_for d e)) ;;
  trace (Slept d).

(** ** Session statements

    The sessions of the retry loops carry no audit context, and interceptors
    are silent below the entry points of the data source. *)
Definition send {A} (lf : Leaf) (c : connection) (s : Statement) (m : M A) : M A :=
  trace (Sent (lf_name lf) c s) ;; m.

Definition runPreparedQuery (lf : Leaf) (c : connection) (s : Statement) : M (Status * ResultSet) :=
  usable <-- get_ds (fun d => preparedUsable c (ds_env d));
  if negb usable then send lf c s (env (driver_query c s))
  else
    st <-- env (driver_prepare c s);
    if negb (st_ok st) then send lf c s (env (driver_query c s))
    else send lf c s (env (driver_executePreparedQuery c s)).

Definition runPreparedExec (lf : Leaf) (c : connection) (s : Statement) : M (Status * Z) :=
  usable <-- get_ds (fun d => preparedUsable c (ds_env d));
  if negb usable then send lf c s (env (driver_execute c s))
  else
    st <-- env (driver_prepare c s);
    if negb (st_ok st) then send lf c s (env (driver_execute c s))
    else send lf c s (env (driver_executePreparedExec c s)).

Definition session_query (lf : Leaf) (c : connection) (s : Statement) : M (Status * ResultSet) :=
  r <-- (match sm_params s with
         | None => send lf c s (env (driver_query c s))
         | Some _ => runPreparedQuery lf c s
         end);
  (if st_connectionBroken r.1 then trace (Invalidated c) else ret tt) ;;
  ret r.

Definition session_execute (lf : Leaf) (c : connection) (s : Statement) : M (Status * Z) :=
  r <-- (match sm_params s with
         | None => send lf c s (env (driver_execute c s))
         | Some _ => runPreparedExec lf c s
         end);
  (if st_connectionBroken r.1 then trace (Invalidated c) else ret tt) ;;
  ret r.

(** One attempt: borrow, run, and give the connection back. *)
Definition attempt_query (lf : Leaf) (s : Statement) (out : ResultSet) : M (Status * ResultSet) :=
  b <-- borrowSession lf;
  match b.2 with
  | None => ret (b.1, out)
  | Some c => r <-- session_query lf c s; trace (Released c) ;; ret r
  end.

Definition attempt_execute (lf : Leaf) (s : Statement) : M (Status * Z) :=
  b <-- borrowSession lf;
  match b.2 with
  | None => ret (b.1, 0)
  | Some c => r <-- session_execute lf c s; trace (Released c) ;; ret r
  end.

(** ** Marking a write *)
Definition invalidate_cache (n : str) : M unit := upd_ds (fun d => set_cache (cache_invalidate n (ds_cache d)) d).
Definition pin_request : M unit :=
  upd_thread (fun t => set_context (pinRequestWrite (th_context t)) t).

Definition leaf_markWrite (lf : Leaf) : M unit :=
  invalidate_cache (lf_name lf) ;; pin_request.

Definition group_markWrite (g : Group) : M unit :=
  now <-- clock;
  upd_ds (set_lastWrite (gp_name g) now) ;;
  invalidate_cache (gp_name g) ;;
  invalidate_cache (lf_name (gp_primary g)) ;;
  for_each (gp_replicas g) (fun r => invalidate_cache (lf_name r)) ;;
  for_each (gp_failoverPrimaries g) (fun c => invalidate_cache (lf_name c)).

(** ** Leaf reads *)
Definition leaf_caching (lf : Leaf) : M bool :=
  ctx <-- context;
  get_ds (fun d => qs_enabled (ds_cache d) && (negb (qs_replicaOnly (ds_cache d)) || lf_readReplica lf)
                   && negb (cx_shadow ctx)).

Definition cache_lookup (n key : str) : M (option ResultSet) :=
  now <-- clock;
  c <-- get_ds ds_cache;
  let '(r, c') := cache_get now n key c in
  upd_ds (set_cache c') ;; ret r.

Definition cache_store (n key : str) (rs : ResultSet) : M unit :=
  now <-- clock;
  upd_ds (fun d => set_cache (cache_put sizeof_string sizeof_Value now n key rs (ds_cache d)) d).

Definition resolveReadAttempts (retry : RetryConfig) : Z := Z.max 1 (rt_max_attempts retry).

(** The retry loop of [queryUngated]: [left] attempts, the next one is number
    [attempt]; [out] is what the caller's result set holds. *)
Fixpoint query_loop (lf : Leaf) (s : Statement) (caching : bool) (key : str)
    (left : nat) (attempt : Z) (out : ResultSet) : M (Status * ResultSet) :=
  match left with
  | O => ret (StatusOK, out)
  | S left' =>
      gate <-- before_attempt lf;
      if negb (st_ok gate) then ret (gate, out)
      else
        r <-- attempt_query lf s (if 1 <? attempt then rs_empty else out);
        after_attempt lf r.1 ;;
        if st_ok r.1 then
          (if caching then cache_store (lf_name lf) key r.2 else ret tt) ;; ret r
        else if negb (st_retryable r.1) || Nat.eqb left' 0 then ret r
        else sleep lf attempt ;; query_loop lf s caching key left' (attempt + 1) r.2
  end.

Definition leaf_queryUngated (lf : Leaf) (s : Statement) (out : ResultSet) : M (Status * ResultSet) :=
  caching <-- leaf_caching lf;
  let key := cacheKey (sm_sql s) (default [] (sm_params s)) in
  hit <-- (if caching : bool then cache_lookup (lf_name lf) key else ret None);
  match hit with
  | Some rs => ret (StatusOK, rs)
  | None => query_loop lf s caching key (Z.to_nat (resolveReadAttempts (lf_retry lf))) 1 out
  end.

(** ** Leaf writes *)
Definition resolveWriteAttempts (retry : RetryConfig) (ctx : SqlContext) : Z :=
  match cx_idempotency ctx with
  | NonIdempotent => 1
  | Idempotent => Z.max 1 (rt_max_attempts retry)
  | Unspecified => if rt_retry_writes retry then Z.max 1 (rt_max_attempts retry) else 1
  end.

Fixpoint execute_loop (lf : Leaf) (s : Statement) (left : nat) (attempt : Z) : M (Status * Z) :=
  match left with
  | O => ret (StatusOK, 0)
  | S left' =>
      gate <-- before_attempt lf;
      if negb (st_ok gate) then ret (gate, 0)
      else
        r <-- attempt_execute lf s;
        after_attempt lf r.1 ;;
        if st_ok r.1 then leaf_markWrite lf ;; ret r
        else if negb (st_retryable r.1) || Nat.eqb left' 0 then ret r
        else sleep lf attempt ;; execute_loop lf s left' (attempt + 1)
  end.

Definition leaf_executeUngated (lf : Leaf) (s : Statement) : M (Status * Z) :=
  ctx <-- context;
  execute_loop lf s (Z.to_nat (resolveWriteAttempts (lf_retry lf) ctx)) 1.

(** ** Opening a cursor on a leaf: the loop body of [openCursorUngated]

    A cursor that was opened keeps the connection. *)
Fixpoint cursor_loop (lf : Leaf) (s : Statement) (left : nat) (attempt : Z)
    : M (Status * option connection) :=
  match left with
  | O => ret (StatusOK, None)
  | S left' =>
      gate <-- before_attempt lf;
      if negb (st_ok gate) then ret (gate, None)
      else
        b <-- borrowSession lf;
        r <-- (match b.2 with
               | None => ret (b.1, None)
               | Some c =>
                   o <-- env (driver_openCursor c s);
                   if st_ok o.1 && o.2 then trace (Opened c) ;; ret (o.1, Some c)
                   else trace (Released c) ;; ret (o.1, None)
               end : M (Status * option connection));
        match r.2 with
        | Some c => ret r
        | None =>
            after_attempt lf r.1 ;;
            if st_ok r.1 then ret r
            else if negb (st_retryable r.1) || Nat.eqb left' 0 then ret r
            else sleep lf attempt ;; cursor_loop lf s left' (attempt + 1)
        end
  end.

(** *** The cursor budget of a leaf

    [cursorBudgetAcquire]: whether a cursor may be opened, and whether its lease
    counts; a lease that counts is given back when its last copy goes. *)
Definition open_cursors (n : str) (d : Ds) : Z := default 0 (ds_cursors d !! n).

Definition cursorBudgetAcquire (lf : Leaf) : M (bool * bool) :=
  open <-- get_ds (open_cursors (lf_name lf));
  if lf_cursorLimit lf <=? 0 then ret (true, false)
  else if open <? lf_cursorLimit lf then
    upd_ds (set_cursors (lf_name lf) (open + 1)) ;; ret (true, true)
  else ret (false, false).

Definition release_lease (n : str) (lease : bool) : M unit :=
  if lease then upd_ds (fun d => set_cursors n (open_cursors n d - 1) d) else ret tt.

Definition cursorLimitStatus (n : str) : Status :=
  status_error CursorLimit (lit "datasource '" ++ n ++ lit "': cursor limit reached").

(** The connection of the cursor that was opened and its lease. *)
Definition leaf_openCursor (lf : Leaf) (s : Statement) : M (Status * option (connection * bool)) :=
  a <-- cursorBudgetAcquire lf;
  if negb a.1 then ret (cursorLimitStatus (lf_name lf), None)
  else
    r <-- cursor_loop lf s (Z.to_nat (resolveReadAttempts (lf_retry lf))) 1;
    match r.2 with
    | Some c => ret (r.1, Some (c, a.2))
    | None => release_lease (lf_name lf) a.2 ;; ret (r.1, None)
    end.

(** ** Groups: routing *)

(** The first replica of the rotation whose circuit is not open. *)
Fixpoint pick_replica (l : list Leaf) : M (option Leaf) :=
  match l with
  | [] => ret None
  | c :: l' => o <-- circuit_open c; if negb o then ret (Some c) else pick_replica l'
  end.

Definition rotate (start : nat) (l : list Leaf) : list Leaf := drop start l ++ take start l.

Definition readTarget (g : Group) : M Leaf :=
  ctx <-- context;
  match (if cx_shadow ctx then gp_shadow g else None) with
  | Some sh => ret sh
  | None =>
      if cx_wroteInThisRequest ctx then ret (gp_primary g)
      else
        recent <-- (if 0 <? gp_readAfterWrite g then
                      now <-- clock;
                      get_ds (fun d => let last := default 0 (ds_lastWriteNs d !! gp_name g) in
                                       (0 <? last) && (now - last <? gp_readAfterWrite g))
                    else ret false);
        if recent : bool then ret (gp_primary g)
        else
          match gp_replicas g with
          | [] => ret (gp_primary g)
          | l =>
              round <-- get_ds ds_round;
              upd_ds (set_round (u64 (round + 1))) ;;
              c <-- pick_replica (rotate (Z.to_nat (round mod Z.of_nat (length l))) l);
              ret (default (gp_primary g) c)
          end
  end.

(** [target != primary_] compares the objects, which have distinct names. *)
Definition group_queryUngated (g : Group) (s : Statement) (out : ResultSet) : M (Status * ResultSet) :=
  target <-- readTarget g;
  r <-- leaf_queryUngated target s out;
  if negb (str_eqb (lf_name target) (lf_name (gp_primary g))) && gp_fallbackToPrimary g &&
     (st_retryable r.1 || st_connectionBroken r.1 || code_eqb (st_code r.1) CircuitOpen)
  then leaf_queryUngated (gp_primary g) s rs_empty
  else ret r.

(** *** Writes *)
Fixpoint healthy_targets (requireHealthy : bool) (l : list Leaf) : M (list Leaf) :=
  match l with
  | [] => ret []
  | c :: l' =>
      o <-- circuit_open c;
      gone <-- (if negb o && requireHealthy then get_ds (fun d => pool_expired (lf_name c) (ds_env d))
                else ret false);
      rest <-- healthy_targets requireHealthy l';
      ret (if o || gone then rest else c :: rest)
  end.

Definition writeTargets (g : Group) : M (list Leaf) :=
  ctx <-- context;
  match (if cx_shadow ctx then gp_shadow g else None) with
  | Some sh => ret [sh]
  | None =>
      match gp_failoverPrimaries g with
      | [] => ret [gp_primary g]
      | l => healthy_targets (gp_requireHealthy g) l
      end
  end.

Definition safeToFailoverWrite (st : Status) : bool :=
  match st_code st with
  | ConnectionFailed => negb (st_connectionBroken st) && is_nil (st_sqlState st)
  | PoolExhausted | PoolClosed | CircuitOpen | DriverDisabled => true
  | _ => false
  end.

Definition noPrimaryStatus (g : Group) : Status :=
  set_retryable true
    (status_error CircuitOpen (lit "group '" ++ gp_name g ++ lit "': no writable primary available")).

Definition bufferedStatus (g : Group) : Status :=
  set_retryable false
    (status_error Buffered
       (lit "group '" ++ gp_name g ++ lit "': write accepted into buffer, not yet committed")).

(** The loop over the targets; the boolean says the write must not be buffered
    because the outcome was returned from inside the loop. *)
Fixpoint dispatch_loop {A} (g : Group) (attempt : Leaf -> M (Status * A)) (targets : list Leaf)
    (status : Status * A) : M (bool * (Status * A)) :=
  match targets with
  | [] => ret (false, status)
  | t :: rest =>
      r <-- attempt t;
      if st_ok r.1 then group_markWrite g ;; ret (true, r)
      else if negb (safeToFailoverWrite r.1) then ret (true, r)
      else dispatch_loop g attempt rest r
  end.

Definition enqueue_write (g : Group) (w : BufferedWrite) : M bool :=
  now <-- clock;
  b <-- get_ds (fun d => ds_buffers d !! gp_name g);
  match b with
  | None => ret false
  | Some b => let '(ok, b') := enqueue now (Some w) b in upd_ds (set_buffer (gp_name g) b') ;; ret ok
  end.

Definition dispatchWrite {A} (g : Group) (attempt : Leaf -> M (Status * A)) (none : A)
    (buffered : option BufferedWrite) : M (Status * A) :=
  ctx <-- context;
  match (if cx_shadow ctx then gp_shadow g else None) with
  | Some sh => attempt sh
  | None =>
      targets <-- writeTargets g;
      r <-- dispatch_loop g attempt targets (noPrimaryStatus g, none);
      if r.1 : bool then ret r.2
      else
        match buffered with
        | None => ret r.2
        | Some w =>
            ok <-- enqueue_write g w;
            ret (if ok : bool then (bufferedStatus g, r.2.2) else r.2)
        end
  end.

Definition group_executeUngated (g : Group) (s : Statement) : M (Status * Z) :=
  let buffered := if gp_writeBuffer g then Some (mkBufferedWrite (gp_primary g) s) else None in
  dispatchWrite g (fun target => leaf_executeUngated target s) 0 buffered.

(** ** Entry points *)
Inductive Source := LeafSource (lf : Leaf) | GroupSource (g : Group).
Definition source_name (d : Source) : str :=
  match d with LeafSource lf => lf_name lf | GroupSource g => gp_name g end.
Definition source_readOnly (d : Source) : bool :=
  match d with LeafSource lf => lf_readOnly lf | GroupSource g => gp_readOnly g end.

Definition rateLimitedStatus (n : str) : Status :=
  set_retryable false (status_error RateLimited (lit "datasource '" ++ n ++ lit "' rate limited")).

(** [preGate]: the audit, then the rate limiter. *)
Definition preGate (d : Source) (sql : str) (type : OperationType) : M Status :=
  a <-- get_ds ds_auditor;
  let '(st, a') := check sql type (source_readOnly d) a in
  upd_ds (set_auditor a') ;;
  if negb (st_ok st) then ret st
  else
    match limiter (source_name d) with
    | None => ret StatusOK
    | Some (usesFingerprint, acquire) =>
        ok <-- env (acquire (if usesFingerprint : bool then fingerprintTemplate sql else 0));
        ret (if ok : bool then StatusOK else rateLimitedStatus (source_name d))
    end.

Definition queryUngated (d : Source) (s : Statement) : M (Status * ResultSet) :=
  match d with
  | LeafSource lf => leaf_queryUngated lf s rs_empty
  | GroupSource g => group_queryUngated g s rs_empty
  end.

Definition executeUngated (d : Source) (s : Statement) : M (Status * Z) :=
  match d with
  | LeafSource lf => leaf_executeUngated lf s
  | GroupSource g => group_executeUngated g s
  end.

(** [DataSource::query] and [DataSource::execute]; the result set a rejected
    query leaves is the caller's. *)
Definition query (d : Source) (s : Statement) : M Status :=
  gate <-- preGate d (sm_sql s) OpQuery;
  if negb (st_ok gate) then ret gate
  else
    ctx <-- context;
    ctx <-- runOnRoute registry interceptors_enabled interceptors ctx;
    runWithInterceptors registry interceptors_enabled interceptors
      (mkView ctx StatusOK None 0)
      (r <-- queryUngated d s; ret (r.1, Some r.2, None)).

Definition execute (d : Source) (s : Statement) : M Status :=
  gate <-- preGate d (sm_sql s) OpExecute;
  if negb (st_ok gate) then ret gate
  else
    ctx <-- context;
    ctx <-- runOnRoute registry interceptors_enabled interceptors ctx;
    runWithInterceptors registry interceptors_enabled interceptors
      (mkView ctx StatusOK None 0)
      (r <-- executeUngated d s; ret (r.1, None, Some r.2)).

(** ** What the operations leave alone *)

(** [log]s whose entries [p] does not count. *)
Definition count_trace (p : Trace -> bool) (w : W) : nat := length (List.filter p (ds_trace w.2)).
Definition is_sent (t : Trace) : bool := match t with Sent _ _ _ => true | _ => false end.
Definition nsent : W -> nat := count_trace is_sent.
Definition cache_of (w : W) : QueryCacheState := ds_cache w.2.
Definition idempotency_of (w : W) : Idempotency := cx_idempotency (current (th_context w.1)).
Definition frames_of (w : W) : Stack := th_context w.1.
Definition cursors_of (w : W) : gmap str Z := ds_cursors w.2.

Lemma preserves_upd_ds {B} (f : W -> B) g :
  (forall t d, f (t, g d) = f (t, d)) -> preserves f (upd_ds g).
Proof. intros H [t d]. apply H. Qed.
Lemma preserves_get_ds {A B} (f : W -> B) (g : Ds -> A) : preserves f (get_ds g).
Proof. done. Qed.
Lemma preserves_context {B} (f : W -> B) : preserves f context.
Proof. done. Qed.
Lemma preserves_env {A B} (f : W -> B) (g : E -> A * E) :
  (forall t d e, f (t, mkDs (ds_breakers d) (ds_cache d) (ds_auditor d) (ds_lastWriteNs d)
                        (ds_buffers d) (ds_cursors d) (ds_round d) (ds_trace d) e) = f (t, d)) ->
  preserves f (env g).
Proof. intros H [t d]. unfold env. cbn [fst snd]. destruct (g (ds_env d)) as [a e]. apply H. Qed.

Lemma count_trace_log p t d x : p x = false -> count_trace p (t, log x d) = count_trace p (t, d).
Proof.
  intros H. unfold count_trace. simpl. rewrite List.filter_app, length_app. simpl. rewrite H. simpl. lia.
Qed.

Ltac st_step :=
  lazymatch goal with
  | |- preserves _ (bind _ _) => apply preserves_bind; [|intros ?]
  | |- preserves _ (ret _) => apply preserves_ret
  | |- preserves _ (get_ds _) => apply preserves_get_ds
  | |- preserves _ (reads _) => apply preserves_reads
  | |- preserves _ context => apply preserves_context
  | |- preserves _ (env _) => apply preserves_env; reflexivity
  | |- preserves _ clock => apply preserves_env; reflexivity
  | |- preserves _ (trace _) => apply preserves_upd_ds; intros; try reflexivity; try by apply count_trace_log
  | |- preserves _ (upd_ds _) => apply preserves_upd_ds; intros; reflexivity
  | |- preserves _ (if ?b then _ else _) => destruct b
  | |- preserves _ (match ?x with _ => _ end) => destruct x
  end.
Ltac st_auto := repeat (st_step || (intros; assumption) || (by auto)).

(** The parts of the state that survive an attempt of a write. *)
Inductive kept : forall {B}, (W -> B) -> Prop :=
  | kept_cache : kept cache_of
  | kept_frames : kept frames_of
  | kept_cursors : kept cursors_of.

Lemma before_attempt_keeps {B} (f : W -> B) lf : kept f -> preserves f (before_attempt lf).
Proof. intros []; unfold before_attempt; st_auto. Qed.
Lemma after_attempt_keeps {B} (f : W -> B) lf st : kept f -> preserves f (after_attempt lf st).
Proof. intros []; unfold after_attempt; st_auto. Qed.
Lemma attempt_execute_keeps {B} (f : W -> B) lf s : kept f -> preserves f (attempt_execute lf s).
Proof.
  intros []; unfold attempt_execute, borrowSession, session_execute, runPreparedExec, send; st_auto.
Qed.
Lemma sleep_keeps {B} (f : W -> B) lf a : kept f -> preserves f (sleep lf a).
Proof. intros []; unfold sleep; st_auto. Qed.
Lemma circuit_open_keeps {B} (f : W -> B) lf : kept f -> preserves f (circuit_open lf).
Proof. intros []; unfold circuit_open; st_auto. Qed.

(** Nothing of this sends a statement. *)
Lemma before_attempt_silent lf : preserves nsent (before_attempt lf).
Proof. unfold before_attempt; st_auto. Qed.
Lemma after_attempt_silent lf st : preserves nsent (after_attempt lf st).
Proof. unfold after_attempt; st_auto. Qed.
Lemma sleep_silent lf a : preserves nsent (sleep lf a).
Proof. unfold sleep; st_auto. Qed.
Lemma borrow_silent lf : preserves nsent (borrowSession lf).
Proof. unfold borrowSession; st_auto. Qed.
Lemma circuit_open_silent lf : preserves nsent (circuit_open lf).
Proof. unfold circuit_open; st_auto. Qed.
Lemma leaf_markWrite_silent lf : preserves nsent (leaf_markWrite lf).
Proof. unfold leaf_markWrite, invalidate_cache, pin_request, upd_thread. st_auto. Qed.
Lemma group_markWrite_silent g : preserves nsent (group_markWrite g).
Proof.
  unfold group_markWrite, invalidate_cache. st_auto; apply preserves_for_each; intros; st_auto.
Qed.
#[local] Hint Resolve before_attempt_silent after_attempt_silent sleep_silent borrow_silent
  circuit_open_silent leaf_markWrite_silent group_markWrite_silent : core.

(** *** At most so many statements *)
Definition sends {A} (n : nat) (m : M A) : Prop := forall w, (nsent (m w).2 <= nsent w + n)%nat.

Lemma sends_silent {A} (m : M A) n : preserves nsent m -> sends n m.
Proof. intros H w. rewrite H. lia. Qed.
Lemma sends_bind {A B} a b (m : M A) (k : A -> M B) :
  sends a m -> (forall x, sends b (k x)) -> sends (a + b) (bind m k).
Proof.
  intros Hm Hk w. unfold bind. specialize (Hm w). destruct (m w) as [x w1].
  specialize (Hk x w1). simpl in Hm. lia.
Qed.
Lemma sends_weaken {A} a b (m : M A) : sends a m -> (a <= b)%nat -> sends b m.
Proof. intros H L w. specialize (H w). lia. Qed.

Lemma send_one {A} lf c s (m : M A) : preserves nsent m -> sends 1 (send lf c s m).
Proof.
  intros H. unfold send. apply (sends_bind 1 0); [|intros _; by apply sends_silent].
  intros [t d]. unfold trace, upd_ds, modify, nsent, count_trace. simpl.
  rewrite List.filter_app, length_app. simpl. lia.
Qed.

Lemma runPreparedExec_one lf c s : sends 1 (runPreparedExec lf c s).
Proof.
  unfold runPreparedExec. apply (sends_bind 0 1); [by apply sends_silent|]. intros usable.
  destruct (negb usable); [apply send_one; st_auto|].
  apply (sends_bind 0 1); [apply sends_silent; st_auto|]. intros st.
  destruct (negb (st_ok st)); apply send_one; st_auto.
Qed.

Lemma session_execute_one lf c s : sends 1 (session_execute lf c s).
Proof.
  unfold session_execute. apply (sends_bind 1 0); [|intros r; apply sends_silent; st_auto].
  destruct (sm_params s); [apply runPreparedExec_one | apply send_one; st_auto].
Qed.

Lemma attempt_execute_one lf s : sends 1 (attempt_execute lf s).
Proof.
  unfold attempt_execute. apply (sends_bind 0 1); [apply sends_silent, borrow_silent|]. intros [st [c|]]; cbn [snd fst].
  - apply (sends_bind 1 0); [apply session_execute_one|]. intros r. apply sends_silent. st_auto.
  - apply (sends_weaken 0); [apply sends_silent; st_auto | lia].
Qed.

Lemma execute_loop_sends lf s left attempt : sends left (execute_loop lf s left attempt).
Proof.
  revert attempt. induction left as [|left IH]; intros attempt; [by apply sends_silent|].
  cbn [execute_loop]. apply (sends_bind 0 (S left)); [by apply sends_silent|]. intros gate.
  destruct (negb (st_ok gate)); [by apply sends_silent|].
  apply (sends_bind 1 left); [apply attempt_execute_one|]. intros r.
  apply (sends_bind 0 left); [by apply sends_silent|]. intros _.
  destruct (st_ok r.1); [apply sends_silent; st_auto|].
  destruct (negb (st_retryable r.1) || Nat.eqb left 0); [by apply sends_silent|].
  apply (sends_bind 0 left); [by apply sends_silent|]. intros _. apply IH.
Qed.

(** ** Writes are sent at most as often as the policy allows *)
Lemma leaf_execute_sends lf s w :
  (nsent (leaf_executeUngated lf s w).2 <=
   nsent w + match idempotency_of w with
             | NonIdempotent => 1
             | Idempotent => Nat.max 1 (Z.to_nat (rt_max_attempts (lf_retry lf)))
             | Unspecified => if rt_retry_writes (lf_retry lf)
                              then Nat.max 1 (Z.to_nat (rt_max_attempts (lf_retry lf))) else 1
             end)%nat.
Proof.
  unfold leaf_executeUngated, bind. cbn [context reads].
  pose proof (execute_loop_sends lf s
                (Z.to_nat (resolveWriteAttempts (lf_retry lf) (current (th_context w.1)))) 1 w) as H.
  unfold idempotency_of. unfold resolveWriteAttempts in *.
  destruct (cx_idempotency _); [destruct (rt_retry_writes _)| |]; lia.
Qed.

(** *** Across the primaries of a group *)

(** What failover relies on: a driver never answers a statement with one of the
    codes of a pool, a breaker or a disabled driver. *)
Definition driver_codes_ok : Prop :=
  (forall c s e, safeToFailoverWrite (driver_execute c s e).1.1 = false) /\
  (forall c s e, safeToFailoverWrite (driver_executePreparedExec c s e).1.1 = false).

Lemma ok_not_safe st : st_ok st = true -> safeToFailoverWrite st = false.
Proof.
  unfold st_ok, code_eqb, safeToFailoverWrite. intros H. apply bool_decide_eq_true in H. by rewrite H.
Qed.

Lemma send_result {A} lf c s (m : M A) w :
  (send lf c s m w).1 = (m (w.1, log (Sent (lf_name lf) c s) w.2)).1.
Proof. done. Qed.

Lemma env_result {A} (f : E -> A * E) w : (env f w).1 = (f (ds_env w.2)).1.
Proof. unfold env. by destruct (f (ds_env w.2)). Qed.

Lemma runPreparedExec_unsafe lf c s w :
  driver_codes_ok -> safeToFailoverWrite (runPreparedExec lf c s w).1.1 = false.
Proof.
  intros [D1 D2]. unfold runPreparedExec, bind. cbn [get_ds reads].
  destruct (negb _); [rewrite send_result, env_result; apply D1|].
  destruct (env (driver_prepare c s) w) as [st w1].
  destruct (negb (st_ok st)); rewrite send_result, env_result; [apply D1 | apply D2].
Qed.

Lemma session_execute_unsafe lf c s w :
  driver_codes_ok -> safeToFailoverWrite (session_execute lf c s w).1.1 = false.
Proof.
  intros D. unfold session_execute, bind at 1. pose proof (runPreparedExec_unsafe lf c s w D) as P.
  destruct (sm_params s).
  - destruct (runPreparedExec lf c s w) as [r w1]. unfold bind. by destruct (st_connectionBroken r.1).
  - pose proof (send_result lf c s (env (driver_execute c s)) w) as Q. rewrite env_result in Q.
    destruct (send _ _ _ _ w) as [r w1]. cbn [fst] in Q. subst r. unfold bind.
    destruct D as [D _].
    match goal with |- context [if st_connectionBroken ?x then _ else _] => destruct (st_connectionBroken x) end;
      apply D.
Qed.

(** An attempt that may be repeated elsewhere has sent nothing. *)
Lemma attempt_execute_safe lf s w :
  driver_codes_ok -> safeToFailoverWrite (attempt_execute lf s w).1.1 = true ->
  nsent (attempt_execute lf s w).2 = nsent w.
Proof.
  intros D. unfold attempt_execute, bind. pose proof (borrow_silent lf w) as Hb.
  destruct (borrowSession lf w) as [[st [c|]] w1]; cbn [fst snd ret] in *; [|done].
  pose proof (session_execute_unsafe lf c s w1 D) as U.
  destruct (session_execute lf c s w1) as [r w2]. cbn [fst] in U.
  cbn [trace upd_ds modify ret fst snd]. intros H. congruence.
Qed.

Lemma execute_once lf s a w :
  driver_codes_ok ->
  let r := execute_loop lf s 1 a w in
  (safeToFailoverWrite r.1.1 = true -> nsent r.2 = nsent w) /\
  (st_ok r.1.1 = false -> frames_of r.2 = frames_of w).
Proof.
  intros D. cbn [execute_loop]. unfold bind.
  pose proof (before_attempt_silent lf w) as Hb. pose proof (before_attempt_keeps frames_of lf kept_frames w) as Kb.
  destruct (before_attempt lf w) as [gate w1]. cbn [fst snd] in *.
  destruct (negb (st_ok gate)); [by split|].
  pose proof (attempt_execute_safe lf s w1 D) as Ha.
  pose proof (attempt_execute_keeps frames_of lf s kept_frames w1) as Ka.
  destruct (attempt_execute lf s w1) as [r w2]. cbn [fst snd] in *.
  pose proof (after_attempt_silent lf r.1 w2) as Hc.
  pose proof (after_attempt_keeps frames_of lf r.1 kept_frames w2) as Kc.
  destruct (after_attempt lf r.1 w2) as [u w3]. cbn [fst snd] in *.
  destruct (st_ok r.1) eqn:Eo.
  - destruct (leaf_markWrite lf w3) as [u' w4]. cbn [fst snd ret]. split; [|congruence].
    intros Hs. by rewrite (ok_not_safe _ Eo) in Hs.
  - rewrite orb_true_r. cbn [fst snd ret]. split; [|congruence]. intros Hs. rewrite Hc. by rewrite Ha.
Qed.

Lemma leaf_execute_once lf s w :
  driver_codes_ok -> idempotency_of w = NonIdempotent ->
  let r := leaf_executeUngated lf s w in
  (nsent r.2 <= nsent w + 1)%nat /\
  (safeToFailoverWrite r.1.1 = true -> nsent r.2 = nsent w) /\
  (st_ok r.1.1 = false -> idempotency_of r.2 = NonIdempotent).
Proof.
  intros D Hi. pose proof (leaf_execute_sends lf s w) as B. rewrite Hi in B.
  assert (E1 : leaf_executeUngated lf s w = execute_loop lf s 1 1 w).
  { unfold leaf_executeUngated, bind, context, reads, resolveWriteAttempts.
    unfold idempotency_of in Hi. by rewrite Hi. }
  rewrite E1 in *. destruct (execute_once lf s 1 w D) as [H1 H2].
  split_and!; [exact B | exact H1|]. intros Ho. specialize (H2 Ho).
  unfold idempotency_of, frames_of in *. by rewrite H2.
Qed.

Lemma dispatch_once g s targets w st0 :
  driver_codes_ok -> idempotency_of w = NonIdempotent ->
  (nsent (dispatch_loop g (fun t => leaf_executeUngated t s) targets st0 w).2 <= nsent w + 1)%nat.
Proof.
  intros D. revert w st0. induction targets as [|t rest IH]; intros w st0 Hi; [simpl; lia|].
  cbn [dispatch_loop]. unfold bind at 1.
  destruct (leaf_execute_once t s w D Hi) as (H1 & H2 & H3).
  destruct (leaf_executeUngated t s w) as [r w1]. cbn [fst snd] in *.
  destruct (st_ok r.1) eqn:Eo.
  - unfold bind. pose proof (group_markWrite_silent g w1) as Hg.
    destruct (group_markWrite g w1) as [u w2]. cbn [snd ret] in *. lia.
  - destruct (safeToFailoverWrite r.1) eqn:Es; cbn [negb]; [|done].
    rewrite <- (H2 eq_refl). apply IH. by apply H3.
Qed.

Lemma healthy_targets_keeps {B} (f : W -> B) rh l : kept f -> preserves f (healthy_targets rh l).
Proof.
  intros K. pose proof (fun lf => circuit_open_keeps f lf K) as C.
  induction l as [|c l IH]; [done|]. cbn [healthy_targets]. st_auto.
Qed.
Lemma healthy_targets_silent rh l : preserves nsent (healthy_targets rh l).
Proof. induction l as [|c l IH]; [done|]. cbn [healthy_targets]. st_auto. Qed.
Lemma writeTargets_keeps {B} (f : W -> B) g : kept f -> preserves f (writeTargets g).
Proof.
  intros K. pose proof (fun rh l => healthy_targets_keeps f rh l K). unfold writeTargets. st_auto.
Qed.
Lemma writeTargets_silent g : preserves nsent (writeTargets g).
Proof. unfold writeTargets. pose proof healthy_targets_silent. st_auto. Qed.
Lemma enqueue_write_silent g bw : preserves nsent (enqueue_write g bw).
Proof. unfold enqueue_write. st_auto. Qed.

(** C2: a write declared non-idempotent reaches the drivers at most once, no
    matter how many primaries the group fails over to: the next primary is only
    tried after an attempt that sent nothing. *)
Theorem non_idempotent_write_once g s w :
  driver_codes_ok -> idempotency_of w = NonIdempotent ->
  (nsent (group_executeUngated g s w).2 <= nsent w + 1)%nat.
Proof.
  intros D Hi. unfold group_executeUngated, dispatchWrite, bind at 1. cbn [context reads].
  destruct (if cx_shadow (current (th_context w.1)) then gp_shadow g else None) as [sh|];
    [apply (leaf_execute_once sh s w D Hi)|].
  unfold bind at 1. pose proof (writeTargets_silent g w) as Ht.
  pose proof (writeTargets_keeps frames_of g kept_frames w) as Kt.
  destruct (writeTargets g w) as [targets w1]. cbn [fst snd] in *.
  unfold bind at 1.
  assert (Hi1 : idempotency_of w1 = NonIdempotent).
  { unfold idempotency_of. unfold frames_of in Kt. by rewrite Kt. }
  pose proof (dispatch_once g s targets w1 (noPrimaryStatus g, 0) D Hi1) as Hd.
  destruct (dispatch_loop _ _ _ _ w1) as [[stop r] w2]. cbn [fst snd] in *.
  destruct stop; [simpl; lia|]. destruct (if gp_writeBuffer g then _ else _) as [bw|]; [|simpl; lia].
  unfold bind. pose proof (enqueue_write_silent g bw w2) as He.
  destruct (enqueue_write g bw w2) as [ok w3]. simpl in *. lia.
Qed.
Lemma runPreparedQuery_one lf c s : sends 1 (runPreparedQuery lf c s).
Proof.
  unfold runPreparedQuery. apply (sends_bind 0 1); [by apply sends_silent|]. intros usable.
  destruct (negb usable); [apply send_one; st_auto|].
  apply (sends_bind 0 1); [apply sends_silent; st_auto|]. intros st.
  destruct (negb (st_ok st)); apply send_one; st_auto.
Qed.

Lemma attempt_query_one lf s out : sends 1 (attempt_query lf s out).
Proof.
  unfold attempt_query. apply (sends_bind 0 1); [apply sends_silent, borrow_silent|].
  intros [st [c|]]; cbn [snd fst]; [|apply (sends_weaken 0); [apply sends_silent; st_auto | lia]].
  apply (sends_bind 1 0); [|intros r; apply sends_silent; st_auto].
  unfold session_query. apply (sends_bind 1 0); [|intros r; apply sends_silent; st_auto].
  destruct (sm_params s); [apply runPreparedQuery_one | apply send_one; st_auto].
Qed.

Lemma query_loop_sends lf s caching key left attempt out :
  sends left (query_loop lf s caching key left attempt out).
Proof.
  revert attempt out. induction left as [|left IH]; intros attempt out; [by apply sends_silent|].
  cbn [query_loop]. apply (sends_bind 0 (S left)); [by apply sends_silent|]. intros gate.
  destruct (negb (st_ok gate)); [by apply sends_silent|].
  apply (sends_bind 1 left); [apply attempt_query_one|]. intros r.
  apply (sends_bind 0 left); [by apply sends_silent|]. intros _.
  destruct (st_ok r.1); [apply sends_silent; unfold cache_store; st_auto|].
  destruct (negb (st_retryable r.1) || Nat.eqb left 0); [by apply sends_silent|].
  apply (sends_bind 0 left); [by apply sends_silent|]. intros _. apply IH.
Qed.

(** What [resolveReadAttempts] allows. *)
Lemma leaf_query_sends lf s out :
  sends (Nat.max 1 (Z.to_nat (rt_max_attempts (lf_retry lf)))) (leaf_queryUngated lf s out).
Proof.
  unfold leaf_queryUngated. apply (sends_bind 0 (Nat.max 1 _)).
  { apply sends_silent. unfold leaf_caching. st_auto. }
  intros caching. apply (sends_bind 0 (Nat.max 1 _)).
  { apply sends_silent. unfold cache_lookup. st_auto. }
  intros [rs|]; [by apply sends_silent|].
  eapply sends_weaken; [apply query_loop_sends|]. unfold resolveReadAttempts. lia.
Qed.

(** a statement on a leaf is sent at most as often as the retry policy
    allows.  A read is sent at most [max_attempts] times.
    A write is sent once unless the request declares it
    idempotent, or declares nothing and [retry_writes] is set; then at most
    [max_attempts] times. *)
Theorem statements_sent_at_most lf s out w :
  let attempts := Nat.max 1 (Z.to_nat (rt_max_attempts (lf_retry lf))) in
  (nsent (leaf_queryUngated lf s out w).2 <= nsent w + attempts)%nat /\
  (nsent (leaf_executeUngated lf s w).2 <=
   nsent w + match idempotency_of w with
             | NonIdempotent => 1
             | Idempotent => attempts
             | Unspecified => if rt_retry_writes (lf_retry lf) then attempts else 1
             end)%nat.
Proof. split; [apply leaf_query_sends | apply leaf_execute_sends]. Qed.

(** ** A write and the result cache *)
Definition cache_good (c : QueryCacheState) : Prop := wf c /\ within_limits c.
Definition forgotten (n : str) (c : QueryCacheState) : Prop :=
  qs_enabled c = true -> forall key, qs_store c !! compositeKey n key = None.

Lemma forgotten_misses n c now key : forgotten n c -> (cache_get now n key c).1 = None.
Proof.
  unfold forgotten, cache_get. intros H. destruct (qs_enabled c); [|done]. simpl.
  destruct (qc_enabled (qs_cfg c)); [|done]. simpl. by rewrite (H eq_refl).
Qed.

Lemma invalidate_forgets n c :
  cache_good c ->
  cache_good (cache_invalidate n c) /\ forgotten n (cache_invalidate n c) /\
  (forall m, forgotten m c -> forgotten m (cache_invalidate n c)).
Proof.
  intros [H1 H2]. destruct (cache_invalidate_spec n c H1 H2) as (W1 & W2 & (C1 & C2 & C3) & K).
  split; [by split|]. split.
  - intros He key. rewrite K by congruence.
    assert (prefixb (compositeKey n []) (compositeKey n key) = true) as ->; [|done].
    apply prefixb_spec. exists key. unfold compositeKey. by rewrite <- app_assoc.
  - intros m Hm He key. rewrite K by congruence. rewrite Hm by congruence. by destruct (prefixb _ _).
Qed.

(** The caches of the data sources [l] are empty. *)
Definition forgot (l : list str) (w : W) : Prop :=
  cache_good (cache_of w) /\ Forall (fun n => forgotten n (cache_of w)) l.

Lemma invalidate_cache_forgot n l w : forgot l w -> forgot (n :: l) (invalidate_cache n w).2.
Proof.
  intros [G F]. destruct (invalidate_forgets n (cache_of w) G) as (G' & F1 & F2).
  split; [done|]. constructor; [done|]. eapply Forall_impl; [exact F|]. intros m. apply F2.
Qed.

Lemma for_each_forgot {A} (name : A -> str) (xs : list A) l w :
  forgot l w -> forgot (map name xs ++ l) (for_each xs (fun x => invalidate_cache (name x)) w).2.
Proof.
  revert l w. induction xs as [|x xs IH]; intros l w H; [done|].
  cbn [for_each]. unfold bind. destruct (invalidate_cache (name x) w) as [u w1] eqn:Ei.
  apply (invalidate_cache_forgot (name x)) in H. rewrite Ei in H.
  specialize (IH _ _ H). destruct IH as [G F]. split; [done|].
  rewrite Forall_app in F. destruct F as [F1 F2]. cbn [map app]. apply Forall_cons in F2 as [F2 F3].
  constructor; [done|]. by apply Forall_app.
Qed.

Definition group_members (g : Group) : list str :=
  gp_name g :: lf_name (gp_primary g) :: map lf_name (gp_replicas g) ++ map lf_name (gp_failoverPrimaries g).

Lemma clock_cache w : cache_of (clock w).2 = cache_of w.
Proof. unfold clock, env. by destruct (clock_now _). Qed.

Lemma group_markWrite_forgets g w :
  cache_good (cache_of w) ->
  forgot (group_members g) (group_markWrite g w).2 /\
  frames_of (group_markWrite g w).2 = frames_of w.
Proof.
  intros G. split.
  - unfold group_markWrite. unfold bind at 1. pose proof (clock_cache w) as C.
    destruct (clock w) as [now w1]. cbn [snd] in C.
    unfold bind at 1. cbn [upd_ds modify].
    set (w2 := (w1.1, set_lastWrite (gp_name g) now w1.2)).
    assert (F : forgot [] w2) by (split; [unfold cache_of in *; simpl; by rewrite C | done]).
    apply (invalidate_cache_forgot (gp_name g)) in F. unfold bind at 1.
    destruct (invalidate_cache (gp_name g) w2) as [u3 w3]. cbn [snd] in F.
    apply (invalidate_cache_forgot (lf_name (gp_primary g))) in F. unfold bind at 1.
    destruct (invalidate_cache (lf_name (gp_primary g)) w3) as [u4 w4]. cbn [snd] in F.
    apply (for_each_forgot lf_name (gp_replicas g)) in F. unfold bind at 1.
    destruct (for_each (gp_replicas g) _ w4) as [u5 w5]. cbn [snd] in F.
    apply (for_each_forgot lf_name (gp_failoverPrimaries g)) in F.
    destruct F as [G' F]. split; [done|]. unfold group_members.
    rewrite !Forall_app in F. destruct F as (F1 & F2 & F3).
    apply Forall_cons in F3 as [F3 F4]. apply Forall_cons in F4 as [F4 _].
    constructor; [done|]. constructor; [done|]. by apply Forall_app.
  - apply (fun H : preserves frames_of (group_markWrite g) => H w). unfold group_markWrite, invalidate_cache.
    st_auto; apply preserves_for_each; intros; st_auto.
Qed.

(** What a leaf write does to cache and frames. *)
Lemma execute_loop_effect lf s left a w :
  (0 < left)%nat ->
  let r := execute_loop lf s left a w in
  (st_ok r.1.1 = false -> cache_of r.2 = cache_of w /\ frames_of r.2 = frames_of w) /\
  (st_ok r.1.1 = true -> cache_of r.2 = cache_invalidate (lf_name lf) (cache_of w) /\
                         frames_of r.2 = pinRequestWrite (frames_of w)).
Proof.
  revert a w. induction left as [|left IH]; intros a w Hl; [lia|]. cbn [execute_loop]. unfold bind.
  pose proof (before_attempt_keeps cache_of lf kept_cache w) as C1.
  pose proof (before_attempt_keeps frames_of lf kept_frames w) as K1.
  destruct (before_attempt lf w) as [gate w1]. cbn [fst snd] in *.
  destruct (st_ok gate) eqn:Eg; cbn [negb ret fst snd]; [|by split; [|congruence]].
  pose proof (attempt_execute_keeps cache_of lf s kept_cache w1) as C2.
  pose proof (attempt_execute_keeps frames_of lf s kept_frames w1) as K2.
  destruct (attempt_execute lf s w1) as [r w2]. cbn [fst snd] in *.
  pose proof (after_attempt_keeps cache_of lf r.1 kept_cache w2) as C3.
  pose proof (after_attempt_keeps frames_of lf r.1 kept_frames w2) as K3.
  destruct (after_attempt lf r.1 w2) as [u w3]. cbn [fst snd] in *.
  destruct (st_ok r.1) eqn:Eo.
  - unfold leaf_markWrite, bind, invalidate_cache, pin_request, upd_thread, upd_ds, modify.
    cbn [ret fst snd]. split; [congruence|]. intros _. unfold cache_of, frames_of in *. simpl.
    by rewrite <- C1, <- C2, <- C3, <- K1, <- K2, <- K3.
  - destruct (negb (st_retryable r.1) || Nat.eqb left 0) eqn:Es; cbn [ret fst snd].
    + split; [|congruence]. intros _. split; congruence.
    + pose proof (sleep_keeps cache_of lf a kept_cache w3) as C4.
      pose proof (sleep_keeps frames_of lf a kept_frames w3) as K4.
      destruct (sleep lf a w3) as [u' w4]. cbn [snd] in *.
      apply orb_false_iff in Es as [_ Es]. apply Nat.eqb_neq in Es.
      destruct (IH (a + 1) w4 ltac:(lia)) as [I1 I2].
      assert (Ec : cache_of w4 = cache_of w) by congruence.
      assert (Ek : frames_of w4 = frames_of w) by congruence. by rewrite Ec, Ek in *.
Qed.

Lemma resolveWriteAttempts_pos retry ctx : (0 < Z.to_nat (resolveWriteAttempts retry ctx))%nat.
Proof. unfold resolveWriteAttempts. repeat case_match; lia. Qed.

Lemma leaf_execute_effect lf s w :
  let r := leaf_executeUngated lf s w in
  (st_ok r.1.1 = false -> cache_of r.2 = cache_of w /\ frames_of r.2 = frames_of w) /\
  (st_ok r.1.1 = true -> cache_of r.2 = cache_invalidate (lf_name lf) (cache_of w) /\
                         frames_of r.2 = pinRequestWrite (frames_of w)).
Proof. apply execute_loop_effect, resolveWriteAttempts_pos. Qed.

Lemma dispatch_effect g s targets st0 w :
  cache_good (cache_of w) -> st_ok st0.1 = false ->
  let r := dispatch_loop g (fun t => leaf_executeUngated t s) targets st0 w in
  st_ok r.1.2.1 = true ->
  r.1.1 = true /\ forgot (group_members g) r.2 /\ frames_of r.2 = pinRequestWrite (frames_of w).
Proof.
  revert w st0. induction targets as [|t rest IH]; intros w st0 G H0; [by cbn; rewrite H0|].
  cbn [dispatch_loop]. unfold bind. destruct (leaf_execute_effect t s w) as [L1 L2].
  destruct (leaf_executeUngated t s w) as [r w1]. cbn [fst snd] in *.
  destruct (st_ok r.1) eqn:Eo.
  - destruct (L2 eq_refl) as [C K].
    assert (G1 : cache_good (cache_of w1)) by (rewrite C; by apply invalidate_forgets).
    destruct (group_markWrite_forgets g w1 G1) as [F Kf].
    destruct (group_markWrite g w1) as [u w2]. cbn [fst snd ret] in *. intros _. split_and!; [done|done|congruence].
  - destruct (L1 eq_refl) as [C K]. destruct (negb (safeToFailoverWrite r.1)); cbn [ret fst snd].
    + congruence.
    + rewrite <- K. apply IH; [by rewrite C | done].
Qed.

Lemma group_execute_effect g s w :
  cache_good (cache_of w) ->
  (cx_shadow (current (frames_of w)) = false \/ gp_shadow g = None) ->
  st_ok (group_executeUngated g s w).1.1 = true ->
  forgot (group_members g) (group_executeUngated g s w).2 /\
  frames_of (group_executeUngated g s w).2 = pinRequestWrite (frames_of w).
Proof.
  intros G Hs. unfold group_executeUngated, dispatchWrite, bind. cbn [context reads].
  assert ((if cx_shadow (current (th_context w.1)) then gp_shadow g else None) = None) as ->.
  { unfold frames_of in Hs. destruct Hs as [->| ->]; [done | by destruct (cx_shadow _)]. }
  pose proof (writeTargets_keeps cache_of g kept_cache w) as C.
  pose proof (writeTargets_keeps frames_of g kept_frames w) as K.
  destruct (writeTargets g w) as [targets w1]. cbn [fst snd] in *.
  assert (G1 : cache_good (cache_of w1)) by by rewrite C.
  pose proof (dispatch_effect g s targets (noPrimaryStatus g, 0) w1 G1 eq_refl) as D.
  destruct (dispatch_loop _ _ _ _ w1) as [[stop r] w2]. cbn [fst snd] in *.
  destruct (st_ok r.1) eqn:Eo.
  - destruct (D eq_refl) as (-> & F & Kf). cbn [ret fst snd]. intros _. split; [done|congruence].
  - destruct stop; cbn [ret fst snd]; [congruence|].
    destruct (if gp_writeBuffer g then _ else _) as [bw|]; cbn [ret fst snd]; [|congruence].
    destruct (enqueue_write g bw w2) as [ok w3]. cbn [ret fst snd].
    destruct ok; [done | congruence].
Qed.

(** C16: after a successful write through a group, a look-up for the group, its
    primary, any replica or failover candidate misses: no result read before the
    write is served again. A request in shadow mode through a group with a shadow is
    outside the claim, since its write goes to the shadow only; the cache is in a
    state its operations keep ([cache_good]). *)
Theorem write_empties_group_caches g s w n now key :
  cache_good (cache_of w) ->
  (cx_shadow (current (frames_of w)) = false \/ gp_shadow g = None) ->
  st_ok (group_executeUngated g s w).1.1 = true -> n ∈ group_members g ->
  (cache_get now n key (cache_of (group_executeUngated g s w).2)).1 = None.
Proof.
  intros G Hs Ho Hn. destruct (group_execute_effect g s w G Hs Ho) as [[_ F] _].
  apply forgotten_misses. rewrite Forall_forall in F. by apply F.
Qed.

(** ** Read your writes *)
Lemma readTarget_pinned g w :
  (cx_shadow (current (frames_of w)) = false \/ gp_shadow g = None) ->
  cx_wroteInThisRequest (current (frames_of w)) = true ->
  (readTarget g w).1 = gp_primary g.
Proof.
  intros Hs Hw. unfold readTarget, bind. cbn [context reads]. unfold frames_of in *.
  assert ((if cx_shadow (current (th_context w.1)) then gp_shadow g else None) = None) as ->
    by (destruct Hs as [->| ->]; [done | by destruct (cx_shadow _)]).
  by rewrite Hw.
Qed.

(** in a request with one context frame, a read that follows a successful
    write of the group is routed to the primary. *)
Theorem read_your_writes g s w c :
  cache_good (cache_of w) -> frames_of w = [c] -> cx_shadow c = false ->
  st_ok (group_executeUngated g s w).1.1 = true ->
  (readTarget g (group_executeUngated g s w).2).1 = gp_primary g.
Proof.
  intros G Hf Hc Ho. assert (Hs : cx_shadow (current (frames_of w)) = false) by by rewrite Hf.
  destruct (group_execute_effect g s w G (or_introl Hs) Ho) as [_ K].
  apply readTarget_pinned; rewrite K, Hf; [by left | done].
Qed.

(** ** A primary that cannot be reached *)
Definition down (lf : Leaf) (err : str) : Prop :=
  forall e, (pool_borrow (lf_name lf) e).1 = BorrowFailed ConnectionFailed err.

Definition refused (err : str) : Status :=
  set_broken true (set_retryable true (status_error ConnectionFailed err)).

Lemma borrow_down lf err w : down lf err -> (borrowSession lf w).1 = (refused err, None).
Proof.
  intros H. unfold borrowSession, bind, env. specialize (H (ds_env w.2)).
  destruct (pool_borrow (lf_name lf) (ds_env w.2)) as [b e]. cbn [fst] in H. by subst.
Qed.

Lemma attempt_down lf s err w :
  down lf err ->
  (attempt_execute lf s w).1 = (refused err, 0) /\ nsent (attempt_execute lf s w).2 = nsent w.
Proof.
  intros H. unfold attempt_execute, bind. pose proof (borrow_down lf err w H) as B.
  pose proof (borrow_silent lf w) as S. destruct (borrowSession lf w) as [b w1].
  cbn [fst snd] in *. by subst.
Qed.

Lemma before_attempt_disabled lf w :
  disabled (lf_circuitBreaker lf) = true -> (before_attempt lf w).1 = StatusOK.
Proof.
  intros H. unfold before_attempt, bind, beforeAttempt. rewrite H. done.
Qed.

Lemma execute_loop_down lf s err left a w :
  down lf err -> disabled (lf_circuitBreaker lf) = true -> (0 < left)%nat ->
  (execute_loop lf s left a w).1.1 = refused err /\ nsent (execute_loop lf s left a w).2 = nsent w.
Proof.
  intros Hd Hb. revert a w. induction left as [|left IH]; intros a w Hl; [lia|].
  cbn [execute_loop]. unfold bind. pose proof (before_attempt_disabled lf w Hb) as G.
  pose proof (before_attempt_silent lf w) as S0.
  destruct (before_attempt lf w) as [gate w1]. cbn [fst snd] in *. subst gate.
  change (negb (st_ok StatusOK)) with false. cbn beta iota.
  destruct (attempt_down lf s err w1 Hd) as [A S1].
  destruct (attempt_execute lf s w1) as [r w2]. cbn [fst snd] in *. subst r. cbn [fst].
  pose proof (after_attempt_silent lf (refused err) w2) as S2.
  destruct (after_attempt lf (refused err) w2) as [u w3]. cbn [snd] in S2.
  change (st_ok (refused err)) with false. change (st_retryable (refused err)) with true. cbn [negb orb].
  destruct (Nat.eqb left 0) eqn:El; cbn [ret fst snd]; [split; [done|congruence]|].
  apply Nat.eqb_neq in El. pose proof (sleep_silent lf a w3) as S3.
  destruct (sleep lf a w3) as [u' w4]. cbn [snd] in S3.
  destruct (IH (a + 1) w4 ltac:(lia)) as [I1 I2]. split; [done|congruence].
Qed.

(** a primary whose connections are refused is not failed over: the group
    reports the refused connection and never tries the next candidate, nor the
    write buffer, however many healthy candidates it has. *)
Theorem refused_primary_is_not_failed_over g s p rest err w :
  gp_failoverPrimaries g = p :: rest -> gp_requireHealthy g = false ->
  disabled (lf_circuitBreaker p) = true -> down p err ->
  (cx_shadow (current (frames_of w)) = false \/ gp_shadow g = None) ->
  (group_executeUngated g s w).1.1 = refused err /\
  nsent (group_executeUngated g s w).2 = nsent w.
Proof.
  intros Hg Hh Hb Hd Hs.
  assert (N : (if cx_shadow (current (th_context w.1)) then gp_shadow g else None) = None).
  { unfold frames_of in Hs. destruct Hs as [->| ->]; [done | by destruct (cx_shadow _)]. }
  assert (T : exists more w1, writeTargets g w = (p :: more, w1) /\ nsent w1 = nsent w).
  { pose proof (writeTargets_silent g w) as S. revert S. unfold writeTargets, bind at 1 2.
    cbn [context reads]. rewrite N, Hg, Hh. cbn [healthy_targets]. unfold circuit_open, bind.
    rewrite Hb. cbn [ret get_ds reads]. unfold isCircuitOpen. rewrite Hb. cbn [negb andb ret orb].
    destruct (healthy_targets false rest w) as [more w1]. cbn [fst snd]. intros S. eauto. }
  destruct T as (more & w1 & T & S1).
  assert (L : (leaf_executeUngated p s w1).1.1 = refused err /\
              nsent (leaf_executeUngated p s w1).2 = nsent w1).
  { apply execute_loop_down; [done|done|apply resolveWriteAttempts_pos]. }
  destruct L as [L1 L2].
  assert (R : group_executeUngated g s w = leaf_executeUngated p s w1).
  { unfold group_executeUngated, dispatchWrite, bind. cbn [context reads]. rewrite N, T.
    cbn [dispatch_loop]. unfold bind. destruct (leaf_executeUngated p s w1) as [r w2].
    cbn [fst] in L1. rewrite L1. by destruct r. }
  rewrite R. split; [done|congruence].
Qed.

(** ** A cursor opened as the half-open probe *)

(** when the probe of a half-open circuit opens a cursor successfully, the
    probe is never reported: whatever the time, every later attempt on the data
    source is rejected as half-open. *)
Theorem cursor_probe_wedges_breaker lf s w c n st :
  disabled (lf_circuitBreaker lf) = false ->
  br_halfOpenInFlight (breaker_of (lf_name lf) w.2) = false ->
  0 < br_openUntil (breaker_of (lf_name lf) w.2) ->
  br_openUntil (breaker_of (lf_name lf) w.2) <= (clock_now (ds_env w.2)).1 ->
  (forall e, (pool_borrow (lf_name lf) e).1 = Lent c) ->
  (forall e, (driver_openCursor c s e).1 = (st, true)) -> st_ok st = true -> (0 < n)%nat ->
  let r := cursor_loop lf s n 1 w in
  r.1 = (st, Some c) /\
  forall now, admitted (lf_circuitBreaker lf) (lf_name lf) now (breaker_of (lf_name lf) r.2.2) = false /\
    breaker_step (lf_circuitBreaker lf) (lf_name lf) (breaker_of (lf_name lf) r.2.2) (Begin now)
      = breaker_of (lf_name lf) r.2.2.
Proof.
  intros Hd Hh Ho Hc Hb Hop Hst Hn. destruct n as [|n]; [lia|].
  set (b := breaker_of (lf_name lf) w.2) in *.
  assert (B : exists w1, before_attempt lf w = (StatusOK, w1) /\
            breaker_of (lf_name lf) w1.2 = mkBreaker (br_consecutiveFailures b) true (br_openUntil b)).
  { unfold before_attempt, bind. rewrite Hd. unfold clock, env.
    destruct (clock_now (ds_env w.2)) as [now e]. cbn [fst] in Hc.
    cbn [get_ds reads fst snd]. match goal with |- context [beforeAttempt _ _ _ ?x] => change x with b end.
    unfold beforeAttempt. rewrite Hd, Hh.
    assert ((now <? br_openUntil b) = false) as -> by (apply Z.ltb_ge; lia).
    assert ((br_openUntil b =? 0) = false) as -> by (apply Z.eqb_neq; lia). cbn [negb].
    eexists. split; [reflexivity|]. unfold breaker_of. simpl. by rewrite lookup_insert_eq. }
  destruct B as (w1 & B & Bk).
  assert (L : exists w2, borrowSession lf w1 = ((StatusOK, Some c), w2) /\ ds_breakers w2.2 = ds_breakers w1.2).
  { unfold borrowSession, bind, env. specialize (Hb (ds_env w1.2)).
    destruct (pool_borrow _ _) as [bb e]. cbn [fst] in Hb. subst bb. eexists. by split. }
  destruct L as (w2 & L & Lk).
  assert (R : exists w3, cursor_loop lf s (S n) 1 w = ((st, Some c), w3) /\ ds_breakers w3.2 = ds_breakers w2.2).
  { cbn [cursor_loop]. unfold bind. rewrite B. change (negb (st_ok StatusOK)) with false. cbn beta iota.
    rewrite L. cbn [snd fst]. unfold env. specialize (Hop (ds_env w2.2)).
    destruct (driver_openCursor c s (ds_env w2.2)) as [o e]. cbn [fst] in Hop. subst o.
    cbn [fst snd]. rewrite Hst. cbn [andb trace upd_ds modify ret fst snd]. eexists. by split. }
  destruct R as (w3 & R & Rk). rewrite R. cbn zeta. cbn [fst snd]. split; [done|]. intros now.
  assert (breaker_of (lf_name lf) w3.2 = mkBreaker (br_consecutiveFailures b) true (br_openUntil b)) as ->
    by (unfold breaker_of in *; by rewrite Rk, Lk).
  destruct (begins_denied (lf_circuitBreaker lf) (lf_name lf) [now]
              (mkBreaker (br_consecutiveFailures b) true (br_openUntil b))) as [D1 D2];
    [done|simpl; lia|done|].
  apply Forall_cons in D2 as [D2 _]. by split.
Qed.

(** ** The cursor budget *)
Lemma borrow_keeps {B} (f : W -> B) lf : kept f -> preserves f (borrowSession lf).
Proof. intros []; unfold borrowSession; st_auto. Qed.

Lemma cursor_loop_keeps {B} (f : W -> B) lf s n a : kept f -> preserves f (cursor_loop lf s n a).
Proof.
  intros K. revert a. induction n as [|n IH]; intros a; [apply preserves_ret|]. cbn [cursor_loop].
  apply preserves_bind; [by apply before_attempt_keeps|]. intros gate.
  destruct (negb (st_ok gate)); [apply preserves_ret|].
  apply preserves_bind; [by apply borrow_keeps|]. intros b.
  apply preserves_bind; [destruct K, b.2; st_auto|]. intros r.
  destruct r.2; [apply preserves_ret|].
  apply preserves_bind; [by apply after_attempt_keeps|]. intros u.
  destruct (st_ok r.1); [apply preserves_ret|].
  destruct (negb (st_retryable r.1) || Nat.eqb n 0); [apply preserves_ret|].
  apply preserves_bind; [by apply sleep_keeps|]. intros u'. apply IH.
Qed.

Lemma open_cursors_set n k d : open_cursors n (set_cursors n k d) = k.
Proof. unfold open_cursors. simpl. by rewrite lookup_insert_eq. Qed.

(** the cursors open on a leaf with a limit never exceed it: an opened cursor
    takes one place, with a lease that gives it back, every failure leaves the
    count as it was, and without a free place the attempt ends at once as
    CursorLimit. *)
Theorem cursor_budget lf s w :
  0 < lf_cursorLimit lf ->
  let before := open_cursors (lf_name lf) w.2 in
  let r := leaf_openCursor lf s w in
  let after := open_cursors (lf_name lf) r.2.2 in
  (before <= lf_cursorLimit lf -> after <= lf_cursorLimit lf) /\
  match r.1.2 with
  | Some (c, lease) =>
      lease = true /\ after = before + 1 /\
      open_cursors (lf_name lf) (release_lease (lf_name lf) lease r.2).2.2 = before
  | None => after = before
  end /\
  (lf_cursorLimit lf <= before -> r = ((cursorLimitStatus (lf_name lf), None), w)).
Proof.
  intros Hl. cbn zeta. set (before := open_cursors (lf_name lf) w.2).
  unfold leaf_openCursor, cursorBudgetAcquire, bind. cbn [get_ds reads].
  assert ((lf_cursorLimit lf <=? 0) = false) as -> by (by apply Z.leb_gt). fold before.
  destruct (Z.ltb_spec before (lf_cursorLimit lf)) as [H|H].
  - cbn [upd_ds modify ret fst snd negb].
    set (w1 := (w.1, set_cursors (lf_name lf) (before + 1) w.2)).
    pose proof (cursor_loop_keeps cursors_of lf s
                  (Z.to_nat (resolveReadAttempts (lf_retry lf))) 1 kept_cursors w1) as K.
    destruct (cursor_loop _ _ _ _ w1) as [[st [c|]] w2]; cbn [fst snd] in *;
      assert (O : open_cursors (lf_name lf) w2.2 = before + 1)
        by (unfold open_cursors; unfold cursors_of in K; rewrite K; apply open_cursors_set).
    + cbn [ret fst snd]. split_and!; [lia|done|done| |lia].
      cbn [release_lease upd_ds modify fst snd]. rewrite open_cursors_set. lia.
    + cbn [release_lease upd_ds modify ret fst snd]. rewrite open_cursors_set. split_and!; lia.
  - cbn [ret fst snd negb]. by split_and!.
Qed.

(** ** Scopes nested in a request *)

(** with two frames on the stack a successful write marks the lower frame
    and leaves the top one as it was.  The top frame is the copy that
    [runWithInterceptors] pushes when interceptors are enabled, but the caller's
    own inner scope when they are not: then the reads of that scope are not
    pinned to the primary. *)
Theorem write_marks_the_lower_frame g s w top below rest :
  cache_good (cache_of w) -> frames_of w = top :: below :: rest -> cx_shadow top = false ->
  st_ok (group_executeUngated g s w).1.1 = true ->
  let w' := (group_executeUngated g s w).2 in
  frames_of w' = top :: set_wrote below :: rest /\
  cx_wroteInThisRequest (current (frames_of w')) = cx_wroteInThisRequest top.
Proof.
  intros G Hf Hc Ho. assert (Hs : cx_shadow (current (frames_of w)) = false) by by rewrite Hf.
  destruct (group_execute_effect g s w G (or_introl Hs) Ho) as [_ K].
  rewrite Hf in K. cbn [pinRequestWrite] in K. cbn zeta. by rewrite K.
Qed.

(** ** Where a group reads *)
Definition open_circuit (lf : Leaf) (now : Z) (d : Ds) : bool :=
  isCircuitOpen (lf_circuitBreaker lf) now (breaker_of (lf_name lf) d).

Definition breakers_of (w : W) : gmap str Breaker := ds_breakers w.2.

Lemma circuit_open_spec lf w :
  exists now, (circuit_open lf w).1 = open_circuit lf now w.2 /\
    breakers_of (circuit_open lf w).2 = breakers_of w.
Proof.
  unfold circuit_open, bind, clock, env. destruct (disabled _); [by exists 0|].
  destruct (clock_now (ds_env w.2)) as [now e]. by exists now.
Qed.

Lemma open_circuit_breakers lf now (w w' : W) :
  breakers_of w' = breakers_of w -> open_circuit lf now w'.2 = open_circuit lf now w.2.
Proof. unfold open_circuit, breaker_of, breakers_of. by intros ->. Qed.

Lemma pick_replica_spec l w :
  match (pick_replica l w).1 with
  | None => Forall (fun c => exists now, open_circuit c now w.2 = true) l
  | Some c => exists skipped rest now, l = skipped ++ c :: rest /\ open_circuit c now w.2 = false /\
      Forall (fun c => exists now, open_circuit c now w.2 = true) skipped
  end.
Proof.
  revert w. induction l as [|c l IH]; intros w; [by apply Forall_nil|]. cbn [pick_replica]. unfold bind.
  destruct (circuit_open_spec c w) as (now & Ho & Hb).
  destruct (circuit_open c w) as [o w1]. cbn [fst snd] in *. subst o.
  destruct (open_circuit c now w.2) eqn:Eo; cbn [negb].
  - specialize (IH w1). destruct (pick_replica l w1).1 as [c'|].
    + destruct IH as (sk & rest & now' & -> & Hc & Hs). exists (c :: sk), rest, now'.
      rewrite <- (open_circuit_breakers _ _ _ _ Hb). split_and!; [done|done|].
      constructor; [by eauto|]. eapply Forall_impl; [exact Hs|]. intros x [n Hn]. exists n.
      by rewrite <- (open_circuit_breakers _ _ _ _ Hb).
    + constructor; [by eauto|]. eapply Forall_impl; [exact IH|]. intros x [n Hn]. exists n.
      by rewrite <- (open_circuit_breakers _ _ _ _ Hb).
  - cbn [ret fst]. exists [], l, now. by split_and!.
Qed.

Lemma rotate_permutation k (l : list Leaf) : rotate k l ≡ₚ l.
Proof. unfold rotate. rewrite Permutation_app_comm. by rewrite take_drop. Qed.

Definition recent_write (g : Group) (w : W) : bool :=
  (0 <? gp_readAfterWrite g) &&
  (let last := default 0 (ds_lastWriteNs w.2 !! gp_name g) in
   (0 <? last) && ((clock w).1 - last <? gp_readAfterWrite g)).


(** ** The gate in front of every statement *)

(** a write refused by the audit is answered with the audit's status and
    nothing else happens than the audit's own bookkeeping; one that passes the
    audit but not the rate limiter is answered with RateLimited.  In neither
    case is a statement sent, a breaker moved or an interceptor called. *)
Theorem gate_stops_the_write d s w :
  let sql := sm_sql s in
  let c := check sql OpExecute (source_readOnly d) (ds_auditor w.2) in
  (st_ok c.1 = false -> execute d s w = (c.1, (w.1, set_auditor c.2 w.2))) /\
  (forall usesFingerprint acquire,
     st_ok c.1 = true -> limiter (source_name d) = Some (usesFingerprint, acquire) ->
     (acquire (if usesFingerprint : bool then fingerprintTemplate sql else 0) (ds_env w.2)).1 = false ->
     let r := execute d s w in
     r.1 = rateLimitedStatus (source_name d) /\ nsent r.2 = nsent w /\
     breakers_of r.2 = breakers_of w /\ cache_of r.2 = cache_of w /\ r.2.1 = w.1).
Proof.
  cbn zeta. unfold execute, preGate, bind. cbn [get_ds reads].
  destruct (check _ _ _ _) as [st a]. cbn [fst snd upd_ds modify]. split.
  - intros Ho. rewrite Ho. cbn [negb ret]. rewrite Ho. done.
  - intros f acq -> Hl Ha. cbn [negb]. rewrite Hl. unfold env. cbn [snd ds_env set_auditor].
    destruct (acq _ (ds_env w.2)) as [ok e]. cbn [fst] in Ha. subst ok.
    change (negb (st_ok (if false then StatusOK else rateLimitedStatus (source_name d)))) with true.
    by split_and!.
Qed.
End Sources.

(** ** A concrete environment

    Time is the number of calls; the pool of [down] refuses, the limiter of
    [limited] denies, everything else answers at once. *)
#[local] Instance demo_env : Environment nat := {|
  clock_now e := (Z.of_nat e, S e);
  sleep_for _ e := S e;
  random_jitter _ e := (0, e);
  pool_borrow n e :=
    if str_eqb n (lit "down") then (BorrowFailed ConnectionFailed (lit "refused"), e) else (Lent 7%nat, e);
  pool_expired _ _ := false;
  driver_query _ _ e := ((StatusOK, rs_empty), S e);
  driver_execute _ _ e := ((StatusOK, 1), S e);
  preparedUsable _ _ := true;
  driver_prepare _ _ e := (StatusOK, S e);
  driver_executePreparedQuery _ _ e := ((StatusOK, rs_empty), S e);
  driver_executePreparedExec _ _ e := ((StatusOK, 1), S e);
  driver_openCursor _ _ e := ((StatusOK, true), S e);
  limiter n := if str_eqb n (lit "limited") then Some (false, fun _ e => (false, e)) else None;
  sizeof_string := 32;
  sizeof_Value := 64 |}.

Definition demo_leaf (n : string) (threshold : Z) : Leaf :=
  mkLeaf (lit n) (mkRetryConfig 3 1 8 true) (mkCircuitBreakerConfig threshold 5) false false 2.
Definition demo_group (candidates : list Leaf) : Group :=
  mkGroup (lit "grp") (demo_leaf "p" 0) [demo_leaf "r" 0] 0 true false candidates false None false.
Definition demo_state (frames : Stack) (breakers : gmap str Breaker) : Thread * Ds :=
  (mkThread [] [] frames,
   mkDs breakers
     (cache_put 32 64 90 (lit "r") (lit "k") small_rs (cache_configure put_get_config cache_init))
     auditor_init ∅ ∅ ∅ 0 [] 100%nat).
Definition demo_write : Statement := mkStatement (lit "UPDATE t SET a = 1 WHERE id = 2") (Some []).
Definition once : SqlContext := mkContext [] [] [] [] false false NonIdempotent.

Lemma demo_cache_good frames breakers : cache_good (cache_of (demo_state frames breakers)).
Proof. destruct (wf_init put_get_config cache_init). by apply cache_put_inv. Qed.

Lemma non_idempotent_write_once_witness :
  let w := demo_state [once] ∅ in
  (nsent (group_executeUngated (demo_group [demo_leaf "down" 0; demo_leaf "p" 0]) demo_write w).2 <= 1)%nat.
Proof.
  apply (non_idempotent_write_once (demo_group [demo_leaf "down" 0; demo_leaf "p" 0]) demo_write
           (demo_state [once] ∅)); [by split|done].
Defined.

Lemma write_empties_group_caches_witness :
  let w := demo_state [once] ∅ in
  (cache_get 100 (lit "r") (lit "k") (cache_of w)).1 = Some small_rs /\
  (cache_get 100 (lit "r") (lit "k")
     (cache_of (group_executeUngated (demo_group []) demo_write w).2)).1 = None.
Proof.
  split; [by vm_compute|].
  apply (write_empties_group_caches (demo_group []) demo_write (demo_state [once] ∅));
    [apply demo_cache_good | by left | by vm_compute | by do 2 right; left].
Defined.

Lemma read_your_writes_witness :
  let w := demo_state [once] ∅ in
  (readTarget (demo_group []) w).1 = demo_leaf "r" 0 /\
  (readTarget (demo_group []) (group_executeUngated (demo_group []) demo_write w).2).1 = demo_leaf "p" 0.
Proof.
  split; [by vm_compute|].
  apply (read_your_writes (demo_group []) demo_write (demo_state [once] ∅) once);
    [apply demo_cache_good | done | done | by vm_compute].
Defined.

(** The caller's own inner scope, interceptors disabled: the next read goes to
    the replica. *)
Lemma write_marks_the_lower_frame_witness :
  let w' := (group_executeUngated (demo_group []) demo_write (demo_state [once; once] ∅)).2 in
  frames_of w' = [once; set_wrote once] /\ (readTarget (demo_group []) w').1 = demo_leaf "r" 0.
Proof.
  split; [|by vm_compute].
  apply (write_marks_the_lower_frame (demo_group []) demo_write (demo_state [once; once] ∅) once once []);
    [apply demo_cache_good | done | done | by vm_compute].
Defined.

Lemma refused_primary_is_not_failed_over_witness :
  let g := demo_group [demo_leaf "down" 0; demo_leaf "p" 0] in
  let r := group_executeUngated g demo_write (demo_state [once] ∅) in
  r.1.1 = refused (lit "refused") /\ nsent r.2 = 0%nat.
Proof.
  apply (refused_primary_is_not_failed_over _ demo_write (demo_leaf "down" 0) [demo_leaf "p" 0]
           (lit "refused") (demo_state [once] ∅)); [done..| by left].
Defined.

Lemma cursor_probe_wedges_breaker_witness :
  let lf := demo_leaf "p" 3 in
  let r := cursor_loop lf demo_write 3 1 (demo_state [] {[ lit "p" := mkBreaker 3 false 50 ]}) in
  r.1 = (StatusOK, Some 7%nat) /\
  admitted (lf_circuitBreaker lf) (lit "p") 1000000 (breaker_of (lit "p") r.2.2) = false.
Proof.
  destruct (cursor_probe_wedges_breaker (demo_leaf "p" 3) demo_write
              (demo_state [] {[ lit "p" := mkBreaker 3 false 50 ]}) 7%nat 3%nat StatusOK) as [H1 H2];
    [done|done|done|by vm_compute|done|done|done|lia|].
  split; [exact H1 | apply H2].
Defined.

Lemma cursor_budget_witness :
  let lf := demo_leaf "p" 0 in
  let w := (leaf_openCursor lf demo_write (leaf_openCursor lf demo_write (demo_state [] ∅)).2).2 in
  (leaf_openCursor lf demo_write w).1 = (cursorLimitStatus (lit "p"), None).
Proof.
  cbn zeta. set (w := (leaf_openCursor _ _ _).2).
  destruct (cursor_budget (demo_leaf "p" 0) demo_write w) as (_ & _ & H); [done|].
  rewrite H; [done|]. by vm_compute.
Defined.

Lemma gate_stops_the_write_witness :
  let d := LeafSource (demo_leaf "limited" 0) in
  (execute 0 (fun _ => false) (fun _ => []) d demo_write (demo_state [] ∅)).1
    = rateLimitedStatus (lit "limited").
Proof.
  apply (gate_stops_the_write 0 (fun _ => false) (fun _ => []) (LeafSource (demo_leaf "limited" 0))
           demo_write (demo_state [] ∅)) with (usesFingerprint := false) (acquire := fun _ e => (false, e));
    by vm_compute.
Defined.
