(* ===== verification/Transaction.v ===== *)
(** * Sessions and transactions (Session and DataSource in
      src/core/database_manager.cpp)

    A session owns a borrowed connection; the caller's callback runs statements
    and transaction control on it.  The callback is any finite interaction: it
    chooses its next operation from the answers so far and returns a status or
    throws.  Times, the deadline watcher and the driver belong to the
    environment. *)
From stdpp Require Import base gmap list strings.
From Stdlib Require Import Ascii ZArith Lia.
From S2P Require Import Prelude Types Config CacheKey QueryCache SqlAnalyze SqlAuditor.
From S2P Require Import Context Interceptor WriteBuffer Breaker DataSource.

Open Scope Z_scope.

(** ** Data *)
Inductive IsolationLevel :=
  | DefaultLevel | ReadUncommitted | ReadCommitted | RepeatableRead | Serializable.

Record TransactionOptions := mkTxOptions {
  to_isolation : IsolationLevel;
  to_readOnly : bool;
  to_timeout : Z }.

Definition default_options : TransactionOptions := mkTxOptions DefaultLevel false 0.

(** The transaction control a driver offers. *)
Inductive TxCall :=
  | DBegin (o : option TransactionOptions)
  | DCommit
  | DRollback
  | DSavepoint (n : str)
  | DReleaseSavepoint (n : str)
  | DRollbackToSavepoint (n : str)
  | DCancel.

(** Its other calls with their statement. *)
Inductive DriverCall :=
  | CallQueryAll (s : Statement)
  | CallRoutine (s : Statement)
  | CallBatch (s : Statement)
  | CallExecuteKeys (s : Statement)
  | CallPrepare (s : Statement)
  | CallPreparedQuery (handle : Z) (s : Statement)
  | CallPreparedExec (handle : Z) (s : Statement)
  | CallOpenCursor (s : Statement)
  | CallStreamQuery (s : Statement)
  | CallStreamExecute (s : Statement)
  | CallStreamBatch (s : Statement).

(** What a call leaves in the caller's out parameters. *)
Record Answer := mkAnswer { an_rows : ResultSet; an_affected : Z }.
Definition no_answer : Answer := mkAnswer rs_empty 0.

(** What the callback of a streamed query answers for a row. *)
Inductive RowAnswer := Continue | Stop | Raised (what : option str).

Class SessionDriver (E : Type) := {
  tx_call : connection -> TxCall -> E -> Status * E;
  driver_call : connection -> DriverCall -> E -> (Status * Answer) * E;
  (** A streamed query: the rows, and the status and row count it ends with when
      so many of them were delivered. *)
  driver_each : connection -> Statement -> E -> (list Row * (nat -> Status * Z)) * E;
  (** The watcher of a deadline: what its [cancel] returned, if it fired. *)
  tx_watch : connection -> Z -> E -> option Status * E }.

(** What the callback may ask of the session. *)
Inductive SessionOp :=
  | SoQuery (s : Statement)
  | SoExecute (s : Statement)
  | SoQueryAll (s : Statement)
  | SoCall (s : Statement)
  | SoExecuteBatch (s : Statement)
  | SoExecuteKeys (s : Statement)
  | SoPrepare (s : Statement)
  | SoExecutePreparedQuery (handle : Z) (s : Statement)
  | SoExecutePreparedExec (handle : Z) (s : Statement)
  | SoOpenCursor (s : Statement)
  | SoStreamQuery (s : Statement)
  | SoStreamExecute (s : Statement)
  | SoStreamBatch (s : Statement)
  | SoQueryEach (s : Statement) (callback : Row -> RowAnswer)
  | SoBegin (o : option TransactionOptions)
  | SoCommit
  | SoRollback
  | SoSavepoint (n : str)
  | SoReleaseSavepoint (n : str)
  | SoRollbackToSavepoint (n : str)
  | SoCancel.

(** A callback: [Throw None] is an exception that is not a [std::exception]. *)
Inductive SessionFn :=
  | Return (st : Status)
  | Throw (what : option str)
  | Call (o : SessionOp) (k : Status * Answer -> SessionFn).

Record AuditContext := mkAudit { au_enabled : bool; au_readOnly : bool }.

(** The constant parts of a [Session]. *)
Record SessionEnv := mkSessionEnv {
  sn_leaf : Leaf;
  sn_conn : connection;
  sn_audit : AuditContext }.

(** Its mutable parts, the thread's [gTxDepth], whether the handle has been
    invalidated, and the transaction control the session itself has sent so far
    with the answers. *)
Record Ses := mkSes {
  se_txOpen : bool;
  se_didWrite : bool;
  se_invalid : bool;
  se_txDepth : Z;
  se_answer : Answer;
  se_calls : list (TxCall * Status) }.

Definition set_open (b : bool) (s : Ses) : Ses :=
  mkSes b (se_didWrite s) (se_invalid s) (se_txDepth s) (se_answer s) (se_calls s).
Definition set_didWrite (s : Ses) : Ses :=
  mkSes (se_txOpen s) true (se_invalid s) (se_txDepth s) (se_answer s) (se_calls s).
Definition set_invalid (s : Ses) : Ses :=
  mkSes (se_txOpen s) (se_didWrite s) true (se_txDepth s) (se_answer s) (se_calls s).
Definition set_txDepth (d : Z) (s : Ses) : Ses :=
  mkSes (se_txOpen s) (se_didWrite s) (se_invalid s) d (se_answer s) (se_calls s).
Definition set_answer (a : Answer) (s : Ses) : Ses :=
  mkSes (se_txOpen s) (se_didWrite s) (se_invalid s) (se_txDepth s) a (se_calls s).
Definition add_call (c : TxCall * Status) (s : Ses) : Ses :=
  mkSes (se_txOpen s) (se_didWrite s) (se_invalid s) (se_txDepth s) (se_answer s) (se_calls s ++ [c]).

(** A new session on a thread. *)
Definition new_session (s : Ses) : Ses := mkSes false false false (se_txDepth s) no_answer [].

Section Sessions.
Context {E : Type} `{!Environment E} `{!SessionDriver E}.
Context (registry : nat) (interceptors_enabled : @Ds E -> bool)
        (interceptors : @Ds E -> list (@ISqlInterceptor (@Ds E))).

Record Tx := mkTx { tx_ds : @Ds E; tx_ses : Ses }.

Abbreviation W := (Thread * Tx)%type.
Abbreviation M := (ST W).
Local Open Scope st_scope.

(** ** Access to the state *)

(** An operation of the data source, which does not see the session. *)
Definition lift {A} (m : ST (Thread * @Ds E) A) : M A :=
  fun s => let '(a, (t, d)) := m (s.1, tx_ds s.2) in (a, (t, mkTx d (tx_ses s.2))).
Definition upd_ses (f : Ses -> Ses) : M unit := modify (fun s => (s.1, mkTx (tx_ds s.2) (f (tx_ses s.2)))).
Definition get_ses {A} (f : Ses -> A) : M A := reads (fun s => f (tx_ses s.2)).

Definition lift_interceptor (i : @ISqlInterceptor (@Ds E)) : @ISqlInterceptor Tx :=
  mkInterceptor (fun c => lift (onRoute i c)) (fun v => lift (beforeExecution i v))
    (fun v => lift (afterExecution i v)) (fun v r => lift (onRow i v r))
    (fun v => lift (onCompletion i v)).

Definition session_enabled (s : Tx) : bool := interceptors_enabled (tx_ds s).
Definition session_interceptors (s : Tx) : list (@ISqlInterceptor Tx) :=
  map lift_interceptor (interceptors (tx_ds s)).

(** ** Statements of a session *)
Definition invalidate_handle (x : SessionEnv) : M unit :=
  upd_ses set_invalid ;; lift (trace (Invalidated (sn_conn x))).

Definition auditStatement (x : SessionEnv) (sql : str) (type : OperationType) : M Status :=
  if negb (au_enabled (sn_audit x)) then ret StatusOK
  else lift (a <-- get_ds ds_auditor;
             let '(st, a') := check sql type (au_readOnly (sn_audit x)) a in
             upd_ds (set_auditor a') ;; ret st).

(** The routing of a statement and [runWithInterceptors] around its body. *)
Definition routed : M SqlContext :=
  ctx <-- lift context;
  runOnRoute registry session_enabled session_interceptors ctx.

(** What a call hands to the interceptors: a result set, a count, or neither. *)
Definition out_rows (a : Answer) : option ResultSet * option Z := (Some (an_rows a), None).
Definition out_count (a : Answer) : option ResultSet * option Z := (None, Some (an_affected a)).
Definition out_none (a : Answer) : option ResultSet * option Z := (None, None).

Definition intercepted (ctx : SqlContext) (outs : Answer -> option ResultSet * option Z)
    (body : M Status) : M Status :=
  runWithInterceptors registry session_enabled session_interceptors (mkView ctx StatusOK None 0)
    (st <-- body; a <-- get_ses se_answer; ret (st, (outs a).1, (outs a).2)).

(** The body every statement shares: the driver's call, the out parameters, the
    write mark, and the invalidation of a broken connection. *)
Definition observed (x : SessionEnv) (writes : bool) (call : M (Status * Answer)) : M Status :=
  r <-- call;
  upd_ses (set_answer r.2) ;;
  (if writes && st_ok r.1 then upd_ses set_didWrite else ret tt) ;;
  (if st_connectionBroken r.1 then invalidate_handle x else ret tt) ;;
  ret r.1.

Definition drive (x : SessionEnv) (c : DriverCall) (s : Statement) : M (Status * Answer) :=
  lift (trace (Sent (lf_name (sn_leaf x)) (sn_conn x) s) ;; env (driver_call (sn_conn x) c)).

Definition rows_answer (r : Status * ResultSet) : Status * Answer := (r.1, mkAnswer r.2 0).
Definition count_answer (r : Status * Z) : Status * Answer := (r.1, mkAnswer rs_empty r.2).

Definition session_query (x : SessionEnv) (s : Statement) : M Status :=
  upd_ses (set_answer no_answer) ;;
  a <-- auditStatement x (sm_sql s) OpQuery;
  if negb (st_ok a) then ret a
  else
    ctx <-- routed;
    intercepted ctx out_rows
      (observed x false
         (r <-- lift (match sm_params s with
                      | None => send (sn_leaf x) (sn_conn x) s (env (driver_query (sn_conn x) s))
                      | Some _ => runPreparedQuery (sn_leaf x) (sn_conn x) s
                      end);
          ret (rows_answer r))).

Definition session_queryAll (x : SessionEnv) (s : Statement) : M Status :=
  upd_ses (set_answer no_answer) ;;
  a <-- auditStatement x (sm_sql s) OpQuery;
  if negb (st_ok a) then ret a
  else routed ;; observed x false (drive x (CallQueryAll s) s).

Definition session_call (x : SessionEnv) (s : Statement) : M Status :=
  upd_ses (set_answer no_answer) ;;
  a <-- auditStatement x (sm_sql s) OpExecute;
  if negb (st_ok a) then ret a
  else routed ;; observed x true (drive x (CallRoutine s) s).

Definition session_execute (x : SessionEnv) (s : Statement) : M Status :=
  a <-- auditStatement x (sm_sql s) OpExecute;
  if negb (st_ok a) then ret a
  else
    ctx <-- routed;
    intercepted ctx out_count
      (observed x true
         (r <-- lift (match sm_params s with
                      | None => send (sn_leaf x) (sn_conn x) s (env (driver_execute (sn_conn x) s))
                      | Some _ => runPreparedExec (sn_leaf x) (sn_conn x) s
                      end);
          ret (count_answer r))).

Definition session_executeBatch (x : SessionEnv) (s : Statement) : M Status :=
  a <-- auditStatement x (sm_sql s) OpBatch;
  if negb (st_ok a) then ret a
  else ctx <-- routed; intercepted ctx out_none (observed x true (drive x (CallBatch s) s)).

(** [execute] with generated keys. *)
Definition session_executeKeys (x : SessionEnv) (s : Statement) : M Status :=
  a <-- auditStatement x (sm_sql s) OpExecute;
  if negb (st_ok a) then ret a
  else ctx <-- routed; intercepted ctx out_count (observed x true (drive x (CallExecuteKeys s) s)).

Definition session_prepare (x : SessionEnv) (s : Statement) : M Status :=
  upd_ses (set_answer no_answer) ;;
  a <-- auditStatement x (sm_sql s) OpQuery;
  if negb (st_ok a) then ret a
  else
    ctx <-- routed;
    intercepted ctx out_none
      (r <-- lift (env (driver_call (sn_conn x) (CallPrepare s)));
       upd_ses (set_answer r.2) ;; ret r.1).

(** The statement behind a handle was audited when it was prepared. *)
Definition session_executePreparedQuery (x : SessionEnv) (h : Z) (s : Statement) : M Status :=
  ctx <-- routed; intercepted ctx out_rows (observed x false (drive x (CallPreparedQuery h s) s)).
Definition session_executePreparedExec (x : SessionEnv) (h : Z) (s : Statement) : M Status :=
  ctx <-- routed; intercepted ctx out_count (observed x true (drive x (CallPreparedExec h s) s)).

(** The cursor borrows the connection of the session; the answer's count says
    whether the driver made one. *)
Definition session_openCursor (x : SessionEnv) (s : Statement) : M Status :=
  a <-- auditStatement x (sm_sql s) OpSelect;
  if negb (st_ok a) then ret a
  else
    ctx <-- routed;
    intercepted ctx out_none
      (r <-- drive x (CallOpenCursor s) s;
       if negb (st_ok r.1) then ret r.1
       else if an_affected r.2 =? 0 then ret (status_error CursorError (lit "driver opened no cursor"))
       else ret StatusOK).

(** The statements whose parameters are streams. *)
Definition session_queryStream (x : SessionEnv) (s : Statement) : M Status :=
  upd_ses (set_answer no_answer) ;;
  a <-- auditStatement x (sm_sql s) OpQuery;
  if negb (st_ok a) then ret a
  else ctx <-- routed; intercepted ctx out_rows (observed x false (drive x (CallStreamQuery s) s)).
Definition session_executeStream (x : SessionEnv) (s : Statement) : M Status :=
  a <-- auditStatement x (sm_sql s) OpExecute;
  if negb (st_ok a) then ret a
  else ctx <-- routed; intercepted ctx out_count (observed x true (drive x (CallStreamExecute s) s)).
Definition session_batchStream (x : SessionEnv) (s : Statement) : M Status :=
  a <-- auditStatement x (sm_sql s) OpBatch;
  if negb (st_ok a) then ret a
  else ctx <-- routed; intercepted ctx out_none (observed x true (drive x (CallStreamBatch s) s)).

(** [queryEach]: the driver hands the rows one by one to the callback, each
    through the interceptors, until one of them is refused. *)
Fixpoint each_row (view : View) (rows : list Row) (callback : Row -> RowAnswer) (delivered : nat)
    : M (nat * option (option str)) :=
  match rows with
  | [] => ret (delivered, None)
  | row :: rest =>
      row <-- runOnRow registry session_enabled session_interceptors view row;
      match callback row with
      | Continue => each_row view rest callback (S delivered)
      | Stop => ret (S delivered, None)
      | Raised what => ret (S delivered, Some what)
      end
  end.

Definition callbackStatus (what : option str) : Status :=
  status_error QueryError
    match what with
    | Some w => lit "stream callback threw: " ++ w
    | None => lit "stream callback threw an unknown exception"
    end.

Definition session_queryEach (x : SessionEnv) (s : Statement) (callback : Row -> RowAnswer) : M Status :=
  a <-- auditStatement x (sm_sql s) OpStream;
  if negb (st_ok a) then ret a
  else
    ctx <-- routed;
    intercepted ctx out_none
      (observed x false
         (lift (trace (Sent (lf_name (sn_leaf x)) (sn_conn x) s)) ;;
          d <-- lift (env (driver_each (sn_conn x) s));
          r <-- each_row (mkView ctx StatusOK None 0) d.1 callback 0;
          let '(status, rows) := d.2 r.1 in
          ret (match r.2 with
               | Some what => if st_ok status then callbackStatus what else status
               | None => status
               end, mkAnswer rs_empty rows))).

(** ** Transaction control *)
Definition tx_control (x : SessionEnv) (c : TxCall) : M Status :=
  st <-- lift (env (tx_call (sn_conn x) c));
  upd_ses (add_call (c, st)) ;;
  (if st_connectionBroken st then invalidate_handle x else ret tt) ;;
  ret st.

Definition enter_transaction (s : Ses) : Ses :=
  set_open true (if se_txOpen s then s else set_txDepth (se_txDepth s + 1) s).
Definition leave_transaction (s : Ses) : Ses :=
  set_open false (if 0 <? se_txDepth s then set_txDepth (se_txDepth s - 1) s else s).

Definition session_begin (x : SessionEnv) (o : option TransactionOptions) : M Status :=
  st <-- tx_control x (DBegin o);
  (if st_ok st then upd_ses enter_transaction else ret tt) ;;
  ret st.

Definition close_transaction (x : SessionEnv) (c : TxCall) : M Status :=
  st <-- tx_control x c;
  upd_ses (fun s => if se_txOpen s then leave_transaction s else s) ;;
  ret st.
Definition session_commit (x : SessionEnv) : M Status := close_transaction x DCommit.
Definition session_rollback (x : SessionEnv) : M Status := close_transaction x DRollback.

(** The destructor: [cleanupOpenTransaction], then the handle goes back. *)
Definition cleanupOpenTransaction (x : SessionEnv) : M unit :=
  open <-- get_ses se_txOpen;
  if negb open then ret tt
  else
    st <-- lift (env (tx_call (sn_conn x) DRollback));
    upd_ses (add_call (DRollback, st)) ;;
    upd_ses leave_transaction ;;
    (if st_ok st then ret tt else invalidate_handle x).

Definition end_session (x : SessionEnv) : M unit :=
  cleanupOpenTransaction x ;;
  lift (trace (Released (sn_conn x))).

Definition run_op (x : SessionEnv) (o : SessionOp) : M Status :=
  match o with
  | SoQuery s => session_query x s
  | SoExecute s => session_execute x s
  | SoQueryAll s => session_queryAll x s
  | SoCall s => session_call x s
  | SoExecuteBatch s => session_executeBatch x s
  | SoExecuteKeys s => session_executeKeys x s
  | SoPrepare s => session_prepare x s
  | SoExecutePreparedQuery h s => session_executePreparedQuery x h s
  | SoExecutePreparedExec h s => session_executePreparedExec x h s
  | SoOpenCursor s => session_openCursor x s
  | SoStreamQuery s => session_queryStream x s
  | SoStreamExecute s => session_executeStream x s
  | SoStreamBatch s => session_batchStream x s
  | SoQueryEach s callback => session_queryEach x s callback
  | SoBegin o => session_begin x o
  | SoCommit => session_commit x
  | SoRollback => session_rollback x
  | SoSavepoint n => tx_control x (DSavepoint n)
  | SoReleaseSavepoint n => tx_control x (DReleaseSavepoint n)
  | SoRollbackToSavepoint n => tx_control x (DRollbackToSavepoint n)
  | SoCancel => tx_control x DCancel
  end.

Definition exceptionStatus (what : option str) : Status :=
  status_error TxError
    match what with
    | Some w => lit "exception in session: " ++ w
    | None => lit "unknown exception in session"
    end.

Fixpoint runGuarded (x : SessionEnv) (fn : SessionFn) : M Status :=
  match fn with
  | Return st => ret st
  | Throw what => ret (exceptionStatus what)
  | Call o k => st <-- run_op x o; a <-- get_ses se_answer; runGuarded x (k (st, a))
  end.

(** ** Entry points on a leaf *)
Definition sessionRateLimited (n : str) : Status := rateLimitedStatus n.

Definition gateSession (n : str) : M Status :=
  match limiter n with
  | None => ret StatusOK
  | Some (_, acquire) =>
      ok <-- lift (env (acquire 0));
      ret (if ok : bool then StatusOK else sessionRateLimited n)
  end.

Definition mark_if_wrote (lf : Leaf) : M unit :=
  wrote <-- get_ses se_didWrite;
  if wrote : bool then lift (leaf_markWrite lf) else ret tt.

(** Both entry points: the breaker, then a borrowed connection for [m]. *)
Definition in_borrowed (lf : Leaf) (m : connection -> M Status) : M Status :=
  upd_ses new_session ;;
  gate <-- lift (before_attempt lf);
  if negb (st_ok gate) then ret gate
  else
    b <-- lift (borrowSession lf);
    match b.2 with
    | None => lift (after_attempt lf b.1) ;; ret b.1
    | Some c => m c
    end.

(** [withSessionInternal]; [didWrite] is left in the session. *)
Definition session_on (lf : Leaf) (fn : SessionFn) (enforceReadOnly : bool) (c : connection)
    : M Status :=
  let x := mkSessionEnv lf c (mkAudit true enforceReadOnly) in
  st <-- runGuarded x fn;
  lift (after_attempt lf st) ;;
  mark_if_wrote lf ;;
  end_session x ;;
  ret st.

Definition leaf_withSession (lf : Leaf) (fn : SessionFn) (enforceReadOnly : bool) : M Status :=
  in_borrowed lf (session_on lf fn enforceReadOnly).

Definition dec_ms (ms : Z) : str := dec_Z ms.

Definition timeoutStatus (timeout : Z) (cancelDelivered : bool) : Status :=
  set_retryable true
    (status_error QueryTimeout
       (lit "transaction timed out after " ++ dec_ms timeout ++ lit "ms" ++
        if cancelDelivered then []
        else lit " (driver could not cancel the running statement; " ++
             lit "the callback had to run to completion)")).

(** The callback under the deadline: [deadline] as a time of the clock (ns). *)
Definition under_deadline (x : SessionEnv) (timeout : Z) (fn : SessionFn) : M Status :=
  if negb (0 <? timeout) then runGuarded x fn
  else
    started <-- lift clock;
    st <-- runGuarded x fn;
    now <-- lift clock;
    fired <-- lift (env (tx_watch (sn_conn x) timeout));
    match fired with
    | Some cancelled =>
        (if st_connectionBroken cancelled then invalidate_handle x else ret tt) ;;
        ret (timeoutStatus timeout (st_ok cancelled))
    | None => ret (if started + timeout * 1000000 <=? now then timeoutStatus timeout false else st)
    end.

(** After the callback: commit, or roll back. *)
Definition finish_transaction (lf : Leaf) (x : SessionEnv) (st : Status) : M Status :=
  lift (after_attempt lf st) ;;
  if negb (st_ok st) then
    rb <-- session_rollback x;
    (if negb (st_ok rb) then mark_if_wrote lf else ret tt) ;;
    ret st
  else
    open <-- get_ses se_txOpen;
    cm <-- (if open : bool then session_commit x else ret StatusOK);
    (if negb (st_ok cm) then lift (after_attempt lf cm) else ret tt) ;;
    mark_if_wrote lf ;;
    ret (if st_ok cm then StatusOK else cm).

(** [transactionInternal]; every return destroys the session. *)
Definition transaction_on (lf : Leaf) (o : TransactionOptions) (fn : SessionFn)
    (enforceReadOnly : bool) (c : connection) : M Status :=
  let x := mkSessionEnv lf c (mkAudit true (enforceReadOnly || to_readOnly o)) in
  begun <-- session_begin x (Some o);
  r <-- (if negb (st_ok begun) then lift (after_attempt lf begun) ;; ret begun
         else st <-- under_deadline x (to_timeout o) fn; finish_transaction lf x st);
  end_session x ;;
  ret r.

Definition leaf_transaction (lf : Leaf) (o : TransactionOptions) (fn : SessionFn)
    (enforceReadOnly : bool) : M Status :=
  in_borrowed lf (transaction_on lf o fn enforceReadOnly).

(** ** On any source: a group runs the session on its primary *)
Definition withSession (d : Source) (fn : SessionFn) : M Status :=
  gate <-- gateSession (source_name d);
  if negb (st_ok gate) then ret gate
  else
    match d with
    | LeafSource lf => leaf_withSession lf fn (lf_readOnly lf)
    | GroupSource g =>
        st <-- leaf_withSession (gp_primary g) fn (gp_readOnly g);
        wrote <-- get_ses se_didWrite;
        (if wrote : bool then lift (group_markWrite g) else ret tt) ;;
        ret st
    end.

Definition transaction (d : Source) (o : TransactionOptions) (fn : SessionFn) : M Status :=
  gate <-- gateSession (source_name d);
  if negb (st_ok gate) then ret gate
  else
    match d with
    | LeafSource lf => leaf_transaction lf o fn (lf_readOnly lf)
    | GroupSource g =>
        st <-- leaf_transaction (gp_primary g) o fn (gp_readOnly g);
        (if st_ok st && negb (to_readOnly o) then lift (group_markWrite g) else ret tt) ;;
        ret st
    end.

(** ** What a session does to its own state *)
Definition ses_of (s : W) : Ses := tx_ses s.2.
Definition after_control (c : TxCall) (st : Status) (s : Ses) : Ses :=
  let s1 := add_call (c, st) s in if st_connectionBroken st then set_invalid s1 else s1.
Definition after_begin (o : option TransactionOptions) (st : Status) (s : Ses) : Ses :=
  let s1 := after_control (DBegin o) st s in if st_ok st then enter_transaction s1 else s1.
Definition after_close (c : TxCall) (st : Status) (s : Ses) : Ses :=
  let s1 := after_control c st s in if se_txOpen s1 then leave_transaction s1 else s1.
Definition after_cleanup (st : Status) (s : Ses) : Ses :=
  let s1 := leave_transaction (add_call (DRollback, st) s) in if st_ok st then s1 else set_invalid s1.

Definition is_control (c : TxCall) : bool :=
  match c with DBegin _ | DCommit | DRollback => true | _ => false end.

(** An invariant of the statements of a session, and of everything it does. *)
Record statement_invariant (I : Ses -> Prop) : Prop := {
  iv_answer a s : I s -> I (set_answer a s);
  iv_wrote s : I s -> I (set_didWrite s);
  iv_invalid s : I s -> I (set_invalid s) }.

Record session_invariant (I : Ses -> Prop) : Prop := {
  iv_statement : statement_invariant I;
  iv_begin o st s : I s -> I (after_begin o st s);
  iv_close c st s : c = DCommit \/ c = DRollback -> I s -> I (after_close c st s);
  iv_other c st s : is_control c = false -> I s -> I (after_control c st s);
  iv_cleanup st s : se_txOpen s = true -> I s -> I (after_cleanup st s) }.

Abbreviation keeping_ses I := (keeps (fun s : W => I (ses_of s))).

Lemma lift_ses {A} (m : ST (Thread * @Ds E) A) : preserves ses_of (lift m).
Proof. intros s. unfold lift. by destruct (m _) as [a [t d]]. Qed.
Lemma lift_keeps I {A} (m : ST (Thread * @Ds E) A) : keeping_ses I (lift m).
Proof. apply preserves_keeps, lift_ses. Qed.
Lemma upd_ses_keeps (I : Ses -> Prop) f : (forall s, I s -> I (f s)) -> keeping_ses I (upd_ses f).
Proof. intros H s. apply H. Qed.
Lemma get_ses_keeps I {A} (f : Ses -> A) : keeping_ses I (get_ses f).
Proof. by intros s. Qed.

Lemma lifted_callbacks (P : W -> Prop) :
  (forall A (m : ST (Thread * @Ds E) A), keeps P (lift m)) ->
  forall r, Forall (keeping P) (session_interceptors r).
Proof.
  intros H r. apply Forall_map, Forall_true. intros i. by split; intros; apply H.
Qed.

Section Statements.
Context (I : Ses -> Prop) (inv : statement_invariant I).

Lemma routed_keeps : keeping_ses I routed.
Proof using inv.
  apply keeps_bind; [apply lift_keeps|]. intros ctx.
  apply keeps_route; [intros t t' r H; exact H|]. intros r. apply lifted_callbacks. intros. apply lift_keeps.
Qed.

Lemma intercepted_keeps ctx outs body : keeping_ses I body -> keeping_ses I (intercepted ctx outs body).
Proof using inv.
  intros Hb. apply keeps_run; [intros t t' r H; exact H| |].
  - intros r. apply lifted_callbacks. intros. apply lift_keeps.
  - apply keeps_bind; [done|]. intros st. apply keeps_bind; [apply get_ses_keeps | intros; apply keeps_ret].
Qed.

Lemma each_row_keeps view rows callback n : keeping_ses I (each_row view rows callback n).
Proof using inv.
  revert n. induction rows as [|row rows IH]; intros n; [apply keeps_ret|]. cbn [each_row].
  apply keeps_bind; [|intros r; destruct (callback r); [apply IH | apply keeps_ret..]].
  apply keeps_row; [intros t t' r H; exact H|]. intros r. apply lifted_callbacks. intros. apply lift_keeps.
Qed.

Lemma invalidate_keeps x : keeping_ses I (invalidate_handle x).
Proof using inv.
  apply keeps_bind; [apply upd_ses_keeps, inv | intros _; apply lift_keeps].
Qed.

Lemma observed_keeps x writes call : keeping_ses I call -> keeping_ses I (observed x writes call).
Proof using inv.
  intros Hc. apply keeps_bind; [done|]. intros r.
  apply keeps_bind; [apply upd_ses_keeps, inv|]. intros _.
  apply keeps_bind; [destruct (writes && st_ok r.1); [apply upd_ses_keeps, inv | apply keeps_ret]|].
  intros _. apply keeps_bind; [|intros _; apply keeps_ret].
  destruct (st_connectionBroken r.1); [apply invalidate_keeps | apply keeps_ret].
Qed.

Lemma audit_keeps x sql type : keeping_ses I (auditStatement x sql type).
Proof using. unfold auditStatement. destruct (negb _); [apply keeps_ret | apply lift_keeps]. Qed.
End Statements.

Ltac ses_step :=
  lazymatch goal with
  | |- keeps _ (bind _ _) => apply keeps_bind; [|intros ?]
  | |- keeps _ (ret _) => apply keeps_ret
  | |- keeps _ (lift _) => apply lift_keeps
  | |- keeps _ (drive _ _ _) => apply lift_keeps
  | |- keeps _ (get_ses _) => apply get_ses_keeps
  | |- keeps _ (upd_ses (set_answer _)) => apply upd_ses_keeps, iv_answer
  | |- keeps _ routed => apply routed_keeps
  | |- keeps _ (intercepted _ _ _) => apply intercepted_keeps
  | |- keeps _ (observed _ _ _) => apply observed_keeps
  | |- keeps _ (invalidate_handle _) => apply invalidate_keeps
  | |- keeps _ (auditStatement _ _ _) => apply audit_keeps
  | |- keeps _ (each_row _ _ _ _) => apply each_row_keeps
  | |- keeps _ (let '(_, _) := ?p in _) => destruct p
  | |- keeps _ (if ?b then _ else _) => destruct b
  end.
Ltac ses_auto := repeat (ses_step || assumption).

Definition plain_op (o : SessionOp) : bool :=
  match o with
  | SoBegin _ | SoCommit | SoRollback | SoSavepoint _ | SoReleaseSavepoint _
  | SoRollbackToSavepoint _ | SoCancel => false
  | _ => true
  end.

Lemma plain_op_keeps I x o :
  statement_invariant I -> plain_op o = true -> keeping_ses I (run_op x o).
Proof.
  intros H Ho. destruct o; try done; cbn [run_op];
    unfold session_query, session_queryAll, session_call, session_execute, session_executeBatch,
      session_executeKeys, session_prepare, session_executePreparedQuery,
      session_executePreparedExec, session_openCursor, session_queryStream, session_executeStream,
      session_batchStream, session_queryEach; ses_auto.
Qed.

(** *** Transaction control *)
Lemma control_result x c w :
  exists st, (tx_control x c w).1 = st /\ ses_of (tx_control x c w).2 = after_control c st (ses_of w).
Proof.
  unfold tx_control, bind. pose proof (lift_ses (env (tx_call (sn_conn x) c)) w) as L.
  destruct (lift (env (tx_call (sn_conn x) c)) w) as [st w1]. cbn [snd] in L. cbn [upd_ses modify].
  exists st. unfold after_control. destruct (st_connectionBroken st); [|by rewrite <- L].
  unfold invalidate_handle, bind. cbn [upd_ses modify].
  match goal with |- context [lift ?m ?s] => pose proof (lift_ses m s) as L2; destruct (lift m s) as [u w2] end.
  cbn [fst snd ret] in *. split; [done|]. rewrite L2. by rewrite <- L.
Qed.

Lemma begin_result x o w :
  exists st, (session_begin x o w).1 = st /\ ses_of (session_begin x o w).2 = after_begin o st (ses_of w).
Proof.
  unfold session_begin, bind, after_begin. destruct (control_result x (DBegin o) w) as (st & H1 & H2).
  destruct (tx_control x (DBegin o) w) as [st' w1]. cbn [fst snd] in *. subst st'. exists st.
  rewrite <- H2. by destruct (st_ok st).
Qed.

Lemma close_result x c w :
  exists st, (close_transaction x c w).1 = st /\ ses_of (close_transaction x c w).2 = after_close c st (ses_of w).
Proof.
  unfold close_transaction, bind, after_close. destruct (control_result x c w) as (st & H1 & H2).
  destruct (tx_control x c w) as [st' w1]. cbn [fst snd] in *. subst st'. exists st.
  cbn zeta. rewrite <- H2. done.
Qed.

Lemma cleanup_result x w :
  ses_of (cleanupOpenTransaction x w).2 =
    (if se_txOpen (ses_of w) then after_cleanup (tx_call (sn_conn x) DRollback (ds_env (tx_ds w.2))).1 (ses_of w)
     else ses_of w).
Proof.
  unfold cleanupOpenTransaction, bind. cbn [get_ses reads]. unfold ses_of at 2 4.
  destruct (se_txOpen (tx_ses w.2)); cbn [negb]; [|done].
  unfold lift at 1, env. cbn [fst snd]. destruct (tx_call _ _ _) as [st e]. cbn [upd_ses modify fst].
  unfold after_cleanup. destruct (st_ok st); [done|].
  unfold invalidate_handle, bind. cbn [upd_ses modify]. by rewrite lift_ses.
Qed.

Section Invariants.
Context (I : Ses -> Prop) (inv : session_invariant I).

Lemma control_keeps x c : is_control c = false -> keeping_ses I (tx_control x c).
Proof using inv.
  intros Hc w H. destruct (control_result x c w) as (st & _ & ->). by apply iv_other.
Qed.

Lemma run_op_keeps x o : keeping_ses I (run_op x o).
Proof using inv.
  destruct (plain_op o) eqn:Eo; [by apply plain_op_keeps; [apply inv|]|].
  destruct o; try done; cbn [run_op]; unfold session_commit, session_rollback;
    try by apply control_keeps.
  - intros w H. destruct (begin_result x o w) as (st & _ & ->). by apply iv_begin.
  - intros w H. destruct (close_result x DCommit w) as (st & _ & Er). cbn beta. rewrite Er.
    apply iv_close; [done | by left | done].
  - intros w H. destruct (close_result x DRollback w) as (st & _ & Er). cbn beta. rewrite Er.
    apply iv_close; [done | by right | done].
Qed.

Lemma runGuarded_keeps x fn : keeping_ses I (runGuarded x fn).
Proof using inv.
  induction fn as [st|what|o k IH]; cbn [runGuarded]; ses_auto; [apply run_op_keeps | apply IH].
Qed.

Lemma mark_keeps lf : keeping_ses I (mark_if_wrote lf).
Proof using. unfold mark_if_wrote. ses_auto. Qed.

Lemma under_deadline_keeps x t fn : keeping_ses I (under_deadline x t fn).
Proof using inv.
  unfold under_deadline. pose proof (runGuarded_keeps x fn) as H. ses_auto.
  destruct a2 as [c|]; ses_auto. apply inv.
Qed.

Lemma close_keeps x c : c = DCommit \/ c = DRollback -> keeping_ses I (close_transaction x c).
Proof using inv.
  intros Hc w H. destruct (close_result x c w) as (st & _ & Er). cbn beta. rewrite Er. by apply iv_close.
Qed.

Lemma finish_keeps lf x st : keeping_ses I (finish_transaction lf x st).
Proof using inv.
  unfold finish_transaction, session_commit, session_rollback.
  pose proof (mark_keeps lf) as Hm.
  pose proof (close_keeps x DCommit (or_introl eq_refl)) as Hc.
  pose proof (close_keeps x DRollback (or_intror eq_refl)) as Hr. ses_auto.
Qed.

(** What holds of a new session holds when the session has ended, and then no
    transaction is open. *)
Lemma end_session_keeps x w :
  I (ses_of w) -> I (ses_of (end_session x w).2) /\ se_txOpen (ses_of (end_session x w).2) = false.
Proof using inv.
  intros H. unfold end_session, bind. pose proof (cleanup_result x w) as C.
  destruct (cleanupOpenTransaction x w) as [u w1]. cbn [snd] in C. rewrite lift_ses, C.
  destruct (se_txOpen (ses_of w)) eqn:Eo; [|done]. split; [by apply iv_cleanup|].
  unfold after_cleanup. by destruct (st_ok _).
Qed.
End Invariants.

(** *** Whole sessions *)
Section Whole.
Context (I : Ses -> Prop) (inv : session_invariant I).

(** After the session: the invariant, and no open transaction. *)
Definition ended (w : W) : Prop := I (ses_of w) /\ se_txOpen (ses_of w) = false.

Lemma lift_ended {A} (m : ST (Thread * @Ds E) A) : keeps ended (lift m).
Proof using. intros w. unfold ended. by rewrite lift_ses. Qed.

Lemma end_session_ended x : hoare (fun w => I (ses_of w)) (end_session x) (fun _ => ended).
Proof using inv. intros w H. by apply end_session_keeps. Qed.

Lemma ended_I w : ended w -> I (ses_of w).
Proof using. by intros []. Qed.

Lemma in_borrowed_inv lf m w :
  (forall c, hoare (fun w => I (ses_of w)) (m c) (fun _ => ended)) ->
  I (new_session (ses_of w)) -> ended (in_borrowed lf m w).2.
Proof using.
  intros Hm H. unfold in_borrowed, bind at 1. cbn [upd_ses modify].
  apply (hoare_bind ended (fun _ => ended) (fun _ => ended)); [apply hoare_keeps, lift_ended | | done].
  intros gate. destruct (negb (st_ok gate)); [by apply hoare_ret|].
  apply (hoare_bind ended (fun _ => ended) (fun _ => ended)); [apply hoare_keeps, lift_ended|].
  intros [st [c|]]; cbn [fst snd].
  - eapply hoare_conseq; [apply Hm | apply ended_I | done].
  - apply hoare_keeps, keeps_bind; [apply lift_ended | intros _; apply keeps_ret].
Qed.

Lemma leaf_withSession_inv lf fn ro w :
  I (new_session (ses_of w)) -> ended (leaf_withSession lf fn ro w).2.
Proof using inv.
  apply in_borrowed_inv. intros c. unfold session_on.
  eapply hoare_bind; [apply hoare_keeps, (runGuarded_keeps I inv)|]. intros st.
  eapply hoare_bind; [apply hoare_keeps, (lift_keeps I)|]. intros ?.
  eapply hoare_bind; [apply hoare_keeps, (mark_keeps I)|]. intros ?.
  eapply hoare_bind; [apply end_session_ended|]. intros ?. by apply hoare_ret.
Qed.

Lemma leaf_transaction_inv lf o fn ro w :
  I (new_session (ses_of w)) -> ended (leaf_transaction lf o fn ro w).2.
Proof using inv.
  apply in_borrowed_inv. intros c. unfold transaction_on.
  eapply hoare_bind; [apply hoare_keeps, (run_op_keeps I inv _ (SoBegin (Some o)))|]. intros st.
  eapply (hoare_bind _ (fun _ w => I (ses_of w))).
  - apply (hoare_keeps (fun w => I (ses_of w))).
    pose proof (fun x => under_deadline_keeps I inv x (to_timeout o) fn).
    pose proof (fun x => finish_keeps I inv lf x). ses_auto; eauto.
  - intros r. eapply hoare_bind; [apply end_session_ended|]. intros ?. by apply hoare_ret.
Qed.
End Whole.

(** ** The thread's transaction depth *)
Definition depth_of (w : W) : Z := se_txDepth (ses_of w).
Definition depth_inv (d : Z) (s : Ses) : Prop := 0 <= d /\ se_txDepth s = d + Z.b2z (se_txOpen s).

Lemma depth_invariant d : session_invariant (depth_inv d).
Proof.
  split; [by split| | | |].
  - intros o st s [H1 H2]. unfold after_begin, after_control, enter_transaction, depth_inv.
    destruct (st_ok st), (st_connectionBroken st), s as [[] ? ? ? ? ?]; simpl in *; lia.
  - intros c st s _ [H1 H2]. unfold after_close, after_control, leave_transaction, depth_inv.
    destruct (st_connectionBroken st), s as [[] ? ? dd ? ?]; simpl in *;
      try (destruct (Z.ltb_spec 0 dd); simpl); lia.
  - intros c st s _ [H1 H2]. unfold after_control, depth_inv. by destruct (st_connectionBroken st).
  - intros st s Ho [H1 H2]. rewrite Ho in H2. simpl in H2.
    unfold after_cleanup, leave_transaction, depth_inv. cbn [se_txDepth add_call].
    assert ((0 <? se_txDepth s) = true) as -> by (apply Z.ltb_lt; lia).
    destruct (st_ok st); simpl; lia.
Qed.

Lemma ended_depth d w : ended (depth_inv d) w -> depth_of w = d.
Proof. intros [[_ H] Ho]. unfold depth_of. rewrite H, Ho. simpl. lia. Qed.

Lemma leaf_depth lf o fn ro w :
  0 <= depth_of w ->
  depth_of (leaf_transaction lf o fn ro w).2 = depth_of w /\
  depth_of (leaf_withSession lf fn ro w).2 = depth_of w.
Proof.
  intros H. assert (H0 : depth_inv (depth_of w) (new_session (ses_of w))) by (split; [done|simpl; unfold depth_of; lia]).
  split; apply ended_depth;
    [by apply leaf_transaction_inv; [apply depth_invariant|] | by apply leaf_withSession_inv; [apply depth_invariant|]].
Qed.

Lemma lift_depth {A} (m : ST (Thread * @Ds E) A) : preserves depth_of (lift m).
Proof. intros w. unfold depth_of. by rewrite lift_ses. Qed.
Lemma gate_depth n : preserves depth_of (gateSession n).
Proof.
  unfold gateSession. destruct (limiter n) as [[u acq]|]; [|done].
  apply preserves_bind; [apply lift_depth | done].
Qed.

(** C27: whatever the callback does - begin, commit, roll back, throw, leave the
    transaction open - a transaction or session restores the thread's
    transaction depth. *)
Theorem tx_depth_restored d o fn w :
  0 <= depth_of w ->
  depth_of (transaction d o fn w).2 = depth_of w /\ depth_of (withSession d fn w).2 = depth_of w.
Proof.
  intros H. unfold transaction, withSession, bind.
  pose proof (gate_depth (source_name d) w) as G. destruct (gateSession (source_name d) w) as [gate w1].
  cbn [snd] in G. rewrite <- G in *. destruct (negb (st_ok gate)); [done|].
  destruct d as [lf|g]; [by apply leaf_depth|].
  destruct (leaf_depth (gp_primary g) o fn (gp_readOnly g) w1 H) as [L1 L2].
  destruct (leaf_transaction _ _ _ _ w1) as [st w2], (leaf_withSession _ _ _ w1) as [st' w3].
  cbn [fst snd get_ses reads] in *. rewrite <- L1 at 1.
  split.
  - destruct (st_ok st && negb (to_readOnly o)); [|done].
    pose proof (lift_depth (group_markWrite g) w2) as K. destruct (lift (group_markWrite g) w2). cbn [ret snd] in *. congruence.
  - destruct (se_didWrite (tx_ses w3.2)); [|done].
    pose proof (lift_depth (group_markWrite g) w3) as K. destruct (lift (group_markWrite g) w3). cbn [ret snd] in *. congruence.
Qed.

(** ** The connection that goes back to the pool *)

(** Whether the server has a transaction open, judged by the answers. *)
Definition server_step (open : bool) (c : TxCall * Status) : bool :=
  match c.1 with
  | DBegin _ => open || st_ok c.2
  | DCommit | DRollback => open && negb (st_ok c.2)
  | _ => open
  end.
Definition server_open (calls : list (TxCall * Status)) : bool := fold_left server_step calls false.

(** A commit or rollback that failed on a connection reported as healthy. *)
Definition failed_close (c : TxCall * Status) : bool :=
  match c.1 with
  | DCommit | DRollback => negb (st_ok c.2) && negb (st_connectionBroken c.2)
  | _ => false
  end.

Definition returned_clean (s : Ses) : Prop :=
  se_invalid s = true \/ existsb failed_close (se_calls s) = true \/
  server_open (se_calls s) = se_txOpen s.

Lemma server_open_snoc l c : server_open (l ++ [c]) = server_step (server_open l) c.
Proof. unfold server_open. by rewrite fold_left_app. Qed.

Lemma clean_invariant : session_invariant returned_clean.
Proof.
  split; [split; [done|done|by left]| | | |]; unfold returned_clean.
  - intros o st s H. unfold after_begin, after_control, enter_transaction.
    assert (V : server_open (se_calls s ++ [(DBegin o, st)]) = server_open (se_calls s) || st_ok st)
      by apply server_open_snoc.
    assert (K : existsb failed_close (se_calls s ++ [(DBegin o, st)]) = existsb failed_close (se_calls s))
      by (rewrite existsb_app; simpl; by rewrite orb_false_r).
    destruct (st_connectionBroken st).
    { left. by destruct (st_ok st), s as [[] ? ? ? ? ?]. }
    destruct (st_ok st), s as [[] wr inv dd an cs]; simpl in *; rewrite V, K; rewrite ?orb_true_r, ?orb_false_r;
      destruct H as [H|[H|H]]; first [by left | by right; left | right; right; by rewrite ?H, ?orb_true_r].
  - intros c st s Hc H. unfold after_close, after_control, leave_transaction.
    destruct (st_connectionBroken st) eqn:Eb.
    { left. simpl. by destruct (se_txOpen s); simpl; [destruct (0 <? se_txDepth s)|]. }
    assert (K : existsb failed_close (se_calls s ++ [(c, st)]) = true \/
                existsb failed_close (se_calls s) = false /\ st_ok st = true).
    { rewrite existsb_app. destruct (existsb failed_close (se_calls s)); [by left|].
      destruct Hc as [-> | ->]; simpl; unfold failed_close; simpl; rewrite Eb; destruct (st_ok st); auto. }
    assert (V : server_open (se_calls s ++ [(c, st)]) = server_open (se_calls s) && negb (st_ok st)).
    { rewrite server_open_snoc. by destruct Hc as [-> | ->]. }
    destruct s as [[] wr inv dd an cs]; simpl in *;
      [destruct (0 <? dd); simpl|]; (destruct K as [K|[K1 K2]]; [by right; left|]);
      (destruct H as [H|[H|H]]; [by left | congruence | right; right; rewrite V, K2; simpl; by rewrite andb_false_r]).
  - intros c st s Hc H. unfold after_control.
    assert (V : server_open (se_calls s ++ [(c, st)]) = server_open (se_calls s))
      by (rewrite server_open_snoc; by destruct c).
    assert (K : existsb failed_close (se_calls s ++ [(c, st)]) = existsb failed_close (se_calls s)).
    { rewrite existsb_app. simpl. unfold failed_close at 2. by destruct c; simpl in *; rewrite ?orb_false_r. }
    destruct (st_connectionBroken st); simpl; rewrite V, K; [by left | done].
  - intros st s Ho H. unfold after_cleanup, leave_transaction. destruct (st_ok st) eqn:Eo; [|by left].
    assert (V : server_open (se_calls s ++ [(DRollback, st)]) = false).
    { rewrite server_open_snoc. unfold server_step. simpl. by rewrite Eo, andb_false_r. }
    destruct H as [H|[H|H]].
    + left. by destruct (0 <? se_txDepth _).
    + right; left. destruct (0 <? se_txDepth _); simpl; by rewrite existsb_app, H.
    + right; right. destruct (0 <? se_txDepth _); simpl; by rewrite V.
Qed.

(** C7: a connection goes back to the pool for reuse only without an open server
    transaction, whatever the callback did - unless a commit or a rollback
    failed while the driver still reported the connection as healthy. *)
Theorem connection_returned_clean lf o fn ro w :
  let s := ses_of (leaf_transaction lf o fn ro w).2 in
  se_txOpen s = false /\
  (se_invalid s = true \/ existsb failed_close (se_calls s) = true \/ server_open (se_calls s) = false).
Proof.
  cbn zeta. destruct (leaf_transaction_inv returned_clean clean_invariant lf o fn ro w) as [H Ho];
    [by right; right|]. split; [done|]. unfold returned_clean in H. by rewrite Ho in H.
Qed.

(** ** What became of a transaction *)

(** Callbacks that leave transaction control to the library, and the statuses a
    callback may end with. *)
Inductive plain : SessionFn -> Prop :=
  | plain_return st : plain (Return st)
  | plain_throw what : plain (Throw what)
  | plain_call o k : plain_op o = true -> (forall a, plain (k a)) -> plain (Call o k).

Inductive yields : SessionFn -> Status -> Prop :=
  | yields_return st : yields (Return st) st
  | yields_throw what : yields (Throw what) (exceptionStatus what)
  | yields_call o k a st : yields (k a) st -> yields (Call o k) st.

Lemma runGuarded_yields x fn w : yields fn (runGuarded x fn w).1.
Proof.
  revert w. induction fn as [st|what|o k IH]; intros w; [constructor|constructor|].
  cbn [runGuarded]. unfold bind. destruct (run_op x o w) as [st w1]. cbn [get_ses reads].
  econstructor. apply IH.
Qed.

Lemma under_deadline_yields x t fn w :
  let r := (under_deadline x t fn w).1 in yields fn r \/ st_ok r = false.
Proof.
  unfold under_deadline. destruct (negb (0 <? t)); [left; apply runGuarded_yields|]. unfold bind.
  destruct (lift clock w) as [t0 w1]. pose proof (runGuarded_yields x fn w1) as Y.
  destruct (runGuarded x fn w1) as [st w2]. destruct (lift clock w2) as [now w3].
  destruct (lift (env (tx_watch (sn_conn x) t)) w3) as [[c|] w4].
  - right. by destruct (st_connectionBroken c), (st_ok c).
  - cbn [ret fst]. destruct (_ <=? now); [by right | by left].
Qed.

Definition frozen (open : bool) (cs : list (TxCall * Status)) (s : Ses) : Prop :=
  se_txOpen s = open /\ se_calls s = cs.

Lemma frozen_statement open cs : statement_invariant (frozen open cs).
Proof. by split. Qed.

Lemma runGuarded_frozen open cs x fn : plain fn -> keeping_ses (frozen open cs) (runGuarded x fn).
Proof.
  induction 1 as [st|what|o k Ho Hk IH]; cbn [runGuarded]; ses_auto.
  - apply plain_op_keeps; [apply frozen_statement | done].
  - apply IH.
Qed.

Lemma under_deadline_frozen open cs x t fn :
  plain fn -> keeping_ses (frozen open cs) (under_deadline x t fn).
Proof.
  intros Hp. pose proof (runGuarded_frozen open cs x fn Hp) as H. unfold under_deadline. ses_auto.
  destruct a2; ses_auto. apply frozen_statement.
Qed.

Lemma close_frozen x c cs w :
  frozen true cs (ses_of w) ->
  let r := close_transaction x c w in frozen false (cs ++ [(c, r.1)]) (ses_of r.2).
Proof.
  intros [H1 H2]. cbn zeta. destruct (close_result x c w) as (st & -> & Es). rewrite Es.
  unfold after_close, after_control, leave_transaction, frozen. rewrite <- H2.
  destruct (st_connectionBroken st), (ses_of w) as [op ? ? dd ? ?]; simpl in *; subst op; simpl;
    by destruct (0 <? dd).
Qed.

Lemma finish_frozen lf x st cs w :
  frozen true cs (ses_of w) ->
  let r := finish_transaction lf x st w in
  (st_ok st = false /\ r.1 = st /\ exists rb, frozen false (cs ++ [(DRollback, rb)]) (ses_of r.2)) \/
  (st_ok st = true /\ exists cm, frozen false (cs ++ [(DCommit, cm)]) (ses_of r.2) /\
     r.1 = if st_ok cm then StatusOK else cm).
Proof.
  intros H. unfold finish_transaction, bind. pose proof (lift_ses (after_attempt lf st) w) as L.
  destruct (lift (after_attempt lf st) w) as [u w1]. cbn [snd] in L. rewrite <- L in H.
  destruct (st_ok st); cbn [negb]; [right|left]; (split; [done|]).
  - cbn [get_ses reads]. destruct H as [Ho Hc]. unfold ses_of in Ho. rewrite Ho.
    pose proof (close_frozen x DCommit cs w1 (conj Ho Hc)) as C. unfold session_commit.
    destruct (close_transaction x DCommit w1) as [cm w2]. cbn [fst snd] in C. exists cm.
    pose proof (lift_keeps (frozen false (cs ++ [(DCommit, cm)])) (after_attempt lf cm)) as K.
    pose proof (mark_keeps (frozen false (cs ++ [(DCommit, cm)])) lf) as Km.
    assert (C' : frozen false (cs ++ [(DCommit, cm)])
                   (ses_of ((if negb (st_ok cm) then lift (after_attempt lf cm) else ret tt) w2).2))
      by (destruct (negb (st_ok cm)); [by apply K | done]).
    match type of C' with frozen _ _ (ses_of (?m).2) => destruct m as [u3 w3] end.
    specialize (Km w3 C').
    destruct (mark_if_wrote lf w3) as [u4 w4]. by split.
  - pose proof (close_frozen x DRollback cs w1 H) as C. unfold session_rollback.
    destruct (close_transaction x DRollback w1) as [rb w2]. cbn [fst snd] in C.
    pose proof (mark_keeps (frozen false (cs ++ [(DRollback, rb)])) lf w2 C) as Km.
    destruct (negb (st_ok rb)).
    + destruct (mark_if_wrote lf w2) as [u3 w3]. split; [done | by exists rb].
    + split; [done | by exists rb].
Qed.

Inductive outcome (o : TransactionOptions) : list (TxCall * Status) -> Status -> Prop :=
  | not_started r : st_ok r = false -> outcome o [] r
  | not_begun r : st_ok r = false -> outcome o [(DBegin (Some o), r)] r
  | rolled_back b rb r : st_ok b = true -> st_ok r = false ->
      outcome o [(DBegin (Some o), b); (DRollback, rb)] r
  | commit_failed b r : st_ok b = true -> st_ok r = false ->
      outcome o [(DBegin (Some o), b); (DCommit, r)] r
  | committed b c : st_ok b = true -> st_ok c = true ->
      outcome o [(DBegin (Some o), b); (DCommit, c)] StatusOK.

Lemma end_session_frozen x cs w : frozen false cs (ses_of w) -> frozen false cs (ses_of (end_session x w).2).
Proof.
  intros H. unfold end_session, bind. pose proof (cleanup_result x w) as C.
  destruct (cleanupOpenTransaction x w) as [u w1]. cbn [snd] in C. rewrite lift_ses, C.
  by rewrite (proj1 H).
Qed.

Lemma transaction_on_outcome lf o fn ro c w :
  plain fn -> frozen false [] (ses_of w) ->
  let r := transaction_on lf o fn ro c w in
  outcome o (se_calls (ses_of r.2)) r.1 /\
  (st_ok r.1 = true -> exists st, yields fn st /\ st_ok st = true).
Proof.
  intros Hp [Ho Hc]. unfold transaction_on. set (x := mkSessionEnv _ _ _). cbn zeta. unfold bind.
  destruct (begin_result x (Some o) w) as (b & Eb & Es).
  destruct (session_begin x (Some o) w) as [b' w1]. cbn [fst snd] in *. subst b'.
  assert (F : frozen (st_ok b) [(DBegin (Some o), b)] (ses_of w1)).
  { rewrite Es. unfold after_begin, after_control, enter_transaction, frozen.
    destruct (ses_of w) as [op ? ? ? ? cs]. simpl in *. subst.
    by destruct (st_connectionBroken b), (st_ok b). }
  destruct (st_ok b) eqn:Eo; cbn [negb].
  - pose proof (under_deadline_frozen true [(DBegin (Some o), b)] x (to_timeout o) fn Hp w1 F) as F2.
    pose proof (under_deadline_yields x (to_timeout o) fn w1) as Y.
    destruct (under_deadline x (to_timeout o) fn w1) as [st w2]. cbn [fst snd] in *.
    pose proof (finish_frozen lf x st _ w2 F2) as Fin.
    destruct (finish_transaction lf x st w2) as [r w3]. cbn [fst snd] in *.
    destruct Fin as [(Es' & -> & rb & F3)|(Es' & cm & F3 & ->)];
      pose proof (end_session_frozen x _ w3 F3) as [_ F4];
      destruct (end_session x w3) as [u w4]; cbn [fst snd ret] in *; rewrite F4.
    + split; [by constructor | congruence].
    + split; [destruct (st_ok cm) eqn:Ec; by constructor|]. intros _.
      destruct Y as [Y|Y]; [by exists st | congruence].
  - pose proof (lift_ses (after_attempt lf b) w1) as L. destruct (lift (after_attempt lf b) w1) as [u w2].
    cbn [fst snd ret] in *. rewrite <- L in F. pose proof (end_session_frozen x _ w2 F) as [_ F4].
    destruct (end_session x w2) as [u3 w3]. cbn [fst snd ret] in *. rewrite F4.
    split; [by constructor | congruence].
Qed.

(** What [ConnectionPool::borrow] promises: a failure has a code of its own. *)
Definition pool_codes_ok : Prop :=
  forall n e code err, (pool_borrow n e).1 = BorrowFailed code err -> code <> Ok.

Lemma borrow_none_fails lf w :
  pool_codes_ok -> (lift (borrowSession lf) w).1.2 = None -> st_ok (lift (borrowSession lf) w).1.1 = false.
Proof.
  intros Hp. unfold lift, borrowSession, bind, env. cbn [fst snd].
  specialize (Hp (lf_name lf) (ds_env (tx_ds w.2))).
  destruct (pool_borrow _ _) as [[|code err|c] e]; cbn [fst snd ret] in *; try done.
  intros _. specialize (Hp code err eq_refl).
  destruct (code_eqb code ConnectionFailed); unfold st_ok, code_eqb; by apply bool_decide_eq_false.
Qed.

(** C3: with a callback that leaves transaction control to the library (no begin,
    commit, rollback, savepoint or cancel of its own), and a pool whose refusals carry
    an error code, a transaction sends nothing, a failed begin, begin and rollback, or
    begin and commit; it reports success exactly when that commit succeeded, and then
    the callback itself ended with success. *)
Theorem transaction_outcome lf o fn ro w :
  plain fn -> pool_codes_ok ->
  let r := leaf_transaction lf o fn ro w in
  outcome o (se_calls (ses_of r.2)) r.1 /\
  (st_ok r.1 = true -> exists st, yields fn st /\ st_ok st = true).
Proof.
  intros Hp Hc. unfold leaf_transaction, in_borrowed. cbn zeta. unfold bind. cbn [upd_ses modify].
  set (w0 := (w.1, mkTx (tx_ds w.2) (new_session (tx_ses w.2)))).
  assert (F : frozen false [] (ses_of w0)) by done.
  assert (R : forall r w', frozen false [] (ses_of w') -> st_ok r = false ->
    outcome o (se_calls (ses_of w')) r /\ (st_ok r = true -> exists st, yields fn st /\ st_ok st = true)).
  { intros r w' [_ ->] Hr. split; [by constructor | congruence]. }
  pose proof (lift_ses (before_attempt lf) w0) as L.
  destruct (lift (before_attempt lf) w0) as [gate w1]. cbn [fst snd] in *. rewrite <- L in F.
  destruct (st_ok gate) eqn:Eg; cbn [negb]; [|by apply R].
  pose proof (lift_ses (borrowSession lf) w1) as L2.
  pose proof (borrow_none_fails lf w1 Hc) as B.
  destruct (lift (borrowSession lf) w1) as [[st [c|]] w2]; cbn [fst snd] in *; rewrite <- L2 in F.
  - by apply transaction_on_outcome.
  - specialize (B eq_refl). pose proof (lift_ses (after_attempt lf st) w2) as L3.
    destruct (lift (after_attempt lf st) w2) as [u w3]. cbn [fst snd ret] in *. apply R; [|done].
    by rewrite L3.
Qed.

(** ** Every admitted session reports to the breaker *)
Definition reported (lf : Leaf) (w : W) : Prop :=
  br_halfOpenInFlight (breaker_of (lf_name lf) (tx_ds w.2)) = false.
Definition breakers_tx (w : W) : gmap str Breaker := ds_breakers (tx_ds w.2).

Lemma preserves_lift {A B : Type} (f : gmap str Breaker -> B) (m : ST (Thread * @Ds E) A) :
  preserves breakers_of m -> preserves (fun w => f (breakers_tx w)) (lift m).
Proof.
  intros H w. unfold lift, breakers_tx. specialize (H (w.1, tx_ds w.2)). unfold breakers_of in H.
  destruct (m _) as [a [t d]]. cbn [fst snd tx_ds] in *. by rewrite H.
Qed.

Section Reporting.
Context (lf : Leaf) (enabled : disabled (lf_circuitBreaker lf) = false).

Abbreviation reporting m := (keeps (reported lf) m).

Lemma lift_reporting {A} (m : ST (Thread * @Ds E) A) : preserves breakers_of m -> reporting (lift m).
Proof using.
  intros H w. unfold reported, breaker_of. pose proof (preserves_lift id m H w) as L.
  unfold id, breakers_tx in L. by rewrite L.
Qed.

Lemma after_attempt_reports st : hoare (fun _ => True) (lift (after_attempt lf st)) (fun _ => reported lf).
Proof using enabled.
  intros w _. unfold lift, after_attempt, bind. rewrite enabled.
  destruct (clock (w.1, tx_ds w.2)) as [now [t d]]. cbn. unfold reported, breaker_of. cbn.
  rewrite lookup_insert_eq. cbn. unfold afterAttempt. rewrite enabled.
  destruct (st_ok st); [done|]. by destruct (negb (st_retryable st) && _).
Qed.

Lemma trace_reporting t : reporting (lift (trace t)).
Proof using. by apply lift_reporting. Qed.
Lemma invalidate_reporting x : reporting (invalidate_handle x).
Proof using. apply keeps_bind; [by intros w | intros _; apply trace_reporting]. Qed.
Lemma env_reporting {A} (f : E -> A * E) : reporting (lift (env f)).
Proof using. apply lift_reporting. intros w. unfold env. by destruct (f _). Qed.
Lemma mark_reporting : reporting (mark_if_wrote lf).
Proof using.
  apply keeps_bind; [by intros w|]. intros []; [|apply keeps_ret].
  apply lift_reporting. by intros w.
Qed.

Lemma close_reporting x c : reporting (close_transaction x c).
Proof using.
  unfold close_transaction, tx_control.
  apply keeps_bind; [|intros st; apply keeps_bind; [by intros w | intros _; apply keeps_ret]].
  apply keeps_bind; [apply env_reporting|]. intros st. apply keeps_bind; [by intros w|]. intros _.
  apply keeps_bind; [|intros _; apply keeps_ret].
  destruct (st_connectionBroken st); [apply invalidate_reporting | apply keeps_ret].
Qed.

Lemma end_reporting x : reporting (end_session x).
Proof using.
  apply keeps_bind; [|intros _; apply trace_reporting].
  apply keeps_bind; [by intros w|]. intros open. destruct (negb open); [apply keeps_ret|].
  apply keeps_bind; [apply env_reporting|]. intros st. apply keeps_bind; [by intros w|]. intros _.
  apply keeps_bind; [by intros w|]. intros _.
  destruct (st_ok st); [apply keeps_ret | apply invalidate_reporting].
Qed.

Lemma finish_reports x st : hoare (fun _ => True) (finish_transaction lf x st) (fun _ => reported lf).
Proof using enabled.
  eapply hoare_bind; [apply after_attempt_reports|]. intros ?. apply hoare_keeps.
  destruct (negb (st_ok st)).
  - apply keeps_bind; [apply close_reporting|]. intros rb.
    apply keeps_bind; [destruct (negb (st_ok rb)); [apply mark_reporting | apply keeps_ret] | intros; apply keeps_ret].
  - apply keeps_bind; [by intros w|]. intros open.
    apply keeps_bind; [destruct open; [apply close_reporting | apply keeps_ret]|]. intros cm.
    apply keeps_bind.
    + destruct (negb (st_ok cm)); [|apply keeps_ret]. intros w _. by apply after_attempt_reports.
    + intros ?. apply keeps_bind; [apply mark_reporting | intros; apply keeps_ret].
Qed.

Lemma hoare_any {A} (m : M A) : hoare (fun _ => True) m (fun _ _ => True).
Proof using. done. Qed.

Lemma transaction_on_reports o fn ro c :
  hoare (fun _ => True) (transaction_on lf o fn ro c) (fun _ => reported lf).
Proof using enabled.
  eapply hoare_bind; [apply hoare_any|]. intros b.
  eapply (hoare_bind _ (fun _ => reported lf)).
  - destruct (negb (st_ok b)).
    + eapply hoare_bind; [apply after_attempt_reports | intros ?; by apply hoare_ret].
    + eapply hoare_bind; [apply hoare_any | intros st; apply finish_reports].
  - intros r. apply hoare_keeps, keeps_bind; [apply end_reporting | intros; apply keeps_ret].
Qed.

Lemma session_on_reports fn ro c :
  hoare (fun _ => True) (session_on lf fn ro c) (fun _ => reported lf).
Proof using enabled.
  eapply hoare_bind; [apply hoare_any|]. intros st.
  eapply hoare_bind; [apply after_attempt_reports|]. intros ?. apply hoare_keeps.
  apply keeps_bind; [apply mark_reporting|]. intros ?.
  apply keeps_bind; [apply end_reporting | intros; apply keeps_ret].
Qed.

Lemma in_borrowed_reports m w :
  (forall c, hoare (fun _ => True) (m c) (fun _ => reported lf)) ->
  st_ok (before_attempt lf (w.1, tx_ds w.2)).1 = true -> reported lf (in_borrowed lf m w).2.
Proof using enabled.
  intros Hm Ha. unfold in_borrowed, bind at 1. cbn [upd_ses modify].
  apply (hoare_bind (fun s => st_ok (before_attempt lf (s.1, tx_ds s.2)).1 = true)
           (fun gate _ => st_ok gate = true) (fun _ => reported lf)); [| |exact Ha].
  - intros s. unfold lift. cbn beta. by destruct (before_attempt lf (s.1, tx_ds s.2)) as [g [t d]].
  - intros gate s Hg. rewrite Hg. cbn [negb]. revert s Hg.
    change (hoare (fun _ : W => st_ok gate = true)
      (b <-- lift (borrowSession lf);
       match b.2 with None => lift (after_attempt lf b.1) ;; ret b.1 | Some c => m c end)
      (fun _ => reported lf)).
    eapply hoare_bind; [apply (hoare_conseq (fun _ => True) _ (fun _ _ => True) (fun _ _ => True)); done|].
    intros [st [c|]]; cbn [fst snd]; [apply Hm|].
    eapply hoare_bind; [apply after_attempt_reports | intros ?; by apply hoare_ret].
Qed.
End Reporting.

(** an admitted transaction or session always reports to the circuit
    breaker: when it ends, on whatever path, no half-open probe is outstanding
    on the data source. *)
Theorem sessions_report_the_probe lf o fn ro w :
  disabled (lf_circuitBreaker lf) = false ->
  st_ok (before_attempt lf (w.1, tx_ds w.2)).1 = true ->
  reported lf (leaf_transaction lf o fn ro w).2 /\ reported lf (leaf_withSession lf fn ro w).2.
Proof.
  intros Hd Ha. split; apply in_borrowed_reports; [done| |done|done| |done].
  - intros c. by apply transaction_on_reports.
  - intros c. by apply session_on_reports.
Qed.
End Sessions.

Arguments mkTx {E}.

(** ** Concrete sessions

    On the environment of the data sources; the driver accepts everything but
    the calls for which [fails] has an answer. *)
#[local] Existing Instance demo_env.

Definition demo_driver (fails : TxCall -> option Status) : SessionDriver nat := {|
  tx_call _ c e := (default StatusOK (fails c), S e);
  driver_call _ _ e := ((StatusOK, mkAnswer rs_empty 1), S e);
  driver_each _ _ e := (([], fun n => (StatusOK, Z.of_nat n)), S e);
  tx_watch _ _ e := (None, e) |}.
Definition accepting : SessionDriver nat := demo_driver (fun _ => None).
Definition no_rollback : Status := status_error QueryError (lit "lock wait").
Definition stuck_rollback : SessionDriver nat :=
  demo_driver (fun c => match c with DRollback => Some no_rollback | _ => None end).

Definition idle_session : Ses := mkSes false false false 0 no_answer [].
Definition demo_rows : ResultSet := mkResultSet [lit "a"] [[(lit "a", VInt64 1)]] false.

(** A thread outside every session, with a cached read of the source [p]. *)
Definition demo_tx (breakers : gmap str Breaker) : Thread * Tx :=
  (mkThread [] [] [],
   mkTx (mkDs breakers
           (cache_put 32 64 90 (lit "p") (lit "k") demo_rows
              (cache_configure put_get_config cache_init))
           auditor_init ∅ ∅ ∅ 0 [] 100%nat) idle_session).

Definition app_error : Status := status_error QueryError (lit "application").
Definition write_then (st : Status) : SessionFn := Call (SoExecute demo_write) (fun _ => Return st).

Abbreviation demo_run driver fn breakers :=
  (leaf_transaction (SessionDriver0 := driver) 0 (fun _ => false) (fun _ => [])
     (demo_leaf "p" 3) default_options fn false (demo_tx breakers)).

Lemma tx_depth_restored_witness :
  depth_of (transaction (SessionDriver0 := accepting) 0 (fun _ => false) (fun _ => [])
     (GroupSource (demo_group [])) default_options
     (Call (SoBegin None) (fun _ => Throw None)) (demo_tx ∅)).2 = 0.
Proof.
  destruct (tx_depth_restored (SessionDriver0 := accepting) 0 (fun _ => false) (fun _ => [])
              (GroupSource (demo_group [])) default_options
              (Call (SoBegin None) (fun _ => Throw None)) (demo_tx ∅)) as [H _]; [done|].
  etransitivity; [exact H | reflexivity].
Defined.

Lemma transaction_outcome_witness :
  outcome default_options
    (se_calls (ses_of (demo_run accepting (write_then StatusOK) ∅).2))
    (demo_run accepting (write_then StatusOK) ∅).1.
Proof.
  apply (transaction_outcome (SessionDriver0 := accepting) 0 (fun _ => false) (fun _ => [])
           (demo_leaf "p" 3) default_options (write_then StatusOK) false (demo_tx ∅)).
  - constructor; [done|]. intros a. constructor.
  - intros n e code err. unfold pool_borrow, demo_env. destruct (str_eqb n (lit "down")); cbn [fst]; congruence.
Defined.

Lemma sessions_report_the_probe_witness :
  reported (demo_leaf "p" 3)
    (demo_run accepting (write_then app_error) {[ lit "p" := mkBreaker 3 false 50 ]}).2.
Proof.
  destruct (sessions_report_the_probe (SessionDriver0 := accepting) 0 (fun _ => false) (fun _ => [])
              (demo_leaf "p" 3) default_options (write_then app_error) false
              (demo_tx {[ lit "p" := mkBreaker 3 false 50 ]})) as [H _]; [done | by vm_compute | exact H].
Defined.

(** a rollback that fails on a connection the driver still calls healthy
    gives the connection back for reuse with the transaction open on the server;
    the destructor of a session would have invalidated it. *)
Theorem failed_rollback_returns_open_connection :
  let w := (demo_run stuck_rollback (write_then app_error) ∅).2 in
  se_invalid (ses_of w) = false /\ server_open (se_calls (ses_of w)) = true /\
  last (ds_trace (tx_ds w.2)) = Some (Released 7).
Proof. by vm_compute. Qed.

(** a callback may end its transaction itself, and nothing more is committed then:
    one that rolls back and ends with success is reported as a success. *)
Theorem callback_ends_its_transaction :
  let r := demo_run accepting (Call SoRollback (fun _ => Return StatusOK)) ∅ in
  se_calls (ses_of r.2) = [(DBegin (Some default_options), StatusOK); (DRollback, StatusOK)] /\
  st_ok r.1 = true.
Proof. by vm_compute. Qed.

(** a callback that writes, commits and then fails leaves its committed
    write unmarked: the rollback that follows succeeds, so the cached read of
    the same source is still served. *)
Theorem committed_write_is_not_marked :
  let fn := Call (SoExecute demo_write) (fun _ => Call SoCommit (fun _ => Return app_error)) in
  let w := (demo_run accepting fn ∅).2 in
  se_didWrite (ses_of w) = true /\
  se_calls (ses_of w) = [(DBegin (Some default_options), StatusOK); (DCommit, StatusOK); (DRollback, StatusOK)] /\
  (cache_get 100 (lit "p") (lit "k") (ds_cache (tx_ds w.2))).1 = Some demo_rows.
Proof. by vm_compute. Qed.
