(* ===== verification/Statements.v ===== *)
(** * The other statements of a data source (src/core/database_manager.cpp)

    Multiple result sets, routines, generated keys, streams, batches, streamed
    queries and cursors: the entry points and their retry, routing and failover,
    built from the parts of DataSource.v and the sessions of Transaction.v. *)
From stdpp Require Import base gmap list strings.
From Stdlib Require Import Ascii ZArith Lia.
From S2P Require Import Prelude Types Config CacheKey QueryCache SqlAnalyze SqlAuditor.
From S2P Require Import Context Interceptor WriteBuffer Breaker DataSource Transaction.

Open Scope Z_scope.

Section Statements.
Context {E : Type} `{!Environment E} `{!SessionDriver E}.
Context (registry : nat) (interceptors_enabled : @Ds E -> bool)
        (interceptors : @Ds E -> list (@ISqlInterceptor (@Ds E))).

Abbreviation D := (ST (Thread * @Ds E)).
Abbreviation M := (ST (Thread * @Tx E)).
Local Open Scope st_scope.

(** ** Sessions of a single statement

    No audit context; the session ends before the attempt is reported. *)
Definition in_session (lf : Leaf) (c : connection) (op : SessionEnv -> M Status)
    : D (Status * Answer) :=
  fun s =>
    let x := mkSessionEnv lf c (mkAudit false false) in
    let '(r, s1) := (st <-- op x; a <-- get_ses se_answer; end_session x ;; ret (st, a))
                      (s.1, mkTx s.2 (mkSes false false false 0 no_answer [])) in
    (r, (s1.1, tx_ds s1.2)).

Definition attempt_session (lf : Leaf) (op : SessionEnv -> M Status) : D (Status * Answer) :=
  b <-- borrowSession lf;
  match b.2 with
  | None => ret (b.1, no_answer)
  | Some c => in_session lf c op
  end.

(** One attempt, with what a success does. *)
Definition single (lf : Leaf) (op : SessionEnv -> M Status) (on_ok : D unit) : D (Status * Answer) :=
  gate <-- before_attempt lf;
  if negb (st_ok gate) then ret (gate, no_answer)
  else
    r <-- attempt_session lf op;
    after_attempt lf r.1 ;;
    (if st_ok r.1 then on_ok else ret tt) ;;
    ret r.

Fixpoint retrying (lf : Leaf) (op : SessionEnv -> M Status) (on_ok : D unit)
    (left : nat) (attempt : Z) : D (Status * Answer) :=
  match left with
  | O => ret (StatusOK, no_answer)
  | S left' =>
      gate <-- before_attempt lf;
      if negb (st_ok gate) then ret (gate, no_answer)
      else
        r <-- attempt_session lf op;
        after_attempt lf r.1 ;;
        if st_ok r.1 then on_ok ;; ret r
        else if negb (st_retryable r.1) || Nat.eqb left' 0 then ret r
        else sleep lf attempt ;; retrying lf op on_ok left' (attempt + 1)
  end.

(** ** The gate, the routing and the interceptors of an entry point *)
Definition entered (d : Source) (sql : str) (type : OperationType)
    (body : SqlContext -> D Status) : D Status :=
  gate <-- preGate d sql type;
  if negb (st_ok gate) then ret gate
  else
    ctx <-- context;
    ctx <-- runOnRoute registry interceptors_enabled interceptors ctx;
    body ctx.

Definition guarded (outs : Answer -> option ResultSet * option Z) (m : D (Status * Answer))
    (ctx : SqlContext) : D Status :=
  runWithInterceptors registry interceptors_enabled interceptors (mkView ctx StatusOK None 0)
    (r <-- m; ret (r.1, (outs r.2).1, (outs r.2).2)).

(** A group is a data source whose own pool pointer is empty and whose retry and
    breaker configurations are the defaults. *)
Definition group_leaf (g : Group) : Leaf :=
  mkLeaf (gp_name g) default_retry default_circuitBreaker false (gp_readOnly g) 0.
Definition own_leaf (d : Source) : Leaf :=
  match d with LeafSource lf => lf | GroupSource g => group_leaf g end.
Definition own_attempt (d : Source) (op : SessionEnv -> M Status) : D (Status * Answer) :=
  match d with
  | LeafSource lf => attempt_session lf op
  | GroupSource g => ret (shutDownStatus (gp_name g), no_answer)
  end.

Abbreviation session_q op := (op registry interceptors_enabled interceptors).

(** ** [queryAll] and [call]: neither looks for a primary *)
Fixpoint queryAll_loop (d : Source) (s : Statement) (left : nat) (attempt : Z) : D Status :=
  match left with
  | O => ret StatusOK
  | S left' =>
      gate <-- before_attempt (own_leaf d);
      if negb (st_ok gate) then ret gate
      else
        r <-- own_attempt d (fun x => session_queryAll registry interceptors_enabled interceptors x s);
        after_attempt (own_leaf d) r.1 ;;
        if st_ok r.1 then ret r.1
        else if negb (st_retryable r.1) || Nat.eqb left' 0 then ret r.1
        else sleep (own_leaf d) attempt ;; queryAll_loop d s left' (attempt + 1)
  end.

Definition queryAll (d : Source) (s : Statement) : D Status :=
  entered d (sm_sql s) OpQuery (fun _ =>
    queryAll_loop d s (Z.to_nat (resolveReadAttempts (lf_retry (own_leaf d)))) 1).

Definition call (d : Source) (s : Statement) : D Status :=
  gate <-- preGate d (sm_sql s) OpExecute;
  if negb (st_ok gate) then ret gate
  else
    gate <-- before_attempt (own_leaf d);
    if negb (st_ok gate) then ret gate
    else
      r <-- own_attempt d (fun x => session_call registry interceptors_enabled interceptors x s);
      after_attempt (own_leaf d) r.1 ;;
      ret r.1.

(** ** Writes *)
Definition leaf_executeKeys (lf : Leaf) (s : Statement) : D (Status * Answer) :=
  ctx <-- context;
  retrying lf (fun x => session_executeKeys registry interceptors_enabled interceptors x s)
    (leaf_markWrite lf) (Z.to_nat (resolveWriteAttempts (lf_retry lf) ctx)) 1.

Definition leaf_executeStream (lf : Leaf) (s : Statement) : D (Status * Answer) :=
  single lf (fun x => session_executeStream registry interceptors_enabled interceptors x s)
    (leaf_markWrite lf).

Definition leaf_batchStream (lf : Leaf) (s : Statement) : D (Status * Answer) :=
  single lf (fun x => session_batchStream registry interceptors_enabled interceptors x s)
    (leaf_markWrite lf).

Definition leaf_executeBatch (lf : Leaf) (s : Statement) : D (Status * Answer) :=
  single lf (fun x => session_executeBatch registry interceptors_enabled interceptors x s)
    (leaf_markWrite lf).

(** On a group all of them go through [dispatchWrite]; only a batch whose
    parameters are values can be buffered. *)
Definition written (d : Source) (leaf : Leaf -> D (Status * Answer)) (buffered : option BufferedWrite)
    : D (Status * Answer) :=
  match d with
  | LeafSource lf => leaf lf
  | GroupSource g => dispatchWrite g leaf no_answer buffered
  end.

Definition buffered_write (d : Source) (s : Statement) : option BufferedWrite :=
  match d with
  | LeafSource _ => None
  | GroupSource g => if gp_writeBuffer g then Some (mkBufferedWrite (gp_primary g) s) else None
  end.

Definition executeKeys (d : Source) (s : Statement) : D Status :=
  entered d (sm_sql s) OpExecute
    (guarded out_count (written d (fun lf => leaf_executeKeys lf s) None)).
Definition executeStream (d : Source) (s : Statement) : D Status :=
  entered d (sm_sql s) OpExecute
    (guarded out_count (written d (fun lf => leaf_executeStream lf s) None)).
Definition batchStream (d : Source) (s : Statement) : D Status :=
  entered d (sm_sql s) OpBatch
    (guarded out_none (written d (fun lf => leaf_batchStream lf s) None)).
Definition executeBatch (d : Source) (s : Statement) : D Status :=
  entered d (sm_sql s) OpBatch
    (guarded out_none (written d (fun lf => leaf_executeBatch lf s) (buffered_write d s))).

(** ** Reads *)
Definition falls_back (g : Group) (target : Leaf) (st : Status) : bool :=
  negb (str_eqb (lf_name target) (lf_name (gp_primary g))) && gp_fallbackToPrimary g &&
  (st_retryable st || st_connectionBroken st || code_eqb (st_code st) CircuitOpen).

Definition read_from (d : Source) (leaf : Leaf -> D (Status * Answer))
    (repeatable : Answer -> bool) : D (Status * Answer) :=
  match d with
  | LeafSource lf => leaf lf
  | GroupSource g =>
      target <-- readTarget g;
      r <-- leaf target;
      if repeatable r.2 && falls_back g target r.1 then leaf (gp_primary g) else ret r
  end.

Definition queryStream (d : Source) (s : Statement) : D Status :=
  entered d (sm_sql s) OpQuery
    (guarded out_rows
       (read_from d
          (fun lf => single lf (fun x => session_queryStream registry interceptors_enabled interceptors x s)
                       (ret tt))
          (fun _ => true))).

(** A streamed query falls back only when no row was delivered; the count of the
    answer is the caller's [rows]. *)
Definition queryEach (d : Source) (s : Statement) (callback : Row -> RowAnswer) : D Status :=
  entered d (sm_sql s) OpStream
    (guarded out_none
       (read_from d
          (fun lf => single lf
             (fun x => session_queryEach registry interceptors_enabled interceptors x s callback)
             (ret tt))
          (fun a => an_affected a =? 0))).

(** ** Cursors *)
Record CursorSettings := mkCursorSettings {
  cs_enabled : bool;
  cs_scrollable : bool;
  cs_defaultBatchSize : Z }.
Record CursorOptions := mkCursorOptions { co_batch_size : Z; co_scrollable : bool }.

Definition effective_batch (settings : CursorSettings) (opts : CursorOptions) : Z :=
  if (co_batch_size opts =? 256) && negb (cs_defaultBatchSize settings =? 256)
  then cs_defaultBatchSize settings else co_batch_size opts.

Definition cursors_refused (settings : CursorSettings) (opts : CursorOptions) : option Status :=
  if negb (cs_enabled settings) then
    Some (status_error NotSupported (lit "cursors are disabled for this datasource"))
  else if co_scrollable opts && negb (cs_scrollable settings) then
    Some (status_error NotSupported (lit "scrollable cursors are disabled for this datasource"))
  else None.

Definition openCursorUngated (d : Source) (s : Statement) : D (Status * option (connection * bool)) :=
  match d with
  | LeafSource lf => leaf_openCursor lf s
  | GroupSource g =>
      target <-- readTarget g;
      r <-- leaf_openCursor target s;
      if falls_back g target r.1 then leaf_openCursor (gp_primary g) s else ret r
  end.

Definition openCursor (settings : CursorSettings) (opts : CursorOptions) (d : Source) (s : Statement)
    : D Status :=
  match cursors_refused settings opts with
  | Some st => ret st
  | None =>
      entered d (sm_sql s) OpSelect (fun ctx =>
        runWithInterceptors registry interceptors_enabled interceptors (mkView ctx StatusOK None 0)
          (r <-- openCursorUngated d s; ret (r.1, None, None)))
  end.

(** ** Groups have no multiple result sets and no routines *)
Lemma group_before_attempt g w :
  exists w1, before_attempt (group_leaf g) w = (StatusOK, w1).
Proof. unfold before_attempt, bind. eexists. reflexivity. Qed.

Lemma group_after_attempt g st w : exists w1, after_attempt (group_leaf g) st w = (tt, w1).
Proof. unfold after_attempt, bind. eexists. reflexivity. Qed.

(** on a group [queryAll] and [call] never reach a leaf: once through the
    gate they answer that the group has been shut down, whatever its primary. *)
Theorem group_has_no_queryAll_nor_call g s w :
  let answer gate := if st_ok gate then shutDownStatus (gp_name g) else gate in
  (queryAll (GroupSource g) s w).1 = answer (preGate (GroupSource g) (sm_sql s) OpQuery w).1 /\
  (call (GroupSource g) s w).1 = answer (preGate (GroupSource g) (sm_sql s) OpExecute w).1.
Proof.
  cbn zeta. unfold queryAll, call, entered, bind. split.
  - destruct (preGate _ _ OpQuery w) as [gate w1]. cbn [fst]. destruct (st_ok gate) eqn:Eg; [|done].
    cbn [negb context reads]. destruct (runOnRoute _ _ _ _ w1) as [ctx w2].
    change (Z.to_nat _) with 1%nat. cbn [queryAll_loop own_leaf]. unfold bind.
    destruct (group_before_attempt g w2) as [w3 ->]. cbn [own_attempt ret fst].
    change (negb (st_ok StatusOK)) with false. cbn beta iota.
    destruct (group_after_attempt g (shutDownStatus (gp_name g)) w3) as [w4 ->]. done.
  - destruct (preGate _ _ OpExecute w) as [gate w1]. cbn [fst]. destruct (st_ok gate) eqn:Eg; [|done].
    cbn [negb own_leaf]. destruct (group_before_attempt g w1) as [w3 ->]. cbn [own_attempt ret fst].
    change (negb (st_ok StatusOK)) with false. cbn beta iota.
    destruct (group_after_attempt g (shutDownStatus (gp_name g)) w3) as [w4 ->]. done.
Qed.
End Statements.

(** ** The cursor object: [fetch], [close], the destructor *)
Inductive Binding := OwnsHandle | BorrowedInSession.

Record Cursor := mkCursor {
  cu_handle : bool;
  cu_impl : bool;
  cu_binding : Binding;
  cu_lease : bool }.

Inductive CursorEvent := ImplClosed | HandleReturned | LeaseReleased.

Definition cursorClosed : Status :=
  status_error CursorClosed (lit "cursor already closed or moved-from").

Definition cursor_fetch (driver : Status) (c : Cursor) : Status :=
  if cu_impl c then driver else cursorClosed.

Definition give_back (b : bool) : list CursorEvent := if b then [HandleReturned] else [].
Definition give_lease (l : bool) : list CursorEvent := if l then [LeaseReleased] else [].
Definition owns (c : Cursor) : bool := match cu_binding c with OwnsHandle => true | _ => false end.

(** [driver] is what [impl_->close()] returns. *)
Definition cursor_close (driver : Status) (c : Cursor) : Status * Cursor * list CursorEvent :=
  if negb (cu_impl c) then
    (StatusOK, mkCursor (cu_handle c && negb (owns c)) false (cu_binding c) (cu_lease c),
     give_back (cu_handle c && owns c))
  else
    (driver, mkCursor (cu_handle c && negb (owns c)) false (cu_binding c) false,
     ImplClosed :: give_back (cu_handle c && owns c) ++ give_lease (cu_lease c)).

(** The destructor, then the members in the reverse order of their declaration. *)
Definition cursor_destroy (c : Cursor) : list CursorEvent :=
  (if cu_impl c then [ImplClosed] else []) ++ give_lease (cu_lease c) ++ give_back (cu_handle c).

(** ** The life of a cursor *)
Definition close_all (drivers : list Status) (c : Cursor) : Cursor * list CursorEvent :=
  fold_left (fun '(c, ev) d => let '(_, c', ev') := cursor_close d c in (c', ev ++ ev')) drivers (c, []).

Definition count_event (e : CursorEvent) (l : list CursorEvent) : nat :=
  length (List.filter (fun x => match e, x with
                                | ImplClosed, ImplClosed | HandleReturned, HandleReturned
                                | LeaseReleased, LeaseReleased => true
                                | _, _ => false
                                end) l).

Definition opened (b : Binding) (lease : bool) : Cursor :=
  mkCursor (match b with OwnsHandle => true | BorrowedInSession => false end) true b lease.

Lemma close_all_closed drivers b lease ev :
  fold_left (fun '(c, ev) d => let '(_, c', ev') := cursor_close d c in (c', ev ++ ev')) drivers
    (mkCursor false false b lease, ev) = (mkCursor false false b lease, ev).
Proof. induction drivers as [|d l IH]; [done|]. cbn. by rewrite app_nil_r. Qed.

(** however often a cursor is closed before it is destroyed, the driver's
    cursor is closed once, the connection it owns goes back once, its lease is
    released once, and after the first close every fetch answers CursorClosed. *)
Theorem cursor_releases_once b lease drivers st :
  let '(c, closed) := close_all drivers (opened b lease) in
  let events := closed ++ cursor_destroy c in
  count_event ImplClosed events = 1%nat /\
  count_event HandleReturned events = (if owns (opened b lease) then 1 else 0)%nat /\
  count_event LeaseReleased events = (if lease then 1 else 0)%nat /\
  (drivers <> [] -> cursor_fetch st c = cursorClosed).
Proof.
  unfold close_all. destruct drivers as [|d l]; [by destruct b, lease|].
  cbn [fold_left]. destruct b, lease; cbn; rewrite close_all_closed; by split_and!.
Qed.

Lemma cursor_releases_once_witness :
  cursor_fetch StatusOK (close_all [StatusOK; StatusOK] (opened OwnsHandle true)).1 = cursorClosed.
Proof.
  destruct (cursor_releases_once OwnsHandle true [StatusOK; StatusOK] StatusOK) as (_ & _ & _ & H).
  by apply H.
Defined.

(** ** Routines and the cache *)
#[local] Existing Instance demo_env.

(** a routine called on a data source is not treated as a write: it succeeds,
    and a result cached before it is still served. *)
Theorem routine_call_is_not_marked :
  let w := (call (SessionDriver0 := accepting) 0 (fun _ => false) (fun _ => [])
              (LeafSource (demo_leaf "r" 3)) (mkStatement (lit "CALL rename_all()") None)
              (demo_state [once] ∅)) in
  st_ok w.1 = true /\ cx_wroteInThisRequest (current (frames_of w.2)) = false /\
  (cache_get 120 (lit "r") (lit "k") (cache_of w.2)).1 = Some small_rs.
Proof. by vm_compute. Qed.
