(* ===== verification/Executor.v ===== *)
(** * Thread pool executor (src/async/executor.cpp)

    One definition per critical section of the executor's mutex: the two posts,
    [shutdown], and the sections of [workerLoop] and [timerLoop] between which a
    task runs.  A schedule is a sequence of such sections; the times are inputs. *)
From stdpp Require Import base list strings.
From Stdlib Require Import Ascii ZArith Lia Sorted.
From S2P Require Import Prelude.

Open Scope Z_scope.

(** A task is known by a number; an empty [std::function] is [None]. *)
Abbreviation Task := Z.

Record DelayedTask := mkDelayed { dl_deadline : Z; dl_seq : Z; dl_task : Task }.

(** A thread between two critical sections. *)
Inductive Worker := Waiting | Running (t : Task) | Exited.

Record Exec := mkExec {
  ex_threadCount : Z;
  ex_queueLimit : Z;
  ex_queue : list Task;
  ex_delayed : list DelayedTask;
  ex_threads : list Worker;
  ex_timer : Worker;
  (** [workers_] and [timerThread_] hold joinable threads *)
  ex_joinable : bool;
  ex_seq : Z;
  ex_active : Z;
  ex_submitted : Z;
  ex_completed : Z;
  ex_rejected : Z;
  ex_threadsStarted : bool;
  ex_stopping : bool }.

(** ** Construction *)
Definition new_executor (threads queueSize hardware_concurrency : Z) : Exec :=
  let n := if 0 <? threads then threads else hardware_concurrency in
  let n := if n =? 0 then 1 else n in
  mkExec n (if 0 <? queueSize then queueSize else 1) [] [] [] Waiting false 0 0 0 0 0 false false.

Definition ensureStartedLocked (s : Exec) : Exec :=
  if ex_threadsStarted s then s
  else mkExec (ex_threadCount s) (ex_queueLimit s) (ex_queue s) (ex_delayed s)
         (replicate (Z.to_nat (ex_threadCount s)) Waiting) Waiting true (ex_seq s)
         (ex_active s) (ex_submitted s) (ex_completed s) (ex_rejected s) true (ex_stopping s).

(** ** The posts *)
Definition reject (s : Exec) : Exec :=
  mkExec (ex_threadCount s) (ex_queueLimit s) (ex_queue s) (ex_delayed s) (ex_threads s)
    (ex_timer s) (ex_joinable s) (ex_seq s) (ex_active s) (ex_submitted s) (ex_completed s)
    (u64 (ex_rejected s + 1)) (ex_threadsStarted s) (ex_stopping s).

Definition push_back (t : Task) (s : Exec) : Exec :=
  mkExec (ex_threadCount s) (ex_queueLimit s) (ex_queue s ++ [t]) (ex_delayed s) (ex_threads s)
    (ex_timer s) (ex_joinable s) (ex_seq s) (ex_active s) (u64 (ex_submitted s + 1))
    (ex_completed s) (ex_rejected s) (ex_threadsStarted s) (ex_stopping s).

Definition tryPost (task : option Task) (s : Exec) : bool * Exec :=
  match task with
  | None => (false, s)
  | Some t =>
      let s := ensureStartedLocked s in
      if ex_stopping s then (false, s)
      else if ex_queueLimit s <=? Z.of_nat (length (ex_queue s)) then (false, reject s)
      else (true, push_back t s)
  end.

(** [operator<] of the delayed tasks: the largest is the next to run. *)
Definition delayed_lt (a b : DelayedTask) : bool :=
  if negb (dl_deadline a =? dl_deadline b) then dl_deadline b <? dl_deadline a
  else dl_seq b <? dl_seq a.

(** The priority queue as the list of its elements from the top down. *)
Fixpoint emplace (d : DelayedTask) (l : list DelayedTask) : list DelayedTask :=
  match l with
  | [] => [d]
  | e :: l' => if delayed_lt d e then e :: emplace d l' else d :: l
  end.

Definition schedule (t : Task) (deadline : Z) (s : Exec) : Exec :=
  mkExec (ex_threadCount s) (ex_queueLimit s) (ex_queue s)
    (emplace (mkDelayed deadline (ex_seq s) t) (ex_delayed s)) (ex_threads s)
    (ex_timer s) (ex_joinable s) (u64 (ex_seq s + 1)) (ex_active s) (ex_submitted s)
    (ex_completed s) (ex_rejected s) (ex_threadsStarted s) (ex_stopping s).

(** Milliseconds after the time [now], in nanoseconds. *)
Definition postAfter (task : option Task) (delay now : Z) (s : Exec) : Exec :=
  match task with
  | None => s
  | Some t =>
      let s := ensureStartedLocked s in
      if ex_stopping s then s else schedule t (now + Z.max delay 0 * 1000000) s
  end.

(** ** Shutdown

    The critical section; the caller then joins the threads it took, whatever the
    grace period says. *)
Definition shutdown_begin (s : Exec) : Exec :=
  if ex_stopping s then s
  else mkExec (ex_threadCount s) (ex_queueLimit s) (ex_queue s) [] (ex_threads s)
         (ex_timer s) false (ex_seq s) (ex_active s) (ex_submitted s) (ex_completed s)
         (ex_rejected s) (ex_threadsStarted s) true.

Definition has_exited (w : Worker) : bool := match w with Exited => true | _ => false end.

(** The joins return. *)
Definition joined (s : Exec) : bool :=
  negb (ex_threadsStarted s) || (has_exited (ex_timer s) && forallb has_exited (ex_threads s)).

(** Destroying a joinable [std::thread] terminates the process. *)
Inductive Destroyed := Clean | JoinsFirst | Terminates.
Definition destructor (s : Exec) : Destroyed :=
  if negb (ex_stopping s) then JoinsFirst
  else if ex_joinable s then Terminates else Clean.

(** ** The worker threads *)
Definition set_thread (i : nat) (w : Worker) (s : Exec) : Exec :=
  mkExec (ex_threadCount s) (ex_queueLimit s) (ex_queue s) (ex_delayed s)
    (<[i := w]> (ex_threads s)) (ex_timer s) (ex_joinable s) (ex_seq s) (ex_active s)
    (ex_submitted s) (ex_completed s) (ex_rejected s) (ex_threadsStarted s) (ex_stopping s).

(** The section that ends the wait: a task, the end of the thread, or nothing. *)
Definition worker_take (i : nat) (s : Exec) : option Exec :=
  match ex_threads s !! i with
  | Some Waiting =>
      match ex_queue s with
      | [] => if ex_stopping s then Some (set_thread i Exited s) else None
      | t :: q =>
          Some (mkExec (ex_threadCount s) (ex_queueLimit s) q (ex_delayed s)
                  (<[i := Running t]> (ex_threads s)) (ex_timer s) (ex_joinable s) (ex_seq s)
                  (ex_active s + 1) (ex_submitted s) (ex_completed s) (ex_rejected s)
                  (ex_threadsStarted s) (ex_stopping s))
      end
  | _ => None
  end.

(** How a task ends; [runGuarded] logs the exceptions and goes on. *)
Inductive TaskEnd := Returned | Threw (what : str) | ThrewUnknown.
Definition exec_runGuarded (e : TaskEnd) : list str :=
  match e with
  | Returned => []
  | Threw what => [lit "async executor task threw: " ++ what]
  | ThrewUnknown => [lit "async executor task threw unknown exception"]
  end.

Definition worker_done (i : nat) (s : Exec) : option Exec :=
  match ex_threads s !! i with
  | Some (Running t) =>
      Some (mkExec (ex_threadCount s) (ex_queueLimit s) (ex_queue s) (ex_delayed s)
              (<[i := Waiting]> (ex_threads s)) (ex_timer s) (ex_joinable s) (ex_seq s)
              (ex_active s - 1) (ex_submitted s) (u64 (ex_completed s + 1)) (ex_rejected s)
              (ex_threadsStarted s) (ex_stopping s))
  | _ => None
  end.

(** ** The timer thread *)
Definition set_timer (w : Worker) (d : list DelayedTask) (s : Exec) : Exec :=
  mkExec (ex_threadCount s) (ex_queueLimit s) (ex_queue s) d (ex_threads s) w (ex_joinable s)
    (ex_seq s) (ex_active s) (ex_submitted s) (ex_completed s) (ex_rejected s)
    (ex_threadsStarted s) (ex_stopping s).

Definition timer_wake (now : Z) (s : Exec) : option Exec :=
  match ex_threadsStarted s, ex_timer s with
  | true, Waiting =>
      match ex_delayed s with
      | [] => if ex_stopping s then Some (set_timer Exited [] s) else None
      | d :: l => if now <? dl_deadline d then None else Some (set_timer (Running (dl_task d)) l s)
      end
  | _, _ => None
  end.

Definition timer_done (s : Exec) : option Exec :=
  match ex_timer s with
  | Running _ => Some (set_timer Waiting (ex_delayed s) s)
  | _ => None
  end.

Record ExecutorStats := mkExecStats {
  es_threads : Z; es_queueDepth : Z; es_active : Z; es_submitted : Z; es_completed : Z;
  es_rejected : Z; es_delayedPending : Z }.
Definition exec_stats (s : Exec) : ExecutorStats :=
  mkExecStats (if ex_threadsStarted s then ex_threadCount s else 0)
    (Z.of_nat (length (ex_queue s))) (ex_active s) (ex_submitted s) (ex_completed s)
    (ex_rejected s) (Z.of_nat (length (ex_delayed s))).

(** ** Schedules *)
Inductive ExecEvent :=
  | TryPost (t : option Task)
  | PostAfter (t : option Task) (delay now : Z)
  | Shutdown
  | Take (i : nat)
  | Done (i : nat) (e : TaskEnd)
  | TimerWake (now : Z)
  | TimerDone (e : TaskEnd).

Definition exec_step (l : ExecEvent) (s : Exec) : option Exec :=
  match l with
  | TryPost t => Some (tryPost t s).2
  | PostAfter t d now => Some (postAfter t d now s)
  | Shutdown => Some (shutdown_begin s)
  | Take i => worker_take i s
  | Done i _ => worker_done i s
  | TimerWake now => timer_wake now s
  | TimerDone _ => timer_done s
  end.

Fixpoint exec_run (ls : list ExecEvent) (s : Exec) : option Exec :=
  match ls with
  | [] => Some s
  | l :: ls' => exec_step l s ≫= exec_run ls'
  end.

(** The sections of the executor's own threads. *)
Definition internal (l : ExecEvent) : bool :=
  match l with Take _ | Done _ _ | TimerWake _ | TimerDone _ => true | _ => false end.

(** ** What a schedule did *)
Definition accepts (l : ExecEvent) (s : Exec) : list Task :=
  match l with
  | TryPost (Some t) => if (tryPost (Some t) s).1 then [t] else []
  | _ => []
  end.
Definition starts (l : ExecEvent) (s : Exec) : list Task :=
  match l with
  | Take i => match ex_threads s !! i with Some Waiting => take 1 (ex_queue s) | _ => [] end
  | _ => []
  end.
Definition finishes (l : ExecEvent) (s : Exec) : list Task :=
  match l with
  | Done i _ => match ex_threads s !! i with Some (Running t) => [t] | _ => [] end
  | _ => []
  end.
Fixpoint collect (f : ExecEvent -> Exec -> list Task) (ls : list ExecEvent) (s : Exec) : list Task :=
  match ls with
  | [] => []
  | l :: ls' => f l s ++ match exec_step l s with Some s' => collect f ls' s' | None => [] end
  end.

(** The tasks the workers are running. *)
Definition running_of (w : Worker) : list Task := match w with Running t => [t] | _ => [] end.
Definition running (s : Exec) : list Task := ex_threads s ≫= running_of.

(** ** The abstract bounded queue served by [n] workers *)
Record Fifo := mkFifo { fi_waiting : list Task; fi_running : list Task; fi_closed : bool }.
Inductive Act := AAccept (t : Task) | ARefuse | AStart (t : Task) | AFinish (t : Task) | AClose | ATau.

Inductive fifo_step (cap n : Z) : Act -> Fifo -> Fifo -> Prop :=
  | fifo_accept t q r :
      Z.of_nat (length q) < cap ->
      fifo_step cap n (AAccept t) (mkFifo q r false) (mkFifo (q ++ [t]) r false)
  | fifo_refuse q r c :
      c = true \/ cap <= Z.of_nat (length q) ->
      fifo_step cap n ARefuse (mkFifo q r c) (mkFifo q r c)
  | fifo_start t q r r' c :
      r' ≡ₚ t :: r -> Z.of_nat (length r) < n ->
      fifo_step cap n (AStart t) (mkFifo (t :: q) r c) (mkFifo q r' c)
  | fifo_finish t q r r' c :
      r ≡ₚ t :: r' ->
      fifo_step cap n (AFinish t) (mkFifo q r c) (mkFifo q r' c)
  | fifo_close q r c : fifo_step cap n AClose (mkFifo q r c) (mkFifo q r true)
  | fifo_tau f : fifo_step cap n ATau f f.

Definition abstract (s : Exec) : Fifo := mkFifo (ex_queue s) (running s) (ex_stopping s).
Definition act (l : ExecEvent) (s : Exec) : Act :=
  match l with
  | TryPost (Some t) => if (tryPost (Some t) s).1 then AAccept t else ARefuse
  | Shutdown => AClose
  | Take i =>
      match ex_threads s !! i, ex_queue s with Some Waiting, t :: _ => AStart t | _, _ => ATau end
  | Done i _ => match ex_threads s !! i with Some (Running t) => AFinish t | _ => ATau end
  | _ => ATau
  end.

(** ** The invariant *)
Definition dl_ordered (a b : DelayedTask) : Prop := delayed_lt a b = false.

Record exec_inv (s : Exec) : Prop := {
  ei_count : 1 <= ex_threadCount s;
  ei_bounded : Z.of_nat (length (ex_queue s)) <= ex_queueLimit s;
  ei_active : ex_active s = Z.of_nat (length (running s));
  ei_account : u64 (ex_submitted s - ex_completed s) = u64 (Z.of_nat (length (ex_queue s)) + ex_active s);
  ei_sorted : Sorted dl_ordered (ex_delayed s);
  ei_fresh : ex_threadsStarted s = false ->
    ex_threads s = [] /\ ex_queue s = [] /\ ex_delayed s = [] /\ ex_timer s = Waiting /\ ex_joinable s = false;
  ei_started : ex_threadsStarted s = true -> Z.of_nat (length (ex_threads s)) = ex_threadCount s;
  ei_stopping : ex_stopping s = true -> (ex_delayed s = []);
  ei_alive : ex_stopping s = false ->
    (Exited ∉ ex_threads s) /\ ex_timer s <> Exited /\ ex_joinable s = ex_threadsStarted s;
  ei_exited : Exited ∈ ex_threads s -> (ex_queue s = []) }.

Lemma u64_shift a b k : u64 a = u64 b -> u64 (a + k) = u64 (b + k).
Proof. unfold u64. intros H. by rewrite Zplus_mod, H, <- Zplus_mod. Qed.
Lemma u64_in a b : u64 (u64 a - b) = u64 (a - b).
Proof. unfold u64. apply Zminus_mod_idemp_l. Qed.
Lemma u64_in_r a b : u64 (a - u64 b) = u64 (a - b).
Proof. unfold u64. apply Zminus_mod_idemp_r. Qed.

Lemma running_replicate n : replicate n Waiting ≫= running_of = [].
Proof. by induction n. Qed.
(** A thread that starts or ends a task. *)
Lemma running_insert (l : list Worker) i w w' :
  l !! i = Some w -> running_of w' ++ (l ≫= running_of) ≡ₚ running_of w ++ (<[i := w']> l ≫= running_of).
Proof.
  revert i. induction l as [|v l IH]; intros [|i]; simpl; intros H; try done.
  - injection H as ->. solve_Permutation.
  - specialize (IH i H). rewrite Permutation_app_swap_app, IH. solve_Permutation.
Qed.
Lemma running_le (l : list Worker) : (length (l ≫= running_of) <= length l)%nat.
Proof. induction l as [|v l IH]; [done|]. rewrite bind_cons, length_app. destruct v; simpl; lia. Qed.
Lemma running_exit (l : list Worker) i :
  l !! i = Some Waiting -> <[i := Exited]> l ≫= running_of = l ≫= running_of.
Proof.
  revert i. induction l as [|v l IH]; intros [|i] H; try done.
  - by injection H as ->.
  - simpl. f_equal. by apply IH.
Qed.
Lemma running_bound (l : list Worker) i :
  l !! i = Some Waiting -> (length (l ≫= running_of) < length l)%nat.
Proof.
  revert i. induction l as [|v l IH]; intros [|i] H; try done; rewrite bind_cons, length_app.
  - injection H as ->. pose proof (running_le l). simpl. lia.
  - specialize (IH i H). destruct v; simpl; lia.
Qed.

Lemma delayed_lt_asym a b : delayed_lt a b = true -> delayed_lt b a = false.
Proof.
  unfold delayed_lt. rewrite (Z.eqb_sym (dl_deadline b)).
  destruct (dl_deadline a =? dl_deadline b); simpl; rewrite Z.ltb_lt, Z.ltb_ge; lia.
Qed.
Lemma emplace_hd d a l : dl_ordered a d -> HdRel dl_ordered a l -> HdRel dl_ordered a (emplace d l).
Proof. intros ? []; simpl; [by constructor|]. destruct (delayed_lt d b); by constructor. Qed.
Lemma emplace_sorted d l : Sorted dl_ordered l -> Sorted dl_ordered (emplace d l).
Proof.
  induction 1 as [|e l Hl IH He]; simpl; [by repeat constructor|].
  destruct (delayed_lt d e) eqn:E; constructor; try done.
  - apply emplace_hd; [by apply delayed_lt_asym | done].
  - by constructor.
  - by constructor.
Qed.

(** ** Preservation *)
Lemma inv_new th qs hw : 0 <= hw -> exec_inv (new_executor th qs hw).
Proof.
  intros Hh. unfold new_executor. split; simpl; try done.
  - destruct (0 <? th) eqn:E1; [destruct (th =? 0) eqn:E2 | destruct (hw =? 0) eqn:E2]; bool_prop; lia.
  - destruct (0 <? qs) eqn:E; bool_prop; simpl; lia.
  - intros _. split_and!; [by apply not_elem_of_nil | done..].
Qed.

Lemma inv_ensure s : exec_inv s -> exec_inv (ensureStartedLocked s).
Proof.
  intros H. pose proof H as [C B A U S F T P L X]. unfold ensureStartedLocked.
  destruct (ex_threadsStarted s) eqn:Es; [done|].
  destruct (F eq_refl) as (Ft & Fq & Fd & Fm & Fj).
  assert (R : running s = []) by (unfold running; by rewrite Ft).
  split; simpl; try done.
  - unfold running. simpl. by rewrite running_replicate, A, R.
  - rewrite length_replicate. lia.
  - intros Hs. destruct (L Hs) as (_ & _ & _). split_and!; [|done|done].
    intros [? _]%elem_of_replicate. done.
Qed.

Lemma ensure_stopping s : ex_stopping (ensureStartedLocked s) = ex_stopping s.
Proof. unfold ensureStartedLocked. by destruct (ex_threadsStarted s). Qed.
Lemma ensure_queue s : ex_queue (ensureStartedLocked s) = ex_queue s.
Proof. unfold ensureStartedLocked. by destruct (ex_threadsStarted s). Qed.
Lemma ensure_running s : exec_inv s -> running (ensureStartedLocked s) = running s.
Proof.
  intros [_ _ _ _ _ F _ _ _ _]. unfold ensureStartedLocked.
  destruct (ex_threadsStarted s) eqn:E; [done|]. destruct (F eq_refl) as (Ft & _).
  unfold running. simpl. by rewrite Ft, running_replicate.
Qed.
Lemma ensure_started s : ex_threadsStarted (ensureStartedLocked s) = true.
Proof. unfold ensureStartedLocked. by destruct (ex_threadsStarted s) eqn:E. Qed.
Lemma ensure_limit s : ex_queueLimit (ensureStartedLocked s) = ex_queueLimit s.
Proof. unfold ensureStartedLocked. by destruct (ex_threadsStarted s). Qed.

Lemma inv_tryPost t s : exec_inv s -> exec_inv (tryPost t s).2.
Proof.
  intros H. destruct t as [t|]; [|done]. apply inv_ensure in H. unfold tryPost.
  pose proof (ensure_started s) as Es.
  destruct (ex_stopping _) eqn:E; [done|].
  destruct (_ <=? _) eqn:Eq; destruct H as [C B A U S F T P L X]; bool_prop; simpl;
    split; simpl; try done; try (by rewrite Es).
  - rewrite length_app. simpl. lia.
  - rewrite length_app. simpl. rewrite u64_in.
    replace (_ + 1 - _) with (ex_submitted (ensureStartedLocked s) - ex_completed (ensureStartedLocked s) + 1) by lia.
    replace (Z.of_nat _ + _) with (Z.of_nat (length (ex_queue (ensureStartedLocked s))) +
      ex_active (ensureStartedLocked s) + 1) by lia.
    by apply u64_shift.
  - intros Hx. by destruct (L E) as (La & _).
Qed.

Lemma inv_postAfter t d now s : exec_inv s -> exec_inv (postAfter t d now s).
Proof.
  intros H. destruct t as [t|]; [|done]. apply inv_ensure in H. unfold postAfter.
  pose proof (ensure_started s) as Es.
  destruct (ex_stopping _) eqn:E; [done|]. destruct H as [C B A U S F T P L X].
  split; simpl; try done; [by apply emplace_sorted | by rewrite Es | by rewrite E].
Qed.

Lemma inv_shutdown s : exec_inv s -> exec_inv (shutdown_begin s).
Proof.
  intros H. unfold shutdown_begin. destruct (ex_stopping s) eqn:E; [done|].
  destruct H as [C B A U S F T P L X]. split; simpl; try done.
  intros Es. destruct (F Es) as (? & ? & ? & ? & ?). done.
Qed.

(** A thread of a started executor changes; the books follow the tasks it runs. *)
Lemma running_step l i w w' :
  l !! i = Some w ->
  Z.of_nat (length (<[i := w']> l ≫= running_of)) =
    Z.of_nat (length (l ≫= running_of)) + Z.of_nat (length (running_of w')) - Z.of_nat (length (running_of w)).
Proof. intros H%(running_insert _ _ _ w'). apply Permutation_length in H. rewrite !length_app in H. lia. Qed.
Lemma exited_insert l i w : w <> Exited -> Exited ∈ (<[i := w]> l : list Worker) -> Exited ∈ l.
Proof.
  intros Hw [j Hj]%list_elem_of_lookup.
  apply list_lookup_insert_Some in Hj as [(_ & ? & _)|[_ Hj]]; [done|].
  apply list_elem_of_lookup. eauto.
Qed.
Lemma alive_insert l i w : (Exited ∉ l) -> w <> Exited -> Exited ∉ (<[i := w]> l : list Worker).
Proof.
  intros H Hw Hj%exited_insert; done.
Qed.

Lemma inv_take i s s' : exec_inv s -> worker_take i s = Some s' -> exec_inv s'.
Proof.
  intros H. unfold worker_take. destruct (ex_threads s !! i) as [w|] eqn:Ei; [|done].
  destruct w; try done. destruct H as [C B A U S F T P L X].
  assert (Es : ex_threadsStarted s = true).
  { destruct (ex_threadsStarted s); [done|]. destruct (F eq_refl) as (Ft & _). by rewrite Ft in Ei. }
  rewrite Es in *. destruct (ex_queue s) as [|t q] eqn:Eq.
  - destruct (ex_stopping s) eqn:E; [|done]. intros [= <-]. split; simpl; try done.
    + by rewrite Eq.
    + rewrite A. unfold running. simpl. rewrite (running_step _ _ _ _ Ei). simpl. lia.
    + by rewrite Eq.
    + by rewrite Es.
    + rewrite length_insert. auto.
    + by rewrite E.
    + by rewrite E.
  - intros [= <-]. split; simpl; try done.
    + simpl in B. lia.
    + rewrite A. unfold running. simpl. rewrite (running_step _ _ _ _ Ei). simpl. lia.
    + rewrite U. f_equal. simpl. lia.
    + rewrite length_insert. auto.
    + intros (La & Lb & Lc)%L. split_and!; try done. by apply alive_insert.
    + intros Hx%exited_insert; [by specialize (X Hx) | done].
Qed.

Lemma inv_done i s s' : exec_inv s -> worker_done i s = Some s' -> exec_inv s'.
Proof.
  intros H. unfold worker_done. destruct (ex_threads s !! i) as [w|] eqn:Ei; [|done].
  destruct w; try done. destruct H as [C B A U S F T P L X]. intros [= <-]. split; simpl; try done.
  - rewrite A. unfold running. simpl. rewrite (running_step _ _ _ _ Ei). simpl. lia.
  - rewrite u64_in_r.
    replace (ex_submitted s - (ex_completed s + 1)) with (ex_submitted s - ex_completed s + -1) by lia.
    rewrite Z.add_sub_assoc. by apply (u64_shift _ _ (-1)).
  - intros Es. destruct (F Es) as (Ft & _). by rewrite Ft in Ei.
  - rewrite length_insert. auto.
  - intros (La & Lb & Lc)%L. split_and!; try done. by apply alive_insert.
  - intros Hx%exited_insert; auto.
Qed.

Lemma inv_timer_wake now s s' : exec_inv s -> timer_wake now s = Some s' -> exec_inv s'.
Proof.
  intros [C B A U S F T P L X]. unfold timer_wake.
  destruct (ex_threadsStarted s) eqn:Es; [|done]. destruct (ex_timer s); try done.
  destruct (ex_delayed s) as [|d l] eqn:Ed.
  - destruct (ex_stopping s) eqn:E; [|done]. intros [= <-]. split; simpl; try done; by rewrite ?Es, ?E.
  - destruct (now <? dl_deadline d); [done|]. intros [= <-]. split; simpl; try done.
    + by apply Sorted_inv in S as [S _].
    + by rewrite Es.
    + auto.
    + intros Hs. by specialize (P Hs).
    + intros (La & Lb & Lc)%L. by rewrite Es.
Qed.

Lemma inv_timer_done s s' : exec_inv s -> timer_done s = Some s' -> exec_inv s'.
Proof.
  intros [C B A U S F T P L X]. unfold timer_done. destruct (ex_timer s) eqn:Et; try done.
  intros [= <-]. split; simpl; try done.
  - intros Es. destruct (F Es) as (? & ? & ? & ? & ?). done.
  - intros (La & Lb & Lc)%L. done.
Qed.

Create HintDb exec_db.
#[export] Hint Resolve inv_tryPost inv_postAfter inv_shutdown inv_take inv_done inv_timer_wake
  inv_timer_done : exec_db.

Lemma inv_step l s s' : exec_inv s -> exec_step l s = Some s' -> exec_inv s'.
Proof. destruct l; simpl; eauto with exec_db; intros H [= <-]; eauto with exec_db. Qed.

Lemma inv_run ls s s' : exec_inv s -> exec_run ls s = Some s' -> exec_inv s'.
Proof.
  revert s. induction ls as [|l ls IH]; simpl; intros s H; [by intros [= <-]|].
  destruct (exec_step l s) as [s1|] eqn:E; simpl; [|done]. apply IH. by eapply inv_step.
Qed.

(** ** Theorems *)

(** Whatever the schedule, the queue stays within its limit, [active] counts the
    workers that run a task, what was submitted is completed, active or queued,
    and at most [threadCount] tasks run at once. *)
Theorem executor_books th qs hw ls s :
  0 <= hw -> exec_run ls (new_executor th qs hw) = Some s ->
  Z.of_nat (length (ex_queue s)) <= ex_queueLimit s /\
  ex_active s = Z.of_nat (length (running s)) /\ ex_active s <= ex_threadCount s /\
  u64 (ex_submitted s - ex_completed s) = u64 (es_queueDepth (exec_stats s) + ex_active s).
Proof.
  intros Hh R. destruct (inv_run _ _ _ (inv_new th qs hw Hh) R) as [C B A U S F T P L X].
  split_and!; try done. rewrite A. destruct (ex_threadsStarted s) eqn:Es.
  - rewrite <- (T eq_refl). pose proof (running_le (ex_threads s)). unfold running. lia.
  - destruct (F eq_refl) as (Ft & _). unfold running. rewrite Ft. simpl. lia.
Qed.

Definition demo_schedule : list ExecEvent :=
  [TryPost (Some 1); TryPost (Some 2); TryPost (Some 3); Take 0%nat; TryPost (Some 3);
   Done 0%nat (Threw (lit "boom")); PostAfter (Some 9) 5 1000; TimerWake 6000000; Take 0%nat].
Definition demo_executor : Exec := new_executor 1 2 4.

Lemma executor_books_witness :
  exists s, exec_run demo_schedule demo_executor = Some s /\
    Z.of_nat (length (ex_queue s)) <= ex_queueLimit s /\ ex_rejected s = 1 /\ running s = [2].
Proof.
  eexists. split; [vm_compute; reflexivity|].
  destruct (executor_books 1 2 4 demo_schedule _ ltac:(lia) ltac:(vm_compute; reflexivity)) as [H _].
  split; [exact H | split; reflexivity].
Defined.

Lemma step_queue l s s' :
  exec_step l s = Some s' -> ex_queue s ++ accepts l s = starts l s ++ ex_queue s'.
Proof.
  destruct l as [t|t d now| |i|i e|now|e]; cbn [exec_step accepts starts];
    rewrite ?app_nil_r; simpl.
  - intros [= <-]. destruct t as [t|]; [|by rewrite app_nil_r].
    unfold tryPost. rewrite <- (ensure_queue s). destruct (ex_stopping _); [by rewrite app_nil_r|].
    destruct (_ <=? _); simpl; by rewrite ?app_nil_r.
  - intros [= <-]. destruct t as [t|]; [|done]. unfold postAfter.
    rewrite <- (ensure_queue s). by destruct (ex_stopping _).
  - intros [= <-]. unfold shutdown_begin. by destruct (ex_stopping s).
  - unfold worker_take. destruct (ex_threads s !! i) as [[]|]; try done.
    destruct (ex_queue s) eqn:E; [|by intros [= <-]].
    destruct (ex_stopping s); [|done]. intros [= <-]. simpl. by rewrite E.
  - unfold worker_done. destruct (ex_threads s !! i) as [[]|]; try done. by intros [= <-].
  - unfold timer_wake. destruct (ex_threadsStarted s), (ex_timer s); try done.
    destruct (ex_delayed s); [destruct (ex_stopping s); [|done]; by intros [= <-]|].
    destruct (now <? _); [done|]. by intros [= <-].
  - unfold timer_done. destruct (ex_timer s); try done. by intros [= <-].
Qed.

Lemma step_running l s s' :
  exec_inv s -> exec_step l s = Some s' -> starts l s ++ running s ≡ₚ finishes l s ++ running s'.
Proof.
  intros H. destruct l as [t|t d now| |i|i e|now|e]; cbn [exec_step finishes starts]; simpl.
  - intros [= <-]. destruct t as [t|]; [|done].
    rewrite <- (ensure_running s H). unfold tryPost. destruct (ex_stopping _); [done|].
    by destruct (_ <=? _).
  - intros [= <-]. destruct t as [t|]; [|done]. rewrite <- (ensure_running s H). unfold postAfter.
    by destruct (ex_stopping _).
  - intros [= <-]. unfold shutdown_begin. by destruct (ex_stopping s).
  - unfold worker_take. destruct (ex_threads s !! i) as [[]|] eqn:Ei; try done.
    destruct (ex_queue s) as [|t q]; simpl.
    + destruct (ex_stopping s); [|done]. intros [= <-].
      exact (running_insert _ _ _ Exited Ei).
    + intros [= <-]. exact (running_insert _ _ _ (Running t) Ei).
  - unfold worker_done. destruct (ex_threads s !! i) as [[]|] eqn:Ei; try done.
    intros [= <-]. exact (running_insert _ _ _ Waiting Ei).
  - unfold timer_wake. destruct (ex_threadsStarted s), (ex_timer s); try done.
    destruct (ex_delayed s); [destruct (ex_stopping s); [|done]; by intros [= <-]|].
    destruct (now <? _); [done|]. by intros [= <-].
  - unfold timer_done. destruct (ex_timer s); try done. by intros [= <-].
Qed.

(** In every schedule the workers start exactly the tasks that [tryPost] accepted,
    each once and in the order of acceptance, less those still queued; and a started
    task has finished or is running. *)
Theorem tasks_start_in_order th qs hw ls s :
  0 <= hw -> exec_run ls (new_executor th qs hw) = Some s ->
  collect accepts ls (new_executor th qs hw) = collect starts ls (new_executor th qs hw) ++ ex_queue s /\
  collect starts ls (new_executor th qs hw) ≡ₚ collect finishes ls (new_executor th qs hw) ++ running s.
Proof.
  intros Hh.
  assert (G : forall ls s0, exec_inv s0 -> exec_run ls s0 = Some s ->
    ex_queue s0 ++ collect accepts ls s0 = collect starts ls s0 ++ ex_queue s /\
    running s0 ++ collect starts ls s0 ≡ₚ collect finishes ls s0 ++ running s).
  { clear ls. induction ls as [|l ls IH]; simpl; intros s0 I R.
    - injection R as ->. by rewrite !app_nil_r.
    - destruct (exec_step l s0) as [s1|] eqn:E; [|done].
      destruct (IH s1 (inv_step _ _ _ I E) R) as [IA IB].
      pose proof (step_queue _ _ _ E) as Q. pose proof (step_running _ _ _ I E) as P. split.
      + by rewrite app_assoc, Q, <- app_assoc, IA, app_assoc.
      + rewrite app_assoc, (Permutation_app_comm (running s0)), P, <- !app_assoc, IB. done. }
  intros R. by destruct (G ls _ (inv_new th qs hw Hh) R).
Qed.

Lemma tasks_start_in_order_witness :
  exists s, exec_run demo_schedule demo_executor = Some s /\
    collect accepts demo_schedule demo_executor = [1; 2] ++ ex_queue s /\ ex_queue s = [3].
Proof.
  eexists. split; [vm_compute; reflexivity|].
  destruct (tasks_start_in_order 1 2 4 demo_schedule _ ltac:(lia) ltac:(vm_compute; reflexivity)) as [H _].
  split; [exact H | reflexivity].
Defined.

Lemma tryPost_abstract t s :
  exec_inv s ->
  fifo_step (ex_queueLimit s) (ex_threadCount s)
    (if (tryPost (Some t) s).1 then AAccept t else ARefuse) (abstract s) (abstract (tryPost (Some t) s).2).
Proof.
  intros H. unfold tryPost, abstract. rewrite <- (ensure_running s H), <- (ensure_queue s),
    <- (ensure_stopping s), <- (ensure_limit s).
  destruct (ex_stopping (ensureStartedLocked s)) eqn:E; simpl; [rewrite E; constructor; by left|].
  destruct (_ <=? _) eqn:Q; bool_prop; simpl; rewrite E; constructor; [by right | lia].
Qed.

Lemma timer_wake_abstract now s s' : timer_wake now s = Some s' -> abstract s' = abstract s.
Proof.
  unfold timer_wake. destruct (ex_threadsStarted s), (ex_timer s); try done.
  destruct (ex_delayed s); [destruct (ex_stopping s); [|done]; by intros [= <-]|].
  destruct (now <? _); [done|]. by intros [= <-].
Qed.

Lemma postAfter_abstract t d now s : exec_inv s -> abstract (postAfter t d now s) = abstract s.
Proof.
  intros H. destruct t as [t|]; [|done]. unfold abstract.
  rewrite <- (ensure_running s H), <- (ensure_queue s), <- (ensure_stopping s). unfold postAfter.
  destruct (ex_stopping (ensureStartedLocked s)) eqn:E; simpl; by rewrite E.
Qed.

(** C5: Every critical section is a step of the abstract bounded queue: a post is
    accepted exactly when the queue is open and has room, a worker starts the oldest
    waiting task and at most [threadCount] run, the timer and delayed posts are
    invisible. *)
Theorem executor_refines_fifo th qs hw ls s l s' :
  0 <= hw -> exec_run ls (new_executor th qs hw) = Some s -> exec_step l s = Some s' ->
  fifo_step (ex_queueLimit s) (ex_threadCount s) (act l s) (abstract s) (abstract s').
Proof.
  intros Hh R E. pose proof (inv_run _ _ _ (inv_new th qs hw Hh) R) as I.
  pose proof (step_running _ _ _ I E) as P. revert E P.
  destruct l as [t|t d now| |i|i e|now|e]; cbn [exec_step act starts finishes]; simpl.
  - intros [= <-] _. destruct t as [t|]; [by apply tryPost_abstract | constructor].
  - intros [= <-] _. rewrite (postAfter_abstract _ _ _ _ I). constructor.
  - intros [= <-] _. unfold shutdown_begin, abstract. destruct (ex_stopping s) eqn:E; simpl; [rewrite E|]; constructor.
  - unfold worker_take. destruct (ex_threads s !! i) as [[]|] eqn:Ei; try done.
    destruct (ex_queue s) as [|t q] eqn:Q.
    + destruct (ex_stopping s) eqn:E; [|done]. intros [= <-] P.
      unfold abstract, running. simpl. rewrite (running_exit _ _ Ei). rewrite E, Q. constructor.
    + intros [= <-] P. unfold abstract. simpl in P |- *. rewrite Q. constructor; [by symmetry|].
      destruct I as [_ _ _ _ _ F T _ _ _]. unfold running. pose proof (running_bound _ _ Ei).
      destruct (ex_threadsStarted s); [rewrite <- (T eq_refl); lia|].
      destruct (F eq_refl) as (Ft & _). by rewrite Ft in Ei.
  - unfold worker_done. destruct (ex_threads s !! i) as [[]|]; try done.
    intros [= <-] P. by constructor.
  - intros E%timer_wake_abstract _. rewrite E. constructor.
  - unfold timer_done. destruct (ex_timer s); try done. intros [= <-] _. constructor.
Qed.

Lemma executor_refines_fifo_witness :
  exists s s', exec_run demo_schedule demo_executor = Some s /\
    exec_step (Done 0%nat Returned) s = Some s' /\
    fifo_step 2 1 (AFinish 2) (abstract s) (abstract s').
Proof.
  do 2 eexists. split; [vm_compute; reflexivity|]. split; [vm_compute; reflexivity|].
  exact (executor_refines_fifo 1 2 4 demo_schedule _ (Done 0%nat Returned) _ ltac:(lia)
    ltac:(vm_compute; reflexivity) ltac:(vm_compute; reflexivity)).
Defined.

(** *** Shutdown *)
Definition worker_weight (w : Worker) : nat :=
  match w with Waiting => 1 | Running _ => 2 | Exited => 0 end.
Fixpoint threads_weight (l : list Worker) : nat :=
  match l with [] => 0 | w :: l' => worker_weight w + threads_weight l' end.
Definition exec_measure (s : Exec) : nat :=
  3 * length (ex_queue s) + threads_weight (ex_threads s) + worker_weight (ex_timer s).

Lemma weight_insert l i w w' :
  l !! i = Some w -> (threads_weight (<[i := w']> l) + worker_weight w = threads_weight l + worker_weight w')%nat.
Proof.
  revert i. induction l as [|v l IH]; intros [|i] H; try done.
  - injection H as ->. simpl. lia.
  - specialize (IH i H). simpl. lia.
Qed.

(** After [shutdown] each section of the executor's threads brings it nearer to the end. *)
Lemma internal_decreases l s s' :
  ex_stopping s = true -> ex_delayed s = [] -> internal l = true -> exec_step l s = Some s' ->
  (exec_measure s' < exec_measure s)%nat /\ ex_stopping s' = true /\ ex_delayed s' = [] /\
  ex_threadsStarted s' = ex_threadsStarted s.
Proof.
  intros Hs Hd Hl. unfold exec_measure. destruct l as [t|t d now| |i|i e|now|e]; simpl; try done.
  - unfold worker_take. destruct (ex_threads s !! i) as [[]|] eqn:Ei; try done.
    destruct (ex_queue s) as [|t q] eqn:Q.
    + rewrite Hs. intros [= <-]. simpl. rewrite Q. pose proof (weight_insert _ _ _ Exited Ei) as W.
      simpl in W. split; [simpl; lia | done].
    + intros [= <-]. pose proof (weight_insert _ _ _ (Running t) Ei) as W. simpl in W |- *.
      split; [lia | done].
  - unfold worker_done. destruct (ex_threads s !! i) as [[]|] eqn:Ei; try done.
    intros [= <-]. pose proof (weight_insert _ _ _ Waiting Ei) as W. simpl in W |- *. split; [lia | done].
  - unfold timer_wake. destruct (ex_threadsStarted s) eqn:Es, (ex_timer s); try done.
    rewrite Hd, Hs. intros [= <-]. simpl. split; [lia | done].
  - unfold timer_done. destruct (ex_timer s); try done. intros [= <-]. simpl. split; [lia | done].
Qed.

(** A thread that has not exited can take a step after [shutdown]. *)
Lemma internal_progress s :
  exec_inv s -> ex_stopping s = true ->
  (forall l, internal l = true -> exec_step l s = None) -> joined s = true.
Proof.
  intros I Hs N. unfold joined. destruct (ex_threadsStarted s) eqn:Es; [simpl|done].
  apply andb_true_intro. split.
  - pose proof (N (TimerWake 0) eq_refl) as W. pose proof (N (TimerDone Returned) eq_refl) as D.
    simpl in W, D. unfold timer_wake in W. unfold timer_done in D. rewrite Es in W.
    destruct (ex_timer s); [|done|done]. rewrite (ei_stopping _ I Hs), Hs in W. done.
  - apply forallb_forall. intros w [i Hi]%list_elem_of_In%list_elem_of_lookup.
    pose proof (N (Take i) eq_refl) as W. pose proof (N (Done i Returned) eq_refl) as D.
    simpl in W, D. unfold worker_take in W. unfold worker_done in D. rewrite Hi in W, D.
    destruct w; [|done|done]. destruct (ex_queue s); [by rewrite Hs in W | done].
Qed.

Lemma all_exited_idle (l : list Worker) : forallb has_exited l = true -> l ≫= running_of = [].
Proof. induction l as [|[| |] l IH]; simpl; auto; done. Qed.

Lemma drain_bound ls s s' :
  ex_stopping s = true -> ex_delayed s = [] -> Forall (fun l => internal l = true) ls ->
  exec_run ls s = Some s' ->
  (length ls + exec_measure s' <= exec_measure s)%nat /\ ex_stopping s' = true /\
  ex_threadsStarted s' = ex_threadsStarted s.
Proof.
  intros Hs Hd F. revert s Hs Hd. induction F as [|l ls Hl _ IH]; simpl; intros s Hs Hd R.
  - injection R as <-. split; [lia | done].
  - destruct (exec_step l s) as [s1|] eqn:E; [|done].
    destruct (internal_decreases _ _ _ Hs Hd Hl E) as (M & Hs1 & Hd1 & Es).
    destruct (IH s1 Hs1 Hd1 R) as (M' & Hs' & Es'). rewrite Es', Es. split; [lia | done].
Qed.

(** C13: After [shutdown] the executor's threads take finitely many steps, however they
    interleave, and when none can take another the joins have returned, every
    accepted task was completed and no delayed task is left. *)
Theorem shutdown_drains th qs hw ls0 s ls s' :
  0 <= hw -> exec_run ls0 (new_executor th qs hw) = Some s -> ex_stopping s = true ->
  Forall (fun l => internal l = true) ls -> exec_run ls s = Some s' ->
  (length ls <= exec_measure s)%nat /\
  ((forall l, internal l = true -> exec_step l s' = None) ->
   joined s' = true /\ ex_queue s' = [] /\ ex_delayed s' = [] /\ ex_active s' = 0 /\
   u64 (ex_submitted s' - ex_completed s') = 0).
Proof.
  intros Hh R0 Hs F R. pose proof (inv_run _ _ _ (inv_new th qs hw Hh) R0) as I.
  pose proof (inv_run _ _ _ I R) as I'.
  destruct (drain_bound _ _ _ Hs (ei_stopping _ I Hs) F R) as (M & Hs' & Es). split; [lia|].
  intros N. pose proof (internal_progress _ I' Hs' N) as J. split; [done|].
  pose proof (ei_account _ I') as U. pose proof (ei_active _ I') as A.
  assert (Q : ex_queue s' = [] /\ running s' = []).
  { unfold joined in J. destruct (ex_threadsStarted s') eqn:St; simpl in J.
    - apply andb_true_iff in J as [_ J]. pose proof (all_exited_idle _ J) as Z.
      pose proof (ei_started _ I' St) as L. pose proof (ei_count _ I') as C.
      destruct (ex_threads s') as [|w l] eqn:T; [simpl in L; lia|].
      destruct w; try done. split; [|unfold running; by rewrite T].
      apply (ei_exited _ I'). rewrite T. left.
    - destruct (ei_fresh _ I' St) as (T & Q & _). split; [done|]. unfold running. by rewrite T. }
  destruct Q as [Q E]. rewrite A, E, Q in *. split_and!; try done. by apply (ei_stopping _ I').
Qed.

Lemma shutdown_drains_witness :
  exists s s', exec_run (demo_schedule ++ [Shutdown]) demo_executor = Some s /\
    exec_run [Done 0%nat Returned; Take 0%nat; TimerDone Returned; Done 0%nat Returned; TimerWake 0; Take 0%nat] s = Some s' /\
    (6 <= exec_measure s)%nat /\ joined s' = true.
Proof.
  do 2 eexists. split; [vm_compute; reflexivity|]. split; [vm_compute; reflexivity|].
  destruct (shutdown_drains 1 2 4 (demo_schedule ++ [Shutdown]) _
    [Done 0%nat Returned; Take 0%nat; TimerDone Returned; Done 0%nat Returned; TimerWake 0; Take 0%nat] _
    ltac:(lia) ltac:(vm_compute; reflexivity) eq_refl ltac:(repeat constructor)
    ltac:(vm_compute; reflexivity)) as [H _].
  split; [exact H | reflexivity].
Defined.

(** The joinable threads are those of an executor that was not shut down yet: one
    started before its shutdown can always be destroyed. *)
Lemma joinable_step l s s' :
  ex_threadsStarted s = true -> (ex_stopping s = true -> ex_joinable s = false) ->
  exec_step l s = Some s' ->
  ex_threadsStarted s' = true /\ (ex_stopping s' = true -> ex_joinable s' = false).
Proof.
  intros St J.
  assert (En : ensureStartedLocked s = s) by (unfold ensureStartedLocked; by rewrite St).
  destruct l as [t|t d now| |i|i e|now|e]; simpl.
  - intros [= <-]. destruct t as [t|]; [|done]. unfold tryPost. rewrite En.
    destruct (ex_stopping s) eqn:E; simpl; [rewrite E; auto|]. destruct (_ <=? _); simpl; rewrite ?E; done.
  - intros [= <-]. destruct t as [t|]; [|done]. unfold postAfter. rewrite En.
    destruct (ex_stopping s) eqn:E; simpl; rewrite ?E; auto.
  - intros [= <-]. unfold shutdown_begin. destruct (ex_stopping s) eqn:E; simpl; rewrite ?E; auto.
  - unfold worker_take. destruct (ex_threads s !! i) as [[]|]; try done.
    destruct (ex_queue s); [destruct (ex_stopping s) eqn:E; [|done]|]; intros [= <-]; simpl; rewrite ?E; auto.
  - unfold worker_done. destruct (ex_threads s !! i) as [[]|]; try done. intros [= <-]. auto.
  - unfold timer_wake. destruct (ex_timer s); rewrite St; try done.
    destruct (ex_delayed s); [destruct (ex_stopping s) eqn:E; [|done]|destruct (now <? _); [done|]];
      intros [= <-]; simpl; rewrite ?E; auto.
  - unfold timer_done. destruct (ex_timer s); try done. intros [= <-]. auto.
Qed.

(** An executor that was started before it was shut down is destroyed without
    terminating the process, whatever was posted meanwhile or afterwards. *)
Theorem started_executor_destroyed th qs hw ls s ls' s' :
  0 <= hw -> exec_run ls (new_executor th qs hw) = Some s ->
  ex_threadsStarted s = true -> ex_stopping s = false ->
  exec_run ls' s = Some s' -> destructor s' <> Terminates.
Proof.
  intros Hh R St Hs R'.
  assert (G : ex_threadsStarted s' = true /\ (ex_stopping s' = true -> ex_joinable s' = false)).
  { assert (J : ex_stopping s = true -> ex_joinable s = false) by (by rewrite Hs).
    clear R Hs. revert s St J R'. induction ls' as [|l ls' IH]; simpl; intros s St J R'.
    - injection R' as <-. done.
    - destruct (exec_step l s) as [s1|] eqn:E; [|done].
      destruct (joinable_step _ _ _ St J E). by eapply IH. }
  destruct G as [_ G]. unfold destructor. destruct (ex_stopping s'); simpl; [|done]. by rewrite G.
Qed.

Lemma started_executor_destroyed_witness :
  exists s s', exec_run demo_schedule demo_executor = Some s /\
    exec_run [Shutdown; TryPost (Some 7); TimerDone Returned; Shutdown] s = Some s' /\
    destructor s' <> Terminates.
Proof.
  do 2 eexists. split; [vm_compute; reflexivity|]. split; [vm_compute; reflexivity|].
  exact (started_executor_destroyed 1 2 4 demo_schedule _
    [Shutdown; TryPost (Some 7); TimerDone Returned; Shutdown] _ ltac:(lia)
    ltac:(vm_compute; reflexivity) eq_refl eq_refl ltac:(vm_compute; reflexivity)).
Defined.

(** An executor shut down before its first task starts its threads at the first late
    post, which it refuses; nobody joins them, and destroying the executor
    terminates the process. *)
Theorem late_first_post_terminates th qs hw t :
  exists s, exec_run [Shutdown; TryPost (Some t)] (new_executor th qs hw) = Some s /\
    (tryPost (Some t) (shutdown_begin (new_executor th qs hw))).1 = false /\
    destructor (shutdown_begin (new_executor th qs hw)) = Clean /\ destructor s = Terminates.
Proof. by eexists. Qed.

Lemma sorted_first d l e :
  Sorted dl_ordered (d :: l) -> e ∈ l -> dl_deadline d <= dl_deadline e.
Proof.
  assert (T : forall a b, dl_ordered a b -> dl_deadline a <= dl_deadline b).
  { intros a b. unfold dl_ordered, delayed_lt. destruct (dl_deadline a =? dl_deadline b) eqn:E;
      simpl; rewrite ?Z.ltb_ge; bool_prop; lia. }
  revert d. induction l as [|x l IH]; intros d S He; [by apply elem_of_nil in He|].
  apply Sorted_inv in S as [S Hd]. inversion_clear Hd as [|? ? H]. apply T in H.
  apply elem_of_cons in He as [->|He]; [done|]. specialize (IH x S He). lia.
Qed.

(** The timer thread never runs a delayed task before its deadline and always takes
    one whose deadline is the earliest of those pending. *)
Theorem timer_runs_earliest th qs hw ls s now s' t :
  0 <= hw -> exec_run ls (new_executor th qs hw) = Some s -> timer_wake now s = Some s' ->
  ex_timer s' = Running t ->
  exists d, d ∈ ex_delayed s /\ dl_task d = t /\ dl_deadline d <= now /\
    (forall e, e ∈ ex_delayed s' -> dl_deadline d <= dl_deadline e).
Proof.
  intros Hh R W Ht. pose proof (ei_sorted _ (inv_run _ _ _ (inv_new th qs hw Hh) R)) as S. revert W.
  unfold timer_wake. destruct (ex_threadsStarted s), (ex_timer s); try done.
  destruct (ex_delayed s) as [|d l].
  - destruct (ex_stopping s); [|done]. intros [= <-]. done.
  - destruct (now <? _) eqn:E; [done|]. intros [= <-]. injection Ht as <-. bool_prop.
    exists d. split_and!; [left | done | done | intros e; by apply sorted_first].
Qed.

Lemma timer_runs_earliest_witness :
  exists s s', exec_run [PostAfter (Some 1) 9 0; PostAfter (Some 2) 3 0; PostAfter (Some 3) (-4) 3000000] demo_executor = Some s /\
    timer_wake 5000000 s = Some s' /\
    exists d, d ∈ ex_delayed s /\ dl_task d = 2 /\ dl_deadline d <= 5000000.
Proof.
  do 2 eexists. split; [vm_compute; reflexivity|]. split; [vm_compute; reflexivity|].
  destruct (timer_runs_earliest 1 2 4
    [PostAfter (Some 1) 9 0; PostAfter (Some 2) 3 0; PostAfter (Some 3) (-4) 3000000] _ 5000000 _ 2
    ltac:(lia) ltac:(vm_compute; reflexivity) ltac:(vm_compute; reflexivity) eq_refl) as (d & H1 & H2 & H3 & _).
  exists d. split; [exact H1 | split; [exact H2 | exact H3]].
Defined.
