(* ===== verification/PgTypes.v ===== *)
(** * PostgreSQL text forms (src/common/pg_types.cpp)

    The scanner of numbers and points, the geometric types with their parsers,
    printers and JSON forms, and the array and composite literals.  A [double] is a
    [spec_float] of 53 bits; [std::pow(10.0, e)] and [snprintf(%.*g)], whose results
    belong to the C library, are parameters.  A parser answers [None] where the
    source returns false; what it left in its out parameter is not modelled. *)
From stdpp Require Import base list strings.
From Stdlib Require Import Ascii ZArith Lia.
From Stdlib Require Import Floats.SpecFloat.
From S2P Require Import Prelude Doubles.

Open Scope Z_scope.

(** ** Geometric values *)
Record PgPoint := mkPoint { pt_x : double; pt_y : double }.
Record PgLine := mkLine { ln_a : double; ln_b : double; ln_c : double }.
Record PgLseg := mkLseg { sg_p1 : PgPoint; sg_p2 : PgPoint }.
Record PgBox := mkBox { bx_high : PgPoint; bx_low : PgPoint }.
Record PgPath := mkPath { ph_closed : bool; ph_points : list PgPoint }.
Record PgPolygon := mkPolygon { pg_points : list PgPoint }.
Record PgCircle := mkCircle { cr_center : PgPoint; cr_radius : double }.

(** [operator==] *)
Definition point_eq (a b : PgPoint) : bool := SFeqb (pt_x a) (pt_x b) && SFeqb (pt_y a) (pt_y b).
Definition line_eq (a b : PgLine) : bool :=
  SFeqb (ln_a a) (ln_a b) && SFeqb (ln_b a) (ln_b b) && SFeqb (ln_c a) (ln_c b).
Definition lseg_eq (a b : PgLseg) : bool := point_eq (sg_p1 a) (sg_p1 b) && point_eq (sg_p2 a) (sg_p2 b).
Definition box_eq (a b : PgBox) : bool :=
  point_eq (bx_high a) (bx_high b) && point_eq (bx_low a) (bx_low b).
Fixpoint points_eq (a b : list PgPoint) : bool :=
  match a, b with
  | [], [] => true
  | x :: a', y :: b' => point_eq x y && points_eq a' b'
  | _, _ => false
  end.
Definition path_eq (a b : PgPath) : bool :=
  Bool.eqb (ph_closed a) (ph_closed b) && points_eq (ph_points a) (ph_points b).
Definition polygon_eq (a b : PgPolygon) : bool := points_eq (pg_points a) (pg_points b).
Definition circle_eq (a b : PgCircle) : bool :=
  point_eq (cr_center a) (cr_center b) && SFeqb (cr_radius a) (cr_radius b).

(** ** The scanner

    Its state is what is left of the text. *)
Definition is_ws (c : ascii) : bool :=
  Ascii.eqb c " " || Ascii.eqb c "009" || Ascii.eqb c "010" || Ascii.eqb c "013".
Definition sc_ws (s : str) : str := skip_while is_ws s.
Definition sc_lit (c : ascii) (s : str) : bool * str :=
  match sc_ws s with
  | d :: r => if Ascii.eqb d c then (true, r) else (false, d :: r)
  | [] => (false, [])
  end.
Definition sc_eof (s : str) : bool := is_nil (sc_ws s).

Definition digit_value (c : ascii) : Z := Z.of_N (code c) - 48.
Fixpoint scan_digits {A} (step : A -> Z -> A) (a : A) (s : str) : A * str :=
  match s with
  | c :: r => if isdigit c then scan_digits step (step a (digit_value c)) r else (a, s)
  | [] => (a, [])
  end.
Definition scan_sign (s : str) : bool * str :=
  match s with
  | c :: r => if Ascii.eqb c "+" || Ascii.eqb c "-" then (Ascii.eqb c "-", r) else (false, s)
  | [] => (false, [])
  end.

Definition whole_step (a : double * bool) (d : Z) : double * bool :=
  (fadd (fmul a.1 (f64 10)) (f64 d), true).
Definition frac_step (a : double * double * bool) (d : Z) : double * double * bool :=
  (fadd (fmul a.1.1 (f64 10)) (f64 d), fmul a.1.2 (f64 10), true).
Definition exp_step (a : Z * bool) (d : Z) : Z * bool :=
  (if a.1 <? 100000 then a.1 * 10 + d else a.1, true).

Definition scan_frac (digit : bool) (s : str) : double * double * bool * str :=
  match s with
  | c :: r => if Ascii.eqb c "." then scan_digits frac_step (f64 0, f64 1, digit) r
              else (f64 0, f64 1, digit, s)
  | [] => (f64 0, f64 1, digit, [])
  end.

(** The exponent; [None] when no digit follows the letter. *)
Definition scan_exp (s : str) : option (Z * str) :=
  match s with
  | c :: r =>
      if Ascii.eqb c "e" || Ascii.eqb c "E" then
        let '(negExp, r) := scan_sign r in
        let '(e, expDigit, r) := scan_digits exp_step (0, false) r in
        if expDigit : bool then Some ((if negExp : bool then - e else e), r) else None
      else Some (0, s)
  | [] => Some (0, [])
  end.

Section Numbers.
Variable pow10 : Z -> double.

Definition sc_number (s : str) : option double * str :=
  let start := sc_ws s in
  let '(negative, s1) := scan_sign start in
  let '(whole, digit, s2) := scan_digits whole_step (f64 0, false) s1 in
  let '(frac, scale, digit, s3) := scan_frac digit s2 in
  if negb digit then (None, start)
  else
    match scan_exp s3 with
    | None => (None, start)
    | Some (exp, s4) =>
        let v := fmul (fadd whole (fdiv frac scale)) (pow10 exp) in
        (Some (if negative : bool then SFopp v else v), s4)
    end.

(** [if (!f(sc)) return false;] for a literal, a number, a point *)
Definition need (c : ascii) (s : str) : option (unit * str) :=
  let '(ok, s) := sc_lit c s in if ok : bool then Some (tt, s) else None.
Definition need_number (s : str) : option (double * str) :=
  let '(v, s) := sc_number s in v ← v; Some (v, s).
Definition need_eof {A} (a : A) (s : str) : option A := if sc_eof s then Some a else None.

Definition sc_point (s : str) : option (PgPoint * str) :=
  '(_, s) ← need "(" s; '(x, s) ← need_number s; '(_, s) ← need "," s;
  '(y, s) ← need_number s; '(_, s) ← need ")" s; Some (mkPoint x y, s).

(** The loop of [points]; every round takes at least one character. *)
Fixpoint sc_points_loop (fuel : nat) (close : ascii) (out : list PgPoint) (s : str)
    : option (list PgPoint * str) :=
  match fuel with
  | O => None
  | S fuel =>
      '(p, s) ← sc_point s;
      let out := out ++ [p] in
      let '(comma, s) := sc_lit "," s in
      if comma : bool then sc_points_loop fuel close out s
      else '(_, s) ← need close s; Some (out, s)
  end.

Definition sc_points (open close : ascii) (s : str) : option (list PgPoint * str) :=
  '(_, s) ← need open s;
  let '(empty, s) := sc_lit close s in
  if empty : bool then Some ([], s) else sc_points_loop (S (length s)) close [] s.

Definition pgParseDouble (text : str) : option double :=
  '(v, s) ← need_number text; need_eof v s.

Definition pgParsePoint (text : str) : option PgPoint :=
  '(p, s) ← sc_point text; need_eof p s.
Definition pgParseLine (text : str) : option PgLine :=
  '(_, s) ← need "{" text; '(a, s) ← need_number s; '(_, s) ← need "," s;
  '(b, s) ← need_number s; '(_, s) ← need "," s; '(c, s) ← need_number s;
  '(_, s) ← need "}" s; need_eof (mkLine a b c) s.
Definition pgParseLseg (text : str) : option PgLseg :=
  '(_, s) ← need "[" text; '(p, s) ← sc_point s; '(_, s) ← need "," s;
  '(q, s) ← sc_point s; '(_, s) ← need "]" s; need_eof (mkLseg p q) s.
Definition pgParseBox (text : str) : option PgBox :=
  '(p, s) ← sc_point text; '(_, s) ← need "," s; '(q, s) ← sc_point s; need_eof (mkBox p q) s.
Definition pgParsePath (text : str) : option PgPath :=
  let s := sc_ws text in
  let closed := match s with c :: _ => Ascii.eqb c "(" | [] => false end in
  '(ps, s) ← (if closed then sc_points "(" ")" s else sc_points "[" "]" s);
  need_eof (mkPath closed ps) s.
Definition pgParsePolygon (text : str) : option PgPolygon :=
  '(ps, s) ← sc_points "(" ")" text; need_eof (mkPolygon ps) s.
Definition pgParseCircle (text : str) : option PgCircle :=
  '(_, s) ← need "<" text; '(p, s) ← sc_point s; '(_, s) ← need "," s;
  '(r, s) ← need_number s; '(_, s) ← need ">" s; need_eof (mkCircle p r) s.

(** ** Printers *)
Variable snprintf_g : Z -> double -> str.

(** The loop over the precision 15, 16, 17: the text of the first that reads back,
    else of the last. *)
Definition reads_as (text : str) (v : double) : bool :=
  match pgParseDouble text with Some back => SFeqb back v | None => false end.
Definition format_digits (v : double) : str :=
  if reads_as (snprintf_g 15 v) v then snprintf_g 15 v
  else if reads_as (snprintf_g 16 v) v then snprintf_g 16 v
  else snprintf_g 17 v.

Definition pgFormatDouble (v : double) : str :=
  if isnan v then lit "NaN"
  else if isinf v then
    (match v with S754_infinity false => lit "Infinity" | _ => lit "-Infinity" end)
  else map (fun c => if Ascii.eqb c "," then "."%char else c) (format_digits v).
Definition num (v : double) : str := pgFormatDouble v.

(** [if (i) s += ','] between the elements. *)
Fixpoint comma_list {A} (f : A -> str) (l : list A) : str :=
  match l with
  | [] => []
  | [a] => f a
  | a :: l' => f a ++ lit "," ++ comma_list f l'
  end.

Definition pgFormatPoint (p : PgPoint) : str :=
  lit "(" ++ num (pt_x p) ++ lit "," ++ num (pt_y p) ++ lit ")".
Definition pgFormatLine (l : PgLine) : str :=
  lit "{" ++ num (ln_a l) ++ lit "," ++ num (ln_b l) ++ lit "," ++ num (ln_c l) ++ lit "}".
Definition pgFormatLseg (g : PgLseg) : str :=
  lit "[" ++ pgFormatPoint (sg_p1 g) ++ lit "," ++ pgFormatPoint (sg_p2 g) ++ lit "]".
Definition pgFormatBox (b : PgBox) : str :=
  pgFormatPoint (bx_high b) ++ lit "," ++ pgFormatPoint (bx_low b).
Definition pgFormatPath (p : PgPath) : str :=
  lit (if ph_closed p then "(" else "[") ++ comma_list pgFormatPoint (ph_points p) ++
  lit (if ph_closed p then ")" else "]").
Definition pgFormatPolygon (p : PgPolygon) : str :=
  lit "(" ++ comma_list pgFormatPoint (pg_points p) ++ lit ")".
Definition pgFormatCircle (c : PgCircle) : str :=
  lit "<" ++ pgFormatPoint (cr_center c) ++ lit "," ++ num (cr_radius c) ++ lit ">".

(** *** JSON: a member is printed as its quoted name, a colon and its value. *)
Definition dquote : str := ["034"%char].
Definition member (name : string) (value : str) : str :=
  dquote ++ lit name ++ dquote ++ lit ":" ++ value.
Definition jsonPoint (p : PgPoint) : str :=
  lit "{" ++ member "x" (num (pt_x p)) ++ lit "," ++ member "y" (num (pt_y p)) ++ lit "}".
Definition jsonPoints (ps : list PgPoint) : str := lit "[" ++ comma_list jsonPoint ps ++ lit "]".

Inductive Geometry :=
  | GPoint (p : PgPoint) | GLine (l : PgLine) | GLseg (s : PgLseg) | GBox (b : PgBox)
  | GPath (p : PgPath) | GPolygon (p : PgPolygon) | GCircle (c : PgCircle).
Definition pgGeometryToJson (g : Geometry) : str :=
  match g with
  | GPoint p => jsonPoint p
  | GLine l => lit "{" ++ member "a" (num (ln_a l)) ++ lit "," ++ member "b" (num (ln_b l)) ++
               lit "," ++ member "c" (num (ln_c l)) ++ lit "}"
  | GLseg s => lit "{" ++ member "p1" (jsonPoint (sg_p1 s)) ++ lit "," ++
               member "p2" (jsonPoint (sg_p2 s)) ++ lit "}"
  | GBox b => lit "{" ++ member "high" (jsonPoint (bx_high b)) ++ lit "," ++
              member "low" (jsonPoint (bx_low b)) ++ lit "}"
  | GPath p => lit "{" ++ member "closed" (lit (if ph_closed p then "true" else "false")) ++
               lit "," ++ member "points" (jsonPoints (ph_points p)) ++ lit "}"
  | GPolygon p => lit "{" ++ member "points" (jsonPoints (pg_points p)) ++ lit "}"
  | GCircle c => lit "{" ++ member "center" (jsonPoint (cr_center c)) ++ lit "," ++
                 member "radius" (num (cr_radius c)) ++ lit "}"
  end.
End Numbers.

(** ** Array and composite literals *)
Definition is_null_word (raw : str) : bool :=
  match raw with
  | [a; b; c; d] =>
      (Ascii.eqb a "N" || Ascii.eqb a "n") && (Ascii.eqb b "U" || Ascii.eqb b "u") &&
      (Ascii.eqb c "L" || Ascii.eqb c "l") && (Ascii.eqb d "L" || Ascii.eqb d "l")
  | _ => false
  end.
Definition bslash : ascii := "092".
Definition quote : ascii := "034".
Definition special (c : ascii) : bool :=
  Ascii.eqb c "{" || Ascii.eqb c "}" || Ascii.eqb c "," || Ascii.eqb c quote ||
  Ascii.eqb c bslash || is_ws c.
Definition needsQuoting (raw : str) : bool :=
  is_nil raw || is_null_word raw || existsb special raw.

Definition escape_element (raw : str) : str :=
  raw ≫= (fun c => if Ascii.eqb c quote || Ascii.eqb c bslash then [bslash; c] else [c]).
Definition pgQuoteArrayElement (raw : str) : str :=
  if needsQuoting raw then [quote] ++ escape_element raw ++ [quote] else raw.

Definition pgFormatArray (elements : list (option str)) : str :=
  lit "{" ++ comma_list (fun e => match e with Some r => pgQuoteArrayElement r | None => lit "NULL" end)
               elements ++ lit "}".
Definition pgFormatComposite (elements : list (option str)) : str :=
  lit "(" ++ comma_list (fun e => match e with Some r => pgQuoteArrayElement r | None => [] end)
               elements ++ lit ")".

(** The lambda [flush]. *)
Definition flush_element (emptyIsNull quotedAny : bool) (raw : str) : option str :=
  if negb quotedAny && str_eqb raw (lit "NULL") then None
  else if negb quotedAny && is_nil raw && emptyIsNull then None
  else Some raw.

(** The loop of [splitElements] over what lies between the brackets. *)
Fixpoint split_loop (open close : ascii) (emptyIsNull : bool) (s raw : str) (quoted quotedAny : bool)
    (depth : Z) (out : list (option str)) : option (list (option str)) :=
  let continue_ := split_loop open close emptyIsNull in
  match s with
  | [] => if quoted || negb (depth =? 0) then None
          else Some (out ++ [flush_element emptyIsNull quotedAny raw])
  | c :: rest =>
      if quoted then
        match rest with
        | d :: rest' =>
            if Ascii.eqb c bslash then continue_ rest' (raw ++ [d]) true quotedAny depth out
            else if Ascii.eqb c quote then continue_ rest raw false quotedAny depth out
            else continue_ rest (raw ++ [c]) true quotedAny depth out
        | [] =>
            if Ascii.eqb c quote then continue_ rest raw false quotedAny depth out
            else continue_ rest (raw ++ [c]) true quotedAny depth out
        end
      else if Ascii.eqb c quote then continue_ rest raw true true depth out
      else if Ascii.eqb c open then continue_ rest (raw ++ [c]) false quotedAny (depth + 1) out
      else if Ascii.eqb c close then
        if depth - 1 <? 0 then None else continue_ rest (raw ++ [c]) false quotedAny (depth - 1) out
      else if Ascii.eqb c "," && (depth =? 0) then
        continue_ rest [] false false depth (out ++ [flush_element emptyIsNull quotedAny raw])
      else continue_ rest (raw ++ [c]) false quotedAny depth out
  end.

(** The first and the last character, and what lies between them. *)
Definition splitElements (text : str) (open close : ascii) (emptyIsNull : bool)
    : option (list (option str)) :=
  match text with
  | c :: (_ :: _) as rest =>
      if negb (Ascii.eqb c open) || negb (Ascii.eqb (List.last rest "000"%char) close) then None
      else if Z.of_nat (length text) =? 2 then Some []
      else split_loop open close emptyIsNull (removelast rest) [] false false 0 []
  | _ => None
  end.

Definition pgParseArray (text : str) : option (list (option str)) := splitElements text "{" "}" false.
Definition pgParseComposite (text : str) : option (list (option str)) := splitElements text "(" ")" true.

Definition pgGeometryTypeName (oid : Z) : option str :=
  if oid =? 600 then Some (lit "point")
  else if oid =? 601 then Some (lit "lseg")
  else if oid =? 602 then Some (lit "path")
  else if oid =? 603 then Some (lit "box")
  else if oid =? 604 then Some (lit "polygon")
  else if oid =? 628 then Some (lit "line")
  else if oid =? 718 then Some (lit "circle")
  else None.
Definition pgIsGeometryOid (oid : Z) : bool :=
  match pgGeometryTypeName oid with Some _ => true | None => false end.

(** ** Literals read back

    The nesting depth after an unquoted run; [None] when a bracket closes nothing. *)
Fixpoint bracket_depth (open close : ascii) (d : Z) (raw : str) : option Z :=
  match raw with
  | [] => Some d
  | c :: r =>
      if Ascii.eqb c open then bracket_depth open close (d + 1) r
      else if Ascii.eqb c close then if d - 1 <? 0 then None else bracket_depth open close (d - 1) r
      else bracket_depth open close d r
  end.
Definition balanced (raw : str) : bool := bool_decide (bracket_depth "(" ")" 0 raw = Some 0).

(** What [pgFormatComposite] prints of an element so that it can be read back. *)
Definition composite_safe (e : option str) : bool :=
  match e with Some r => needsQuoting r || balanced r | None => true end.

Section Split.
Variables (open close : ascii) (emptyIsNull : bool).
Hypothesis not_comma : Ascii.eqb "," open = false /\ Ascii.eqb "," close = false.
#[local] Abbreviation split := (split_loop open close emptyIsNull).

(** A quoted run of escaped characters. *)
Lemma split_escaped raw s acc any depth out :
  split (escape_element raw ++ quote :: s) acc true any depth out =
  split s (acc ++ raw) false any depth out.
Proof.
  revert acc. induction raw as [|c raw IH]; intros acc.
  - rewrite app_nil_r. by destruct s.
  - unfold escape_element in *. rewrite bind_cons. simpl. replace (acc ++ c :: raw) with ((acc ++ [c]) ++ raw)
      by (rewrite <- app_assoc; done). rewrite <- IH.
    destruct (Ascii.eqb c quote) eqn:E1; simpl; [done|].
    destruct (Ascii.eqb c bslash) eqn:E2; simpl; [done|].
    rewrite E1, E2. by destruct (_ ++ quote :: s) eqn:E; [destruct (raw ≫= _)|].
Qed.

(** An unquoted run. *)
Lemma split_plain raw s acc any d d' out :
  existsb special raw = false -> bracket_depth open close d raw = Some d' ->
  split (raw ++ s) acc false any d out = split s (acc ++ raw) false any d' out.
Proof.
  revert acc d. induction raw as [|c raw IH]; intros acc d; simpl; intros S D.
  - injection D as ->. by rewrite app_nil_r.
  - apply orb_false_iff in S as [Sc S].
    replace (acc ++ c :: raw) with ((acc ++ [c]) ++ raw) by (rewrite <- app_assoc; done).
    unfold special in Sc. apply orb_false_iff in Sc as [Sc _]. bool_prop.
    assert (Q : Ascii.eqb c quote = false) by (by apply Ascii.eqb_neq).
    assert (K : Ascii.eqb c "," = false) by (by apply Ascii.eqb_neq).
    rewrite Q, K. simpl. destruct (Ascii.eqb c open); [by apply IH|].
    destruct (Ascii.eqb c close); [destruct (d - 1 <? 0); [done|]; by apply IH|]. by apply IH.
Qed.

(** The text [t] is read as the element [e]. *)
Definition element_reads (t : str) (e : option str) : Prop :=
  exists raw any, flush_element emptyIsNull any raw = e /\
    forall s out, split (t ++ s) [] false false 0 out = split s raw false any 0 out.

Lemma quoted_reads raw : element_reads ([quote] ++ escape_element raw ++ [quote]) (Some raw).
Proof.
  exists raw, true. split; [done|]. intros s out.
  rewrite <- !app_assoc. simpl. by rewrite split_escaped.
Qed.

Lemma plain_reads raw :
  needsQuoting raw = false -> bracket_depth open close 0 raw = Some 0 -> element_reads raw (Some raw).
Proof.
  unfold needsQuoting. intros N D. bool_prop. exists raw, false. split.
  - unfold flush_element. destruct (str_eqb raw (lit "NULL")) eqn:E.
    + apply str_eqb_eq in E. assert (is_null_word (lit "NULL") = true) by done. congruence.
    + by destruct raw.
  - intros s out. by rewrite (split_plain raw s [] false 0 0).
Qed.

Lemma list_reads f l out :
  (forall e, e ∈ l -> element_reads (f e) e) -> l <> [] ->
  split (comma_list f l) [] false false 0 out = Some (out ++ l).
Proof.
  revert out. induction l as [|e l IH]; intros out H N; [done|].
  destruct (H e) as (raw & any & F & R); [left|].
  destruct l as [|e' l].
  - simpl comma_list. specialize (R [] out). rewrite app_nil_r in R. rewrite R. simpl. by rewrite F.
  - change (comma_list f (e :: e' :: l)) with (f e ++ [","%char] ++ comma_list f (e' :: l)).
    rewrite R. cbn [app split_loop]. destruct not_comma as [-> ->]. change (Ascii.eqb "," quote) with false.
    change (Ascii.eqb "," "," && (0 =? 0)) with true. cbv iota.
    rewrite F, IH; [by rewrite <- app_assoc | | done]. intros x Hx. apply H. by right.
Qed.

Lemma brackets_read body :
  splitElements (open :: body ++ [close]) open close emptyIsNull =
  if is_nil body then Some [] else split body [] false false 0 [].
Proof.
  unfold splitElements. assert (exists c r, body ++ [close] = c :: r) as (c & r & E) by (destruct body; eauto).
  rewrite E. rewrite <- E. rewrite removelast_last, last_last, !Ascii.eqb_refl. simpl negb. simpl orb.
  destruct body as [|b body]; [done|]. simpl is_nil.
  replace (_ =? 2) with false; [done|]. symmetry. apply Z.eqb_neq. simpl. rewrite length_app. simpl. lia.
Qed.
End Split.

Lemma unspecial_depth raw d :
  existsb special raw = false -> bracket_depth "{" "}" d raw = Some d.
Proof.
  induction raw as [|c raw IH]; [done|]. simpl. intros [Sc S]%orb_false_iff.
  unfold special in Sc. bool_prop.
  assert (E1 : Ascii.eqb c "{" = false) by (by apply Ascii.eqb_neq).
  assert (E2 : Ascii.eqb c "}" = false) by (by apply Ascii.eqb_neq).
  rewrite E1, E2. auto.
Qed.

Lemma array_element_reads e :
  element_reads "{" "}" false
    (match e with Some r => pgQuoteArrayElement r | None => lit "NULL" end) e.
Proof.
  destruct e as [r|]; [|exists (lit "NULL"), false; by split].
  unfold pgQuoteArrayElement. destruct (needsQuoting r) eqn:N; [apply quoted_reads|].
  apply plain_reads; [done|]. apply unspecial_depth. unfold needsQuoting in N. by bool_prop.
Qed.

Lemma quote_nonnil r : pgQuoteArrayElement r <> [].
Proof. unfold pgQuoteArrayElement. destruct (needsQuoting r) eqn:N; [done|]. by intros ->. Qed.

Lemma comma_list_nil {A} (f : A -> str) l :
  comma_list f l = [] -> l = [] \/ exists a, l = [a] /\ f a = [].
Proof. destruct l as [|a [|b l]]; [by left | by right; eauto |]. simpl. by destruct (f a). Qed.

Lemma array_reads_back l : pgParseArray (pgFormatArray l) = Some l.
Proof.
  unfold pgParseArray, pgFormatArray. cbn [lit String.list_ascii_of_string app].
  rewrite brackets_read. destruct (is_nil _) eqn:E.
  - destruct (comma_list _ l) eqn:C; [|done].
    apply comma_list_nil in C as [->|([r|] & -> & N)]; [done| |done]. by apply quote_nonnil in N.
  - destruct l as [|e l]; [done|].
    rewrite (list_reads "{" "}" false); [done | done | intros x _; apply array_element_reads | done].
Qed.

(** Every list of elements, null or any text whatever, is read back from its array
    literal. *)
Theorem pgParseArray_pgFormatArray l : pgParseArray (pgFormatArray l) = Some l.
Proof. apply array_reads_back. Qed.

(** A composite is read back when each of its elements is printed in quotes or has
    its round brackets balanced, the row of a single null excepted. *)
Theorem pgParseComposite_pgFormatComposite l :
  forallb composite_safe l = true -> l <> [None] -> pgParseComposite (pgFormatComposite l) = Some l.
Proof.
  intros H N. unfold pgParseComposite, pgFormatComposite. cbn [lit String.list_ascii_of_string app].
  rewrite brackets_read. destruct (is_nil _) eqn:E.
  - destruct (comma_list _ l) eqn:C; [|done].
    apply comma_list_nil in C as [->|([r|] & -> & F)]; [done| |done]. by apply quote_nonnil in F.
  - destruct l as [|e l]; [done|].
    rewrite (list_reads "(" ")" true); [done | done | | done].
    intros x Hx%list_elem_of_In. assert (S : composite_safe x = true) by (eapply forallb_forall; eauto).
    destruct x as [r|]; [|exists [], false; by split].
    simpl in S. unfold pgQuoteArrayElement. destruct (needsQuoting r) eqn:Q; [apply quoted_reads|].
    apply plain_reads; [done|]. unfold balanced in S. simpl in S. by bool_prop.
Qed.

Lemma pgParseComposite_pgFormatComposite_witness :
  pgParseComposite (pgFormatComposite [Some (lit "f(x)"); None; Some (lit "a,b"); Some []; Some (lit "null")]) =
  Some [Some (lit "f(x)"); None; Some (lit "a,b"); Some []; Some (lit "null")].
Proof. apply pgParseComposite_pgFormatComposite; [reflexivity | discriminate]. Defined.

(** Brackets are not quoted in a composite: an element with an unbalanced one is
    refused or read as part of its neighbour, and the row of one null is read as
    the empty row. *)
Theorem composite_brackets_unquoted :
  pgParseComposite (pgFormatComposite [Some (lit "a)")]) = None /\
  pgParseComposite (pgFormatComposite [Some (lit "("); Some (lit ")")]) = Some [Some (lit "(,)")] /\
  pgParseComposite (pgFormatComposite [None]) = Some [].
Proof. by vm_compute. Qed.

(** A quote that the server doubles inside a quoted field of a composite is lost. *)
Theorem composite_doubled_quote_lost :
  pgParseComposite (lit "(" ++ [quote] ++ lit "a" ++ [quote; quote] ++ lit "b" ++ [quote] ++ lit ")") =
    Some [Some (lit "ab")].
Proof. reflexivity. Qed.

(** ** Numbers followed by a delimiter *)
Definition stops (rest : str) : Prop :=
  match rest with
  | c :: _ => isdigit c = false /\ Ascii.eqb c "." = false /\ Ascii.eqb c "+" = false /\
              Ascii.eqb c "-" = false /\ Ascii.eqb c "e" = false /\ Ascii.eqb c "E" = false
  | [] => True
  end.

Lemma scan_digits_app {A} (step : A -> Z -> A) a t rest :
  stops rest ->
  scan_digits step a (t ++ rest) =
  ((scan_digits step a t).1, (scan_digits step a t).2 ++ rest).
Proof.
  intros H. revert a. induction t as [|c t IH]; intros a; simpl.
  - destruct rest as [|d rest]; [done|]. destruct H as (Hd & _). simpl. by rewrite Hd.
  - destruct (isdigit c); [apply IH | done].
Qed.

Lemma scan_sign_app t rest :
  stops rest -> scan_sign (t ++ rest) = ((scan_sign t).1, (scan_sign t).2 ++ rest).
Proof.
  intros H. destruct t as [|c t]; simpl.
  - destruct rest as [|d rest]; [done|]. destruct H as (_ & _ & Hp & Hm & _). simpl. by rewrite Hp, Hm.
  - by destruct (_ || _).
Qed.

Lemma scan_frac_app digit t rest :
  stops rest -> scan_frac digit (t ++ rest) = ((scan_frac digit t).1, (scan_frac digit t).2 ++ rest).
Proof.
  intros H. destruct t as [|c t]; simpl.
  - destruct rest as [|d rest]; [done|]. destruct H as (_ & Hd & _). simpl. by rewrite Hd.
  - destruct (Ascii.eqb c "."); [by apply scan_digits_app | done].
Qed.

Lemma scan_exp_app t rest :
  stops rest -> scan_exp (t ++ rest) = (fun r => (r.1, r.2 ++ rest)) <$> scan_exp t.
Proof.
  intros H. destruct t as [|c t]; simpl.
  - destruct rest as [|d rest]; [done|]. destruct H as (_ & _ & _ & _ & He & HE). simpl. by rewrite He, HE.
  - destruct (_ || _); [|done]. rewrite (scan_sign_app _ _ H).
    destruct (scan_sign t) as [neg r]. simpl. rewrite (scan_digits_app _ _ _ _ H).
    destruct (scan_digits exp_step (0, false) r) as [[e d] r']. simpl. by destruct d.
Qed.

Lemma skip_while_app f t rest :
  skip_while f t <> [] -> skip_while f (t ++ rest) = skip_while f t ++ rest.
Proof. induction t as [|c t IH]; simpl; [done|]. by destruct (f c). Qed.

Section Scan.
Variable pow10 : Z -> double.
#[local] Abbreviation sc_number := (sc_number pow10).

(** A number is read the same before a delimiter. *)
Lemma sc_number_app t rest v r :
  stops rest -> sc_number t = (Some v, r) -> sc_number (t ++ rest) = (Some v, r ++ rest).
Proof.
  intros H. unfold sc_number, PgTypes.sc_number, sc_ws.
  destruct (decide (skip_while is_ws t = [])) as [E|E].
  - rewrite E. simpl. done.
  - rewrite (skip_while_app _ _ rest E). rewrite (scan_sign_app _ _ H).
    destruct (scan_sign (skip_while is_ws t)) as [neg s1]. simpl.
    rewrite (scan_digits_app _ _ _ _ H).
    destruct (scan_digits whole_step _ s1) as [[whole digit] s2]. simpl.
    rewrite (scan_frac_app _ _ _ H).
    destruct (scan_frac digit s2) as [[[frac scale] digit'] s3]. simpl.
    destruct digit'; simpl; [|done]. rewrite (scan_exp_app _ _ H).
    destruct (scan_exp s3) as [[e s4]|]; [|done]. by intros [= <- <-].
Qed.

Lemma need_spaced c r rest :
  is_ws c = false -> sc_ws r = [] -> need c (r ++ c :: rest) = Some (tt, rest).
Proof.
  unfold need, sc_lit, sc_ws. intros Hc Hr.
  assert (E : skip_while is_ws (r ++ c :: rest) = c :: rest).
  { induction r as [|d r IH]; simpl in *; [by rewrite Hc|]. destruct (is_ws d); [auto | done]. }
  by rewrite E, Ascii.eqb_refl.
Qed.

(** The text [t] holds the number [v] and nothing else but blanks after it. *)
Definition holds (t : str) (v : double) : Prop :=
  exists r, sc_number t = (Some v, r) /\ sc_ws r = [].

Lemma parseDouble_holds t v : pgParseDouble pow10 t = Some v <-> holds t v.
Proof.
  unfold pgParseDouble, need_number, need_eof, sc_eof, holds.
  destruct (PgTypes.sc_number pow10 t) as [[w|] r]; simpl.
  - destruct (sc_ws r) eqn:E; simpl; split.
    + intros [= ->]. eauto.
    + intros (r' & [= -> ->] & _). done.
    + done.
    + intros (r' & [= -> ->] & E'). congruence.
  - split; [done|]. by intros (r' & ? & _).
Qed.

Lemma need_number_holds t v c rest :
  holds t v -> stops (c :: rest) -> is_ws c = false ->
  exists r, need_number pow10 (t ++ c :: rest) = Some (v, r ++ c :: rest) /\ sc_ws r = [].
Proof.
  intros (r & E & W) H Hc. exists r. split; [|done]. unfold need_number.
  by rewrite (sc_number_app _ _ _ _ H E).
Qed.

(** A delimiter that follows a number. *)
Definition delimiter (c : ascii) : Prop := stops [c] /\ is_ws c = false.

Lemma number_then {A} (k : double -> str -> option A) t v c rest :
  holds t v -> delimiter c ->
  ('(x, s) ← need_number pow10 (t ++ c :: rest); '(_, s) ← need c s; k x s) = k v rest.
Proof.
  intros H [Hs Hc]. destruct (need_number_holds _ _ c rest H Hs Hc) as (r & -> & W).
  simpl. by rewrite (need_spaced _ _ _ Hc W).
Qed.

Lemma need_here {A} (k : str -> option A) c rest :
  is_ws c = false -> ('(_, s) ← need c (c :: rest); k s) = k rest.
Proof. intros Hc. change (c :: rest) with ([] ++ c :: rest). by rewrite (need_spaced c [] rest Hc). Qed.

(** *** Printed numbers *)
Variable snprintf_g : Z -> double -> str.
#[local] Abbreviation num := (num pow10 snprintf_g).

(** What is scanned holds no comma. *)
Definition no_comma (s : str) : bool := forallb (fun c => negb (Ascii.eqb c ",")) s.

Lemma no_comma_cons c s : c <> ","%char -> no_comma s = true -> no_comma (c :: s) = true.
Proof. intros Hc H. simpl. fold (no_comma s). rewrite H. by destruct (Ascii.eqb_spec c ","). Qed.
Lemma digits_no_comma {A} (step : A -> Z -> A) a s :
  no_comma (scan_digits step a s).2 = true -> no_comma s = true.
Proof.
  revert a. induction s as [|c s IH]; intros a; [done|]. cbn [scan_digits].
  destruct (isdigit c) eqn:D; [|done]. intros H%IH. apply no_comma_cons; [by intros ->|done].
Qed.
Lemma ws_no_comma s : no_comma (sc_ws s) = true -> no_comma s = true.
Proof.
  induction s as [|c s IH]; [done|]. unfold sc_ws in *. cbn [skip_while].
  destruct (is_ws c) eqn:D; [|done]. intros H%IH. apply no_comma_cons; [by intros ->|done].
Qed.
Lemma sign_no_comma s : no_comma (scan_sign s).2 = true -> no_comma s = true.
Proof.
  destruct s as [|c s]; [done|]. cbn [scan_sign]. destruct (_ || _) eqn:D; [|done].
  intros H. apply no_comma_cons; [by intros -> | done].
Qed.
Lemma frac_no_comma d s : no_comma (scan_frac d s).2 = true -> no_comma s = true.
Proof.
  destruct s as [|c s]; [done|]. cbn [scan_frac]. destruct (Ascii.eqb c ".") eqn:D; [|done].
  intros H%digits_no_comma. apply no_comma_cons; [by intros -> | done].
Qed.
Lemma exp_no_comma s e r : scan_exp s = Some (e, r) -> no_comma r = true -> no_comma s = true.
Proof.
  destruct s as [|c s]; [done|]. cbn [scan_exp]. destruct (_ || _) eqn:D; [|by intros [= <- <-]].
  destruct (scan_sign s) as [neg s1] eqn:S1.
  destruct (scan_digits exp_step (0, false) s1) as [[e' d] s2] eqn:S2. destruct d; [|done].
  intros [= _ <-] H. apply no_comma_cons; [by intros ->|]. apply sign_no_comma. rewrite S1. cbn [snd].
  apply (digits_no_comma exp_step (0, false)). by rewrite S2.
Qed.

Lemma holds_no_comma t v : holds t v -> no_comma t = true.
Proof.
  intros (r & E & W). apply ws_no_comma. revert E. unfold sc_number, PgTypes.sc_number.
  destruct (scan_sign (sc_ws t)) as [neg s1] eqn:S1.
  destruct (scan_digits whole_step _ s1) as [[whole digit] s2] eqn:S2.
  destruct (scan_frac digit s2) as [[[frac scale] digit'] s3] eqn:S3.
  destruct digit'; simpl; [|done]. destruct (scan_exp s3) as [[e s4]|] eqn:S4; [|done].
  intros [= _ ->]. apply sign_no_comma. rewrite S1. cbn [snd].
  apply (digits_no_comma whole_step (f64 0, false)). rewrite S2. cbn [snd].
  apply (frac_no_comma digit). rewrite S3. cbn [snd]. apply (exp_no_comma _ _ _ S4).
  apply ws_no_comma. by rewrite W.
Qed.

Lemma map_no_comma t :
  no_comma t = true -> map (fun c => if Ascii.eqb c "," then "."%char else c) t = t.
Proof.
  induction t as [|c t IH]; [done|]. cbn. destruct (Ascii.eqb c ","); [done|]. simpl. intros H. f_equal. auto.
Qed.

Lemma reads_as_holds t v : reads_as pow10 t v = true <-> exists w, holds t w /\ SFeqb w v = true.
Proof.
  unfold reads_as. split.
  - destruct (pgParseDouble pow10 t) eqn:E; [|done]. apply parseDouble_holds in E. eauto.
  - intros (w & H%parseDouble_holds & E). by rewrite H.
Qed.

(** A printed number reads back as an equal one. *)
Definition reads_back (v : double) : Prop := exists w, holds (num v) w /\ SFeqb w v = true.

Lemma format_reads_back v p :
  isnan v = false -> isinf v = false -> In p [15; 16; 17] ->
  reads_as pow10 (snprintf_g p v) v = true -> reads_back v.
Proof.
  intros Hn Hi Hp R. unfold reads_back, PgTypes.num, pgFormatDouble. rewrite Hn, Hi.
  assert (F : reads_as pow10 (format_digits pow10 snprintf_g v) v = true).
  { unfold format_digits. destruct (reads_as _ (snprintf_g 15 v) v) eqn:E1; [done|].
    destruct (reads_as _ (snprintf_g 16 v) v) eqn:E2; [done|].
    destruct Hp as [<-|[<-|[<-|[]]]]; congruence. }
  apply reads_as_holds in F as (w & H & E). exists w. split; [|done].
  by rewrite map_no_comma by (by eapply holds_no_comma).
Qed.

(** *** Printed points *)
#[local] Abbreviation fmt := (pgFormatPoint pow10 snprintf_g).
Definition point_reads_back (p : PgPoint) : Prop := reads_back (pt_x p) /\ reads_back (pt_y p).

Ltac delim := repeat split; done.

Lemma sc_point_reads p :
  point_reads_back p ->
  exists q, point_eq q p = true /\ forall rest, sc_point pow10 (fmt p ++ rest) = Some (q, rest).
Proof.
  intros [(x & Hx & Ex) (y & Hy & Ey)]. exists (mkPoint x y). split; [unfold point_eq; simpl; by rewrite Ex, Ey|].
  intros rest. unfold pgFormatPoint, sc_point. rewrite <- !app_assoc.
  cbn [lit String.list_ascii_of_string app]. rewrite (need_here _ "(" _ eq_refl).
  rewrite (number_then _ _ x ","); [|done|delim]. by rewrite (number_then _ _ y ")"); [|done|delim].
Qed.

Lemma point_then {A} (k : PgPoint -> str -> option A) p q c rest :
  (forall rest, sc_point pow10 (fmt p ++ rest) = Some (q, rest)) -> is_ws c = false ->
  ('(x, s) ← sc_point pow10 (fmt p ++ c :: rest); '(_, s) ← need c s; k x s) = k q rest.
Proof. intros R Hc. rewrite R. exact (need_here (k q) c rest Hc). Qed.

Lemma points_read close l rest out fuel :
  delimiter close -> close <> ","%char -> Forall point_reads_back l -> l <> [] -> (length l <= fuel)%nat ->
  exists qs, points_eq qs l = true /\
    sc_points_loop pow10 fuel close out (comma_list fmt l ++ close :: rest) = Some (out ++ qs, rest).
Proof.
  intros [_ Hw] Hc F. revert out fuel. induction F as [|p l Hp F IH]; intros out fuel N L; [done|].
  destruct fuel as [|fuel]; [simpl in L; lia|].
  destruct (sc_point_reads p Hp) as (q & Eq & R). destruct l as [|p' l].
  - exists [q]. split; [simpl; by rewrite Eq|]. change (comma_list fmt [p]) with (fmt p).
    cbn [sc_points_loop]. rewrite R. simpl. unfold sc_lit, sc_ws. simpl. rewrite Hw.
    destruct (Ascii.eqb_spec close ","); [done|]. simpl. by rewrite (need_here _ close rest Hw).
  - destruct (IH (out ++ [q]) fuel) as (qs & E & Q); [done | simpl in *; lia |].
    exists (q :: qs). split; [simpl; by rewrite Eq|].
    change (comma_list fmt (p :: p' :: l)) with (fmt p ++ [","%char] ++ comma_list fmt (p' :: l)).
    rewrite <- !app_assoc. cbn [sc_points_loop]. rewrite R. cbn -[comma_list sc_points_loop]. rewrite Q.
    by rewrite <- app_assoc.
Qed.

Lemma comma_list_length l : (length l <= S (length (comma_list fmt l)))%nat.
Proof.
  induction l as [|p [|p' l] IH]; [simpl; lia..|].
  change (comma_list fmt (p :: p' :: l)) with (fmt p ++ [","%char] ++ comma_list fmt (p' :: l)).
  rewrite !length_app. simpl in *. lia.
Qed.

Lemma sc_points_reads open close l rest :
  is_ws open = false -> delimiter close -> close <> ","%char -> close <> "("%char ->
  Forall point_reads_back l ->
  exists qs, points_eq qs l = true /\
    sc_points pow10 open close (open :: comma_list fmt l ++ close :: rest) = Some (qs, rest).
Proof.
  intros Ho Hc Hn Hp F. destruct l as [|p l].
  - exists []. split; [done|]. unfold sc_points. rewrite (need_here _ open _ Ho). simpl.
    destruct Hc as [_ Hw]. unfold sc_lit, sc_ws. simpl. by rewrite Hw, Ascii.eqb_refl.
  - destruct (points_read close (p :: l) rest [] (S (length (comma_list fmt (p :: l) ++ close :: rest))))
      as (qs & E & R); [done | done | done | done | |].
    + rewrite length_app. pose proof (comma_list_length (p :: l)). simpl in *. lia.
    + exists qs. split; [done|]. unfold sc_points. rewrite (need_here _ open _ Ho).
      assert (H : exists r, comma_list fmt (p :: l) ++ close :: rest = "("%char :: r)
        by (destruct l; simpl; eauto).
      destruct H as (r & H). rewrite H in R |- *.
      unfold sc_lit, sc_ws. change (skip_while is_ws ("("%char :: r)) with ("("%char :: r). assert (Hb : Ascii.eqb "(" close = false) by (by apply Ascii.eqb_neq).
      cbv iota. rewrite Hb. exact R.
Qed.

(** *** Each geometric type *)
Lemma need_eof_nil {A} (a : A) : need_eof a [] = Some a.
Proof. done. Qed.

Lemma point_roundtrip p :
  point_reads_back p -> exists q, pgParsePoint pow10 (fmt p) = Some q /\ point_eq q p = true.
Proof.
  intros (q & E & R)%sc_point_reads. exists q. split; [|done].
  unfold pgParsePoint. rewrite <- (app_nil_r (fmt p)). by rewrite R.
Qed.

Lemma line_roundtrip l :
  reads_back (ln_a l) -> reads_back (ln_b l) -> reads_back (ln_c l) ->
  exists k, pgParseLine pow10 (pgFormatLine pow10 snprintf_g l) = Some k /\ line_eq k l = true.
Proof.
  intros (a & Ha & Ea) (b & Hb & Eb) (c & Hc & Ec). exists (mkLine a b c).
  split; [|unfold line_eq; simpl; by rewrite Ea, Eb, Ec].
  unfold pgFormatLine, pgParseLine. cbn [lit String.list_ascii_of_string app].
  rewrite (need_here _ "{" _ eq_refl).
  rewrite (number_then _ _ a ","); [|done|delim]. rewrite (number_then _ _ b ","); [|done|delim].
  by rewrite (number_then _ _ c "}"); [|done|delim].
Qed.

Lemma lseg_roundtrip g :
  point_reads_back (sg_p1 g) -> point_reads_back (sg_p2 g) ->
  exists k, pgParseLseg pow10 (pgFormatLseg pow10 snprintf_g g) = Some k /\ lseg_eq k g = true.
Proof.
  intros (p & Ep & Rp)%sc_point_reads (q & Eq & Rq)%sc_point_reads. exists (mkLseg p q).
  split; [|unfold lseg_eq; simpl; by rewrite Ep, Eq].
  unfold pgFormatLseg, pgParseLseg. cbn [lit String.list_ascii_of_string app].
  rewrite (need_here _ "[" _ eq_refl).
  rewrite (point_then _ _ p ","); [|done..]. by rewrite (point_then _ _ q "]").
Qed.

Lemma box_roundtrip b :
  point_reads_back (bx_high b) -> point_reads_back (bx_low b) ->
  exists k, pgParseBox pow10 (pgFormatBox pow10 snprintf_g b) = Some k /\ box_eq k b = true.
Proof.
  intros (p & Ep & Rp)%sc_point_reads (q & Eq & Rq)%sc_point_reads. exists (mkBox p q).
  split; [|unfold box_eq; simpl; by rewrite Ep, Eq].
  unfold pgFormatBox, pgParseBox. cbn [lit String.list_ascii_of_string app].
  rewrite (point_then _ _ p ","); [|done..].
  rewrite <- (app_nil_r (fmt (bx_low b))). by rewrite Rq.
Qed.

Lemma polygon_roundtrip p :
  Forall point_reads_back (pg_points p) ->
  exists k, pgParsePolygon pow10 (pgFormatPolygon pow10 snprintf_g p) = Some k /\ polygon_eq k p = true.
Proof.
  intros F. destruct (sc_points_reads "(" ")" (pg_points p) [] eq_refl ltac:(delim) ltac:(done) ltac:(done) F)
    as (qs & E & R).
  exists (mkPolygon qs). split; [|done]. unfold pgParsePolygon, pgFormatPolygon.
  cbn [lit String.list_ascii_of_string app]. by rewrite R.
Qed.

Lemma path_roundtrip p :
  Forall point_reads_back (ph_points p) ->
  exists k, pgParsePath pow10 (pgFormatPath pow10 snprintf_g p) = Some k /\ path_eq k p = true.
Proof.
  intros F. destruct p as [[] ps]; simpl in F.
  - destruct (sc_points_reads "(" ")" ps [] eq_refl ltac:(delim) ltac:(done) ltac:(done) F) as (qs & E & R).
    exists (mkPath true qs). split; [|done]. unfold pgParsePath, pgFormatPath. simpl ph_closed. simpl ph_points.
    cbn [lit String.list_ascii_of_string app]. cbv iota zeta.
    match goal with |- context [sc_ws ?t] => change (sc_ws t) with t end. cbv iota.
    change (Ascii.eqb "(" "(") with true. cbv iota. by rewrite R.
  - destruct (sc_points_reads "[" "]" ps [] eq_refl ltac:(delim) ltac:(done) ltac:(done) F) as (qs & E & R).
    exists (mkPath false qs). split; [|done]. unfold pgParsePath, pgFormatPath. simpl ph_closed. simpl ph_points.
    cbn [lit String.list_ascii_of_string app]. cbv iota zeta.
    match goal with |- context [sc_ws ?t] => change (sc_ws t) with t end. cbv iota.
    change (Ascii.eqb "[" "(") with false. cbv iota. by rewrite R.
Qed.

Lemma circle_roundtrip c :
  point_reads_back (cr_center c) -> reads_back (cr_radius c) ->
  exists k, pgParseCircle pow10 (pgFormatCircle pow10 snprintf_g c) = Some k /\ circle_eq k c = true.
Proof.
  intros (p & Ep & Rp)%sc_point_reads (r & Hr & Er). exists (mkCircle p r).
  split; [|unfold circle_eq; simpl; by rewrite Ep, Er].
  unfold pgFormatCircle, pgParseCircle. cbn [lit String.list_ascii_of_string app].
  rewrite (need_here _ "<" _ eq_refl). rewrite (point_then _ _ p ","); [|done..].
  by rewrite (number_then _ _ r ">"); [|done|delim].
Qed.
End Scan.

(** ** The printer and the parser together *)
Definition parse_like (pow10 : Z -> double) (g : Geometry) (text : str) : option Geometry :=
  match g with
  | GPoint _ => GPoint <$> pgParsePoint pow10 text
  | GLine _ => GLine <$> pgParseLine pow10 text
  | GLseg _ => GLseg <$> pgParseLseg pow10 text
  | GBox _ => GBox <$> pgParseBox pow10 text
  | GPath _ => GPath <$> pgParsePath pow10 text
  | GPolygon _ => GPolygon <$> pgParsePolygon pow10 text
  | GCircle _ => GCircle <$> pgParseCircle pow10 text
  end.
Definition format_geometry (pow10 : Z -> double) (pf : Z -> double -> str) (g : Geometry) : str :=
  match g with
  | GPoint p => pgFormatPoint pow10 pf p | GLine l => pgFormatLine pow10 pf l
  | GLseg s => pgFormatLseg pow10 pf s | GBox b => pgFormatBox pow10 pf b
  | GPath p => pgFormatPath pow10 pf p | GPolygon p => pgFormatPolygon pow10 pf p
  | GCircle c => pgFormatCircle pow10 pf c
  end.
Definition geometry_eq (a b : Geometry) : bool :=
  match a, b with
  | GPoint p, GPoint q => point_eq p q | GLine p, GLine q => line_eq p q
  | GLseg p, GLseg q => lseg_eq p q | GBox p, GBox q => box_eq p q
  | GPath p, GPath q => path_eq p q | GPolygon p, GPolygon q => polygon_eq p q
  | GCircle p, GCircle q => circle_eq p q
  | _, _ => false
  end.
Definition point_numbers (p : PgPoint) : list double := [pt_x p; pt_y p].
Definition numbers_of (g : Geometry) : list double :=
  match g with
  | GPoint p => point_numbers p
  | GLine l => [ln_a l; ln_b l; ln_c l]
  | GLseg s => point_numbers (sg_p1 s) ++ point_numbers (sg_p2 s)
  | GBox b => point_numbers (bx_high b) ++ point_numbers (bx_low b)
  | GPath p => ph_points p ≫= point_numbers
  | GPolygon p => pg_points p ≫= point_numbers
  | GCircle c => point_numbers (cr_center c) ++ [cr_radius c]
  end.

(** A finite number one of whose texts of 15, 16 or 17 digits reads back. *)
Definition number_readable (pow10 : Z -> double) (pf : Z -> double -> str) (v : double) : Prop :=
  isnan v = false /\ isinf v = false /\
  exists p, In p [15; 16; 17] /\ reads_as pow10 (pf p v) v = true.

Lemma readable_reads_back pow10 pf v : number_readable pow10 pf v -> reads_back pow10 pf v.
Proof. intros (Hn & Hi & p & Hp & R). by eapply format_reads_back. Qed.
Lemma readable_points pow10 pf ps :
  Forall (number_readable pow10 pf) (ps ≫= point_numbers) -> Forall (point_reads_back pow10 pf) ps.
Proof.
  induction ps as [|p ps IH]; [constructor|]. rewrite bind_cons, Forall_app. intros [P Ps].
  constructor; [|auto]. repeat match goal with H : Forall _ (_ :: _) |- _ => inversion_clear H
    | H : Forall _ (point_numbers _) |- _ => unfold point_numbers in H end.
  split; by apply readable_reads_back.
Qed.

(** Whatever the C library prints, a number whose text of 15, 16 or 17 digits parses
    to an equal number is printed so that it parses to an equal number; and a
    geometric value with such numbers reads back equal from its text. *)
Theorem geometry_roundtrip pow10 pf g :
  Forall (number_readable pow10 pf) (numbers_of g) ->
  exists g', parse_like pow10 g (format_geometry pow10 pf g) = Some g' /\ geometry_eq g' g = true.
Proof.
  intros F. destruct g as [p|l|s|b|p|p|c]; simpl in F |- *;
    try apply readable_points in F; try unfold point_numbers in F; try (simpl in F);
    repeat match goal with H : Forall _ (_ :: _) |- _ => inversion_clear H
      | H : number_readable _ _ _ |- _ => apply readable_reads_back in H end.
  - destruct (point_roundtrip pow10 pf p) as (q & E & Q); [by split|]. rewrite E. by exists (GPoint q).
  - destruct (line_roundtrip pow10 pf l) as (q & E & Q); [done..|]. rewrite E. by exists (GLine q).
  - destruct (lseg_roundtrip pow10 pf s) as (q & E & Q); [by split|by split|]. rewrite E. by exists (GLseg q).
  - destruct (box_roundtrip pow10 pf b) as (q & E & Q); [by split|by split|]. rewrite E. by exists (GBox q).
  - destruct (path_roundtrip pow10 pf p) as (q & E & Q); [done|]. rewrite E. by exists (GPath q).
  - destruct (polygon_roundtrip pow10 pf p) as (q & E & Q); [done|]. rewrite E. by exists (GPolygon q).
  - destruct (circle_roundtrip pow10 pf c) as (q & E & Q); [by split|done|]. rewrite E. by exists (GCircle q).
Qed.

(** A C library that knows the numbers 1.5, -2 and 1e-07. *)
Definition demo_pow10 (e : Z) : double :=
  if e =? 0 then f64 1 else if e =? -7 then fdiv (f64 1) (f64 10000000) else f64 0.
Definition demo_printf (p : Z) (v : double) : str :=
  if SFeqb v (fdiv (f64 3) (f64 2)) then lit "1.5"
  else if SFeqb v (f64 (-2)) then lit "-2" else lit "1e-07".
Definition demo_geometry : Geometry :=
  GPath (mkPath true [mkPoint (fdiv (f64 3) (f64 2)) (f64 (-2));
                      mkPoint (f64 (-2)) (fdiv (f64 1) (f64 10000000))]).

Lemma geometry_roundtrip_witness :
  format_geometry demo_pow10 demo_printf demo_geometry = lit "((1.5,-2),(-2,1e-07))" /\
  exists g', parse_like demo_pow10 demo_geometry (lit "((1.5,-2),(-2,1e-07))") = Some g'.
Proof.
  split; [by vm_compute|].
  destruct (geometry_roundtrip demo_pow10 demo_printf demo_geometry) as (g' & E & _).
  - unfold demo_geometry. simpl. repeat constructor; exists 15; (split; [by left | by vm_compute]).
  - exists g'. exact E.
Defined.

(** Not every printed number is accepted: infinities and NaN are refused, and the 17
    digits of the smallest subnormal read as zero, the power of ten being zero. *)
Theorem printed_numbers_refused pow10 pf sign :
  pow10 (-324) = f64 0 ->
  pgParseDouble pow10 (pgFormatDouble pow10 pf S754_nan) = None /\
  pgParseDouble pow10 (pgFormatDouble pow10 pf (S754_infinity sign)) = None /\
  pgParseDouble pow10 (lit "4.9406564584124654e-324") = Some (f64 0).
Proof.
  intros H. split_and!; [done | by destruct sign|].
  unfold pgParseDouble, need_number.
  unfold sc_number. cbv zeta.
  change (scan_sign (sc_ws (lit "4.9406564584124654e-324"))) with (false, lit "4.9406564584124654e-324").
  cbv iota.
  assert (W : scan_digits whole_step (f64 0, false) (lit "4.9406564584124654e-324") =
    (f64 4, true, lit ".9406564584124654e-324")) by (vm_compute; done). rewrite W.
  assert (F : scan_frac true (lit ".9406564584124654e-324") =
    (f64 9406564584124654, f64 10000000000000000, true, lit "e-324")) by (vm_compute; done). rewrite F.
  assert (X : scan_exp (lit "e-324") = Some (-324, [])) by (vm_compute; done).
  cbn [negb]. rewrite X, H. vm_compute. done.
Qed.

Lemma printed_numbers_refused_witness :
  demo_pow10 (-324) = f64 0 /\ pgParseDouble demo_pow10 (lit "4.9406564584124654e-324") = Some (f64 0).
Proof.
  split; [reflexivity|].
  destruct (printed_numbers_refused demo_pow10 demo_printf true eq_refl) as (_ & _ & H). exact H.
Defined.
