(* ===== verification/PgValues.v ===== *)
(** * Values of the PostgreSQL driver (src/driver/postgres_driver.cpp)

    The catalogue of types a connection keeps, the text a value is sent as and the
    value a text is read as. [localtime_r], [mktime], [std::pow] and [snprintf] are
    parameters, as in Timestamps.v and PgTypes.v. *)
From stdpp Require Import base gmap list strings.
From Stdlib Require Import Ascii ZArith Lia.
From S2P Require Import Prelude Doubles Types Timestamps SqlAnalyze PgTypes.

Open Scope Z_scope.

(** ** [bytea] *)
Definition hex_digit (n : N) : ascii :=
  ascii_of_N (if (n <? 10)%N then 48 + n else 87 + n).
Definition toByteaHex (b : str) : str :=
  lit "\x" ++ (b ≫= fun c => [hex_digit (N.shiftr (code c) 4); hex_digit (N.land (code c) 15)]).

Definition nibble (c : ascii) : option N :=
  let n := code c in
  if in_range 48 57 n then Some (n - 48)%N
  else if in_range 97 102 n then Some (n - 97 + 10)%N
  else if in_range 65 70 n then Some (n - 65 + 10)%N
  else None.

(** Pairs of digits up to the first character that is none. *)
Fixpoint read_pairs (s : str) : str :=
  match s with
  | a :: b :: s' =>
      match nibble a, nibble b with
      | Some hi, Some lo => ascii_of_N (N.lor (N.shiftl hi 4) lo) :: read_pairs s'
      | _, _ => []
      end
  | _ => []
  end.
Definition parseBytea (s : str) : str :=
  match s with
  | a :: b :: s' => if Ascii.eqb a bslash && Ascii.eqb b "x" then read_pairs s' else s
  | _ => s
  end.

(** ** The catalogue of types ([PgTypeCache]) *)
Record PgTypeInfo := mkTypeInfo { ti_name : str; ti_kind : ascii; ti_elem : Z; ti_base : Z }.
Record PgTypeCache := mkTypeCache {
  tc_types : gmap Z PgTypeInfo;
  tc_attrs : gmap Z (list (str * Z));
  tc_loaded : bool;
  tc_stale : bool;
}.
Definition no_types : PgTypeCache := mkTypeCache ∅ ∅ false false.
Definition tc_find (oid : Z) (c : PgTypeCache) : option PgTypeInfo := tc_types c !! oid.
Definition tc_attributes (oid : Z) (c : PgTypeCache) : option (list (str * Z)) := tc_attrs c !! oid.
Definition markStale (c : PgTypeCache) : PgTypeCache :=
  mkTypeCache (tc_types c) (tc_attrs c) (tc_loaded c) true.

(** [resolveBase]: at most eight domains deep. *)
Fixpoint resolve_loop (n : nat) (current : Z) (c : PgTypeCache) : Z :=
  match n with
  | O => current
  | S n' =>
      match tc_find current c with
      | None => current
      | Some info =>
          if (ti_base info =? 0) || (ti_base info =? current) then current
          else resolve_loop n' (ti_base info) c
      end
  end.
Definition resolveBase (oid : Z) (c : PgTypeCache) : Z := resolve_loop 8 oid c.

(** [info->elem != 0 && !info->name.empty() && info->name[0] == '_'] *)
Definition array_info (info : PgTypeInfo) : bool :=
  negb (ti_elem info =? 0) && head_is "_" (ti_name info).
Definition isArray (oid : Z) (c : PgTypeCache) : bool :=
  match tc_find (resolveBase oid c) c with Some info => array_info info | None => false end.

(** *** [load]: the rows of the two queries of the catalogue

    A row of [pg_type] as the code reads it (the kind's text may be null, which reads
    as the empty text) and a row of [pg_attribute]; [None] is a row whose conversion
    threw, or a query that did: what was read before stays. *)
Record TypeRow := mkTypeRow { tr_oid : Z; tr_name : str; tr_kind : str; tr_elem : Z; tr_base : Z }.
Record AttrRow := mkAttrRow { ar_oid : Z; ar_name : str; ar_type : Z }.

Definition add_type (r : TypeRow) (m : gmap Z PgTypeInfo) : gmap Z PgTypeInfo :=
  <[tr_oid r := mkTypeInfo (tr_name r) (hd "000"%char (tr_kind r)) (tr_elem r) (tr_base r)]> m.
Definition add_attr (r : AttrRow) (m : gmap Z (list (str * Z))) : gmap Z (list (str * Z)) :=
  <[ar_oid r := default [] (m !! ar_oid r) ++ [(ar_name r, ar_type r)]]> m.
Fixpoint load_rows {R M} (add : R -> M -> M) (rows : list (option R)) (m : M) : M * bool :=
  match rows with
  | [] => (m, true)
  | None :: _ => (m, false)
  | Some r :: rows' => load_rows add rows' (add r m)
  end.
Definition load_types (types : option (list (option TypeRow))) : gmap Z PgTypeInfo * bool :=
  match types with Some rows => load_rows add_type rows ∅ | None => (∅, false) end.
Definition load_attrs (attrs : option (list (option AttrRow))) : gmap Z (list (str * Z)) * bool :=
  match attrs with Some rows => load_rows add_attr rows ∅ | None => (∅, false) end.
Definition needs_load (c : PgTypeCache) : bool := negb (tc_loaded c) || tc_stale c.

(** ** Literals *)
Definition pg_escapeLiteral (print_double17 timestampToStringMs : Z -> str) (v : Value) : str :=
  match v with
  | VBlob b => [squote] ++ toByteaHex b ++ [squote]
  | v => escapeLiteralGeneric print_double17 timestampToStringMs v
  end.

(** ** Values and texts *)
Section Text.
Variable localtime : Z -> tm.
Variable mktime : tm -> option Z.
Variable pow10 : Z -> double.
Variable snprintf_g : Z -> double -> str.

Fixpoint valueToPgText (v : Value) : option str :=
  match v with
  | VNull => None
  | VBool b => Some (bool_str b "true" "false")
  | VInt64 z | VUInt64 z => Some (dec_Z z)
  | VDouble bits => Some (pgFormatDouble pow10 snprintf_g (double_of_bits bits))
  | VDecimal s | VString s | VDate s | VTime s | VUuid s | VJson s
  | VIntervalYearMonth s | VIntervalDaySecond s => Some s
  | VTimestamp t => Some (timestampToUtcStringMs localtime t)
  | VBlob b => Some (toByteaHex b)
  | VArray items | VTypedArray _ items => Some (pgFormatArray (map valueToPgText items))
  | VComposite fields | VTypedComposite _ fields =>
      Some (pgFormatComposite (map (fun '(_, x) => valueToPgText x) fields))
  end.

Definition kBool : Z := 16.
Definition kBytea : Z := 17.
Definition kInt8 : Z := 20.
Definition kInt2 : Z := 21.
Definition kInt4 : Z := 23.
Definition kDate : Z := 1082.
Definition kTime : Z := 1083.
Definition kTimestamp : Z := 1114.
Definition kTimestamptz : Z := 1184.
Definition kTimetz : Z := 1266.
Definition kNumeric : Z := 1700.
Definition kJson : Z := 114.
Definition kJsonb : Z := 3802.
Definition kUuid : Z := 2950.
Definition kFloat4 : Z := 700.
Definition kFloat8 : Z := 701.

Definition parseInt64 (s : str) : option Z := strtoll_all s.

(** The [switch] on the type: the value of a scalar, [None] in its default case. *)
Definition scalar_value (base : Z) (text : str) : option Value :=
  if base =? kBool then Some
    (if str_eqb text (lit "t") || str_eqb text (lit "true") || str_eqb text (lit "1") then VBool true
     else if str_eqb text (lit "f") || str_eqb text (lit "false") || str_eqb text (lit "0")
     then VBool false else VString text)
  else if (base =? kInt2) || (base =? kInt4) || (base =? kInt8) then Some
    (match parseInt64 text with Some z => VInt64 z | None => VString text end)
  else if (base =? kFloat4) || (base =? kFloat8) then Some
    (match pgParseDouble pow10 text with
     | Some d => VDouble (bits_of_double d) | None => VString text end)
  else if base =? kNumeric then Some (VDecimal text)
  else if base =? kBytea then Some (VBlob (parseBytea text))
  else if base =? kDate then Some (VDate text)
  else if (base =? kTime) || (base =? kTimetz) then Some (VTime text)
  else if base =? kUuid then Some (VUuid text)
  else if (base =? kJson) || (base =? kJsonb) then Some (VJson text)
  else if (base =? kTimestamp) || (base =? kTimestamptz) then Some
    (match tryParseTimestamp mktime text with Some t => VTimestamp t | None => VString text end)
  else None.

(** [nested]: a part in braces. *)
Definition in_braces (s : str) : bool :=
  (2 <=? length s)%nat && head_is "{" s && Ascii.eqb (List.last s "000"%char) "}".

(** [valueFromText] at depth [9 - left]: the value, and whether the cache was
    marked stale, which happens at depth 0 only. *)
Fixpoint valueFromText (left : nat) (c : PgTypeCache) (oid : Z) (text : str) : Value * bool :=
  match left with
  | O => (VString text, false)
  | S left' =>
      let base := resolveBase oid c in
      let item (part_oid : Z) (part : option str) : Value * bool :=
        match part with
        | Some t => valueFromText left' c part_oid t
        | None => (VNull, false)
        end in
      let scalar : Value * bool :=
        if pgIsGeometryOid base then (VJson text, false)
        else match scalar_value base text with
             | Some v => (v, false)
             | None =>
                 (VString text,
                  (left =? 9)%nat && (16384 <=? oid) && negb (bool_decide (is_Some (tc_find oid c))))
             end in
      let array (info : PgTypeInfo) : Value * bool :=
        match (if array_info info then pgParseArray text else None) with
        | Some parts =>
            let rs := map (fun part =>
              item (match part with Some t => if in_braces t then base else ti_elem info | None => 0 end)
                   part) parts in
            (VArray (map fst rs), existsb snd rs)
        | None => scalar
        end in
      match tc_find base c with
      | None => scalar
      | Some info =>
          match (if Ascii.eqb (ti_kind info) "c" then tc_attributes base c else None) with
          | Some attrs =>
              match pgParseComposite text with
              | Some parts =>
                  if (length parts =? length attrs)%nat then
                    let rs := zip_with (fun part attr => item attr.2 part) parts attrs in
                    (VComposite (zip (map fst attrs) (map fst rs)), existsb snd rs)
                  else array info
              | None => array info
              end
          | None => array info
          end
      end
  end.

(** [fieldToValue]: a field is null or a text. *)
Definition fieldToValue (c : PgTypeCache) (oid : Z) (field : option str) : Value * PgTypeCache :=
  match field with
  | None => (VNull, c)
  | Some text =>
      let '(v, stale) := valueFromText 9 c oid text in (v, if stale : bool then markStale c else c)
  end.

(** [appendParams]: the parameters as the library is given them. *)
Inductive PqParam :=
  | PqNull | PqText (s : str) | PqBool (b : bool) | PqInt (z : Z) | PqDouble (bits : Z).
Definition appendParam (v : Value) : PqParam :=
  match v with
  | VNull => PqNull
  | VBool b => PqBool b
  | VInt64 z => PqInt z
  | VDouble bits => PqDouble bits
  | v => match valueToPgText v with Some t => PqText t | None => PqNull end
  end.
Definition appendParams (params : Params) : list PqParam := map appendParam params.
End Text.

(** ** Theorems *)

(** *** [bytea] *)
Lemma hex_pair c :
  nibble (hex_digit (N.shiftr (code c) 4)) = Some (N.shiftr (code c) 4)
  /\ nibble (hex_digit (N.land (code c) 15)) = Some (N.land (code c) 15)
  /\ ascii_of_N (N.lor (N.shiftl (N.shiftr (code c) 4) 4) (N.land (code c) 15)) = c.
Proof. all_chars c. Qed.

Lemma bytea_reads_back b : parseBytea (toByteaHex b) = b.
Proof.
  unfold parseBytea, toByteaHex. cbn [lit String.list_ascii_of_string app].
  change (Ascii.eqb "\" bslash && Ascii.eqb "x" "x") with true. cbv iota.
  induction b as [|c b IH]; [done|]. cbn [mbind list_bind app read_pairs].
  destruct (hex_pair c) as (-> & -> & ->). f_equal. exact IH.
Qed.

(** *** Domains *)

(** [b] is the type over which the domain [a] is declared. *)
Definition domain_over (c : PgTypeCache) (a b : Z) : Prop :=
  exists info, tc_find a c = Some info /\ ti_base info = b /\ b <> 0 /\ b <> a.

Lemma resolve_loop_spec n oid c :
  exists k, (k <= n)%nat /\ nsteps (domain_over c) k oid (resolve_loop n oid c) /\
    ((k < n)%nat -> forall b, ~ domain_over c (resolve_loop n oid c) b).
Proof.
  revert oid. induction n as [|n IH]; intros oid.
  { exists 0%nat. split; [lia|]. split; [constructor | lia]. }
  cbn [resolve_loop]. destruct (tc_find oid c) as [info|] eqn:E.
  - destruct ((ti_base info =? 0) || (ti_base info =? oid)) eqn:B.
    + apply orb_true_iff in B. rewrite !Z.eqb_eq in B. exists 0%nat. split; [lia|]. split; [constructor|]. intros _ b (i & Ei & <- & H1 & H2).
      rewrite E in Ei. injection Ei as <-. by destruct B.
    + apply orb_false_iff in B as [B1 B2]. apply Z.eqb_neq in B1, B2. destruct (IH (ti_base info)) as (k & Hk & Hs & Hl). exists (S k). split; [lia|].
      split; [|intros; apply Hl; lia]. econstructor; [|exact Hs]. by exists info.
  - exists 0%nat. split; [lia|]. split; [constructor|]. intros _ b (i & Ei & _). congruence.
Qed.

(** *** Round trip

    [fits n c oid v]: the value is of the type, to at most [n] levels. *)
Section Fits.
Variable localtime : Z -> tm.
Variable mktime : tm -> option Z.
Variable pow10 : Z -> double.
Variable snprintf_g : Z -> double -> str.
#[local] Abbreviation to_text := (valueToPgText localtime pow10 snprintf_g).
#[local] Abbreviation of_text := (valueFromText mktime pow10).

Definition plain (c : PgTypeCache) (base : Z) : bool :=
  match tc_find base c with
  | None => true
  | Some info => negb (array_info info) &&
      negb (Ascii.eqb (ti_kind info) "c" && bool_decide (is_Some (tc_attributes base c)))
  end.

Definition scalar_fits (base : Z) (v : Value) : Prop :=
  match v with
  | VBool _ => base = kBool
  | VInt64 z => base ∈ [kInt2; kInt4; kInt8] /\ int64_min <= z <= int64_max
  | VDouble bits => base ∈ [kFloat4; kFloat8] /\
      bits_of_double <$> pgParseDouble pow10 (pgFormatDouble pow10 snprintf_g (double_of_bits bits))
      = Some bits
  | VDecimal _ => base = kNumeric
  | VBlob _ => base = kBytea
  | VDate _ => base = kDate
  | VTime _ => base ∈ [kTime; kTimetz]
  | VUuid _ => base = kUuid
  | VJson _ => base ∈ [kJson; kJsonb] \/ pgIsGeometryOid base = true
  | VTimestamp t => base ∈ [kTimestamp; kTimestamptz] /\
      civil_days 1900 1 1 * 86400 * ns_per_s <= t /\ is_i64 t /\ t mod 1000000 = 0
  | VString s => scalar_value mktime pow10 base s = None /\ pgIsGeometryOid base = false
  | _ => False
  end.

Fixpoint fits (n : nat) (c : PgTypeCache) (oid : Z) (v : Value) : Prop :=
  match n with
  | O => False
  | S n' =>
      let base := resolveBase oid c in
      match v with
      | VArray items => exists info, tc_find base c = Some info /\ array_info info = true /\
          ti_kind info <> "c"%char /\
          Forall (fun x => x = VNull \/ exists t, to_text x = Some t /\
                    fits n' c (if in_braces t then base else ti_elem info) x) items
      | VComposite fields => exists info attrs, tc_find base c = Some info /\
          ti_kind info = "c"%char /\ tc_attributes base c = Some attrs /\
          fields.*1 = attrs.*1 /\ Forall2 (fun f a => f.2 = VNull \/ fits n' c a.2 f.2) fields attrs /\
          forallb composite_safe (map (fun '(_, x) => to_text x) fields) = true /\
          map (fun '(_, x) => to_text x) fields <> [None]
      | v => plain c base = true /\ scalar_fits base v
      end
  end.

(** The value read by the branch of the scalars. *)
Definition scalar_read (base : Z) (text : str) : Value :=
  if pgIsGeometryOid base then VJson text
  else default (VString text) (scalar_value mktime pow10 base text).

Lemma plain_value_reads n c oid text : plain c (resolveBase oid c) = true ->
  (of_text (S n) c oid text).1 = scalar_read (resolveBase oid c) text.
Proof.
  intros H. unfold scalar_read. cbn [valueFromText]. unfold plain in H.
  set (base := resolveBase oid c) in *. destruct (tc_find base c) as [info|].
  - apply andb_true_iff in H as [H1 H2]. apply negb_true_iff in H1. rewrite H1.
    assert ((if Ascii.eqb (ti_kind info) "c" then tc_attributes base c else None) = None) as ->.
    { destruct (Ascii.eqb (ti_kind info) "c"); [|done]. destruct (tc_attributes base c); [|done].
      by rewrite bool_decide_eq_true_2 in H2 by eauto. }
    destruct (pgIsGeometryOid base); [done|]. by destruct (scalar_value _ _ base text).
  - destruct (pgIsGeometryOid base); [done|]. by destruct (scalar_value _ _ base text).
Qed.

Lemma timestamp_scalar t :
  civil_days 1900 1 1 * 86400 * ns_per_s <= t -> is_i64 t -> t mod 1000000 = 0 ->
  tryParseTimestamp mktime (timestampToUtcStringMs localtime t) = Some t.
Proof. intros H1 H2 H3. rewrite utc_reads_back by done. unfold to_millis. by rewrite H3, Z.sub_0_r. Qed.

(** A scalar of the type is read back from its text. *)
Lemma scalar_reads base v : scalar_fits base v ->
  exists t, to_text v = Some t /\ scalar_read base t = v.
Proof.
  unfold scalar_read. destruct v; cbn [scalar_fits valueToPgText]; intros H; try done; eexists; split;
    try reflexivity.
  - subst base. by destruct b.
  - destruct H as [H Hz]. rewrite !elem_of_cons, elem_of_nil in H.
    destruct H as [->|[->|[->|[]]]]; cbn; unfold parseInt64; by rewrite strtoll_all_dec.
  - destruct H as [H Hd]. rewrite !elem_of_cons, elem_of_nil in H.
    apply fmap_Some in Hd as (d & E & ->).
    destruct H as [->|[->|[]]]; cbn -[pgParseDouble pgFormatDouble double_of_bits bits_of_double]; by rewrite E.
  - by subst base.
  - destruct H as [H1 H2]. by rewrite H1, H2.
  - by subst base.
  - rewrite !elem_of_cons, elem_of_nil in H. by destruct H as [->|[->|[]]].
  - destruct H as (H & H1 & H2 & H3). rewrite !elem_of_cons, elem_of_nil in H.
    destruct H as [->|[->|[]]]; cbn -[tryParseTimestamp timestampToUtcStringMs];
      by rewrite timestamp_scalar.
  - by subst base.
  - destruct H as [H|H]; [|by rewrite H]. rewrite !elem_of_cons, elem_of_nil in H.
    by destruct H as [->|[->|[]]].
  - subst base. cbn -[parseBytea toByteaHex]. by rewrite bytea_reads_back.
Qed.

(** *** Arrays and composites *)
Lemma in_braces_false_null : in_braces [] = false.
Proof. done. Qed.

Lemma array_text_fits n c oid info items :
  let base := resolveBase oid c in
  tc_find base c = Some info -> array_info info = true -> ti_kind info <> "c"%char ->
  Forall (fun x => x = VNull \/ exists t, to_text x = Some t /\
            (of_text n c (if in_braces t then base else ti_elem info) t).1 = x) items ->
  (of_text (S n) c oid (pgFormatArray (map to_text items))).1 = VArray items.
Proof.
  intros base Hf Ha Hk Hi. cbn [valueFromText]. fold base. rewrite Hf.
  destruct (Ascii.eqb_spec (ti_kind info) "c"); [done|]. rewrite Ha, array_reads_back. cbn [fst].
  f_equal. rewrite !map_map. induction Hi as [|x items Hx Hi IH]; [done|]. cbn [map]. f_equal; [|exact IH].
  destruct Hx as [->|(t & E & Hx)]; [done|]. by rewrite E.
Qed.

Lemma composite_text_fits n c oid info attrs fields :
  let base := resolveBase oid c in
  tc_find base c = Some info -> ti_kind info = "c"%char -> tc_attributes base c = Some attrs ->
  fields.*1 = attrs.*1 ->
  Forall2 (fun f a => f.2 = VNull \/ exists t, to_text f.2 = Some t /\ (of_text n c a.2 t).1 = f.2)
    fields attrs ->
  forallb composite_safe (map (fun '(_, x) => to_text x) fields) = true ->
  map (fun '(_, x) => to_text x) fields <> [None] ->
  (of_text (S n) c oid (pgFormatComposite (map (fun '(_, x) => to_text x) fields))).1 = VComposite fields.
Proof.
  intros base Hf Hk Ht Hn Hi Hs H1. cbn [valueFromText]. fold base.
  rewrite Hf, Hk. change (Ascii.eqb "c" "c") with true. cbv iota.
  rewrite Ht, pgParseComposite_pgFormatComposite by done.
  assert (length (map (fun '(_, x) => to_text x) fields) = length attrs) as ->
    by (apply (f_equal length) in Hn; rewrite !length_fmap in Hn; by rewrite length_map).
  rewrite Nat.eqb_refl. cbn [fst]. f_equal. clear Hs H1 Hf Ht.
  induction Hi as [|[k x] [k' a] fields attrs Hx Hi IH]; [done|].
  cbn in Hn. injection Hn as -> Hn. cbn [map zip_with fst snd]. cbn in Hx.
  cbn [zip zip_with map fst snd]. f_equal; [|by apply IH]. f_equal.
  destruct Hx as [->|(t & E & Hx)]; [done|]. by rewrite E.
Qed.

Lemma fits_text n c oid v : fits n c oid v ->
  exists t, to_text v = Some t /\ (of_text n c oid t).1 = v.
Proof.
  revert c oid v. induction n as [|n IH]; intros c oid v H; [done|].
  assert (forall v, leaf v = true -> plain c (resolveBase oid c) = true /\ scalar_fits (resolveBase oid c) v ->
    exists t, to_text v = Some t /\ (of_text (S n) c oid t).1 = v) as Hleaf.
  { intros w _ [Hp Hs]. destruct (scalar_reads _ _ Hs) as (t & E & Hr). exists t. split; [done|].
    by rewrite plain_value_reads. }
  destruct v; try (by apply Hleaf).
  - cbn [fits] in H. destruct H as (info & H1 & H2 & H3 & H4).
    eexists. split; [reflexivity|]. apply (array_text_fits n c oid info items); try done.
    eapply Forall_impl; [exact H4|]. cbn. intros x [->|(t & E & Hx)]; [by left|]. right. exists t.
    split; [done|]. destruct (IH _ _ _ Hx) as (t' & E' & Hr). congruence.
  - cbn [fits] in H. destruct H as (info & attrs & H1 & H2 & H3 & H4 & H5 & H6 & H7).
    eexists. split; [reflexivity|]. apply (composite_text_fits n c oid info attrs fields); try done.
    eapply Forall2_impl; [exact H5|]. cbn. intros f a [->|Hx]; [by left|]. right. by apply IH.
  - cbn in H. tauto.
  - cbn in H. tauto.
Qed.

End Fits.

(** *** Concrete catalogues *)
Definition demo_types : PgTypeCache :=
  mkTypeCache
    (list_to_map [
      (23, mkTypeInfo (lit "int4") "b" 0 0); (1007, mkTypeInfo (lit "_int4") "b" 23 0);
      (25, mkTypeInfo (lit "text") "b" 0 0); (1009, mkTypeInfo (lit "_text") "b" 25 0);
      (3802, mkTypeInfo (lit "jsonb") "b" 0 0); (3807, mkTypeInfo (lit "_jsonb") "b" 3802 0);
      (20000, mkTypeInfo (lit "item") "c" 0 0); (20001, mkTypeInfo (lit "_item") "b" 20000 0);
      (20002, mkTypeInfo (lit "items") "d" 0 20001)])
    {[ 20000 := [(lit "label", 25); (lit "sizes", 1007); (lit "at", 1184)] ]}
    true false.
Definition demo_item (label : string) (sizes : list Value) : Value :=
  VComposite [(lit "label", VString (lit label)); (lit "sizes", VArray sizes);
              (lit "at", VTimestamp 1709210096789000000)].
(** A domain over an array of rows with an array inside. *)
Definition demo_items : Value :=
  VArray [demo_item "a, b" [VInt64 (-5); VArray [VInt64 7; VNull]]; VNull; demo_item "NULL" []].
Definition demo_to_text : Value -> option str := valueToPgText no_local demo_pow10 demo_printf.
Definition demo_read (oid : Z) (text : str) : Value :=
  (fieldToValue no_zone demo_pow10 demo_types oid (Some text)).1.

(** Decides [fits] on a concrete value. *)
Ltac norm_oid :=
  match goal with
  | |- fits _ _ _ _ _ _ ?o _ => let o' := eval vm_compute in o in change o with o'
  end.
Ltac fits_now :=
  cbn [fst snd]; norm_oid;
  lazymatch goal with
  | |- fits _ _ _ _ _ _ _ (VArray _) =>
      eexists; split; [vm_compute; reflexivity|]; split; [vm_compute; reflexivity|];
      split; [discriminate|]; repeat apply Forall_cons_2; [..|apply Forall_nil_2];
      first [by left | right; eexists; split; [vm_compute; reflexivity|]; fits_now]
  | |- fits _ _ _ _ _ _ _ (VComposite _) =>
      eexists _, _; split; [vm_compute; reflexivity|]; split; [reflexivity|];
      split; [vm_compute; reflexivity|]; split; [reflexivity|];
      split; [repeat apply Forall2_cons_2; [..|apply Forall2_nil_2]; first [by left | right; fits_now]
             | split; [vm_compute; reflexivity | vm_compute; discriminate]]
  | |- _ => split; [vm_compute; reflexivity|];
      first [vm_compute; reflexivity
            | split; [rewrite !elem_of_cons; vm_compute; tauto
                     | repeat split; vm_compute; first [reflexivity | discriminate]]
            | split; vm_compute; reflexivity]
  end.


(** An element in braces is taken for a nested array: an object in a [jsonb[]] column
    arrives as an array of its pieces, and so does a text between braces. *)
Theorem braced_element_becomes_array :
  demo_to_text (VArray [VJson (lit "{1: [2], 3: 4}")]) = Some ("{"%char :: quote :: lit "{1: [2], 3: 4}" ++ [quote; "}"%char])
  /\ demo_read 3807 ("{"%char :: quote :: lit "{1: [2], 3: 4}" ++ [quote; "}"%char])
     = VArray [VArray [VJson (lit "1: [2]"); VJson (lit " 3: 4")]]
  /\ demo_read 1009 ("{"%char :: quote :: lit "{a,b}" ++ [quote; "}"%char])
     = VArray [VArray [VString (lit "a"); VString (lit "b")]].
Proof. vm_compute. done. Qed.

(** A nested array is sent as an array of quoted texts, not as the nested braces the
    server's array syntax asks for. *)
Theorem nested_array_sent_quoted :
  demo_to_text (VArray [VArray [VInt64 1; VInt64 2]])
  = Some (lit "{" ++ [quote] ++ lit "{1,2}" ++ [quote] ++ lit "}")
  /\ demo_read 1007 (lit "{{1,2},{3,4}}")
     = VArray [VArray [VInt64 1; VInt64 2]; VArray [VInt64 3; VInt64 4]].
Proof. vm_compute. done. Qed.

(** A hexadecimal [bytea] text is cut, without a word, at the first bad digit or at
    half a byte. *)
Theorem bytea_cut_silently :
  demo_read 17 (lit "\x4142zz43") = VBlob (lit "AB") /\ demo_read 17 (lit "\x41424") = VBlob (lit "AB").
Proof. vm_compute. done. Qed.

(** a domain is followed to its base type: [resolveBase] walks the declared
    chain, never more than eight steps, and stops earlier only at a type that is no
    domain. *)
Theorem resolveBase_walks c oid :
  exists k, (k <= 8)%nat /\ nsteps (domain_over c) k oid (resolveBase oid c) /\
    ((k < 8)%nat -> forall b, ~ domain_over c (resolveBase oid c) b).
Proof. apply resolve_loop_spec. Qed.
