(* ===== verification/PgConninfo.v ===== *)
(** * The connection string of the PostgreSQL driver (src/driver/postgres_driver.cpp)

    What [connect] hands to the server: settings [key=value], the values that come
    from the configuration in quotes. The second half reads such a string by the
    documented syntax of the client library and finds the configured values again. *)
From stdpp Require Import base list strings.
From Stdlib Require Import Ascii ZArith Lia.
From S2P Require Import Prelude Types Config SqlAnalyze.

Open Scope Z_scope.

Definition connValue (value : str) : str :=
  [squote] ++ (value ≫= fun c => if ch c backslash || ch c squote then [backslash; c] else [c]) ++ [squote].

Definition conn_pair (key : string) (value : str) : str := lit key ++ lit "=" ++ value.
Definition opt_pair (key : string) (value : str) : list str :=
  if is_nil value then [] else [conn_pair key (connValue value)].
Definition conn_pairs (cfg : DataSourceConfig) : list str :=
  [conn_pair "host" (connValue (if is_nil (dc_host cfg) then lit "localhost" else dc_host cfg));
   conn_pair "port" (dec_Z (if dc_port cfg =? 0 then 5432 else dc_port cfg))]
  ++ opt_pair "user" (dc_user cfg) ++ opt_pair "password" (dc_password cfg)
  ++ opt_pair "dbname" (dc_database cfg)
  ++ (if 0 <? dc_connection_timeout_ms cfg
      then [conn_pair "connect_timeout" (dec_Z (Z.max 1 (Z.quot (i32 (dc_connection_timeout_ms cfg + 999)) 1000)))]
      else [])
  ++ (if dc_tls_enabled cfg
      then [conn_pair "sslmode" (lit (if dc_tls_verify_peer cfg then "verify-full" else "require"))]
           ++ opt_pair "sslrootcert" (dc_tls_ca cfg) ++ opt_pair "sslcert" (dc_tls_cert cfg)
           ++ opt_pair "sslkey" (dc_tls_key cfg)
      else []).
Definition conninfo (cfg : DataSourceConfig) : str := join (lit " ") (conn_pairs cfg).


(** ** Reading it

    A key up to [=]; a value in quotes, where a backslash takes the next character as
    it is, or a plain value up to a space. *)
Fixpoint read_quoted (s : str) : option (str * str) :=
  match s with
  | [] => None
  | c :: s' =>
      if ch c squote then Some ([], s')
      else if ch c backslash then
        match s' with
        | [] => None
        | d :: s'' => '(v, rest) ← read_quoted s''; Some (d :: v, rest)
        end
      else '(v, rest) ← read_quoted s'; Some (c :: v, rest)
  end.
Definition not_space (c : ascii) : bool := negb (ch c " ").
Definition read_value (s : str) : option (str * str) :=
  match s with
  | c :: s' => if ch c squote then read_quoted s' else Some (take_while not_space s, skip_while not_space s)
  | [] => Some ([], [])
  end.
Definition not_equals (c : ascii) : bool := negb (ch c "=").
Fixpoint read_settings (fuel : nat) (s : str) : option (list (str * str)) :=
  match fuel with
  | O => None
  | S fuel' =>
      match skip_while not_equals s with
      | [] => None
      | _ :: s' =>
          '(v, rest) ← read_value s';
          match rest with
          | [] => Some [(take_while not_equals s, v)]
          | c :: rest' =>
              if ch c " " then
                l ← read_settings fuel' rest'; Some ((take_while not_equals s, v) :: l)
              else None
          end
      end
  end.

(** What was configured. *)
Definition opt_setting (key : string) (value : str) : list (str * str) :=
  if is_nil value then [] else [(lit key, value)].
Definition settings (cfg : DataSourceConfig) : list (str * str) :=
  [(lit "host", if is_nil (dc_host cfg) then lit "localhost" else dc_host cfg);
   (lit "port", dec_Z (if dc_port cfg =? 0 then 5432 else dc_port cfg))]
  ++ opt_setting "user" (dc_user cfg) ++ opt_setting "password" (dc_password cfg)
  ++ opt_setting "dbname" (dc_database cfg)
  ++ (if 0 <? dc_connection_timeout_ms cfg
      then [(lit "connect_timeout", dec_Z (Z.max 1 (Z.quot (i32 (dc_connection_timeout_ms cfg + 999)) 1000)))]
      else [])
  ++ (if dc_tls_enabled cfg
      then [(lit "sslmode", lit (if dc_tls_verify_peer cfg then "verify-full" else "require"))]
           ++ opt_setting "sslrootcert" (dc_tls_ca cfg) ++ opt_setting "sslcert" (dc_tls_cert cfg)
           ++ opt_setting "sslkey" (dc_tls_key cfg)
      else []).

Definition quoted_body (value : str) : str :=
  value ≫= fun c => if ch c backslash || ch c squote then [backslash; c] else [c].
Lemma read_quoted_body value rest : read_quoted (quoted_body value ++ squote :: rest) = Some (value, rest).
Proof.
  induction value as [|c value IH]; [done|]. unfold quoted_body in *. cbn [mbind list_bind].
  rewrite <- app_assoc. destruct (ch c backslash) eqn:Eb; cbn [orb].
  - apply ch_eq in Eb as ->. cbn. by rewrite IH.
  - destruct (ch c squote) eqn:Eq; cbn -[ch].
    + apply ch_eq in Eq as ->. cbn. by rewrite IH.
    + rewrite Eq, Eb. cbn. by rewrite IH.
Qed.

(** A text a reader of settings takes apart as [key] and [value]. *)
Record reads (text key value : str) : Prop := {
  rd_key : forall rest, take_while not_equals (text ++ rest) = key;
  rd_value : forall rest, match rest with [] => True | c :: _ => c = " "%char end ->
    exists s, skip_while not_equals (text ++ rest) = "="%char :: s /\ read_value s = Some (value, rest);
}.

Lemma key_reads (key : str) v value :
  Forall (fun c => not_equals c = true) key ->
  (forall rest, match rest with [] => True | c :: _ => c = " "%char end -> read_value (v ++ rest) = Some (value, rest)) ->
  reads (key ++ lit "=" ++ v) key value.
Proof.
  intros Hk Hv. split; intros rest.
  - rewrite <- app_assoc. induction Hk as [|c key Hc Hk IH]; [done|]. cbn. rewrite Hc. by f_equal.
  - intros Hr. exists (v ++ rest). split; [|by apply Hv]. rewrite <- !app_assoc.
    by rewrite skip_while_app_all.
Qed.

Lemma quoted_setting_reads (key : string) value : forallb not_equals (lit key) = true ->
  reads (conn_pair key (connValue value)) (lit key) value.
Proof.
  intros Hk. apply key_reads.
  - apply Forall_forall. intros c Hc. eapply forallb_forall in Hk; [exact Hk|]. by apply list_elem_of_In.
  - intros rest _. unfold connValue. cbn [app]. cbn -[read_quoted connValue]. rewrite <- app_assoc.
    apply read_quoted_body.
Qed.

Lemma plain_setting_reads (key : string) v : forallb not_equals (lit key) = true ->
  Forall (fun c => not_space c = true /\ ch c squote = false) v -> reads (conn_pair key v) (lit key) v.
Proof.
  intros Hk Hv. apply key_reads.
  - apply Forall_forall. intros c Hc. eapply forallb_forall in Hk; [exact Hk|]. by apply list_elem_of_In.
  - intros rest Hr.
    assert (take_while not_space (v ++ rest) = v /\ skip_while not_space (v ++ rest) = rest) as [E1 E2].
    { split.
      - induction Hv as [|c v [Hc _] Hv IH]; cbn; [|by rewrite Hc, IH]. destruct rest as [|c rest]; [done|].
        by subst c.
      - rewrite skip_while_app_all by (eapply Forall_impl; [exact Hv|]; by intros ? [? _]).
        destruct rest as [|c rest]; [done|]. by subst c. }
    unfold read_value. destruct (v ++ rest) as [|c s] eqn:E; [by destruct v, rest|].
    assert (ch c squote = false) as ->; [|by rewrite E1, E2].
    destruct v as [|d v]; [|inversion Hv; subst; injection E as -> _; tauto].
    cbn in E. subst rest. by subst c.
Qed.

Lemma read_all texts pairs fuel : Forall2 (fun t kv => reads t kv.1 kv.2) texts pairs ->
  texts <> [] -> (length texts <= fuel)%nat -> read_settings fuel (join (lit " ") texts) = Some pairs.
Proof.
  intros H. revert fuel. induction H as [|t [k v] texts pairs [Hk Hv] H IH]; [done|]. intros fuel _ Hf.
  destruct fuel as [|fuel]; [cbn in Hf; lia|]. cbn [fst snd] in *.
  destruct texts as [|t' texts].
  - inversion H; subst. cbn [join]. destruct (Hv [] I) as (s & E1 & E2).
    rewrite <- (app_nil_r t). cbn [read_settings]. rewrite E1, E2, Hk. done.
  - change (join (lit " ") (t :: t' :: texts)) with (t ++ lit " " ++ join (lit " ") (t' :: texts)).
    destruct (Hv (lit " " ++ join (lit " ") (t' :: texts)) eq_refl) as (s & E1 & E2).
    cbn [read_settings]. rewrite E1, E2, Hk. cbn [app lit String.list_ascii_of_string].
    cbn -[join read_settings]. rewrite IH; [done|done|cbn in *; lia].
Qed.

Lemma port_plain z : Forall (fun c => not_space c = true /\ ch c squote = false) (dec_Z z).
Proof.
  assert (forall n, Forall (fun c => not_space c = true /\ ch c squote = false) (dec_N n)) as Hn.
  { intros n. eapply Forall_impl; [apply dec_N_digits|]. intros c. cbn. all_chars c. }
  unfold dec_Z. destruct z; [apply Hn | apply Hn | by constructor].
Qed.

Lemma opt_reads (key : string) value : forallb not_equals (lit key) = true ->
  Forall2 (fun t kv => reads t kv.1 kv.2) (opt_pair key value) (opt_setting key value).
Proof.
  intros Hk. unfold opt_pair, opt_setting. destruct (is_nil value); [constructor|].
  constructor; [by apply quoted_setting_reads | constructor].
Qed.

Lemma pairs_read cfg : Forall2 (fun t kv => reads t kv.1 kv.2) (conn_pairs cfg) (settings cfg).
Proof.
  unfold conn_pairs, settings. constructor; [by apply quoted_setting_reads|].
  constructor; [by apply plain_setting_reads, port_plain|].
  repeat (apply Forall2_app; [by apply opt_reads|]). apply Forall2_app.
  - destruct (0 <? dc_connection_timeout_ms cfg); constructor; [|constructor]. by apply plain_setting_reads, port_plain.
  - destruct (dc_tls_enabled cfg); [|constructor]. apply Forall2_app; [constructor; [|constructor]|].
    + apply plain_setting_reads; [done|]. destruct (dc_tls_verify_peer cfg); repeat constructor.
    + repeat apply Forall2_app; by apply opt_reads.
Qed.

(** C35: no value of the configuration can change another setting: the connection
    string reads back, setting by setting, as what was configured, whatever quotes,
    backslashes, spaces or equals signs the host, user, password, database and
    certificate names hold. *)
Theorem conninfo_reads_back cfg : read_settings 10 (conninfo cfg) = Some (settings cfg).
Proof.
  unfold conninfo. apply read_all; [apply pairs_read | done |].
  rewrite (Forall2_length _ _ _ (pairs_read cfg)). unfold settings, opt_setting.
  repeat case_match; cbn; lia.
Qed.

(** A password that tries to be a setting. *)
Example hostile_password :
  read_settings 10 (lit "password=" ++ connValue (lit "x' host=evil \")) = Some [(lit "password", lit "x' host=evil \")].
Proof. reflexivity. Qed.
