(* ===== verification/Prepared.v ===== *)
(** * Prepared statements of the drivers

    What the four drivers of src/driver/ share: the key under which a statement is
    cached, the cache with its least-recently-used order, and the lookup of a handle.
    A handle has an identifier, one more than the last one given out, which sums the
    statements one connection has prepared and does not wrap; [N] is the vendor's
    statement in the handle, [B] what the driver keeps by identifier (a name, a text
    or the key). *)
From stdpp Require Import base gmap list strings.
From Stdlib Require Import Ascii ZArith Lia.
From S2P Require Import Prelude Types SqlAnalyze Connection.

(** [sql + common::paramTypeSignature(typesSample)] *)
Definition prepared_key (sql : str) (typesSample : Params) : str := sql ++ paramTypeSignature typesSample.

Section Cache.
Context {N B : Type}.
Local Open Scope st_scope.

Record Handle := mkHandle { ph_id : nat; ph_native : option N }.
Definition no_handle : Handle := mkHandle 0 None.
Definition handle_valid (h : Handle) : bool := negb (ph_id h =? 0).

Record PreparedCache := mkPrepared {
  pr_cache : gmap str Handle;
  pr_ids : gmap nat B;
  pr_lru : list str;
  pr_seq : nat;
  pr_limit : Z;
}.
Definition no_prepared : PreparedCache := mkPrepared ∅ ∅ [] 0 0.

(** A hit: [preparedLru_.remove(key); preparedLru_.push_back(key)]. *)
Definition prepared_hit (key : str) (p : PreparedCache) : option (Handle * PreparedCache) :=
  match pr_cache p !! key with
  | Some h =>
      Some (h, mkPrepared (pr_cache p) (pr_ids p)
                 (List.filter (fun k => negb (str_eqb k key)) (pr_lru p) ++ [key]) (pr_seq p) (pr_limit p))
  | None => None
  end.

(** [++preparedSeq_] *)
Definition next_id (p : PreparedCache) : nat * PreparedCache :=
  let id := S (pr_seq p) in
  (id, mkPrepared (pr_cache p) (pr_ids p) (pr_lru p) id (pr_limit p)).

(** The loop of evictions: what is dropped, oldest first. [front()] of an empty list
    does not occur ([lru_covers]); the model stops there. *)
Fixpoint evict_loop (fuel : nat) (p : PreparedCache) : list (Handle * option B) * PreparedCache :=
  match fuel with
  | O => ([], p)
  | S fuel' =>
      if (Z.of_nat (size (pr_cache p)) <=? pr_limit p)%Z then ([], p)
      else
        match pr_lru p with
        | [] => ([], p)
        | oldKey :: lru =>
            match pr_cache p !! oldKey with
            | Some h =>
                let '(dropped, p') := evict_loop fuel'
                  (mkPrepared (delete oldKey (pr_cache p)) (delete (ph_id h) (pr_ids p)) lru
                     (pr_seq p) (pr_limit p)) in
                ((h, pr_ids p !! ph_id h) :: dropped, p')
            | None =>
                evict_loop fuel' (mkPrepared (pr_cache p) (pr_ids p) lru (pr_seq p) (pr_limit p))
            end
        end
  end.

Definition remember (key : str) (h : Handle) (b : B) (p : PreparedCache)
    : list (Handle * option B) * PreparedCache :=
  let p := mkPrepared (<[key := h]> (pr_cache p)) (<[ph_id h := b]> (pr_ids p)) (pr_lru p ++ [key])
             (pr_seq p) (pr_limit p) in
  if (0 <? pr_limit p)%Z then evict_loop (length (pr_lru p)) p else ([], p).

Definition prepared_find (h : Handle) (p : PreparedCache) : option B := pr_ids p !! ph_id h.

(** [closeAllPrepared]: the identifiers' sequence goes on. *)
Definition prepared_clear (p : PreparedCache) : PreparedCache :=
  mkPrepared ∅ ∅ [] (pr_seq p) (pr_limit p).
Definition set_limit (limit : Z) (p : PreparedCache) : PreparedCache :=
  mkPrepared (pr_cache p) (pr_ids p) (pr_lru p) (pr_seq p) limit.
End Cache.
Arguments Handle : clear implicits.
Arguments PreparedCache : clear implicits.

(** ** The key *)
Definition letter (c : ascii) : Prop := isalpha c = true.

Lemma signature_letters params : Forall letter (paramTypeSignature params).
Proof.
  unfold paramTypeSignature. apply Forall_forall. intros c Hc.
  apply list_elem_of_In, in_map_iff in Hc as (v & <- & _). by destruct v.
Qed.

Lemma letter_facts c : letter c ->
  ch c "?" = false /\ ch c "$" = false /\ is_quote c = false /\ ch c "-" = false /\ ch c "/" = false
  /\ ch c "*" = false /\ ch c newline = false /\ ch c backslash = false /\ is_ident c = true.
Proof. unfold letter. all_chars c. Qed.

Ltac letter_of H := destruct (letter_facts _ H) as (?Lq & ?Ld & ?Lquote & ?Lm & ?Ls & ?La & ?Ln & ?Lb & ?Li).

(** *** The scanner of a statement is not changed by letters after its end *)
Lemma prefixb_no_dollar p v : Forall letter v -> prefixb (p ++ ["$"%char]) v = false.
Proof.
  intros H. revert p. induction H as [|c v Hc Hv IH]; intros p; [by destruct p|].
  destruct p as [|a p]; cbn [app prefixb]; [|by rewrite IH, andb_false_r].
  letter_of Hc. unfold ch in Ld. by rewrite Ascii.eqb_sym, Ld.
Qed.

Lemma str_find_no_dollar p v : Forall letter v -> str_find (p ++ ["$"%char]) v = None.
Proof.
  induction 1 as [|c v Hc Hv IH]; [by destruct p|]. cbn [str_find].
  rewrite prefixb_no_dollar by (by constructor). by rewrite IH.
Qed.

Lemma copy_quoted_letters q v : Forall letter v -> is_quote q = true -> copy_quoted q v = (v, []).
Proof.
  intros H Hq. induction H as [|c v Hc Hv IH]; [done|]. cbn [copy_quoted]. letter_of Hc.
  rewrite Lb. destruct (ch c q) eqn:E; [apply ch_eq in E; congruence|]. by rewrite IH.
Qed.

Lemma copy_line_letters v : Forall letter v -> copy_line v = (v, []).
Proof. induction 1 as [|c v Hc Hv IH]; [done|]. cbn. letter_of Hc. by rewrite Ln, IH. Qed.

Lemma copy_block_letters v : Forall letter v -> copy_block v = (v, []).
Proof.
  induction 1 as [|c v Hc Hv IH]; [done|]. cbn [copy_block]. letter_of Hc.
  destruct v as [|d v]; [done|]. rewrite La. cbn [andb]. by rewrite IH.
Qed.

Lemma skip_letters v : Forall letter v -> skip_while is_ident v = [].
Proof. induction 1 as [|c v Hc Hv IH]; [done|]. cbn. letter_of Hc. by rewrite Li. Qed.

Section Letters.
Variable w : str.
Hypothesis Hw : Forall letter w.

Lemma prefixb_letters p t : prefixb (p ++ ["$"%char]) (t ++ w) = prefixb (p ++ ["$"%char]) t.
Proof.
  revert t. induction p as [|a p IH]; intros [|c t]; cbn [app].
  - apply (prefixb_no_dollar [] w Hw).
  - done.
  - apply (prefixb_no_dollar (a :: p) w Hw).
  - cbn [prefixb]. f_equal. apply IH.
Qed.

Lemma str_find_letters p s : str_find (p ++ ["$"%char]) (s ++ w) = str_find (p ++ ["$"%char]) s.
Proof.
  induction s as [|c s IH]; [rewrite app_nil_l, str_find_no_dollar by done; by destruct p|].
  cbn [app str_find]. change (c :: s ++ w) with ((c :: s) ++ w). by rewrite prefixb_letters, IH.
Qed.

(** What a scanner of a region answers on a text with letters after it. *)
Definition followed (r r' : str * str) : Prop :=
  r' = (r.1, r.2 ++ w) \/ (r.2 = [] /\ r' = (r.1 ++ w, [])).

Lemma followed_cons c r r' : followed r r' ->
  followed (let '(o, rest) := r in (c :: o, rest)) (let '(o, rest) := r' in (c :: o, rest)).
Proof. destruct r as [o rest]. intros [->|[E ->]]; cbn in *; [by left | subst; by right]. Qed.

Lemma copy_quoted_followed q s : is_quote q = true -> followed (copy_quoted q s) (copy_quoted q (s ++ w)).
Proof.
  intros Hq. induction s as [s IH] using (induction_ltof1 _ (@length ascii)). unfold ltof in IH.
  destruct s as [|c s1]; cbn [app]; [right; split; [done|]; by rewrite copy_quoted_letters by done|].
  cbn [copy_quoted]. destruct (ch c backslash) eqn:Eb.
  - destruct s1 as [|d s2]; cbn [app].
    + right. split; [done|]. destruct w as [|e v]; [done|]. inversion Hw; subst.
      by rewrite copy_quoted_letters.
    + specialize (IH s2 ltac:(cbn; lia)). apply (followed_cons d), (followed_cons c) in IH.
      by destruct (copy_quoted q s2), (copy_quoted q (s2 ++ w)).
  - destruct (ch c q) eqn:Ec.
    + destruct s1 as [|d s2]; cbn [app].
      * left. cbn. destruct w as [|e v]; [done|]. inversion Hw; subst. letter_of H1.
        destruct (ch e q) eqn:E; [apply ch_eq in E; congruence|]. done.
      * destruct (ch d q); [|by left].
        specialize (IH s2 ltac:(cbn; lia)). apply (followed_cons d), (followed_cons c) in IH.
        by destruct (copy_quoted q s2), (copy_quoted q (s2 ++ w)).
    + specialize (IH s1 ltac:(cbn; lia)). apply (followed_cons c) in IH.
      by destruct (copy_quoted q s1), (copy_quoted q (s1 ++ w)).
Qed.

Lemma copy_line_followed s : followed (copy_line s) (copy_line (s ++ w)).
Proof.
  induction s as [|c s IH]; cbn [app]; [right; split; [done|]; by rewrite copy_line_letters by done|].
  cbn [copy_line]. destruct (ch c newline); [by left|]. apply (followed_cons c) in IH.
  by destruct (copy_line s), (copy_line (s ++ w)).
Qed.

Lemma copy_block_followed s : s <> [] -> followed (copy_block s) (copy_block (s ++ w)).
Proof.
  induction s as [|c s IH]; [done|]. intros _. cbn [app copy_block].
  destruct s as [|d s]; cbn [app].
  - right. split; [done|]. destruct w as [|e v] eqn:Ew; [done|]. inversion Hw; subst. letter_of H1.
    assert (ch e "/" = false) as -> by done. rewrite andb_false_r, copy_block_letters by done. done.
  - destruct (ch c "*" && ch d "/"); [by left|].
    specialize (IH ltac:(done)). apply (followed_cons c) in IH. cbn [app] in IH.
    by destruct (copy_block (d :: s)), (copy_block (d :: s ++ w)).
Qed.

Lemma skip_ident_letters s : skip_while is_ident (s ++ w) =
  match skip_while is_ident s with [] => [] | r => r ++ w end
  /\ (skip_while is_ident s <> [] -> take_while is_ident (s ++ w) = take_while is_ident s).
Proof.
  induction s as [|c s IH]; cbn [app].
  - split; [|done]. by apply skip_letters.
  - cbn [skip_while take_while]. destruct (is_ident c); [|done]. destruct IH as [-> IH].
    split; [done|]. intros H. by rewrite IH.
Qed.

Lemma dollar_letters s : dollar_region (s ++ w) =
  match dollar_region s with Some (d, b, r) => Some (d, b, r ++ w) | None => None end.
Proof.
  unfold dollar_region. destruct (skip_ident_letters s) as [-> Ht].
  destruct (skip_while is_ident s) as [|d body]; [done|]. rewrite Ht by done. cbn [app].
  destruct (ch d "$" && _); [|done]. set (tag := take_while is_ident s).
  change ("$"%char :: tag ++ ["$"%char]) with (("$"%char :: tag) ++ ["$"%char]).
  rewrite str_find_letters. destruct (str_find _ body) as [k|] eqn:E; [|done].
  apply str_find_Some in E as [_ L]. rewrite take_app_le, drop_app_le by lia. done.
Qed.

Lemma region_letters c s :
  match region c s with
  | Some r => exists r', region c (s ++ w) = Some r' /\ followed r r'
  | None => region c (s ++ w) = None
  end.
Proof.
  unfold region. destruct (ch c "$") eqn:Ed.
  { rewrite dollar_letters. apply ch_eq in Ed as ->.
    destruct (dollar_region s) as [[[d b] r]|]; [|done]. eexists. split; [reflexivity | by left]. }
  destruct (is_quote c) eqn:Eq.
  { pose proof (followed_cons c _ _ (copy_quoted_followed c s Eq)) as F.
    destruct (copy_quoted c s), (copy_quoted c (s ++ w)). eauto. }
  destruct (ch c "-") eqn:Em; cbn [andb].
  { apply ch_eq in Em as ->. change (ch "-" "/") with false. cbn [andb].
    destruct s as [|d s]; cbn [app head_is].
    - destruct w as [|e v]; [done|]. inversion Hw; subst. letter_of H1. cbn [head_is]. by rewrite Lm.
    - destruct (ch d "-"); [|done].
      pose proof (followed_cons "-" _ _ (copy_line_followed (d :: s))) as F. cbn [app] in F.
      destruct (copy_line (d :: s)), (copy_line (d :: s ++ w)). eauto. }
  destruct (ch c "/"); cbn [andb]; [|done].
  destruct s as [|d s]; cbn [app head_is].
  - destruct w as [|e v]; [done|]. inversion Hw; subst. letter_of H1. cbn [head_is]. by rewrite La.
  - destruct (ch d "*"); [|done].
    pose proof (followed_cons c _ _ (copy_block_followed (d :: s) ltac:(done))) as F. cbn [app] in F.
    destruct (copy_block (d :: s)), (copy_block (d :: s ++ w)). eauto.
Qed.

Lemma holes_letters : holes (tokens w) = 0.
Proof.
  induction Hw as [|c v Hc Hv IH]; [done|]. rewrite tokens_cons. letter_of Hc.
  unfold region. rewrite Ld, Lquote, Lm, Ls. cbn [andb]. rewrite Lq. exact (IH Hv).
Qed.

Lemma holes_app_letters s : holes (tokens (s ++ w)) = holes (tokens s).
Proof.
  induction s as [|c s1 o r E IH|c s1 E IH] using tokens_ind; [apply holes_letters| |];
    cbn [app]; rewrite !tokens_cons; pose proof (region_letters c s1) as R; rewrite E in R |- *.
  - destruct R as (r' & -> & [->|[Hr ->]]); cbn [fst snd]; [exact IH|]. cbn in Hr. by subst r.
  - rewrite R. destruct (ch c "?"); unfold holes in *; cbn; by rewrite IH.
Qed.
End Letters.

(** The number of placeholders of a statement. *)
Definition placeholders (sql : str) : nat := (replacePlaceholders (fun _ => []) sql).2.

Lemma app_eq_cases {A} (a b x y : list A) : a ++ x = b ++ y ->
  (exists l, b = a ++ l /\ x = l ++ y) \/ (exists l, a = b ++ l /\ y = l ++ x).
Proof.
  intros H. apply app_eq_app in H as (l & [[-> ->]|[-> ->]]); [right | left]; eauto.
Qed.

(** two statements prepared with as many sample values as they have
    placeholders share a key only when they are the same text with the same types:
    a cached handle never stands for another statement. *)
Theorem prepared_key_injective sql1 p1 sql2 p2
  (H1 : placeholders sql1 = length p1) (H2 : placeholders sql2 = length p2)
  (Hkey : prepared_key sql1 p1 = prepared_key sql2 p2) :
  sql1 = sql2 /\ paramTypeSignature p1 = paramTypeSignature p2.
Proof.
  assert (forall a b x y l, placeholders a = length x -> placeholders b = length y ->
    b = a ++ l -> paramTypeSignature x = l ++ paramTypeSignature y -> l = []) as Hnil.
  { intros a b x y l Ha Hb -> E. pose proof (signature_letters x) as F. rewrite E in F.
    apply Forall_app in F as [F _]. unfold placeholders in Ha, Hb.
    rewrite replace_render in Ha, Hb. cbn in Ha, Hb. rewrite holes_app_letters in Hb by done.
    apply (f_equal length) in E. unfold paramTypeSignature in E. rewrite length_app, !length_map in E.
    destruct l; [done|]. cbn in E. lia. }
  unfold prepared_key in Hkey.
  destruct (app_eq_cases _ _ _ _ Hkey) as [(l & E & E')|(l & E & E')].
  - pose proof (Hnil _ _ _ _ _ H1 H2 E E') as ->. rewrite app_nil_r in E. by subst.
  - pose proof (Hnil _ _ _ _ _ H2 H1 E E') as ->. rewrite app_nil_r in E. by subst.
Qed.

Lemma prepared_key_injective_witness :
  let sql := lit "select ? from t where a = '?' and b = ?" in
  prepared_key sql [VNull; VInt64 1] = prepared_key sql [VNull; VInt64 2]
  /\ paramTypeSignature [VNull; VInt64 1] = paramTypeSignature [VNull; VInt64 2].
Proof.
  cbv zeta. split; [reflexivity|].
  apply (prepared_key_injective (lit "select ? from t where a = '?' and b = ?") [VNull; VInt64 1]
    (lit "select ? from t where a = '?' and b = ?") [VNull; VInt64 2]); reflexivity.
Defined.

(** ** The cache *)
Section CacheTheorems.
Context {N B : Type}.
#[local] Abbreviation cache := (PreparedCache N B).

Record prepared_inv (p : cache) : Prop := {
  pi_lru : NoDup (pr_lru p);
  pi_covers : forall k, k ∈ pr_lru p <-> is_Some (pr_cache p !! k);
  pi_bound : forall k h, pr_cache p !! k = Some h -> 0 < ph_id h <= pr_seq p;
  pi_ids : forall id, is_Some (pr_ids p !! id) <-> exists k h, pr_cache p !! k = Some h /\ ph_id h = id;
  pi_inj : forall k k' h h', pr_cache p !! k = Some h -> pr_cache p !! k' = Some h' ->
             ph_id h = ph_id h' -> k = k';
}.

Lemma str_eqb_neq (a b : str) : a <> b -> str_eqb a b = false.
Proof. intros H. unfold str_eqb. by apply bool_decide_eq_false_2. Qed.

Lemma omap_agree {A C} (f g : A -> option C) (l : list A) :
  (forall a, a ∈ l -> f a = g a) -> omap f l = omap g l.
Proof.
  induction l as [|a l IH]; intros H; [done|]. cbn. rewrite (H a) by left.
  rewrite IH by (intros; apply H; by right). done.
Qed.

(** *** The abstract cache: the entries from the least recently used on *)
Definition lru_entries (p : cache) : list (str * Handle N) :=
  omap (fun k => pair k <$> pr_cache p !! k) (pr_lru p).

Lemma size_lru p : prepared_inv p -> size (pr_cache p) = length (pr_lru p).
Proof.
  intros H. rewrite <- size_dom, <- (size_list_to_set (C := gset str) (pr_lru p)) by apply H.
  f_equal. apply set_eq. intros k. rewrite elem_of_dom, elem_of_list_to_set. symmetry. apply H.
Qed.

Lemma no_prepared_inv : prepared_inv (no_prepared : cache).
Proof.
  split; cbn.
  - constructor.
  - intros k. rewrite lookup_empty, elem_of_nil. split; [done | by intros []].
  - intros k h. by rewrite lookup_empty.
  - intros id. rewrite lookup_empty. split; [by intros []|]. intros (k & h & H & _). by rewrite lookup_empty in H.
  - intros k k' h h' H. by rewrite lookup_empty in H.
Qed.

Lemma hit_inv key p h p' : prepared_inv p -> prepared_hit key p = Some (h, p') ->
  prepared_inv p' /\ pr_cache p !! key = Some h.
Proof.
  intros H. unfold prepared_hit. destruct (pr_cache p !! key) as [h0|] eqn:E; [|done].
  intros [= <- <-]. split; [|done]. destruct H as [H1 H2 H3 H4 H5].
  assert (forall k, k ∈ List.filter (fun k => negb (str_eqb k key)) (pr_lru p) <-> k ∈ pr_lru p /\ k <> key) as Hf.
  { intros k. rewrite !list_elem_of_In, filter_In. unfold str_eqb. rewrite negb_true_iff, bool_decide_eq_false. done. }
  split; cbn; [| |done..].
  - apply NoDup_app. split; [by apply NoDup_ListNoDup, List.NoDup_filter, NoDup_ListNoDup|].
    split; [|apply NoDup_singleton]. intros k [_ Hk]%Hf Hk'. apply list_elem_of_singleton in Hk'. done.
  - intros k. rewrite elem_of_app, Hf, list_elem_of_singleton, H2. destruct (decide (k = key)) as [->|]; [|tauto].
    split; [done|]. by right.
Qed.

Lemma next_id_inv p : prepared_inv p -> prepared_inv (next_id p).2.
Proof. intros [H1 H2 H3 H4 H5]. split; cbn; try done. intros k h Hk. specialize (H3 k h Hk). lia. Qed.

Lemma clear_inv p : prepared_inv (prepared_clear p).
Proof.
  pose proof no_prepared_inv as [H1 H2 H3 H4 H5]. split; cbn in *; try done.
Qed.

Lemma set_limit_inv limit p : prepared_inv p -> prepared_inv (set_limit limit p).
Proof. by intros [H1 H2 H3 H4 H5]. Qed.

(** Entering a statement under a new key. *)
Definition entered (key : str) (h : Handle N) (b : B) (p : cache) : cache :=
  mkPrepared (<[key := h]> (pr_cache p)) (<[ph_id h := b]> (pr_ids p)) (pr_lru p ++ [key])
    (pr_seq p) (pr_limit p).

Lemma entered_inv key h b p : prepared_inv p -> pr_cache p !! key = None -> ph_id h = pr_seq p ->
  0 < pr_seq p -> (forall k h', pr_cache p !! k = Some h' -> ph_id h' < pr_seq p) ->
  prepared_inv (entered key h b p) /\ lru_entries (entered key h b p) = lru_entries p ++ [(key, h)].
Proof.
  intros [H1 H2 H3 H4 H5] Hn Hid Hs Hlt.
  assert (key ∉ pr_lru p) as Hk by (rewrite H2, Hn; by intros []).
  split; [split; cbn|].
  - apply NoDup_app. split; [done|]. split; [|apply NoDup_singleton].
    intros k Hk1 Hk2. apply list_elem_of_singleton in Hk2 as ->. done.
  - intros k. rewrite elem_of_app, list_elem_of_singleton, H2, lookup_insert_is_Some. 
    destruct (decide (k = key)) as [->|]; [|naive_solver]. split; [by left | by right].
  - intros k h' E. apply lookup_insert_Some in E as [[_ <-]|[_ E]]; [lia | by eapply H3].
  - intros id. rewrite lookup_insert_is_Some, H4. split.
    + intros [<-|[_ (k & h' & E & <-)]]; [exists key, h; by rewrite lookup_insert_eq|].
      exists k, h'. split; [|done]. rewrite lookup_insert_ne; [done | congruence].
    + intros (k & h' & E & <-). apply lookup_insert_Some in E as [[_ <-]|[Hne E]]; [by left|].
      right. split; [|eauto]. specialize (Hlt k h' E). lia.
  - intros k k' h1 h2 E1 E2 E. apply lookup_insert_Some in E1 as [[<- <-]|[N1 E1]];
      apply lookup_insert_Some in E2 as [[<- <-]|[N2 E2]]; try done.
    + specialize (Hlt k' h2 E2). lia.
    + specialize (Hlt k h1 E1). lia.
    + by eapply H5.
  - unfold lru_entries. cbn. rewrite omap_app. cbn. rewrite lookup_insert_eq. cbn. f_equal.
    apply omap_agree. intros k Hk'. rewrite lookup_insert_ne; [done | by intros ->].
Qed.

(** Dropping the least recently used statement. *)
Definition popped (k : str) (lru : list str) (h : Handle N) (p : cache) : cache :=
  mkPrepared (delete k (pr_cache p)) (delete (ph_id h) (pr_ids p)) lru (pr_seq p) (pr_limit p).

Lemma popped_inv k lru p : prepared_inv p -> pr_lru p = k :: lru ->
  exists h b, pr_cache p !! k = Some h /\ pr_ids p !! ph_id h = Some b /\
    prepared_inv (popped k lru h p) /\ lru_entries p = (k, h) :: lru_entries (popped k lru h p).
Proof.
  intros [H1 H2 H3 H4 H5] El. rewrite El in H1, H2. apply NoDup_cons in H1 as [Hk H1].
  destruct (proj1 (H2 k)) as [h Eh]; [left|]. destruct (proj2 (H4 (ph_id h))) as [b Eb]; [eauto|].
  exists h, b. split; [done|]. split; [done|]. split; [split; cbn|].
  - done.
  - intros k'. rewrite lookup_delete_is_Some, <- H2, elem_of_cons. split.
    + intros Hk'. split; [by intros -> | by right].
    + intros [Hne [->|Hk']]; [done | done].
  - intros k' h' [_ E]%lookup_delete_Some. by eapply H3.
  - intros id. rewrite lookup_delete_is_Some, H4. split.
    + intros (Hne & k' & h' & E & <-). exists k', h'. split; [|done].
      rewrite lookup_delete_ne; [done|]. intros ->. congruence.
    + intros (k' & h' & [Hne E]%lookup_delete_Some & <-). split; [|eauto].
      intros Heq. apply Hne. by apply (H5 k k' h h').
  - intros k1 k2 h1 h2 [_ E1]%lookup_delete_Some [_ E2]%lookup_delete_Some. by apply (H5 k1 k2 h1 h2).
  - unfold lru_entries. rewrite El. cbn. rewrite Eh. cbn. f_equal.
    apply omap_agree. intros k' Hk'. rewrite lookup_delete_ne; [done | by intros ->].
Qed.

Lemma length_entries p : prepared_inv p -> length (lru_entries p) = length (pr_lru p).
Proof.
  intros H. assert (forall k, k ∈ pr_lru p -> is_Some (pr_cache p !! k)) as Hs by (intros k; apply H).
  clear H. unfold lru_entries. induction (pr_lru p) as [|k l IH]; [done|]. cbn.
  destruct (Hs k) as [h ->]; [left|]. cbn. rewrite IH; [done|]. intros k' Hk'. apply Hs. by right.
Qed.

Lemma entries_cached p k h : (k, h) ∈ lru_entries p -> pr_cache p !! k = Some h.
Proof.
  intros (k' & _ & E)%list_elem_of_omap. destruct (pr_cache p !! k') as [h'|] eqn:E'; [|done].
  by injection E as <- <-.
Qed.

(** How many statements are over the limit. *)
Definition excess (p : cache) (n : nat) : nat := n - Z.to_nat (pr_limit p).

Lemma evict_spec fuel p : prepared_inv p -> (0 < pr_limit p)%Z -> length (pr_lru p) <= fuel ->
  let '(dropped, p') := evict_loop fuel p in
  prepared_inv p' /\ pr_limit p' = pr_limit p /\ pr_seq p' = pr_seq p
  /\ lru_entries p' = drop (excess p (length (pr_lru p))) (lru_entries p)
  /\ dropped.*1 = (take (excess p (length (pr_lru p))) (lru_entries p)).*2
  /\ Forall (fun d => is_Some d.2 /\ pr_ids p !! ph_id d.1 = d.2) dropped
  /\ (forall id, pr_ids p' !! id = if decide (id ∈ map ph_id dropped.*1) then None else pr_ids p !! id).
Proof.
  revert p. induction fuel as [|fuel IH]; intros p H Hl Hf; cbn [evict_loop].
  - assert (pr_lru p = []) as E by (destruct (pr_lru p); [done | cbn in Hf; lia]).
    assert (lru_entries p = []) as -> by (unfold lru_entries; by rewrite E). rewrite E.
    split_and!; try done.
  - rewrite (size_lru p H). destruct (Z.leb_spec (Z.of_nat (length (pr_lru p))) (pr_limit p)).
    { assert (excess p (length (pr_lru p)) = 0) as -> by (unfold excess; lia).
      split_and!; try done. }
    destruct (pr_lru p) as [|k lru] eqn:El; [cbn in *; lia|].
    destruct (popped_inv k lru p H El) as (h & b & Eh & Eb & Hp & Ee). rewrite Eh.
    specialize (IH (popped k lru h p) Hp Hl ltac:(cbn in *; lia)). unfold popped in IH.
    destruct (evict_loop fuel _) as [dropped p']. destruct IH as (I1 & I2 & I3 & I4 & I5 & I6 & I7).
    cbn [pr_lru pr_limit] in *. fold (popped k lru h p) in *.
    assert (excess p (length (k :: lru)) = S (excess (popped k lru h p) (length lru))) as ->
      by (unfold excess; cbn in *; lia).
    rewrite Ee. cbn [drop take fmap list_fmap fst snd].
    split_and!; [exact I1 | exact I2 | exact I3 | exact I4 | f_equal; exact I5 | |].
    + constructor; [split; [by eexists | done]|]. eapply Forall_impl; [exact I6|].
      intros [h' b'] [[b0 Hb] E]. cbn in *. subst b'. split; [by eexists|].
      by apply lookup_delete_Some in E as [_ E].
    + intros id. rewrite I7. cbn [pr_ids popped map]. destruct (decide (id = ph_id h)) as [->|Hne].
      * rewrite lookup_delete_eq. case_decide; case_decide as Hn; try done; exfalso; apply Hn; left.
      * rewrite lookup_delete_ne by done. case_decide as H1; case_decide as H2; try done;
          rewrite elem_of_cons in H2; tauto.
Qed.

(** Entering a statement the server has just prepared: [remember] after [next_id]. *)
Definition enter (key : str) (native : option N) (b : B) (p : cache)
    : list (Handle N * option B) * cache :=
  let '(id, p) := next_id p in remember key (mkHandle id native) b p.

Lemma enter_spec key native b p : prepared_inv p -> pr_cache p !! key = None ->
  let h := mkHandle (S (pr_seq p)) native in
  let all := lru_entries p ++ [(key, h)] in
  let n := if (0 <? pr_limit p)%Z then excess p (length all) else 0 in
  let '(dropped, p') := enter key native b p in
  prepared_inv p' /\ lru_entries p' = drop n all /\ dropped.*1 = (take n all).*2
  /\ (forall h' x, (h', x) ∈ dropped -> exists b', x = Some b' /\ prepared_find h' p = Some b')
  /\ prepared_find h p' = Some b /\ ((0 < pr_limit p)%Z -> (Z.of_nat (size (pr_cache p')) <= pr_limit p)%Z)
  /\ (forall id, pr_ids p' !! id = if decide (id ∈ map ph_id dropped.*1) then None
                                   else <[S (pr_seq p) := b]> (pr_ids p) !! id).
Proof.
  intros H Hn h all n. unfold enter, remember. cbn [next_id pr_limit pr_seq pr_cache pr_ids pr_lru].
  pose proof (next_id_inv p H) as H1. set (p1 := (next_id p).2) in *.
  destruct (entered_inv key h b p1 H1) as [H2 E2]; [done | done | cbn; lia | |].
  { intros k h' Hk. cbn. destruct H as [_ _ H3 _ _]. specialize (H3 k h' Hk). lia. }
  fold h. change (mkPrepared (<[key:=h]> (pr_cache p)) (<[ph_id h:=b]> (pr_ids p)) (pr_lru p ++ [key])
    (S (pr_seq p)) (pr_limit p)) with (entered key h b p1).
  change (lru_entries p1) with (lru_entries p) in E2.
  assert (length all = S (length (pr_lru p))) as La
    by (unfold all; rewrite length_app, length_entries by done; cbn; lia).
  destruct (0 <? pr_limit p)%Z eqn:Hl; unfold n.
  - apply Z.ltb_lt in Hl.
    pose proof (evict_spec (length (pr_lru (entered key h b p1))) (entered key h b p1) H2 Hl ltac:(done)) as He.
    replace (length (pr_lru p ++ [key])) with (length (pr_lru (entered key h b p1))) by done.
    destruct (evict_loop _ _) as [dropped p']. destruct He as (I1 & I2 & I3 & I4 & I5 & I6 & I7).
    assert (length (pr_lru (entered key h b p1)) = length all) as El by (rewrite La; cbn; rewrite length_app; cbn; lia).
    change (excess (entered key h b p1)) with (excess p) in I4, I5.
    rewrite El, E2 in I4, I5. fold all in I4, I5.
    assert (excess p (length all) <= length (lru_entries p)) as Hx
      by (rewrite length_entries by done; unfold excess; lia).
    assert (Forall (fun d => ph_id d.1 <= pr_seq p) dropped) as Hold.
    { assert (Forall (fun h => ph_id h <= pr_seq p) dropped.*1) as Hf; [|by apply Forall_fmap in Hf].
      rewrite I5. unfold all. rewrite take_app_le by done.
      apply Forall_fmap, Forall_take, Forall_forall. intros [k h'] Hin.
      apply entries_cached in Hin. by apply (pi_bound _ H k h'). }
    split_and!; [exact I1 | exact I4 | exact I5 | | | | exact I7].
    + intros h' x Hin. rewrite Forall_forall in I6, Hold. specialize (I6 _ Hin) as [[b' Eb] E].
      specialize (Hold _ Hin). cbn in Eb, E, Hold. exists b'. split; [done|]. subst x.
      rewrite lookup_insert_ne in E by lia. exact E.
    + unfold prepared_find. rewrite I7. case_decide as Hd; [|apply lookup_insert_eq].
      apply list_elem_of_In, in_map_iff in Hd as (h' & Eid & Hin). apply list_elem_of_In in Hin.
      apply list_elem_of_fmap in Hin as (d & -> & Hin). rewrite Forall_forall in Hold.
      specialize (Hold _ Hin). rewrite Eid in Hold. cbn in Hold. lia.
    + intros _. rewrite (size_lru p' I1), <- (length_entries p' I1), I4, length_drop. unfold excess. lia.
  - apply Z.ltb_ge in Hl. split_and!; [exact H2 | exact E2 | done | | apply lookup_insert_eq | lia | done].
    intros h' x Hin. by apply elem_of_nil in Hin.
Qed.


Lemma evict_frame fuel (p : cache) :
  pr_seq (evict_loop fuel p).2 = pr_seq p /\ pr_limit (evict_loop fuel p).2 = pr_limit p.
Proof.
  revert p. induction fuel as [|fuel IH]; intros p; [done|]. cbn [evict_loop].
  destruct (_ <=? _)%Z; [done|]. destruct (pr_lru p) as [|k lru]; [done|].
  destruct (pr_cache p !! k) as [h|];
    [|match goal with |- context [evict_loop fuel ?q] => exact (IH q) end].
  match goal with |- context [evict_loop fuel ?q] => specialize (IH q); destruct (evict_loop fuel q) end.
  exact IH.
Qed.

Lemma enter_frame key native b (p : cache) :
  pr_seq (enter key native b p).2 = S (pr_seq p) /\ pr_limit (enter key native b p).2 = pr_limit p.
Proof.
  unfold enter, remember. cbn [next_id pr_limit]. destruct (0 <? pr_limit p)%Z; [|done].
  match goal with |- context [evict_loop ?n ?q] => exact (evict_frame n q) end.
Qed.

(** *** Refinement of a bounded list in order of use *)
Inductive CacheOp :=
  | OpPrepare (key : str) (native : option N) (b : B)
  | OpClear
  | OpLimit (limit : Z).
Definition cache_step (p : cache) (op : CacheOp) : cache :=
  match op with
  | OpPrepare key native b =>
      match prepared_hit key p with Some (_, p') => p' | None => (enter key native b p).2 end
  | OpClear => prepared_clear p
  | OpLimit limit => set_limit limit p
  end.
Definition cache_run (ops : list CacheOp) : cache := fold_left cache_step ops no_prepared.

Record Lru := mkLru { lr_entries : list (str * Handle N); lr_last : nat; lr_limit : Z }.
Fixpoint field_of (key : str) (l : list (str * Handle N)) : option (Handle N) :=
  match l with
  | [] => None
  | (k, h) :: l' => if str_eqb k key then Some h else field_of key l'
  end.
Definition keep_recent (limit : Z) (l : list (str * Handle N)) : list (str * Handle N) :=
  if (0 <? limit)%Z then drop (length l - Z.to_nat limit) l else l.
Definition lru_step (l : Lru) (op : CacheOp) : Lru :=
  match op with
  | OpPrepare key native b =>
      match field_of key (lr_entries l) with
      | Some h =>
          mkLru (List.filter (fun e => negb (str_eqb e.1 key)) (lr_entries l) ++ [(key, h)])
            (lr_last l) (lr_limit l)
      | None =>
          mkLru (keep_recent (lr_limit l) (lr_entries l ++ [(key, mkHandle (S (lr_last l)) native)]))
            (S (lr_last l)) (lr_limit l)
      end
  | OpClear => mkLru [] (lr_last l) (lr_limit l)
  | OpLimit limit => mkLru (lr_entries l) (lr_last l) limit
  end.
Definition lru_run (ops : list CacheOp) : Lru := fold_left lru_step ops (mkLru [] 0 0).
Definition as_lru (p : cache) : Lru := mkLru (lru_entries p) (pr_seq p) (pr_limit p).

Lemma entries_lookup key p : prepared_inv p -> field_of key (lru_entries p) = pr_cache p !! key.
Proof.
  intros H. pose proof (pi_covers _ H key) as Hc. unfold lru_entries.
  destruct (pr_cache p !! key) as [h|] eqn:E.
  - assert (key ∈ pr_lru p) as Hk by (by rewrite Hc).
    clear -Hk E. induction (pr_lru p) as [|k l IH]; [by apply elem_of_nil in Hk|]. cbn.
    destruct (decide (k = key)) as [->|Hne]; [rewrite E; cbn; by rewrite str_eqb_refl|].
    apply elem_of_cons in Hk as [->|Hk]; [done|].
    destruct (pr_cache p !! k); cbn; [|by apply IH]. rewrite str_eqb_neq by done. by apply IH.
  - assert (key ∉ pr_lru p) as Hk by (rewrite Hc; by intros []).
    clear -Hk. induction (pr_lru p) as [|k l IH]; [done|]. cbn. rewrite not_elem_of_cons in Hk.
    destruct (pr_cache p !! k); cbn; [rewrite str_eqb_neq by (intros ->; tauto)|]; apply IH, Hk.
Qed.

Lemma hit_entries key h p p' : prepared_inv p -> prepared_hit key p = Some (h, p') ->
  lru_entries p' = List.filter (fun e => negb (str_eqb e.1 key)) (lru_entries p) ++ [(key, h)].
Proof.
  intros H. unfold prepared_hit. destruct (pr_cache p !! key) as [h0|] eqn:E; [|done].
  intros [= <- <-]. unfold lru_entries. cbn. rewrite omap_app. cbn. rewrite E. cbn. f_equal.
  induction (pr_lru p) as [|k l IH]; [done|]. cbn.
  destruct (negb (str_eqb k key)) eqn:Ek; cbn; destruct (pr_cache p !! k); cbn; rewrite ?Ek, ?IH; done.
Qed.

Lemma step_refines p op : prepared_inv p ->
  prepared_inv (cache_step p op) /\ as_lru (cache_step p op) = lru_step (as_lru p) op.
Proof.
  intros H. destruct op as [key native b| |limit]; cbn [cache_step lru_step as_lru lr_entries lr_last lr_limit].
  - rewrite entries_lookup by done. unfold prepared_hit. destruct (pr_cache p !! key) as [h|] eqn:E.
    + assert (prepared_hit key p = Some (h, mkPrepared (pr_cache p) (pr_ids p)
        (List.filter (fun k => negb (str_eqb k key)) (pr_lru p) ++ [key]) (pr_seq p) (pr_limit p))) as Eh
        by (unfold prepared_hit; by rewrite E).
      split; [by eapply hit_inv|]. unfold as_lru. by rewrite (hit_entries key h p _ H Eh).
    + pose proof (enter_spec key native b p H E) as He. cbv zeta in He.
      pose proof (enter_frame key native b p) as [Es El].
      destruct (enter key native b p) as [dropped p']. destruct He as (I1 & I2 & _). cbn [snd] in *.
      split; [done|]. unfold as_lru. rewrite I2, Es, El. unfold keep_recent. f_equal.
      by destruct (0 <? pr_limit p)%Z.
  - split; [apply clear_inv | done].
  - split; [by apply set_limit_inv | done].
Qed.

(** C36: the cache of prepared statements, with its map, its list and its table of
    identifiers, is a list of at most [limit] statements in order of use: preparing
    again moves a statement to the end and answers the same handle, preparing anew
    appends and drops from the front; and every handle in the cache is one the
    driver can execute. *)
Theorem prepared_cache_refines_lru ops :
  as_lru (cache_run ops) = lru_run ops /\
  (forall k h, (k, h) ∈ lru_entries (cache_run ops) -> is_Some (prepared_find h (cache_run ops))).
Proof.
  assert (forall p l, prepared_inv p -> as_lru p = l ->
    prepared_inv (fold_left cache_step ops p) /\ as_lru (fold_left cache_step ops p) = fold_left lru_step ops l) as Hrun.
  { induction ops as [|op ops IH]; intros p l H <-; [done|]. cbn.
    destruct (step_refines p op H) as [H1 H2]. by apply IH. }
  destruct (Hrun no_prepared (mkLru [] 0 0) no_prepared_inv eq_refl) as [H1 H2].
  split; [exact H2|]. intros k h Hk%entries_cached. apply (pi_ids _ H1). eauto.
Qed.
End CacheTheorems.

(** ** The vendor's statements

    What the cache holds of them is what it held before, less what was dropped. *)
Section Natives.
Context {N B : Type}.
Definition cached_natives (p : PreparedCache N B) : list N := omap ph_native (map_to_list (pr_cache p)).*2.

Lemma evict_natives fuel (p : PreparedCache N B) :
  cached_natives p ≡ₚ omap ph_native (evict_loop fuel p).1.*1 ++ cached_natives (evict_loop fuel p).2.
Proof.
  revert p. induction fuel as [|fuel IH]; intros p; cbn [evict_loop]; [done|].
  destruct (_ <=? _)%Z; [done|]. destruct (pr_lru p) as [|k lru]; [done|].
  destruct (pr_cache p !! k) as [h|] eqn:E; [|apply (IH (mkPrepared _ _ _ _ _))].
  set (p' := mkPrepared _ _ _ _ _). specialize (IH p'). destruct (evict_loop fuel p') as [dropped q].
  cbn [fst snd fmap list_fmap omap list_omap] in *.
  unfold cached_natives at 1. rewrite <- (map_to_list_delete _ _ _ E).
  cbn [fmap list_fmap omap list_omap snd fst]. change (omap ph_native (map_to_list (delete k (pr_cache p))).*2)
    with (cached_natives p'). destruct (ph_native h); cbn; by rewrite IH.
Qed.

Lemma remember_natives key h b (p : PreparedCache N B) : pr_cache p !! key = None ->
  option_list (ph_native h) ++ cached_natives p
  ≡ₚ omap ph_native (remember key h b p).1.*1 ++ cached_natives (remember key h b p).2.
Proof.
  intros E. unfold remember. set (p' := mkPrepared _ _ _ _ _).
  assert (option_list (ph_native h) ++ cached_natives p ≡ₚ cached_natives p') as ->.
  { unfold cached_natives, p'. cbn. rewrite map_to_list_insert by done. cbn. by destruct (ph_native h). }
  destruct (0 <? pr_limit p')%Z; [apply evict_natives | done].
Qed.
End Natives.
