(* ===== verification/Postgres.v ===== *)
(** * The PostgreSQL driver (src/driver/postgres_driver.cpp)

    One connection over the client library libpqxx, which is the interface [Pqxx]:
    every use of the library is a call that answers or throws. The calls made so far
    are kept in [pg_trace], which nothing reads but the theorems. An out parameter
    is the second half of the state, so that what an operation wrote before an
    exception stays written. *)
From stdpp Require Import base gmap list strings.
From Stdlib Require Import Ascii ZArith Lia.
From S2P Require Import Prelude Doubles Types Timestamps Config SqlAnalyze Connection Transaction PgTypes PgValues PgConninfo Prepared.

Open Scope Z_scope.

Create HintDb pq.

(** ** The library *)

(** What a [std::exception] says; [pqxx::sql_error] has a SQLSTATE besides. *)
Record PqError := mkPqError { pe_what : str; pe_sqlstate : option str }.

(** A result: the names and types of its columns, the texts of its rows. *)
Record PqResult := mkPqResult {
  pq_columns : list (str * Z);
  pq_rows : list (list (option str));
  pq_affected : Z;
}.
Definition pq_nothing : PqResult := mkPqResult [] [] 0.

Inductive PqCall :=
  | PcConnect (conninfo : str)
  | PcSetup (sql : str)
  | PcEncoding (charset : str)
  | PcBegin
  | PcExec (sql : str)
  | PcExecParams (sql : str) (params : list PqParam)
  | PcExecPrepared (name : str) (params : list PqParam)
  | PcCommit
  | PcAbort
  | PcEnd  (** the destructor of a transaction *)
  | PcPrepare (name sql : str)
  | PcUnprepare (name : str)
  | PcClose
  | PcCancel.

Class Pqxx (E : Type) := {
  pq_call : PqCall -> ST E (PqError + PqResult);
  pq_is_open : E -> bool;
  (** [as<long long>] *)
  pq_int : str -> option Z;
}.

(** ** Statuses *)
Definition pg_notConnected (place : string) : Status :=
  status_error NotConnected (lit "PostgreSQL: not connected (" ++ lit place ++ lit ")").
Definition paramMismatch (supplied found : nat) : Status := param_mismatch supplied found.
Definition postgresError (fallback : ErrorCode) (place : string) (e : PqError) : Status :=
  databaseError fallback (lit "PostgreSQL " ++ lit place ++ lit ": " ++ pe_what e)
    (default [] (pe_sqlstate e)) 0.
Definition tx_error (msg : string) : Status := status_error TxError (lit ("PostgreSQL: " ++ msg)).

(** ** The connection *)
Section Driver.
Context {E : Type} `{!Pqxx E}.
Context (localtime : Z -> tm) (mktime : tm -> option Z) (pow10 : Z -> double)
  (snprintf_g : Z -> double -> str).
Local Open Scope st_scope.

(** A call of the library as it was made: was an operation marked active, and did
    the call return? *)
Record Called := mkCalled { cd_call : PqCall; cd_active : bool; cd_returned : bool }.

Record PgConn := mkPg {
  pg_env : E;
  pg_open : bool;
  pg_conn : bool;
  pg_tx : bool;
  pg_cfg : DataSourceConfig;
  pg_prepared : PreparedCache unit str;
  pg_types : PgTypeCache;
  pg_active : bool;
  pg_trace : list Called;
}.
Definition pg_new (e : E) (cfg : DataSourceConfig) : PgConn :=
  mkPg e false false false cfg no_prepared no_types false [].

Definition set_open (b : bool) (c : PgConn) : PgConn :=
  mkPg (pg_env c) b (pg_conn c) (pg_tx c) (pg_cfg c) (pg_prepared c) (pg_types c) (pg_active c) (pg_trace c).
Definition set_conn (b : bool) (c : PgConn) : PgConn :=
  mkPg (pg_env c) (pg_open c) b (pg_tx c) (pg_cfg c) (pg_prepared c) (pg_types c) (pg_active c) (pg_trace c).
Definition set_tx (b : bool) (c : PgConn) : PgConn :=
  mkPg (pg_env c) (pg_open c) (pg_conn c) b (pg_cfg c) (pg_prepared c) (pg_types c) (pg_active c) (pg_trace c).
Definition set_cfg (cfg : DataSourceConfig) (c : PgConn) : PgConn :=
  mkPg (pg_env c) (pg_open c) (pg_conn c) (pg_tx c) cfg (pg_prepared c) (pg_types c) (pg_active c) (pg_trace c).
Definition set_prepared (p : PreparedCache unit str) (c : PgConn) : PgConn :=
  mkPg (pg_env c) (pg_open c) (pg_conn c) (pg_tx c) (pg_cfg c) p (pg_types c) (pg_active c) (pg_trace c).
Definition set_types (t : PgTypeCache) (c : PgConn) : PgConn :=
  mkPg (pg_env c) (pg_open c) (pg_conn c) (pg_tx c) (pg_cfg c) (pg_prepared c) t (pg_active c) (pg_trace c).
Definition set_active (b : bool) (c : PgConn) : PgConn :=
  mkPg (pg_env c) (pg_open c) (pg_conn c) (pg_tx c) (pg_cfg c) (pg_prepared c) (pg_types c) b (pg_trace c).

(** *** Code that may throw, with an out parameter of type [O] *)
Section Throwing.
Context {O : Type}.
Definition X (A : Type) : Type := ST (PgConn * O) (PqError + A).
Definition xret {A} (a : A) : X A := ret (inr a).
Definition throw {A} (e : PqError) : X A := ret (inl e).
Definition xbind {A B} (m : X A) (k : A -> X B) : X B :=
  fun s => match m s with (inr a, s') => k a s' | (inl e, s') => (inl e, s') end.
Definition catch {A} (m : X A) (h : PqError -> X A) : X A :=
  fun s => match m s with (inl e, s') => h e s' | r => r end.
Definition on_conn {A} (f : PgConn -> A * PgConn) : X A :=
  fun s => let '(a, c) := f s.1 in (inr a, (c, s.2)).
Definition change (f : PgConn -> PgConn) : X unit := on_conn (fun c => (tt, f c)).
Definition look {A} (f : PgConn -> A) : X A := on_conn (fun c => (f c, c)).
Definition write (f : O -> O) : X unit := fun s => (inr tt, (s.1, f s.2)).

Definition lib (call : PqCall) : X PqResult :=
  fun s =>
    let c := s.1 in
    let '(r, e) := pq_call call (pg_env c) in
    (r, (mkPg e (pg_open c) (pg_conn c) (pg_tx c) (pg_cfg c) (pg_prepared c) (pg_types c) (pg_active c)
           (pg_trace c ++ [mkCalled call (pg_active c) (match r with inl _ => false | inr _ => true end)]),
         s.2)).
(** [try { ... } catch (...) {}] *)
Definition quietly (call : PqCall) : X unit := catch (xbind (lib call) (fun _ => xret tt)) (fun _ => xret tt).
End Throwing.

Notation "x <~ m ; k" := (xbind m (fun x => k))
  (at level 100, m at next level, right associativity) : st_scope.
Notation "m ~; k" := (xbind m (fun _ => k)) (at level 100, right associativity) : st_scope.

Section Operations.
Context {O : Type}.

(** [ActiveOperation active(operationMtx_, operationActive_)] around the rest. *)
Definition active_operation {A} (m : X A) : X (O := O) A :=
  fun s =>
    let '(r, s') := m (set_active true s.1, s.2) in (r, (set_active false s'.1, s'.2)).

(** [catch (const std::exception &e) { return postgresError(...); }] around the rest. *)
Definition reporting (fallback : ErrorCode) (place : string) (m : X Status) : X (O := O) Status :=
  catch m (fun e => xret (postgresError fallback place e)).

(** The statement's own transaction object, unless one is open: committed when [keep]
    says so, destroyed in any case. *)
Definition own_tx {A} (keep : A -> bool) (body : X A) : X (O := O) A :=
  busy <~ look pg_tx;
  if busy : bool then body
  else
    lib PcBegin ~;
    r <~ catch (a <~ body; (if keep a then lib PcCommit ~; xret a else xret a))
           (fun e => quietly PcEnd ~; throw e);
    quietly PcEnd ~; xret r.

End Operations.

(** *** Values of a result *)
Definition as_int (f : option str) : option Z :=
  match f with None => Some 0 | Some t => pq_int t end.
Definition as_oid (z : Z) : Z := z mod 2 ^ 32.
Definition type_row (row : list (option str)) : option TypeRow :=
  match row with
  | [oid; name; kind; elem; base] =>
      name ← name; elem ← as_int elem; base ← as_int base; oid ← as_int oid;
      Some (mkTypeRow (as_oid oid) name (default [] kind) (as_oid elem) (as_oid base))
  | _ => None
  end.
Definition attr_row (row : list (option str)) : option AttrRow :=
  match row with
  | [oid; name; type] =>
      oid ← as_int oid; name ← name; type ← as_int type;
      Some (mkAttrRow (as_oid oid) name (as_oid type))
  | _ => None
  end.

Definition types_sql : str := lit
  "SELECT t.oid::bigint, t.typname::text, t.typtype::text,       t.typelem::bigint, t.typbasetype::bigint  FROM pg_catalog.pg_type t".
Definition attrs_sql : str := lit
  "SELECT t.oid::bigint, a.attname::text, a.atttypid::bigint  FROM pg_catalog.pg_type t  JOIN pg_catalog.pg_class c ON c.oid = t.typrelid  JOIN pg_catalog.pg_attribute a ON a.attrelid = c.oid WHERE t.typtype = 'c' AND a.attnum > 0 AND NOT a.attisdropped ORDER BY t.oid, a.attnum".

(** [PgTypeCache::load] *)
Definition try_exec {O} (sql : str) : X (O := O) (option PqResult) :=
  catch (r <~ lib (PcExec sql); xret (Some r)) (fun _ => xret None).
Definition load {O} : X (O := O) bool :=
  types <~ try_exec types_sql;
  let '(ts, ok) := load_types ((fun r => map type_row (pq_rows r)) <$> types) in
  if negb ok then change (set_types (mkTypeCache ts ∅ true false)) ~; xret false
  else
    attrs <~ try_exec attrs_sql;
    let '(ats, ok) := load_attrs ((fun r => map attr_row (pq_rows r)) <$> attrs) in
    change (set_types (mkTypeCache ts ats true false)) ~; xret ok.

Definition ensureLoaded {O} : X (O := O) unit :=
  stale <~ look (fun c => needs_load (pg_types c));
  if stale : bool then load ~; xret tt else xret tt.

(** A row, column by column. *)
Fixpoint read_row (columns : list (str * Z)) (row : list (option str)) (out : Row) (cache : PgTypeCache)
    : Row * PgTypeCache :=
  match columns, row with
  | (name, oid) :: columns', f :: row' =>
      let '(v, cache) := fieldToValue mktime pow10 cache oid f in
      read_row columns' row' (row_set name v out) cache
  | _, _ => (out, cache)
  end.
Definition read_fields {O} (columns : list (str * Z)) (row : list (option str)) : X (O := O) Row :=
  on_conn (fun c => let '(r, cache) := read_row columns row [] (pg_types c) in (r, set_types cache c)).

Fixpoint add_rows (columns : list (str * Z)) (rows : list (list (option str))) : X (O := ResultSet) unit :=
  match rows with
  | [] => xret tt
  | row :: rows' => r <~ read_fields columns row; write (rs_addRow r) ~; add_rows columns rows'
  end.

Definition too_many (rows : nat) (maxRows : Z) : PqError :=
  mkPqError (lit "result set exceeded max_result_rows (" ++ dec_nat rows ++ lit " > " ++ dec_Z maxRows
             ++ lit "); use queryEach() to stream the result instead") None.
Definition set_fields (fields : list str) (r : ResultSet) : ResultSet :=
  mkResultSet fields (rs_rows r) (rs_transformed r).

Definition pg_fillResultSet (r : PqResult) (maxRows : Z) : X (O := ResultSet) unit :=
  ensureLoaded ~;
  if (0 <? maxRows) && (maxRows <? Z.of_nat (length (pq_rows r)))
  then throw (too_many (length (pq_rows r)) maxRows)
  else write (set_fields (pq_columns r).*1) ~; add_rows (pq_columns r) (pq_rows r).

(** *** Out parameters of other types *)

(** A local variable of type [O], and a part of the out parameter. *)
Definition with_local {O O' A} (o : O) (m : X (O := O) A) : X (O := O') (A * O) :=
  fun s =>
    let '(r, (c, o')) := m (s.1, o) in
    (match r with inl e => inl e | inr a => inr (a, o') end, (c, s.2)).
Definition within {O O' A} (get : O' -> O) (put : O -> O' -> O') (m : X (O := O) A) : X (O := O') A :=
  fun s => let '(r, (c, o)) := m (s.1, get s.2) in (r, (c, put o s.2)).

(** *** Guards *)
Definition connected {O} (place : string) (m : X Status) : X (O := O) Status :=
  ok <~ look (fun c => pg_open c && pg_conn c);
  if ok : bool then m else xret (pg_notConnected place).
Definition pg_visitor (i : nat) : str := lit "$" ++ dec_nat (S i).
Definition with_params {O} (sql : str) (params : Params) (k : str -> X Status) : X (O := O) Status :=
  let '(pgSql, found) := replacePlaceholders pg_visitor sql in
  if (found =? length params)%nat then k pgSql else xret (paramMismatch (length params) found).
Definition always {A} (a : A) : bool := true.
Definition exec_params {O} (sql : str) (params : Params) : X (O := O) PqResult :=
  lib (PcExecParams sql (appendParams localtime pow10 snprintf_g params)).

(** ** Statements *)
Definition pg_read (run : X (O := ResultSet) PqResult) : X (O := ResultSet) Status :=
  own_tx always
    (r <~ run;
     maxRows <~ look (fun c => dc_max_result_rows (pg_cfg c));
     pg_fillResultSet r maxRows) ~;
  xret StatusOK.
Definition pg_write (run : X (O := Z) PqResult) : X (O := Z) Status :=
  own_tx always (r <~ run; write (fun _ => pq_affected r)) ~; xret StatusOK.

Definition pg_query (sql : str) : X (O := ResultSet) Status :=
  connected "query" (active_operation (reporting QueryError "query" (pg_read (lib (PcExec sql))))).
Definition pg_query_params (sql : str) (params : Params) : X (O := ResultSet) Status :=
  connected "query" (active_operation (with_params sql params (fun pgSql =>
    reporting QueryError "query" (pg_read (exec_params pgSql params))))).

Definition pg_execute (sql : str) : X (O := Z) Status :=
  write (fun _ => 0) ~;
  connected "execute" (active_operation (reporting QueryError "execute" (pg_write (lib (PcExec sql))))).
Definition pg_execute_params (sql : str) (params : Params) : X (O := Z) Status :=
  write (fun _ => 0) ~;
  connected "execute" (active_operation (with_params sql params (fun pgSql =>
    reporting QueryError "execute" (pg_write (exec_params pgSql params))))).

(** With generated keys: what a RETURNING clause answers. *)
Definition clear_keys (o : Z * GeneratedKeys) : Z * GeneratedKeys := (o.1, keys_empty).
Definition pg_write_keys (run : X (O := Z * GeneratedKeys) PqResult) : X (O := Z * GeneratedKeys) Status :=
  own_tx always
    (r <~ run;
     write (fun o => (pq_affected r, o.2)) ~;
     within (fun o => key_rows o.2) (fun rows o => (o.1, mkKeys rows)) (pg_fillResultSet r 0)) ~;
  xret StatusOK.
Definition pg_execute_keys (sql : str) : X (O := Z * GeneratedKeys) Status :=
  write clear_keys ~;
  connected "execute" (active_operation
    (reporting QueryError "execute(keys)" (pg_write_keys (lib (PcExec sql))))).
Definition pg_execute_params_keys (sql : str) (params : Params) : X (O := Z * GeneratedKeys) Status :=
  write clear_keys ~;
  connected "execute" (active_operation (with_params sql params (fun pgSql =>
    reporting QueryError "execute(keys)" (pg_write_keys (exec_params pgSql params))))).

(** The lambda [run] of [executeBatch]: a mismatch ends it with a status. *)
Fixpoint pg_batch_loop (sql : str) (batch : list Params) : X (O := BatchResult) Status :=
  match batch with
  | [] => xret StatusOK
  | params :: batch' =>
      let '(pgSql, found) := replacePlaceholders pg_visitor sql in
      if negb (found =? length params)%nat then xret (paramMismatch (length params) found)
      else
        r <~ exec_params pgSql params;
        write (fun b => mkBatch (batch_affected b ++ [pq_affected r]) (batch_keys b)) ~;
        k <~ with_local rs_empty (pg_fillResultSet r 0);
        write (fun b => mkBatch (batch_affected b) (batch_keys b ++ [mkKeys k.2])) ~;
        pg_batch_loop sql batch'
  end.
Definition pg_executeBatch (sql : str) (batch : list Params) : X (O := BatchResult) Status :=
  write (fun _ => batch_empty) ~;
  connected "batch" (active_operation (reporting QueryError "batch"
    (busy <~ look pg_tx;
     status <~ own_tx st_ok (pg_batch_loop sql batch);
     (if negb busy && negb (st_ok status) then write (fun _ => batch_empty) else xret tt) ~;
     xret status))).

(** ** Streams

    The callback acts on the world [E], may throw, and says whether to go on;
    [None] is an empty [std::function]. [fuel] bounds the number of chunks. *)
Definition Callback : Type := option (Row -> ST E (PqError + bool)).
Definition call_back {O} (callback : Callback) (row : Row) : X (O := O) bool :=
  match callback with
  | None => xret true
  | Some f => fun s =>
      let c := s.1 in
      let '(r, e) := f row (pg_env c) in
      (r, (mkPg e (pg_open c) (pg_conn c) (pg_tx c) (pg_cfg c) (pg_prepared c) (pg_types c)
             (pg_active c) (pg_trace c), s.2))
  end.
Definition kCursor : str := lit "sqlconduit_stream_cursor".
Definition fetch_sql : str := lit "FETCH FORWARD 256 FROM " ++ kCursor.
Definition close_sql : str := lit "CLOSE " ++ kCursor.
Definition declare_sql (sql : str) : str :=
  lit "DECLARE " ++ kCursor ++ lit " NO SCROLL CURSOR FOR " ++ sql.

(** The rows of a chunk: [keepGoing]. *)
Fixpoint stream_chunk (callback : Callback) (columns : list (str * Z)) (rows : list (list (option str)))
    : X (O := Z) bool :=
  match rows with
  | [] => xret true
  | source :: rows' =>
      row <~ read_fields columns source;
      write (fun n => u64 (n + 1)) ~;
      go <~ call_back callback row;
      if go : bool then stream_chunk callback columns rows' else xret false
  end.
Fixpoint stream_loop (fuel : nat) (callback : Callback) : X (O := Z) unit :=
  match fuel with
  | O => xret tt
  | S fuel' =>
      chunk <~ lib (PcExec fetch_sql);
      if is_nil (pq_rows chunk) then xret tt
      else
        go <~ stream_chunk callback (pq_columns chunk) (pq_rows chunk);
        if go : bool then stream_loop fuel' callback else xret tt
  end.
Definition streamRows (fuel : nat) (sql : str) (params : Params) (callback : Callback)
    : X (O := Z) Status :=
  (if is_nil params then lib (PcExec (declare_sql sql)) else exec_params (declare_sql sql) params) ~;
  write (fun _ => 0) ~;
  catch (stream_loop fuel callback ~; lib (PcExec close_sql))
    (fun e => quietly (PcExec close_sql) ~; throw e) ~;
  xret StatusOK.
Definition pg_queryEach (fuel : nat) (sql : str) (params : Params) (callback : Callback)
    : X (O := Z) Status :=
  write (fun _ => 0) ~;
  connected "stream" (active_operation (with_params sql params (fun pgSql =>
    reporting QueryError "stream" (own_tx st_ok (streamRows fuel pgSql params callback))))).

(** ** Prepared statements *)
Definition statement_name (id : nat) : str := lit "sqlconduit_ps_" ++ dec_nat id.
Fixpoint unprepare_all {O} (names : list (option str)) : X (O := O) unit :=
  match names with
  | [] => xret tt
  | Some name :: names' => quietly (PcUnprepare name) ~; unprepare_all names'
  | None :: names' => unprepare_all names'
  end.
Definition on_prepared {O A} (f : PreparedCache unit str -> A * PreparedCache unit str) : X (O := O) A :=
  on_conn (fun c => let '(a, p) := f (pg_prepared c) in (a, set_prepared p c)).

Definition pg_prepare (sql : str) (typesSample : Params) : X (O := Handle unit) Status :=
  write (fun _ => no_handle) ~;
  connected "prepare" (with_params sql typesSample (fun pgSql =>
    let key := prepared_key sql typesSample in
    hit <~ look (fun c => prepared_hit key (pg_prepared c));
    match hit with
    | Some (h, p) => change (set_prepared p) ~; write (fun _ => h) ~; xret StatusOK
    | None =>
        id <~ on_prepared next_id;
        failed <~ catch (lib (PcPrepare (statement_name id) pgSql) ~; xret None) (fun e => xret (Some e));
        match failed with
        | Some e => xret (postgresError QueryError "prepare" e)
        | None =>
            let h := mkHandle id None in
            dropped <~ on_prepared (remember key h (statement_name id));
            unprepare_all dropped.*2 ~;
            write (fun _ => h) ~;
            xret StatusOK
        end
    end)).

Definition with_prepared {O} (h : Handle unit) (k : str -> X Status) : X (O := O) Status :=
  connected "executePrepared"
    (name <~ look (fun c => prepared_find h (pg_prepared c));
     match name with
     | None => xret (status_error QueryError (lit "PostgreSQL: invalid prepared handle"))
     | Some name => reporting QueryError "exec_prepared" (k name)
     end).
Definition exec_prepared {O} (name : str) (params : Params) : X (O := O) PqResult :=
  lib (PcExecPrepared name (appendParams localtime pow10 snprintf_g params)).
Definition pg_executePrepared_query (h : Handle unit) (params : Params) : X (O := ResultSet) Status :=
  with_prepared h (fun name => pg_read (exec_prepared name params)).
Definition pg_executePrepared_execute (h : Handle unit) (params : Params) : X (O := Z) Status :=
  write (fun _ => 0) ~;
  with_prepared h (fun name => pg_write (exec_prepared name params)).

(** The table of names is visited in one fixed order. *)
Definition pg_closeAllPrepared {O} : X (O := O) unit :=
  names <~ look (fun c => (map_to_list (pr_ids (pg_prepared c))).*2);
  unprepare_all (map Some names) ~;
  change (fun c => set_prepared (prepared_clear (pg_prepared c)) c).
Definition pg_setPreparedCacheLimit (limit : Z) (c : PgConn) : PgConn :=
  set_prepared (set_limit limit (pg_prepared c)) c.

(** ** Transactions *)
(** A new transaction object in [tx_]. *)
Definition begin_tx {O} : X (O := O) unit := lib PcBegin ~; change (set_tx true).
Definition pg_begin {O} : X (O := O) Status :=
  connected "begin"
    (busy <~ look pg_tx;
     if busy : bool then xret (tx_error "transaction already active")
     else reporting TxError "BEGIN" (begin_tx ~; xret StatusOK)).

Definition isolation_clause (l : IsolationLevel) : str :=
  match l with
  | DefaultLevel => []
  | ReadUncommitted => lit " ISOLATION LEVEL READ UNCOMMITTED"
  | ReadCommitted => lit " ISOLATION LEVEL READ COMMITTED"
  | RepeatableRead => lit " ISOLATION LEVEL REPEATABLE READ"
  | Serializable => lit " ISOLATION LEVEL SERIALIZABLE"
  end.
Definition tx_settings (o : TransactionOptions) : str :=
  isolation_clause (to_isolation o) ++ (if to_readOnly o then lit " READ ONLY" else []).
(** [tx_.reset()] *)
Definition reset_tx {O} : X (O := O) unit :=
  busy <~ look pg_tx;
  if busy : bool then quietly PcEnd ~; change (set_tx false) else xret tt.
Definition pg_begin_with {O} (o : TransactionOptions) : X (O := O) Status :=
  connected "begin"
    (busy <~ look pg_tx;
     if busy : bool then xret (tx_error "transaction already active")
     else
       catch
         (begin_tx ~;
          (if is_nil (tx_settings o) then xret tt
           else lib (PcExec (lit "SET TRANSACTION" ++ tx_settings o)) ~; xret tt) ~;
          xret StatusOK)
         (fun e => reset_tx ~; xret (postgresError TxError "BEGIN" e))).

Definition in_transaction {O} (m : X Status) : X (O := O) Status :=
  busy <~ look pg_tx;
  if busy : bool then m else xret (tx_error "no active transaction").
Definition finish_tx {O} (call : PqCall) (place : string) : X (O := O) Status :=
  in_transaction
    (catch (lib call ~; reset_tx ~; xret StatusOK)
       (fun e => reset_tx ~; xret (postgresError TxError place e))).
Definition pg_commit {O} : X (O := O) Status := finish_tx PcCommit "COMMIT".
Definition pg_rollback {O} : X (O := O) Status := finish_tx PcAbort "ROLLBACK".

Definition pg_savepoint_op {O} (command : string) (name : str) : X (O := O) Status :=
  in_transaction (reporting TxError command
    (lib (PcExec (lit command ++ lit " " ++ quoteIdentifier name)) ~; xret StatusOK)).
Definition pg_savepoint {O} := pg_savepoint_op (O := O) "SAVEPOINT".
Definition pg_releaseSavepoint {O} := pg_savepoint_op (O := O) "RELEASE SAVEPOINT".
Definition pg_rollbackToSavepoint {O} := pg_savepoint_op (O := O) "ROLLBACK TO SAVEPOINT".

(** ** Life of the connection *)
Definition pg_ping {O} : X (O := O) Status :=
  connected "ping" (reporting PingFailed "ping"
    (lib PcBegin ~;
     r <~ catch (lib (PcExec (lit "SELECT 1")) ~; lib PcCommit) (fun e => quietly PcEnd ~; throw e);
     quietly PcEnd ~; xret StatusOK)).

Definition pg_refreshTypeCache {O} : X (O := O) Status :=
  connected "refreshTypeCache" (reporting QueryError "refreshTypeCache"
    (own_tx always load ~; xret StatusOK)).

Definition pg_close {O} : X (O := O) unit :=
  pg_closeAllPrepared ~;
  busy <~ look pg_tx;
  (if busy : bool then quietly PcAbort ~; reset_tx else xret tt) ~;
  conn <~ look pg_conn;
  (if conn : bool then quietly PcClose ~; change (set_conn false) else xret tt) ~;
  change (set_open false).

Definition pg_cancel {O} : X (O := O) Status :=
  ready <~ look (fun c => pg_conn c && pg_open c && pg_active c);
  if ready : bool then reporting Cancelled "cancel_query" (lib PcCancel ~; xret StatusOK)
  else xret (status_error NotConnected (lit "PostgreSQL: no active query to cancel")).

Definition redacted (cfg : DataSourceConfig) (st : Status) : Status :=
  mkStatus (st_code st) (redact cfg (st_message st)) (st_sqlState st) (st_nativeCode st)
    (st_retryable st) (st_connectionBroken st).
Definition pg_attempt {O} (m : X PqResult) : X (O := O) (option PqError) :=
  catch (m ~; xret None) (fun e => xret (Some e)).

Definition pg_connect {O} (cfg : DataSourceConfig) : X (O := O) Status :=
  change (set_cfg cfg) ~;
  pg_close ~;
  failed <~ pg_attempt (lib (PcConnect (conninfo cfg)));
  match failed with
  | Some e => xret (redacted cfg (postgresError ConnectionFailed "connect" e))
  | None =>
      change (set_conn true) ~;
      alive <~ look (fun c => pq_is_open (pg_env c));
      if negb alive then
        change (set_conn false) ~;
        xret (status_error ConnectionFailed (lit "PostgreSQL: connection closed immediately after connect"))
      else
        failed <~ (if 0 <? dc_query_timeout_ms cfg
                   then pg_attempt (lib (PcSetup (lit "SET statement_timeout = " ++ dec_Z (dc_query_timeout_ms cfg))))
                   else xret None);
        match failed with
        | Some e => change (set_conn false) ~; xret (postgresError ConnectionFailed "set statement_timeout" e)
        | None =>
            failed <~ (match extra_find (lit "charset") (dc_extra cfg) with
                       | Some charset => pg_attempt (lib (PcEncoding charset))
                       | None => xret None
                       end);
            match failed with
            | Some e => xret (postgresError ConnectionFailed "set_client_encoding" e)
            | None => change (set_open true) ~; xret StatusOK
            end
        end
  end.

(** ** Cursors ([PgCursor])

    A cursor works in the owner's transaction, by a raw pointer, or in one of its own. *)
Inductive CursorTx := NoTx | OwnersTx | OwnTx.
Record PgCursor := mkCursor {
  cu_tx : CursorTx;
  cu_name : str;
  cu_batch : Z;
  cu_open : bool;
  cu_eof : bool;
  cu_fieldsSet : bool;
  cu_rows : Z;
}.
Definition new_cursor : PgCursor := mkCursor NoTx [] 256 false false false 0.
Record PgCursorOptions := mkPgCursorOptions {
  po_batch_size : Z;
  po_scrollable : bool;
  po_auto_transaction : bool;
}.
Definition cu_set_open (b : bool) (k : PgCursor) : PgCursor :=
  mkCursor (cu_tx k) (cu_name k) (cu_batch k) b (cu_eof k) (cu_fieldsSet k) (cu_rows k).
Definition cu_set_tx (t : CursorTx) (k : PgCursor) : PgCursor :=
  mkCursor t (cu_name k) (cu_batch k) (cu_open k) (cu_eof k) (cu_fieldsSet k) (cu_rows k).
Definition cu_hasNext (k : PgCursor) : bool := cu_open k && negb (cu_eof k).

(** [rollbackOwned], which commits. *)
Definition rollbackOwned {O} (k : PgCursor) : X (O := O) PgCursor :=
  match cu_tx k with
  | OwnTx => quietly PcCommit ~; quietly PcEnd ~; xret (cu_set_tx NoTx k)
  | _ => xret k
  end.

Definition needs_transaction : Status :=
  status_error CursorError (lit ("PostgreSQL requires an active transaction for server-side cursors; "
    ++ "open within a transaction or set CursorOptions.auto_transaction=true")).
Definition cursor_name (seq : Z) : str := lit "sqlconduit_cursor_" ++ dec_Z seq.
Definition declare_cursor (name : str) (scrollable : bool) (pgSql : str) : str :=
  lit "DECLARE " ++ name ++ lit " " ++ lit (if scrollable then "SCROLL" else "NO SCROLL")
  ++ lit " CURSOR FOR " ++ pgSql.

(** [seq] is the next value of [gCursorSeq_], which all connections share. *)
Definition cu_open_on {O} (seq : Z) (pgSql : str) (params : Params) (opts : PgCursorOptions)
    : X (O := O) (Status * PgCursor) :=
  busy <~ look pg_tx;
  if negb busy && negb (po_auto_transaction opts) then xret (needs_transaction, new_cursor)
  else
    (if busy : bool then xret pq_nothing else lib PcBegin) ~;
    let k := cu_set_tx (if busy : bool then OwnersTx else OwnTx) new_cursor in
    let declare := declare_cursor (cursor_name seq) (po_scrollable opts) pgSql in
    failed <~ pg_attempt (if is_nil params then lib (PcExec declare) else exec_params declare params);
    match failed with
    | Some e =>
        k <~ rollbackOwned k; xret (postgresError CursorError "DECLARE CURSOR" e, k)
    | None =>
        xret (StatusOK, mkCursor (cu_tx k) (cursor_name seq)
                          (if 0 <? po_batch_size opts then po_batch_size opts else 256) true false false 0)
    end.
Definition pg_openCursor (seq : Z) (sql : str) (params : Params) (opts : PgCursorOptions)
    : X (O := option PgCursor) Status :=
  write (fun _ => None) ~;
  connected "openCursor" (active_operation (with_params sql params (fun pgSql =>
    reporting CursorError "openCursor"
      (r <~ cu_open_on seq pgSql params opts;
       (if st_ok r.1 then write (fun _ => Some r.2) else xret tt) ~;
       xret r.1)))).

Fixpoint cu_add_rows (columns : list (str * Z)) (rows : list (list (option str))) (n : Z)
    : X (O := ResultSet) Z :=
  match rows with
  | [] => xret n
  | row :: rows' =>
      r <~ read_fields columns row; write (rs_addRow r) ~; cu_add_rows columns rows' (u64 (n + 1))
  end.
Definition cu_ensureFields (k : PgCursor) (columns : list (str * Z)) : X (O := ResultSet) PgCursor :=
  if cu_fieldsSet k then xret k
  else
    write (set_fields columns.*1) ~;
    xret (mkCursor (cu_tx k) (cu_name k) (cu_batch k) (cu_open k) (cu_eof k) true (cu_rows k)).
Definition cu_fetch_sql (want : Z) (k : PgCursor) : str :=
  lit "FETCH FORWARD " ++ dec_Z want ++ lit " FROM " ++ cu_name k.

Definition cu_fetch (n : Z) (k : PgCursor) : X (O := ResultSet) (Status * PgCursor) :=
  if negb (cu_open k) then xret (StatusOK, k)
  else
    let want := if n =? 0 then cu_batch k else n in
    catch
      (active_operation
        (rows <~ lib (PcExec (cu_fetch_sql want k));
         k <~ cu_ensureFields k (pq_columns rows);
         if is_nil (pq_rows rows) then
           xret (StatusOK, mkCursor (cu_tx k) (cu_name k) (cu_batch k) false true (cu_fieldsSet k) (cu_rows k))
         else
           m <~ cu_add_rows (pq_columns rows) (pq_rows rows) (cu_rows k);
           xret (StatusOK, mkCursor (cu_tx k) (cu_name k) (cu_batch k) (cu_open k) (cu_eof k)
                             (cu_fieldsSet k) m)))
      (fun e => xret (postgresError CursorError "FETCH" e, cu_set_open false k)).

(** The row, if there was one. *)
Definition cu_fetchRow {O} (k : PgCursor) : X (O := O) (Status * option Row * PgCursor) :=
  if negb (cu_open k) then xret (StatusOK, None, k)
  else
    r <~ with_local rs_empty (cu_fetch 1 k);
    let '((st, k), tmp) := r in
    if negb (st_ok st) then xret (st, None, k) else xret (StatusOK, head (rs_rows tmp), k).

Definition cu_close {O} (k : PgCursor) : X (O := O) (Status * PgCursor) :=
  if negb (cu_open k) then xret (StatusOK, k)
  else
    let k := cu_set_open false k in
    failed <~ pg_attempt (active_operation (lib (PcExec (lit "CLOSE " ++ cu_name k))));
    k <~ rollbackOwned k;
    xret (match failed with Some e => postgresError CursorError "CLOSE CURSOR" e | None => StatusOK end, k).

(** The destructor: [close], then the member [ownedTx_]. *)
Definition cu_destroy {O} (k : PgCursor) : X (O := O) unit :=
  r <~ cu_close k;
  match cu_tx r.2 with OwnTx => quietly PcEnd ~; xret tt | _ => xret tt end.

(** ** Statements in transactions

    [grows m R]: the trace grows by some [l], and [R] relates the connection before,
    the result, the connection after and [l]. *)
Definition grows {O A} (m : X (O := O) A)
    (R : PgConn -> (PqError + A) -> PgConn -> list Called -> Prop) : Prop :=
  forall c o, exists l, pg_trace (m (c, o)).2.1 = pg_trace c ++ l /\ R c (m (c, o)).1 (m (c, o)).2.1 l.

(** What statements leave alone. *)
Record same_session (c c' : PgConn) : Prop := {
  ss_open : pg_open c' = pg_open c;
  ss_conn : pg_conn c' = pg_conn c;
  ss_tx : pg_tx c' = pg_tx c;
  ss_cfg : pg_cfg c' = pg_cfg c;
  ss_prepared : pg_prepared c' = pg_prepared c;
}.
Lemma same_session_refl c : same_session c c.
Proof. by split. Qed.
Lemma same_session_trans c1 c2 c3 : same_session c1 c2 -> same_session c2 c3 -> same_session c1 c3.
Proof. intros [? ? ? ? ?] [? ? ? ? ?]. split; congruence. Qed.

Definition statement (d : Called) : bool :=
  match cd_call d with PcExec _ | PcExecParams _ _ | PcExecPrepared _ _ => true | _ => false end.

(** [m] only runs statements. *)
Definition runs_statements {O A} (m : X (O := O) A) : Prop :=
  grows m (fun c _ c' l => same_session c c' /\ Forall (fun d => statement d = true) l).

Lemma rs_ret {O A} (r : PqError + A) : runs_statements (O := O) (ret r).
Proof. intros c o. exists []. rewrite app_nil_r. by repeat split. Qed.

Lemma rs_bind {O A B} (m : X (O := O) A) (k : A -> X B) :
  runs_statements m -> (forall a, runs_statements (k a)) -> runs_statements (xbind m k).
Proof.
  intros Hm Hk c o. destruct (Hm c o) as (l & Et & Sl & F). unfold xbind.
  destruct (m (c, o)) as [[e|a] [c1 o1]]; cbn in *; [by exists l|].
  destruct (Hk a c1 o1) as (l' & Et' & Sl' & F'). exists (l ++ l').
  rewrite Et', Et, app_assoc. split; [done|]. split; [by eapply same_session_trans | by apply Forall_app].
Qed.

Lemma rs_catch {O A} (m : X (O := O) A) h :
  runs_statements m -> (forall e, runs_statements (h e)) -> runs_statements (catch m h).
Proof.
  intros Hm Hh c o. destruct (Hm c o) as (l & Et & Sl & F). unfold catch.
  destruct (m (c, o)) as [[e|a] [c1 o1]]; cbn in *; [|by exists l].
  destruct (Hh e c1 o1) as (l' & Et' & Sl' & F'). exists (l ++ l').
  rewrite Et', Et, app_assoc. split; [done|]. split; [by eapply same_session_trans | by apply Forall_app].
Qed.

Lemma rs_on_conn {O A} (f : PgConn -> A * PgConn) :
  (forall c, same_session c (f c).2 /\ pg_trace (f c).2 = pg_trace c) -> runs_statements (O := O) (on_conn f).
Proof.
  intros H c o. unfold on_conn. cbn. destruct (H c) as [H1 H2]. destruct (f c) as [a c'].
  exists []. rewrite app_nil_r. split; [exact H2|]. split; [exact H1 | constructor].
Qed.

Lemma rs_look {O A} (f : PgConn -> A) : runs_statements (O := O) (look f).
Proof. apply rs_on_conn. intros c. by repeat split. Qed.
Lemma rs_write {O} (f : O -> O) : runs_statements (write f).
Proof. intros c o. exists []. rewrite app_nil_r. by repeat split. Qed.

Lemma rs_lib {O} call : statement (mkCalled call true true) = true -> runs_statements (O := O) (lib call).
Proof.
  intros Hs c o. unfold lib. cbn. destruct (pq_call call (pg_env c)) as [r e]. cbn.
  eexists. split; [reflexivity|]. split; [by split|].
  constructor; [exact Hs | constructor].
Qed.

Lemma rs_within {O O' A} get put (m : X (O := O) A) :
  runs_statements m -> runs_statements (O := O') (within get put m).
Proof.
  intros Hm c o. destruct (Hm c (get o)) as (l & Et & Sl & F). unfold within. cbn.
  destruct (m (c, get o)) as [r [c1 o1]]. by exists l.
Qed.
Lemma rs_local {O O' A} o0 (m : X (O := O) A) :
  runs_statements m -> runs_statements (O := O') (with_local o0 m).
Proof.
  intros Hm c o. destruct (Hm c o0) as (l & Et & Sl & F). unfold with_local. cbn.
  destruct (m (c, o0)) as [r [c1 o1]]. by exists l.
Qed.

Lemma rs_call_back {O} callback row : runs_statements (O := O) (call_back callback row).
Proof.
  destruct callback as [f|]; [|apply rs_ret]. intros c o. cbn.
  destruct (f row (pg_env c)) as [r e]. cbn. exists []. rewrite app_nil_r. by repeat split.
Qed.

#[local] Hint Resolve rs_ret rs_look rs_write rs_call_back : pq.
Ltac statements :=
  repeat first
    [ solve [auto 2 with pq] | apply rs_ret | apply rs_look | apply rs_write | apply rs_call_back
    | apply rs_lib; reflexivity
    | apply rs_bind; [|intros ?] | apply rs_catch; [|intros ?]
    | apply rs_within | apply rs_local
    | apply rs_on_conn; intros ?; by repeat split
    | progress cbv zeta
    | match goal with |- runs_statements (if ?b then _ else _) => destruct b end
    | match goal with |- runs_statements (let '(_, _) := ?p in _) => destruct p end ].

Lemma rs_load {O} : runs_statements (O := O) load.
Proof. unfold load, try_exec, change. statements. Qed.
#[local] Hint Resolve rs_load : pq.
Lemma rs_ensure {O} : runs_statements (O := O) ensureLoaded.
Proof. unfold ensureLoaded. statements. Qed.
#[local] Hint Resolve rs_ensure : pq.
Lemma rs_read_fields {O} columns row : runs_statements (O := O) (read_fields columns row).
Proof. unfold read_fields. apply rs_on_conn. intros c. destruct (read_row _ _ _ _). by repeat split. Qed.
#[local] Hint Resolve rs_read_fields : pq.
Lemma rs_add_rows columns rows : runs_statements (add_rows columns rows).
Proof. induction rows as [|row rows IH]; cbn [add_rows]; statements. Qed.
#[local] Hint Resolve rs_add_rows : pq.
Lemma rs_fill r maxRows : runs_statements (pg_fillResultSet r maxRows).
Proof. unfold pg_fillResultSet. statements. Qed.
#[local] Hint Resolve rs_fill : pq.
Lemma rs_exec_params {O} sql params : runs_statements (O := O) (exec_params sql params).
Proof. unfold exec_params. statements. Qed.
#[local] Hint Resolve rs_exec_params : pq.
Lemma rs_batch sql batch : runs_statements (pg_batch_loop sql batch).
Proof.
  induction batch as [|params batch IH]; cbn [pg_batch_loop]; statements.
Qed.
#[local] Hint Resolve rs_batch : pq.
Lemma rs_chunk callback columns rows : runs_statements (stream_chunk callback columns rows).
Proof. induction rows as [|row rows IH]; cbn [stream_chunk]; statements. Qed.
#[local] Hint Resolve rs_chunk : pq.
Lemma rs_stream fuel sql params callback : runs_statements (streamRows fuel sql params callback).
Proof.
  unfold streamRows, quietly. statements.
  induction fuel as [|fuel IH]; cbn [stream_loop]; statements.
Qed.

(** *** The transaction of a statement *)
Definition did (call : PqCall) (returned : bool) (d : Called) : Prop :=
  cd_call d = call /\ cd_returned d = returned.

(** The calls of a statement with a transaction of its own: [true] if it was
    committed. The transaction object is destroyed last whenever it was created. *)
Inductive tx_calls : bool -> list Called -> Prop :=
  | tc_refused b : did PcBegin false b -> tx_calls false [b]
  | tc_abandoned b body e : did PcBegin true b -> Forall (fun d => statement d = true) body ->
      cd_call e = PcEnd -> tx_calls false (b :: body ++ [e])
  | tc_finished b body k returned e : did PcBegin true b -> Forall (fun d => statement d = true) body ->
      did PcCommit returned k -> cd_call e = PcEnd -> tx_calls returned (b :: body ++ [k; e]).

(** What the calls of an operation [l] say, given whether a transaction was open and
    whether the operation reports success. *)
Definition unit_of_work (busy success : bool) (l : list Called) : Prop :=
  if busy then Forall (fun d => statement d = true) l
  else exists committed, tx_calls committed l /\ committed = success.

Definition succeeded {A} (keep : A -> bool) (r : PqError + A) : bool :=
  match r with inl _ => false | inr a => keep a end.

Definition transactional {O A} (keep : A -> bool) (m : X (O := O) A) : Prop :=
  grows m (fun c r c' l => same_session c c' /\ unit_of_work (pg_tx c) (succeeded keep r) l).

Lemma lib_step {O} call c (o : O) : exists r e,
  lib call (c, o) = (r, (mkPg e (pg_open c) (pg_conn c) (pg_tx c) (pg_cfg c) (pg_prepared c) (pg_types c)
      (pg_active c)
      (pg_trace c ++ [mkCalled call (pg_active c) (match r with inl _ => false | inr _ => true end)]), o)).
Proof. unfold lib. cbn. destruct (pq_call call (pg_env c)) as [r e]. eauto. Qed.

Ltac lib_call r :=
  match goal with
  | |- context [lib ?call (?c, ?o)] =>
      let e := fresh "e" in destruct (lib_step call c o) as (r & e & ->); cbn [fst snd]
  end.

Lemma quietly_step {O} call c (o : O) : exists e returned,
  quietly call (c, o) = (inr tt, (mkPg e (pg_open c) (pg_conn c) (pg_tx c) (pg_cfg c) (pg_prepared c)
      (pg_types c) (pg_active c) (pg_trace c ++ [mkCalled call (pg_active c) returned]), o)).
Proof.
  unfold quietly, catch, xbind. destruct (lib_step call c o) as ([e1|r1] & e & ->); cbn; eauto.
Qed.
Ltac quiet_call :=
  match goal with
  | |- context [quietly ?call (?c, ?o)] =>
      let e := fresh "e" in let b := fresh "returned" in
      destruct (quietly_step call c o) as (e & b & ->); cbn [fst snd]
  end.

Lemma tr_own_tx {O A} (keep : A -> bool) (body : X (O := O) A) :
  runs_statements body -> transactional keep (own_tx keep body).
Proof.
  intros Hb c o. unfold own_tx, xbind, catch, look, on_conn, throw, xret, ret. cbn [fst snd].
  destruct (pg_tx c) eqn:Et.
  { destruct (Hb c o) as (l & E1 & E2 & E3). exists l. split; [exact E1|]. split; [exact E2 | exact E3]. }
  lib_call r. destruct r as [e1|r1].
  { eexists. split; [reflexivity|]. split; [by split|]. exists false. split; [|done]. by apply tc_refused. }
  match goal with |- context [body (?c1, o)] => set (c0 := c1) end.
  destruct (Hb c0 o) as (l & E1 & E2 & E3).
  assert (same_session c c0) as Es by by split.
  destruct (body (c0, o)) as [[ex|a] [c1 o1]]; cbn [fst snd] in *.
  - quiet_call. eexists. split; [|split].
    + cbn. rewrite E1. unfold c0. cbn [pg_trace]. rewrite <- !app_assoc. reflexivity.
    + destruct (same_session_trans _ _ _ Es E2). by split.
    + exists false. split; [|done]. by apply tc_abandoned.
  - destruct (keep a) eqn:Ek.
    + lib_call r. destruct r as [ec|rc]; cbn [fst snd]; quiet_call; eexists; (split; [|split]).
      all: try (cbn; rewrite E1; unfold c0; cbn [pg_trace]; rewrite <- !app_assoc; reflexivity).
      all: try (destruct (same_session_trans _ _ _ Es E2); by split).
      * exists false. split; [|done]. by apply (tc_finished _ l).
      * exists true. split; [by apply (tc_finished _ l) | by rewrite ?Ek].
    + quiet_call. eexists. split; [|split].
      * cbn. rewrite E1. unfold c0. cbn [pg_trace]. rewrite <- !app_assoc. reflexivity.
      * destruct (same_session_trans _ _ _ Es E2). by split.
      * exists false. split; [by apply tc_abandoned | by rewrite ?Ek].
Qed.

(** *** Operations

    What each operation on statements promises: it answers a status, leaves the session
    as it is, and its calls form one unit of work. *)
Definition works {O} (m : X (O := O) Status) : Prop :=
  grows m (fun c r c' l => same_session c c' /\ exists st, r = inr st /\
    (unit_of_work (pg_tx c) (st_ok st) l \/ (l = [] /\ st_ok st = false))).

Lemma postgresError_not_ok fallback place e : fallback <> Ok -> st_ok (postgresError fallback place e) = false.
Proof. apply databaseError_not_ok. Qed.

Lemma works_reporting {O} fallback place (m : X (O := O) Status) : fallback <> Ok ->
  transactional st_ok m -> works (reporting fallback place m).
Proof.
  intros Hf H c o. destruct (H c o) as (l & E1 & E2 & E3). unfold reporting, catch.
  destruct (m (c, o)) as [[e|st] [c1 o1]]; cbn in *; exists l; (split; [done|]); (split; [done|]).
  - exists (postgresError fallback place e). split; [done|]. left. by rewrite postgresError_not_ok.
  - exists st. split; [done|]. by left.
Qed.

(** After the transaction only the out parameter is written. *)
Lemma tr_after {O A B} (keep : A -> bool) (keep' : B -> bool) (m : X (O := O) A) (k : A -> X B) :
  transactional keep m ->
  (forall a c o, exists b o', k a (c, o) = (inr b, (c, o')) /\ keep' b = keep a) ->
  transactional keep' (xbind m k).
Proof.
  intros H Hk c o. destruct (H c o) as (l & E1 & E2 & E3). unfold xbind.
  destruct (m (c, o)) as [[e|a] [c1 o1]]; cbn in *; [by exists l|].
  destruct (Hk a c1 o1) as (b & o' & -> & Eb). exists l. cbn. rewrite Eb. done.
Qed.

Lemma works_write {O} (f : O -> O) m : works m -> works (write f ~; m).
Proof. intros H c o. exact (H c (f o)). Qed.

Lemma works_guard {O} (ok : PgConn -> bool) st (m : X (O := O) Status) : st_ok st = false ->
  works m -> works (b <~ look ok; if b : bool then m else xret st).
Proof.
  intros Hst H c o. unfold xbind, look, on_conn. cbn [fst snd]. destruct (ok c); [apply H|].
  exists []. rewrite app_nil_r. split; [done|]. split; [by split|]. exists st. split; [done | by right].
Qed.
Lemma works_connected {O} place (m : X (O := O) Status) : works m -> works (connected place m).
Proof. by apply works_guard. Qed.

Lemma works_params {O} sql params (k : str -> X (O := O) Status) :
  (forall pgSql, works (k pgSql)) -> works (with_params sql params k).
Proof.
  intros H. unfold with_params. destruct (replacePlaceholders _ _) as [pgSql found].
  destruct (found =? length params)%nat; [apply H|]. intros c o. exists []. rewrite app_nil_r.
  split; [done|]. split; [by split|]. eexists. split; [reflexivity | by right].
Qed.

Lemma works_active {O} (m : X (O := O) Status) : works m -> works (active_operation m).
Proof.
  intros H c o. unfold active_operation. cbn [fst snd].
  destruct (H (set_active true c) o) as (l & E1 & E2 & E3).
  destruct (m (set_active true c, o)) as [r [c1 o1]]. cbn in *. exists l. split; [done|].
  split; [|done]. destruct E2. by split.
Qed.

Lemma tr_read run : runs_statements run -> transactional st_ok (pg_read run).
Proof.
  intros H. unfold pg_read. apply (tr_after always); [|intros a c o; eauto].
  apply tr_own_tx. statements.
Qed.
Lemma tr_write run : runs_statements run -> transactional st_ok (pg_write run).
Proof.
  intros H. unfold pg_write. apply (tr_after always); [|intros a c o; eauto].
  apply tr_own_tx. statements.
Qed.
Lemma tr_write_keys run : runs_statements run -> transactional st_ok (pg_write_keys run).
Proof.
  intros H. unfold pg_write_keys. apply (tr_after always); [|intros a c o; eauto].
  apply tr_own_tx. statements.
Qed.

Lemma tr_look {O A B} (keep : B -> bool) (f : PgConn -> A) (k : A -> X (O := O) B) :
  (forall a, transactional keep (k a)) -> transactional keep (xbind (look f) k).
Proof. intros H c o. exact (H (f c) c o). Qed.

Lemma works_prepared {O} h (k : str -> X (O := O) Status) :
  (forall name, transactional st_ok (k name)) -> works (with_prepared h k).
Proof.
  intros H. apply works_connected. intros c o. unfold xbind, look, on_conn. cbn [fst snd].
  destruct (prepared_find h (pg_prepared c)) as [name|]; [by apply works_reporting|].
  exists []. rewrite app_nil_r. split; [done|]. split; [by split|]. eexists. split; [reflexivity | by right].
Qed.

(** C10: a statement is a unit of work: within a transaction its calls are statements
    only; without one, they are a transaction of its own, whose commit returned
    exactly when the operation reports success, and whose object is gone at the end.
    Every operation answers, whatever the library throws, and leaves the session
    (open, connected, in transaction, configured, prepared) as it was. *)
Theorem statements_are_units_of_work :
  (forall sql, works (pg_query sql)) /\
  (forall sql params, works (pg_query_params sql params)) /\
  (forall sql, works (pg_execute sql)) /\
  (forall sql params, works (pg_execute_params sql params)) /\
  (forall sql, works (pg_execute_keys sql)) /\
  (forall sql params, works (pg_execute_params_keys sql params)) /\
  (forall sql batch, works (pg_executeBatch sql batch)) /\
  (forall fuel sql params callback, works (pg_queryEach fuel sql params callback)) /\
  (forall h params, works (pg_executePrepared_query h params)) /\
  (forall h params, works (pg_executePrepared_execute h params)).
Proof.
  split_and!; intros.
  - apply works_connected, works_active, works_reporting; [done|]. apply tr_read. statements.
  - apply works_connected, works_active, works_params. intros. apply works_reporting; [done|].
    apply tr_read. statements.
  - apply works_write, works_connected, works_active, works_reporting; [done|]. apply tr_write. statements.
  - apply works_write, works_connected, works_active, works_params. intros. apply works_reporting; [done|].
    apply tr_write. statements.
  - apply works_write, works_connected, works_active, works_reporting; [done|]. apply tr_write_keys. statements.
  - apply works_write, works_connected, works_active, works_params. intros. apply works_reporting; [done|].
    apply tr_write_keys. statements.
  - apply works_write, works_connected, works_active, works_reporting; [done|]. apply tr_look. intros busy.
    apply (tr_after st_ok); [apply tr_own_tx; statements|]. intros status c o.
    destruct (negb busy && negb (st_ok status)); eauto.
  - apply works_write, works_connected, works_active, works_params. intros. apply works_reporting; [done|].
    apply tr_own_tx, rs_stream.
  - apply works_prepared. intros name. apply tr_read. unfold exec_prepared. statements.
  - apply works_write, works_prepared. intros name. apply tr_write. unfold exec_prepared. statements.
Qed.

(** ** Sessions

    What the calls so far leave behind: transaction objects that live, and the names
    prepared on the server session of the last connection. *)
Definition live_step (n : Z) (d : Called) : Z :=
  match cd_call d with
  | PcBegin => if cd_returned d then n + 1 else n
  | PcEnd => n - 1
  | _ => n
  end.
Definition live (l : list Called) : Z := fold_left live_step l 0.

Definition server_step (names : gset str) (d : Called) : gset str :=
  match cd_call d with
  | PcConnect _ => if cd_returned d then ∅ else names
  | PcPrepare name _ => if cd_returned d then {[ name ]} ∪ names else names
  | PcUnprepare name => names ∖ {[ name ]}
  | _ => names
  end.
Definition on_server (l : list Called) : gset str := fold_left server_step l ∅.

(** Calls that neither begin nor end a transaction object, nor touch the names. *)
Definition neutral (d : Called) : bool :=
  match cd_call d with
  | PcBegin | PcEnd | PcConnect _ | PcPrepare _ _ | PcUnprepare _ => false
  | _ => true
  end.

Lemma statement_neutral d : statement d = true -> neutral d = true.
Proof. unfold statement, neutral. by destruct (cd_call d). Qed.

Lemma neutral_steps l : Forall (fun d => neutral d = true) l ->
  (forall n, fold_left live_step l n = n) /\ (forall names, fold_left server_step l names = names).
Proof.
  induction 1 as [|d l Hd H [IH1 IH2]]; [done|]. cbn. unfold neutral in Hd.
  assert (forall n, live_step n d = n) as H1 by (intros n; unfold live_step; by destruct (cd_call d)).
  assert (forall names, server_step names d = names) as H2
    by (intros names; unfold server_step; by destruct (cd_call d)).
  split; intros; rewrite ?H1, ?H2; auto.
Qed.

Lemma work_steps busy success l : unit_of_work busy success l ->
  (forall n, fold_left live_step l n = n) /\ (forall names, fold_left server_step l names = names).
Proof.
  assert (forall body, Forall (fun d => statement d = true) body ->
    (forall n, fold_left live_step body n = n) /\ (forall names, fold_left server_step body names = names)) as Hbody.
  { intros body H. apply neutral_steps. eapply Forall_impl; [exact H|]. apply statement_neutral. }
  destruct busy; cbn; [apply Hbody|]. intros (committed & H & _).
  destruct H as [b [Eb Rb]|b body e [Eb Rb] Hb Ee|b body k returned e [Eb Rb] Hb [Ek Rk] Ee].
  - split; intros; cbn; unfold live_step, server_step; by rewrite Eb, ?Rb.
  - destruct (Hbody body Hb) as [H1 H2]. split; intros; cbn; rewrite fold_left_app, ?H1, ?H2; cbn;
      unfold live_step, server_step; rewrite Eb, Ee, ?Rb; [lia | done].
  - destruct (Hbody body Hb) as [H1 H2]. split; intros; cbn; rewrite fold_left_app, ?H1, ?H2; cbn;
      unfold live_step, server_step; rewrite Eb, Ek, Ee, ?Rb; [lia | done].
Qed.

(** [owned]: the transaction objects that belong to cursors. *)
Section Books.
Variable owned : Z.

Record pg_inv (c : PgConn) : Prop := {
  gi_live : live (pg_trace c) = (if pg_tx c then 1 else 0) + owned;
  gi_prepared : prepared_inv (pg_prepared c);
  gi_names : forall id name, pr_ids (pg_prepared c) !! id = Some name ->
    name = statement_name id /\ name ∈ on_server (pg_trace c);
  gi_conn : pg_conn c = false -> pg_tx c = false /\ pr_ids (pg_prepared c) = ∅;
}.
Definition keeps_session {O A} (m : X (O := O) A) : Prop := forall c o, pg_inv c -> pg_inv (m (c, o)).2.1.

Lemma works_keeps {O} (m : X (O := O) Status) : works m -> keeps_session m.
Proof.
  intros H c o [I1 I2 I3 I4]. destruct (H c o) as (l & Et & [S1 S2 S3 S4 S5] & st & _ & Hw).
  assert ((forall n, fold_left live_step l n = n) /\ (forall names, fold_left server_step l names = names)) as [W1 W2].
  { destruct Hw as [Hw|[-> _]]; [by eapply work_steps | done]. }
  split.
  - unfold live. by rewrite Et, fold_left_app, W1, S3.
  - by rewrite S5.
  - rewrite S5. intros id name E'. unfold on_server. rewrite Et, fold_left_app, W2. by apply I3.
  - by rewrite S2, S3, S5.
Qed.

(** A neutral call that changes nothing else. *)
Lemma inv_neutral c e d : neutral d = true -> pg_inv c ->
  pg_inv (mkPg e (pg_open c) (pg_conn c) (pg_tx c) (pg_cfg c) (pg_prepared c) (pg_types c) (pg_active c)
            (pg_trace c ++ [d])).
Proof.
  intros Hd [I1 I2 I3 I4]. destruct (neutral_steps [d]) as [W1 W2]; [by constructor|].
  split; cbn -[fold_left]; try done.
  - unfold live in *. by rewrite fold_left_app, W1.
  - intros id name E'. unfold on_server. rewrite fold_left_app, W2. by apply I3.
Qed.

Lemma session_ret {O A} (r : PqError + A) : keeps_session (O := O) (ret r).
Proof. by intros c o H. Qed.
Lemma keeps_write {O} (f : O -> O) : keeps_session (write f).
Proof. by intros c o H. Qed.
Lemma session_bind {O A B} (m : X (O := O) A) (k : A -> X B) :
  keeps_session m -> (forall a, keeps_session (k a)) -> keeps_session (xbind m k).
Proof.
  intros Hm Hk c o H. specialize (Hm c o H). unfold xbind.
  destruct (m (c, o)) as [[e|a] [c1 o1]]; [exact Hm|]. by apply Hk.
Qed.
Lemma keeps_catch {O A} (m : X (O := O) A) h :
  keeps_session m -> (forall e, keeps_session (h e)) -> keeps_session (catch m h).
Proof.
  intros Hm Hh c o H. specialize (Hm c o H). unfold catch.
  destruct (m (c, o)) as [[e|a] [c1 o1]]; [by apply Hh | exact Hm].
Qed.
(** What was read of the connection is known to hold of it. *)
Lemma keeps_look {O A B} (f : PgConn -> A) (k : A -> X (O := O) B) :
  (forall c o, pg_inv c -> pg_inv (k (f c) (c, o)).2.1) -> keeps_session (xbind (look f) k).
Proof. intros H c o Hc. exact (H c o Hc). Qed.
Lemma keeps_lib {O} call : neutral (mkCalled call true true) = true -> keeps_session (O := O) (lib call).
Proof.
  intros Hn c o H. destruct (lib_step call c o) as (r & e & ->). cbn. by apply inv_neutral.
Qed.
Lemma keeps_change {O} f : (forall c, pg_inv c -> pg_inv (f c)) -> keeps_session (O := O) (change f).
Proof. intros H c o Hc. by apply H. Qed.

Lemma begin_tx_keeps {O} c (o : O) : pg_tx c = false -> pg_conn c = true -> pg_inv c ->
  pg_inv (begin_tx (c, o)).2.1.
Proof.
  intros Ht Hc [I1 I2 I3 I4]. unfold begin_tx, xbind. destruct (lib_step PcBegin c o) as (r & e & ->).
  rewrite Ht in I1. destruct r as [ex|r]; cbn -[fold_left]; split; cbn -[fold_left].
  - unfold live in *. rewrite fold_left_app, I1, Ht. done.
  - done.
  - intros id name En. unfold on_server. rewrite fold_left_app. by apply I3.
  - done.
  - unfold live in *. rewrite fold_left_app, I1. cbn. lia.
  - done.
  - intros id name En. unfold on_server. rewrite fold_left_app. by apply I3.
  - by rewrite Hc.
Qed.

Lemma reset_tx_spec {O} c (o : O) : pg_inv c ->
  exists c', reset_tx (c, o) = (inr tt, (c', o)) /\ pg_inv c' /\ pg_tx c' = false
    /\ pg_conn c' = pg_conn c /\ pg_prepared c' = pg_prepared c.
Proof.
  intros H. pose proof H as [I1 I2 I3 I4]. unfold reset_tx, xbind, look, on_conn. cbn [fst snd].
  destruct (pg_tx c) eqn:Et; [|by exists c].
  quiet_call. eexists. split; [reflexivity|]. split; [|done]. split; cbn -[fold_left]; try done.
  - unfold live in *. rewrite fold_left_app, I1. cbn. lia.
  - intros id name E'. unfold on_server. rewrite fold_left_app. by apply I3.
  - intros Hc. by destruct (I4 Hc).
Qed.
Lemma reset_tx_keeps {O} : keeps_session (O := O) reset_tx.
Proof. intros c o H. by destruct (reset_tx_spec c o H) as (c' & -> & H' & _). Qed.

Lemma keeps_connected {O} place (m : X (O := O) Status) :
  (forall c o, pg_conn c = true -> pg_inv c -> pg_inv (m (c, o)).2.1) -> keeps_session (connected place m).
Proof.
  intros H. apply keeps_look. intros c o Hc. destruct (pg_open c && pg_conn c) eqn:Ec; [|done].
  apply andb_true_iff in Ec as [_ Ec]. by apply H.
Qed.

(** *** Transaction control keeps the books *)
Ltac session :=
  repeat first
    [ apply session_ret | apply keeps_write | apply reset_tx_keeps
    | apply keeps_lib; reflexivity
    | apply session_bind; [|intros ?] | apply keeps_catch; [|intros ?] ].

Lemma pg_begin_keeps {O} : keeps_session (O := O) pg_begin.
Proof.
  apply keeps_connected. intros c o Hc H. unfold xbind at 1. cbn [look on_conn fst snd].
  destruct (pg_tx c) eqn:Et; [done|]. pose proof (begin_tx_keeps c o Et Hc H) as Hb.
  unfold reporting, catch, xbind at 1. destruct (begin_tx (c, o)) as [[e|u] s1]; exact Hb.
Qed.

Lemma pg_begin_with_keeps {O} options : keeps_session (O := O) (pg_begin_with options).
Proof.
  apply keeps_connected. intros c o Hc H. unfold xbind at 1. cbn [look on_conn fst snd].
  destruct (pg_tx c) eqn:Et; [done|]. pose proof (begin_tx_keeps c o Et Hc H) as Hb.
  assert (forall e, keeps_session (O := O) (reset_tx ~; xret (postgresError TxError "BEGIN" e))) as Hr
    by (intros; session).
  assert (keeps_session (O := O) ((if is_nil (tx_settings options) then xret tt
    else lib (PcExec (lit "SET TRANSACTION" ++ tx_settings options)) ~; xret tt) ~; xret StatusOK)) as Hk
    by (destruct (is_nil _); session).
  unfold catch, xbind at 1. destruct (begin_tx (c, o)) as [[e|u] [c1 o1]]; [by apply Hr|].
  specialize (Hk c1 o1 Hb). destruct (xbind _ _ (c1, o1)) as [[e|st] [c2 o2]]; [by apply Hr | exact Hk].
Qed.

Lemma in_transaction_keeps {O} (m : X (O := O) Status) : keeps_session m -> keeps_session (in_transaction m).
Proof. intros Hm. apply keeps_look. intros c o H. destruct (pg_tx c); [by apply Hm | done]. Qed.
Lemma finish_tx_keeps {O} call place : neutral (mkCalled call true true) = true ->
  keeps_session (O := O) (finish_tx call place).
Proof. intros Hn. apply in_transaction_keeps. session. by apply keeps_lib. Qed.
Lemma savepoint_keeps {O} command name : keeps_session (O := O) (pg_savepoint_op command name).
Proof. apply in_transaction_keeps. unfold reporting. session. Qed.

Lemma inv_live_zero c e l : (forall n, fold_left live_step l n = n) ->
  (forall names, fold_left server_step l names = names) -> pg_inv c ->
  pg_inv (mkPg e (pg_open c) (pg_conn c) (pg_tx c) (pg_cfg c) (pg_prepared c) (pg_types c) (pg_active c)
            (pg_trace c ++ l)).
Proof.
  intros W1 W2 [I1 I2 I3 I4]. split; cbn -[fold_left]; try done.
  - unfold live in *. by rewrite fold_left_app, W1.
  - intros id name En. unfold on_server. rewrite fold_left_app, W2. by apply I3.
Qed.

Lemma pg_ping_keeps {O} : keeps_session (O := O) pg_ping.
Proof.
  apply keeps_connected. intros c o _ H.
  unfold reporting, xbind, catch, throw, xret, ret. lib_call r0. destruct r0 as [e0|r0].
  { apply (inv_live_zero c); by intros. }
  lib_call r1. destruct r1 as [e1|r1].
  - quiet_call. cbn. rewrite <- ?app_assoc. apply (inv_live_zero c); [|by intros|done].
    intros n. cbn. unfold live_step. cbn. lia.
  - lib_call r2. destruct r2 as [e2|r2]; quiet_call; cbn; rewrite <- ?app_assoc;
      (apply (inv_live_zero c); [|by intros|done]); intros n; cbn; unfold live_step; cbn; lia.
Qed.

Lemma refresh_works {O} : works (O := O) pg_refreshTypeCache.
Proof.
  apply works_connected, works_reporting; [done|].
  apply (tr_after always); [|intros a c o; eauto]. apply tr_own_tx. statements.
Qed.

Lemma pg_cancel_keeps {O} : keeps_session (O := O) pg_cancel.
Proof.
  apply keeps_look. intros c o H. destruct (pg_conn c && pg_open c && pg_active c); [|done].
  assert (keeps_session (O := O) (reporting Cancelled "cancel_query" (lib PcCancel ~; xret StatusOK))) as Hk
    by (unfold reporting; session). by apply Hk.
Qed.

Lemma pg_setLimit_keeps limit c : pg_inv c -> pg_inv (pg_setPreparedCacheLimit limit c).
Proof. intros [I1 I2 I3 I4]. split; cbn; try done. by apply set_limit_inv. Qed.

(** *** Prepared statements keep the books *)

(** The names [unprepare_all] forgets. *)
Definition some_names (names : list (option str)) : list str := omap id names.

Lemma unprepare_spec {O} names c (o : O) : exists e l,
  unprepare_all names (c, o) =
    (inr tt, (mkPg e (pg_open c) (pg_conn c) (pg_tx c) (pg_cfg c) (pg_prepared c) (pg_types c)
                (pg_active c) (pg_trace c ++ l), o))
  /\ (forall n, fold_left live_step l n = n)
  /\ (forall s name, name ∈ s -> name ∉ some_names names -> name ∈ fold_left server_step l s).
Proof.
  revert c. induction names as [|[name|] names IH]; intros c; cbn [unprepare_all].
  - exists (pg_env c), []. rewrite app_nil_r. split; [by destruct c | done].
  - unfold xbind. quiet_call.
    match goal with |- context [unprepare_all names (?c1, o)] => destruct (IH c1) as (e' & l & -> & H1 & H2) end.
    exists e', (mkCalled (PcUnprepare name) (pg_active c) returned :: l). cbn -[fold_left].
    rewrite <- app_assoc. split; [done|]. split; [intros n; apply H1|].
    intros s n Hn Hni. cbn in Hni. rewrite not_elem_of_cons in Hni. cbn [fold_left]. apply H2; [|tauto].
    unfold server_step. cbn. set_solver.
  - apply IH.
Qed.

Lemma statement_name_inj i j : statement_name i = statement_name j -> i = j.
Proof. intros H. by apply app_inv_head, dec_nat_inj in H. Qed.

(** After a statement was prepared and entered, what was dropped is unprepared. *)
Lemma entered_keeps {O} c (o : O) key sql e active :
  pg_inv c -> pg_conn c = true -> pr_cache (pg_prepared c) !! key = None ->
  let name := statement_name (S (pr_seq (pg_prepared c))) in
  let '(dropped, p) := enter key None name (pg_prepared c) in
  let c1 := mkPg e (pg_open c) (pg_conn c) (pg_tx c) (pg_cfg c) p (pg_types c) (pg_active c)
              (pg_trace c ++ [mkCalled (PcPrepare name sql) active true]) in
  pg_inv (unprepare_all dropped.*2 (c1, o)).2.1 /\ (unprepare_all dropped.*2 (c1, o)).1 = inr tt
  /\ (unprepare_all dropped.*2 (c1, o)).2.2 = o.
Proof.
  intros [I1 I2 I3 I4] Hc Hn name. pose proof (enter_spec key None name (pg_prepared c) I2 Hn) as He.
  cbv zeta in He. destruct (enter key None name (pg_prepared c)) as [dropped p].
  destruct He as (E1 & _ & _ & E4 & _ & _ & E7). intros c1.
  destruct (unprepare_spec dropped.*2 c1 o) as (e' & l & -> & H1 & H2). split; [|done].
  split; cbn -[fold_left]; [| exact E1 | | by rewrite Hc].
  - unfold live in *. rewrite !fold_left_app, H1. cbn. exact I1.
  - intros i n En. rewrite E7 in En. case_decide as Hd; [done|].
    assert (n = statement_name i) as ->.
    { apply lookup_insert_Some in En as [[<- <-]|[_ En]]; [done | by apply (I3 i)]. }
    split; [done|]. unfold on_server. rewrite !fold_left_app. apply H2.
    + cbn. apply lookup_insert_Some in En as [[<- _]|[_ En]]; [set_solver|].
      apply elem_of_union_r. apply (I3 i _ En).
    + intros Hin. apply list_elem_of_omap in Hin as (x & Hx & Ex). cbn in Ex. subst x.
      apply list_elem_of_fmap in Hx as ([h x] & Ex & Hx). cbn in Ex. subst x.
      destruct (E4 h _ Hx) as (b & [= <-] & Eb). unfold prepared_find in Eb.
      destruct (I3 _ _ Eb) as [Es _]. apply statement_name_inj in Es. apply Hd. rewrite Es.
      apply list_elem_of_fmap. exists h. split; [done|]. apply list_elem_of_fmap. by exists (h, Some (statement_name i)).
Qed.

Lemma hit_same key p h p' : prepared_hit key p = Some (h, p') ->
  pr_ids p' = pr_ids (p : PreparedCache unit str).
Proof. unfold prepared_hit. destruct (pr_cache p !! key); [|done]. by intros [= <- <-]. Qed.

Lemma pg_prepare_keeps sql sample : keeps_session (pg_prepare sql sample).
Proof.
  intros c o H. unfold pg_prepare, write. unfold xbind at 1. cbn [fst snd]. generalize (@no_handle unit) as o1. intros o1.
  revert c o1 H. apply keeps_connected. intros c o1 Hc H. unfold with_params.
  destruct (replacePlaceholders pg_visitor sql) as [pgSql found]. destruct (_ =? _)%nat; [|done].
  unfold xbind, look, on_conn. cbn [fst snd].
  destruct (prepared_hit _ (pg_prepared c)) as [[h p]|] eqn:Eh.
  - destruct H as [I1 I2 I3 I4]. destruct (hit_inv _ _ _ _ I2 Eh) as [Hp _].
    pose proof (hit_same _ _ _ _ Eh) as Es. split; cbn; [done | done | | ]; rewrite Es; done.
  - assert (pr_cache (pg_prepared c) !! prepared_key sql sample = None) as Hn
      by (unfold prepared_hit in Eh; by destruct (_ !! _)).
    unfold on_prepared, on_conn. cbn [next_id fst snd]. unfold catch, xret, ret.
    lib_call r. destruct r as [e1|r1].
    + destruct H as [I1 I2 I3 I4]. split; cbn -[fold_left]; try done.
      * unfold live in *. by rewrite fold_left_app.
      * by apply (next_id_inv (pg_prepared c)).
      * intros id name En. unfold on_server. rewrite fold_left_app. by apply I3.
    + pose proof (entered_keeps c o1 (prepared_key sql sample) pgSql e (pg_active c) H Hc Hn) as Hk.
      cbv zeta in Hk. unfold enter in Hk. cbn [next_id] in Hk. cbn [fst snd pg_prepared].
      destruct (remember _ _ _ _) as [dropped p]. unfold set_prepared. cbn [pg_env pg_open pg_conn pg_tx pg_cfg pg_types pg_active pg_trace].
      destruct Hk as (Hk & Er & _). destruct (unprepare_all _ _) as [r [c2 o2]]. cbn in *. by subst r.
Qed.

Lemma unprepare_names names : some_names (map Some names) = names.
Proof. induction names as [|n names IH]; [done|]. cbn. by rewrite <- IH at 2. Qed.

(** Closing forgets every statement and, of the connection, nothing else. *)
Lemma closeAll_spec {O} c (o : O) : pg_inv c -> exists c',
  pg_closeAllPrepared (c, o) = (inr tt, (c', o)) /\ pg_inv c' /\ pr_ids (pg_prepared c') = ∅
  /\ pg_conn c' = pg_conn c /\ pg_tx c' = pg_tx c /\ pg_open c' = pg_open c.
Proof.
  intros [I1 I2 I3 I4]. unfold pg_closeAllPrepared, xbind, look, on_conn, change. cbn [fst snd].
  destruct (unprepare_spec (map Some (map_to_list (pr_ids (pg_prepared c))).*2) c o) as (e & l & -> & H1 & _).
  cbn [fst snd]. eexists. split; [reflexivity|]. split; [|done].
  split; cbn -[fold_left]; [| by apply clear_inv | by intros | ].
  - unfold live in *. by rewrite fold_left_app, H1.
  - intros Hc. by destruct (I4 Hc).
Qed.

(** [close] leaves nothing: no transaction, no connection, no statement. *)
Record closed (c : PgConn) : Prop := {
  cl_open : pg_open c = false;
  cl_conn : pg_conn c = false;
  cl_tx : pg_tx c = false;
  cl_ids : pr_ids (pg_prepared c) = ∅;
}.

Lemma xbind_inr {O A B} (m : X (O := O) A) (k : A -> X B) s a s' :
  m s = (inr a, s') -> xbind m k s = k a s'.
Proof. intros H. unfold xbind. by rewrite H. Qed.
Lemma look_step {O A B} (f : PgConn -> A) (k : A -> X (O := O) B) c o :
  xbind (look f) k (c, o) = k (f c) (c, o).
Proof. done. Qed.

Lemma abort_spec {O} c (o : O) : pg_inv c -> pr_ids (pg_prepared c) = ∅ -> exists c',
  (if pg_tx c then quietly PcAbort ~; reset_tx else xret tt) (c, o) = (inr tt, (c', o))
  /\ pg_inv c' /\ pg_tx c' = false /\ pr_ids (pg_prepared c') = ∅.
Proof.
  intros H Ei. destruct (pg_tx c) eqn:Et; [|by exists c]. unfold xbind. quiet_call.
  pose proof (inv_neutral c e (mkCalled PcAbort (pg_active c) returned) eq_refl H) as Hn.
  destruct (reset_tx_spec _ o Hn) as (c' & -> & H' & Et' & _ & Ep). exists c'. by rewrite Ep.
Qed.

Lemma disconnect_spec {O} c (o : O) : pg_inv c -> pg_tx c = false -> pr_ids (pg_prepared c) = ∅ ->
  exists c', (if pg_conn c then quietly PcClose ~; change (set_conn false) else xret tt) (c, o)
    = (inr tt, (c', o))
  /\ pg_inv c' /\ pg_tx c' = false /\ pr_ids (pg_prepared c') = ∅ /\ pg_conn c' = false.
Proof.
  intros H Et Ei. destruct (pg_conn c) eqn:Ec; [|by exists c]. unfold xbind, change, on_conn. quiet_call.
  pose proof (inv_neutral c e (mkCalled PcClose (pg_active c) returned) eq_refl H) as [I1 I2 I3 I4].
  eexists. split; [reflexivity|]. by split.
Qed.

Lemma close_spec {O} c (o : O) : pg_inv c -> exists c',
  pg_close (c, o) = (inr tt, (c', o)) /\ pg_inv c' /\ closed c'.
Proof.
  intros H. destruct (closeAll_spec c o H) as (c1 & E1 & H1 & Ei & _).
  destruct (abort_spec c1 o H1 Ei) as (c2 & E2 & H2 & Et & Ei2).
  destruct (disconnect_spec c2 o H2 Et Ei2) as (c3 & E3 & [I1 I2 I3 I4] & Et3 & Ei3 & Ec).
  exists (set_open false c3). split; [|by split; split].
  unfold pg_close. rewrite (xbind_inr _ _ _ _ _ E1), look_step, (xbind_inr _ _ _ _ _ E2), look_step.
  by rewrite (xbind_inr _ _ _ _ _ E3).
Qed.

Lemma pg_close_keeps {O} : keeps_session (O := O) pg_close.
Proof. intros c o H. by destruct (close_spec c o H) as (c' & -> & H' & _). Qed.


(** A change of other fields. *)
Lemma inv_change c c' : pg_trace c' = pg_trace c -> pg_tx c' = pg_tx c ->
  pg_prepared c' = pg_prepared c -> (pg_conn c' = false -> pg_conn c = false) -> pg_inv c -> pg_inv c'.
Proof. intros E1 E2 E3 E4 [I1 I2 I3 I4]. split; rewrite ?E1, ?E2, ?E3; auto. Qed.

(** Without a transaction and without statements nothing holds a connection. *)
Definition idle (c : PgConn) : Prop := pg_tx c = false /\ pr_ids (pg_prepared c) = ∅.
Definition keeps_idle {O A} (m : X (O := O) A) : Prop := forall c o, pg_inv c -> idle c ->
  pg_inv (m (c, o)).2.1 /\ idle (m (c, o)).2.1.

Lemma idle_ret {O A} (r : PqError + A) : keeps_idle (O := O) (ret r).
Proof. by intros c o. Qed.
Lemma idle_bind {O A B} (m : X (O := O) A) (k : A -> X B) :
  keeps_idle m -> (forall a, keeps_idle (k a)) -> keeps_idle (xbind m k).
Proof.
  intros Hm Hk c o H Hi. destruct (Hm c o H Hi) as [H1 H2]. unfold xbind.
  destruct (m (c, o)) as [[e|a] [c1 o1]]; [done|]. by apply Hk.
Qed.
Lemma idle_catch {O A} (m : X (O := O) A) h :
  keeps_idle m -> (forall e, keeps_idle (h e)) -> keeps_idle (catch m h).
Proof.
  intros Hm Hh c o H Hi. destruct (Hm c o H Hi) as [H1 H2]. unfold catch.
  destruct (m (c, o)) as [[e|a] [c1 o1]]; [by apply Hh | done].
Qed.
Lemma idle_look {O A} (f : PgConn -> A) : keeps_idle (O := O) (look f).
Proof. by intros c o. Qed.
Lemma idle_set_conn {O} b : keeps_idle (O := O) (change (set_conn b)).
Proof. intros c o [I1 I2 I3 I4] [Ht Hi]. split; [|done]. by split. Qed.
Lemma idle_set_open {O} b : keeps_idle (O := O) (change (set_open b)).
Proof. intros c o [I1 I2 I3 I4] [Ht Hi]. split; [|done]. by split. Qed.
Lemma idle_lib {O} call : neutral (mkCalled call true true) = true -> keeps_idle (O := O) (lib call).
Proof.
  intros Hn c o H Hi. destruct (lib_step call c o) as (r & e & ->). split; [by apply inv_neutral | exact Hi].
Qed.
(** A new session knows no statement; none is remembered either. *)
Lemma idle_connect {O} info : keeps_idle (O := O) (lib (PcConnect info)).
Proof.
  intros c o [I1 I2 I3 I4] [Ht Hi]. destruct (lib_step (PcConnect info) c o) as (r & e & ->).
  split; [|done]. split; cbn -[fold_left]; try done.
  - unfold live in *. by rewrite fold_left_app.
  - intros id name En. by rewrite Hi in En.
Qed.

Lemma connect_spec {O} cfg : keeps_session (O := O) (pg_connect cfg).
Proof.
  intros c o H. unfold pg_connect. unfold xbind at 1. cbn [change on_conn fst snd].
  assert (pg_inv (set_cfg cfg c)) as H1 by by apply (inv_change c).
  destruct (close_spec (set_cfg cfg c) o H1) as (c1 & E1 & H2 & [_ _ Et Ei]).
  unfold change, on_conn. cbn [fst snd]. rewrite (xbind_inr _ _ _ _ _ E1).
  match goal with |- pg_inv (?m _).2.1 => assert (keeps_idle m) as Hm; [|by apply Hm] end.
  clear. unfold pg_attempt.
  repeat first [ apply idle_ret | apply idle_look | apply idle_set_conn | apply idle_set_open
    | apply idle_connect | apply idle_lib; reflexivity | apply idle_bind; [|intros ?]
    | apply idle_catch; [|intros ?] | match goal with |- keeps_idle (match ?x with _ => _ end) => destruct x end ].
Qed.
End Books.

(** *** Cursors keep the books *)
Definition owns (k : PgCursor) : Z := match cu_tx k with OwnTx => 1 | _ => 0 end.

Lemma rs_keeps owned {O A} (m : X (O := O) A) : runs_statements m -> keeps_session owned m.
Proof.
  intros H c o [I1 I2 I3 I4]. destruct (H c o) as (l & Et & [S1 S2 S3 S4 S5] & F).
  destruct (neutral_steps l) as [W1 W2]; [by eapply Forall_impl, statement_neutral|].
  split; rewrite ?S2, ?S3, ?S5; try done.
  - unfold live in *. by rewrite Et, fold_left_app, W1.
  - intros id name En. unfold on_server. rewrite Et, fold_left_app, W2. by apply I3.
Qed.
Lemma rs_active {O A} (m : X (O := O) A) : runs_statements m -> runs_statements (active_operation m).
Proof.
  intros H c o. unfold active_operation. cbn [fst snd].
  destruct (H (set_active true c) o) as (l & E1 & [S1 S2 S3 S4 S5] & E3).
  destruct (m (set_active true c, o)) as [r [c1 o1]]. exists l. split; [done|]. split; [by split | done].
Qed.

Lemma inv_owned n n' c e d : (forall x, live_step x d = x + (n' - n)) ->
  (forall names, server_step names d = names) -> pg_inv n c ->
  pg_inv n' (mkPg e (pg_open c) (pg_conn c) (pg_tx c) (pg_cfg c) (pg_prepared c) (pg_types c) (pg_active c)
            (pg_trace c ++ [d])).
Proof.
  intros W1 W2 [I1 I2 I3 I4]. split; cbn -[fold_left live_step server_step]; try done.
  - unfold live in *. rewrite fold_left_app, I1. cbn [fold_left]. rewrite W1. lia.
  - intros id name En. unfold on_server. rewrite fold_left_app. cbn [fold_left]. rewrite W2. by apply I3.
Qed.
Ltac owned_step H := revert H; apply inv_owned; [intros; unfold live_step; cbn; lia | done].

(** What leaves the out parameter alone. *)
Definition no_out {O A} (m : X (O := O) A) : Prop := forall c o, (m (c, o)).2.2 = o.
Lemma no_out_bind {O A B} (m : X (O := O) A) (k : A -> X B) :
  no_out m -> (forall a, no_out (k a)) -> no_out (xbind m k).
Proof.
  intros Hm Hk c o. specialize (Hm c o). unfold xbind.
  destruct (m (c, o)) as [[e|a] [c1 o1]]; cbn in Hm; subst; [done | apply Hk].
Qed.
Lemma no_out_catch {O A} (m : X (O := O) A) h : no_out m -> (forall e, no_out (h e)) -> no_out (catch m h).
Proof.
  intros Hm Hh c o. specialize (Hm c o). unfold catch.
  destruct (m (c, o)) as [[e|a] [c1 o1]]; cbn in Hm; subst; [apply Hh | done].
Qed.
Lemma no_out_lib {O} call : no_out (O := O) (lib call).
Proof. intros c o. by destruct (lib_step call c o) as (r & e & ->). Qed.
Lemma cu_open_out {O} seq sql params opts : no_out (O := O) (cu_open_on seq sql params opts).
Proof.
  unfold cu_open_on, rollbackOwned, pg_attempt, quietly, exec_params.
  repeat first [ apply no_out_lib | apply no_out_bind; [|intros ?] | apply no_out_catch; [|intros ?]
    | progress cbv zeta
    | match goal with |- no_out (match ?x with _ => _ end) => destruct x end
    | intros ? ?; reflexivity ].
Qed.

Lemma rollback_spec {O} n k c (o : O) : pg_inv n c -> exists c',
  rollbackOwned k (c, o) = (inr (cu_set_tx (match cu_tx k with OwnTx => NoTx | t => t end) k), (c', o))
  /\ pg_inv (n - owns k) c'.
Proof.
  intros H. unfold rollbackOwned, owns, cu_set_tx. destruct k as [t name batch op eof fs rows]. cbn [cu_tx].
  destruct t; try (eexists; split; [reflexivity|]; by rewrite Z.sub_0_r).
  unfold xbind. quiet_call.
  pose proof (inv_neutral n c e (mkCalled PcCommit (pg_active c) returned) eq_refl H) as H1.
  quiet_call. eexists. split; [reflexivity|].
  owned_step H1.
Qed.

(** What is owned after [m], when it was [n] before. *)
Definition moves {O A} (n : Z) (m : X (O := O) A) (after : (PqError + A) -> O -> Z) : Prop :=
  forall c o, pg_inv n c -> let '(r, (c', o')) := m (c, o) in pg_inv (after r o') c'.

Definition owned_by_result {A O} (n : Z) (get : A -> PgCursor) (r : PqError + A) (_ : O) : Z :=
  match r with inl _ => n | inr a => n + owns (get a) end.

Lemma cu_open_moves {O} n seq sql params opts :
  moves (O := O) n (cu_open_on seq sql params opts) (owned_by_result n snd).
Proof.
  intros c o H. unfold cu_open_on. rewrite look_step.
  destruct (negb (pg_tx c) && negb (po_auto_transaction opts)).
  { cbn. by rewrite Z.add_0_r. }
  set (declare := declare_cursor _ _ _).
  assert (runs_statements (O := O) (pg_attempt (if is_nil params then lib (PcExec declare)
    else exec_params declare params))) as Hd by (unfold pg_attempt; destruct (is_nil params); statements).
  assert (forall busy c1 (o1 : O), pg_inv (n + (if busy : bool then 0 else 1)) c1 ->
    let '(r, (c', o')) :=
      (failed <~ pg_attempt (if is_nil params then lib (PcExec declare) else exec_params declare params);
       match failed with
       | Some e => k <~ rollbackOwned (cu_set_tx (if busy then OwnersTx else OwnTx) new_cursor);
                   xret (postgresError CursorError "DECLARE CURSOR" e, k)
       | None => xret (StatusOK, mkCursor (if busy then OwnersTx else OwnTx) (cursor_name seq)
                          (if 0 <? po_batch_size opts then po_batch_size opts else 256) true false false 0)
       end) (c1, o1) in pg_inv (owned_by_result n snd r o') c') as Hrest.
  { intros busy c1 o1 H1. pose proof (rs_keeps _ _ Hd c1 o1 H1) as H2. unfold xbind at 1.
    destruct (pg_attempt _ (c1, o1)) as [[e|[e|]] [c2 o2]] eqn:Ea.
    - exfalso. unfold pg_attempt, catch in Ea. by destruct (xbind _ _ _) as [[?|?] ?].
    - cbn [fst snd] in H2.
      destruct (rollback_spec (n + (if busy then 0 else 1))
        (cu_set_tx (if busy then OwnersTx else OwnTx) new_cursor) c2 o2 H2) as (c3 & E3 & H3).
      rewrite (xbind_inr _ _ _ _ _ E3). destruct busy; cbn in H3 |- *; rewrite Z.add_0_r;
        [rewrite Z.add_0_r, Z.sub_0_r in H3; exact H3 | by replace n with (n + 1 - 1) by lia].
    - cbn in *. destruct busy; exact H2. }
  destruct (pg_tx c).
  - apply (Hrest true c o). by rewrite Z.add_0_r.
  - unfold xbind at 1. destruct (lib_step PcBegin c o) as (r & e & ->). destruct r as [ex|r].
    + cbn. owned_step H.
    + apply (Hrest false). owned_step H.
Qed.

(** What a result of [m] is known to be. *)
Definition answers {O A} (m : X (O := O) A) (P : A -> Prop) : Prop :=
  forall s, match (m s).1 with inr a => P a | inl _ => True end.
Lemma ans_bind {O A B} (m : X (O := O) A) (k : A -> X B) P Q :
  answers m Q -> (forall a, Q a -> answers (k a) P) -> answers (xbind m k) P.
Proof.
  intros Hm Hk s. specialize (Hm s). unfold xbind. destruct (m s) as [[e|a] s']; [done|]. by apply Hk.
Qed.
Lemma ans_any {O A} (m : X (O := O) A) : answers m (fun _ => True).
Proof. intros s. by destruct (m s) as [[e|a] s']. Qed.
Lemma ans_ret {O A} (a : A) (P : A -> Prop) : P a -> answers (xret (O := O) a) P.
Proof. by intros H s. Qed.
Lemma ans_catch {O A} (m : X (O := O) A) h P :
  answers m P -> (forall e, answers (h e) P) -> answers (catch m h) P.
Proof.
  intros Hm Hh s. specialize (Hm s). unfold catch. destruct (m s) as [[e|a] s']; [apply Hh | done].
Qed.
Lemma ans_active {O A} (m : X (O := O) A) P : answers m P -> answers (active_operation m) P.
Proof.
  intros H s. specialize (H (set_active true s.1, s.2)). unfold active_operation.
  by destruct (m _) as [r s'].
Qed.

Lemma fetch_owns n k : answers (cu_fetch n k) (fun r => cu_tx r.2 = cu_tx k).
Proof.
  unfold cu_fetch. destruct (negb (cu_open k)); [by apply ans_ret|]. cbv zeta.
  apply ans_catch; [|intros; by apply ans_ret]. apply ans_active. eapply ans_bind; [apply ans_any|]. intros r _.
  apply (ans_bind _ _ _ (fun k' => cu_tx k' = cu_tx k)).
  - unfold cu_ensureFields. destruct (cu_fieldsSet k); [by apply ans_ret|].
    eapply ans_bind; [apply ans_any|]. intros _ _. by apply ans_ret.
  - intros k' Ek. destruct (is_nil (pq_rows r)); [by apply ans_ret|].
    eapply ans_bind; [apply ans_any|]. intros m _. by apply ans_ret.
Qed.

Lemma rs_cu_rows columns rows n : runs_statements (cu_add_rows columns rows n).
Proof. revert n. induction rows as [|row rows IH]; intros n; cbn [cu_add_rows]; statements. Qed.
#[local] Hint Resolve rs_cu_rows : pq.
Lemma rs_fetch n k : runs_statements (cu_fetch n k).
Proof.
  unfold cu_fetch. destruct (negb (cu_open k)); [statements|]. cbv zeta.
  apply rs_catch; [|intros; statements]. apply rs_active. unfold cu_ensureFields. statements.
Qed.

Lemma fetch_moves n k want : moves n (cu_fetch want k)
  (fun r _ => n - owns k + match r with inr (_, k') => owns k' | inl _ => owns k end).
Proof.
  intros c o H. pose proof (rs_keeps _ _ (rs_fetch want k) c o H) as Hi.
  pose proof (fetch_owns want k (c, o)) as Ho. destruct (cu_fetch want k (c, o)) as [[e|[st k']] [c' o']]; cbn in *.
  - by replace (n - owns k + owns k) with n by lia.
  - unfold owns. rewrite Ho. by replace (n - _ + _) with n by lia.
Qed.

Lemma fetchRow_moves {O} n k : moves (O := O) n (cu_fetchRow k)
  (fun r _ => n - owns k + match r with inr (_, k') => owns k' | inl _ => owns k end).
Proof.
  intros c o H. unfold cu_fetchRow. destruct (negb (cu_open k)).
  { cbn. by replace (n - owns k + owns k) with n by lia. }
  pose proof (fetch_moves n k 1 c rs_empty H) as Hm. unfold xbind, with_local. cbn [fst snd].
  destruct (cu_fetch 1 k (c, rs_empty)) as [[e|[st k']] [c' tmp]]; [exact Hm|]. cbn.
  destruct (negb (st_ok st)); exact Hm.
Qed.

Lemma close_moves {O} n k : moves (O := O) n (cu_close k)
  (fun r _ => n - owns k + match r with inr (_, k') => owns k' | inl _ => owns k end).
Proof.
  intros c o H. unfold cu_close. destruct (negb (cu_open k)).
  { cbn. by replace (n - owns k + owns k) with n by lia. }
  set (m := pg_attempt _). assert (runs_statements (O := O) m) as Hs.
  { unfold m, pg_attempt. apply rs_catch; [|intros; statements]. apply rs_bind; [|intros; statements].
    apply rs_active. statements. }
  pose proof (rs_keeps _ _ Hs c o H) as H1. unfold xbind at 1.
  destruct (m (c, o)) as [[e|failed] [c1 o1]]; cbn [fst snd] in H1.
  { by replace (n - owns k + owns k) with n by lia. }
  destruct (rollback_spec n (cu_set_open false k) c1 o1 H1) as (c2 & E2 & H2).
  rewrite (xbind_inr _ _ _ _ _ E2). cbn. unfold owns in *. cbn in *.
  destruct (cu_tx k); cbn in *; by rewrite Z.add_0_r.
Qed.

Lemma destroy_moves {O} n k : moves (O := O) n (cu_destroy k) (fun r _ => n - owns k).
Proof.
  intros c o H. unfold cu_destroy. pose proof (close_moves n k c o H) as Hc.
  assert (answers (O := O) (cu_close k) (fun _ => True)) as _ by apply ans_any.
  unfold xbind at 1. destruct (cu_close k (c, o)) as [[e|[st k']] [c1 o1]] eqn:Ec.
  - exfalso. revert Ec. unfold cu_close. destruct (negb (cu_open k)); [done|].
    unfold pg_attempt, catch, xbind. destruct (active_operation _ _) as [[e1|r1] s1]; cbn;
    unfold rollbackOwned; destruct (cu_tx (cu_set_open false k)); try done; unfold xbind;
    destruct s1 as [c2 o2]; quiet_call; by quiet_call.
  - cbn [snd]. unfold owns at 2 in Hc. destruct (cu_tx k'); try (cbn; by rewrite Z.add_0_r in Hc).
    unfold xbind. quiet_call. cbn. owned_step Hc.
Qed.

(** A cursor that could not be opened owns nothing. *)
Lemma rollback_disowns {O} k : answers (O := O) (rollbackOwned k) (fun k' => cu_tx k' <> OwnTx).
Proof.
  unfold rollbackOwned. destruct (cu_tx k) eqn:Et; try (apply ans_ret; by rewrite Et).
  repeat (eapply ans_bind; [apply ans_any|]; intros _ _). by apply ans_ret.
Qed.
Lemma cu_open_refused {O} seq sql params opts : answers (O := O) (cu_open_on seq sql params opts)
  (fun r => st_ok r.1 = false -> owns r.2 = 0).
Proof.
  unfold cu_open_on. eapply ans_bind; [apply ans_any|]. intros busy _.
  destruct (negb busy && _); [by apply ans_ret|].
  eapply ans_bind; [apply ans_any|]. intros r _. cbv zeta. eapply ans_bind; [apply ans_any|].
  intros [e|] _; [|by apply ans_ret]. eapply ans_bind; [apply rollback_disowns|]. intros k Hk.
  apply ans_ret. intros _. unfold owns. cbn. cbn in Hk. by destruct (cu_tx k).
Qed.

Definition owned_cursor (k : option PgCursor) : Z := match k with Some k => owns k | None => 0 end.

Lemma openCursor_moves n seq sql params opts :
  moves n (pg_openCursor seq sql params opts) (fun _ k => n + owned_cursor k).
Proof.
  intros c o H. unfold pg_openCursor, write. unfold xbind at 1. cbn [fst snd]. clear o.
  unfold connected. rewrite look_step. destruct (pg_open c && pg_conn c); [|cbn; by rewrite Z.add_0_r].
  unfold active_operation. cbn [fst snd].
  assert (pg_inv n (set_active true c)) as H1 by by apply (inv_change n c).
  unfold with_params. destruct (replacePlaceholders pg_visitor sql) as [pgSql found].
  destruct (found =? length params)%nat; [|cbn; rewrite Z.add_0_r; by apply (inv_change n c)].
  pose proof (cu_open_moves n seq pgSql params opts (set_active true c) (None : option PgCursor) H1) as Hm.
  pose proof (cu_open_refused seq pgSql params opts (set_active true c, None : option PgCursor)) as Hr.
  pose proof (cu_open_out seq pgSql params opts (set_active true c) (None : option PgCursor)) as Eo.
  unfold reporting, catch, xbind at 1.
  destruct (cu_open_on seq pgSql params opts (set_active true c, None)) as [[e|[st k]] [c1 o1]];
    cbn in Hm, Hr, Eo |- *; subst o1.
  - rewrite Z.add_0_r. by apply (inv_change n c1).
  - unfold xbind. destruct (st_ok st); cbn; [by apply (inv_change _ c1)|].
    rewrite Hr in Hm by done. by apply (inv_change _ c1).
Qed.

(** ** Sessions

    A connection with the cursors opened on it, and everything a client can do. A
    cursor that is used after its connection was closed or opened anew is outside
    the model of the library: its calls still answer. *)
Inductive operation : forall {O A : Type}, X (O := O) A -> Prop :=
  | op_query sql : operation (pg_query sql)
  | op_query_params sql params : operation (pg_query_params sql params)
  | op_execute sql : operation (pg_execute sql)
  | op_execute_params sql params : operation (pg_execute_params sql params)
  | op_execute_keys sql : operation (pg_execute_keys sql)
  | op_execute_params_keys sql params : operation (pg_execute_params_keys sql params)
  | op_batch sql batch : operation (pg_executeBatch sql batch)
  | op_each fuel sql params callback : operation (pg_queryEach fuel sql params callback)
  | op_prepare sql sample : operation (pg_prepare sql sample)
  | op_prepared_query h params : operation (pg_executePrepared_query h params)
  | op_prepared_execute h params : operation (pg_executePrepared_execute h params)
  | op_close_all : operation (O := unit) pg_closeAllPrepared
  | op_limit limit : operation (O := unit) (change (pg_setPreparedCacheLimit limit))
  | op_begin : operation (O := unit) pg_begin
  | op_begin_with options : operation (O := unit) (pg_begin_with options)
  | op_commit : operation (O := unit) pg_commit
  | op_rollback : operation (O := unit) pg_rollback
  | op_savepoint name : operation (O := unit) (pg_savepoint name)
  | op_release name : operation (O := unit) (pg_releaseSavepoint name)
  | op_rollback_to name : operation (O := unit) (pg_rollbackToSavepoint name)
  | op_ping : operation (O := unit) pg_ping
  | op_refresh : operation (O := unit) pg_refreshTypeCache
  | op_cancel : operation (O := unit) pg_cancel
  | op_connect cfg : operation (O := unit) (pg_connect cfg)
  | op_close : operation (O := unit) pg_close.

Lemma operation_keeps owned {O A} (m : X (O := O) A) : operation m -> keeps_session owned m.
Proof.
  destruct statements_are_units_of_work as (W1 & W2 & W3 & W4 & W5 & W6 & W7 & W8 & W9 & W10).
  destruct 1; try (apply works_keeps; auto; fail).
  - apply pg_prepare_keeps.
  - intros c o H. by destruct (closeAll_spec owned c o H) as (c' & -> & H' & _).
  - apply keeps_change. intros c. apply pg_setLimit_keeps.
  - apply pg_begin_keeps.
  - apply pg_begin_with_keeps.
  - by apply finish_tx_keeps.
  - by apply finish_tx_keeps.
  - apply savepoint_keeps.
  - apply savepoint_keeps.
  - apply savepoint_keeps.
  - apply pg_ping_keeps.
  - apply works_keeps, refresh_works.
  - apply pg_cancel_keeps.
  - apply connect_spec.
  - apply pg_close_keeps.
Qed.

Inductive session_step : PgConn * list PgCursor -> PgConn * list PgCursor -> Prop :=
  | ss_operation {O A} (m : X (O := O) A) (o : O) c ks : operation m ->
      session_step (c, ks) ((m (c, o)).2.1, ks)
  | ss_open_cursor seq sql params opts c ks c' out :
      (pg_openCursor seq sql params opts (c, None)).2 = (c', out) ->
      session_step (c, ks) (c', match out with Some k => k :: ks | None => ks end)
  | ss_fetch n o k st k' c c' o' ks ks' :
      cu_fetch n k (c, o) = (inr (st, k'), (c', o')) ->
      session_step (c, ks ++ k :: ks') (c', ks ++ k' :: ks')
  | ss_fetchRow (o : unit) k st row k' c c' o' ks ks' :
      cu_fetchRow k (c, o) = (inr (st, row, k'), (c', o')) ->
      session_step (c, ks ++ k :: ks') (c', ks ++ k' :: ks')
  | ss_close_cursor (o : unit) k st k' c c' o' ks ks' :
      cu_close k (c, o) = (inr (st, k'), (c', o')) ->
      session_step (c, ks ++ k :: ks') (c', ks ++ k' :: ks')
  | ss_destroy (o : unit) k c ks ks' :
      session_step (c, ks ++ k :: ks') ((cu_destroy k (c, o)).2.1, ks ++ ks').
Definition session : E -> DataSourceConfig -> PgConn * list PgCursor -> Prop :=
  fun e cfg => rtc session_step (pg_new e cfg, []).

Definition all_owned (ks : list PgCursor) : Z := foldr Z.add 0 (owns <$> ks).
Lemma all_owned_app ks ks' : all_owned (ks ++ ks') = all_owned ks + all_owned ks'.
Proof. unfold all_owned. induction ks as [|k ks IH]; [done|]. cbn in *. rewrite IH. lia. Qed.

Lemma all_owned_cons k ks : all_owned (k :: ks) = owns k + all_owned ks.
Proof. done. Qed.

Lemma pg_new_inv e cfg : pg_inv 0 (pg_new e cfg).
Proof. split; [done | apply no_prepared_inv | by intros | done]. Qed.

Ltac cursor_moved H c o :=
  match goal with Hi : pg_inv _ c |- _ => specialize (H c o Hi) end;
  match goal with Hc : _ = (inr _, _) |- _ => rewrite Hc in H end; revert H; cbv beta iota;
  match goal with |- pg_inv ?a _ -> pg_inv ?b _ => replace b with a; [done|] end;
  rewrite !all_owned_app, !all_owned_cons; lia.

Lemma session_step_inv c ks c' ks' : session_step (c, ks) (c', ks') ->
  pg_inv (all_owned ks) c -> pg_inv (all_owned ks') c'.
Proof.
  intros Hs. remember (c, ks) as s eqn:Es. remember (c', ks') as s' eqn:Es'.
  destruct Hs as [O A m o c1 l Hm|seq sql params opts c1 l c2 out Eo|n o k st k' c1 c2 o' l l' Ef
    |o k st row k' c1 c2 o' l l' Ef|o k st k' c1 c2 o' l l' Ef|o k c1 l l'];
    injection Es as <- <-; injection Es' as <- <-; intros Hi.
  - by apply (operation_keeps _ m).
  - pose proof (openCursor_moves (all_owned l) seq sql params opts c1 None Hi) as H.
    destruct (pg_openCursor seq sql params opts (c1, None)) as [r [c3 o3]]. injection Eo as -> ->.
    destruct out as [k|]; cbn in *; [by rewrite Z.add_comm | by rewrite Z.add_0_r in H].
  - pose proof (fetch_moves (all_owned (l ++ k :: l')) k n) as H. cursor_moved H c1 o.
  - pose proof (fetchRow_moves (O := unit) (all_owned (l ++ k :: l')) k) as H. cursor_moved H c1 o.
  - pose proof (close_moves (O := unit) (all_owned (l ++ k :: l')) k) as H. cursor_moved H c1 o.
  - pose proof (destroy_moves (all_owned (l ++ k :: l')) k c1 o Hi) as H.
    destruct (cu_destroy k (c1, o)) as [r [c2 o2]]. revert H. cbn [fst snd].
    match goal with |- pg_inv ?a _ -> pg_inv ?b _ => replace b with a; [done|] end.
    rewrite !all_owned_app, !all_owned_cons. lia.
Qed.

Lemma session_inv e cfg s : session e cfg s -> pg_inv (all_owned s.2) s.1.
Proof.
  intros H. pose proof (pg_new_inv e cfg : pg_inv (all_owned (pg_new e cfg, [] : list PgCursor).2) (pg_new e cfg, [] : list PgCursor).1) as H0.
  unfold session in H. revert H0. induction H as [s|[c1 k1] [c2 k2] s Hs Hr IH]; [done|].
  intros H1. apply IH. by apply (session_step_inv _ _ _ _ Hs).
Qed.

(** ** Streams end

    [remaining] is what the library and the client have left to give: a chunk with
    rows takes of it, a callback adds nothing to it. *)
Section Streams.
Variable remaining : E -> nat.
Variable callback : Callback.
Hypothesis fetch_takes : forall e r e',
  pq_call (PcExec fetch_sql) e = (inr r, e') -> pq_rows r <> [] -> (remaining e' < remaining e)%nat.
Hypothesis callback_adds_nothing : match callback with
  | Some f => forall row e, (remaining (f row e).2 <= remaining e)%nat
  | None => True
  end.

Lemma stream_chunk_env columns rows c o :
  (remaining (pg_env (stream_chunk callback columns rows (c, o)).2.1) <= remaining (pg_env c))%nat.
Proof.
  revert c o. induction rows as [|row rows IH]; intros c o; [done|]. cbn [stream_chunk].
  unfold xbind at 1. unfold read_fields, on_conn. cbn [fst snd].
  destruct (read_row columns row [] (pg_types c)) as [r types]. unfold write, xbind at 1. cbn [fst snd].
  unfold xbind at 1, call_back. destruct callback as [f|]; cbn [fst snd].
  - specialize (callback_adds_nothing r (pg_env c)). unfold set_types. cbn [pg_env].
    destruct (f r (pg_env c)) as [[e|[|]] e']; cbn in callback_adds_nothing |- *; try done.
    etransitivity; [apply IH | done].
  - etransitivity; [apply IH | done].
Qed.

(** a stream ends: with more fuel than the library has rows left, the loop over
    the chunks gives the same result as with any greater amount, on every input and
    whatever the callback answers or throws. *)
Theorem stream_loop_ends fuel more c o : (remaining (pg_env c) < fuel)%nat -> (fuel <= more)%nat ->
  stream_loop fuel callback (c, o) = stream_loop more callback (c, o).
Proof.
  revert more c o. induction fuel as [|fuel IH]; intros more c o Hr Hm; [lia|].
  destruct more as [|more]; [lia|]. cbn [stream_loop]. unfold xbind at 1 3, lib. cbn [fst snd].
  destruct (pq_call (PcExec fetch_sql) (pg_env c)) as [[e|r] e'] eqn:Ec; [done|].
  destruct (pq_rows r) as [|row rows] eqn:Er; [done|]. cbn [is_nil].
  pose proof (fetch_takes _ _ _ Ec ltac:(by rewrite Er)) as Ht.
  match goal with |- context [stream_chunk callback ?cols ?rs] => set (chunk := stream_chunk callback cols rs) end.
  set (c1 := mkPg _ _ _ _ _ _ _ _ _).
  pose proof (stream_chunk_env (pq_columns r) (row :: rows) c1 o) as Hc. fold chunk in Hc. cbn [pg_env c1] in Hc.
  unfold xbind. destruct (chunk (c1, o)) as [[e1|[|]] [c2 o2]]; [done| |done].
  cbn in Hc. apply IH; [|lia]. subst c1. cbn in Hc. lia.
Qed.
End Streams.

End Driver.

(** ** A library that answers from a script

    Each call takes the next answer; without one, an empty result. *)
#[local] Instance scripted : Pqxx (list (PqError + PqResult)) := {
  pq_call := fun _ script => match script with [] => (inr pq_nothing, []) | r :: rest => (r, rest) end;
  pq_is_open := fun _ => true;
  pq_int := strtoll_all;
}.
Definition demo_conn : Type := PgConn (E := list (PqError + PqResult)).
Definition demo_rows (texts : list string) : PqError + PqResult :=
  inr (mkPqResult [(lit "v", 25)] (map (fun t => [Some (lit t)]) texts) 1).
Definition demo_ok : PqError + PqResult := inr pq_nothing.
Definition demo_fail (msg : string) : PqError + PqResult := inl (mkPqError (lit msg) None).
(** A connection that answers from [script] from now on. *)
Definition demo_connected (script : list (PqError + PqResult)) : demo_conn :=
  let c := (pg_connect default_datasource (pg_new [] default_datasource, tt)).2.1 in
  mkPg script (pg_open c) (pg_conn c) (pg_tx c) (pg_cfg c) (pg_prepared c)
    (mkTypeCache ∅ ∅ true false) false [].
Definition calls (c : demo_conn) : list PqCall := map cd_call (pg_trace c).
Definition demo_cursor_options : PgCursorOptions := mkPgCursorOptions 2 false true.

Definition demo_session1 : demo_conn := (pg_connect default_datasource (pg_new [] default_datasource, tt)).2.1.
Definition demo_session2 : demo_conn := (pg_prepare (lit "SELECT ?") [VInt64 1] (demo_session1, no_handle)).2.1.
Definition demo_session3 : demo_conn * option PgCursor :=
  (pg_openCursor no_local demo_pow10 demo_printf 1 (lit "SELECT 1") [] demo_cursor_options (demo_session2, None)).2.
Definition demo_session4 : demo_conn := (pg_begin (demo_session3.1, tt)).2.1.
Definition demo_cursors : list PgCursor := match demo_session3.2 with Some k => [k] | None => [] end.
Definition demo_session : list (PqError + PqResult) -> DataSourceConfig -> demo_conn * list PgCursor -> Prop :=
  session no_local no_zone demo_pow10 demo_printf.


(** Two chunks, read by a client without a callback. *)
Lemma stream_loop_ends_witness :
  let c := demo_connected [demo_rows ["a"; "b"]; demo_rows ["c"]] in
  stream_loop no_zone demo_pow10 3 None (c, 0) = stream_loop no_zone demo_pow10 100 None (c, 0)
  /\ (stream_loop no_zone demo_pow10 3 None (c, 0)).2.2 = 3.
Proof.
  intros c. split; [|vm_compute; reflexivity].
  apply (stream_loop_ends no_zone demo_pow10 (@length (PqError + PqResult)) None).
  - intros [|r e] r' e'; cbn; [by intros [= <- <-]|]. intros [= -> ->] _. lia.
  - exact I.
  - apply Nat.lt_succ_diag_r.
  - lia.
Defined.

(** ** Findings *)

(** A statement that runs by name is not marked active, so that [cancel] refuses to
    interrupt it; the same statement run by its text is. *)
Theorem prepared_statement_not_cancellable :
  let by_name := (pg_executePrepared_execute no_local demo_pow10 demo_printf (mkHandle 1 None) [VInt64 1]
    ((pg_prepare (lit "DELETE FROM t WHERE id = ?") [VInt64 1] (demo_connected [], no_handle)).2.1, 0)).2.1 in
  let by_text := (pg_execute_params no_local demo_pow10 demo_printf (lit "DELETE FROM t WHERE id = ?")
    [VInt64 1] (demo_connected [], 0)).2.1 in
  map (fun d => (cd_call d, cd_active d)) (pg_trace by_name)
    = [(PcPrepare (lit "sqlconduit_ps_1") (lit "DELETE FROM t WHERE id = $1"), false); (PcBegin, false);
       (PcExecPrepared (lit "sqlconduit_ps_1") [PqInt 1], false); (PcCommit, false); (PcEnd, false)]
  /\ map (fun d => (cd_call d, cd_active d)) (pg_trace by_text)
    = [(PcBegin, true); (PcExecParams (lit "DELETE FROM t WHERE id = $1") [PqInt 1], true); (PcCommit, true); (PcEnd, true)]
  /\ forall c o, pg_active c = false ->
       (pg_cancel (c, o)) = (inr (status_error NotConnected (lit "PostgreSQL: no active query to cancel")), (c, o : unit)).
Proof.
  split; [vm_compute; reflexivity|]. split; [vm_compute; reflexivity|].
  intros c o H. unfold pg_cancel. rewrite look_step, H, andb_false_r. reflexivity.
Qed.

(** A batch that fails half way is rolled back as a whole, but the counts of the
    statements before the failure stay in the result; a mismatch of the number of
    parameters clears them. *)
Theorem failed_batch_keeps_counts :
  let insert := lit "INSERT INTO t VALUES (?)" in
  let run batch := pg_executeBatch no_local no_zone demo_pow10 demo_printf insert batch
    (demo_connected [demo_ok; inr (mkPqResult [] [] 1); demo_fail "duplicate key"], batch_empty) in
  let refused := run [[VInt64 1]; [VInt64 1]] in
  let mismatched := run [[VInt64 1]; []] in
  match refused.1 with inr st => st_ok st | inl _ => true end = false
  /\ batch_affected refused.2.2 = [1]
  /\ match mismatched.1 with inr st => st_ok st | inl _ => true end = false
  /\ batch_affected mismatched.2.2 = []
  /\ forallb (fun d => match cd_call d with PcCommit => false | _ => true end)
       (pg_trace refused.2.1 ++ pg_trace mismatched.2.1) = true.
Proof. vm_compute. done. Qed.

(** A cursor with a transaction of its own. *)
Definition demo_open (script : list (PqError + PqResult)) : demo_conn * PgCursor :=
  match pg_openCursor no_local demo_pow10 demo_printf 1 (lit "SELECT v FROM t") [] demo_cursor_options
    (demo_connected script, None) with
  | (_, (c, Some k)) => (c, k)
  | (_, (c, None)) => (c, new_cursor)
  end.
Definition demo_fetch (s : demo_conn * PgCursor * ResultSet) : demo_conn * PgCursor * ResultSet :=
  match cu_fetch no_zone demo_pow10 2 s.1.2 (s.1.1, s.2) with
  | (inr (_, k), (c, rows)) => (c, k, rows)
  | (inl _, (c, rows)) => (c, s.1.2, rows)
  end.
Definition demo_end (s : demo_conn * PgCursor * ResultSet) : list PqCall :=
  calls (cu_destroy s.1.2 (s.1.1, tt)).2.1.

(** Whether such a cursor's transaction is committed depends on where the reader
    stops: one closed before the end is committed, one read to its end is already
    closed then, and its transaction is destroyed uncommitted. *)
Theorem cursor_at_end_not_committed :
  let c := demo_open [demo_ok; demo_ok; demo_rows ["a"; "b"]; demo_rows []] in
  let once := demo_fetch (c, rs_empty) in
  let declare := PcExec (lit "DECLARE sqlconduit_cursor_1 NO SCROLL CURSOR FOR SELECT v FROM t") in
  let fetch := PcExec (lit "FETCH FORWARD 2 FROM sqlconduit_cursor_1") in
  demo_end once = [PcBegin; declare; fetch; PcExec (lit "CLOSE sqlconduit_cursor_1"); PcCommit; PcEnd]
  /\ demo_end (demo_fetch once) = [PcBegin; declare; fetch; fetch; PcEnd].
Proof. split; vm_compute; reflexivity. Qed.

(** The names of the columns are written by the first fetch only: a second fetch into
    another result set leaves it without them. *)
Theorem cursor_fields_once :
  let c := demo_open [demo_ok; demo_ok; demo_rows ["a"; "b"]; demo_rows ["c"]] in
  let once := demo_fetch (c, rs_empty) in
  let twice := demo_fetch (once.1, rs_empty) in
  rs_fields once.2 = [lit "v"] /\ rs_fields twice.2 = [] /\ length (rs_rows twice.2) = 1%nat.
Proof. split_and!; vm_compute; reflexivity. Qed.

(** A cursor opened in the connection's transaction is still open after its end, and
    fetches through the transaction object that was destroyed. *)
Theorem cursor_outlives_transaction :
  let c := (pg_begin (demo_connected [], tt)).2.1 in
  let opened := pg_openCursor no_local demo_pow10 demo_printf 1 (lit "SELECT v FROM t") []
    demo_cursor_options (c, None) in
  let k := default new_cursor opened.2.2 in
  let ended := (pg_commit (opened.2.1, tt)).2.1 in
  cu_tx k = OwnersTx /\ cu_hasNext k = true /\ live (pg_trace ended) = 0
  /\ calls (cu_fetch no_zone demo_pow10 2 k (ended, rs_empty)).2.1
     = calls ended ++ [PcExec (lit "FETCH FORWARD 2 FROM sqlconduit_cursor_1")].
Proof. split_and!; vm_compute; reflexivity. Qed.

(** [ping] makes a transaction object of its own, also when the connection has one. *)
Theorem ping_in_transaction :
  let c := (pg_begin (demo_connected [], tt)).2.1 in
  calls (pg_ping (c, tt)).2.1 = [PcBegin; PcBegin; PcExec (lit "SELECT 1"); PcCommit; PcEnd].
Proof. vm_compute. reflexivity. Qed.
