(* ===== verification/Native.v ===== *)
(** * Calls of a client library written in C

    What the drivers over C libraries (src/driver/mysql_driver.cpp) share in this
    model. A library is a family of calls, each with the type of its answer; the
    driver's connection is a record, the rest of the world is [E]. Code leaves a
    function early by [return], which a [Status] type carries, or by an exception of a
    callback; a destructor runs on every way out. Every call is recorded with its answer and the connection as it was, for the
    theorems only: which handles are live, and that no call uses another. *)
From stdpp Require Import base gmap sets list.
From Stdlib Require Import Ascii ZArith Lia.
From S2P Require Import Prelude Types.

(** ** The library *)
Class Library (Call : Type -> Type) (E : Type) := native : forall A, Call A -> ST E A.
Arguments native {Call E _ A} c.

(** How code ends that does not go on: a [return], an exception, or a loop that the
    fuel does not see the end of. *)
Inductive Exit := Return (st : Status) | Throw (what : str) | Running.

(** The bytes of a string up to its first NUL, and a pointer that is null for an
    empty one. *)
Definition c_str (s : str) : str := take_while (fun c => negb (Ascii.eqb c "000")) s.
Definition opt_c_str (s : str) : option str := if is_nil s then None else Some (c_str s).

Declare Scope native_scope.
Delimit Scope native_scope with native.

Section Code.
Context {Call : Type -> Type} {E C : Type}.

Record Called := mkCalled {
  cd_conn : C;
  cd_type : Type;
  cd_call : Call cd_type;
  cd_answer : cd_type;
}.
Record World := mkWorld { w_env : E; w_conn : C; w_trace : list Called }.

Definition X (O A : Type) : Type := ST (World * O) (Exit + A).

Section Combinators.
Context {O : Type}.
Definition xret {A} (a : A) : X O A := ret (inr a).
Definition leave {A} (e : Exit) : X O A := ret (inl e).
Definition early {A} (st : Status) : X O A := leave (Return st).
Definition xbind {A B} (m : X O A) (k : A -> X O B) : X O B :=
  fun s => match m s with (inr a, s') => k a s' | (inl e, s') => (inl e, s') end.
(** The end of a function. *)
Definition body (m : X O Status) : X O Status :=
  fun s => match m s with (inl (Return st), s') => (inr st, s') | r => r end.
(** A destructor at the end of the scope of [m]. *)
Definition finally {A} (m : X O A) (cleanup : X O unit) : X O A :=
  fun s =>
    match m s with
    | (inl Running, s') => (inl Running, s')
    | (r, s') => match cleanup s' with (inr tt, s'') => (r, s'') | (inl e, s'') => (inl e, s'') end
    end.
Definition on_conn {A} (f : C -> A * C) : X O A :=
  fun s => let '(a, c) := f (w_conn s.1) in (inr a, (mkWorld (w_env s.1) c (w_trace s.1), s.2)).
Definition change (f : C -> C) : X O unit := on_conn (fun c => (tt, f c)).
Definition look {A} (f : C -> A) : X O A := on_conn (fun c => (f c, c)).
Definition write (f : O -> O) : X O unit := fun s => (inr tt, (s.1, f s.2)).
Definition out {A} (f : O -> A) : X O A := fun s => (inr (f s.2), s).
(** [if (!st.ok()) return st;] *)
Definition check (st : Status) : X O unit := if st_ok st then xret tt else early st.

Context `{!Library Call E}.
Definition lib {A} (call : Call A) : X O A :=
  fun s =>
    let '(a, e) := native call (w_env s.1) in
    (inr a, (mkWorld e (w_conn s.1) (w_trace s.1 ++ [mkCalled (w_conn s.1) A call a]), s.2)).
(** A callback acts on the world, may throw, and answers. *)
Definition call_back {A} (f : ST E (str + A)) : X O A :=
  fun s =>
    let '(r, e) := f (w_env s.1) in
    (match r with inl what => inl (Throw what) | inr a => inr a end,
     (mkWorld e (w_conn s.1) (w_trace s.1), s.2)).
End Combinators.

(** A local variable of type [O], and a part of the out parameter. *)
Definition with_local {O O' A} (o : O) (m : X O A) : X O' (A * O) :=
  fun s =>
    let '(r, (w, o')) := m (s.1, o) in
    (match r with inl e => inl e | inr a => inr (a, o') end, (w, s.2)).
Definition within {O O' A} (get : O' -> O) (put : O -> O' -> O') (m : X O A) : X O' A :=
  fun s => let '(r, (w, o)) := m (s.1, get s.2) in (r, (w, put o s.2)).
(** Code that has no out parameter. *)
Definition silently {O A} (m : X unit A) : X O A :=
  fun s => let '(r, (w, _)) := m (s.1, tt) in (r, (w, s.2)).
(** Another connection object in the same world. *)
Definition on_other {O A} (c : C) (m : X O A) : X O A :=
  fun s =>
    let '(r, (w, o)) := m (mkWorld (w_env s.1) c (w_trace s.1), s.2) in
    (r, (mkWorld (w_env w) (w_conn s.1) (w_trace w), o)).
End Code.
Arguments Called : clear implicits.
Arguments World : clear implicits.
Arguments X : clear implicits.

Notation "x <~ m ; k" := (xbind m (fun x => k))
  (at level 100, m at next level, right associativity) : native_scope.
Notation "m ~; k" := (xbind m (fun _ => k)) (at level 100, right associativity) : native_scope.
Local Open Scope native_scope.

(** ** Assertions

    [spec P m Q]: from a world of [P], [m] ends in a world of [Q], which depends on
    how it ended; a loop that the fuel leaves running leaves a world of [Safe]. *)
Section Spec.
Context {Call : Type -> Type} {E C : Type} (Safe : World Call E C -> Prop).
#[local] Abbreviation W := (World Call E C).

Definition outcome {A} (Q : Exit + A -> W -> Prop) (r : Exit + A) (w : W) : Prop :=
  match r with inl Running => Safe w | r => Q r w end.
Definition spec {O A} (P : W -> Prop) (m : X Call E C O A) (Q : Exit + A -> W -> Prop) : Prop :=
  hoare (fun s => P s.1) m (fun r s => outcome Q r s.1).

Lemma spec_conseq {O A} (P P' : W -> Prop) Q Q' (m : X Call E C O A) :
  spec P m Q -> (forall w, P' w -> P w) -> (forall r w, Q r w -> Q' r w) -> spec P' m Q'.
Proof.
  intros H HP HQ s Hs. specialize (H s (HP _ Hs)). unfold outcome in *.
  destruct (m s).1 as [[]|]; auto.
Qed.
Lemma spec_pre {O A} (P P' : W -> Prop) Q (m : X Call E C O A) :
  (forall w, P' w -> P w) -> spec P m Q -> spec P' m Q.
Proof. intros HP H. eapply spec_conseq; eauto. Qed.
Lemma spec_post {O A} (P : W -> Prop) Q Q' (m : X Call E C O A) :
  (forall r w, Q r w -> Q' r w) -> spec P m Q -> spec P m Q'.
Proof. intros HQ H. eapply spec_conseq; eauto. Qed.
Lemma spec_false {O A} (P : W -> Prop) Q (m : X Call E C O A) : (forall w, ~ P w) -> spec P m Q.
Proof. intros H s Hs. by destruct (H s.1). Qed.
Lemma spec_fact {O A} (F : Prop) (P : W -> Prop) Q (m : X Call E C O A) :
  (F -> spec P m Q) -> spec (fun w => F /\ P w) m Q.
Proof. intros H s [HF Hs]. by apply H. Qed.

Lemma spec_ret {O A} (P : W -> Prop) Q (a : A) :
  (forall w, P w -> Q (inr a) w) -> spec P (xret (O := O) a) Q.
Proof. intros H s Hs. by apply H. Qed.
Lemma spec_early {O A} (P : W -> Prop) (Q : Exit + A -> W -> Prop) st :
  (forall w, P w -> Q (inl (Return st)) w) -> spec P (early (O := O) st) Q.
Proof. intros H s Hs. by apply H. Qed.
Lemma spec_running {O A} (P : W -> Prop) (Q : Exit + A -> W -> Prop) :
  (forall w, P w -> Safe w) -> spec P (leave (O := O) Running) Q.
Proof. intros H s Hs. by apply H. Qed.
Lemma spec_bind {O A B} (P : W -> Prop) M Q (m : X Call E C O A) (k : A -> X Call E C O B) :
  spec P m M -> (forall a, spec (M (inr a)) (k a) Q) ->
  (forall e w, e <> Running -> M (inl e) w -> Q (inl e) w) -> spec P (xbind m k) Q.
Proof.
  intros Hm Hk He s Hs. specialize (Hm s Hs). unfold xbind, outcome in *.
  destruct (m s) as [[e|a] s1]; cbn in *; [|by apply Hk].
  destruct e; [by apply He | by apply He | done].
Qed.
Lemma spec_body {O} (P : W -> Prop) Q (m : X Call E C O Status) :
  spec P m (fun r w => match r with inl (Return st) => Q (inr st) w | r => Q r w end) -> spec P (body m) Q.
Proof.
  intros Hm s Hs. specialize (Hm s Hs). unfold body, outcome in *.
  by destruct (m s) as [[[]|a] s1].
Qed.
Lemma spec_body_inv {O} (P I : W -> Prop) (m : X Call E C O Status) :
  spec P m (fun _ => I) -> spec P (body m) (fun _ => I).
Proof. intros H. apply spec_body. eapply spec_post; [|exact H]. by intros [[]|]. Qed.
Lemma spec_finally {O A} (P : W -> Prop) (M Q : Exit + A -> W -> Prop) (m : X Call E C O A) cleanup :
  spec P m M ->
  (forall r, spec (M r) cleanup (fun u w => match u with inr _ => Q r w | inl e => Q (inl e) w end)) ->
  spec P (finally m cleanup) Q.
Proof.
  intros Hm Hc s Hs. specialize (Hm s Hs). unfold finally, outcome in *.
  destruct (m s) as [r s1]. cbn in Hm.
  assert (forall r, M r s1.1 -> outcome Q r s1.1 \/ True) by auto.
  pose proof (fun H => Hc r s1 H) as Hr. unfold outcome in Hr.
  destruct r as [[st|what|]|a]; cbn in *; try done; specialize (Hr Hm);
    destruct (cleanup s1) as [[[]|[]] s2]; cbn in *; done.
Qed.
Lemma spec_on_conn {O A} (P : W -> Prop) Q (f : C -> A * C) :
  (forall w, P w -> Q (inr (f (w_conn w)).1) (mkWorld (w_env w) (f (w_conn w)).2 (w_trace w))) ->
  spec P (on_conn (O := O) f) Q.
Proof. intros H s Hs. specialize (H _ Hs). unfold on_conn. by destruct (f (w_conn s.1)). Qed.
Lemma spec_change {O} (P : W -> Prop) Q (f : C -> C) :
  (forall w, P w -> Q (inr tt) (mkWorld (w_env w) (f (w_conn w)) (w_trace w))) ->
  spec P (change (O := O) f) Q.
Proof. intros H. by apply spec_on_conn. Qed.
(** What is read of the connection is remembered. *)
Lemma spec_look {O A B} (P : W -> Prop) Q (f : C -> A) (k : A -> X Call E C O B) :
  (forall a, spec (fun w => P w /\ f (w_conn w) = a) (k a) Q) -> spec P (xbind (look f) k) Q.
Proof. intros H [[e c t] o] Hs. by apply (H (f c) (mkWorld e c t, o)). Qed.
Lemma spec_write {O} (P : W -> Prop) Q (f : O -> O) :
  (forall w, P w -> Q (inr tt) w) -> spec P (write f) Q.
Proof. intros H s Hs. by apply H. Qed.
Lemma spec_out {O A} (P : W -> Prop) Q (f : O -> A) :
  (forall a w, P w -> Q (inr a) w) -> spec P (out f) Q.
Proof. intros H s Hs. by apply H. Qed.
Lemma spec_check {O} (P : W -> Prop) Q st :
  (forall w, P w -> st_ok st = true -> Q (inr tt) w) ->
  (forall w, P w -> st_ok st = false -> Q (inl (Return st)) w) -> spec P (check (O := O) st) Q.
Proof. intros H1 H2 s Hs. unfold check. destruct (st_ok st) eqn:Est; [by apply H1 | by apply H2]. Qed.
Lemma spec_local {O O' A} (P : W -> Prop) Q o (m : X Call E C O A) :
  (spec P m (fun r w => match r with inl e => Q (inl e) w | inr a => forall o, Q (inr (a, o)) w end)) ->
  spec P (with_local (O' := O') o m) Q.
Proof.
  intros Hm s Hs. specialize (Hm (s.1, o) Hs). unfold with_local, outcome in *.
  destruct (m (s.1, o)) as [[[]|a] [w o']]; cbn in *; done || apply Hm.
Qed.
Lemma spec_within {O O' A} (P : W -> Prop) Q get put (m : X Call E C O A) :
  spec P m Q -> spec P (within (O' := O') get put m) Q.
Proof.
  intros Hm s Hs. specialize (Hm (s.1, get s.2) Hs). unfold within.
  by destruct (m (s.1, get s.2)) as [r [w o]].
Qed.
Lemma spec_silently {O A} (P : W -> Prop) Q (m : X Call E C unit A) :
  spec P m Q -> spec P (silently (O := O) m) Q.
Proof.
  intros Hm s Hs. specialize (Hm (s.1, tt) Hs). unfold silently, outcome in *.
  by destruct (m (s.1, tt)) as [r [w []]].
Qed.
(** The other connection object starts as [c]; the first one comes back. *)
Lemma spec_on_other {O A} (P : W -> Prop) Q c (m : X Call E C O A) :
  (forall w c, Safe w -> Safe (mkWorld (w_env w) c (w_trace w))) ->
  (forall c0, spec (fun w => w_conn w = c /\ P (mkWorld (w_env w) c0 (w_trace w))) m
     (fun r w => Q r (mkWorld (w_env w) c0 (w_trace w)))) ->
  spec P (on_other c m) Q.
Proof.
  intros HS Hm [[e c0 t] o] Hs. specialize (Hm c0 (mkWorld e c t, o) (conj eq_refl Hs)).
  unfold on_other, outcome in *. cbn in *.
  destruct (m (mkWorld e c t, o)) as [[[]|a] [w o']]; cbn in *; auto.
Qed.

Context `{!Library Call E}.
(** The world after a call. *)
Definition called {A} (w : W) (c : Call A) : W :=
  mkWorld (native c (w_env w)).2 (w_conn w)
    (w_trace w ++ [mkCalled (w_conn w) A c (native c (w_env w)).1]).
Lemma lib_called {O A} (c : Call A) w (o : O) :
  lib c (w, o) = (inr (native c (w_env w)).1, (called w c, o)).
Proof. unfold lib, called. cbn. by destruct (native c (w_env w)). Qed.
Lemma exit_bind_inr {O A B} (m : X Call E C O A) (k : A -> X Call E C O B) s a s' :
  m s = (inr a, s') -> xbind m k s = k a s'.
Proof. intros H. unfold xbind. by rewrite H. Qed.
Lemma xbind_lib {O A B} (c : Call A) (k : A -> X Call E C O B) w o :
  xbind (lib c) k (w, o) = k (native c (w_env w)).1 (called w c, o).
Proof. apply exit_bind_inr, lib_called. Qed.
Lemma spec_lib {O A} (P : W -> Prop) Q (c : Call A) :
  (forall w, P w -> Q (inr (native c (w_env w)).1) (called w c)) -> spec P (lib (O := O) c) Q.
Proof. intros H [w o] Hs. rewrite lib_called. by apply H. Qed.
Lemma spec_call_back {O A} (P : W -> Prop) Q (f : ST E (str + A)) :
  (forall w r e, P w -> f (w_env w) = (r, e) ->
     Q (match r with inl what => inl (Throw what) | inr a => inr a end) (mkWorld e (w_conn w) (w_trace w))) ->
  spec P (call_back (O := O) f) Q.
Proof.
  intros H s Hs. unfold call_back, outcome. destruct (f (w_env s.1)) as [r e] eqn:Ef.
  specialize (H _ _ _ Hs Ef). by destruct r.
Qed.
End Spec.

(** ** What code leaves as it is

    [leaves f m]: [m] does not change what [f] sees of the connection and of the out
    parameter. *)
Section Leaves.
Context {Call : Type -> Type} {E C O B : Type} (f : C -> O -> B).
#[local] Abbreviation X := (X Call E C).
Definition leaves {A} (m : X O A) : Prop := preserves (fun s => f (w_conn s.1) s.2) m.
Lemma lv_ret {A} (r : Exit + A) : leaves (ret r).
Proof. done. Qed.
Lemma lv_bind {A A'} (m : X O A) (k : A -> X O A') : leaves m -> (forall a, leaves (k a)) -> leaves (xbind m k).
Proof.
  intros Hm Hk s. specialize (Hm s). unfold xbind. destruct (m s) as [[e|a] s1]; cbn in *; [done|].
  by rewrite (Hk a s1).
Qed.
Lemma lv_body (m : X O Status) : leaves m -> leaves (body m).
Proof. intros Hm s. specialize (Hm s). unfold body. by destruct (m s) as [[[]|] s1]. Qed.
Lemma lv_finally {A} (m : X O A) cleanup : leaves m -> leaves cleanup -> leaves (finally m cleanup).
Proof.
  intros Hm Hc s. specialize (Hm s). unfold finally. destruct (m s) as [[[st|x|]|a] s1]; cbn in *; try done;
    specialize (Hc s1); destruct (cleanup s1) as [[?|[]] s2]; cbn in *; congruence.
Qed.
Lemma lv_on_conn {A} (g : C -> A * C) : (forall c o, f (g c).2 o = f c o) -> leaves (on_conn g).
Proof. intros Hg s. specialize (Hg (w_conn s.1) s.2). unfold on_conn. by destruct (g (w_conn s.1)). Qed.
Lemma lv_look {A} (g : C -> A) : leaves (look g).
Proof. by apply lv_on_conn. Qed.
Lemma lv_change (g : C -> C) : (forall c o, f (g c) o = f c o) -> leaves (change g).
Proof. intros Hg. by apply lv_on_conn. Qed.
Lemma lv_write (g : O -> O) : (forall c o, f c (g o) = f c o) -> leaves (write g).
Proof. intros Hg s. apply Hg. Qed.
Lemma lv_out {A} (g : O -> A) : leaves (out g).
Proof. done. Qed.
Lemma lv_check st : leaves (check st).
Proof. unfold check. by destruct (st_ok st). Qed.
Lemma lv_call_back {A} (g : ST E (str + A)) : leaves (call_back g).
Proof. intros s. unfold call_back. by destruct (g (w_env s.1)). Qed.
Context `{!Library Call E}.
Lemma lv_lib {A} (c : Call A) : leaves (lib c).
Proof. intros s. unfold lib. by destruct (native c (w_env s.1)). Qed.
End Leaves.

(** ** Handles

    A call may open a handle, close one, and use others; [alloc e] are the handles
    the library has given out. A lawful library gives out handles that are not in
    use. *)
Class Handles (Call : Type -> Type) (R : Type) := {
  opened : forall A, Call A -> A -> option R;
  closed : forall A, Call A -> option R;
  used : forall A, Call A -> list R;
}.
Arguments opened {Call R _ A} c a.
Arguments closed {Call R _ A} c.
Arguments used {Call R _ A} c.

Class LawfulLibrary (Call : Type -> Type) (E R : Type) `{Countable R} `{!Library Call E} `{!Handles Call R}
    (alloc : E -> gset R) := {
  fresh_handles : forall A (c : Call A) e r,
    opened c (native c e).1 = Some r -> r ∉ alloc e /\ r ∈ alloc (native c e).2;
  handles_stay : forall A (c : Call A) e r,
    r ∈ alloc e -> closed c <> Some r -> r ∈ alloc (native c e).2;
}.

Section Live.
Context {Call : Type -> Type} {E C R : Type} `{Countable R} `{!Handles Call R}.
#[local] Abbreviation W := (World Call E C).

Definition d_opened (d : Called Call C) : option R := opened (cd_call d) (cd_answer d).
Definition d_closed (d : Called Call C) : option R := closed (cd_call d).
Definition live_step (l : gset R) (d : Called Call C) : gset R :=
  option_to_set (d_opened d) ∪ l ∖ option_to_set (d_closed d).
Definition live (t : list (Called Call C)) : gset R := fold_left live_step t ∅.

(** Every call satisfies [P], given the calls before it. *)
Definition trace_all (P : list (Called Call C) -> Called Call C -> Prop) (t : list (Called Call C)) : Prop :=
  forall t1 d t2, t = t1 ++ d :: t2 -> P t1 d.
(** A call uses live handles, and closes a live one. *)
Definition step_safe (l : gset R) (d : Called Call C) : Prop :=
  Forall (fun r => r ∈ l) (used (cd_call d)) /\ option_to_set (d_closed d) ⊆ l.
Definition trace_safe : list (Called Call C) -> Prop := trace_all (fun t d => step_safe (live t) d).

Lemma live_snoc t d : live (t ++ [d]) = live_step (live t) d.
Proof. unfold live. by rewrite fold_left_app. Qed.
Lemma trace_all_nil P : trace_all P [].
Proof. intros t1 d t2 Ht. by destruct t1. Qed.
Lemma trace_all_snoc P t d : trace_all P t -> P t d -> trace_all P (t ++ [d]).
Proof.
  intros Ht Hd t1 d' t2 E'. destruct t2 as [|d2 t2 _] using rev_ind.
  - apply app_inj_tail in E' as [-> ->]. done.
  - rewrite app_comm_cons, app_assoc in E'. apply app_inj_tail in E' as [-> ->]. by eapply Ht.
Qed.
Lemma trace_all_Forall (Q : Called Call C -> Prop) t : trace_all (fun _ => Q) t -> Forall Q t.
Proof.
  intros Ht. apply Forall_forall. intros d Hd. apply list_elem_of_In, in_split in Hd as (t1 & t2 & ->).
  by apply (Ht t1 d t2).
Qed.
End Live.
Arguments live : simpl never.
Arguments live_step : simpl never.

(** ** What is live

    [holds G w]: the live handles are [G], every call so far was made with live
    handles, and each satisfies [good] given those before it. *)
Section Holds.
Context {Call : Type -> Type} {E C R : Type} `{Countable R} `{!Library Call E} `{!Handles Call R}
  {alloc : E -> gset R} `{!LawfulLibrary Call E R alloc} (good : list (Called Call C) -> Called Call C -> Prop).
#[local] Abbreviation W := (World Call E C).

Record safe (w : W) : Prop := {
  sf_trace : trace_safe (w_trace w);
  sf_good : trace_all good (w_trace w);
}.
Record holds (G : gset R) (w : W) : Prop := {
  hd_live : live (w_trace w) = G;
  hd_alloc : G ⊆ alloc (w_env w);
  hd_safe : safe w;
}.

Lemma holds_call {A} (c : Call A) G w : holds G w ->
  Forall (fun r => r ∈ G) (used c) -> option_to_set (closed c) ⊆ G ->
  good (w_trace w) (mkCalled (w_conn w) A c (native c (w_env w)).1) ->
  holds (option_to_set (opened c (native c (w_env w)).1) ∪ G ∖ option_to_set (closed c)) (called w c).
Proof.
  intros [H1 H2 [H3 H4]] Hu Hc Hg. unfold called.
  split; [| |split]; cbn.
  - rewrite live_snoc. unfold live_step, d_opened, d_closed. cbn. by rewrite H1.
  - intros r Hr. apply elem_of_union in Hr as [Hr|Hr].
    + apply elem_of_option_to_set in Hr. by apply fresh_handles in Hr as [_ Hr].
    + apply elem_of_difference in Hr as [Hr Hn]. apply handles_stay; [by apply H2|].
      intros E'. apply Hn. by apply elem_of_option_to_set.
  - apply trace_all_snoc; [done|]. unfold step_safe, d_closed. cbn. by rewrite H1.
  - by apply trace_all_snoc.
Qed.
(** A handle that a call opens is new. *)
Lemma holds_fresh {A} (c : Call A) G w r : holds G w ->
  opened c (native c (w_env w)).1 = Some r -> r ∉ G.
Proof. intros [_ H2 _] Hr HG. apply fresh_handles in Hr as [Hr _]. by apply Hr, H2. Qed.

Lemma holds_conn G c w : holds G w -> holds G (mkWorld (w_env w) c (w_trace w)).
Proof. intros [H1 H2 [H3 H4]]. split; [exact H1 | exact H2 | by split]. Qed.
Lemma holds_env G e w : holds G w -> alloc (w_env w) ⊆ alloc e -> holds G (mkWorld e (w_conn w) (w_trace w)).
Proof. intros [H1 H2 [H3 H4]] Ha. split; [exact H1 | cbn; set_solver | by split]. Qed.
Lemma holds_equiv G G' w : holds G w -> G ≡ G' -> holds G' w.
Proof. intros Hw Eq. by apply leibniz_equiv in Eq as <-. Qed.
Lemma holds_safe G w : holds G w -> safe w.
Proof. by intros []. Qed.
Lemma safe_other w c : safe w -> safe (mkWorld (w_env w) c (w_trace w)).
Proof. intros [H1 H2]. by split. Qed.
End Holds.
Arguments holds {Call E C R _ _ _} alloc good G w.
