(* ===== verification/Books.v ===== *)
(** * The books of a driver over a client library

    What the theorems on drivers over C libraries share ([MysqlBooks]): assertions on which handles live, what the driver should know of the server and
    how its connection is ([at_]); code that leaves all this as it is ([plain]); what a
    scope opens and closes; the handles a connection and its cursors own; and the
    cache of prepared statements, which gives back what it drops. *)
From stdpp Require Import base gmap sets list strings.
From Stdlib Require Import Ascii ZArith Lia.
From S2P Require Import Prelude Types Prepared Native.

#[local] Open Scope native_scope.

Create HintDb books.

(** ** Assertions *)
Section Books.
Context {Call : Type -> Type} {E C R T : Type} `{Countable R} `{!Library Call E} `{!Handles Call R}
  {alloc : E -> gset R} `{!LawfulLibrary Call E R alloc}.
(** [good]: what every call must satisfy, given the calls before it; [entry]: what a
    call and its answer change of what the server is known to do. *)
Context (good : list (Called Call C) -> Called Call C -> Prop) (entry : forall A, Call A -> A -> T -> T) (start : T).
#[local] Abbreviation W := (World Call E C).
#[local] Abbreviation X := (X Call E C).
#[local] Abbreviation Safe := (safe (E := E) (R := R) good).

Definition enter_call (l : T) (d : Called Call C) : T := entry _ (cd_call d) (cd_answer d) l.
Definition ledger (t : list (Called Call C)) : T := fold_left enter_call t start.
Lemma ledger_snoc t d : ledger (t ++ [d]) = enter_call (ledger t) d.
Proof. unfold ledger. by rewrite fold_left_app. Qed.

Definition at_ (G : gset R) (l : T) (c : C) (w : W) : Prop :=
  holds alloc good G w /\ ledger (w_trace w) = l /\ w_conn w = c.
(** [m] leaves handles, ledger and connection as they are. *)
Definition plain {O A} (G : gset R) (l : T) (c : C) (m : X O A) : Prop :=
  spec Safe (at_ G l c) m (fun _ => at_ G l c).
(** The call may be made when [G] are the live handles. *)
Definition allowed {A} (G : gset R) (c : C) (call : Call A) : Prop :=
  forall t a, live t = G -> good t (mkCalled c A call a).
(** A call that opens and closes nothing, and changes nothing of the ledger. *)
Record plain_call {A} (call : Call A) : Prop := {
  pc_opened : forall a, opened (R := R) call a = None;
  pc_closed : closed (R := R) call = None;
  pc_entry : forall a l, entry _ call a l = l;
}.

Lemma at_safe G l c w : at_ G l c w -> Safe w.
Proof. intros [Hw _]. by eapply holds_safe. Qed.
Lemma at_equiv G G' l c w : at_ G l c w -> G ≡ G' -> at_ G' l c w.
Proof. intros (H1 & H2) Eq. split; [by eapply holds_equiv | done]. Qed.
Lemma at_conn c' G l c w : at_ G l c w -> at_ G l c' (mkWorld (w_env w) c' (w_trace w)).
Proof. intros (H1 & H2 & _). split; [by apply holds_conn | done]. Qed.
(** The connection of an assertion is the world's. *)
Lemma at_change f G l c w : at_ G l c w -> at_ G l (f c) (mkWorld (w_env w) (f (w_conn w)) (w_trace w)).
Proof. intros Hw. pose proof Hw as (_ & _ & ->). by eapply at_conn. Qed.

(** A call, in general. *)
Lemma at_call {A} (c : Call A) G l k w : at_ G l k w ->
  Forall (fun r => r ∈ G) (used c) -> option_to_set (closed c) ⊆ G -> allowed G k c ->
  at_ (option_to_set (opened c (native c (w_env w)).1) ∪ G ∖ option_to_set (closed c))
      (entry _ c (native c (w_env w)).1 l) k (called w c).
Proof.
  intros (H1 & <- & <-) Hu Hc He. split.
  - apply holds_call; [done..|]. apply He, H1.
  - split; [|done]. exact (ledger_snoc _ _).
Qed.
Lemma at_plain_call {A} (c : Call A) G l k w : plain_call c -> at_ G l k w ->
  Forall (fun r => r ∈ G) (used c) -> allowed G k c -> at_ G l k (called w c).
Proof.
  intros [H1 H2 H3] Hw Hu He. pose proof (at_call c G l k w Hw Hu) as Ha.
  rewrite H1, H2, H3 in Ha. eapply at_equiv; [apply Ha; [set_solver | done]|]. set_solver.
Qed.

Lemma spec_run {O A} P Q (m : X O A) w o r w' o' : spec Safe P m Q -> P w -> m (w, o) = (r, (w', o')) ->
  r <> inl Running -> Q r w'.
Proof.
  intros Hm Hw Em Hr. specialize (Hm (w, o) Hw). rewrite Em in Hm. unfold outcome in Hm. cbn in Hm.
  destruct r as [[]|]; done.
Qed.
(** [m] goes on, and then [M] holds. *)
Definition goes {O A} (P : W -> Prop) (m : X O A) (M : A -> W -> Prop) : Prop :=
  spec Safe P m (fun r w => match r with inr a => M a w | inl _ => False end).
Lemma spec_goes {O A B} P M Q (m : X O A) (k : A -> X O B) :
  goes P m M -> (forall a, spec Safe (M a) (k a) Q) -> spec Safe P (xbind m k) Q.
Proof. intros Hm Hk. eapply spec_bind; [exact Hm | exact Hk | by intros e w _ []]. Qed.
Lemma goes_bind {O A B} P M Q (m : X O A) (k : A -> X O B) :
  goes P m M -> (forall a, goes (M a) (k a) Q) -> goes P (xbind m k) Q.
Proof. apply spec_goes. Qed.
Lemma goes_post {O A} (P : W -> Prop) (M Q : A -> W -> Prop) (m : X O A) :
  (forall a w, M a w -> Q a w) -> goes P m M -> goes P m Q.
Proof. intros Hm. apply spec_post. by intros []; auto. Qed.
Lemma goes_ret {O A} (P : W -> Prop) (M : A -> W -> Prop) (a : A) :
  (forall w, P w -> M a w) -> goes P (xret (O := O) a) M.
Proof. intros Hm. by apply spec_ret. Qed.
Lemma goes_change {O} f G l c : goes (at_ G l c) (change (O := O) f) (fun _ => at_ G l (f c)).
Proof. apply spec_change. intros w. apply at_change. Qed.
Lemma goes_write {O} P (f : O -> O) : goes P (write f) (fun _ => P).
Proof. by apply spec_write. Qed.
Lemma spec_change_bind {O A} f G l c (k : unit -> X O A) Q :
  spec Safe (at_ G l (f c)) (k tt) Q -> spec Safe (at_ G l c) (xbind (change f) k) Q.
Proof. intros Hk. eapply spec_goes; [apply goes_change|]. by intros []. Qed.
Lemma spec_write_bind {O A} f P (k : unit -> X O A) Q :
  spec Safe P (k tt) Q -> spec Safe P (xbind (write f) k) Q.
Proof. intros Hk. eapply spec_goes; [apply goes_write|]. by intros []. Qed.
(** What is read of the connection is what the assertion says. *)
Lemma spec_look_at {O A B} G l c (f : C -> A) (k : A -> X O B) Q :
  spec Safe (at_ G l c) (k (f c)) Q -> spec Safe (at_ G l c) (xbind (look f) k) Q.
Proof.
  intros Hk. apply spec_look. intros a [w o] [Hw <-]. pose proof Hw as (_ & _ & Hc). rewrite Hc. by apply Hk.
Qed.
Lemma spec_on_conn_at {O A B} G l c (f : C -> A * C) (k : A -> X O B) Q :
  spec Safe (at_ G l (f c).2) (k (f c).1) Q -> spec Safe (at_ G l c) (xbind (on_conn f) k) Q.
Proof.
  intros Hk. eapply (spec_goes _ (fun a w => a = (f c).1 /\ at_ G l (f c).2 w)).
  - apply spec_on_conn. intros w Hw. pose proof Hw as (_ & _ & ->). split; [done|]. by eapply at_conn.
  - intros a. by apply spec_fact; intros ->.
Qed.

(** *** Plain code *)
Section Plain.
Context (G : gset R) (l : T) (c : C) {O : Type}.
Lemma p_ret {A} (a : A) : plain G l c (xret (O := O) a).
Proof. by apply spec_ret. Qed.
Lemma p_early {A} st : plain G l c (early (O := O) (A := A) st).
Proof. by apply spec_early. Qed.
Lemma p_running {A} : plain G l c (leave (O := O) (A := A) Running).
Proof. apply spec_running. intros w. apply at_safe. Qed.
Lemma p_bind {A B} (m : X O A) (k : A -> X O B) :
  plain G l c m -> (forall a, plain G l c (k a)) -> plain G l c (xbind m k).
Proof. intros Hm Hk. by eapply spec_bind. Qed.
Lemma p_body (m : X O Status) : plain G l c m -> plain G l c (body m).
Proof. apply spec_body_inv. Qed.
Lemma p_finally {A} (m : X O A) cleanup : plain G l c m -> plain G l c cleanup -> plain G l c (finally m cleanup).
Proof.
  intros Hm Hc. eapply spec_finally; [exact Hm|]. intros r. eapply spec_post; [|exact Hc]. by intros [].
Qed.
Lemma p_look {A B} (f : C -> A) (k : A -> X O B) : plain G l c (k (f c)) -> plain G l c (xbind (look f) k).
Proof. apply spec_look_at. Qed.
Lemma p_write (f : O -> O) : plain G l c (write f).
Proof. by apply spec_write. Qed.
Lemma p_out {A} (f : O -> A) : plain G l c (out f).
Proof. by apply spec_out. Qed.
Lemma p_check st : plain G l c (check (O := O) st).
Proof. by apply spec_check. Qed.
Lemma p_lib {A} (call : Call A) : plain_call call -> Forall (fun r => r ∈ G) (used call) ->
  allowed G c call -> plain G l c (lib (O := O) call).
Proof. intros Hp Hu He. apply spec_lib. intros w Hw. by apply at_plain_call. Qed.
Lemma p_call_back {A} (f : ST E (str + A)) : (forall e, alloc e ⊆ alloc (f e).2) -> plain G l c (call_back (O := O) f).
Proof.
  intros Ht. apply spec_call_back. intros w r e (H1 & H2 & H3) Ef.
  specialize (Ht (w_env w)). rewrite Ef in Ht. split; [by apply holds_env | done].
Qed.
End Plain.
Lemma p_local {O O' A} G l c o (m : X O A) : plain G l c m -> plain G l c (with_local (O' := O') o m).
Proof. intros Hm. apply spec_local. eapply spec_post; [|exact Hm]. by intros []. Qed.
Lemma p_within {O O' A} G l c get put (m : X O A) : plain G l c m -> plain G l c (within (O' := O') get put m).
Proof. intros Hm. by apply spec_within. Qed.
Lemma p_silently {O A} G l c (m : X unit A) : plain G l c m -> plain G l c (silently (O := O) m).
Proof. apply spec_silently. Qed.

(** Code that always goes on. *)
Definition returns {O A} (G : gset R) (l : T) (c : C) (m : X O A) : Prop := goes (at_ G l c) m (fun _ => at_ G l c).
Lemma r_ret {O A} G l c (a : A) : returns G l c (xret (O := O) a).
Proof. by apply goes_ret. Qed.
Lemma r_bind {O A B} G l c (m : X O A) (k : A -> X O B) :
  returns G l c m -> (forall a, returns G l c (k a)) -> returns G l c (xbind m k).
Proof. intros Hm Hk. by eapply goes_bind. Qed.
Lemma r_look {O A B} G l c (f : C -> A) (k : A -> X O B) : returns G l c (k (f c)) -> returns G l c (xbind (look f) k).
Proof. apply spec_look_at. Qed.
Lemma r_lib {O A} G l c (call : Call A) : plain_call call -> Forall (fun r => r ∈ G) (used call) ->
  allowed G c call -> returns G l c (lib (O := O) call).
Proof. intros Hp Hu He. apply spec_lib. intros w Hw. by apply at_plain_call. Qed.
Lemma r_plain {O A} G l c (m : X O A) : returns G l c m -> plain G l c m.
Proof. apply spec_post. by intros []. Qed.
Lemma spec_returns {O A B} G l c (m : X O A) (k : A -> X O B) Q :
  returns G l c m -> (forall a, spec Safe (at_ G l c) (k a) Q) -> spec Safe (at_ G l c) (xbind m k) Q.
Proof. apply spec_goes. Qed.
(** Plain code that may end the function. *)
Lemma spec_plain {O A B} G l c (m : X O A) (k : A -> X O B) Q :
  plain G l c m -> (forall a, spec Safe (at_ G l c) (k a) Q) ->
  (forall e w, e <> Running -> at_ G l c w -> Q (inl e) w) -> spec Safe (at_ G l c) (xbind m k) Q.
Proof. intros Hm Hk He. by eapply spec_bind. Qed.

(** *** What a scope opens and closes *)
Definition got {A} (call : Call A) (a : A) : gset R := option_to_set (opened call a).
Lemma goes_open {O A} G l c (call : Call A) :
  closed (R := R) call = None -> (forall a l, entry _ call a l = l) ->
  Forall (fun r => r ∈ G) (used call) -> allowed G c call ->
  goes (at_ G l c) (lib (O := O) call) (fun a w => got call a ## G /\ at_ (got call a ∪ G) l c w).
Proof.
  intros Hc Ht Hu He. apply spec_lib. intros w Hw. split.
  - intros r Hr HG. apply elem_of_option_to_set in Hr. destruct Hw as (H1 & _).
    by apply (holds_fresh _ _ _ _ _ H1 Hr).
  - pose proof (at_call call G l c w Hw Hu) as Ha. rewrite Hc, Ht in Ha. cbn [option_to_set] in Ha.
    eapply at_equiv; [apply Ha; [set_solver | done]|]. unfold got. set_solver.
Qed.
Lemma p_open {O A B} G l c (call : Call A) (k : A -> X O B) Q :
  closed (R := R) call = None -> (forall a l, entry _ call a l = l) ->
  Forall (fun r => r ∈ G) (used call) -> allowed G c call ->
  (forall a, got call a ## G -> spec Safe (at_ (got call a ∪ G) l c) (k a) Q) ->
  spec Safe (at_ G l c) (xbind (lib call) k) Q.
Proof.
  intros Hc Ht Hu He Hk. eapply spec_goes; [by apply goes_open|]. intros a. by apply spec_fact, Hk.
Qed.
(** [rel] closes [o]. *)
Definition releases {O} (o G : gset R) l c (rel : X O unit) : Prop :=
  goes (at_ (o ∪ G) l c) rel (fun _ => at_ G l c).
Lemma p_closing {O A} o G l c (m : X O A) rel :
  plain (o ∪ G) l c m -> releases o G l c rel -> spec Safe (at_ (o ∪ G) l c) (finally m rel) (fun _ => at_ G l c).
Proof.
  intros Hm Hr. eapply spec_finally; [exact Hm|]. intros r. eapply spec_post; [|exact Hr]. by intros [].
Qed.
(** As [p_closing], for code that changes the rest, too. *)
Lemma finally_closing {O A} (P : W -> Prop) o G l c (m : X O A) rel (M : Exit + A -> Prop) :
  spec Safe P m (fun r w => M r /\ at_ (o ∪ G) l c w) -> releases o G l c rel ->
  spec Safe P (finally m rel) (fun r w => M r /\ at_ G l c w).
Proof.
  intros Hm Hr. eapply spec_finally; [exact Hm|]. intros r. apply spec_fact. intros HM.
  eapply spec_post; [|exact Hr]. by intros [].
Qed.
Lemma closing_call {A} (call : Call A) r G l k w : at_ ({[r]} ∪ G) l k w -> closed call = Some r -> r ∉ G ->
  (forall a, opened (R := R) call a = None) -> used call = [] -> allowed ({[r]} ∪ G) k call ->
  at_ G (entry _ call (native call (w_env w)).1 l) k (called w call).
Proof.
  intros Hw Hc Hr Ho Hu He. pose proof (at_call call ({[r]} ∪ G) l k w Hw) as Ha. rewrite Hc, Ho, Hu in Ha.
  eapply at_equiv; [apply Ha; [constructor | set_solver | done]|]. set_solver.
Qed.
Lemma goes_closing {O A} (call : Call A) r G l c : closed call = Some r -> r ∉ G ->
  (forall a, opened (R := R) call a = None) -> (forall a l, entry _ call a l = l) -> used call = [] ->
  allowed ({[r]} ∪ G) c call -> goes (at_ ({[r]} ∪ G) l c) (lib (O := O) call) (fun _ => at_ G l c).
Proof.
  intros Hc Hr Ho Ht Hu He. apply spec_lib. intros w Hw.
  pose proof (closing_call call r G l c w Hw) as Ha. rewrite Ht in Ha. by apply Ha.
Qed.
Lemma lib_releases {O} (call : Call unit) r G l c : closed call = Some r -> r ∉ G ->
  (forall a, opened (R := R) call a = None) -> (forall a l, entry _ call a l = l) -> used call = [] ->
  allowed ({[r]} ∪ G) c call -> releases {[r]} G l c (lib (O := O) call).
Proof. apply goes_closing. Qed.
Lemma releases_nothing {O} o G l c : o ≡ ∅ -> releases o G l c (xret (O := O) tt).
Proof. intros Ho. apply goes_ret. intros w Hw. eapply at_equiv; [exact Hw|]. set_solver. Qed.
End Books.
Arguments ledger {Call C T} entry start t.
Arguments ledger : simpl never.
Arguments got : simpl never.
Arguments at_call {Call E C R T _ _ _ _ alloc _ good entry start A} c G l k w.
Arguments at_conn {Call E C R T _ _ _ alloc good entry start} c' G l c w.
Arguments at_change {Call E C R T _ _ _ alloc good entry start} f G l c w.
Arguments closing_call {Call E C R T _ _ _ _ alloc _ good entry start A} call r G l k w.

(** The side conditions of plain calls, and the steps through plain code. *)
Ltac allow := first [ assumption | by intros ? ? ? [=] | by intros ? ? ? ? | by intros ? ? ? | by eauto with books ].
Ltac plain_side :=
  first [ by split | by (constructor; [assumption | constructor]) | allow | by constructor ].
Ltac plain :=
  repeat first
    [ solve [auto 4 with books] | apply p_ret | apply p_early | apply p_write | apply p_out | apply p_check
    | apply p_running | apply p_lib; [plain_side..]
    | apply p_look | apply p_bind; [|intros ?] | apply p_finally | apply p_body | apply p_local | apply p_within
    | progress cbv zeta
    | match goal with
      | |- plain _ _ _ _ _ _ (if ?b then _ else _) => destruct b
      | |- plain _ _ _ _ _ _ (match ?o with Some _ => _ | None => _ end) => destruct o
      | |- plain _ _ _ _ _ _ (let '(_, _) := ?p in _) => destruct p
      end ].
Ltac returns :=
  repeat first
    [ solve [auto 4 with books] | apply r_ret | apply r_lib; [plain_side..] | apply r_look | apply r_bind; [|intros ?]
    | match goal with
      | |- returns _ _ _ _ _ _ (if ?b then _ else _) => destruct b
      | |- returns _ _ _ _ _ _ (match ?o with Some _ => _ | None => _ end) => destruct o
      end ].

(** ** What a connection owns

    [owned]: its handles; [known]: what it takes the server to do; [ok]: its own
    invariant. [inv L]: besides, the handles [L] live, of cursors and running code. *)
Section Owner.
Context {Call : Type -> Type} {E C R T : Type} `{Countable R} `{!Library Call E} `{!Handles Call R}
  {alloc : E -> gset R} `{!LawfulLibrary Call E R alloc}.
Context (good : list (Called Call C) -> Called Call C -> Prop) (entry : forall A, Call A -> A -> T -> T) (start : T)
  (owned : C -> list R) (known : C -> T) (ok : C -> Prop).
#[local] Abbreviation W := (World Call E C).
#[local] Abbreviation X := (X Call E C).
#[local] Abbreviation Safe := (safe (E := E) (R := R) good).
#[local] Abbreviation at_ := (at_ (alloc := alloc) good entry start).

Definition inv (L : list R) (w : W) : Prop :=
  exists c, at_ (list_to_set (owned c ++ L)) (known c) c w /\ NoDup (owned c ++ L) /\ ok c.
Definition keeps_books {O A} (m : X O A) : Prop := forall L, spec Safe (inv L) m (fun _ => inv L).

Lemma inv_safe L w : inv L w -> Safe w.
Proof. intros (c & Hw & _). by eapply at_safe. Qed.
Lemma spec_inv {O A} L Q (m : X O A) :
  (forall c, NoDup (owned c ++ L) -> ok c ->
     spec Safe (at_ (list_to_set (owned c ++ L)) (known c) c) m Q) -> spec Safe (inv L) m Q.
Proof. intros Hm s (c & Hw & Hn & Hc). by apply (Hm c Hn Hc). Qed.
Lemma plain_books {O A} (m : X O A) :
  (forall G l c, ok c -> list_to_set (owned c) ⊆ G -> plain (alloc := alloc) good entry start G l c m) -> keeps_books m.
Proof.
  intros Hm L. apply spec_inv. intros c Hn Hc. eapply spec_post; [|apply Hm; [exact Hc | set_solver]].
  intros r w Hw. by exists c.
Qed.
Lemma inv_perm L L' w : L ≡ₚ L' -> inv L w -> inv L' w.
Proof.
  intros HL (c & Hw & Hn & Hc). exists c. split; [|by rewrite <- HL].
  eapply at_equiv; [exact Hw|]. by rewrite HL.
Qed.
Lemma spec_body_books {O} (m : X O Status) : keeps_books m -> keeps_books (body m).
Proof. intros Hm L. apply spec_body_inv, Hm. Qed.
Lemma books_bind {O A B} (m : X O A) (k : A -> X O B) :
  keeps_books m -> (forall a, keeps_books (k a)) -> keeps_books (xbind m k).
Proof. intros Hm Hk L. eapply spec_bind; [apply Hm | intros a; apply Hk | done]. Qed.
Lemma books_write {O} (f : O -> O) : keeps_books (write f).
Proof. intros L. by apply spec_write. Qed.

(** *** Cursors *)
Section Cursors.
Context {K : Type} (handles : K -> list R) (k_ok : K -> Prop).
Definition all_handles (ks : list K) : list R := concat (map handles ks).
Lemma all_handles_middle ks k ks' : all_handles (ks ++ k :: ks') ≡ₚ handles k ++ all_handles (ks ++ ks').
Proof.
  unfold all_handles. rewrite !map_app, !concat_app. cbn. rewrite !app_assoc. f_equiv. apply Permutation_app_comm.
Qed.
Definition session_inv (s : W * list K) : Prop := inv (all_handles s.2) s.1 /\ Forall k_ok s.2.

Lemma owned_middle c ks k ks' :
  owned c ++ all_handles (ks ++ k :: ks') ≡ₚ handles k ++ owned c ++ all_handles (ks ++ ks').
Proof. rewrite all_handles_middle, !app_assoc. f_equiv. apply Permutation_app_comm. Qed.
(** One cursor set apart, and put back. *)
Lemma session_take ks k ks' w : inv (all_handles (ks ++ k :: ks')) w ->
  exists c, at_ (list_to_set (handles k) ∪ list_to_set (owned c ++ all_handles (ks ++ ks'))) (known c) c w
    /\ list_to_set (C := gset R) (handles k) ## list_to_set (owned c ++ all_handles (ks ++ ks'))
    /\ NoDup (handles k) /\ NoDup (owned c ++ all_handles (ks ++ ks')) /\ ok c.
Proof.
  intros (c & Hw & Hn & Hc). exists c. rewrite owned_middle in Hn. apply NoDup_app in Hn as (H1 & H2 & H3).
  split; [eapply at_equiv; [exact Hw|]; by rewrite owned_middle, list_to_set_app|].
  split; [|done]. intros r Hr Hr'. rewrite elem_of_list_to_set in Hr, Hr'. by apply (H2 r).
Qed.
Lemma session_put ks k ks' c w :
  at_ (list_to_set (handles k) ∪ list_to_set (owned c ++ all_handles (ks ++ ks'))) (known c) c w ->
  list_to_set (C := gset R) (handles k) ## list_to_set (owned c ++ all_handles (ks ++ ks')) ->
  NoDup (handles k) -> NoDup (owned c ++ all_handles (ks ++ ks')) -> ok c ->
  inv (all_handles (ks ++ k :: ks')) w.
Proof.
  intros Hw Hd Hk Hn Hc. exists c. split; [|split; [|done]].
  - eapply at_equiv; [exact Hw|]. by rewrite owned_middle, (list_to_set_app (handles k)).
  - rewrite owned_middle. apply NoDup_app. split; [done|]. split; [|done].
    intros r Hr Hr'. apply (Hd r); by rewrite elem_of_list_to_set.
Qed.
(** A cursor with the same handles after code that leaves them. *)
Lemma session_same ks k k' ks' w : handles k' = handles k -> k_ok k' ->
  inv (all_handles (ks ++ k :: ks')) w -> Forall k_ok (ks ++ k :: ks') -> session_inv (w, ks ++ k' :: ks').
Proof.
  intros Eh Hk' Hi Hks. split; cbn [fst snd].
  - eapply inv_perm; [|exact Hi]. by rewrite (all_handles_middle ks k), (all_handles_middle ks k'), Eh.
  - apply Forall_app in Hks as [H1 H2]. apply Forall_app. split; [done|]. inversion H2. by constructor.
Qed.
(** A cursor that has given its handles back. *)
Lemma session_closed ks k k' ks' w : handles k' = [] -> k_ok k' ->
  inv (all_handles (ks ++ ks')) w -> Forall k_ok (ks ++ k :: ks') ->
  session_inv (w, ks ++ k' :: ks') /\ session_inv (w, ks ++ ks').
Proof.
  intros Eh Hk' Hi Hks. apply Forall_app in Hks as [H1 H2]. inversion H2 as [|? ? _ H3]; subst.
  split; (split; cbn [fst snd]; [|apply Forall_app; split; [exact H1|]]); [|by constructor|exact Hi|exact H3].
  eapply inv_perm; [|exact Hi]. by rewrite all_handles_middle, Eh.
Qed.
Lemma session_open ks k w c :
  at_ (list_to_set (handles k) ∪ list_to_set (owned c ++ all_handles ks)) (known c) c w ->
  list_to_set (C := gset R) (handles k) ## list_to_set (owned c ++ all_handles ks) ->
  NoDup (handles k) -> NoDup (owned c ++ all_handles ks) -> ok c -> inv (all_handles (ks ++ [k])) w.
Proof. intros Hw Hd Hk Hn Hc. rewrite <- (app_nil_r ks) in Hw, Hd, Hn. by eapply (session_put ks k []). Qed.
End Cursors.
End Owner.
