(* ===== verification/NativeCache.v ===== *)
(** * Prepared statements over a client library

    The part of [prepare] that the drivers share: a new statement of the library
    enters the cache, and the statements it drops are given back; and
    [closeAllPrepared]. *)
From stdpp Require Import base gmap sets list strings.
From Stdlib Require Import Ascii ZArith Lia.
From S2P Require Import Prelude Types Prepared Native Books.

#[local] Open Scope native_scope.

(** The members [preparedCache_], [preparedKeys_], [preparedLru_], [preparedSeq_] and
    [preparedLimit_] of a connection. *)
Class Caching (C : Type) := {
  cache_of : C -> PreparedCache nat str;
  set_cache : PreparedCache nat str -> C -> C;
}.

Section Code.
Context {Call : Type -> Type} {E C : Type} `{!Caching C}.
#[local] Abbreviation X := (X Call E C).
Definition on_cache {O A} (f : PreparedCache nat str -> A * PreparedCache nat str) : X O A :=
  on_conn (fun c => let '(a, p) := f (cache_of c) in (a, set_cache p c)).

Section Freeing.
Context {O : Type} (free : nat -> X O unit).
Fixpoint close_statements (natives : list (option nat)) : X O unit :=
  match natives with
  | [] => xret tt
  | Some s :: natives' => free s ~; close_statements natives'
  | None :: natives' => close_statements natives'
  end.
(** [++preparedSeq_], the three insertions, and the loop of evictions. *)
Definition enter_statement (key : str) (s : nat) : X O (Handle nat) :=
  id <~ on_cache next_id;
  let h := mkHandle id (Some s) in
  dropped <~ on_cache (remember key h key);
  close_statements (map ph_native dropped.*1) ~;
  xret h.
(** The table of statements is visited in one fixed order. *)
Definition close_prepared : X O unit :=
  natives <~ look (fun c => map ph_native (map_to_list (pr_cache (cache_of c))).*2);
  close_statements natives ~;
  change (fun c => set_cache (prepared_clear (cache_of c)) c).
End Freeing.
End Code.
(** [setPreparedCacheLimit] *)
Definition limit_cache {C} `{!Caching C} (limit : Z) (c : C) : C := set_cache (set_limit limit (cache_of c)) c.

(** The lookup of [executePrepared]: zero when there is no such statement. *)
Definition prepared_native (h : Handle nat) (p : PreparedCache nat str) : nat :=
  match prepared_find h p with
  | Some key => match pr_cache p !! key with Some h' => default 0%nat (ph_native h') | None => 0%nat end
  | None => 0%nat
  end.
Lemma native_in h p s : prepared_native h p = s -> s <> 0%nat -> s ∈ cached_natives p.
Proof.
  unfold prepared_native, cached_natives. intros <- H0. destruct (prepared_find h p) as [key|]; [|done].
  destruct (pr_cache p !! key) as [h'|] eqn:Ek; [|done]. destruct (ph_native h') as [s|] eqn:En; [|done].
  apply list_elem_of_omap. exists h'. split; [|done]. apply list_elem_of_fmap. exists (key, h').
  split; [done|]. by apply elem_of_map_to_list.
Qed.
Lemma omap_natives (l : list (Handle nat)) : omap id (map ph_native l) = omap ph_native l.
Proof. induction l as [|h l IH]; [done|]. cbn. destruct (ph_native h); cbn; by rewrite IH. Qed.
Lemma cleared_natives (p : PreparedCache nat str) : cached_natives (prepared_clear p) = [].
Proof. unfold cached_natives. cbn. by rewrite map_to_list_empty. Qed.

(** ** Its books

    A connection owns [base] and the statements of its cache. *)
Section Books.
Context {Call : Type -> Type} {E C R T : Type} `{Countable R} `{!Library Call E} `{!Handles Call R}
  {alloc : E -> gset R} `{!LawfulLibrary Call E R alloc} `{!Caching C}.
Context (good : list (Called Call C) -> Called Call C -> Prop) (entry : forall A, Call A -> A -> T -> T) (start : T)
  (base : C -> list R) (stmt : nat -> R) (known : C -> T) (ok : C -> Prop).
Definition owns (c : C) : list R := base c ++ map stmt (cached_natives (cache_of c)).
#[local] Abbreviation W := (World Call E C).
#[local] Abbreviation X := (X Call E C).
#[local] Abbreviation Safe := (safe (E := E) (R := R) good).
#[local] Abbreviation at_ := (at_ (alloc := alloc) good entry start).
#[local] Abbreviation goes := (goes (R := R) good).
#[local] Abbreviation inv := (inv (alloc := alloc) good entry start owns known ok).

Class LawfulCaching : Prop := {
  cache_set_get : forall p c, cache_of (set_cache p c) = p;
  cache_set_base : forall p c, base (set_cache p c) = base c;
  cache_set_known : forall p c, known (set_cache p c) = known c;
  cache_ok : forall c, ok c -> Forall (fun s => s <> 0%nat) (cached_natives (cache_of c));
  cache_set_ok : forall p c, ok c -> Forall (fun s => s <> 0%nat) (cached_natives p) -> ok (set_cache p c);
  cache_set_set : forall p q c, set_cache p (set_cache q c) = set_cache p c;
}.
Context `{!LawfulCaching}.
Context {O : Type} (free : nat -> X O unit).
(** [free] gives a statement back. *)
Context (Hfree : forall G l c s, s <> 0%nat -> stmt s ∉ G ->
  goes (at_ ({[stmt s]} ∪ G) l c) (free s) (fun _ => at_ G l c)).

Lemma close_goes (ns : list (option nat)) rest l c :
  Forall (fun s => s <> 0%nat) (omap id ns) -> NoDup (map stmt (omap id ns) ++ rest) ->
  goes (at_ (list_to_set (map stmt (omap id ns) ++ rest)) l c) (close_statements free ns)
    (fun _ => at_ (list_to_set rest) l c).
Proof.
  induction ns as [|[s|] ns IH]; cbn [close_statements omap list_omap map app]; intros Hz Hn.
  - by apply goes_ret.
  - cbn in Hz, Hn. apply Forall_cons in Hz as [Hs0 Hz]. apply NoDup_cons in Hn as [Hs Hn].
    eapply goes_bind.
    + apply (Hfree (list_to_set (map stmt (omap id ns) ++ rest))); [done|]. by rewrite elem_of_list_to_set.
    + intros []. by apply IH.
  - by apply IH.
Qed.

Section AtRest.
Context (L : list R) (c : C) (Hn : NoDup (owns c ++ L)) (Hc : ok c).
Let G : gset R := list_to_set (owns c ++ L).
Lemma same_natives p w : cached_natives p ≡ₚ cached_natives (cache_of c) -> at_ G (known c) c w ->
  inv L (mkWorld (w_env w) (set_cache p (w_conn w)) (w_trace w)).
Proof.
  intros Hp Hw. exists (set_cache p c).
  assert (owns (set_cache p c) ++ L ≡ₚ owns c ++ L) as Eh
    by (unfold owns; by rewrite cache_set_get, cache_set_base, Hp).
  split; [|split; [by rewrite Eh|]].
  - rewrite cache_set_known. eapply at_equiv; [by apply at_change|]. unfold G. by rewrite Eh.
  - apply cache_set_ok; [done|]. rewrite Hp. by apply cache_ok.
Qed.
Lemma limit_inv limit w : at_ G (known c) c w ->
  inv L (mkWorld (w_env w) (limit_cache limit (w_conn w)) (w_trace w)).
Proof.
  intros Hw. pose proof Hw as (_ & _ & Ec). unfold limit_cache. rewrite Ec at 1. by apply same_natives.
Qed.
Lemma hit_goes key h p : prepared_hit key (cache_of c) = Some (h, p) ->
  goes (at_ G (known c) c) (change (O := O) (set_cache p)) (fun _ => inv L).
Proof.
  intros Eh. apply spec_change. intros w Hw. apply same_natives; [|done].
  unfold prepared_hit in Eh. destruct (pr_cache (cache_of c) !! key); [|done]. by injection Eh as _ <-.
Qed.

(** A new statement [s] is the cache's. *)
Lemma enter_goes key s : s <> 0%nat -> stmt s ∉ G -> pr_cache (cache_of c) !! key = None ->
  goes (at_ ({[stmt s]} ∪ G) (known c) c) (enter_statement free key s) (fun _ => inv L).
Proof.
  intros Hs0 Hs Hk. set (p1 := (next_id (cache_of c)).2). set (id := S (pr_seq (cache_of c))).
  apply spec_on_conn_at. cbn [fst snd next_id]. change (mkPrepared _ _ _ _ _) with p1.
  cbv zeta. apply spec_on_conn_at. rewrite cache_set_get.
  destruct (remember key (mkHandle (S (pr_seq (cache_of c))) (Some s)) key p1) as [dropped p2] eqn:Er.
  pose proof (remember_natives key (mkHandle id (Some s)) key p1 Hk) as Hp.
  unfold id in Hp. rewrite Er in Hp. cbn [fst snd] in *. rewrite cache_set_set.
  change (cached_natives p1) with (cached_natives (cache_of c)) in Hp. cbn [ph_native option_list app] in Hp.
  set (c2 := set_cache p2 c).
  assert (Forall (fun s => s <> 0%nat) (omap ph_native dropped.*1 ++ cached_natives p2)) as Hz
    by (rewrite <- Hp; constructor; [done | by apply cache_ok]).
  apply Forall_app in Hz as [Hz1 Hz2].
  assert (stmt s :: owns c ++ L ≡ₚ map stmt (omap ph_native dropped.*1) ++ owns c2 ++ L) as Eh.
  { unfold c2, owns. rewrite cache_set_get, cache_set_base.
    assert (map stmt (s :: cached_natives (cache_of c))
            ≡ₚ map stmt (omap ph_native dropped.*1) ++ map stmt (cached_natives p2)) as Eq
      by (rewrite Hp; by rewrite map_app).
    cbn [map] in Eq. rewrite <- !app_assoc.
    rewrite (Permutation_app_comm (base c) (map stmt (cached_natives (cache_of c)) ++ L)).
    rewrite <- app_assoc, app_comm_cons, Eq. rewrite <- !app_assoc. f_equiv.
    rewrite (app_assoc _ L), Permutation_app_comm. done. }
  assert (NoDup (stmt s :: owns c ++ L)) as Hn'.
  { apply NoDup_cons. split; [|done]. unfold G in Hs. by rewrite elem_of_list_to_set in Hs. }
  rewrite Eh in Hn'.
  apply (goes_bind _ _ (fun _ => inv L)); [|intros []; by apply goes_ret].
  eapply spec_conseq; [apply (close_goes (map ph_native dropped.*1) (owns c2 ++ L) (known c) c2)|..].
  - by rewrite omap_natives.
  - by rewrite omap_natives.
  - intros w Hw. eapply at_equiv; [exact Hw|]. rewrite omap_natives, <- Eh. unfold G. cbn. set_solver.
  - intros [e|a] w Hw; [done|]. exists c2. split; [unfold c2 at 2; by rewrite cache_set_known|].
    apply NoDup_app in Hn' as (_ & _ & Hn'). split; [done|]. by apply cache_set_ok.
Qed.

Lemma close_prepared_goes l : goes (at_ G l c) (close_prepared free)
  (fun _ => at_ (list_to_set (base c ++ L)) l (set_cache (prepared_clear (cache_of c)) c)).
Proof.
  apply spec_look_at. set (ns := map ph_native _).
  assert (omap id ns = cached_natives (cache_of c)) as Ens by (unfold ns; by rewrite omap_natives).
  assert (owns c ++ L ≡ₚ map stmt (omap id ns) ++ base c ++ L) as Eh
    by (rewrite Ens; unfold owns; rewrite !app_assoc; f_equiv; apply Permutation_app_comm).
  eapply (goes_bind _ _ (fun _ => at_ (list_to_set (base c ++ L)) l c)).
  - eapply spec_pre; [|apply close_goes].
    + intros w Hw. eapply at_equiv; [exact Hw|]. unfold G. by rewrite Eh.
    + rewrite Ens. by apply cache_ok.
    + by rewrite <- Eh.
  - intros []. apply spec_change. intros w. apply (at_change (fun c => set_cache (prepared_clear (cache_of c)) c)).
Qed.
Lemma cleared_owns : owns (set_cache (prepared_clear (cache_of c)) c) = base c.
Proof. unfold owns. by rewrite cache_set_get, cleared_natives, cache_set_base, app_nil_r. Qed.
Lemma cleared_ok : ok (set_cache (prepared_clear (cache_of c)) c).
Proof. apply cache_set_ok; [done|]. rewrite cleared_natives. constructor. Qed.
Lemma cleared_nodup : NoDup (base c ++ L).
Proof.
  unfold owns in Hn. rewrite <- app_assoc in Hn. apply NoDup_app in Hn as (H1 & H2 & H3).
  apply NoDup_app in H3 as (_ & _ & H3). apply NoDup_app. split; [done|]. split; [|done].
  intros r Hr HrL. apply (H2 r Hr), elem_of_app. by right.
Qed.
Lemma close_prepared_books : spec Safe (at_ G (known c) c) (close_prepared free) (fun _ => inv L).
Proof.
  eapply spec_post; [|apply close_prepared_goes]. intros [e|u] w Hw; [done|]. eexists.
  split; [|split; [|apply cleared_ok]]; rewrite ?cleared_owns, ?cache_set_known; [exact Hw | apply cleared_nodup].
Qed.
(** The statement of a valid handle is live. *)
Lemma prepared_owned h s : prepared_native h (cache_of c) = s -> s <> 0%nat -> stmt s ∈ owns c.
Proof.
  intros Hs Hs0. apply native_in in Hs; [|done]. unfold owns. apply elem_of_app. right.
  apply list_elem_of_fmap. eauto.
Qed.
End AtRest.
End Books.
