(* ===== verification/MysqlValues.v ===== *)
(** * Values of the MySQL driver (src/driver/mysql_driver.cpp)

    How a field of a result becomes a [Value], how a parameter is bound, and the
    checks on names and row counts. The types of the client library's header are
    the constructors of [MyType]; [stod] and [mktime] are parameters. *)
From stdpp Require Import base list strings.
From Stdlib Require Import Ascii ZArith Lia.
From S2P Require Import Prelude Types Timestamps.

Open Scope Z_scope.

(** ** Names and limits *)
Definition my_validSavepointName (name : str) : bool :=
  match name with
  | [] => false
  | c :: rest => (isalpha c || Ascii.eqb c "_") && forallb (fun c => isalnum c || Ascii.eqb c "_") rest
  end.
Definition my_notConnected (place : string) : Status :=
  status_error NotConnected (lit "MySQL: not connected (" ++ lit place ++ lit ")").
Definition rowLimitExceeded (rows limit : Z) : Status :=
  if (limit <=? 0) || (rows <=? limit) then StatusOK
  else status_error QueryError
    (lit "result set exceeded max_result_rows (" ++ dec_Z rows ++ lit " > " ++ dec_Z limit
     ++ lit "); use queryEach() to stream the result instead").

(** ** Fields of a result *)

(** [enum_field_types]; [Mt245] is the value the code writes as a number. *)
Inductive MyType :=
  | MtTiny | MtShort | MtInt24 | MtLong | MtLongLong
  | MtFloat | MtDouble | MtDecimal | MtNewDecimal
  | MtDate | MtNewDate | MtTime | MtDateTime | MtTimestamp
  | Mt245 | MtTinyBlob | MtBlob | MtMediumBlob | MtLongBlob
  | MtOther (n : Z).

(** [std::stoull]: a minus sign negates modulo 2^64. *)
Definition stoull (s : str) : option Z :=
  let s := skip_while isspace s in
  let (neg, s) := match s with
                  | "-"%char :: s' => (true, s')
                  | "+"%char :: s' => (false, s')
                  | _ => (false, s)
                  end in
  let ds := take_while isdigit s in
  if is_nil ds then None
  else if digits_val ds <? two64
       then Some (if neg : bool then u64 (- digits_val ds) else digits_val ds) else None.

Lemma take_while_digits s : Forall (fun c => isdigit c = true) s -> take_while isdigit s = s.
Proof. induction 1 as [|c s Hc _ IH]; cbn; [done|]. by rewrite Hc, IH. Qed.

(** The sign and the digits of a printed integer. *)
Lemma dec_Z_signed z :
  let s := skip_while isspace (dec_Z z) in
  match s with
  | "-"%char :: s' => (true, s')
  | "+"%char :: s' => (false, s')
  | _ => (false, s)
  end = (z <? 0, dec_N (Z.abs_N z)).
Proof.
  unfold dec_Z. destruct (z <? 0) eqn:E; bool_prop; [done|].
  replace (Z.to_N z) with (Z.abs_N z) by lia.
  pose proof (dec_N_digits (Z.abs_N z)) as Hd. rewrite (digits_no_space _ Hd). cbv zeta.
  destruct (dec_N (Z.abs_N z)) as [|c r]; [done|]. inversion Hd as [|? ? Hc _]; subst.
  destruct (digit_not_sign c Hc) as [H1 H2].
  destruct c as [[] [] [] [] [] [] [] []]; first [done | by vm_compute in H1, H2].
Qed.

Lemma stoll_dec z : int64_min <= z <= int64_max -> stoll (dec_Z z) = Some z.
Proof.
  intros [H1 H2]. unfold stoll. pose proof (dec_Z_signed z) as E. cbv zeta in E. rewrite E.
  rewrite take_while_digits by apply dec_N_digits. pose proof (dec_N_nonnil (Z.abs_N z)) as Hn.
  destruct (is_nil (dec_N (Z.abs_N z))) eqn:En; [by destruct (dec_N (Z.abs_N z))|].
  rewrite digits_val_dec, N2Z.inj_abs_N.
  assert ((if z <? 0 then - Z.abs z else Z.abs z) = z) as -> by (destruct (z <? 0) eqn:?; bool_prop; lia).
  apply Z.leb_le in H1, H2. by rewrite H1, H2.
Qed.

Lemma stoull_dec z : 0 <= z < two64 -> stoull (dec_Z z) = Some z.
Proof.
  intros [H1 H2]. unfold stoull. pose proof (dec_Z_signed z) as E. cbv zeta in E. rewrite E.
  rewrite take_while_digits by apply dec_N_digits. pose proof (dec_N_nonnil (Z.abs_N z)) as Hn.
  destruct (is_nil (dec_N (Z.abs_N z))) eqn:En; [by destruct (dec_N (Z.abs_N z))|].
  rewrite digits_val_dec, N2Z.inj_abs_N, Z.abs_eq by done.
  rewrite (proj2 (Z.ltb_ge z 0)) by lia. by apply Z.ltb_lt in H2 as ->.
Qed.

Section Fields.
(** [std::stod] as the pattern of its result; it may throw. *)
Context (stod : str -> option Z) (mktime : tm -> option Z) (localtime : Z -> tm).

(** [unsigned]: the flag [UNSIGNED_FLAG] of the field. *)
Definition my_fieldToValue (type : MyType) (unsigned : bool) (data : str) : Value :=
  let or_text (f : Z -> Value) (r : option Z) := match r with Some z => f z | None => VString data end in
  match type with
  | MtTiny | MtShort | MtInt24 | MtLong | MtLongLong =>
      if unsigned then or_text VUInt64 (stoull data) else or_text VInt64 (stoll data)
  | MtFloat | MtDouble => or_text VDouble (stod data)
  | MtDecimal | MtNewDecimal => VDecimal data
  | MtDate | MtNewDate => VDate data
  | MtTime => VTime data
  | MtDateTime | MtTimestamp => or_text VTimestamp (tryParseTimestamp mktime data)
  | Mt245 => VJson data
  | MtTinyBlob | MtBlob | MtMediumBlob | MtLongBlob => VBlob data
  | MtOther _ => VString data
  end.

(** ** Parameters

    What [bindParamsOnly] puts into a [MYSQL_BIND]. *)
Inductive BoundParam :=
  | BpNull
  | BpInt (z : Z)
  | BpUInt (z : Z)
  | BpDouble (bits : Z)
  | BpString (s : str)
  | BpBlob (b : str).

(** [None]: not supported. *)
Definition bind_value (v : Value) : option BoundParam :=
  match v with
  | VNull => Some BpNull
  | VBool b => Some (BpInt (if b then 1 else 0))
  | VInt64 z => Some (BpInt z)
  | VUInt64 z => Some (BpUInt z)
  | VDouble bits => Some (BpDouble bits)
  | VTimestamp t => Some (BpString (timestampToStringMs localtime t))
  | VDecimal s | VDate s | VTime s | VUuid s | VJson s
  | VIntervalYearMonth s | VIntervalDaySecond s | VString s => Some (BpString s)
  | VBlob b => Some (BpBlob b)
  | VArray _ | VComposite _ | VTypedArray _ _ | VTypedComposite _ _ => None
  end.
Fixpoint bind_values (params : Params) : option (list BoundParam) :=
  match params with
  | [] => Some []
  | v :: params' => b ← bind_value v; bs ← bind_values params'; Some (b :: bs)
  end.

Lemma bind_values_map params bs : bind_values params = Some bs <-> map bind_value params = map Some bs.
Proof.
  revert bs. induction params as [|v params IH]; intros bs; cbn; [by destruct bs|].
  destruct (bind_value v) as [b|]; cbn; [|by destruct bs].
  destruct bs as [|b' bs]; [by destruct (bind_values params)|]. cbn.
  destruct (bind_values params) as [bs'|] eqn:E; cbn.
  - split; [intros [= -> ->]|intros [= -> H]].
    + f_equal. by apply IH.
    + apply IH in H as [= ->]. done.
  - split; [done|]. intros [= -> H]. by apply IH in H.
Qed.

(** ** What is sent is read back

    The text a field of the column shows for a bound value: the digits of a number,
    the bytes of a text. *)
Definition shown (b : BoundParam) : option str :=
  match b with
  | BpInt z | BpUInt z => Some (dec_Z z)
  | BpString s | BpBlob s => Some s
  | BpNull | BpDouble _ => None
  end.

(** The columns whose fields read back a value. *)
Definition column_fits (type : MyType) (unsigned : bool) (v : Value) : Prop :=
  match v with
  | VInt64 z => int64_min <= z <= int64_max /\ unsigned = false
                /\ type ∈ [MtTiny; MtShort; MtInt24; MtLong; MtLongLong]
  | VUInt64 z => 0 <= z < two64 /\ unsigned = true
                 /\ type ∈ [MtTiny; MtShort; MtInt24; MtLong; MtLongLong]
  | VDecimal _ => type ∈ [MtDecimal; MtNewDecimal]
  | VDate _ => type ∈ [MtDate; MtNewDate]
  | VTime _ => type = MtTime
  | VTimestamp t =>
      type ∈ [MtDateTime; MtTimestamp] /\ civil_days 1900 1 1 * 86400 * ns_per_s <= t /\ is_i64 t
      /\ t mod 1000000 = 0 /\ tm_ok (localtime (t / ns_per_s))
      /\ mktime (localtime (t / ns_per_s)) = Some (t / ns_per_s)
  | VJson _ => type = Mt245
  | VBlob _ => type ∈ [MtTinyBlob; MtBlob; MtMediumBlob; MtLongBlob]
  | VString _ => exists n, type = MtOther n
  | _ => False
  end.
(** a value bound to a column of its type is the value the field of that column
    reads as: integers of both signs over their whole range, decimals, dates, times,
    JSON, bytes, strings, and instants in whole milliseconds where the local time is
    not ambiguous. *)
Theorem my_value_reads_back type unsigned v b
  (Hfit : column_fits type unsigned v) (Hbind : bind_value v = Some b) :
  exists text, shown b = Some text /\ my_fieldToValue type unsigned text = v.
Proof.
  destruct v; cbn [column_fits] in Hfit; try done; injection Hbind as <-; eexists; (split; [reflexivity|]).
  - destruct Hfit as (Hz & -> & Ht). unfold my_fieldToValue. rewrite stoll_dec by done.
    rewrite !elem_of_cons, elem_of_nil in Ht. naive_solver.
  - destruct Hfit as (Hz & -> & Ht). unfold my_fieldToValue. rewrite stoull_dec by done.
    rewrite !elem_of_cons, elem_of_nil in Ht. naive_solver.
  - rewrite !elem_of_cons, elem_of_nil in Hfit. naive_solver.
  - by destruct Hfit as [n ->].
  - rewrite !elem_of_cons, elem_of_nil in Hfit. naive_solver.
  - by subst type.
  - destruct Hfit as (Ht & Hlo & H64 & Hms & Hok & Hmk). unfold my_fieldToValue.
    rewrite local_reads_back by done. unfold to_millis. rewrite Hms, Z.sub_0_r.
    rewrite !elem_of_cons, elem_of_nil in Ht. naive_solver.
  - by subst type.
  - rewrite !elem_of_cons, elem_of_nil in Hfit. naive_solver.
Qed.
End Fields.

(** A noon in UTC, in a process whose zone is UTC. *)
Lemma my_value_reads_back_witness :
  let localtime secs := gmtime secs in
  let mktime (b : tm) := Some (civil_days (tm_year b + 1900) (tm_mon b + 1) (tm_mday b) * 86400
    + tm_hour b * 3600 + tm_min b * 60 + tm_sec b) in
  let v := VTimestamp 1709208000123000000 in
  exists text, shown (BpString (lit "2024-02-29 12:00:00.123")) = Some text
    /\ my_fieldToValue (fun _ => None) mktime MtDateTime false text = v.
Proof.
  intros localtime mktime v.
  apply (my_value_reads_back (fun _ => None) mktime localtime MtDateTime false v).
  - split_and!; first [by left | vm_compute; intuition discriminate].
  - vm_compute. reflexivity.
Defined.

(** ** Findings *)

(** A flag bound as a parameter comes back as a number. *)
Theorem bool_reads_as_integer stod mktime localtime (b : bool) :
  exists text, bind_value localtime (VBool b) = Some (BpInt (if b then 1 else 0))
    /\ shown (BpInt (if b then 1 else 0)) = Some text
    /\ my_fieldToValue stod mktime MtTiny false text = VInt64 (if b then 1 else 0).
Proof. exists (dec_Z (if b then 1 else 0)). by destruct b. Qed.
