(* ===== verification/Mysql.v ===== *)
(** * The MySQL driver (src/driver/mysql_driver.cpp)

    One connection over the C client library, whose functions are the calls of
    [MyCall]. Connections, statements and results of the library are handles, zero
    the null pointer; what [mysql_store_result] answers holds all its rows, so that
    fetching from it is reading a list. A statement's fields are fetched into the
    buffers the driver bound, which [Column] holds. [fuel] bounds the number of
    results of a statement and of rows of a stream. *)
From stdpp Require Import base gmap sets list strings.
From Stdlib Require Import Ascii ZArith Lia.
From S2P Require Import Prelude Types Timestamps Config Connection Transaction Prepared Native Books NativeCache MysqlValues.

Open Scope Z_scope.

(** ** The library *)
Record MyField := mkField { fd_name : str; fd_type : MyType; fd_unsigned : bool }.
Record MyResult := mkMyResult { mr_fields : list MyField; mr_rows : list (list (option str)) }.

(** What [mysql_stmt_fetch] leaves of a field: whether it is null, its length, and the
    bytes written to the buffer that was bound. *)
Record Fetched := mkFetched { ft_null : bool; ft_len : Z; ft_bytes : str }.

Inductive SslMode := SslRequired | SslVerifyIdentity.
Inductive MyOption :=
  | OptConnectTimeout (seconds : Z)
  | OptReadTimeout (seconds : Z)
  | OptWriteTimeout (seconds : Z)
  | OptCharset (name : str)
  | OptSslMode (mode : SslMode)
  | OptSslVerify (verify : bool).

Inductive MyCall : Type -> Type :=
  | McInit : MyCall nat
  | McOptions (m : nat) (o : MyOption) : MyCall unit
  | McSslSet (m : nat) (key cert ca : option str) : MyCall unit
  | McRealConnect (m : nat) (host user password database : option str) (port : Z) : MyCall bool
  | McClose (m : nat) : MyCall unit
  | McError (m : nat) : MyCall str
  | McErrno (m : nat) : MyCall Z
  | McSqlstate (m : nat) : MyCall (option str)
  | McPing (m : nat) : MyCall Z
  | McThreadId (m : nat) : MyCall Z
  | McKill (m : nat) (threadId : Z) : MyCall Z
  | McRealQuery (m : nat) (sql : str) : MyCall Z  (** a caller's statement *)
  | McQuery (m : nat) (sql : str) : MyCall Z  (** a statement of the driver *)
  | McStoreResult (m : nat) : MyCall (option (nat * MyResult))
  | McFreeResult (r : nat) : MyCall unit
  | McFieldCount (m : nat) : MyCall Z
  | McNextResult (m : nat) : MyCall Z
  | McAffectedRows (m : nat) : MyCall Z
  | McInsertId (m : nat) : MyCall Z
  | McStmtInit (m : nat) : MyCall nat
  | McStmtPrepare (s : nat) (sql : str) : MyCall Z
  | McParamCount (s : nat) : MyCall Z
  | McBindParam (s : nat) (params : list BoundParam) : MyCall Z
  | McExecute (s : nat) : MyCall Z
  | McStmtAffected (s : nat) : MyCall Z
  | McMetadata (s : nat) : MyCall (option (nat * list MyField))
  | McBindResult (s : nat) (columns : nat) : MyCall Z
  | McFetch (s : nat) : MyCall (Z * list Fetched)
  | McFetchColumn (s : nat) (column : nat) (size : Z) : MyCall (Z * str)
  | McStmtError (s : nat) : MyCall str
  | McStmtErrno (s : nat) : MyCall Z
  | McStmtSqlstate (s : nat) : MyCall (option str)
  | McStmtClose (s : nat) : MyCall unit.
Definition MYSQL_NO_DATA : Z := 100.
Definition MYSQL_DATA_TRUNCATED : Z := 101.

(** *** Its handles *)
Inductive Resource := RConn (n : nat) | RStmt (n : nat) | RResult (n : nat).
#[export] Instance Resource_eq_dec : EqDecision Resource.
Proof. solve_decision. Defined.
#[export] Instance Resource_countable : Countable Resource.
Proof.
  refine (inj_countable'
    (fun r => match r with RConn n => (0%nat, n) | RStmt n => (1%nat, n) | RResult n => (2%nat, n) end)
    (fun p => match p with (O, n) => RConn n | (S O, n) => RStmt n | (_, n) => RResult n end) _).
  by intros [].
Defined.

Definition pointer (f : nat -> Resource) (n : nat) : option Resource :=
  if (n =? 0)%nat then None else Some (f n).
#[export] Instance my_handles : Handles MyCall Resource := {
  opened A c := match c in MyCall A return A -> option Resource with
    | McInit => pointer RConn
    | McStmtInit _ => pointer RStmt
    | McStoreResult _ => fun a => (fun p => RResult p.1) <$> a
    | McMetadata _ => fun a => (fun p => RResult p.1) <$> a
    | _ => fun _ => None
    end;
  closed A c := match c with
    | McClose m => Some (RConn m)
    | McStmtClose s => Some (RStmt s)
    | McFreeResult r => Some (RResult r)
    | _ => None
    end;
  used A c := match c with
    | McInit | McClose _ | McStmtClose _ | McFreeResult _ => []
    | McOptions m _ | McSslSet m _ _ _ | McRealConnect m _ _ _ _ _ | McError m | McErrno m | McSqlstate m
    | McPing m | McThreadId m | McKill m _ | McRealQuery m _ | McQuery m _ | McStoreResult m
    | McFieldCount m | McNextResult m | McAffectedRows m | McInsertId m | McStmtInit m => [RConn m]
    | McStmtPrepare s _ | McParamCount s | McBindParam s _ | McExecute s | McStmtAffected s | McMetadata s
    | McBindResult s _ | McFetch s | McFetchColumn s _ _ | McStmtError s | McStmtErrno s
    | McStmtSqlstate s => [RStmt s]
    end;
}.

(** ** The connection *)
Record MyConn := mkMy {
  my_open : bool;
  my_m : nat;
  my_tx : bool;
  my_cfg : DataSourceConfig;
  my_prepared : PreparedCache nat str;
  my_active : Z;
}.
Definition my_new (cfg : DataSourceConfig) : MyConn := mkMy false 0 false cfg no_prepared 0.
Definition my_set_open (b : bool) (c : MyConn) : MyConn :=
  mkMy b (my_m c) (my_tx c) (my_cfg c) (my_prepared c) (my_active c).
Definition my_set_m (m : nat) (c : MyConn) : MyConn :=
  mkMy (my_open c) m (my_tx c) (my_cfg c) (my_prepared c) (my_active c).
Definition my_set_tx (b : bool) (c : MyConn) : MyConn :=
  mkMy (my_open c) (my_m c) b (my_cfg c) (my_prepared c) (my_active c).
Definition my_set_cfg (cfg : DataSourceConfig) (c : MyConn) : MyConn :=
  mkMy (my_open c) (my_m c) (my_tx c) cfg (my_prepared c) (my_active c).
Definition my_set_prepared (p : PreparedCache nat str) (c : MyConn) : MyConn :=
  mkMy (my_open c) (my_m c) (my_tx c) (my_cfg c) p (my_active c).
Definition my_set_active (id : Z) (c : MyConn) : MyConn :=
  mkMy (my_open c) (my_m c) (my_tx c) (my_cfg c) (my_prepared c) id.
#[export] Instance my_caching : Caching MyConn := { cache_of := my_prepared; set_cache := my_set_prepared }.

Section Driver.
Context {E : Type} `{!Library MyCall E}.
Context (stod : str -> option Z) (mktime : tm -> option Z) (localtime : Z -> tm)
  (real_escape : str -> str) (generic : Value -> str)
  (new_client : bool)  (** MYSQL_VERSION_ID >= 80000, and not MariaDB's library *)
  (fuel : nat).
Local Open Scope native_scope.
#[local] Abbreviation X := (X MyCall E MyConn).

(** A call on the connection's handle. *)
Definition my {O A} (call : nat -> MyCall A) : X O A := m <~ look my_m; lib (call m).
Definition connected {O} (place : string) : X O unit :=
  ok <~ look (fun c => my_open c && negb (my_m c =? 0)%nat);
  if ok : bool then xret tt else early (my_notConnected place).

Definition lastError {O} (place : string) : X O Status :=
  msg <~ my McError; state <~ my McSqlstate; native <~ my McErrno;
  xret (databaseError QueryError (lit place ++ lit ": " ++ msg) (default [] state) native).
Definition stmtError {O} (place : string) (s : nat) : X O Status :=
  msg <~ lib (McStmtError s); state <~ lib (McStmtSqlstate s); native <~ lib (McStmtErrno s);
  xret (databaseError QueryError (lit place ++ lit ": " ++ msg) (default [] state) native).
(** [if (rc != 0) return lastError(place);] *)
Definition fail_unless {O} (b : bool) (error : X O Status) : X O unit :=
  if b then xret tt else (st <~ error; early st).
Definition succeeds {O} (place : string) (rc : Z) : X O unit := fail_unless (rc =? 0) (lastError place).

(** [ActiveMysqlOperation active(operationMtx_, activeThreadId_, mysql_thread_id(m_))] *)
Definition active_operation {O A} (m : X O A) : X O A :=
  id <~ my McThreadId;
  change (my_set_active id) ~;
  finally m (change (fun c => if my_active c =? id then my_set_active 0 c else c)).

(** ** Results *)
Definition free_result {O} (r : option (nat * MyResult)) : X O unit :=
  match r with Some (h, _) => lib (McFreeResult h) | None => xret tt end.

Fixpoint my_read_row (fields : list MyField) (row : list (option str)) (out : Row) : Row :=
  match fields, row with
  | f :: fields', v :: row' =>
      my_read_row fields' row' (row_set (fd_name f)
        (match v with
         | None => VNull
         | Some data => my_fieldToValue stod mktime (fd_type f) (fd_unsigned f) data
         end) out)
  | _, _ => out
  end.
Definition my_setFields (names : list str) (r : ResultSet) : ResultSet :=
  mkResultSet names (rs_rows r) (rs_transformed r).
Definition my_fillResultSet (res : MyResult) (cfg : DataSourceConfig) : X ResultSet Status :=
  body
    (check (rowLimitExceeded (Z.of_nat (length (mr_rows res))) (dc_max_result_rows cfg)) ~;
     write (my_setFields (map fd_name (mr_fields res))) ~;
     write (fun o => fold_left (fun o row => rs_addRow (my_read_row (mr_fields res) row []) o) (mr_rows res) o) ~;
     xret StatusOK).

Fixpoint drain_loop {O} (n : nat) : X O Status :=
  match n with
  | O => leave Running
  | S n' =>
      rc <~ my McNextResult;
      if 0 <? rc then lastError "mysql_next_result"
      else if rc <? 0 then xret StatusOK
      else res <~ my McStoreResult; free_result res ~; drain_loop n'
  end.
Definition drainRemainingResults {O} : X O Status := drain_loop fuel.

(** ** Statements as texts *)
Definition my_ping {O} : X O Status :=
  body
    (connected "ping" ~;
     rc <~ my McPing;
     if rc =? 0 then xret StatusOK else lastError "mysql_ping").

Definition my_query (sql : str) : X ResultSet Status :=
  body
    (connected "query" ~;
     active_operation
       (rc <~ my (fun m => McRealQuery m sql);
        succeeds "mysql_real_query" rc ~;
        res <~ my McStoreResult;
        finally
          match res with
          | None =>
              n <~ my McFieldCount;
              if n =? 0 then drainRemainingResults else lastError "mysql_store_result"
          | Some (_, r) =>
              cfg <~ look my_cfg;
              st <~ my_fillResultSet r cfg;
              check st ~; drainRemainingResults
          end (free_result res))).

Fixpoint query_all_loop (n : nat) : X (list ResultSet) Status :=
  match n with
  | O => leave Running
  | S n' =>
      res <~ my McStoreResult;
      go <~ finally
        (match res with
         | Some (_, r) =>
             cfg <~ look my_cfg;
             r <~ with_local rs_empty (my_fillResultSet r cfg);
             check r.1 ~; write (fun o => o ++ [r.2])
         | None =>
             n <~ my McFieldCount;
             fail_unless (n =? 0) (lastError "mysql_store_result")
         end ~;
         rc <~ my McNextResult;
         fail_unless (rc <=? 0) (lastError "mysql_next_result") ~;
         xret (0 <=? rc)) (free_result res);
      if go : bool then query_all_loop n' else xret StatusOK
  end.
Definition my_queryAll (sql : str) : X (list ResultSet) Status :=
  body
    (write (fun _ => []) ~;
     connected "queryAll" ~;
     active_operation
       (rc <~ my (fun m => McRealQuery m sql);
        succeeds "mysql_real_query" rc ~;
        query_all_loop fuel)).

(** [escapeLiteral]: the library's only when connected. *)
Definition my_escapeLiteral (c : MyConn) : Value -> str :=
  if negb (my_m c =? 0)%nat && my_open c then mysql_escapeLiteral real_escape generic else generic.
Definition my_queryAll_params (sql : str) (params : Params) : X (list ResultSet) Status :=
  body
    (write (fun _ => []) ~;
     if is_nil params then my_queryAll sql
     else
       escape <~ look my_escapeLiteral;
       let '(st, built) := buildSql escape sql params in
       check st ~; my_queryAll built).

Definition my_execute (sql : str) : X Z Status :=
  body
    (write (fun _ => 0) ~;
     connected "execute" ~;
     active_operation
       (rc <~ my (fun m => McRealQuery m sql);
        succeeds "mysql_real_query" rc ~;
        n <~ my McAffectedRows;
        write (fun _ => i64 n) ~;
        drainRemainingResults)).

(** ** Statements with parameters *)
Definition stmt_failure (place : string) (msg : str) : Status :=
  status_error QueryError (lit place ++ lit ": " ++ msg).
Definition my_param_mismatch (want : Z) (supplied : nat) : Status :=
  status_error QueryError
    (lit "parameter mismatch: statement expects " ++ dec_Z want ++ lit " parameter(s) but "
     ++ dec_nat supplied ++ lit " supplied").
Definition not_bindable : Status :=
  status_error NotSupported (lit "MySQL: array/composite parameters are not supported by this driver").
Definition bindParamsOnly {O} (s : nat) (params : Params) : X O Status :=
  want <~ lib (McParamCount s);
  if negb (want =? Z.of_nat (length params)) then xret (my_param_mismatch want (length params))
  else if want =? 0 then xret StatusOK
  else
    match bind_values localtime params with
    | None => xret not_bindable
    | Some bs =>
        rc <~ lib (McBindParam s bs);
        if rc =? 0 then xret StatusOK
        else msg <~ lib (McStmtError s); xret (stmt_failure "mysql_stmt_bind_param" msg)
    end.

Definition stmt_init_failed : Status :=
  status_error QueryError (lit "MySQL: mysql_stmt_init failed (out of memory)").
(** The status, and the statement the guard holds. *)
Definition prepareAndBind {O} (sql : str) (params : Params) : X O (Status * nat) :=
  s <~ my McStmtInit;
  if (s =? 0)%nat then xret (stmt_init_failed, s)
  else
    rc <~ lib (McStmtPrepare s sql);
    if negb (rc =? 0) then msg <~ lib (McStmtError s); xret (stmt_failure "mysql_stmt_prepare" msg, s)
    else st <~ bindParamsOnly s params; xret (st, s).
(** [~StmtGuard] *)
Definition stmt_guard {O} (s : nat) : X O unit := if (s =? 0)%nat then xret tt else lib (McStmtClose s).
Definition execute_stmt {O} (place : string) (s : nat) : X O unit :=
  rc <~ lib (McExecute s); fail_unless (rc =? 0) (stmtError place s).
Definition with_statement {O} (place : string) (sql : str) (params : Params) (k : nat -> X O Status)
    : X O Status :=
  r <~ prepareAndBind sql params;
  finally (check r.1 ~; execute_stmt place r.2 ~; k r.2) (stmt_guard r.2).

(** *** The fields of a statement

    [col_bound]: the library's pointer still leads to the buffer. A buffer that grows
    moves; the driver does not bind it again, and what the library writes then is
    lost (it goes to freed memory). *)
Record Column := mkColumn {
  col_field : MyField;
  col_buf : str;
  col_bound : bool;
  col_null : bool;
  col_len : Z;
}.
Definition kInitialColBytes : nat := Z.to_nat 4096.
Definition new_column (f : MyField) : Column :=
  mkColumn f (repeat "000"%char kInitialColBytes) true false 0.
Definition overwrite (bytes buf : str) : str := take (length buf) bytes ++ drop (length bytes) buf.
Definition store_field (c : Column) (f : Fetched) : Column :=
  if ft_null f then mkColumn (col_field c) (col_buf c) (col_bound c) true (col_len c)
  else mkColumn (col_field c) (if col_bound c then overwrite (ft_bytes f) (col_buf c) else col_buf c)
         (col_bound c) false (ft_len f).
Fixpoint store_fields (cols : list Column) (fs : list Fetched) : list Column :=
  match cols, fs with
  | c :: cols', f :: fs' => store_field c f :: store_fields cols' fs'
  | _, _ => cols
  end.

(** [fetch_failed]: what the caller returns when a call of this name fails, the
    buffers being as they are then. *)
Section Fetch.
Context {O : Type} (fetch_failed : string -> list Column -> X O Status) (s : nat).
Fixpoint refetch (before cols : list Column) : X O (list Column) :=
  match cols with
  | [] => xret before
  | c :: cols' =>
      if col_len c <=? Z.of_nat (length (col_buf c)) then refetch (before ++ [c]) cols'
      else
        let buf := take (Z.to_nat (col_len c + 1))
          (col_buf c ++ repeat "000"%char (Z.to_nat (col_len c + 1))) in
        let grown bytes := mkColumn (col_field c) (overwrite bytes buf) false (col_null c) (col_len c) in
        r <~ lib (McFetchColumn s (length before) (col_len c));
        fail_unless (r.1 =? 0) (fetch_failed "mysql_stmt_fetch_column" (before ++ grown [] :: cols')) ~;
        refetch (before ++ [grown r.2]) cols'
  end.
(** [None]: no more rows. *)
Definition next_row (cols : list Column) : X O (option (list Column)) :=
  r <~ lib (McFetch s);
  if r.1 =? MYSQL_NO_DATA then xret None
  else
    fail_unless ((r.1 =? 0) || (r.1 =? MYSQL_DATA_TRUNCATED)) (fetch_failed "mysql_stmt_fetch" cols) ~;
    let cols := store_fields cols r.2 in
    cols <~ (if r.1 =? MYSQL_DATA_TRUNCATED then refetch [] cols else xret cols);
    xret (Some cols).
End Fetch.
Fixpoint columns_row (cols : list Column) (out : Row) : Row :=
  match cols with
  | [] => out
  | c :: cols' =>
      columns_row cols' (row_set (fd_name (col_field c))
        (if col_null c then VNull
         else my_fieldToValue stod mktime (fd_type (col_field c)) (fd_unsigned (col_field c))
                (take (Z.to_nat (col_len c)) (col_buf c))) out)
  end.

(** [fetchPreparedInternal]: [start] takes the names, [deliver] the count and a row,
    and answers [None] to go on. *)
Section FetchPrepared.
Context {O : Type} (start : list str -> X O unit) (deliver : Z -> Row -> X O (option Status)).
Definition stmt_failed (s : nat) (place : string) : X O Status :=
  msg <~ lib (McStmtError s); xret (stmt_failure place msg).
Fixpoint fetch_loop (n : nat) (s : nat) (fetched : Z) (cols : list Column) : X O Status :=
  match n with
  | 0%nat => leave Running
  | Datatypes.S n' =>
      row <~ next_row (fun place _ => stmt_failed s place) s cols;
      match row with
      | None => xret StatusOK
      | Some cols =>
          let fetched := u64 (fetched + 1) in
          stop <~ deliver fetched (columns_row cols []);
          match stop with Some st => xret st | None => fetch_loop n' s fetched cols end
      end
  end.
Definition fetchPreparedInternal (s : nat) : X O Status :=
  body
    (meta <~ lib (McMetadata s);
     match meta with
     | None => xret StatusOK
     | Some (h, fields) =>
         finally
           (if is_nil fields then xret StatusOK
            else
              rc <~ lib (McBindResult s (length fields));
              fail_unless (rc =? 0) (stmt_failed s "mysql_stmt_bind_result") ~;
              start (map fd_name fields) ~;
              fetch_loop fuel s 0 (map new_column fields))
           (lib (McFreeResult h))
     end).
End FetchPrepared.

Definition add_limited (maxRows fetched : Z) (row : Row) : X ResultSet (option Status) :=
  if (0 <? maxRows) && (maxRows <? fetched) then xret (Some (rowLimitExceeded fetched maxRows))
  else write (rs_addRow row) ~; xret None.
Definition fetchPrepared (s : nat) (maxRows : Z) : X ResultSet Status :=
  fetchPreparedInternal (fun names => write (my_setFields names)) (add_limited maxRows) s.
Definition Callback : Type := option (Row -> ST E (str + bool)).
Definition fetchPreparedEach (s : nat) (callback : Callback) : X Z Status :=
  fetchPreparedInternal (fun _ => write (fun _ => 0))
    (fun _ row =>
       write (fun n => u64 (n + 1)) ~;
       go <~ match callback with Some f => call_back (f row) | None => xret true end;
       xret (if go : bool then None else Some StatusOK)) s.

Definition my_query_params (sql : str) (params : Params) : X ResultSet Status :=
  body
    (connected "query" ~;
     active_operation (with_statement "mysql_stmt_execute" sql params (fun s =>
       limit <~ look (fun c => dc_max_result_rows (my_cfg c));
       fetchPrepared s limit))).
Definition my_execute_params (sql : str) (params : Params) : X Z Status :=
  body
    (write (fun _ => 0) ~;
     connected "execute" ~;
     active_operation (with_statement "mysql_stmt_execute" sql params (fun s =>
       n <~ lib (McStmtAffected s);
       write (fun _ => i64 n) ~;
       xret StatusOK))).

(** With generated keys. *)
Definition key_row (id : Z) : Row := row_set (lit "insert_id") (VInt64 (i64 id)) [].
Definition insert_key {O} (put : Row -> O -> O) : X O unit :=
  id <~ my McInsertId;
  if id =? 0 then xret tt else write (put (key_row id)).
Definition put_key (row : Row) (o : Z * GeneratedKeys) : Z * GeneratedKeys :=
  (o.1, mkKeys (rs_addRow row (key_rows o.2))).
Definition my_execute_keys (sql : str) : X (Z * GeneratedKeys) Status :=
  body
    (write (fun o => (o.1, keys_empty)) ~;
     st <~ within fst (fun n o => (n, o.2)) (my_execute sql);
     check st ~;
     insert_key put_key ~;
     xret StatusOK).
Definition my_execute_params_keys (sql : str) (params : Params) : X (Z * GeneratedKeys) Status :=
  body
    (write (fun o => (o.1, keys_empty)) ~;
     connected "execute" ~;
     active_operation (with_statement "mysql_stmt_execute" sql params (fun s =>
       n <~ lib (McStmtAffected s);
       write (fun o => (i64 n, o.2)) ~;
       insert_key put_key ~;
       xret StatusOK))).

Definition my_queryEach (sql : str) (params : Params) (callback : Callback) : X Z Status :=
  body
    (write (fun _ => 0) ~;
     connected "stream" ~;
     active_operation (with_statement "mysql_stmt_execute(stream)" sql params (fun s =>
       fetchPreparedEach s callback))).

(** ** Prepared statements *)
Definition my_prepare (sql : str) (typesSample : Params) : X (Handle nat) Status :=
  body
    (write (fun _ => no_handle) ~;
     connected "prepare" ~;
     let key := prepared_key sql typesSample in
     hit <~ look (fun c => prepared_hit key (my_prepared c));
     match hit with
     | Some (h, p) => change (my_set_prepared p) ~; write (fun _ => h) ~; xret StatusOK
     | None =>
         s <~ my McStmtInit;
         if (s =? 0)%nat then xret stmt_init_failed
         else
           rc <~ lib (McStmtPrepare s sql);
           if negb (rc =? 0) then
             msg <~ lib (McStmtError s);
             lib (McStmtClose s) ~;
             xret (stmt_failure "mysql_stmt_prepare" msg)
           else
             h <~ enter_statement stmt_guard key s;
             write (fun _ => h) ~;
             xret StatusOK
     end).

Definition handle_evicted : Status :=
  status_error QueryError (lit "MySQL: prepared handle is invalid or has been evicted").
Definition with_prepared {O} (h : Handle nat) (params : Params) (k : nat -> X O Status) : X O Status :=
  connected "executePrepared" ~;
  s <~ look (fun c => prepared_native h (my_prepared c));
  if negb (handle_valid h) || (s =? 0)%nat then xret handle_evicted
  else
    active_operation
      (st <~ bindParamsOnly s params;
       check st ~;
       execute_stmt "mysql_stmt_execute(prepared)" s ~;
       k s).
Definition my_executePrepared_query (h : Handle nat) (params : Params) : X ResultSet Status :=
  body (with_prepared h params (fun s =>
    limit <~ look (fun c => dc_max_result_rows (my_cfg c));
    fetchPrepared s limit)).
Definition my_executePrepared_execute (h : Handle nat) (params : Params) : X Z Status :=
  body
    (write (fun _ => 0) ~;
     with_prepared h params (fun s =>
       n <~ lib (McStmtAffected s);
       write (fun _ => i64 n) ~;
       xret StatusOK)).

Definition my_closeAllPrepared {O} : X O unit := close_prepared stmt_guard.
Definition my_setPreparedCacheLimit (limit : Z) (c : MyConn) : MyConn := limit_cache limit c.

(** ** Transactions *)
Definition my_tx_error (msg : string) : Status := status_error TxError (lit ("MySQL: " ++ msg)).
(** [if (mysql_query(m_, sql) != 0) return lastError(place);] *)
Definition command {O} (place : string) (sql : str) : X O unit :=
  rc <~ my (fun m => McQuery m sql); succeeds place rc.
Definition my_idle {O} : X O unit :=
  connected "begin" ~;
  busy <~ look my_tx;
  if busy : bool then early (my_tx_error "a transaction is already open on this connection") else xret tt.
Definition my_begin {O} : X O Status :=
  body
    (my_idle ~;
     command "START TRANSACTION" (lit "START TRANSACTION") ~;
     change (my_set_tx true) ~;
     xret StatusOK).
Definition my_level (l : IsolationLevel) : option string :=
  match l with
  | DefaultLevel => None
  | ReadUncommitted => Some "READ UNCOMMITTED"%string
  | ReadCommitted => Some "READ COMMITTED"%string
  | RepeatableRead => Some "REPEATABLE READ"%string
  | Serializable => Some "SERIALIZABLE"%string
  end.
Definition my_begin_with {O} (o : TransactionOptions) : X O Status :=
  body
    (my_idle ~;
     match my_level (to_isolation o) with
     | Some level =>
         command "SET TRANSACTION ISOLATION" (lit "SET TRANSACTION ISOLATION LEVEL " ++ lit level)
     | None => xret tt
     end ~;
     (if to_readOnly o then command "SET TRANSACTION READ ONLY" (lit "SET TRANSACTION READ ONLY")
      else xret tt) ~;
     my_begin).
Definition my_end {O} (place : string) (sql : string) : X O Status :=
  body
    (connected place ~;
     command sql (lit sql) ~;
     change (my_set_tx false) ~;
     xret StatusOK).
Definition my_commit {O} : X O Status := my_end "commit" "COMMIT".
Definition my_rollback {O} : X O Status := my_end "rollback" "ROLLBACK".
Definition my_savepoint_op {O} (sql : string) (name : str) : X O Status :=
  body
    (busy <~ look my_tx;
     if negb busy || negb (my_validSavepointName name)
     then xret (my_tx_error "invalid savepoint or no active transaction")
     else command sql (lit sql ++ lit " " ++ name) ~; xret StatusOK).
Definition my_savepoint {O} := my_savepoint_op (O := O) "SAVEPOINT".
Definition my_releaseSavepoint {O} := my_savepoint_op (O := O) "RELEASE SAVEPOINT".
Definition my_rollbackToSavepoint {O} := my_savepoint_op (O := O) "ROLLBACK TO SAVEPOINT".

(** ** Life of the connection *)
Definition my_close {O} : X O unit :=
  my_closeAllPrepared ~;
  m <~ look my_m;
  (if (m =? 0)%nat then xret tt else lib (McClose m) ~; change (my_set_m 0)) ~;
  change (my_set_open false) ~;
  change (my_set_tx false).

(** [static_cast<unsigned int>(ms / 1000)], and the rounding up of the other timeouts,
    whose sum is an [int]. *)
Definition u32 (z : Z) : Z := z mod 2 ^ 32.
Definition connect_seconds (ms : Z) : Z := u32 (Z.quot ms 1000).
Definition io_seconds (ms : Z) : Z := u32 (Z.max 1 (Z.quot (i32 (ms + 999)) 1000)).
Definition io_timeout (cfg : DataSourceConfig) : Z :=
  if 0 <? dc_query_timeout_ms cfg then dc_query_timeout_ms cfg else dc_socket_timeout_ms cfg.

Definition option_set {O} (m : nat) (o : MyOption) : X O unit := lib (McOptions m o).
Definition connect_options {O} (m : nat) (cfg : DataSourceConfig) : X O unit :=
  (if 0 <? dc_connection_timeout_ms cfg
   then option_set m (OptConnectTimeout (connect_seconds (dc_connection_timeout_ms cfg))) else xret tt) ~;
  (if 0 <? io_timeout cfg
   then option_set m (OptReadTimeout (io_seconds (io_timeout cfg))) ~;
        option_set m (OptWriteTimeout (io_seconds (io_timeout cfg))) else xret tt) ~;
  match extra_find (lit "charset") (dc_extra cfg) with
  | Some charset => option_set m (OptCharset (c_str charset))
  | None => xret tt
  end ~;
  if dc_tls_enabled cfg
  then
    lib (McSslSet m (opt_c_str (dc_tls_key cfg)) (opt_c_str (dc_tls_cert cfg)) (opt_c_str (dc_tls_ca cfg))) ~;
    option_set m
      (if new_client
       then OptSslMode (if dc_tls_verify_peer cfg then SslVerifyIdentity else SslRequired)
       else OptSslVerify (dc_tls_verify_peer cfg))
  else xret tt.
Definition connect_handle {O} (cfg : DataSourceConfig) : X O Status :=
  m <~ lib McInit;
  change (my_set_m m) ~;
  if (m =? 0)%nat
  then xret (status_error ConnectionFailed (lit "MySQL: mysql_init failed (out of memory)"))
  else
    connect_options m cfg ~;
    ok <~ lib (McRealConnect m (opt_c_str (dc_host cfg)) (opt_c_str (dc_user cfg))
                 (opt_c_str (dc_password cfg)) (opt_c_str (dc_database cfg)) (u32 (dc_port cfg)));
    if ok : bool then change (my_set_open true) ~; xret StatusOK
    else
      msg <~ lib (McError m); native <~ lib (McErrno m); state <~ lib (McSqlstate m);
      lib (McClose m) ~;
      change (my_set_m 0) ~;
      change (my_set_open false) ~;
      xret (databaseError ConnectionFailed (redact cfg (lit "MySQL connect failed: " ++ msg))
              (default [] state) native).
Definition my_connect {O} (cfg : DataSourceConfig) : X O Status :=
  body (change (my_set_cfg cfg) ~; my_close ~; connect_handle cfg).

(** The connection [control] of [cancel], which its destructor closes. *)
Definition my_cancel {O} : X O Status :=
  body
    (c <~ look id;
     if (my_m c =? 0)%nat || negb (my_open c) || (my_active c =? 0)
     then xret (status_error NotConnected (lit "MySQL: no active query to cancel"))
     else
       on_other (my_new (my_cfg c))
         (finally
            (status <~ my_connect (my_cfg c);
             if negb (st_ok status)
             then xret (status_error Cancelled
                          (lit "MySQL cancel control connection failed: " ++ st_message status))
             else
               rc <~ my (fun m => McKill m (my_active c));
               if rc =? 0 then xret StatusOK
               else
                 msg <~ my McError; state <~ my McSqlstate; native <~ my McErrno;
                 xret (databaseError Cancelled (lit "MySQL mysql_kill: " ++ msg) (default [] state) native))
            my_close)).

(** ** Cursors ([MyCursor])

    A cursor holds its statement and the description of its result. *)
Record MyCursor := mkMyCursor {
  mc_stmt : nat;
  mc_meta : option nat;
  mc_batch : Z;
  mc_cols : list Column;
  mc_open : bool;
  mc_eof : bool;
  mc_fieldsSet : bool;
  mc_rows : Z;
}.
Definition mc_hasNext (k : MyCursor) : bool := mc_open k && negb (mc_eof k).
Definition mc_stop (k : MyCursor) : MyCursor :=
  mkMyCursor (mc_stmt k) (mc_meta k) (mc_batch k) (mc_cols k) (mc_open k) true (mc_fieldsSet k) (mc_rows k).
Definition mc_refill (cols : list Column) (k : MyCursor) : MyCursor :=
  mkMyCursor (mc_stmt k) (mc_meta k) (mc_batch k) cols (mc_open k) (mc_eof k) (mc_fieldsSet k) (mc_rows k).
Definition mc_count (k : MyCursor) : MyCursor :=
  mkMyCursor (mc_stmt k) (mc_meta k) (mc_batch k) (mc_cols k) (mc_open k) (mc_eof k) (mc_fieldsSet k)
    (u64 (mc_rows k + 1)).
Definition mc_setFields (k : MyCursor) : MyCursor :=
  mkMyCursor (mc_stmt k) (mc_meta k) (mc_batch k) (mc_cols k) (mc_open k) (mc_eof k) true (mc_rows k).

(** [reset], which the destructor calls too: the cursor it leaves. *)
Definition mc_reset {O} (k : MyCursor) : X O MyCursor :=
  match mc_meta k with Some h => lib (McFreeResult h) | None => xret tt end ~;
  stmt_guard (mc_stmt k) ~;
  xret (mkMyCursor 0 None (mc_batch k) (mc_cols k) false (mc_eof k) (mc_fieldsSet k) (mc_rows k)).

(** [setupResult] on the cursor of a statement. *)
Definition setupResult {O} (s : nat) (batch : Z) : X O (Status * MyCursor) :=
  meta <~ lib (McMetadata s);
  match meta with
  | None => xret (StatusOK, mkMyCursor s None batch [] false true false 0)
  | Some (h, fields) =>
      let k open := mkMyCursor s (Some h) batch (map new_column fields) open false false 0 in
      rc <~ lib (McBindResult s (length fields));
      if rc =? 0 then xret (StatusOK, k true)
      else st <~ lastError "mysql_stmt_bind_result(openCursor)"; xret (st, k false)
  end.
(** The status and the cursor that is handed out. *)
Definition open_cursor (sql : str) (params : Params) (batch_size : Z) : X unit (Status * option MyCursor) :=
  connected "openCursor" ~;
  active_operation
    (r <~ prepareAndBind sql params;
     let s := r.2 in
     ok <~ (if negb (st_ok r.1) then xret (inl r.1)
            else
              rc <~ lib (McExecute s);
              if rc =? 0 then xret (inr tt)
              else st <~ stmtError "mysql_stmt_execute(openCursor)" s; xret (inl st));
     match ok with
     | inl st => stmt_guard s ~; xret (st, None)
     | inr _ =>
         r <~ setupResult s (if 0 <? batch_size then batch_size else 256);
         if st_ok r.1 then xret (StatusOK, Some r.2)
         else mc_reset r.2 ~; xret (r.1, None)
     end).
Definition my_openCursor (sql : str) (params : Params) (batch_size : Z) : X (option MyCursor) Status :=
  body
    (write (fun _ => None) ~;
     r <~ silently (open_cursor sql params batch_size);
     write (fun _ => r.2) ~;
     xret r.1).

Definition cursor_write (f : MyCursor -> MyCursor) (g : ResultSet -> ResultSet)
    : X (MyCursor * ResultSet) unit := write (fun o => (f o.1, g o.2)).
Definition cursor_failed (place : string) (cols : list Column) : X (MyCursor * ResultSet) Status :=
  cursor_write (mc_refill cols) id ~; lastError (place ++ "(openCursor)").
Fixpoint mc_fetch_rows (s : nat) (want : nat) : X (MyCursor * ResultSet) Status :=
  match want with
  | 0%nat => xret StatusOK
  | Datatypes.S want' =>
      cols <~ out (fun o => mc_cols o.1);
      row <~ next_row cursor_failed s cols;
      match row with
      | None => cursor_write mc_stop id ~; xret StatusOK
      | Some cols =>
          cursor_write (fun k => mc_count (mc_refill cols k)) (rs_addRow (columns_row cols [])) ~;
          mc_fetch_rows s want'
      end
  end.
(** [fetch], the cursor being [k] when it is called. *)
Definition mc_fetch_of (k : MyCursor) (n : Z) : X (MyCursor * ResultSet) Status :=
  if negb (mc_open k) || mc_eof k then xret StatusOK
  else
    active_operation
      ((if mc_fieldsSet k then xret tt
        else cursor_write mc_setFields
               (my_setFields (map (fun c => fd_name (col_field c)) (mc_cols k)))) ~;
       mc_fetch_rows (mc_stmt k) (Z.to_nat (if n =? 0 then mc_batch k else n))).
Definition mc_fetch (n : Z) : X (MyCursor * ResultSet) Status := fun s => body (mc_fetch_of s.2.1 n) s.
(** The row, if there was one: [outRow] and [ok]. *)
Definition mc_fetchRow_of (k : MyCursor) : X (MyCursor * option Row) Status :=
  write (fun o => (o.1, None)) ~;
  if negb (mc_open k) || mc_eof k then xret StatusOK
  else
    r <~ within (fun o => (o.1, rs_empty)) (fun k o => (k.1, o.2))
           (st <~ body (mc_fetch_of k 1); rows <~ out (fun o => rs_rows o.2); xret (st, rows));
    check r.1 ~;
    write (fun o => (o.1, head r.2)) ~;
    xret StatusOK.
Definition mc_fetchRow : X (MyCursor * option Row) Status := fun s => body (mc_fetchRow_of s.2.1) s.
Definition mc_close {O} (k : MyCursor) : X O (Status * MyCursor) := k <~ mc_reset k; xret (StatusOK, k).
End Driver.
