(* ===== verification/MysqlBooks.v ===== *)
(** * The books of the MySQL driver

    Theorems on [Mysql]: which handles of the client library live, what the server
    knows of transactions, and what may be interrupted, over every sequence of
    operations on a connection and its cursors. *)
From stdpp Require Import base gmap sets list strings.
From Stdlib Require Import Ascii ZArith Lia.
From S2P Require Import Prelude Types Timestamps Config Connection Transaction Prepared Native Books NativeCache MysqlValues Mysql.

#[local] Open Scope Z_scope.
#[local] Open Scope native_scope.

(** A statement of a caller reaches the server while its thread is marked. *)
Definition execution {A} (c : MyCall A) : bool :=
  match c with McRealQuery _ _ | McExecute _ => true | _ => false end.
Definition cancellable (d : Called MyCall MyConn) : Prop :=
  execution (cd_call d) = true -> my_active (cd_conn d) <> 0.

(** The connections in a transaction that the driver began. *)
Definition tx_call {A} (c : MyCall A) : A -> gset nat -> gset nat :=
  match c in MyCall A return A -> gset nat -> gset nat with
  | McQuery m sql => fun rc T =>
      if negb (rc =? 0) then T
      else if str_eqb sql (lit "START TRANSACTION") then {[m]} ∪ T
      else if str_eqb sql (lit "COMMIT") || str_eqb sql (lit "ROLLBACK") then T ∖ {[m]}
      else T
  | McClose m => fun _ T => T ∖ {[m]}
  | _ => fun _ T => T
  end.
Definition in_tx (t : list (Called MyCall MyConn)) : gset nat := ledger (@tx_call) ∅ t.

Section Ledger.
Context {E : Type} `{!Library MyCall E} {alloc : E -> gset Resource}
  `{!LawfulLibrary MyCall E Resource alloc}.
Context (stod : str -> option Z) (mktime : tm -> option Z) (localtime : Z -> tm)
  (real_escape : str -> str) (generic : Value -> str) (new_client : bool) (fuel : nat).
(** A connected thread has an identifier. *)
Hypothesis thread_ids : forall m e, (native (McThreadId m) e).1 <> 0.
#[local] Abbreviation W := (World MyCall E MyConn).
#[local] Abbreviation X := (X MyCall E MyConn).
#[local] Abbreviation good := (fun _ : list (Called MyCall MyConn) => cancellable).
#[local] Abbreviation Safe := (safe (E := E) (R := Resource) good).
#[local] Abbreviation at_ := (Books.at_ (alloc := alloc) good (@tx_call) ∅).
#[local] Abbreviation plain := (Books.plain (alloc := alloc) good (@tx_call) ∅).
#[local] Abbreviation returns := (Books.returns (alloc := alloc) good (@tx_call) ∅).
#[local] Abbreviation releases := (Books.releases (alloc := alloc) good (@tx_call) ∅).
#[local] Abbreviation goes := (Books.goes (R := Resource) good).

Lemma p_my {O A} G T c (call : nat -> MyCall A) : plain_call (R := Resource) (@tx_call) (call (my_m c)) ->
  Forall (fun r => r ∈ G) (used (call (my_m c))) -> allowed good G c (call (my_m c)) -> plain G T c (my (O := O) call).
Proof. intros Hp Hu He. apply p_look. by apply p_lib. Qed.
#[local] Hint Extern 1 (Books.plain _ _ _ _ _ _ (my _)) => apply p_my; [plain_side..] : books.

(** *** What a scope opens and closes *)
Lemma rel_free {O} m a G T c : got (McStoreResult m) a ## G ->
  releases (got (McStoreResult m) a) G T c (free_result (O := O) a).
Proof.
  intros Hd. destruct a as [[h r]|]; cbn.
  - apply lib_releases; try done. unfold got in Hd. cbn in Hd. set_solver.
  - apply spec_ret. intros w Hw. eapply at_equiv; [exact Hw|]. unfold got. set_solver.
Qed.
Definition stmt_set (s : nat) : gset Resource := option_to_set (pointer RStmt s).
Lemma rel_guard {O} s G T c : stmt_set s ## G -> releases (stmt_set s) G T c (stmt_guard (O := O) s).
Proof.
  intros Hd. unfold stmt_guard, stmt_set, pointer in *. destruct (s =? 0)%nat; cbn in *.
  - apply spec_ret. intros w Hw. eapply at_equiv; [exact Hw|]. set_solver.
  - apply lib_releases; try done. set_solver.
Qed.
Lemma stmt_set_in s G : s <> 0%nat -> RStmt s ∈ stmt_set s ∪ G.
Proof. intros Hs. unfold stmt_set, pointer. apply Nat.eqb_neq in Hs as ->. set_solver. Qed.

(** *** Bodies *)
Section Bodies.
Context (G : gset Resource) (T : gset nat) (c : MyConn).
Context (Hm : RConn (my_m c) ∈ G).
Context {O : Type}.
Lemma plain_lastError place : plain G T c (lastError (O := O) place).
Proof. unfold lastError. plain. Qed.
Lemma plain_unless b (m : X O Status) : plain G T c m -> plain G T c (fail_unless b m).
Proof. intros H. unfold fail_unless. plain. Qed.
Lemma plain_stmtError place s : RStmt s ∈ G -> plain G T c (stmtError (O := O) place s).
Proof. intros Hs. unfold stmtError. plain. Qed.
End Bodies.
#[local] Hint Resolve plain_lastError plain_unless plain_stmtError : books.

Lemma plain_succeeds {O} G T c place rc : RConn (my_m c) ∈ G -> plain G T c (succeeds (O := O) place rc).
Proof. intros Hm. unfold succeeds. auto with books. Qed.
#[local] Hint Resolve plain_succeeds : books.

(** The handle of a call is the connection's. *)
Lemma spec_my {O A B} G T c (call : nat -> MyCall A) (k : A -> X O B) Q :
  spec Safe (at_ G T c) (xbind (lib (call (my_m c))) k) Q -> spec Safe (at_ G T c) (xbind (my call) k) Q.
Proof.
  intros H [[e c' t] o] Hs. pose proof Hs as (_ & _ & Hc). cbn in Hc. subst c'. exact (H (mkWorld e c t, o) Hs).
Qed.

Lemma plain_drain {O} G T c n : RConn (my_m c) ∈ G -> plain G T c (drain_loop (O := O) n).
Proof.
  intros Hm. induction n as [|n IH]; cbn [drain_loop]; [apply p_running|].
  apply p_bind; [plain|]. intros rc.
  match goal with |- Books.plain _ _ _ _ _ _ (if ?b then _ else _) => destruct b end; [plain|].
  match goal with |- Books.plain _ _ _ _ _ _ (if ?b then _ else _) => destruct b end; [plain|].
  apply spec_my, p_open; [done | done | by repeat constructor | done |]. intros a Ha.
  eapply spec_bind; [by apply rel_free | intros ?; exact IH | done].
Qed.
#[local] Hint Resolve plain_drain : books.

Lemma plain_fill G T c r cfg : plain G T c (my_fillResultSet stod mktime r cfg).
Proof. unfold my_fillResultSet. plain. Qed.
#[local] Hint Resolve plain_fill : books.

(** *** The scopes of an operation *)

(** What a connection that is at rest allows. *)
Definition at_rest (G : gset Resource) (c : MyConn) : Prop :=
  my_active c = 0 /\ (my_m c <> 0%nat -> RConn (my_m c) ∈ G).
Lemma connected_spec {O} G T c place : spec Safe (at_ G T c) (connected (O := O) place)
  (fun r w => match r with inr _ => my_m c <> 0%nat | inl _ => True end /\ at_ G T c w).
Proof.
  unfold connected. apply spec_look. intros ok. destruct ok.
  - apply spec_ret. intros w [Hw Hok]. split; [|done]. destruct Hw as (_ & _ & Hc).
    rewrite Hc in Hok. apply andb_true_iff in Hok as [_ Hok]. by apply negb_true_iff, Nat.eqb_neq in Hok.
  - apply spec_early. by intros w [Hw _].
Qed.
Lemma p_connected {O A} G T c place (m : X O A) :
  (my_m c <> 0%nat -> plain G T c m) -> plain G T c (connected place ~; m).
Proof.
  intros H. eapply spec_bind; [apply connected_spec|..].
  - intros a. apply spec_fact, H.
  - by intros e w _ [_ Hw].
Qed.
Lemma active_spec {O A} G T c (m : X O A) (P : Exit + A -> gset Resource -> Prop) :
  my_active c = 0 -> RConn (my_m c) ∈ G ->
  (forall id, id <> 0 -> spec Safe (at_ G T (my_set_active id c)) m
     (fun r w => exists G', P r G' /\ at_ G' T (my_set_active id c) w)) -> (forall e, P (inl e) G) ->
  spec Safe (at_ G T c) (active_operation m) (fun r w => exists G', P r G' /\ at_ G' T c w).
Proof.
  intros Ha Hm H He. unfold active_operation. apply spec_my.
  eapply (spec_bind _ _ (fun r w => match r with inr id => id <> 0 | inl _ => True end /\ at_ G T c w)).
  - apply spec_lib. intros w Hw. split; [apply thread_ids|]. apply at_plain_call; [by split|done| |done].
    by repeat constructor.
  - intros id. apply spec_fact. intros Hid.
    eapply (spec_bind _ _ (fun r w => match r with inr _ => at_ G T (my_set_active id c) w | inl _ => False end)).
    + apply spec_change. intros w Hw. pose proof Hw as (_ & _ & ->). by apply at_conn with c.
    + intros _. eapply spec_finally; [by apply H|]. intros r. apply spec_change. intros w (G' & HP & Hw).
      exists G'. split; [done|].
      pose proof Hw as (_ & _ & ->). cbn [my_active my_set_active]. rewrite Z.eqb_refl.
      replace (my_set_active 0 (my_set_active id c)) with c by (destruct c; cbn in *; by subst).
      by eapply at_conn.
    + by intros e w _ [].
  - intros e w _ [_ Hw]. eauto.
Qed.
Lemma p_active {O A} G T c (m : X O A) : my_active c = 0 -> RConn (my_m c) ∈ G ->
  (forall id, id <> 0 -> plain G T (my_set_active id c) m) -> plain G T c (active_operation m).
Proof.
  intros Ha Hm H.
  eapply spec_post; [|apply (active_spec G T c m (fun _ G' => G' = G)); [done | done | | done]].
  - by intros r w (G' & -> & Hw).
  - intros id Hid. eapply spec_post; [|by apply H]. eauto.
Qed.
Lemma p_operation {O} G T c place (m : X O Status) : at_rest G c ->
  (forall id, id <> 0 -> RConn (my_m c) ∈ G -> plain G T (my_set_active id c) m) ->
  plain G T c (connected place ~; active_operation m).
Proof. intros [Ha Hm] H. apply p_connected. intros H0. apply p_active; auto. Qed.

(** ** Statements as texts *)
Lemma plain_ping {O} G T c : at_rest G c -> plain G T c (my_ping (O := O)).
Proof. intros [Ha Hm]. apply p_body, p_connected. intros H0. specialize (Hm H0). plain. Qed.

Lemma plain_query G T c sql : at_rest G c -> plain G T c (my_query stod mktime fuel sql).
Proof.
  intros Hr. apply p_body, p_operation; [done|]. intros id Hid Hm.
  apply p_bind; [plain|]. intros rc. apply p_bind; [plain|]. intros _.
  apply spec_my, p_open; [done | done | by repeat constructor | done|]. intros a Ha.
  assert (RConn (my_m (my_set_active id c)) ∈ got (McStoreResult (my_m (my_set_active id c))) a ∪ G)
    by (cbn; set_solver).
  apply p_closing; [|by apply rel_free]. unfold drainRemainingResults. destruct a as [[h r]|]; plain.
Qed.
Lemma plain_queryAll G T c sql : at_rest G c -> plain G T c (my_queryAll stod mktime fuel sql).
Proof.
  intros Hr. apply p_body, p_bind; [plain|]. intros _. apply p_operation; [done|]. intros id Hid Hm.
  apply p_bind; [plain|]. intros rc. apply p_bind; [plain|]. intros _.
  induction fuel as [|n IH]; cbn [query_all_loop]; [apply p_running|].
  apply spec_my, p_open; [done | done | by repeat constructor | done|]. intros a Ha.
  assert (RConn (my_m (my_set_active id c)) ∈ got (McStoreResult (my_m (my_set_active id c))) a ∪ G)
    by (cbn; set_solver).
  eapply spec_bind; [apply p_closing; [|by apply rel_free]| |done].
  - destruct a as [[h r]|]; plain.
  - intros go. destruct go; [exact IH | apply p_ret].
Qed.
Lemma plain_queryAll_params G T c sql params : at_rest G c ->
  plain G T c (my_queryAll_params stod mktime real_escape generic fuel sql params).
Proof.
  intros Hr. pose proof (fun sql => plain_queryAll G T c sql Hr) as H.
  apply p_body, p_bind; [plain|]. intros _. destruct (is_nil params); [apply H|]. apply p_look.
  destruct (buildSql _ _ _) as [st built]. apply p_bind; [plain|]. intros _. apply H.
Qed.
Lemma plain_execute G T c sql : at_rest G c -> plain G T c (my_execute fuel sql).
Proof.
  intros Hr. apply p_body, p_bind; [plain|]. intros _. apply p_operation; [done|]. intros id Hid Hm.
  unfold drainRemainingResults. plain.
Qed.

(** ** Statements with parameters *)
Lemma bind_returns {O} G T c s params : RStmt s ∈ G -> returns G T c (bindParamsOnly (O := O) localtime s params).
Proof. intros Hs. unfold bindParamsOnly. returns. Qed.

Lemma prepare_spec {O} G T c sql params : RConn (my_m c) ∈ G ->
  goes (at_ G T c) (prepareAndBind (O := O) localtime sql params)
    (fun a w => ((st_ok a.1 = true -> a.2 <> 0%nat) /\ stmt_set a.2 ## G) /\ at_ (stmt_set a.2 ∪ G) T c w).
Proof.
  intros Hm. apply spec_my, p_open; [done | done | by repeat constructor | done|]. intros s Hs.
  assert (got (McStmtInit (my_m c)) s = stmt_set s) as Eg by done. rewrite Eg in *.
  destruct (s =? 0)%nat eqn:E0.
  - apply goes_ret. intros w Hw. split; [split; [by intros ?|] |]; done.
  - apply Nat.eqb_neq in E0. pose proof (stmt_set_in s G E0) as Hin.
    apply (goes_post _ _ (fun a w => a.2 = s /\ at_ (stmt_set s ∪ G) T c w)).
    { intros [st s'] w [Es Hw]. cbn in Es. by subst s'. }
    apply spec_returns; [apply r_lib; plain_side|]. intros rc. destruct (negb (rc =? 0)).
    + apply spec_returns; [apply r_lib; plain_side|]. intros msg. by apply goes_ret.
    + apply spec_returns; [by apply bind_returns|]. intros st. by apply goes_ret.
Qed.

Lemma p_statement {O} G T c place sql params (k : nat -> X O Status) :
  RConn (my_m c) ∈ G -> my_active c <> 0 ->
  (forall s, s <> 0%nat -> plain (stmt_set s ∪ G) T c (k s)) ->
  plain G T c (with_statement localtime place sql params k).
Proof.
  intros Hm Ha Hk. eapply spec_goes; [by apply prepare_spec|].
  intros [st s]. apply spec_fact. intros [Hs Hd]. apply p_closing; [|by apply rel_guard].
  cbn [fst snd] in *. unfold check, execute_stmt. destruct (st_ok st).
  - specialize (Hs eq_refl). pose proof (stmt_set_in s G Hs). apply p_bind; [plain|]. intros _.
    apply p_bind; [|intros _; by apply Hk]. plain.
  - plain.
Qed.

(** *** Fetching *)
Section Fetching.
Context (G : gset Resource) (T : gset nat) (c : MyConn) (s : nat) (Hs : RStmt s ∈ G).
Context {O : Type} (failed : string -> list Column -> X O Status)
  (Hf : forall place cols, plain G T c (failed place cols)).
#[local] Hint Resolve Hf : books.
Lemma plain_refetch before cols : plain G T c (refetch failed s before cols).
Proof.
  revert before. induction cols as [|k cols IH]; intros before; cbn [refetch]; [apply p_ret|].
  destruct (_ <=? _); [apply IH|]. cbv zeta. apply p_bind; [plain|]. intros r.
  apply p_bind; [apply plain_unless, Hf | intros _; apply IH].
Qed.
Lemma plain_next cols : plain G T c (next_row failed s cols).
Proof.
  unfold next_row. apply p_bind; [plain|]. intros r. destruct (_ =? _); [apply p_ret|].
  apply p_bind; [apply plain_unless, Hf|]. intros _. cbv zeta. apply p_bind; [|intros ?; apply p_ret].
  destruct (_ =? _); [apply plain_refetch | apply p_ret].
Qed.
End Fetching.

Lemma plain_failed {O} G T c s place : RStmt s ∈ G -> plain G T c (stmt_failed (O := O) s place).
Proof. intros Hs. unfold stmt_failed. plain. Qed.
#[local] Hint Resolve plain_failed : books.

Lemma plain_fetch {O} G T c start (deliver : Z -> Row -> X O (option Status)) s : RStmt s ∈ G ->
  (forall G names, plain G T c (start names)) -> (forall G n row, plain G T c (deliver n row)) ->
  plain G T c (fetchPreparedInternal stod mktime fuel start deliver s).
Proof.
  intros Hs Hst Hd. apply p_body, p_open; [done | done | by repeat constructor | done|]. intros [[h fields]|] Ha.
  - assert (got (McMetadata s) (Some (h, fields)) = {[RResult h]}) as Eg by done. rewrite Eg in *.
    assert (RStmt s ∈ {[RResult h]} ∪ G) by set_solver.
    apply p_closing; [|apply lib_releases; try done; set_solver].
    destruct (is_nil fields); [apply p_ret|]. apply p_bind; [plain|]. intros rc.
    apply p_bind; [auto with books|]. intros _. apply p_bind; [apply Hst|]. intros _.
    generalize 0 (map new_column fields). induction fuel as [|n IH]; intros z cols; cbn [fetch_loop].
    + apply p_running.
    + apply p_bind; [apply plain_next; auto with books|]. intros [cols'|]; [|apply p_ret].
      apply p_bind; [apply Hd|]. intros [st|]; [apply p_ret | apply IH].
  - apply spec_ret. intros w Hw. eapply at_equiv; [exact Hw|]. unfold got. cbn. set_solver.
Qed.
Lemma plain_fetchPrepared G T c s limit : RStmt s ∈ G -> plain G T c (fetchPrepared stod mktime fuel s limit).
Proof. intros Hs. apply plain_fetch; [done|..]; intros; unfold add_limited; plain. Qed.

Definition tame (callback : Callback (E := E)) : Prop :=
  match callback with Some f => forall row e, alloc e ⊆ alloc (f row e).2 | None => True end.
Lemma plain_each G T c s callback : tame callback -> RStmt s ∈ G ->
  plain G T c (fetchPreparedEach stod mktime fuel s callback).
Proof.
  intros Ht Hs. apply plain_fetch; [done|intros; plain|]. intros G' n row.
  apply p_bind; [plain|]. intros _. apply p_bind; [|intros ?; apply p_ret].
  destruct callback as [f|]; [|apply p_ret]. apply p_call_back. intros e. apply Ht.
Qed.

Lemma plain_query_params G T c sql params : at_rest G c ->
  plain G T c (my_query_params stod mktime localtime fuel sql params).
Proof.
  intros Hr. apply p_body, p_operation; [done|]. intros id Hid Hm. apply p_statement; [done..|]. intros s H0.
  apply p_look, plain_fetchPrepared. by apply stmt_set_in.
Qed.
Lemma plain_execute_params G T c sql params : at_rest G c ->
  plain G T c (my_execute_params localtime sql params).
Proof.
  intros Hr. apply p_body, p_bind; [plain|]. intros _. apply p_operation; [done|]. intros id Hid Hm.
  apply p_statement; [done..|]. intros s H0. pose proof (stmt_set_in s G H0). plain.
Qed.
Lemma plain_key {O} G T c (put : Row -> O -> O) : RConn (my_m c) ∈ G -> plain G T c (insert_key put).
Proof. intros Hm. unfold insert_key. plain. Qed.
#[local] Hint Resolve plain_key : books.
Lemma plain_execute_params_keys G T c sql params : at_rest G c ->
  plain G T c (my_execute_params_keys localtime sql params).
Proof.
  intros Hr. apply p_body, p_bind; [plain|]. intros _. apply p_operation; [done|]. intros id Hid Hm.
  apply p_statement; [done..|]. intros s H0. pose proof (stmt_set_in s G H0).
  assert (RConn (my_m (my_set_active id c)) ∈ stmt_set s ∪ G) by (cbn; set_solver). plain.
Qed.
Lemma plain_queryEach G T c sql params callback : tame callback -> at_rest G c ->
  plain G T c (my_queryEach stod mktime localtime fuel sql params callback).
Proof.
  intros Ht Hr. apply p_body, p_bind; [plain|]. intros _. apply p_operation; [done|]. intros id Hid Hm.
  apply p_statement; [done..|]. intros s H0. apply plain_each; [done|]. by apply stmt_set_in.
Qed.

(** A statement succeeds on a connected handle only. *)
Lemma execute_connected G T c sql : at_rest G c ->
  spec Safe (at_ G T c) (my_execute fuel sql)
    (fun r w => match r with inr st => st_ok st = true -> my_m c <> 0%nat | inl _ => True end /\ at_ G T c w).
Proof.
  intros Hr. destruct (decide (my_m c = 0%nat)) as [E0|E0].
  - intros [[e c' t] o] Hw. pose proof Hw as (_ & _ & Hc). cbn in Hc. subst c'.
    unfold my_execute, body, xbind, write, connected, look, on_conn. cbn.
    rewrite E0, andb_false_r. cbn. split; [by intros ? | done].
  - eapply spec_post; [|by apply plain_execute]. intros [e|st] w Hw; by split.
Qed.
Lemma plain_execute_keys G T c sql : at_rest G c -> plain G T c (my_execute_keys fuel sql).
Proof.
  intros Hr. apply p_body, p_bind; [plain|]. intros _.
  eapply (spec_bind _ _ (fun r w => match r with inr st => st_ok st = true -> my_m c <> 0%nat | inl _ => True end
                                    /\ at_ G T c w)).
  - apply spec_within, execute_connected, Hr.
  - intros st. apply spec_fact. intros Hst. unfold check. destruct (st_ok st); [|plain].
    apply p_bind; [plain|]. intros _. apply p_bind; [|intros _; apply p_ret].
    apply plain_key. destruct Hr as [_ Hm]. by apply Hm, Hst.
  - by intros e w _ [_ Hw].
Qed.

Lemma plain_prepared {O} G T c h params (k : nat -> X O Status) : at_rest G c ->
  (forall s, prepared_native h (my_prepared c) = s -> s <> 0%nat -> RStmt s ∈ G) ->
  (forall s id, RStmt s ∈ G -> plain G T (my_set_active id c) (k s)) ->
  plain G T c (with_prepared localtime h params k).
Proof.
  intros [Ha Hm] Hs Hk. apply p_connected. intros H0. apply p_look.
  destruct (negb (handle_valid h) || _) eqn:Eh; [apply p_ret|]. apply orb_false_iff in Eh as [_ Eh].
  apply Nat.eqb_neq in Eh. specialize (Hs _ eq_refl Eh). apply p_active; [done | by apply Hm|].
  intros id Hid. apply p_bind; [by apply r_plain, bind_returns|]. intros st. apply p_bind; [plain|]. intros _.
  apply p_bind; [unfold execute_stmt; plain|]. intros _. by apply Hk.
Qed.

(** ** The session

    What a connection owns: its handle and the statements of its cache. *)
Definition handle_list (c : MyConn) : list Resource := if (my_m c =? 0)%nat then [] else [RConn (my_m c)].
Definition conn_handles : MyConn -> list Resource := owns handle_list RStmt.
Definition tx_of (c : MyConn) : gset nat := if my_tx c then {[my_m c]} else ∅.

Record conn_ok (c : MyConn) : Prop := {
  co_active : my_active c = 0;
  co_tx : my_tx c = true -> my_m c <> 0%nat;
  co_natives : Forall (fun s => s <> 0%nat) (cached_natives (my_prepared c));
}.
#[local] Abbreviation inv := (Books.inv (alloc := alloc) good (@tx_call) ∅ conn_handles tx_of conn_ok).
#[local] Abbreviation keeps_books := (Books.keeps_books (alloc := alloc) good (@tx_call) ∅ conn_handles tx_of conn_ok).
#[local] Instance my_lawful_caching : LawfulCaching handle_list tx_of conn_ok.
Proof. split; try done; [by intros c [] | intros p c [Ca Ct Cn] Hp; by split]. Qed.

Lemma owned_rest G c : conn_ok c -> list_to_set (conn_handles c) ⊆ G -> at_rest G c.
Proof.
  intros Hc HG. split; [apply Hc|]. intros Hm. apply HG. unfold conn_handles, owns, handle_list.
  apply Nat.eqb_neq in Hm as ->. set_solver.
Qed.
Lemma inv_rest c L : conn_ok c -> at_rest (list_to_set (conn_handles c ++ L)) c.
Proof. intros Hc. apply owned_rest; [done | set_solver]. Qed.
Lemma rest_books {O A} (m : X O A) : (forall G T c, at_rest G c -> plain G T c m) -> keeps_books m.
Proof. intros Hm. apply plain_books. intros G T c Hc HG. apply Hm. by apply owned_rest. Qed.
Lemma prepared_books {O} h params (k : nat -> X O Status) :
  (forall G T c s, RStmt s ∈ G -> plain G T c (k s)) -> keeps_books (with_prepared localtime h params k).
Proof.
  intros Hk. apply plain_books. intros G T c Hc HG. apply plain_prepared; [by apply owned_rest|..].
  - intros s Hs H0. apply HG, elem_of_list_to_set. by eapply (prepared_owned handle_list RStmt c).
  - intros s id Hs. by apply Hk.
Qed.

(** *** Transactions *)
Lemma command_spec {O} G T c place sql : RConn (my_m c) ∈ G ->
  spec Safe (at_ G T c) (command (O := O) place sql)
    (fun r => at_ G (match r with inr _ => tx_call (McQuery (my_m c) sql) 0 T | inl _ => T end) c).
Proof.
  intros Hm. apply spec_my.
  eapply (spec_bind _ _ (fun r w => match r with
                                    | inr rc => at_ G (tx_call (McQuery (my_m c) sql) rc T) c w
                                    | inl _ => False
                                    end)).
  - apply spec_lib. intros w Hw. pose proof (at_call (McQuery (my_m c) sql) G T c w Hw) as H.
    eapply at_equiv; [apply H; [by repeat constructor | set_solver | done]|]. cbn. set_solver.
  - intros rc. unfold succeeds, fail_unless. destruct (rc =? 0) eqn:Erc.
    + apply Z.eqb_eq in Erc as ->. by apply spec_ret.
    + replace (tx_call (McQuery (my_m c) sql) rc T) with T by (cbn; by rewrite Erc).
      eapply spec_bind; [by apply plain_lastError| |done]. intros st. by apply spec_early.
  - by intros e w _ [].
Qed.
(** Nothing else begins or ends a transaction. *)
Definition tx_neutral (sql : str) : Prop :=
  str_eqb sql (lit "START TRANSACTION") = false /\ str_eqb sql (lit "COMMIT") = false
  /\ str_eqb sql (lit "ROLLBACK") = false.
Lemma plain_command {O} G T c place sql : RConn (my_m c) ∈ G -> tx_neutral sql ->
  plain G T c (command (O := O) place sql).
Proof.
  intros Hm (H1 & H2 & H3). eapply spec_post; [|by apply command_spec].
  intros r w. unfold tx_call. rewrite H1, H2, H3. by destruct r.
Qed.
Lemma idle_spec {O} G T c : spec Safe (at_ G T c) (my_idle (O := O))
  (fun r w => match r with inr _ => my_m c <> 0%nat /\ my_tx c = false | inl _ => True end /\ at_ G T c w).
Proof.
  eapply spec_bind; [apply connected_spec|..].
  - intros []. apply spec_fact. intros H0. apply spec_look. intros [].
    + apply spec_early. by intros w [Hw _].
    + apply spec_ret. intros w [Hw Ht]. pose proof Hw as (_ & _ & Hc). rewrite Hc in Ht. done.
  - by intros e w _ [_ Hw].
Qed.

Section AtRest.
Context (L : list Resource) (c : MyConn) (Hn : NoDup (conn_handles c ++ L)) (Hc : conn_ok c).
Let G : gset Resource := list_to_set (conn_handles c ++ L).
Lemma rest_inv w : at_ G (tx_of c) c w -> inv L w.
Proof. by exists c. Qed.
Lemma rest_tx b w : (b = true -> my_m c <> 0%nat) -> at_ G (if b then {[my_m c]} else ∅) c w ->
  inv L (mkWorld (w_env w) (my_set_tx b (w_conn w)) (w_trace w)).
Proof.
  intros Hb Hw. pose proof Hw as (_ & _ & ->). exists (my_set_tx b c).
  split; [by eapply at_conn|]. split; [done|]. destruct Hc as [Ca _ Cn]. by split.
Qed.

Lemma begin_spec {O} : spec Safe (at_ G (tx_of c) c) (my_begin (O := O)) (fun _ => inv L).
Proof.
  apply spec_body. eapply spec_bind; [apply idle_spec|..].
  - intros []. apply spec_fact. intros [H0 Ht]. eapply spec_bind; [by apply command_spec, inv_rest|..].
    + intros []. eapply (spec_bind _ _ (fun _ => inv L)).
      * apply spec_change. intros w Hw. apply rest_tx; [done|]. destruct Hw as (H1 & H2 & H3).
        split; [done|]. split; [|done]. rewrite H2. unfold tx_of. rewrite Ht. cbn. set_solver.
      * intros []. by apply spec_ret.
      * by intros [].
    + intros [] w _ Hw; by apply rest_inv.
  - intros [] w _ [_ Hw]; by apply rest_inv.
Qed.
Lemma begin_with_spec {O} o : spec Safe (at_ G (tx_of c) c) (my_begin_with (O := O) o) (fun _ => inv L).
Proof.
  apply spec_body. eapply spec_bind; [apply idle_spec|..].
  - intros []. apply spec_fact. intros [H0 Ht].
    assert (RConn (my_m c) ∈ G) by (by apply inv_rest).
    eapply (spec_bind _ _ (fun _ => at_ G (tx_of c) c)).
    + destruct (my_level (to_isolation o)) as [l|] eqn:El; [|apply p_ret].
      apply plain_command; [done|]. by destruct (to_isolation o); inversion El; subst.
    + intros []. eapply (spec_bind _ _ (fun _ => at_ G (tx_of c) c)).
      * destruct (to_readOnly o); [by apply plain_command | apply p_ret].
      * intros []. eapply spec_post; [|apply begin_spec]. by intros [[]|].
      * intros [] w _ Hw; by apply rest_inv.
    + intros [] w _ Hw; by apply rest_inv.
  - intros [] w _ [_ Hw]; by apply rest_inv.
Qed.
Lemma end_spec {O} place sql : sql = "COMMIT"%string \/ sql = "ROLLBACK"%string ->
  spec Safe (at_ G (tx_of c) c) (my_end (O := O) place sql) (fun _ => inv L).
Proof.
  intros Hsql. apply spec_body. eapply spec_bind; [apply connected_spec|..].
  - intros []. apply spec_fact. intros H0. eapply spec_bind; [by apply command_spec, inv_rest|..].
    + intros []. eapply (spec_bind _ _ (fun _ => inv L)).
      * apply spec_change. intros w Hw. apply rest_tx; [done|]. destruct Hw as (H1 & H2 & H3).
        split; [done|]. split; [|done]. rewrite H2. unfold tx_of.
        destruct Hsql as [->| ->]; destruct (my_tx c); cbn; apply leibniz_equiv; set_solver.
      * intros []. by apply spec_ret.
      * by intros [].
    + intros [] w _ Hw; by apply rest_inv.
  - intros [] w _ [_ Hw]; by apply rest_inv.
Qed.
Lemma savepoint_spec {O} sql name : sql ∈ ["SAVEPOINT"; "RELEASE SAVEPOINT"; "ROLLBACK TO SAVEPOINT"]%string ->
  spec Safe (at_ G (tx_of c) c) (my_savepoint_op (O := O) sql name) (fun _ => inv L).
Proof.
  intros Hsql. apply spec_body, spec_look. intros busy. destruct busy; cbn [negb orb].
  - destruct (negb (my_validSavepointName name)); [by apply spec_ret; intros w [Hw _]; apply rest_inv|].
    apply (spec_pre _ (fun w => (my_m c <> 0%nat) /\ at_ G (tx_of c) c w)).
    { intros w [Hw Hb]. split; [|done]. destruct Hw as (_ & _ & Hk). rewrite Hk in Hb. by apply Hc. }
    apply spec_fact. intros H0. eapply (spec_bind _ _ (fun _ => at_ G (tx_of c) c)).
    + apply plain_command; [by apply inv_rest|]. unfold tx_neutral, str_eqb. rewrite !bool_decide_eq_false.
      rewrite !elem_of_cons, elem_of_nil in Hsql.
      destruct Hsql as [->|[->|[->|[]]]]; split_and!; intros [=].
    + intros []. apply spec_ret. intros w Hw. by apply rest_inv.
    + intros [] w _ Hw; by apply rest_inv.
  - apply spec_ret. intros w [Hw _]. by apply rest_inv.
Qed.
End AtRest.

(** *** The cache of statements *)
Lemma guard_goes {O} G T c s : s <> 0%nat -> RStmt s ∉ G ->
  goes (at_ ({[RStmt s]} ∪ G) T c) (stmt_guard (O := O) s) (fun _ => at_ G T c).
Proof.
  intros H0 Hs. pose proof (rel_guard (O := O) s G T c) as Hr. unfold stmt_set, pointer in Hr.
  apply Nat.eqb_neq in H0. rewrite H0 in Hr. apply Hr. set_solver.
Qed.
Section Statements.
Context (L : list Resource) (c : MyConn) (Hn : NoDup (conn_handles c ++ L)) (Hc : conn_ok c).
Let G : gset Resource := list_to_set (conn_handles c ++ L).
Lemma at_rest_inv w : at_ G (tx_of c) c w -> inv L w.
Proof. by exists c. Qed.
Lemma prepare_books sql sample : spec Safe (at_ G (tx_of c) c) (my_prepare sql sample) (fun _ => inv L).
Proof.
  apply spec_body_inv, spec_write_bind. eapply spec_bind; [apply connected_spec| |].
  2: { intros [] w _ [_ Hw]; by apply at_rest_inv. }
  intros []. apply spec_fact. intros H0. cbv zeta. apply spec_look_at.
  destruct (prepared_hit (prepared_key sql sample) (my_prepared c)) as [[h p]|] eqn:Eh.
  - eapply spec_goes; [by eapply (hit_goes _ _ _ handle_list RStmt tx_of conn_ok L c Hn Hc)|].
    intros []. apply spec_write_bind. by apply spec_ret.
  - assert (pr_cache (my_prepared c) !! prepared_key sql sample = None) as Ek
      by (unfold prepared_hit in Eh; by destruct (_ !! _)).
    apply spec_my, p_open; [done | done | constructor; [by apply inv_rest|constructor] | allow |]. intros s Hs.
    change (got (McStmtInit (my_m c)) s) with (stmt_set s) in *.
    destruct (s =? 0)%nat eqn:E0.
    { apply spec_ret. intros w Hw. apply at_rest_inv. eapply at_equiv; [exact Hw|].
      apply Nat.eqb_eq in E0 as ->. unfold stmt_set. cbn. set_solver. }
    apply Nat.eqb_neq in E0. pose proof (stmt_set_in s G E0) as Hin.
    assert (stmt_set s = {[RStmt s]}) as Es by (unfold stmt_set, pointer; by rewrite (proj2 (Nat.eqb_neq s 0) E0)).
    apply spec_returns; [apply r_lib; plain_side|]. intros rc. destruct (negb (rc =? 0)); rewrite Es in *.
    + apply spec_returns; [apply r_lib; plain_side|]. intros msg.
      eapply spec_goes; [apply goes_closing with (r := RStmt s); try done; set_solver|].
      intros []. apply spec_ret; intros w Hw; by apply at_rest_inv.
    + eapply spec_goes.
      { apply (enter_goes _ _ _ handle_list RStmt tx_of conn_ok stmt_guard guard_goes L c Hn Hc); [done | set_solver | done]. }
      intros h. apply spec_write_bind. by apply spec_ret.
Qed.
End Statements.

(** *** Closing and connecting *)
Definition closed_conn (c : MyConn) : MyConn :=
  my_set_tx false (my_set_open false (my_set_m 0 (my_set_prepared (prepared_clear (my_prepared c)) c))).
Lemma closed_handles c : conn_handles (closed_conn c) = [].
Proof. unfold conn_handles, owns. cbn [cache_of my_caching my_prepared closed_conn my_set_tx my_set_open my_set_m my_set_prepared]. by rewrite cleared_natives. Qed.
Lemma closed_ok c : my_active c = 0 -> conn_ok (closed_conn c).
Proof. intros Ha. split; [done | done |]. cbn [my_prepared closed_conn my_set_tx my_set_open my_set_m my_set_prepared]. rewrite cleared_natives. constructor. Qed.

Definition without (m : nat) (T : gset nat) : gset nat := if (m =? 0)%nat then T else T ∖ {[m]}.
Lemma close_conn_spec {O} L T c : NoDup (conn_handles c ++ L) -> conn_ok c ->
  goes (at_ (list_to_set (conn_handles c ++ L)) T c) (my_close (O := O))
    (fun _ => at_ (list_to_set L) (without (my_m c) T) (closed_conn c)).
Proof.
  intros Hn Hc. eapply spec_goes.
  { apply (close_prepared_goes _ _ _ handle_list RStmt tx_of conn_ok stmt_guard guard_goes L c Hn Hc). }
  intros []. cbn [set_cache cache_of my_caching]. set (c1 := my_set_prepared _ c). apply spec_look_at.
  change (my_m c1) with (my_m c). pose proof (cleared_nodup handle_list RStmt L c Hn) as Hn1.
  eapply (spec_goes _ _ (fun _ => at_ (list_to_set L) (without (my_m c) T) (my_set_m 0 c1))).
  - unfold handle_list, without in *. destruct (my_m c =? 0)%nat eqn:E0.
    + apply goes_ret. intros w Hw. apply Nat.eqb_eq in E0.
      replace (my_set_m 0 c1) with c1; [done|]. unfold c1, my_set_m, my_set_prepared. cbn. by rewrite E0.
    + apply (spec_goes _ _ (fun _ => at_ (list_to_set L) (T ∖ {[my_m c]}) c1)); [|intros []; apply goes_change].
      apply spec_lib. intros w Hw. cbn in Hn1, Hw. apply NoDup_cons in Hn1 as [Hr _].
      rewrite <- (elem_of_list_to_set (C := gset Resource)) in Hr. 
      pose proof (closing_call (McClose (my_m c)) (RConn (my_m c)) _ T c1 w Hw eq_refl Hr) as Ha. apply Ha; [done..|allow].
  - intros []. apply spec_change_bind. exact (goes_change _ _ _ (my_set_tx false) _ _ _).
Qed.

Lemma plain_options {O} G T c m cfg : RConn m ∈ G ->
  plain G T c (connect_options (O := O) new_client m cfg).
Proof. intros Hm. unfold connect_options, option_set. plain. Qed.

(** A connection as [connect] leaves it: the others' transactions [T] go on. *)
Definition connected_inv (L : list Resource) (T : gset nat) (ok : bool) (w : W) : Prop :=
  exists c, at_ (list_to_set (conn_handles c ++ L)) T c w /\ NoDup (conn_handles c ++ L) /\ conn_ok c
    /\ my_tx c = false /\ (ok = true -> my_m c <> 0%nat).
Definition connect_post (L : list Resource) (T : gset nat) (r : Exit + Status) : W -> Prop :=
  connected_inv L T (match r with inr st | inl (Return st) => st_ok st | inl _ => false end).

Section Connecting.
Context (L : list Resource) (T : gset nat) (c0 : MyConn) (HL : NoDup L)
  (HT : forall m, m ∈ T -> RConn m ∈ L)
  (Hc0 : conn_ok c0) (Htx : my_tx c0 = false) (Em : my_m c0 = 0%nat) (En : cached_natives (my_prepared c0) = []).

Lemma fresh_conn m b w :
  at_ (list_to_set (handle_list (my_set_m m c0) ++ L)) T (my_set_open b (my_set_m m c0)) w ->
  RConn m ∉ L -> forall ok, (ok = true -> m <> 0%nat) -> connected_inv L T ok w.
Proof.
  intros Hw Hm ok Hok. set (c := my_set_open b (my_set_m m c0)) in *. exists c.
  assert (conn_handles c = handle_list (my_set_m m c0)) as Eh
    by (unfold conn_handles, owns, c; cbn; by rewrite En, app_nil_r).
  rewrite Eh. split; [done|]. split.
  - unfold handle_list. cbn. destruct (m =? 0)%nat; [done|]. by apply NoDup_cons.
  - split; [|done]. destruct Hc0 as [Ca Ct Cn]. split; [done | cbn; by rewrite Htx | done].
Qed.
(** From a connection that has nothing. *)
Lemma connect_fresh {O} cfg : spec Safe (at_ (list_to_set L) T c0) (connect_handle (O := O) new_client cfg) (connect_post L T).
Proof.
  apply p_open; [done | done | constructor | allow |]. intros m Hd. set (c1 := my_set_m m c0).
  assert (got McInit m ≡@{gset Resource} list_to_set (handle_list c1)) as Eg
    by (unfold got, handle_list, c1; cbn; unfold pointer; destruct (m =? 0)%nat; cbn; set_solver).
  apply (spec_pre _ (at_ (list_to_set (handle_list c1 ++ L)) T c0)).
  { intros w Hw. eapply at_equiv; [exact Hw|]. by rewrite list_to_set_app, Eg. }
  apply spec_change_bind. fold c1. rewrite Eg in Hd. unfold handle_list in *. cbn [my_m c1 my_set_m] in *.
  assert (c1 = my_set_open (my_open c1) c1) as Eo by (by destruct c1).
  destruct (m =? 0)%nat eqn:E0; cbn [app] in *.
  { apply Nat.eqb_eq in E0. apply spec_ret. intros w Hw. rewrite Eo in Hw. unfold connect_post.
    exists (my_set_open (my_open c1) c1). unfold conn_handles, owns, handle_list, c1. cbn. rewrite E0, En. cbn.
    split; [unfold c1 in Hw; by rewrite E0 in Hw|]. split; [done|]. split; [|done].
    destruct Hc0 as [Ca Ct Cn]. split; [done | cbn; by rewrite Htx | cbn; by rewrite En]. }
  apply Nat.eqb_neq in E0.
  assert (forall b w, at_ (list_to_set (RConn m :: L)) T (my_set_open b c1) w -> connected_inv L T true w) as Hin.
  { intros b w Hw. apply (fresh_conn m b); [|set_solver|done]. unfold handle_list. cbn. by rewrite (proj2 (Nat.eqb_neq m 0) E0). }
  assert (forall e w, e <> Running -> at_ (list_to_set (RConn m :: L)) T c1 w -> connect_post L T (inl e) w) as Hearly.
  { intros e w _ Hw. rewrite Eo in Hw. unfold connect_post.
    destruct (Hin _ _ Hw) as (c & H1 & H2 & H3 & H4 & H5). exists c. repeat (split; [done|]). auto. }
  assert (RConn m ∈@{gset Resource} list_to_set (RConn m :: L)) as Hm by set_solver.
  apply spec_plain; [by apply plain_options | intros [] | exact Hearly].
  apply spec_returns; [apply r_lib; plain_side|]. intros [].
  - apply spec_change_bind, spec_ret. intros w Hw. by apply (Hin true).
  - do 3 (apply spec_returns; [apply r_lib; plain_side|]; intros ?).
    eapply (spec_goes _ _ (fun _ => at_ (list_to_set L) T c1)).
    + apply spec_lib. intros w Hw.
      assert (T ∖ {[m]} = T) as Et.
      { apply leibniz_equiv. intros k. rewrite elem_of_difference, elem_of_singleton. split; [tauto|].
        intros Hk. split; [done|]. intros ->. apply HT in Hk. set_solver. }
      pose proof (closing_call (McClose m) (RConn m) (list_to_set L) T c1 w Hw eq_refl) as Ha. cbn in Ha.
      rewrite Et in Ha. apply Ha; [set_solver | done | done | allow].
    + intros []. do 2 apply spec_change_bind. apply spec_ret. intros w Hw. unfold connect_post. rewrite databaseError_not_ok by done.
      exists (my_set_open false c0).
      replace (my_set_open false (my_set_m 0 c1)) with (my_set_open false c0) in Hw
        by (unfold c1, my_set_m, my_set_open; destruct c0; cbn in *; by subst).
      unfold conn_handles, owns, handle_list. cbn. rewrite Em, En. cbn.
      split; [done|]. split; [done|]. split; [|done]. destruct Hc0 as [Ca Ct Cn]. by split.
Qed.
End Connecting.

Lemma my_connect_spec {O} L T c cfg : NoDup (conn_handles c ++ L) -> conn_ok c ->
  (forall m, m ∈ without (my_m c) T -> RConn m ∈ L) ->
  spec Safe (at_ (list_to_set (conn_handles c ++ L)) T c) (my_connect (O := O) new_client cfg)
    (connect_post L (without (my_m c) T)).
Proof.
  intros Hn Hc HT. apply spec_body.
  eapply (spec_bind _ _ (fun r w => match r with
    | inr _ => at_ (list_to_set (conn_handles c ++ L)) T (my_set_cfg cfg c) w | inl _ => False end)).
  { apply spec_change. intros w Hw. pose proof Hw as (_ & _ & ->). by eapply at_conn. }
  2: { by intros e w _ []. }
  intros []. eapply spec_bind.
  - apply (close_conn_spec L T (my_set_cfg cfg c)); [done|]. destruct Hc as [Ca Ct Cn]. by split.
  - intros []. eapply spec_post; [|apply connect_fresh; try done].
    all: first [by intros [[]|] | by apply NoDup_app in Hn as (_ & _ & ?) | apply closed_handles | apply closed_ok, Hc].
  - by intros e w _ [].
Qed.
Lemma connect_books {O} L c cfg : NoDup (conn_handles c ++ L) -> conn_ok c ->
  spec Safe (at_ (list_to_set (conn_handles c ++ L)) (tx_of c) c) (my_connect (O := O) new_client cfg)
    (fun _ => inv L).
Proof.
  intros Hn Hc. assert (without (my_m c) (tx_of c) = ∅) as Et.
  { unfold without, tx_of. destruct (my_tx c) eqn:Etx; [|by destruct (_ =? _)%nat; set_solver].
    pose proof (co_tx _ Hc Etx) as H0. apply Nat.eqb_neq in H0 as ->. set_solver. }
  eapply spec_post; [|apply my_connect_spec; [done | done | rewrite Et; set_solver]].
  rewrite Et. intros r w (c' & Hw & Hn' & Hc' & Htx & _). exists c'. split; [|done].
  unfold tx_of. by rewrite Htx.
Qed.
Lemma close_books {O} L c : NoDup (conn_handles c ++ L) -> conn_ok c ->
  spec Safe (at_ (list_to_set (conn_handles c ++ L)) (tx_of c) c) (my_close (O := O)) (fun _ => inv L).
Proof.
  intros Hn Hc. eapply spec_post; [|by apply close_conn_spec]. intros [e|u] w Hw; [done|].
  exists (closed_conn c). rewrite closed_handles. split; [|split; [|apply closed_ok, Hc]].
  - unfold without, tx_of in *. cbn. destruct (my_tx c) eqn:Etx.
    + pose proof (co_tx _ Hc Etx) as H0. apply Nat.eqb_neq in H0. rewrite H0 in Hw.
      destruct Hw as (H1 & H2 & H3). split; [done|]. split; [|done]. rewrite H2. set_solver.
    + destruct (_ =? _)%nat; [done|]. destruct Hw as (H1 & H2 & H3). split; [done|]. split; [|done].
      rewrite H2. set_solver.
  - by apply NoDup_app in Hn as (_ & _ & ?).
Qed.

(** ** Cancelling

    Another thread may cancel at any moment of an operation; whatever the operation
    holds then, [cancel] leaves as it is. *)
Lemma plain_cancel {O} G T c : (forall m, m ∈ T -> RConn m ∈ G) -> plain G T c (my_cancel (O := O) new_client).
Proof.
  intros HT. apply spec_body_inv, spec_look. intros k. destruct ((my_m k =? 0)%nat || _ || _).
  { apply spec_ret. by intros w [Hw _]. }
  apply (spec_pre _ (at_ G T c)); [by intros w [Hw _]|].
  apply spec_on_other; [intros; by apply safe_other|]. intros c0. set (n := my_new (my_cfg k)).
  assert (NoDup (conn_handles n ++ elements G)) as Hn by apply NoDup_elements.
  assert (conn_ok n) as Hok by (split; [done | done | constructor]).
  apply (spec_pre _ (fun w => c0 = c /\ at_ (list_to_set (conn_handles n ++ elements G)) T n w)).
  { intros w [Hk Hw]. split; [by destruct Hw as (_ & _ & ?)|]. rewrite <- Hk at 2.
    eapply at_equiv; [apply (at_conn (w_conn w)) in Hw; destruct w; exact Hw|].
    change (conn_handles n) with (@nil Resource). cbn [app]. by rewrite list_to_set_elements. }
  apply spec_fact. intros ->.
  eapply (spec_finally _ _ (fun _ w => exists ok, connected_inv (elements G) T ok w)).
  - eapply spec_bind; [apply my_connect_spec; [done | done |]| |].
    + intros m Hm. apply elem_of_elements, HT, Hm.
    + intros status. unfold connect_post. cbn [without n my_m my_new Nat.eqb].
      destruct (negb (st_ok status)) eqn:Es.
      { apply spec_ret. eauto. }
      apply negb_false_iff in Es. rewrite Es.
      intros s (c' & Hw & Hn' & Hc' & Htx & H0). specialize (H0 eq_refl).
      assert (RConn (my_m c') ∈@{gset Resource} list_to_set (conn_handles c' ++ elements G)) as Hm by (by apply inv_rest).
      revert s Hw. change (spec (O := O) Safe (at_ (list_to_set (conn_handles c' ++ elements G)) T c')
        (rc <~ my (fun m => McKill m (my_active k));
         if rc =? 0 then xret StatusOK
         else msg <~ my McError; state <~ my McSqlstate; code <~ my McErrno;
              xret (databaseError Cancelled (lit "MySQL mysql_kill: " ++ msg) (default [] state) code))
        (fun _ w => exists ok, connected_inv (elements G) T ok w)).
      eapply (spec_post _ _ (fun _ => at_ (list_to_set (conn_handles c' ++ elements G)) T c')).
      { intros r w Hw. exists false, c'. repeat (split; [done|]). by intros ?. }
      plain.
    + intros e w _ Hw. eexists. exact Hw.
  - intros r s (ok & c' & Hw & Hn' & Hc' & Htx & _). revert s Hw.
    change (spec Safe (at_ (list_to_set (conn_handles c' ++ elements G)) T c') (my_close (O := O))
      (fun u w => match u with inl e => at_ G T c (mkWorld (w_env w) c (w_trace w))
                  | inr _ => at_ G T c (mkWorld (w_env w) c (w_trace w)) end)).
    eapply spec_post; [|by apply close_conn_spec]. intros [e|u] w Hw; [done|].
    apply at_conn with (c := closed_conn c').
    assert (without (my_m c') T = T) as Et.
    { unfold without. destruct (my_m c' =? 0)%nat eqn:E0; [done|]. apply leibniz_equiv. intros m.
      rewrite elem_of_difference, elem_of_singleton. split; [tauto|]. intros Hm. split; [done|]. intros ->.
      unfold conn_handles, owns, handle_list in Hn'. rewrite E0 in Hn'. cbn in Hn'. apply NoDup_cons in Hn' as [Hn' _].
      apply Hn', elem_of_app. right. by apply elem_of_elements, HT. }
    rewrite Et in Hw. eapply at_equiv; [exact Hw|]. by rewrite list_to_set_elements.
Qed.

(** ** Cursors *)
Definition cursor_handles (k : MyCursor) : list Resource :=
  (if (mc_stmt k =? 0)%nat then [] else [RStmt (mc_stmt k)])
  ++ match mc_meta k with Some h => [RResult h] | None => [] end.
Definition cursor_set (k : MyCursor) : gset Resource := list_to_set (cursor_handles k).
Record cursor_ok (k : MyCursor) : Prop := {
  ck_handles : NoDup (cursor_handles k);
  ck_open : mc_open k = true -> mc_stmt k <> 0%nat;
}.

Lemma reset_spec {O} G T c k : cursor_set k ## G ->
  goes (at_ (cursor_set k ∪ G) T c) (mc_reset (O := O) k) 
    (fun k' w => (cursor_handles k' = [] /\ mc_open k' = false) /\ at_ G T c w).
Proof.
  intros Hd. unfold cursor_set, cursor_handles in *. unfold mc_reset.
  assert (list_to_set (if (mc_stmt k =? 0)%nat then [] else [RStmt (mc_stmt k)]) ≡@{gset Resource} stmt_set (mc_stmt k))
    as Es by (unfold stmt_set, pointer; destruct (_ =? _)%nat; cbn; set_solver).
  rewrite list_to_set_app, Es in Hd.
  eapply (spec_goes _ _ (fun _ => at_ (stmt_set (mc_stmt k) ∪ G) T c)).
  - destruct (mc_meta k) as [h|].
    + eapply spec_pre; [|apply goes_closing with (r := RResult h); try done].
      * intros w Hw. eapply at_equiv; [exact Hw|]. rewrite list_to_set_app, Es. cbn. set_solver.
      * assert (RResult h ∉ stmt_set (mc_stmt k)) by (unfold stmt_set, pointer; destruct (_ =? _)%nat; cbn; set_solver).
        set_solver.
    + apply goes_ret. intros w Hw. eapply at_equiv; [exact Hw|]. rewrite list_to_set_app, Es. cbn. set_solver.
  - intros []. eapply spec_goes; [apply rel_guard; set_solver|]. intros []. by apply goes_ret.
Qed.

(** The handles of a new cursor besides those of the connection. *)
Lemma setup_spec {O} G T c s batch : s <> 0%nat -> RStmt s ∉ G -> RConn (my_m c) ∈ G ->
  goes (at_ ({[RStmt s]} ∪ G) T c) (setupResult (O := O) s batch)
    (fun a w => (cursor_set a.2 ## G /\ cursor_ok a.2) /\ at_ (cursor_set a.2 ∪ G) T c w).
Proof.
  intros H0 Hs Hm. apply p_open; [done | done | constructor; [set_solver|constructor] | allow |].
  apply Nat.eqb_neq in H0. intros [[h fields]|] Hd.
  - change (got (McMetadata s) (Some (h, fields))) with ({[RResult h]} : gset Resource) in *.
    assert (forall st k w, mc_stmt k = s -> mc_meta k = Some h -> at_ ({[RResult h]} ∪ ({[RStmt s]} ∪ G)) T c w ->
      (cursor_set (st, k).2 ## G /\ cursor_ok (st, k : MyCursor).2) /\ at_ (cursor_set (st : Status, k).2 ∪ G) T c w) as Hk.
    { intros st k w Ek1 Ek2 Hw. cbn [snd]. unfold cursor_set, cursor_handles. rewrite Ek1, Ek2, H0. cbn.
      split; [split; [set_solver|]|].
      - split; [unfold cursor_handles; rewrite Ek1, Ek2, H0; repeat constructor; set_solver
               | intros _; rewrite Ek1; by apply Nat.eqb_neq].
      - eapply at_equiv; [exact Hw|]. set_solver. }
    assert (RConn (my_m c) ∈ {[RResult h]} ∪ ({[RStmt s]} ∪ G)) by set_solver.
    assert (RStmt s ∈ {[RResult h]} ∪ ({[RStmt s]} ∪ G)) by set_solver.
    apply spec_returns; [apply r_lib; plain_side|]. intros rc. destruct (rc =? 0).
    + apply goes_ret. intros w. by apply Hk.
    + apply spec_returns; [unfold lastError, my; returns|]. intros st. apply goes_ret. intros w. by apply Hk.
  - apply goes_ret. intros w Hw. unfold cursor_set, cursor_handles. cbn. rewrite H0. cbn.
    split; [split; [set_solver|]|].
    + split; [unfold cursor_handles; cbn; rewrite H0; repeat constructor; set_solver | by intros ?].
    + eapply at_equiv; [exact Hw|]. unfold got. cbn. set_solver.
Qed.

Definition opened_cursor (G : gset Resource) (r : Exit + (Status * option MyCursor)) (G' : gset Resource) : Prop :=
  match r with
  | inr (_, Some k) => cursor_set k ## G /\ cursor_ok k /\ G' = cursor_set k ∪ G
  | _ => G' = G
  end.
Lemma refused {O} G T c s (st : Status) : stmt_set s ## G ->
  spec Safe (at_ (stmt_set s ∪ G) T c) (stmt_guard (O := O) s ~; xret (st, @None MyCursor))
    (fun r w => exists G', opened_cursor G r G' /\ at_ G' T c w).
Proof.
  intros Hs. eapply spec_goes; [by apply rel_guard|]. intros []. apply spec_ret. intros w Hw. by exists G.
Qed.
Lemma open_cursor_spec G T c sql params batch : at_rest G c ->
  spec Safe (at_ G T c) (open_cursor localtime sql params batch)
    (fun r w => exists G', opened_cursor G r G' /\ at_ G' T c w).
Proof.
  intros [Ha Hm]. eapply spec_bind; [apply connected_spec| |by intros e w _ [_ Hw]; exists G].
  intros []. apply spec_fact. intros H0. specialize (Hm H0).
  apply active_spec; [done | done | | done]. intros id Hid. eapply spec_goes; [by apply prepare_spec|].
  intros [st s]. apply spec_fact. cbv zeta. cbn [fst snd]. intros [Hs Hd].
  assert (RConn (my_m (my_set_active id c)) ∈ stmt_set s ∪ G) by (cbn; set_solver).
  destruct (st_ok st); cbn [negb].
  - specialize (Hs eq_refl). pose proof (stmt_set_in s G Hs) as Hin. apply spec_returns.
    + apply r_bind; [apply r_lib; plain_side|]. intros rc. destruct (rc =? 0); [apply r_ret|].
      unfold stmtError. returns.
    + intros [st'|u]; [by apply refused|].
      assert (stmt_set s = {[RStmt s]}) as Es by (unfold stmt_set, pointer; by rewrite (proj2 (Nat.eqb_neq s 0) Hs)).
      rewrite Es in *. eapply spec_goes; [apply setup_spec; [done | set_solver | done]|].
      intros [st' k]. cbn [fst snd]. apply spec_fact. intros [Hk1 Hk2]. destruct (st_ok st').
      * apply spec_ret. intros w Hw. eexists. by split.
      * eapply spec_goes; [by apply reset_spec|]. intros k'. apply spec_ret. intros w [_ Hw]. by exists G.
  - eapply (spec_goes _ _ (fun ok w => ok = inl st /\ at_ (stmt_set s ∪ G) T (my_set_active id c) w)).
    + by apply goes_ret.
    + intros ok. apply spec_fact. intros ->. by apply refused.
Qed.

(** *** Fetching keeps a cursor's handles *)
Section Seen.
Context {O B : Type} (f : MyConn -> O -> B) (Hf : forall id c o, f (my_set_active id c) o = f c o).
Lemma lv_my {A} (c : nat -> MyCall A) : leaves f (my c).
Proof. apply lv_bind; [apply lv_look | intros m; apply lv_lib]. Qed.
Lemma lv_connected place : leaves f (connected (E := E) place).
Proof. apply lv_bind; [apply lv_look|]. intros [|]; apply lv_ret. Qed.
Lemma lv_active {A} (m : X O A) : leaves f m -> leaves f (active_operation m).
Proof.
  intros Hm. apply lv_bind; [apply lv_my|]. intros id. apply lv_bind; [by apply lv_change|]. intros _.
  apply lv_finally; [done|]. apply lv_change. intros c o. by destruct (_ =? _).
Qed.
Lemma lv_lastError place : leaves f (lastError place).
Proof. repeat (apply lv_bind; [apply lv_my|intros ?]). apply lv_ret. Qed.
Lemma lv_stmtError place s : leaves f (stmtError place s).
Proof. repeat (apply lv_bind; [apply lv_lib|intros ?]). apply lv_ret. Qed.
Lemma lv_unless b (m : X O Status) : leaves f m -> leaves f (fail_unless b m).
Proof. intros Hm. destruct b; [apply lv_ret|]. apply lv_bind; [done | intros st; apply lv_ret]. Qed.
Lemma lv_refetch failed s before cols : (forall place l, leaves f (failed place l)) ->
  leaves f (refetch failed s before cols).
Proof.
  intros Hfail. revert before. induction cols as [|k cols IH]; intros before; cbn [refetch]; [apply lv_ret|].
  destruct (_ <=? _); [apply IH|]. cbv zeta. apply lv_bind; [apply lv_lib|]. intros p.
  apply lv_bind; [apply lv_unless, Hfail | intros _; apply IH].
Qed.
Lemma lv_next failed s cols : (forall place l, leaves f (failed place l)) -> leaves f (next_row failed s cols).
Proof.
  intros Hfail. apply lv_bind; [apply lv_lib|]. intros r. destruct (_ =? _); [apply lv_ret|].
  apply lv_bind; [apply lv_unless, Hfail|]. intros _. cbv zeta. apply lv_bind; [|intros ?; apply lv_ret].
  destruct (_ =? _); [by apply lv_refetch | apply lv_ret].
Qed.
End Seen.

Definition handles_of {R} (o : MyCursor * R) : nat * option nat * bool := (mc_stmt o.1, mc_meta o.1, mc_open o.1).
Abbreviation leaves_cursor := (leaves (fun (_ : MyConn) o => handles_of o)).
Lemma fetch_handles k n : leaves_cursor (mc_fetch_of stod mktime k n).
Proof.
  unfold mc_fetch_of. destruct (_ || _); [apply lv_ret|]. apply lv_active; [done|]. apply lv_bind.
  { destruct (mc_fieldsSet k); [apply lv_ret | by apply lv_write]. }
  intros _. induction (Z.to_nat _) as [|want IH]; cbn [mc_fetch_rows]; [apply lv_ret|].
  apply lv_bind; [apply lv_out|]. intros cols. apply lv_bind.
  - apply lv_next. intros place l. apply lv_bind; [by apply lv_write | intros _; apply lv_lastError].
  - intros [cols'|]; (apply lv_bind; [by apply lv_write|]); intros _; [exact IH | apply lv_ret].
Qed.
Lemma fetchRow_handles k : leaves_cursor (mc_fetchRow_of stod mktime k).
Proof.
  unfold mc_fetchRow_of. apply lv_bind; [by apply lv_write|]. intros _. destruct (_ || _); [apply lv_ret|].
  apply lv_bind.
  - intros [w [k' o]]. unfold within. cbn.
    assert (leaves_cursor (st <~ body (mc_fetch_of stod mktime k 1); rows <~ out (fun o => rs_rows o.2); xret (st, rows))) as Hk.
    { apply lv_bind; [apply lv_body, fetch_handles|]. intros st. apply lv_bind; [apply lv_out | intros ?; apply lv_ret]. }
    specialize (Hk (w, (k', rs_empty))). unfold preserves in Hk. destruct (xbind _ _ _) as [r [w1 [k1 o1]]]. exact Hk.
  - intros r. apply lv_bind; [apply lv_check|]. intros _.
    apply lv_bind; [by apply lv_write | intros _; apply lv_ret].
Qed.

Lemma plain_fetch_of G T c k n : my_active c = 0 -> RConn (my_m c) ∈ G -> RStmt (mc_stmt k) ∈ G ->
  plain G T c (mc_fetch_of stod mktime k n).
Proof.
  intros Ha Hm Hs. unfold mc_fetch_of. destruct (_ || _); [apply p_ret|]. apply p_active; [done..|].
  intros id Hid. apply p_bind; [unfold cursor_write; plain|]. intros _.
  induction (Z.to_nat _) as [|want IH]; cbn [mc_fetch_rows]; [apply p_ret|].
  apply p_bind; [plain|]. intros cols. apply p_bind.
  - apply plain_next; [done|]. intros place cols'. unfold cursor_failed, cursor_write.
    assert (RConn (my_m (my_set_active id c)) ∈ G) by done. plain.
  - intros [cols'|]; unfold cursor_write; plain.
Qed.
Lemma plain_fetchRow_of G T c k : my_active c = 0 -> RConn (my_m c) ∈ G -> RStmt (mc_stmt k) ∈ G ->
  plain G T c (mc_fetchRow_of stod mktime k).
Proof.
  intros Ha Hm Hs. unfold mc_fetchRow_of. apply p_bind; [plain|]. intros _. destruct (_ || _); [apply p_ret|].
  apply p_bind.
  - apply p_within, p_bind; [by apply p_body, plain_fetch_of|]. intros st. plain.
  - intros r. plain.
Qed.

(** ** Sessions

    The operations of a connection whose callbacks leave the library's handles alone. *)
Inductive operation : forall {O A}, X O A -> Prop :=
  | op_connect {O} cfg : operation (my_connect (O := O) new_client cfg)
  | op_close {O} : operation (my_close (O := O))
  | op_ping {O} : operation (my_ping (O := O))
  | op_cancel {O} : operation (my_cancel (O := O) new_client)
  | op_query sql : operation (my_query stod mktime fuel sql)
  | op_queryAll sql : operation (my_queryAll stod mktime fuel sql)
  | op_queryAll_params sql params :
      operation (my_queryAll_params stod mktime real_escape generic fuel sql params)
  | op_execute sql : operation (my_execute fuel sql)
  | op_query_params sql params : operation (my_query_params stod mktime localtime fuel sql params)
  | op_execute_params sql params : operation (my_execute_params localtime sql params)
  | op_execute_keys sql : operation (my_execute_keys fuel sql)
  | op_execute_params_keys sql params : operation (my_execute_params_keys localtime sql params)
  | op_queryEach sql params callback : tame callback ->
      operation (my_queryEach stod mktime localtime fuel sql params callback)
  | op_prepare sql sample : operation (my_prepare sql sample)
  | op_prepared_query h params : operation (my_executePrepared_query stod mktime localtime fuel h params)
  | op_prepared_execute h params : operation (my_executePrepared_execute localtime h params)
  | op_closeAllPrepared {O} : operation (my_closeAllPrepared (O := O))
  | op_begin {O} : operation (my_begin (O := O))
  | op_begin_with {O} o : operation (my_begin_with (O := O) o)
  | op_commit {O} : operation (my_commit (O := O))
  | op_rollback {O} : operation (my_rollback (O := O))
  | op_savepoint {O} name : operation (my_savepoint (O := O) name)
  | op_releaseSavepoint {O} name : operation (my_releaseSavepoint (O := O) name)
  | op_rollbackToSavepoint {O} name : operation (my_rollbackToSavepoint (O := O) name).

Lemma tx_handles L c m : conn_ok c -> m ∈ tx_of c -> RConn m ∈@{gset Resource} list_to_set (conn_handles c ++ L).
Proof.
  intros Hc Hm. unfold tx_of in Hm. destruct (my_tx c) eqn:Etx; [|set_solver].
  apply elem_of_singleton in Hm as ->. apply inv_rest; [done|]. by apply Hc.
Qed.
Lemma closeAll_books {O} : keeps_books (my_closeAllPrepared (O := O)).
Proof.
  intros L. apply spec_inv. intros c Hn Hc.
  apply (close_prepared_books _ _ _ handle_list RStmt tx_of conn_ok stmt_guard guard_goes L c Hn Hc).
Qed.
Lemma operation_books {O A} (m : X O A) : operation m -> keeps_books m.
Proof.
  intros [ ].
  - intros L. apply spec_inv. intros c Hn Hc. by apply connect_books.
  - intros L. apply spec_inv. intros c Hn Hc. by apply close_books.
  - apply rest_books. intros. by apply plain_ping.
  - intros L. apply spec_inv. intros c Hn Hc.
    eapply spec_post; [|apply plain_cancel; intros t Ht; by apply tx_handles].
    intros r w Hw. by exists c.
  - apply rest_books. intros. by apply plain_query.
  - apply rest_books. intros. by apply plain_queryAll.
  - apply rest_books. intros. by apply plain_queryAll_params.
  - apply rest_books. intros. by apply plain_execute.
  - apply rest_books. intros. by apply plain_query_params.
  - apply rest_books. intros. by apply plain_execute_params.
  - apply rest_books. intros. by apply plain_execute_keys.
  - apply rest_books. intros. by apply plain_execute_params_keys.
  - apply rest_books. intros. by apply plain_queryEach.
  - intros L. apply spec_inv. intros c Hn Hc. by apply prepare_books.
  - intros L. apply spec_body_inv, prepared_books. intros G T c s Hs. apply p_look. by apply plain_fetchPrepared.
  - intros L. eapply spec_body_inv, (spec_bind _ _ (fun _ => inv L)); [by apply spec_write| |done].
    intros []. apply prepared_books. intros G T c s Hs. plain.
  - apply closeAll_books.
  - intros L. apply spec_inv. intros c Hn Hc. by apply begin_spec.
  - intros L. apply spec_inv. intros c Hn Hc. by apply begin_with_spec.
  - intros L. apply spec_inv. intros c Hn Hc. apply end_spec; auto.
  - intros L. apply spec_inv. intros c Hn Hc. apply end_spec; auto.
  - intros L. apply spec_inv. intros c Hn Hc. apply savepoint_spec; [done | done | set_solver].
  - intros L. apply spec_inv. intros c Hn Hc. apply savepoint_spec; [done | done | set_solver].
  - intros L. apply spec_inv. intros c Hn Hc. apply savepoint_spec; [done | done | set_solver].
Qed.

(** A connection and the cursors opened on it. A cursor is fetched from while its
    connection has a handle; one that is destroyed is closed first. *)
Inductive session_step : W * list MyCursor -> W * list MyCursor -> Prop :=
  | ss_operation {O A} (m : X O A) w o r w' o' ks : operation m ->
      m (w, o) = (r, (w', o')) -> r <> inl Running -> session_step (w, ks) (w', ks)
  | ss_limit limit w ks :
      session_step (w, ks) (mkWorld (w_env w) (my_setPreparedCacheLimit limit (w_conn w)) (w_trace w), ks)
  | ss_open sql params batch w o r w' o' ks :
      my_openCursor localtime sql params batch (w, o) = (r, (w', o')) -> r <> inl Running ->
      session_step (w, ks) (w', ks ++ option_list o')
  | ss_fetch n w k out r w' k' out' ks ks' : my_m (w_conn w) <> 0%nat ->
      mc_fetch stod mktime n (w, (k, out)) = (r, (w', (k', out'))) -> r <> inl Running ->
      session_step (w, ks ++ k :: ks') (w', ks ++ k' :: ks')
  | ss_fetchRow w k out r w' k' out' ks ks' : my_m (w_conn w) <> 0%nat ->
      mc_fetchRow stod mktime (w, (k, out)) = (r, (w', (k', out'))) -> r <> inl Running ->
      session_step (w, ks ++ k :: ks') (w', ks ++ k' :: ks')
  | ss_close w k r w' k' ks ks' :
      mc_close (O := unit) k (w, tt) = (inr (r, k'), (w', tt)) ->
      session_step (w, ks ++ k :: ks') (w', ks ++ k' :: ks')
  | ss_destroy w k r w' k' ks ks' :
      mc_close (O := unit) k (w, tt) = (inr (r, k'), (w', tt)) ->
      session_step (w, ks ++ k :: ks') (w', ks ++ ks').
Definition my_session (e : E) (cfg : DataSourceConfig) : W * list MyCursor -> Prop :=
  rtc session_step (mkWorld e (my_new cfg) [], []).

#[local] Abbreviation session_inv := (Books.session_inv (alloc := alloc) good (@tx_call) ∅ conn_handles tx_of conn_ok cursor_handles cursor_ok).
#[local] Abbreviation cursors_own := (all_handles cursor_handles).

Lemma open_step sql params batch w o r w' o' ks : inv (cursors_own ks) w ->
  my_openCursor localtime sql params batch (w, o) = (r, (w', o')) -> r <> inl Running ->
  inv (cursors_own (ks ++ option_list o')) w' /\ Forall cursor_ok (option_list o').
Proof.
  intros (c & Hw & Hn & Hc) Em Hr.
  set (G := list_to_set (C := gset Resource) (conn_handles c ++ cursors_own ks)) in *.
  pose proof (open_cursor_spec G (tx_of c) c sql params batch (inv_rest _ _ Hc) (w, tt) Hw) as H.
  unfold my_openCursor, body, xbind, write, silently in Em. cbn [fst snd] in Em.
  destruct (open_cursor _ _ _ _ (w, tt)) as [r2 [w2 []]]. cbn [fst] in H.
  assert (exists G', opened_cursor G r2 G' /\ at_ G' (tx_of c) c w2) as (G' & HG & Hw2).
  { destruct r2 as [[]|]; [done | done | | done]. injection Em as <- <- <-. done. }
  assert (match r2 with inr (_, Some k) => o' = Some k | _ => o' = None end /\ w' = w2) as [Ho ->].
  { destruct r2 as [[]|[st [k|]]]; by injection Em as <- <- <-. }
  assert (G' = G -> inv (cursors_own (ks ++ [])) w2) as Hrest by (intros ->; rewrite app_nil_r; by exists c).
  destruct r2 as [e|[st [k|]]]; cbn in HG, Ho; subst o'; try (split; [by apply Hrest | constructor]).
  destruct HG as (Hd & Hk & ->). change (option_list (Some k)) with [k].
  split; [|constructor; [exact Hk | constructor]]. eapply session_open; try done. apply Hk.
Qed.

(** A cursor after a fetch. *)
Lemma fetch_step {R} (m : X (MyCursor * R) Status) w k out r w' k' out' ks ks' :
  (forall G T c, my_active c = 0 -> RConn (my_m c) ∈ G -> RStmt (mc_stmt k) ∈ G -> plain G T c m) ->
  leaves_cursor m -> (mc_open k = false -> (m (w, (k, out))).2.1 = w) ->
  my_m (w_conn w) <> 0%nat -> session_inv (w, ks ++ k :: ks') ->
  m (w, (k, out)) = (r, (w', (k', out'))) -> r <> inl Running -> session_inv (w', ks ++ k' :: ks').
Proof.
  intros Hp Ho Hcl Hm [Hi Hks] Em Hr. cbn [fst snd] in *.
  specialize (Ho (w, (k, out))). rewrite Em in Ho. cbn in Ho. injection Ho as E1 E2 E3.
  assert (cursor_handles k' = cursor_handles k) as Eh by (unfold cursor_handles; by rewrite E1, E2).
  assert (cursor_ok k) as Hk by (apply Forall_app in Hks as [_ Hks]; by inversion Hks).
  eapply session_same; [exact Eh | | | exact Hks].
  { split; [rewrite Eh; apply Hk|]. rewrite E1, E3. apply Hk. }
  destruct (mc_open k) eqn:Eo; [|specialize (Hcl eq_refl); rewrite Em in Hcl; cbn in Hcl; by subst w'].
  destruct Hi as (c & Hw & Hn & Hc). exists c. split; [|done].
  assert (my_m c <> 0%nat) as H0 by (by destruct Hw as (_ & _ & <-)).
  eapply (spec_run good _ (fun _ => at_ _ (tx_of c) c) m); [|exact Hw|exact Em|exact Hr].
  apply Hp; [apply Hc | by apply inv_rest|]. apply elem_of_list_to_set.
  rewrite owned_middle. apply elem_of_app. left. unfold cursor_handles.
  pose proof (ck_open k Hk Eo) as Hs. apply Nat.eqb_neq in Hs as ->. set_solver.
Qed.

(** A cursor that is closed gives its handles back. *)
Lemma close_step w k r w' k' ks ks' : session_inv (w, ks ++ k :: ks') ->
  mc_close (O := unit) k (w, tt) = (inr (r, k'), (w', tt)) ->
  session_inv (w', ks ++ k' :: ks') /\ session_inv (w', ks ++ ks').
Proof.
  intros [Hi Hks] Em. cbn [fst snd] in *. destruct (session_take _ _ _ _ _ _ _ _ _ _ _ Hi) as (c & Hw & Hd & Hk & Hn & Hc).
  pose proof (reset_spec (O := unit) _ (tx_of c) c k Hd (w, tt) Hw) as H.
  unfold mc_close, xbind in Em. destruct (mc_reset k (w, tt)) as [[e|k1] [w1 []]] eqn:Er; [done|].
  injection Em as _ <- <-. destruct H as [[H1 H3] H2]. cbn in H1, H2.
  eapply session_closed; [exact H1 | | by exists c | exact Hks]. split; [rewrite H1; constructor | by rewrite H3].
Qed.

Lemma my_session_step_inv s s' : session_step s s' -> session_inv s -> session_inv s'.
Proof.
  intros [ ] Hi.
  - destruct Hi as [Hi Hks]. split; [|done]. 
    apply (spec_run good (inv (cursors_own ks)) (fun _ => inv (cursors_own ks)) m w o r w' o'); try done.
    by apply operation_books.
  - destruct Hi as [(c & Hw & Hn & Hc) Hks]. split; [|done].
    by apply (limit_inv good (@tx_call) ∅ handle_list RStmt tx_of conn_ok _ c Hn Hc).
  - destruct Hi as [Hi Hks]. cbn in *. destruct (open_step sql params batch w o r w' o' ks Hi) as [H1 H2]; [done | done |].
    split; [done|]. cbn. apply Forall_app. by split.
  - apply (fetch_step (body (mc_fetch_of stod mktime k n)) w k out r w' k' out'); try done.
    + intros. by apply p_body, plain_fetch_of.
    + apply lv_body, fetch_handles.
    + intros Eo. unfold mc_fetch_of. by rewrite Eo.
  - apply (fetch_step (body (mc_fetchRow_of stod mktime k)) w k out r w' k' out'); try done.
    + intros. by apply p_body, plain_fetchRow_of.
    + apply lv_body, fetchRow_handles.
    + intros Eo. unfold mc_fetchRow_of. by rewrite Eo.
  - by destruct (close_step w k r w' k' ks ks' Hi).
  - by destruct (close_step w k r w' k' ks ks' Hi).
Qed.

(** Closing always ends. *)
Definition ends {O A} (m : X O A) : Prop := forall s, exists a s', m s = (inr a, s').
Lemma ends_bind {O A B} (m : X O A) (k : A -> X O B) : ends m -> (forall a, ends (k a)) -> ends (xbind m k).
Proof. intros Hm Hk s. destruct (Hm s) as (a & s1 & Em). unfold xbind. rewrite Em. apply Hk. Qed.
Lemma ends_ret {O A} (a : A) : ends (xret (O := O) a).
Proof. intros s. by exists a, s. Qed.
Lemma ends_conn {O A} (f : MyConn -> A * MyConn) : ends (on_conn (O := O) f).
Proof. intros s. unfold on_conn. destruct (f (w_conn s.1)) as [a c]. eauto. Qed.
Lemma ends_lib {O A} (c : MyCall A) : ends (lib (O := O) c).
Proof. intros [w o]. rewrite lib_called. eauto. Qed.
Lemma my_close_ends {O} : ends (my_close (O := O)).
Proof.
  assert (forall ns, ends (close_statements (stmt_guard (E := E) (O := O)) ns)) as Hs.
  { induction ns as [|[s|] ns IH]; cbn [close_statements]; [apply ends_ret| |exact IH].
    apply ends_bind; [|intros _; exact IH]. unfold stmt_guard. destruct (_ =? _)%nat; [apply ends_ret | apply ends_lib]. }
  apply ends_bind; [apply ends_bind; [apply ends_conn|]; intros ns; apply ends_bind; [apply Hs | intros _; apply ends_conn]|].
  intros _. apply ends_bind; [apply ends_conn|]. intros m. apply ends_bind.
  - destruct (m =? 0)%nat; [apply ends_ret|]. apply ends_bind; [apply ends_lib | intros _; apply ends_conn].
  - intros _. apply ends_bind; [apply ends_conn | intros _; apply ends_conn].
Qed.

Lemma session_inv_reached e cfg s : my_session e cfg s -> session_inv s.
Proof.
  intros H. assert (session_inv (mkWorld e (my_new cfg) [], [])) as H0.
  { split; [|constructor]. exists (my_new cfg). change (conn_handles (my_new cfg) ++ cursors_own []) with (@nil Resource).
    split; [|split; [constructor | split; [done | done | constructor]]].
    split; [|done]. split; [done | set_solver |]. split; apply trace_all_nil. }
  revert H0. unfold my_session in H. induction H as [|x y z Hs _ IH]; [done|].
  intros Hx. apply IH. by eapply my_session_step_inv.
Qed.

(** C12: over every sequence of operations on a connection and its cursors, errors,
    refused connections and exceptions of callbacks included, in which a cursor is
    fetched from only while its connection has its handle ([cursor_outlives_connection]
    shows what happens otherwise): the handles the client
    library has given out and not got back are those of the connection, of its
    prepared statements and of its open cursors, each once; no call was ever made
    with a handle that was closed or never given; the driver's flag says whether the
    server is in a transaction of the driver; every statement of a caller ran while
    its thread could be cancelled, and no thread is marked between operations; an
    operation still running in a loop has kept all this so far; and closing a
    connection without cursors gives everything back. *)
Theorem my_session_books e cfg w ks (H : my_session e cfg (w, ks)) :
  live (w_trace w) = list_to_set (conn_handles (w_conn w) ++ all_handles cursor_handles ks)
  /\ NoDup (conn_handles (w_conn w) ++ all_handles cursor_handles ks)
  /\ trace_safe (R := Resource) (w_trace w)
  /\ in_tx (w_trace w) = tx_of (w_conn w)
  /\ (Forall cancellable (w_trace w) /\ my_active (w_conn w) = 0)
  /\ (forall O A (m : X O A) o, operation m -> trace_safe (R := Resource) (w_trace (m (w, o)).2.1))
  /\ (ks = [] -> live (R := Resource) (w_trace (my_close (w, tt)).2.1) = ∅).
Proof.
  destruct (session_inv_reached e cfg _ H) as [Hi _]. cbn [fst snd] in Hi.
  pose proof Hi as (c & Hw & Hn & Hc). pose proof Hw as ([H1 H2 [H3 H4]] & H5 & H6).
  rewrite H6. split; [exact H1|]. split; [done|]. split; [done|]. split; [done|].
  split; [split; [by apply trace_all_Forall | apply Hc]|]. split.
  - intros O A m o Hm. pose proof (operation_books m Hm _ (w, o) Hi) as Ho. unfold outcome in Ho.
    destruct (m (w, o)).1 as [[]|]; [| |by apply Ho|]; destruct Ho as (c' & Hw' & _);
      by apply at_safe in Hw' as [].
  - intros ->. cbn in Hw, Hn. pose proof (close_conn_spec (O := unit) [] (tx_of c) c Hn Hc (w, tt) Hw) as Ho.
    destruct (my_close_ends (w, tt)) as (u & [w' o'] & Em). rewrite Em in *.
    destruct Ho as ([Ho _ _] & _). exact Ho.
Qed.
End Ledger.
