(* ===== verification/MysqlFetch.v ===== *)
(** * The rows the MySQL driver reads

    Theorems on the results of [Mysql]: their number, their values while the buffers
    suffice, and what happens after one did not; with a client library that answers
    from a script, for the witnesses and the findings. *)
From stdpp Require Import base gmap sets list strings.
From Stdlib Require Import Ascii ZArith Lia.
From S2P Require Import Prelude Types Timestamps Config Connection Transaction Prepared Native Books NativeCache MysqlValues Mysql MysqlBooks.

#[local] Open Scope Z_scope.
#[local] Open Scope native_scope.

(** ** A library that answers from a script

    Handles are numbered. A statement fetches [sb_rows]; a text answers [sb_results]
    one after the other; the statements of [sb_failing] fail. *)
Record Stub := mkStub {
  sb_next : nat;
  sb_fields : list MyField;
  sb_rows : list (list (option str));
  sb_current : list (option str);
  sb_results : list MyResult;
  sb_failing : list str;
}.
Definition sb_give (e : Stub) : nat * Stub :=
  (S (sb_next e), mkStub (S (sb_next e)) (sb_fields e) (sb_rows e) (sb_current e) (sb_results e) (sb_failing e)).
Definition sb_run (sql : str) (e : Stub) : Z * Stub := (if bool_decide (sql ∈ sb_failing e) then 1 else 0, e).

(** A field as a buffer of [kInitialColBytes] takes it. *)
Definition fetched (v : option str) : Fetched :=
  match v with
  | None => mkFetched true 0 []
  | Some t => mkFetched false (Z.of_nat (length t)) (take kInitialColBytes t)
  end.
Definition fits (v : option str) : bool :=
  match v with Some t => (length t <=? kInitialColBytes)%nat | None => true end.

#[export] Instance stub_library : Library MyCall Stub := fun A c =>
  match c in MyCall A return ST Stub A with
  | McInit => sb_give
  | McStmtInit _ => sb_give
  | McOptions _ _ | McSslSet _ _ _ _ | McClose _ | McFreeResult _ | McStmtClose _ => fun e => (tt, e)
  | McRealConnect _ _ _ _ _ _ => fun e => (true, e)
  | McError _ | McStmtError _ => fun e => (lit "failed", e)
  | McErrno _ | McStmtErrno _ => fun e => (1064, e)
  | McSqlstate _ | McStmtSqlstate _ => fun e => (Some (lit "42000"), e)
  | McThreadId _ => fun e => (7, e)
  | McPing _ | McKill _ _ | McFieldCount _ | McAffectedRows _ | McInsertId _ | McStmtAffected _ => fun e => (0, e)
  | McRealQuery _ sql | McQuery _ sql => sb_run sql
  | McStmtPrepare _ sql => sb_run sql
  | McStoreResult _ => fun e =>
      match sb_results e with
      | [] => (None, e)
      | r :: rest =>
          let '(h, e) := sb_give e in
          (Some (h, r), mkStub (sb_next e) (sb_fields e) (sb_rows e) (sb_current e) rest (sb_failing e))
      end
  | McNextResult _ => fun e => (if is_nil (sb_results e) then -1 else 0, e)
  | McParamCount _ | McBindParam _ _ | McExecute _ | McBindResult _ _ => fun e => (0, e)
  | McMetadata _ => fun e => let '(h, e) := sb_give e in (Some (h, sb_fields e), e)
  | McFetch _ => fun e =>
      match sb_rows e with
      | [] => ((MYSQL_NO_DATA, []), e)
      | row :: rest =>
          ((if forallb fits row then 0 else MYSQL_DATA_TRUNCATED, map fetched row),
           mkStub (sb_next e) (sb_fields e) rest row (sb_results e) (sb_failing e))
      end
  | McFetchColumn _ i size => fun e =>
      ((0, match sb_current e !! i with Some (Some t) => take (Z.to_nat size) t | _ => [] end), e)
  end.

Definition handles_upto (n : nat) : list Resource :=
  flat_map (fun k => [RConn k; RStmt k; RResult k]) (seq 1 n).
Definition stub_alloc (e : Stub) : gset Resource := list_to_set (handles_upto (sb_next e)).
Definition handle_number (r : Resource) : nat := match r with RConn n | RStmt n | RResult n => n end.
Lemma handles_upto_spec n r : r ∈ handles_upto n <-> (1 <= handle_number r <= n)%nat.
Proof.
  unfold handles_upto. rewrite list_elem_of_In, in_flat_map. split.
  - intros (k & Hk & Hr). apply in_seq in Hk. cbn in Hr. destruct Hr as [<-|[<-|[<-|[]]]]; cbn; lia.
  - intros H. exists (handle_number r). split; [apply in_seq; lia|]. destruct r; cbn; tauto.
Qed.
Lemma stub_alloc_spec e r : r ∈ stub_alloc e <-> (1 <= handle_number r <= sb_next e)%nat.
Proof. unfold stub_alloc. by rewrite elem_of_list_to_set, handles_upto_spec. Qed.

#[export] Instance stub_lawful : LawfulLibrary MyCall Stub Resource stub_alloc.
Proof.
  split.
  - intros A c e r. rewrite !stub_alloc_spec. destruct c; cbn; try done;
      try (intros [= <-]; cbn; lia).
    destruct (sb_results e) as [|res rest]; cbn; [done|]. intros [= <-]. cbn. lia.
  - intros A c e r H _. rewrite stub_alloc_spec in *.
    destruct c; cbn; try done; try lia; unfold sb_run; cbn; try done.
    + destruct (sb_results e); cbn; lia.
    + destruct (sb_rows e); cbn; lia.
Qed.
Lemma stub_threads m e : (native (Call := MyCall) (E := Stub) (McThreadId m) e).1 <> 0.
Proof. done. Qed.

Definition stub_new : Stub := mkStub 0 [] [] [] [] [].
Definition stub_script (fields : list MyField) (rows : list (list (option str))) (results : list MyResult)
    (failing : list str) (e : Stub) : Stub :=
  mkStub (sb_next e) fields rows (sb_current e) results failing.
Definition StubWorld : Type := World MyCall Stub MyConn.
Definition rescript fields rows results failing (w : StubWorld) : StubWorld :=
  mkWorld (stub_script fields rows results failing (w_env w)) (w_conn w) (w_trace w).
Definition stub_start : StubWorld := mkWorld stub_new (my_new default_datasource) [].
Definition stub_connected : StubWorld := (my_connect true default_datasource (stub_start, tt)).2.1.
Definition no_stod (s : str) : option Z := None.
(** The calls since a world. *)
Definition calls_since (w w' : StubWorld) : list (Called MyCall MyConn) :=
  drop (length (w_trace w)) (w_trace w').

(** *** A session of the stub *)
Definition demo_fields : list MyField := [mkField (lit "v") (MtOther 253) false].
Definition demo_prepared : StubWorld :=
  (my_prepare (lit "SELECT 1") [] (stub_connected, no_handle)).2.1.
Definition demo_opened : StubWorld * option MyCursor :=
  (my_openCursor no_local (lit "SELECT v FROM t") [] 10 (demo_prepared, None)).2.
Definition demo_begun : StubWorld := (my_begin (demo_opened.1, tt)).2.1.
Definition demo_cursors : list MyCursor := option_list demo_opened.2.
Abbreviation demo_session := (my_session (alloc := stub_alloc) no_stod no_zone no_local id (fun _ => []) true 10).
Lemma demo_session_reached : demo_session stub_new default_datasource (demo_begun, demo_cursors).
Proof.
  eapply rtc_l.
  { apply (ss_operation no_stod no_zone no_local id (fun _ => []) true 10 (my_connect (O := unit) true default_datasource)
      stub_start tt (inr StatusOK) stub_connected tt []); [constructor | vm_compute; reflexivity | done]. }
  eapply rtc_l.
  { apply (ss_operation no_stod no_zone no_local id (fun _ => []) true 10 (my_prepare (lit "SELECT 1") [])
      stub_connected no_handle (inr StatusOK) demo_prepared (mkHandle 1 (Some 2%nat)) []);
      [constructor | vm_compute; reflexivity | done]. }
  eapply rtc_l.
  { apply (ss_open no_stod no_zone no_local id (fun _ => []) true 10 (lit "SELECT v FROM t") [] 10
      demo_prepared None (inr StatusOK) demo_opened.1 demo_opened.2 []); [vm_compute; reflexivity | done]. }
  apply rtc_once.
  apply (ss_operation no_stod no_zone no_local id (fun _ => []) true 10 (my_begin (O := unit))
    demo_opened.1 tt (inr StatusOK) demo_begun tt demo_cursors); [constructor | vm_compute; reflexivity | done].
Qed.

Lemma my_session_books_witness :
  live (R := Resource) (w_trace demo_begun) = list_to_set [RConn 1; RStmt 2; RStmt 3; RResult 4]
  /\ in_tx (w_trace demo_begun) = {[1%nat]}.
Proof.
  destruct (my_session_books (alloc := stub_alloc) no_stod no_zone no_local id (fun _ => []) true 10 stub_threads
    stub_new default_datasource demo_begun demo_cursors demo_session_reached) as (H1 & _ & _ & H2 & _).
  split.
  - rewrite H1. assert (conn_handles (w_conn demo_begun) ++ all_handles cursor_handles demo_cursors
      = [RConn 1; RStmt 2; RStmt 3; RResult 4]) as -> by (vm_compute; reflexivity). done.
  - rewrite H2. assert (tx_of (w_conn demo_begun) = {[my_m (w_conn demo_begun)]}) as -> by (unfold tx_of; vm_compute; reflexivity).
    assert (my_m (w_conn demo_begun) = 1%nat) as -> by (vm_compute; reflexivity). done.
Defined.

(** ** The limit of rows *)
Section Bounded.
Context {E : Type} `{!Library MyCall E}.
Context (stod : str -> option Z) (mktime : tm -> option Z) (localtime : Z -> tm) (fuel : nat).
Context (limit : Z) (Hlimit : 0 < limit < 2 ^ 31).
#[local] Abbreviation X := (X MyCall E MyConn ResultSet).

Definition seen (c : MyConn) (o : ResultSet) : Z * list Row := (dc_max_result_rows (my_cfg c), rs_rows o).
Definition quiet {A} (m : X A) : Prop := leaves seen m.
Definition fresh (s : World MyCall E MyConn * ResultSet) : Prop := seen (w_conn s.1) s.2 = (limit, []).
Definition within_limit (s : World MyCall E MyConn * ResultSet) : Prop :=
  exists rows, seen (w_conn s.1) s.2 = (limit, rows) /\ Z.of_nat (length rows) <= limit.
(** From an empty result, [m] stays within the limit. *)
Definition bounded {A} (m : X A) : Prop := hoare fresh m (fun _ => within_limit).

Lemma fresh_within s : fresh s -> within_limit s.
Proof. intros H. exists []. split; [exact H | cbn; lia]. Qed.
Lemma b_quiet {A} (m : X A) : quiet m -> bounded m.
Proof. intros Hm s Hs. apply fresh_within. unfold fresh. specialize (Hm s). cbn in Hm. by rewrite Hm. Qed.
Lemma b_bind {A B} (m : X A) (k : A -> X B) : quiet m -> (forall a, bounded (k a)) -> bounded (xbind m k).
Proof.
  intros Hm Hk s Hs. specialize (Hm s). unfold xbind. destruct (m s) as [[e|a] s1]; cbn in *.
  - apply fresh_within. unfold fresh. by rewrite Hm.
  - apply (Hk a s1). unfold fresh. by rewrite Hm.
Qed.
Lemma within_quiet {A} (m : X A) s : quiet m -> within_limit s -> within_limit (m s).2.
Proof. intros Hm (rows & H1 & H2). specialize (Hm s). cbn in Hm. exists rows. by rewrite Hm. Qed.
Lemma b_then {A B} (m : X A) (k : A -> X B) : bounded m -> (forall a, quiet (k a)) -> bounded (xbind m k).
Proof.
  intros Hm Hk s Hs. specialize (Hm s Hs). unfold xbind. destruct (m s) as [[e|a] s1]; cbn in *; [done|].
  by apply within_quiet.
Qed.
Lemma b_body (m : X Status) : bounded m -> bounded (body m).
Proof. intros Hm s Hs. specialize (Hm s Hs). unfold body. by destruct (m s) as [[[]|] s1]. Qed.
Lemma b_finally {A} (m : X A) cleanup : bounded m -> quiet cleanup -> bounded (finally m cleanup).
Proof.
  intros Hm Hc s Hs. specialize (Hm s Hs). unfold finally. destruct (m s) as [[[st|x|]|a] s1]; cbn in *; try done;
    pose proof (within_quiet cleanup s1 Hc Hm) as H; by destruct (cleanup s1) as [[?|[]] s2].
Qed.
Lemma b_look {A B} (f : MyConn -> A) (g : A -> Z) (k : A -> X B) :
  (forall c, g (f c) = dc_max_result_rows (my_cfg c)) -> (forall a, g a = limit -> bounded (k a)) ->
  bounded (xbind (look f) k).
Proof.
  intros Hg Hk [[e c t] o] Hs. apply (Hk (f c)); [|exact Hs]. rewrite Hg. unfold fresh, seen in Hs. cbn in Hs. congruence.
Qed.
Lemma b_active {A} (m : X A) : bounded m -> bounded (active_operation m).
Proof.
  intros Hm. apply b_bind; [by apply lv_my|]. intros id. apply b_bind; [by apply lv_change|]. intros _.
  apply b_finally; [done|]. apply lv_change. intros c o. by destruct (_ =? _).
Qed.

Lemma q_free r : quiet (free_result r).
Proof. destruct r as [[h r]|]; [apply lv_lib | apply lv_ret]. Qed.
Lemma q_guard s : quiet (stmt_guard s).
Proof. unfold stmt_guard. destruct (_ =? _)%nat; [apply lv_ret | apply lv_lib]. Qed.
Lemma q_lastError place : quiet (lastError place).
Proof. apply lv_lastError. Qed.
Lemma q_succeeds place rc : quiet (succeeds place rc).
Proof. apply lv_unless, q_lastError. Qed.
Lemma q_drain n : quiet (drain_loop n).
Proof.
  induction n as [|n IH]; cbn [drain_loop]; [apply lv_ret|]. apply lv_bind; [apply lv_my|]. intros rc.
  destruct (0 <? rc); [apply q_lastError|]. destruct (rc <? 0); [apply lv_ret|].
  apply lv_bind; [apply lv_my|]. intros res. apply lv_bind; [apply q_free | intros _; exact IH].
Qed.
Lemma q_bind s params : quiet (bindParamsOnly localtime s params).
Proof.
  apply lv_bind; [apply lv_lib|]. intros want. destruct (negb _); [apply lv_ret|].
  destruct (want =? 0); [apply lv_ret|]. destruct (bind_values _ _); [|apply lv_ret].
  apply lv_bind; [apply lv_lib|]. intros rc. destruct (rc =? 0); [apply lv_ret|].
  apply lv_bind; [apply lv_lib | intros ?; apply lv_ret].
Qed.
Lemma q_prepare sql params : quiet (prepareAndBind localtime sql params).
Proof.
  apply lv_bind; [apply lv_my|]. intros s. destruct (s =? 0)%nat; [apply lv_ret|].
  apply lv_bind; [apply lv_lib|]. intros rc. destruct (negb _); (apply lv_bind; [|intros ?; apply lv_ret]);
    [apply lv_lib | apply q_bind].
Qed.
Lemma q_execute place s : quiet (execute_stmt place s).
Proof. apply lv_bind; [apply lv_lib|]. intros rc. apply lv_unless, lv_stmtError. Qed.

Lemma rowLimit_ok rows : st_ok (rowLimitExceeded rows limit) = true -> rows <= limit.
Proof. unfold rowLimitExceeded. destruct (limit <=? 0) eqn:El; bool_prop; [lia|]. destruct (rows <=? limit) eqn:Er; bool_prop; [done|]. done. Qed.
Lemma add_rows_length fields rows out :
  length (rs_rows (fold_left (fun o row => rs_addRow (my_read_row stod mktime fields row []) o) rows out))
  = (length (rs_rows out) + length rows)%nat.
Proof.
  revert out. induction rows as [|row rows IH]; intros out; cbn; [lia|]. rewrite IH. cbn.
  rewrite length_app. cbn. lia.
Qed.
Lemma b_fill r cfg : dc_max_result_rows cfg = limit -> bounded (my_fillResultSet stod mktime r cfg).
Proof.
  intros Hcfg. apply b_body. intros [w o] Hs. unfold check, xbind. rewrite Hcfg.
  destruct (st_ok _) eqn:Est; cbn; [|by apply fresh_within]. apply rowLimit_ok in Est.
  unfold fresh, seen in Hs. cbn in Hs. injection Hs as H1 H2.
  eexists. split; [by unfold seen; cbn; rewrite H1|]. cbn. rewrite add_rows_length. cbn. rewrite H2. cbn. lia.
Qed.

Lemma b_fetch_loop n s cols k w o : seen (w_conn w) o = (limit, rs_rows o) -> length (rs_rows o) = k ->
  Z.of_nat k <= limit ->
  within_limit (fetch_loop stod mktime (add_limited limit) n s (Z.of_nat k) cols (w, o)).2.
Proof.
  revert cols k w o. induction n as [|n IH]; intros cols k w o Hs Hk Hle; cbn [fetch_loop].
  { exists (rs_rows o). split; [exact Hs | by rewrite Hk]. }
  assert (quiet (next_row (fun place _ => stmt_failed s place) s cols)) as Hq
    by (apply lv_next; intros place _; apply lv_bind; [apply lv_lib | intros ?; apply lv_ret]).
  specialize (Hq (w, o)). unfold xbind at 1. destruct (next_row _ s cols (w, o)) as [[e|[cols'|]] [w1 o1]]; cbn in Hq;
    rewrite Hs in Hq; try (exists (rs_rows o); split; [exact Hq | by rewrite Hk]).
  assert (u64 (Z.of_nat k + 1) = Z.of_nat (S k)) as ->
    by (unfold u64; rewrite Z.mod_small; [lia | unfold two64; lia]).
  pose proof Hq as Hseen. unfold seen in Hseen. injection Hseen as H1 H2. cbv zeta.
  unfold xbind at 1. unfold add_limited at 1. rewrite (proj2 (Z.ltb_lt 0 limit)) by lia. cbn [andb].
  destruct (limit <? Z.of_nat (S k)) eqn:El; bool_prop.
  - cbn. exists (rs_rows o). split; [exact Hq | by rewrite Hk].
  - change ((write (rs_addRow (columns_row stod mktime cols' [])) ~; xret None) (w1, o1))
      with (@inr Exit (option Status) None, (w1, rs_addRow (columns_row stod mktime cols' []) o1)).
    cbv beta iota. apply (IH cols' (S k) w1); cbn.
    + unfold seen. cbn. congruence.
    + rewrite length_app, H2, Hk. cbn. lia.
    + lia.
Qed.
Lemma b_fetchPrepared s : bounded (fetchPrepared stod mktime fuel s limit).
Proof.
  apply b_body, b_bind; [apply lv_lib|]. intros [[h fields]|]; [|apply b_quiet, lv_ret].
  apply b_finally; [|apply lv_lib]. destruct (is_nil fields); [apply b_quiet, lv_ret|].
  apply b_bind; [apply lv_lib|]. intros rc. apply b_bind.
  { apply lv_unless, lv_bind; [apply lv_lib | intros ?; apply lv_ret]. }
  intros _. intros [w o] Hs. unfold xbind, write. cbn [fst snd].
  apply (b_fetch_loop fuel s (map new_column fields) 0 w); unfold fresh, seen in *; cbn in *; [congruence| |lia].
  by injection Hs as _ ->.
Qed.
Lemma b_statement sql params : bounded (with_statement localtime "mysql_stmt_execute" sql params (fun s =>
  limit <~ look (fun c => dc_max_result_rows (my_cfg c)); fetchPrepared stod mktime fuel s limit)).
Proof.
  apply b_bind; [apply q_prepare|]. intros r. apply b_finally; [|apply q_guard].
  apply b_bind; [apply lv_check|]. intros _. apply b_bind; [apply q_execute|]. intros _.
  apply (b_look _ (fun x => x)); [done|]. intros a ->. apply b_fetchPrepared.
Qed.

(** C33: a result set never has more rows than the connection's configuration allows,
    whatever the server sends: for the statements that are texts, those with
    parameters, and those that were prepared. *)
Theorem my_rows_bounded m w (Hcfg : dc_max_result_rows (my_cfg (w_conn w)) = limit)
  (Hm : (exists sql, m = my_query stod mktime fuel sql)
        \/ (exists sql params, m = my_query_params stod mktime localtime fuel sql params)
        \/ (exists h params, m = my_executePrepared_query stod mktime localtime fuel h params)) :
  Z.of_nat (length (rs_rows (m (w, rs_empty)).2.2)) <= limit.
Proof.
  assert (bounded m) as Hb.
  { destruct Hm as [[sql ->]|[(sql & params & ->)|(h & params & ->)]].
    - apply b_body, b_bind; [apply lv_connected|]. intros _. apply b_active, b_bind; [apply lv_my|]. intros rc.
      apply b_bind; [apply q_succeeds|]. intros _. apply b_bind; [apply lv_my|]. intros res.
      apply b_finally; [|apply q_free]. destruct res as [[h r]|].
      + apply (b_look _ dc_max_result_rows); [done|]. intros cfg Hc. apply b_then; [by apply b_fill|].
        intros st. apply lv_bind; [apply lv_check | intros _; apply q_drain].
      + apply b_bind; [apply lv_my|]. intros n. apply b_quiet. destruct (n =? 0); [apply q_drain | apply q_lastError].
    - apply b_body, b_bind; [apply lv_connected|]. intros _. apply b_active, b_statement.
    - apply b_body, b_bind; [apply lv_connected|]. intros _. apply b_bind; [apply lv_look|]. intros s.
      destruct (_ || _); [apply b_quiet, lv_ret|]. apply b_active, b_bind; [apply q_bind|]. intros st.
      apply b_bind; [apply lv_check|]. intros _. apply b_bind; [apply q_execute|]. intros _.
      apply (b_look _ (fun x => x)); [done|]. intros a ->. apply b_fetchPrepared. }
  destruct (Hb (w, rs_empty)) as (rows & H1 & H2).
  - unfold fresh, seen. cbn. by rewrite Hcfg.
  - unfold seen in H1. by injection H1 as _ ->.
Qed.
End Bounded.

(** ** The rows of a statement

    [pending e]: the rows the statement [s] has left. *)
Section Reading.
Context {E : Type} `{!Library MyCall E}.
Context (stod : str -> option Z) (mktime : tm -> option Z) (s : nat).
Context (pending : E -> list (list (option str))).
(** [mysql_stmt_fetch] on rows whose fields fit the buffers. *)
Definition fetches : Prop := forall e,
  Forall (fun row => forallb fits row = true) (pending e) ->
  (native (McFetch s) e).1 = match pending e with
                             | [] => (MYSQL_NO_DATA, [])
                             | row :: _ => (0, map fetched row)
                             end
  /\ pending (native (McFetch s) e).2 = tail (pending e).
Hypothesis Hfetch : fetches.
#[local] Abbreviation X := (X MyCall E MyConn ResultSet).

(** A column whose buffer is as it was bound. *)
Definition column_for (f : MyField) (c : Column) : Prop :=
  col_field c = f /\ col_bound c = true /\ length (col_buf c) = kInitialColBytes.
Lemma new_columns fields : Forall2 column_for fields (map new_column fields).
Proof.
  induction fields as [|f fields IH]; constructor; [|exact IH].
  split; [done|]. split; [done|]. cbn. by rewrite repeat_length.
Qed.
Lemma store_row fields cols row : Forall2 column_for fields cols -> length row = length fields ->
  forallb fits row = true -> forall out,
  Forall2 column_for fields (store_fields cols (map fetched row))
  /\ columns_row stod mktime (store_fields cols (map fetched row)) out = my_read_row stod mktime fields row out.
Proof.
  intros H. revert row. induction H as [|f c fields cols (Hf & Hb & Hl) H IH]; intros [|v row] Hlen Hfit out; try done.
  cbn in Hlen, Hfit. apply andb_true_iff in Hfit as [Hv Hfit]. injection Hlen as Hlen.
  cbn [map store_fields columns_row my_read_row]. destruct v as [t|]; cbn [fetched store_field ft_null].
  - cbn in Hv. apply Nat.leb_le in Hv.
    assert (take kInitialColBytes t = t) as Et by (by apply take_ge).
    assert (overwrite t (col_buf c) = t ++ drop (length t) (col_buf c)) as Eo
      by (unfold overwrite; rewrite take_ge by lia; done).
    unfold store_field. cbn [fetched ft_null ft_bytes ft_len col_field col_null col_len col_buf].
    rewrite Hb, Et, Eo, Hf, Nat2Z.id, take_app_length.
    destruct (IH row Hlen Hfit (row_set (fd_name f) (my_fieldToValue stod mktime (fd_type f) (fd_unsigned f) t) out)) as [H1 H2].
    split; [|exact H2]. constructor; [|exact H1]. split; [done|]. split; [done|]. cbn.
    rewrite length_app, length_drop. lia.
  - unfold store_field. cbn [fetched ft_null col_field col_null]. rewrite Hf.
    destruct (IH row Hlen Hfit (row_set (fd_name f) VNull out)) as [H1 H2].
    split; [|exact H2]. by constructor.
Qed.

Lemma next_reads failed fields cols (w : World MyCall E MyConn) (o : ResultSet) : Forall2 column_for fields cols ->
  Forall (fun row => length row = length fields /\ forallb fits row = true) (pending (w_env w)) ->
  match pending (w_env w) with
  | [] => (next_row failed s cols (w, o)).1 = inr None /\ (next_row failed s cols (w, o)).2.2 = o
  | row :: rest => exists cols' w', next_row failed s cols (w, o) = (inr (Some cols'), (w', o))
      /\ Forall2 column_for fields cols' /\ pending (w_env w') = rest
      /\ columns_row stod mktime cols' [] = my_read_row stod mktime fields row []
  end.
Proof.
  intros Hc Hp. destruct (Hfetch (w_env w)) as [H1 H2].
  { eapply Forall_impl; [exact Hp|]. by intros row []. }
  unfold next_row. rewrite !xbind_lib, H1.
  destruct (pending (w_env w)) as [|row rest]; [split; reflexivity|]. inversion Hp as [|? ? [Hlen Hfit] _]; subst.
  destruct (store_row fields cols row Hc Hlen Hfit []) as [H3 H4].
  exists (store_fields cols (map fetched row)), (called w (McFetch s)). done.
Qed.

(** C34: a statement's rows, fetched field by field into the bound buffers, are the
    values the same texts give in the result of an unprepared statement, in their
    order and each once, and the loop ends with success after the last of them: while
    no field is longer than a buffer, and the rows are not more than the limit. *)
Theorem prepared_rows_read_as_text fields maxRows w o n
  (Hrows : Forall (fun row => length row = length fields /\ forallb fits row = true) (pending (w_env w)))
  (Hmax : maxRows <= 0 \/ Z.of_nat (length (pending (w_env w))) <= maxRows)
  (Hcount : Z.of_nat (length (pending (w_env w))) < two64)
  (Hn : (length (pending (w_env w)) < n)%nat) :
  let r := fetch_loop stod mktime (add_limited maxRows) n s 0 (map new_column fields) (w, o) in
  r.1 = inr StatusOK
  /\ rs_rows r.2.2 = rs_rows o ++ map (fun row => my_read_row stod mktime fields row []) (pending (w_env w)).
Proof.
  cut (forall k cols, Forall2 column_for fields cols ->
    maxRows <= 0 \/ k + Z.of_nat (length (pending (w_env w))) <= maxRows ->
    0 <= k -> k + Z.of_nat (length (pending (w_env w))) < two64 ->
    let r := fetch_loop stod mktime (add_limited maxRows) n s k cols (w, o) in
    r.1 = inr StatusOK
    /\ rs_rows r.2.2 = rs_rows o ++ map (fun row => my_read_row stod mktime fields row []) (pending (w_env w))).
  { intros H. apply (H 0); [apply new_columns | lia..]. }
  clear Hmax Hcount. revert w o Hrows Hn. induction n as [|n IH]; intros w o Hrows Hn k cols Hc Hmax Hk Hcount; [lia|].
  cbn [fetch_loop]. pose proof (next_reads (fun place _ => stmt_failed s place) fields cols w o Hc Hrows) as Hnext.
  destruct (pending (w_env w)) as [|row rest].
  - destruct Hnext as [H1 H2]. unfold xbind. destruct (next_row _ s cols (w, o)) as [r1 s1]. cbn in H1, H2. subst r1.
    cbn. by rewrite H2, app_nil_r.
  - destruct Hnext as (cols' & w' & Ex & Hc' & Hrest & Hrow). rewrite !(exit_bind_inr _ _ _ _ _ Ex). cbv iota zeta.
    cbn [length] in Hmax, Hcount, Hn.
    assert (u64 (k + 1) = k + 1) as -> by (unfold u64; rewrite Z.mod_small; lia).
    assert (add_limited maxRows (k + 1) (columns_row stod mktime cols' []) (w', o)
            = (@inr Exit (option Status) None, (w', rs_addRow (columns_row stod mktime cols' []) o))) as Ea.
    { unfold add_limited. assert ((0 <? maxRows) && (maxRows <? k + 1) = false) as -> by
        (apply andb_false_iff; rewrite !Z.ltb_ge; lia). done. }
    rewrite !(exit_bind_inr _ _ _ _ _ Ea). rewrite <- Hrest in *.
    inversion Hrows as [|? ? _ Hrows']; subst.
    destruct (IH w' (rs_addRow (columns_row stod mktime cols' []) o) Hrows' ltac:(lia) (k + 1) cols' Hc'
      ltac:(lia) ltac:(lia) ltac:(lia)) as [H1 H2].
    split; [exact H1|]. rewrite H2. cbn. by rewrite Hrow, <- app_assoc.
Qed.
End Reading.

(** ** Witnesses *)
Lemma stub_fetches s : fetches s sb_rows.
Proof.
  intros e H. unfold native, stub_library. destruct (sb_rows e) as [|row rest] eqn:Er; [by split|]. inversion H as [|? ? Hr _]; subst. by rewrite Hr.
Qed.

Definition two_fields : list MyField := [mkField (lit "id") MtLong false; mkField (lit "v") (MtOther 253) false].
Definition two_rows : list (list (option str)) := [[Some (lit "1"); Some (lit "one")]; [Some (lit "-2"); None]].
Lemma prepared_rows_read_as_text_witness :
  let w := rescript two_fields two_rows [] [] demo_prepared in
  let r := fetch_loop no_stod no_zone (add_limited 5) 3 2 0 (map new_column two_fields) (w, rs_empty) in
  r.1 = inr StatusOK
  /\ rs_rows r.2.2 = [[(lit "id", VInt64 1); (lit "v", VString (lit "one"))]; [(lit "id", VInt64 (-2)); (lit "v", VNull)]].
Proof.
  intros w r. destruct (prepared_rows_read_as_text no_stod no_zone 2 sb_rows (stub_fetches 2) two_fields 5 w rs_empty 3)
    as [H1 H2].
  - vm_compute. by repeat constructor.
  - right. by vm_compute.
  - by vm_compute.
  - vm_compute. lia.
  - split; [exact H1|]. etransitivity; [exact H2|]. vm_compute. reflexivity.
Defined.

(** Five rows, one more than the connection allows. *)
Definition limited_config (rows : Z) : DataSourceConfig :=
  mkDataSourceConfig [] [] [] 0 [] [] [] [] [] 5000 0 0 rows false true [] [] [] default_oracle [].
Definition stub_limited (rows : Z) : StubWorld := (my_connect true (limited_config rows) (stub_start, tt)).2.1.
Definition five_rows : list (list (option str)) := repeat [Some (lit "1"); Some (lit "x")] 5.
Lemma my_rows_bounded_witness :
  let w := rescript two_fields five_rows [] [] (stub_limited 4) in
  let m := my_query_params (E := Stub) no_stod no_zone no_local 10 (lit "SELECT id, v FROM t") [] in
  length (rs_rows (m (w, rs_empty)).2.2) = 4%nat /\ Z.of_nat (length (rs_rows (m (w, rs_empty)).2.2)) <= 4.
Proof.
  intros w m. split; [vm_compute; reflexivity|].
  apply (my_rows_bounded no_stod no_zone no_local 10 4); [lia | vm_compute; reflexivity|].
  right. left. by exists (lit "SELECT id, v FROM t"), [].
Defined.

(** ** Findings *)

(** The buffer of a field that was too long is not bound again: the library goes on
    writing where the first buffer was, and the next rows show the old bytes. *)
Theorem long_field_spoils_next_rows :
  let long := repeat "a"%char 5000 in
  let w := rescript demo_fields [[Some long]; [Some (lit "bbb")]] [] [] stub_connected in
  rs_rows (my_query_params no_stod no_zone no_local 10 (lit "SELECT v FROM t") [] (w, rs_empty)).2.2
  = [[(lit "v", VString long)]; [(lit "v", VString (lit "aaa"))]].
Proof. vm_compute. reflexivity. Qed.

(** A result over the limit ends the operation before the results after it are read:
    the connection goes back with them unread. *)
Definition reads_result (d : Called MyCall MyConn) : bool :=
  match cd_call d with McStoreResult _ | McNextResult _ => true | _ => false end.
Definition is_next (d : Called MyCall MyConn) : bool :=
  match cd_call d with McNextResult _ => true | _ => false end.
Theorem limit_leaves_results_unread :
  let results := [mkMyResult two_fields five_rows; mkMyResult two_fields two_rows] in
  let run limit := my_query no_stod no_zone 10 (lit "CALL p()")
    (rescript [] [] results [] (stub_limited limit), rs_empty) in
  match (run 4).1 with inr st => st_ok st | inl _ => true end = false
  /\ existsb is_next (calls_since (stub_limited 4) (run 4).2.1) = false
  /\ length (sb_results (w_env (run 4).2.1)) = 1%nat
  /\ (run 5).1 = inr StatusOK /\ length (sb_results (w_env (run 5).2.1)) = 0%nat.
Proof. split_and!; vm_compute; reflexivity. Qed.

(** [execute] asks for the next result without having read the first: a statement
    that returns rows is out of step with the library. *)
Theorem execute_skips_first_result :
  let w := rescript [] [] [mkMyResult two_fields two_rows] [] stub_connected in
  map is_next (List.filter reads_result (calls_since w (my_execute 10 (lit "SELECT id FROM t") (w, 0)).2.1))
  = [true; false; true].
Proof. vm_compute. reflexivity. Qed.

(** A timeout under a second is none. *)
Theorem sub_second_timeout_is_zero ms : 0 < ms < 1000 -> connect_seconds ms = 0.
Proof. intros H. unfold connect_seconds, u32. rewrite Z.quot_small by lia. done. Qed.
Lemma sub_second_timeout_is_zero_witness : connect_seconds 500 = 0.
Proof. apply (sub_second_timeout_is_zero 500). lia. Defined.

(** A [begin] that fails after setting the isolation level leaves it set: the next
    transaction, which asked for none, runs at that level. *)
Definition sent (d : Called MyCall MyConn) : list str :=
  match cd_call d with McQuery _ sql => [sql] | _ => [] end.
Theorem failed_begin_leaves_isolation :
  let read_only := lit "SET TRANSACTION READ ONLY" in
  let w := rescript [] [] [] [read_only] stub_connected in
  let failed := my_begin_with (O := unit) (mkTxOptions Serializable true 0) (w, tt) in
  let next := my_begin (O := unit) failed.2 in
  match failed.1 with inr st => st_ok st | inl _ => true end = false
  /\ next.1 = inr StatusOK
  /\ flat_map sent (calls_since w next.2.1)
     = [lit "SET TRANSACTION ISOLATION LEVEL SERIALIZABLE"; read_only; lit "START TRANSACTION"].
Proof. split_and!; vm_compute; reflexivity. Qed.

(** A cursor that is still open when its connection is closed fetches with a null
    connection handle. *)
Theorem cursor_outlives_connection :
  let closed := (my_close (demo_opened.1, tt)).2.1 in
  let k := default (mkMyCursor 0 None 0 [] false false false 0) demo_opened.2 in
  let fetched := (mc_fetch no_stod no_zone 1 (closed, (k, rs_empty))).2.1 in
  mc_hasNext k = true
  /\ map (fun d => used (R := Resource) (cd_call d)) (take 1 (calls_since closed fetched)) = [[RConn 0]]
  /\ ~ trace_safe (R := Resource) (w_trace fetched).
Proof.
  intros closed k fetched. split; [vm_compute; reflexivity|]. split; [vm_compute; reflexivity|].
  intros Hs.
  destruct (Hs (w_trace closed) (hd (mkCalled (w_conn closed) _ McInit 0%nat) (calls_since closed fetched))
    (tl (calls_since closed fetched))) as [Hu _]; [vm_compute; reflexivity|].
  assert (used (R := Resource) (cd_call (hd (mkCalled (w_conn closed) _ McInit 0%nat) (calls_since closed fetched)))
    = [RConn 0]) as Eu by (vm_compute; reflexivity).
  rewrite Eu in Hu. apply Forall_inv in Hu.
  assert (bool_decide (RConn 0 ∈ live (R := Resource) (w_trace closed)) = false) as Hn by (vm_compute; reflexivity).
  exact (bool_decide_eq_false_1 _ Hn Hu).
Qed.
