(* ===== verification/OracleTypes.v ===== *)
(** * Oracle types (src/common/oracle_types.cpp)

    The classification of Oracle type codes, the conversion of column text to
    values and of values to bind text, the timestamp reader, the connect
    descriptor, the RETURNING ... INTO clause and the SQLSTATE table.

    [strtod] and [snprintf("%.*g")] are parameters, as is [mktime]; a double is its
    64-bit pattern.  A parser that returns false leaves [out] as it was. *)
From stdpp Require Import base list strings.
From Stdlib Require Import Ascii ZArith Lia.
From S2P Require Import Prelude Types Timestamps.

Open Scope Z_scope.

(** ** Type codes *)
Inductive OracleTypeClass :=
  | OcUnknown | OcText | OcNumber | OcBinary | OcDate | OcTimestamp | OcTimestampTz | OcInterval | OcLob
  | OcRowid.

Definition kSqltFlt : Z := 4.
Definition kSqltBfloat : Z := 21.
Definition kSqltBdouble : Z := 22.
Definition kSqltIbfloat : Z := 100.
Definition kSqltIbdouble : Z := 101.
Definition kSqltClob : Z := 112.
Definition kSqltBlob : Z := 113.
Definition kSqltCfile : Z := 115.
Definition kSqltIntervalYm : Z := 189.

Definition z_in (z : Z) (l : list Z) : bool := existsb (Z.eqb z) l.

Definition oracleTypeClass (sqlt : Z) : OracleTypeClass :=
  if z_in sqlt [1; 5; 9; 96; 8] then OcText
  else if z_in sqlt [2; 6; 7; 3; 68; 4; 21; 22; 100; 101] then OcNumber
  else if z_in sqlt [23; 24; 15] then OcBinary
  else if z_in sqlt [12] then OcDate
  else if z_in sqlt [187] then OcTimestamp
  else if z_in sqlt [188; 232] then OcTimestampTz
  else if z_in sqlt [189; 190] then OcInterval
  else if z_in sqlt [112; 113; 114; 115] then OcLob
  else if z_in sqlt [11; 104] then OcRowid
  else OcUnknown.

Fixpoint table_find (z : Z) (l : list (Z * string)) (d : string) : string :=
  match l with
  | [] => d
  | (k, v) :: l' => if z =? k then v else table_find z l' d
  end.

Definition type_names : list (Z * string) :=
  [(1, "VARCHAR2"); (2, "NUMBER"); (3, "INTEGER"); (4, "FLOAT"); (5, "STRING"); (6, "VARNUM");
   (7, "PACKED-DECIMAL"); (8, "LONG"); (9, "VARCHAR"); (11, "ROWID"); (12, "DATE"); (15, "VARRAW");
   (21, "BINARY_FLOAT"); (22, "BINARY_DOUBLE"); (23, "RAW"); (24, "LONG RAW"); (68, "UNSIGNED");
   (91, "DISPLAY"); (96, "CHAR"); (100, "BINARY_FLOAT"); (101, "BINARY_DOUBLE"); (102, "REF CURSOR");
   (108, "NAMED TYPE"); (110, "REF"); (112, "CLOB"); (113, "BLOB"); (114, "BFILE"); (115, "CFILE");
   (104, "ROWID DESC"); (187, "TIMESTAMP"); (188, "TIMESTAMP WITH TIME ZONE");
   (189, "INTERVAL YEAR TO MONTH"); (190, "INTERVAL DAY TO SECOND");
   (232, "TIMESTAMP WITH LOCAL TIME ZONE")]%string.
Definition oracleTypeName (sqlt : Z) : str := lit (table_find sqlt type_names "UNKNOWN").

Definition class_eqb (a b : OracleTypeClass) : bool :=
  match a, b with
  | OcUnknown, OcUnknown | OcText, OcText | OcNumber, OcNumber | OcBinary, OcBinary | OcDate, OcDate
  | OcTimestamp, OcTimestamp | OcTimestampTz, OcTimestampTz | OcInterval, OcInterval | OcLob, OcLob
  | OcRowid, OcRowid => true
  | _, _ => false
  end.
Definition oracleIsLob (sqlt : Z) : bool := class_eqb (oracleTypeClass sqlt) OcLob.
Definition oracleIsRowid (sqlt : Z) : bool := class_eqb (oracleTypeClass sqlt) OcRowid.

(** ** Hexadecimal *)
Definition hexNibble (c : ascii) : Z :=
  let n := Z.of_N (code c) in
  if (48 <=? n) && (n <=? 57) then n - 48
  else if (97 <=? n) && (n <=? 102) then n - 97 + 10
  else if (65 <=? n) && (n <=? 70) then n - 65 + 10
  else -1.

Definition byte_of (z : Z) : ascii := ascii_of_N (Z.to_N (z mod 256)).

Fixpoint hexToBlob (s : str) : str :=
  match s with
  | a :: b :: r =>
      let hi := hexNibble a in
      let lo := hexNibble b in
      if (hi <? 0) || (lo <? 0) then []
      else byte_of (Z.lor (Z.shiftl hi 4) lo) :: hexToBlob r
  | _ => []
  end.

Definition blobToHex (b : str) : str := concat (map byte_hex b).

(** ** Timestamps *)

(** Unsigned arithmetic: [m + (m > 2 ? -3 : 9)] on 32 bits. *)
Definition u32 (z : Z) : Z := z mod 2 ^ 32.
Definition daysFromCivil (y m d : Z) : Z :=
  let yy := y - (if m <=? 2 then 1 else 0) in
  let era := Z.quot (if 0 <=? yy then yy else yy - 399) 400 in
  let yoe := u32 (yy - era * 400) in
  let doy := u32 (u32 (u32 (153 * u32 (m + (if 2 <? m then -3 else 9))) + 2) / 5 + d - 1) in
  let doe := u32 (yoe * 365 + yoe / 4 - yoe / 100 + doy) in
  era * 146097 + doe - 719468.

Definition skipSpaces (s : str) : str := skip_while isspace s.

(** The fraction: nine digits count, the others are skipped. *)
Fixpoint nano_digits (frac : Z) (digits : nat) (s : str) : Z * nat * str :=
  match s with
  | c :: r =>
      if (digits <? 9)%nat && isdigit c then nano_digits (frac * 10 + digit_val c) (S digits) r
      else (frac, digits, skip_while isdigit s)
  | [] => (frac, digits, [])
  end.

Definition read_nanos (s : str) : Z * str :=
  match s with
  | c :: r =>
      if Ascii.eqb c "." then
        let '(frac, digits, r) := nano_digits 0 0 r in (frac * 10 ^ (9 - Z.of_nat digits), r)
      else (0, s)
  | [] => (0, [])
  end.

(** Hour, minute, second and nanoseconds; all zero when no digit follows. *)
Definition ora_time (s : str) : option (Z * Z * Z * Z * str) :=
  match s with
  | c :: _ =>
      if isdigit c then
        h ← read_int 2 0 s;
        r ← expect ":" h.2;
        mi ← read_int 2 0 r;
        se ← match expect ":" mi.2 with
             | Some r => read_int 2 0 r
             | None => Some (0, mi.2)
             end;
        let '(nanos, r) := read_nanos se.2 in
        Some (h.1, mi.1, se.1, nanos, r)
      else Some (0, 0, 0, 0, s)
  | [] => Some (0, 0, 0, 0, [])
  end.

Definition ora_offset (s : str) : option (option Z) :=
  match s with
  | c :: r =>
      if Ascii.eqb c "+" || Ascii.eqb c "-" then
        let sign := if Ascii.eqb c "-" then -1 else 1 in
        oh ← read_int 2 0 r;
        om ← match expect ":" oh.2 with
             | Some r => read_int 2 0 r
             | None => Some (0, oh.2)
             end;
        Some (Some (sign * (oh.1 * 3600 + om.1 * 60)))
      else if Ascii.eqb c "Z" || Ascii.eqb c "z" then Some (Some 0)
      else Some None
  | [] => Some None
  end.

Section Oracle.
Variable mktime : tm -> option Z.

Definition oracleParseTimestamp (text : str) : option Z :=
  year ← read_int 4 0 (skipSpaces text);
  r ← expect "-" year.2;
  month ← read_int 2 0 r;
  r ← expect "-" month.2;
  day ← read_int 2 0 r;
  let '(y, mo, d) := (year.1, month.1, day.1) in
  if (mo <? 1) || (12 <? mo) || (d <? 1) || (31 <? d) then None
  else
    time ← ora_time (skipSpaces day.2);
    let '(h, mi, se, nanos, r) := time in
    offset ← ora_offset (skipSpaces r);
    match offset with
    | Some offsetSeconds =>
        let seconds := daysFromCivil y mo d * 86400 + h * 3600 + mi * 60 + se - offsetSeconds in
        Some (i64 (seconds * ns_per_s + nanos))
    | None =>
        epoch ← mktime (mkTm (y - 1900) (mo - 1) d h mi se);
        Some (i64 (epoch * ns_per_s + nanos))
    end.

(** ** Values *)
Variable strtod : str -> Z.
Variable snprintf_g : Z -> Z -> str.  (* precision, double *)
Variable localtime : Z -> tm.

(** [==] on a finite double and another: the same pattern, or two zeros. *)
Definition double_eq (a v : Z) : bool :=
  (a =? v) || ((a mod 2 ^ 63 =? 0) && (v mod 2 ^ 63 =? 0)).

Definition oracleFormatDouble (v : Z) : str :=
  if negb (isfinite v) then lit "NULL"
  else
    match find (fun precision => double_eq (strtod (snprintf_g precision v)) v) [15; 16; 17] with
    | Some precision => snprintf_g precision v
    | None => snprintf_g 17 v
    end.

Definition oracleFormatTimestamp (t : Z) : str := timestampToStringMs localtime t.

Definition parseInt64Strict (s : str) : option Z := if is_nil s then None else strtoll_all s.
Definition parseUint64Strict (s : str) : option Z :=
  match s with
  | [] => None
  | c :: _ => if Ascii.eqb c "-" then None else strtoull_all s
  end.

Definition integer_text (text : str) : Value :=
  match parseInt64Strict text with
  | Some i => VInt64 i
  | None => match parseUint64Strict text with
            | Some u => VUInt64 u
            | None => VDecimal text
            end
  end.

Definition oracleValueFromText (sqlt : Z) (text : str) (precision scale : Z) : Value :=
  match oracleTypeClass sqlt with
  | OcText | OcRowid => VString text
  | OcInterval => if sqlt =? kSqltIntervalYm then VIntervalYearMonth text else VIntervalDaySecond text
  | OcBinary => VBlob (hexToBlob text)
  | OcDate | OcTimestamp | OcTimestampTz =>
      match oracleParseTimestamp text with
      | Some ts => VTimestamp ts
      | None => VString text
      end
  | OcLob =>
      if (sqlt =? kSqltClob) || (sqlt =? kSqltCfile) then VString text else VBlob (hexToBlob text)
  | OcNumber =>
      if z_in sqlt [kSqltFlt; kSqltBfloat; kSqltBdouble; kSqltIbfloat; kSqltIbdouble]
      then VDouble (strtod text)
      else
        let hasFraction := existsb (fun c => Ascii.eqb c "." || Ascii.eqb c "e" || Ascii.eqb c "E") text in
        if negb hasFraction && ((precision <=? 0) || (18 <? precision)) then integer_text text
        else if negb hasFraction && (scale =? 0) then integer_text text
        else VDecimal text
  | OcUnknown => VString text
  end.

Record OracleBindValue := mkBind { bv_text : option str; bv_raw : option str; bv_unsupported : bool }.
Definition bind_text (s : str) : OracleBindValue := mkBind (Some s) None false.
Definition bind_null : OracleBindValue := mkBind None None false.
Definition bind_isNull (b : OracleBindValue) : bool :=
  negb (bv_unsupported b) && bool_decide (bv_text b = None) && bool_decide (bv_raw b = None).

Definition oracleBindValue (v : Value) : OracleBindValue :=
  match v with
  | VNull => bind_null
  | VBool b => bind_text (bool_str b "1" "0")
  | VInt64 z | VUInt64 z => bind_text (dec_Z z)
  | VDouble d => if negb (isfinite d) then bind_null else bind_text (oracleFormatDouble d)
  | VDecimal s | VString s => bind_text s
  | VDate d => bind_text (if existsb (fun c => Ascii.eqb c " ") d then d else d ++ lit " 00:00:00")
  | VTime t => bind_text (lit "1970-01-01 " ++ t)
  | VTimestamp t => bind_text (oracleFormatTimestamp t)
  | VUuid s | VJson s | VIntervalYearMonth s | VIntervalDaySecond s => bind_text s
  | VBlob b => mkBind None (Some b) false
  | _ => mkBind None None true
  end.
End Oracle.

Definition oracleSessionSetupStatements : list str :=
  map lit ["ALTER SESSION SET NLS_DATE_FORMAT = 'YYYY-MM-DD HH24:MI:SS'";
           "ALTER SESSION SET NLS_TIMESTAMP_FORMAT = 'YYYY-MM-DD HH24:MI:SS.FF'";
           "ALTER SESSION SET NLS_TIMESTAMP_TZ_FORMAT = 'YYYY-MM-DD HH24:MI:SS.FF TZH:TZM'";
           "ALTER SESSION SET NLS_NUMERIC_CHARACTERS = '.,'"]%string.

(** ** The connect descriptor *)
Record OracleConnectOptions := mkConnect {
  oc_host : str;
  oc_port : Z;
  oc_serviceName : str;
  oc_sid : str;
  oc_connectionTimeoutMs : Z;
  oc_tlsEnabled : bool;
  oc_tlsVerifyPeer : bool;
  oc_walletLocation : str;
  oc_serverCertDn : str;
}.

Definition atom_char (c : ascii) : bool :=
  negb ((code c <=? 32)%N || Ascii.eqb c "(" || Ascii.eqb c ")" || Ascii.eqb c "=").
Definition validDescriptorAtom (value : str) : bool := negb (is_nil value) && forallb atom_char value.
Definition quoted_char (c : ascii) : bool := negb ((code c <? 32)%N || Ascii.eqb c dquote).
Definition validQuotedDescriptorValue (value : str) : bool :=
  negb (is_nil value) && forallb quoted_char value.

Definition config_error (msg : string) : Status := status_error ConfigError (lit msg).

(** The parts of the descriptor of accepted options. *)
Definition timeout_text (o : OracleConnectOptions) : str :=
  let timeout := dec_Z (oc_connectionTimeoutMs o) ++ lit "ms" in
  if 0 <? oc_connectionTimeoutMs o
  then lit "(CONNECT_TIMEOUT=" ++ timeout ++ lit ")" ++
       lit "(TRANSPORT_CONNECT_TIMEOUT=" ++ timeout ++ lit ")" else [].
Definition security_text (o : OracleConnectOptions) : str :=
  if oc_tlsEnabled o
  then lit "(SECURITY=(SSL_SERVER_DN_MATCH=" ++ (if oc_tlsVerifyPeer o then lit "YES" else lit "NO") ++
       lit ")" ++
       (if negb (is_nil (oc_serverCertDn o))
        then lit "(SSL_SERVER_CERT_DN=" ++ dquote :: oc_serverCertDn o ++ dquote :: lit ")" else []) ++
       (if negb (is_nil (oc_walletLocation o))
        then lit "(WALLET_LOCATION=" ++ dquote :: oc_walletLocation o ++ dquote :: lit ")" else []) ++
       lit ")"
  else [].
Definition descriptor_text (o : OracleConnectOptions) : str :=
  let target := if is_nil (oc_sid o) then oc_serviceName o else oc_sid o in
  lit "(DESCRIPTION=" ++ timeout_text o ++
  lit "(ADDRESS=(PROTOCOL=" ++ (if oc_tlsEnabled o then lit "TCPS" else lit "TCP") ++
  lit ")(HOST=" ++ oc_host o ++ lit ")(PORT=" ++ dec_Z (oc_port o) ++ lit "))" ++
  lit "(CONNECT_DATA=(" ++ (if is_nil (oc_sid o) then lit "SERVICE_NAME=" else lit "SID=") ++
  target ++ lit "))" ++ security_text o ++ lit ")".

(** [out] is cleared first: the descriptor is empty next to an error. *)
Definition oracleBuildConnectDescriptor (o : OracleConnectOptions) : Status * str :=
  let refuse msg := (config_error msg, []) in
  if negb (validDescriptorAtom (oc_host o))
  then refuse "Oracle host contains characters unsafe for a connect descriptor"
  else if (oc_port o <? 1) || (65535 <? oc_port o)
  then refuse "Oracle port must be in range 1..65535"
  else if negb (is_nil (oc_serviceName o)) && negb (is_nil (oc_sid o))
  then refuse "Oracle service_name and sid are mutually exclusive"
  else if is_nil (oc_serviceName o) && is_nil (oc_sid o)
  then refuse "Oracle service_name or sid is required"
  else if negb (validDescriptorAtom (if is_nil (oc_sid o) then oc_serviceName o else oc_sid o))
  then refuse "Oracle service_name or sid contains unsafe characters"
  else if oc_connectionTimeoutMs o <? 0
  then refuse "Oracle connection timeout must be >= 0"
  else if negb (is_nil (oc_walletLocation o)) && negb (validQuotedDescriptorValue (oc_walletLocation o))
  then refuse "Oracle wallet_location contains unsafe characters"
  else if negb (is_nil (oc_serverCertDn o)) && negb (validQuotedDescriptorValue (oc_serverCertDn o))
  then refuse "Oracle server_cert_dn contains unsafe characters"
  else if negb (oc_tlsEnabled o) && (negb (is_nil (oc_walletLocation o)) || negb (is_nil (oc_serverCertDn o)))
  then refuse "Oracle wallet_location and server_cert_dn require TLS"
  else if negb (is_nil (oc_serverCertDn o)) && negb (oc_tlsVerifyPeer o)
  then refuse "Oracle server_cert_dn requires TLS peer verification"
  else (StatusOK, descriptor_text o).

(** ** RETURNING ... INTO *)
Record OracleReturning := mkReturning {
  rg_present : bool;
  rg_columns : list str;
  rg_firstBind : Z;
  rg_bindCount : nat;
}.
Definition no_returning : OracleReturning := mkReturning false [] 0 0.

Definition isWordChar (c : ascii) : bool :=
  isalnum c || Ascii.eqb c "_" || Ascii.eqb c "$" || Ascii.eqb c "#".
Definition foldEquals (a b : str) : bool := str_eqb (map toupper a) (map toupper b).

(** The scan for the last RETURNING outside quotes: the text after the keyword.
    [q] is the quote the scan is inside of; a doubled quote stays inside.  Every
    turn drops a character, so the length of the text is enough fuel. *)
Fixpoint find_returning (fuel : nat) (q : option ascii) (found : option str) (s : str) : option str :=
  match fuel with
  | O => found
  | S fuel =>
      match s with
      | [] => found
      | c :: r =>
          match q with
          | Some quote =>
              if Ascii.eqb c quote then
                match r with
                | d :: r' => if Ascii.eqb d quote then find_returning fuel q found r'
                             else find_returning fuel None found r
                | [] => find_returning fuel None found r
                end
              else find_returning fuel q found r
          | None =>
              if Ascii.eqb c squote || Ascii.eqb c dquote then find_returning fuel (Some c) found r
              else if isalpha c then
                let word := take_while isWordChar s in
                let r := skip_while isWordChar s in
                find_returning fuel None
                  (if foldEquals word (lit "RETURNING") then Some r else found) r
              else find_returning fuel None found r
          end
      end
  end.

(** A quoted name up to its closing quote; a doubled quote is one quote. *)
Fixpoint quoted_name (s : str) : str * str :=
  match s with
  | [] => ([], [])
  | c :: r =>
      if Ascii.eqb c dquote then
        match r with
        | d :: r' => if Ascii.eqb d dquote then let '(n, t) := quoted_name r' in (dquote :: n, t)
                     else ([], r)
        | [] => ([], [])
        end
      else let '(n, t) := quoted_name r in (c :: n, t)
  end.

(** The column list; [None] is [return false]. *)
Fixpoint returning_columns (fuel : nat) (columns : list str) (s : str) : option (list str * str) :=
  match fuel with
  | O => Some (columns, s)
  | S fuel =>
      match s with
      | [] => Some (columns, [])
      | _ =>
          match skipSpaces s with
          | [] => None
          | c :: r =>
              named ← (if Ascii.eqb c dquote then Some (quoted_name r)
                       else if isWordChar c
                       then Some (map toupper (take_while isWordChar (c :: r)), skip_while isWordChar (c :: r))
                       else None);
              let columns := columns ++ [named.1] in
              match skipSpaces named.2 with
              | d :: r' => if Ascii.eqb d "," then returning_columns fuel columns r'
                           else Some (columns, d :: r')
              | [] => Some (columns, [])
              end
          end
      end
  end.

(** [std::size_t]: 64 bits, wrapping. *)
Definition bind_digits (s : str) : Z := fold_left (fun a c => u64 (a * 10 + digit_val c)) s 0.

Fixpoint returning_binds (fuel : nat) (binds : list Z) (s : str) : option (list Z) :=
  match fuel with
  | O => Some binds
  | S fuel =>
      match skipSpaces s with
      | [] => Some binds
      | c :: r =>
          if Ascii.eqb c "," then returning_binds fuel binds r
          else if negb (Ascii.eqb c ":") then None
          else returning_binds fuel (binds ++ [bind_digits (take_while isdigit r)]) (skip_while isdigit r)
      end
  end.

Definition oracleParseReturningInto (sql : str) : bool * OracleReturning :=
  match
    s ← find_returning (length sql) None None sql;
    cols ← returning_columns (S (length s)) [] s;
    if is_nil cols.1 then None
    else
      let s := skipSpaces cols.2 in
      if negb (foldEquals (take_while isWordChar s) (lit "INTO")) then None
      else
        let s := skip_while isWordChar s in
        binds ← returning_binds (S (length s)) [] s;
        match binds with
        | first :: _ =>
            if (length binds =? length cols.1)%nat
            then Some (mkReturning true cols.1 first (length binds)) else None
        | [] => None
        end
  with
  | Some out => (true, out)
  | None => (false, no_returning)
  end.

Definition oracleMakeReturningSuffix (columns : list str) (firstBind : nat) : str :=
  if is_nil columns then []
  else lit " RETURNING " ++ join comma_sep (map quoteIdentifier columns) ++ lit " INTO " ++
       join comma_sep (map (fun i => ":"%char :: dec_nat (firstBind + i)) (seq 0 (length columns))).

(** ** SQLSTATE of an ORA code *)
Definition sql_states : list (Z * string) :=
  [(1, "23000"); (54, "40001"); (60, "40001"); (903, "42000"); (904, "42S22"); (911, "42000");
   (923, "42000"); (933, "42000"); (942, "42S02"); (955, "42710"); (1013, "57014"); (1017, "28000");
   (1400, "23502"); (1401, "22001"); (1408, "42701"); (1438, "22003"); (1461, "22001"); (1722, "22018");
   (1830, "22008"); (1843, "22007"); (1858, "22007"); (2290, "23514"); (2291, "23503"); (2292, "23503");
   (3113, "08S01"); (3114, "08S01"); (3135, "08S01"); (8177, "40001"); (12162, "08001"); (12170, "08001");
   (12514, "08001"); (12537, "08S01"); (12541, "08001"); (12899, "22001"); (22835, "22001")]%string.
Definition oracleSqlState (oraCode : Z) : str :=
  let code := if oraCode <? 0 then - oraCode else oraCode in
  lit (table_find code sql_states EmptyString).

(** ** Hexadecimal and integers *)
Lemma hex_round c :
  (hexNibble (hex_upper (N.land (N.shiftr (code c) 4) 15)) <? 0) = false /\
  (hexNibble (hex_upper (N.land (code c) 15)) <? 0) = false /\
  byte_of (Z.lor (Z.shiftl (hexNibble (hex_upper (N.land (N.shiftr (code c) 4) 15))) 4)
                 (hexNibble (hex_upper (N.land (code c) 15)))) = c.
Proof. all_chars c. Qed.

Lemma hexToBlob_blobToHex b : hexToBlob (blobToHex b) = b.
Proof.
  induction b as [|c b IH]; [done|]. unfold blobToHex in *. cbn [map concat byte_hex app hexToBlob].
  destruct (hex_round c) as (-> & -> & ->). cbn [orb]. by rewrite IH.
Qed.

Lemma dec_Z_head_minus z : (match dec_Z z with c :: _ => Ascii.eqb c "-" | [] => false end) = (z <? 0).
Proof.
  unfold dec_Z. destruct (z <? 0); [done|].
  pose proof (dec_N_digits (Z.to_N z)) as Hd. destruct (dec_N (Z.to_N z)) as [|c r]; [done|].
  inversion Hd; subst. by apply digit_not_sign.
Qed.

Lemma dec_Z_no_fraction z :
  existsb (fun c => Ascii.eqb c "." || Ascii.eqb c "e" || Ascii.eqb c "E") (dec_Z z) = false.
Proof.
  assert (forall s, Forall (fun c => isdigit c = true) s ->
    existsb (fun c => Ascii.eqb c "." || Ascii.eqb c "e" || Ascii.eqb c "E") s = false) as Hs.
  { induction 1 as [|c s Hc _ IH]; [done|]. simpl. rewrite IH, orb_false_r. revert Hc. clear. all_chars c. }
  unfold dec_Z. destruct (z <? 0); simpl; apply Hs, dec_N_digits.
Qed.

Lemma integer_text_dec z :
  integer_text (dec_Z z) =
  if (int64_min <=? z) && (z <=? int64_max) then VInt64 z
  else if (0 <=? z) && (z <? two64) then VUInt64 z else VDecimal (dec_Z z).
Proof.
  unfold integer_text, parseInt64Strict, parseUint64Strict, strtoll_all, strtoull_all.
  rewrite strto_parts_dec. pose proof (dec_Z_head_minus z) as Hm.
  destruct (dec_Z z) as [|c r] eqn:Hr; [by apply dec_Z_nonnil in Hr|]. rewrite Hm. cbn [is_nil].
  assert ((if z <? 0 then - Z.abs z else Z.abs z) = z) as -> by (destruct (z <? 0) eqn:E; bool_prop; lia).
  destruct ((int64_min <=? z) && (z <=? int64_max)) eqn:E1; [done|].
  destruct (z <? 0) eqn:E2; bool_prop.
  - by rewrite (proj2 (Z.leb_gt 0 z)).
  - rewrite (proj2 (Z.leb_le 0 z)), Z.abs_eq by done. simpl.
    destruct (two64 <=? z) eqn:E3; bool_prop.
    + by rewrite (proj2 (Z.ltb_ge z two64)).
    + by rewrite (proj2 (Z.ltb_lt z two64)).
Qed.

Section OracleTheorems.
Variable mktime : tm -> option Z.
Variable strtod : str -> Z.
Variable snprintf_g : Z -> Z -> str.
Variable localtime : Z -> tm.
Let bind := oracleBindValue strtod snprintf_g localtime.
Let read := oracleValueFromText mktime strtod.

(** values survive the trip through Oracle's text forms: an integer sent as a
    bind and read from a NUMBER column without a declared precision comes back as
    the same number, as a signed integer whenever it fits in one (so an unsigned
    value up to 2^63 - 1 comes back signed), and as an exact decimal beyond 64 bits;
    a raw value read from the hexadecimal text of a RAW column is the bytes that
    were bound; text and intervals are unchanged. *)
Theorem oracle_values_roundtrip :
  (forall z, bv_text (bind (VInt64 z)) = Some (dec_Z z) /\ bv_text (bind (VUInt64 z)) = Some (dec_Z z) /\
     read 2 (dec_Z z) 0 0 =
       if (int64_min <=? z) && (z <=? int64_max) then VInt64 z
       else if (0 <=? z) && (z <? two64) then VUInt64 z else VDecimal (dec_Z z)) /\
  (forall b p s, bv_raw (bind (VBlob b)) = Some b /\ read 23 (blobToHex b) p s = VBlob b) /\
  (forall t p s, bv_text (bind (VString t)) = Some t /\ read 1 t p s = VString t /\
     bv_text (bind (VIntervalYearMonth t)) = Some t /\ read 189 t p s = VIntervalYearMonth t /\
     bv_text (bind (VIntervalDaySecond t)) = Some t /\ read 190 t p s = VIntervalDaySecond t).
Proof.
  split_and!.
  - intros z. split_and!; try done. unfold read, oracleValueFromText.
    change (oracleTypeClass 2) with OcNumber. cbv iota.
    rewrite dec_Z_no_fraction. apply integer_text_dec.
  - intros b p s. split; [done|]. unfold read, oracleValueFromText. simpl. by rewrite hexToBlob_blobToHex.
  - done.
Qed.

(** a finite double is bound as a text that [strtod] reads back as the same
    double, provided 17 significant digits do; a double that is not finite is bound
    as NULL. *)
Theorem oracle_double_bind (v : Z) :
  (isfinite v = true -> double_eq (strtod (snprintf_g 17 v)) v = true) ->
  match bv_text (bind (VDouble v)) with
  | Some text => isfinite v = true /\ double_eq (strtod text) v = true
  | None => isfinite v = false /\ bind_isNull (bind (VDouble v)) = true
  end.
Proof.
  intros H17. unfold bind, oracleBindValue. destruct (isfinite v) eqn:Hv; simpl; [|done].
  split; [done|]. unfold oracleFormatDouble. rewrite Hv. simpl.
  destruct (double_eq (strtod (snprintf_g 15 v)) v) eqn:E15; [done|].
  destruct (double_eq (strtod (snprintf_g 16 v)) v) eqn:E16; [done|].
  rewrite H17 by done. by apply H17.
Qed.
End OracleTheorems.

(** ** Timestamps of the two readers *)
Lemma u32_id z : 0 <= z < 2 ^ 32 -> u32 z = z.
Proof. intros H. unfold u32. by apply Z.mod_small. Qed.

Lemma daysFromCivil_civil_days y m d :
  1 <= m <= 12 -> 1 <= d <= 31 -> daysFromCivil y m d = civil_days y m d.
Proof.
  intros Hm Hd. unfold daysFromCivil, civil_days. cbv zeta.
  set (yy := y - (if m <=? 2 then 1 else 0)). set (era := Z.quot _ 400).
  assert (era = yy / 400) as Hera by apply quot_floor400.
  assert (0 <= yy - era * 400 < 400) as Hyoe by (rewrite Hera; zdiv). clearbody era. clear Hera.
  set (yoe := yy - era * 400) in *. rewrite (u32_id yoe) by lia.
  assert (u32 (m + (if 2 <? m then -3 else 9)) = (if 2 <? m then m - 3 else m + 9)) as ->.
  { rewrite u32_id; destruct (2 <? m) eqn:E; bool_prop; lia. }
  set (mp := if 2 <? m then m - 3 else m + 9).
  assert (0 <= mp <= 11) as Hmp by (unfold mp; destruct (2 <? m) eqn:E; bool_prop; lia).
  clearbody mp yoe. rewrite (u32_id (153 * mp)) by lia. rewrite (u32_id (153 * mp + 2)) by lia.
  assert (0 <= (153 * mp + 2) / 5 <= 337) as Hq by zdiv.
  rewrite (u32_id ((153 * mp + 2) / 5 + d - 1)) by lia.
  rewrite u32_id; [lia|]. zdiv.
Qed.

Lemma nano_digits_frac s : forall v n r,
  forallb isdigit s = true -> (n + length s <= 9)%nat ->
  match r with c :: _ => isdigit c = false | [] => True end ->
  nano_digits v n (s ++ r) = frac_digits v n (s ++ r).
Proof.
  induction s as [|c s IH]; intros v n r Hs Hn Hr.
  - destruct r as [|c r]; [done|]. simpl. rewrite Hr, andb_false_r. done.
  - simpl in *. apply andb_true_iff in Hs as [Hc Hs]. rewrite Hc.
    rewrite (proj2 (Nat.ltb_lt n 9)) by lia. simpl. apply IH; [done|lia|done].
Qed.

Lemma read_nanos_field s z r :
  field_ok 3 s z = true -> match r with c :: _ => isdigit c = false | [] => True end ->
  read_nanos ("."%char :: s ++ r) = (z * 1000000, r).
Proof.
  intros H Hr. rewrite <- (read_fraction_field s z r H Hr). unfold read_nanos, read_fraction.
  change (Ascii.eqb "." ".") with true. cbv iota.
  unfold field_ok in H. bool_prop. by rewrite nano_digits_frac by (done || lia).
Qed.

Lemma field_head_digit w s z r :
  field_ok (S w) s z = true -> exists c t, s ++ r = c :: t /\ isdigit c = true /\ isspace c = false.
Proof.
  unfold field_ok. intros H. bool_prop. destruct s as [|c s]; [done|]. simpl in *.
  exists c, (s ++ r). apply andb_true_iff in H1 as [Hc _]. split; [done|]. split; [done|].
  revert Hc. clear. all_chars c.
Qed.

Lemma skipSpaces_field w s z r : field_ok (S w) s z = true -> skipSpaces (s ++ r) = s ++ r.
Proof.
  intros H. destruct (field_head_digit w s z r H) as (c & t & -> & _ & Hc).
  unfold skipSpaces. simpl. by rewrite Hc.
Qed.

Lemma ora_time_fields h mi se ms r :
  0 <= h < 100 -> 0 <= mi < 100 -> 0 <= se < 100 -> 0 <= ms < 1000 ->
  match r with c :: _ => isdigit c = false | [] => True end ->
  ora_time (pad 2 h ++ ":"%char :: pad 2 mi ++ ":"%char :: pad 2 se ++ "."%char :: pad 3 ms ++ r) =
  Some (h, mi, se, ms * 1000000, r).
Proof.
  intros Hh Hmi Hse Hms Hr. unfold ora_time.
  pose proof (pad2_field h Hh) as Hf.
  destruct (field_head_digit 1 _ _ (":"%char :: pad 2 mi ++ ":"%char :: pad 2 se ++ "."%char :: pad 3 ms ++ r) Hf)
    as (c & t & Hc & Hd & _).
  rewrite Hc, Hd, <- Hc. rewrite (read_int_field 2 (pad 2 h) h) by done.
  cbn [mbind option_bind fst snd expect]. change (Ascii.eqb ":" ":") with true. cbv iota.
  cbn [mbind option_bind fst snd].
  rewrite (read_int_field 2 (pad 2 mi) mi) by (by apply pad2_field). cbn [mbind option_bind fst snd expect].
  change (Ascii.eqb ":" ":") with true. cbv iota. cbn [mbind option_bind fst snd].
  rewrite (read_int_field 2 (pad 2 se) se) by (by apply pad2_field). cbn [mbind option_bind fst snd].
  by rewrite (read_nanos_field (pad 3 ms) ms) by (done || by apply pad3_field).
Qed.

#[local] Arguments read_int : simpl never.
#[local] Arguments pad : simpl never.
#[local] Arguments dec_Z : simpl never.
#[local] Arguments ora_time : simpl never.
#[local] Arguments skipSpaces : simpl never.
#[local] Arguments daysFromCivil : simpl never.
#[local] Arguments civil_days : simpl never.

(** the Oracle reader gives a printed instant the same value as
    [tryParseTimestamp]: the instant in whole milliseconds, from 1900 on. *)
Theorem oracleParse_utc (mktime : tm -> option Z) (localtime : Z -> tm) (t : Z) :
  civil_days 1900 1 1 * 86400 * ns_per_s <= t -> is_i64 t ->
  oracleParseTimestamp mktime (timestampToUtcStringMs localtime t) = Some (to_millis t).
Proof.
  intros Hlo Ht.
  destruct (utc_fields localtime t Hlo Ht) as
    (y & mo & d & h & mi & se & ms & -> & Hy & Hmo & Hd & Hh & Hmi & Hse & Hms & Heq).
  pose proof (month_length_31 y mo) as H31.
  unfold oracleParseTimestamp. rewrite <- !app_assoc.
  rewrite (skipSpaces_field 3 (dec_Z y) y) by (apply year_field; lia).
  rewrite (read_int_field 4 (dec_Z y) y) by (apply year_field; lia). cbn.
  rewrite (read_int_field 2 (pad 2 mo) mo) by (apply pad2_field; lia). cbn.
  rewrite (read_int_field 2 (pad 2 d) d) by (apply pad2_field; lia). cbn.
  assert ((mo <? 1) || (12 <? mo) || (d <? 1) || (31 <? d) = false) as ->.
  { repeat (apply orb_false_iff; split); apply Z.ltb_ge; lia. }
  change (skipSpaces (" "%char :: ?x)) with (skipSpaces x).
  rewrite (skipSpaces_field 1 (pad 2 h) h) by (apply pad2_field; lia).
  rewrite ora_time_fields by (done || lia). cbn.
  rewrite daysFromCivil_civil_days by lia.
  change (ora_offset (skipSpaces ["+"%char; "0"%char; "0"%char])) with (Some (Some 0)). cbn.
  rewrite Z.sub_0_r, Heq. f_equal. apply i64_id. unfold is_i64, to_millis, ns_per_s in *.
  change (civil_days 1900 1 1) with (-25567) in Hlo. zdiv.
Qed.

(** the Oracle reader does not check a date against its month, nor a time of
    day: the 31st of February is taken for the 3rd of March and a clock may show
    99:99:99, texts [tryParseTimestamp] refuses. *)
Theorem oracle_dates_unchecked (mktime : tm -> option Z) :
  oracleParseTimestamp mktime (lit "2023-02-31 00:00:00Z") =
    oracleParseTimestamp mktime (lit "2023-03-03 00:00:00Z") /\
  tryParseTimestamp mktime (lit "2023-02-31 00:00:00Z") = None /\
  oracleParseTimestamp mktime (lit "2023-01-01 99:99:99Z") =
    oracleParseTimestamp mktime (lit "2023-01-05 04:40:39Z") /\
  tryParseTimestamp mktime (lit "2023-01-01 99:99:99Z") = None.
Proof. split_and!; vm_compute; reflexivity. Qed.

(** ** The descriptor as a tree of name-value pairs *)
Inductive nv :=
  | NvAtom (name value : str)
  | NvQuoted (name value : str)
  | NvList (name : str) (items : list nv).

Section NvInd.
Variable P : nv -> Prop.
Hypothesis Hatom : forall n v, P (NvAtom n v).
Hypothesis Hquoted : forall n v, P (NvQuoted n v).
Hypothesis Hlist : forall n l, Forall P l -> P (NvList n l).
Fixpoint nv_nested_ind (t : nv) : P t :=
  match t with
  | NvAtom n v => Hatom n v
  | NvQuoted n v => Hquoted n v
  | NvList n l => Hlist n l ((fix go l : Forall P l :=
      match l with [] => Forall_nil_2 _ | x :: r => Forall_cons_2 _ _ _ (nv_nested_ind x) (go r) end) l)
  end.
End NvInd.

Fixpoint nv_print (t : nv) : str :=
  match t with
  | NvAtom n v => "("%char :: n ++ "="%char :: v ++ [")"%char]
  | NvQuoted n v => "("%char :: n ++ "="%char :: dquote :: v ++ [dquote; ")"%char]
  | NvList n l => "("%char :: n ++ "="%char :: concat (map nv_print l) ++ [")"%char]
  end.

(** A reader: a value is a quoted text, a list of pairs, or an atom. *)
Fixpoint nv_read (fuel : nat) (s : str) : option (nv * str) :=
  match fuel with
  | O => None
  | S fuel =>
      r ← expect "(" s;
      let name := take_while atom_char r in
      r ← expect "=" (skip_while atom_char r);
      match r with
      | c :: r' =>
          if Ascii.eqb c dquote then
            let quoted d := negb (Ascii.eqb d dquote) in
            t ← expect dquote (skip_while quoted r');
            t ← expect ")" t;
            Some (NvQuoted name (take_while quoted r'), t)
          else if Ascii.eqb c "(" then
            items ← nv_items fuel r;
            t ← expect ")" items.2;
            Some (NvList name items.1, t)
          else
            t ← expect ")" (skip_while atom_char r);
            Some (NvAtom name (take_while atom_char r), t)
      | [] => None
      end
  end
with nv_items (fuel : nat) (s : str) : option (list nv * str) :=
  match fuel with
  | O => None
  | S fuel =>
      match s with
      | c :: _ =>
          if Ascii.eqb c "(" then
            x ← nv_read fuel s;
            l ← nv_items fuel x.2;
            Some (x.1 :: l.1, l.2)
          else Some ([], s)
      | [] => Some ([], [])
      end
  end.

(** What a well-formed descriptor is made of. *)
Fixpoint nv_ok (t : nv) : bool :=
  match t with
  | NvAtom n v => forallb atom_char n && forallb atom_char v &&
                  match v with c :: _ => negb (Ascii.eqb c dquote) | [] => false end
  | NvQuoted n v => forallb atom_char n && forallb (fun d => negb (Ascii.eqb d dquote)) v
  | NvList n l => forallb atom_char n && negb (is_nil l) && forallb nv_ok l
  end.

Definition timeout_tree (o : OracleConnectOptions) : list nv :=
  let timeout := dec_Z (oc_connectionTimeoutMs o) ++ lit "ms" in
  if 0 <? oc_connectionTimeoutMs o
  then [NvAtom (lit "CONNECT_TIMEOUT") timeout; NvAtom (lit "TRANSPORT_CONNECT_TIMEOUT") timeout]
  else [].
Definition security_tree (o : OracleConnectOptions) : list nv :=
  if oc_tlsEnabled o
  then [NvList (lit "SECURITY")
          (NvAtom (lit "SSL_SERVER_DN_MATCH") (if oc_tlsVerifyPeer o then lit "YES" else lit "NO") ::
           (if negb (is_nil (oc_serverCertDn o))
            then [NvQuoted (lit "SSL_SERVER_CERT_DN") (oc_serverCertDn o)] else []) ++
           (if negb (is_nil (oc_walletLocation o))
            then [NvQuoted (lit "WALLET_LOCATION") (oc_walletLocation o)] else []))]
  else [].
Definition descriptor_tree (o : OracleConnectOptions) : nv :=
  NvList (lit "DESCRIPTION")
    (timeout_tree o ++
     [NvList (lit "ADDRESS")
        [NvAtom (lit "PROTOCOL") (if oc_tlsEnabled o then lit "TCPS" else lit "TCP");
         NvAtom (lit "HOST") (oc_host o); NvAtom (lit "PORT") (dec_Z (oc_port o))];
      NvList (lit "CONNECT_DATA")
        [if is_nil (oc_sid o) then NvAtom (lit "SERVICE_NAME") (oc_serviceName o)
         else NvAtom (lit "SID") (oc_sid o)]] ++
     security_tree o).

Lemma take_while_stop f s c r : forallb f s = true -> f c = false -> take_while f (s ++ c :: r) = s.
Proof.
  induction s as [|d s IH]; simpl; intros Hs Hc; [by rewrite Hc|].
  apply andb_true_iff in Hs as [-> Hs]. by rewrite IH.
Qed.
Lemma skip_while_stop f s c r : forallb f s = true -> f c = false -> skip_while f (s ++ c :: r) = c :: r.
Proof.
  induction s as [|d s IH]; simpl; intros Hs Hc; [by rewrite Hc|].
  apply andb_true_iff in Hs as [-> Hs]. by apply IH.
Qed.

Lemma expect_same c s : expect c (c :: s) = Some s.
Proof. unfold expect. by rewrite Ascii.eqb_refl. Qed.

Lemma nv_print_head t rest : exists s, nv_print t ++ rest = "("%char :: s.
Proof. destruct t; simpl; eauto. Qed.

Lemma nv_items_print l : forall fuel rest,
  Forall (fun t => forall fuel rest, (2 * length (nv_print t) <= fuel)%nat ->
            nv_read fuel (nv_print t ++ rest) = Some (t, rest)) l ->
  (2 * length (concat (map nv_print l)) + 1 <= fuel)%nat ->
  (match rest with c :: _ => Ascii.eqb c "(" = false | [] => False end) ->
  nv_items fuel (concat (map nv_print l) ++ rest) = Some (l, rest).
Proof.
  induction l as [|t l IH]; intros fuel rest Hok Hf Hr; (destruct fuel as [|fuel]; [lia|]).
  - destruct rest as [|c rest]; [done|]. simpl. by rewrite Hr.
  - inversion Hok as [|? ? Ht Hl]; subst. cbn [map concat] in *. rewrite length_app in Hf.
    rewrite <- app_assoc. cbn [nv_items].
    destruct (nv_print_head t (concat (map nv_print l) ++ rest)) as [s Hs]. rewrite Hs, Ascii.eqb_refl, <- Hs.
    assert (1 <= length (nv_print t))%nat as Hlen by (destruct t; simpl; lia).
    rewrite Ht by lia. cbn [mbind option_bind fst snd]. by rewrite IH by (done || lia).
Qed.

Lemma atom_not_open c : atom_char c = true -> Ascii.eqb c "(" = false.
Proof. all_chars c. Qed.

Lemma nv_read_print t : nv_ok t = true -> forall fuel rest,
  (2 * length (nv_print t) <= fuel)%nat -> nv_read fuel (nv_print t ++ rest) = Some (t, rest).
Proof.
  induction t as [n v|n v|n l IH] using nv_nested_ind; intros Hok fuel rest Hf; cbn [nv_ok] in Hok;
    cbn [nv_print length] in Hf; rewrite length_app in Hf; cbn [length] in Hf;
    (destruct fuel as [|fuel]; [lia|]); cbn [nv_print nv_read app]; rewrite expect_same;
    cbn [mbind option_bind]; apply andb_true_iff in Hok as [Hok H2];
    rewrite <- app_assoc; cbn [app];
    (rewrite take_while_stop, skip_while_stop, expect_same by (done || by apply andb_true_iff in Hok as [? ?]));
    cbn [mbind option_bind].
  - apply andb_true_iff in Hok as [_ Hv]. destruct v as [|c v]; [done|].
    apply negb_true_iff in H2. rewrite <- app_assoc. cbn [app]. rewrite H2.
    rewrite atom_not_open by (simpl in Hv; by apply andb_true_iff in Hv as [? _]).
    rewrite (app_comm_cons v), skip_while_stop, take_while_stop, expect_same by done. done.
  - rewrite Ascii.eqb_refl, <- app_assoc. cbn [app].
    rewrite skip_while_stop, take_while_stop by done. rewrite expect_same. cbn [mbind option_bind].
    by rewrite expect_same.
  - apply andb_true_iff in Hok as [_ Hne]. rewrite length_app in Hf. simpl in Hf.
    destruct l as [|t l]; [done|]. rewrite <- app_assoc. cbn [app].
    destruct (nv_print_head t (concat (map nv_print l) ++ ")"%char :: rest)) as [s Hs].
    assert (concat (map nv_print (t :: l)) ++ ")"%char :: rest = "("%char :: s) as Hcat
      by (cbn [map concat]; by rewrite <- app_assoc).
    rewrite Hcat. change (Ascii.eqb "(" dquote) with false. change (Ascii.eqb "(" "(") with true. cbv iota.
    rewrite <- Hcat, nv_items_print; [|..].
    + cbn [mbind option_bind fst snd]. by rewrite expect_same.
    + simpl in H2. clear Hcat Hs. revert H2. change (forallb nv_ok (t :: l) = true ->
        Forall (fun t => forall fuel rest, (2 * length (nv_print t) <= fuel)%nat ->
            nv_read fuel (nv_print t ++ rest) = Some (t, rest)) (t :: l)).
      intros Hall. rewrite forallb_forall in Hall. rewrite Forall_forall in IH |- *.
      intros x Hx. apply IH; [done|]. by apply Hall, list_elem_of_In.
    + lia.
    + done.
Qed.

Ltac flatten := repeat first [rewrite <- app_assoc | progress cbn [app]].

Lemma timeout_print o : concat (map nv_print (timeout_tree o)) = timeout_text o.
Proof.
  unfold timeout_text, timeout_tree. destruct (0 <? oc_connectionTimeoutMs o); [|done].
  cbn [map concat nv_print]. flatten. reflexivity.
Qed.

Lemma security_print o : concat (map nv_print (security_tree o)) = security_text o.
Proof.
  unfold security_text, security_tree. destruct (oc_tlsEnabled o); [|done].
  destruct (is_nil (oc_serverCertDn o)), (is_nil (oc_walletLocation o));
    cbn [map concat nv_print negb app]; flatten; destruct (oc_tlsVerifyPeer o); reflexivity.
Qed.

Lemma descriptor_print o : descriptor_text o = nv_print (descriptor_tree o).
Proof.
  unfold descriptor_text, descriptor_tree. cbn [nv_print].
  rewrite !map_app, !concat_app, timeout_print, security_print. cbn [map concat nv_print].
  flatten. destruct (oc_tlsEnabled o), (is_nil (oc_sid o)); cbn [nv_print]; flatten; reflexivity.
Qed.

Lemma digits_atom s : Forall (fun c => isdigit c = true) s -> forallb atom_char s = true.
Proof.
  induction 1 as [|c s Hc _ IH]; [done|]. simpl. rewrite IH, andb_true_r. revert Hc. clear. all_chars c.
Qed.

Lemma dec_Z_atom z suffix :
  0 <= z -> forallb atom_char suffix = true ->
  nv_ok (NvAtom [] (dec_Z z ++ suffix)) = true.
Proof.
  intros Hz Hs. unfold dec_Z. rewrite (proj2 (Z.ltb_ge z 0)) by done. cbn [nv_ok forallb andb].
  pose proof (dec_N_digits (Z.to_N z)) as Hd. rewrite forallb_app, digits_atom, Hs by done. simpl.
  destruct (dec_N (Z.to_N z)) as [|c r] eqn:Hr; [by apply dec_N_nonnil in Hr|]. inversion Hd; subst. simpl.
  match goal with H : isdigit c = true |- _ => revert H end. clear. all_chars c.
Qed.

Lemma nv_ok_atom n v : forallb atom_char n = true -> nv_ok (NvAtom [] v) = true -> nv_ok (NvAtom n v) = true.
Proof. simpl. by intros ->. Qed.

(** No leading double quote, which would open a quoted value. *)
Definition unquoted (s : str) : bool := negb (match s with c :: _ => Ascii.eqb c dquote | [] => false end).

Lemma valid_atom_ok v : validDescriptorAtom v = true -> unquoted v = true -> nv_ok (NvAtom [] v) = true.
Proof.
  unfold validDescriptorAtom, unquoted. intros Hv Hu. apply andb_true_iff in Hv as [Hn Hv].
  simpl. rewrite Hv. by destruct v.
Qed.

Lemma valid_quoted_ok n v :
  forallb atom_char n = true -> negb (is_nil v) && negb (validQuotedDescriptorValue v) = false ->
  negb (is_nil v) = true -> nv_ok (NvQuoted n v) = true.
Proof.
  intros Hn Hv Hne. rewrite Hne in Hv. simpl in Hv. apply negb_false_iff in Hv. simpl. rewrite Hn.
  unfold validQuotedDescriptorValue in Hv. apply andb_true_iff in Hv as [_ Hv]. simpl.
  rewrite forallb_forall in *. intros c Hc. apply Hv in Hc. unfold quoted_char in Hc.
  apply negb_true_iff, orb_false_iff in Hc as [_ ->]. done.
Qed.

Lemma nv_ok_list n l :
  forallb atom_char n = true -> is_nil l = false -> forallb nv_ok l = true -> nv_ok (NvList n l) = true.
Proof. cbn [nv_ok]. by intros -> -> ->. Qed.

Lemma timeout_tree_ok o : forallb nv_ok (timeout_tree o) = true.
Proof.
  unfold timeout_tree. destruct (0 <? oc_connectionTimeoutMs o) eqn:E; [|done]. bool_prop.
  cbn [forallb]. rewrite !nv_ok_atom by (done || (apply dec_Z_atom; [lia|done])). done.
Qed.

Lemma security_tree_ok o :
  negb (is_nil (oc_walletLocation o)) && negb (validQuotedDescriptorValue (oc_walletLocation o)) = false ->
  negb (is_nil (oc_serverCertDn o)) && negb (validQuotedDescriptorValue (oc_serverCertDn o)) = false ->
  forallb nv_ok (security_tree o) = true.
Proof.
  intros Hw Hdn. unfold security_tree. destruct (oc_tlsEnabled o); [|done].
  cbn [forallb]. rewrite nv_ok_list; [done|done|done|]. cbn [forallb]. rewrite forallb_app.
  assert (nv_ok (NvAtom (lit "SSL_SERVER_DN_MATCH") (if oc_tlsVerifyPeer o then lit "YES" else lit "NO")) = true)
    as -> by by destruct (oc_tlsVerifyPeer o).
  cbn [andb]. apply andb_true_iff. split.
  - destruct (negb (is_nil (oc_serverCertDn o))) eqn:E; [|done]. cbn [forallb].
    by rewrite valid_quoted_ok by (done || by rewrite E).
  - destruct (negb (is_nil (oc_walletLocation o))) eqn:E; [|done]. cbn [forallb].
    by rewrite valid_quoted_ok by (done || by rewrite E).
Qed.

Lemma descriptor_tree_ok o :
  validDescriptorAtom (oc_host o) = true -> unquoted (oc_host o) = true -> 1 <= oc_port o ->
  validDescriptorAtom (if is_nil (oc_sid o) then oc_serviceName o else oc_sid o) = true ->
  unquoted (oc_serviceName o) = true -> unquoted (oc_sid o) = true ->
  negb (is_nil (oc_walletLocation o)) && negb (validQuotedDescriptorValue (oc_walletLocation o)) = false ->
  negb (is_nil (oc_serverCertDn o)) && negb (validQuotedDescriptorValue (oc_serverCertDn o)) = false ->
  nv_ok (descriptor_tree o) = true.
Proof.
  intros Hh Hhu Hp Ht Hsv Hsid Hw Hdn. unfold descriptor_tree.
  apply nv_ok_list; [done|by destruct (timeout_tree o)|].
  rewrite !forallb_app, timeout_tree_ok, security_tree_ok by done. rewrite andb_true_r. cbn [forallb andb].
  rewrite nv_ok_list; [|done|done|].
  - rewrite nv_ok_list; [done|done|done|]. cbn [forallb].
    destruct (is_nil (oc_sid o)); by rewrite nv_ok_atom by (done || by apply valid_atom_ok).
  - cbn [forallb]. rewrite !nv_ok_atom; try done.
    + rewrite <- (app_nil_r (dec_Z _)). apply dec_Z_atom; [lia|done].
    + by apply valid_atom_ok.
    + by destruct (oc_tlsEnabled o).
Qed.

(** C38: no value of the options changes the shape of a connect descriptor: the
    descriptor built from accepted options reads back, by the grammar of Oracle
    Net, as the tree of name-value pairs of exactly those options, whatever the
    host, service name, SID, wallet path and certificate name hold, except for a
    host, service name or SID that starts with a double quote, which is accepted
    and does change it ([quote_swallows_descriptor]). *)
Theorem descriptor_reads_back (o : OracleConnectOptions) (out : str) :
  oracleBuildConnectDescriptor o = (StatusOK, out) ->
  unquoted (oc_host o) = true -> unquoted (oc_serviceName o) = true -> unquoted (oc_sid o) = true ->
  nv_read (2 * length out) out = Some (descriptor_tree o, []).
Proof.
  unfold oracleBuildConnectDescriptor. intros Hb Hh Hsv Hsid.
  repeat (match type of Hb with (if ?b then _ else _) = _ => destruct b eqn:?; [done|] end).
  injection Hb as <-. rewrite <- (app_nil_r (descriptor_text o)) at 2. rewrite descriptor_print.
  apply nv_read_print; [|lia].
  bool_prop. by apply descriptor_tree_ok.
Qed.

(** a double quote is accepted where a value is not quoted: from accepted
    options whose host and service name hold one, a reader of the descriptor finds
    a single pair that swallows the port and the service name. *)
Theorem quote_swallows_descriptor :
  let o := mkConnect (dquote :: lit "db") 1521 (lit "x" ++ [dquote]) [] 0 false true [] [] in
  (oracleBuildConnectDescriptor o).1 = StatusOK /\
  nv_read 200 (oracleBuildConnectDescriptor o).2 <> Some (descriptor_tree o, []).
Proof. split; [reflexivity|]. vm_compute. discriminate. Qed.

(** ** RETURNING: the clause the driver appends is the one it reads *)

(** The scan of [sql] ends outside quotes. *)
Fixpoint ends_outside (fuel : nat) (q : option ascii) (s : str) : bool :=
  match fuel with
  | O => bool_decide (q = None)
  | S fuel =>
      match s with
      | [] => bool_decide (q = None)
      | c :: r =>
          match q with
          | Some quote =>
              if Ascii.eqb c quote then
                match r with
                | d :: r' => if Ascii.eqb d quote then ends_outside fuel q r' else ends_outside fuel None r
                | [] => ends_outside fuel None r
                end
              else ends_outside fuel q r
          | None =>
              if Ascii.eqb c squote || Ascii.eqb c dquote then ends_outside fuel (Some c) r
              else if isalpha c then ends_outside fuel None (skip_while isWordChar s)
              else ends_outside fuel None r
          end
      end
  end.
Definition quotes_closed (sql : str) : bool := ends_outside (length sql) None sql.

Lemma alpha_word c : isalpha c = true -> isWordChar c = true.
Proof. unfold isWordChar, isalnum. by intros ->. Qed.

Lemma skip_word_shorter c r : isWordChar c = true -> (length (skip_while isWordChar (c :: r)) <= length r)%nat.
Proof. intros Hc. simpl. rewrite Hc. apply skip_while_length. Qed.

Lemma find_returning_fuel s : forall f1 f2 q found,
  (length s <= f1)%nat -> (length s <= f2)%nat -> find_returning f1 q found s = find_returning f2 q found s.
Proof.
  induction s as [s IH] using (induction_ltof1 _ (@length ascii)). unfold ltof in IH.
  intros f1 f2 q found H1 H2. destruct s as [|c r]; [by destruct f1, f2|].
  simpl in H1, H2. destruct f1 as [|f1]; [lia|]. destruct f2 as [|f2]; [lia|]. cbn [find_returning].
  destruct q as [quote|].
  - destruct (Ascii.eqb c quote); [|apply IH; simpl; lia].
    destruct r as [|d r']; [by apply IH; simpl; lia|].
    destruct (Ascii.eqb d quote); apply IH; simpl in *; lia.
  - destruct (Ascii.eqb c squote || Ascii.eqb c dquote); [apply IH; simpl; lia|].
    destruct (isalpha c) eqn:Ha; [|apply IH; simpl; lia].
    pose proof (skip_word_shorter c r (alpha_word c Ha)) as Hw. revert Hw.
    generalize (skip_while isWordChar (c :: r)) as w. intros w Hw. apply IH; simpl; lia.
Qed.

(** The scan from a place outside quotes, with the fuel it needs. *)
Definition scan (found : option str) (s : str) : option str := find_returning (length s) None found s.

Lemma take_skip_app_stop f s c r :
  f c = false -> take_while f (s ++ c :: r) = take_while f s /\ skip_while f (s ++ c :: r) = skip_while f s ++ c :: r.
Proof.
  intros Hc. induction s as [|d s IH]; simpl; [by rewrite Hc|].
  destruct (f d); [|done]. destruct IH as [-> ->]. done.
Qed.

Definition quote_state (q : option ascii) : Prop :=
  match q with Some c => Ascii.eqb " " c = false | None => True end.

Lemma scan_prefix s : forall fuel q found suffix,
  (length s <= fuel)%nat -> quote_state q -> ends_outside fuel q s = true ->
  exists found', forall k, (length (" "%char :: suffix) <= k)%nat ->
    find_returning (fuel + k) q found (s ++ " "%char :: suffix) = find_returning k None found' (" "%char :: suffix).
Proof.
  induction s as [s IH] using (induction_ltof1 _ (@length ascii)). unfold ltof in IH.
  intros fuel q found suffix Hf Hq He. destruct s as [|c r].
  - assert (q = None) as -> by (destruct fuel; by apply bool_decide_eq_true in He).
    exists found. intros k Hk. apply find_returning_fuel; simpl in *; lia.
  - simpl in Hf. destruct fuel as [|fuel]; [lia|]. cbn [ends_outside] in He.
    cbn [Nat.add app find_returning]. destruct q as [quote|].
    + destruct (Ascii.eqb c quote) eqn:Eq; [|apply IH; simpl; lia || done].
      destruct r as [|d r'].
      * unfold quote_state in Hq. cbn [app]. rewrite Hq. apply (IH []); simpl; lia || done.
      * cbn [app]. destruct (Ascii.eqb d quote); [|apply (IH (d :: r')); simpl in *; lia || done].
        apply IH; simpl in *; lia || done.
    + destruct (Ascii.eqb c squote || Ascii.eqb c dquote) eqn:Eq.
      * apply IH; try (simpl; lia); try done. simpl.
        apply orb_true_iff in Eq as [Eq|Eq]; apply Ascii.eqb_eq in Eq as ->; done.
      * destruct (isalpha c) eqn:Ha; [|apply IH; simpl; lia || done].
        destruct (take_skip_app_stop isWordChar (c :: r) " " suffix eq_refl) as [Ht Hs].
        rewrite <- app_comm_cons in Ht, Hs. rewrite Ht, Hs.
        pose proof (skip_word_shorter c r (alpha_word c Ha)) as Hw. revert Hw He.
        generalize (skip_while isWordChar (c :: r)) as w. intros w Hw He. apply IH; simpl; lia || done.
Qed.

(** Nothing after the keyword is another RETURNING. *)
Lemma scan_step found c s :
  Ascii.eqb c squote || Ascii.eqb c dquote = false -> isalpha c = false -> scan found (c :: s) = scan found s.
Proof. intros H1 H2. unfold scan. cbn [length find_returning]. by rewrite H1, H2. Qed.

Lemma scan_steps found t s :
  forallb (fun c => negb (Ascii.eqb c squote || Ascii.eqb c dquote) && negb (isalpha c)) t = true ->
  scan found (t ++ s) = scan found s.
Proof.
  induction t as [|c t IH]; [done|]. simpl. intros Ht. apply andb_true_iff in Ht as [Hc Ht].
  apply andb_true_iff in Hc as [H1 H2]. apply negb_true_iff in H1, H2.
  rewrite scan_step by done. by apply IH.
Qed.

Lemma scan_in_quotes found s rest : forall fuel,
  (length (double_char dquote s ++ dquote :: rest) <= fuel)%nat -> hd_error rest <> Some dquote ->
  find_returning fuel (Some dquote) found (double_char dquote s ++ dquote :: rest) = scan found rest.
Proof.
  induction s as [|c s IH]; intros fuel Hf Hr.
  - simpl in *. destruct fuel as [|fuel]; [lia|]. cbn [find_returning]. rewrite Ascii.eqb_refl.
    destruct rest as [|d rest]; [by destruct fuel|].
    assert (Ascii.eqb d dquote = false) as -> by (apply Ascii.eqb_neq; intros ->; done).
    apply find_returning_fuel; simpl in *; lia.
  - revert Hf. change (double_char dquote (c :: s)) with
      ((if Ascii.eqb c dquote then [dquote; dquote] else [c]) ++ double_char dquote s).
    destruct (Ascii.eqb c dquote) eqn:E; cbn [app length]; intros Hf; (destruct fuel as [|fuel]; [lia|]);
      cbn [find_returning].
    + rewrite !Ascii.eqb_refl. apply IH; [lia|done].
    + rewrite E. apply IH; [lia|done].
Qed.

Lemma scan_identifier found s rest :
  hd_error rest <> Some dquote -> scan found (quoteIdentifier s ++ rest) = scan found rest.
Proof.
  intros Hr. unfold quoteIdentifier, scan. cbn [app length find_returning].
  change (Ascii.eqb dquote squote || Ascii.eqb dquote dquote) with true. cbv iota.
  rewrite <- app_assoc. cbn [app]. by apply scan_in_quotes.
Qed.

Lemma scan_identifiers found l rest :
  hd_error rest <> Some dquote ->
  scan found (join comma_sep (map quoteIdentifier l) ++ rest) = scan found rest.
Proof.
  intros Hr. induction l as [|x l IH]; [done|]. destruct l as [|y l].
  - cbn [map join]. by apply scan_identifier.
  - change (join comma_sep (map quoteIdentifier (x :: y :: l))) with
      (quoteIdentifier x ++ comma_sep ++ join comma_sep (map quoteIdentifier (y :: l))).
    rewrite <- !app_assoc, scan_identifier by done. rewrite (scan_steps _ comma_sep) by done. apply IH.
Qed.

(** The list of binds [:n, :n+1, ...]. *)
Definition bind_list (first : nat) (is_ : list nat) : str :=
  join comma_sep (map (fun i => ":"%char :: dec_nat (first + i)) is_).

Lemma dec_nat_no_alpha n :
  forallb (fun c => negb (Ascii.eqb c squote || Ascii.eqb c dquote) && negb (isalpha c)) (dec_nat n) = true.
Proof.
  apply forallb_forall. intros c Hc. pose proof (dec_N_digits (N.of_nat n)) as Hd.
  rewrite Forall_forall in Hd. apply list_elem_of_In, Hd in Hc. revert Hc. clear. all_chars c.
Qed.

Lemma scan_binds found first l : scan found (bind_list first l) = found.
Proof.
  assert (forallb (fun c => negb (Ascii.eqb c squote || Ascii.eqb c dquote) && negb (isalpha c))
    (bind_list first l) = true) as Hb.
  { unfold bind_list. induction l as [|x l IH]; [done|]. destruct l as [|y l].
    - simpl. apply dec_nat_no_alpha.
    - change (join comma_sep (map ?f (x :: y :: l))) with (f x ++ comma_sep ++ join comma_sep (map f (y :: l))).
      rewrite !forallb_app. cbn [map forallb app] in IH |- *. rewrite dec_nat_no_alpha, IH. done. }
  rewrite <- (app_nil_r (bind_list first l)), scan_steps by done. done.
Qed.

Lemma scan_word found w rest :
  match w with c :: _ => isalpha c = true | [] => False end -> forallb isWordChar w = true ->
  scan found (w ++ " "%char :: rest) =
  scan (if foldEquals w (lit "RETURNING") then Some (" "%char :: rest) else found) (" "%char :: rest).
Proof.
  intros Ha Hw. destruct w as [|c w]; [done|]. unfold scan at 1. cbn [app length find_returning].
  assert (Ascii.eqb c squote || Ascii.eqb c dquote = false) as -> by (revert Ha; clear; all_chars c).
  rewrite Ha. rewrite (app_comm_cons w), take_while_stop, skip_while_stop by done.
  apply find_returning_fuel; rewrite ?length_app; simpl; lia.
Qed.

(** The keyword that is found is the one of the suffix. *)
Lemma find_suffix sql columns first :
  quotes_closed sql = true -> columns <> [] ->
  find_returning (length (sql ++ oracleMakeReturningSuffix columns first)) None None
    (sql ++ oracleMakeReturningSuffix columns first) =
  Some (" "%char :: join comma_sep (map quoteIdentifier columns) ++ " "%char :: lit "INTO" ++
        " "%char :: bind_list first (seq 0 (length columns))).
Proof.
  intros Hq Hc.
  assert (oracleMakeReturningSuffix columns first =
    " "%char :: lit "RETURNING" ++ " "%char :: join comma_sep (map quoteIdentifier columns) ++
    " "%char :: lit "INTO" ++ " "%char :: bind_list first (seq 0 (length columns))) as ->
    by (unfold oracleMakeReturningSuffix; by destruct columns).
  set (tail := join comma_sep (map quoteIdentifier columns) ++ _).
  rewrite length_app.
  destruct (scan_prefix sql (length sql) None None (lit "RETURNING" ++ " "%char :: tail)
    (Nat.le_refl _) I Hq) as [found' Hfound].
  rewrite Hfound by apply Nat.le_refl. clear Hfound.
  change (find_returning (length ?s) None found' ?s) with (scan found' s).
  rewrite scan_step by done. rewrite scan_word by done.
  change (foldEquals (lit "RETURNING") (lit "RETURNING")) with true. cbv iota.
  rewrite scan_step by done. unfold tail. rewrite scan_identifiers by done.
  rewrite scan_step by done. rewrite scan_word by done.
  change (foldEquals (lit "INTO") (lit "RETURNING")) with false. cbv iota.
  rewrite scan_step by done. apply scan_binds.
Qed.

Lemma quoted_name_double x t :
  hd_error t <> Some dquote -> quoted_name (double_char dquote x ++ dquote :: t) = (x, t).
Proof.
  intros Ht. induction x as [|c x IH].
  - simpl. destruct t as [|d t]; [done|].
    assert (Ascii.eqb d dquote = false) as Hd by (apply Ascii.eqb_neq; intros ->; done). by rewrite Hd.
  - change (double_char dquote (c :: x)) with
      ((if Ascii.eqb c dquote then [dquote; dquote] else [c]) ++ double_char dquote x).
    destruct (Ascii.eqb c dquote) eqn:E; cbn [app quoted_name].
    + rewrite !Ascii.eqb_refl, IH. by apply Ascii.eqb_eq in E as ->.
    + by rewrite E, IH.
Qed.

Lemma columns_read l : forall fuel cols t,
  l <> [] -> (length l <= fuel)%nat ->
  returning_columns fuel cols
    (" "%char :: join comma_sep (map quoteIdentifier l) ++ " "%char :: lit "INTO" ++ t) =
  Some (cols ++ l, lit "INTO" ++ t).
Proof.
  induction l as [|x l IH]; intros fuel cols t Hl Hf; [done|]. simpl in Hf. destruct fuel as [|fuel]; [lia|].
  set (rest := match l with [] => " "%char :: lit "INTO" ++ t
    | _ => comma_sep ++ join comma_sep (map quoteIdentifier l) ++ " "%char :: lit "INTO" ++ t end).
  assert (join comma_sep (map quoteIdentifier (x :: l)) ++ " "%char :: lit "INTO" ++ t =
    dquote :: double_char dquote x ++ dquote :: rest) as ->.
  { unfold rest. destruct l as [|y l].
    - cbn [map join]. unfold quoteIdentifier. cbn [app]. by rewrite <- app_assoc.
    - change (join comma_sep (map quoteIdentifier (x :: y :: l))) with
        (quoteIdentifier x ++ comma_sep ++ join comma_sep (map quoteIdentifier (y :: l))).
      generalize (join comma_sep (map quoteIdentifier (y :: l))) as j. intros j.
      unfold quoteIdentifier. cbn [app]. by rewrite <- !app_assoc. }
  cbn [returning_columns]. change (skipSpaces (" "%char :: dquote :: ?s)) with (dquote :: s). cbv iota.
  rewrite Ascii.eqb_refl. rewrite quoted_name_double by (unfold rest; by destruct l).
  cbn [mbind option_bind fst snd]. unfold rest. destruct l as [|y l]; [done|].
  change (skipSpaces (comma_sep ++ ?s)) with (","%char :: " "%char :: s). cbv iota.
  change (Ascii.eqb "," ",") with true. cbv iota.
  rewrite IH by (done || lia). by rewrite <- app_assoc.
Qed.

Lemma fold_u64 s : forall a b, a mod two64 = b mod two64 ->
  fold_left (fun a c => u64 (a * 10 + digit_val c)) s a mod two64 =
  fold_left (fun a c => a * 10 + digit_val c) s b mod two64.
Proof.
  induction s as [|c s IH]; intros a b Hab; [done|]. cbn [fold_left]. apply IH.
  unfold u64. rewrite Z.mod_mod by done. rewrite Z.add_mod, Z.mul_mod, Hab by done.
  by rewrite <- Z.mul_mod, <- Z.add_mod by done.
Qed.

Lemma fold_u64_range s a : 0 <= a < two64 ->
  0 <= fold_left (fun a c => u64 (a * 10 + digit_val c)) s a < two64.
Proof.
  revert a. induction s as [|c s IH]; intros a Ha; [done|]. apply IH. apply u64_range.
Qed.

Lemma bind_digits_dec n : Z.of_nat n < two64 -> bind_digits (dec_nat n) = Z.of_nat n.
Proof.
  intros Hn. unfold bind_digits, dec_nat. pose proof (fold_u64_range (dec_N (N.of_nat n)) 0 ltac:(done)) as Hr.
  rewrite <- (Z.mod_small _ _ Hr), (fold_u64 _ 0 0) by done.
  change (fold_left (fun a c => a * 10 + digit_val c) ?s 0) with (digits_val s).
  rewrite digits_val_dec, nat_N_Z. apply Z.mod_small. lia.
Qed.

Lemma binds_read first l : forall fuel bs,
  l <> [] -> (2 * length l <= fuel)%nat ->
  returning_binds fuel bs (" "%char :: bind_list first l) =
  Some (bs ++ map (fun i => bind_digits (dec_nat (first + i))) l).
Proof.
  induction l as [|i l IH]; intros fuel bs Hl Hf; [done|]. simpl in Hf.
  destruct fuel as [|fuel]; [lia|]. destruct fuel as [|fuel]; [lia|].
  assert (forall t, (match t with c :: _ => isdigit c = false | [] => True end) ->
    take_while isdigit (dec_nat (first + i) ++ t) = dec_nat (first + i) /\
    skip_while isdigit (dec_nat (first + i) ++ t) = t) as Hd.
  { intros t Ht. pose proof (forallb_digits _ (dec_N_digits (N.of_nat (first + i)))) as Hfa.
    fold (dec_nat (first + i)) in Hfa. destruct t as [|c t].
    - rewrite app_nil_r. clear -Hfa. induction (dec_nat (first + i)) as [|d s IH]; [done|].
      simpl in *. apply andb_true_iff in Hfa as [-> Hfa]. destruct (IH Hfa) as [-> ->]. done.
    - by rewrite take_while_stop, skip_while_stop. }
  destruct l as [|j l].
  - cbn [returning_binds]. change (skipSpaces (" "%char :: bind_list first [i])) with (":"%char :: dec_nat (first + i)).
    cbv iota. change (Ascii.eqb ":" ",") with false. change (negb (Ascii.eqb ":" ":")) with false. cbv iota.
    destruct (Hd [] I) as [H1 H2]. rewrite app_nil_r in H1, H2. rewrite H1, H2. done.
  - assert (bind_list first (i :: j :: l) =
      ":"%char :: dec_nat (first + i) ++ ","%char :: " "%char :: bind_list first (j :: l)) as -> by done.
    cbn [returning_binds]. change (skipSpaces (" "%char :: ":"%char :: ?s)) with (":"%char :: s). cbv iota.
    change (Ascii.eqb ":" ",") with false. change (negb (Ascii.eqb ":" ":")) with false. cbv iota.
    destruct (Hd (","%char :: " "%char :: bind_list first (j :: l)) eq_refl) as [-> ->].
    change (skipSpaces (","%char :: ?s)) with (","%char :: s). cbv iota.
    change (Ascii.eqb "," ",") with true. cbv iota.
    rewrite IH by (done || simpl in *; lia). by rewrite <- app_assoc.
Qed.

Lemma join_length l : (length l <= length (join comma_sep (map quoteIdentifier l)))%nat.
Proof.
  induction l as [|x [|y l] IH]; simpl in *; [lia|lia|]. rewrite !length_app in *. simpl in *. lia.
Qed.

Lemma bind_list_length first l : (2 * length l <= length (bind_list first l))%nat.
Proof.
  unfold bind_list. assert (forall n, 1 <= length (dec_nat n))%nat as Hn.
  { intros n. unfold dec_nat. pose proof (dec_N_nonnil (N.of_nat n)). destruct (dec_N (N.of_nat n)); [done|simpl; lia]. }
  induction l as [|x [|y l] IH]; [simpl; lia|simpl; specialize (Hn (first + x)%nat); lia|].
  change (join comma_sep (map ?f (x :: y :: l))) with (f x ++ comma_sep ++ join comma_sep (map f (y :: l))).
  rewrite !length_app. cbn [length] in *. specialize (Hn (first + x)%nat). simpl length at 2. lia.
Qed.

(** the RETURNING clause that is appended to a statement is the one that is
    read back: for any statement whose quotes are closed, whatever it holds (a
    RETURNING of its own, quoted text), and any column names (quotes and spaces
    included), the columns, their number and the first bind are those given. *)
Theorem returning_reads_back (sql : str) (columns : list str) (first : nat) :
  quotes_closed sql = true -> columns <> [] -> Z.of_nat first < two64 ->
  oracleParseReturningInto (sql ++ oracleMakeReturningSuffix columns first) =
  (true, mkReturning true columns (Z.of_nat first) (length columns)).
Proof.
  intros Hq Hc Hn. unfold oracleParseReturningInto. rewrite find_suffix by done.
  cbn [mbind option_bind].
  rewrite columns_read; [|done|cbn [length]; rewrite length_app; pose proof (join_length columns); lia].
  cbn [mbind option_bind fst snd app]. replace (is_nil columns) with false by by destruct columns.
  change (skipSpaces (lit "INTO" ++ ?s)) with (lit "INTO" ++ s).
  rewrite take_while_stop, skip_while_stop by done.
  change (negb (foldEquals (lit "INTO") (lit "INTO"))) with false. cbv iota.
  pose proof (bind_list_length first (seq 0 (length columns))) as Hb. rewrite length_seq in Hb.
  rewrite binds_read; [|by destruct columns|rewrite length_seq; cbn [length]; lia].
  destruct columns as [|x columns]; [done|]. cbn [length seq map app mbind option_bind].
  rewrite length_map, length_seq, Nat.eqb_refl. rewrite Nat.add_0_r, bind_digits_dec by done. done.
Qed.

(** the SQLSTATE given to an Oracle error makes [databaseError] class it as
    meant, whatever the message and with a negative code too: busy resources,
    deadlocks and failed serialisation are retryable conflicts, integrity errors
    are constraint violations, lost and refused connections are broken connections
    that may be retried. *)
Theorem oracle_error_classes (msg : str) (vendor code : Z) :
  let status code := databaseError QueryError msg (oracleSqlState code) vendor in
  (z_in code [54; 60; 8177] = true ->
     st_code (status code) = Deadlock /\ st_retryable (status code) = true) /\
  (z_in code [1; 1400; 2290; 2291; 2292] = true -> st_code (status code) = ConstraintViolation) /\
  (z_in code [3113; 3114; 3135; 12162; 12170; 12514; 12537; 12541] = true ->
     st_code (status code) = ConnectionFailed /\ st_connectionBroken (status code) = true /\
     st_retryable (status code) = true) /\
  (0 <= code -> status (- code) = status code).
Proof.
  split_and!.
  - cbv zeta. cbn [z_in existsb]. intros H. repeat (apply orb_true_iff in H as [H|H]; [apply Z.eqb_eq in H as ->; by split|]); done.
  - cbv zeta. cbn [z_in existsb]. intros H. repeat (apply orb_true_iff in H as [H|H]; [apply Z.eqb_eq in H as ->; done|]); done.
  - cbv zeta. cbn [z_in existsb]. intros H. repeat (apply orb_true_iff in H as [H|H]; [apply Z.eqb_eq in H as ->; by split_and!|]); done.
  - intros Hc. cbv zeta. unfold oracleSqlState. cbv zeta.
    assert ((if - code <? 0 then - - code else - code) = code) as ->
      by (destruct (- code <? 0) eqn:E; bool_prop; lia).
    by rewrite (proj2 (Z.ltb_ge code 0)).
Qed.

(** ** Witnesses *)
Lemma oracle_double_bind_witness :
  let snprintf_g (p v : Z) := dec_Z v in
  let strtod s := default 0 (strtoll_all s) in
  match bv_text (oracleBindValue strtod snprintf_g no_local (VDouble 4607182418800017408)) with
  | Some text => isfinite 4607182418800017408 = true /\ double_eq (strtod text) 4607182418800017408 = true
  | None => isfinite 4607182418800017408 = false /\
      bind_isNull (oracleBindValue strtod snprintf_g no_local (VDouble 4607182418800017408)) = true
  end.
Proof.
  apply (oracle_double_bind (fun s => default 0 (strtoll_all s)) (fun p v => dec_Z v) no_local 4607182418800017408).
  intros _. vm_compute. reflexivity.
Defined.

Lemma oracleParse_utc_witness :
  oracleParseTimestamp no_zone (timestampToUtcStringMs no_local 1709210096789123456) = Some 1709210096789000000.
Proof. apply (oracleParse_utc no_zone no_local 1709210096789123456); [by vm_compute|by split; vm_compute]. Defined.

Definition sample_connect : OracleConnectOptions :=
  mkConnect (lit "db.example") 2484 [] (lit "ORCL") 5000 true true (lit "/w (1)") (lit "CN=db,O=x").

Lemma descriptor_reads_back_witness :
  nv_read (2 * length (descriptor_text sample_connect)) (descriptor_text sample_connect) =
  Some (descriptor_tree sample_connect, []).
Proof. apply (descriptor_reads_back sample_connect); reflexivity. Defined.

Lemma returning_reads_back_witness :
  oracleParseReturningInto
    (lit "insert into t(a) values('x RETURNING y')" ++ oracleMakeReturningSuffix [lit "id"; dquote :: lit "b c"] 3) =
  (true, mkReturning true [lit "id"; dquote :: lit "b c"] 3 2).
Proof.
  apply (returning_reads_back (lit "insert into t(a) values('x RETURNING y')") [lit "id"; dquote :: lit "b c"] 3);
    [reflexivity|discriminate|vm_compute; reflexivity].
Defined.

Lemma oracle_error_classes_witness :
  st_code (databaseError QueryError (lit "busy") (oracleSqlState (-60)) (-60)) = Deadlock.
Proof.
  destruct (oracle_error_classes (lit "busy") (-60) 60) as (H & _ & _ & Hn).
  exact (eq_trans (f_equal st_code (Hn ltac:(done))) (proj1 (H eq_refl))).
Defined.
