(* ===== verification/RateLimiter.v ===== *)
(** * Rate limiters (include/sqlconduit/core/rate_limiter.h and [makeRateLimiter]
      in src/core/database_manager.cpp)

    A token bucket refilled by elapsed time, and the limiter with one global bucket
    and one bucket per statement fingerprint.  The definitions are over any
    arithmetic; the program runs them on doubles. *)
From stdpp Require Import base gmap list strings.
From Stdlib Require Import Ascii ZArith QArith Lia Lqa.
From S2P Require Import Prelude Config Doubles.

Open Scope Z_scope.

Section Limiter.
Context {R : Type} `{Arith R}.

(** ** Token bucket; times are in nanoseconds *)
Record TokenBucket := mkBucket { tb_tokens : R; tb_rate : R; tb_burst : R; tb_last : Z }.
Definition new_bucket (rate burst : R) (now : Z) : TokenBucket := mkBucket burst rate burst now.

(** [duration<double>(now - last).count()] *)
Definition elapsed_seconds (ns : Z) : R := num_div (num_of_Z ns) (num_of_Z 1000000000).

Definition refill (now : Z) (b : TokenBucket) : R :=
  let tokens := num_add (tb_tokens b) (num_mul (elapsed_seconds (now - tb_last b)) (tb_rate b)) in
  if num_ltb (tb_burst b) tokens then tb_burst b else tokens.

Definition tryAcquire (now : Z) (b : TokenBucket) : bool * TokenBucket :=
  let tokens := refill now b in
  if num_leb (num_of_Z 1) tokens
  then (true, mkBucket (num_sub tokens (num_of_Z 1)) (tb_rate b) (tb_burst b) now)
  else (false, mkBucket tokens (tb_rate b) (tb_burst b) now).

(** ** Limiter *)
Definition kFpCap : Z := 1024.

Record RateLimiter := mkLimiter {
  lm_global : option TokenBucket;
  lm_perFpQps : R;
  lm_burst : Z;
  lm_fpMode : str;
  lm_fpBuckets : gmap Z TokenBucket }.

Definition positive (q : R) : bool := num_ltb (num_of_Z 0) q.
Definition burst_or (burst : Z) (qps : R) : R := if 0 <? burst then num_of_Z burst else qps.

Definition new_limiter (globalQps perFpQps : R) (burst : Z) (fpMode : str) (now : Z) : RateLimiter :=
  mkLimiter (if positive globalQps then Some (new_bucket globalQps (burst_or burst globalQps) now) else None)
    perFpQps burst fpMode ∅.

Definition usesFingerprint (l : RateLimiter) : bool :=
  negb (str_eqb (lm_fpMode l) (lit "off")) && positive (lm_perFpQps l).

Definition set_global (b : TokenBucket) (l : RateLimiter) : RateLimiter :=
  mkLimiter (Some b) (lm_perFpQps l) (lm_burst l) (lm_fpMode l) (lm_fpBuckets l).
Definition set_fpBucket (fp : Z) (b : TokenBucket) (l : RateLimiter) : RateLimiter :=
  mkLimiter (lm_global l) (lm_perFpQps l) (lm_burst l) (lm_fpMode l) (<[fp := b]> (lm_fpBuckets l)).

(** The bucket of a fingerprint: found, created, or none when the table is full. *)
Definition fp_bucket (fp now : Z) (l : RateLimiter) : option TokenBucket :=
  match lm_fpBuckets l !! fp with
  | Some b => Some b
  | None =>
      if kFpCap <=? Z.of_nat (size (lm_fpBuckets l)) then None
      else Some (new_bucket (lm_perFpQps l) (burst_or (lm_burst l) (lm_perFpQps l)) now)
  end.

Definition acquire_global (now : Z) (l : RateLimiter) : bool * RateLimiter :=
  match lm_global l with
  | None => (true, l)
  | Some g => let '(ok, g) := tryAcquire now g in (ok, set_global g l)
  end.

Definition acquire (fp now : Z) (l : RateLimiter) : bool * RateLimiter :=
  let '(ok, l) := acquire_global now l in
  if negb ok then (false, l)
  else if negb (fp =? 0) && usesFingerprint l then
    match fp_bucket fp now l with
    | None => (true, l)
    | Some b => let '(ok, b) := tryAcquire now b in (ok, set_fpBucket fp b l)
    end
  else (true, l).

(** A sequence of requests, each a fingerprint and a time. *)
Fixpoint acquires (rs : list (Z * Z)) (l : RateLimiter) : list bool * RateLimiter :=
  match rs with
  | [] => ([], l)
  | (fp, now) :: rs' =>
      let '(ok, l) := acquire fp now l in let '(oks, l) := acquires rs' l in (ok :: oks, l)
  end.

(** ** Which limiter a data source gets *)
(** The manager's own limiter, or the default one, which may be absent. *)
Inductive ChosenLimiter := OwnLimiter (l : RateLimiter) | DefaultLimiter.
Definition makeRateLimiter (cfg : RateLimitConfig) (now : Z) : ChosenLimiter :=
  if rl_enabled cfg && ((0 <? rl_global_qps cfg) || (0 <? rl_per_fingerprint_qps cfg)) then
    OwnLimiter (new_limiter (num_of_Z (rl_global_qps cfg)) (num_of_Z (rl_per_fingerprint_qps cfg))
                  (rl_burst cfg) (rl_fingerprint_mode cfg) now)
  else DefaultLimiter.

(** *** The table of fingerprints *)
Definition fp_bounded (l : RateLimiter) : Prop := Z.of_nat (size (lm_fpBuckets l)) <= kFpCap.

Lemma acquire_global_table now l :
  lm_fpBuckets (acquire_global now l).2 = lm_fpBuckets l /\
  lm_perFpQps (acquire_global now l).2 = lm_perFpQps l /\
  lm_burst (acquire_global now l).2 = lm_burst l /\
  lm_fpMode (acquire_global now l).2 = lm_fpMode l.
Proof. unfold acquire_global. destruct (lm_global l) as [g|]; [|done]. by destruct (tryAcquire now g). Qed.

Lemma acquire_bounded fp now l : fp_bounded l -> fp_bounded (acquire fp now l).2.
Proof.
  unfold acquire, fp_bounded. intros B. destruct (acquire_global_table now l) as (T & _).
  destruct (acquire_global now l) as [ok l1]. simpl in T. destruct (negb ok); simpl; [by rewrite T|].
  destruct (_ && _); simpl; [|by rewrite T].
  unfold fp_bucket. rewrite T. destruct (lm_fpBuckets l !! fp) as [b|] eqn:E.
  - destruct (tryAcquire now b). simpl. rewrite T, map_size_insert, E. done.
  - destruct (_ <=? _) eqn:C; simpl; [by rewrite T|]. bool_prop.
    destruct (tryAcquire now _). simpl. rewrite T, map_size_insert, E. unfold kFpCap in *. lia.
Qed.

Lemma acquires_bounded rs l : fp_bounded l -> fp_bounded (acquires rs l).2.
Proof.
  revert l. induction rs as [|[fp now] rs IH]; intros l B; [done|]. simpl.
  pose proof (acquire_bounded fp now l B) as B1. destruct (acquire fp now l) as [ok l1].
  specialize (IH l1 B1). by destruct (acquires rs l1).
Qed.

(** The table of fingerprint buckets never grows past its cap. *)
Theorem fingerprint_table_bounded g p burst mode now rs :
  fp_bounded (acquires rs (new_limiter g p burst mode now)).2.
Proof. apply acquires_bounded. unfold fp_bounded, new_limiter. simpl. rewrite map_size_empty. done. Qed.

(** Once the table is full it stays full, and a fingerprint that has no bucket is
    limited by the global bucket alone, for ever. *)
Lemma full_table fp now l x :
  Z.of_nat (size (lm_fpBuckets l)) = kFpCap -> lm_fpBuckets l !! x = None ->
  Z.of_nat (size (lm_fpBuckets (acquire fp now l).2)) = kFpCap /\
  lm_fpBuckets (acquire fp now l).2 !! x = None.
Proof.
  unfold acquire. intros C X. destruct (acquire_global_table now l) as (T & _).
  destruct (acquire_global now l) as [ok l1]. simpl in T. destruct (negb ok); simpl; [by rewrite T|].
  destruct (_ && _); simpl; [|by rewrite T].
  unfold fp_bucket. rewrite T. destruct (lm_fpBuckets l !! fp) as [b|] eqn:E.
  - destruct (tryAcquire now b). simpl. rewrite T, map_size_insert, E. split; [done|].
    rewrite lookup_insert_ne; congruence.
  - rewrite C. simpl. by rewrite T.
Qed.

Theorem overflow_fingerprints_unlimited l rs x now :
  Z.of_nat (size (lm_fpBuckets l)) = kFpCap -> lm_fpBuckets l !! x = None ->
  (acquire x now (acquires rs l).2).1 = (acquire_global now (acquires rs l).2).1.
Proof.
  intros C X.
  assert (G : forall l, Z.of_nat (size (lm_fpBuckets l)) = kFpCap -> lm_fpBuckets l !! x = None ->
    Z.of_nat (size (lm_fpBuckets (acquires rs l).2)) = kFpCap /\ lm_fpBuckets (acquires rs l).2 !! x = None).
  { clear l C X. induction rs as [|[fp t] rs IH]; intros l C X; [done|]. simpl.
    destruct (full_table fp t l x C X) as [C1 X1]. destruct (acquire fp t l) as [ok l1].
    destruct (IH l1 C1 X1). by destruct (acquires rs l1). }
  destruct (G l C X) as [C1 X1]. clear G C X. set (m := (acquires rs l).2) in *.
  unfold acquire. destruct (acquire_global_table now m) as (T & _).
  destruct (acquire_global now m) as [ok l1]. simpl in T |- *. destruct ok; simpl; [|done].
  destruct (_ && _); [|done]. unfold fp_bucket. by rewrite T, X1, C1.
Qed.

(** A request refused by its fingerprint's bucket has spent a global token. *)
Theorem refused_request_spends_global fp now l g :
  lm_global l = Some g -> (tryAcquire now g).1 = true ->
  lm_global (acquire fp now l).2 = Some (tryAcquire now g).2.
Proof.
  intros G A. unfold acquire, acquire_global. rewrite G. destruct (tryAcquire now g) as [ok g1].
  simpl in A. subst ok. simpl. destruct (_ && _); [|done].
  destruct (fp_bucket _ _ _) as [b|]; [|done]. by destruct (tryAcquire now b).
Qed.
End Limiter.

(** ** The rate, in exact arithmetic *)
Local Open Scope Q_scope.

Lemma exact_leb (a b : Q) : num_leb a b = true <-> a <= b.
Proof. apply Qle_bool_iff. Qed.
Lemma exact_ltb (a b : Q) : num_ltb a b = true <-> a < b.
Proof.
  simpl. rewrite negb_true_iff. split.
  - intros E. apply Qnot_le_lt. rewrite <- Qle_bool_iff. congruence.
  - intros L. destruct (Qle_bool b a) eqn:E; [|done]. apply Qle_bool_iff in E. lra.
Qed.

Definition seconds (ns : Z) : Q := @elapsed_seconds Q _ ns.
Lemma seconds_add a b : seconds (a + b) == seconds a + seconds b.
Proof. unfold seconds, elapsed_seconds. simpl. rewrite inject_Z_plus. field. Qed.
Lemma seconds_nonneg a : (0 <= a)%Z -> 0 <= seconds a.
Proof.
  intros L. unfold seconds, elapsed_seconds. simpl. unfold Qdiv.
  apply Qmult_le_0_compat; [|by vm_compute]. change 0 with (inject_Z 0). by rewrite <- Zle_Qle.
Qed.

(** What a bucket granted and holds is covered by its burst and its refills. *)
Definition bucket_covered (t0 : Z) (granted : Z) (rate burst : Q) (b : @TokenBucket Q) : Prop :=
  tb_rate b = rate /\ tb_burst b = burst /\ 0 <= tb_tokens b /\ (t0 <= tb_last b)%Z /\
  inject_Z granted + tb_tokens b <= burst + rate * seconds (tb_last b - t0).

Lemma tryAcquire_covered t0 n rate burst now b :
  0 <= rate -> 0 <= burst -> (tb_last b <= now)%Z -> bucket_covered t0 n rate burst b ->
  bucket_covered t0 (n + (if (tryAcquire now b).1 then 1 else 0))%Z rate burst (tryAcquire now b).2.
Proof.
  intros Hr Hb Ht (Er & Eb & Hp & Hl & Hc).
  set (dt := seconds (now - tb_last b)).
  assert (D : 0 <= dt) by (apply seconds_nonneg; lia).
  assert (S : seconds (now - t0) == dt + seconds (tb_last b - t0)).
  { unfold dt. rewrite <- seconds_add. by replace (now - tb_last b + (tb_last b - t0))%Z with (now - t0)%Z by lia. }
  assert (P : 0 <= rate * dt) by (by apply Qmult_le_0_compat).
  assert (R : 0 <= refill now b /\ refill now b <= tb_tokens b + rate * dt).
  { unfold refill. rewrite Er, Eb.
    assert (X : num_add (tb_tokens b) (num_mul (elapsed_seconds (now - tb_last b)) rate) == tb_tokens b + rate * dt)
      by (unfold dt, seconds, elapsed_seconds; simpl; ring).
    set (t := num_add _ _) in *. destruct (num_ltb burst t) eqn:E; [apply exact_ltb in E|]; lra. }
  assert (B : rate * seconds (now - t0) == rate * dt + rate * seconds (tb_last b - t0)) by (rewrite S; ring).
  unfold tryAcquire. destruct (num_leb (num_of_Z 1) (refill now b)) eqn:E.
  - apply exact_leb in E. cbn [fst snd]. simpl in E. change (inject_Z 1) with 1 in E.
    split_and!; simpl; try done; change (inject_Z 1) with 1; [lra | lia |].
    rewrite inject_Z_plus, B. change (inject_Z 1) with 1. lra.
  - cbn [fst snd]. split_and!; simpl; try done; [lra | lia |]. rewrite Z.add_0_r, B. lra.
Qed.

Fixpoint granted (oks : list bool) : Z :=
  match oks with [] => 0 | ok :: oks' => (if ok : bool then 1 else 0) + granted oks' end.
Fixpoint in_time_order (t0 : Z) (rs : list (Z * Z)) : Prop :=
  match rs with [] => True | (_, t) :: rs' => (t0 <= t)%Z /\ in_time_order t rs' end.
Fixpoint end_time (t0 : Z) (rs : list (Z * Z)) : Z :=
  match rs with [] => t0 | (_, t) :: rs' => end_time t rs' end.

(** One request moves the global bucket as [tryAcquire] does, and is admitted only if
    the bucket grants it. *)
Lemma acquire_global_bucket fp now (l : @RateLimiter Q) g :
  lm_global l = Some g ->
  lm_global (acquire fp now l).2 = Some (tryAcquire now g).2 /\
  ((acquire fp now l).1 = true -> (tryAcquire now g).1 = true).
Proof.
  intros G. unfold acquire, acquire_global. rewrite G.
  destruct (tryAcquire now g) as [[] g1]; simpl; [|done].
  destruct (_ && _); [|done]. destruct (fp_bucket _ _ _); [|done]. by destruct (tryAcquire now t).
Qed.

Lemma acquires_covered t0 n qps burst rs l g :
  0 <= qps -> 0 <= burst -> lm_global l = Some g -> in_time_order (tb_last g) rs ->
  bucket_covered t0 n qps burst g ->
  inject_Z (n + granted (acquires rs l).1) <= burst + qps * seconds (end_time (tb_last g) rs - t0).
Proof.
  intros Hr Hb. revert n l g. induction rs as [|[fp t] rs IH]; intros n l g G O C.
  - simpl. rewrite Z.add_0_r. destruct C as (_ & _ & P & _ & C). lra.
  - destruct O as [Ht O]. destruct (acquire_global_bucket fp t l g G) as [G1 A].
    pose proof (tryAcquire_covered t0 n qps burst t g Hr Hb Ht C) as C1.
    assert (L : tb_last (tryAcquire t g).2 = t) by (unfold tryAcquire; by destruct (num_leb _ _)).
    simpl. destruct (acquire fp t l) as [ok l1]. simpl in G1, A.
    rewrite <- L in O. specialize (IH _ l1 _ G1 O C1). rewrite L in IH.
    destruct (acquires rs l1) as [oks l2]. simpl in IH |- *. eapply Qle_trans; [|exact IH].
    rewrite <- Zle_Qle. destruct ok; [rewrite (A eq_refl); lia|]. destruct (_.1); lia.
Qed.

(** C39: In exact arithmetic, over any sequence of requests in time order, whatever their
    fingerprints, the limiter admits at most its burst plus its global rate times
    the time that went by. *)
Theorem limiter_rate_bound (qps p : Q) burst mode t0 rs :
  0 < qps -> in_time_order t0 rs ->
  inject_Z (granted (acquires rs (new_limiter qps p burst mode t0)).1) <=
  burst_or burst qps + qps * seconds (end_time t0 rs - t0).
Proof.
  intros Hq O.
  assert (B : 0 <= burst_or burst qps).
  { unfold burst_or. destruct (0 <? burst)%Z eqn:E; [|lra]. bool_prop. simpl.
    change 0 with (inject_Z 0). rewrite <- Zle_Qle. lia. }
  assert (P : positive qps = true) by (apply exact_ltb; simpl; change (inject_Z 0) with 0; lra).
  set (g := new_bucket qps (burst_or burst qps) t0).
  assert (G : lm_global (new_limiter qps p burst mode t0) = Some g) by (unfold new_limiter; by rewrite P).
  pose proof (acquires_covered t0 0 qps (burst_or burst qps) rs _ g (Qlt_le_weak _ _ Hq) B G O) as T.
  rewrite Z.add_0_l in T. apply T. unfold bucket_covered.
  split; [done|]. split; [done|]. split; [done|]. split; [simpl; lia|]. simpl.
  rewrite Z.sub_diag. change (inject_Z 0) with 0. unfold seconds, elapsed_seconds. simpl.
  change (inject_Z 0) with 0. unfold Qdiv. rewrite Qmult_0_l, Qmult_0_r. lra.
Qed.

Definition demo_requests : list (Z * Z) :=
  [(0, 0); (7, 0); (8, 0); (9, 400000000); (7, 500000000); (7, 1500000000)]%Z.

Lemma limiter_rate_bound_witness :
  (acquires demo_requests (new_limiter 2 1 0 (lit "template") 0)).1 = [true; true; false; false; false; true] /\
  inject_Z (granted (acquires demo_requests (new_limiter 2 1 0 (lit "template") 0)).1) <=
  burst_or 0 2 + 2 * seconds 1500000000.
Proof.
  split; [by vm_compute|].
  apply (limiter_rate_bound 2 1 0 (lit "template") 0 demo_requests); [by vm_compute | repeat split; by vm_compute].
Defined.

(** The same requests on doubles. *)
Example demo_on_doubles :
  (acquires demo_requests (new_limiter (f64 2) (f64 1) 0 (lit "template") 0)).1 =
  [true; true; false; false; false; true].
Proof. by vm_compute. Qed.

(** A limiter whose table is full. *)
Definition full_limiter : @RateLimiter double :=
  mkLimiter None (f64 1) 0 (lit "template")
    (list_to_map ((fun i => (i, new_bucket (f64 1) (f64 1) 0)) <$> seqZ 1 1024)).

Lemma overflow_fingerprints_unlimited_witness :
  (acquire 7 5 (acquires [(7, 5)%Z] full_limiter).2).1 = false /\
  (acquire 5000 5 (acquires [(5000, 1); (5000, 2); (5000, 3)]%Z full_limiter).2).1 =
  (acquire_global 5 (acquires [(5000, 1); (5000, 2); (5000, 3)]%Z full_limiter).2).1.
Proof.
  split; [by vm_compute|].
  exact (overflow_fingerprints_unlimited full_limiter [(5000, 1); (5000, 2); (5000, 3)]%Z 5000 5
    ltac:(vm_compute; reflexivity) ltac:(vm_compute; reflexivity)).
Defined.

Lemma refused_request_spends_global_witness :
  let l := (acquires [(9, 0)%Z] (new_limiter (f64 2) (f64 1) 0 (lit "template") 0)).2 in
  (acquire 9 0 l).1 = false /\
  (tb_tokens <$> lm_global l) = Some (f64 1) /\ (tb_tokens <$> lm_global (acquire 9 0 l).2) = Some (f64 0).
Proof.
  set (l := (acquires [(9, 0)%Z] (new_limiter (f64 2) (f64 1) 0 (lit "template") 0)).2).
  split; [by vm_compute|]. split; [by vm_compute|].
  rewrite (refused_request_spends_global 9 0 l (mkBucket (f64 1) (f64 2) (f64 2) 0)
    ltac:(vm_compute; reflexivity) ltac:(vm_compute; reflexivity)). by vm_compute.
Defined.
