(* ===== verification/Topology.v ===== *)
(** * The topology of a manager (DatabaseManager in src/core/database_manager.cpp
      and src/driver/driver_registry.cpp)

    Which data sources, pools, groups and write buffers a manager publishes, and
    how [init], the dynamic operations and [shutdown] change that.  Objects held by
    shared pointers live in a store by identity, so that aliasing is the code's:
    a group points at the objects of its members.  One definition per critical
    section of the manager's mutex where an operation has several. *)
From stdpp Require Import base gmap list strings.
From Stdlib Require Import Ascii ZArith Lia.
From S2P Require Import Prelude Doubles Types Config WriteBuffer ConnectionPool RateLimiter.

Open Scope Z_scope.

Abbreviation object := Z.

(** ** Driver registry *)

(** A factory answers a driver or a null pointer. *)
Definition Registry : Type := gmap str (option Z).
Definition registerDriver (type : str) (factory : option Z) (r : Registry) : Registry := <[type := factory]> r.
Definition registry_has (type : str) (r : Registry) : bool := bool_decide (is_Some (r !! type)).
Definition registry_create (type : str) (r : Registry) : option Z := r !! type ≫= id.

(** ** Objects *)
Inductive LimiterRef :=
  | UserLimiter (n : Z)
  | ConfiguredLimiter (n : object) (c : RateLimitConfig).

Record SourceObject := mkSource {
  so_name : str;
  so_driverType : str;
  so_pool : option object;
  so_retry : RetryConfig;
  so_circuitBreaker : CircuitBreakerConfig;
  so_rateLimiter : option LimiterRef;
  so_inheritsDefault : bool;
  so_readOnly : bool;
  so_readReplica : bool;
  so_primary : option object;
  so_replicas : list object;
  so_readAfterWrite : Z;
  so_fallbackToPrimary : bool;
  so_failoverPrimaries : list object;
  so_requireHealthy : bool;
  so_writeBuffer : option object;
  so_shadowName : str;
  so_shadow : option object;
  so_cursorEnabled : bool;
  so_defaultBatchSize : Z;
  so_cursorScrollable : bool;
  so_cursorLimit : Z }.

(** A pool's arguments and the grace periods it was shut down with, in ms. *)
Record PoolObject := mkPoolObject { pl_config : ConnectionPool.PoolConfig; pl_shutdowns : list Z }.
Record BufferObject := mkBufferObject { bo_config : WriteBuffer.WriteBufferConfig; bo_running : bool }.
Record HeartbeatObject := mkHeartbeat { hb_interval : Z; hb_pools : list object; hb_running : bool }.

(** The parts of the runtime services the manager configures. *)
Record Services := mkServices {
  sv_audit : SqlAuditConfig;
  sv_preparedEnabled : bool;
  sv_preparedMax : Z;
  sv_queryCache : QueryCacheConfig;
  sv_interceptors : bool;
  sv_observability : option ObservabilityConfig;
  sv_collector : bool }.

(** The four members that [init] swaps together. *)
Record Published := mkPublished {
  pb_pools : gmap str object;
  pb_datasources : gmap str object;
  pb_heartbeat : option HeartbeatObject;
  pb_writeBuffers : list object }.

Record Topo := mkTopo {
  tp_next : object;
  tp_sources : gmap object SourceObject;
  tp_poolObjects : gmap object PoolObject;
  tp_bufferObjects : gmap object BufferObject;
  tp_published : Published;
  tp_default : str;
  tp_defaultLimiter : option LimiterRef;
  tp_services : Services;
  tp_reporter : option StatsReportConfig;
  tp_drivers : Registry;
  tp_globalDrivers : Registry }.

Definition initial_services : Services :=
  mkServices default_sql_audit true 0 default_query_cache false None false.
Definition nothing_published : Published := mkPublished ∅ ∅ None [].
Definition new_manager (global : Registry) : Topo :=
  mkTopo 1 ∅ ∅ ∅ nothing_published [] None initial_services None ∅ global.

(** *** Updates *)
Definition upd_source (i : object) (f : SourceObject -> SourceObject) (t : Topo) : Topo :=
  mkTopo (tp_next t) (alter f i (tp_sources t)) (tp_poolObjects t) (tp_bufferObjects t) (tp_published t)
    (tp_default t) (tp_defaultLimiter t) (tp_services t) (tp_reporter t) (tp_drivers t) (tp_globalDrivers t).
Definition set_published (p : Published) (t : Topo) : Topo :=
  mkTopo (tp_next t) (tp_sources t) (tp_poolObjects t) (tp_bufferObjects t) p (tp_default t)
    (tp_defaultLimiter t) (tp_services t) (tp_reporter t) (tp_drivers t) (tp_globalDrivers t).
Definition set_default (n : str) (t : Topo) : Topo :=
  mkTopo (tp_next t) (tp_sources t) (tp_poolObjects t) (tp_bufferObjects t) (tp_published t) n
    (tp_defaultLimiter t) (tp_services t) (tp_reporter t) (tp_drivers t) (tp_globalDrivers t).
Definition set_services (s : Services) (t : Topo) : Topo :=
  mkTopo (tp_next t) (tp_sources t) (tp_poolObjects t) (tp_bufferObjects t) (tp_published t) (tp_default t)
    (tp_defaultLimiter t) s (tp_reporter t) (tp_drivers t) (tp_globalDrivers t).
Definition set_reporter (r : option StatsReportConfig) (t : Topo) : Topo :=
  mkTopo (tp_next t) (tp_sources t) (tp_poolObjects t) (tp_bufferObjects t) (tp_published t) (tp_default t)
    (tp_defaultLimiter t) (tp_services t) r (tp_drivers t) (tp_globalDrivers t).
Definition set_running (b : bool) (i : object) (t : Topo) : Topo :=
  mkTopo (tp_next t) (tp_sources t) (tp_poolObjects t)
    (alter (fun o => mkBufferObject (bo_config o) b) i (tp_bufferObjects t)) (tp_published t) (tp_default t)
    (tp_defaultLimiter t) (tp_services t) (tp_reporter t) (tp_drivers t) (tp_globalDrivers t).
Definition pool_shutdown (grace : Z) (i : object) (t : Topo) : Topo :=
  mkTopo (tp_next t) (tp_sources t)
    (alter (fun o => mkPoolObject (pl_config o) (pl_shutdowns o ++ [grace])) i (tp_poolObjects t))
    (tp_bufferObjects t) (tp_published t) (tp_default t)
    (tp_defaultLimiter t) (tp_services t) (tp_reporter t) (tp_drivers t) (tp_globalDrivers t).

Definition new_source (o : SourceObject) (t : Topo) : object * Topo :=
  (tp_next t,
   mkTopo (tp_next t + 1) (<[tp_next t := o]> (tp_sources t)) (tp_poolObjects t) (tp_bufferObjects t)
     (tp_published t) (tp_default t) (tp_defaultLimiter t) (tp_services t) (tp_reporter t) (tp_drivers t)
     (tp_globalDrivers t)).
Definition new_pool (c : ConnectionPool.PoolConfig) (t : Topo) : object * Topo :=
  (tp_next t,
   mkTopo (tp_next t + 1) (tp_sources t) (<[tp_next t := mkPoolObject c []]> (tp_poolObjects t))
     (tp_bufferObjects t) (tp_published t) (tp_default t) (tp_defaultLimiter t) (tp_services t)
     (tp_reporter t) (tp_drivers t) (tp_globalDrivers t)).
Definition new_write_buffer (c : WriteBuffer.WriteBufferConfig) (t : Topo) : object * Topo :=
  (tp_next t,
   mkTopo (tp_next t + 1) (tp_sources t) (tp_poolObjects t)
     (<[tp_next t := mkBufferObject c false]> (tp_bufferObjects t)) (tp_published t) (tp_default t)
     (tp_defaultLimiter t) (tp_services t) (tp_reporter t) (tp_drivers t) (tp_globalDrivers t)).

Definition set_inherits (b : bool) (o : SourceObject) : SourceObject :=
  mkSource (so_name o) (so_driverType o) (so_pool o) (so_retry o) (so_circuitBreaker o) (so_rateLimiter o) b
    (so_readOnly o) (so_readReplica o) (so_primary o) (so_replicas o) (so_readAfterWrite o)
    (so_fallbackToPrimary o) (so_failoverPrimaries o) (so_requireHealthy o) (so_writeBuffer o)
    (so_shadowName o) (so_shadow o) (so_cursorEnabled o) (so_defaultBatchSize o) (so_cursorScrollable o)
    (so_cursorLimit o).
Definition set_limiter (l : option LimiterRef) (o : SourceObject) : SourceObject :=
  mkSource (so_name o) (so_driverType o) (so_pool o) (so_retry o) (so_circuitBreaker o) l (so_inheritsDefault o)
    (so_readOnly o) (so_readReplica o) (so_primary o) (so_replicas o) (so_readAfterWrite o)
    (so_fallbackToPrimary o) (so_failoverPrimaries o) (so_requireHealthy o) (so_writeBuffer o)
    (so_shadowName o) (so_shadow o) (so_cursorEnabled o) (so_defaultBatchSize o) (so_cursorScrollable o)
    (so_cursorLimit o).
Definition set_readReplica (b : bool) (o : SourceObject) : SourceObject :=
  mkSource (so_name o) (so_driverType o) (so_pool o) (so_retry o) (so_circuitBreaker o) (so_rateLimiter o)
    (so_inheritsDefault o) (so_readOnly o) b (so_primary o) (so_replicas o) (so_readAfterWrite o)
    (so_fallbackToPrimary o) (so_failoverPrimaries o) (so_requireHealthy o) (so_writeBuffer o)
    (so_shadowName o) (so_shadow o) (so_cursorEnabled o) (so_defaultBatchSize o) (so_cursorScrollable o)
    (so_cursorLimit o).
Definition set_readOnly (b : bool) (o : SourceObject) : SourceObject :=
  mkSource (so_name o) (so_driverType o) (so_pool o) (so_retry o) (so_circuitBreaker o) (so_rateLimiter o)
    (so_inheritsDefault o) b (so_readReplica o) (so_primary o) (so_replicas o) (so_readAfterWrite o)
    (so_fallbackToPrimary o) (so_failoverPrimaries o) (so_requireHealthy o) (so_writeBuffer o)
    (so_shadowName o) (so_shadow o) (so_cursorEnabled o) (so_defaultBatchSize o) (so_cursorScrollable o)
    (so_cursorLimit o).
Definition set_shadow (s : option object) (o : SourceObject) : SourceObject :=
  mkSource (so_name o) (so_driverType o) (so_pool o) (so_retry o) (so_circuitBreaker o) (so_rateLimiter o)
    (so_inheritsDefault o) (so_readOnly o) (so_readReplica o) (so_primary o) (so_replicas o)
    (so_readAfterWrite o) (so_fallbackToPrimary o) (so_failoverPrimaries o) (so_requireHealthy o)
    (so_writeBuffer o) (so_shadowName o) s (so_cursorEnabled o) (so_defaultBatchSize o)
    (so_cursorScrollable o) (so_cursorLimit o).
Definition applyCursorConfig (c : CursorConfig) (o : SourceObject) : SourceObject :=
  mkSource (so_name o) (so_driverType o) (so_pool o) (so_retry o) (so_circuitBreaker o) (so_rateLimiter o)
    (so_inheritsDefault o) (so_readOnly o) (so_readReplica o) (so_primary o) (so_replicas o)
    (so_readAfterWrite o) (so_fallbackToPrimary o) (so_failoverPrimaries o) (so_requireHealthy o)
    (so_writeBuffer o) (so_shadowName o) (so_shadow o) (cu_enabled c)
    (if 0 <? cu_default_batch_size c then cu_default_batch_size c else 256)
    (cu_allow_scrollable c) (cu_max_open_cursors c).

(** The two constructors of a data source. *)
Definition leaf_object (pool : object) (name type : str) (retry : RetryConfig)
    (circuit : CircuitBreakerConfig) (limiter : option LimiterRef) (readOnly readReplica : bool) : SourceObject :=
  mkSource name type (Some pool) retry circuit limiter false readOnly readReplica None [] 0 true [] false None
    [] None true 256 false 0.
Definition group_object (name type : str) (primary : object) (replicas : list object) (readAfterWrite : Z)
    (fallback : bool) (limiter : option LimiterRef) (readOnly : bool) (failover : list object)
    (requireHealthy : bool) (buffer : option object) (shadowName : str) : SourceObject :=
  mkSource name type None default_retry default_circuitBreaker limiter false readOnly false (Some primary)
    replicas readAfterWrite fallback failover requireHealthy buffer shadowName None true 256 false 0.

(** ** Operations

    [Err st] is the early return of a status that is not ok. *)
Definition config_error (msg : str) : Status := status_error ConfigError msg.
Definition EM (A : Type) : Type := ST Topo (Status + A).
Definition ebind {A B} (m : EM A) (k : A -> EM B) : EM B :=
  bind m (fun r => match r with inl st => ret (inl st) | inr a => k a end).
Definition fail {A} (st : Status) : EM A := ret (inl st).
Definition done_with {A} (a : A) : EM A := ret (inr a).
Definition call {A} (m : ST Topo A) : EM A := bind m (fun a => ret (inr a)).

Local Open Scope st_scope.
Notation "x <<- m ; k" := (ebind m (fun x => k)) (at level 100, m at next level, right associativity).

Fixpoint eloop {A B} (l : list A) (acc : B) (body : A -> B -> EM B) : EM B :=
  match l with
  | [] => done_with acc
  | a :: l' => acc <<- body a acc; eloop l' acc body
  end.

(** [cfg.rate_limit] asks for a limiter of its own. *)
Definition configuredRateLimiter (c : RateLimitConfig) : bool :=
  rl_enabled c && ((0 <? rl_global_qps c) || (0 <? rl_per_fingerprint_qps c)).
Definition make_limiter (c : RateLimitConfig) (dflt : option LimiterRef) : ST Topo (option LimiterRef) :=
  fun t =>
    if configuredRateLimiter c then
      (Some (ConfiguredLimiter (tp_next t) c),
       mkTopo (tp_next t + 1) (tp_sources t) (tp_poolObjects t) (tp_bufferObjects t) (tp_published t)
         (tp_default t) (tp_defaultLimiter t) (tp_services t) (tp_reporter t) (tp_drivers t)
         (tp_globalDrivers t))
    else (dflt, t).

(** [drivers_.create(type)], then the process-wide registry. *)
Definition find_driver (type : str) (t : Topo) : option Z :=
  match registry_create type (tp_drivers t) with
  | Some d => Some d
  | None => registry_create type (tp_globalDrivers t)
  end.

Definition unknownDriver (dsc : DataSourceConfig) : Status :=
  status_error UnknownDriver
    (lit "unknown datasource type: '" ++ dc_type dsc ++ lit "' (name=" ++ dc_name dsc ++
     lit "). Register it on this Client and link the matching sqlconduit driver component").

Definition pool_config (name : str) (p : Config.PoolConfig) : ConnectionPool.PoolConfig :=
  make_pool_config name (po_min p) (po_max p) (po_borrow_timeout_ms p) (po_idle_timeout_ms p)
    (po_max_lifetime_ms p) (po_leak_detection_threshold_ms p) (po_validation_interval_ms p) true
    (po_enabled p).

Definition buildSingleDataSource (dsc : DataSourceConfig) (poolCfg : Config.PoolConfig) (retry : RetryConfig)
    (circuit : CircuitBreakerConfig) (cursor : CursorConfig) (limiter : option LimiterRef)
    (replicaNames : list str) : EM (object * object) :=
  if is_nil (dc_name dsc) then fail (config_error (lit "datasource name must not be empty"))
  else
    drv <<- call (reads (find_driver (dc_type dsc)));
    match drv with
    | None => fail (unknownDriver dsc)
    | Some _ =>
        pool <<- call (new_pool (pool_config (dc_name dsc) poolCfg));
        source <<- call (new_source
          (applyCursorConfig cursor
             (leaf_object pool (dc_name dsc) (dc_type dsc) retry circuit limiter false
                (bool_decide (dc_name dsc ∈ replicaNames)))));
        done_with (pool, source)
    end.

(** A name that [map] does not hold is refused with [err]. *)
Definition find_or {A} (m : gmap str A) (n : str) (err : Status) : EM A :=
  match m !! n with Some a => done_with a | None => fail err end.

Definition in_group (g : DataSourceGroupConfig) (rest : str) : str := lit "group '" ++ gc_name g ++ lit "' " ++ rest.
Definition unknownPrimary (g : DataSourceGroupConfig) (tail : str) : Status :=
  config_error (in_group g (lit "references unknown primary '" ++ gc_primary g ++ lit "'" ++ tail)).
Definition unknownReplica (g : DataSourceGroupConfig) (n : str) : Status :=
  config_error (in_group g (lit "references unknown replica '" ++ n ++ lit "'")).
Definition unknownCandidate (g : DataSourceGroupConfig) (n : str) : Status :=
  config_error (in_group g (lit "failover.primaries references unknown datasource '" ++ n ++
    lit "' (must be a plain datasource, not a group)")).

(** Members must be plain data sources; the warnings it logs are left out. *)
Definition validateGroupRefs (g : DataSourceGroupConfig) (candidates : gmap str object) : Status :=
  match candidates !! gc_primary g with
  | None => unknownPrimary g (lit " (must be a plain datasource, not a group)")
  | Some _ =>
      match find (fun r => bool_decide (candidates !! rp_name r = None)) (gc_replicas g) with
      | Some r => unknownReplica g (rp_name r)
      | None =>
          match find (fun n => bool_decide (candidates !! n = None)) (fo_primaries (gc_failover g)) with
          | Some n => unknownCandidate g n
          | None => StatusOK
          end
      end
  end.

(** The replicas, each as often as its weight. *)
Definition weighted (g : DataSourceGroupConfig) (sources : gmap str object) : EM (list object) :=
  eloop (gc_replicas g) [] (fun r acc =>
    i <<- find_or sources (rp_name r) (unknownReplica g (rp_name r));
    done_with (acc ++ replicate (Z.to_nat (rp_weight r)) i)).

(** The primary and then each further candidate once. *)
Definition failover_candidates (g : DataSourceGroupConfig) (primary : object) (sources : gmap str object)
    : EM (list object) :=
  if is_nil (fo_primaries (gc_failover g)) then done_with []
  else
    r <<- eloop (fo_primaries (gc_failover g)) ([primary], [gc_primary g]) (fun n acc =>
      if bool_decide (n ∈ acc.2) then done_with acc
      else i <<- find_or sources n (unknownCandidate g n); done_with (acc.1 ++ [i], acc.2 ++ [n]));
    done_with r.1.

Definition buffer_config (c : Config.WriteBufferConfig) : WriteBuffer.WriteBufferConfig :=
  make_buffer_config (mkBufferConfig true (wc_max_queue c) (wc_ttl_ms c) (wc_flush_interval_ms c)).

Definition buildSingleDataSourceGroup (g : DataSourceGroupConfig) (limiter : option LimiterRef)
    (cursor : CursorConfig) (sources : gmap str object) : EM (object * list object) :=
  if is_nil (gc_name g) then fail (config_error (lit "group name must not be empty"))
  else if gc_read_only g && wc_enabled (fo_write_buffer (gc_failover g)) then
    fail (config_error (in_group g (lit "is read_only but enables failover.write_buffer; a read-only group never writes")))
  else
    primary <<- find_or sources (gc_primary g) (unknownPrimary g []);
    replicas <<- weighted g sources;
    failover <<- failover_candidates g primary sources;
    buffer <<- (if wc_enabled (fo_write_buffer (gc_failover g)) then
                  b <<- call (new_write_buffer (buffer_config (fo_write_buffer (gc_failover g))));
                  done_with (Some b)
                else done_with None);
    type <<- call (reads (fun t => match tp_sources t !! primary with
                                   | Some o => so_driverType o | None => [] end));
    source <<- call (new_source (applyCursorConfig cursor
      (group_object (gc_name g) type primary replicas (gc_read_after_write_ms g) (gc_fallback_to_primary g)
         limiter (gc_read_only g) failover (fo_require_healthy (gc_failover g)) buffer (gc_shadow g))));
    done_with (source, match buffer with Some b => [b] | None => [] end).

(** *** Shadows *)
Definition is_group (o : SourceObject) : bool := match so_primary o with Some _ => true | None => false end.
Definition group_named (n : str) (t : Topo) : bool :=
  match pb_datasources (tp_published t) !! n with
  | Some i => match tp_sources t !! i with Some o => is_group o | None => false end
  | None => false
  end.

Definition shadow_error (o : SourceObject) (rest : str) : Status :=
  config_error (lit "group '" ++ so_name o ++ lit "' " ++ rest).

(** The shadow a source asks for, or why it cannot have it. *)
Definition shadow_of (o : SourceObject) (t : Topo) : Status + object :=
  let n := so_shadowName o in
  match pb_datasources (tp_published t) !! n with
  | None => inl (shadow_error o (lit "references unknown shadow '" ++ n ++ lit "'"))
  | Some i =>
      if group_named n t then
        inl (shadow_error o (lit "shadow '" ++ n ++ lit "' is a group; shadow target must be a plain datasource"))
      else if bool_decide (so_primary o = Some i) then
        inl (shadow_error o (lit "shadow '" ++ n ++ lit "' is the group's primary; self-shadowing is rejected"))
      else if bool_decide (i ∈ so_replicas o) then
        inl (shadow_error o (lit "shadow '" ++ n ++ lit "' is a replica of the group; self-shadowing is rejected"))
      else inr i
  end.

Definition resolve_one (i : object) : EM unit :=
  o <<- call (reads (fun t => tp_sources t !! i));
  match o with
  | Some o =>
      if is_nil (so_shadowName o) then done_with tt
      else
        r <<- call (reads (shadow_of o));
        match r with
        | inl st => fail st
        | inr s => call (modify (upd_source i (set_shadow (Some s))))
        end
  | None => done_with tt
  end.

(** The published sources in the order of the table. *)
Definition resolveShadows : ST Topo Status :=
  ids <-- reads (fun t => (map_to_list (pb_datasources (tp_published t))).*2);
  r <-- eloop ids tt (fun i _ => resolve_one i);
  ret (match r with inl st => st | inr _ => StatusOK end).

(** *** Default rate limiter *)
Definition inherit_limiter (l : option LimiterRef) (i : object) (t : Topo) : Topo :=
  upd_source i (fun o => if so_inheritsDefault o then set_limiter l o else o) t.
Definition setDefaultRateLimiter (l : option LimiterRef) (t : Topo) : Topo :=
  let t := mkTopo (tp_next t) (tp_sources t) (tp_poolObjects t) (tp_bufferObjects t) (tp_published t)
             (tp_default t) l (tp_services t) (tp_reporter t) (tp_drivers t) (tp_globalDrivers t) in
  fold_left (fun t i => inherit_limiter l i t) (map_to_list (pb_datasources (tp_published t))).*2 t.

(** *** Data sources added and removed at run time *)
Definition taken (n : str) (p : Published) : bool :=
  bool_decide (is_Some (pb_pools p !! n)) || bool_decide (is_Some (pb_datasources p !! n)).
Definition nameExists (n : str) : Status := config_error (lit "datasource name already exists: " ++ n).

Definition runtime_pool : Config.PoolConfig := mkPoolConfig true 1 32 30000 600000 1800000 30000 500.

Record DataSourceOptions := mkSourceOptions {
  op_retry : RetryConfig; op_circuit_breaker : CircuitBreakerConfig; op_rate_limiter : option LimiterRef;
  op_read_only : bool; op_cursor : CursorConfig; op_attach_heartbeat : bool }.
Record GroupOptions := mkGroupOptions {
  go_rate_limiter : option LimiterRef; go_cursor : CursorConfig;
  go_acknowledge_external_fencing : bool; go_acknowledge_data_loss_and_duplicates : bool }.

Definition add_to_heartbeat (pool : object) (h : option HeartbeatObject) : option HeartbeatObject :=
  (fun h => mkHeartbeat (hb_interval h) (hb_pools h ++ [pool]) (hb_running h)) <$> h.

(** The last critical section: the name may have been taken meanwhile. *)
Definition publish_source (n : str) (attach : bool) (pool source : object) : EM unit :=
  p <<- call (reads tp_published);
  if taken n p then call (modify (pool_shutdown 0 pool)) ;; fail (nameExists n)
  else call (modify (set_published
         (mkPublished (<[n := pool]> (pb_pools p)) (<[n := source]> (pb_datasources p))
            (if attach then add_to_heartbeat pool (pb_heartbeat p) else pb_heartbeat p) (pb_writeBuffers p)))).

Definition status_of (m : EM unit) : ST Topo Status :=
  r <-- m; ret (match r with inl st => st | inr _ => StatusOK end).

Definition addDataSource (cfg : DataSourceConfig) (o : DataSourceOptions) : ST Topo Status :=
  status_of
    (if is_nil (dc_name cfg) then fail (config_error (lit "datasource name must not be empty"))
     else
       p <<- call (reads tp_published);
       if taken (dc_name cfg) p then fail (nameExists (dc_name cfg))
       else
         dflt <<- call (reads tp_defaultLimiter);
         built <<- buildSingleDataSource cfg runtime_pool (op_retry o) (op_circuit_breaker o) (op_cursor o)
                     (match op_rate_limiter o with Some l => Some l | None => dflt end) [];
         call (modify (upd_source built.2
           (fun s => set_readOnly (op_read_only o)
                       (set_inherits (match op_rate_limiter o with Some _ => false | None => true end) s)))) ;;
         publish_source (dc_name cfg) (op_attach_heartbeat o) built.1 built.2).

(** Who still refers to the source [n]: a group and the role. *)
Definition named (n : str) (t : Topo) (i : object) : bool :=
  match tp_sources t !! i with Some o => str_eqb (so_name o) n | None => false end.
Definition reference_in (n : str) (t : Topo) (o : SourceObject) : option str :=
  if str_eqb (so_name o) n then None
  else match so_primary o with
  | None => None
  | Some p =>
      if named n t p then Some (lit "primary")
      else if existsb (named n t) (so_replicas o) then Some (lit "replica")
      else if existsb (named n t) (so_failoverPrimaries o) then Some (lit "failover candidate")
      else match so_shadow o with
           | Some s => if named n t s then Some (lit "shadow") else None
           | None => None
           end
  end.
Fixpoint find_reference (n : str) (t : Topo) (ids : list object) : option (str * str) :=
  match ids with
  | [] => None
  | i :: ids' =>
      match tp_sources t !! i with
      | Some o => match reference_in n t o with
                  | Some role => Some (so_name o, role)
                  | None => find_reference n t ids'
                  end
      | None => find_reference n t ids'
      end
  end.

Definition without_source (n : str) (p : Published) : Published :=
  mkPublished (delete n (pb_pools p)) (delete n (pb_datasources p)) (pb_heartbeat p) (pb_writeBuffers p).

Definition removeDataSource (n : str) (grace : Z) : ST Topo Status :=
  status_of
    (t <<- call (reads id);
     let p := tp_published t in
     match pb_pools p !! n with
     | None => fail (config_error (lit "datasource not found: " ++ n))
     | Some pool =>
         if str_eqb n (tp_default t) then
           fail (config_error (lit "datasource '" ++ n ++ lit "' is the current default and cannot be removed"))
         else match find_reference n t (map_to_list (pb_datasources p)).*2 with
         | Some (g, role) =>
             fail (config_error (lit "datasource '" ++ n ++ lit "' is still referenced by group '" ++ g ++
               lit "' as " ++ role ++ lit " (remove the group first)"))
         | None =>
             call (modify (set_published (without_source n p))) ;;
             call (modify (pool_shutdown grace pool))
         end
     end).

(** *** Groups added and removed at run time *)
Definition mark_replica (b : bool) (i : object) (t : Topo) : Topo := upd_source i (set_readReplica b) t.

Definition unfenced (g : DataSourceGroupConfig) : Status :=
  config_error (in_group g (lit "configures automatic write failover without acknowledging external fencing")).
Definition unacknowledged (g : DataSourceGroupConfig) : Status :=
  config_error (in_group g
    (lit "enables volatile write buffering without acknowledging data-loss and duplicate-replay risk")).

(** The first critical section of [addGroup], which publishes the group. *)
Definition publish_group (g : DataSourceGroupConfig) (o : GroupOptions) : EM (list object) :=
  t <<- call (reads id);
  let p := tp_published t in
  let limiter := match go_rate_limiter o with Some l => Some l | None => tp_defaultLimiter t end in
  if taken (gc_name g) p then fail (config_error (lit "group name already exists: " ++ gc_name g))
  else if negb (is_nil (fo_primaries (gc_failover g))) && negb (go_acknowledge_external_fencing o) then
    fail (unfenced g)
  else if wc_enabled (fo_write_buffer (gc_failover g)) && negb (go_acknowledge_data_loss_and_duplicates o) then
    fail (unacknowledged g)
  else
    let st := validateGroupRefs g (pb_pools p) in
    if negb (st_ok st) then fail st
    else
      built <<- buildSingleDataSourceGroup g limiter (go_cursor o) (pb_datasources p);
      call (modify (upd_source built.1
        (set_inherits (match go_rate_limiter o with Some _ => false | None => true end)))) ;;
      call (modify (fun t => fold_left (fun t r =>
        match pb_datasources p !! rp_name r with Some i => mark_replica true i t | None => t end)
        (gc_replicas g) t)) ;;
      call (modify (set_published
        (mkPublished (pb_pools p) (<[gc_name g := built.1]> (pb_datasources p)) (pb_heartbeat p)
           (pb_writeBuffers p ++ built.2)))) ;;
      done_with built.2.

(** The rollback of [addGroup]: the name is erased and the staged buffers stopped. *)
Definition unpublish_group (n : str) (staged : list object) (t : Topo) : Topo :=
  let p := tp_published t in
  fold_left (fun t b => set_running false b t) staged
    (set_published (mkPublished (pb_pools p) (delete n (pb_datasources p)) (pb_heartbeat p)
       (filter (fun b => b ∉ staged) (pb_writeBuffers p))) t).

(** The exception of a buffer that cannot start its thread is left out. *)
Definition addGroup (g : DataSourceGroupConfig) (o : GroupOptions) : ST Topo Status :=
  status_of
    (if is_nil (gc_name g) then fail (config_error (lit "group name must not be empty"))
     else
       staged <<- publish_group g o;
       call (modify (fun t => fold_left (fun t b => set_running true b t) staged t)) ;;
       rs <<- call resolveShadows;
       if st_ok rs then done_with tt
       else call (modify (unpublish_group (gc_name g) staged)) ;; fail rs).

(** The marks of the remaining replicas, computed anew. *)
Definition remark_replicas (t : Topo) : Topo :=
  let ids := (map_to_list (pb_datasources (tp_published t))).*2 in
  let t := fold_left (fun t i =>
    match tp_sources t !! i with
    | Some o => if is_group o then t else mark_replica false i t | None => t end) ids t in
  fold_left (fun t i =>
    match tp_sources t !! i with
    | Some o => if is_group o then fold_left (fun t r => mark_replica true r t) (so_replicas o) t else t
    | None => t end) ids t.

Definition without_group (n : str) (buffer : option object) (p : Published) : Published :=
  mkPublished (pb_pools p) (delete n (pb_datasources p)) (pb_heartbeat p)
    (match buffer with Some b => filter (fun x => x <> b) (pb_writeBuffers p) | None => pb_writeBuffers p end).

Definition removeGroup (n : str) (grace : Z) : ST Topo Status :=
  status_of
    (t <<- call (reads id);
     let p := tp_published t in
     match pb_datasources p !! n with
     | None => fail (config_error (lit "group not found: " ++ n))
     | Some i =>
         if bool_decide (is_Some (pb_pools p !! n)) then
           fail (config_error (lit "datasource '" ++ n ++ lit "' is not a group (use removeDataSource)"))
         else if str_eqb n (tp_default t) then
           fail (config_error (lit "group '" ++ n ++ lit "' is the current default and cannot be removed"))
         else
           let buffer := tp_sources t !! i ≫= so_writeBuffer in
           call (modify (set_published (without_group n buffer p))) ;;
           call (modify remark_replicas) ;;
           call (modify (fun t => match buffer with Some b => set_running false b t | None => t end))
     end).

(** *** Look-ups *)
Definition getDataSource (n : str) (t : Topo) : option object := pb_datasources (tp_published t) !! n.
Definition getDefault (t : Topo) : option object :=
  if is_nil (tp_default t) then None else getDataSource (tp_default t) t.
Definition dataSourceCount (t : Topo) : Z := Z.of_nat (size (pb_datasources (tp_published t))).

(** *** Retiring what was published

    [times] are the readings of the clock: the first sets the deadline, the others
    precede each pool's shutdown. *)
Definition remaining_grace (deadline now : Z) : Z :=
  if now <? deadline then Z.quot (deadline - now) 1000000 else 0.
Fixpoint shutdown_pools (times : nat -> Z) (k : nat) (deadline : Z) (pools : list object) (t : Topo) : Topo :=
  match pools with
  | [] => t
  | i :: pools' =>
      shutdown_pools times (S k) deadline pools' (pool_shutdown (remaining_grace deadline (times k)) i t)
  end.
Definition stop_buffers (bs : list object) (t : Topo) : Topo := fold_left (fun t b => set_running false b t) bs t.
Definition retire (times : nat -> Z) (grace : Z) (p : Published) (t : Topo) : Topo :=
  shutdown_pools times 1 (times 0%nat + grace * 1000000) (map_to_list (pb_pools p)).*2
    (stop_buffers (pb_writeBuffers p) t).

Definition set_collector (b : bool) (t : Topo) : Topo :=
  let s := tp_services t in
  set_services (mkServices (sv_audit s) (sv_preparedEnabled s) (sv_preparedMax s) (sv_queryCache s)
    (sv_interceptors s) (sv_observability s) b) t.

Definition manager_shutdown (times : nat -> Z) (grace : Z) (t : Topo) : Topo :=
  let t := set_collector false (set_reporter None t) in
  let p := tp_published t in
  retire times grace p (set_default [] (set_published nothing_published t)).

(** *** Initialisation and reload *)
Definition configure_services (cfg : GlobalConfig) (t : Topo) : Topo :=
  let s := tp_services t in
  set_services (mkServices (gl_sql_audit cfg) (pp_enabled (gl_prepared_cache cfg))
    (pp_max_per_connection (gl_prepared_cache cfg)) (gl_query_cache cfg) (gl_interceptors cfg)
    (sv_observability s) (sv_collector s)) t.
Definition configure_observability (cfg : GlobalConfig) (t : Topo) : Topo :=
  let s := tp_services t in
  set_services (mkServices (sv_audit s) (sv_preparedEnabled s) (sv_preparedMax s) (sv_queryCache s)
    (sv_interceptors s) (Some (gl_observability cfg)) true) t.

Definition replica_names (cfg : GlobalConfig) : list str :=
  gl_groups cfg ≫= fun g => rp_name <$> gc_replicas g.

Definition build_sources (cfg : GlobalConfig) (dflt : option LimiterRef)
    : EM (gmap str object * gmap str object * list object) :=
  eloop (gl_datasources cfg) (∅, ∅, []) (fun dsc acc =>
    let '(pools, sources, beats) := acc in
    if bool_decide (is_Some (pools !! dc_name dsc)) then
      fail (config_error (lit "duplicate datasource name: " ++ dc_name dsc))
    else
      l <<- call (make_limiter (gl_rate_limit cfg) dflt);
      built <<- buildSingleDataSource dsc (gl_pool cfg) (gl_retry cfg) (gl_circuit_breaker cfg) (gl_cursor cfg)
                  l (replica_names cfg);
      call (modify (upd_source built.2 (set_inherits (negb (configuredRateLimiter (gl_rate_limit cfg)))))) ;;
      done_with (<[dc_name dsc := built.1]> pools, <[dc_name dsc := built.2]> sources, beats ++ [built.1])).

Definition build_groups (cfg : GlobalConfig) (dflt : option LimiterRef) (pools sources : gmap str object)
    : EM (gmap str object * list object) :=
  eloop (gl_groups cfg) (sources, []) (fun g acc =>
    let '(sources, buffers) := acc in
    if bool_decide (is_Some (sources !! gc_name g)) then
      fail (config_error (lit "duplicate datasource/group name: " ++ gc_name g))
    else if negb (is_nil (fo_primaries (gc_failover g))) && negb (fo_acknowledge_external_fencing (gc_failover g))
    then fail (unfenced g)
    else if wc_enabled (fo_write_buffer (gc_failover g)) &&
            negb (wc_acknowledge_data_loss_and_duplicates (fo_write_buffer (gc_failover g)))
    then fail (unacknowledged g)
    else
      let st := validateGroupRefs g pools in
      if negb (st_ok st) then fail st
      else
        l <<- call (make_limiter (gl_rate_limit cfg) dflt);
        built <<- buildSingleDataSourceGroup g l default_cursor sources;
        call (modify (upd_source built.1 (set_inherits (negb (configuredRateLimiter (gl_rate_limit cfg)))))) ;;
        done_with (<[gc_name g := built.1]> sources, buffers ++ built.2)).

(** The swap under the mutex. *)
Definition publish (cfg : GlobalConfig) (new : Published) (t : Topo) : Topo :=
  let t := fold_left (fun t i => inherit_limiter (tp_defaultLimiter t) i t)
             (map_to_list (pb_datasources new)).*2 t in
  set_default (gl_default_datasource cfg) (set_published new t).

(** The swap back, when a shadow cannot be resolved: the new objects are destroyed. *)
Definition unpublish (old new : Published) (t : Topo) : Topo :=
  fold_left (fun t i => pool_shutdown 0 i t) (map_to_list (pb_pools new)).*2
    (stop_buffers (pb_writeBuffers new) (set_published old t)).

Definition unknownDefault (cfg : GlobalConfig) : Status :=
  config_error (lit "default_datasource '" ++ gl_default_datasource cfg ++
    lit "' is not defined in datasources[] or groups[]").

Definition init (times : nat -> Z) (cfg : GlobalConfig) (replacementGrace : Z) : ST Topo Status :=
  status_of
    (if is_nil (gl_datasources cfg) then fail (config_error (lit "no datasource configured"))
     else
       dflt <<- call (reads tp_defaultLimiter);
       s <<- build_sources cfg dflt;
       let '(pools, sources, beats) := s in
       g <<- build_groups cfg dflt pools sources;
       let '(sources, buffers) := g in
       if negb (bool_decide (is_Some (sources !! gl_default_datasource cfg))) then fail (unknownDefault cfg)
       else
         let new := mkPublished pools sources (Some (mkHeartbeat (gl_heartbeat_interval_ms cfg) beats true)) buffers in
         call (modify (configure_services cfg)) ;;
         call (modify (fun t => fold_left (fun t b => set_running true b t) buffers t)) ;;
         old <<- call (reads tp_published);
         call (modify (publish cfg new)) ;;
         rs <<- call resolveShadows;
         if negb (st_ok rs) then call (modify (unpublish old new)) ;; fail rs
         else
           call (modify (configure_observability cfg)) ;;
           call (modify (set_reporter
             (if sr_enabled (ob_stats_report (gl_observability cfg))
              then Some (ob_stats_report (gl_observability cfg)) else None))) ;;
           call (modify (retire times replacementGrace old))).

(** ** Well-formed topologies *)
Definition option_list {A} (o : option A) : list A := match o with Some a => [a] | None => [] end.
(** The objects a group points at. *)
Definition members (o : SourceObject) : list object :=
  option_list (so_primary o) ++ so_replicas o ++ so_failoverPrimaries o ++ option_list (so_shadow o).

(** What no operation changes of a published object, but for its shadow. *)
Definition shape (o : SourceObject) :=
  (so_name o, so_pool o, so_primary o, so_replicas o, so_failoverPrimaries o, so_writeBuffer o, so_shadowName o,
   so_shadow o).

Abbreviation store := (gmap object SourceObject).

Record wf_maps (st : store) (pools sources : gmap str object) (buffers : list object) : Prop := {
  wm_pools n p : pools !! n = Some p ->
    exists i o, sources !! n = Some i /\ st !! i = Some o /\ so_primary o = None /\ so_pool o = Some p;
  wm_named n i : sources !! n = Some i ->
    exists o, st !! i = Some o /\ so_name o = n /\
      (so_primary o = None ->
        (exists p, so_pool o = Some p /\ pools !! n = Some p) /\ members o = [] /\ so_shadowName o = [] /\
        so_writeBuffer o = None) /\
      (so_primary o <> None -> pools !! n = None);
  wm_members n i o r : sources !! n = Some i -> st !! i = Some o -> r ∈ members o ->
    exists ro, st !! r = Some ro /\ so_primary ro = None /\ sources !! so_name ro = Some r;
  wm_shadow n i o s : sources !! n = Some i -> st !! i = Some o -> so_shadow o = Some s ->
    so_primary o <> Some s /\ s ∉ so_replicas o;
  wm_buffers b : b ∈ buffers <->
    exists n i o, sources !! n = Some i /\ st !! i = Some o /\ so_writeBuffer o = Some b;
  wm_own n i o n' i' o' b : sources !! n = Some i -> st !! i = Some o -> so_writeBuffer o = Some b ->
    sources !! n' = Some i' -> st !! i' = Some o' -> so_writeBuffer o' = Some b -> n = n' }.

(** Identities not given yet are free. *)
Definition fresh_store (t : Topo) : Prop :=
  (forall i, tp_next t <= i -> tp_sources t !! i = None) /\
  (forall i o b, tp_sources t !! i = Some o -> so_writeBuffer o = Some b -> b < tp_next t).

Definition published_wf (t : Topo) (p : Published) : Prop :=
  wf_maps (tp_sources t) (pb_pools p) (pb_datasources p) (pb_writeBuffers p).
Definition topo_wf (t : Topo) : Prop := fresh_store t /\ published_wf t (tp_published t).

(** Every object of [st] is in [st'], with the same shape. *)
Definition extends (st st' : store) : Prop :=
  forall i o, st !! i = Some o -> exists o', st' !! i = Some o' /\ shape o' = shape o.

Lemma extends_refl st : extends st st.
Proof. intros i o H. eauto. Qed.
Lemma extends_trans a b c : extends a b -> extends b c -> extends a c.
Proof.
  intros H K i o E. destruct (H i o E) as (o' & E' & S'). destruct (K i o' E') as (o2 & E2 & S2).
  exists o2. split; [done | congruence].
Qed.
Lemma extends_alter st i f : (forall o, shape (f o) = shape o) -> extends st (alter f i st).
Proof.
  intros H j o E. destruct (decide (i = j)) as [->|N].
  - exists (f o). by rewrite lookup_alter_eq, E.
  - exists o. by rewrite lookup_alter_ne.
Qed.
Lemma extends_insert st i o : st !! i = None -> extends st (<[i := o]> st).
Proof.
  intros H j o' E. exists o'. rewrite lookup_insert_ne; [done|]. intros ->. congruence.
Qed.

(** A registered leaf, as a target of references. *)
Definition registered_leaf (st : store) (sources : gmap str object) (r : object) : Prop :=
  exists ro, st !! r = Some ro /\ so_primary ro = None /\ sources !! so_name ro = Some r.

(** As [extends], but for shadows, which may come to point at a registered leaf that
    is neither the primary nor a replica. *)
Definition core (o : SourceObject) :=
  (so_name o, so_pool o, so_primary o, so_replicas o, so_failoverPrimaries o, so_writeBuffer o, so_shadowName o).
Definition good_shadow (st : store) (sources : gmap str object) (o : SourceObject) (s : object) : Prop :=
  registered_leaf st sources s /\ so_primary o <> Some s /\ (s ∉ so_replicas o) /\ so_primary o <> None.
Definition evolves (sources : gmap str object) (st st' : store) : Prop :=
  forall i o, st !! i = Some o -> exists o', st' !! i = Some o' /\ core o' = core o /\
    (so_shadow o' = so_shadow o \/ exists s, so_shadow o' = Some s /\ good_shadow st sources o s).

Lemma core_fields o o' : core o' = core o ->
  so_name o' = so_name o /\ so_pool o' = so_pool o /\ so_primary o' = so_primary o /\
  so_replicas o' = so_replicas o /\ so_failoverPrimaries o' = so_failoverPrimaries o /\
  so_writeBuffer o' = so_writeBuffer o /\ so_shadowName o' = so_shadowName o.
Proof. unfold core. by intros [= -> -> -> -> -> -> ->]. Qed.

Lemma elem_of_members r o :
  r ∈ members o <->
  so_primary o = Some r \/ r ∈ so_replicas o \/ r ∈ so_failoverPrimaries o \/ so_shadow o = Some r.
Proof.
  assert (O : forall x : option object, r ∈ option_list x <-> x = Some r).
  { intros [x|]; simpl; [rewrite list_elem_of_singleton; split; congruence | by rewrite elem_of_nil]. }
  unfold members. by rewrite !elem_of_app, !O.
Qed.

Lemma registered_evolves st st' sources r :
  evolves sources st st' -> registered_leaf st sources r -> registered_leaf st' sources r.
Proof.
  intros X (ro & H1 & H2 & H3). destruct (X r ro H1) as (ro' & E & C & _).
  apply core_fields in C as (Cn & _ & Cq & _). exists ro'. by rewrite Cn, Cq.
Qed.

Lemma wf_maps_evolves st st' pools sources buffers :
  evolves sources st st' -> wf_maps st pools sources buffers -> wf_maps st' pools sources buffers.
Proof.
  intros X [P N M S B O].
  assert (L : forall n i o', sources !! n = Some i -> st' !! i = Some o' ->
    exists o, st !! i = Some o /\ core o' = core o /\
      (so_shadow o' = so_shadow o \/ exists s, so_shadow o' = Some s /\ good_shadow st sources o s)).
  { intros n i o' Hn Ho. destruct (N n i Hn) as (o & E & _). destruct (X i o E) as (o2 & E2 & S2).
    exists o. by replace o' with o2 by congruence. }
  split.
  - intros n p Hp. destruct (P n p Hp) as (i & o & Hi & Ho & Hq & Hr). destruct (X i o Ho) as (o' & E & E' & _).
    apply core_fields in E' as (_ & Fp & Fq & _). exists i, o'. rewrite Fp, Fq. done.
  - intros n i Hi. destruct (N n i Hi) as (o & Ho & Hn & R & R'). destruct (X i o Ho) as (o' & E & E' & Sh).
    apply core_fields in E' as (Fn & Fp & Fq & Fr & Ff & Fb & Fs). exists o'. rewrite Fn, Fp, Fq, Fs, Fb.
    split_and!; try done. intros Hl. destruct (R Hl) as (? & Hm & ? & ?). split_and!; try done.
    destruct Sh as [Sh|(s & _ & G)]; [|by destruct G as (_ & _ & _ & [])].
    unfold members in *. by rewrite Fq, Fr, Ff, Sh.
  - intros n i o' r Hi Ho' Hr. destruct (L n i o' Hi Ho') as (o & Ho & E & Sh).
    apply core_fields in E as (_ & _ & Fq & Fr & Ff & _). apply (registered_evolves st); [done|].
    apply elem_of_members in Hr. rewrite Fq, Fr, Ff in Hr. destruct Sh as [Sh|(s & Sh & G & _)].
    + rewrite Sh in Hr. apply elem_of_members in Hr. exact (M n i o r Hi Ho Hr).
    + destruct Hr as [Hr|[Hr|[Hr|Hr]]]; [| | |by replace r with s by congruence];
        apply (M n i o r Hi Ho), elem_of_members; auto.
  - intros n i o' s Hi Ho' Hs. destruct (L n i o' Hi Ho') as (o & Ho & E & Sh).
    apply core_fields in E as (_ & _ & -> & -> & _). destruct Sh as [Sh|(s' & Sh & _ & G1 & G2 & _)].
    + apply (S n i); congruence.
    + by replace s with s' by congruence.
  - intros b. rewrite B. split; intros (n & i & o & Hi & Ho & Hb).
    + destruct (X i o Ho) as (o' & E & E' & _). apply core_fields in E' as (_ & _ & _ & _ & _ & Fb & _).
      exists n, i, o'. by rewrite Fb.
    + destruct (L n i o Hi Ho) as (o' & E & E' & _). apply core_fields in E' as (_ & _ & _ & _ & _ & Fb & _).
      exists n, i, o'. by rewrite <- Fb.
  - intros n i o n' i' o' b Hi Ho Hb Hi' Ho' Hb'.
    destruct (L n i o Hi Ho) as (o1 & E1 & F1 & _). destruct (L n' i' o' Hi' Ho') as (o2 & E2 & F2 & _).
    apply core_fields in F1 as (_ & _ & _ & _ & _ & B1 & _). apply core_fields in F2 as (_ & _ & _ & _ & _ & B2 & _).
    eapply (O n i o1 n' i' o2 b); congruence.
Qed.

Lemma extends_evolves sources st st' : extends st st' -> evolves sources st st'.
Proof.
  intros X i o Ho. destruct (X i o Ho) as (o' & E & S). exists o'. split; [done|].
  unfold shape in S. injection S as S1 S2 S3 S4 S5 S6 S7 S8. split; [unfold core; congruence | by left].
Qed.
Lemma wf_maps_extends st st' pools sources buffers :
  extends st st' -> wf_maps st pools sources buffers -> wf_maps st' pools sources buffers.
Proof. intros X. by apply wf_maps_evolves, extends_evolves. Qed.

(** ** Weakest preconditions of operations that may fail *)
Definition ewp {A} (m : EM A) (E : Status -> Topo -> Prop) (Q : A -> Topo -> Prop) (t : Topo) : Prop :=
  match (m t).1 with inl st => E st (m t).2 | inr a => Q a (m t).2 end.

Lemma ewp_bind {A B} (m : EM A) (k : A -> EM B) E Q t :
  ewp m E (fun a => ewp (k a) E Q) t -> ewp (ebind m k) E Q t.
Proof. unfold ewp, ebind, bind. destruct (m t) as [[st|a] t']; done. Qed.
Lemma ewp_call {A B} (m : ST Topo A) (k : A -> EM B) E Q t :
  ewp (k (m t).1) E Q (m t).2 -> ewp (ebind (call m) k) E Q t.
Proof. unfold ewp, ebind, call, bind, ret. by destruct (m t). Qed.
Lemma ewp_seq {A} (m : ST Topo unit) (k : EM A) E Q t :
  ewp k E Q (m t).2 -> ewp (bind (call m) (fun _ => k)) E Q t.
Proof. unfold ewp, call, bind, ret. by destruct (m t). Qed.
Lemma ewp_call_last {A} (m : ST Topo A) E (Q : A -> Topo -> Prop) t :
  Q (m t).1 (m t).2 -> ewp (call m) E Q t.
Proof. unfold ewp, call, bind, ret. by destruct (m t). Qed.
Lemma ewp_done {A} (a : A) E (Q : A -> Topo -> Prop) t : Q a t -> ewp (done_with a) E Q t.
Proof. done. Qed.
Lemma ewp_fail {A} st (E : Status -> Topo -> Prop) (Q : A -> Topo -> Prop) t : E st t -> ewp (fail st) E Q t.
Proof. done. Qed.
Lemma ewp_mono {A} (m : EM A) (E E' : Status -> Topo -> Prop) (Q Q' : A -> Topo -> Prop) t :
  ewp m E Q t -> (forall st t', E st t' -> E' st t') -> (forall a t', Q a t' -> Q' a t') -> ewp m E' Q' t.
Proof. unfold ewp. destruct (m t) as [[st|a] t']; simpl; auto. Qed.
Lemma ewp_loop {A B} (l : list A) (acc : B) (body : A -> B -> EM B) (I : list A -> B -> Topo -> Prop) E t :
  I [] acc t ->
  (forall done a acc t, a ∈ l -> I done acc t -> ewp (body a acc) E (I (done ++ [a])) t) ->
  ewp (eloop l acc body) E (I l) t.
Proof.
  intros H0 H. assert (G : forall rest done acc t, done ++ rest = l -> I done acc t ->
    ewp (eloop rest acc body) E (I l) t).
  { induction rest as [|a rest IH]; intros dn acc' t' El Hi.
    - rewrite app_nil_r in El. by subst dn.
    - apply ewp_bind. eapply ewp_mono; [|intros; eassumption|].
      + apply H; [|done]. rewrite <- El. set_solver.
      + intros acc2 t2 Hi2. apply (IH (dn ++ [a])); [|done]. by rewrite <- app_assoc. }
  by apply (G l []).
Qed.
Lemma ewp_find {A} (m : gmap str A) n st E (Q : A -> Topo -> Prop) t :
  (m !! n = None -> E st t) -> (forall a, m !! n = Some a -> Q a t) -> ewp (find_or m n st) E Q t.
Proof. unfold find_or. destruct (m !! n) eqn:X; unfold ewp; simpl; auto. Qed.

Lemma status_of_spec (m : EM unit) (P : Status -> Topo -> Prop) t :
  ewp m (fun st t' => st_ok st = false /\ P st t') (fun _ t' => P StatusOK t') t ->
  P (status_of m t).1 (status_of m t).2.
Proof. unfold ewp, status_of, bind, ret. destruct (m t) as [[st|[]] t']; simpl; [by intros [_ H] | done]. Qed.

(** ** Building: nothing published changes *)
Record quiet (t t' : Topo) : Prop := {
  qu_sources : extends (tp_sources t) (tp_sources t');
  qu_published : tp_published t' = tp_published t;
  qu_default : tp_default t' = tp_default t;
  qu_services : tp_services t' = tp_services t;
  qu_next : tp_next t <= tp_next t';
  qu_fresh : fresh_store t -> fresh_store t' }.

Lemma quiet_refl t : quiet t t.
Proof. split; auto using extends_refl; lia. Qed.
Lemma quiet_trans a b c : quiet a b -> quiet b c -> quiet a c.
Proof.
  intros [] []. split; try congruence; try lia; auto. by eapply extends_trans.
Qed.
Lemma quiet_new_pool c t : quiet t (new_pool c t).2.
Proof.
  split; simpl; auto using extends_refl; [lia|]. intros [F G]. split; simpl.
  - intros i Hi. apply F. lia.
  - intros i o b Hi Hb. specialize (G i o b Hi Hb). lia.
Qed.
Lemma quiet_new_buffer c t : quiet t (new_write_buffer c t).2.
Proof.
  split; simpl; auto using extends_refl; [lia|]. intros [F G]. split; simpl.
  - intros i Hi. apply F. lia.
  - intros i o b Hi Hb. specialize (G i o b Hi Hb). lia.
Qed.
Lemma quiet_limiter c d t : quiet t (make_limiter c d t).2.
Proof.
  unfold make_limiter. destruct (configuredRateLimiter c); [|apply quiet_refl].
  split; simpl; auto using extends_refl; [lia|]. intros [F G]. split; simpl.
  - intros i Hi. apply F. lia.
  - intros i o b Hi Hb. specialize (G i o b Hi Hb). lia.
Qed.
Lemma quiet_new_source o t :
  fresh_store t -> (forall b, so_writeBuffer o = Some b -> b < tp_next t) -> quiet t (new_source o t).2.
Proof.
  intros [F G] Hb. split; simpl; auto; [apply extends_insert, F; lia | lia |]. intros _. split; simpl.
  - intros i Hi. rewrite lookup_insert_ne by lia. apply F. lia.
  - intros i o' b. destruct (decide (tp_next t = i)) as [<-|N].
    + rewrite lookup_insert_eq. intros [= <-] H. apply Hb in H. lia.
    + rewrite lookup_insert_ne by done. intros Hi H. specialize (G i o' b Hi H). lia.
Qed.
Lemma quiet_upd i f t : (forall o, shape (f o) = shape o) -> quiet t (upd_source i f t).
Proof.
  intros H. split; simpl; auto; [by apply extends_alter | lia |]. intros [F G]. split; simpl.
  - intros j Hj. destruct (decide (i = j)) as [->|N].
    + by rewrite lookup_alter_eq, F.
    + rewrite lookup_alter_ne by done. by apply F.
  - intros j o b. destruct (decide (i = j)) as [->|N].
    + rewrite lookup_alter_eq. intros (o' & Ho & ->)%fmap_Some Hb.
      apply (G j o'); [done|]. specialize (H o'). unfold shape in H. by injection H as _ _ _ _ _ <- _ _.
    + rewrite lookup_alter_ne by done. apply G.
Qed.
Create HintDb topo_db.
#[export] Hint Resolve quiet_refl quiet_new_pool quiet_new_buffer quiet_limiter : topo_db.

(** ** Tables *)
Lemma wf_empty st : wf_maps st ∅ ∅ [].
Proof.
  split; try (intros *; rewrite lookup_empty; done).
  intros b. split; [by intros ?%elem_of_nil|]. intros (n & i & o & H & _). by rewrite lookup_empty in H.
Qed.

(** A free name takes a leaf and its pool. *)
Lemma wf_insert_leaf st pools sources buffers n i o p :
  wf_maps st pools sources buffers -> sources !! n = None -> st !! i = Some o ->
  so_name o = n -> so_primary o = None -> so_pool o = Some p -> so_writeBuffer o = None -> members o = [] ->
  so_shadowName o = [] ->
  wf_maps st (<[n := p]> pools) (<[n := i]> sources) buffers.
Proof.
  intros W Fn Ho Hn Hq Hp Hb Hm Hsn. pose proof W as [P N M S B O].
  assert (Keep : forall m x, sources !! m = Some x -> <[n := i]> sources !! m = Some x).
  { intros m x Hx. rewrite lookup_insert_ne; [done|]. intros ->. congruence. }
  split.
  - intros m q. destruct (decide (n = m)) as [<-|Ne].
    + rewrite lookup_insert_eq. intros [= <-]. exists i, o. by rewrite lookup_insert_eq.
    + rewrite !lookup_insert_ne by done. apply P.
  - intros m x. destruct (decide (n = m)) as [<-|Ne].
    + rewrite lookup_insert_eq. intros [= <-]. exists o. rewrite lookup_insert_eq. split; [done|].
      split; [done|]. split; [intros _; split; [eauto | done] | congruence].
    + rewrite !lookup_insert_ne by done. apply N.
  - intros m x o' r. destruct (decide (n = m)) as [<-|Ne].
    + rewrite lookup_insert_eq. intros [= <-] Ho'. rewrite Ho in Ho'. injection Ho' as <-.
      rewrite Hm. by intros ?%elem_of_nil.
    + rewrite (lookup_insert_ne _ _ _ _ Ne). intros Hx Ho' Hr.
      destruct (M m x o' r Hx Ho' Hr) as (ro & ? & ? & ?). exists ro. eauto.
  - intros m x o' s. destruct (decide (n = m)) as [<-|Ne].
    + rewrite lookup_insert_eq. intros [= <-] Ho' Hs. rewrite Ho in Ho'. injection Ho' as <-.
      unfold members in Hm. rewrite Hs in Hm. by destruct (so_primary o), (so_replicas o), (so_failoverPrimaries o).
    + rewrite (lookup_insert_ne _ _ _ _ Ne). apply S.
  - intros b. rewrite B. split; intros (m & x & o' & Hx & Ho' & Hb').
    + exists m, x, o'. auto.
    + destruct (decide (n = m)) as [<-|Ne].
      * rewrite lookup_insert_eq in Hx. injection Hx as <-. congruence.
      * rewrite lookup_insert_ne in Hx by done. by exists m, x, o'.
  - intros m x o1 m' x' o2 b H1 H2 H3 H4 H5 H6.
    destruct (decide (n = m)) as [<-|N1].
    { rewrite lookup_insert_eq in H1. injection H1 as <-. congruence. }
    destruct (decide (n = m')) as [<-|N2].
    { rewrite lookup_insert_eq in H4. injection H4 as <-. congruence. }
    rewrite lookup_insert_ne in H1, H4 by done. eauto.
Qed.

(** A free name takes a group whose members are registered leaves. *)
Lemma wf_insert_group st pools sources buffers n i o :
  wf_maps st pools sources buffers -> sources !! n = None -> st !! i = Some o ->
  so_name o = n -> so_primary o <> None -> so_shadow o = None ->
  (forall r, r ∈ members o -> registered_leaf st sources r) ->
  (forall b m x o', so_writeBuffer o = Some b -> sources !! m = Some x -> st !! x = Some o' ->
     so_writeBuffer o' <> Some b) ->
  wf_maps st pools (<[n := i]> sources) (buffers ++ option_list (so_writeBuffer o)).
Proof.
  intros W Fn Ho Hn Hq Hs Hm Hb. pose proof W as [P N M S B O].
  assert (Keep : forall m x, sources !! m = Some x -> <[n := i]> sources !! m = Some x).
  { intros m x Hx. rewrite lookup_insert_ne; [done|]. intros ->. congruence. }
  assert (NoPool : pools !! n = None).
  { destruct (pools !! n) as [p|] eqn:E; [|done]. destruct (P n p E) as (? & ? & ? & _). congruence. }
  split.
  - intros m q Hm'. destruct (P m q Hm') as (x & o' & ? & ?). exists x, o'. split; [auto | done].
  - intros m x. destruct (decide (n = m)) as [<-|Ne].
    + rewrite lookup_insert_eq. intros [= <-]. exists o. done.
    + rewrite (lookup_insert_ne _ _ _ _ Ne). apply N.
  - intros m x o' r. destruct (decide (n = m)) as [<-|Ne].
    + rewrite lookup_insert_eq. intros [= <-] Ho' Hr. rewrite Ho in Ho'. injection Ho' as <-.
      destruct (Hm r Hr) as (ro & ? & ? & ?). exists ro. auto.
    + rewrite (lookup_insert_ne _ _ _ _ Ne). intros Hx Ho' Hr.
      destruct (M m x o' r Hx Ho' Hr) as (ro & ? & ? & ?). exists ro. auto.
  - intros m x o' s. destruct (decide (n = m)) as [<-|Ne].
    + rewrite lookup_insert_eq. intros [= <-] Ho'. rewrite Ho in Ho'. injection Ho' as <-. congruence.
    + rewrite (lookup_insert_ne _ _ _ _ Ne). apply S.
  - intros b. rewrite elem_of_app, B. split.
    + intros [(m & x & o' & Hx & Ho' & Hb')|Hb']; [exists m, x, o'; auto|].
      exists n, i, o. rewrite lookup_insert_eq. destruct (so_writeBuffer o) as [w|] eqn:Ew; simpl in Hb'.
      * by apply list_elem_of_singleton in Hb' as ->.
      * by apply elem_of_nil in Hb'.
    + intros (m & x & o' & Hx & Ho' & Hb'). destruct (decide (n = m)) as [<-|Ne].
      * rewrite lookup_insert_eq in Hx. injection Hx as <-. right.
        replace o' with o in Hb' by congruence. rewrite Hb'. simpl. left.
      * rewrite lookup_insert_ne in Hx by done. left. by exists m, x, o'.
  - intros m x o1 m' x' o2 b H1 H2 H3 H4 H5 H6.
    destruct (decide (n = m)) as [<-|N1], (decide (n = m')) as [<-|N2]; [done|..].
    + rewrite lookup_insert_eq in H1. rewrite lookup_insert_ne in H4 by done. injection H1 as <-.
      replace o1 with o in H3 by congruence. by destruct (Hb b m' x' o2 H3 H4 H5).
    + rewrite lookup_insert_eq in H4. rewrite lookup_insert_ne in H1 by done. injection H4 as <-.
      replace o2 with o in H6 by congruence. by destruct (Hb b m x o1 H6 H1 H2).
    + rewrite lookup_insert_ne in H1, H4 by done. eauto.
Qed.

Lemma filter_not_nil (l : list object) : filter (fun b => b ∉ []) l = l.
Proof.
  induction l as [|b l IH]; [done|]. rewrite filter_cons_True by apply not_elem_of_nil. by rewrite IH.
Qed.

(** A name no registered object points at leaves, with its buffers. *)
Lemma wf_delete st pools sources buffers n (gone : list object) :
  wf_maps st pools sources buffers ->
  (forall m i o r, sources !! m = Some i -> m <> n -> st !! i = Some o -> r ∈ members o -> sources !! n <> Some r) ->
  (forall b, b ∈ gone -> forall m i o, sources !! m = Some i -> st !! i = Some o -> so_writeBuffer o = Some b -> m = n) ->
  (forall i o b, sources !! n = Some i -> st !! i = Some o -> so_writeBuffer o = Some b -> b ∈ gone) ->
  wf_maps st (delete n pools) (delete n sources) (filter (fun b => b ∉ gone) buffers).
Proof.
  intros W Free G1 G2. pose proof W as [P N M S B O]. split.
  - intros m q [Ne Hq]%lookup_delete_Some. destruct (P m q Hq) as (x & o & ? & ?).
    exists x, o. by rewrite lookup_delete_ne.
  - intros m x [Ne Hx]%lookup_delete_Some. rewrite (lookup_delete_ne pools) by done. by apply N.
  - intros m x o r [Ne Hx]%lookup_delete_Some Ho Hr. destruct (M m x o r Hx Ho Hr) as (ro & H1 & H2 & H3).
    exists ro. split; [done|]. split; [done|]. rewrite lookup_delete_ne; [done|].
    intros E. apply (Free m x o r Hx); [congruence | done | done | congruence].
  - intros m x o s [Ne Hx]%lookup_delete_Some. by apply (S m x).
  - intros b. rewrite list_elem_of_filter, B. split.
    + intros (Hb & m & x & o & Hx & Ho & Hw). exists m, x, o. rewrite lookup_delete_ne; [done|].
      intros E. apply Hb, (G2 x o); [congruence | done | done].
    + intros (m & x & o & [Ne Hx]%lookup_delete_Some & Ho & Hw). split; [|by exists m, x, o].
      intros Hg. apply Ne. symmetry. by apply (G1 b Hg m x o).
  - intros m x o1 m' x' o2 b [_ H1]%lookup_delete_Some H2 H3 [_ H4]%lookup_delete_Some. eauto.
Qed.

(** ** What the builders build *)
Definition leaf_of (n : str) (p : object) (o : SourceObject) : Prop :=
  so_name o = n /\ so_primary o = None /\ so_pool o = Some p /\ so_writeBuffer o = None /\ members o = [] /\
  so_shadowName o = [].

Lemma build_source_wp dsc pc retry circuit cursor l names t :
  fresh_store t ->
  ewp (buildSingleDataSource dsc pc retry circuit cursor l names)
    (fun st t' => st_ok st = false /\ quiet t t')
    (fun r t' => quiet t t' /\ tp_next t <= r.2 /\
       exists o, tp_sources t' !! r.2 = Some o /\ leaf_of (dc_name dsc) r.1 o) t.
Proof.
  intros F. unfold buildSingleDataSource. destruct (is_nil _); [by apply ewp_fail; auto using quiet_refl|].
  apply ewp_bind, ewp_call_last. cbn [fst snd reads].
  destruct (find_driver _ t); [|by apply ewp_fail; auto using quiet_refl].
  apply ewp_call. set (t1 := (new_pool _ t).2).
  assert (Q1 : quiet t t1) by apply quiet_new_pool. apply ewp_call.
  set (o := applyCursorConfig _ _). assert (Q2 : quiet t1 (new_source o t1).2).
  { apply quiet_new_source; [by apply Q1 | done]. }
  apply ewp_done. split; [by eapply quiet_trans|]. split; [simpl; lia|]. exists o. split; [|done].
  simpl. by rewrite lookup_insert_eq.
Qed.

(** The names a group's configuration refers to. *)
Definition group_refs (g : DataSourceGroupConfig) : list str :=
  gc_primary g :: (rp_name <$> gc_replicas g) ++ fo_primaries (gc_failover g).

Definition group_of (g : DataSourceGroupConfig) (sources : gmap str object) (o : SourceObject) : Prop :=
  so_name o = gc_name g /\ so_primary o <> None /\ so_shadow o = None /\
  (forall r, r ∈ members o -> exists n, n ∈ group_refs g /\ sources !! n = Some r).

Lemma weighted_wp g sources t :
  ewp (weighted g sources) (fun st t' => st_ok st = false /\ t' = t)
    (fun ids t' => t' = t /\ forall r, r ∈ ids -> exists n, n ∈ rp_name <$> gc_replicas g /\ sources !! n = Some r) t.
Proof.
  apply (ewp_loop _ _ _ (fun done acc t' => t' = t /\
    forall r, r ∈ acc -> exists n, n ∈ rp_name <$> gc_replicas g /\ sources !! n = Some r)).
  - split; [done|]. intros r Hr. by apply elem_of_nil in Hr.
  - intros dn a acc t' Ha [-> H]. apply ewp_bind, ewp_find; [auto|]. intros i Hi. apply ewp_done.
    split; [done|]. intros r [Hr|Hr]%elem_of_app; [auto|]. apply elem_of_replicate in Hr as [-> _].
    exists (rp_name a). split; [|done]. by apply list_elem_of_fmap_2.
Qed.

Lemma failover_wp g sources p t :
  sources !! gc_primary g = Some p ->
  ewp (failover_candidates g p sources) (fun st t' => st_ok st = false /\ t' = t)
    (fun ids t' => t' = t /\ forall r, r ∈ ids -> exists n, n ∈ group_refs g /\ sources !! n = Some r) t.
Proof.
  intros Hp. unfold failover_candidates. destruct (is_nil _).
  { apply ewp_done. split; [done|]. intros r Hr. by apply elem_of_nil in Hr. }
  apply ewp_bind. eapply ewp_mono.
  - apply (ewp_loop _ _ _ (fun done (acc : list object * list str) t' => t' = t /\
      forall r, r ∈ acc.1 -> exists n, n ∈ group_refs g /\ sources !! n = Some r)
      (fun st t' => st_ok st = false /\ t' = t)).
    + split; [done|]. intros r Hr. apply list_elem_of_singleton in Hr as ->. exists (gc_primary g).
      split; [left | done].
    + intros dn n acc t' Hn [-> H]. destruct (bool_decide _); [by apply ewp_done|].
      apply ewp_bind, ewp_find; [auto|]. intros i Hi. apply ewp_done. split; [done|].
      intros r [Hr|Hr]%elem_of_app; [auto|]. apply list_elem_of_singleton in Hr as ->.
      exists n. split; [|done]. right. apply elem_of_app. by right.
  - auto.
  - intros acc t' H. by apply ewp_done.
Qed.

Lemma build_group_wp g l cursor sources t :
  fresh_store t ->
  ewp (buildSingleDataSourceGroup g l cursor sources)
    (fun st t' => st_ok st = false /\ quiet t t')
    (fun r t' => quiet t t' /\ tp_next t <= r.1 /\ exists o, tp_sources t' !! r.1 = Some o /\ group_of g sources o /\
       r.2 = option_list (so_writeBuffer o) /\ (forall b, so_writeBuffer o = Some b -> tp_next t <= b)) t.
Proof.
  intros F. unfold buildSingleDataSourceGroup.
  destruct (is_nil (gc_name g)); [by apply ewp_fail; auto using quiet_refl|].
  destruct (_ && _); [by apply ewp_fail; auto using quiet_refl|].
  apply ewp_bind, ewp_find; [by auto using quiet_refl|]. intros p Hp.
  apply ewp_bind. eapply ewp_mono; [apply weighted_wp | intros st t' [? ->]; auto using quiet_refl |].
  intros replicas t' [-> Hr]. apply ewp_bind.
  eapply ewp_mono; [by apply failover_wp | intros st t' [? ->]; auto using quiet_refl |].
  intros failover t' [-> Hf]. apply ewp_bind.
  apply (ewp_mono _ (fun _ _ => False) _ (fun b t1 => quiet t t1 /\ fresh_store t1 /\
    forall x, b = Some x -> tp_next t <= x < tp_next t1)); [|done|].
  - destruct (wc_enabled _); [|by apply ewp_done; split; [apply quiet_refl|]].
    apply ewp_call, ewp_done. pose proof (quiet_new_buffer (buffer_config (fo_write_buffer (gc_failover g))) t) as Q.
    split; [done|]. split; [by apply Q|]. simpl. intros x [= <-]. lia.
  - intros b t1 (Q & F1 & Hb). apply ewp_call, ewp_call. cbn [fst snd reads].
    set (o := applyCursorConfig _ _). assert (Q2 : quiet t1 (new_source o t1).2).
    { apply quiet_new_source; [done|]. intros x Hx. apply Hb in Hx. lia. }
    apply ewp_done. split; [by eapply quiet_trans|].
    split; [simpl; pose proof (qu_next _ _ Q); lia|]. exists o. split; [simpl; by rewrite lookup_insert_eq|].
    split; [|split; [by destruct b | intros x Hx; apply Hb in Hx; lia]].
    repeat split; try done. intros r. unfold members. simpl. rewrite app_nil_r. intros [->|Hr']%elem_of_cons.
    + exists (gc_primary g). split; [left | done].
    + apply elem_of_app in Hr' as [H|H]; [|auto]. destruct (Hr r H) as (n & Hn & E). exists n.
      split; [|done]. right. apply elem_of_app. by left.
Qed.

(** Validated references are registered leaves. *)
Lemma validate_ok g pools :
  st_ok (validateGroupRefs g pools) = true -> forall n, n ∈ group_refs g -> is_Some (pools !! n).
Proof.
  unfold validateGroupRefs. destruct (pools !! gc_primary g) eqn:E0; [|done].
  destruct (find _ (gc_replicas g)) eqn:E1; [done|]. destruct (find _ (fo_primaries _)) eqn:E2; [done|].
  intros _ n [->|[Hn|Hn]%elem_of_app]%elem_of_cons; [by rewrite E0| |].
  - apply list_elem_of_fmap in Hn as (r & -> & Hr%list_elem_of_In).
    pose proof (find_none _ _ E1 r Hr) as H. simpl in H. bool_prop.
    destruct (pools !! rp_name r); [done|]. by destruct H.
  - apply list_elem_of_In in Hn. pose proof (find_none _ _ E2 n Hn) as H. simpl in H. bool_prop.
    destruct (pools !! n); [done|]. by destruct H.
Qed.

Lemma pool_name_registered st pools sources buffers n :
  wf_maps st pools sources buffers -> is_Some (pools !! n) ->
  forall r, sources !! n = Some r -> registered_leaf st sources r.
Proof.
  intros [P N _ _ _ _] [p Hp] r Hr. destruct (P n p Hp) as (i & o & Hi & Ho & Hq & _).
  replace i with r in Ho by congruence. exists o. split; [done|]. split; [done|].
  destruct (N n r Hr) as (o' & Ho' & Hn & _). replace o' with o in Hn by congruence. by rewrite Hn.
Qed.

Lemma group_members_registered g st pools sources buffers o :
  wf_maps st pools sources buffers -> st_ok (validateGroupRefs g pools) = true -> group_of g sources o ->
  forall r, r ∈ members o -> registered_leaf st sources r.
Proof.
  intros W V (_ & _ & _ & M) r Hr. destruct (M r Hr) as (n & Hn & E).
  eapply pool_name_registered; [done | by eapply validate_ok | done].
Qed.

Lemma quiet_maps t t' pools sources buffers :
  quiet t t' -> wf_maps (tp_sources t) pools sources buffers -> wf_maps (tp_sources t') pools sources buffers.
Proof. intros Q. apply wf_maps_extends, Q. Qed.

Lemma quiet_object t t' i o :
  quiet t t' -> tp_sources t !! i = Some o -> exists o', tp_sources t' !! i = Some o' /\ shape o' = shape o.
Proof. intros Q. apply (qu_sources _ _ Q). Qed.

Lemma shape_leaf o o' n p : shape o' = shape o -> leaf_of n p o -> leaf_of n p o'.
Proof.
  unfold shape, leaf_of, members. intros [= -> -> -> -> -> -> -> ->]. done.
Qed.
Lemma shape_group o o' g sources : shape o' = shape o -> group_of g sources o -> group_of g sources o'.
Proof.
  unfold shape, group_of, members. intros [= -> _ -> -> -> _ _ ->]. done.
Qed.
Lemma shape_buffer o o' : shape o' = shape o -> so_writeBuffer o' = so_writeBuffer o.
Proof. unfold shape. by intros [= _ _ _ _ _ -> _ _]. Qed.

(** The names of a table. *)
Definition names_are (m : gmap str object) (ns : list str) : Prop := forall n, is_Some (m !! n) <-> n ∈ ns.
Lemma names_insert m ns n i : names_are m ns -> names_are (<[n := i]> m) (ns ++ [n]).
Proof.
  intros H x. destruct (decide (n = x)) as [<-|Ne].
  - rewrite lookup_insert_eq, elem_of_app. split; [|eauto]. intros _. right. by left.
  - rewrite lookup_insert_ne by done. rewrite (H x), elem_of_app, list_elem_of_singleton.
    split; [by left | by intros [?|?]].
Qed.

(** The objects of a table were made from the identity [k] on. *)
Definition all_from (k : object) (m : gmap str object) : Prop := forall n i, m !! n = Some i -> k <= i.
Lemma all_from_insert k m n i : all_from k m -> k <= i -> all_from k (<[n := i]> m).
Proof. intros H Hi x j [[_ <-]|[_ Hj]]%lookup_insert_Some; [done | by apply (H x)]. Qed.

Lemma build_sources_wp cfg dflt t :
  fresh_store t ->
  ewp (build_sources cfg dflt)
    (fun st t' => st_ok st = false /\ quiet t t')
    (fun r t' => quiet t t' /\ fresh_store t' /\ wf_maps (tp_sources t') r.1.1 r.1.2 [] /\
       names_are r.1.1 (dc_name <$> gl_datasources cfg) /\ names_are r.1.2 (dc_name <$> gl_datasources cfg) /\
       all_from (tp_next t) r.1.2) t.
Proof.
  intros F. apply (ewp_loop _ _ _ (fun done (r : gmap str object * gmap str object * list object) t' =>
    quiet t t' /\ fresh_store t' /\ wf_maps (tp_sources t') r.1.1 r.1.2 [] /\
    names_are r.1.1 (dc_name <$> done) /\ names_are r.1.2 (dc_name <$> done) /\ all_from (tp_next t) r.1.2)).
  - split; [apply quiet_refl|]. split; [done|]. split; [apply wf_empty|]. split_and!.
    1,2: intros n; simpl; rewrite lookup_empty, elem_of_nil; split; try done; by intros [? ?].
    intros n i Hi. simpl in Hi. by rewrite lookup_empty in Hi.
  - intros dn dsc [[pools sources] beats] t1 _ (Q & F1 & W & N1 & N2 & Fr). simpl in W, N1, N2, Fr.
    case_bool_decide as Dup; [by apply ewp_fail|]. apply ewp_call.
    set (t2 := (make_limiter _ _ t1).2). assert (Q2 : quiet t1 t2) by apply quiet_limiter.
    assert (F2 : fresh_store t2) by (by apply Q2).
    apply ewp_bind. eapply ewp_mono; [by apply build_source_wp| |].
    + intros st t3 [? Q3]. split; [done|]. eapply quiet_trans; [done|]. by eapply quiet_trans.
    + intros [pool source] t3 (Q3 & Le & o & Ho & L). cbn [fst snd] in *. apply ewp_seq.
      set (t4 := (modify _ t3).2). assert (Q4 : quiet t3 t4) by (by apply quiet_upd).
      assert (Q' : quiet t1 t4) by (eapply quiet_trans; [done|]; by eapply quiet_trans).
      assert (F4 : fresh_store t4) by (by apply Q').
      apply ewp_done. cbn [fst snd]. split; [by eapply quiet_trans|]. split; [done|].
      destruct (quiet_object t3 t4 source o Q4 Ho) as (o' & Ho' & S').
      assert (L' : leaf_of (dc_name dsc) pool o') by (by eapply shape_leaf).
      assert (NoS : sources !! dc_name dsc = None).
      { destruct (sources !! dc_name dsc) eqn:E; [|done]. destruct Dup. apply N1, N2. by rewrite E. }
      destruct L' as (L1 & L2 & L3 & L4 & L5 & L6). split.
      * eapply wf_insert_leaf; [by eapply quiet_maps | done..].
      * rewrite fmap_app. split; [by apply names_insert|]. split; [by apply names_insert|].
        apply all_from_insert; [done|]. pose proof (qu_next _ _ Q). pose proof (qu_next _ _ Q2). lia.
Qed.

Lemma build_groups_wp cfg dflt pools sources t ns k :
  fresh_store t -> wf_maps (tp_sources t) pools sources [] -> names_are sources ns ->
  all_from k sources -> k <= tp_next t ->
  ewp (build_groups cfg dflt pools sources)
    (fun st t' => st_ok st = false /\ quiet t t')
    (fun r t' => quiet t t' /\ fresh_store t' /\ wf_maps (tp_sources t') pools r.1 r.2 /\
       names_are r.1 (ns ++ (gc_name <$> gl_groups cfg)) /\ all_from k r.1) t.
Proof.
  intros F W0 N0 Fr0 Hk. apply (ewp_loop _ _ _ (fun done (r : gmap str object * list object) t' =>
    quiet t t' /\ fresh_store t' /\ wf_maps (tp_sources t') pools r.1 r.2 /\
    names_are r.1 (ns ++ (gc_name <$> done)) /\ all_from k r.1)).
  - simpl. rewrite app_nil_r. split; [apply quiet_refl|]. done.
  - intros dn g [srcs buffers] t1 _ (Q & F1 & W & N & Fr). simpl in W, N, Fr.
    case_bool_decide as Dup; [by apply ewp_fail|].
    destruct (_ && _); [by apply ewp_fail|]. destruct (_ && _); [by apply ewp_fail|].
    cbv zeta. destruct (st_ok (validateGroupRefs g pools)) eqn:V; cbn [negb]; [|by apply ewp_fail].
    apply ewp_call. set (t2 := (make_limiter _ _ t1).2). assert (Q2 : quiet t1 t2) by apply quiet_limiter.
    assert (F2 : fresh_store t2) by (by apply Q2).
    apply ewp_bind. eapply ewp_mono; [by apply build_group_wp| |].
    + intros st t3 [? Q3]. split; [done|]. eapply quiet_trans; [done|]. by eapply quiet_trans.
    + intros [source bs] t3 (Q3 & Le & o & Ho & G & Eb & Fb). cbn [fst snd] in *. subst bs. apply ewp_seq.
      set (t4 := (modify _ t3).2). assert (Q4 : quiet t3 t4) by (by apply quiet_upd).
      assert (Q23 : quiet t1 t3) by (by eapply quiet_trans).
      assert (Q' : quiet t1 t4) by (by eapply quiet_trans).
      apply ewp_done. cbn [fst snd]. split; [by eapply quiet_trans|]. split; [by apply Q'|].
      destruct (quiet_object t3 t4 source o Q4 Ho) as (o' & Ho' & S').
      pose proof (shape_group _ _ _ _ S' G) as G'. rewrite <- (shape_buffer _ _ S') in Fb |- *.
      assert (NoS : srcs !! gc_name g = None) by (destruct (srcs !! gc_name g); [destruct Dup; eauto|done]).
      assert (W4 : wf_maps (tp_sources t4) pools srcs buffers) by (by eapply quiet_maps).
      destruct G' as (G1 & G2 & G3 & G4). split.
      * eapply wf_insert_group; try done.
        -- eapply group_members_registered; [exact W4 | done |]. done.
        -- intros b m x o1 Hb Hm Hx Hb'. specialize (Fb b Hb).
           destruct (wm_named _ _ _ _ W m x Hm) as (o2 & Ho2 & _).
           destruct (quiet_object t1 t4 x o2 Q' Ho2) as (o3 & Ho3 & S3).
           replace o3 with o1 in S3 by congruence.
           assert (so_writeBuffer o2 = Some b) by (rewrite <- (shape_buffer _ _ S3); done).
           destruct F1 as [_ F1]. specialize (F1 x o2 b Ho2 ltac:(done)). pose proof (qu_next _ _ Q2). lia.
      * rewrite fmap_app, app_assoc. split; [by apply names_insert|]. apply all_from_insert; [done|].
        pose proof (qu_next _ _ Q). pose proof (qu_next _ _ Q2). lia.
Qed.

(** ** Resolving shadows keeps the topology well formed *)
Definition cores_kept (t t' : Topo) : Prop :=
  forall i o, tp_sources t !! i = Some o -> exists o', tp_sources t' !! i = Some o' /\ core o' = core o.
Definition untouched (t t' : Topo) : Prop :=
  forall i, (forall n, pb_datasources (tp_published t) !! n <> Some i) -> tp_sources t' !! i = tp_sources t !! i.
Definition same_tables (t t' : Topo) : Prop :=
  tp_published t' = tp_published t /\ tp_default t' = tp_default t /\ tp_services t' = tp_services t /\
  tp_next t' = tp_next t.

Lemma shadow_of_good t o s :
  topo_wf t -> so_primary o <> None -> shadow_of o t = inr s ->
  good_shadow (tp_sources t) (pb_datasources (tp_published t)) o s.
Proof.
  intros [_ W] Hg. unfold shadow_of, good_shadow.
  destruct (pb_datasources (tp_published t) !! so_shadowName o) as [i|] eqn:Ei; [|done].
  destruct (group_named _ t) eqn:G; [done|]. case_bool_decide as Hp; [done|]. case_bool_decide as Hr; [done|].
  intros [= <-]. split; [|done]. destruct (wm_named _ _ _ _ W _ i Ei) as (ro & Ho & Hn & _).
  exists ro. split; [done|]. unfold group_named in G. rewrite Ei, Ho in G. unfold is_group in G.
  split; [by destruct (so_primary ro) | by rewrite Hn].
Qed.

Lemma table_ids (m : gmap str object) i : i ∈ (map_to_list m).*2 <-> exists n, m !! n = Some i.
Proof.
  rewrite list_elem_of_fmap. split.
  - intros ([n j] & -> & H%elem_of_map_to_list). by exists n.
  - intros (n & H). exists (n, i). split; [done|]. by apply elem_of_map_to_list.
Qed.

Lemma upd_shadow_wf i o s t :
  topo_wf t -> tp_sources t !! i = Some o ->
  good_shadow (tp_sources t) (pb_datasources (tp_published t)) o s ->
  topo_wf (upd_source i (set_shadow (Some s)) t).
Proof.
  intros [[F G] W] Ho Gs. split; [split|]; simpl.
  - intros j Hj. destruct (decide (i = j)) as [<-|N]; [by rewrite lookup_alter_eq, F|].
    rewrite lookup_alter_ne by done. auto.
  - intros j o' b. destruct (decide (i = j)) as [<-|N]; [|rewrite lookup_alter_ne by done; apply G].
    rewrite lookup_alter_eq, Ho. intros [= <-]. by apply (G i o).
  - unfold published_wf in *. simpl. eapply wf_maps_evolves; [|exact W]. intros j o' Hj.
    destruct (decide (i = j)) as [<-|N].
    + exists (set_shadow (Some s) o'). rewrite lookup_alter_eq, Hj. split; [done|]. split; [done|].
      right. exists s. split; [done|]. by replace o' with o by congruence.
    + exists o'. rewrite lookup_alter_ne by done. split; [done|]. split; [done | by left].
Qed.

Lemma resolve_wf t :
  topo_wf t ->
  topo_wf (resolveShadows t).2 /\ same_tables t (resolveShadows t).2 /\ cores_kept t (resolveShadows t).2 /\
  untouched t (resolveShadows t).2.
Proof.
  intros W. unfold resolveShadows, bind, ret, reads.
  set (ids := (map_to_list _).*2).
  assert (Reg : forall i, i ∈ ids -> exists n, pb_datasources (tp_published t) !! n = Some i)
    by (intros i; apply table_ids).
  assert (L : ewp (eloop ids tt (fun i _ => resolve_one i))
    (fun _ t' => topo_wf t' /\ same_tables t t' /\ cores_kept t t' /\ untouched t t')
    (fun _ t' => topo_wf t' /\ same_tables t t' /\ cores_kept t t' /\ untouched t t') t).
  { apply (ewp_loop ids tt _ (fun _ _ t' => topo_wf t' /\ same_tables t t' /\ cores_kept t t' /\ untouched t t')).
    { split; [done|]. split; [done|]. split; [intros i o Ho; eauto | done]. }
    intros _ i [] t1 Hi (W1 & S1 & K1 & U1). unfold resolve_one. apply ewp_call. cbn [reads fst snd].
    destruct (tp_sources t1 !! i) as [o|] eqn:Ho; [|by apply ewp_done].
    destruct (is_nil _) eqn:Sn; [by apply ewp_done|]. apply ewp_call. cbn [reads fst snd].
    assert (Hg : so_primary o <> None).
    { intros Hl. destruct (Reg i Hi) as (n & Hn). destruct W1 as [_ W1], S1 as [P1 _].
      unfold published_wf in W1. rewrite P1 in W1. destruct (wm_named _ _ _ _ W1 n i Hn) as (o' & Ho' & _ & Hw & _).
      replace o' with o in Hw by congruence. destruct (Hw Hl) as (_ & _ & E & _). by rewrite E in Sn. }
    destruct (shadow_of o t1) as [st|s] eqn:Es; [by apply ewp_fail|].
    apply ewp_call_last. split; [|split; [by destruct S1|]].
    { eapply upd_shadow_wf; [done | done | by apply shadow_of_good]. }
    split; [|intros j Hj; cbn [modify fst snd upd_source tp_sources]; rewrite lookup_alter_ne;
      [by apply U1 | intros <-; destruct (Reg i Hi) as (n & Hn); by destruct (Hj n)]].
    intros j oj Hj. destruct (K1 j oj Hj) as (o1 & Ho1 & C1). cbn [modify fst snd upd_source tp_sources].
    destruct (decide (i = j)) as [<-|N].
    - exists (set_shadow (Some s) o1). by rewrite lookup_alter_eq, Ho1.
    - exists o1. by rewrite lookup_alter_ne. }
  unfold ewp in L. destruct (eloop ids tt _ t) as [[st|[]] t']; exact L.
Qed.

(** ** Frame steps *)
Lemma quiet_wf t t' : quiet t t' -> topo_wf t -> topo_wf t'.
Proof.
  intros Q [F W]. split; [by apply Q|]. unfold published_wf in *. rewrite (qu_published _ _ Q).
  by eapply quiet_maps.
Qed.
Lemma wf_same_store t t' :
  tp_sources t' = tp_sources t -> tp_next t' = tp_next t -> tp_published t' = tp_published t ->
  topo_wf t -> topo_wf t'.
Proof. intros E1 E2 E3 [F W]. unfold topo_wf, fresh_store, published_wf in *. by rewrite E1, E2, E3. Qed.

(** What the folds over pools and buffers leave alone. *)
Lemma fold_running_frame b l t :
  let t' := fold_left (fun t x => set_running b x t) l t in
  tp_sources t' = tp_sources t /\ tp_next t' = tp_next t /\ tp_published t' = tp_published t /\
  tp_default t' = tp_default t /\ tp_services t' = tp_services t /\ tp_poolObjects t' = tp_poolObjects t.
Proof. revert t. induction l as [|x l IH]; intros t; [done|]. simpl. apply (IH (set_running b x t)). Qed.
Lemma fold_shutdown_frame g l t :
  let t' := fold_left (fun t x => pool_shutdown g x t) l t in
  tp_sources t' = tp_sources t /\ tp_next t' = tp_next t /\ tp_published t' = tp_published t /\
  tp_default t' = tp_default t /\ tp_services t' = tp_services t.
Proof. revert t. induction l as [|x l IH]; intros t; [done|]. simpl. apply (IH (pool_shutdown g x t)). Qed.
Lemma shutdown_pools_frame times k d l t :
  let t' := shutdown_pools times k d l t in
  tp_sources t' = tp_sources t /\ tp_next t' = tp_next t /\ tp_published t' = tp_published t /\
  tp_default t' = tp_default t /\ tp_services t' = tp_services t /\ tp_bufferObjects t' = tp_bufferObjects t.
Proof.
  revert k t. induction l as [|x l IH]; intros k t; [done|]. simpl.
  apply (IH (S k) (pool_shutdown (remaining_grace d (times k)) x t)).
Qed.
Lemma retire_frame times g p t :
  let t' := retire times g p t in
  tp_sources t' = tp_sources t /\ tp_next t' = tp_next t /\ tp_published t' = tp_published t /\
  tp_default t' = tp_default t /\ tp_services t' = tp_services t.
Proof.
  unfold retire, stop_buffers.
  pose proof (fold_running_frame false (pb_writeBuffers p) t) as (A1 & A2 & A3 & A4 & A5 & _).
  set (t1 := fold_left _ _ t) in *.
  pose proof (shutdown_pools_frame times 1 (times 0%nat + g * 1000000) (map_to_list (pb_pools p)).*2 t1)
    as (B1 & B2 & B3 & B4 & B5 & _).
  cbv zeta in *. split_and!; congruence.
Qed.

Lemma fold_quiet {A} (f : Topo -> A -> Topo) l t : (forall t a, quiet t (f t a)) -> quiet t (fold_left f l t).
Proof.
  intros H. revert t. induction l as [|a l IH]; intros t; [apply quiet_refl|]. simpl.
  eapply quiet_trans; [apply H | apply IH].
Qed.
Lemma quiet_mark b i t : quiet t (mark_replica b i t).
Proof. by apply quiet_upd. Qed.
Lemma quiet_inherit l i t : quiet t (inherit_limiter l i t).
Proof. apply quiet_upd. intros o. by destruct (so_inheritsDefault o). Qed.
Lemma quiet_remark t : quiet t (remark_replicas t).
Proof.
  unfold remark_replicas. cbv zeta. eapply quiet_trans; apply (fold_quiet (A := object)); intros t1 i; cbv beta.
  - repeat case_match; try apply quiet_refl. apply quiet_mark.
  - repeat case_match; try apply quiet_refl. apply (fold_quiet (A := object)). intros; apply quiet_mark.
Qed.

(** ** Each operation *)

(** An operation that fails publishes nothing; one that succeeds does as [R] says. *)
Definition op_spec (R : Topo -> Prop) (t : Topo) (st : Status) (t' : Topo) : Prop :=
  topo_wf t' /\ (st_ok st = false -> tp_published t' = tp_published t) /\ (st_ok st = true -> R t').

Lemma op_failed R t st t' :
  topo_wf t' -> tp_published t' = tp_published t -> st_ok st = false ->
  st_ok st = false /\ op_spec R t st t'.
Proof. intros. split; [done|]. split; [done|]. split; [done | congruence]. Qed.
Lemma op_succeeded (R : Topo -> Prop) t t' : topo_wf t' -> R t' -> op_spec R t StatusOK t'.
Proof. intros. split; [done|]. by split. Qed.

Lemma addDataSource_wp cfg o t :
  topo_wf t ->
  op_spec (fun t' => exists pool source,
      tp_published t' = mkPublished (<[dc_name cfg := pool]> (pb_pools (tp_published t)))
        (<[dc_name cfg := source]> (pb_datasources (tp_published t)))
        (if op_attach_heartbeat o then add_to_heartbeat pool (pb_heartbeat (tp_published t))
         else pb_heartbeat (tp_published t)) (pb_writeBuffers (tp_published t)) /\
      pb_pools (tp_published t) !! dc_name cfg = None /\ pb_datasources (tp_published t) !! dc_name cfg = None)
    t (addDataSource cfg o t).1 (addDataSource cfg o t).2.
Proof.
  intros W. unfold addDataSource. apply status_of_spec.
  destruct (is_nil _); [by apply ewp_fail, op_failed|]. apply ewp_call. cbn [reads fst snd].
  destruct (taken _ _) eqn:T; [by apply ewp_fail, op_failed|]. apply ewp_call. cbn [reads fst snd].
  apply ewp_bind. eapply ewp_mono; [apply build_source_wp, W| |].
  - intros st t1 [E Q]. apply op_failed; [by eapply quiet_wf | apply Q | done].
  - intros [pool source] t1 (Q & _ & ob & Ho & L). cbn [fst snd] in *. apply ewp_seq.
    set (t2 := (modify _ t1).2). assert (Q2 : quiet t1 t2) by (by apply quiet_upd).
    assert (Q' : quiet t t2) by (by eapply quiet_trans).
    pose proof (quiet_wf _ _ Q' W) as W2. unfold publish_source. apply ewp_call. cbn [reads fst snd].
    rewrite (qu_published _ _ Q'), T. apply ewp_call_last. cbn [modify fst snd].
    unfold taken in T. apply orb_false_iff in T as [T1 T2]. bool_prop.
    rewrite <- eq_None_not_Some in T1, T2.
    destruct (quiet_object _ _ _ _ Q2 Ho) as (o2 & Ho2 & S2). pose proof (shape_leaf _ _ _ _ S2 L) as (L1 & L2 & L3 & L4 & L5 & L6).
    apply op_succeeded; [|by exists pool, source]. destruct W2 as [F2 W2].
    split; [done|]. unfold published_wf in *. cbn. rewrite (qu_published _ _ Q') in W2.
    by eapply wf_insert_leaf.
Qed.

(** No group is left that points at the removed name. *)
Lemma find_reference_None n t ids i o :
  find_reference n t ids = None -> i ∈ ids -> tp_sources t !! i = Some o -> reference_in n t o = None.
Proof.
  induction ids as [|j ids IH]; simpl; intros H Hi Ho; [by apply elem_of_nil in Hi|].
  apply elem_of_cons in Hi as [<-|Hi].
  - rewrite Ho in H. by destruct (reference_in n t o).
  - destruct (tp_sources t !! j) as [oj|]; [|auto]. destruct (reference_in n t oj); [done | auto].
Qed.

Lemma unreferenced n t m i o r :
  topo_wf t -> find_reference n t (map_to_list (pb_datasources (tp_published t))).*2 = None ->
  pb_datasources (tp_published t) !! m = Some i -> m <> n -> tp_sources t !! i = Some o -> r ∈ members o ->
  named n t r = false.
Proof.
  intros [_ W] H Hm Ne Ho Hr.
  assert (Hi : i ∈ (map_to_list (pb_datasources (tp_published t))).*2) by (apply table_ids; by exists m).
  pose proof (find_reference_None _ _ _ _ _ H Hi Ho) as R. unfold reference_in in R.
  destruct (wm_named _ _ _ _ W m i Hm) as (o' & Ho' & Hn & Hl & _). replace o' with o in Hn, Hl by congruence.
  destruct (str_eqb (so_name o) n) eqn:E; [apply str_eqb_eq in E; congruence|].
  destruct (so_primary o) as [p|] eqn:Ep.
  - destruct (named n t p) eqn:E1; [done|]. destruct (existsb _ (so_replicas o)) eqn:E2; [done|].
    destruct (existsb _ (so_failoverPrimaries o)) eqn:E3; [done|].
    assert (X : forall l, existsb (named n t) l = false -> r ∈ l -> named n t r = false).
    { intros l El Hl'. destruct (named n t r) eqn:En; [|done].
      assert (existsb (named n t) l = true); [|congruence]. apply existsb_exists. exists r.
      by rewrite <- list_elem_of_In. }
    apply elem_of_members in Hr. rewrite Ep in Hr. destruct Hr as [[= <-]|[Hr|[Hr|Hr]]]; [done|eauto..|].
    rewrite Hr in R. by destruct (named n t r).
  - destruct (Hl eq_refl) as (_ & Hmem & _). rewrite Hmem in Hr. by apply elem_of_nil in Hr.
Qed.


Lemma removeDataSource_wp n g t :
  topo_wf t ->
  op_spec (fun t' => exists pool,
      tp_published t' = without_source n (tp_published t) /\ pb_pools (tp_published t) !! n = Some pool /\
      n <> tp_default t /\ tp_poolObjects t' = tp_poolObjects (pool_shutdown g pool t) /\
      (forall m i o r, pb_datasources (tp_published t) !! m = Some i -> m <> n ->
         tp_sources t !! i = Some o -> r ∈ members o -> named n t r = false))
    t (removeDataSource n g t).1 (removeDataSource n g t).2.
Proof.
  intros W. unfold removeDataSource. apply status_of_spec, ewp_call. cbn [reads fst snd]. unfold id.
  destruct (pb_pools (tp_published t) !! n) as [pool|] eqn:Hp; [|by apply ewp_fail, op_failed].
  destruct (str_eqb n _) eqn:Hd; [by apply ewp_fail, op_failed|].
  destruct (find_reference _ _ _) as [[gn role]|] eqn:Hf; [by apply ewp_fail, op_failed|].
  apply ewp_seq, ewp_call_last. cbn [modify fst snd].
  assert (Free : forall m i o r, pb_datasources (tp_published t) !! m = Some i -> m <> n ->
         tp_sources t !! i = Some o -> r ∈ members o -> named n t r = false)
    by (intros; by eapply unreferenced).
  apply op_succeeded.
  - pose proof W as [F Wp]. split; [done|]. unfold published_wf in *. cbn.
    destruct (wm_pools _ _ _ _ Wp n pool Hp) as (i0 & o0 & Hi0 & Ho0 & Hq0 & _).
    rewrite <- (filter_not_nil (pb_writeBuffers (tp_published t))).
    apply wf_delete; [done| | |].
    + intros m i o r Hm Ne Ho Hr E. pose proof (Free m i o r Hm Ne Ho Hr) as Hn.
      destruct (wm_named _ _ _ _ Wp n r E) as (o' & Ho' & Hn' & _).
      unfold named in Hn. rewrite Ho', Hn', str_eqb_refl in Hn. done.
    + intros b Hb. by apply elem_of_nil in Hb.
    + intros i o b Hi Ho Hb. replace i with i0 in Ho by congruence. replace o with o0 in Hb by congruence.
      destruct (wm_named _ _ _ _ Wp n i0 Hi0) as (o' & Ho' & _ & Hw & _). replace o' with o0 in Hw by congruence.
      destruct (Hw Hq0) as (_ & _ & _ & E). congruence.
  - exists pool. split; [done|]. split; [done|]. split; [|done]. intros ->. by rewrite str_eqb_refl in Hd.
Qed.

Lemma option_list_elem {A} (x : option A) b : b ∈ option_list x <-> x = Some b.
Proof. destruct x; simpl; [rewrite list_elem_of_singleton; split; congruence | by rewrite elem_of_nil]. Qed.

Lemma wf_delete_group st pools sources buffers n i o :
  wf_maps st pools sources buffers -> sources !! n = Some i -> st !! i = Some o -> so_primary o <> None ->
  wf_maps st pools (delete n sources) (filter (fun b => b ∉ option_list (so_writeBuffer o)) buffers).
Proof.
  intros W Hn Ho Hg. pose proof W as [P N M S B O].
  assert (NoPool : pools !! n = None).
  { destruct (N n i Hn) as (o' & Ho' & _ & _ & H). apply H. congruence. }
  rewrite <- (delete_id pools n) by done. apply wf_delete; [done| | |].
  - intros m x o' r Hm _ Ho' Hr E. destruct (M m x o' r Hm Ho' Hr) as (ro & Hro & Hq & _).
    replace r with i in Hro by congruence. congruence.
  - intros b Hb%option_list_elem m x o' Hm Ho' Hb'. eapply (O m x o' n i o b); eauto.
  - intros x o' b Hx Ho' Hb. apply option_list_elem. congruence.
Qed.

Lemma fold_mark_quiet (f : str -> option object) (l : list ReplicaConfig) t :
  quiet t (fold_left (fun t r => match f (rp_name r) with Some i => mark_replica true i t | None => t end) l t).
Proof.
  apply (fold_quiet (A := ReplicaConfig)). intros t1 r; cbv beta. destruct (f (rp_name r)); [apply quiet_mark | apply quiet_refl].
Qed.

Definition group_published (g : DataSourceGroupConfig) (t : Topo) (staged : list object) (t' : Topo) : Prop :=
  topo_wf t' /\ tp_default t' = tp_default t /\ tp_services t' = tp_services t /\
  pb_pools (tp_published t) !! gc_name g = None /\ pb_datasources (tp_published t) !! gc_name g = None /\
  (forall b, b ∈ staged -> b ∉ pb_writeBuffers (tp_published t)) /\
  exists source o,
    tp_published t' = mkPublished (pb_pools (tp_published t)) (<[gc_name g := source]> (pb_datasources (tp_published t)))
      (pb_heartbeat (tp_published t)) (pb_writeBuffers (tp_published t) ++ staged) /\
    tp_sources t' !! source = Some o /\ group_of g (pb_datasources (tp_published t)) o /\
    staged = option_list (so_writeBuffer o).

Lemma publish_group_wp g o t :
  topo_wf t ->
  ewp (publish_group g o) (fun st t' => st_ok st = false /\ quiet t t') (group_published g t) t.
Proof.
  intros W. unfold publish_group. apply ewp_call. cbn [reads fst snd]. unfold id. cbv zeta.
  destruct (taken _ _) eqn:T; [by apply ewp_fail; auto using quiet_refl|].
  destruct (_ && _); [by apply ewp_fail; auto using quiet_refl|].
  destruct (_ && _); [by apply ewp_fail; auto using quiet_refl|].
  destruct (st_ok (validateGroupRefs g (pb_pools (tp_published t)))) eqn:V; cbn [negb];
    [|by apply ewp_fail; auto using quiet_refl].
  apply ewp_bind. eapply ewp_mono; [apply build_group_wp, W | done |].
  intros [source bs] t1 (Q & _ & ob & Ho & G & Eb & Fb). cbn [fst snd] in *.
  apply ewp_seq, ewp_seq, ewp_seq, ewp_done.
  set (t2 := (modify (upd_source _ _) t1).2). assert (Q2 : quiet t1 t2) by (by apply quiet_upd).
  set (t3 := (modify _ t2).2).
  assert (Q3 : quiet t2 t3).
  { exact (fold_mark_quiet (fun n => pb_datasources (tp_published t) !! n) (gc_replicas g) t2). }
  assert (Q13 : quiet t1 t3) by (by eapply quiet_trans). assert (Q' : quiet t t3) by (by eapply quiet_trans).
  destruct (quiet_object _ _ _ _ Q13 Ho) as (o3 & Ho3 & S3). pose proof (shape_group _ _ _ _ S3 G) as G3.
  rewrite <- (shape_buffer _ _ S3) in Eb, Fb.
  unfold taken in T. apply orb_false_iff in T as [T1 T2]. bool_prop. rewrite <- eq_None_not_Some in T1, T2.
  pose proof (quiet_wf _ _ Q' W) as [F3 W3]. unfold published_wf in W3. rewrite (qu_published _ _ Q') in W3.
  assert (New : forall b, so_writeBuffer o3 = Some b -> forall m x o', pb_datasources (tp_published t) !! m = Some x ->
    tp_sources t3 !! x = Some o' -> so_writeBuffer o' <> Some b).
  { intros b Hb m x o' Hm Hx Hb'. specialize (Fb b Hb). pose proof W as [[_ Fr] Wt].
    destruct (wm_named _ _ _ _ Wt m x Hm) as (o2 & Ho2 & _).
    destruct (quiet_object _ _ _ _ Q' Ho2) as (o4 & Ho4 & S4). replace o4 with o' in S4 by congruence.
    specialize (Fr x o2 b Ho2). rewrite <- (shape_buffer _ _ S4) in Fr. specialize (Fr Hb'). lia. }
  split_and!; simpl; try done.
  - split; [done|]. unfold published_wf. simpl. subst bs. destruct G3 as (G1 & G2 & G4 & G5).
    eapply wf_insert_group; try done.
    + eapply group_members_registered; [exact W3 | done |]. done.
    + intros b m x o' Hb Hm Hx. by apply (New b Hb m x).
  - apply (qu_default _ _ Q').
  - apply (qu_services _ _ Q').
  - intros b Hb Hin. subst bs. apply option_list_elem in Hb.
    apply (wm_buffers _ _ _ _ W3) in Hin as (m & x & o' & Hm & Hx & Hb'). by apply (New b Hb m x o').
  - exists source, o3. done.
Qed.

Lemma filter_app_gone (gone l : list object) :
  (forall b, b ∈ gone -> b ∉ l) -> filter (fun b => b ∉ gone) (l ++ gone) = l.
Proof.
  intros H. rewrite filter_app.
  assert (T : forall k : list object, (forall b : object, b ∈ k -> b ∉ gone) -> (filter (fun b : object => b ∉ gone) k = k)).
  { induction k as [|b k IH]; intros Hk; [done|]. rewrite filter_cons_True by (apply Hk; left).
    f_equal. apply IH. intros c Hc. apply Hk. by right. }
  assert (E : forall k : list object, (forall b : object, b ∈ k -> b ∈ gone) -> filter (fun b : object => b ∉ gone) k = []).
  { induction k as [|b k IH]; intros Hk; [done|]. rewrite filter_cons_False.
    - apply IH. intros c Hc. apply Hk. by right.
    - intros N. apply N, Hk. left. }
  rewrite T, E, app_nil_r; [done | done |]. intros b Hb Hg. by apply (H b).
Qed.

(** Taking a group out, by the operation or by its own rollback. *)
Lemma unpublish_group_wf n i o staged t :
  topo_wf t -> pb_datasources (tp_published t) !! n = Some i -> tp_sources t !! i = Some o ->
  so_primary o <> None -> staged = option_list (so_writeBuffer o) ->
  topo_wf (unpublish_group n staged t) /\
  tp_published (unpublish_group n staged t) =
    mkPublished (pb_pools (tp_published t)) (delete n (pb_datasources (tp_published t)))
      (pb_heartbeat (tp_published t)) (filter (fun b => b ∉ staged) (pb_writeBuffers (tp_published t))).
Proof.
  intros [F W] Hn Ho Hg Es. unfold unpublish_group. cbv zeta.
  set (t1 := set_published _ t).
  pose proof (fold_running_frame false staged t1) as (E1 & E2 & E3 & _). cbv zeta in *.
  split; [|by rewrite E3]. apply (wf_same_store t1); try done. split; [done|].
  unfold published_wf in *. simpl. rewrite Es. by eapply wf_delete_group.
Qed.

Lemma addGroup_wp g o t :
  topo_wf t ->
  op_spec (fun t' => exists staged t1 source ob,
      group_published g t staged t1 /\
      (tp_published t' = tp_published t1) /\
      tp_published t' = mkPublished (pb_pools (tp_published t)) (<[gc_name g := source]> (pb_datasources (tp_published t)))
          (pb_heartbeat (tp_published t)) (pb_writeBuffers (tp_published t) ++ staged) /\
      tp_sources t1 !! source = Some ob /\ group_of g (pb_datasources (tp_published t)) ob)
    t (addGroup g o t).1 (addGroup g o t).2.
Proof.
  intros W. unfold addGroup. apply status_of_spec.
  destruct (is_nil _); [by apply ewp_fail, op_failed|]. apply ewp_bind.
  eapply ewp_mono; [by apply publish_group_wp| |].
  - intros st t' [E Q]. apply op_failed; [by eapply quiet_wf | apply Q | done].
  - intros staged t1 GP. apply ewp_seq, ewp_call. cbn [modify fst snd].
    set (t2 := fold_left _ staged t1).
    pose proof (fold_running_frame true staged t1) as (E1 & E2 & E3 & E4 & E5 & _). cbv zeta in *. fold t2 in E1, E2, E3, E4, E5.
    pose proof GP as (W1 & D1 & S1 & NP & ND & New & source & ob & P1 & Ho & G & Es).
    assert (W2 : topo_wf t2) by (by apply (wf_same_store t1)).
    destruct (resolve_wf t2 W2) as (W3 & (E6 & _) & K & _). set (t3 := (resolveShadows t2).2) in *.
    destruct (st_ok (resolveShadows t2).1) eqn:Ok.
    + apply ewp_done. apply op_succeeded; [done|]. exists staged, t1, source, ob.
      split_and!; try done; congruence.
    + apply ewp_seq, ewp_fail. cbn [modify fst snd]. rewrite E3, P1 in E6.
      assert (Reg : pb_datasources (tp_published t3) !! gc_name g = Some source)
        by (rewrite E6; simpl; by rewrite lookup_insert_eq).
      rewrite <- E1 in Ho. destruct (K _ _ Ho) as (o3 & Ho3 & (_ & _ & Cq & _ & _ & Cb & _)%core_fields).
      destruct G as (G1 & G2 & G3 & G4).
      destruct (unpublish_group_wf (gc_name g) source o3 staged t3 W3 Reg Ho3) as [W4 P4];
        [congruence | by rewrite Cb|].
      apply op_failed; [done | | done]. rewrite P4, E6. simpl.
      rewrite delete_insert_id by done. rewrite filter_app_gone by done. by destruct (tp_published t).
Qed.

Lemma without_group_filter n i o t :
  topo_wf t -> pb_datasources (tp_published t) !! n = Some i -> tp_sources t !! i = Some o -> so_primary o <> None ->
  topo_wf (set_published (without_group n (so_writeBuffer o) (tp_published t)) t).
Proof.
  intros [F W] Hn Ho Hg. split; [done|]. unfold published_wf in *. simpl.
  pose proof (wf_delete_group _ _ _ _ _ _ _ W Hn Ho Hg) as D. destruct (so_writeBuffer o) as [b|]; simpl in *.
  - erewrite list_filter_iff; [exact D|]. intros x. simpl. by rewrite list_elem_of_singleton.
  - by rewrite filter_not_nil in D.
Qed.

Lemma removeGroup_wp n g t :
  topo_wf t ->
  op_spec (fun t' => exists i o,
      pb_datasources (tp_published t) !! n = Some i /\ tp_sources t !! i = Some o /\ so_primary o <> None /\
      n <> tp_default t /\ tp_published t' = without_group n (so_writeBuffer o) (tp_published t))
    t (removeGroup n g t).1 (removeGroup n g t).2.
Proof.
  intros W. unfold removeGroup. apply status_of_spec, ewp_call. cbn [reads fst snd]. unfold id.
  destruct (pb_datasources (tp_published t) !! n) as [i|] eqn:Hi; [|by apply ewp_fail, op_failed].
  case_bool_decide as Hp; [by apply ewp_fail, op_failed|].
  destruct (str_eqb n _) eqn:Hd; [by apply ewp_fail, op_failed|].
  destruct (wm_named _ _ _ _ (proj2 W) _ _ Hi) as (o & Ho & _ & Hl & _).
  assert (Hg : so_primary o <> None).
  { intros E. destruct (Hl E) as ((p & _ & Ep) & _). apply Hp. eauto. }
  cbv zeta. rewrite Ho. cbn [mbind option_bind]. apply ewp_seq, ewp_seq, ewp_call_last. cbn [modify fst snd].
  set (t1 := set_published _ t). assert (W1 : topo_wf t1) by (by eapply without_group_filter).
  pose proof (quiet_remark t1) as Q. pose proof (quiet_wf _ _ Q W1) as W2. apply op_succeeded.
  - destruct (so_writeBuffer o); [|done]. by apply (wf_same_store (remark_replicas t1)).
  - exists i, o. split_and!; try done; [intros ->; by rewrite str_eqb_refl in Hd|].
    destruct (so_writeBuffer o); simpl; apply (qu_published _ _ Q).
Qed.

Lemma nothing_wf t : fresh_store t -> topo_wf (set_published nothing_published t).
Proof. intros F. split; [done|]. apply wf_empty. Qed.

Lemma shutdown_wf times g t :
  topo_wf t ->
  topo_wf (manager_shutdown times g t) /\ tp_published (manager_shutdown times g t) = nothing_published /\
  tp_default (manager_shutdown times g t) = [].
Proof.
  intros [F W]. unfold manager_shutdown. cbv zeta.
  set (t1 := set_default _ _). pose proof (retire_frame times g (tp_published (set_collector false (set_reporter None t))) t1)
    as (E1 & E2 & E3 & E4 & E5). cbv zeta in *. split_and!; [|by rewrite E3 | by rewrite E4].
  apply (wf_same_store t1); try done. by apply nothing_wf.
Qed.

Lemma setDefault_wf l t :
  topo_wf t -> topo_wf (setDefaultRateLimiter l t) /\ tp_published (setDefaultRateLimiter l t) = tp_published t /\
  tp_default (setDefaultRateLimiter l t) = tp_default t.
Proof.
  intros W. unfold setDefaultRateLimiter. cbv zeta. set (t1 := mkTopo _ _ _ _ _ _ _ _ _ _ _).
  assert (Q : quiet t1 (fold_left (fun t i => inherit_limiter l i t) (map_to_list (pb_datasources (tp_published t1))).*2 t1))
    by (apply (fold_quiet (A := object)); intros; apply quiet_inherit).
  split_and!; [apply (quiet_wf _ _ Q), W | apply (qu_published _ _ Q) | apply (qu_default _ _ Q)].
Qed.

(** What a configuration publishes: its names, and it is well formed. *)
Definition publishes (cfg : GlobalConfig) (p : Published) : Prop :=
  names_are (pb_pools p) (dc_name <$> gl_datasources cfg) /\
  names_are (pb_datasources p) ((dc_name <$> gl_datasources cfg) ++ (gc_name <$> gl_groups cfg)) /\
  is_Some (pb_datasources p !! gl_default_datasource cfg).

(** The last part of [init], from the swap on. *)
Lemma publish_quiet new t :
  quiet t (fold_left (fun t i => inherit_limiter (tp_defaultLimiter t) i t) (map_to_list (pb_datasources new)).*2 t).
Proof. apply (fold_quiet (A := object)). intros; apply quiet_inherit. Qed.

Lemma init_wp times cfg grace t :
  topo_wf t ->
  op_spec (fun t' => publishes cfg (tp_published t') /\ tp_default t' = gl_default_datasource cfg /\
      exists t1, t' = retire times grace (tp_published t) t1 /\ tp_published t1 = tp_published t')
    t (init times cfg grace t).1 (init times cfg grace t).2.
Proof.
  intros W. unfold init. apply status_of_spec.
  destruct (is_nil _); [by apply ewp_fail, op_failed|]. apply ewp_call. cbn [reads fst snd].
  apply ewp_bind. eapply ewp_mono; [apply build_sources_wp, W| |].
  { intros st t1 [E Q]. apply op_failed; [by eapply quiet_wf | apply Q | done]. }
  intros [[pools sources] beats] t1 (Q1 & F1 & W1 & N1 & N2 & A1). cbn [fst snd] in *.
  apply ewp_bind. eapply ewp_mono; [apply (build_groups_wp _ _ _ _ _ (dc_name <$> gl_datasources cfg) (tp_next t)); [done..|apply Q1]| |].
  { intros st t2 [E Q]. assert (Q2 : quiet t t2) by (by eapply quiet_trans).
    apply op_failed; [by eapply quiet_wf | apply Q2 | done]. }
  intros [srcs buffers] t2 (Q2 & F2 & W2 & N3 & A3). cbn [fst snd] in *.
  assert (Q : quiet t t2) by (by eapply quiet_trans).
  case_bool_decide as Hd; cbn [negb]; [|apply ewp_fail, op_failed; [by eapply quiet_wf | apply Q | done]].
  apply ewp_seq, ewp_seq. cbn [modify fst snd]. set (t3 := configure_services cfg t2).
  pose proof (fold_running_frame true buffers t3) as (E1 & E2 & E3 & E4 & E5 & _). cbv zeta in *.
  set (t4 := fold_left _ buffers t3) in *. apply ewp_call, ewp_seq, ewp_call. cbn [reads modify fst snd].
  set (new := mkPublished pools srcs _ buffers). rewrite E3. cbn [tp_published set_services configure_services t3].
  rewrite (qu_published _ _ Q). unfold publish.
  pose proof (publish_quiet new t4) as Q5. set (t5 := fold_left _ _ t4) in *.
  set (t6 := set_default _ _).
  assert (W6 : topo_wf t6).
  { assert (F4 : fresh_store t4) by (unfold fresh_store; rewrite E1, E2; apply F2). split; [by apply Q5|].
    unfold published_wf, t6. simpl. eapply quiet_maps; [exact Q5|]. by rewrite E1. }
  destruct (resolve_wf t6 W6) as (W7 & (P7 & D7 & _) & _ & U7). set (t7 := (resolveShadows t6).2) in *.
  destruct (st_ok (resolveShadows t6).1) eqn:Ok; cbn [negb].
  - apply ewp_seq, ewp_seq, ewp_call_last. cbn [modify fst snd].
    set (t8 := set_reporter _ _). pose proof (retire_frame times grace (tp_published t) t8) as (R1 & R2 & R3 & R4 & R5).
    cbv zeta in *. apply op_succeeded.
    + by apply (wf_same_store t8).
    + rewrite R3, R4. simpl. rewrite P7, D7. split; [done|]. split; [done|]. by exists t8.
  - apply ewp_seq, ewp_fail. cbn [modify fst snd]. unfold unpublish.
    set (t8 := set_published (tp_published t) t7).
    pose proof (fold_running_frame false (pb_writeBuffers new) t8) as (G1 & G2 & G3 & _). cbv zeta in *.
    fold (stop_buffers (pb_writeBuffers new) t8) in G1, G2, G3.
    set (t9 := stop_buffers _ t8) in *.
    pose proof (fold_shutdown_frame 0 (map_to_list (pb_pools new)).*2 t9) as (H1 & H2 & H3 & _). cbv zeta in *.
    apply op_failed; [| by rewrite H3, G3 | done].
    apply (wf_same_store t9); try done. apply (wf_same_store t8); try done.
    split; [apply W7|]. unfold published_wf. simpl.
    destruct W as [[F _] W]. eapply wf_maps_extends; [|exact W]. intros i o Hi.
    destruct (qu_sources _ _ Q i o Hi) as (o2 & Ho2 & S2).
    change (tp_sources t2) with (tp_sources t3) in Ho2. rewrite <- E1 in Ho2.
    destruct (qu_sources _ _ Q5 i o2 Ho2) as (o5 & Ho5 & S5). exists o5. split; [|congruence].
    rewrite U7; [done|]. intros n Hn. cbn in Hn. apply A3 in Hn. rewrite F in Hi; [done | lia].
Qed.

(** ** Theorems *)
Inductive TopoOp :=
  | OpInit (times : nat -> Z) (cfg : GlobalConfig) (grace : Z)
  | OpAddDriver (type : str) (factory : option Z)
  | OpSetLimiter (l : option LimiterRef)
  | OpAddDataSource (cfg : DataSourceConfig) (o : DataSourceOptions)
  | OpRemoveDataSource (n : str) (grace : Z)
  | OpAddGroup (g : DataSourceGroupConfig) (o : GroupOptions)
  | OpRemoveGroup (n : str) (grace : Z)
  | OpShutdown (times : nat -> Z) (grace : Z).

Definition add_driver (type : str) (factory : option Z) (t : Topo) : Topo :=
  mkTopo (tp_next t) (tp_sources t) (tp_poolObjects t) (tp_bufferObjects t) (tp_published t) (tp_default t)
    (tp_defaultLimiter t) (tp_services t) (tp_reporter t) (registerDriver type factory (tp_drivers t))
    (tp_globalDrivers t).

Definition topo_step (op : TopoOp) : ST Topo Status :=
  match op with
  | OpInit times cfg g => init times cfg g
  | OpAddDriver ty f => modify (add_driver ty f) ;; ret StatusOK
  | OpSetLimiter l => modify (setDefaultRateLimiter l) ;; ret StatusOK
  | OpAddDataSource c o => addDataSource c o
  | OpRemoveDataSource n g => removeDataSource n g
  | OpAddGroup g o => addGroup g o
  | OpRemoveGroup n g => removeGroup n g
  | OpShutdown times g => modify (manager_shutdown times g) ;; ret StatusOK
  end.
Definition topo_run (ops : list TopoOp) (t : Topo) : Topo := fold_left (fun t op => (topo_step op t).2) ops t.

Lemma step_spec op t :
  topo_wf t -> topo_wf (topo_step op t).2 /\
  (st_ok (topo_step op t).1 = false -> tp_published (topo_step op t).2 = tp_published t).
Proof.
  intros W. destruct op as [times cfg g|ty f|l|c o|n g|g o|n g|times g]; simpl topo_step.
  - destruct (init_wp times cfg g t W) as (? & ? & _). done.
  - split; [|done]. by apply (wf_same_store t).
  - split; [|done]. by apply setDefault_wf.
  - destruct (addDataSource_wp c o t W) as (? & ? & _). done.
  - destruct (removeDataSource_wp n g t W) as (? & ? & _). done.
  - destruct (addGroup_wp g o t W) as (? & ? & _). done.
  - destruct (removeGroup_wp n g t W) as (? & ? & _). done.
  - split; [|done]. by apply shutdown_wf.
Qed.

Lemma run_wf ops t : topo_wf t -> topo_wf (topo_run ops t).
Proof.
  revert t. induction ops as [|op ops IH]; intros t W; [done|]. simpl. by apply IH, step_spec.
Qed.

Lemma new_manager_wf global : topo_wf (new_manager global).
Proof.
  split; [split; [done | intros i o b Hi; simpl in Hi; by rewrite lookup_empty in Hi] | apply wf_empty].
Qed.

(** C4: After any sequence of operations, failed ones included, every pool belongs to a
    leaf of the same name and every leaf has its pool; every primary, replica,
    candidate and shadow of a registered group is a registered leaf, the shadow
    neither the primary nor a replica; and the write buffers kept are those of the
    registered groups. *)
Theorem topology_wf global ops : topo_wf (topo_run ops (new_manager global)).
Proof. apply run_wf, new_manager_wf. Qed.


(** A data source is removed only when no group points at it: afterwards its name is
    free, no registered group has a member of that name, and its pool was shut down
    with the grace period. *)
Theorem removed_source_unreferenced global ops n grace :
  let t := topo_run ops (new_manager global) in
  let t' := (removeDataSource n grace t).2 in
  st_ok (removeDataSource n grace t).1 = true ->
  getDataSource n t' = None /\ pb_pools (tp_published t') !! n = None /\ n <> tp_default t /\
  (exists pool, pb_pools (tp_published t) !! n = Some pool /\
     tp_poolObjects t' = tp_poolObjects (pool_shutdown grace pool t)) /\
  (forall m i o r, getDataSource m t' = Some i -> tp_sources t' !! i = Some o -> r ∈ members o ->
     exists ro, tp_sources t' !! r = Some ro /\ so_name ro <> n /\ getDataSource (so_name ro) t' = Some r).
Proof.
  intros t t' Ok. assert (W : topo_wf t) by apply run_wf, new_manager_wf.
  destruct (removeDataSource_wp n grace t W) as (W' & _ & R). destruct (R Ok) as (pool & P & Hp & Hd & Hs & _).
  fold t' in W', P, Hs. unfold getDataSource. rewrite P. simpl. rewrite !lookup_delete_eq.
  split_and!; try done; [by exists pool|].
  intros m i o r Hm Ho Hr. rewrite <- P in *.
  assert (Hm' : pb_datasources (tp_published t') !! m = Some i) by (by rewrite P).
  destruct (wm_members _ _ _ _ (proj2 W') m i o r Hm' Ho Hr) as (ro & Hro & _ & Hreg).
  exists ro. rewrite P in Hreg. simpl in Hreg. split; [done|]. split; [|done]. intros <-.
  by rewrite lookup_delete_eq in Hreg.
Qed.

(** A successful [init] publishes the configured names, no others, and the default
    among them. *)
Theorem init_publishes_config global ops times cfg grace :
  let t := topo_run ops (new_manager global) in
  let t' := (init times cfg grace t).2 in
  st_ok (init times cfg grace t).1 = true ->
  publishes cfg (tp_published t') /\ tp_default t' = gl_default_datasource cfg /\ is_Some (getDefault t') \/
  gl_default_datasource cfg = [].
Proof.
  intros t t' Ok. assert (W : topo_wf t) by apply run_wf, new_manager_wf.
  destruct (init_wp times cfg grace t W) as (_ & _ & R). destruct (R Ok) as (P & D & _). fold t' in P, D.
  destruct (decide (gl_default_datasource cfg = [])) as [E|E]; [by right|]. left. split; [done|]. split; [done|].
  unfold getDefault. rewrite D. destruct (gl_default_datasource cfg) eqn:G; [done|]. simpl.
  rewrite <- G. apply P.
Qed.

(** *** Retiring pools *)
Lemma remaining_bounds t0 grace now :
  t0 <= now -> 0 <= grace -> 0 <= remaining_grace (t0 + grace * 1000000) now <= grace.
Proof.
  intros Hn Hg. unfold remaining_grace. destruct (now <? _) eqn:E; bool_prop; [|lia].
  split; [apply Z.quot_pos; lia|].
  replace grace with (Z.quot (grace * 1000000) 1000000) at 2 by (apply Z.quot_mul; lia).
  apply Z.quot_le_mono; lia.
Qed.

Definition shut_within (grace : Z) (before after : PoolObject) (extra : list Z) : Prop :=
  pl_config after = pl_config before /\ pl_shutdowns after = pl_shutdowns before ++ extra /\
  Forall (fun g => 0 <= g <= grace) extra.

Lemma shutdown_pools_within times k t0 grace pools t :
  (forall j, t0 <= times j) -> 0 <= grace ->
  forall i o, tp_poolObjects t !! i = Some o -> exists o' extra,
    tp_poolObjects (shutdown_pools times k (t0 + grace * 1000000) pools t) !! i = Some o' /\
    shut_within grace o o' extra /\ (i ∈ pools -> extra <> []).
Proof.
  intros Ht Hg. revert k t. induction pools as [|p pools IH]; intros k t i o Ho; simpl.
  - exists o, []. unfold shut_within. rewrite app_nil_r. split_and!; try done. by intros ?%elem_of_nil.
  - set (g := remaining_grace _ (times k)). assert (Hb : 0 <= g <= grace) by (by apply remaining_bounds).
    destruct (decide (p = i)) as [->|N].
    + destruct (IH (S k) (pool_shutdown g i t) i (mkPoolObject (pl_config o) (pl_shutdowns o ++ [g])))
        as (o' & extra & E & (C & S' & F) & _).
      { simpl. by rewrite lookup_alter_eq, Ho. }
      exists o', (g :: extra). split; [done|]. split; [|done]. split; [done|]. simpl in S'.
      rewrite S', <- app_assoc. split; [done | by constructor].
    + destruct (IH (S k) (pool_shutdown g p t) i o) as (o' & extra & E & C & D).
      { simpl. by rewrite lookup_alter_ne. }
      exists o', extra. split; [done|]. split; [done|]. intros [->|Hi]%elem_of_cons; [done | auto].
Qed.

(** [shutdown] publishes nothing any more, stops every write buffer and shuts every
    pool down, none with more than the grace period. *)
Theorem shutdown_retires_everything global ops times grace :
  let t := topo_run ops (new_manager global) in
  let t' := manager_shutdown times grace t in
  (forall j, times 0%nat <= times j) -> 0 <= grace ->
  tp_published t' = nothing_published /\ getDefault t' = None /\ dataSourceCount t' = 0 /\
  (forall n i o, pb_pools (tp_published t) !! n = Some i -> tp_poolObjects t !! i = Some o ->
     exists o' extra, tp_poolObjects t' !! i = Some o' /\ shut_within grace o o' extra /\ extra <> []).
Proof.
  intros t t' Ht Hg. assert (W : topo_wf t) by apply run_wf, new_manager_wf.
  destruct (shutdown_wf times grace t W) as (_ & P & D). fold t' in P, D.
  unfold getDefault, dataSourceCount. rewrite P, D. split; [done|]. split; [done|]. split; [done|].
  intros n i o Hn Ho. unfold t', manager_shutdown, retire. cbv zeta.
  set (t1 := set_default _ _). set (p := tp_published (set_collector _ _)).
  pose proof (fold_running_frame false (pb_writeBuffers p) t1) as (_ & _ & _ & _ & _ & E). cbv zeta in E.
  fold (stop_buffers (pb_writeBuffers p) t1) in E.
  destruct (shutdown_pools_within times 1 (times 0%nat) grace (map_to_list (pb_pools p)).*2
    (stop_buffers (pb_writeBuffers p) t1) Ht Hg i o) as (o' & extra & H1 & H2 & H3).
  { rewrite E. exact Ho. }
  exists o', extra. split; [exact H1|]. split; [exact H2|]. apply H3, table_ids. by exists n.
Qed.

(** *** Concrete topologies *)
Definition demo_registry : Registry := {[ lit "mysql" := Some 1 ]}.
Definition leaf_config (n : string) : DataSourceConfig :=
  mkDataSourceConfig (lit n) (lit "mysql") [] 0 [] [] [] [] [] 5000 0 0 0 false true [] [] [] default_oracle [].
Definition group_config (n primary : string) (replicas : list string) (shadow : string) : DataSourceGroupConfig :=
  mkGroupConfig (lit n) (lit primary) ((fun r => mkReplicaConfig (lit r) 1) <$> replicas) 0 true false
    default_failover (lit shadow).
Definition with_groups (dflt : string) (leaves : list string) (groups : list DataSourceGroupConfig) : GlobalConfig :=
  mkGlobalConfig (lit dflt) 5000 default_pool default_retry default_circuitBreaker default_observability
    default_rate_limit default_sql_audit default_query_cache default_cursor default_prepared_cache
    default_async false (leaf_config <$> leaves) groups.
Definition demo_times (k : nat) : Z := Z.of_nat k * 2000000000.
Definition demo_config : GlobalConfig :=
  with_groups "g" ["a"; "b"; "s"] [group_config "g" "a" ["b"] "s"].
Definition demo_options : DataSourceOptions :=
  mkSourceOptions default_retry default_circuitBreaker None false default_cursor true.
Definition demo_group_options : GroupOptions := mkGroupOptions None default_cursor false false.
Definition demo_ops : list TopoOp :=
  [OpInit demo_times demo_config 0; OpAddDataSource (leaf_config "c") demo_options].
Definition demo_manager : Topo := topo_run demo_ops (new_manager demo_registry).

Example demo_referenced : (removeDataSource (lit "b") 0 demo_manager).1 =
  config_error (lit "datasource 'b' is still referenced by group 'g' as replica (remove the group first)").
Proof. by vm_compute. Qed.


Lemma removed_source_unreferenced_witness :
  st_ok (removeDataSource (lit "c") 7 demo_manager).1 = true /\
  getDataSource (lit "c") (removeDataSource (lit "c") 7 demo_manager).2 = None.
Proof.
  split; [by vm_compute|].
  destruct (removed_source_unreferenced demo_registry demo_ops (lit "c") 7 ltac:(by vm_compute)) as [H _].
  exact H.
Defined.

Lemma init_publishes_config_witness :
  st_ok (init demo_times demo_config 0 (new_manager demo_registry)).1 = true /\
  is_Some (getDefault (init demo_times demo_config 0 (new_manager demo_registry)).2).
Proof.
  split; [by vm_compute|].
  destruct (init_publishes_config demo_registry [] demo_times demo_config 0 ltac:(by vm_compute)) as [(_ & _ & H)|H].
  - exact H.
  - discriminate H.
Defined.

Lemma shutdown_retires_everything_witness :
  getDefault (manager_shutdown demo_times 3000 demo_manager) = None /\
  (exists i o, pb_pools (tp_published demo_manager) !! lit "a" = Some i /\
     tp_poolObjects (manager_shutdown demo_times 3000 demo_manager) !! i = Some o /\ pl_shutdowns o <> []).
Proof.
  destruct (shutdown_retires_everything demo_registry demo_ops demo_times 3000) as (_ & H & _ & S);
    [intros j; unfold demo_times; lia | lia |].
  split; [exact H|].
  destruct (S (lit "a") 1 (mkPoolObject (pool_config (lit "a") default_pool) [])) as (o' & extra & E & (_ & Es & _) & N);
    [by vm_compute..|].
  exists 1, o'. split; [by vm_compute|]. split; [exact E|]. rewrite Es. by destruct extra.
Defined.

(** *** What the operations do that they do not mean to *)

(** A configuration with another default, audit and an unknown shadow. *)
Definition bad_reload : GlobalConfig :=
  mkGlobalConfig (lit "x") 5000 default_pool default_retry default_circuitBreaker default_observability
    default_rate_limit (mkSqlAuditConfig true (lit "block") true true true true [] []) default_query_cache
    default_cursor default_prepared_cache default_async true [leaf_config "x"; leaf_config "y"]
    [group_config "h" "x" ["y"] "nowhere"].

(** A reload that fails on a shadow puts the old sources back, but keeps the new
    default name, which the old sources do not have, and the new audit rules. *)
Theorem failed_reload_is_not_rolled_back :
  let t' := (init demo_times bad_reload 0 demo_manager).2 in
  st_ok (init demo_times bad_reload 0 demo_manager).1 = false /\
  tp_published t' = tp_published demo_manager /\
  getDefault demo_manager = getDataSource (lit "g") demo_manager /\ getDefault demo_manager <> None /\ getDefault t' = None /\
  sv_audit (tp_services demo_manager) = default_sql_audit /\ sv_audit (tp_services t') = gl_sql_audit bad_reload.
Proof. cbv zeta. split_and!; by vm_compute. Qed.

(** [addGroup] publishes a group in one critical section and resolves its shadow in
    another: between them every look-up finds it without its shadow, and traffic
    meant for the shadow goes to its primary. *)
Theorem group_visible_before_its_shadow global ops g o staged t' :
  publish_group g o (topo_run ops (new_manager global)) = (inr staged, t') ->
  exists i ob, getDataSource (gc_name g) t' = Some i /\ tp_sources t' !! i = Some ob /\ so_shadow ob = None.
Proof.
  intros E. pose proof (publish_group_wp g o _ (run_wf ops _ (new_manager_wf global))) as H.
  unfold ewp in H. rewrite E in H. destruct H as (_ & _ & _ & _ & _ & _ & i & ob & P & Ho & (_ & _ & S & _) & _).
  exists i, ob. cbn [fst snd] in *. unfold getDataSource. rewrite P. simpl. by rewrite lookup_insert_eq.
Qed.

Lemma group_visible_before_its_shadow_witness :
  exists staged t', publish_group (group_config "h" "a" ["b"] "s") demo_group_options demo_manager = (inr staged, t') /\
    exists i ob, getDataSource (lit "h") t' = Some i /\ tp_sources t' !! i = Some ob /\ so_shadow ob = None.
Proof.
  do 2 eexists. split; [vm_compute; reflexivity|].
  apply (group_visible_before_its_shadow demo_registry demo_ops (group_config "h" "a" ["b"] "s") demo_group_options []).
  vm_compute. reflexivity.
Defined.

(** Two calls of [addGroup]: [bad], whose shadow does not exist, has published its
    group when [good], which has no shadow, resolves.  [good] is refused with the
    error of [bad]. *)
Theorem valid_group_refused_for_another :
  let bad := group_config "bad" "a" [] "nowhere" in
  let good := group_config "good" "a" [] "" in
  st_ok (addGroup good demo_group_options demo_manager).1 = true /\
  let t := (publish_group bad demo_group_options demo_manager).2 in
  (addGroup good demo_group_options t).1 =
    config_error (lit "group 'bad' references unknown shadow 'nowhere'") /\
  getDataSource (lit "good") (addGroup good demo_group_options t).2 = None.
Proof. cbv zeta. split_and!; by vm_compute. Qed.

(** A failed [addGroup] leaves its replicas marked as read replicas. *)
Theorem failed_group_leaves_replica_mark :
  let t' := (addGroup (group_config "h" "a" ["c"] "a") demo_group_options demo_manager).2 in
  st_ok (addGroup (group_config "h" "a" ["c"] "a") demo_group_options demo_manager).1 = false /\
  (getDataSource (lit "c") t' ≫= fun i => so_readReplica <$> (tp_sources t' !! i)) = Some true /\
  (getDataSource (lit "c") demo_manager ≫= fun i => so_readReplica <$> (tp_sources demo_manager !! i)) = Some false.
Proof. cbv zeta. split_and!; by vm_compute. Qed.

(** The cursor settings of the configuration reach the leaves and not the groups. *)
Theorem groups_ignore_cursor_config :
  let cfg := mkGlobalConfig (lit "g") 5000 default_pool default_retry default_circuitBreaker
    default_observability default_rate_limit default_sql_audit default_query_cache
    (mkCursorConfig false 64 3 false) default_prepared_cache default_async false
    (gl_datasources demo_config) (gl_groups demo_config) in
  let t' := (init demo_times cfg 0 (new_manager demo_registry)).2 in
  let enabled n := getDataSource n t' ≫= fun i => so_cursorEnabled <$> (tp_sources t' !! i) in
  enabled (lit "a") = Some false /\ enabled (lit "g") = Some true.
Proof. cbv zeta. split; by vm_compute. Qed.
