(* ===== verification/Scripts.v ===== *)
(** * Scripts of statements (src/include/sqlconduit/util.h)

    [splitSqlScript] in its three passes, the removal of DELIMITER lines, and
    the runners of scripts and script files over an abstract client and file
    system. *)
From stdpp Require Import base list strings.
From Stdlib Require Import Ascii ZArith Lia.
From S2P Require Import Prelude Types SqlAnalyze.

(** ** First pass: literals and comments

    The mode of the scanner; [mask] marks every character that belongs to a
    literal or a comment, its delimiters included. *)
Inductive ScanMode := MPlain | MSingle | MDouble | MLine | MBlock.

Fixpoint mask (m : ScanMode) (s : str) : list bool :=
  match s with
  | [] => []
  | c :: t =>
      match m with
      | MLine => true :: mask (if ch c newline then MPlain else MLine) t
      | MBlock =>
          match t with
          | d :: t2 => if ch c "*" && ch d "/" then true :: true :: mask MPlain t2
                       else true :: mask MBlock t
          | [] => [true]
          end
      | MSingle =>
          if ch c squote then
            match t with
            | d :: t2 => if ch d squote then true :: true :: mask MSingle t2
                         else true :: mask MPlain t
            | [] => [true]
            end
          else true :: mask MSingle t
      | MDouble =>
          if ch c dquote then
            match t with
            | d :: t2 => if ch d dquote then true :: true :: mask MDouble t2
                         else true :: mask MPlain t
            | [] => [true]
            end
          else true :: mask MDouble t
      | MPlain =>
          match t with
          | d :: t2 =>
              if ch c "-" && ch d "-" then true :: true :: mask MLine t2
              else if ch c "#" then true :: mask MLine t
              else if ch c "/" && ch d "*" then true :: true :: mask MBlock t2
              else if ch c squote then true :: mask MSingle t
              else if ch c dquote then true :: mask MDouble t
              else false :: mask MPlain t
          | [] => [ch c "#" || ch c squote || ch c dquote]
          end
      end
  end.

(** ** Second pass: compound blocks *)
Inductive Blk := B_BEGIN | B_CASE | B_IF | B_LOOP | B_WHILE | B_REPEAT.

Definition opener (word : str) : option Blk :=
  if str_eqb word (lit "begin") then Some B_BEGIN
  else if str_eqb word (lit "case") then Some B_CASE
  else if str_eqb word (lit "if") then Some B_IF
  else if str_eqb word (lit "loop") then Some B_LOOP
  else if str_eqb word (lit "while") then Some B_WHILE
  else if str_eqb word (lit "repeat") then Some B_REPEAT
  else None.

(** [for (k = from; k <= j && k < n; ++k) prot[k] = 1] *)
Fixpoint protect (from j : nat) (prot : list bool) {struct prot} : list bool :=
  match prot with
  | [] => []
  | p :: ps =>
      match from, j with
      | O, O => true :: ps
      | O, S j' => true :: protect O j' ps
      | S f', S j' => p :: protect f' j' ps
      | S _, O => p :: ps
      end
  end.

Definition word_at (sql : str) (i : nat) : str := take_while is_ident (drop i sql).

Fixpoint blocks_loop (fuel : nat) (sql : str) (prot : list bool) (stack : list (Blk * nat))
    (i : nat) : list bool :=
  match fuel with
  | O => prot
  | S f =>
      if length sql <=? i then prot
      else if default false (prot !! i) then blocks_loop f sql prot stack (S i)
      else
        let word := word_at sql i in
        let j := i + length word in
        if j =? i then blocks_loop f sql prot stack (S i)
        else
          match opener (map tolower word) with
          | Some b => blocks_loop f sql prot ((b, j) :: stack) j
          | None =>
              if str_eqb (map tolower word) (lit "end") then
                match stack with
                | (_, from) :: rest => blocks_loop f sql (protect from j prot) rest j
                | [] => blocks_loop f sql prot stack j
                end
              else blocks_loop f sql prot stack j
          end
  end.

Definition protection (sql : str) : list bool :=
  blocks_loop (length sql) sql (mask MPlain sql) [] 0.

(** ** Third pass: cutting *)
Definition trimmed (s : str) : str := rev (skip_while isspace (rev (skip_while isspace s))).

Definition fragment (s : str) : list str :=
  let t := trimmed s in if is_nil t then [] else [t].

Fixpoint cut (s : str) (prot : list bool) (current : str) : list str :=
  match s, prot with
  | c :: t, p :: ps =>
      if ch c ";" && negb p then fragment current ++ cut t ps []
      else cut t ps (current ++ [c])
  | _, _ => fragment current
  end.

Definition splitSqlScript (sql : str) : list str := cut sql (protection sql) [].

(** ** [stripDelimiterDirectives] *)
Fixpoint lines (s : str) (current : str) : list str :=
  match s with
  | [] => if is_nil current then [] else [current]
  | c :: t => if ch c newline then (current ++ [c]) :: lines t []
              else lines t (current ++ [c])
  end.

Definition startsWithFold (s kw : str) : bool := prefixb (map tolower kw) (map tolower s).

Definition is_directive (line : str) : bool :=
  let s := skip_while isspace line in
  startsWithFold s (lit "DELIMITER")
  && match drop 9 s with c :: _ => isspace c | [] => true end.

Definition stripDelimiterDirectives (sql : str) : nat * str :=
  let removed := length (List.filter is_directive (lines sql [])) in
  (removed,
   if 0 <? removed then concat (List.filter (fun l => negb (is_directive l)) (lines sql []))
   else sql).

(** ** Running scripts

    [runDdl] is [detail::runDdl] with its client and options, [readSqlFile] the
    file system. *)
Section Run.
Context {S : Type} (runDdl : str -> ST S Status) (readSqlFile : str -> option str).
Local Open Scope st_scope.

Fixpoint run_statements (stopOnError : bool) (stmts : list str) (done : nat) (lastErr : Status)
    : ST S (Status * nat) :=
  match stmts with
  | [] => ret (lastErr, done)
  | s :: rest =>
      st <-- runDdl s;
      if negb (st_ok st) then
        if stopOnError then ret (st, done) else run_statements stopOnError rest done st
      else run_statements stopOnError rest (done + 1) lastErr
  end.

Definition runScriptText (stopOnError : bool) (sql : str) : ST S (Status * nat) :=
  run_statements stopOnError (splitSqlScript sql) 0 StatusOK.

Record ScriptResult := mkScriptResult {
  sc_path : str;
  sc_status : Status;
  sc_statements : nat;
  sc_executed : nat;
}.

Definition cannot_read (f : str) : Status :=
  status_error IoError (lit "sqlconduit::util: cannot read file: " ++ f).

Definition run_file (stopOnError : bool) (f : str) : ST S ScriptResult :=
  match readSqlFile f with
  | None => ret (mkScriptResult f (cannot_read f) 0 0)
  | Some content =>
      r <-- runScriptText stopOnError content;
      ret (mkScriptResult f r.1 (length (splitSqlScript content)) r.2)
  end.

Fixpoint run_files (stopOnError : bool) (files : list str) (anyFail : bool) (lastErr : Status)
    (perFile : list ScriptResult) : ST S (Status * list ScriptResult) :=
  match files with
  | [] => ret (if anyFail then lastErr else StatusOK, perFile)
  | f :: rest =>
      r <-- run_file stopOnError f;
      if negb (st_ok (sc_status r)) then
        if stopOnError then ret (sc_status r, perFile ++ [r])
        else run_files stopOnError rest true (sc_status r) (perFile ++ [r])
      else run_files stopOnError rest anyFail lastErr (perFile ++ [r])
  end.

Definition runScripts (stopOnError : bool) (files : list str) : ST S (Status * list ScriptResult) :=
  run_files stopOnError files false StatusOK [].
End Run.

(** [endsWith], and the files [runScriptsInDir] runs: [walk] is the directory
    iterator ([None] when it failed), [sort] is [std::sort]. *)
Definition endsWith (s suffix : str) : bool := prefixb (rev suffix) (rev s).

Definition runScriptsInDir {S} (runDdl : str -> ST S Status) (readSqlFile : str -> option str)
    (exists_dir : bool) (walk : option (list str)) (sort : list str -> list str)
    (stopOnError : bool) (dir extension walk_error : str) : ST S (Status * list ScriptResult) :=
  if negb exists_dir then
    ret (status_error IoError (lit "sqlconduit::util: directory not found: " ++ dir), [])
  else
    match walk with
    | None => ret (status_error IoError
                     (lit "sqlconduit::util: failed to walk directory " ++ dir ++ lit ": "
                      ++ walk_error), [])
    | Some paths =>
        let ext := if is_nil extension then lit ".sql" else extension in
        runScripts runDdl readSqlFile stopOnError
          (sort (List.filter (fun p => endsWith p ext) paths))
    end.

(** ** What a split is *)

(** The pieces between unprotected semicolons, blank ones included. *)
Fixpoint pieces (s : str) (prot : list bool) (current : str) : list str :=
  match s, prot with
  | c :: t, p :: ps =>
      if ch c ";" && negb p then current :: pieces t ps [] else pieces t ps (current ++ [c])
  | _, _ => [current]
  end.

Lemma cut_pieces s prot cur : cut s prot cur = concat (map fragment (pieces s prot cur)).
Proof.
  revert prot cur. induction s as [|c t IH]; intros prot cur; simpl; [by rewrite app_nil_r|].
  destruct prot as [|p ps]; simpl; [by rewrite app_nil_r|].
  destruct (ch c ";" && negb p); simpl; by rewrite IH.
Qed.

Lemma pieces_cons s prot cur : exists x l, pieces s prot cur = x :: l.
Proof.
  revert prot cur. induction s as [|c t IH]; intros prot cur; simpl; [eauto|].
  destruct prot as [|p ps]; simpl; [eauto|]. destruct (_ && _); eauto.
Qed.

Lemma join_pieces s prot cur : length prot = length s ->
  join (lit ";") (pieces s prot cur) = cur ++ s.
Proof.
  revert prot cur. induction s as [|c t IH]; intros prot cur Hl; simpl; [by rewrite app_nil_r|].
  destruct prot as [|p ps]; [done|]. injection Hl as Hl. simpl.
  destruct (ch c ";" && negb p) eqn:E.
  - apply andb_true_iff in E as [E _]. apply ch_eq in E as ->.
    specialize (IH ps [] Hl). destruct (pieces_cons t ps []) as (x & l & Hx).
    rewrite Hx in *. transitivity (cur ++ lit ";" ++ join (lit ";") (x :: l)); [done|].
    by rewrite IH.
  - rewrite IH by done. by rewrite <- app_assoc.
Qed.

Lemma mask_length m s : length (mask m s) = length s.
Proof.
  revert m. induction s as [s IH] using (induction_ltof1 _ (@length ascii)).
  unfold ltof in IH. intros m. destruct s as [|c t]; [done|].
  assert (forall m', length (mask m' t) = length t) as H1 by (intros m'; apply IH; simpl; lia).
  assert (forall m' d t2, t = d :: t2 -> length (mask m' t2) = length t2) as H2
    by (intros m' d t2 ->; apply IH; simpl; lia).
  destruct m; cbn [mask]; destruct t as [|d t2]; repeat case_match;
    cbn [length]; rewrite ?H1, ?(H2 _ d t2); done.
Qed.

Lemma protect_length i j prot : length (protect i j prot) = length prot.
Proof.
  revert i j. induction prot as [|p ps IH]; intros i j; [done|].
  destruct i, j; simpl; auto.
Qed.

Lemma protect_keeps i j prot k : prot !! k = Some true -> protect i j prot !! k = Some true.
Proof.
  revert i j k. induction prot as [|p ps IH]; intros i j k; [done|].
  destruct i, j, k; simpl; auto.
Qed.

Lemma blocks_loop_inv fuel sql prot stack i :
  length (blocks_loop fuel sql prot stack i) = length prot
  /\ forall k, prot !! k = Some true -> blocks_loop fuel sql prot stack i !! k = Some true.
Proof.
  revert prot stack i. induction fuel as [|fuel IH]; intros prot stack i; [done|].
  cbn [blocks_loop]. repeat case_match; try done; try apply IH.
  match goal with |- context [blocks_loop _ _ (protect ?a ?b _) ?l ?c] =>
    destruct (IH (protect a b prot) l c) as [Hlen Hkeep] end.
  rewrite Hlen, protect_length. split; [done|]. intros k Hk. by apply Hkeep, protect_keeps.
Qed.

(** nothing of a script is lost: joined with semicolons, the pieces give the
    script back, and the statements are the pieces without their surrounding
    white space, blank ones dropped, in their order; and whatever the compound
    blocks do, a character of a literal or a comment is never a place where the
    script is cut. *)
Theorem split_lossless sql :
  let ps := pieces sql (protection sql) [] in
  join (lit ";") ps = sql /\ splitSqlScript sql = concat (map fragment ps)
  /\ forall k, mask MPlain sql !! k = Some true -> protection sql !! k = Some true.
Proof.
  destruct (blocks_loop_inv (length sql) sql (mask MPlain sql) [] 0) as [H1 H2].
  split; [|split; [apply cut_pieces | exact H2]].
  apply join_pieces. unfold protection. by rewrite H1, mask_length.
Qed.

(** ** Round trip

    A statement as a sequence of plain text, string literals, quoted names and
    comments of both kinds; a script as statements, each after some white space,
    with semicolons between them. *)
Inductive Segment :=
  | Plain (s : str)
  | Text (s : str)
  | Name (s : str)
  | Remark (s : str)
  | LineRemark (s : str).

Definition segment_text (x : Segment) : str :=
  match x with
  | Plain s => s
  | Text s => quoteText s
  | Name s => quoteIdentifier s
  | Remark s => lit "/*" ++ s ++ lit "*/"
  | LineRemark s => lit "--" ++ s ++ [newline]
  end.
Definition statement_text (l : list Segment) : str := concat (map segment_text l).
Definition script_text (l : list (str * list Segment)) : str :=
  join (lit ";") (map (fun '(ws, st) => ws ++ statement_text st) l).

(** What is marked of a script: its literals, quoted names and comments. *)
Definition segment_mask (x : Segment) : list bool :=
  match x with
  | Plain s => map (fun _ => false) s
  | x => map (fun _ => true) (segment_text x)
  end.
Definition statement_mask (l : list Segment) : list bool := concat (map segment_mask l).
Fixpoint script_mask (l : list (str * list Segment)) : list bool :=
  match l with
  | [] => []
  | (ws, st) :: rest =>
      map (fun _ => false) ws ++ statement_mask st
      ++ match rest with [] => [] | _ => false :: script_mask rest end
  end.

(** The character after a piece of a statement, a semicolon at the end. *)
Definition next_char (t : str) : ascii := match t with [] => ";"%char | d :: _ => d end.

Definition plain_char (c : ascii) : bool :=
  negb (ch c ";" || ch c squote || ch c dquote || ch c "#").
(** Plain text begins no literal and no comment, not even with what follows. *)
Fixpoint plain_text (s : str) (next : ascii) : bool :=
  match s with
  | [] => true
  | c :: t =>
      let d := match t with [] => next | d :: _ => d end in
      plain_char c && negb (ch c "-" && ch d "-") && negb (ch c "/" && ch d "*") && plain_text t next
  end.
Fixpoint closes (s : str) : bool :=
  match s with [] => false | c :: t => ch c "*" && head_is "/" t || closes t end.

(** A segment before [next]: two literals in a row are one. *)
Definition segment_ok (x : Segment) (next : ascii) : bool :=
  match x with
  | Plain s => plain_text s next
  | Text _ => negb (ch next squote)
  | Name _ => negb (ch next dquote)
  | Remark s => negb (closes s)
  | LineRemark s => negb (existsb (fun c => ch c newline) s)
  end.
Fixpoint segments_ok (l : list Segment) : bool :=
  match l with
  | [] => true
  | x :: l' => segment_ok x (next_char (statement_text l')) && segments_ok l'
  end.
Definition statement_ok (l : list Segment) : bool :=
  segments_ok l && nonempty (statement_text l)
  && negb (head_sat isspace (statement_text l))
  && negb (head_sat isspace (rev (statement_text l))).
Definition entry_ok (e : str * list Segment) : bool :=
  forallb isspace e.1 && statement_ok e.2.

(** The word END stands at [i], outside what [m] marks. *)
Definition end_at (sql : str) (m : list bool) (i : nat) : bool :=
  let marked k := default true (m !! k) in
  negb (marked i)
  && match i with
     | O => true
     | S k => marked k || negb (head_sat is_ident (drop k sql))
     end
  && str_eqb (map tolower (word_at sql i)) (lit "end").
Definition mentions_end (sql : str) (m : list bool) : bool :=
  existsb (end_at sql m) (seq 0 (length sql)).

(** *** The mask of a script *)
Lemma next_char_app s t : next_char t = ";"%char -> next_char (s ++ t) = next_char s.
Proof. by destruct s. Qed.

Lemma mask_plain s t : plain_text s (next_char t) = true ->
  mask MPlain (s ++ t) = map (fun _ => false) s ++ mask MPlain t.
Proof.
  induction s as [|c s IH]; intros H; [done|]. cbn [plain_text] in H.
  rewrite !andb_true_iff, !negb_true_iff in H. destruct H as (((Hc & H1) & H2) & H3).
  unfold plain_char in Hc. rewrite negb_true_iff, !orb_false_iff in Hc.
  destruct Hc as (((_ & Q1) & Q2) & Q3). rewrite <- app_comm_cons. cbn [map]. rewrite <- app_comm_cons, <- IH by done.
  destruct (s ++ t) as [|d u] eqn:E; cbn [mask]; rewrite ?Q1, ?Q2, ?Q3; [done|].
  assert (d = match s with [] => next_char t | d :: _ => d end) as ->.
  { destruct s; cbn in E; [by subst t | by injection E]. }
  by rewrite H1, H2.
Qed.

Lemma mask_text s t : ch (next_char t) squote = false ->
  mask MPlain (quoteText s ++ t) = map (fun _ => true) (quoteText s) ++ mask MPlain t.
Proof.
  intros Ht. rewrite quoteText_app. transitivity (true :: mask MSingle (double_char squote s ++ squote :: t)).
  { by destruct (double_char squote s ++ squote :: t). }
  unfold quoteText. cbn [map app]. f_equal. induction s as [|c s IH].
  - cbn. destruct t as [|d t]; [done|]. cbn in Ht. by rewrite Ht.
  - rewrite double_char_cons. destruct (Ascii.eqb c squote) eqn:Hc; cbn [app mask map].
    + replace (ch squote squote) with true by done. by rewrite IH.
    + change (Ascii.eqb c squote) with (ch c squote) in Hc. rewrite Hc. by rewrite IH.
Qed.

Lemma mask_name s t : ch (next_char t) dquote = false ->
  mask MPlain (quoteIdentifier s ++ t) = map (fun _ => true) (quoteIdentifier s) ++ mask MPlain t.
Proof.
  intros Ht. unfold quoteIdentifier. rewrite <- app_comm_cons, <- app_assoc. cbn [app].
  transitivity (true :: mask MDouble (double_char dquote s ++ dquote :: t)).
  { by destruct (double_char dquote s ++ dquote :: t). }
  cbn [map app]. f_equal. induction s as [|c s IH].
  - cbn. destruct t as [|d t]; [done|]. cbn in Ht. by rewrite Ht.
  - rewrite double_char_cons. destruct (Ascii.eqb c dquote) eqn:Hc; cbn [app mask map].
    + replace (ch dquote dquote) with true by done. by rewrite IH.
    + change (Ascii.eqb c dquote) with (ch c dquote) in Hc. rewrite Hc. by rewrite IH.
Qed.

Lemma mask_remark s t : closes s = false ->
  mask MPlain (lit "/*" ++ s ++ lit "*/" ++ t)
  = map (fun _ => true) (lit "/*" ++ s ++ lit "*/") ++ mask MPlain t.
Proof.
  intros H. transitivity (true :: true :: mask MBlock (s ++ lit "*/" ++ t)); [done|].
  transitivity (true :: true :: map (fun _ => true) (s ++ lit "*/") ++ mask MPlain t); [|done]. do 2 f_equal.
  induction s as [|c s IH]; [done|]. cbn [closes] in H. apply orb_false_iff in H as [H1 H2].
  cbn [app map]. rewrite <- IH by done.
  assert (ch c "*" && head_is "/" (s ++ lit "*/" ++ t) = false) as H3 by by destruct s.
  destruct (s ++ lit "*/" ++ t) as [|d u] eqn:E; [by destruct s|]. cbn [mask]. cbn [head_is head_sat] in H3.
  by rewrite H3.
Qed.

Lemma mask_line s t : existsb (fun c => ch c newline) s = false ->
  mask MPlain (lit "--" ++ s ++ [newline] ++ t)
  = map (fun _ => true) (lit "--" ++ s ++ [newline]) ++ mask MPlain t.
Proof.
  intros H. transitivity (true :: true :: mask MLine (s ++ [newline] ++ t)); [done|].
  transitivity (true :: true :: map (fun _ => true) (s ++ [newline]) ++ mask MPlain t); [|done]. do 2 f_equal.
  induction s as [|c s IH]; [done|]. cbn [existsb] in H. apply orb_false_iff in H as [H1 H2].
  cbn [app map mask]. rewrite H1. f_equal. by apply IH.
Qed.

Lemma mask_segment x t : segment_ok x (next_char t) = true ->
  mask MPlain (segment_text x ++ t) = segment_mask x ++ mask MPlain t.
Proof.
  destruct x as [s|s|s|s|s]; cbn [segment_ok segment_mask segment_text]; intros H;
    try apply negb_true_iff in H.
  - by apply mask_plain.
  - by apply mask_text.
  - by apply mask_name.
  - rewrite <- !app_assoc. by apply mask_remark.
  - rewrite <- !app_assoc. by apply mask_line.
Qed.

Lemma mask_segments l t : segments_ok l = true -> next_char t = ";"%char ->
  mask MPlain (statement_text l ++ t) = statement_mask l ++ mask MPlain t.
Proof.
  intros H Ht. induction l as [|x l IH]; [done|]. cbn [segments_ok] in H. apply andb_true_iff in H as [Hx Hl].
  unfold statement_text, statement_mask. cbn [map concat]. rewrite <- !app_assoc.
  fold (statement_text l) (statement_mask l). rewrite mask_segment by by rewrite next_char_app.
  by rewrite IH.
Qed.

Lemma space_plain ws next : forallb isspace ws = true -> plain_text ws next = true.
Proof.
  assert (forall c, isspace c = true -> plain_char c && negb (ch c "-") && negb (ch c "/") = true) as Hs
    by (intros c; all_chars c).
  induction ws as [|c ws IH]; intros H; [done|]. cbn [forallb] in H. apply andb_true_iff in H as [Hc H].
  specialize (Hs c Hc). rewrite !andb_true_iff, !negb_true_iff in Hs. destruct Hs as ((H1 & H2) & H3).
  cbn [plain_text]. by rewrite H1, H2, H3, IH.
Qed.

Lemma entry_segments ws st : entry_ok (ws, st) = true -> segments_ok (Plain ws :: st) = true.
Proof.
  unfold entry_ok, statement_ok. cbn [fst snd]. rewrite !andb_true_iff.
  intros (Hws & ((Hst & _) & _) & _). cbn [segments_ok segment_ok]. by rewrite Hst, space_plain.
Qed.

Lemma script_text_more ws st e l :
  script_text ((ws, st) :: e :: l) = statement_text (Plain ws :: st) ++ lit ";" ++ script_text (e :: l).
Proof. destruct e. unfold script_text. cbn [map join]. unfold statement_text. cbn [map concat segment_text]. by rewrite <- app_assoc. Qed.
Lemma script_mask_more ws st e l :
  script_mask ((ws, st) :: e :: l) = statement_mask (Plain ws :: st) ++ false :: script_mask (e :: l).
Proof. cbn [script_mask]. unfold statement_mask. cbn [map concat segment_mask]. by rewrite <- app_assoc. Qed.

Lemma mask_script l : forallb entry_ok l = true -> mask MPlain (script_text l) = script_mask l.
Proof.
  induction l as [|[ws st] l IH]; [done|]. cbn [forallb]. intros H.
  apply andb_true_iff in H as [He Hl]. pose proof (entry_segments _ _ He) as Hs.
  destruct l as [|e l].
  - pose proof (mask_segments _ [] Hs eq_refl) as Hm. rewrite !app_nil_r in Hm. cbn [script_mask]. rewrite app_nil_r. exact Hm.
  - rewrite script_text_more, script_mask_more, mask_segments by done. f_equal. rewrite <- IH by done.
    cbn [lit String.list_ascii_of_string app mask]. by destruct (script_text (e :: l)).
Qed.

(** Without the word END no block is closed, and the mask is the protection. *)
Lemma protection_without_end sql : mentions_end sql (mask MPlain sql) = false ->
  protection sql = mask MPlain sql.
Proof.
  intros H. pose proof (mask_length MPlain sql) as Hlen. unfold protection.
  revert H Hlen. generalize (mask MPlain sql) as m. intros m H Hlen.
  set (starts i := match i with O => true
                   | S k => default true (m !! k) || negb (head_sat is_ident (drop k sql)) end).
  assert (forall i, default false (m !! i) = false -> i < length sql -> starts i = true ->
            str_eqb (map tolower (word_at sql i)) (lit "end") = false) as Hno.
  { intros i Hm Hi Hs. unfold mentions_end in H. destruct (str_eqb _ _) eqn:E; [|done]. exfalso.
    assert (existsb (end_at sql m) (seq 0 (length sql)) = true); [|congruence].
    apply existsb_exists. exists i. split; [apply in_seq; lia|]. unfold end_at.
    fold (starts i). rewrite Hs, E. destruct (lookup_lt_is_Some_2 m i ltac:(lia)) as [b Hb].
    rewrite Hb in *. cbn in *. by subst b. }
  assert (forall i, word_at sql i = [] -> starts (S i) = true) as Hnext.
  { intros i E. cbn. unfold word_at in E. destruct (drop i sql) as [|c u]; [apply orb_true_r|].
    cbn in *. destruct (is_ident c); [done|]. apply orb_true_r. }
  assert (forall i, word_at sql (i + length (word_at sql i)) = []) as Hafter.
  { intros i. unfold word_at at 1. rewrite <- drop_drop. unfold word_at.
    rewrite <- (take_skip_while is_ident (drop i sql)) at 2. rewrite drop_app_length.
    destruct (skip_while is_ident (drop i sql)) as [|c u] eqn:E; [done|].
    apply skip_while_head in E. cbn. by rewrite E. }
  assert (Hgo : forall fuel i stack, starts i = true \/ word_at sql i = [] ->
            blocks_loop fuel sql m stack i = m).
  { induction fuel as [|fuel IH]; intros i stack Hi; [done|]. cbn [blocks_loop].
    destruct (length sql <=? i) eqn:El; [done|]. apply Nat.leb_gt in El.
    destruct (default false (m !! i)) eqn:Em.
    { apply IH. left. cbn. destruct (m !! i); cbn in *; [by subst | done]. }
    destruct (i + length (word_at sql i) =? i) eqn:Ej.
    { apply IH. left. apply Hnext. apply Nat.eqb_eq in Ej. destruct (word_at sql i); [done | cbn in Ej; lia]. }
    destruct (opener _); [apply IH; by right|].
    destruct Hi as [Hi|Hi]; [|rewrite Hi in Ej; cbn in Ej; rewrite Nat.add_0_r, Nat.eqb_refl in Ej; done].
    rewrite Hno by done. apply IH. by right. }
  apply Hgo. by left.
Qed.

(** Cutting along a mask, piece by piece. *)
Lemma cut_unmasked s p t ps cur :
  length p = length s -> Forall2 (fun c b => ch c ";" && negb b = false) s p ->
  cut (s ++ t) (p ++ ps) cur = cut t ps (cur ++ s).
Proof.
  intros Hl H. revert cur. induction H as [|c b s p Hc H IH]; intros cur; cbn [app].
  - by rewrite app_nil_r.
  - cbn [cut]. rewrite Hc, IH by (injection Hl; done). by rewrite <- app_assoc.
Qed.

Lemma plain_text_chars s next : plain_text s next = true -> Forall (fun c => plain_char c = true) s.
Proof.
  induction s as [|c s IH]; intros H; [constructor|]. cbn [plain_text] in H. rewrite !andb_true_iff in H.
  destruct H as (((Hc & _) & _) & H). constructor; [done | by apply IH].
Qed.

Lemma statement_mask_ok l : segments_ok l = true ->
  length (statement_mask l) = length (statement_text l)
  /\ Forall2 (fun c b => ch c ";" && negb b = false) (statement_text l) (statement_mask l).
Proof.
  intros H. assert (Forall2 (fun c b => ch c ";" && negb b = false)
                     (statement_text l) (statement_mask l)) as HF.
  { induction l as [|x l IH]; [constructor|]. cbn [segments_ok] in H. apply andb_true_iff in H as [Hx Hl].
    unfold statement_text, statement_mask. cbn [map concat]. apply Forall2_app; [|by apply IH].
    assert (forall s, Forall2 (fun c b => ch c ";" && negb b = false) s (map (fun _ => true) s)) as Hm.
    { intros s. apply Forall2_fmap_r, Forall_Forall2_diag, Forall_forall. intros c _.
      cbn. by rewrite andb_false_r. }
    destruct x as [s|s|s|s|s]; [|apply Hm..]. cbn [segment_text segment_mask].
    apply Forall2_fmap_r, Forall_Forall2_diag. eapply Forall_impl; [by eapply plain_text_chars|].
    intros c Hc. unfold plain_char in Hc. rewrite negb_true_iff, !orb_false_iff in Hc.
    by destruct Hc as (((-> & _) & _) & _). }
  split; [|done]. symmetry. by eapply Forall2_length.
Qed.

Lemma skip_spaces ws s : forallb isspace ws = true -> head_sat isspace s = false ->
  skip_while isspace (ws ++ s) = s.
Proof.
  intros Hws Hs. induction ws as [|c ws IH]; cbn [app].
  - destruct s as [|c s]; [done|]. cbn in *. by rewrite Hs.
  - cbn in Hws. apply andb_true_iff in Hws as [Hc Hws]. cbn. by rewrite Hc, IH.
Qed.

Lemma fragment_entry ws st : entry_ok (ws, st) = true ->
  fragment (ws ++ statement_text st) = [statement_text st].
Proof.
  unfold entry_ok, statement_ok. cbn [fst snd]. rewrite !andb_true_iff, !negb_true_iff.
  intros (Hws & ((_ & Hne) & Hh) & Hl). unfold fragment, trimmed.
  pose proof (skip_spaces [] (rev (statement_text st)) eq_refl Hl) as E. cbn [app] in E.
  rewrite (skip_spaces ws) by done. rewrite E, rev_involutive. by destruct (statement_text st).
Qed.

Lemma cut_script l : forallb entry_ok l = true ->
  cut (script_text l) (script_mask l) [] = map (fun e => statement_text e.2) l.
Proof.
  induction l as [|[ws st] l IH]; [done|]. cbn [forallb]. intros H.
  apply andb_true_iff in H as [He Hl]. pose proof (entry_segments _ _ He) as Hs.
  destruct (statement_mask_ok _ Hs) as [Hlen HF].
  change (statement_text (Plain ws :: st)) with (ws ++ statement_text st) in *.
  change (statement_mask (Plain ws :: st)) with (map (fun _ => false) ws ++ statement_mask st) in *.
  destruct l as [|e l].
  - pose proof (cut_unmasked _ _ [] [] [] Hlen HF) as Hc. rewrite !app_nil_r in Hc.
    unfold script_text. cbn [map join script_mask]. rewrite app_nil_r. etransitivity; [exact Hc|]. by apply fragment_entry.
  - rewrite script_text_more, script_mask_more.
    change (statement_text (Plain ws :: st)) with (ws ++ statement_text st).
    rewrite cut_unmasked by done. cbn [app lit String.list_ascii_of_string cut].
    change (ch ";" ";" && negb false) with true. cbn [app]. rewrite fragment_entry, IH by done. done.
Qed.

(** C28: splitting gives a script's statements back: for statements made of plain
    text, string literals, quoted names and comments of both kinds (whose text may
    hold semicolons, quotes, keywords and markers of the other kinds), separated by
    semicolons and any white space, the result is exactly the list of statements,
    provided the word END does not stand in the plain text. With that word the pass
    over compound blocks may join or cut statements ([split_compound_blocks]). *)
Theorem split_script_roundtrip l (Hl : forallb entry_ok l = true)
  (He : mentions_end (script_text l) (script_mask l) = false) :
  splitSqlScript (script_text l) = map (fun e => statement_text e.2) l.
Proof.
  unfold splitSqlScript. rewrite <- mask_script in He by done.
  rewrite protection_without_end, mask_script by done. by apply cut_script.
Qed.

Lemma split_script_roundtrip_witness :
  let l := [([], [Plain (lit "INSERT INTO "); Name (lit "a;b"); Plain (lit " VALUES ("); Text (lit "the end;'b' -- c");
                  Plain (lit ", endless-1)")]);
            (lit "  ", [Remark (lit "end; it's"); Plain (lit " SELECT 2 "); LineRemark (lit "end;");
                        Plain (lit "FROM t")])] in
  splitSqlScript (script_text l) = map (fun e => statement_text e.2) l.
Proof. apply split_script_roundtrip; reflexivity. Defined.

(** what the pass over compound blocks gets wrong. The character after END
    is protected with the block, so that the semicolon that ends a procedure (or
    a CASE expression) does not separate it from the next statement; and the IF
    of END IF opens a block of its own, so that the END of the procedure closes
    that one and the semicolons before the first IF of the body cut the
    procedure in two. A backslash in a literal does not escape its quote. *)
Theorem split_compound_blocks :
  splitSqlScript (lit "CREATE PROCEDURE p() BEGIN SELECT 1; END; SELECT 2")
    = [lit "CREATE PROCEDURE p() BEGIN SELECT 1; END; SELECT 2"]
  /\ splitSqlScript (lit "CREATE PROCEDURE p() BEGIN a; IF x THEN b; END IF; c; END")
    = [lit "CREATE PROCEDURE p() BEGIN a"; lit "IF x THEN b; END IF; c; END"]
  /\ splitSqlScript (lit "SELECT 'it\'s'; DELETE FROM t; SELECT 'x'")
    = [lit "SELECT 'it\'s'; DELETE FROM t; SELECT 'x'"].
Proof. repeat split; vm_compute; reflexivity. Qed.

(** ** The DELIMITER lines *)
Definition no_newline (s : str) : bool := forallb (fun c => negb (ch c newline)) s.

(** Lines end at their only newline; only the last one may lack it. *)
Fixpoint lines_ok (ls : list str) : Prop :=
  match ls with
  | [] => True
  | l :: rest =>
      (exists x, l = x ++ [newline] /\ no_newline x = true)
        \/ (rest = [] /\ l <> [] /\ no_newline l = true)
      /\ True
  end /\ match ls with [] => True | _ :: rest => lines_ok rest end.

Lemma lines_wf s cur : no_newline cur = true -> lines_ok (lines s cur).
Proof.
  revert cur. induction s as [|c s IH]; intros cur Hc; cbn [lines].
  - destruct cur as [|d cur]; cbn; [done|]. split; [right; split; [done|] | done]. done.
  - destruct (ch c newline) eqn:E.
    + apply ch_eq in E as ->. cbn. split; [left; eauto | by apply IH].
    + apply IH. unfold no_newline. rewrite forallb_app. cbn. rewrite E.
      unfold no_newline in Hc. by rewrite Hc.
Qed.

Lemma lines_line x t cur : no_newline x = true ->
  lines (x ++ newline :: t) cur = (cur ++ x ++ [newline]) :: lines t [].
Proof.
  revert cur. induction x as [|c x IH]; intros cur Hx; cbn [app lines].
  - done.
  - unfold no_newline in Hx. cbn in Hx. apply andb_true_iff in Hx as [Hc Hx].
    apply negb_true_iff in Hc. rewrite Hc, IH by done. by rewrite <- !app_assoc.
Qed.

Lemma lines_last x cur : no_newline x = true -> cur ++ x <> [] -> lines x cur = [cur ++ x].
Proof.
  revert cur. induction x as [|c x IH]; intros cur Hx Hne; cbn [lines].
  - rewrite app_nil_r in *. by destruct cur.
  - unfold no_newline in Hx. cbn in Hx. apply andb_true_iff in Hx as [Hc Hx].
    apply negb_true_iff in Hc. rewrite Hc, IH by (done || by destruct cur).
    by rewrite <- app_assoc.
Qed.

Lemma lines_concat ls : lines_ok ls -> lines (concat ls) [] = ls.
Proof.
  induction ls as [|l ls IH]; intros H; [done|]. destruct H as [H Hls]. cbn [concat].
  destruct H as [(x & -> & Hx)|[(-> & Hne & Hl) _]].
  - rewrite <- app_assoc. cbn [app]. rewrite lines_line by done. by rewrite IH.
  - cbn [concat]. rewrite app_nil_r. by apply lines_last.
Qed.

Lemma concat_lines s cur : concat (lines s cur) = cur ++ s.
Proof.
  revert cur. induction s as [|c s IH]; intros cur; cbn [lines].
  - by destruct cur; cbn; rewrite ?app_nil_r.
  - case_match; cbn [concat]; rewrite IH, <- ?app_assoc; done.
Qed.

Lemma filter_lines_ok f ls : lines_ok ls -> lines_ok (List.filter f ls).
Proof.
  induction ls as [|l ls IH]; intros H; [done|]. destruct H as [H Hls]. cbn [List.filter].
  case_match; [|by apply IH]. split; [|by apply IH].
  destruct H as [H|[(-> & H) _]]; [by left | right; by split].
Qed.

Lemma filter_none {A} (f : A -> bool) l :
  List.filter f (List.filter (fun x => negb (f x)) l) = [].
Proof.
  induction l as [|x l IH]; cbn; [done|]. destruct (f x) eqn:E; cbn; [done | by rewrite E].
Qed.

(** the removal of DELIMITER lines keeps every other line as it is and in
    its place, removes nothing else, counts what it removed, and has nothing left
    to do the second time. *)
Theorem strip_delimiter_spec sql :
  let '(removed, out) := stripDelimiterDirectives sql in
  lines out [] = List.filter (fun l => negb (is_directive l)) (lines sql [])
  /\ (removed + length (lines out []) = length (lines sql []))%nat
  /\ stripDelimiterDirectives out = (0, out).
Proof.
  unfold stripDelimiterDirectives at 1.
  set (kept := List.filter (fun l => negb (is_directive l)) (lines sql [])).
  set (gone := List.filter is_directive (lines sql [])).
  assert (lines (if 0 <? length gone then concat kept else sql) [] = kept) as Hk.
  { destruct (0 <? length gone) eqn:E.
    - apply lines_concat, filter_lines_ok, lines_wf. done.
    - apply Nat.ltb_ge in E. unfold kept. unfold gone in E.
      induction (lines sql []) as [|l ls IH]; [done|]. cbn in *.
      destruct (is_directive l); cbn in *; [lia|]. by rewrite <- IH. }
  split; [done | split].
  - rewrite Hk. unfold gone, kept. clear.
    induction (lines sql []) as [|l ls IH]; cbn; [done|]. destruct (is_directive l); cbn; lia.
  - unfold stripDelimiterDirectives. rewrite Hk.
    assert (List.filter is_directive kept = []) as -> by apply filter_none. done.
Qed.

(** ** Running *)
Section RunFacts.
Context {T : Type} (runDdl : str -> ST T Status).

(** The specification: statements one after the other, with their outcomes. *)
Fixpoint run_all (stmts : list str) (s : T) : list Status * T :=
  match stmts with
  | [] => ([], s)
  | x :: rest => let '(st, s1) := runDdl x s in let '(sts, s2) := run_all rest s1 in (st :: sts, s2)
  end.
Definition successes (sts : list Status) : nat := length (List.filter st_ok sts).
Definition last_failure (sts : list Status) (default : Status) : Status :=
  fold_left (fun e st => if st_ok st then e else st) sts default.

Lemma run_statements_all stmts done e s :
  run_statements runDdl false stmts done e s =
    let '(sts, s') := run_all stmts s in ((last_failure sts e, done + successes sts), s').
Proof.
  revert done e s. induction stmts as [|x stmts IH]; intros done e s;
    cbn [run_statements run_all]; [by rewrite Nat.add_0_r|].
  unfold bind. destruct (runDdl x s) as [st s1]. destruct (st_ok st) eqn:E; cbn [negb].
  - rewrite IH. destruct (run_all stmts s1) as [sts s2]. unfold last_failure, successes.
    cbn. rewrite E. cbn. by rewrite <- Nat.add_assoc.
  - rewrite IH. destruct (run_all stmts s1) as [sts s2]. unfold last_failure, successes.
    cbn. by rewrite E.
Qed.

Lemma run_statements_stop stmts done e s :
  exists k, k <= length stmts /\
    let '(sts, s') := run_all (take k stmts) s in
    let '((st, n), s2) := run_statements runDdl true stmts done e s in
    s2 = s' /\ n = done + successes sts
    /\ ((st = e /\ k = length stmts /\ forallb st_ok sts = true)
        \/ (st_ok st = false /\ exists sts', sts = sts' ++ [st] /\ forallb st_ok sts' = true)).
Proof.
  revert done e s. induction stmts as [|x stmts IH]; intros done e s.
  - exists 0. cbn. rewrite Nat.add_0_r. auto 10.
  - cbn [run_statements]. unfold bind. destruct (runDdl x s) as [st s1] eqn:Er.
    destruct (st_ok st) eqn:E; cbn [negb].
    + destruct (IH (done + 1) e s1) as (k & Hk & H). exists (S k).
      split; [simpl; lia|]. cbn [take run_all]. rewrite Er.
      destruct (run_all (take k stmts) s1) as [sts s'].
      destruct (run_statements _ _ stmts _ _ s1) as [[st2 n] s2].
      destruct H as (-> & -> & H). split; [done|]. unfold successes. cbn. rewrite E. cbn.
      split; [lia|]. destruct H as [(-> & -> & H)|(H & sts' & -> & H')]; [by left|].
      right. split; [done|]. exists (st :: sts'). cbn. by rewrite E.
    + exists 1. split; [simpl; lia|]. cbn [take run_all]. rewrite Er, take_0. cbn [run_all].
      assert (successes [st] = 0) as -> by (unfold successes; cbn; by rewrite E).
      split; [done | split; [lia|]]. right. split; [done|]. by exists [].
Qed.

(** running a script. Without [stopOnError] every statement is sent, in
    order; the status is the last failure, if any, and the count that of the
    successes. With it the statements up to the first failure are sent, nothing
    after it, and the status is that failure. *)
Theorem runScriptText_spec sql s :
  let stmts := splitSqlScript sql in
  (let '(sts, s') := run_all stmts s in
   runScriptText runDdl false sql s = ((last_failure sts StatusOK, successes sts), s'))
  /\ exists k, k <= length stmts /\
       let '(sts, s') := run_all (take k stmts) s in
       let '((st, n), s2) := runScriptText runDdl true sql s in
       s2 = s' /\ n = successes sts
       /\ ((st = StatusOK /\ k = length stmts /\ forallb st_ok sts = true)
           \/ (st_ok st = false /\ exists sts', sts = sts' ++ [st] /\ forallb st_ok sts' = true)).
Proof.
  intros stmts. split.
  - unfold runScriptText. rewrite run_statements_all. fold stmts. by destruct (run_all stmts s).
  - apply run_statements_stop.
Qed.

Lemma run_all_length stmts s : length (run_all stmts s).1 = length stmts.
Proof.
  revert s. induction stmts as [|x stmts IH]; intros s; cbn [run_all]; [done|].
  destruct (runDdl x s) as [st s1]. specialize (IH s1). destruct (run_all stmts s1). cbn in *.
  by rewrite IH.
Qed.

Lemma successes_all sts : forallb st_ok sts = true -> successes sts = length sts.
Proof.
  unfold successes. induction sts as [|st sts IH]; [done|]. cbn. intros H.
  apply andb_true_iff in H as [-> H]. cbn. by rewrite IH.
Qed.

Lemma last_failure_ok sts e : st_ok (last_failure sts e) = true -> st_ok e = true ->
  forallb st_ok sts = true.
Proof.
  unfold last_failure. revert e. induction sts as [|st sts IH]; intros e H He; [done|]. cbn in *.
  destruct (st_ok st) eqn:E; [by eapply IH|]. exfalso. clear IH He. revert st E H.
  induction sts as [|st' sts IH]; intros st E H; cbn in *; [congruence|].
  destruct (st_ok st') eqn:E'; [by apply (IH st) | by apply (IH st')].
Qed.

(** A script that reports success ran all of its statements. *)
Lemma runScriptText_complete stop sql s :
  let '((st, n), _) := runScriptText runDdl stop sql s in
  st_ok st = true -> n = length (splitSqlScript sql).
Proof.
  unfold runScriptText. destruct stop.
  - destruct (run_statements_stop (splitSqlScript sql) 0 StatusOK s) as (k & Hk & H).
    pose proof (run_all_length (take k (splitSqlScript sql)) s) as Hl.
    destruct (run_all (take k _) s) as [sts s'].
    destruct (run_statements _ true _ _ _ s) as [[st n] s2]. intros Hst. cbn in Hl.
    destruct H as (_ & -> & [(_ & -> & H)|(H & _)]); [|congruence].
    rewrite (successes_all _ H), Hl, length_take. lia.
  - rewrite run_statements_all. pose proof (run_all_length (splitSqlScript sql) s) as Hl.
    destruct (run_all _ s) as [sts s']. cbn in *. intros H.
    by rewrite (successes_all _ (last_failure_ok _ _ H eq_refl)).
Qed.

Context (readSqlFile : str -> option str).

Definition file_done (r : ScriptResult) : Prop :=
  st_ok (sc_status r) = true /\ sc_executed r = sc_statements r
  /\ readSqlFile (sc_path r) <> None.

Lemma run_file_spec stop f s :
  let '(r, _) := run_file runDdl readSqlFile stop f s in
  sc_path r = f /\ (st_ok (sc_status r) = true -> file_done r).
Proof.
  unfold run_file. destruct (readSqlFile f) as [content|] eqn:Ef; [|done].
  unfold bind. pose proof (runScriptText_complete stop content s) as H.
  destruct (runScriptText _ _ _ s) as [[st n] s']. cbn in *. split; [done|].
  intros Hst. unfold file_done. cbn. rewrite Ef. by rewrite (H Hst).
Qed.

Lemma run_files_spec stop files any e acc s :
  (any = true -> st_ok e = false) -> (any = false -> Forall file_done acc) ->
  let '((st, per), _) := run_files runDdl readSqlFile stop files any e acc s in
  (exists k, map sc_path per = map sc_path acc ++ take k files
             /\ (stop = false -> k = length files))
  /\ (st_ok st = true -> map sc_path per = map sc_path acc ++ files /\ Forall file_done per).
Proof.
  revert any e acc s. induction files as [|f files IH]; intros any e acc s He Hacc.
  - cbn. rewrite app_nil_r. split; [exists 0; by rewrite app_nil_r|].
    destruct any; [rewrite He by done; done | by auto].
  - cbn [run_files]. unfold bind. pose proof (run_file_spec stop f s) as Hr.
    destruct (run_file _ _ stop f s) as [r s1]. destruct Hr as [Hp Hd].
    destruct (st_ok (sc_status r)) eqn:E; cbn [negb].
    + specialize (IH any e (acc ++ [r]) s1 He).
      destruct (run_files _ _ _ files any e _ s1) as [[st per] s2].
      destruct IH as [(k & Hk & Hk') H2].
      { intros Ha. apply Forall_app. split; [by apply Hacc | by constructor; [apply Hd|]]. }
      rewrite map_app, <- app_assoc in Hk, H2. cbn in Hk, H2. rewrite Hp in Hk, H2. split.
      * exists (S k). split; [done|]. cbn. intros Hs. by rewrite Hk'.
      * done.
    + destruct stop.
      * cbn. split; [|congruence]. exists 1. rewrite map_app. cbn. by rewrite Hp, take_0.
      * specialize (IH true (sc_status r) (acc ++ [r]) s1).
        destruct (run_files _ _ _ files true _ _ s1) as [[st per] s2].
        destruct IH as [(k & Hk & Hk') H2]; [done | done |].
        rewrite map_app, <- app_assoc in Hk, H2. cbn in Hk, H2. rewrite Hp in Hk, H2. split.
        -- exists (S k). split; [done|]. cbn. intros Hs. by rewrite Hk'.
        -- done.
Qed.

(** running a list of script files. The results are those of a prefix of the
    files, in order, and of all of them without [stopOnError]; if the whole run
    reports success then every file was read and every statement of it executed
    successfully. *)
Theorem runScripts_spec stop files s :
  let '((st, per), _) := runScripts runDdl readSqlFile stop files s in
  (exists k, map sc_path per = take k files /\ (stop = false -> k = length files))
  /\ (st_ok st = true -> map sc_path per = files /\ Forall file_done per).
Proof. by apply (run_files_spec stop files false StatusOK [] s). Qed.
End RunFacts.
