(* ===== verification/Routines.v ===== *)
(** * Routines, indexes and their SQL (src/include/sqlconduit/util.h)

    The statements that create, drop and call routines and indexes in each
    dialect, the plan of a call with OUT parameters, the reading of their
    values, and the execution of all this over an abstract client and session. *)
From stdpp Require Import base list strings.
From Stdlib Require Import Ascii ZArith Lia.
From S2P Require Import Prelude Types SqlAnalyze Connection Context Scripts.

(** ** Data *)
Inductive RoutineKind := Function_ | Procedure.
Inductive Dialect := DAuto | DMySQL | DPostgres | DSqlServer | DOracle.
Inductive ParamDirection := PIn | POut | PInOut.
Inductive ValueType :=
  | VtAuto | VtBool | VtInt64 | VtUInt64 | VtDouble | VtDecimal | VtString | VtDate | VtTime
  | VtTimestamp | VtUuid | VtJson | VtBlob | VtIntervalYearMonth | VtIntervalDaySecond
  | VtTypedArray | VtTypedComposite | VtRefCursor.

#[export] Instance Dialect_eq_dec : EqDecision Dialect.
Proof. solve_decision. Defined.
#[export] Instance RoutineKind_eq_dec : EqDecision RoutineKind.
Proof. solve_decision. Defined.
#[export] Instance ParamDirection_eq_dec : EqDecision ParamDirection.
Proof. solve_decision. Defined.
#[export] Instance ValueType_eq_dec : EqDecision ValueType.
Proof. solve_decision. Defined.

Definition is_dialect (a b : Dialect) : bool := bool_decide (a = b).
Definition is_kind (a b : RoutineKind) : bool := bool_decide (a = b).

Record RoutineRef := mkRoutine { ro_name : str; ro_kind : RoutineKind; ro_dataSource : str }.

Record CallParam := mkCallParam {
  cp_value : Value;
  cp_direction : ParamDirection;
  cp_type : ValueType;
  cp_typeName : str;
  cp_maxBytes : nat;
}.
Definition is_in (p : CallParam) : bool := bool_decide (cp_direction p = PIn).
Definition is_inout (p : CallParam) : bool := bool_decide (cp_direction p = PInOut).

Record CallPlan := mkPlan {
  pl_preSql : str;
  pl_preParams : Params;
  pl_callSql : str;
  pl_callParams : Params;
  pl_fetchSql : str;
  pl_outColumns : list str;
  pl_outFromRowCount : nat;
  pl_needsSameConnection : bool;
}.

Definition hasOutParams (params : list CallParam) : bool := existsb (fun p => negb (is_in p)) params.
Definition outVarName (index : nat) : str := lit "sqlconduit_out_" ++ dec_nat index.

Definition unsupported (msg : str) : Status := status_error NotSupported msg.
Definition badSpec (msg : string) : Status := status_error QueryError (lit msg).

Definition dialectName (d : Dialect) : string :=
  match d with
  | DMySQL => "mysql"
  | DPostgres => "postgres"
  | DSqlServer => "sqlserver"
  | DOracle => "oracle"
  | DAuto => "auto"
  end.

Definition toLowerAscii (s : str) : str := map tolower s.

Definition dialectFromDriverType (driverType : str) : Dialect :=
  let t := toLowerAscii driverType in
  if str_contains (lit "mysql") t || str_contains (lit "maria") t then DMySQL
  else if str_contains (lit "postgres") t || str_contains (lit "pgsql") t || str_eqb t (lit "pg")
  then DPostgres
  else if str_contains (lit "oracle") t || str_eqb t (lit "ora") || str_eqb t (lit "oci")
  then DOracle
  else if str_contains (lit "odbc") t || str_contains (lit "sqlserver") t
          || str_contains (lit "mssql") t
  then DSqlServer
  else DAuto.

(** ** Names and argument lists *)
Definition ident_quote (d : Dialect) : ascii := if is_dialect d DMySQL then "`"%char else dquote.

Definition quote_part (q : ascii) (part : str) : str := q :: double_char q part ++ [q].

(** The lambda [flush]. *)
Definition flush_part (q : ascii) (out part : str) : str :=
  if is_nil part then out
  else (if is_nil out then out else out ++ ["."%char]) ++ quote_part q part.

Fixpoint quote_loop (q : ascii) (ident part out : str) : str :=
  match ident with
  | [] => flush_part q out part
  | c :: rest =>
      if ch c "." then quote_loop q rest [] (flush_part q out part)
      else quote_loop q rest (part ++ [c]) out
  end.
Definition quoteIdent (ident : str) (d : Dialect) : str := quote_loop (ident_quote d) ident [] [].

Definition quoteStringLiteral (value : str) : str := squote :: double_char squote value ++ [squote].

Definition csvArgs (n : nat) : str := join comma_sep (replicate n (lit "?")).
Definition parenArgs (n : nat) : str := lit "(" ++ csvArgs n ++ lit ")".

Definition no_dialect (dataSource : str) : Status :=
  unsupported (lit "sqlconduit::util: cannot detect dialect for datasource '" ++ dataSource
               ++ lit "'; pass Dialect explicitly").

(** The name of a SQL Server routine: unquoted, in [dbo] unless qualified. *)
Definition server_name (name : str) : str :=
  if existsb (fun c => ch c ".") name then name else lit "dbo." ++ name.

Definition server_call (kind : RoutineKind) (name : str) (n : nat) (returnsRows : bool) : str :=
  if is_kind kind Function_ then lit "SELECT " ++ server_name name ++ parenArgs n
  else if returnsRows then lit "{CALL " ++ server_name name ++ parenArgs n ++ lit "}"
  else lit "EXEC " ++ server_name name ++ (if n =? 0 then [] else lit " " ++ csvArgs n).

(** ** [makeCallSql] *)
Definition pg_procedure_rows : Status :=
  unsupported (lit "sqlconduit::util: postgres procedures cannot return a result set; use a function with makeCallSql").

Definition makeCallSql (ref : RoutineRef) (argCount : nat) (d : Dialect) (returnsRows : bool)
    : Status + str :=
  if is_nil (ro_name ref) then inl (badSpec "sqlconduit::util: routine name is empty")
  else
    let name := quoteIdent (ro_name ref) d in
    let args := parenArgs argCount in
    match d with
    | DAuto => inl (no_dialect (ro_dataSource ref))
    | DMySQL => inr (lit "CALL " ++ name ++ args)
    | DPostgres =>
        match ro_kind ref with
        | Function_ => inr (if returnsRows then lit "SELECT * FROM " ++ name ++ args
                            else lit "SELECT " ++ name ++ args)
        | Procedure => if returnsRows then inl pg_procedure_rows
                       else inr (lit "CALL " ++ name ++ args)
        end
    | DSqlServer => inr (server_call (ro_kind ref) (ro_name ref) argCount returnsRows)
    | DOracle =>
        match ro_kind ref with
        | Function_ => inr (if returnsRows
                            then lit "SELECT * FROM TABLE(" ++ name ++ args ++ lit ")"
                            else lit "SELECT " ++ name ++ args ++ lit " FROM DUAL")
        | Procedure =>
            if returnsRows
            then inl (unsupported (lit "sqlconduit::util: oracle procedures can only return rows through a REF CURSOR OUT parameter, which makeCallSql cannot bind"))
            else inr (lit "BEGIN " ++ name ++ args ++ lit "; END;")
        end
    end.

(** ** [makeCallPlan]

    What the loop over the parameters collects. *)
Record PlanParts := mkParts {
  pp_args : list str;
  pp_callParams : Params;
  pp_sets : list str;
  pp_preParams : Params;
  pp_outColumns : list str;
  pp_outFromRow : nat;
}.
Definition parts_empty : PlanParts := mkParts [] [] [] [] [] 0.

Definition plan_step (d : Dialect) (i : nat) (p : CallParam) (s : PlanParts) : PlanParts :=
  if is_in p then
    mkParts (pp_args s ++ [lit "?"]) (pp_callParams s ++ [cp_value p]) (pp_sets s)
      (pp_preParams s) (pp_outColumns s) (pp_outFromRow s)
  else if is_dialect d DPostgres then
    if is_inout p then
      mkParts (pp_args s ++ [lit "?"]) (pp_callParams s ++ [cp_value p]) (pp_sets s)
        (pp_preParams s) (pp_outColumns s) (S (pp_outFromRow s))
    else
      mkParts (pp_args s) (pp_callParams s) (pp_sets s) (pp_preParams s) (pp_outColumns s)
        (S (pp_outFromRow s))
  else
    let var := lit "@" ++ outVarName i in
    mkParts (pp_args s ++ [var]) (pp_callParams s)
      (if is_inout p then pp_sets s ++ [var ++ lit " = ?"] else pp_sets s)
      (if is_inout p then pp_preParams s ++ [cp_value p] else pp_preParams s)
      (pp_outColumns s ++ [outVarName i]) (pp_outFromRow s).

Fixpoint plan_loop (d : Dialect) (i : nat) (params : list CallParam) (s : PlanParts) : PlanParts :=
  match params with
  | [] => s
  | p :: rest => plan_loop d (S i) rest (plan_step d i p s)
  end.

(** The guards, in their order. *)
Definition plan_guard (ref : RoutineRef) (hasOut : bool) (d : Dialect) (returnsRows : bool)
    : option Status :=
  if is_nil (ro_name ref) then Some (badSpec "sqlconduit::util: routine name is empty")
  else
    match d with
    | DAuto => Some (no_dialect (ro_dataSource ref))
    | DSqlServer =>
        if hasOut
        then Some (unsupported (lit "sqlconduit::util: sqlserver OUT/INOUT parameters need DECLARE @var <type> before EXEC ... OUTPUT, and Client cannot infer the type; return the values as a result set instead"))
        else None
    | DOracle =>
        if hasOut
        then Some (unsupported (lit "sqlconduit::util: Oracle output binds are executed through Client::call()/util::call(), not represented by CallPlan"))
        else if is_kind (ro_kind ref) Procedure && returnsRows
        then Some (unsupported (lit "sqlconduit::util: Oracle procedure result sets require a REF CURSOR CallParam and Client::call()/util::call()"))
        else None
    | DPostgres =>
        match ro_kind ref with
        | Procedure =>
            if returnsRows then Some pg_procedure_rows
            else if hasOut
            then Some (unsupported (lit "sqlconduit::util: postgres procedures do not hand OUT/INOUT parameters back to the client; use a function with OUT parameters"))
            else None
        | Function_ =>
            if hasOut && negb returnsRows
            then Some (unsupported (lit "sqlconduit::util: postgres functions with OUT/INOUT parameters must be called with returnsRows=true (SELECT * FROM f(...))"))
            else None
        end
    | DMySQL => None
    end.

Definition fetch_sql (columns : list str) : str :=
  if is_nil columns then []
  else lit "SELECT " ++ join comma_sep (map (fun c => lit "@" ++ c ++ lit " AS " ++ c) columns).

Definition makeCallPlan (ref : RoutineRef) (params : list CallParam) (d : Dialect)
    (returnsRows : bool) : Status + CallPlan :=
  match plan_guard ref (hasOutParams params) d returnsRows with
  | Some st => inl st
  | None =>
      let name := quoteIdent (ro_name ref) d in
      let s := plan_loop d 0 params parts_empty in
      let n := length (pp_args s) in
      let plan preSql callSql fetchSql same :=
        mkPlan preSql (pp_preParams s) callSql (pp_callParams s) fetchSql (pp_outColumns s)
          (pp_outFromRow s) same in
      match d with
      | DMySQL =>
          inr (plan (if is_nil (pp_sets s) then [] else lit "SET " ++ join comma_sep (pp_sets s))
                 (lit "CALL " ++ name ++ lit "(" ++ join comma_sep (pp_args s) ++ lit ")")
                 (fetch_sql (pp_outColumns s)) (negb (is_nil (pp_outColumns s))))
      | DPostgres =>
          inr (plan [] (lit "SELECT * FROM " ++ name ++ lit "(" ++ join comma_sep (pp_args s)
                        ++ lit ")") [] false)
      | DSqlServer => inr (plan [] (server_call (ro_kind ref) (ro_name ref) n returnsRows) [] false)
      | DOracle =>
          inr (plan [] (if is_kind (ro_kind ref) Function_
                        then lit "SELECT " ++ name ++ parenArgs n ++ lit " FROM DUAL"
                        else lit "BEGIN " ++ name ++ parenArgs n ++ lit "; END;") [] false)
      | DAuto => inl (unsupported (lit "sqlconduit::util: unknown dialect"))
      end
  end.

(** ** Reading OUT values

    [std::advance(row.data().begin(), i)]: the rows are maps, in key order. *)
Fixpoint out_values (row : Row) (names : list str) (i : nat) : Status * list Value :=
  match names with
  | [] => (StatusOK, [])
  | name :: rest =>
      let next (v : Value) := let '(st, vs) := out_values row rest (S i) in (st, v :: vs) in
      if row_has name row then next (row_at name row)
      else match row !! i with
           | Some (_, v) => next v
           | None => (status_error QueryError
                        (lit "sqlconduit::util: OUT parameter column '" ++ name
                         ++ lit "' is missing"), [])
           end
  end.

Definition readOutParams (rs : ResultSet) (names : list str) : Status * list Value :=
  if is_nil names then (StatusOK, [])
  else match rs_rows rs with
       | [] => (status_error QueryError
                  (lit "sqlconduit::util: OUT parameter fetch returned no row"), [])
       | row :: _ => out_values row names 0
       end.

Definition readOutParamsFromRow (rs : ResultSet) (count : nat) : Status + list Value :=
  if count =? 0 then inr []
  else match rs_rows rs with
       | [] => inl (status_error QueryError
                      (lit "sqlconduit::util: routine returned no row to read OUT/INOUT parameters from"))
       | row :: _ =>
           if length (rs_fields rs) <? count
           then inl (status_error QueryError
                       (lit "sqlconduit::util: routine returned " ++ dec_nat (length (rs_fields rs))
                        ++ lit " column(s), expected at least " ++ dec_nat count
                        ++ lit " for OUT/INOUT parameters"))
           else inr (map (fun f => row_at f row) (take count (rs_fields rs)))
       end.

(** ** Dropping routines, creating and dropping indexes *)
Record IndexSpec := mkIndex {
  ix_table : str;
  ix_name : str;
  ix_columns : list str;
  ix_unique : bool;
  ix_ifNotExists : bool;
  ix_concurrent : bool;
  ix_usingMethod : str;
  ix_options : str;
}.

Definition kind_word (k : RoutineKind) : string :=
  match k with Function_ => "FUNCTION" | Procedure => "PROCEDURE" end.

Definition oracle_guarded (s : str) : str :=
  lit "BEGIN EXECUTE IMMEDIATE " ++ quoteStringLiteral s
  ++ lit "; EXCEPTION WHEN OTHERS THEN IF SQLCODE != -4043 THEN RAISE; END IF; END;".

Definition makeDropRoutineSql (ref : RoutineRef) (ifExists cascade : bool) (d : Dialect)
    : Status + str :=
  if is_nil (ro_name ref) then inl (badSpec "sqlconduit::util: routine name is empty")
  else if is_dialect d DAuto then inl (no_dialect (ro_dataSource ref))
  else if cascade && negb (is_dialect d DPostgres) then
    inl (unsupported (lit "sqlconduit::util: DROP ... CASCADE is only supported by postgres (dialect="
                      ++ lit (dialectName d) ++ lit ")"))
  else
    let s := lit "DROP " ++ lit (kind_word (ro_kind ref))
             ++ (if ifExists && negb (is_dialect d DOracle) then lit " IF EXISTS" else [])
             ++ lit " " ++ quoteIdent (ro_name ref) d
             ++ (if cascade then lit " CASCADE" else []) in
    inr (if ifExists && is_dialect d DOracle then oracle_guarded s else s).

Definition index_dialect : Status :=
  unsupported (lit "sqlconduit::util: cannot detect dialect for datasource; pass Dialect explicitly").

Definition pg_only (what : string) (d : Dialect) : Status :=
  unsupported (lit "sqlconduit::util: " ++ lit what
               ++ lit " is only supported by postgres (dialect=" ++ lit (dialectName d) ++ lit ")").

Definition makeCreateIndexSql (spec : IndexSpec) (d : Dialect) : Status + str :=
  let method := ix_usingMethod spec in
  if is_dialect d DAuto then inl index_dialect
  else if is_nil (ix_table spec) || is_nil (ix_name spec)
  then inl (badSpec "sqlconduit::util: index spec requires both table and name")
  else if is_nil (ix_columns spec)
  then inl (badSpec "sqlconduit::util: index spec requires at least one column")
  else if ix_ifNotExists spec && negb (is_dialect d DPostgres)
  then inl (pg_only "CREATE INDEX IF NOT EXISTS" d)
  else if ix_concurrent spec && negb (is_dialect d DPostgres)
  then inl (pg_only "CREATE INDEX CONCURRENTLY" d)
  else if negb (is_nil method) && (is_dialect d DSqlServer || is_dialect d DOracle)
  then inl (unsupported (lit "sqlconduit::util: dialect=" ++ lit (dialectName d)
                         ++ lit " has no USING clause for CREATE INDEX"))
  else
    inr (lit "CREATE " ++ (if ix_unique spec then lit "UNIQUE " else []) ++ lit "INDEX "
         ++ (if ix_concurrent spec then lit "CONCURRENTLY " else [])
         ++ (if ix_ifNotExists spec then lit "IF NOT EXISTS " else [])
         ++ quoteIdent (ix_name spec) d ++ lit " ON " ++ quoteIdent (ix_table spec) d
         ++ (if is_dialect d DPostgres && negb (is_nil method) then lit " USING " ++ method else [])
         ++ lit " (" ++ join comma_sep (ix_columns spec) ++ lit ")"
         ++ (if is_dialect d DMySQL && negb (is_nil method) then lit " USING " ++ method else [])
         ++ (if is_nil (ix_options spec) then [] else lit " " ++ ix_options spec)).

Definition makeDropIndexSql (table name : str) (ifExists : bool) (d : Dialect) : Status + str :=
  if is_dialect d DAuto then inl index_dialect
  else if is_nil table || is_nil name
  then inl (badSpec "sqlconduit::util: dropIndex requires both table and name")
  else
    inr (lit "DROP INDEX " ++ (if ifExists then lit "IF EXISTS " else []) ++ quoteIdent name d
         ++ (if negb (is_dialect d DPostgres) && negb (is_dialect d DOracle)
             then lit " ON " ++ quoteIdent table d else [])).

(** ** Execution

    A client as the helpers use it: its statements run in the context of the
    thread, which the state holds beside the rest. An empty data source is the
    default one. *)
Record CallOutput := mkCallOutput {
  co_sets : list ResultSet;
  co_outParams : list Value;
  co_affected : Z;
}.
Definition call_output_empty : CallOutput := mkCallOutput [] [] 0.

Class ClientOps (S : Type) := {
  cl_driverType : str -> S -> option str;
  cl_execute : str -> str -> Params -> ST S (Status * Z);
  cl_queryAll : str -> str -> Params -> ST S (Status * list ResultSet);
  cl_call : str -> str -> list CallParam -> ST S (Status * CallOutput);
  cl_context : S -> Stack;
  cl_set_context : Stack -> S -> S;
  cl_transactionDepth : S -> nat;
}.

(** A session of [core::Session]. *)
Class SessionOps (S : Type) := {
  ss_execute : str -> Params -> ST S (Status * Z);
  ss_query : str -> ST S (Status * ResultSet);
  ss_queryAll : str -> Params -> ST S (Status * list ResultSet);
  ss_call : str -> list CallParam -> ST S (Status * CallOutput);
}.

Record ExecOptions := mkExec {
  eo_dataSource : str;
  eo_dialect : Dialect;
  eo_forcePrimary : bool;
  eo_idempotency : Idempotency;
}.
Definition with_source (o : ExecOptions) (ds : str) : ExecOptions :=
  mkExec ds (eo_dialect o) (eo_forcePrimary o) (eo_idempotency o).

(** The context [ExecScope] enters. *)
Definition exec_context (o : ExecOptions) (ctx : SqlContext) : SqlContext :=
  mkContext (cx_traceId ctx) (cx_spanId ctx) (cx_tenantId ctx) (cx_targetDataSource ctx)
    (if eo_forcePrimary o then false else cx_shadow ctx) (cx_wroteInThisRequest ctx)
    (match eo_idempotency o with Unspecified => cx_idempotency ctx | i => i end).

Definition validateCreateRoutine (replace ifNotExists : bool) (d : Dialect) : Status :=
  if ifNotExists
  then unsupported (lit "sqlconduit::util: CREATE ROUTINE IF NOT EXISTS is supported by no dialect in this matrix; drop first, then create")
  else if replace && negb (is_dialect d DPostgres) && negb (is_dialect d DOracle)
  then unsupported (lit "sqlconduit::util: CREATE OR REPLACE is only supported by postgres and oracle (dialect="
                    ++ lit (dialectName d) ++ lit ")")
  else StatusOK.

(** [CallResult], whose status is returned beside it. *)
Record CallResult := mkCallResult {
  cr_status : Status;
  cr_sets : list ResultSet;
  cr_affected : Z;
  cr_outParams : list Value;
}.
Definition failed_call (st : Status) : CallResult := mkCallResult st [] 0 [].
Definition native_result (r : Status * CallOutput) : CallResult :=
  mkCallResult r.1 (co_sets r.2) (co_affected r.2) (co_outParams r.2).

Definition needs_ref_cursor : Status :=
  unsupported (lit "sqlconduit::util: returnsRows=true for an Oracle procedure requires CallParam::refCursor()").
Definition has_ref_cursor (params : list CallParam) : bool :=
  existsb (fun p => bool_decide (cp_type p = VtRefCursor)) params.
Definition oracle_block (ref : RoutineRef) (params : list CallParam) : str :=
  lit "BEGIN " ++ quoteIdent (ro_name ref) DOracle ++ parenArgs (length params) ++ lit "; END;".

Section Execution.
Context {S : Type} `{!ClientOps S}.
Local Open Scope st_scope.

Definition detectDialect (dataSource : str) (s : S) : Dialect :=
  match cl_driverType dataSource s with
  | Some t => dialectFromDriverType t
  | None => DAuto
  end.
Definition resolveDialect (o : ExecOptions) (s : S) : Dialect :=
  if is_dialect (eo_dialect o) DAuto then detectDialect (eo_dataSource o) s else eo_dialect o.

(** A body under [ExecScope]. *)
Definition in_scope {A} (o : ExecOptions) (body : ST S A) : ST S A :=
  fun s =>
    let ctxs := cl_context s in
    let '(entered_ctxs, entered) := scope_enter (exec_context o (current ctxs)) ctxs in
    let '(a, s1) := body (cl_set_context entered_ctxs s) in
    (a, cl_set_context (scope_exit entered (cl_context s1)) s1).

Definition runDdl (o : ExecOptions) (sql : str) : ST S Status :=
  in_scope o (r <-- cl_execute (eo_dataSource o) sql []; ret r.1).

Definition createRoutine (o : ExecOptions) (replace ifNotExists stripDelimiter : bool) (sql : str)
    : ST S Status :=
  if is_nil sql then ret (badSpec "sqlconduit::util: createRoutine sql is empty")
  else
    d <-- reads (resolveDialect o);
    let st := validateCreateRoutine replace ifNotExists d in
    if negb (st_ok st) then ret st
    else runDdl o (if stripDelimiter then (stripDelimiterDirectives sql).2 else sql).

Definition run_generated (o : ExecOptions) (sql : Status + str) : ST S Status :=
  match sql with inl st => ret st | inr sql => runDdl o sql end.

Definition dropRoutine (o : ExecOptions) (ifExists cascade : bool) (ref : RoutineRef) : ST S Status :=
  let o := if is_nil (eo_dataSource o) then with_source o (ro_dataSource ref) else o in
  d <-- reads (resolveDialect o);
  run_generated o (makeDropRoutineSql ref ifExists cascade d).

Definition concurrent_in_transaction : Status :=
  status_error TxError
    (lit "sqlconduit::util: CREATE INDEX CONCURRENTLY cannot run inside a transaction block").

Definition createIndex (o : ExecOptions) (spec : IndexSpec) : ST S Status :=
  d <-- reads (resolveDialect o);
  match makeCreateIndexSql spec d with
  | inl st => ret st
  | inr sql =>
      depth <-- reads cl_transactionDepth;
      if ix_concurrent spec && (0 <? depth) then ret concurrent_in_transaction
      else runDdl o sql
  end.

Definition createIndexSql (o : ExecOptions) (sql : str) : ST S Status :=
  if is_nil sql then ret (badSpec "sqlconduit::util: createIndexSql sql is empty")
  else runDdl o sql.

Definition dropIndex (o : ExecOptions) (ifExists : bool) (table name : str) : ST S Status :=
  d <-- reads (resolveDialect o);
  run_generated o (makeDropIndexSql table name ifExists d).

(** [call] on the client: no session, hence no plan of several statements. *)
Definition call (o : ExecOptions) (returnsRows : bool) (ref : RoutineRef)
    (params : list CallParam) : ST S CallResult :=
  let o := if is_nil (eo_dataSource o) then with_source o (ro_dataSource ref) else o in
  d <-- reads (resolveDialect o);
  if is_dialect d DOracle && is_kind (ro_kind ref) Procedure then
    if returnsRows && negb (has_ref_cursor params) then ret (failed_call needs_ref_cursor)
    else
      r <-- in_scope o (cl_call (eo_dataSource o) (oracle_block ref params) params);
      ret (native_result r)
  else
    match makeCallPlan ref params d returnsRows with
    | inl st => ret (failed_call st)
    | inr plan =>
        if pl_needsSameConnection plan then
          ret (failed_call (unsupported
            (lit "sqlconduit::util: OUT/INOUT parameters on dialect=" ++ lit (dialectName d)
             ++ lit " must run on one connection; use the core::Session overload")))
        else
          r <-- in_scope o
                  (if returnsRows then
                     q <-- cl_queryAll (eo_dataSource o) (pl_callSql plan) (pl_callParams plan);
                     ret (mkCallResult q.1 q.2 0 [])
                   else
                     x <-- cl_execute (eo_dataSource o) (pl_callSql plan) (pl_callParams plan);
                     ret (mkCallResult x.1 [] x.2 []));
          if negb (st_ok (cr_status r)) then ret r
          else
            match cr_sets r with
            | first :: _ =>
                if pl_outFromRowCount plan =? 0 then ret r
                else match readOutParamsFromRow first (pl_outFromRowCount plan) with
                     | inl st => ret (mkCallResult st (cr_sets r) (cr_affected r) [])
                     | inr vs => ret (mkCallResult StatusOK (cr_sets r) (cr_affected r) vs)
                     end
            | [] => ret r
            end
    end.
End Execution.

Section SessionCall.
Context {S : Type} `{!SessionOps S}.
Local Open Scope st_scope.

(** The values of OUT parameters: from the row of a function, then, for a plan
    with variables, from the statement that reads them. *)
Definition read_row_outs (plan : CallPlan) (r : CallResult) : Status + list Value :=
  match cr_sets r with
  | first :: _ => if pl_outFromRowCount plan =? 0 then inr []
                  else readOutParamsFromRow first (pl_outFromRowCount plan)
  | [] => inr []
  end.

Definition finish_call (plan : CallPlan) (r : CallResult) : ST S CallResult :=
  match read_row_outs plan r with
  | inl st => ret (mkCallResult st (cr_sets r) (cr_affected r) [])
  | inr vs =>
      let r := mkCallResult (cr_status r) (cr_sets r) (cr_affected r) vs in
      if is_nil (pl_fetchSql plan) then ret r
      else
        q <-- ss_query (pl_fetchSql plan);
        if negb (st_ok q.1) then ret (mkCallResult q.1 (cr_sets r) (cr_affected r) vs)
        else
          let '(st, outs) := readOutParams q.2 (pl_outColumns plan) in
          ret (mkCallResult st (cr_sets r) (cr_affected r) outs)
  end.

Definition run_plan (plan : CallPlan) (returnsRows : bool) : ST S CallResult :=
  pre <-- (if is_nil (pl_preSql plan) then ret (StatusOK, 0%Z)
           else ss_execute (pl_preSql plan) (pl_preParams plan));
  if negb (st_ok pre.1) then ret (failed_call pre.1)
  else
    r <-- (if returnsRows then
             q <-- ss_queryAll (pl_callSql plan) (pl_callParams plan);
             ret (mkCallResult q.1 q.2 0 [])
           else
             x <-- ss_execute (pl_callSql plan) (pl_callParams plan);
             ret (mkCallResult x.1 [] x.2 []));
    if negb (st_ok (cr_status r)) then ret r else finish_call plan r.

(** [call] on a session; [detected] is the dialect of the data source. *)
Definition call_session (dialect detected : Dialect) (returnsRows : bool) (ref : RoutineRef)
    (params : list CallParam) : ST S CallResult :=
  let d := if is_dialect dialect DAuto then detected else dialect in
  if is_dialect d DOracle && is_kind (ro_kind ref) Procedure then
    if returnsRows && negb (has_ref_cursor params) then ret (failed_call needs_ref_cursor)
    else r <-- ss_call (oracle_block ref params) params; ret (native_result r)
  else
    match makeCallPlan ref params d returnsRows with
    | inl st => ret (failed_call st)
    | inr plan => run_plan plan returnsRows
    end.
End SessionCall.

(** ** Counting placeholders in generated text *)
Definition holes_of (s : str) : nat := holes (tokens s).

Definition quiet (c : ascii) : bool :=
  negb (ch c "$" || is_quote c || ch c "-" || ch c "/" || ch c "?").

Lemma holes_quiet s t : forallb quiet s = true -> holes_of (s ++ t) = holes_of t.
Proof.
  induction s as [|c s IH]; intros H; [done|]. cbn in H. apply andb_true_iff in H as [Hc Hs].
  unfold quiet in Hc. rewrite negb_true_iff, !orb_false_iff in Hc.
  destruct Hc as ((((H1 & H2) & H3) & H4) & H5).
  unfold holes_of. cbn [app]. rewrite tokens_cons, region_none_intro by (rewrite ?H3, ?H4; done).
  rewrite H5, holes_cons. cbn. by apply IH.
Qed.

Lemma holes_mark t : holes_of (lit "?" ++ t) = S (holes_of t).
Proof.
  unfold holes_of. cbn [lit String.list_ascii_of_string app].
  rewrite tokens_cons. replace (region "?" t) with (@None (str * str)) by done.
  by rewrite holes_cons.
Qed.

Lemma holes_quote_part q part t :
  (q = "`"%char \/ q = dquote) -> no_backslash part = true -> head_is q t = false ->
  holes_of (quote_part q part ++ t) = holes_of t.
Proof.
  intros Hq Hp Ht. unfold holes_of, quote_part. cbn [app]. rewrite <- app_assoc. cbn [app].
  assert (region q (double_char q part ++ q :: t) = Some (q :: double_char q part ++ [q], t)) as E.
  { unfold region. rewrite copy_quoted_double by (done || by destruct Hq; subst).
    by destruct Hq; subst. }
  rewrite tokens_cons, E. by rewrite holes_cons.
Qed.

(** *** Quoted names *)
Fixpoint dot_parts (ident part : str) : list str :=
  match ident with
  | [] => if is_nil part then [] else [part]
  | c :: rest =>
      if ch c "." then (if is_nil part then [] else [part]) ++ dot_parts rest []
      else dot_parts rest (part ++ [c])
  end.

Definition dotted (q : ascii) (parts : list str) : str := join (lit ".") (map (quote_part q) parts).

Lemma dotted_snoc q parts p : dotted q (parts ++ [p]) =
  (if is_nil parts then [] else dotted q parts ++ lit ".") ++ quote_part q p.
Proof.
  unfold dotted. induction parts as [|x parts IH]; [done|].
  cbn [app map]. destruct parts as [|y parts]; [cbn [app map join is_nil]; by rewrite <- app_assoc|].
  transitivity (quote_part q x ++ lit "." ++ join (lit ".") (map (quote_part q) ((y :: parts) ++ [p])));
    [done|]. rewrite IH. cbn [is_nil].
  transitivity ((quote_part q x ++ lit "." ++ join (lit ".") (map (quote_part q) (y :: parts)))
                ++ lit "." ++ quote_part q p); [by rewrite <- !app_assoc | apply app_assoc].
Qed.

Lemma dotted_nil q parts : is_nil (dotted q parts) = is_nil parts.
Proof. by destruct parts as [|p [|p' parts]]. Qed.

Lemma flush_dotted q acc part : flush_part q (dotted q acc) part =
  dotted q (acc ++ if is_nil part then [] else [part]).
Proof.
  unfold flush_part. destruct (is_nil part) eqn:E; [by rewrite app_nil_r|].
  rewrite dotted_snoc, dotted_nil. by destruct acc.
Qed.

Lemma quote_loop_dotted q ident part acc :
  quote_loop q ident part (dotted q acc) = dotted q (acc ++ dot_parts ident part).
Proof.
  revert part acc. induction ident as [|c ident IH]; intros part acc; cbn [quote_loop dot_parts].
  - apply flush_dotted.
  - destruct (ch c "."); [|apply IH]. by rewrite flush_dotted, IH, <- app_assoc.
Qed.

Lemma quoteIdent_dotted ident d : quoteIdent ident d = dotted (ident_quote d) (dot_parts ident []).
Proof. unfold quoteIdent. apply (quote_loop_dotted (ident_quote d) ident [] []). Qed.

(** A server's reader of a quoted, dotted name. *)
Fixpoint read_path (fuel : nat) (q : ascii) (s : str) : option (list str * str) :=
  match fuel, s with
  | S f, c :: s1 =>
      if ch c q then
        '(p, r) ← read_quoted q s1;
        match r with
        | d :: r1 => if ch d "." then '(ps, r2) ← read_path f q r1; Some (p :: ps, r2)
                     else Some ([p], r)
        | [] => Some ([p], [])
        end
      else None
  | _, _ => None
  end.

Lemma read_path_part q p t fuel : (q = "`"%char \/ q = dquote) -> head_is q t = false ->
  read_path (S fuel) q (quote_part q p ++ t) =
    match t with
    | d :: r1 => if ch d "." then '(ps, r2) ← read_path fuel q r1; Some (p :: ps, r2)
                 else Some ([p], t)
    | [] => Some ([p], [])
    end.
Proof.
  intros Hq Ht. unfold quote_part. cbn [app]. rewrite <- app_assoc. cbn [app read_path].
  replace (ch q q) with true by (symmetry; apply Ascii.eqb_refl).
  rewrite read_quoted_double; [done|]. intros c r -> ->. cbn in Ht.
  unfold ch in Ht. by rewrite Ascii.eqb_refl in Ht.
Qed.

Lemma ident_quotes d : ident_quote d = "`"%char \/ ident_quote d = dquote.
Proof. unfold ident_quote. case_match; auto. Qed.

Lemma read_dotted q parts rest fuel : (q = "`"%char \/ q = dquote) -> parts <> [] ->
  head_is q rest = false -> head_is "." rest = false -> length parts <= fuel ->
  read_path fuel q (dotted q parts ++ rest) = Some (parts, rest).
Proof.
  intros Hc Hne Hq Hdot. revert fuel. induction parts as [|p parts IH]; intros fuel Hf; [done|].
  destruct fuel as [|fuel]; [cbn in Hf; lia|]. destruct parts as [|p2 parts].
  - unfold dotted. cbn [map join]. rewrite read_path_part by done.
    destruct rest as [|c rest]; [done|]. cbn in Hdot. by rewrite Hdot.
  - replace (dotted q (p :: p2 :: parts) ++ rest)
      with (quote_part q p ++ lit "." ++ dotted q (p2 :: parts) ++ rest)
      by (unfold dotted; cbn [map join]; by rewrite <- !app_assoc).
    rewrite read_path_part; [|done|by destruct Hc as [-> | ->]].
    cbn [lit String.list_ascii_of_string app]. replace (ch "." ".") with true by done.
    by rewrite IH by (done || cbn in *; lia).
Qed.

(** C29: a quoted name is read back as written: a reader of the dialect's quoted
    identifiers finds in the generated text exactly the parts of the name
    between its dots, whatever characters they contain, and then what follows
    the name: no name can end its quotes early. *)
Theorem quoteIdent_reads_back ident d rest
  (Hne : dot_parts ident [] <> [])
  (Hrest : head_is (ident_quote d) rest = false /\ head_is "." rest = false) :
  read_path (length (dot_parts ident [])) (ident_quote d) (quoteIdent ident d ++ rest)
    = Some (dot_parts ident [], rest).
Proof.
  rewrite quoteIdent_dotted. destruct Hrest as [Hq Hdot].
  apply read_dotted; [apply ident_quotes | done..].
Qed.

Lemma quoteIdent_reads_back_witness :
  read_path 2 "`" (quoteIdent (lit "db.we`ird; DROP") DMySQL ++ lit "(?)")
    = Some ([lit "db"; lit "we`ird; DROP"], lit "(?)").
Proof.
  apply (quoteIdent_reads_back (lit "db.we`ird; DROP") DMySQL (lit "(?)"));
    [discriminate | split; reflexivity].
Defined.

(** *** The plan of a call *)
Lemma dec_quiet n : forallb quiet (dec_nat n) = true.
Proof.
  unfold dec_nat. pose proof (dec_N_digits (N.of_nat n)) as H. apply forallb_forall.
  intros c Hc. rewrite Forall_forall in H. apply list_elem_of_In in Hc. specialize (H c Hc).
  revert H. clear. all_chars c.
Qed.

Lemma quiet_app a b : forallb quiet (a ++ b) = forallb quiet a && forallb quiet b.
Proof. apply forallb_app. Qed.

Lemma var_quiet i : forallb quiet (outVarName i) = true.
Proof. unfold outVarName. rewrite quiet_app, dec_quiet. done. Qed.

(** A part of the generated text with [n] placeholders of its own. *)
Definition contributes (n : nat) (s : str) : Prop := forall t, holes_of (s ++ t) = n + holes_of t.

Lemma contributes_quiet s : forallb quiet s = true -> contributes 0 s.
Proof. intros H t. by apply holes_quiet. Qed.
Lemma contributes_mark : contributes 1 (lit "?").
Proof. intros t. apply holes_mark. Qed.
Lemma contributes_app n m a b : contributes n a -> contributes m b -> contributes (n + m) (a ++ b).
Proof. intros Ha Hb t. rewrite <- app_assoc, Ha, Hb. lia. Qed.
Lemma contributes_holes n s : contributes n s -> holes_of s = n.
Proof. intros H. rewrite <- (app_nil_r s), H. unfold holes_of. cbn. lia. Qed.

Lemma contributes_join (f : str -> nat) l :
  Forall (fun s => contributes (f s) s) l -> contributes (list_sum (map f l)) (join comma_sep l).
Proof.
  induction l as [|x l IH]; intros H; [by intros t|]. inversion H as [|? ? Hx Hl]; subst.
  destruct l as [|y l].
  - cbn. rewrite Nat.add_0_r. done.
  - cbn [map list_sum fold_right].
    change (contributes (f x + list_sum (map f (y :: l)))
              (x ++ comma_sep ++ join comma_sep (y :: l))).
    apply contributes_app; [done|]. apply (contributes_app 0); [by apply contributes_quiet|].
    by apply IH.
Qed.

Lemma list_sum_ones {A} (l : list A) : list_sum (map (fun _ => 1) l) = length l.
Proof. unfold list_sum. induction l as [|x l IH]; cbn; [done|]. by rewrite IH. Qed.

Lemma contributes_args n : contributes n (csvArgs n).
Proof.
  unfold csvArgs. rewrite <- (length_replicate n (lit "?")) at 1. rewrite <- list_sum_ones.
  apply contributes_join. apply Forall_replicate. apply contributes_mark.
Qed.
Lemma contributes_paren n : contributes n (parenArgs n).
Proof.
  unfold parenArgs. apply (contributes_app 0); [by apply contributes_quiet|].
  replace n with (n + 0) at 1 by lia. apply contributes_app; [apply contributes_args|].
  by apply contributes_quiet.
Qed.

(** Names that are no trouble for the scanner: in quotes anything but a
    backslash, without quotes only plain characters. *)
Definition name_ok (d : Dialect) (name : str) : bool :=
  match d with DSqlServer => forallb quiet name | _ => no_backslash name end.

Lemma dot_parts_no_backslash ident part : no_backslash ident = true -> no_backslash part = true ->
  Forall (fun p => no_backslash p = true) (dot_parts ident part).
Proof.
  revert part. induction ident as [|c ident IH]; intros part Hi Hp; cbn [dot_parts].
  - case_match; by repeat constructor.
  - cbn in Hi. apply andb_true_iff in Hi as [Hc Hi]. destruct (ch c ".").
    + apply Forall_app. split; [case_match; by repeat constructor | by apply IH].
    + apply IH; [done|]. unfold no_backslash in *. rewrite forallb_app, Hp. cbn. by rewrite Hc.
Qed.

Lemma holes_name name d t : no_backslash name = true -> head_is (ident_quote d) t = false ->
  holes_of (quoteIdent name d ++ t) = holes_of t.
Proof.
  intros Hn Ht. rewrite quoteIdent_dotted. set (q := ident_quote d) in *.
  assert (q = "`"%char \/ q = dquote) as Hq by (unfold q, ident_quote; case_match; auto).
  pose proof (dot_parts_no_backslash name [] Hn eq_refl) as Hp.
  induction Hp as [|p parts Hp Hps IH]; [done|]. destruct parts as [|p2 parts].
  - unfold dotted. cbn [map join]. by apply holes_quote_part.
  - replace (dotted q (p :: p2 :: parts) ++ t)
      with (quote_part q p ++ lit "." ++ dotted q (p2 :: parts) ++ t)
      by (unfold dotted; cbn [map join]; by rewrite <- !app_assoc).
    rewrite holes_quote_part; [|done|done|by destruct Hq as [-> | ->]].
    by rewrite holes_quiet.
Qed.

(** What the loop over the parameters keeps: every argument is a placeholder or
    a variable, and there is a value for each placeholder. *)
Definition marks (s : str) : nat := if str_eqb s (lit "?") then 1 else 0.
Definition is_var (s : str) : Prop := exists i, s = lit "@" ++ outVarName i.
Record parts_ok (s : PlanParts) : Prop := {
  po_args : Forall (fun a => a = lit "?" \/ is_var a) (pp_args s);
  po_count : list_sum (map marks (pp_args s)) = length (pp_callParams s);
  po_sets : Forall (fun a => exists v, is_var v /\ a = v ++ lit " = ?") (pp_sets s);
  po_pre : length (pp_sets s) = length (pp_preParams s);
  po_out : Forall (fun c => exists i, c = outVarName i) (pp_outColumns s);
}.

Lemma marks_var s : is_var s -> marks s = 0.
Proof. by intros [i ->]. Qed.

Lemma list_sum_snoc l n : list_sum (l ++ [n]) = list_sum l + n.
Proof. rewrite list_sum_app. cbn. lia. Qed.

Lemma plan_step_ok d i p s : parts_ok s -> parts_ok (plan_step d i p s).
Proof.
  intros [H1 H2 H3 H4 H5].
  assert (is_var (lit "@" ++ outVarName i)) as Hv by (by exists i).
  unfold plan_step. repeat case_match; split; cbn [pp_args pp_callParams pp_sets pp_preParams
    pp_outColumns]; rewrite ?map_app, ?length_app; cbn [map length]; rewrite ?list_sum_snoc;
    rewrite ?(marks_var _ Hv); try done; try (rewrite H2; done); try lia;
    try (apply Forall_app; split; [done|]; constructor; [|done]); eauto.
Qed.

Lemma plan_loop_ok d i params s : parts_ok s -> parts_ok (plan_loop d i params s).
Proof.
  revert i s. induction params as [|p params IH]; intros i s H; [done|].
  cbn. by apply IH, plan_step_ok.
Qed.

Lemma parts_empty_ok : parts_ok parts_empty.
Proof. split; constructor. Qed.

Lemma contributes_plan_args s : parts_ok s ->
  contributes (length (pp_callParams s)) (join comma_sep (pp_args s)).
Proof.
  intros H. rewrite <- (po_count _ H). apply contributes_join.
  eapply Forall_impl; [apply (po_args _ H)|]. intros a [->|[i ->]]; [apply contributes_mark|].
  rewrite marks_var by (by exists i). apply contributes_quiet.
  rewrite quiet_app, var_quiet. done.
Qed.

Lemma contributes_plan_sets s : parts_ok s ->
  contributes (length (pp_preParams s)) (join comma_sep (pp_sets s)).
Proof.
  intros H. rewrite <- (po_pre _ H), <- list_sum_ones.
  apply contributes_join. eapply Forall_impl; [apply (po_sets _ H)|].
  intros a (v & [i ->] & ->). rewrite <- !app_assoc.
  apply (contributes_app 0 1); [by apply contributes_quiet|].
  apply (contributes_app 0 1); [apply contributes_quiet, var_quiet|].
  apply (contributes_app 0 1 (lit " = ")); [by apply contributes_quiet | apply contributes_mark].
Qed.

Lemma contributes_fetch cols : Forall (fun c => exists i, c = outVarName i) cols ->
  contributes 0 (fetch_sql cols).
Proof.
  intros H. unfold fetch_sql. case_match; [by intros t|]. apply contributes_quiet.
  rewrite quiet_app. apply andb_true_iff. split; [done|].
  assert (Forall (fun s => forallb quiet s = true)
            (map (fun c => lit "@" ++ c ++ lit " AS " ++ c) cols)) as Hq.
  { apply Forall_fmap. eapply Forall_impl; [exact H|]. intros c [i ->]. cbn -[outVarName lit].
    by rewrite !quiet_app, !var_quiet. }
  clear H. induction Hq as [|x l Hx Hl IH]; [done|]. destruct l as [|y l]; [exact Hx|].
  change (forallb quiet (x ++ comma_sep ++ join comma_sep (y :: l)) = true).
  by rewrite !quiet_app, Hx, IH.
Qed.

Definition count_out (params : list CallParam) : nat :=
  length (List.filter (fun p => negb (is_in p)) params).

Lemma plan_loop_outs d i params s :
  length (pp_outColumns (plan_loop d i params s)) + pp_outFromRow (plan_loop d i params s)
  = length (pp_outColumns s) + pp_outFromRow s + count_out params.
Proof.
  unfold count_out. revert i s. induction params as [|p params IH]; intros i s; cbn; [lia|].
  rewrite IH. unfold plan_step. destruct (is_in p); cbn [negb length]; [cbn; lia|].
  repeat case_match; cbn [pp_outColumns pp_outFromRow length]; rewrite ?length_app;
    cbn [length]; lia.
Qed.

Lemma plan_loop_mysql_row i params s :
  pp_outFromRow (plan_loop DMySQL i params s) = pp_outFromRow s.
Proof.
  revert i s. induction params as [|p params IH]; intros i s; [done|]. cbn [plan_loop].
  rewrite IH. unfold plan_step. by destruct (is_in p).
Qed.

Lemma plan_loop_all_in d i params s : hasOutParams params = false ->
  length (pp_args s) = length (pp_callParams s) ->
  length (pp_args (plan_loop d i params s)) = length (pp_callParams (plan_loop d i params s))
  /\ pp_preParams (plan_loop d i params s) = pp_preParams s.
Proof.
  revert i s. induction params as [|p params IH]; intros i s Ho Hl; [done|].
  cbn in Ho. apply orb_false_iff in Ho as [Hp Ho]. apply negb_false_iff in Hp.
  cbn [plan_loop].
  assert (length (pp_args (plan_step d i p s)) = length (pp_callParams (plan_step d i p s))
          /\ pp_preParams (plan_step d i p s) = pp_preParams s) as [Hs Hpre].
  { unfold plan_step. rewrite Hp. cbn. rewrite !length_app, Hl. done. }
  destruct (IH (S i) _ Ho Hs) as [A B]. split; [exact A | by rewrite B].
Qed.

Lemma server_name_quiet name : forallb quiet name = true -> forallb quiet (server_name name) = true.
Proof. intros H. unfold server_name. case_match; [done|]. by rewrite quiet_app, H. Qed.

Lemma server_call_holes kind name n rr : forallb quiet name = true ->
  holes_of (server_call kind name n rr) = n.
Proof.
  intros Hn. apply server_name_quiet in Hn. unfold server_call.
  repeat case_match; bool_prop; rewrite !holes_quiet by done; subst; try done.
  - apply contributes_holes, contributes_paren.
  - by rewrite contributes_paren, <- (app_nil_r (lit "}")), holes_quiet, Nat.add_0_r by done.
  - apply contributes_holes, contributes_args.
Qed.

Lemma holes_tail s t : contributes 0 t -> forall n, contributes n s -> holes_of (s ++ t) = n.
Proof. intros Ht n Hs. rewrite Hs, (contributes_holes _ _ Ht). lia. Qed.

Lemma named_call_holes d pre name args post n : forallb quiet pre = true ->
  no_backslash name = true -> contributes n args -> forallb quiet post = true ->
  holes_of (pre ++ quoteIdent name d ++ lit "(" ++ args ++ post) = n.
Proof.
  intros Hpre Hname Hargs Hpost. rewrite holes_quiet, holes_name; [|done|by destruct d|done].
  rewrite holes_quiet by done. apply holes_tail; [by apply contributes_quiet | done].
Qed.

Lemma contributes_closed n : contributes n (csvArgs n ++ lit ")").
Proof.
  replace n with (n + 0) at 1 by lia.
  apply contributes_app; [apply contributes_args | by apply contributes_quiet].
Qed.

Lemma mysql_sets_holes s : parts_ok s ->
  holes_of (if is_nil (pp_sets s) then [] else lit "SET " ++ join comma_sep (pp_sets s))
  = length (pp_preParams s).
Proof.
  intros H. destruct (is_nil (pp_sets s)) eqn:E.
  - rewrite <- (po_pre _ H). by destruct (pp_sets s).
  - rewrite holes_quiet by done. by apply contributes_holes, contributes_plan_sets.
Qed.

Lemma oracle_call_holes kind name n : no_backslash name = true ->
  holes_of (if is_kind kind Function_
            then lit "SELECT " ++ quoteIdent name DOracle ++ parenArgs n ++ lit " FROM DUAL"
            else lit "BEGIN " ++ quoteIdent name DOracle ++ parenArgs n ++ lit "; END;") = n.
Proof.
  intros Hn. unfold parenArgs. case_match; rewrite <- app_assoc;
    (apply named_call_holes; [done | done | apply contributes_closed | done]).
Qed.

(** Outside MySQL and the PostgreSQL functions the guard leaves only IN
    parameters. *)
Lemma guard_all_in ref params d rr : plan_guard ref (hasOutParams params) d rr = None ->
  d = DSqlServer \/ d = DOracle -> hasOutParams params = false.
Proof.
  unfold plan_guard. intros H [-> | ->]; destruct (is_nil _); try done;
    by destruct (hasOutParams params).
Qed.

Lemma plan_loop_pg_pre i params s :
  pp_preParams (plan_loop DPostgres i params s) = pp_preParams s.
Proof.
  revert i s. induction params as [|p params IH]; intros i s; [done|]. cbn [plan_loop].
  rewrite IH. unfold plan_step. destruct (is_in p), (is_inout p); reflexivity.
Qed.

(** a plan's statements and values agree: the call has a value for each of
    its placeholders, so has the statement that sets the variables, the one that
    reads them has none, and the values that come back, from variables or from
    the row of a function, are as many as the OUT and INOUT parameters. In
    particular the drivers' check of the parameter count never refuses a
    statement of the plan. *)
Theorem makeCallPlan_arity ref params d returnsRows plan
  (H : makeCallPlan ref params d returnsRows = inr plan) (Hn : name_ok d (ro_name ref) = true) :
  holes_of (pl_callSql plan) = length (pl_callParams plan)
  /\ holes_of (pl_preSql plan) = length (pl_preParams plan)
  /\ holes_of (pl_fetchSql plan) = 0
  /\ length (pl_outColumns plan) + pl_outFromRowCount plan = count_out params.
Proof.
  unfold makeCallPlan in H. destruct (plan_guard _ _ d _) eqn:Hg; [done|].
  pose proof (guard_all_in _ _ _ _ Hg) as Hin'. clear Hg. rename Hin' into Hg.
  pose proof (plan_loop_ok d 0 params parts_empty parts_empty_ok) as Hok.
  pose proof (plan_loop_outs d 0 params parts_empty) as Hout.
  pose proof (fun Ho => plan_loop_all_in d 0 params parts_empty Ho eq_refl) as Hin.
  pose proof (plan_loop_pg_pre 0 params parts_empty) as Hpg. cbn in Hout.
  destruct d; [done | ..]; set (s := plan_loop _ 0 params parts_empty) in *; clearbody s;
    apply inr_inj in H; subst plan; (split; [|split; [|split; [|exact Hout]]]);
    cbn [pl_callSql pl_callParams pl_preSql pl_preParams pl_fetchSql]; try reflexivity.
  - apply named_call_holes; [done | done | by apply contributes_plan_args | done].
  - by apply mysql_sets_holes.
  - apply contributes_holes, contributes_fetch, (po_out _ Hok).
  - apply named_call_holes; [done | done | by apply contributes_plan_args | done].
  - by rewrite Hpg.
  - destruct (Hin (Hg (or_introl eq_refl))) as [E _]. by rewrite server_call_holes.
  - by destruct (Hin (Hg (or_introl eq_refl))) as [_ ->].
  - destruct (Hin (Hg (or_intror eq_refl))) as [E _]. by rewrite oracle_call_holes.
  - by destruct (Hin (Hg (or_intror eq_refl))) as [_ ->].
Qed.

Lemma makeCallPlan_arity_witness :
  let ref := mkRoutine (lit "shop.pay?") Procedure [] in
  let params := [mkCallParam (VInt64 7) PIn VtInt64 [] 0; mkCallParam VNull POut VtInt64 [] 0;
                 mkCallParam (VInt64 1) PInOut VtInt64 [] 0] in
  exists plan, makeCallPlan ref params DMySQL false = inr plan
    /\ pl_preSql plan = lit "SET @sqlconduit_out_2 = ?"
    /\ pl_callSql plan = lit "CALL `shop`.`pay?`(?, @sqlconduit_out_1, @sqlconduit_out_2)"
    /\ holes_of (pl_callSql plan) = length (pl_callParams plan)
    /\ length (pl_outColumns plan) + pl_outFromRowCount plan = 2.
Proof.
  intros ref params. eexists. split; [reflexivity|].
  pose proof (makeCallPlan_arity ref params DMySQL false _ eq_refl eq_refl) as (H1 & _ & _ & H4).
  split; [reflexivity|]. split; [reflexivity|]. split; [exact H1 | exact H4].
Defined.

(** *** What a call on a session returns *)
Lemma out_values_length row names i vs :
  st_ok (out_values row names i).1 = true -> (out_values row names i).2 = vs -> length vs = length names.
Proof.
  revert i vs. induction names as [|n names IH]; intros i vs H1 H2; cbn in *; [by subst|].
  assert (forall v, st_ok (let '(st, l) := out_values row names (S i) in (st, v :: l)).1 = true ->
                    (let '(st, l) := out_values row names (S i) in (st, v :: l)).2 = vs ->
                    length vs = S (length names)) as Hnext.
  { intros v. specialize (IH (S i)). destruct (out_values row names (S i)) as [st l]. cbn in *.
    intros Hok <-. cbn. f_equal. by apply IH. }
  destruct (row_has n row); [by apply (Hnext _ H1)|].
  destruct (row !! i) as [[k v]|]; [by apply (Hnext _ H1) | discriminate].
Qed.

Lemma readOutParams_length rs names :
  st_ok (readOutParams rs names).1 = true -> length (readOutParams rs names).2 = length names.
Proof.
  unfold readOutParams. destruct names as [|n names]; [done|]. cbn [is_nil].
  destruct (rs_rows rs) as [|row rows]; [done|]. intros H. by apply (out_values_length row _ 0).
Qed.

Lemma fetch_nil_iff cols : is_nil (fetch_sql cols) = is_nil cols.
Proof. unfold fetch_sql. by destruct cols. Qed.

Lemma mysql_plan_shape ref params rr plan : makeCallPlan ref params DMySQL rr = inr plan ->
  pl_outFromRowCount plan = 0 /\ is_nil (pl_fetchSql plan) = is_nil (pl_outColumns plan)
  /\ length (pl_outColumns plan) = count_out params.
Proof.
  unfold makeCallPlan. destruct (plan_guard _ _ _ _); [done|]. intros [= <-].
  pose proof (plan_loop_outs DMySQL 0 params parts_empty) as Ho.
  rewrite plan_loop_mysql_row in Ho. cbn in Ho.
  cbn -[fetch_sql plan_loop]. rewrite plan_loop_mysql_row, fetch_nil_iff. split; [done|].
  split; [done | lia].
Qed.

Section SessionOuts.
Context {S : Type} `{!SessionOps S}.

Lemma bind_result {A B} (m : ST S A) (k : A -> ST S B) (P : B -> Prop) s :
  (forall a s1, P (k a s1).1) -> P (bind m k s).1.
Proof. intros H. unfold bind. destruct (m s). apply H. Qed.

Lemma finish_mysql_outs plan r (s : S) : pl_outFromRowCount plan = 0 ->
  is_nil (pl_fetchSql plan) = is_nil (pl_outColumns plan) ->
  let r' := (finish_call plan r s).1 in
  st_ok (cr_status r') = true -> length (cr_outParams r') = length (pl_outColumns plan).
Proof.
  intros H0 Hf. unfold finish_call.
  assert (read_row_outs plan r = inr []) as -> by (unfold read_row_outs; rewrite H0; by case_match).
  rewrite Hf. destruct (is_nil (pl_outColumns plan)) eqn:E.
  { by destruct (pl_outColumns plan). }
  unfold bind, ret. destruct (ss_query _ s) as [[st rs] s1]. cbn [fst snd].
  destruct (st_ok st) eqn:Est; cbn [negb]; [|cbn; by rewrite Est].
  pose proof (readOutParams_length rs (pl_outColumns plan)) as Hr.
  destruct (readOutParams rs (pl_outColumns plan)) as [st2 outs]. exact Hr.
Qed.

(** a MySQL routine called on a session that succeeds hands back exactly
    one value for each of its OUT and INOUT parameters, in particular when the
    connection's statements are arbitrary; if a value is missing, the call
    fails. *)
Theorem session_call_outs dialect detected returnsRows ref params (s : S)
  (Hd : (if is_dialect dialect DAuto then detected else dialect) = DMySQL) :
  let r := (call_session dialect detected returnsRows ref params s).1 in
  st_ok (cr_status r) = true -> length (cr_outParams r) = count_out params.
Proof.
  cbv zeta. unfold call_session. rewrite Hd. cbn [is_dialect bool_decide decide andb].
  replace (is_dialect DMySQL DOracle) with false by done. cbn [andb].
  destruct (makeCallPlan ref params DMySQL returnsRows) as [st|plan] eqn:Hp.
  { unfold makeCallPlan, plan_guard in Hp. destruct (is_nil (ro_name ref)); [|done].
    by injection Hp as <-. }
  destruct (mysql_plan_shape _ _ _ _ Hp) as (H0 & Hf & Hc). rewrite <- Hc.
  set (ok := fun r => st_ok (cr_status r) = true -> length (cr_outParams r) = length (pl_outColumns plan)).
  unfold run_plan. apply (bind_result _ _ ok). intros pre s1.
  destruct (st_ok (pre.1)) eqn:Epre; cbn [negb]; [|unfold ok; cbn; by rewrite Epre].
  apply (bind_result _ _ ok). intros r s2.
  destruct (st_ok (cr_status r)) eqn:Er; cbn [negb]; [|unfold ok; cbn; by rewrite Er].
  exact (finish_mysql_outs plan r s2 H0 Hf).
Qed.
End SessionOuts.

(** A session that answers every query with a row of two OUT values. *)
Definition two_outs : SessionOps nat := {|
  ss_execute := fun _ _ n => ((StatusOK, 1%Z), n + 1);
  ss_query := fun _ n =>
    ((StatusOK, mkResultSet [lit "sqlconduit_out_0"; lit "sqlconduit_out_1"]
        [[(lit "sqlconduit_out_0", VInt64 7); (lit "sqlconduit_out_1", VInt64 9)]] false), n + 1);
  ss_queryAll := fun _ _ n => ((StatusOK, []), n + 1);
  ss_call := fun _ _ n => ((StatusOK, call_output_empty), n + 1);
|}.

Lemma session_call_outs_witness :
  let ref := mkRoutine (lit "totals") Procedure [] in
  let params := [mkCallParam VNull POut VtInt64 [] 0; mkCallParam VNull POut VtInt64 [] 0] in
  let r := (@call_session _ two_outs DAuto DMySQL false ref params 0).1 in
  cr_outParams r = [VInt64 7; VInt64 9] /\ length (cr_outParams r) = count_out params.
Proof.
  intros ref params r. split; [reflexivity|].
  exact (@session_call_outs nat two_outs DAuto DMySQL false ref params 0 eq_refl eq_refl).
Defined.

(** *** The scope of a statement *)
Class ClientLaws (S : Type) `{!ClientOps S} := {
  cl_context_set : forall c s, cl_context (cl_set_context c s) = c;
  cl_set_get : forall s, cl_set_context (cl_context s) s = s;
  cl_set_set : forall c c' s, cl_set_context c (cl_set_context c' s) = cl_set_context c s;
}.

Section Scope.
Context {S : Type} `{!ClientOps S} `{!ClientLaws S}.

(** a statement of these helpers runs in a context of its own: when the
    nesting has room, the context it sees is that of the thread with the shadow
    routing off under [forcePrimary] and the idempotency of the options when
    they name one; and once it has returned, the thread is back in the context
    it had, whatever the statement answered. *)
Theorem in_scope_restores {A} o (body : ST S A) s
  (Hbody : preserves cl_context body) (Hroom : depth (cl_context s) < kMaxDepth) :
  let ctx := current (cl_context s) in
  exists s0,
    current (cl_context s0) = exec_context o ctx
    /\ (in_scope o body s).1 = (body s0).1
    /\ cl_context (in_scope o body s).2 = cl_context s
    /\ (eo_forcePrimary o = true -> cx_shadow (current (cl_context s0)) = false).
Proof.
  intros ctx. unfold in_scope. fold ctx.
  pose proof (scope_balanced (exec_context o ctx) (cl_context s)) as Hbal.
  assert (current (scope_enter (exec_context o ctx) (cl_context s)).1 = exec_context o ctx) as Hcur.
  { unfold scope_enter. apply Nat.ltb_lt in Hroom. unfold depth in Hroom. by rewrite Hroom. }
  destruct (scope_enter _ _) as [c e]. cbn in Hcur. exists (cl_set_context c s).
  rewrite cl_context_set. specialize (Hbody (cl_set_context c s)). rewrite cl_context_set in Hbody.
  destruct (body _) as [a s1]. cbn in *. rewrite Hcur, cl_context_set, Hbody.
  repeat split; [done|]. intros Hf. unfold exec_context. cbn. by rewrite Hf.
Qed.
End Scope.

(** *** The guarded DROP of Oracle *)
Lemma cons_app_middle {A} (q : A) d t r : (q :: d ++ [q]) ++ t ++ r = q :: d ++ q :: t ++ r.
Proof. cbn. by rewrite <- app_assoc. Qed.

(** dropping an Oracle routine [IF EXISTS] wraps the plain DROP statement in
    a block that ignores only ORA-04043, and the literal in the block reads back
    as exactly that statement: no name ends the literal early. *)
Theorem oracle_drop_reads_back ref cascade sql rest
  (H : makeDropRoutineSql ref true cascade DOracle = inr sql) :
  exists body, sql ++ rest = lit "BEGIN EXECUTE IMMEDIATE " ++ squote :: body
    /\ Some (lit "DROP " ++ lit (kind_word (ro_kind ref)) ++ lit " "
             ++ quoteIdent (ro_name ref) DOracle,
             lit "; EXCEPTION WHEN OTHERS THEN IF SQLCODE != -4043 THEN RAISE; END IF; END;" ++ rest)
       = read_quoted squote body.
Proof.
  unfold makeDropRoutineSql in H. destruct (is_nil (ro_name ref)); [done|].
  replace (is_dialect DOracle DAuto) with false in H by done.
  destruct cascade; [done|]. cbn [negb andb is_dialect] in H.
  replace (is_dialect DOracle DOracle) with true in H by done. cbn [negb andb] in H.
  apply inr_inj in H as <-. unfold oracle_guarded, quoteStringLiteral.
  rewrite app_nil_r, app_nil_l.
  set (stmt := lit "DROP " ++ _).
  match goal with |- context [Some (_, ?t)] => set (tl := t) end.
  exists (double_char squote stmt ++ squote :: tl). split.
  - rewrite <- !app_assoc. f_equal. by rewrite cons_app_middle.
  - symmetry. apply (read_quoted_double squote stmt). by intros ? ? [= <- <-].
Qed.

Lemma oracle_drop_reads_back_witness :
  exists sql body, makeDropRoutineSql (mkRoutine (lit "it's") Procedure []) true false DOracle = inr sql
    /\ sql ++ [] = lit "BEGIN EXECUTE IMMEDIATE " ++ squote :: body.
Proof.
  eexists. destruct (oracle_drop_reads_back (mkRoutine (lit "it's") Procedure []) false _ [] eq_refl)
    as (body & H & _). exists body. split; [reflexivity | exact H].
Defined.

(** A client that only keeps the contexts and a count of statements. *)
#[local] Instance counting_client : ClientOps (Stack * nat) := {|
  cl_driverType := fun _ _ => Some (lit "mysql");
  cl_execute := fun _ _ _ s => ((StatusOK, 1%Z), (s.1, s.2 + 1));
  cl_queryAll := fun _ _ _ s => ((StatusOK, []), (s.1, s.2 + 1));
  cl_call := fun _ _ _ s => ((StatusOK, call_output_empty), (s.1, s.2 + 1));
  cl_context := fst;
  cl_set_context := fun c s => (c, s.2);
  cl_transactionDepth := fun _ => 0;
|}.
#[local] Instance counting_client_laws : ClientLaws (Stack * nat).
Proof. split; [done | by intros [c n] | done]. Defined.

Lemma in_scope_restores_witness :
  let o := mkExec [] DAuto true Unspecified in
  exists s0 : Stack * nat, current (cl_context s0) = exec_context o (current [])
    /\ cl_context (in_scope o (cl_execute [] (lit "DROP TABLE t") []) (([], 0) : Stack * nat)).2 = [].
Proof.
  intros o.
  destruct (in_scope_restores o (cl_execute [] (lit "DROP TABLE t") []) (([], 0) : Stack * nat))
    as (s0 & H1 & _ & H2 & _); [intros s; reflexivity | vm_compute; lia |].
  exists s0. split; [exact H1 | exact H2].
Defined.

(** *** The plan and the plain call *)
Lemma plan_loop_in d i params s : hasOutParams params = false ->
  plan_loop d i params s
  = mkParts (pp_args s ++ replicate (length params) (lit "?"))
      (pp_callParams s ++ map cp_value params) (pp_sets s) (pp_preParams s) (pp_outColumns s)
      (pp_outFromRow s).
Proof.
  revert i s. induction params as [|p params IH]; intros i s H; cbn [plan_loop length map replicate].
  { rewrite !app_nil_r. by destruct s. }
  cbn in H. apply orb_false_iff in H as [Hp H]. apply negb_false_iff in Hp.
  rewrite IH by done. unfold plan_step. rewrite Hp. cbn -[lit].
  by rewrite <- !app_assoc.
Qed.

(** Where the two generators write different statements. *)
Definition plan_differs (ref : RoutineRef) (d : Dialect) (returnsRows : bool) : bool :=
  match d, ro_kind ref with
  | DPostgres, Procedure => true
  | DPostgres, Function_ => negb returnsRows
  | DOracle, Function_ => returnsRows
  | _, _ => false
  end.

(** without OUT parameters the plan of a call is the plain call: the values
    are the parameters in order and the statement is the one [makeCallSql]
    writes for that many arguments, except for PostgreSQL procedures and
    scalar calls and for Oracle functions that return rows. *)
Theorem plan_is_call_sql ref params d returnsRows plan
  (Hin : hasOutParams params = false) (Hsame : plan_differs ref d returnsRows = false)
  (H : makeCallPlan ref params d returnsRows = inr plan) :
  makeCallSql ref (length params) d returnsRows = inr (pl_callSql plan)
  /\ pl_callParams plan = map cp_value params
  /\ pl_preSql plan = [] /\ pl_fetchSql plan = [] /\ pl_needsSameConnection plan = false.
Proof.
  unfold makeCallPlan in H. rewrite plan_loop_in in H by done.
  destruct (plan_guard ref (hasOutParams params) d returnsRows) eqn:Hg; [done|].
  unfold plan_guard in Hg. rewrite Hin in Hg. unfold makeCallSql, plan_differs in *.
  destruct (is_nil (ro_name ref)); [done|].
  cbn [parts_empty pp_args pp_callParams pp_sets pp_preParams pp_outColumns pp_outFromRow app] in H.
  rewrite length_replicate in H.
  destruct d; [done | ..]; apply inr_inj in H; subst plan;
    cbn [pl_callSql pl_callParams pl_preSql pl_fetchSql pl_needsSameConnection];
    (split; [|done]); destruct (ro_kind ref); try done;
    destruct returnsRows; try done.
Qed.

Lemma plan_is_call_sql_witness :
  let ref := mkRoutine (lit "pay") Function_ [] in
  let params := [mkCallParam (VInt64 7) PIn VtInt64 [] 0] in
  exists plan, makeCallPlan ref params DPostgres true = inr plan
    /\ makeCallSql ref 1 DPostgres true = inr (pl_callSql plan).
Proof.
  intros ref params. eexists. split; [reflexivity|].
  pose proof (plan_is_call_sql ref params DPostgres true _ eq_refl eq_refl eq_refl) as (H & _).
  exact H.
Defined.

(** the plan of a PostgreSQL procedure selects from it as if it were a
    function, where [makeCallSql] writes CALL; PostgreSQL refuses the former. *)
Theorem pg_procedure_plan_selects name ds params
  (Hne : is_nil name = false) (Hin : hasOutParams params = false) :
  let ref := mkRoutine name Procedure ds in
  exists plan, makeCallPlan ref params DPostgres false = inr plan
    /\ pl_callSql plan = lit "SELECT * FROM " ++ quoteIdent name DPostgres ++ parenArgs (length params)
    /\ makeCallSql ref (length params) DPostgres false
       = inr (lit "CALL " ++ quoteIdent name DPostgres ++ parenArgs (length params)).
Proof.
  intros ref. unfold makeCallPlan, makeCallSql, plan_guard. cbn [ro_name ro_kind ref].
  rewrite Hne, Hin, plan_loop_in by done. eexists. by split.
Qed.

Lemma pg_procedure_plan_selects_witness :
  exists plan, makeCallPlan (mkRoutine (lit "pay") Procedure []) [] DPostgres false = inr plan
    /\ pl_callSql plan = lit "SELECT * FROM " ++ quoteIdent (lit "pay") DPostgres ++ lit "()".
Proof.
  destruct (pg_procedure_plan_selects (lit "pay") [] [] eq_refl eq_refl) as (plan & H1 & H2 & _).
  exists plan. split; [exact H1|]. rewrite H2. reflexivity.
Defined.
