(* ===== verification/Exporters.v ===== *)
(** * The Prometheus exporter (src/exporters/prometheus.cpp)

    The exposition text is a list of lines, written in the order of the source:
    [emitHelp], [emitType] and [emitMetric] are the three kinds of line. How a
    stream prints a [double] is a parameter. *)
From stdpp Require Import base gmap list strings.
From Stdlib Require Import Ascii ZArith Lia.
From S2P Require Import Prelude Doubles Types Config SqlAnalyze Observer ConnectionPool Scripts.

Open Scope Z_scope.

(** ** Lines *)
Definition escape_label_char (c : ascii) : str :=
  if ch c backslash then [backslash; backslash]
  else if ch c dquote then [backslash; dquote]
  else if ch c newline then [backslash; "n"%char]
  else if (code c <? 32)%N then ["?"%char]
  else [c].
Definition escapeLabel (s : str) : str := concat (map escape_label_char s).

Definition render_label (kv : str * str) : str :=
  kv.1 ++ lit "=" ++ [dquote] ++ escapeLabel kv.2 ++ [dquote].
Definition renderLabels (kvs : list (str * str)) : str := join [","%char] (map render_label kvs).

Inductive MetricValue := MCount (n : Z) | MDouble (d : double).

(** A line of the exposition; the labels are rendered when it is written. *)
Inductive PromLine :=
  | LHelp (name help : str)
  | LType (name type : str)
  | LMetric (name : str) (labels : list (str * str)) (value : MetricValue).

(** ** The pools *)
Record NamedPoolStats := mkNamed { np_dataSource : str; np_stats : ConnectionPool.Stats }.

Definition fzero : double := f64 0.
Definition utilization (s : ConnectionPool.Stats) : double :=
  if ps_maxConnections s =? 0 then fzero
  else fdiv (f64 (ps_borrowed s)) (f64 (ps_maxConnections s)).

Definition micro_seconds (z : Z) : double := fdiv (f64 z) (f64 1000000).

(** One block of the loop over the pools: the metric, its texts and its value. *)
Record Family := mkFamily {
  fa_suffix : string;
  fa_help : string;
  fa_type : string;
  fa_value : ConnectionPool.Stats -> MetricValue;
}.
Definition counter_family (suffix help : string) (c : Counter) : Family :=
  mkFamily suffix help "counter" (fun s => MCount (ps_counter s c)).
Definition gauge_family (suffix help : string) (f : ConnectionPool.Stats -> Z) : Family :=
  mkFamily suffix help "gauge" (fun s => MCount (f s)).

Definition pool_families : list Family := [
  gauge_family "_pool_connections" "Current total connections in the pool." ps_total;
  gauge_family "_pool_connections_max" "Configured maximum connections." ps_maxConnections;
  gauge_family "_pool_connections_min" "Configured minimum connections." ps_minConnections;
  gauge_family "_pool_connections_idle" "Idle (free) connections." ps_idle;
  gauge_family "_pool_connections_borrowed" "Currently borrowed connections." ps_borrowed;
  mkFamily "_pool_utilization_ratio" "Pool utilization (borrowed / maxConnections)." "gauge"
    (fun s => MDouble (utilization s));
  gauge_family "_pool_waiting" "Threads + futures waiting for a connection."
    (fun s => u64 (ps_waiting s + ps_asyncWaiting s));
  counter_family "_pool_borrow_requests_total" "Total borrow attempts." borrowRequests;
  counter_family "_pool_borrow_successes_total" "Successful borrows." borrowSuccesses;
  counter_family "_pool_borrow_timeouts_total" "Borrow timeouts." borrowTimeouts;
  counter_family "_pool_connection_create_failures_total" "Connection create failures."
    connectionCreateFailures;
  counter_family "_pool_invalidated_connections_total" "Connections invalidated by health check."
    invalidatedConnections;
  counter_family "_pool_validation_failures_total" "Validation failures during borrow."
    validationFailures;
  counter_family "_pool_leak_warnings_total" "Connection leak warnings emitted." leakWarnings;
  counter_family "_pool_idle_evictions_total" "Idle-timeout evictions." idleEvictions;
  counter_family "_pool_lifetime_evictions_total" "Lifetime evictions." lifetimeEvictions;
  counter_family "_pool_connections_created_total" "Connections ever created (lifetime)."
    connectionsCreated;
  counter_family "_pool_connections_closed_total" "Connections ever closed (lifetime)."
    connectionsClosed;
  mkFamily "_pool_borrow_wait_seconds_total" "Cumulative borrow wait time in seconds." "counter"
    (fun s => MDouble (micro_seconds (ps_totalBorrowWait s)));
  mkFamily "_pool_borrow_wait_seconds_max" "Max single borrow wait in seconds." "gauge"
    (fun s => MDouble (micro_seconds (ps_maxBorrowWait s)))
].

(** The flags [..._emitted]: the names whose header has been written. *)
Definition flag_set (flags : list string) (flag : string) : bool := existsb (String.eqb flag) flags.

(** [if (!flag) { emitHelp; emitType; flag = true; }] *)
Definition header (flag : string) (name help type : str) (flags : list string)
    : list PromLine * list string :=
  if flag_set flags flag then ([], flags) else ([LHelp name help; LType name type], flag :: flags).

Definition emit_family (prefix : str) (labels : list (str * str)) (s : ConnectionPool.Stats)
    (f : Family) (flags : list string) : list PromLine * list string :=
  let name := prefix ++ lit (fa_suffix f) in
  let '(head, flags) := header (fa_suffix f) name (lit (fa_help f)) (lit (fa_type f)) flags in
  (head ++ [LMetric name labels (fa_value f s)], flags).

(** The blocks of the body of a loop, one after the other. *)
Fixpoint emit_all {A} (emit : A -> list string -> list PromLine * list string) (l : list A)
    (flags : list string) : list PromLine * list string :=
  match l with
  | [] => ([], flags)
  | x :: rest =>
      let '(ls, flags) := emit x flags in
      let '(ls', flags) := emit_all emit rest flags in
      (ls ++ ls', flags)
  end.

Definition emit_pool (prefix : str) (np : NamedPoolStats) : list string -> list PromLine * list string :=
  emit_all (emit_family prefix [(lit "data_source", np_dataSource np)] (np_stats np)) pool_families.

Definition pool_lines (prefix : str) (pools : list NamedPoolStats) : list PromLine :=
  (emit_all (emit_pool prefix) pools []).1.

(** ** The slow statements *)
Definition slow_labels (s : SlowSqlStats) : list (str * str) :=
  [(lit "data_source", sw_dataSource s); (lit "fingerprint", dec_Z (sw_fingerprint s))].

Section Exposition.
Context (show : double -> str).

(** The loop over the buckets: [leStream << leSec]. *)
Fixpoint bucket_lines (name : str) (s : SlowSqlStats) (buckets histogram : list Z) (cumulative : Z)
    : list PromLine :=
  match buckets, histogram with
  | ms :: buckets, n :: histogram =>
      let cumulative := u64 (cumulative + n) in
      LMetric name (slow_labels s ++ [(lit "le", show (fdiv (f64 ms) (f64 1000)))])
        (MCount cumulative)
      :: bucket_lines name s buckets histogram cumulative
  | _, _ => []
  end.

Definition emit_slow (prefix : str) (s : SlowSqlStats) (flags : list string)
    : list PromLine * list string :=
  let labels := slow_labels s in
  let s_count := prefix ++ lit "_slow_sql_count" in
  let s_err := prefix ++ lit "_slow_sql_errors" in
  let s_to := prefix ++ lit "_slow_sql_timeouts" in
  let s_duration := prefix ++ lit "_slow_sql_duration_seconds" in
  let s_max := prefix ++ lit "_slow_sql_duration_seconds_max" in
  let s_hist := s_duration ++ lit "_bucket" in
  let '(h1, flags) := header "count" s_count (lit "Slow SQL occurrence count.") (lit "counter") flags in
  let '(h2, flags) := header "err" s_err (lit "Slow SQL error count.") (lit "counter") flags in
  let '(h3, flags) := header "to" s_to (lit "Slow SQL timeout count.") (lit "counter") flags in
  let '(h4, flags) := header "duration_family" s_duration
                        (lit "Slow SQL duration histogram in seconds.") (lit "histogram") flags in
  let '(h5, flags) := header "max" s_max (lit "Max slow SQL duration in seconds.") (lit "gauge")
                        flags in
  (h1 ++ [LMetric s_count labels (MCount (sw_count s))]
   ++ h2 ++ [LMetric s_err labels (MCount (sw_errorCount s))]
   ++ h3 ++ [LMetric s_to labels (MCount (sw_timeoutCount s))]
   ++ h4 ++ [LMetric (s_duration ++ lit "_sum") labels (MDouble (micro_seconds (sw_totalDuration s)))]
   ++ h5 ++ [LMetric s_max labels (MDouble (micro_seconds (sw_maxDuration s)))]
   ++ bucket_lines s_hist s (sw_histogramBucketsMs s) (sw_histogram s) 0
   ++ [LMetric s_hist (labels ++ [(lit "le", lit "+Inf")]) (MCount (sw_count s));
       LMetric (s_duration ++ lit "_count") labels (MCount (sw_count s))], flags).

Definition slow_lines (prefix : str) (slow : list SlowSqlStats) (maxFingerprintLabels : nat)
    : list PromLine :=
  let n := if (maxFingerprintLabels =? 0)%nat then length slow
           else Nat.min (length slow) maxFingerprintLabels in
  (emit_all (emit_slow prefix) (take n slow) []).1.

Definition value_text (v : MetricValue) : str :=
  match v with MCount n => dec_Z n | MDouble d => show d end.

Definition prom_line (l : PromLine) : str :=
  match l with
  | LHelp name help => lit "# HELP " ++ name ++ lit " " ++ help ++ [newline]
  | LType name type => lit "# TYPE " ++ name ++ lit " " ++ type ++ [newline]
  | LMetric name labels value =>
      let labels := renderLabels labels in
      if is_nil labels then name ++ lit " " ++ value_text value ++ [newline]
      else name ++ lit "{" ++ labels ++ lit "} " ++ value_text value ++ [newline]
  end.

Definition exposition (prefix : str) (pools : list NamedPoolStats) (slow : list SlowSqlStats)
    (maxFingerprintLabels : nat) : list PromLine :=
  pool_lines prefix pools ++ slow_lines prefix slow maxFingerprintLabels.

Definition toPrometheusText (prefix : str) (pools : list NamedPoolStats)
    (slow : list SlowSqlStats) (maxFingerprintLabels : nat) : str :=
  concat (map prom_line (exposition prefix pools slow maxFingerprintLabels)).
End Exposition.

(** ** Reading an exposition back *)
Definition name_char (c : ascii) : bool := isalnum c || ch c "_" || ch c ":".

(** A quoted label value, whose opening quote has been read. *)
Fixpoint read_label (s : str) : option (str * str) :=
  match s with
  | [] => None
  | c :: s1 =>
      if ch c dquote then Some ([], s1)
      else if ch c backslash then
        match s1 with
        | [] => None
        | e :: s2 => '(v, r) ← read_label s2; Some ((if ch e "n" then newline else e) :: v, r)
        end
      else '(v, r) ← read_label s1; Some (c :: v, r)
  end.

Fixpoint read_labels (fuel : nat) (s : str) : option (list (str * str) * str) :=
  match fuel with
  | O => None
  | S fuel =>
      match skip_while name_char s with
      | e :: q :: s1 =>
          if ch e "=" && ch q dquote then
            '(v, r) ← read_label s1;
            match r with
            | c :: r1 =>
                if ch c "," then
                  '(ls, r2) ← read_labels fuel r1; Some ((take_while name_char s, v) :: ls, r2)
                else if ch c "}" then Some ([(take_while name_char s, v)], r1)
                else None
            | [] => None
            end
          else None
      | _ => None
      end
  end.

Inductive Reading :=
  | RComment (text : str)
  | RSample (name : str) (labels : list (str * str)) (value : str).

(** A line without its line feed. *)
Definition read_line (l : str) : option Reading :=
  if prefixb (lit "# ") l then Some (RComment (drop 2 l))
  else
    match skip_while name_char l with
    | c :: s =>
        if ch c "{" then
          '(ls, r) ← read_labels (length s) s;
          match r with sp :: v => if ch sp " " then Some (RSample (take_while name_char l) ls v) else None
                     | [] => None end
        else if ch c " " then Some (RSample (take_while name_char l) [] s)
        else None
    | [] => None
    end.
Definition chomp (l : str) : str := removelast l.

(** What the escaping does not preserve: control characters other than the line
    feed. *)
Definition sanitize_char (c : ascii) : ascii :=
  if (code c <? 32)%N && negb (ch c newline) then "?"%char else c.
Definition sanitize (kv : str * str) : str * str := (kv.1, map sanitize_char kv.2).

Lemma escape_char_reads c s :
  read_label (escape_label_char c ++ s)
  = ('(v, r) ← read_label s; Some (sanitize_char c :: v, r)).
Proof.
  unfold escape_label_char, sanitize_char.
  destruct (ch c backslash) eqn:E1; [apply ch_eq in E1; by subst|].
  destruct (ch c dquote) eqn:E2; [apply ch_eq in E2; by subst|].
  destruct (ch c newline) eqn:E3; [apply ch_eq in E3; by subst|].
  destruct (code c <? 32)%N; cbn [app read_label andb negb]; [done|].
  by rewrite E2, E1.
Qed.

Lemma escape_reads v rest :
  read_label (escapeLabel v ++ dquote :: rest) = Some (map sanitize_char v, rest).
Proof.
  unfold escapeLabel. induction v as [|c v IH]; [done|]. cbn [map concat].
  rewrite <- app_assoc, escape_char_reads, IH. done.
Qed.

Lemma name_split n c s : forallb name_char n = true -> name_char c = false ->
  skip_while name_char (n ++ c :: s) = c :: s /\ take_while name_char (n ++ c :: s) = n.
Proof.
  intros Hn Hc. induction n as [|d n IH]; cbn in *; [by rewrite Hc|].
  apply andb_true_iff in Hn as [Hd Hn]. rewrite Hd. destruct (IH Hn) as [-> ->]. done.
Qed.

Lemma join_cons sep x y l : join sep (x :: y :: l) = x ++ sep ++ join sep (y :: l).
Proof. done. Qed.

Lemma labels_read kvs fuel rest :
  Forall (fun kv => forallb name_char kv.1 = true) kvs -> kvs <> [] -> (length kvs <= fuel)%nat ->
  read_labels fuel (renderLabels kvs ++ "}"%char :: rest) = Some (map sanitize kvs, rest).
Proof.
  intros H. revert fuel. unfold renderLabels.
  induction H as [|[k v] kvs Hk Hkvs IH]; intros fuel Hne Hf; [done|].
  destruct fuel as [|fuel]; [cbn in Hf; lia|]. cbn in Hk, Hf.
  assert (forall t, read_labels (S fuel) (render_label (k, v) ++ t)
            = match t with
              | c :: r1 =>
                  if ch c "," then
                    '(ls, r2) ← read_labels fuel r1; Some ((k, map sanitize_char v) :: ls, r2)
                  else if ch c "}" then Some ([(k, map sanitize_char v)], r1) else None
              | [] => None
              end) as Hone.
  { intros t. unfold render_label. cbn [fst snd lit String.list_ascii_of_string app].
    rewrite <- app_assoc. cbn [app]. rewrite <- app_assoc. cbn [app read_labels].
    destruct (name_split k "=" (dquote :: escapeLabel v ++ dquote :: t) Hk eq_refl) as [-> ->].
    replace (ch "=" "=" && ch dquote dquote) with true by done.
    by rewrite escape_reads. }
  destruct kvs as [|kv2 kvs].
  - cbn [map join]. by rewrite Hone.
  - cbn [map]. rewrite join_cons, <- !app_assoc, Hone. cbn [app].
    replace (ch "," ",") with true by done.
    specialize (IH fuel). cbn [map] in IH. rewrite IH by (done || (cbn in *; lia)). done.
Qed.

(** *** The lines are well formed *)
Section Reading.
Context (show : double -> str) (show_plain : forall d, no_newline (show d) = true).

Definition line_ok (l : PromLine) : Prop :=
  match l with
  | LHelp name text | LType name text => no_newline name = true /\ no_newline text = true
  | LMetric name labels _ =>
      forallb name_char name = true /\ Forall (fun kv => forallb name_char kv.1 = true) labels
  end.

Definition reading (l : PromLine) : Reading :=
  match l with
  | LHelp name help => RComment (lit "HELP " ++ name ++ lit " " ++ help)
  | LType name type => RComment (lit "TYPE " ++ name ++ lit " " ++ type)
  | LMetric name labels value => RSample name (map sanitize labels) (value_text show value)
  end.

Lemma no_newline_app a b : no_newline (a ++ b) = no_newline a && no_newline b.
Proof. apply forallb_app. Qed.

Lemma all_no_newline f s : (forall c, f c = true -> ch c newline = false) ->
  forallb f s = true -> no_newline s = true.
Proof.
  intros Hf H. unfold no_newline. rewrite forallb_forall in *. intros c Hc.
  by rewrite (Hf c (H c Hc)).
Qed.

Lemma name_no_newline s : forallb name_char s = true -> no_newline s = true.
Proof. apply all_no_newline. intros c. all_chars c. Qed.

Lemma dec_Z_no_newline z : no_newline (dec_Z z) = true.
Proof.
  assert (forall n, no_newline (dec_N n) = true) as H.
  { intros n. apply (all_no_newline isdigit); [intros c; all_chars c|].
    apply forallb_forall. intros c Hc. pose proof (dec_N_digits n) as F.
    rewrite Forall_forall in F. by apply F, list_elem_of_In. }
  unfold dec_Z. case_match; [|apply H]. apply (H (Z.abs_N z)).
Qed.

Lemma escape_no_newline v : no_newline (escapeLabel v) = true.
Proof.
  unfold escapeLabel. induction v as [|c v IH]; [done|]. cbn [map concat].
  rewrite no_newline_app, IH, andb_true_r. all_chars c.
Qed.

Lemma labels_no_newline kvs : Forall (fun kv => forallb name_char kv.1 = true) kvs ->
  no_newline (renderLabels kvs) = true.
Proof.
  unfold renderLabels. induction 1 as [|[k v] kvs Hk Hkvs IH]; [done|].
  assert (no_newline (render_label (k, v)) = true) as H1.
  { unfold render_label. rewrite !no_newline_app, escape_no_newline, andb_true_r. cbn [fst snd].
    rewrite name_no_newline by done. done. }
  destruct kvs as [|kv2 kvs]; [exact H1|]. cbn [map] in *.
  rewrite join_cons, !no_newline_app, H1, IH. done.
Qed.

(** The text of a line without its line feed. *)
Definition line_body (l : PromLine) : str :=
  match l with
  | LHelp name help => lit "# HELP " ++ name ++ lit " " ++ help
  | LType name type => lit "# TYPE " ++ name ++ lit " " ++ type
  | LMetric name labels value =>
      if is_nil (renderLabels labels) then name ++ lit " " ++ value_text show value
      else name ++ lit "{" ++ renderLabels labels ++ lit "} " ++ value_text show value
  end.

Lemma prom_line_body l : prom_line show l = line_body l ++ [newline].
Proof.
  destruct l; cbn [prom_line line_body]; [| |case_match]; by rewrite <- ?app_assoc.
Qed.

Lemma line_body_plain l : line_ok l -> no_newline (line_body l) = true.
Proof.
  assert (forall v, no_newline (value_text show v) = true) as Hv
    by (intros []; [apply dec_Z_no_newline | apply show_plain]).
  destruct l; cbn [line_ok line_body]; intros [H1 H2].
  1,2: rewrite !no_newline_app, H1, H2; done.
  case_match; rewrite !no_newline_app, Hv, name_no_newline by done; [done|].
  rewrite labels_no_newline by done. done.
Qed.

Lemma render_nil_iff kvs : is_nil (renderLabels kvs) = is_nil kvs.
Proof.
  destruct kvs as [|[k v] [|kv2 kvs]]; [done| |]; unfold renderLabels; cbn [map join];
    unfold render_label; cbn [fst snd]; by destruct k.
Qed.

Lemma sample_line_reads name labels v : line_ok (LMetric name labels v) ->
  read_line (line_body (LMetric name labels v)) = Some (reading (LMetric name labels v)).
Proof.
  intros [Hn Hl]. cbn [line_body reading]. rewrite render_nil_iff. unfold read_line.
  assert (forall t, prefixb (lit "# ") (name ++ t) = true -> exists t', name ++ t = "#"%char :: t') as Hsharp.
  { intros t [t' ->]%prefixb_spec. cbn. eauto. }
  assert (forall c t, name_char c = false -> c <> "#"%char ->
            prefixb (lit "# ") (name ++ c :: t) = false) as Hno.
  { intros c t Hc Hs. apply not_true_iff_false. intros H. apply Hsharp in H as [t' H].
    destruct name as [|d name]; [by injection H|]. injection H as -> _. done. }
  destruct labels as [|kv labels]; cbn [is_nil lit String.list_ascii_of_string app].
  - rewrite Hno by done.
    destruct (name_split name " " (value_text show v) Hn eq_refl) as [-> ->]. done.
  - rewrite Hno by done.
    destruct (name_split name "{" (renderLabels (kv :: labels) ++ lit "} " ++ value_text show v)
                Hn eq_refl) as [E1 E2].
    cbn [lit String.list_ascii_of_string app] in E1, E2. rewrite E1, E2.
    replace (ch "{" "{") with true by done.
    rewrite labels_read; [done | done | done |].
    rewrite length_app. unfold renderLabels. cbn [length].
    enough (length (kv :: labels) <= length (join [","%char] (map render_label (kv :: labels))))%nat
      by (cbn [length] in *; lia).
    clear. generalize (kv :: labels). intros l. induction l as [|x l IH]; [done|].
    assert (1 <= length (render_label x))%nat
      by (unfold render_label; rewrite !length_app; cbn; lia).
    destruct l as [|y l]; [cbn; lia|]. cbn [map] in *. rewrite join_cons, !length_app.
    cbn [length] in *. lia.
Qed.

Lemma line_reads l : line_ok l -> read_line (line_body l) = Some (reading l).
Proof. destruct l; [done | done | apply sample_line_reads]. Qed.

Lemma lines_of_text ls : Forall line_ok ls ->
  map (fun l => read_line (chomp l)) (lines (concat (map (prom_line show) ls)) [])
  = map (fun l => Some (reading l)) ls.
Proof.
  induction 1 as [|l ls Hl Hls IH]; [done|]. cbn [map concat].
  rewrite prom_line_body, <- app_assoc. cbn [app].
  rewrite lines_line by (by apply line_body_plain). cbn [app map].
  unfold chomp at 1. rewrite removelast_last, line_reads, IH by done. done.
Qed.
End Reading.

(** *** Every line is well formed *)
Lemma emit_all_Forall {A} (P : PromLine -> Prop) (emit : A -> list string -> list PromLine * list string)
    (l : list A) flags :
  (forall x flags, x ∈ l -> Forall P (emit x flags).1) -> Forall P (emit_all emit l flags).1.
Proof.
  revert flags. induction l as [|x l IH]; intros flags H; cbn [emit_all]; [constructor|].
  pose proof (H x flags (list_elem_of_here _ _)) as Hx. destruct (emit x flags) as [ls f].
  pose proof (IH f (fun y g Hy => H y g (list_elem_of_further _ _ _ Hy))) as Hl.
  destruct (emit_all emit l f) as [ls' f']. by apply Forall_app.
Qed.

Lemma header_ok flag name help type flags :
  no_newline name = true -> no_newline help = true -> no_newline type = true ->
  Forall line_ok (header flag name help type flags).1.
Proof. intros H1 H2 H3. unfold header. case_match; repeat constructor; done. Qed.

Lemma name_ok_app a b : forallb name_char a = true -> forallb name_char b = true ->
  forallb name_char (a ++ b) = true.
Proof. intros H1 H2. by rewrite forallb_app, H1, H2. Qed.

Lemma family_texts_ok : Forall (fun f =>
  forallb name_char (lit (fa_suffix f)) = true /\ no_newline (lit (fa_help f)) = true
  /\ no_newline (lit (fa_type f)) = true) pool_families.
Proof. repeat constructor. Qed.

Lemma emit_family_ok prefix labels s f flags : forallb name_char prefix = true ->
  Forall (fun kv => forallb name_char kv.1 = true) labels -> f ∈ pool_families ->
  Forall line_ok (emit_family prefix labels s f flags).1.
Proof.
  intros Hp Hl Hf. pose proof (proj1 (Forall_forall _ _) family_texts_ok f Hf) as (H1 & H2 & H3).
  unfold emit_family.
  pose proof (header_ok (fa_suffix f) (prefix ++ lit (fa_suffix f)) (lit (fa_help f))
                (lit (fa_type f)) flags) as Hh.
  destruct (header _ _ _ _ _) as [head flags']. cbn [fst] in *.
  apply Forall_app. split.
  - apply Hh; [|done..]. apply name_no_newline. by apply name_ok_app.
  - repeat constructor; [by apply name_ok_app | done].
Qed.

Lemma pool_lines_ok prefix pools : forallb name_char prefix = true ->
  Forall line_ok (pool_lines prefix pools).
Proof.
  intros Hp. apply emit_all_Forall. intros np flags _. apply emit_all_Forall.
  intros f flags' Hf. apply emit_family_ok; [done | by repeat constructor | done].
Qed.

Lemma slow_labels_ok s : Forall (fun kv => forallb name_char kv.1 = true) (slow_labels s).
Proof. by repeat constructor. Qed.

Lemma bucket_lines_ok show name s buckets histogram cumulative : forallb name_char name = true ->
  Forall line_ok (bucket_lines show name s buckets histogram cumulative).
Proof.
  intros Hn. revert histogram cumulative.
  induction buckets as [|ms buckets IH]; intros [|n histogram] cumulative; cbn [bucket_lines];
    constructor; [|apply IH].
  split; [done|]. by repeat constructor.
Qed.

Lemma emit_slow_ok show prefix s flags : forallb name_char prefix = true ->
  Forall line_ok (emit_slow show prefix s flags).1.
Proof.
  intros Hp. unfold emit_slow.
  repeat match goal with
  | |- context [header ?flag ?name ?help ?type ?flags] =>
      assert (Forall line_ok (header flag name help type flags).1)
        by (apply header_ok; [apply name_no_newline; repeat apply name_ok_app; done | done | done]);
      destruct (header flag name help type flags) as [? ?]; cbn [fst] in *
  end.
  repeat first [apply Forall_app; split | assumption
               | apply bucket_lines_ok; repeat apply name_ok_app; done
               | apply Forall_cons; split | apply Forall_nil_2
               | split; [repeat apply name_ok_app; done | by repeat constructor]].
Qed.

Lemma exposition_ok show prefix pools slow k : forallb name_char prefix = true ->
  Forall line_ok (exposition show prefix pools slow k).
Proof.
  intros Hp. apply Forall_app. split; [by apply pool_lines_ok|].
  apply emit_all_Forall. intros s flags _. by apply emit_slow_ok.
Qed.

(** the exposition text is read back line by line: under a prefix of name
    characters, every line of the text is the sample or comment that was
    written, with each label value as it was up to control characters, so no
    data source name can break out of its quotes or of its line. *)
Theorem exposition_reads_back show prefix pools slow k
  (Hprefix : forallb name_char prefix = true) (Hshow : forall d, no_newline (show d) = true) :
  map (fun l => read_line (chomp l)) (lines (toPrometheusText show prefix pools slow k) [])
  = map (fun l => Some (reading show l)) (exposition show prefix pools slow k).
Proof. apply lines_of_text; [done | by apply exposition_ok]. Qed.

Definition demo_stats (n : Z) : ConnectionPool.Stats :=
  {| ps_minConnections := 0; ps_maxConnections := 10; ps_idle := n; ps_total := n;
     ps_borrowed := 0; ps_waiting := 0; ps_asyncWaiting := 0; ps_maxBorrowed := 0;
     ps_maxWaiting := 0; ps_totalBorrowWait := 0; ps_maxBorrowWait := 0;
     ps_counter := fun _ => n |}.

Lemma exposition_reads_back_witness :
  let show := fun _ : double => lit "0" in
  let pools := [mkNamed (lit "a" ++ [dquote] ++ lit "} 9" ++ [newline]) (demo_stats 3)] in
  let text := toPrometheusText show (lit "sqlconduit") pools [] 0 in
  length (lines text []) = 60%nat
  /\ map (fun l => read_line (chomp l)) (lines text [])
     = map (fun l => Some (reading show l)) (exposition show (lit "sqlconduit") pools [] 0).
Proof.
  intros show pools text. split; [reflexivity|].
  apply exposition_reads_back; [reflexivity | intros d; reflexivity].
Defined.

(** ** The headers *)
Definition family_header (prefix : str) (f : Family) : list PromLine :=
  [LHelp (prefix ++ lit (fa_suffix f)) (lit (fa_help f));
   LType (prefix ++ lit (fa_suffix f)) (lit (fa_type f))].
Definition family_metric (prefix : str) (np : NamedPoolStats) (f : Family) : PromLine :=
  LMetric (prefix ++ lit (fa_suffix f)) [(lit "data_source", np_dataSource np)]
    (fa_value f (np_stats np)).

Lemma flag_set_in flags flag : flag_set flags flag = true <-> flag ∈ flags.
Proof.
  unfold flag_set. rewrite existsb_exists. split.
  - intros (x & Hx & E). apply String.eqb_eq in E as ->. by apply list_elem_of_In.
  - intros H. exists flag. split; [by apply list_elem_of_In | apply String.eqb_refl].
Qed.

Lemma emit_families_fresh prefix np (fs : list Family) flags :
  NoDup (map fa_suffix fs) -> (forall f, f ∈ fs -> fa_suffix f ∉ flags) ->
  emit_all (emit_family prefix [(lit "data_source", np_dataSource np)] (np_stats np)) fs flags
  = (concat (map (fun f => family_header prefix f ++ [family_metric prefix np f]) fs),
     rev (map fa_suffix fs) ++ flags).
Proof.
  revert flags. induction fs as [|f fs IH]; intros flags Hnd Hfr; [done|].
  cbn [map] in Hnd. apply NoDup_cons in Hnd as [Hf Hnd].
  cbn [emit_all emit_family map concat rev]. unfold emit_family at 1, header.
  assert (flag_set flags (fa_suffix f) = false) as ->.
  { apply not_true_iff_false. rewrite flag_set_in. apply Hfr. left. }
  rewrite IH; [|done|].
  - rewrite <- !app_assoc. done.
  - intros g Hg. rewrite not_elem_of_cons. split; [|apply Hfr; by right].
    intros E. apply Hf. rewrite <- E. apply list_elem_of_In, in_map. by apply list_elem_of_In.
Qed.

Lemma emit_families_seen prefix np (fs : list Family) flags :
  (forall f, f ∈ fs -> fa_suffix f ∈ flags) ->
  emit_all (emit_family prefix [(lit "data_source", np_dataSource np)] (np_stats np)) fs flags
  = (map (family_metric prefix np) fs, flags).
Proof.
  induction fs as [|f fs IH]; intros Hin; [done|].
  cbn [emit_all map]. unfold emit_family at 1, header.
  rewrite (proj2 (flag_set_in _ _)) by (apply Hin; left). cbn [app].
  rewrite IH by (intros g Hg; apply Hin; by right). done.
Qed.

Lemma suffixes_distinct : NoDup (map fa_suffix pool_families).
Proof. apply NoDup_ListNoDup. repeat constructor; cbn; intuition congruence. Qed.

(** the headers of the pool metrics are written exactly once, each right
    before the first sample of its metric: the first pool gets all the blocks of
    comments and samples, every further pool only its samples, in the same
    order, and with no pool there is no line at all. *)
Theorem pool_lines_shape prefix pools :
  pool_lines prefix pools
  = match pools with
    | [] => []
    | np :: rest =>
        concat (map (fun f => family_header prefix f ++ [family_metric prefix np f]) pool_families)
        ++ concat (map (fun np => map (family_metric prefix np) pool_families) rest)
    end.
Proof.
  unfold pool_lines. destruct pools as [|np rest]; [done|]. cbn [emit_all]. unfold emit_pool at 1.
  rewrite emit_families_fresh by (apply suffixes_distinct || (intros f _; apply not_elem_of_nil)).
  rewrite app_nil_r. set (flags := rev (map fa_suffix pool_families)).
  assert (forall f, f ∈ pool_families -> fa_suffix f ∈ flags) as Hin.
  { intros f Hf. unfold flags. apply list_elem_of_In. rewrite <- in_rev. apply in_map.
    by apply list_elem_of_In. }
  assert (forall l, emit_all (emit_pool prefix) l flags
            = (concat (map (fun np => map (family_metric prefix np) pool_families) l), flags)) as Hr.
  { induction l as [|q l IH]; [done|]. cbn [emit_all map concat]. unfold emit_pool at 1.
    rewrite emit_families_seen by done. by rewrite IH. }
  by rewrite Hr.
Qed.

(** *** The lines of one metric

    The exposition format wants all the lines of a metric together, comments
    first. *)
Definition line_name (l : PromLine) : str :=
  match l with LHelp n _ | LType n _ | LMetric n _ _ => n end.
Definition grouped (P : PromLine -> Prop) (ls : list PromLine) : Prop :=
  exists a b c, ls = a ++ b ++ c /\ Forall P b /\ Forall (fun l => ~ P l) (a ++ c).

Lemma app_prefix_of {A} (P : A -> Prop) (p q a : list A) x z :
  a ++ x :: z = p ++ q -> P x -> Forall (fun y => ~ P y) p -> exists p2, a = p ++ p2.
Proof.
  intros E Hx Hp. revert a E. induction Hp as [|w p Hw Hp IH]; intros a E; [by exists a|].
  destruct a as [|w' a]; injection E as -> E; [done|].
  destruct (IH a E) as [p2 ->]. by exists p2.
Qed.

Lemma app_suffix_of {A} (P : A -> Prop) (q r d u : list A) z :
  u ++ z :: d = q ++ r -> P z -> Forall (fun y => ~ P y) r -> exists d2, d = d2 ++ r.
Proof.
  intros E Hz Hr. apply app_eq_app in E as (w & [[-> E]|[-> E]]).
  - subst r. apply Forall_app in Hr as [_ Hr]. inversion Hr. by subst.
  - destruct w as [|v w]; cbn in E.
    + subst r. by inversion Hr.
    + injection E as <- E. rewrite E. by exists w.
Qed.

Lemma grouped_gap (P : PromLine -> Prop) x y z a b c d : P x -> ~ P y -> P z ->
  ~ grouped P (a ++ x :: b ++ y :: c ++ z :: d).
Proof.
  intros Hx Hy Hz (p & q & r & E & Hq & Hpr). apply Forall_app in Hpr as [Hp Hr].
  destruct (app_prefix_of P p (q ++ r) a x _ E Hx Hp) as [p2 ->].
  rewrite <- app_assoc in E. apply app_inv_head in E.
  destruct (app_suffix_of P q r d (p2 ++ x :: b ++ y :: c) z) as [d2 ->]; [|done..|].
  { rewrite <- E, <- !app_assoc. cbn. by rewrite <- !app_assoc. }
  assert (p2 ++ x :: b ++ y :: c ++ z :: d2 = q) as <-.
  { apply (app_inv_tail r). rewrite <- E, <- !app_assoc. cbn. rewrite <- !app_assoc. cbn.
    by rewrite <- !app_assoc. }
  rewrite Forall_forall in Hq. apply Hy, Hq. apply elem_of_app. right. right.
  apply elem_of_app. right. left.
Qed.

(** with two pools or more the lines of a metric are not together: the
    samples of the second pool follow the other metrics of the first. *)
Theorem pool_metrics_not_grouped prefix p q rest :
  ~ grouped (fun l => line_name l = prefix ++ lit "_pool_connections")
      (pool_lines prefix (p :: q :: rest)).
Proof.
  rewrite pool_lines_shape. cbn [map concat].
  set (more := concat (map _ rest)). clearbody more.
  destruct pool_families as [|f1 [|f2 fs]] eqn:E; [done | done |].
  unfold pool_families in E. injection E as H1 H2 _.
  cbn [map concat]. unfold family_header at 1 2. cbn [app].
  set (u := concat (map _ fs)). set (v := map _ fs). clearbody u v.
  apply (grouped_gap _ _ (LHelp (prefix ++ lit (fa_suffix f2)) (lit (fa_help f2)))
           (family_metric prefix q f1) [] [_; _] (_ :: _ :: u) (family_metric prefix q f2 :: v ++ more)); cbn [line_name family_metric]; [by rewrite <- H1| |by rewrite <- H1].
  rewrite <- H2. intros [=H]%app_inv_head.
Qed.

Definition in_histogram (prefix : str) (l : PromLine) : Prop :=
  let base := prefix ++ lit "_slow_sql_duration_seconds" in
  line_name l = base \/ line_name l = base ++ lit "_sum" \/ line_name l = base ++ lit "_bucket"
  \/ line_name l = base ++ lit "_count".

(** the histogram of a slow statement is interrupted by the gauge of the
    maximum even for a single statement: its comments come before the gauge and
    its buckets after. *)
Theorem histogram_not_grouped show prefix s rest k :
  ~ grouped (in_histogram prefix) (slow_lines show prefix (s :: rest) k).
Proof.
  unfold slow_lines.
  assert (exists n, (if k =? 0 then length (s :: rest) else Nat.min (length (s :: rest)) k)%nat = S n)
    as [n ->] by (destruct k; cbn; eauto).
  cbn [take emit_all].
  unfold emit_slow at 1, header, flag_set.
  cbn -[prefixb lit bucket_lines slow_labels micro_seconds emit_all].
  match goal with |- context [emit_all ?e ?l ?f] => destruct (emit_all e l f) as [ls f'] end.
  cbn [fst]. set (u := bucket_lines _ _ _ _ _ _). rewrite <- app_assoc. cbn [app]. rewrite <- app_assoc.
  apply (grouped_gap _ _ (LHelp (prefix ++ lit "_slow_sql_duration_seconds_max") _)
           (LMetric _ _ (MCount (sw_count s))) [_; _; _; _; _; _; _; _; _] [_; _] (_ :: _ :: u) _); unfold in_histogram; cbn [line_name].
  - by left.
  - rewrite <- !app_assoc. intros H.
    repeat (destruct H as [H|H]; [by apply app_inv_head in H|]). by apply app_inv_head in H.
  - by right; right; left.
Qed.

(** ** The histogram *)
(** The values of the bucket lines. *)
Definition line_count (l : PromLine) : option Z :=
  match l with LMetric _ _ (MCount n) => Some n | _ => None end.
Definition bucket_counts show (name : str) (s : SlowSqlStats) : list Z :=
  omap line_count (bucket_lines show name s (sw_histogramBucketsMs s) (sw_histogram s) 0).

(** Sums of the prefixes. *)
Fixpoint running (acc : Z) (l : list Z) : list Z :=
  match l with [] => [] | n :: l => acc + n :: running (acc + n) l end.

Lemma sum_nonneg l : Forall (Z.le 0) l -> 0 <= foldr Z.add 0 l.
Proof. induction 1; cbn; lia. Qed.

Lemma bucket_lines_running show name s buckets histogram acc :
  Forall (Z.le 0) histogram -> 0 <= acc -> acc + foldr Z.add 0 histogram < two64 ->
  omap line_count (bucket_lines show name s buckets histogram acc)
  = running acc (take (length buckets) histogram).
Proof.
  intros H. revert acc buckets.
  induction H as [|n histogram Hn Hh IH]; intros acc [|ms buckets] Ha Hs; try done.
  cbn [bucket_lines omap list_omap line_count length take running foldr] in *.
  pose proof (sum_nonneg _ Hh).
  assert (u64 (acc + n) = acc + n) as -> by (apply Z.mod_small; lia).
  f_equal. apply IH; lia.
Qed.

Lemma running_bounds acc l : Forall (Z.le 0) l ->
  Forall (fun c => acc <= c <= acc + foldr Z.add 0 l) (running acc l)
  /\ Sorted.StronglySorted Z.le (running acc l).
Proof.
  intros H. revert acc. induction H as [|n l Hn Hl IH]; intros acc; cbn [running foldr].
  { split; constructor. }
  destruct (IH (acc + n)) as [H1 H2]. pose proof (sum_nonneg _ Hl). split.
  - constructor; [lia|]. eapply Forall_impl; [exact H1|]. cbn. lia.
  - constructor; [done|]. eapply Forall_impl; [exact H1|]. cbn. lia.
Qed.

(** the exported histogram is a Prometheus histogram: for an entry of the
    slow-statement table whose counts have not wrapped, there is one bucket line
    per bound, their counts never decrease and none exceeds that of the [+Inf]
    line, which is the count of the statement. *)
Theorem histogram_cumulative show name key s
  (Hs : stats_ok key s) (Hn : Forall (Z.le 0) (sw_histogram s))
  (Hw : foldr Z.add 0 (sw_histogram s) < two64) :
  length (bucket_counts show name s) = length (sw_histogramBucketsMs s)
  /\ Sorted.StronglySorted Z.le (bucket_counts show name s)
  /\ Forall (fun c => 0 <= c <= sw_count s) (bucket_counts show name s).
Proof.
  destruct Hs as [_ Hb Hsum _]. unfold bucket_counts.
  rewrite bucket_lines_running by (done || lia).
  rewrite <- Hsum. pose proof (sum_nonneg _ Hn) as H0.
  assert (u64 (foldr Z.add 0 (sw_histogram s)) = foldr Z.add 0 (sw_histogram s)) as ->
    by (by apply Z.mod_small).
  assert (forall l acc, length (running acc l) = length l) as Hlen
    by (induction l as [|x l IH]; intros acc; cbn; [done | by rewrite IH]).
  rewrite Hlen, length_take. split; [lia|].
  set (n := length (sw_histogramBucketsMs s)).
  assert (Forall (Z.le 0) (take n (sw_histogram s))) as Ht by (by apply Forall_take).
  destruct (running_bounds 0 _ Ht) as [H1 H2]. split; [done|].
  eapply Forall_impl; [exact H1|]. cbn. intros c Hc.
  enough (foldr Z.add 0 (take n (sw_histogram s)) <= foldr Z.add 0 (sw_histogram s)) by lia.
  rewrite <- (take_drop n (sw_histogram s)) at 2. rewrite foldr_app.
  pose proof (sum_nonneg _ (Forall_drop _ n _ Hn)) as Hd. revert Hd.
  generalize (foldr Z.add 0 (drop n (sw_histogram s))). generalize (take n (sw_histogram s)).
  intros l d Hd. induction l as [|x l IH]; cbn; lia.
Qed.

Definition demo_slow : SlowSqlStats :=
  mkSlowStats 7 (lit "db") OpQuery (lit "SELECT ?") 6 0 0 100 5 90 0 0 [10; 100] [1; 3; 2].

Lemma histogram_cumulative_witness :
  bucket_counts (fun _ => []) [] demo_slow = [1; 4]
  /\ Forall (fun c => 0 <= c <= 6) (bucket_counts (fun _ => []) [] demo_slow).
Proof.
  split; [reflexivity|].
  apply (histogram_cumulative (fun _ => []) [] 7 demo_slow).
  - split; try reflexivity. cbn. lia.
  - repeat constructor; lia.
  - reflexivity.
Defined.

(** ** The series of the slow statements *)
Lemma slow_labels_read s rest :
  read_labels 2 (renderLabels (slow_labels s) ++ "}"%char :: rest)
  = Some (map sanitize (slow_labels s), rest).
Proof. apply labels_read; [apply slow_labels_ok | done | done]. Qed.

Lemma sanitize_plain v : forallb (fun c => (32 <=? code c)%N) v = true -> map sanitize_char v = v.
Proof.
  induction v as [|c v IH]; intros H; [done|]. cbn in *. apply andb_true_iff in H as [Hc H].
  rewrite IH by done. unfold sanitize_char. apply N.leb_le in Hc.
  replace (code c <? 32)%N with false by (symmetry; apply N.ltb_ge; lia). done.
Qed.

Lemma dec_Z_plain z : forallb (fun c => (32 <=? code c)%N) (dec_Z z) = true.
Proof.
  assert (forall n, forallb (fun c => (32 <=? code c)%N) (dec_N n) = true) as H.
  { intros n. apply forallb_forall. intros c Hc. pose proof (dec_N_digits n) as F.
    rewrite Forall_forall in F. apply list_elem_of_In in Hc. specialize (F c Hc).
    revert F. clear. all_chars c. }
  unfold dec_Z. case_match; [|apply H]. cbn [forallb]. by rewrite H.
Qed.

Lemma dec_Z_inj a b : dec_Z a = dec_Z b -> a = b.
Proof. intros H. apply (dec_Z_app_inj a b [] []); [done | done | by rewrite H]. Qed.

Lemma slow_series_inj s t :
  renderLabels (slow_labels s) = renderLabels (slow_labels t) -> sw_fingerprint s = sw_fingerprint t.
Proof.
  intros E. pose proof (slow_labels_read s []) as Hs. rewrite E, slow_labels_read in Hs.
  injection Hs as _ Hf. unfold slow_labels in Hf. cbn [map sanitize fst snd] in Hf.
  rewrite !sanitize_plain in Hf by apply dec_Z_plain. symmetry. by apply dec_Z_inj.
Qed.

(** no two slow statements of an exposition share a series: what
    [slowSqlStats] takes from a well-formed table, in whatever order it sorts,
    has pairwise different label texts. *)
Theorem slow_series_distinct C R st sort limit dataSource
  (Hst : store_ok C R st) (Hsort : forall l, sort l ≡ₚ l) :
  NoDup (map (fun s => renderLabels (slow_labels s)) (slowSqlStats sort limit dataSource st)).
Proof.
  unfold slowSqlStats.
  assert (forall l, NoDup (map sw_fingerprint l) -> NoDup (map (fun s => renderLabels (slow_labels s)) l))
    as Hlift.
  { induction l as [|s l IH]; intros H; cbn [map] in *; [constructor|].
    apply NoDup_cons in H as [Hs H]. constructor; [|by apply IH]. intros Hin. apply Hs.
    apply list_elem_of_fmap in Hin as (t & E & Ht). rewrite (slow_series_inj s t E).
    by apply list_elem_of_fmap_2. }
  apply Hlift. apply (sublist_NoDup _ (map sw_fingerprint (sort (List.filter
    (fun x => is_nil dataSource || str_eqb (sw_dataSource x) dataSource)
    (map snd (map_to_list (st_slowStats st))))))).
  - rewrite Hsort. apply (sublist_NoDup _ (map sw_fingerprint (map snd (map_to_list (st_slowStats st))))).
    + rewrite map_map.
      assert (map (fun x => sw_fingerprint x.2) (map_to_list (st_slowStats st))
              = map fst (map_to_list (st_slowStats st))) as ->.
      { apply map_ext_in. intros [k s] Hin. apply list_elem_of_In, elem_of_map_to_list in Hin.
        exact (ok_key _ _ (ok_stats _ _ _ Hst k s Hin)). }
      apply NoDup_fst_map_to_list.
    + apply fmap_sublist. clear. induction (map snd _) as [|x l IH]; cbn; [done|].
      case_match; by constructor.
  - apply fmap_sublist, sublist_take.
Qed.

Lemma slow_series_distinct_witness :
  let st := mkStore {[ 7%Z := demo_slow ]} [] [7%Z] {[ 7%Z ]} in
  NoDup (map (fun s => renderLabels (slow_labels s)) (slowSqlStats (fun l => l) 5 [] st)).
Proof.
  intros st. apply (slow_series_distinct 5 5 st (fun l => l) 5 []); [|done].
  split; cbn.
  - repeat constructor. apply not_elem_of_nil.
  - intros k. rewrite list_elem_of_singleton. split; [intros ->; eauto|].
    intros [x Hx]. by apply lookup_singleton_Some in Hx as [-> _].
  - set_solver.
  - lia.
  - lia.
  - apply map_Forall_singleton. split; try reflexivity. cbn. lia.
Defined.
