(* ===== verification/Reporter.v ===== *)
(** * The statistics reporter (src/core/stats_reporter.cpp)

    The text and JSON forms of a report, the writing of one report, and the
    thread that writes them as a step relation with its condition variable. The
    formatting of doubles and time stamps, the file system and the collectors are
    parameters. *)
From stdpp Require Import base gmap list strings.
From Stdlib Require Import Ascii ZArith Lia.
From S2P Require Import Prelude Doubles Types Config SqlAnalyze Observer ConnectionPool Scripts Exporters.

Open Scope Z_scope.

(** ** Texts *)
Definition hex_digit_lower (n : N) : ascii :=
  if (n <? 10)%N then ascii_of_N (48 + n) else ascii_of_N (87 + n).

(** ["\\u%04x"] of a byte. *)
Definition unicode_escape (c : ascii) : str :=
  [backslash; "u"%char; "0"%char; "0"%char; hex_digit_lower (code c / 16);
   hex_digit_lower (code c mod 16)].

Definition tab : ascii := "009".
Definition creturn : ascii := "013".

Definition escape_json_char (c : ascii) : str :=
  if ch c dquote then [backslash; dquote]
  else if ch c backslash then [backslash; backslash]
  else if ch c newline then [backslash; "n"%char]
  else if ch c creturn then [backslash; "r"%char]
  else if ch c tab then [backslash; "t"%char]
  else if (code c <? 32)%N then unicode_escape c
  else [c].
Definition escapeJson (s : str) : str := concat (map escape_json_char s).

Definition averageMs (s : SlowSqlStats) : double :=
  if sw_count s =? 0 then fzero
  else fdiv (fdiv (f64 (sw_totalDuration s)) (f64 (sw_count s))) (f64 1000).
Definition maxMs (s : SlowSqlStats) : double := fdiv (f64 (sw_maxDuration s)) (f64 1000).

Definition clip (s : str) (maxLen : nat) : str :=
  if (length s <=? maxLen)%nat then s else take maxLen s ++ lit "...".

Definition comma : str := [","%char].
Definition quoted_json (s : str) : str := [dquote] ++ escapeJson s ++ [dquote].
(** [,"key":] *)
Definition key (k : string) : str := [dquote] ++ lit k ++ [dquote] ++ lit ":".
Definition field (k : string) (v : str) : str := comma ++ key k ++ v.

Section Render.
Context (fixed : nat -> double -> str) (formatTimestamp : Z -> str).

Definition text_pool (p : NamedPoolStats) : str :=
  let s := np_stats p in
  lit "  " ++ np_dataSource p ++ lit "  idle=" ++ dec_Z (ps_idle s)
  ++ lit " borrowed=" ++ dec_Z (ps_borrowed s) ++ lit "/" ++ dec_Z (ps_maxConnections s)
  ++ lit " waiting=" ++ dec_Z (ps_waiting s)
  ++ lit " util=" ++ fixed 1 (fmul (utilization s) (f64 100)) ++ lit "%"
  ++ lit " created=" ++ dec_Z (ps_counter s connectionsCreated)
  ++ lit " closed=" ++ dec_Z (ps_counter s connectionsClosed)
  ++ lit " timeouts=" ++ dec_Z (ps_counter s borrowTimeouts)
  ++ lit " invalidated=" ++ dec_Z (ps_counter s invalidatedConnections) ++ [newline].

Definition text_slow (rank : nat) (s : SlowSqlStats) : str :=
  lit "  " ++ dec_nat rank ++ lit ". [" ++ sw_dataSource s ++ lit "]"
  ++ lit " avg=" ++ fixed 2 (averageMs s) ++ lit "ms"
  ++ lit " max=" ++ fixed 2 (maxMs s) ++ lit "ms"
  ++ lit " count=" ++ dec_Z (sw_count s) ++ lit " errors=" ++ dec_Z (sw_errorCount s)
  ++ lit " timeouts=" ++ dec_Z (sw_timeoutCount s)
  ++ lit "  " ++ clip (sw_sqlTemplate s) 120 ++ [newline].

Fixpoint text_slow_all (rank : nat) (l : list SlowSqlStats) : str :=
  match l with [] => [] | s :: l => text_slow rank s ++ text_slow_all (S rank) l end.

Definition none_line : str := lit "  (none)" ++ [newline].

Definition renderText (cfg : StatsReportConfig) (now : Z) (pools : list NamedPoolStats)
    (slowSql : list SlowSqlStats) : str :=
  lit "[" ++ formatTimestamp now ++ lit "] sqlconduit stats report" ++ [newline]
  ++ (if sr_include_pool cfg then
        lit "pools:" ++ [newline]
        ++ (if is_nil pools then none_line else concat (map text_pool pools))
      else [])
  ++ (if sr_include_slow_sql cfg then
        lit "slow sql (top " ++ dec_nat (length slowSql) ++ lit "):" ++ [newline]
        ++ (if is_nil slowSql then none_line else text_slow_all 1 slowSql)
      else []).

Definition json_pool (p : NamedPoolStats) : str :=
  let s := np_stats p in
  lit "{" ++ key "name" ++ quoted_json (np_dataSource p)
  ++ field "idle" (dec_Z (ps_idle s)) ++ field "borrowed" (dec_Z (ps_borrowed s))
  ++ field "max" (dec_Z (ps_maxConnections s)) ++ field "waiting" (dec_Z (ps_waiting s))
  ++ field "utilization" (fixed 4 (utilization s))
  ++ field "created" (dec_Z (ps_counter s connectionsCreated))
  ++ field "closed" (dec_Z (ps_counter s connectionsClosed))
  ++ field "timeouts" (dec_Z (ps_counter s borrowTimeouts))
  ++ field "invalidated" (dec_Z (ps_counter s invalidatedConnections)) ++ lit "}".

Definition json_slow (s : SlowSqlStats) : str :=
  lit "{" ++ key "data_source" ++ quoted_json (sw_dataSource s)
  ++ field "fingerprint" (dec_Z (sw_fingerprint s))
  ++ field "avg_ms" (fixed 2 (averageMs s)) ++ field "max_ms" (fixed 2 (maxMs s))
  ++ field "count" (dec_Z (sw_count s)) ++ field "errors" (dec_Z (sw_errorCount s))
  ++ field "timeouts" (dec_Z (sw_timeoutCount s))
  ++ field "sql" (quoted_json (clip (sw_sqlTemplate s) 512)) ++ lit "}".

Definition renderJson (cfg : StatsReportConfig) (now : Z) (pools : list NamedPoolStats)
    (slowSql : list SlowSqlStats) : str :=
  lit "{" ++ key "timestamp" ++ [dquote] ++ formatTimestamp now ++ [dquote]
  ++ (if sr_include_pool cfg
      then field "pools" (lit "[" ++ join comma (map json_pool pools) ++ lit "]") else [])
  ++ (if sr_include_slow_sql cfg
      then field "slow_sql" (lit "[" ++ join comma (map json_slow slowSql) ++ lit "]") else [])
  ++ lit "}".

(** ** One report

    What it does outside: the pool metrics are sampled, the text is logged or
    appended to the file, whose parent directories are made first. *)
Inductive Effect :=
  | SamplePools
  | LogInfo (text : str)
  | LogWarn (text : str)
  | MakeParents (file : str)
  | Append (file text : str).

Definition is_json (cfg : StatsReportConfig) : bool := str_eqb (sr_format cfg) (lit "json").

Definition writeOnce (cfg : StatsReportConfig) (collector : option (list NamedPoolStats))
    (slowSqlStats : nat -> list SlowSqlStats) (can_open : str -> bool) (now : Z) : list Effect :=
  let pools := if sr_include_pool cfg then default [] collector else [] in
  let slowSql := if sr_include_slow_sql cfg
                 then slowSqlStats (Z.to_nat (Z.max 0 (sr_slow_sql_limit cfg))) else [] in
  let text := if is_json cfg then renderJson cfg now pools slowSql
              else renderText cfg now pools slowSql in
  (if sr_include_pool cfg then [SamplePools] else [])
  ++ (if is_nil (sr_file cfg) then [LogInfo (lit "stats report:" ++ [newline] ++ text)]
      else MakeParents (sr_file cfg)
           :: (if can_open (sr_file cfg)
               then [Append (sr_file cfg) (if is_json cfg then text ++ [newline] else text)]
               else [LogWarn (lit "stats report: cannot open file '" ++ sr_file cfg ++ lit "'")])).
End Render.

(** ** The thread

    [mtx_] is held from the test of [running_] to the moment the thread sleeps,
    so the two are one step; [writeOnce] runs without it. A sleeping thread wakes
    up when it has been notified or when the interval is over. *)
Inductive Phase :=
  | PhLock                       (* about to take the mutex and test [running_] *)
  | PhSleep (notified : bool)    (* in [cv_.wait_for] *)
  | PhWrite                      (* in [writeOnce] *)
  | PhExit.                      (* has returned from [run] *)
#[export] Instance Phase_eq_dec : EqDecision Phase.
Proof. solve_decision. Defined.

(** Where a call of [stop] is. *)
Inductive StopPc := ScIdle | ScNotify | ScJoin.
#[export] Instance StopPc_eq_dec : EqDecision StopPc.
Proof. solve_decision. Defined.

Record ReporterState := mkReporter {
  rp_running : bool;
  rp_cfg : option StatsReportConfig;
  rp_thread : option Phase;      (* [thread_], while joinable *)
  rp_stop : StopPc;
  rp_reports : nat;              (* calls of [writeOnce] that have started *)
}.
Definition reporter_new : ReporterState := mkReporter false None None ScIdle 0.

Inductive ReporterEvent :=
  | RvStop                                (* [stop]: the critical section *)
  | RvNotify                              (* [notify_all] *)
  | RvJoin                                (* [join] returns *)
  | RvStart (cfg : StatsReportConfig)     (* [start], after its call of [stop] *)
  | RvLock                                (* the thread takes the mutex and tests *)
  | RvWake                                (* the thread was notified *)
  | RvTimeout                             (* the interval is over *)
  | RvWritten.                            (* [writeOnce] returns *)

Definition with_thread (t : option Phase) (r : ReporterState) : ReporterState :=
  mkReporter (rp_running r) (rp_cfg r) t (rp_stop r) (rp_reports r).

(** [wait_for] tests [!running_] before it sleeps and each time it wakes up. *)
Definition wait_test (running : bool) (sleep : Phase) : Phase := if running then sleep else PhExit.

Definition begin_report (r : ReporterState) : ReporterState :=
  if rp_running r
  then mkReporter true (rp_cfg r) (Some PhWrite) (rp_stop r) (S (rp_reports r))
  else with_thread (Some PhExit) r.

Definition reporter_step (e : ReporterEvent) (r : ReporterState) : option ReporterState :=
  match e, rp_stop r, rp_thread r with
  | RvStop, ScIdle, t =>
      Some (if rp_running r then mkReporter false (rp_cfg r) t ScNotify (rp_reports r) else r)
  | RvNotify, ScNotify, t =>
      Some (mkReporter (rp_running r) (rp_cfg r)
              (match t with Some (PhSleep _) => Some (PhSleep true) | _ => t end)
              ScJoin (rp_reports r))
  | RvJoin, ScJoin, Some PhExit =>
      Some (mkReporter (rp_running r) (rp_cfg r) None ScIdle (rp_reports r))
  | RvStart cfg, ScIdle, t =>
      if rp_running r then None
      else if negb (sr_enabled cfg) then Some r
      else Some (mkReporter true (Some cfg) (Some PhLock) ScIdle (rp_reports r))
  | RvLock, _, Some PhLock => Some (with_thread (Some (wait_test (rp_running r) (PhSleep false))) r)
  | RvWake, _, Some (PhSleep true) =>
      Some (with_thread (Some (wait_test (rp_running r) (PhSleep false))) r)
  | RvTimeout, _, Some (PhSleep _) => Some (begin_report r)
  | RvWritten, _, Some PhWrite => Some (with_thread (Some PhLock) r)
  | _, _, _ => None
  end.

Inductive reporter_reaches : ReporterState -> Prop :=
  | reaches_new : reporter_reaches reporter_new
  | reaches_step r e r' :
      reporter_reaches r -> reporter_step e r = Some r' -> reporter_reaches r'.

(** ** Reading a JSON string *)
Definition hex_value (c : ascii) : option N :=
  if isdigit c then Some (code c - 48)%N
  else if in_range 97 102 (code c) then Some (code c - 87)%N
  else None.

(** A string whose opening quote has been read; the escapes are those of the
    writer, code points below 256 as one byte. *)
Fixpoint read_json (s : str) : option (str * str) :=
  match s with
  | [] => None
  | c :: s1 =>
      if ch c dquote then Some ([], s1)
      else if ch c backslash then
        match s1 with
        | "u"%char :: z1 :: z2 :: h1 :: h2 :: s2 =>
            if ch z1 "0" && ch z2 "0" then
              a ← hex_value h1; b ← hex_value h2;
              '(v, r) ← read_json s2; Some (ascii_of_N (16 * a + b) :: v, r)
            else None
        | e :: s2 =>
            d ← (if ch e "n" then Some newline
                 else if ch e "r" then Some creturn
                 else if ch e "t" then Some tab
                 else if ch e dquote || ch e backslash then Some e
                 else None);
            '(v, r) ← read_json s2; Some (d :: v, r)
        | [] => None
        end
      else if (code c <? 32)%N then None
      else '(v, r) ← read_json s1; Some (c :: v, r)
  end.

Lemma unicode_digits c :
  hex_value (hex_digit_lower (code c / 16)) = Some (code c / 16)%N
  /\ hex_value (hex_digit_lower (code c mod 16)) = Some (code c mod 16)%N
  /\ ascii_of_N (16 * (code c / 16) + code c mod 16) = c.
Proof. all_chars c. Qed.

Lemma escape_json_reads c s :
  read_json (escape_json_char c ++ s) = ('(v, r) ← read_json s; Some (c :: v, r)).
Proof.
  unfold escape_json_char.
  destruct (ch c dquote) eqn:E1; [apply ch_eq in E1; by subst|].
  destruct (ch c backslash) eqn:E2; [apply ch_eq in E2; by subst|].
  destruct (ch c newline) eqn:E3; [apply ch_eq in E3; by subst|].
  destruct (ch c creturn) eqn:E4; [apply ch_eq in E4; by subst|].
  destruct (ch c tab) eqn:E5; [apply ch_eq in E5; by subst|].
  destruct (code c <? 32)%N eqn:E6.
  - destruct (unicode_digits c) as (H1 & H2 & H3). unfold unicode_escape.
    generalize dependent (code c / 16)%N. intros hi H1 H3.
    generalize dependent (code c mod 16)%N. intros lo H2 H3.
    cbn [app read_json]. replace (ch backslash dquote) with false by done.
    replace (ch backslash backslash) with true by done. cbn [ch Ascii.eqb Bool.eqb andb].
    rewrite H1, H2. cbn [mbind option_bind]. by rewrite H3.
  - cbn [app read_json]. by rewrite E1, E2, E6.
Qed.

(** a JSON string of a report reads back as the bytes it was made from: no
    data source name and no statement can end its quotes, and a reader meets no
    bare control character. *)
Theorem escapeJson_reads_back s rest :
  read_json (escapeJson s ++ dquote :: rest) = Some (s, rest).
Proof.
  unfold escapeJson. induction s as [|c s IH]; [done|]. cbn [map concat].
  by rewrite <- app_assoc, escape_json_reads, IH.
Qed.

(** ** One report, one line *)
Section OneLine.
Context (fixed : nat -> double -> str) (formatTimestamp : Z -> str).
Context (fixed_plain : forall n d, no_newline (fixed n d) = true)
        (time_plain : forall t, no_newline (formatTimestamp t) = true).

Lemma escape_json_plain s : no_newline (escapeJson s) = true.
Proof.
  unfold escapeJson. induction s as [|c s IH]; [done|]. cbn [map concat].
  rewrite no_newline_app, IH, andb_true_r. all_chars c.
Qed.

Lemma field_plain k v : no_newline (lit k) = true -> no_newline v = true ->
  no_newline (field k v) = true.
Proof. intros H1 H2. unfold field, key. by rewrite !no_newline_app, H1, H2. Qed.

Lemma quoted_plain s : no_newline (quoted_json s) = true.
Proof. unfold quoted_json. by rewrite !no_newline_app, escape_json_plain. Qed.

Lemma join_plain sep l : no_newline sep = true -> Forall (fun s => no_newline s = true) l ->
  no_newline (join sep l) = true.
Proof.
  intros Hs. induction 1 as [|x l Hx Hl IH]; [done|]. destruct l as [|y l]; [exact Hx|].
  rewrite join_cons, !no_newline_app, Hx, Hs, IH. done.
Qed.

Ltac plain := repeat
  lazymatch goal with
  | |- no_newline (_ ++ _) = true => rewrite no_newline_app; apply andb_true_intro; split
  | |- no_newline (dec_Z _) = true => apply dec_Z_no_newline
  | |- no_newline (fixed _ _) = true => apply fixed_plain
  | |- no_newline (formatTimestamp _) = true => apply time_plain
  | |- no_newline (quoted_json _) = true => apply quoted_plain
  | |- no_newline (field _ _) = true => apply field_plain
  | |- no_newline (lit _) = true => reflexivity
  | |- no_newline [dquote] = true => reflexivity
  end.

Lemma json_pool_plain p : no_newline (json_pool fixed p) = true.
Proof. unfold json_pool, key. cbv zeta. plain. Qed.
Lemma json_slow_plain s : no_newline (json_slow fixed s) = true.
Proof. unfold json_slow, key. plain. Qed.

Lemma renderJson_plain cfg now pools slowSql :
  no_newline (renderJson fixed formatTimestamp cfg now pools slowSql) = true.
Proof.
  assert (forall {A} (f : A -> str) l, (forall x, no_newline (f x) = true) ->
            no_newline (lit "[" ++ join comma (map f l) ++ lit "]") = true) as Hlist.
  { intros A f l Hf. rewrite !no_newline_app, join_plain; [done | done|].
    apply Forall_fmap, Forall_true. done. }
  unfold renderJson, key. plain.
  - destruct (sr_include_pool cfg); [|done]. apply field_plain; [done|]. apply Hlist, json_pool_plain.
  - destruct (sr_include_slow_sql cfg); [|done]. apply field_plain; [done|].
    apply Hlist, json_slow_plain.
Qed.

(** a report in JSON is one line of the file: whatever the names and
    statements in it, exactly one effect writes to the configured file, and what
    it appends is a single line. *)
Theorem json_report_one_line cfg collector slowSqlStats can_open now
  (Hjson : is_json cfg = true) (Hfile : sr_file cfg <> []) (Hopen : can_open (sr_file cfg) = true) :
  exists text,
    List.filter (fun e => match e with Append _ _ | LogInfo _ | LogWarn _ => true | _ => false end)
      (writeOnce fixed formatTimestamp cfg collector slowSqlStats can_open now)
    = [Append (sr_file cfg) text]
    /\ lines text [] = [text].
Proof.
  unfold writeOnce. rewrite Hjson, Hopen.
  replace (is_nil (sr_file cfg)) with false by (by destruct (sr_file cfg)).
  set (text := renderJson _ _ _ _ _ _). exists (text ++ [newline]). split.
  - by destruct (sr_include_pool cfg).
  - exact (lines_line text [] [] (renderJson_plain _ _ _ _)).
Qed.
End OneLine.

Lemma json_report_one_line_witness :
  let cfg := mkStatsReportConfig true 1000 (lit "stats.log") (lit "json") true true 5 in
  exists text,
    List.filter (fun e => match e with Append _ _ | LogInfo _ | LogWarn _ => true | _ => false end)
      (writeOnce (fun _ _ => lit "0.5") (fun _ => lit "now") cfg
         (Some [mkNamed (lit "a" ++ [newline] ++ lit "b") (demo_stats 3)]) (fun _ => [])
         (fun _ => true) 0)
    = [Append (lit "stats.log") text] /\ lines text [] = [text].
Proof.
  intros cfg. apply (json_report_one_line (fun _ _ => lit "0.5") (fun _ => lit "now"));
    [reflexivity | reflexivity | reflexivity | discriminate | reflexivity].
Defined.

(** ** The thread of the reporter *)
Record reporter_inv (r : ReporterState) : Prop := {
  ri_idle : rp_running r = false -> rp_stop r = ScIdle -> rp_thread r = None;
  ri_run : rp_running r = true ->
             rp_stop r = ScIdle /\ is_Some (rp_thread r) /\ rp_thread r <> Some PhExit;
  ri_busy : rp_stop r <> ScIdle -> is_Some (rp_thread r);
  ri_sleep : rp_running r = false -> rp_thread r = Some (PhSleep false) -> rp_stop r = ScNotify;
}.

Lemma reporter_inv_step e r r' : reporter_inv r -> reporter_step e r = Some r' -> reporter_inv r'.
Proof.
  intros [H1 H2 H3 H4] H. destruct r as [run cfg t sp n]. cbn in H1, H2, H3, H4.
  assert (H2' : run = true -> sp = ScIdle) by apply H2.
  assert (H3' : run = true -> t <> None /\ t <> Some PhExit).
  { intros E. destruct (H2 E) as (_ & [x ->] & ?). done. }
  clear H2. rename H3 into H5. assert (H3 : sp <> ScIdle -> t <> None).
  { intros E. by destruct (H5 E) as [x ->]. }
  clear H5. destruct run, sp, t as [[|[]| |]|], e; cbn in H; try discriminate H;
    try (case_match; try discriminate H); injection H as <-; split; cbn; intros;
    repeat split; try congruence; try (eexists; reflexivity); exfalso; intuition congruence.
Qed.

Lemma reporter_reaches_inv r : reporter_reaches r -> reporter_inv r.
Proof.
  induction 1 as [|r e r' Hr IH H]; [by split|]. by eapply reporter_inv_step.
Qed.

(** The thread alone, without the end of the interval. *)
Definition thread_alone (r : ReporterState) : option ReporterState :=
  match rp_thread r with
  | Some PhLock => reporter_step RvLock r
  | Some (PhSleep true) => reporter_step RvWake r
  | Some PhWrite => reporter_step RvWritten r
  | _ => None
  end.
Fixpoint run_alone (n : nat) (r : ReporterState) : ReporterState :=
  match n with
  | O => r
  | S n => match thread_alone r with Some r' => run_alone n r' | None => r end
  end.

(** [stop] always returns and loses no wake-up: once it waits for the
    thread, at most two steps of the thread, none of them the end of the
    interval, take it out of its loop without starting another report, and then
    [join] returns, leaving nothing behind. *)
Theorem reporter_stop_returns r (Hr : reporter_reaches r) (Hstop : rp_stop r = ScJoin) :
  let r' := run_alone 2 r in
  rp_thread r' = Some PhExit /\ rp_reports r' = rp_reports r
  /\ exists r'', reporter_step RvJoin r' = Some r''
       /\ rp_thread r'' = None /\ rp_running r'' = false /\ rp_stop r'' = ScIdle.
Proof.
  apply reporter_reaches_inv in Hr as [H1 H2 H3 H4]. destruct r as [run cfg t sp n].
  cbn in *. subst sp. destruct run; [by destruct (H2 eq_refl)|].
  destruct (H3 ltac:(done)) as [ph ->].
  destruct ph as [|[]| |]; cbn; try (repeat split; eauto; by eexists).
  by specialize (H4 eq_refl eq_refl).
Qed.

Definition run_reporter (es : list ReporterEvent) : option ReporterState :=
  foldl (fun o e => r ← o; reporter_step e r) (Some reporter_new) es.

Lemma run_reporter_reaches es r : run_reporter es = Some r -> reporter_reaches r.
Proof.
  revert r. induction es as [|e es IH] using rev_ind; intros r H.
  - injection H as <-. constructor.
  - unfold run_reporter in *. rewrite foldl_app in H. cbn in H.
    destruct (foldl _ _ es) as [r0|] eqn:E; [|done]. cbn in H.
    eapply reaches_step; [by apply IH | exact H].
Qed.

Definition demo_report : StatsReportConfig := mkStatsReportConfig true 1000 [] [] true true 5.

Lemma reporter_stop_returns_witness :
  exists r, run_reporter [RvStart demo_report; RvLock; RvTimeout; RvStop; RvNotify] = Some r
    /\ rp_thread r = Some PhWrite /\ rp_thread (run_alone 2 r) = Some PhExit.
Proof.
  eexists. split; [reflexivity|]. split; [reflexivity|].
  refine (proj1 (reporter_stop_returns _ (run_reporter_reaches
    [RvStart demo_report; RvLock; RvTimeout; RvStop; RvNotify] _ eq_refl) eq_refl)).
Defined.

(** the thread object is never overwritten or destroyed while it runs: in
    every reachable state, a [start] that creates a thread finds none. *)
Theorem reporter_single_thread r cfg r' (Hr : reporter_reaches r)
  (H : reporter_step (RvStart cfg) r = Some r') (Hen : sr_enabled cfg = true) :
  rp_thread r = None /\ rp_thread r' = Some PhLock /\ rp_running r' = true.
Proof.
  apply reporter_reaches_inv in Hr as [H1 _ _ _]. destruct r as [run c t sp n]. cbn in *.
  destruct sp; try done. destruct run; [done|]. rewrite Hen in H. cbn in H.
  injection H as <-. by rewrite H1.
Qed.

Lemma reporter_single_thread_witness :
  exists r', reporter_step (RvStart demo_report) reporter_new = Some r' /\ rp_thread r' = Some PhLock.
Proof.
  eexists. split; [reflexivity|].
  exact (proj1 (proj2 (reporter_single_thread _ demo_report _ reaches_new eq_refl eq_refl))).
Defined.
