(* ===== verification/Heartbeat.v ===== *)
(** * The heartbeat thread (src/core/heartbeat_manager.cpp)

    The manager keeps weak references to pools; its thread wakes up once per
    interval, takes strong references to the pools that are alive and checks
    each. Pools are identified by numbers, [alive] are those some owner outside
    still holds; what a check does to its pool is the business of ConnectionPool.v
    and its exceptions are caught. *)
From stdpp Require Import base gmap list.
From Stdlib Require Import ZArith Lia.
From S2P Require Import Prelude.

(** ** State *)
Abbreviation pool := nat.

Inductive HbPhase :=
  | HbTop                       (* [while (!stopFlag_)] *)
  | HbTested                    (* [wait_for] has tested the predicate: false *)
  | HbSleep (notified : bool)   (* in the condition variable *)
  | HbSnapshot                  (* about to lock the pools *)
  | HbCheck (snapshot rest : list pool)   (* [rest] is still to be checked *)
  | HbSweep (snapshot : list pool)        (* about to call [sweepExpiredPools] *)
  | HbExit.                     (* has returned from [loop] *)
#[export] Instance HbPhase_eq_dec : EqDecision HbPhase.
Proof. solve_decision. Defined.

(** Where the call of [stop] is. *)
Inductive HbStop := HsIdle | HsFlag | HsNotify | HsJoin.
#[export] Instance HbStop_eq_dec : EqDecision HbStop.
Proof. solve_decision. Defined.

Record Heartbeat := mkHb {
  hb_pools : list pool;           (* [pools_] *)
  hb_running : bool;              (* [running_] *)
  hb_stopFlag : bool;             (* [stopFlag_] *)
  hb_thread : option HbPhase;     (* [thread_], while joinable *)
  hb_stop : HbStop;
  hb_alive : gset pool;           (* pools held outside *)
  hb_checked : list pool;         (* calls of [healthCheck], latest first *)
}.
Definition hb_new (alive : gset pool) : Heartbeat := mkHb [] false false None HsIdle alive [].

(** The strong references of the thread keep its snapshot alive to the end of
    the round, the sweep included. *)
Definition held (h : Heartbeat) : list pool :=
  match hb_thread h with Some (HbCheck l _) | Some (HbSweep l) => l | _ => [] end.
Definition is_alive (h : Heartbeat) (p : pool) : bool :=
  bool_decide (p ∈ hb_alive h) || existsb (Nat.eqb p) (held h).

Inductive HbEvent :=
  | HvAddPool (p : pool)
  | HvStart
  | HvStop                 (* [running_.exchange(false)] *)
  | HvFlag                 (* [stopFlag_ = true] *)
  | HvNotify               (* [notify_all] *)
  | HvJoin                 (* [join] returns *)
  | HvThread               (* the next step of the thread *)
  | HvTimeout              (* the interval is over *)
  | HvRelease (p : pool).  (* the last owner outside lets a pool go *)

Definition hb_set_thread (t : option HbPhase) (h : Heartbeat) : Heartbeat :=
  mkHb (hb_pools h) (hb_running h) (hb_stopFlag h) t (hb_stop h) (hb_alive h) (hb_checked h).
Definition hb_set_stop (s : HbStop) (h : Heartbeat) : Heartbeat :=
  mkHb (hb_pools h) (hb_running h) (hb_stopFlag h) (hb_thread h) s (hb_alive h) (hb_checked h).

Definition addPool (p : pool) (h : Heartbeat) : Heartbeat :=
  mkHb (hb_pools h ++ [p]) (hb_running h) (hb_stopFlag h) (hb_thread h) (hb_stop h) (hb_alive h)
    (hb_checked h).

(** [start]; assigning a [std::thread] over a joinable one terminates, which is
    no step. *)
Definition hb_start (h : Heartbeat) : option Heartbeat :=
  if hb_running h then Some h
  else match hb_thread h with
       | Some _ => None
       | None => Some (mkHb (hb_pools h) true false (Some HbTop) (hb_stop h) (hb_alive h)
                         (hb_checked h))
       end.

Definition sweepExpiredPools (h : Heartbeat) : Heartbeat :=
  mkHb (List.filter (is_alive h) (hb_pools h)) (hb_running h) (hb_stopFlag h) (hb_thread h)
    (hb_stop h) (hb_alive h) (hb_checked h).

(** One step of [loop]; [timeout] tells that the interval is over. The flag is
    set without [waitMtx_], so the test of the predicate and the sleep are two
    steps. *)
Definition hb_loop (timeout : bool) (h : Heartbeat) : option Heartbeat :=
  match hb_thread h with
  | Some HbTop => if timeout then None
                  else Some (hb_set_thread (Some (if hb_stopFlag h then HbExit else HbTested)) h)
  | Some HbTested => if timeout then None
                     else Some (hb_set_thread (Some (HbSleep false)) h)
  | Some (HbSleep notified) =>
      if timeout then Some (hb_set_thread (Some (if hb_stopFlag h then HbExit else HbSnapshot)) h)
      else if notified then Some (hb_set_thread (Some (if hb_stopFlag h then HbExit else HbTested)) h)
      else None
  | Some HbSnapshot =>
      if timeout then None
      else let snapshot := List.filter (is_alive h) (hb_pools h) in
           Some (hb_set_thread (Some (HbCheck snapshot snapshot)) h)
  | Some (HbCheck l rest) =>
      if timeout then None
      else match rest with
           | [] => Some (hb_set_thread (Some (HbSweep l)) h)
           | p :: rest =>
               if hb_stopFlag h then Some (hb_set_thread (Some (HbSweep l)) h)
               else Some (mkHb (hb_pools h) (hb_running h) (hb_stopFlag h) (Some (HbCheck l rest))
                            (hb_stop h) (hb_alive h) (p :: hb_checked h))
           end
  | Some (HbSweep _) => if timeout then None
                    else Some (hb_set_thread (Some HbTop) (sweepExpiredPools h))
  | Some HbExit | None => None
  end.

Definition hb_step (e : HbEvent) (h : Heartbeat) : option Heartbeat :=
  match e with
  | HvAddPool p => if is_alive h p then Some (addPool p h) else None
  | HvStart => match hb_stop h with HsIdle => hb_start h | _ => None end
  | HvStop =>
      match hb_stop h with
      | HsIdle =>
          Some (if hb_running h
                then mkHb (hb_pools h) false (hb_stopFlag h) (hb_thread h) HsFlag (hb_alive h)
                       (hb_checked h)
                else h)
      | _ => None
      end
  | HvFlag =>
      match hb_stop h with
      | HsFlag => Some (mkHb (hb_pools h) (hb_running h) true (hb_thread h) HsNotify (hb_alive h)
                          (hb_checked h))
      | _ => None
      end
  | HvNotify =>
      match hb_stop h with
      | HsNotify =>
          Some (hb_set_stop HsJoin
                  (match hb_thread h with
                   | Some (HbSleep _) => hb_set_thread (Some (HbSleep true)) h
                   | _ => h
                   end))
      | _ => None
      end
  | HvJoin =>
      match hb_stop h, hb_thread h with
      | HsJoin, Some HbExit => Some (hb_set_stop HsIdle (hb_set_thread None h))
      | _, _ => None
      end
  | HvThread => hb_loop false h
  | HvTimeout => hb_loop true h
  | HvRelease p =>
      Some (mkHb (hb_pools h) (hb_running h) (hb_stopFlag h) (hb_thread h) (hb_stop h)
              (hb_alive h ∖ {[ p ]}) (hb_checked h))
  end.

Inductive hb_reaches (alive : gset pool) : Heartbeat -> Prop :=
  | hb_reaches_new : hb_reaches alive (hb_new alive)
  | hb_reaches_step h e h' : hb_reaches alive h -> hb_step e h = Some h' -> hb_reaches alive h'.

Definition hb_run (es : list HbEvent) (h : Heartbeat) : option Heartbeat :=
  foldl (fun o e => h ← o; hb_step e h) (Some h) es.

Lemma hb_run_reaches alive es h : hb_run es (hb_new alive) = Some h -> hb_reaches alive h.
Proof.
  revert h. induction es as [|e es IH] using rev_ind; intros h H.
  - injection H as <-. constructor.
  - unfold hb_run in *. rewrite foldl_app in H. cbn in H.
    destruct (foldl _ _ es) as [h0|] eqn:E; [|done]. cbn in H.
    eapply hb_reaches_step; [by apply IH | exact H].
Qed.

(** ** Invariants *)
Record hb_inv (h : Heartbeat) : Prop := {
  hi_idle : hb_running h = false -> hb_stop h = HsIdle -> hb_thread h = None;
  hi_run : hb_running h = true ->
             hb_stop h = HsIdle /\ hb_stopFlag h = false
             /\ hb_thread h <> None /\ hb_thread h <> Some HbExit;
  hi_busy : hb_stop h <> HsIdle -> hb_thread h <> None;
  hi_flag : hb_stop h = HsNotify \/ hb_stop h = HsJoin -> hb_stopFlag h = true;
  hi_early : hb_stop h = HsFlag -> hb_thread h <> Some HbExit /\ hb_stopFlag h = false;
  hi_rest : forall l rest, hb_thread h = Some (HbCheck l rest) -> rest `suffix_of` l;
}.

Lemma hb_inv_new alive : hb_inv (hb_new alive).
Proof. by split; cbn; intros; destruct_or?. Qed.

Lemma suffix_tail {A} (x : A) l k : x :: l `suffix_of` k -> l `suffix_of` k.
Proof. intros [p ->]. exists (p ++ [x]). by rewrite <- app_assoc. Qed.

Lemma hb_inv_loop timeout h h' : hb_inv h -> hb_loop timeout h = Some h' -> hb_inv h'.
Proof.
  intros [H1 H2 H3 H4 H5 H6] H. destruct h as [ps run flag t sp alive chk].
  unfold hb_loop in H. cbn in *.
  destruct t as [[| |b| |l rest|l|]|]; try discriminate; destruct timeout; try discriminate;
    repeat case_match; try discriminate; simplify_eq/=; unfold sweepExpiredPools, hb_set_thread; cbn;
    split; cbn; intros; simplify_eq/=; try done; try (by apply H4);
    try (by split; [|apply H5]);
    try (by destruct (H2 ltac:(done)) as (? & ? & ? & ?));
    try (by destruct (H5 ltac:(done)) as (? & ?)); try (by specialize (H1 ltac:(done) ltac:(done))).
  by eapply suffix_tail, H6.
Qed.

Lemma hb_inv_step e h h' : hb_inv h -> hb_step e h = Some h' -> hb_inv h'.
Proof.
  intros Hi H. destruct e; cbn [hb_step] in H; try (by eapply hb_inv_loop).
  all: destruct Hi as [H1 H2 H3 H4 H5 H6]; destruct h as [ps run flag t sp alive chk];
    cbn in *; unfold hb_start, hb_set_stop, hb_set_thread, addPool in H; cbn in H;
    destruct sp; try discriminate; destruct run; cbn in H; try discriminate;
    repeat case_match; try discriminate; simplify_eq/=; unfold hb_set_thread; cbn.
  all: try (destruct (H2 eq_refl) as (E2 & E3 & E4 & E5); try discriminate E2; subst).
  all: split; cbn; intros; simplify_eq/=; try done; try (by destruct_or?);
    try (by apply H4; auto); try (by apply H3); try (by apply H5); try (by eapply H6);
    try (by specialize (H1 eq_refl eq_refl)).
Qed.

Lemma hb_reaches_inv alive h : hb_reaches alive h -> hb_inv h.
Proof. induction 1; [apply hb_inv_new | by eapply hb_inv_step]. Qed.

(** ** The thread alone *)
Definition hb_next (h : Heartbeat) : option Heartbeat :=
  match hb_loop false h with Some h' => Some h' | None => hb_loop true h end.
Fixpoint hb_alone (n : nat) (h : Heartbeat) : Heartbeat :=
  match n with
  | O => h
  | S n => match hb_next h with Some h' => hb_alone n h' | None => h end
  end.

(** [stop] returns: once it waits for the thread, four steps of the thread at
    most, one of them perhaps the end of the interval, take it out of its loop;
    no pool is checked any more; and then [join] returns and leaves no thread. *)
Theorem heartbeat_stop_returns alive h (Hr : hb_reaches alive h) (Hstop : hb_stop h = HsJoin) :
  let h' := hb_alone 4 h in
  hb_thread h' = Some HbExit /\ hb_checked h' = hb_checked h
  /\ exists h'', hb_step HvJoin h' = Some h''
       /\ hb_thread h'' = None /\ hb_running h'' = false /\ hb_stop h'' = HsIdle.
Proof.
  apply hb_reaches_inv in Hr as [H1 H2 H3 H4 H5 H6].
  destruct h as [ps run flag t sp al chk]. cbn in *. subst sp.
  assert (flag = true) as -> by (apply H4; auto).
  destruct run; [by destruct (H2 eq_refl)|]. specialize (H3 ltac:(done)).
  destruct t as [[| |[]| |l [|p rest]|l|]|]; try done; cbn; try (repeat split; by eexists).
  unfold hb_next, hb_loop; cbn. destruct (List.filter _ ps) as [|p rest]; cbn;
    repeat split; by eexists.
Qed.

Lemma heartbeat_stop_returns_witness :
  let es := [HvAddPool 1; HvAddPool 2; HvStart; HvThread; HvThread; HvTimeout; HvThread;
             HvThread; HvStop; HvFlag; HvNotify] in
  let h := mkHb [1; 2] false true (Some (HbCheck [1; 2] [2])) HsJoin {[ 1; 2 ]} [1] in
  hb_run es (hb_new {[ 1; 2 ]}) = Some h
  /\ hb_thread (hb_alone 4 h) = Some HbExit /\ hb_checked (hb_alone 4 h) = [1].
Proof.
  intros es h. assert (hb_run es (hb_new {[ 1; 2 ]}) = Some h) as Hrun by reflexivity.
  split; [exact Hrun|].
  destruct (heartbeat_stop_returns {[ 1; 2 ]} h (hb_run_reaches _ es h Hrun) eq_refl) as (E1 & E2 & _).
  split; [exact E1 | exact E2].
Defined.

(** unlike the reporter, the heartbeat can miss the notification of [stop]:
    the flag is set without the mutex of the condition variable, so a thread that
    has tested it sleeps on, and [stop] waits for the end of the interval. *)
Theorem heartbeat_misses_notification alive :
  exists h, hb_reaches alive h /\ hb_stop h = HsJoin /\ hb_stopFlag h = true
    /\ hb_thread h = Some (HbSleep false) /\ hb_step HvThread h = None /\ hb_step HvJoin h = None.
Proof.
  eexists. split.
  - apply (hb_run_reaches alive
      [HvStart; HvThread; HvStop; HvFlag; HvNotify; HvThread]). reflexivity.
  - repeat split.
Qed.

(** [start] never finds the thread of an earlier round: whenever no [stop] is
    in progress it returns, and after it the manager runs. *)
Theorem heartbeat_start_safe alive h (Hr : hb_reaches alive h) (Hidle : hb_stop h = HsIdle) :
  exists h', hb_step HvStart h = Some h' /\ hb_running h' = true
    /\ (hb_running h = false -> hb_thread h' = Some HbTop /\ hb_stopFlag h' = false).
Proof.
  apply hb_reaches_inv in Hr as [H1 _ _ _ _ _]. cbn. rewrite Hidle. unfold hb_start.
  destruct (hb_running h) eqn:E; [by eexists|].
  rewrite H1 by done. by eexists.
Qed.

Lemma heartbeat_start_safe_witness :
  let es := [HvStart; HvThread; HvStop; HvFlag; HvNotify; HvThread; HvTimeout; HvJoin] in
  let h := mkHb [] false true None HsIdle ∅ [] in
  hb_run es (hb_new ∅) = Some h /\ exists h', hb_step HvStart h = Some h' /\ hb_running h' = true.
Proof.
  intros es h. assert (hb_run es (hb_new ∅) = Some h) as Hrun by reflexivity.
  split; [exact Hrun|].
  destruct (heartbeat_start_safe ∅ h (hb_run_reaches _ es h Hrun) eq_refl) as (h' & E1 & E2 & _).
  exists h'. split; [exact E1 | exact E2].
Defined.

(** only live pools are checked: a pool whose check starts is held by some
    owner or by the thread itself, even when all owners have let it go since the
    round began. *)
Theorem heartbeat_checks_live alive h e h' p (Hr : hb_reaches alive h)
  (H : hb_step e h = Some h') (Hc : hb_checked h' = p :: hb_checked h) :
  is_alive h p = true.
Proof.
  apply hb_reaches_inv in Hr as [_ _ _ _ _ H6].
  assert (forall t, hb_loop t h = Some h' -> is_alive h p = true) as Hl.
  { intros t Hloop. destruct h as [ps run flag th sp al chk]. unfold hb_loop in Hloop. cbn in *.
    assert (chk <> p :: chk) as Hne
      by (intros E; apply (f_equal length) in E; cbn in E; lia).
    destruct th as [[| |b| |l rest|l|]|]; try discriminate; destruct t; try discriminate;
      repeat case_match; try discriminate; simplify_eq/=; try done; try congruence.
    unfold is_alive, held. cbn. apply orb_true_iff. right. apply existsb_exists. exists p.
    split; [|apply Nat.eqb_refl]. apply list_elem_of_In.
    destruct (H6 _ _ eq_refl) as [k ->]. apply elem_of_app. right. left. }
  assert (hb_checked h <> p :: hb_checked h) as Hne
    by (intros E; apply (f_equal length) in E; cbn in E; lia).
  destruct e; cbn [hb_step] in H; try (by eapply Hl);
    unfold hb_start in H; repeat case_match; try discriminate; simplify_eq/=; done.
Qed.

Lemma heartbeat_checks_live_witness :
  let es := [HvAddPool 1; HvStart; HvThread; HvThread; HvTimeout; HvThread; HvRelease 1] in
  let h := mkHb [1] true false (Some (HbCheck [1] [1])) HsIdle ({[ 1 ]} ∖ {[ 1 ]}) [] in
  hb_run es (hb_new {[ 1 ]}) = Some h /\ is_alive h 1 = true.
Proof.
  intros es h. assert (hb_run es (hb_new {[ 1 ]}) = Some h) as Hrun by reflexivity.
  split; [exact Hrun|].
  exact (heartbeat_checks_live {[ 1 ]} h HvThread _ 1 (hb_run_reaches _ es h Hrun) eq_refl eq_refl).
Defined.

(** *** One round *)
Lemma hb_alone_checks n l rest h : hb_stopFlag h = false -> hb_thread h = Some (HbCheck l rest) ->
  hb_alone (length rest + n) h
  = hb_alone n (mkHb (hb_pools h) (hb_running h) (hb_stopFlag h) (Some (HbCheck l []))
                  (hb_stop h) (hb_alive h) (rev rest ++ hb_checked h)).
Proof.
  revert h. induction rest as [|p rest IH]; intros h Hf Ht.
  - destruct h; cbn in *; by subst.
  - cbn [length Nat.add hb_alone]. unfold hb_next, hb_loop at 1. rewrite Ht, Hf.
    rewrite IH by done. cbn. rewrite <- app_assoc. done.
Qed.

(** one undisturbed round checks every registered pool that is alive, in the
    order they were added, once each, forgets the dead ones and goes back to
    waiting. *)
Theorem heartbeat_round h (Hf : hb_stopFlag h = false) (Ht : hb_thread h = Some HbSnapshot) :
  let live := List.filter (is_alive h) (hb_pools h) in
  hb_alone (S (length live + 2)) h
  = mkHb live (hb_running h) false (Some HbTop) (hb_stop h) (hb_alive h)
      (rev live ++ hb_checked h).
Proof.
  intros live. destruct h as [ps run flag t sp al chk]. cbn in Hf, Ht. subst flag t.
  cbn [hb_alone]. unfold hb_next at 1, hb_loop at 1. cbn [hb_thread hb_stopFlag hb_set_thread].
  unfold hb_set_thread. cbn -[hb_alone Nat.add is_alive]. fold live.
  rewrite (hb_alone_checks 2 live live) by done. cbn -[is_alive].
  unfold sweepExpiredPools, hb_set_thread. cbn -[is_alive List.filter live]. f_equal.
  subst live. cbn [hb_pools]. apply List.filter_ext_in. intros p Hp.
  unfold is_alive, held. cbn. rewrite orb_false_r.
  destruct (bool_decide (p ∈ al)) eqn:E; [done|]. cbn.
  apply not_true_iff_false. rewrite existsb_exists. intros (x & Hx & Ex).
  apply Nat.eqb_eq in Ex as ->. apply filter_In in Hx as [_ Hx].
  unfold is_alive, held in Hx. cbn in Hx. by rewrite E in Hx.
Qed.

Lemma heartbeat_round_witness :
  let h := mkHb [1; 2; 3] true false (Some HbSnapshot) HsIdle {[ 1; 3 ]} [] in
  hb_alone 5 h = mkHb [1; 3] true false (Some HbTop) HsIdle {[ 1; 3 ]} [3; 1].
Proof.
  intros h. exact (heartbeat_round h eq_refl eq_refl).
Defined.
