(* ===== verification/Client.v ===== *)
(** * The client (src/client.cpp)

    The facade over the database manager: its life cycle, the resolution of a
    data source, the synchronous calls and the asynchronous ones, whose promises
    are kept by tasks of the executor of Executor.v. The manager is an interface,
    [Manager], which Topology.v implements at the end of the file; a data source
    answers a request by [dm_serve], whose behaviour is the business of
    DataSource.v and Transaction.v. *)
From stdpp Require Import base gmap list strings.
From Stdlib Require Import Ascii ZArith Lia.
From S2P Require Import Prelude Types Config ConfigLoader Context Connection Transaction Statements Executor Routines Topology.

Open Scope Z_scope.

(** ** Requests and answers

    A callback of the user is known by a number. [None] stands for the overload
    without parameters. *)
Inductive Request :=
  | RQuery (sql : str) (params : option Params)
  | RExecute (sql : str) (params : option Params)
  | RExecuteKeys (sql : str) (params : option Params)
  | RQueryAll (sql : str) (params : option Params)
  | RCall (sql : str) (params : list CallParam)
  | RQueryEach (sql : str) (params : Params) (callback : nat)
  | RExecuteBatch (sql : str) (batch : list Params)
  | ROpenCursor (sql : str) (params : Params) (options : CursorOptions)
  | RTransaction (options : TransactionOptions) (fn : nat)
  | RWithSession (fn : nat).

(** What the client passes on to its manager or its services in any state. An
    observer or an interceptor is known by a number. *)
Inductive ServiceCall :=
  | SetObserver (observer : nat)
  | AddInterceptor (interceptor : nat)
  | ClearInterceptors
  | ClearSlowSqlStats
  | SetDefaultRateLimiter (limiter : option LimiterRef).

(** [params.empty() ? f(sql, ...) : f(sql, params, ...)] *)
Definition some_params (params : Params) : option Params :=
  if is_nil params then None else Some params.

(** ** The interface of the manager

    [D] are data sources, [P] what a result holds beside its status. A call may
    end with an exception, and has written its result as far as it got. *)
Class Manager (S D P : Type) := {
  dm_init : GlobalConfig -> Z -> ST S Status;
  dm_shutdown : Z -> ST S unit;
  dm_addDriver : str -> option Z -> S -> S;
  dm_service : ServiceCall -> S -> S;
  dm_getDefault : S -> option D;
  dm_getDataSource : str -> S -> option D;
  dm_addDataSource : DataSourceConfig -> DataSourceOptions -> ST S Status;
  dm_removeDataSource : str -> Z -> ST S Status;
  dm_addGroup : DataSourceGroupConfig -> GroupOptions -> ST S Status;
  dm_removeGroup : str -> Z -> ST S Status;
  dm_serve : SqlContext -> D -> Request -> ST S (TaskEnd * (Status * P));
  dm_nothing : P;
}.

(** ** Statuses *)
Definition notInitialized : Status := status_error NotInitialized (lit "client is not initialized").
Definition clientClosed : Status := status_error ClientClosed (lit "client is closed").
Definition dataSourceNotFound (name : str) : Status :=
  status_error ConfigError
    (if is_nil name then lit "no default datasource" else lit "datasource not found: " ++ name).
Definition validateAsyncConfig (c : AsyncConfig) : Status :=
  if (ac_threads c <? 0) || (ac_queue_size c <? 1) || (ac_statement_timeout_ms c <? 0)
  then status_error ConfigError (lit "invalid async configuration") else StatusOK.
Definition already (msg : string) : Status := status_error AlreadyInitialized (lit msg).
Definition async_disabled : Status :=
  status_error ConfigError (lit "async execution is disabled for this client").
Definition overloaded : Status :=
  set_retryable true (status_error Overloaded (lit "client async executor queue is full or stopped")).
Definition async_timeout : Status :=
  set_retryable true (status_error QueryTimeout
    (lit "operation exceeded client async statement timeout; driver cancellation is not available in the future API")).

(** ** State *)
Inductive Lifecycle := Empty | Running_ | Closed_.
#[export] Instance Lifecycle_eq_dec : EqDecision Lifecycle.
Proof. solve_decision. Defined.

Section Client.
Context {S D P : Type} `{!Manager S D P}.
Local Open Scope st_scope.

(** The lambda [task] of [submitAsync]: what it captures. *)
Record Closure := mkClosure {
  cl_source : D;
  cl_ctx : SqlContext;
  cl_timeoutMs : Z;
  cl_request : Request;
}.

(** Executors are known by their place in [c_execs]: [asyncExecutor] is one of
    them, those retired stay as long as somebody holds them. [impl_] is never
    reset, but moved from. *)
Record Client := mkClient {
  c_impl : bool;
  c_state : Lifecycle;
  c_timeoutMs : Z;
  c_async : option nat;
  c_execs : list Exec;
  c_manager : S;
}.
Definition client_new (m : S) : Client := mkClient true Empty 0 None [] m.

Definition set_manager (m : S) (c : Client) : Client :=
  mkClient (c_impl c) (c_state c) (c_timeoutMs c) (c_async c) (c_execs c) m.
Definition set_state (l : Lifecycle) (c : Client) : Client :=
  mkClient (c_impl c) l (c_timeoutMs c) (c_async c) (c_execs c) (c_manager c).
Definition set_async (a : option nat) (es : list Exec) (c : Client) : Client :=
  mkClient (c_impl c) (c_state c) (c_timeoutMs c) a es (c_manager c).

(** An operation of the manager from the client. *)
Definition on_manager {A} (m : ST S A) : ST Client A :=
  fun c => let '(a, s) := m (c_manager c) in (a, set_manager s c).

Definition requireRunning (c : Client) : Status :=
  match c_state c with Running_ => StatusOK | Closed_ => clientClosed | Empty => notInitialized end.

(** What a call finds at its start. *)
Definition call_check (c : Client) : Status := if negb (c_impl c) then clientClosed else requireRunning c.

(** [resolve]: the context of the thread goes before the name of the call. *)
Definition target (ctx : SqlContext) (requested : str) : str :=
  if is_nil (cx_targetDataSource ctx) then requested else cx_targetDataSource ctx.
Definition lookup_source (ctx : SqlContext) (requested : str) (c : Client) : Status + D :=
  let name := target ctx requested in
  match (if is_nil name then dm_getDefault (c_manager c)
         else dm_getDataSource name (c_manager c)) with
  | Some d => inr d
  | None => inl (dataSourceNotFound name)
  end.
(** [resolve] of a thread that no other one interrupts. *)
Definition resolve (ctx : SqlContext) (requested : str) (c : Client) : Status + D :=
  let st := requireRunning c in
  if negb (st_ok st) then inl st else lookup_source ctx requested c.

(** ** Life cycle *)
Definition addDriver (type : str) (factory : option Z) : ST Client Status :=
  fun c =>
    if negb (c_impl c) then (clientClosed, c)
    else if is_nil type || match factory with Some _ => false | None => true end
    then (status_error ConfigError (lit "driver registration requires a type and factory"), c)
    else
      match c_state c with
      | Closed_ => (clientClosed, c)
      | Running_ => (already "drivers must be registered before Client::init()", c)
      | Empty => (StatusOK, set_manager (dm_addDriver type factory (c_manager c)) c)
      end.

Definition retire (e : nat) (es : list Exec) : list Exec := alter shutdown_begin e es.

(** [hardware] is [std::thread::hardware_concurrency()]. *)
Definition configureAsync (hardware : Z) (cfg : AsyncConfig) (c : Client) : Client :=
  let c := mkClient (c_impl c) (c_state c) (ac_statement_timeout_ms cfg) (c_async c) (c_execs c)
             (c_manager c) in
  if negb (ac_enabled cfg) then
    match c_async c with
    | Some e => set_async None (retire e (c_execs c)) c
    | None => c
    end
  else
    match c_async c with
    | Some _ => c
    | None => set_async (Some (length (c_execs c)))
                (c_execs c ++ [new_executor (ac_threads cfg) (ac_queue_size cfg) hardware]) c
    end.

Definition stopAsync (c : Client) : Client :=
  match c_async c with
  | Some e => set_async None (retire e (c_execs c)) c
  | None => c
  end.

Definition init_config (hardware : Z) (cfg : GlobalConfig) : ST Client Status :=
  fun c =>
    if negb (c_impl c) then (clientClosed, c)
    else
      let st := validateAsyncConfig (gl_async cfg) in
      if negb (st_ok st) then (st, c)
      else
        match c_state c with
        | Closed_ => (clientClosed, c)
        | Running_ => (already "client is already initialized; use reload()", c)
        | Empty =>
            let '(status, c) := on_manager (dm_init cfg 0) c in
            if st_ok status then (status, set_state Running_ (configureAsync hardware (gl_async cfg) c))
            else (status, c)
        end.

Definition reload_config (hardware : Z) (cfg : GlobalConfig) (grace : Z) : ST Client Status :=
  fun c =>
    if negb (c_impl c) then (clientClosed, c)
    else
      let st := validateAsyncConfig (gl_async cfg) in
      if negb (st_ok st) then (st, c)
      else
        let st := requireRunning c in
        if negb (st_ok st) then (st, c)
        else
          let '(status, c) := on_manager (dm_init cfg grace) c in
          if st_ok status then (status, configureAsync hardware (gl_async cfg) c) else (status, c).

(** [loaded]: what [ConfigLoader::loadFromFile] answers. *)
Definition init_path (hardware : Z) (loaded : str + GlobalConfig) : ST Client Status :=
  match loaded with
  | inl error => ret (status_error ConfigError error)
  | inr cfg => init_config hardware cfg
  end.
Definition reload_path (hardware : Z) (loaded : str + GlobalConfig) (grace : Z) : ST Client Status :=
  match loaded with
  | inl error => ret (status_error ConfigError error)
  | inr cfg => reload_config hardware cfg grace
  end.

Definition isRunning (c : Client) : bool := c_impl c && bool_decide (c_state c = Running_).

Definition client_shutdown (grace : Z) : ST Client unit :=
  fun c =>
    if negb (c_impl c) then (tt, c)
    else
      let was_running := bool_decide (c_state c = Running_) in
      let c := set_state Closed_ c in
      if was_running then on_manager (dm_shutdown grace) (stopAsync c) else (tt, c).

(** The dynamic operations take no lock of the client: between the check of the state
    and the operation of the manager other threads may run. *)
Inductive Dynamic :=
  | AddDataSource (cfg : DataSourceConfig) (o : DataSourceOptions)
  | RemoveDataSource (name : str) (grace : Z)
  | AddGroup (g : DataSourceGroupConfig) (o : GroupOptions)
  | RemoveGroup (name : str) (grace : Z).
Definition dynamic_run (op : Dynamic) : ST Client Status :=
  on_manager
    match op with
    | AddDataSource cfg o => dm_addDataSource cfg o
    | RemoveDataSource name grace => dm_removeDataSource name grace
    | AddGroup g o => dm_addGroup g o
    | RemoveGroup name grace => dm_removeGroup name grace
    end.
(** A dynamic operation that no other thread interrupts. *)
Definition guarded (op : Dynamic) : ST Client Status :=
  fun c => let st := call_check c in if st_ok st then dynamic_run op c else (st, c).

Definition client_addDataSource (cfg : DataSourceConfig) (o : DataSourceOptions) := guarded (AddDataSource cfg o).
Definition client_removeDataSource (name : str) (grace : Z) := guarded (RemoveDataSource name grace).
Definition client_addGroup (g : DataSourceGroupConfig) (o : GroupOptions) := guarded (AddGroup g o).
Definition client_removeGroup (name : str) (grace : Z) := guarded (RemoveGroup name grace).

Definition client_service (call : ServiceCall) : ST Client unit :=
  fun c => if c_impl c then (tt, set_manager (dm_service call (c_manager c)) c) else (tt, c).

(** ** Synchronous calls *)
Definition serve (ctx : SqlContext) (source : str) (r : Request) : ST Client (TaskEnd * (Status * P)) :=
  fun c =>
    if negb (c_impl c) then ((Returned, (clientClosed, dm_nothing)), c)
    else
      match resolve ctx source c with
      | inl st => ((Returned, (st, dm_nothing)), c)
      | inr d => on_manager (dm_serve ctx d r) c
      end.

Definition query ctx source sql params := serve ctx source (RQuery sql (some_params params)).
Definition execute ctx source sql params := serve ctx source (RExecute sql (some_params params)).
Definition queryAll ctx source sql params := serve ctx source (RQueryAll sql (some_params params)).
Definition client_call ctx source sql params := serve ctx source (RCall sql params).
Definition queryEach ctx source sql params cb := serve ctx source (RQueryEach sql params cb).
Definition executeBatch ctx source sql batch := serve ctx source (RExecuteBatch sql batch).
Definition openCursor ctx source sql params o := serve ctx source (ROpenCursor sql params o).
Definition transaction ctx source o fn := serve ctx source (RTransaction o fn).
Definition withSession ctx source fn := serve ctx source (RWithSession fn).

Definition client_dataSource (ctx : SqlContext) (name : str) (c : Client) : option D :=
  if negb (c_impl c) then None
  else match resolve ctx name c with inr d => Some d | inl _ => None end.

(** ** Asynchronous calls

    [submitAsync] resolves the data source, takes hold of the executor, reads the
    timeout into the task, and posts it; between any two of these other threads may
    run. *)
Definition take_executor (c : Client) : (Status * P) + nat :=
  match c_async c with
  | None => inl (async_disabled, dm_nothing)
  | Some e => inr e
  end.
Definition make_task (d : D) (ctx : SqlContext) (r : Request) (c : Client) : Closure :=
  mkClosure d ctx (c_timeoutMs c) r.
(** [submitAsync] up to the post, of a thread that no other one interrupts. *)
Definition submit (ctx : SqlContext) (source : str) (r : Request) (c : Client)
    : (Status * P) + (nat * Closure) :=
  if negb (c_impl c) then inl (clientClosed, dm_nothing)
  else
    match resolve ctx source c with
    | inl st => inl (st, dm_nothing)
    | inr d =>
        match take_executor c with
        | inl answer => inl answer
        | inr e => inr (e, make_task d ctx r c)
        end
    end.

Definition queryAsync ctx source sql params := submit ctx source (RQuery sql (some_params params)).
Definition queryAllAsync ctx source sql (params : Params) :=
  submit ctx source (RQueryAll sql (Some params)).
Definition executeAsync ctx source sql params :=
  submit ctx source (RExecute sql (some_params params)).
Definition executeKeysAsync ctx source sql params :=
  submit ctx source (RExecuteKeys sql (some_params params)).
Definition queryEachAsync ctx source sql params cb := submit ctx source (RQueryEach sql params cb).
Definition executeBatchAsync ctx source sql batch := submit ctx source (RExecuteBatch sql batch).
Definition transactionAsync ctx source o fn := submit ctx source (RTransaction o fn).

(** The task itself; [elapsed] is the time it took, in nanoseconds. *)
Definition threw_status (e : TaskEnd) (st : Status) : Status :=
  match e with
  | Returned => st
  | Threw what => status_error Unknown (lit "client async operation threw: " ++ what)
  | ThrewUnknown =>
      status_error Unknown (lit "client async operation threw an unknown exception")
  end.

Definition run_closure (k : Closure) (elapsed : Z) : ST S (Status * P) :=
  r <-- dm_serve (cl_ctx k) (cl_source k) (cl_request k);
  let '(e, (st, p)) := r in
  let st := threw_status e st in
  ret (if (0 <? cl_timeoutMs k) && (cl_timeoutMs k * 1000000 <=? elapsed) then async_timeout else st, p).

Definition asyncStats (c : Client) : option ExecutorStats :=
  if negb (c_impl c) then None
  else match c_async c with Some e => exec_stats <$> (c_execs c !! e) | None => None end.
End Client.
Arguments Closure : clear implicits.
Arguments Client : clear implicits.

(** ** The threads of a client

    A future is known by a number. [w_posting] are the threads inside
    [submitAsync] that have not posted yet, each with what it knows; [w_calls] those
    inside a synchronous call or a dynamic operation; [w_tasks] the tasks made;
    [w_settled] the promises set, in order. The calls that hold the client's
    life-cycle lock to their end ([init], [reload], [shutdown], [addDriver]) are one
    step each, as is a request to a data source. *)
Section Machine.
Context {S D P : Type} `{!Manager S D P}.

Inductive Submitting :=
  | Checked (ctx : SqlContext) (source : str) (r : Request)
  | Resolved (d : D) (ctx : SqlContext) (r : Request)
  | Holding (e : nat) (d : D) (ctx : SqlContext) (r : Request)
  | Ready (e : nat).
Inductive Calling :=
  | CallLookup (ctx : SqlContext) (source : str) (r : Request)
  | CallServe (d : D) (ctx : SqlContext) (r : Request)
  | CallDynamic (op : Dynamic).

Record World := mkWorld {
  w_client : Client S;
  w_known : list Z;
  w_posting : list (Z * Submitting);
  w_tasks : gmap Z (Closure D);
  w_settled : list (Z * (Status * P));
  w_calls : list Calling;
}.
Definition world_new (m : S) : World := mkWorld (client_new m) [] [] ∅ [] [].

(** [CvStep f]: the thread that submits [f] goes one step; [CvCall i]: the [i]th
    thread inside a call. *)
Inductive ClientEvent :=
  | CvSubmit (f : Z) (ctx : SqlContext) (source : str) (r : Request)
  | CvStep (f : Z)
  | CvPost (f : Z)
  | CvWorker (e : nat) (l : ExecEvent) (elapsed : Z)
  | CvInit (hardware : Z) (cfg : GlobalConfig)
  | CvReload (hardware : Z) (cfg : GlobalConfig) (grace : Z)
  | CvServe (ctx : SqlContext) (source : str) (r : Request)
  | CvDynamic (op : Dynamic)
  | CvCall (i : nat)
  | CvShutdown (grace : Z)
  | CvAddDriver (type : str) (factory : option Z)
  | CvService (call : ServiceCall).

Definition set_client (c : Client S) (w : World) : World :=
  mkWorld c (w_known w) (w_posting w) (w_tasks w) (w_settled w) (w_calls w).
Definition settle (f : Z) (r : Status * P) (w : World) : World :=
  mkWorld (w_client w) (w_known w) (w_posting w) (w_tasks w) (w_settled w ++ [(f, r)]) (w_calls w).
Definition set_posting (l : list (Z * Submitting)) (w : World) : World :=
  mkWorld (w_client w) (w_known w) l (w_tasks w) (w_settled w) (w_calls w).
Definition set_calls (l : list Calling) (w : World) : World :=
  mkWorld (w_client w) (w_known w) (w_posting w) (w_tasks w) (w_settled w) l.
Definition add_task (f : Z) (k : Closure D) (w : World) : World :=
  mkWorld (w_client w) (w_known w) (w_posting w) (<[f := k]> (w_tasks w)) (w_settled w) (w_calls w).

Definition do_submit (f : Z) (ctx : SqlContext) (source : str) (r : Request) (w : World) : World :=
  let w := mkWorld (w_client w) (f :: w_known w) (w_posting w) (w_tasks w) (w_settled w) (w_calls w) in
  let st := call_check (w_client w) in
  if st_ok st then set_posting ((f, Checked ctx source r) :: w_posting w) w
  else settle f (st, dm_nothing) w.

Definition posting_of (f : Z) (l : list (Z * Submitting)) : option Submitting :=
  snd <$> List.find (fun x => f =? x.1) l.
Definition posting_without (f : Z) (l : list (Z * Submitting)) : list (Z * Submitting) :=
  List.filter (fun x => negb (f =? x.1)) l.

Definition do_step (f : Z) (w : World) : option World :=
  s ← posting_of f (w_posting w);
  let rest := posting_without f (w_posting w) in
  match s with
  | Checked ctx source r =>
      Some match lookup_source ctx source (w_client w) with
           | inl st => settle f (st, dm_nothing) (set_posting rest w)
           | inr d => set_posting ((f, Resolved d ctx r) :: rest) w
           end
  | Resolved d ctx r =>
      Some match take_executor (w_client w) with
           | inl answer => settle f answer (set_posting rest w)
           | inr e => set_posting ((f, Holding e d ctx r) :: rest) w
           end
  | Holding e d ctx r =>
      Some (add_task f (make_task d ctx r (w_client w)) (set_posting ((f, Ready e) :: rest) w))
  | Ready _ => None
  end.

Definition do_post (f : Z) (w : World) : option World :=
  match posting_of f (w_posting w) with
  | Some (Ready e) =>
      x ← c_execs (w_client w) !! e;
      let '(accepted, x') := tryPost (Some f) x in
      let c := set_async (c_async (w_client w)) (<[e := x']> (c_execs (w_client w))) (w_client w) in
      let w := set_client c (set_posting (posting_without f (w_posting w)) w) in
      Some (if accepted then w else settle f (overloaded, dm_nothing) w)
  | _ => None
  end.

Definition start_call (k : Calling) (w : World) : World :=
  if st_ok (call_check (w_client w)) then set_calls (w_calls w ++ [k]) w else w.
Definition do_call (i : nat) (w : World) : option World :=
  k ← w_calls w !! i;
  let rest := take i (w_calls w) ++ drop (Datatypes.S i) (w_calls w) in
  Some match k with
       | CallLookup ctx source r =>
           match lookup_source ctx source (w_client w) with
           | inl st => set_calls rest w
           | inr d => set_calls (rest ++ [CallServe d ctx r]) w
           end
       | CallServe d ctx r =>
           set_client (on_manager (dm_serve ctx d r) (w_client w)).2 (set_calls rest w)
       | CallDynamic op => set_client (dynamic_run op (w_client w)).2 (set_calls rest w)
       end.

(** A section of an executor's thread; at the end of a task its promise is set. *)
Definition do_worker (e : nat) (l : ExecEvent) (elapsed : Z) (w : World) : option World :=
  if negb (internal l) then None
  else
    x ← c_execs (w_client w) !! e;
    x' ← exec_step l x;
    let c := set_async (c_async (w_client w)) (<[e := x']> (c_execs (w_client w))) (w_client w) in
    match finishes l x with
    | f :: _ =>
        k ← w_tasks w !! f;
        let '(r, s) := run_closure k elapsed (c_manager c) in
        Some (settle f r (set_client (set_manager s c) w))
    | [] => Some (set_client c w)
    end.

Definition client_step (ev : ClientEvent) (w : World) : option World :=
  match ev with
  | CvSubmit f ctx source r =>
      if existsb (Z.eqb f) (w_known w) then None else Some (do_submit f ctx source r w)
  | CvStep f => do_step f w
  | CvPost f => do_post f w
  | CvWorker e l elapsed => do_worker e l elapsed w
  | CvInit hardware cfg =>
      if hardware <? 0 then None
      else Some (set_client (init_config hardware cfg (w_client w)).2 w)
  | CvReload hardware cfg grace =>
      if hardware <? 0 then None
      else Some (set_client (reload_config hardware cfg grace (w_client w)).2 w)
  | CvServe ctx source r => Some (start_call (CallLookup ctx source r) w)
  | CvDynamic op => Some (start_call (CallDynamic op) w)
  | CvCall i => do_call i w
  | CvShutdown grace => Some (set_client (client_shutdown grace (w_client w)).2 w)
  | CvAddDriver type factory => Some (set_client (addDriver type factory (w_client w)).2 w)
  | CvService call => Some (set_client (client_service call (w_client w)).2 w)
  end.

Inductive client_reaches (m : S) : World -> Prop :=
  | client_reaches_new : client_reaches m (world_new m)
  | client_reaches_step w ev w' :
      client_reaches m w -> client_step ev w = Some w' -> client_reaches m w'.
End Machine.
Arguments World : clear implicits.
Arguments Submitting : clear implicits.
Arguments Calling : clear implicits.

(** ** Where a future is *)
Definition owned (x : Exec) : list Z := ex_queue x ++ running x.

Section Places.
Context {S D P : Type} `{!Manager S D P}.

Definition places (w : World S D P) : list Z :=
  map fst (w_settled w) ++ map fst (w_posting w) ++ concat (map owned (c_execs (w_client w))).

(** The executor a submitting thread holds is one of the [n] first. *)
Definition holds_below (n : nat) (s : Submitting D) : Prop :=
  match s with Holding e _ _ _ | Ready e => (e < n)%nat | _ => True end.

Record world_inv (w : World S D P) : Prop := {
  wi_places : places w ≡ₚ w_known w;
  wi_nodup : NoDup (w_known w);
  wi_posting : Forall (fun x => holds_below (length (c_execs (w_client w))) x.2) (w_posting w);
  wi_async : forall e, c_async (w_client w) = Some e -> (e < length (c_execs (w_client w)))%nat;
  wi_execs : Forall exec_inv (c_execs (w_client w));
  wi_retired : forall e x, c_execs (w_client w) !! e = Some x -> c_async (w_client w) <> Some e ->
                 ex_stopping x = true;
  wi_closed : c_state (w_client w) <> Running_ -> c_async (w_client w) = None;
  wi_ready : forall f e, (f, Ready e) ∈ w_posting w -> is_Some (w_tasks w !! f);
  wi_tasks : forall f, f ∈ concat (map owned (c_execs (w_client w))) -> is_Some (w_tasks w !! f);
}.

(** *** Executors *)
Lemma concat_owned_insert (es : list Exec) e x x' : es !! e = Some x ->
  owned x ++ concat (map owned (<[e := x']> es)) ≡ₚ owned x' ++ concat (map owned es).
Proof.
  revert e. induction es as [|y es IH]; intros [|e] H; try done; cbn in *.
  - injection H as ->. solve_Permutation.
  - specialize (IH e H). rewrite Permutation_app_swap_app, IH. solve_Permutation.
Qed.

Lemma owned_tryPost f x : exec_inv x ->
  owned (tryPost (Some f) x).2 ≡ₚ (if (tryPost (Some f) x).1 then [f] else []) ++ owned x.
Proof.
  intros H. unfold tryPost.
  pose proof (ensure_running x H) as Hr. pose proof (ensure_queue x) as Hq.
  destruct (ex_stopping (ensureStartedLocked x)); cbn [fst snd].
  { unfold owned. by rewrite Hr, Hq. }
  destruct (_ <=? _); cbn [fst snd]; unfold owned; cbn [ex_queue reject push_back].
  - rewrite Hq. change (running (reject (ensureStartedLocked x))) with (running (ensureStartedLocked x)).
    by rewrite Hr.
  - change (running (push_back f (ensureStartedLocked x))) with (running (ensureStartedLocked x)).
    rewrite Hr, Hq. solve_Permutation.
Qed.

Lemma owned_internal l x x' : internal l = true -> exec_inv x -> exec_step l x = Some x' ->
  owned x ≡ₚ finishes l x ++ owned x'.
Proof.
  intros Hl H E. pose proof (step_running l x x' H E) as Hr. pose proof (step_queue l x x' E) as Hq.
  assert (accepts l x = []) as Ha by (by destruct l).
  rewrite Ha, app_nil_r in Hq. unfold owned. rewrite Hq, <- app_assoc, Permutation_app_swap_app, Hr.
  solve_Permutation.
Qed.

Lemma finishes_one l x : finishes l x = [] \/ exists f, finishes l x = [f].
Proof. unfold finishes. repeat case_match; eauto. Qed.

Lemma stopping_tryPost t x : ex_stopping (tryPost t x).2 = ex_stopping x.
Proof.
  unfold tryPost. destruct t as [t|]; [|done].
  destruct (ex_stopping (ensureStartedLocked x)) eqn:E; cbn; [|case_match; cbn];
    by rewrite ?E, <- (ensure_stopping x).
Qed.

Lemma stopping_internal l x x' : internal l = true -> exec_step l x = Some x' ->
  ex_stopping x' = ex_stopping x.
Proof.
  intros Hl H. destruct l; try done; cbn in H;
    [unfold worker_take in H | unfold worker_done in H | unfold timer_wake in H | unfold timer_done in H];
    repeat (case_match; try discriminate); by injection H as <-.
Qed.

(** A stopping executor whose threads can do nothing more has no task left. *)
Lemma stuck_owns_nothing x : exec_inv x -> ex_stopping x = true ->
  (forall l, internal l = true -> exec_step l x = None) -> owned x = [].
Proof.
  intros H Hs Hno. pose proof (internal_progress x H Hs Hno) as J. unfold owned, joined in *.
  destruct (ex_threadsStarted x) eqn:St; cbn in J.
  - apply andb_true_iff in J as [_ J]. pose proof (all_exited_idle _ J) as Hidle.
    pose proof (ei_started _ H St) as L. pose proof (ei_count _ H) as C.
    destruct (ex_threads x) as [|v l] eqn:T; [cbn in L; lia|]. destruct v; try done.
    rewrite (ei_exited _ H) by (rewrite T; left). unfold running. by rewrite T.
  - destruct (ei_fresh _ H St) as (T & Q & _). unfold running. by rewrite T, Q.
Qed.

Lemma stopping_shutdown x : ex_stopping (shutdown_begin x) = true.
Proof. unfold shutdown_begin. by destruct (ex_stopping x) eqn:E. Qed.

Lemma owned_shutdown x : owned (shutdown_begin x) = owned x.
Proof. unfold shutdown_begin, owned. by destruct (ex_stopping x). Qed.

Lemma concat_owned_retire (es : list Exec) e : concat (map owned (retire e es)) = concat (map owned es).
Proof.
  unfold retire. revert e. induction es as [|x es IH]; intros [|e]; cbn; [done | done | |].
  - by rewrite owned_shutdown.
  - f_equal. apply IH.
Qed.

Lemma execs_retire (es : list Exec) e : Forall exec_inv es -> Forall exec_inv (retire e es).
Proof.
  unfold retire. intros H. revert e. induction H as [|x es Hx H IH]; intros [|e]; cbn; constructor;
    auto. by apply inv_shutdown.
Qed.

(** *** The client's operations *)
(** The part of the invariant that speaks of the client alone. *)
Record client_inv (c : Client S) : Prop := {
  ci_async : forall e, c_async c = Some e -> (e < length (c_execs c))%nat;
  ci_execs : Forall exec_inv (c_execs c);
  ci_retired : forall e x, c_execs c !! e = Some x -> c_async c <> Some e -> ex_stopping x = true;
  ci_closed : c_state c <> Running_ -> c_async c = None;
}.

(** Two clients whose executors hold the same tasks, where none is lost. *)
Definition same_tasks (c c' : Client S) : Prop :=
  concat (map owned (c_execs c')) = concat (map owned (c_execs c))
  /\ (length (c_execs c) <= length (c_execs c'))%nat.

Lemma same_tasks_refl (c c' : Client S) : c_execs c' = c_execs c -> same_tasks c c'.
Proof. unfold same_tasks. by intros ->. Qed.
Lemma same_tasks_trans (c c' c'' : Client S) : same_tasks c c' -> same_tasks c' c'' -> same_tasks c c''.
Proof. intros [E1 L1] [E2 L2]. split; [by rewrite E2 | lia]. Qed.

Lemma retire_client c e : client_inv c -> c_async c = Some e ->
  client_inv (set_async None (retire e (c_execs c)) c) /\
  same_tasks c (set_async None (retire e (c_execs c)) c).
Proof.
  intros [H1 H2 H3 H4] He. split; [split|]; cbn.
  - done.
  - by apply execs_retire.
  - intros j x Hx _. unfold retire in Hx. destruct (decide (j = e)) as [->|Hne].
    + rewrite list_lookup_alter, decide_True in Hx by done. apply fmap_Some in Hx as (y & _ & ->). apply stopping_shutdown.
    + rewrite list_lookup_alter_ne in Hx by done. apply (H3 j x Hx). congruence.
  - done.
  - split; cbn; [apply concat_owned_retire|]. unfold retire. by rewrite length_alter.
Qed.

Lemma configure_client hardware cfg c : 0 <= hardware -> client_inv c ->
  let c' := set_state Running_ (configureAsync hardware cfg c) in
  client_inv c' /\ same_tasks c c'.
Proof.
  intros Hh Hc. unfold configureAsync. cbn [c_async c_execs].
  destruct (ac_enabled cfg); cbn [negb].
  - destruct (c_async c) as [e|] eqn:Ea.
    + split; [|by apply same_tasks_refl]. destruct Hc as [H1 H2 H3 H4]. rewrite Ea in *.
      by split.
    + split; [|split; cbn].
      * destruct Hc as [H1 H2 H3 H4]. split; cbn.
        -- intros e [= <-]. rewrite length_app. cbn. lia.
        -- apply Forall_app. split; [done|]. repeat constructor; by apply inv_new.
        -- intros e x Hx Hne. apply lookup_app_Some in Hx as [Hx|[Hle Hx]].
           ++ apply (H3 e x Hx). by rewrite Ea.
           ++ apply list_lookup_singleton_Some in Hx as [Hx _]. exfalso. apply Hne. f_equal. lia.
        -- done.
      * rewrite map_app, concat_app. cbn. by rewrite app_nil_r.
      * rewrite length_app. lia.
  - destruct (c_async c) as [e|] eqn:Ea.
    + pose proof (retire_client c e Hc Ea) as [[R1 R2 R3 R4] Hs]. split; [by split | done].
    + split; [|by apply same_tasks_refl]. destruct Hc as [H1 H2 H3 H4]. split; cbn; rewrite ?Ea; try done.
      intros e x Hx _. apply (H3 e x Hx). by rewrite Ea.
Qed.

Lemma manager_client (c : Client S) s : client_inv c ->
  client_inv (set_manager s c) /\ same_tasks c (set_manager s c).
Proof. intros [H1 H2 H3 H4]. split; [by split | by apply same_tasks_refl]. Qed.

Definition good (c c' : Client S) : Prop := client_inv c' /\ same_tasks c c'.

Lemma good_refl c : client_inv c -> good c c.
Proof. intros H. split; [done | by apply same_tasks_refl]. Qed.

Lemma good_on_manager {A} (m : ST S A) c : client_inv c -> good c (on_manager m c).2.
Proof. intros H. unfold on_manager. destruct (m _) as [a s]. by apply manager_client. Qed.

Lemma good_configure hardware cfg c c1 : 0 <= hardware -> good c c1 ->
  good c (set_state Running_ (configureAsync hardware cfg c1)).
Proof.
  intros Hh [H1 H2]. destruct (configure_client hardware cfg c1 Hh H1) as [H3 H4].
  split; [done | by eapply same_tasks_trans].
Qed.

Lemma good_init hardware cfg c : 0 <= hardware -> client_inv c ->
  good c (init_config hardware cfg c).2.
Proof.
  intros Hh Hc. unfold init_config. destruct (negb (c_impl c)); [by apply good_refl|].
  destruct (negb (st_ok _)); [by apply good_refl|]. destruct (c_state c); try by apply good_refl.
  pose proof (good_on_manager (dm_init cfg 0) c Hc) as H. destruct (on_manager _ c) as [st c1].
  destruct (st_ok st); [by apply good_configure | exact H].
Qed.

Lemma set_state_same (c : Client S) l : c_state c = l -> set_state l c = c.
Proof. intros <-. by destruct c. Qed.

Lemma configure_state hardware cfg (c : Client S) : c_state (configureAsync hardware cfg c) = c_state c.
Proof. unfold configureAsync. by destruct (negb (ac_enabled cfg)), (c_async c). Qed.

Lemma on_manager_state {A} (m : ST S A) c : c_state (on_manager m c).2 = c_state c.
Proof. unfold on_manager. by destruct (m _). Qed.

Lemma good_reload hardware cfg grace c : 0 <= hardware -> client_inv c ->
  good c (reload_config hardware cfg grace c).2.
Proof.
  intros Hh Hc. unfold reload_config, requireRunning. destruct (negb (c_impl c)); [by apply good_refl|].
  destruct (negb (st_ok _)); [by apply good_refl|].
  destruct (c_state c) eqn:Es; try by apply good_refl. cbn [st_ok negb].
  pose proof (good_on_manager (dm_init cfg grace) c Hc) as H.
  pose proof (on_manager_state (dm_init cfg grace) c) as Hs. destruct (on_manager _ c) as [st c1].
  cbn [snd] in *. destruct (st_ok st); [|exact H]. cbn [snd].
  rewrite <- (set_state_same (configureAsync hardware (gl_async cfg) c1) Running_)
    by (by rewrite configure_state, Hs). by apply good_configure.
Qed.

Lemma good_serve ctx source r c : client_inv c -> good c (serve ctx source r c).2.
Proof.
  intros Hc. unfold serve. destruct (negb (c_impl c)); [by apply good_refl|].
  destruct (resolve ctx source c); [by apply good_refl | by apply good_on_manager].
Qed.

Lemma good_shutdown grace c : client_inv c -> good c (client_shutdown grace c).2.
Proof.
  intros Hc. unfold client_shutdown. destruct (negb (c_impl c)); [by apply good_refl|].
  destruct (bool_decide (c_state c = Running_)) eqn:E.
  - assert (good c (stopAsync (set_state Closed_ c))) as Hg.
    { unfold stopAsync. cbn [c_async c_execs set_state]. destruct (c_async c) as [e|] eqn:Ea.
      - destruct (retire_client c e Hc Ea) as [[H1 H2 H3 H4] Hs]. split; [by split | done].
      - split; [|by apply same_tasks_refl]. destruct Hc as [H1 H2 H3 H4].
        split; cbn; rewrite ?Ea in *; done. }
    destruct Hg as [Hg Hs]. destruct (good_on_manager (dm_shutdown grace) _ Hg) as [H1 H2].
    split; [done | by eapply same_tasks_trans].
  - bool_prop. cbn. split; [|by apply same_tasks_refl]. destruct Hc as [H1 H2 H3 H4].
    split; cbn; try done. intros _. by apply H4.
Qed.

Lemma good_service call c : client_inv c -> good c (client_service call c).2.
Proof.
  intros Hc. unfold client_service. destruct (c_impl c); [|by apply good_refl].
  by apply manager_client.
Qed.

Lemma good_dynamic op c : client_inv c -> good c (dynamic_run op c).2.
Proof. apply good_on_manager. Qed.

Lemma good_addDriver type factory c : client_inv c -> good c (addDriver type factory c).2.
Proof.
  intros Hc. unfold addDriver. destruct (negb (c_impl c)); [by apply good_refl|].
  destruct (_ || _); [by apply good_refl|]. destruct (c_state c); try by apply good_refl.
  by apply manager_client.
Qed.

(** *** The machine *)
Lemma world_client w : world_inv w -> client_inv (w_client w).
Proof. intros []. by split. Qed.

Lemma holds_below_le n n' (s : Submitting D) : (n <= n')%nat -> holds_below n s -> holds_below n' s.
Proof. destruct s; cbn; lia. Qed.
Lemma world_set_client w c : world_inv w -> good (w_client w) c -> world_inv (set_client c w).
Proof.
  intros [H1 H2 H3 H4 H5 H6 H7 H8 H9] [[C1 C2 C3 C4] [E L]].
  split; cbn; try done; unfold places in *; cbn; try by rewrite E.
  eapply Forall_impl; [exact H3|]. cbn. intros x. by apply holds_below_le.
Qed.
Lemma world_set_calls w l : world_inv w -> world_inv (set_calls l w).
Proof. intros []. by split. Qed.

Lemma world_inv_new m : world_inv (world_new m).
Proof.
  split; cbn; try done; try constructor.
  - intros f e Hf. by apply elem_of_nil in Hf.
  - intros f Hf. by apply elem_of_nil in Hf.
Qed.

Lemma world_submit f ctx source r w : world_inv w -> f ∉ w_known w ->
  world_inv (do_submit f ctx source r w).
Proof.
  intros H Hf. unfold do_submit. cbn [w_client w_known w_posting w_tasks w_settled w_calls].
  destruct H as [H1 H2 H3 H4 H5 H6 H7 H8 H9]. unfold places in *.
  destruct (st_ok _); split; cbn; try done; unfold places; cbn; rewrite ?map_app; cbn; try by constructor.
  - rewrite <- H1. solve_Permutation.
  - intros g e [Hg|Hg]%elem_of_cons; [done | by eapply H8].
  - rewrite <- H1. solve_Permutation.
Qed.

Lemma posting_without_id f (l : list (Z * Submitting D)) : f ∉ map fst l -> posting_without f l = l.
Proof.
  induction l as [|[g e] l IH]; intros Hf; [done|]. cbn in *. apply not_elem_of_cons in Hf as [Hne Hf].
  unfold posting_without in *. cbn. replace (f =? g) with false by (symmetry; by apply Z.eqb_neq).
  cbn. by rewrite IH.
Qed.

Lemma posting_split f s (l : list (Z * Submitting D)) : NoDup (map fst l) -> posting_of f l = Some s ->
  (f, s) ∈ l /\ map fst l ≡ₚ f :: map fst (posting_without f l).
Proof.
  induction l as [|[g j] l IH]; intros Hn H; [done|]. cbn in Hn. apply NoDup_cons in Hn as [Hg Hn].
  unfold posting_of in *. cbn in H. unfold posting_without. cbn.
  destruct (Z.eqb_spec f g) as [->|Hne]; cbn in *.
  - injection H as ->. split; [left|]. fold (posting_without g l). by rewrite posting_without_id.
  - destruct (IH Hn H) as [Hi Hp]. split; [by right|]. unfold posting_without in Hp.
    rewrite Hp. apply perm_swap.
Qed.

Lemma posting_without_sub f x (l : list (Z * Submitting D)) : x ∈ posting_without f l -> x ∈ l.
Proof. intros H%list_elem_of_In. apply list_elem_of_In. by apply filter_In in H as [H _]. Qed.

Lemma places_nodup w : world_inv w -> NoDup (places w).
Proof. intros H. rewrite (wi_places _ H). apply (wi_nodup _ H). Qed.
Lemma posting_at w f s : world_inv w -> posting_of f (w_posting w) = Some s ->
  (f, s) ∈ w_posting w /\ map fst (w_posting w) ≡ₚ f :: map fst (posting_without f (w_posting w)).
Proof.
  intros H Hf. pose proof (places_nodup _ H) as Hn. unfold places in Hn.
  apply NoDup_app in Hn as (_ & _ & Hn). apply NoDup_app in Hn as (Hn & _ & _). by apply posting_split.
Qed.

(** A thread goes from one stage of [submitAsync] to the next, or its promise is set. *)
Lemma world_restage f s s' w : world_inv w -> posting_of f (w_posting w) = Some s ->
  holds_below (length (c_execs (w_client w))) s' -> (forall e, s' = Ready e -> is_Some (w_tasks w !! f)) ->
  world_inv (set_posting ((f, s') :: posting_without f (w_posting w)) w).
Proof.
  intros H Hf Hs Hr. destruct (posting_at _ _ _ H Hf) as [_ Hp].
  destruct H as [H1 H2 H3 H4 H5 H6 H7 H8 H9]. split; cbn; try done; unfold places in *; cbn.
  - rewrite <- H1, Hp. solve_Permutation.
  - constructor; [done|]. apply Forall_forall. intros y Hy. rewrite Forall_forall in H3.
    by eapply H3, posting_without_sub.
  - intros g e [[= -> He]|Hg]%elem_of_cons; [by eapply Hr|]. by eapply H8, posting_without_sub.
Qed.
Lemma world_settle f s r w : world_inv w -> posting_of f (w_posting w) = Some s ->
  world_inv (settle f r (set_posting (posting_without f (w_posting w)) w)).
Proof.
  intros H Hf. destruct (posting_at _ _ _ H Hf) as [_ Hp].
  destruct H as [H1 H2 H3 H4 H5 H6 H7 H8 H9]. split; cbn; try done; unfold places in *; cbn.
  - rewrite map_app. cbn. rewrite <- H1, Hp. solve_Permutation.
  - apply Forall_forall. intros y Hy. rewrite Forall_forall in H3. by eapply H3, posting_without_sub.
  - intros g e Hg. by eapply H8, posting_without_sub.
Qed.
Lemma world_add_task f k w : world_inv w -> world_inv (add_task f k w).
Proof.
  intros [H1 H2 H3 H4 H5 H6 H7 H8 H9].
  assert (forall g, is_Some (w_tasks w !! g) -> is_Some (<[f := k]> (w_tasks w) !! g)) as Ht.
  { intros g Hg. destruct (decide (g = f)) as [->|Hne]; [by rewrite lookup_insert_eq | by rewrite lookup_insert_ne]. }
  split; cbn; eauto.
Qed.
Lemma world_next f w w' : world_inv w -> do_step f w = Some w' -> world_inv w'.
Proof.
  intros H E. unfold do_step in E. destruct (posting_of f (w_posting w)) as [s|] eqn:Ef; [|done].
  cbn [mbind option_bind] in E. destruct s as [ctx source r|d ctx r|e d ctx r|e]; [| | |done]; injection E as <-.
  - destruct (lookup_source _ _ _); [by eapply world_settle | by eapply world_restage].
  - unfold take_executor. destruct (c_async (w_client w)) as [e|] eqn:Ea; [|by eapply world_settle].
    eapply world_restage; [done.. | |done]. cbn. by apply (wi_async _ H).
  - assert (world_inv (add_task f (make_task d ctx r (w_client w)) w)) as H' by (by apply world_add_task).
    apply (world_restage f (Holding e d ctx r) (Ready e) _ H'); [done| |].
    + destruct (posting_at _ _ _ H Ef) as [Hin _]. pose proof (wi_posting _ H) as H3. rewrite Forall_forall in H3.
      exact (H3 _ Hin).
    + intros e' _. cbn. rewrite lookup_insert_eq. by eexists.
Qed.

(** Executor [e] of the client takes a step. *)
Lemma client_exec_step (c : Client S) e x x' : client_inv c -> c_execs c !! e = Some x ->
  exec_inv x' -> ex_stopping x' = ex_stopping x ->
  client_inv (set_async (c_async c) (<[e := x']> (c_execs c)) c).
Proof.
  intros [H1 H2 H3 H4] Hx Hi Hs. split; cbn; rewrite ?length_insert; try done.
  - by apply Forall_insert.
  - intros j y Hy Hne. destruct (decide (j = e)) as [->|Hj].
    + rewrite list_lookup_insert_eq in Hy by (by eapply lookup_lt_Some). injection Hy as <-.
      rewrite Hs. by apply (H3 e x Hx).
    + rewrite list_lookup_insert_ne in Hy by done. by apply (H3 j y Hy).
Qed.

Lemma elem_owned (es : list Exec) e x f : es !! e = Some x -> f ∈ owned x -> f ∈ concat (map owned es).
Proof.
  intros Ex Hf. apply list_elem_of_In, in_concat. exists (owned x). split; [|by apply list_elem_of_In].
  apply in_map, list_elem_of_In. by eapply list_elem_of_lookup_2.
Qed.
Lemma world_post f w w' : world_inv w -> do_post f w = Some w' -> world_inv w'.
Proof.
  intros H E. unfold do_post in E.
  destruct (posting_of f (w_posting w)) as [[| | |e]|] eqn:Ef; [done..| |done].
  destruct (c_execs (w_client w) !! e) as [x|] eqn:Ex; [|done]. cbn -[tryPost] in E.
  destruct (posting_at _ _ _ H Ef) as [Hin Hp].
  pose proof (world_client _ H) as Hc. destruct H as [H1 H2 H3 H4 H5 H6 H7 H8 H9].
  assert (exec_inv x) as Hxi by (rewrite Forall_forall in H5; by eapply H5, list_elem_of_lookup_2).
  pose proof (owned_tryPost f x Hxi) as Ho. pose proof (inv_tryPost (Some f) x Hxi) as Hi.
  pose proof (stopping_tryPost (Some f) x) as Hs.
  destruct (tryPost (Some f) x) as [ok x']. cbn [fst snd] in *.
  destruct (client_exec_step _ e x x' Hc Ex Hi Hs) as [C1 C2 C3 C4].
  pose proof (concat_owned_insert _ e x x' Ex) as Hcat.
  assert (Forall (fun y => holds_below (length (<[e := x']> (c_execs (w_client w)))) y.2)
            (posting_without f (w_posting w))) as H3'.
  { rewrite length_insert. apply Forall_forall. intros y Hy. rewrite Forall_forall in H3.
    by apply H3, (posting_without_sub f). }
  assert (forall g e', (g, Ready e') ∈ posting_without f (w_posting w) -> is_Some (w_tasks w !! g)) as H8'.
  { intros g e' Hg. by eapply H8, posting_without_sub. }
  assert (forall g, g ∈ concat (map owned (<[e := x']> (c_execs (w_client w)))) -> is_Some (w_tasks w !! g)) as H9'.
  { intros g Hg.
    assert (g ∈ owned x ++ concat (map owned (<[e := x']> (c_execs (w_client w))))) as Hg2
      by (apply elem_of_app; by right).
    rewrite Hcat, Ho in Hg2. rewrite !elem_of_app in Hg2. destruct Hg2 as [[Hg2|Hg2]|Hg2].
    - destruct ok; [|by apply elem_of_nil in Hg2]. apply list_elem_of_singleton in Hg2 as ->. by eapply H8.
    - apply H9. by eapply elem_owned.
    - by apply H9. }
  assert (map fst (w_settled w) ++ (if ok then [] else [f])
          ++ map fst (posting_without f (w_posting w))
          ++ concat (map owned (<[e := x']> (c_execs (w_client w)))) ≡ₚ w_known w) as HP.
  { rewrite <- H1. unfold places. rewrite Hp. f_equiv.
    apply (Permutation_app_inv_l (owned x)).
    rewrite Ho in Hcat. set (p := map fst (posting_without f (w_posting w))).
    set (new := concat (map owned (<[e := x']> (c_execs (w_client w))))) in *.
    transitivity ((if ok then [] else [f]) ++ p ++ (owned x ++ new));
      [destruct ok; solve_Permutation|]. rewrite Hcat. destruct ok; solve_Permutation. }
  destruct ok; injection E as <-; split; cbn; try done; unfold places; cbn.
  rewrite map_app, <- app_assoc. exact HP.
Qed.

Lemma world_worker e l elapsed w w' : world_inv w -> do_worker e l elapsed w = Some w' -> world_inv w'.
Proof.
  intros H E. unfold do_worker in E. destruct (internal l) eqn:Hl; [|done]. cbn [negb] in E.
  destruct (c_execs (w_client w) !! e) as [x|] eqn:Ex; [|done]. cbn in E.
  destruct (exec_step l x) as [x'|] eqn:Est; [|done]. cbn in E.
  pose proof (world_client _ H) as Hc. destruct H as [H1 H2 H3 H4 H5 H6 H7 H8 H9].
  assert (exec_inv x) as Hxi by (rewrite Forall_forall in H5; by eapply H5, list_elem_of_lookup_2).
  pose proof (owned_internal l x x' Hl Hxi Est) as Ho. pose proof (inv_step l x x' Hxi Est) as Hi.
  destruct (client_exec_step _ e x x' Hc Ex Hi (stopping_internal l x x' Hl Est)) as [C1 C2 C3 C4].
  pose proof (concat_owned_insert _ e x x' Ex) as Hcat. rewrite Ho, <- app_assoc in Hcat.
  assert (concat (map owned (c_execs (w_client w)))
          ≡ₚ finishes l x ++ concat (map owned (<[e := x']> (c_execs (w_client w))))) as Hcat'.
  { apply (Permutation_app_inv_l (owned x')). rewrite <- Hcat. solve_Permutation. }
  assert (forall g, g ∈ concat (map owned (<[e := x']> (c_execs (w_client w)))) -> is_Some (w_tasks w !! g)) as H9'.
  { intros g Hg. apply H9. rewrite Hcat'. rewrite elem_of_app. by right. }
  assert (Forall (fun y => holds_below (length (<[e := x']> (c_execs (w_client w)))) y.2) (w_posting w)) as H3'
    by (by rewrite length_insert).
  destruct (finishes_one l x) as [F|[f F]]; rewrite F in *.
  - injection E as <-. split; cbn; try done. unfold places in *. cbn. by rewrite <- H1, Hcat'.
  - destruct (w_tasks w !! f) as [k|]; [|done]. cbn in E.
    destruct (run_closure _ _ _) as [r s]. injection E as <-. split; cbn; try done.
    unfold places in *. cbn. rewrite map_app, <- H1, Hcat'. cbn. solve_Permutation.
Qed.

Lemma world_call i w w' : world_inv w -> do_call i w = Some w' -> world_inv w'.
Proof.
  intros H E. unfold do_call in E. destruct (w_calls w !! i) as [k|]; [|done]. cbn [mbind option_bind] in E.
  pose proof (world_client _ H) as Hc. destruct k as [ctx source r|d ctx r|op]; injection E as <-.
  - destruct (lookup_source _ _ _); by apply world_set_calls.
  - apply world_set_client; [by apply world_set_calls | by apply good_on_manager].
  - apply world_set_client; [by apply world_set_calls | by apply good_dynamic].
Qed.
Lemma world_start k w : world_inv w -> world_inv (start_call k w).
Proof. intros H. unfold start_call. destruct (st_ok _); [by apply world_set_calls | done]. Qed.

Lemma world_step ev w w' : world_inv w -> client_step ev w = Some w' -> world_inv w'.
Proof.
  intros H E. pose proof (world_client _ H) as Hc. destruct ev; cbn [client_step] in E.
  - destruct (existsb _ _) eqn:Ef; [done|]. injection E as <-. apply world_submit; [done|].
    intros Hin. apply not_true_iff_false in Ef. apply Ef, existsb_exists. exists f.
    split; [by apply list_elem_of_In | apply Z.eqb_refl].
  - by eapply world_next.
  - by eapply world_post.
  - by eapply world_worker.
  - destruct (hardware <? 0) eqn:Eh; [done|]. bool_prop. injection E as <-.
    by apply world_set_client, good_init.
  - destruct (hardware <? 0) eqn:Eh; [done|]. bool_prop. injection E as <-.
    by apply world_set_client, good_reload.
  - injection E as <-. by apply world_start.
  - injection E as <-. by apply world_start.
  - by eapply world_call.
  - injection E as <-. by apply world_set_client, good_shutdown.
  - injection E as <-. by apply world_set_client, good_addDriver.
  - injection E as <-. by apply world_set_client, good_service.
Qed.

Lemma client_reaches_inv m w : client_reaches m w -> world_inv w.
Proof. induction 1; [apply world_inv_new | by eapply world_step]. Qed.

(** ** Theorems on the futures *)
(** no promise is set twice and none is mislaid: after any interleaving of
    calls, posts, workers, reloads and shutdowns, every future that was handed
    out is in exactly one place: it has its value, or its submitter is about to
    post it, or one executor has it, and it has it once. *)
Theorem futures_in_one_place m (w : World S D P) (Hr : client_reaches m w) :
  places w ≡ₚ w_known w /\ NoDup (places w) /\ NoDup (map fst (w_settled w)).
Proof.
  apply client_reaches_inv in Hr. pose proof (places_nodup _ Hr) as Hn.
  split; [apply (wi_places _ Hr)|]. split; [done|].
  unfold places in Hn. by apply NoDup_app in Hn as [Hn _].
Qed.

Definition run_worlds (evs : list ClientEvent) (w : World S D P) : option (World S D P) :=
  foldl (fun o ev => w ← o; client_step ev w) (Some w) evs.

Lemma run_worlds_cons ev evs w :
  run_worlds (ev :: evs) w = w' ← client_step ev w; run_worlds evs w'.
Proof.
  unfold run_worlds. cbn. destruct (client_step ev w); [done|]. cbn. by induction evs.
Qed.

Lemma run_worlds_reaches m evs w w' : client_reaches m w -> run_worlds evs w = Some w' ->
  client_reaches m w'.
Proof.
  revert w. induction evs as [|ev evs IH]; intros w Hw H; [by injection H as <-|].
  rewrite run_worlds_cons in H. destruct (client_step ev w) as [w1|] eqn:E; [|done].
  eapply IH; [|exact H]. by eapply client_reaches_step.
Qed.

Definition is_worker (ev : ClientEvent) : bool := match ev with CvWorker _ _ _ => true | _ => false end.
Fixpoint total_measure (es : list Exec) : nat :=
  match es with [] => 0 | x :: es => exec_measure x + total_measure es end.
Definition execs_measure (w : World S D P) : nat := total_measure (c_execs (w_client w)).

Lemma measure_insert es e x x' : es !! e = Some x ->
  (total_measure (<[e := x']> es) + exec_measure x = total_measure es + exec_measure x')%nat.
Proof.
  revert e. induction es as [|y es IH]; intros [|e] H; try done.
  - injection H as ->. cbn [insert list_insert total_measure]. lia.
  - specialize (IH e H). change (<[Datatypes.S e := x']> (y :: es)) with (y :: <[e := x']> es).
    cbn [total_measure]. lia.
Qed.

Lemma worker_decreases w e l elapsed w' : world_inv w -> c_state (w_client w) <> Running_ ->
  do_worker e l elapsed w = Some w' ->
  (execs_measure w' < execs_measure w)%nat /\ c_state (w_client w') = c_state (w_client w)
  /\ w_posting w' = w_posting w /\ w_known w' = w_known w.
Proof.
  intros H Hst E. unfold do_worker in E. destruct (internal l) eqn:Hl; [|done]. cbn [negb] in E.
  destruct (c_execs (w_client w) !! e) as [x|] eqn:Ex; [|done]. cbn in E.
  destruct (exec_step l x) as [x'|] eqn:Est; [|done]. cbn in E.
  assert (ex_stopping x = true) as Hs
    by (apply (wi_retired _ H e x Ex); rewrite (wi_closed _ H Hst); done).
  assert (exec_inv x) as Hxi
    by (pose proof (wi_execs _ H) as H5; rewrite Forall_forall in H5; by eapply H5, list_elem_of_lookup_2).
  destruct (internal_decreases l x x' Hs (ei_stopping _ Hxi Hs) Hl Est) as (M & _).
  pose proof (measure_insert _ e x x' Ex) as Hm.
  assert (total_measure (<[e := x']> (c_execs (w_client w)))
          < total_measure (c_execs (w_client w)))%nat as Hlt by lia.
  destruct (finishes l x) as [|f fs].
  - injection E as <-. split; [exact Hlt | done].
  - destruct (w_tasks w !! f) as [k|]; [|done]. cbn in E. destruct (run_closure _ _ _) as [r s].
    injection E as <-. split; [exact Hlt | done].
Qed.

Lemma workers_bounded evs w w' : world_inv w -> c_state (w_client w) <> Running_ ->
  Forall (fun ev => is_worker ev = true) evs -> run_worlds evs w = Some w' ->
  (length evs + execs_measure w' <= execs_measure w)%nat
  /\ c_state (w_client w') = c_state (w_client w) /\ w_posting w' = w_posting w
  /\ w_known w' = w_known w /\ world_inv w'.
Proof.
  intros H Hs F. revert w H Hs. induction F as [|ev evs Hev F IH]; intros w H Hs E.
  { injection E as <-. split_and!; [cbn; lia | done..]. }
  rewrite run_worlds_cons in E. destruct (client_step ev w) as [w1|] eqn:E1; [|done]. cbn in E.
  destruct ev; try done. pose proof (world_step _ _ _ H E1) as H1. cbn [client_step] in E1.
  destruct (worker_decreases _ _ _ _ _ H Hs E1) as (M & S1 & P1 & K1).
  destruct (IH w1 H1 ltac:(by rewrite S1) E) as (M' & S2 & P2 & K2 & H2).
  split_and!; [cbn; lia | congruence..| done].
Qed.

(** C6: every future gets its value: once the client is closed and no thread is
    inside a submitting call, the workers take a
    bounded number of steps, and when none of them can take another, every
    future ever handed out has exactly one value. *)
Theorem no_future_lost m (w : World S D P) evs w' (Hr : client_reaches m w)
  (Hclosed : c_state (w_client w) <> Running_) (Hpost : w_posting w = [])
  (Hevs : Forall (fun ev => is_worker ev = true) evs) (Hrun : run_worlds evs w = Some w')
  (Hstuck : forall e l elapsed, do_worker e l elapsed w' = None) :
  (length evs <= execs_measure w)%nat /\ map fst (w_settled w') ≡ₚ w_known w
  /\ NoDup (map fst (w_settled w')).
Proof.
  apply client_reaches_inv in Hr.
  destruct (workers_bounded evs w w' Hr Hclosed Hevs Hrun) as (M & S1 & P1 & K1 & H).
  split; [lia|]. rewrite <- K1. pose proof (places_nodup _ H) as Hn.
  assert (concat (map owned (c_execs (w_client w'))) = []) as Ho.
  { pose proof (wi_execs _ H) as Hx. pose proof (wi_retired _ H) as Hret.
    rewrite (wi_closed _ H ltac:(by rewrite S1)) in Hret.
    assert (forall e x, c_execs (w_client w') !! e = Some x -> owned x = []) as Hall.
    { intros e x Ex. assert (exec_inv x) as Hxi
        by (rewrite Forall_forall in Hx; by eapply Hx, list_elem_of_lookup_2).
      pose proof (Hret e x Ex ltac:(done)) as Hs.
      assert (forall l, internal l = true -> exec_step l x = None) as Hno.
      { intros l Hl. destruct (exec_step l x) as [x'|] eqn:Est; [|done]. exfalso.
        specialize (Hstuck e l 0). unfold do_worker in Hstuck. rewrite Hl in Hstuck. cbn [negb] in Hstuck.
        rewrite Ex in Hstuck. cbn in Hstuck. rewrite Est in Hstuck. cbn in Hstuck.
        pose proof (owned_internal l x x' Hl Hxi Est) as Hown.
        destruct (finishes l x) as [|f fs]; [done|].
        destruct (w_tasks w' !! f) as [k|] eqn:Ek.
        - cbn in Hstuck. by destruct (run_closure _ _ _).
        - destruct (wi_tasks _ H f) as [k Hk]; [|congruence].
          apply (elem_owned _ e x f Ex). rewrite Hown. left. }
      pose proof (stuck_owns_nothing x Hxi Hs Hno) as Hnil. exact Hnil. }
    clear -Hall. induction (c_execs (w_client w')) as [|x es IH]; [done|]. cbn.
    rewrite (Hall 0%nat x eq_refl). apply IH. intros e y Hy. by apply (Hall (Datatypes.S e)). }
  pose proof (wi_places _ H) as Hp. unfold places in Hp, Hn. rewrite Ho, P1, Hpost, !app_nil_r in *.
  done.
Qed.
End Places.

(** ** Theorems on the life cycle *)
Section LifecycleTheorems.
Context {S D P : Type} `{!Manager S D P}.

Definition stage (l : Lifecycle) : nat := match l with Empty => 0 | Running_ => 1 | Closed_ => 2 end.

Lemma on_manager_frame {A} (m : ST S A) (c : Client S) :
  c_state (on_manager m c).2 = c_state c /\ c_impl (on_manager m c).2 = c_impl c.
Proof. unfold on_manager. by destruct (m _). Qed.

Lemma dynamic_state op (c : Client S) : c_state (dynamic_run op c).2 = c_state c.
Proof. apply on_manager_frame. Qed.

Lemma addDriver_state ty f (c : Client S) : c_state (addDriver ty f c).2 = c_state c.
Proof.
  unfold addDriver. destruct (negb (c_impl c)); [done|]. destruct (_ || _); [done|].
  by destruct (c_state c) eqn:E.
Qed.

Lemma serve_state ctx source r (c : Client S) : c_state (serve ctx source r c).2 = c_state c.
Proof.
  unfold serve. destruct (negb (c_impl c)); [done|]. destruct (resolve _ _ _); [done|].
  apply on_manager_frame.
Qed.

Lemma init_state hardware cfg (c : Client S) :
  c_state (init_config hardware cfg c).2 = c_state c
  \/ (c_state c = Empty /\ c_state (init_config hardware cfg c).2 = Running_
      /\ st_ok (init_config hardware cfg c).1 = true).
Proof.
  unfold init_config. destruct (negb (c_impl c)); [by left|].
  destruct (negb (st_ok _)); [by left|].
  destruct (c_state c) eqn:Es; [|by left..].
  pose proof (on_manager_frame (dm_init cfg 0) c) as [Hm _].
  destruct (on_manager _ c) as [st c1]. cbn [fst snd] in *.
  destruct (st_ok st) eqn:Est; cbn; [by right | left; congruence].
Qed.

Lemma reload_state hardware cfg grace (c : Client S) :
  c_state (reload_config hardware cfg grace c).2 = c_state c.
Proof.
  unfold reload_config. destruct (negb (c_impl c)); [done|].
  destruct (negb (st_ok (validateAsyncConfig _))); [done|].
  destruct (negb (st_ok (requireRunning c))); [done|].
  pose proof (on_manager_frame (dm_init cfg grace) c) as [Hm _].
  destruct (on_manager _ c) as [st c1]. cbn [fst snd] in *.
  by destruct (st_ok st); cbn; rewrite ?configure_state.
Qed.

Lemma shutdown_state grace (c : Client S) : c_impl c = true ->
  c_state (client_shutdown grace c).2 = Closed_.
Proof.
  intros Hi. unfold client_shutdown. rewrite Hi. cbn [negb].
  destruct (bool_decide _); [|done].
  pose proof (on_manager_frame (dm_shutdown grace) (stopAsync (set_state Closed_ c))) as [Hm _].
  rewrite Hm. unfold stopAsync. by destruct (c_async (set_state Closed_ c)).
Qed.

Lemma next_client f (w w' : World S D P) : do_step f w = Some w' -> w_client w' = w_client w.
Proof.
  intros H. unfold do_step in H. destruct (posting_of _ _) as [[ctx source r|d ctx r|e d ctx r|e]|]; try done;
    cbn in H; injection H as <-; [by destruct (lookup_source _ _ _)| |done]. unfold take_executor.
  by destruct (c_async _).
Qed.
Lemma post_client f (w w' : World S D P) : do_post f w = Some w' ->
  c_state (w_client w') = c_state (w_client w) /\ c_manager (w_client w') = c_manager (w_client w)
  /\ w_calls w' = w_calls w.
Proof.
  intros H. unfold do_post in H. destruct (posting_of _ _) as [[| | |e]|]; try done.
  destruct (_ !! e); [|done]. cbn -[tryPost] in H.
  by destruct (tryPost _ _) as [[] ?]; injection H as <-.
Qed.
Lemma call_state i (w w' : World S D P) : do_call i w = Some w' -> c_state (w_client w') = c_state (w_client w).
Proof.
  intros H. unfold do_call in H. destruct (w_calls w !! i) as [[ctx source r|d ctx r|op]|]; [..|done];
    cbn in H; injection H as <-.
  - by destruct (lookup_source _ _ _).
  - apply on_manager_frame.
  - apply dynamic_state.
Qed.
Lemma start_client k (w : World S D P) : w_client (start_call k w) = w_client w.
Proof. unfold start_call. by destruct (st_ok _). Qed.
Lemma call_check_running (c : Client S) : st_ok (call_check c) = true -> c_state c = Running_.
Proof. unfold call_check, requireRunning. destruct (negb (c_impl c)); [done|]. by destruct (c_state c). Qed.

Lemma threads_state ev (w w' : World S D P) : client_step ev w = Some w' ->
  match ev with
  | CvSubmit _ _ _ _ | CvStep _ | CvPost _ | CvWorker _ _ _ | CvServe _ _ _ | CvDynamic _ | CvCall _ => True
  | _ => False
  end -> c_state (w_client w') = c_state (w_client w).
Proof.
  intros H Hev. destruct ev; try done; cbn [client_step] in H.
  - destruct (existsb _ _); [done|]. injection H as <-. unfold do_submit. by destruct (st_ok _).
  - by rewrite (next_client _ _ _ H).
  - by apply post_client in H as [H _].
  - unfold do_worker in H. destruct (negb _); [done|]. destruct (_ !! e); [|done].
    cbn in H. destruct (exec_step _ _); [|done]. cbn in H.
    destruct (finishes _ _); [by injection H as <-|].
    destruct (_ !! _); [|done]. cbn in H. destruct (run_closure _ _ _). by injection H as <-.
  - injection H as <-. by rewrite start_client.
  - injection H as <-. by rewrite start_client.
  - by eapply call_state.
Qed.

(** the life cycle goes one way: whatever happens, a client goes from empty to
    running to closed and never back, and only a successful [init] makes it run. *)
Theorem lifecycle_one_way ev (w w' : World S D P) (H : client_step ev w = Some w') :
  (stage (c_state (w_client w)) <= stage (c_state (w_client w')))%nat
  /\ (c_state (w_client w) = Empty -> c_state (w_client w') = Running_ ->
      exists hardware cfg, ev = CvInit hardware cfg
        /\ st_ok (init_config hardware cfg (w_client w)).1 = true).
Proof.
  assert (c_state (w_client w') = c_state (w_client w) \/ c_state (w_client w') = Closed_ \/
          exists hardware cfg, ev = CvInit hardware cfg /\ c_state (w_client w) = Empty
            /\ st_ok (init_config hardware cfg (w_client w)).1 = true
            /\ c_state (w_client w') = Running_) as Hc.
  { destruct ev; try (left; by eapply threads_state); cbn [client_step] in H.
    - destruct (_ <? _); [done|]. injection H as <-. cbn.
      destruct (init_state hardware cfg (w_client w)) as [E|(E1 & E2 & E3)]; [by left|].
      right; right. by exists hardware, cfg.
    - destruct (_ <? _); [done|]. injection H as <-. left. apply reload_state.
    - injection H as <-. cbn. destruct (c_impl (w_client w)) eqn:Ei.
      + right; left. by apply shutdown_state.
      + left. unfold client_shutdown. by rewrite Ei.
    - injection H as <-. left. apply addDriver_state.
    - injection H as <-. left. unfold client_service. cbn. by destruct (c_impl (w_client w)). }
  destruct Hc as [E|[E|(hw & cfg & -> & E1 & E2 & E3)]].
  - rewrite E. split; [lia | congruence].
  - rewrite E. split; [destruct (c_state (w_client w)); cbn; lia | congruence].
  - rewrite E1, E3. cbn. split; [lia | eauto].
Qed.

Lemma shutdown_again grace (c : Client S) : c_state c = Closed_ -> client_shutdown grace c = (tt, c).
Proof.
  intros H. unfold client_shutdown. destruct (negb (c_impl c)); [done|].
  rewrite bool_decide_eq_false_2 by congruence. by rewrite <- H, set_state_same.
Qed.

(** a closed client is closed for good: every call answers [ClientClosed] at
    once, reaches neither the manager nor a data source, starts nothing
    asynchronous, and leaves the client as it is. *)
Theorem closed_client_refuses (c : Client S) ctx source r hardware cfg grace
  (Himpl : c_impl c = true) (Hclosed : c_state c = Closed_)
  (Hcfg : st_ok (validateAsyncConfig (gl_async cfg)) = true) :
  serve ctx source r c = ((Returned, (clientClosed, dm_nothing)), c)
  /\ submit ctx source r c = inl (clientClosed, dm_nothing)
  /\ init_config hardware cfg c = (clientClosed, c)
  /\ reload_config hardware cfg grace c = (clientClosed, c)
  /\ (forall op, guarded op c = (clientClosed, c))
  /\ client_shutdown grace c = (tt, c).
Proof.
  unfold serve, submit, resolve, init_config, reload_config, guarded, call_check, client_shutdown, requireRunning.
  rewrite Himpl, Hclosed, Hcfg. repeat split. cbn. by rewrite set_state_same.
Qed.

(** a call reaches the data source its context or, failing that, its argument
    names, the default one without a name, and nothing else; a name that is not
    registered is answered [ConfigError] without touching the manager. *)
Theorem serve_resolves ctx source r (c : Client S) (Himpl : c_impl c = true)
  (Hrun : c_state c = Running_) :
  let name := target ctx source in
  let found := if is_nil name then dm_getDefault (c_manager c)
               else dm_getDataSource name (c_manager c) in
  match found with
  | Some d => serve ctx source r c = on_manager (dm_serve ctx d r) c
  | None => serve ctx source r c = ((Returned, (dataSourceNotFound name, dm_nothing)), c)
  end.
Proof.
  cbv zeta. unfold serve, resolve, lookup_source, requireRunning. rewrite Himpl, Hrun. cbn [negb st_ok].
  by destruct (if is_nil (target ctx source) then _ else _).
Qed.

(** an asynchronous statement that outlives the timeout is reported as a
    retryable [QueryTimeout] whatever it answered; its effect stays: the state of
    the manager is the one the statement left, even when it succeeded. *)
Theorem async_timeout_hides_result (k : Closure D) elapsed (s : S)
  (Ht : 0 < cl_timeoutMs k) (Hlate : cl_timeoutMs k * 1000000 <= elapsed) :
  let served := dm_serve (cl_ctx k) (cl_source k) (cl_request k) s in
  let r := run_closure k elapsed s in
  st_code r.1.1 = QueryTimeout /\ st_retryable r.1.1 = true
  /\ r.2 = served.2 /\ r.1.2 = served.1.2.2.
Proof.
  cbv zeta. unfold run_closure, bind. destruct (dm_serve _ _ _ s) as [[e [st p]] s1]. cbn.
  apply Z.ltb_lt in Ht. apply Z.leb_le in Hlate. by rewrite Ht, Hlate.
Qed.
End LifecycleTheorems.

(** ** The manager of Topology.v

    The state is the topology and the rest of the world [W]: the databases, the
    pools at work, the shared services and the clock, whose readings during a call are
    [clock]. What a data source answers is [answer], which reads the topology and changes
    the rest; [service] is what an operation on the services does. *)
Section Topologies.
Context {W P : Type} (clock : W -> nat -> Z) (nothing : P)
  (answer : SqlContext -> object -> Request -> Topo -> ST W (TaskEnd * (Status * P)))
  (service : ServiceCall -> W -> W).

(** An operation of the topology; one that reads the clock. *)
Definition in_topology {A} (m : ST Topo A) : ST (Topo * W) A :=
  fun s => let '(a, t) := m s.1 in (a, (t, s.2)).
Definition timed {A} (m : (nat -> Z) -> ST Topo A) : ST (Topo * W) A :=
  fun s => in_topology (m (clock s.2)) s.

Definition topology_manager : Manager (Topo * W) object P := {|
  dm_init := fun cfg grace => timed (fun times => topo_step (OpInit times cfg grace));
  dm_shutdown := fun grace s => (tt, (timed (fun times => topo_step (OpShutdown times grace)) s).2);
  dm_addDriver := fun ty f s => (in_topology (topo_step (OpAddDriver ty f)) s).2;
  dm_service := fun call s =>
    match call with
    | SetDefaultRateLimiter l => (in_topology (topo_step (OpSetLimiter l)) s).2
    | _ => (s.1, service call s.2)
    end;
  dm_getDefault := fun s => getDefault s.1;
  dm_getDataSource := fun n s => getDataSource n s.1;
  dm_addDataSource := fun cfg o => in_topology (topo_step (OpAddDataSource cfg o));
  dm_removeDataSource := fun n grace => in_topology (topo_step (OpRemoveDataSource n grace));
  dm_addGroup := fun g o => in_topology (topo_step (OpAddGroup g o));
  dm_removeGroup := fun n grace => in_topology (topo_step (OpRemoveGroup n grace));
  dm_serve := fun ctx d r s => let '(a, w) := answer ctx d r s.1 s.2 in (a, (s.1, w));
  dm_nothing := nothing;
|}.

#[local] Existing Instance topology_manager.

Definition published_of (c : Client (Topo * W)) : Published := tp_published (c_manager c).1.

Lemma in_topology_spec op s : topo_wf s.1 ->
  topo_wf (in_topology (topo_step op) s).2.1 /\
  (st_ok (in_topology (topo_step op) s).1 = false ->
   tp_published (in_topology (topo_step op) s).2.1 = tp_published s.1).
Proof.
  intros H. unfold in_topology. destruct (step_spec op s.1 H) as [H1 H2].
  by destruct (topo_step op s.1) as [st t].
Qed.

Lemma serve_topology ctx d r s : (dm_serve (Manager := topology_manager) ctx d r s).2.1 = s.1.
Proof. cbn. by destruct (answer ctx d r s.1 s.2). Qed.

(** The client after one of its operations: its topology is well formed; and if it is
    not running, nothing is published, or what was before, when it was not running either. *)
Record follows (c c' : Client (Topo * W)) : Prop := {
  fo_wf : topo_wf (c_manager c').1;
  fo_closed : c_state c' <> Running_ ->
    published_of c' = nothing_published \/ c_state c <> Running_ /\ published_of c' = published_of c;
}.
Lemma follows_same c c' : topo_wf (c_manager c).1 -> (c_manager c').1 = (c_manager c).1 ->
  c_state c' = c_state c -> follows c c'.
Proof.
  intros H E Es. split; [by rewrite E|]. intros Hr. right. unfold published_of. by rewrite E, <- Es.
Qed.

Lemma topology_service call c : topo_wf (c_manager c).1 -> follows c (client_service call c).2.
Proof.
  intros H. unfold client_service. destruct (c_impl c); [|by apply follows_same].
  destruct call as [| | | |l]; [by apply follows_same..|].
  destruct (setDefault_wf l _ H) as (H3 & H4 & _). split; [exact H3|].
  intros Hr. right. split; [exact Hr|]. unfold published_of. cbn -[setDefaultRateLimiter]. by rewrite H4.
Qed.
Lemma topology_dynamic op c : topo_wf (c_manager c).1 -> topo_wf (c_manager (dynamic_run op c).2).1.
Proof.
  intros H.
  assert (forall o, topo_wf (c_manager (on_manager (in_topology (topo_step o)) c).2).1) as Hs.
  { intros o. pose proof (in_topology_spec o _ H) as [H3 _]. unfold on_manager.
    by destruct (in_topology (topo_step o) (c_manager c)). }
  destruct op as [cfg o|n grace|g o|n grace];
    [apply (Hs (OpAddDataSource cfg o)) | apply (Hs (OpRemoveDataSource n grace))
    | apply (Hs (OpAddGroup g o)) | apply (Hs (OpRemoveGroup n grace))].
Qed.
Lemma topology_request ctx d r c : topo_wf (c_manager c).1 -> follows c (on_manager (dm_serve ctx d r) c).2.
Proof.
  intros H. apply follows_same; [done| |apply on_manager_frame]. unfold on_manager.
  pose proof (serve_topology ctx d r (c_manager c)) as E. by destruct (dm_serve ctx d r (c_manager c)).
Qed.
Lemma topology_add ty f c : topo_wf (c_manager c).1 -> follows c (addDriver ty f c).2.
Proof.
  intros H. unfold addDriver. destruct (negb (c_impl c)); [by apply follows_same|].
  destruct (_ || _); [by apply follows_same|]. destruct (c_state c) eqn:E; [|by apply follows_same..].
  pose proof (in_topology_spec (OpAddDriver ty f) _ H) as [H3 _]. split; [exact H3|].
  intros _. right. split; [by rewrite E | done].
Qed.
Lemma configure_manager hardware cfg (c : Client (Topo * W)) : c_manager (configureAsync hardware cfg c) = c_manager c.
Proof. unfold configureAsync. by destruct (negb (ac_enabled cfg)), (c_async c). Qed.
Lemma topology_init hardware cfg c : topo_wf (c_manager c).1 -> follows c (init_config hardware cfg c).2.
Proof.
  intros H. unfold init_config. destruct (negb (c_impl c)); [by apply follows_same|].
  destruct (negb (st_ok _)); [by apply follows_same|]. destruct (c_state c) eqn:E; [|by apply follows_same..].
  pose proof (in_topology_spec (OpInit (clock (c_manager c).2) cfg 0) _ H) as [H3 H4].
  unfold on_manager. cbn [dm_init topology_manager]. unfold timed.
  destruct (in_topology _ (c_manager c)) as [st s]. cbn [fst snd] in *.
  destruct (st_ok st) eqn:Est; cbn [snd].
  - split; [|done]. cbn [c_manager set_state]. by rewrite configure_manager.
  - split; [done|]. intros _. right. split; [by rewrite E|]. unfold published_of. cbn [c_manager set_manager]. by apply H4.
Qed.
Lemma topology_reload hardware cfg grace c : topo_wf (c_manager c).1 ->
  follows c (reload_config hardware cfg grace c).2.
Proof.
  intros H. unfold reload_config. destruct (negb (c_impl c)); [by apply follows_same|].
  destruct (negb (st_ok (validateAsyncConfig _))); [by apply follows_same|].
  unfold requireRunning. destruct (c_state c) eqn:E; [by apply follows_same | | by apply follows_same]. cbn [negb st_ok].
  pose proof (in_topology_spec (OpInit (clock (c_manager c).2) cfg grace) _ H) as [H3 _].
  unfold on_manager. cbn [dm_init topology_manager]. unfold timed.
  destruct (in_topology _ (c_manager c)) as [st s]. cbn [fst snd] in *.
  change (st_ok StatusOK) with true. cbn [negb]. destruct (st_ok st); cbn [snd].
  - split; [by rewrite configure_manager|]. intros Hr. destruct Hr. by rewrite configure_state.
  - split; [done|]. intros Hr. by destruct Hr.
Qed.
Lemma topology_shutdown grace c : topo_wf (c_manager c).1 -> c_impl c = true ->
  follows c (client_shutdown grace c).2
  /\ (c_state c = Running_ -> published_of (client_shutdown grace c).2 = nothing_published).
Proof.
  intros H Hi. unfold client_shutdown. rewrite Hi. cbn [negb]. case_bool_decide as E; cbn [snd].
  - assert (c_manager (stopAsync (set_state Closed_ c)) = c_manager c) as Em
      by (unfold stopAsync; by destruct (c_async (set_state Closed_ c))).
    destruct (shutdown_wf (clock (c_manager c).2) grace _ H) as (H3 & H4 & _).
    unfold on_manager. rewrite Em. split; [split; [done|]; intros _; by left | done].
  - split; [|done]. split; [done|]. intros _. by right.
Qed.
Lemma topology_worker e l elapsed (w w' : World (Topo * W) object P) : topo_wf (c_manager (w_client w)).1 ->
  do_worker e l elapsed w = Some w' -> follows (w_client w) (w_client w').
Proof.
  intros H E. unfold do_worker in E. destruct (negb _); [done|]. destruct (_ !! e); [|done].
  cbn in E. destruct (exec_step _ _); [|done]. cbn in E.
  destruct (finishes _ _); [injection E as <-; by apply follows_same|].
  destruct (_ !! _) as [k|]; [|done]. cbn in E.
  assert (forall r s, run_closure k elapsed (c_manager (w_client w)) = (r, s) ->
            s.1 = (c_manager (w_client w)).1) as Hrun.
  { intros r s. unfold run_closure, bind. pose proof (serve_topology (cl_ctx k) (cl_source k) (cl_request k)
      (c_manager (w_client w))) as Hs. destruct (dm_serve _ _ _ _) as [[en [st p]] s1]. by intros [= _ <-]. }
  destruct (run_closure _ _ _) as [r s]. injection E as <-. by apply follows_same; [|apply (Hrun r s)|].
Qed.
(** The end of a dynamic operation. *)
Definition dynamic_ends (ev : ClientEvent) (w : World (Topo * W) object P) : Prop :=
  exists i op, ev = CvCall i /\ w_calls w !! i = Some (CallDynamic op).
Lemma topology_step ev (w w' : World (Topo * W) object P) : topo_wf (c_manager (w_client w)).1 ->
  client_step ev w = Some w' ->
  topo_wf (c_manager (w_client w')).1 /\ (follows (w_client w) (w_client w') \/ dynamic_ends ev w).
Proof.
  intros H E.
  enough (follows (w_client w) (w_client w') \/
          dynamic_ends ev w /\ topo_wf (c_manager (w_client w')).1) as [Hf|[Hd Hw]].
  { split; [apply Hf | by left]. }
  { split; [done | by right]. }
  destruct ev; cbn [client_step] in E; lazymatch type of E with do_call _ _ = _ => idtac | _ => left end.
  - destruct (existsb _ _); [done|]. injection E as <-. unfold do_submit.
    by destruct (st_ok _); apply follows_same.
  - rewrite (next_client _ _ _ E). by apply follows_same.
  - apply post_client in E as (E1 & E2 & _). apply follows_same; [done | by rewrite E2 | done].
  - by eapply topology_worker.
  - destruct (_ <? _); [done|]. injection E as <-. by apply topology_init.
  - destruct (_ <? _); [done|]. injection E as <-. by apply topology_reload.
  - injection E as <-. rewrite start_client. by apply follows_same.
  - injection E as <-. rewrite start_client. by apply follows_same.
  - unfold do_call in E. destruct (w_calls w !! i) as [[ctx source r|d ctx r|op]|] eqn:Ei; [..|done];
      cbn [mbind option_bind] in E; injection E as <-.
    + left. destruct (lookup_source _ _ _); by apply follows_same.
    + left. by apply topology_request.
    + right. split; [by exists i, op|]. by apply topology_dynamic.
  - injection E as <-. cbn. destruct (c_impl (w_client w)) eqn:Ei; [by apply topology_shutdown|].
    unfold client_shutdown. rewrite Ei. by apply follows_same.
  - injection E as <-. by apply topology_add.
  - injection E as <-. by apply topology_service.
Qed.

Lemma run_worlds_snoc evs ev (w w' : World (Topo * W) object P) : run_worlds (evs ++ [ev]) w = Some w' ->
  exists w1, run_worlds evs w = Some w1 /\ client_step ev w1 = Some w'.
Proof. unfold run_worlds. rewrite foldl_snoc. destruct (foldl _ _ _) as [w1|]; [|done]. cbn. eauto. Qed.
(** Calls are in progress only on a client that was started. *)
Lemma calls_started m (w : World (Topo * W) object P) : client_reaches m w -> c_state (w_client w) = Empty -> w_calls w = [].
Proof.
  induction 1 as [|w ev w' _ IH E]; intros He; [done|].
  destruct (lifecycle_one_way ev w w' E) as [Hs _]. rewrite He in Hs.
  assert (c_state (w_client w) = Empty) as Hw by (destruct (c_state (w_client w)); cbn in Hs; [done|lia..]).
  specialize (IH Hw).
  assert (forall k, w_calls (start_call k w) = []) as Hstart.
  { intros k. unfold start_call. destruct (st_ok _) eqn:Ec; [|done]. apply call_check_running in Ec. congruence. }
  destruct ev; cbn [client_step] in E.
  - destruct (existsb _ _); [done|]. injection E as <-. unfold do_submit. by destruct (st_ok _).
  - unfold do_step in E. destruct (posting_of _ _) as [[ctx source r|d ctx r|e d ctx r|e]|]; try done;
      cbn in E; injection E as <-; [by destruct (lookup_source _ _ _)| |done]. unfold take_executor.
    by destruct (c_async _).
  - apply post_client in E as (_ & _ & E). by rewrite E.
  - unfold do_worker in E. destruct (negb _); [done|]. destruct (_ !! e); [|done].
    cbn in E. destruct (exec_step _ _); [|done]. cbn in E.
    destruct (finishes _ _); [by injection E as <-|].
    destruct (_ !! _); [|done]. cbn in E. destruct (run_closure _ _ _). by injection E as <-.
  - destruct (_ <? _); [done|]. by injection E as <-.
  - destruct (_ <? _); [done|]. by injection E as <-.
  - by injection E as <-.
  - by injection E as <-.
  - unfold do_call in E. by rewrite IH in E.
  - by injection E as <-.
  - by injection E as <-.
  - by injection E as <-.
Qed.

End Topologies.

(** ** Concrete runs *)
Definition demo_clock (w : Z) (k : nat) : Z := w + demo_times k.
(** The rest of the world counts the requests; the answer is their number. *)
Definition demo_answer (ctx : SqlContext) (d : object) (r : Request) (t : Topo)
    : ST Z (TaskEnd * (Status * Z)) :=
  fun w => ((Returned, (StatusOK, w)), w + 1).
#[local] Instance demo_ops_manager : Manager (Topo * Z) object Z :=
  topology_manager demo_clock 0 demo_answer (fun _ w => w).

Definition demo_client_config (timeout : Z) : GlobalConfig :=
  let g := demo_config in
  mkGlobalConfig (gl_default_datasource g) (gl_heartbeat_interval_ms g) (gl_pool g) (gl_retry g)
    (gl_circuit_breaker g) (gl_observability g) (gl_rate_limit g) (gl_sql_audit g) (gl_query_cache g)
    (gl_cursor g) (gl_prepared_cache g) (mkAsyncConfig true 1 1 timeout) (gl_interceptors g)
    (gl_datasources g) (gl_groups g).
Definition demo_start : Topo * Z := (new_manager demo_registry, 0).
Definition demo_sql : Request := RExecute (lit "update t set x = 1") None.
Definition demo_submit (f : Z) : ClientEvent := CvSubmit f defaultInstance [] demo_sql.

(** Two futures find room for one: the queue holds one task. *)
Definition demo_before : list ClientEvent :=
  [CvInit 2 (demo_client_config 5); demo_submit 1; demo_submit 2; CvStep 1; CvStep 2; CvStep 2; CvStep 1;
   CvStep 1; CvStep 2; CvPost 2; CvPost 1; CvShutdown 100].
Definition demo_workers : list ClientEvent :=
  [CvWorker 0 (Take 0) 0; CvWorker 0 (Done 0 Returned) 7000000; CvWorker 0 (Take 0) 0;
   CvWorker 0 (TimerWake 0) 0].
Definition demo_world (evs : list ClientEvent) : World (Topo * Z) object Z :=
  default (world_new demo_start) (run_worlds evs (world_new demo_start)).

Lemma demo_world_reaches evs : client_reaches demo_start (demo_world evs).
Proof.
  unfold demo_world. destruct (run_worlds evs (world_new demo_start)) eqn:E; [|constructor].
  eapply run_worlds_reaches; [constructor | exact E].
Qed.

Example demo_settled :
  w_settled (demo_world (demo_before ++ demo_workers)) = [(1, (overloaded, 0)); (2, (async_timeout, 0))].
Proof. vm_compute. reflexivity. Qed.

Lemma futures_in_one_place_witness :
  client_reaches demo_start (demo_world (demo_before ++ demo_workers))
  /\ w_known (demo_world (demo_before ++ demo_workers)) = [2; 1]
  /\ NoDup (places (demo_world (demo_before ++ demo_workers))).
Proof.
  split; [apply demo_world_reaches|]. split; [vm_compute; reflexivity|].
  destruct (futures_in_one_place demo_start _ (demo_world_reaches (demo_before ++ demo_workers)))
    as (_ & H & _). exact H.
Defined.

Definition demo_exec : Exec :=
  default (new_executor 1 1 2) (c_execs (w_client (demo_world (demo_before ++ demo_workers))) !! 0%nat).
Lemma demo_exec_ended : ex_threads demo_exec = [Exited] /\ ex_timer demo_exec = Exited
  /\ c_execs (w_client (demo_world (demo_before ++ demo_workers))) = [demo_exec].
Proof. vm_compute. done. Qed.

Lemma demo_stuck e l elapsed : do_worker e l elapsed (demo_world (demo_before ++ demo_workers)) = None.
Proof.
  pose proof demo_exec_ended as (T & M & X). revert T M X.
  generalize demo_exec (demo_world (demo_before ++ demo_workers)). intros x w T M X. unfold do_worker.
  destruct (internal l) eqn:Hl; [|done]. rewrite X. destruct e as [|e]; [|done].
  destruct l; try done; cbn.
  - unfold worker_take. rewrite T. by destruct i.
  - unfold worker_done. rewrite T. by destruct i.
  - unfold timer_wake. rewrite M. by destruct (ex_threadsStarted x).
  - unfold timer_done. rewrite M. by destruct (ex_threadsStarted x).
Qed.

Lemma no_future_lost_witness :
  c_state (w_client (demo_world demo_before)) = Closed_
  /\ run_worlds demo_workers (demo_world demo_before) = Some (demo_world (demo_before ++ demo_workers))
  /\ map fst (w_settled (demo_world (demo_before ++ demo_workers)))
     ≡ₚ w_known (demo_world demo_before).
Proof.
  split; [vm_compute; reflexivity|]. split; [vm_compute; reflexivity|].
  destruct (no_future_lost demo_start (demo_world demo_before) demo_workers
    (demo_world (demo_before ++ demo_workers)) (demo_world_reaches _)) as (_ & H & _);
    [vm_compute; discriminate | vm_compute; reflexivity | repeat constructor | vm_compute; reflexivity
    | exact demo_stuck | exact H].
Defined.

Lemma lifecycle_one_way_witness :
  (stage (c_state (w_client (world_new (D := object) (P := Z) demo_start)))
   <= stage (c_state (w_client (demo_world [CvInit 2 (demo_client_config 5)]))))%nat.
Proof.
  destruct (lifecycle_one_way (CvInit 2 (demo_client_config 5)) (world_new demo_start)
    (demo_world [CvInit 2 (demo_client_config 5)])) as [H _]; [vm_compute; reflexivity | exact H].
Defined.

Definition demo_closed : Client (Topo * Z) := w_client (demo_world demo_before).
Lemma closed_client_refuses_witness :
  isRunning demo_closed = false
  /\ serve defaultInstance [] demo_sql demo_closed = ((Returned, (clientClosed, 0)), demo_closed).
Proof.
  split; [vm_compute; reflexivity|].
  destruct (closed_client_refuses demo_closed defaultInstance [] demo_sql 2 (demo_client_config 5) 0)
    as [H _]; [vm_compute; reflexivity..|]. exact H.
Defined.

Definition demo_running : Client (Topo * Z) :=
  w_client (demo_world [CvInit 2 (demo_client_config 5)]).
Lemma serve_resolves_witness :
  dm_getDataSource (lit "nowhere") (c_manager demo_running) = None
  /\ serve defaultInstance (lit "nowhere") demo_sql demo_running
     = ((Returned, (dataSourceNotFound (lit "nowhere"), 0)), demo_running).
Proof.
  assert (dm_getDataSource (lit "nowhere") (c_manager demo_running) = None) as E
    by (vm_compute; reflexivity).
  split; [exact E|].
  pose proof (serve_resolves defaultInstance (lit "nowhere") demo_sql demo_running
    ltac:(vm_compute; reflexivity) ltac:(vm_compute; reflexivity)) as H.
  cbv zeta in H. change (target defaultInstance (lit "nowhere")) with (lit "nowhere") in H.
  change (is_nil (lit "nowhere")) with false in H. cbv iota in H. rewrite E in H. exact H.
Defined.

Lemma async_timeout_hides_result_witness :
  let k := mkClosure 3 defaultInstance 5 demo_sql in
  (run_closure k 4000000 demo_start).1.1 = StatusOK
  /\ st_code (run_closure k 7000000 demo_start).1.1 = QueryTimeout
  /\ (run_closure k 7000000 demo_start).2.2 = 1.
Proof.
  cbv zeta. split; [vm_compute; reflexivity|].
  destruct (async_timeout_hides_result (mkClosure 3 defaultInstance 5 demo_sql) 7000000 demo_start)
    as (H & _ & E & _); [done..|]. split; [exact H|]. rewrite E. vm_compute. reflexivity.
Defined.


(** ** What the interleaving of calls breaks *)

(** An asynchronous call that has taken hold of an executor nobody used before, and posts
    to it after [shutdown]: its future is answered [Overloaded], but the post starts the
    executor's threads, which nobody joins, and the executor, which only that
    call still holds, terminates the process when it is destroyed. *)
Theorem late_submit_terminates :
  let w := demo_world [CvInit 2 (demo_client_config 0); demo_submit 1; CvStep 1; CvStep 1; CvStep 1;
                       CvShutdown 100; CvPost 1] in
  c_state (w_client w) = Closed_ /\ c_async (w_client w) = None /\ w_posting w = []
  /\ w_settled w = [(1, (overloaded, 0))]
  /\ destructor <$> c_execs (w_client w) = [Terminates].
Proof. vm_compute. done. Qed.

(** [addDataSource] holds no lock between its check of the state and the manager's
    operation: with a [shutdown] in between, a closed client publishes a data source and
    its pool, which no later call of the client reaches or retires. *)
Theorem data_source_added_to_closed_client grace :
  let w := demo_world [CvInit 2 (demo_client_config 5);
                       CvDynamic (AddDataSource (leaf_config "c") demo_options); CvShutdown 100; CvCall 0] in
  let c := w_client w in
  w_calls w = [] /\ c_state c = Closed_
  /\ dm_getDataSource (lit "c") (c_manager c) <> None
  /\ client_dataSource defaultInstance (lit "c") c = None
  /\ client_shutdown grace c = (tt, c).
Proof.
  cbv zeta. split; [vm_compute; reflexivity|]. split; [vm_compute; reflexivity|].
  split; [vm_compute; discriminate|]. split; [vm_compute; reflexivity|].
  apply shutdown_again. vm_compute. reflexivity.
Qed.
