(* ===== verification/Converters.v ===== *)
(** * Conversion of values to and from the members of an entity (include/sqlconduit/mapping.h)

    [ValueConverter<U>] is a class; each of its specialisations is an instance, and a
    user's own specialisation is one more. [fromValue] writes an out parameter, so it
    is a state transformer over the member. What the instances promise each other is
    the class [LawfulConverter]: a value written by [toValue] is read back whatever
    the flags and the member before it.

    The C++ library's floating-point functions are the class [Platform]; what a
    cast of a floating-point number out of range gives, which the language leaves
    undefined, is its field [cast_undefined]. A geometric parser that fails is taken
    to leave the member as it was. *)
From stdpp Require Import base list strings.
From Stdlib Require Import Ascii ZArith Lia.
From Stdlib Require Import Floats.SpecFloat.
From S2P Require Import Prelude Doubles Types Timestamps PgTypes.

Open Scope Z_scope.

(** ** Flags *)
Definition FieldFlags : Type := Z.
Definition FNone : FieldFlags := 0.
Definition FPrimaryKey : FieldFlags := Z.shiftl 1 0.
Definition FGenerated : FieldFlags := Z.shiftl 1 1.
Definition FReadOnly : FieldFlags := Z.shiftl 1 2.
Definition FLossy : FieldFlags := Z.shiftl 1 3.
Definition FTextual : FieldFlags := Z.shiftl 1 4.
Definition flags_or (a b : FieldFlags) : FieldFlags := Z.lor a b.
Definition hasFlag (v bit : FieldFlags) : bool := negb (Z.land v bit =? 0).

(** ** Errors *)

(** By the index of the variant. *)
Definition value_index (v : Value) : Z :=
  match v with
  | VNull => 0 | VBool _ => 1 | VInt64 _ => 2 | VUInt64 _ => 3 | VDouble _ => 4 | VDecimal _ => 5
  | VString _ => 6 | VDate _ => 7 | VTime _ => 8 | VTimestamp _ => 9 | VUuid _ => 10 | VJson _ => 11
  | VBlob _ => 12 | VIntervalYearMonth _ => 13 | VIntervalDaySecond _ => 14 | VArray _ => 15
  | VComposite _ => 16 | VTypedArray _ _ => 17 | VTypedComposite _ _ => 18
  end.
Definition valueTypeName (v : Value) : string :=
  match value_index v with
  | 0 => "NULL" | 1 => "bool" | 2 => "int64" | 3 => "uint64" | 4 => "double" | 5 => "Decimal"
  | 6 => "string" | 7 => "Date" | 8 => "Time" | 9 => "Timestamp" | 10 => "Uuid" | 11 => "Json"
  | 12 => "Blob" | 13 => "Array" | 14 => "Composite"
  | _ => "unknown"
  end%string.
Definition mapError (msg : str) : Status := status_error MappingError msg.
Definition typeError (target : str) (v : Value) : Status :=
  mapError (lit "cannot convert " ++ lit (valueTypeName v) ++ lit " to " ++ target).

(** ** The C++ library *)
Class Platform := {
  (** [std::stod]: the number and how many characters it took; it may throw *)
  stod : str -> option (double * nat);
  (** [std::to_string(double)] *)
  to_string_f : double -> str;
  (** [static_cast<std::int64_t>] of a number outside the type *)
  cast_undefined : double -> Z;
  (** [std::ostream << double] with 17 digits *)
  print_double17 : Z -> str;
  plat_localtime : Z -> tm;
  plat_mktime : tm -> option Z;
  plat_pow10 : Z -> double;
  plat_snprintf : Z -> double -> str;
}.

(** [std::stoll(s, &pos)] with [pos == s.size()]. *)
Definition tryParseIntegral (s : str) : option Z := if is_nil s then None else strtoll_all s.
Definition tryParseReal `{Platform} (s : str) : option double :=
  if is_nil s then None
  else match stod s with
       | Some (d, pos) => if (pos =? length s)%nat then Some d else None
       | None => None
       end.

(** ** Integers *)
Record IntType := mkIntType { it_signed : bool; it_bits : Z }.
Definition int_min (t : IntType) : Z := if it_signed t then - 2 ^ (it_bits t - 1) else 0.
Definition int_max (t : IntType) : Z := if it_signed t then 2 ^ (it_bits t - 1) - 1 else 2 ^ it_bits t - 1.
Definition int8 : IntType := mkIntType true 8.
Definition int16 : IntType := mkIntType true 16.
Definition int32 : IntType := mkIntType true 32.
Definition int64 : IntType := mkIntType true 64.
Definition uint8 : IntType := mkIntType false 8.
Definition uint16 : IntType := mkIntType false 16.
Definition uint32 : IntType := mkIntType false 32.
Definition uint64 : IntType := mkIntType false 64.

Definition fitsIn (dst : IntType) (src_signed : bool) (s : Z) : bool :=
  match it_signed dst, src_signed with
  | false, false => u64 s <=? u64 (int_max dst)
  | false, true => (0 <=? s) && (u64 s <=? u64 (int_max dst))
  | true, false => u64 s <=? u64 (int_max dst)
  | true, true => (i64 (int_min dst) <=? i64 s) && (i64 s <=? i64 (int_max dst))
  end.

(** [TypeName]: of an integer type, by its sign and width. *)
Definition int_name (t : IntType) : str :=
  lit (if it_signed t then "int" else "uint") ++ dec_Z (it_bits t) ++ lit "_t".

(** ** Doubles *)

(** The integer part, towards zero: [std::ceil] of a negative number, else [std::floor]. *)
Definition trunc_double (d : double) : Z :=
  match d with
  | S754_finite sign m e =>
      let a := if 0 <=? e then Z.pos m * 2 ^ e else Z.shiftr (Z.pos m) (- e) in
      if sign then - a else a
  | _ => 0
  end.
Definition is_finite (d : double) : bool :=
  match d with S754_zero _ | S754_finite _ _ _ => true | _ => false end.
(** [static_cast<double>] of the bounds of [std::int64_t]. *)
Definition double_int64_min : Z := - 2 ^ 63.
Definition double_int64_max : Z := 2 ^ 63.
Definition double_to_int64 `{Platform} (d : double) : Z :=
  let t := trunc_double d in
  if (int64_min <=? t) && (t <=? int64_max) then t else cast_undefined d.

(** A [float]: 24 bits of precision. *)
Definition round_to (prec emax : Z) (d : double) : double :=
  match d with
  | S754_finite sign m e => binary_normalize prec emax (if sign then Z.neg m else Z.pos m) e sign
  | d => d
  end.
Definition to_float : double -> double := round_to 24 128.
Definition of_float : double -> double := round_to 53 1024.
Definition float_max : double := S754_finite false 16777215 104.
Definition float_lowest : double := S754_finite true 16777215 104.
Definition float_out_of_range (d : double) : bool := SFltb (of_float float_max) d || SFltb d (of_float float_lowest).

(** ** Converters

    [fresh] is the member a [U tmp{}] starts as. *)
Class ValueConverter (U : Type) := {
  type_name : str;
  fresh : U;
  fromValue : Value -> FieldFlags -> ST U Status;
  toValue : U -> Value;
}.
Arguments type_name U {_}.
Arguments fresh U {_}.

Section Writing.
Context {U : Type}.
(** [out = u; return Status::OK();] *)
Definition stored (u : U) : ST U Status := fun _ => (StatusOK, u).
Definition refused (st : Status) : ST U Status := ret st.
(** A [std::get_if] that gives the new member or goes on. *)
Definition store_or (u : option U) (otherwise : ST U Status) : ST U Status :=
  match u with Some u => stored u | None => otherwise end.
End Writing.

#[export] Instance bool_converter : ValueConverter bool := {
  type_name := lit "bool";
  fresh := false;
  fromValue v flags := match v with VBool b => stored b | _ => refused (typeError (lit "bool") v) end;
  toValue b := VBool b;
}.

Record CInt (t : IntType) := mkCInt { ci_val : Z }.
Arguments mkCInt {t} _.
Arguments ci_val {t} _.

Definition out_of_range (what value target : str) : Status :=
  mapError (what ++ lit " " ++ value ++ lit " out of range for " ++ target).
(** [if (!fitsIn<U>(v)) return mapError(...); out = static_cast<U>(v);] *)
Definition store_int (t : IntType) (src_signed : bool) (z : Z) : ST (CInt t) Status :=
  if fitsIn t src_signed z then stored (mkCInt z)
  else refused (out_of_range (lit "value") (dec_Z z) (int_name t)).
Definition text_of_number (v : Value) : option str :=
  match v with VDecimal s | VString s => Some s | _ => None end.

Definition int_from_double `{Platform} (t : IntType) (d : double) : ST (CInt t) Status :=
  if negb (is_finite d) then refused (mapError (lit "non-finite double for " ++ int_name t))
  else if (trunc_double d <? double_int64_min) || (double_int64_max <? trunc_double d)
  then refused (out_of_range (lit "double") (to_string_f d) (int_name t))
  else store_int t true (double_to_int64 d).
Definition int_from `{Platform} (t : IntType) (v : Value) (flags : FieldFlags) : ST (CInt t) Status :=
  match v with
  | VInt64 z => store_int t true z
  | VUInt64 z => store_int t false z
  | _ =>
      if hasFlag flags FLossy then
        match v with
        | VDouble bits => int_from_double t (double_of_bits bits)
        | _ => match text_of_number v ≫= tryParseIntegral with
               | Some z => store_int t true z
               | None => refused (typeError (int_name t) v)
               end
        end
      else refused (typeError (int_name t) v)
  end.
#[export] Instance int_converter `{Platform} t : ValueConverter (CInt t) := {
  type_name := int_name t;
  fresh := mkCInt 0;
  fromValue v flags := int_from t v flags;
  toValue i := if it_signed t then VInt64 (ci_val i) else VUInt64 (ci_val i);
}.

Record Double := mkDouble { db_bits : Z }.
Record Float := mkFloat { fl_val : double }.
Definition int_of_value (v : Value) : option Z :=
  match v with VInt64 z | VUInt64 z => Some z | _ => None end.

Definition double_from `{Platform} (v : Value) (flags : FieldFlags) : ST Double Status :=
  match v with
  | VDouble bits => stored (mkDouble bits)
  | _ =>
      if hasFlag flags FLossy then
        store_or ((fun z => mkDouble (bits_of_double (f64 z))) <$> int_of_value v)
          (store_or ((fun d => mkDouble (bits_of_double d)) <$> (text_of_number v ≫= tryParseReal))
             (refused (typeError (lit "double") v)))
      else refused (typeError (lit "double") v)
  end.
#[export] Instance double_converter `{Platform} : ValueConverter Double := {
  type_name := lit "double";
  fresh := mkDouble 0;
  fromValue v flags := double_from v flags;
  toValue d := VDouble (db_bits d);
}.

Definition float_from `{Platform} (v : Value) (flags : FieldFlags) : ST Float Status :=
  match v with
  | VDouble bits =>
      let d := double_of_bits bits in
      if float_out_of_range d then refused (out_of_range (lit "double") (to_string_f d) (lit "float"))
      else stored (mkFloat (to_float d))
  | _ =>
      if hasFlag flags FLossy then
        store_or ((fun z => mkFloat (binary_normalize 24 128 z 0 false)) <$> int_of_value v)
          (store_or ((fun d => mkFloat (to_float d)) <$> (text_of_number v ≫= tryParseReal))
             (refused (typeError (lit "float") v)))
      else refused (typeError (lit "float") v)
  end.
#[export] Instance float_converter `{Platform} : ValueConverter Float := {
  type_name := lit "float";
  fresh := mkFloat (S754_zero false);
  fromValue v flags := float_from v flags;
  toValue f := VDouble (bits_of_double (of_float (fl_val f)));
}.

(** ** Text *)
Record Text := mkText { tx_val : str }.
Definition text_value (v : Value) : option str :=
  match v with
  | VString s | VDecimal s | VDate s | VTime s | VUuid s | VJson s => Some s
  | _ => None
  end.
Definition text_from `{Platform} (v : Value) (flags : FieldFlags) : ST Text Status :=
  match text_value v with
  | Some s => stored (mkText s)
  | None =>
      if hasFlag flags FLossy then
        match v with
        | VNull | VBlob _ => refused (typeError (lit "std::string") v)
        | VTimestamp t => stored (mkText (timestampToStringMs plat_localtime t))
        | _ => stored (mkText (valueToString print_double17 (timestampToStringMs plat_localtime) v))
        end
      else refused (typeError (lit "std::string") v)
  end.
#[export] Instance text_converter `{Platform} : ValueConverter Text := {
  type_name := lit "std::string";
  fresh := mkText [];
  fromValue v flags := text_from v flags;
  toValue s := VString (tx_val s);
}.

(** [StrongTextConverter] and the types that derive from it. *)
Inductive StrongKind := SkDecimal | SkDate | SkTime | SkUuid | SkJson.
Record Strong (k : StrongKind) := mkStrong { sg_val : str }.
Arguments mkStrong {k} _.
Arguments sg_val {k} _.
Definition strong_name (k : StrongKind) : str :=
  lit (match k with
       | SkDecimal => "Decimal" | SkDate => "Date" | SkTime => "Time" | SkUuid => "Uuid" | SkJson => "Json"
       end).
Definition strong_value (k : StrongKind) (s : str) : Value :=
  match k with
  | SkDecimal => VDecimal s | SkDate => VDate s | SkTime => VTime s | SkUuid => VUuid s | SkJson => VJson s
  end.
Definition strong_of (k : StrongKind) (v : Value) : option str :=
  match k, v with
  | SkDecimal, VDecimal s | SkDate, VDate s | SkTime, VTime s | SkUuid, VUuid s | SkJson, VJson s => Some s
  | _, _ => None
  end.
(** A text, where [Textual] allows one. *)
Definition textual (flags : FieldFlags) (v : Value) : option str :=
  if hasFlag flags FTextual then match v with VString s => Some s | _ => None end else None.
#[export] Instance strong_converter k : ValueConverter (Strong k) := {
  type_name := strong_name k;
  fresh := mkStrong [];
  fromValue v flags :=
    store_or (mkStrong <$> strong_of k v)
      (store_or (mkStrong <$> textual flags v) (refused (typeError (strong_name k) v)));
  toValue s := strong_value k (sg_val s);
}.

(** ** Values taken as they are *)
Record Blob := mkBlob { bl_bytes : str }.
#[export] Instance blob_converter : ValueConverter Blob := {
  type_name := lit "Blob";
  fresh := mkBlob [];
  fromValue v flags := match v with VBlob b => stored (mkBlob b) | _ => refused (typeError (lit "Blob") v) end;
  toValue b := VBlob (bl_bytes b);
}.
Record Array := mkArray { ar_items : list Value }.
#[export] Instance array_converter : ValueConverter Array := {
  type_name := lit "Array";
  fresh := mkArray [];
  fromValue v flags := match v with VArray l => stored (mkArray l) | _ => refused (typeError (lit "Array") v) end;
  toValue a := VArray (ar_items a);
}.
Record Composite := mkComposite { co_fields : list (str * Value) }.
#[export] Instance composite_converter : ValueConverter Composite := {
  type_name := lit "Composite";
  fresh := mkComposite [];
  fromValue v flags :=
    match v with VComposite l => stored (mkComposite l) | _ => refused (typeError (lit "Composite") v) end;
  toValue c := VComposite (co_fields c);
}.

(** ** Vectors: what was read before a failure stays in the vector *)
Section Vector.
Context {U : Type} `{!ValueConverter U}.
Fixpoint read_items (flags : FieldFlags) (items : list Value) (out : list U) : Status * list U :=
  match items with
  | [] => (StatusOK, out)
  | item :: items' =>
      let '(s, tmp) := fromValue item flags (fresh U) in
      if negb (st_ok s) then (s, out) else read_items flags items' (out ++ [tmp])
  end.
Definition vector_from (v : Value) (flags : FieldFlags) : ST (list U) Status :=
  match v with
  | VArray items => fun _ => read_items flags items []
  | _ => refused (typeError (lit "std::vector") v)
  end.
End Vector.
#[export] Instance vector_converter `{ValueConverter U} : ValueConverter (list U) := {
  type_name := lit "custom-type";
  fresh := [];
  fromValue v flags := vector_from v flags;
  toValue l := VArray (map toValue l);
}.

(** ** Geometric types *)
Class PgGeometryTraits (G : Type) := {
  geo_name : string;
  geo_fresh : G;
  geo_parse : str -> option G;
  geo_format : G -> str;
}.
#[export] Instance point_traits `{Platform} : PgGeometryTraits PgPoint := {
  geo_name := "PgPoint"; geo_fresh := mkPoint (f64 0) (f64 0);
  geo_parse := pgParsePoint plat_pow10; geo_format := pgFormatPoint plat_pow10 plat_snprintf }.
#[export] Instance line_traits `{Platform} : PgGeometryTraits PgLine := {
  geo_name := "PgLine"; geo_fresh := mkLine (f64 0) (f64 0) (f64 0);
  geo_parse := pgParseLine plat_pow10; geo_format := pgFormatLine plat_pow10 plat_snprintf }.
#[export] Instance lseg_traits `{Platform} : PgGeometryTraits PgLseg := {
  geo_name := "PgLseg"; geo_fresh := mkLseg (mkPoint (f64 0) (f64 0)) (mkPoint (f64 0) (f64 0));
  geo_parse := pgParseLseg plat_pow10; geo_format := pgFormatLseg plat_pow10 plat_snprintf }.
#[export] Instance box_traits `{Platform} : PgGeometryTraits PgBox := {
  geo_name := "PgBox"; geo_fresh := mkBox (mkPoint (f64 0) (f64 0)) (mkPoint (f64 0) (f64 0));
  geo_parse := pgParseBox plat_pow10; geo_format := pgFormatBox plat_pow10 plat_snprintf }.
#[export] Instance path_traits `{Platform} : PgGeometryTraits PgPath := {
  geo_name := "PgPath"; geo_fresh := mkPath false [];
  geo_parse := pgParsePath plat_pow10; geo_format := pgFormatPath plat_pow10 plat_snprintf }.
#[export] Instance polygon_traits `{Platform} : PgGeometryTraits PgPolygon := {
  geo_name := "PgPolygon"; geo_fresh := mkPolygon [];
  geo_parse := pgParsePolygon plat_pow10; geo_format := pgFormatPolygon plat_pow10 plat_snprintf }.
#[export] Instance circle_traits `{Platform} : PgGeometryTraits PgCircle := {
  geo_name := "PgCircle"; geo_fresh := mkCircle (mkPoint (f64 0) (f64 0)) (f64 0);
  geo_parse := pgParseCircle plat_pow10; geo_format := pgFormatCircle plat_pow10 plat_snprintf }.

Definition geometry_from `{PgGeometryTraits G} (v : Value) (flags : FieldFlags) : ST G Status :=
  store_or (match v with VJson s => geo_parse s | _ => None end)
    (store_or (textual flags v ≫= geo_parse) (refused (typeError (lit geo_name) v))).
#[export] Instance geometry_converter `{PgGeometryTraits G} : ValueConverter G := {
  type_name := lit geo_name;
  fresh := geo_fresh;
  fromValue v flags := geometry_from v flags;
  toValue g := VJson (geo_format g);
}.

(** ** Time stamps *)
Record Timestamp := mkTimestamp { ts_ticks : Z }.
Definition time_text (v : Value) : str :=
  match v with VString s | VDate s | VTime s => s | _ => [] end.
Definition timestamp_from `{Platform} (v : Value) (flags : FieldFlags) : ST Timestamp Status :=
  match v with
  | VTimestamp t => stored (mkTimestamp t)
  | _ =>
      store_or
        (if hasFlag flags FTextual && negb (is_nil (time_text v))
         then mkTimestamp <$> tryParseTimestamp plat_mktime (time_text v) else None)
        (refused (typeError (lit "Timestamp") v))
  end.
#[export] Instance timestamp_converter `{Platform} : ValueConverter Timestamp := {
  type_name := lit "Timestamp";
  fresh := mkTimestamp 0;
  fromValue v flags := timestamp_from v flags;
  toValue t := VTimestamp (ts_ticks t);
}.

(** ** Optional members and enumerations *)
Definition option_from `{ValueConverter U} (v : Value) (flags : FieldFlags) : ST (option U) Status :=
  match v with
  | VNull => stored None
  | _ => fun old =>
      let '(s, tmp) := fromValue v flags (fresh U) in
      if negb (st_ok s) then (s, old) else (StatusOK, Some tmp)
  end.
#[export] Instance option_converter `{ValueConverter U} : ValueConverter (option U) := {
  type_name := lit "std::optional<" ++ type_name U ++ lit ">";
  fresh := None;
  fromValue v flags := option_from v flags;
  toValue o := match o with Some u => toValue u | None => VNull end;
}.

(** An enumeration over an integer type, converted without flags. *)
Record EnumOf (t : IntType) := mkEnum { en_val : CInt t }.
Arguments mkEnum {t} _.
Arguments en_val {t} _.
Definition enum_from `{Platform} (t : IntType) (v : Value) (flags : FieldFlags) : ST (EnumOf t) Status :=
  fun old =>
    let '(s, u) := fromValue v FNone (fresh (CInt t)) in
    if negb (st_ok s) then (s, old) else (StatusOK, mkEnum u).
#[export] Instance enum_converter `{Platform} t : ValueConverter (EnumOf t) := {
  type_name := lit "enum";
  fresh := mkEnum (mkCInt 0);
  fromValue v flags := enum_from t v flags;
  toValue e := toValue (en_val e);
}.

(** ** What converters promise *)
Class LawfulConverter (U : Type) `{ValueConverter U} := {
  storable : U -> Prop;
  reads_back : forall (u : U) flags old, storable u -> fromValue (toValue u) flags old = (StatusOK, u);
}.
Arguments storable {U _ _} _.
Class NeverNull (U : Type) `{ValueConverter U} : Prop := {
  never_null : forall u : U, toValue u <> VNull;
}.

(** *** Integers *)

(** The types the language has. *)
Definition machine_int (t : IntType) : Prop := 1 <= it_bits t <= 64.
Definition int_in (t : IntType) (z : Z) : Prop := int_min t <= z <= int_max t.
Definition source64 (signed : bool) : IntType := mkIntType signed 64.

Lemma pow_mono a b : 0 <= a <= b -> 1 <= 2 ^ a <= 2 ^ b.
Proof.
  intros [H1 H2]. split; [|by apply Z.pow_le_mono_r; lia].
  change 1 with (2 ^ 0). by apply Z.pow_le_mono_r; lia.
Qed.

Lemma int_bounds t : machine_int t ->
  - 2 ^ 63 <= int_min t <= 0 /\ 0 <= int_max t < two64 /\ (it_signed t = true -> int_max t < 2 ^ 63)
  /\ (it_signed t = false -> int_min t = 0).
Proof.
  intros Ht. unfold machine_int in Ht. unfold int_min, int_max, two64.
  destruct (it_signed t).
  - pose proof (pow_mono (it_bits t - 1) 63 ltac:(lia)). lia.
  - pose proof (pow_mono (it_bits t) 64 ltac:(lia)). lia.
Qed.

(** The casts of the check hide no overflow. *)
Lemma fits_in_iff t src z : machine_int t -> int_in (source64 src) z ->
  fitsIn t src z = true <-> int_in t z.
Proof.
  intros Ht Hz. destruct (int_bounds t Ht) as (B1 & B2 & B3 & B4). unfold int_in in *. unfold fitsIn.
  assert (forall x, 0 <= x < two64 -> u64 x = x) as U by (intros; unfold u64; by apply Z.mod_small).
  assert (forall x, - 2 ^ 63 <= x < 2 ^ 63 -> i64 x = x) as S by (intros; by apply i64_id).
  destruct (it_signed t), src; cbn in Hz; rewrite ?andb_true_iff, ?Z.leb_le.
  - rewrite !S by lia. lia.
  - rewrite !U by (unfold two64 in *; lia). lia.
  - split.
    + intros [H1 H2]. rewrite !U in H2 by (unfold two64 in *; lia). lia.
    + intros H. rewrite !U by (unfold two64 in *; lia). lia.
  - rewrite !U by (unfold two64 in *; lia). lia.
Qed.
#[export] Instance int_in_dec t z : Decision (int_in t z).
Proof. unfold int_in. apply _. Defined.
Definition integer_value (src_signed : bool) (z : Z) : Value := if src_signed then VInt64 z else VUInt64 z.

(** C21: an integer from the database, signed or not, becomes a member of any integer
    type of up to 64 bits exactly when the type has its value; otherwise the
    conversion is refused and the member left as it was. *)
Theorem integer_conversion_exact `{Platform} t src z flags (old : CInt t)
    (Ht : machine_int t) (Hz : int_in (source64 src) z) :
  fromValue (integer_value src z) flags old =
    if decide (int_in t z) then (StatusOK, mkCInt z)
    else (out_of_range (lit "value") (dec_Z z) (int_name t), old).
Proof.
  pose proof (fits_in_iff t src z Ht Hz) as F.
  assert (fromValue (integer_value src z) flags old = store_int t src z old) as -> by by destruct src.
  unfold store_int. case_decide as Hd.
  - by rewrite (proj2 F Hd).
  - destruct (fitsIn t src z); [by destruct Hd; apply F | done].
Qed.

(** *** The instances *)
#[export, refine] Instance bool_lawful : LawfulConverter bool := { storable _ := True }.
Proof. done. Defined.
#[export, refine] Instance text_lawful `{Platform} : LawfulConverter Text := { storable _ := True }.
Proof. by intros []. Defined.
#[export, refine] Instance blob_lawful : LawfulConverter Blob := { storable _ := True }.
Proof. by intros []. Defined.
#[export, refine] Instance array_lawful : LawfulConverter Array := { storable _ := True }.
Proof. by intros []. Defined.
#[export, refine] Instance composite_lawful : LawfulConverter Composite := { storable _ := True }.
Proof. by intros []. Defined.
#[export, refine] Instance double_lawful `{Platform} : LawfulConverter Double := { storable _ := True }.
Proof. by intros []. Defined.
#[export, refine] Instance timestamp_lawful `{Platform} : LawfulConverter Timestamp := { storable _ := True }.
Proof. by intros []. Defined.
#[export, refine] Instance strong_lawful k : LawfulConverter (Strong k) := { storable _ := True }.
Proof. intros [s] flags old _. by destruct k. Defined.
#[export, refine] Instance int_lawful `{Platform} t : LawfulConverter (CInt t) :=
  { storable i := machine_int t /\ int_in t (ci_val i) }.
Proof.
  intros [z] flags old [Ht Hz]. cbn [ci_val] in Hz.
  assert (int_in (source64 (it_signed t)) z) as H64.
  { destruct (int_bounds t Ht) as (B1 & B2 & B3 & B4). unfold int_in, two64 in *. cbn.
    destruct (it_signed t); cbn; lia. }
  pose proof (proj2 (fits_in_iff t _ z Ht H64) Hz) as F. cbn [fromValue toValue int_converter ci_val].
  destruct (it_signed t) eqn:Es; cbn [int_from]; unfold store_int; rewrite F; done.
Defined.
#[export, refine] Instance enum_lawful `{Platform} t : LawfulConverter (EnumOf t) := { storable e := storable (en_val e) }.
Proof.
  intros [u] flags old Hu. cbn [fromValue toValue enum_converter en_val]. unfold enum_from.
  cbn [en_val] in Hu. by rewrite (reads_back u FNone (fresh (CInt t)) Hu).
Defined.
#[export, refine] Instance vector_lawful `{LawfulConverter U} : LawfulConverter (list U) := { storable := Forall storable }.
Proof.
  intros l flags old Hl. cbn [fromValue toValue vector_converter vector_from].
  assert (forall out, read_items flags (map toValue l) out = (StatusOK, out ++ l)) as E; [|by rewrite E].
  induction Hl as [|u l Hu Hl IH]; intros out; cbn [map read_items]; [by rewrite app_nil_r|].
  rewrite (reads_back u flags (fresh U) Hu). cbn. by rewrite IH, <- app_assoc.
Defined.
#[export, refine] Instance option_lawful `{LawfulConverter U} `{!NeverNull U} : LawfulConverter (option U) :=
  { storable o := match o with Some u => storable u | None => True end }.
Proof.
  intros [u|] flags old Hu; [|done]. cbn [fromValue toValue option_converter].
  unfold option_from. pose proof (reads_back u flags (fresh U) Hu) as E. pose proof (never_null u) as N.
  destruct (toValue u); try done; by rewrite E.
Defined.

#[export] Instance bool_never_null : NeverNull bool.
Proof. by split. Qed.
#[export] Instance text_never_null `{Platform} : NeverNull Text.
Proof. by split. Qed.
#[export] Instance double_never_null `{Platform} : NeverNull Double.
Proof. by split. Qed.
#[export] Instance timestamp_never_null `{Platform} : NeverNull Timestamp.
Proof. by split. Qed.
#[export] Instance blob_never_null : NeverNull Blob.
Proof. by split. Qed.
#[export] Instance strong_never_null k : NeverNull (Strong k).
Proof. split. by destruct k. Qed.
#[export] Instance int_never_null `{Platform} t : NeverNull (CInt t).
Proof. split. intros u. cbn. by destruct (it_signed t). Qed.
#[export] Instance enum_never_null `{Platform} t : NeverNull (EnumOf t).
Proof. split. intros u. cbn. by destruct (it_signed t). Qed.
#[export] Instance vector_never_null `{ValueConverter U} : NeverNull (list U).
Proof. by split. Qed.

(** A refused conversion leaves a member of these types as it was. *)
Lemma option_refused `{ValueConverter U} v flags (old : option U) :
  st_ok (fromValue v flags old).1 = false -> (fromValue v flags old).2 = old.
Proof.
  cbn [fromValue option_converter]. unfold option_from. destruct v; try done;
    destruct (fromValue _ _ _) as [st tmp]; by destruct (st_ok st).
Qed.

(** ** Findings *)

(** A library that reads no floating-point text. *)
Definition demo_platform (undefined : Z) : Platform := {|
  stod _ := None; to_string_f _ := lit "0.000000"; cast_undefined _ := undefined; print_double17 _ := [];
  plat_localtime := no_local; plat_mktime := no_zone; plat_pow10 := demo_pow10; plat_snprintf := demo_printf |}.
Lemma integer_conversion_exact_witness :
  machine_int uint8 /\ int_in (source64 true) 300 /\
  @fromValue _ (@int_converter (demo_platform 0) uint8) (VInt64 300) FNone (mkCInt 7) =
    (out_of_range (lit "value") (lit "300") (lit "uint8_t"), mkCInt 7).
Proof.
  assert (machine_int uint8) as H1 by (unfold machine_int; cbn; lia).
  assert (int_in (source64 true) 300) as H2 by (unfold int_in; cbn; lia).
  split; [exact H1|]. split; [exact H2|].
  pose proof (integer_conversion_exact (H := demo_platform 0) uint8 true 300 FNone (mkCInt 7) H1 H2) as E.
  etransitivity; [exact E|]. vm_compute. reflexivity.
Defined.

(** A double of exactly [2 ^ 63] passes the range check of a lossy conversion to an
    integer, because the greatest [std::int64_t] rounds up to it as a double: what is
    stored is the result of a cast the language leaves undefined. *)
Theorem lossy_boundary_undefined z : 0 <= z <= int64_max ->
  @fromValue _ (@int_converter (demo_platform z) int64) (VDouble (bits_of_double (f64 (2 ^ 63)))) FLossy (mkCInt 7)
  = (StatusOK, mkCInt z).
Proof.
  intros Hz.
  assert (@fromValue _ (@int_converter (demo_platform z) int64) (VDouble (bits_of_double (f64 (2 ^ 63)))) FLossy
            (mkCInt 7) = store_int int64 true z (mkCInt 7)) as -> by reflexivity.
  assert (int_in int64 z) as Hi by (unfold int_in; cbn; unfold int64_max in Hz; lia).
  unfold store_int. rewrite (proj2 (fits_in_iff int64 true z ltac:(unfold machine_int; cbn; lia) Hi) Hi). done.
Qed.
Lemma lossy_boundary_undefined_witness : (0 <= 5 <= int64_max) /\
  @fromValue _ (@int_converter (demo_platform 5) int64) (VDouble (bits_of_double (f64 (2 ^ 63)))) FLossy (mkCInt 7)
  = (StatusOK, mkCInt 5).
Proof.
  assert (0 <= 5 <= int64_max) as H by (unfold int64_max; lia). split; [exact H|].
  exact (lossy_boundary_undefined 5 H).
Defined.

(** The names of the error messages count the variant's alternatives without the two
    intervals: an interval is reported as an array, and an array as unknown. *)
Theorem interval_reported_as_array s :
  valueTypeName (VIntervalYearMonth s) = "Array"%string /\ valueTypeName (VIntervalDaySecond s) = "Composite"%string
  /\ valueTypeName (VArray []) = "unknown"%string /\ valueTypeName (VComposite []) = "unknown"%string.
Proof. done. Qed.

(** A vector that fails half way keeps the elements before the failure. *)
Theorem vector_keeps_prefix :
  fromValue (VArray [VBool true; VInt64 2; VBool false]) FNone [false]
  = (typeError (lit "bool") (VInt64 2), [true]).
Proof. reflexivity. Qed.
