(* ===== verification/Mapping.v ===== *)
(** * Mapping of rows to entities (include/sqlconduit/mapping.h)

    [Mapping<T>] is a list of columns; a column assigns a value to one member of an
    entity and writes it from there. A pointer to a member is a pair of functions,
    [RowMapper<T>] is a class. The SQL of inserts and updates and the parameters that
    go with it are made from the same columns; the theorems say that they agree, and
    that what is written to a row is read back from it. *)
From stdpp Require Import base list strings.
From Stdlib Require Import Ascii ZArith Lia.
From S2P Require Import Prelude Doubles Types Timestamps SqlAnalyze Connection PgTypes OracleTypes Routines Converters.

#[local] Open Scope nat_scope.

Inductive ExtraColumns := ExtraIgnore | ExtraError.
Inductive MissingColumns := MissingIgnore | MissingError.
Inductive WriteCols := Writable | AllCols | PrimaryKeyCols.

Section Columns.
Context {T : Type}.

(** [M T::*ptr] *)
Record Member (M : Type) := mkMember { mb_get : T -> M; mb_set : M -> T -> T }.

Record Column := mkColumn {
  cl_name : str;
  cl_target : str;
  cl_flags : FieldFlags;
  cl_assign : Value -> ST T Status;
  cl_write : T -> Value;
}.
Record Mapping := mkMapping {
  mp_columns : list Column;
  mp_extra : ExtraColumns;
  mp_missing : MissingColumns;
}.
Definition no_mapping : Mapping := mkMapping [] ExtraIgnore MissingIgnore.

Definition assign_member `{ValueConverter M} (ptr : Member M) (flags : FieldFlags) (v : Value) : ST T Status :=
  fun out =>
    let '(s, m) := fromValue v flags (mb_get _ ptr out) in
    (if negb (st_ok s) && negb (bool_decide (st_code s = MappingError))
     then mapError (lit "target " ++ type_name M ++ lit ": " ++ st_message s) else s,
     mb_set _ ptr m out).
Definition field_column `{ValueConverter M} (ptr : Member M) (column : str) (flags : FieldFlags) : Column :=
  mkColumn column (type_name M) flags (assign_member ptr flags) (fun e => toValue (mb_get _ ptr e)).
Definition field `{ValueConverter M} (ptr : Member M) (column : str) (flags : FieldFlags) (m : Mapping) : Mapping :=
  mkMapping (mp_columns m ++ [field_column ptr column flags]) (mp_extra m) (mp_missing m).
Definition extraColumns (p : ExtraColumns) (m : Mapping) : Mapping := mkMapping (mp_columns m) p (mp_missing m).
Definition missingColumns (p : MissingColumns) (m : Mapping) : Mapping := mkMapping (mp_columns m) (mp_extra m) p.

Definition writable (c : Column) : bool := negb (hasFlag (cl_flags c) FGenerated) && negb (hasFlag (cl_flags c) FReadOnly).
Definition is_key (c : Column) : bool := hasFlag (cl_flags c) FPrimaryKey.
Definition isDeclaredByName (n : str) (m : Mapping) : bool :=
  existsb (fun c => str_eqb (cl_name c) n) (mp_columns m).
(** The columns a loop does not [continue] over. *)
Definition selected (which : WriteCols) (c : Column) : bool :=
  match which with Writable => writable c | PrimaryKeyCols => is_key c | AllCols => true end.
Definition columnNames (which : WriteCols) (m : Mapping) : list str :=
  map cl_name (List.filter (selected which) (mp_columns m)).

Definition column_error (c : str) (s : Status) : Status :=
  mapError (lit "column '" ++ c ++ lit "': " ++ st_message s).
Definition column_missing (c : Column) : Status :=
  mapError (lit "column '" ++ cl_name c ++ lit "' not found in result set (target " ++ cl_target c ++ lit ")").
Fixpoint assign_columns (missing : MissingColumns) (row : Row) (cols : list Column) : ST T Status :=
  match cols with
  | [] => ret StatusOK
  | c :: cols' =>
      match field_find (cl_name c) row with
      | None =>
          match missing with
          | MissingError => ret (column_missing c)
          | MissingIgnore => assign_columns missing row cols'
          end
      | Some v => fun out =>
          let '(s, out') := cl_assign c v out in
          if st_ok s then assign_columns missing row cols' out' else (column_error (cl_name c) s, out')
      end
  end.
Definition undeclared (row : Row) (m : Mapping) : option str :=
  List.find (fun n => negb (isDeclaredByName n m)) (map fst row).
Definition mapping_fromRow (m : Mapping) (row : Row) : ST T Status :=
  fun out =>
    let '(s, out') := assign_columns (mp_missing m) row (mp_columns m) out in
    if negb (st_ok s) then (s, out')
    else match mp_extra m with
         | ExtraError =>
             match undeclared row m with
             | Some n => (mapError (lit "undeclared column '" ++ n ++ lit "' in result set"), out')
             | None => (StatusOK, out')
             end
         | ExtraIgnore => (StatusOK, out')
         end.
End Columns.
Arguments Member : clear implicits.
Arguments Column : clear implicits.
Arguments Mapping : clear implicits.
Arguments mkMember {T M} _ _.
Arguments mb_get {T M} _ _.
Arguments mb_set {T M} _ _ _.

(** [RowMapper<T>::describe()] and [T{}]. *)
Class RowMapper (T : Type) := { describe : Mapping T; blank : T }.

Section Entities.
Context {T : Type} `{!RowMapper T}.
Definition mappingFor : Mapping T := describe.
Definition columns : list (Column T) := mp_columns mappingFor.

Definition fromRow (row : Row) : ST T Status := mapping_fromRow mappingFor row.
(** The vector after the call. *)
Fixpoint read_rows (rows : list Row) (out : list T) : Status * list T :=
  match rows with
  | [] => (StatusOK, out)
  | row :: rows' =>
      let '(s, item) := fromRow row blank in
      if negb (st_ok s) then (s, []) else read_rows rows' (out ++ [item])
  end.
Definition fromRows (rs : ResultSet) : Status * list T := read_rows (rs_rows rs) [].

Definition paramsOf (which : WriteCols) (e : T) : Params :=
  map (fun c => cl_write c e) (List.filter (selected which) columns).
Definition set_columns : list (Column T) := List.filter (fun c => negb (is_key c) && writable c) columns.
Definition key_columns : list (Column T) := List.filter is_key columns.
Definition updateParamsOf (e : T) : Params :=
  map (fun c => cl_write c e) set_columns ++ map (fun c => cl_write c e) key_columns.
Definition batchOf (which : WriteCols) (entities : list T) : list Params := map (paramsOf which) entities.

(** ** SQL *)
Definition joinIdentifiers (cols : list str) (d : Dialect) : str :=
  join (lit ", ") (map (fun c => quoteIdent c d) cols).
Definition mapping_placeholders (n : nat) : str := join (lit ", ") (replicate n (lit "?")).
Definition buildAssignList (cols : list str) (d : Dialect) : str :=
  join (lit ", ") (map (fun c => quoteIdent c d ++ lit " = ?") cols).

Definition insertSql (table : str) (d : Dialect) : str :=
  let cols := columnNames Writable mappingFor in
  lit "INSERT INTO " ++ quoteIdent table d ++ lit " (" ++ joinIdentifiers cols d ++ lit ") VALUES ("
  ++ mapping_placeholders (length cols) ++ lit ")".
Definition update_text (table : str) (set keys : list str) (d : Dialect) : str :=
  lit "UPDATE " ++ quoteIdent table d ++ lit " SET " ++ buildAssignList set d ++ lit " WHERE "
  ++ buildAssignList keys d.
Definition updateSql (table : str) (d : Dialect) : str :=
  if is_nil key_columns || is_nil set_columns then []
  else update_text table (map cl_name set_columns) (map cl_name key_columns) d.
Definition updateSql_of (table : str) (set keys : list str) (d : Dialect) : str :=
  if is_nil set || is_nil keys then []
  else if existsb (fun n => negb (isDeclaredByName n mappingFor)) (set ++ keys) then []
  else update_text table set keys d.

Definition generated_names : list str :=
  map cl_name (List.filter (fun c => hasFlag (cl_flags c) FGenerated) columns).
Definition output_clause (gen : list str) : str :=
  lit " OUTPUT " ++ join (lit ",") (map (fun g => lit "INSERTED." ++ g) gen).
Definition insertSqlReturning (table : str) (d : Dialect) : str :=
  let base := insertSql table d in
  if is_nil generated_names then base
  else match d with
       | DPostgres => base ++ lit " RETURNING " ++ joinIdentifiers generated_names d
       | DOracle =>
           base ++ oracleMakeReturningSuffix generated_names (length (columnNames Writable mappingFor) + 1)
       | DSqlServer =>
           match str_find (lit " VALUES") base with
           | Some pos => take pos base ++ output_clause generated_names ++ drop pos base
           | None => base
           end
       | _ => base
       end.

(** ** Generated keys *)
Fixpoint fill_generated (row : Row) (cols : list (Column T)) (filled : nat) : ST T (Status * nat) :=
  match cols with
  | [] => ret (StatusOK, filled)
  | c :: cols' =>
      if negb (hasFlag (cl_flags c) FGenerated) then fill_generated row cols' filled
      else match field_find (cl_name c) row with
           | None => fill_generated row cols' filled
           | Some v => fun e =>
               let '(s, e') := cl_assign c v e in
               if st_ok s then fill_generated row cols' (S filled) e'
               else ((mapError (lit "generated key column '" ++ cl_name c ++ lit "': " ++ st_message s), filled), e')
           end
  end.
Fixpoint fill_first (v : Value) (cols : list (Column T)) : ST T unit :=
  match cols with
  | [] => ret tt
  | c :: cols' =>
      if negb (hasFlag (cl_flags c) FGenerated) then fill_first v cols'
      else fun e => let '(s, e') := cl_assign c v e in if st_ok s then (tt, e') else fill_first v cols' e'
  end.
Definition applyGeneratedKeys (keys : GeneratedKeys) : ST T Status :=
  fun entity =>
    match rs_rows (key_rows keys) with
    | [] => (StatusOK, entity)
    | row :: _ =>
        let '((s, filled), e) := fill_generated row columns 0 entity in
        if negb (st_ok s) then (s, e)
        else if (filled =? 0)%nat && negb (lastInsertId (key_rows keys) =? 0)%Z
        then (StatusOK, (fill_first (VInt64 (lastInsertId (key_rows keys))) columns e).2)
        else (StatusOK, e)
    end.
(** [applyBatchKeys]: key by key, entity by entity, up to the shorter of the two. *)
Fixpoint apply_each (keys : list GeneratedKeys) (entities : list T) : Status * list T :=
  match keys, entities with
  | k :: keys', e :: entities' =>
      let '(s, e') := applyGeneratedKeys k e in
      if negb (st_ok s) then (s, e' :: entities')
      else let '(st, rest) := apply_each keys' entities' in (st, e' :: rest)
  | _, _ => (StatusOK, entities)
  end.
Definition applyBatchKeys (batch : BatchResult) (entities : list T) : Status * list T :=
  if is_nil (batch_keys batch) then (StatusOK, entities) else apply_each (batch_keys batch) entities.
End Entities.

(** ** What is written is read back *)
Lemma find_row_set k c v r : field_find k (row_set c v r) = if str_eqb c k then Some v else field_find k r.
Proof.
  induction r as [|[k' w] r IH]; cbn [row_set field_find]; [done|].
  destruct (str_eqb k' c) eqn:E.
  - apply str_eqb_eq in E as ->. cbn [field_find]. by destruct (str_eqb c k).
  - destruct (str_ltb c k'); cbn [field_find]; [done|]. destruct (str_eqb k' k) eqn:Ek; [|exact IH].
    apply str_eqb_eq in Ek as ->. destruct (str_eqb c k) eqn:Ec; [|done].
    apply str_eqb_eq in Ec as ->. by rewrite str_eqb_refl in E.
Qed.
Lemma row_set_keys c v r k : In k (map fst (row_set c v r)) -> k = c \/ In k (map fst r).
Proof.
  induction r as [|[k' w] r IH]; cbn [row_set map fst In]; [by intros [<-|[]]; left|].
  destruct (str_eqb k' c); [cbn; tauto|]. destruct (str_ltb c k'); cbn; [|tauto].
  intros [<-|H]; [by left | by right].
Qed.

Section Laws.
Context {T : Type}.
Implicit Types (e out : T) (c d : Column T) (cols : list (Column T)).

(** A column reads back what it wrote of [e], over any entity. *)
Definition column_reads e c : Prop := forall out, (cl_assign c (cl_write c e) out).1 = StatusOK
  /\ cl_write c (cl_assign c (cl_write c e) out).2 = cl_write c e.
Definition independent c d : Prop := forall v out, cl_write d (cl_assign c v out).2 = cl_write d out.
Record lawful_mapping (m : Mapping T) : Prop := {
  lm_names : NoDup (map cl_name (mp_columns m));
  lm_apart : ForallOrdPairs (fun c d => independent c d /\ independent d c) (mp_columns m);
}.

(** The row of an entity. *)
Definition put_columns e cols (r : Row) : Row := fold_left (fun r c => row_set (cl_name c) (cl_write c e) r) cols r.
Definition row_of (m : Mapping T) e : Row := put_columns e (mp_columns m) [].

Lemma put_columns_cons e c cols r :
  put_columns e (c :: cols) r = put_columns e cols (row_set (cl_name c) (cl_write c e) r).
Proof. done. Qed.
Lemma put_columns_other e cols r k : k ∉ map cl_name cols -> field_find k (put_columns e cols r) = field_find k r.
Proof.
  revert r. induction cols as [|c cols IH]; intros r Hk; [done|]. cbn in Hk.
  rewrite not_elem_of_cons in Hk. destruct Hk as [Hk1 Hk2]. rewrite put_columns_cons, IH by done. rewrite find_row_set.
  destruct (str_eqb (cl_name c) k) eqn:E; [|done]. by apply str_eqb_eq in E.
Qed.
Lemma put_columns_find e cols r c : NoDup (map cl_name cols) -> c ∈ cols ->
  field_find (cl_name c) (put_columns e cols r) = Some (cl_write c e).
Proof.
  intros Hd Hc. revert r Hd. induction Hc as [c cols|c d cols Hc IH]; intros r Hd; cbn in Hd; rewrite put_columns_cons;
    apply NoDup_cons in Hd as [Hn Hd].
  - rewrite put_columns_other by done. by rewrite find_row_set, str_eqb_refl.
  - by apply IH.
Qed.
Lemma put_columns_keys e cols r k : In k (map fst (put_columns e cols r)) ->
  In k (map cl_name cols) \/ In k (map fst r).
Proof.
  revert r. induction cols as [|c cols IH]; intros r H; [by right|]. rewrite put_columns_cons in H. cbn.
  apply IH in H as [H|H]; [tauto|]. apply row_set_keys in H as [->|H]; tauto.
Qed.
Lemma row_of_declared m e : undeclared (row_of m e) m = None.
Proof.
  unfold undeclared. destruct (List.find _ _) as [n|] eqn:E; [|done]. apply find_some in E as [Hn Hd].
  apply put_columns_keys in Hn as [Hn|[]]. apply in_map_iff in Hn as (c & <- & Hc). exfalso.
  unfold isDeclaredByName in Hd.
  assert (existsb (fun d => str_eqb (cl_name d) (cl_name c)) (mp_columns m) = true) as Hx; [|by rewrite Hx in Hd].
  apply existsb_exists. exists c. split; [done | apply str_eqb_refl].
Qed.

Lemma assign_reads missing row e cols out :
  Forall (fun c => field_find (cl_name c) row = Some (cl_write c e)) cols ->
  Forall (column_reads e) cols ->
  ForallOrdPairs (fun c d => independent c d /\ independent d c) cols ->
  (assign_columns missing row cols out).1 = StatusOK
  /\ Forall (fun c => cl_write c (assign_columns missing row cols out).2 = cl_write c e) cols
  /\ forall d, Forall (fun c => independent c d) cols ->
       cl_write d (assign_columns missing row cols out).2 = cl_write d out.
Proof.
  intros Hr He Ha. revert out. induction Ha as [|c cols Hc Ha IH]; intros out; [by repeat constructor|].
  inversion Hr as [|? ? Hrc Hrs]; inversion He as [|? ? Hec Hes]; subst. cbn [assign_columns]. rewrite Hrc.
  destruct (Hec out) as [E1 E2]. destruct (cl_assign c (cl_write c e) out) as [st out1] eqn:Ea.
  cbn in E1, E2. subst st. cbn [st_ok]. destruct (IH Hrs Hes out1) as (I1 & I2 & I3).
  change (st_ok StatusOK) with true. cbn iota. split; [exact I1|]. split.
  - constructor; [|exact I2]. rewrite I3, E2; [done|].
    eapply Forall_impl; [exact Hc|]. by intros d [_ H].
  - intros d Hd. inversion Hd as [|? ? Hd1 Hd2]; subst. rewrite I3 by done.
    specialize (Hd1 (cl_write c e) out). by rewrite Ea in Hd1.
Qed.

(** C19: an entity whose members its converters can store is read back from the row it
    is written to, over any entity and under any policy for missing and undeclared
    columns: every column then writes the same value again. *)
Theorem entity_roundtrip (m : Mapping T) e out (Hm : lawful_mapping m)
    (He : Forall (column_reads e) (mp_columns m)) :
  (mapping_fromRow m (row_of m e) out).1 = StatusOK
  /\ Forall (fun c => cl_write c (mapping_fromRow m (row_of m e) out).2 = cl_write c e) (mp_columns m).
Proof.
  destruct Hm as [Hn Ha].
  assert (Forall (fun c => field_find (cl_name c) (row_of m e) = Some (cl_write c e)) (mp_columns m)) as Hf.
  { apply Forall_forall. intros c Hc. by apply put_columns_find. }
  destruct (assign_reads (mp_missing m) (row_of m e) e _ out Hf He Ha) as (E1 & E2 & _).
  unfold mapping_fromRow. destruct (assign_columns _ _ _ _) as [st out'] eqn:Ea. cbn in E1, E2. subst st.
  change (st_ok StatusOK) with true. cbn [negb]. destruct (mp_extra m); [done|]. by rewrite row_of_declared.
Qed.
End Laws.

(** *** Members of a record *)
Record lawful_member {T M} (p : Member T M) : Prop := { lw_get_set : forall x e, mb_get p (mb_set p x e) = x }.
Definition apart {T M N} (p : Member T M) (q : Member T N) : Prop :=
  (forall x e, mb_get q (mb_set p x e) = mb_get q e) /\ (forall y e, mb_get p (mb_set q y e) = mb_get p e).

Lemma field_reads {T} `{LawfulConverter M} (p : Member T M) name flags (e : T) :
  lawful_member p -> storable (mb_get p e) -> column_reads e (field_column p name flags).
Proof.
  intros [Hp] Hs out. cbn. unfold assign_member. rewrite (reads_back (mb_get p e) flags _ Hs). cbn. by rewrite Hp.
Qed.
Lemma field_apart {T} `{ValueConverter M} `{ValueConverter P} (p : Member T M) (q : Member T P) n1 n2 f1 f2 :
  apart p q -> independent (field_column p n1 f1) (field_column q n2 f2)
    /\ independent (field_column q n2 f2) (field_column p n1 f1).
Proof.
  intros [H1 H2]. split; intros v out; cbn; unfold assign_member; destruct (fromValue _ _ _); cbn;
    by rewrite ?H1, ?H2.
Qed.

(** ** All rows or none *)

(** A row is mapped, or the failure is a mapping error. *)
Definition mapped (st : Status) : Prop := st = StatusOK \/ st_code st = MappingError.
Lemma assign_mapped {T} missing row (cols : list (Column T)) out : mapped (assign_columns missing row cols out).1.
Proof.
  revert out. induction cols as [|c cols IH]; intros out; cbn [assign_columns]; [by left|].
  destruct (field_find (cl_name c) row) as [v|].
  - destruct (cl_assign c v out) as [st out']. destruct (st_ok st); [apply IH | by right].
  - destruct missing; [apply IH | by right].
Qed.
Lemma fromRow_mapped {T} (m : Mapping T) row out : mapped (mapping_fromRow m row out).1.
Proof.
  unfold mapping_fromRow. pose proof (assign_mapped (mp_missing m) row (mp_columns m) out) as H.
  destruct (assign_columns _ _ _ _) as [st out']. destruct (st_ok st); cbn; [|exact H].
  destruct (mp_extra m); [by left|]. destruct (undeclared row m); [by right | by left].
Qed.
Lemma mapped_ok st : mapped st -> st_ok st = true -> st = StatusOK.
Proof. intros [->|H] Hs; [done|]. unfold st_ok, code_eqb in Hs. by rewrite H in Hs. Qed.

Section Rows.
Context {T : Type} `{!RowMapper T}.
Implicit Types (rows : list Row) (items out : list T).
Definition row_item (row : Row) (item : T) : Prop := fromRow row blank = (StatusOK, item).

Lemma read_rows_spec rows out :
  (exists items, read_rows rows out = (StatusOK, out ++ items) /\ Forall2 row_item rows items)
  \/ (exists st before row after, read_rows rows out = (st, []) /\ st_code st = MappingError
       /\ rows = before ++ row :: after /\ (fromRow row blank).1 = st
       /\ exists items, Forall2 row_item before items).
Proof.
  revert out. induction rows as [|row rows IH]; intros out; cbn [read_rows].
  { left. exists []. by rewrite app_nil_r. }
  pose proof (fromRow_mapped mappingFor row blank) as Hm. change (mapping_fromRow mappingFor) with (@fromRow T _) in Hm.
  destruct (fromRow row blank) as [st item] eqn:Er. cbn in Hm. destruct (st_ok st) eqn:Es; cbn [negb].
  - pose proof (mapped_ok _ Hm Es). subst st.
    destruct (IH (out ++ [item])) as [(items & E & F)|(st & before & row' & after & E & Hc & -> & Hr & items & F)];
      rewrite E.
    + left. exists (item :: items). rewrite <- app_assoc. split; [done|]. by constructor.
    + right. exists st, (row :: before), row', after. split_and!; try done. exists (item :: items). by constructor.
  - right. exists st, [], row, rows. split_and!; try done.
    + destruct Hm as [->|Hm]; [done | exact Hm].
    + by rewrite Er.
    + by exists [].
Qed.

(** a result becomes entities all or none: either every row is mapped, in order, or
    the list is empty and the status is the mapping error of the first row that
    could not be mapped. *)
Theorem fromRows_all_or_none rs :
  (exists items, fromRows rs = (StatusOK, items) /\ Forall2 row_item (rs_rows rs) items)
  \/ (exists st before row after, fromRows rs = (st, []) /\ st_code st = MappingError
       /\ rs_rows rs = before ++ row :: after /\ (fromRow row blank).1 = st
       /\ exists items, Forall2 row_item before items).
Proof. exact (read_rows_spec (rs_rows rs) []). Qed.
End Rows.

(** ** SQL and parameters agree *)
Section Sql.
Context {T : Type} `{!RowMapper T}.
Definition quiet_names : Prop := Forall (fun c : Column T => no_backslash (cl_name c) = true) columns.

Lemma holes_identifiers cols d t : Forall (fun c => no_backslash c = true) cols ->
  head_is (ident_quote d) t = false -> holes_of (joinIdentifiers cols d ++ t) = holes_of t.
Proof.
  intros Hc Ht. unfold joinIdentifiers. induction Hc as [|c cols Hc Hcs IH]; [done|].
  destruct cols as [|c' cols]; [by apply holes_name|].
  change (join (lit ", ") (map (fun c => quoteIdent c d) (c :: c' :: cols)))
    with (quoteIdent c d ++ lit ", " ++ join (lit ", ") (map (fun c => quoteIdent c d) (c' :: cols))).
  rewrite <- !app_assoc, holes_name by (done || by destruct d). by rewrite holes_quiet, IH.
Qed.
Lemma holes_assignments cols d t : Forall (fun c => no_backslash c = true) cols ->
  holes_of (buildAssignList cols d ++ t) = length cols + holes_of t.
Proof.
  intros Hc. unfold buildAssignList.
  assert (forall c u, no_backslash c = true -> holes_of ((quoteIdent c d ++ lit " = ?") ++ u) = S (holes_of u)) as H1.
  { intros c u H. rewrite <- app_assoc, holes_name by (done || by destruct d).
    change (lit " = ?" ++ u) with (lit " = " ++ lit "?" ++ u). by rewrite holes_quiet, holes_mark. }
  induction Hc as [|c cols Hc Hcs IH]; [done|]. destruct cols as [|c' cols]; [by apply H1|].
  change (join (lit ", ") (map (fun c => quoteIdent c d ++ lit " = ?") (c :: c' :: cols)))
    with ((quoteIdent c d ++ lit " = ?") ++ lit ", " ++
          join (lit ", ") (map (fun c => quoteIdent c d ++ lit " = ?") (c' :: cols))).
  rewrite <- app_assoc, H1 by done. rewrite <- app_assoc, holes_quiet by done. by rewrite IH.
Qed.
Lemma names_quiet (f : Column T -> bool) : quiet_names ->
  Forall (fun n => no_backslash n = true) (map cl_name (List.filter f columns)).
Proof.
  intros H. apply Forall_forall. intros n Hn. apply list_elem_of_In, in_map_iff in Hn as (c & <- & Hc).
  apply filter_In in Hc as [Hc _]. eapply Forall_forall in H; [exact H | by apply list_elem_of_In].
Qed.

Lemma holes_insert table d t : no_backslash table = true -> quiet_names ->
  holes_of (insertSql table d ++ t) = length (columnNames Writable (mappingFor : Mapping T)) + holes_of t.
Proof.
  intros Ht Hq. unfold insertSql. rewrite <- !app_assoc, holes_quiet by done.
  rewrite holes_name by (done || by destruct d). rewrite holes_quiet by done.
  rewrite holes_identifiers; [|by apply names_quiet | by destruct d]. rewrite holes_quiet by done.
  rewrite (contributes_args (length (columnNames Writable mappingFor)) (lit ")" ++ t)).
  by rewrite holes_quiet.
Qed.
Lemma holes_update table set keys d : no_backslash table = true ->
  Forall (fun c => no_backslash c = true) set -> Forall (fun c => no_backslash c = true) keys ->
  holes_of (update_text table set keys d) = length set + length keys.
Proof.
  intros Ht Hs Hk. unfold update_text. rewrite holes_quiet by done.
  rewrite holes_name by (done || by destruct d). rewrite holes_quiet by done.
  rewrite holes_assignments by done. rewrite holes_quiet by done.
  rewrite <- (app_nil_r (buildAssignList keys d)), holes_assignments by done.
  unfold holes_of. cbn. lia.
Qed.

(** *** A server's reader of the statements

    Names are read by the dialect's quotes, as their parts between dots; [bind_insert]
    and [bind_update] give each name the parameter of its placeholder, in the order of
    the placeholders. *)
Definition after (p s : str) : option str := if prefixb p s then Some (drop (length p) s) else None.
Definition read_name (q : ascii) (s : str) : option (list str * str) := read_path (length s) q s.
Definition read_mark (s : str) : option (unit * str) := r ← after (lit "?") s; Some (tt, r).
Definition read_assignment (q : ascii) (s : str) : option (list str * str) :=
  '(n, s) ← read_name q s; r ← after (lit " = ?") s; Some (n, r).
Fixpoint read_more {A} (item : str -> option (A * str)) (fuel : nat) (s : str) : option (list A * str) :=
  match fuel with
  | 0 => None
  | S fuel =>
      '(x, r) ← item s;
      match after (lit ", ") r with
      | Some r' => '(xs, r2) ← read_more item fuel r'; Some (x :: xs, r2)
      | None => Some ([x], r)
      end
  end.
Definition read_list {A} (item : str -> option (A * str)) (s : str) : option (list A * str) :=
  if head_is ")" s then Some ([], s) else read_more item (length s) s.

Definition bind_insert (q : ascii) (sql : str) (params : Params)
    : option (list str * list (list str * Value) * str) :=
  s ← after (lit "INSERT INTO ") sql; '(table, s) ← read_name q s;
  s ← after (lit " (") s; '(names, s) ← read_list (read_name q) s;
  s ← after (lit ") VALUES (") s; '(marks, s) ← read_list read_mark s; s ← after (lit ")") s;
  if (length marks =? length names) && (length params =? length names)
  then Some (table, combine names params, s) else None.
Definition bind_update (q : ascii) (sql : str) (params : Params)
    : option (list str * list (list str * Value) * list (list str * Value)) :=
  s ← after (lit "UPDATE ") sql; '(table, s) ← read_name q s;
  s ← after (lit " SET ") s; '(set, s) ← read_list (read_assignment q) s;
  s ← after (lit " WHERE ") s; '(keys, s) ← read_list (read_assignment q) s;
  if is_nil s && (length params =? length set + length keys)
  then Some (table, combine set (take (length set) params), combine keys (drop (length set) params)) else None.

Definition parts_of (name : str) : list str := dot_parts name [].
(** A name that is not blank, and in which the library's own scanner of placeholders
    sees no escape. *)
Definition good_name (n : str) : Prop := no_backslash n = true /\ parts_of n <> [].
Definition good_names : Prop := Forall (fun c : Column T => good_name (cl_name c)) columns.

Lemma after_app p s : after p (p ++ s) = Some s.
Proof. unfold after. by rewrite prefixb_app, drop_app_length. Qed.

Lemma dotted_length q parts : length parts <= length (dotted q parts).
Proof.
  induction parts as [|p parts IH]; [cbn; lia|]. destruct parts as [|p2 parts].
  { unfold dotted, quote_part. cbn [map join length]. lia. }
  change (dotted q (p :: p2 :: parts)) with (quote_part q p ++ lit "." ++ dotted q (p2 :: parts)).
  rewrite !length_app. change (length (lit ".")) with 1. cbn [length] in *. lia.
Qed.
Lemma read_name_quoted d n t : parts_of n <> [] -> head_is (ident_quote d) t = false -> head_is "." t = false ->
  read_name (ident_quote d) (quoteIdent n d ++ t) = Some (parts_of n, t).
Proof.
  intros Hn Hq Hd. unfold read_name. rewrite quoteIdent_dotted. apply read_dotted; try done; [apply ident_quotes|].
  rewrite length_app. apply Nat.le_trans with (2 := Nat.le_add_r _ _). apply dotted_length.
Qed.
Lemma read_assignment_quoted d n t : parts_of n <> [] ->
  read_assignment (ident_quote d) ((quoteIdent n d ++ lit " = ?") ++ t) = Some (parts_of n, t).
Proof.
  intros Hn. unfold read_assignment. rewrite <- app_assoc, read_name_quoted by (done || by destruct d). cbn [mbind option_bind].
  by rewrite after_app.
Qed.

(** Lists of items, read one by one. *)
Lemma read_more_join {A B} (item : str -> option (B * str)) (pr : A -> str) (v : A -> B) (l : list A) t fuel :
  (forall x u, x ∈ l -> (u = t \/ exists u', u = lit ", " ++ u') -> item (pr x ++ u) = Some (v x, u)) ->
  l <> [] -> after (lit ", ") t = None -> length l <= fuel ->
  read_more item fuel (join (lit ", ") (map pr l) ++ t) = Some (map v l, t).
Proof.
  intros Hi Hl Ht. revert fuel. induction l as [|x l IH]; intros fuel Hf; [done|].
  destruct fuel as [|fuel]; [cbn in Hf; lia|]. cbn [read_more]. destruct l as [|y l].
  - cbn [map join]. rewrite Hi by by left. cbn [mbind option_bind]. by rewrite Ht.
  - change (join (lit ", ") (map pr (x :: y :: l))) with (pr x ++ lit ", " ++ join (lit ", ") (map pr (y :: l))).
    rewrite <- !app_assoc, Hi; [|left | right; eauto]. cbn [mbind option_bind]. rewrite after_app.
    rewrite IH; [done | | done | cbn in *; lia]. intros z u Hz. apply Hi. by right.
Qed.
Lemma read_list_join {A B} (item : str -> option (B * str)) (pr : A -> str) (v : A -> B) (l : list A) t :
  (forall x u, x ∈ l -> (u = t \/ exists u', u = lit ", " ++ u') -> item (pr x ++ u) = Some (v x, u)) ->
  (forall x, x ∈ l -> pr x <> [] /\ head_is ")" (pr x) = false) ->
  (l = [] -> head_is ")" t = true) -> after (lit ", ") t = None ->
  read_list item (join (lit ", ") (map pr l) ++ t) = Some (map v l, t).
Proof.
  intros Hi Hp H0 Ht. unfold read_list. destruct l as [|x l]; [cbn [map join app]; by rewrite H0|].
  assert (length (x :: l) <= length (join (lit ", ") (map pr (x :: l)))) as Hlen.
  { clear -Hp. revert x Hp. induction l as [|y l IH]; intros x Hp.
    - destruct (Hp x ltac:(left)) as [H _]. cbn. destruct (pr x); [done | cbn; lia].
    - change (join (lit ", ") (map pr (x :: y :: l))) with (pr x ++ lit ", " ++ join (lit ", ") (map pr (y :: l))).
      rewrite !length_app. specialize (IH y (fun z Hz => Hp z ltac:(by right))).
      cbn [lit String.list_ascii_of_string length] in *. lia. }
  destruct (Hp x ltac:(left)) as [H1 H2].
  assert (head_is ")" (join (lit ", ") (map pr (x :: l)) ++ t) = false) as ->.
  { destruct l as [|y l]; cbn [map join]; destruct (pr x); done. }
  apply read_more_join; try done. rewrite length_app. lia.
Qed.

Lemma quoted_head n d : parts_of n <> [] -> quoteIdent n d <> [] /\ head_is ")" (quoteIdent n d) = false.
Proof.
  intros H. rewrite quoteIdent_dotted. unfold parts_of in H. destruct (dot_parts n []) as [|p [|p2 ps]]; [done|..];
    by destruct d.
Qed.
Lemma read_names d names t : Forall good_name names ->
  head_is (ident_quote d) t = false -> head_is "." t = false -> head_is ")" t = true ->
  read_list (read_name (ident_quote d)) (joinIdentifiers names d ++ t) = Some (map parts_of names, t).
Proof.
  intros Hn Hq Hd Ht. unfold joinIdentifiers. rewrite Forall_forall in Hn. apply read_list_join; [| |done|].
  - intros n u Hi [->|[u' ->]]; apply read_name_quoted; (done || by apply Hn || by destruct d).
  - intros n Hi. by apply quoted_head, Hn.
  - destruct t as [|c t]; [done|]. cbn in Ht. apply ch_eq in Ht as ->. done.
Qed.
Lemma read_marks n t : head_is ")" t = true ->
  read_list read_mark (mapping_placeholders n ++ t) = Some (replicate n tt, t).
Proof.
  intros Ht. unfold mapping_placeholders.
  replace (replicate n (lit "?")) with (map (fun _ : unit => lit "?") (replicate n tt))
    by exact (fmap_replicate (fun _ : unit => lit "?") n tt).
  rewrite (read_list_join read_mark (fun _ => lit "?") (fun _ => tt)).
  - do 2 f_equal. exact (fmap_replicate (fun _ : unit => tt) n tt).
  - intros [] u _ _. unfold read_mark. by rewrite after_app.
  - done.
  - done.
  - destruct t as [|c t]; [done|]. cbn in Ht. apply ch_eq in Ht as ->. done.
Qed.
Lemma read_assignments d names t : Forall good_name names -> names <> [] -> after (lit ", ") t = None ->
  read_list (read_assignment (ident_quote d)) (buildAssignList names d ++ t) = Some (map parts_of names, t).
Proof.
  intros Hn Hne Ht. unfold buildAssignList. rewrite Forall_forall in Hn. apply read_list_join; [| |done|done].
  - intros n u Hi _. by apply read_assignment_quoted, Hn.
  - intros n Hi. destruct (quoted_head n d) as [H1 H2]; [by apply Hn|].
    split; [by destruct (quoteIdent n d) | by destruct (quoteIdent n d)].
Qed.

Lemma combine_columns (cols : list (Column T)) (e : T) :
  combine (map parts_of (map cl_name cols)) (map (fun c => cl_write c e) cols)
  = map (fun c => (parts_of (cl_name c), cl_write c e)) cols.
Proof. induction cols as [|c cols IH]; cbn; [done | by rewrite IH]. Qed.

Lemma good_selected (f : Column T -> bool) : good_names -> Forall good_name (map cl_name (List.filter f columns)).
Proof.
  intros H. apply Forall_forall. intros n Hn. apply list_elem_of_In, in_map_iff in Hn as (c & <- & Hc).
  apply filter_In in Hc as [Hc _]. eapply Forall_forall in H; [exact H | by apply list_elem_of_In].
Qed.
Lemma good_quiet : good_names -> quiet_names.
Proof. intros H. eapply Forall_impl; [exact H|]. by intros c []. Qed.

Lemma insert_binds table d t (e : T) : good_name table -> good_names ->
  bind_insert (ident_quote d) (insertSql table d ++ t) (paramsOf Writable e)
  = Some (parts_of table,
          map (fun c => (parts_of (cl_name c), cl_write c e)) (List.filter writable columns), t).
Proof.
  intros [_ Ht] Hn. unfold bind_insert, insertSql. rewrite <- !app_assoc, after_app. cbn [mbind option_bind].
  rewrite read_name_quoted by (done || by destruct d). cbn [mbind option_bind]. rewrite after_app. cbn [mbind option_bind].
  rewrite read_names; [|by apply good_selected | by destruct d | done | done]. cbn [mbind option_bind].
  rewrite after_app. cbn [mbind option_bind]. rewrite read_marks by done. cbn [mbind option_bind].
  rewrite after_app. cbn [mbind option_bind]. unfold columnNames, paramsOf.
  fold (columns (T := T)). rewrite length_replicate, !length_map, Nat.eqb_refl. cbn [andb]. by rewrite combine_columns.
Qed.
Lemma update_binds table set keys d (ps ks : Params) :
  good_name table -> Forall good_name set -> Forall good_name keys -> set <> [] -> keys <> [] ->
  length ps = length set -> length ks = length keys ->
  bind_update (ident_quote d) (update_text table set keys d) (ps ++ ks)
  = Some (parts_of table, combine (map parts_of set) ps, combine (map parts_of keys) ks).
Proof.
  intros [_ Ht] Hs Hk Hse Hke Lp Lk. unfold bind_update, update_text. rewrite after_app. cbn [mbind option_bind].
  rewrite read_name_quoted by (done || by destruct d). cbn [mbind option_bind]. rewrite after_app. cbn [mbind option_bind].
  rewrite read_assignments by done. cbn [mbind option_bind]. rewrite after_app. cbn [mbind option_bind].
  rewrite <- (app_nil_r (buildAssignList keys d)), read_assignments by done. cbn [mbind option_bind].
  rewrite !length_map, length_app, Lp, Lk, Nat.eqb_refl. cbn [is_nil andb].
  by rewrite <- Lp, take_app_length, drop_app_length.
Qed.

Lemma existsb_negb {A} (f : A -> bool) l : existsb (fun x => negb (f x)) l = negb (forallb f l).
Proof. induction l as [|x l IH]; [done|]. cbn. rewrite IH. by destruct (f x). Qed.
Lemma declared_good names : good_names -> forallb (fun n => isDeclaredByName n (mappingFor : Mapping T)) names = true ->
  Forall good_name names.
Proof.
  intros Hn H. rewrite forallb_forall in H. apply Forall_forall. intros n Hi%list_elem_of_In%H.
  apply existsb_exists in Hi as (c & Hc & E). apply str_eqb_eq in E as <-.
  eapply Forall_forall in Hn; [exact Hn | by apply list_elem_of_In].
Qed.

(** The RETURNING clauses take no parameter of the statement. *)
Lemma quote_join_quiet names t : Forall (fun n => no_backslash n = true) names ->
  head_is Types.dquote t = false -> holes_of (join comma_sep (map quoteIdentifier names) ++ t) = holes_of t.
Proof.
  intros Hn Ht. induction Hn as [|n names Hn Hns IH]; [done|]. destruct names as [|m names].
  - cbn [map join]. by apply (holes_quote_part Types.dquote n); [by right|..].
  - change (join comma_sep (map quoteIdentifier (n :: m :: names)))
      with (quote_part Types.dquote n ++ comma_sep ++ join comma_sep (map quoteIdentifier (m :: names))).
    rewrite <- !app_assoc, holes_quote_part by (done || by right). by rewrite holes_quiet.
Qed.
Lemma binds_quiet first l : forallb quiet (join comma_sep (map (fun i => ":"%char :: dec_nat (first + i)) l)) = true.
Proof.
  induction l as [|i [|j l] IH]; [done|..].
  - cbn [map join forallb]. by rewrite dec_quiet.
  - change (join comma_sep (map (fun i => ":"%char :: dec_nat (first + i)) (i :: j :: l)))
      with ((":"%char :: dec_nat (first + i)) ++ comma_sep
            ++ join comma_sep (map (fun i => ":"%char :: dec_nat (first + i)) (j :: l))).
    rewrite !quiet_app, IH. cbn [forallb]. by rewrite dec_quiet.
Qed.
Lemma returning_tail table d : d <> DSqlServer \/ generated_names = [] -> quiet_names ->
  exists t, insertSqlReturning table d = insertSql table d ++ t /\ holes_of t = 0.
Proof.
  intros Hd Hq. unfold insertSqlReturning. destruct (is_nil generated_names) eqn:Eg.
  { exists []. by rewrite app_nil_r. }
  destruct Hd as [Hd|Hd]; [|by rewrite Hd in Eg].
  assert (forall t', exists t, insertSql table d ++ t' = insertSql table d ++ t /\ holes_of t = holes_of t') as He by eauto.
  destruct d; try done; try (exists []; by rewrite app_nil_r).
  - eexists. split; [done|]. rewrite holes_quiet by done. rewrite <- (app_nil_r (joinIdentifiers _ _)).
    by rewrite holes_identifiers; [|by apply names_quiet | done].
  - eexists. split; [done|]. unfold oracleMakeReturningSuffix. rewrite Eg.
    rewrite holes_quiet, quote_join_quiet by (done || by apply names_quiet). rewrite holes_quiet by done.
    rewrite <- (app_nil_r (join _ _)), holes_quiet by apply binds_quiet. done.
Qed.

(** C18: the statements of an entity and its parameters agree, column by column. For a
    mapping and a table whose names are not blank and hold no backslash, and as a server
    reads the texts: an insert gives every writable column, in the order of the
    mapping, its own value of the entity, and so does one with the RETURNING clause of
    PostgreSQL or Oracle (SQL Server's OUTPUT clause apart); an update is made only
    when the mapping has a key and something to set, and then sets every other writable
    column to its value where every column of the key has its value; and the update of
    given columns is made only for two lists of declared columns, neither empty,
    and reads as these. Each has as many placeholders, as the library counts them, as
    parameters. *)
Theorem sql_matches_params table d (e : T) (Ht : good_name table) (Hn : good_names) :
  let given cols := map (fun c => (parts_of (cl_name c), cl_write c e)) cols in
  (holes_of (insertSql table d) = length (paramsOf Writable e)
   /\ bind_insert (ident_quote d) (insertSql table d) (paramsOf Writable e)
      = Some (parts_of table, given (List.filter writable columns), []))
  /\ (d <> DSqlServer \/ generated_names = [] -> exists rest,
      holes_of (insertSqlReturning table d) = length (paramsOf Writable e)
      /\ bind_insert (ident_quote d) (insertSqlReturning table d) (paramsOf Writable e)
         = Some (parts_of table, given (List.filter writable columns), rest))
  /\ (if is_nil key_columns || is_nil set_columns then updateSql table d = [] else
      holes_of (updateSql table d) = length (updateParamsOf e)
      /\ bind_update (ident_quote d) (updateSql table d) (updateParamsOf e)
         = Some (parts_of table, given set_columns, given key_columns))
  /\ (forall set keys ps ks, length ps = length set -> length ks = length keys ->
      if is_nil set || is_nil keys || negb (forallb (fun n => isDeclaredByName n mappingFor) (set ++ keys))
      then updateSql_of table set keys d = [] else
      holes_of (updateSql_of table set keys d) = length (ps ++ ks)
      /\ bind_update (ident_quote d) (updateSql_of table set keys d) (ps ++ ks)
         = Some (parts_of table, combine (map parts_of set) ps, combine (map parts_of keys) ks)).
Proof.
  intros given. pose proof (good_quiet Hn) as Hq. pose proof (proj1 Ht) as Hb.
  assert (length (paramsOf Writable e) = length (columnNames Writable mappingFor)) as El
    by (unfold paramsOf, columnNames; by rewrite !length_map).
  split; [|split; [|split]].
  - rewrite <- (app_nil_r (insertSql table d)), insert_binds by done. split; [|done].
    rewrite holes_insert by done. change (holes_of []) with 0. lia.
  - intros Hd. destruct (returning_tail table d Hd Hq) as (t & -> & H0). exists t.
    rewrite insert_binds, holes_insert by done. split; [lia | done].
  - unfold updateSql. destruct (is_nil key_columns) eqn:Ek; [done|].
    destruct (is_nil set_columns) eqn:Es; [done|]. cbn [orb].
    rewrite holes_update; [|done|by apply names_quiet|by apply names_quiet].
    unfold updateParamsOf. rewrite update_binds; rewrite ?length_map; try done;
      [|by apply good_selected | by apply good_selected | by destruct set_columns | by destruct key_columns].
    rewrite !combine_columns, length_app, !length_map. done.
  - intros set keys ps ks Lp Lk. unfold updateSql_of. destruct (is_nil set) eqn:Es; [done|].
    destruct (is_nil keys) eqn:Ek; [done|]. cbn [orb].
    rewrite existsb_negb. destruct (forallb _ _) eqn:Ed; [|done]. cbn [negb].
    apply declared_good in Ed; [|done]. apply Forall_app in Ed as [Hs Hk].
    rewrite holes_update; [|done | eapply Forall_impl; [exact Hs|]; by intros n [] | eapply Forall_impl; [exact Hk|]; by intros n []].
    rewrite update_binds; try done; [by rewrite length_app, Lp, Lk | by destruct set | by destruct keys].
Qed.
End Sql.

(** ** An entity *)
Record User := mkUser {
  us_id : CInt int64;
  us_name : Text;
  us_age : option (CInt uint8);
  us_tags : list Text;
}.
Definition user_id : Member User (CInt int64) :=
  mkMember us_id (fun x u => mkUser x (us_name u) (us_age u) (us_tags u)).
Definition user_name : Member User Text :=
  mkMember us_name (fun x u => mkUser (us_id u) x (us_age u) (us_tags u)).
Definition user_age : Member User (option (CInt uint8)) :=
  mkMember us_age (fun x u => mkUser (us_id u) (us_name u) x (us_tags u)).
Definition user_tags : Member User (list Text) :=
  mkMember us_tags (fun x u => mkUser (us_id u) (us_name u) (us_age u) x).
#[local] Instance demo_users_platform : Platform := demo_platform 0.
Definition users : Mapping User :=
  field user_tags (lit "tags") FNone (field user_age (lit "age") FNone (field user_name (lit "full name") FNone
    (field user_id (lit "id") (flags_or FPrimaryKey FGenerated) no_mapping))).
#[local] Instance user_mapper : RowMapper User := { describe := users; blank := mkUser (mkCInt 0) (mkText []) None [] }.
Definition ada : User := mkUser (mkCInt 7) (mkText (lit "Ada")) (Some (mkCInt 36)) [mkText (lit "x"); mkText (lit "y")].

Lemma users_lawful : lawful_mapping users.
Proof.
  split.
  - apply NoDup_ListNoDup. repeat (constructor; [cbn; intuition congruence|]). constructor.
  - cbn. repeat (apply FOP_cons; [repeat (apply List.Forall_cons; [apply field_apart; by split|]); apply List.Forall_nil|]). apply FOP_nil.
Qed.
Lemma ada_storable : Forall (column_reads ada) (mp_columns users).
Proof.
  cbn. repeat (constructor; [apply field_reads; [by split|]|]); [| | | |constructor].
  - split; [unfold machine_int | unfold int_in]; cbn; lia.
  - exact I.
  - split; [unfold machine_int | unfold int_in]; cbn; lia.
  - cbn. repeat constructor.
Qed.
Lemma entity_roundtrip_witness : lawful_mapping users /\ Forall (column_reads ada) (mp_columns users) /\
  (mapping_fromRow users (row_of users ada) blank).1 = StatusOK /\
  (mapping_fromRow users (row_of users ada) blank).2 = ada.
Proof.
  split; [exact users_lawful|]. split; [exact ada_storable|]. split.
  - apply (entity_roundtrip users ada blank users_lawful ada_storable).
  - vm_compute. reflexivity.
Defined.
Lemma sql_matches_params_witness :
  good_name (lit "app.users") /\ good_names (T := User) /\
  holes_of (insertSql (T := User) (lit "app.users") DPostgres) = 3 /\
  bind_insert Types.dquote (insertSql (T := User) (lit "app.users") DPostgres) (paramsOf Writable ada)
  = Some ([lit "app"; lit "users"],
          [([lit "full name"], VString (lit "Ada")); ([lit "age"], toValue (us_age ada)); ([lit "tags"], toValue (us_tags ada))], []) /\
  updateSql (T := User) (lit "users") DMySQL =
    lit "UPDATE `users` SET `full name` = ?, `age` = ?, `tags` = ? WHERE `id` = ?".
Proof.
  assert (good_names (T := User)) as H by (unfold good_names; cbn; repeat constructor; done).
  assert (good_name (lit "app.users")) as Ht by (split; done).
  split; [exact Ht|]. split; [exact H|].
  destruct (sql_matches_params (lit "app.users") DPostgres ada Ht H) as ((H1 & H2) & _).
  split; [rewrite H1; vm_compute; reflexivity|]. split; [|vm_compute; reflexivity].
  etransitivity; [exact H2|]. vm_compute. reflexivity.
Defined.

(** ** Findings *)

(** On SQL Server the OUTPUT clause goes before the first [ VALUES] of the text, also
    when that is part of a quoted name, and the names in the clause are not quoted. *)
Theorem output_clause_inside_name :
  insertSqlReturning (T := User) (lit "old VALUES") DSqlServer
  = lit "INSERT INTO " ++ [Types.dquote] ++ lit "old OUTPUT INSERTED.id VALUES" ++ [Types.dquote] ++ lit " (" ++ [Types.dquote]
    ++ lit "full name" ++ [Types.dquote] ++ lit ", " ++ [Types.dquote] ++ lit "age" ++ [Types.dquote] ++ lit ", " ++ [Types.dquote]
    ++ lit "tags" ++ [Types.dquote] ++ lit ") VALUES (?, ?, ?)".
Proof. vm_compute. reflexivity. Qed.

(** A generated key that does not fit its member is refused after the row was
    inserted; one taken from [lastInsertId] that does not fit is dropped silently. *)
Theorem unfitting_key :
  let small := field (mkMember (fun x : CInt uint8 => x) (fun x _ => x)) (lit "id") FGenerated no_mapping in
  let m := Build_RowMapper _ small (mkCInt 0) in
  let keys name := mkKeys (mkResultSet [lit name] [[(lit name, VInt64 300)]] false) in
  st_ok (@applyGeneratedKeys _ m (keys "id") (mkCInt 0)).1 = false
  /\ @applyGeneratedKeys _ m (keys "GENERATED_KEY") (mkCInt 0) = (StatusOK, mkCInt 0).
Proof. split; vm_compute; reflexivity. Qed.
