(* ===== verification/Entities.v ===== *)
(** * Entities over a client or a session (include/sqlconduit/mapping.h)

    The second half of the header: queries whose rows become entities, streams of
    entities, cursors, and the inserts and updates of entities. The client and the
    session they call are the class [EntityOps]; a lambda that captures locals runs on
    the state beside them. *)
From stdpp Require Import base list strings.
From Stdlib Require Import Ascii ZArith Lia.
From S2P Require Import Prelude Types SqlAnalyze Connection Routines Converters Mapping.

#[local] Open Scope nat_scope.

(** Whom a call goes to: the client's default source, one of its sources, a session. *)
Inductive Target := OnClient | OnSource (dataSource : str) | OnSession.

Class EntityOps (S : Type) := {
  en_query : Target -> str -> option Params -> ST S (Status * ResultSet);
  en_each : forall L, Target -> str -> Params -> (Row -> ST (S * L) bool) -> ST (S * L) (Status * Z);
  en_execute : Target -> str -> Params -> ST S (Status * Z);
  en_execute_keys : str -> Params -> ST S (Status * (Z * GeneratedKeys));
  en_batch : Target -> str -> list Params -> ST S (Status * BatchResult);
  (** [client.withSession] of a lambda *)
  en_withSession : forall L, ST (S * L) Status -> ST (S * L) Status;
  en_session_type : S -> str;
  en_client_type : S -> option str;
}.

Record EntityResult (T : Type) := mkEntities { er_status : Status; er_items : list T }.
Record EntityOne (T : Type) := mkOne { eo_status : Status; eo_value : option T }.
Record WriteResult := mkWrite { wr_status : Status; wr_affected : Z; wr_keys : GeneratedKeys }.
Record BatchWriteResult := mkBatchWrite { bw_status : Status; bw_batch : BatchResult }.
Arguments mkEntities {T} _ _.
Arguments er_status {T} _.
Arguments er_items {T} _.
Arguments mkOne {T} _ _.
Arguments eo_status {T} _.
Arguments eo_value {T} _.

Section Operations.
Context {S T : Type} `{!EntityOps S} `{!RowMapper T}.
Local Open Scope st_scope.

Definition dialectOf (s : S) : Dialect := dialectFromDriverType (en_session_type s).
Definition defaultDialect (s : S) : Dialect :=
  match en_client_type s with Some t => dialectFromDriverType t | None => DAuto end.
Definition dialect_for (target : Target) (s : S) : Dialect :=
  match target with OnSession => dialectOf s | _ => defaultDialect s end.

(** [if (r.status.ok()) r.status = mapping::fromRows<T>(rs, r.items);] *)
Definition entities_of (r : Status * ResultSet) : EntityResult T :=
  if st_ok r.1 then let '(st, items) := fromRows r.2 in mkEntities st items else mkEntities r.1 [].
Definition queryAs (target : Target) (sql : str) (params : option Params) : ST S (EntityResult T) :=
  r <-- en_query target sql params; ret (entities_of r).

Definition too_many_rows (n : nat) : Status :=
  mapError (lit "queryOneAs: expected at most 1 row, got " ++ dec_nat n).
Definition queryOneAsImpl (r : EntityResult T) : EntityOne T :=
  if negb (st_ok (er_status r)) then mkOne (er_status r) None
  else if 1 <? length (er_items r) then mkOne (too_many_rows (length (er_items r))) None
  else mkOne (er_status r) (head (er_items r)).
Definition queryOneAs (target : Target) (sql : str) (params : option Params) : ST S (EntityOne T) :=
  r <-- queryAs target sql params; ret (queryOneAsImpl r).

(** The lambda of a stream: [counted] and [mapErr] beside the state. *)
Definition each_row (cb : T -> ST S bool) (row : Row) : ST (S * (Z * Status)) bool :=
  fun '(s, (counted, mapErr)) =>
    let '(st, item) := fromRow row blank in
    if negb (st_ok st) then (false, (s, (counted, st)))
    else let '(go, s') := cb item s in (go, (s', (u64 (counted + 1), mapErr))).
Definition queryEachAs (target : Target) (sql : str) (params : Params) (cb : T -> ST S bool)
    : ST S (Status * Z) :=
  fun s =>
    let '((st, _), (s', (counted, mapErr))) :=
      en_each (Z * Status) target sql params (each_row cb) (s, (0%Z, StatusOK)) in
    ((if st_ok st && negb (st_ok mapErr) then mapErr else st, counted), s').

Definition fetchAs (fetch : ST S (Status * ResultSet)) : ST S (EntityResult T) :=
  r <-- fetch; ret (entities_of r).
Definition keysAs (keys : GeneratedKeys) : EntityResult T :=
  let '(st, items) := fromRows (key_rows keys) in mkEntities st items.

(** ** Writes: the result and the entity after the call *)
Definition with_keys (r : Status * (Z * GeneratedKeys)) (e : T) : WriteResult * T :=
  let '(st, (affected, keys)) := r in
  if st_ok st then let '(st', e') := applyGeneratedKeys keys e in (mkWrite st' affected keys, e')
  else (mkWrite st affected keys, e).
Definition insert_in_session (table : str) (e : T) : ST S (Status * (Z * GeneratedKeys)) :=
  fun s => en_execute_keys (insertSqlReturning (T := T) table (dialectOf s)) (paramsOf Writable e) s.
Definition insertAs_session (table : str) (e : T) : ST S (WriteResult * T) :=
  r <-- insert_in_session table e; ret (with_keys r e).
(** The statement runs in a session of its own; the lambda writes [r.affected] and [r.keys]. *)
Definition insertAs_client (table : str) (e : T) : ST S (WriteResult * T) :=
  fun s =>
    let '(st, (s', out)) :=
      en_withSession (Z * GeneratedKeys)
        (fun '(s, _) => let '((st, out), s') := insert_in_session table e s in (st, (s', out)))
        (s, (0%Z, keys_empty)) in
    (with_keys (st, out) e, s').

Definition no_update : Status :=
  mapError (lit ("updateAs: entity has no PrimaryKey field or no updatable fields; " ++ "refusing to generate UPDATE")).
Definition updateAs (target : Target) (table : str) (e : T) : ST S WriteResult :=
  fun s =>
    let sql := updateSql (T := T) table (dialect_for target s) in
    if is_nil sql then (mkWrite no_update 0 keys_empty, s)
    else let '((st, affected), s') := en_execute target sql (updateParamsOf e) s in
         (mkWrite st affected keys_empty, s').

Definition insertBatchAs_const (target : Target) (table : str) (entities : list T) : ST S BatchWriteResult :=
  fun s =>
    let '((st, batch), s') :=
      en_batch target (insertSql (T := T) table (dialect_for target s)) (batchOf Writable entities) s in
    (mkBatchWrite st batch, s').
Definition insertBatchAs (target : Target) (table : str) (entities : list T)
    : ST S (BatchWriteResult * list T) :=
  fun s =>
    let '((st, batch), s') :=
      en_batch target (insertSqlReturning (T := T) table (dialect_for target s)) (batchOf Writable entities) s in
    if st_ok st then
      let '(st', entities') := applyBatchKeys batch entities in ((mkBatchWrite st' batch, entities'), s')
    else ((mkBatchWrite st batch, entities), s').

(** ** Streams of entities *)

(** Rows given to a callback until it says no. *)
Fixpoint feed {L} (f : Row -> ST L bool) (rows : list Row) (s : L) : L :=
  match rows with
  | [] => s
  | row :: rows' => let '(go, s') := f row s in if go : bool then feed f rows' s' else s'
  end.
(** Entities given to a callback until it says no: how many were given, and whether
    it would take another. *)
Fixpoint feed_items (cb : T -> ST S bool) (items : list T) (s : S) : (nat * bool) * S :=
  match items with
  | [] => ((0, true), s)
  | item :: items' =>
      let '(go, s') := cb item s in
      if go : bool then let '((n, more), s'') := feed_items cb items' s' in ((Datatypes.S n, more), s'')
      else ((1, false), s')
  end.

Lemma feed_items_le cb items s : (feed_items cb items s).1.1 <= length items.
Proof.
  revert s. induction items as [|item items IH]; intros s; cbn; [done|].
  destruct (cb item s) as [[] s']; cbn; [|lia]. specialize (IH s').
  destruct (feed_items cb items s') as [[n more] s'']. cbn in *. lia.
Qed.

(** Rows that map, and what follows them. *)
Lemma feed_mapped cb before after items s counted err :
  Forall2 row_item before items -> (0 <= counted)%Z -> (counted + Z.of_nat (length items) < two64)%Z ->
  feed (each_row cb) (before ++ after) (s, (counted, err)) =
    let '((n, more), s') := feed_items cb items s in
    let l := (s', ((counted + Z.of_nat n)%Z, err)) in
    if more then feed (each_row cb) after l else l.
Proof.
  intros H. revert s counted. induction H as [|row item rows items Hr H IH]; intros s counted H0 Hc.
  { cbn. by rewrite Z.add_0_r. }
  cbn [app feed feed_items]. unfold each_row at 1. rewrite Hr. change (st_ok StatusOK) with true. cbn [negb].
  cbn [length] in Hc. assert (u64 (counted + 1) = counted + 1)%Z as Eu by (apply Z.mod_small; lia).
  destruct (cb item s) as [go s'] eqn:Ec. rewrite Eu. destruct go; [|done].
  rewrite IH by lia. destruct (feed_items cb items s') as [[n more] s''].
  replace (counted + Z.of_nat (Datatypes.S n))%Z with (counted + 1 + Z.of_nat n)%Z by lia. done.
Qed.

(** C20: a stream of entities: over rows the driver delivers, the callback is given the
    entities of the rows before the first that cannot be mapped, until it says no;
    the count is of those, and a mapping error is reported unless the callback
    stopped before it or the driver failed. *)
Theorem queryEachAs_delivers target sql params cb s rows st n before items rest bad
    (Hdriver : en_each (Z * Status) target sql params (each_row cb) (s, (0%Z, StatusOK))
       = ((st, n), feed (each_row cb) rows (s, (0%Z, StatusOK))))
    (Hrows : rows = before ++ rest) (Hitems : Forall2 row_item before items)
    (Hbad : bad = match rest with [] => StatusOK | row :: _ => (fromRow row (blank (T := T))).1 end)
    (Hrest : rest = [] \/ st_ok bad = false) (Hlong : (Z.of_nat (length items) < two64)%Z) :
  queryEachAs target sql params cb s =
    let '((given, more), s') := feed_items cb items s in
    ((if more && st_ok st && negb (st_ok bad) then bad else st, Z.of_nat given), s').
Proof.
  unfold queryEachAs. rewrite Hdriver, Hrows, (feed_mapped cb before rest items) by (done || lia).
  destruct (feed_items cb items s) as [[given more] s'] eqn:Ef. cbn zeta. rewrite Z.add_0_l. destruct more.
  - destruct rest as [|row rest].
    + subst bad. cbn [feed]. change (st_ok StatusOK) with true. by rewrite !andb_false_r.
    + destruct Hrest as [|Hb]; [done|]. subst bad. cbn [feed]. unfold each_row at 1.
      destruct (fromRow row blank) as [e item]. cbn [fst] in Hb. rewrite Hb. cbn. by rewrite Hb.
  - change (st_ok StatusOK) with true. cbn. by rewrite andb_false_r.
Qed.

(** a query for one entity gives one exactly when the query succeeded, all its
    rows could be mapped and there was one row; more than one is an error and no
    entity, none is success and no entity. *)
Theorem queryOneAs_spec target sql params s :
  let '((st, rs), s') := en_query target sql params s in
  let r := queryOneAs target sql params s in
  r.2 = s' /\
  (eo_value r.1 <> None <->
     st_ok st = true /\ exists row item, rs_rows rs = [row] /\ row_item row item /\ eo_value r.1 = Some item)
  /\ (st_ok (eo_status r.1) = true -> st_ok st = true /\ length (rs_rows rs) <= 1)
  /\ (st_ok st = false -> eo_status r.1 = st).
Proof.
  destruct (en_query target sql params s) as [[st rs] s'] eqn:E. cbn zeta. unfold queryOneAs, queryAs, bind, ret.
  rewrite E. cbn [fst snd]. unfold entities_of. cbn [fst snd].
  destruct (st_ok st) eqn:Es.
  - destruct (read_rows_spec (T := T) (rs_rows rs) []) as [(items & Er & F)|(e & b & row & a & Er & Hc & _)];
      unfold fromRows; rewrite Er; unfold queryOneAsImpl; cbn [er_status er_items].
    + change (st_ok StatusOK) with true. cbn [negb app]. pose proof (Forall2_length _ _ _ F) as El.
      destruct (Nat.ltb_spec 1 (length items)); cbn [eo_value eo_status].
      * split; [done|]. split; [|done]. split; [done|]. intros (_ & row & item & Hr & _).
        rewrite Hr in El. cbn in El. lia.
      * split; [done|]. split; [|split; [|done]].
        -- destruct F as [|row item rows items Hri F]; [split; [done|]; intros (_ & row & item & Hr & _); done|].
           destruct F; [|cbn in H; lia]. split; [|done]. intros _. split; [done|]. by exists row, item.
        -- intros _. split; [done | lia].
    + assert (st_ok e = false) as He by (unfold st_ok, code_eqb; by rewrite Hc). rewrite He. cbn.
      split; [done|]. split; [|split; [|done]].
      * split; [done|]. intros (_ & r' & i' & _ & _ & H). done.
      * intros H. by rewrite He in H.
  - unfold queryOneAsImpl. cbn [er_status]. rewrite Es. cbn. split; [done|].
    split; [split; [done|by intros [? _]]|]. split; [|done]. intros H. by rewrite Es in H.
Qed.
End Operations.

(** ** A client that delivers the rows it holds *)
Record DemoClient := mkDemoClient { dm_rows : list Row; dm_seen : list str }.
#[local] Instance demo_client : EntityOps DemoClient := {
  en_query _ _ _ := fun s => ((StatusOK, mkResultSet [] (dm_rows s) false), s);
  en_each L _ _ _ f := fun '(s, l) => ((StatusOK, 0%Z), feed f (dm_rows s) (s, l));
  en_execute _ _ _ := ret (StatusOK, 0%Z);
  en_execute_keys _ _ := ret (StatusOK, (1%Z, mkKeys (mkResultSet [lit "id"] [[(lit "id", VInt64 42)]] false)));
  en_batch _ _ _ := ret (StatusOK, batch_empty);
  en_withSession L f := f;
  en_session_type _ := lit "postgres";
  en_client_type _ := Some (lit "postgres");
}.
#[local] Instance demo_entities_platform : Platform := demo_platform 0.
#[local] Instance flag_mapper : RowMapper (bool * Text) := {
  describe := field (mkMember snd (fun x e => (e.1, x))) (lit "name") FNone
    (field (mkMember fst (fun x e => (x, e.2))) (lit "on") FNone no_mapping);
  blank := (false, mkText []) }.
Definition demo_row (b : Value) (name : string) : Row := [(lit "name", VString (lit name)); (lit "on", b)].
Definition note_name (e : bool * Text) : ST DemoClient bool :=
  fun s => (true, mkDemoClient (dm_rows s) (dm_seen s ++ [tx_val e.2])).
Definition demo_good : list Row := [demo_row (VBool true) "a"; demo_row (VBool false) "b"].
Definition demo_bad : list Row := [demo_row (VInt64 1) "c"; demo_row (VBool true) "d"].
Definition demo_state : DemoClient := mkDemoClient (demo_good ++ demo_bad) [].

Lemma queryEachAs_delivers_witness :
  queryEachAs (T := bool * Text) OnClient (lit "SELECT") [] note_name demo_state =
    ((mapError (lit "column 'on': cannot convert int64 to bool"), 2%Z),
     mkDemoClient (demo_good ++ demo_bad) [lit "a"; lit "b"]).
Proof.
  etransitivity.
  - apply (queryEachAs_delivers (T := bool * Text) OnClient (lit "SELECT") [] note_name demo_state
      (demo_good ++ demo_bad) StatusOK 0%Z demo_good [(true, mkText (lit "a")); (false, mkText (lit "b"))] demo_bad
      (mapError (lit "column 'on': cannot convert int64 to bool"))).
    + reflexivity.
    + reflexivity.
    + repeat (constructor; [reflexivity|]). constructor.
    + vm_compute. reflexivity.
    + right. reflexivity.
    + reflexivity.
  - vm_compute. reflexivity.
Defined.
Lemma queryOneAs_spec_witness :
  (queryOneAs (T := bool * Text) OnClient (lit "SELECT") None (mkDemoClient [demo_row (VBool true) "a"] [])).1
    = mkOne StatusOK (Some (true, mkText (lit "a"))) /\
  eo_value (queryOneAs (T := bool * Text) OnClient (lit "SELECT") None demo_state).1 = None.
Proof.
  split; [vm_compute; reflexivity|].
  destruct (queryOneAs_spec (T := bool * Text) OnClient (lit "SELECT") None demo_state) as (_ & [H _] & _).
  destruct (eo_value _) as [v|]; [|reflexivity]. destruct (H ltac:(discriminate)) as (_ & row & item & Hr & _).
  discriminate Hr.
Defined.

(** An insert gives the entity its generated key. *)
Example insert_fills_key :
  let m := field (mkMember fst (fun x e => (x, e.2))) (lit "id") (flags_or FPrimaryKey FGenerated)
    (field (mkMember snd (fun x e => (e.1, x))) (lit "name") FNone no_mapping) in
  let r := @insertAs_client _ (CInt int64 * Text) _ (Build_RowMapper _ m (mkCInt 0, mkText []))
    (lit "t") (mkCInt 0, mkText (lit "n")) (mkDemoClient [] []) in
  st_ok (wr_status r.1.1) = true /\ r.1.2 = (mkCInt 42, mkText (lit "n")).
Proof. split; vm_compute; reflexivity. Qed.
