(* ===== verification/Utf8.v ===== *)
(** * UTF-8 to wide characters

    [utf8ToSqlWide] of src/driver/odbc_driver.cpp and the encodings it goes between:
    it accepts the UTF-8 of sequences of Unicode scalar values and nothing else, and
    its result is their UTF-16 (or UTF-32), with a terminating zero. *)
From stdpp Require Import base list.
From Stdlib Require Import Ascii ZArith Lia.
From S2P Require Import Prelude Timestamps.

Open Scope Z_scope.

(** [static_cast<unsigned char>(c)] *)
Definition byte (c : ascii) : Z := Z.of_N (code c).

(** ** The code *)

(** The bits of the first byte, and how many bytes follow it. *)
Definition utf8_lead (first : Z) : option (Z * nat) :=
  if first <=? 127 then Some (first, 0%nat)
  else if Z.land first 224 =? 192 then Some (Z.land first 31, 1%nat)
  else if Z.land first 240 =? 224 then Some (Z.land first 15, 2%nat)
  else if Z.land first 248 =? 240 then Some (Z.land first 7, 3%nat)
  else None.
(** The loop over the bytes that follow: the code point, and the text after them. *)
Fixpoint utf8_continue (extra : nat) (codePoint : Z) (s : str) : option (Z * str) :=
  match extra, s with
  | O, _ => Some (codePoint, s)
  | S extra', c :: s' =>
      if negb (Z.land (byte c) 192 =? 128) then None
      else utf8_continue extra' (Z.lor (Z.shiftl codePoint 6) (Z.land (byte c) 63)) s'
  | S _, [] => None
  end.
Definition utf8_refused (extra : nat) (codePoint : Z) : bool :=
  ((extra =? 1)%nat && (codePoint <? 128)) || ((extra =? 2)%nat && (codePoint <? 2048)) ||
  ((extra =? 3)%nat && (codePoint <? 65536)) || (1114111 <? codePoint) ||
  ((55296 <=? codePoint) && (codePoint <=? 57343)).
(** One turn of the loop. *)
Definition utf8_next (s : str) : option (Z * str) :=
  match s with
  | [] => None
  | c :: s' =>
      '(bits, extra) ← utf8_lead (byte c);
      if (length s <=? extra)%nat then None
      else
        '(codePoint, rest) ← utf8_continue extra bits s';
        if utf8_refused extra codePoint then None else Some (codePoint, rest)
  end.

Section Wide.
(** [sizeof(SQLWCHAR) == 2] *)
Context (wide16 : bool).
Definition wide_units (codePoint : Z) : list Z :=
  if wide16 then
    if codePoint <=? 65535 then [codePoint]
    else
      let codePoint := codePoint - 65536 in
      [55296 + Z.shiftr codePoint 10; 56320 + Z.land codePoint 1023]
  else [codePoint].
(** Every turn consumes a byte: the length of the text is enough fuel. *)
Fixpoint wide_loop (fuel : nat) (s : str) : option (list Z) :=
  match s, fuel with
  | [], _ => Some []
  | _, O => None
  | _, S fuel' =>
      '(codePoint, rest) ← utf8_next s;
      out ← wide_loop fuel' rest;
      Some (wide_units codePoint ++ out)
  end.
Definition utf8ToSqlWide (text : str) : option (list Z) :=
  out ← wide_loop (length text) text; Some (out ++ [0]).
End Wide.

(** ** The encodings *)
Definition scalar (u : Z) : Prop := 0 <= u < 55296 \/ 57343 < u <= 1114111.
(** RFC 3629 *)
Definition utf8_of (u : Z) : list Z :=
  if u <? 128 then [u]
  else if u <? 2048 then [192 + u / 64; 128 + u mod 64]
  else if u <? 65536 then [224 + u / 4096; 128 + u / 64 mod 64; 128 + u mod 64]
  else [240 + u / 262144; 128 + u / 4096 mod 64; 128 + u / 64 mod 64; 128 + u mod 64].
Definition utf16_of (u : Z) : list Z :=
  if u <? 65536 then [u] else [55296 + (u - 65536) / 1024; 56320 + (u - 65536) mod 1024].
Definition wide_of (wide16 : bool) (u : Z) : list Z := if wide16 then utf16_of u else [u].
Definition utf8_encoded (us : list Z) (text : str) : Prop := map byte text = concat (map utf8_of us).

(** ** Bits and bytes *)
Lemma byte_range c : 0 <= byte c < 256.
Proof. unfold byte, code. pose proof (N_ascii_bounded c). lia. Qed.
Lemma byte_inj a b : byte a = byte b -> a = b.
Proof.
  unfold byte, code. intros H. rewrite <- (ascii_N_embedding a), <- (ascii_N_embedding b). f_equal. lia.
Qed.
Lemma bytes_inj a b : map byte a = map byte b -> a = b.
Proof.
  revert b. induction a as [|x a IH]; intros [|y b]; cbn; try done.
  intros [= H1 H2]. by rewrite (byte_inj _ _ H1), (IH _ H2).
Qed.
Lemma low_bits z k : 0 <= k -> Z.land z (2 ^ k - 1) = z mod 2 ^ k.
Proof. intros Hk. rewrite <- (Z.land_ones z k Hk), Z.ones_equiv. do 2 f_equal. Qed.
Lemma low6 z : Z.land z 63 = z mod 64.
Proof. exact (low_bits z 6 ltac:(lia)). Qed.
Lemma low10 z : Z.land z 1023 = z mod 1024.
Proof. exact (low_bits z 10 ltac:(lia)). Qed.
Lemma high10 z : Z.shiftr z 10 = z / 1024.
Proof. by rewrite Z.shiftr_div_pow2. Qed.
Lemma shift_in a r : 0 <= r < 64 -> Z.lor (Z.shiftl a 6) r = a * 64 + r.
Proof.
  intros Hr. assert (Z.land (Z.shiftl a 6) r = 0) as Hl.
  { apply Z.bits_inj'. intros n Hn. rewrite Z.land_spec, Z.bits_0.
    destruct (Z.ltb_spec n 6); [by rewrite Z.shiftl_spec_low|].
    replace r with (r mod 2 ^ 6) by (rewrite Z.mod_small; lia).
    by rewrite Z.mod_pow2_bits_high, andb_false_r by lia. }
  pose proof (Z.add_lor_land (Z.shiftl a 6) r) as H. rewrite Hl in H.
  rewrite Z.shiftl_mul_pow2 in * by lia. lia.
Qed.
(** A statement about a byte by its 256 cases. *)
Definition bytes : list Z := map Z.of_nat (seq 0 256).
Lemma by_cases (P : Z -> bool) z : 0 <= z < 256 -> forallb P bytes = true -> P z = true.
Proof.
  intros Hz H. rewrite forallb_forall in H. apply H. unfold bytes. apply in_map_iff.
  exists (Z.to_nat z). split; [lia|]. apply in_seq. lia.
Qed.
Lemma lead_spec b : 0 <= b < 256 ->
  utf8_lead b = if b <? 128 then Some (b, 0%nat) else if b <? 192 then None
                else if b <? 224 then Some (b - 192, 1%nat)
                else if b <? 240 then Some (b - 224, 2%nat)
                else if b <? 248 then Some (b - 240, 3%nat) else None.
Proof.
  intros Hb.
  assert (bool_decide (utf8_lead b = if b <? 128 then Some (b, 0%nat) else if b <? 192 then None
                else if b <? 224 then Some (b - 192, 1%nat)
                else if b <? 240 then Some (b - 224, 2%nat)
                else if b <? 248 then Some (b - 240, 3%nat) else None) = true) as H.
  { revert b Hb. intros b Hb. apply (by_cases (fun b => bool_decide (utf8_lead b = _)) b Hb). by vm_compute. }
  by apply bool_decide_eq_true in H.
Qed.
Lemma follows_spec b : 0 <= b < 256 -> (Z.land b 192 =? 128) = (128 <=? b) && (b <? 192).
Proof.
  intros Hb. assert (Bool.eqb (Z.land b 192 =? 128) ((128 <=? b) && (b <? 192)) = true) as H
    by (by apply (by_cases (fun b => Bool.eqb (Z.land b 192 =? 128) ((128 <=? b) && (b <? 192))) b Hb); vm_compute).
  by apply eqb_prop in H.
Qed.

Lemma continue_cons n u c s : utf8_continue (S n) u (c :: s) =
  if (128 <=? byte c) && (byte c <? 192) then utf8_continue n (u * 64 + (byte c - 128)) s else None.
Proof.
  cbn [utf8_continue]. pose proof (byte_range c) as Hc. rewrite (follows_spec _ Hc).
  destruct ((128 <=? byte c) && (byte c <? 192)) eqn:E; [|done]. cbn [negb]. bool_prop.
  rewrite low6, shift_in by (apply Z.mod_pos_bound; lia). do 3 f_equal.
  symmetry. apply Z.mod_unique with 2; lia.
Qed.
Definition follows (b : Z) : Prop := 128 <= b < 192.
Definition collect (u : Z) (bs : list Z) : Z := fold_left (fun u b => u * 64 + (b - 128)) bs u.
Lemma continue_spec n u s v rest : utf8_continue n u s = Some (v, rest) <->
  exists bs, length bs = n /\ Forall follows bs /\ map byte s = bs ++ map byte rest /\ v = collect u bs.
Proof.
  revert u s. induction n as [|n IH]; intros u s.
  - cbn. split.
    + intros [= <- <-]. by exists [].
    + intros (bs & Hl & _ & Hs & ->). apply nil_length_inv in Hl as ->. cbn in *.
      by apply bytes_inj in Hs as ->.
  - destruct s as [|c s].
    { split; [done|]. intros ([|b bs] & Hl & _ & Hs & _); done. }
    rewrite continue_cons. split.
    + destruct (_ && _) eqn:E; [|done]. intros H. apply IH in H as (bs & Hl & Hf & Hs & ->). bool_prop.
      exists (byte c :: bs). cbn. rewrite Hl, Hs. split_and!; [done | by constructor | done..].
    + intros ([|b bs] & Hl & Hf & Hs & ->); [done|]. cbn in Hs. injection Hs as Hb Hs. injection Hl as Hl.
      inversion Hf as [|? ? H1 H2]; subst. unfold follows in H1.
      rewrite (proj2 (Z.leb_le _ _)), (proj2 (Z.ltb_lt _ _)) by lia. cbn [andb]. apply IH. by exists bs.
Qed.

(** ** One character *)
Lemma three (bs : list Z) n : length bs = n -> (n <= 3)%nat ->
  match n with
  | 0%nat => bs = []
  | 1%nat => exists a, bs = [a]
  | 2%nat => exists a b, bs = [a; b]
  | _ => exists a b c, bs = [a; b; c]
  end.
Proof. destruct bs as [|a [|b [|c [|d bs]]]]; cbn; intros <- H; eauto; lia. Qed.
#[local] Ltac tests := repeat (first [ rewrite (proj2 (Z.ltb_lt _ _)) by lia | rewrite (proj2 (Z.ltb_ge _ _)) by lia
                            | rewrite (proj2 (Z.leb_le _ _)) by lia | rewrite (proj2 (Z.leb_gt _ _)) by lia ]).
(** The character that a lead byte and [n] others make. *)
Lemma next_spec s u rest : utf8_next s = Some (u, rest) <->
  exists b0 bits bs, utf8_lead b0 = Some (bits, length bs) /\ Forall follows bs
    /\ map byte s = b0 :: bs ++ map byte rest /\ u = collect bits bs /\ utf8_refused (length bs) u = false.
Proof.
  destruct s as [|c s]; [split; [done|]; by intros (? & ? & ? & _ & _ & ? & _)|]. unfold utf8_next. split.
  - destruct (utf8_lead (byte c)) as [[bits n]|] eqn:El; cbn [mbind option_bind]; [|done].
    destruct (length _ <=? _)%nat; [done|].
    destruct (utf8_continue n bits s) as [[v r]|] eqn:Ec; cbn [mbind option_bind]; [|done].
    destruct (utf8_refused n v) eqn:Er; [done|]. intros [= -> ->].
    apply continue_spec in Ec as (bs & <- & Hf & Hs & ->). exists (byte c), bits, bs. cbn. by rewrite Hs.
  - intros (b0 & bits & bs & El & Hf & Hs & -> & Er). cbn in Hs. injection Hs as -> Hs. rewrite El. cbn [mbind option_bind].
    assert (length (c :: s) = S (length bs + length rest)) as Hl.
    { cbn. f_equal. apply (f_equal length) in Hs. by rewrite length_app, !length_map in Hs. }
    rewrite Hl, (proj2 (Nat.leb_gt _ _)) by lia.
    assert (utf8_continue (length bs) bits s = Some (collect bits bs, rest)) as Ec by (apply continue_spec; by exists bs).
    rewrite Ec. cbn [mbind option_bind]. by rewrite Er.
Qed.
Lemma lead_le b0 bits n : utf8_lead b0 = Some (bits, n) -> (n <= 3)%nat.
Proof. unfold utf8_lead. repeat case_match; intros [= _ <-]; lia. Qed.
Lemma next_decodes s u rest : utf8_next s = Some (u, rest) ->
  scalar u /\ map byte s = utf8_of u ++ map byte rest.
Proof.
  intros H. apply next_spec in H as (b0 & bits & bs & El & Hf & Hs & Hu & Er).
  assert (0 <= b0 < 256) as Hb.
  { destruct s as [|c s]; [done|]. cbn in Hs. injection Hs as <- _. apply byte_range. }
  pose proof (three bs _ eq_refl (lead_le _ _ _ El)) as Hn. rewrite lead_spec in El by done.
  unfold scalar, utf8_of, utf8_refused, collect, follows in *. rewrite Hs.
  destruct (b0 <? 128) eqn:E1; [|destruct (b0 <? 192) eqn:E2; [done|]; destruct (b0 <? 224) eqn:E3;
    [|destruct (b0 <? 240) eqn:E4; [|destruct (b0 <? 248) eqn:E5; [|done]]]];
    injection El as <- En; rewrite <- En in *; cbn in Er; bool_prop.
  - subst. cbn in *. split; [lia|]. by tests.
  - destruct Hn as (a & ->). rewrite !Forall_cons in Hf. cbn in Hu. bool_prop.
    split; [lia|]. tests. cbn. do 2 f_equal; [zdiv|]. f_equal; zdiv.
  - destruct Hn as (a & b & ->). rewrite !Forall_cons in Hf. cbn in Hu. bool_prop.
    split; [lia|]. tests. cbn. repeat f_equal; zdiv.
  - destruct Hn as (a & b & c & ->). rewrite !Forall_cons in Hf. cbn in Hu. bool_prop.
    split; [lia|]. tests. cbn. repeat f_equal; zdiv.
Qed.
Lemma next_encoded s u rest : scalar u -> map byte s = utf8_of u ++ map byte rest -> utf8_next s = Some (u, rest).
Proof.
  intros Hu Hs. apply next_spec. unfold scalar, utf8_of, utf8_refused, collect, follows in *.
  destruct (u <? 128) eqn:E1; [|destruct (u <? 2048) eqn:E2; [|destruct (u <? 65536) eqn:E3]]; bool_prop.
  - exists u, u, []. rewrite lead_spec by lia. cbn. tests. split_and!; try done.
  - exists (192 + u / 64), (u / 64), [128 + u mod 64]. assert (2 <= u / 64 < 32) by zdiv. rewrite lead_spec by lia. cbn. tests.
    split_and!; [do 2 f_equal; lia | repeat constructor; zdiv | done | zdiv | by tests].
  - exists (224 + u / 4096), (u / 4096), [128 + u / 64 mod 64; 128 + u mod 64]. assert (0 <= u / 4096 < 16) by zdiv.
    rewrite lead_spec by lia. cbn. tests.
    split_and!; [do 2 f_equal; lia | repeat constructor; zdiv | done | zdiv |].
    cbn [orb].
    destruct Hu; [rewrite (proj2 (Z.leb_gt 55296 u)) by lia; done|].
    rewrite (proj2 (Z.leb_gt u 57343)) by lia. by rewrite andb_false_r.
  - exists (240 + u / 262144), (u / 262144), [128 + u / 4096 mod 64; 128 + u / 64 mod 64; 128 + u mod 64].
    assert (0 <= u / 262144 < 5) by zdiv. rewrite lead_spec by lia. cbn. tests.
    split_and!; [do 2 f_equal; lia | repeat constructor; zdiv | done | zdiv | by tests].
Qed.

(** ** The text *)
Lemma next_shorter s u rest : utf8_next s = Some (u, rest) -> (length rest < length s)%nat.
Proof.
  intros H. apply next_decodes in H as [_ H]. apply (f_equal length) in H.
  rewrite length_app, !length_map in H. assert (length (utf8_of u) <> 0%nat); [|lia].
  unfold utf8_of. by repeat case_match.
Qed.
Lemma units_spec wide16 u : scalar u -> wide_units wide16 u = wide_of wide16 u.
Proof.
  intros Hu. unfold wide_units, wide_of, utf16_of. destruct wide16; [|done]. cbv zeta. rewrite high10, low10.
  destruct (Z.ltb_spec u 65536); by tests.
Qed.
Lemma loop_spec wide16 fuel s ws : (length s <= fuel)%nat ->
  wide_loop wide16 fuel s = Some ws <->
  exists us, Forall scalar us /\ utf8_encoded us s /\ ws = concat (map (wide_of wide16) us).
Proof.
  unfold utf8_encoded. revert s ws. induction fuel as [|fuel IH]; intros s ws Hl.
  - destruct s; [|cbn in Hl; lia]. cbn. split.
    + intros [= <-]. by exists [].
    + intros ([|u us] & Hu & Hs & ->); [done|]. cbn in Hs. unfold utf8_of in Hs. by repeat case_match.
  - destruct s as [|c s].
    { cbn. split; [intros [= <-]; by exists []|].
      intros ([|u us] & Hu & Hs & ->); [done|]. cbn in Hs. unfold utf8_of in Hs. by repeat case_match. }
    cbn [wide_loop]. split.
    + destruct (utf8_next (c :: s)) as [[u rest]|] eqn:En; cbn [mbind option_bind]; [|done].
      destruct (wide_loop wide16 fuel rest) as [out|] eqn:Eo; cbn [mbind option_bind]; [|done]. intros [= <-].
      pose proof (next_shorter _ _ _ En) as Hr. apply next_decodes in En as [Hu Hs].
      apply IH in Eo as (us & Hus & Es & ->); [|lia]. exists (u :: us). cbn [map concat].
      change (byte c :: map byte s) with (map byte (c :: s)). rewrite <- Es, Hs, units_spec by done. split_and!; [by constructor | done..].
    + intros ([|u us] & Hu & Hs & ->); [done|]. inversion Hu as [|? ? H1 H2]; subst. cbn [map concat] in Hs.
      assert (exists rest, map byte rest = concat (map utf8_of us)) as (rest & Hr).
      { exists (drop (length (utf8_of u)) (c :: s)). 
        transitivity (drop (length (utf8_of u)) (map byte (c :: s))); [exact (fmap_drop byte _ (c :: s))|].
        cbn [map]. rewrite Hs. apply drop_app_length. }
      change (byte c :: map byte s) with (map byte (c :: s)) in Hs. rewrite <- Hr in Hs. pose proof (next_encoded _ _ _ H1 Hs) as En. rewrite En. cbn [mbind option_bind].
      pose proof (next_shorter _ _ _ En) as Hl'. cbn [length] in *.
      assert (wide_loop wide16 fuel rest = Some (concat (map (wide_of wide16) us))) as Er
        by (apply IH; [lia | by exists us]).
      rewrite Er. cbn [mbind option_bind map concat]. by rewrite units_spec.
Qed.
(** the conversion of a text accepts it exactly when it is the UTF-8 of a sequence of
    Unicode scalar values, neither overlong forms nor surrogates nor code points past
    the last, and then answers their UTF-16 (UTF-32 where a wide character has four
    bytes) with a terminating zero. *)
Theorem utf8ToSqlWide_spec wide16 text ws :
  utf8ToSqlWide wide16 text = Some ws <->
  exists us, Forall scalar us /\ utf8_encoded us text /\ ws = concat (map (wide_of wide16) us) ++ [0].
Proof.
  unfold utf8ToSqlWide. destruct (wide_loop wide16 (length text) text) as [out|] eqn:E; cbn [mbind option_bind].
  - apply loop_spec in E as (us & H1 & H2 & ->); [|lia]. split.
    + intros [= <-]. by exists us.
    + intros (us' & H1' & H2' & ->).
      assert (wide_loop wide16 (length text) text = Some (concat (map (wide_of wide16) us))) as E1
        by (apply loop_spec; [lia | by exists us]).
      assert (wide_loop wide16 (length text) text = Some (concat (map (wide_of wide16) us'))) as E2
        by (apply loop_spec; [lia | by exists us']).
      rewrite E1 in E2. by injection E2 as ->.
  - split; [done|]. intros (us & H1 & H2 & ->).
    assert (wide_loop wide16 (length text) text = Some (concat (map (wide_of wide16) us))) as E1
      by (apply loop_spec; [lia | by exists us]). by rewrite E in E1.
Qed.

(** The Euro sign and a character outside the first plane. *)
Example wide_euro :
  utf8ToSqlWide true (map (fun n => ascii_of_nat n) [226; 130; 172; 240; 159; 152; 128; 65]%nat)
  = Some [8364; 55357; 56832; 65; 0].
Proof. by vm_compute. Qed.
Example wide_overlong : utf8ToSqlWide true (map (fun n => ascii_of_nat n) [192; 128]%nat) = None.
Proof. by vm_compute. Qed.
